(* ===== verification/_CoqProject ===== *)
-Q . S2P
Prelude.v
Effects.v
Utf8.v
Sha256.v
StdMap.v
Json.v
JsonFacts.v
JsonParse.v
JsonProps.v
JsonBudget.v
Path.v
PathFacts.v
TargetPolicy.v
World.v
RecordIo.v
RecordFacts.v
DirectoryFacts.v
TextFacts.v
JsonText.v
AuditLog.v
AuditFacts.v
AuditAppend.v
StreamJournal.v
Journal.v
JournalText.v
SessionHost.v
HostFacts.v
Maintenance.v
Session.v
Recovery.v
SessionSteps.v
SessionFacts.v
JournalFacts.v
StreamFacts.v
JournalRoundTrip.v
RecoveryFacts.v
MaintenanceFacts.v
MaintenanceWriter.v
MaintenanceAppend.v
InstallLease.v
InstallLeaseFacts.v
LeaseHistory.v
SessionConfined.v
SessionDurable.v
SessionOrder.v
SessionLifecycle.v
StateRepository.v
StateFacts.v
InstalledFacts.v
StateHost.v
Replacement.v
ReplacementJournal.v
TreeFacts.v
ReplacementSnapshot.v
ReplacementHost.v
CalmFacts.v
ReplacementSteps.v
ReplacementComplete.v
ReplacementConfined.v
Archive.v
ArchivePaths.v
ArchiveFacts.v
ArchivePayload.v
ArchiveStream.v
ArchiveReads.v
ArchiveStreamFacts.v
ArchiveEnds.v
ArchiveSample.v
LiveEvidence.v
LiveEvidenceFacts.v
LiveEvidencePacket.v
LiveEvidenceSnapshot.v
PackageVerify.v
PackageHost.v
PackageFacts.v
TargetInspect.v
TargetFacts.v
RetirementHistory.v
Publisher.v
PublisherFacts.v
