(* ===== verification/Prelude.v ===== *)
(** Universal Setup: a verification of the portable core of the setup kernel.

    * The program

    The kernel installs, repairs, moves and removes a product directory, and
    survives interruption at any point.  Its portable core, under
    [src/runtime/], is layered:

    - [base]: JSON values with a bounded parser and a canonical encoding,
      SHA-256, UTF-8 and path checks, files that are re-verified after reading,
      records that are created once and made durable;
    - [setup/policy]: the inspection of a live target, and the pure decision
      whether it may be used;
    - [setup/audit]: append-only chains of digest-linked events;
    - [setup/package]: the inspection of a ZIP archive before anything is
      written, and of its payload, at once or in pieces;
    - [setup/verify]: the verification of an unpacked package against its
      manifest, components and hash table;
    - [setup/evidence]: sealed packets of evidence about a live target, the
      operator's verdict on them, and the snapshot of a target;
    - [setup/state]: the repository of installed states and of the ownership
      manifests they refer to;
    - [setup/transaction]: the transaction session, a state machine whose
      journal is published before every visible effect, with the readers that
      resume it after a crash; the stream section of its journal; the closure
      that a commit binds; the replacement session, which exchanges one root
      for another in announced moves; the maintenance journal of single effects;
      and the installation lease, a protocol of sealed ownership records;
    - [setup/lifecycle]: the operations that put these together, of which only the
      reading of the lease history of a retirement is modelled;
    - [command]: the commands, of which only the client of the publisher service is
      modelled: it submits a request once and accounts for its outcome.

    The upper layers call the lower ones only through the functions modelled
    here: every record is canonical JSON text, sealed by a SHA-256, written
    through record IO and read back through stable files.

    * The files and what they model

    Shared: [Prelude] (results, strings and integers, tactics), [Effects] (state
    and exceptions, invariants of effectful code), [StdMap] (the C++ map and
    set), [World] (the host: a POSIX file system, the clock, the process),
    [SortFacts] in [TextFacts] (sorting), [ParseErrors] in [JsonProps] (what a handler sees of the parser),
    [TreeFacts] (well-formed trees and their moves), [HostFacts] and [CalmFacts]
    (calls on an undisturbed host, and on one where only this process acts).

    [base]: [Json] is [usk_json.cpp] with [JsonFacts], [JsonParse], [JsonProps],
    [JsonText], [TextFacts] and [JsonBudget] about it; [Sha256] is
    [usk_sha256.cpp]; [Utf8], [Path] and [PathFacts] are [usk_utf8_path.cpp] and
    the path helpers of the session; [RecordIo] is [usk_stable_file.cpp] and
    [usk_record_io.cpp], with [RecordFacts] and [DirectoryFacts].

    [setup/policy]: [TargetPolicy] is [usk_target_policy.cpp]; [TargetInspect] is
    [usk_target_inspect.cpp] on Linux, and [TargetFacts] is about it.

    [setup/audit]: [AuditLog] is [usk_audit_repository.cpp]; [AuditFacts] and
    [AuditAppend] are about it.

    [setup/state]: [StateRepository] is [usk_state_repository.cpp];
    [StateFacts] (manifests), [InstalledFacts] (states) and [StateHost] (the
    operations on a host, and concrete records) are about it.

    [setup/package]: [Archive] is the first part of [usk_archive_inspect.cpp]
    (request, ZIP structures, entry paths, budgets, response), [ArchivePayload]
    its payload read at once and the CRC, with the facts about the CRC in its
    module [ArchiveCrc], [ArchiveStream] its readers and the
    payload read in pieces; [ArchivePaths] (names and collisions),
    [ArchiveFacts] (soundness of an inspection), [ArchiveReads] (reads and inflation), [ArchiveStreamFacts] (both payloads), [ArchiveEnds]
    (termination) and [ArchiveSample] (a concrete archive) are about them.

    [setup/verify]: [PackageVerify] is [usk_package_verify.cpp] with
    [sha256_hex_file] of [usk_sha256.cpp]; [PackageHost] (links, reads and the
    traversal on an undisturbed host) and [PackageFacts] (the hash table, the
    verdicts, a concrete package) are about it.

    [setup/evidence]: [LiveEvidence] is [usk_live_evidence.cpp];
    [LiveEvidenceFacts] (sealed packets and verdicts), [LiveEvidencePacket] (the
    packets that are built, and the repository) and [LiveEvidenceSnapshot] (the
    snapshot of a target, and concrete cases) are about it.

    [setup/transaction]: [StreamJournal] is [usk_stream_entry_journal.cpp];
    [Journal], [SessionHost], [Session] and [Recovery] are
    [usk_transaction_session.cpp] and [usk_commit_authority.cpp] (document, host
    helpers, member functions, resuming and inspection); [Maintenance] is
    [usk_maintenance_effect_journal.cpp]; [InstallLease] is
    [usk_install_lease.cpp]; [Replacement] is [usk_replacement_session.cpp],
    with [ReplacementJournal] (its records), [ReplacementSnapshot] (the digest of
    a tree), [ReplacementHost] (inspection), [ReplacementSteps] (the session under
    failure), [ReplacementComplete] (undisturbed), [ReplacementConfined] (on any
    host, and a concrete exchange in its module [ReplacementSample]).  The other files of these
    names hold the theorems.

    [setup/lifecycle]: [RetirementHistory] is
    [usk_owned_retirement_lease_history_internal.cpp], with the histories it
    accepts in its module [RetirementFacts].

    [command]: [Publisher] is [usk_publisher_recovery_request_internal.cpp],
    [usk_publisher_response_internal.cpp] and
    [usk_publisher_client_context_internal.cpp]; [PublisherFacts] (what an execution
    sends and answers, and the recovery requests in its module [PublisherRecovery]) is
    about it.

    A class is a record of its members ([TransactionSession],
    [EffectJournal], [Reader]); a member function is a computation on that
    record and the host which keeps the state it has reached when it throws,
    as the C++ object does.  Exceptions carry the message of the source.
    [std::uint64_t] is [N] with the source's range checks written out; a
    [std::string] is a sequence of bytes.

    * The host

    One system call is one step of a [world].  Before a step anything else on
    the host may change the file system, the process may die, and the call may
    fail: three oracles decide.  Theorems fall in three groups, and each says
    which it belongs to: under every oracle; on a host where nothing else acts
    but calls fail and the process dies; and on an undisturbed host, where
    results are exact ([quiet]).

    * What is proved

    - Base.  The parser always ends, is bounded by its limits and reads back
      canonical text; canonical text is a normal form and injective; chunked
      and buffered hashing equal the reference SHA-256; the encoding budgets
      equal the parser's acceptance; the UTF-8 check equals the image of the
      encoder; path checks equal statements about components; a durable record
      reads back byte for byte, and writing one creates nothing else.
    - Target policy.  Acceptance is exactly the stated conjunction; the bound
      bytes determine every decision input.
    - Target inspection.  On an undisturbed host an inspection ends and changes
      nothing, and an accepted target is what the policy asks for, in terms of
      the file system.  The
      environment, the mount table and the free space are parameters, as is the
      name that links and dot components stand for, with the same law as below.
    - Audit chain.  Append adds one record, and the next read gives the old chain
      and the event, or throws, exactly as the event can be read back; what is
      read is complete and linked; a last digest determines the chain up to a
      SHA-256 collision.
    - Transaction session.  Every client, host and outcome keeps the session
      invariant and refines an abstract lifecycle; effects are confined to the
      journal, the staging root and one move, and bytes to files it has created; when a call returns, the newest
      journal describes the object; the move is announced by a journal first;
      a closed latch is never reopened and grants no rollback.
    - Recovery.  The journal round trip, stream section included; the two
      journal readers agree and accept only numbered paths of the state graph;
      a resumed session satisfies the invariant of a live one.
    - Maintenance journal.  A command whose effect the parser can read back,
      followed by an inspection, end to end; an
      accepted journal is an original context followed by alternating intents
      and completions; its last digest determines every byte.
    - Installation lease.  The accepted records are exactly the sealed encodings
      of abstract leases; acquisition, use and finish succeed exactly under the
      stated conditions; the accepted histories are exactly the chains of the
      protocol; a last record determines its history up to a collision.  The
      history of a retirement is accepted exactly when it divides into whole
      operations of the stated kind, which the result lists.
    - Replacement session.  The specification determines one journal, and the
      reader accepts exactly its beginnings; on every host a session touches
      nothing but its journal and makes only its two moves, none under the
      stronger authority; whatever fails, both roots stay whole and the inspection
      says where they are or that the journal is corrupt; undisturbed, the
      exchange completes.  Where the reader has to read a record back, its texts are
      UTF-8 and it is at most 1 MiB.
    - State repository.  The accepted manifests are exactly those of the stated
      closure, their streamed digest is that of the canonical payload, and both
      kinds of record read back exactly within the parser's bounds; what a read
      returns is valid and backed by a sealed manifest on every host; recording
      an installation within those bounds, end to end, makes it the current state.
    - Archive inspection.  On every host an inspection that returns is sound:
      within its budgets, with entries that lie in disjoint ranges of the file
      and have safe, distinct paths; the accepted names and the accepted sets of
      paths are exactly characterised; a payload, at once or in pieces, consists
      of the bytes of the reviewed file entries below the requested prefix; the
      table-driven CRC equals the
      bitwise one.  zlib is a parameter with the contract [Decoder].
    - Package verification.  On an undisturbed host every request is answered
      and nothing is changed; when integrity and completeness pass, the regular
      files below the root are exactly those of the hash table, each with its
      digest, and nothing there is a link; the hash table is read exactly; a
      quoted string is read back unless it holds a control character without a
      short escape.  What a name through links stands for is a parameter with
      the law [LinkResolution], the steady clock one without any.
    - Live evidence.  A packet is made of exactly the valid inputs, whatever the
      order of their lists; a verdict is recorded once, on exactly the accepted
      pending packets; a digest determines its packet; a stored packet is read
      back unless its text reaches 4 MiB; a snapshot succeeds on exactly the
      plain trees within the budgets and determines them.

    - Publisher client.  The accepted recovery requests are exactly the encodings of
      the three kinds of request; whatever the callbacks do and whichever allocations
      fail, an execution sends at most one message and its answer accounts for it.

    * Bounds and fuel

    Recursion that is not structural takes fuel computed from the input: the
    parser takes two units per byte ([parse_fuel]), hashing one per
    byte, reading and writing loops one per byte plus one, decimal printing the
    binary length of the number, the parents of a path the length of the path,
    the loops over an archive and over the components of a package one per byte
    of what they scan, the hashing of a file one per 64 KiB and one more.
    [parse_terminates], [archive_inspection_ends] and the lemmas on the loops
    show that it is never used up; a model that runs out returns [out_of_fuel],
    which is no C++ exception and which no theorem accepts as a result.  The byte, depth, value and record
    limits are the constants of the sources.

    * What is not modelled

    The Win32 branches of the files above and the native maintenance owner (no
    owner exists on the modelled host), the replaceable record writer of the
    tests, the budget variant that identifies an array by its address, and the
    operating system's part of some messages.  zlib's inflate and the capacity
    that a vector takes are parameters; the allocation of a response is not
    modelled.  A directory iterator lists its tree in one step, where the sources
    read it as they go.  In a snapshot of a target, what [fs::relative] yields
    across a symbolic link is taken as an error.  The client of the publisher is
    built without a transport of its own, as it is off Windows: the callbacks of an
    execution are parameters.  Whole parts: the streaming of
    archive members into a session; the rest of the lifecycle orchestration and of the
    command layer, and the platform layer, which drive Windows services; zlib,
    which is vendored; diagnostics counters. *)

From Stdlib Require Import Ascii String NArith ZArith Lia.
From stdpp Require Import base list strings option.

#[global] Open Scope N_scope.
#[global] Arguments String.append : simpl nomatch.

(** * Exceptions

    The sources report every refusal by throwing.  A fallible function returns
    a [result]; the exception carries the text of the C++ object.
    The last two are no C++ exceptions and no handler of the models sees them:
    [killed] ends a run of the effectful models at an arbitrary point, and
    [out_of_fuel] is what a fuelled model returns when its fuel runs out; the
    termination theorems show that the entry points never do. *)

Inductive exn : Type :=
| runtime_error (what : string)
| logic_error (what : string)
| killed
| out_of_fuel.

Inductive result (A : Type) : Type :=
| Ok (a : A)
| Throw (e : exn).
Arguments Ok {A} _.
Arguments Throw {A} _.

#[global] Instance exn_eq_dec : EqDecision exn.
Proof. solve_decision. Defined.

#[global] Instance result_eq_dec {A} `{EqDecision A} : EqDecision (result A).
Proof. solve_decision. Defined.

#[global] Instance result_ret : MRet result := fun A a => Ok a.
#[global] Instance result_bind : MBind result := fun A B f m =>
  match m with Ok a => f a | Throw e => Throw e end.
#[global] Instance result_fmap : FMap result := fun A B f m =>
  match m with Ok a => Ok (f a) | Throw e => Throw e end.

(** [throw std::runtime_error(what)] and its guarded form. *)
Definition throw {A} (what : string) : result A := Throw (runtime_error what).

Definition throw_if (c : bool) (what : string) : result unit :=
  if c then throw what else Ok tt.

(** [a || b] and [a && b] where evaluating an operand may throw. *)
Definition or_else (a b : result bool) : result bool :=
  x ← a; if (x : bool) then Ok true else b.

Definition and_also (a b : result bool) : result bool :=
  x ← a; if (x : bool) then b else Ok false.

Infix "|||" := or_else (at level 50, left associativity).
Infix "&&&" := and_also (at level 40, left associativity).

Definition is_ok {A} (r : result A) : bool :=
  match r with Ok _ => true | Throw _ => false end.

(** [for (const auto& x : l) body(x)] where the body may throw. *)
Fixpoint fold_result {A B} (f : B → A → result B) (b : B) (l : list A) : result B :=
  match l with
  | [] => Ok b
  | x :: l => b' ← f b x; fold_result f b' l
  end.

Definition map_result {A B} (f : A → result B) (l : list A) : result (list B) :=
  fold_right (fun x r => b ← f x; bs ← r; Ok (b :: bs)) (Ok []) l.

(** * Bytes and strings

    A [std::string] is a sequence of bytes: [string], whose characters are the
    256 values of [ascii].  [size] is [std::string::size] as an integer. *)

Definition code (c : ascii) : N := N_of_ascii c.
Definition size (s : string) : N := N.of_nat (String.length s).
Definition is_empty (s : string) : bool :=
  match s with EmptyString => true | _ => false end.

Definition dquote : ascii := ascii_of_N 34.
Definition backslash : ascii := ascii_of_N 92.

(** [s + c], [std::string::push_back]. *)
Definition push_back (s : string) (c : ascii) : string := s +:+ String c EmptyString.

(** A C string literal whose quotation marks are written as apostrophes: the
    literals of the sources contain no apostrophe of their own. *)
Fixpoint lit (s : string) : string :=
  match s with
  | EmptyString => EmptyString
  | String c s => String (if Ascii.eqb c (ascii_of_N 39) then dquote else c) (lit s)
  end.

(** The first [n] bytes of a text, and what follows them. *)
Fixpoint str_take (n : nat) (s : string) : string :=
  match n, s with
  | S n, String c s => String c (str_take n s)
  | _, _ => EmptyString
  end.

Fixpoint str_drop (n : nat) (s : string) : string :=
  match n, s with
  | S n, String _ s => str_drop n s
  | _, _ => s
  end.

Fixpoint forall_bytes (p : ascii → bool) (s : string) : bool :=
  match s with
  | EmptyString => true
  | String c s => p c && forall_bytes p s
  end.

Fixpoint map_bytes (f : ascii → ascii) (s : string) : string :=
  match s with
  | EmptyString => EmptyString
  | String c s => String (f c) (map_bytes f s)
  end.

Definition contains_byte (c : ascii) (s : string) : bool :=
  negb (forall_bytes (fun d => negb (Ascii.eqb c d)) s).

(** [std::isdigit], [std::isalnum], [std::tolower] in the "C" locale. *)
Definition in_range (lo hi : N) (c : ascii) : bool := (lo <=? code c) && (code c <=? hi).
Definition is_digit (c : ascii) : bool := in_range 48 57 c.
Definition is_lower_hex_alpha (c : ascii) : bool := in_range 97 102 c.
Definition is_alpha (c : ascii) : bool := in_range 65 90 c || in_range 97 122 c.
Definition is_alnum (c : ascii) : bool := is_digit c || is_alpha c.
Definition tolower (c : ascii) : ascii :=
  if in_range 65 90 c then ascii_of_N (code c + 32) else c.
Definition lowercase (s : string) : string := map_bytes tolower s.

Definition uint64_max : N := 18446744073709551615.

(** [std::to_string] of an unsigned integer. *)
Definition digit_char (d : N) : ascii := ascii_of_N (48 + d).

Fixpoint decimal_digits (fuel : nat) (n : N) (acc : string) : string :=
  match fuel with
  | O => acc
  | S fuel =>
    let acc := String (digit_char (n mod 10)) acc in
    if n <? 10 then acc else decimal_digits fuel (n / 10) acc
  end.

Definition to_string (n : N) : string :=
  decimal_digits (S (N.to_nat (N.log2 n))) n EmptyString.

(** Decimal, width 20, filled with zeros. *)
Definition pad20 (n : N) : string :=
  let s := to_string n in
  fold_right (fun _ s => String (ascii_of_N 48) s) s (seq 0 (20 - String.length s)).

(** The lexicographic order of [std::string], which compares unsigned bytes. *)
Definition string_ltb (a b : string) : bool :=
  match String.compare a b with Lt => true | _ => false end.

(** [std::sort] of texts. *)
Fixpoint insert_name (x : string) (l : list string) : list string :=
  match l with
  | [] => [x]
  | y :: l => if string_ltb y x then y :: insert_name x l else x :: y :: l
  end.

Definition sort_names (l : list string) : list string := fold_right insert_name [] l.

(** * Tactics *)

(** Invert a successful monadic computation found in a hypothesis. *)
Ltac inv_result :=
  repeat match goal with
  | H : mbind _ ?m = Ok _ |- _ =>
      let E := fresh "E" in
      destruct m eqn:E; simpl in H; [|discriminate H]
  | H : fmap _ ?m = Ok _ |- _ =>
      let E := fresh "E" in
      destruct m eqn:E; simpl in H; [|discriminate H]
  | H : Ok _ = Ok _ |- _ => injection H as H; subst
  | H : Throw _ = Ok _ |- _ => discriminate H
  | H : throw _ = Ok _ |- _ => discriminate H
  | H : throw_if ?c _ = Ok _ |- _ =>
      let E := fresh "Hg" in
      destruct c eqn:E; simpl in H; [discriminate H|clear H]
  end.

(** Split conjunctions and negations of boolean tests. *)
Ltac bool_hyps :=
  repeat match goal with
  | H : _ && _ = true |- _ => apply andb_prop in H as [? ?]
  | H : _ || _ = false |- _ => apply orb_false_elim in H as [? ?]
  | H : negb _ = true |- _ => apply negb_true_iff in H
  | H : negb _ = false |- _ => apply negb_false_iff in H
  | H : (_ <? _) = true |- _ => apply N.ltb_lt in H
  | H : (_ <? _) = false |- _ => apply N.ltb_ge in H
  | H : (_ <=? _) = true |- _ => apply N.leb_le in H
  | H : (_ <=? _) = false |- _ => apply N.leb_gt in H
  | H : (_ =? _) = true |- _ => apply N.eqb_eq in H
  | H : (_ =? _) = false |- _ => apply N.eqb_neq in H
  | H : String.eqb _ _ = true |- _ => apply String.eqb_eq in H
  | H : String.eqb _ _ = false |- _ => apply String.eqb_neq in H
  | H : Ascii.eqb _ _ = true |- _ => apply Ascii.eqb_eq in H
  | H : Ascii.eqb _ _ = false |- _ => apply Ascii.eqb_neq in H
  end.

(** Case analysis on a byte by evaluation of all 256 values. *)
Ltac by_bytes c := destruct c as [[] [] [] [] [] [] [] []]; vm_compute; try reflexivity; try discriminate.

Create HintDb usk.

(** * Facts about results *)

Lemma bind_ok {A B} (m : result A) (f : A → result B) b :
  m ≫= f = Ok b ↔ ∃ a, m = Ok a ∧ f a = Ok b.
Proof.
  split; [destruct m as [a|]; simpl; [eauto|discriminate]|].
  by intros (a & -> & ?).
Qed.

Lemma bind_step {A B} (r : result A) (f : A → result B) a : r = Ok a → (r ≫= f) = f a.
Proof. by intros ->. Qed.

(** Run the first computation of a sequence, whose value is [x] by evaluation or
    by assumption. *)
Ltac next x := rewrite (bind_step _ _ x) by (reflexivity || assumption).

Lemma or_else_false a b : a ||| b = Ok false ↔ a = Ok false ∧ b = Ok false.
Proof. destruct a as [[]|]; simpl; split; (done || intros [??]; done || congruence). Qed.

Lemma and_also_false a b : a &&& b = Ok false ↔ a = Ok false ∨ (a = Ok true ∧ b = Ok false).
Proof. destruct a as [[]|]; simpl; split; naive_solver. Qed.

Lemma ok_inj {A} (a b : A) : Ok a = Ok b → a = b.
Proof. by intros [= ?]. Qed.

Lemma throw_if_ok c w u : throw_if c w = Ok u ↔ c = false.
Proof. destruct c, u; simpl; split; (done || discriminate). Qed.

Lemma throw_if_throws c w e : throw_if c w = Throw e ↔ c = true ∧ e = runtime_error w.
Proof.
  destruct c; unfold throw_if, throw; split; [by intros [= <-]|by intros [_ ->]|done|].
  intros [? _]. done.
Qed.

Lemma bind_unit {B} (r : result unit) (f : unit → result B) b :
  (r ≫= f) = Ok b ↔ r = Ok tt ∧ f tt = Ok b.
Proof. destruct r as [[]|e]; simpl; naive_solver. Qed.

Lemma bind_any {A B} (r : result A) (k : result B) b : (r ≫= fun _ => k) = Ok b ↔ (∃ a, r = Ok a) ∧ k = Ok b.
Proof. destruct r; simpl; naive_solver. Qed.

Lemma fold_unit_ok {A} (f : A → result unit) l :
  fold_result (fun _ x => f x) tt l = Ok tt ↔ Forall (fun x => f x = Ok tt) l.
Proof.
  induction l as [|x l IH]; simpl; [by split|]. rewrite Forall_cons_iff.
  destruct (f x) as [[]|e]; simpl; [naive_solver|]. split; [done|by intros []].
Qed.

Lemma fold_result_ext {A B} (f g : B → A → result B) b l :
  (∀ b x, f b x = g b x) → fold_result f b l = fold_result g b l.
Proof.
  intros E. revert b. induction l as [|x l IH]; intros b; simpl; [done|]. rewrite E.
  destruct (g b x); simpl; [apply IH|done].
Qed.

Lemma fold_result_app {A B} (f : B → A → result B) b l1 l2 :
  fold_result f b (l1 ++ l2) = (b' ← fold_result f b l1; fold_result f b' l2).
Proof.
  revert b; induction l1 as [|x l1 IH]; intros b; [done|].
  simpl. destruct (f b x); simpl; [apply IH|done].
Qed.

Lemma map_result_ok {A B} (f : A → result B) l bs :
  map_result f l = Ok bs ↔ Forall2 (fun x b => f x = Ok b) l bs.
Proof.
  revert bs; induction l as [|x l IH]; intros bs; simpl.
  - split; [intros [= <-]; constructor|by inversion 1].
  - rewrite bind_ok. split.
    + intros (b & Hb & H). apply bind_ok in H as (bs' & H' & [= <-]).
      constructor; [done|by apply IH].
    + inversion 1 as [|? b ? bs' Hb Hrest]; subst. exists b. split; [done|].
      apply IH in Hrest. apply bind_ok. eauto.
Qed.

Lemma map_result_total {A B} (f : A → result B) (g : A → B) l :
  (∀ x, x ∈ l → f x = Ok (g x)) → map_result f l = Ok (g <$> l).
Proof.
  intros H. apply map_result_ok, Forall2_fmap_r, Forall_Forall2_diag, Forall_forall.
  intros x Hx. apply H. by apply list_elem_of_In.
Qed.

Lemma Forall_mp {A} (P Q : A → Prop) l :
  Forall (fun x => P x → Q x) l → Forall P l → Forall Q l.
Proof. induction 1; inversion 1; constructor; auto. Qed.

(** * Facts about strings *)

Lemma append_nil_r (s : string) : s +:+ "" = s.
Proof. induction s; simpl; congruence. Qed.

Lemma append_assoc (a b c : string) : (a +:+ b) +:+ c = a +:+ b +:+ c.
Proof. induction a; simpl; congruence. Qed.

Lemma append_cons (c : ascii) (a b : string) : String c a +:+ b = String c (a +:+ b).
Proof. done. Qed.

Lemma push_back_append s c t : push_back s c +:+ t = s +:+ String c t.
Proof. unfold push_back. by rewrite append_assoc. Qed.

Lemma length_append (a b : string) :
  String.length (a +:+ b) = (String.length a + String.length b)%nat.
Proof. induction a; simpl; congruence. Qed.

Lemma size_append (a b : string) : size (a +:+ b) = size a + size b.
Proof. unfold size. rewrite length_append. lia. Qed.

Lemma size_cons c s : size (String c s) = 1 + size s.
Proof. unfold size. simpl. lia. Qed.

Lemma size_nil : size "" = 0.
Proof. done. Qed.

Lemma size_push_back s c : size (push_back s c) = size s + 1.
Proof. unfold push_back. by rewrite size_append. Qed.

Lemma append_inv_head (a b c : string) : a +:+ b = a +:+ c → b = c.
Proof. induction a; simpl; [done|]. intros [= ?]; auto. Qed.

Lemma append_inv_length (a b c d : string) :
  String.length a = String.length c → a +:+ b = c +:+ d → a = c ∧ b = d.
Proof.
  revert c; induction a as [|x a IH]; intros [|y c] Hl H; simpl in *;
    try discriminate; [done|].
  injection H as -> H. injection Hl as Hl. destruct (IH c Hl H) as [-> ->]. done.
Qed.

Lemma append_inv_tail (a b c : string) : a +:+ c = b +:+ c → a = b.
Proof.
  intros H. apply (append_inv_length a c b c); [|done].
  apply (f_equal String.length) in H. rewrite !length_append in H. lia.
Qed.

Lemma str_take_drop n s : str_take n s +:+ str_drop n s = s.
Proof. revert s; induction n; intros []; simpl; try done. by rewrite IHn. Qed.

Lemma length_str_take n s : String.length (str_take n s) = (n `min` String.length s)%nat.
Proof. revert s; induction n; intros []; simpl; auto. Qed.

Lemma length_str_drop n s : String.length (str_drop n s) = (String.length s - n)%nat.
Proof. revert s; induction n; intros []; simpl; auto. Qed.

Lemma str_take_append n a b :
  (n <= String.length a)%nat → str_take n (a +:+ b) = str_take n a.
Proof.
  revert a; induction n as [|n IH]; intros [|c a] H; simpl in *; try done; [lia|].
  rewrite IH; [done|lia].
Qed.

Lemma str_drop_append n a b :
  (n <= String.length a)%nat → str_drop n (a +:+ b) = str_drop n a +:+ b.
Proof.
  revert a; induction n as [|n IH]; intros [|c a] H; simpl in *; try done; [lia|].
  apply IH. lia.
Qed.

Lemma str_take_all a b : str_take (String.length a) (a +:+ b) = a.
Proof. induction a; simpl; [by destruct b|congruence]. Qed.

Lemma str_drop_drop n m s : str_drop n (str_drop m s) = str_drop (m + n) s.
Proof. revert s. induction m as [|m IH]; intros [|c s]; simpl; [done|done|by destruct n|apply IH]. Qed.

Lemma str_drop_all a b : str_drop (String.length a) (a +:+ b) = b.
Proof. induction a; simpl; [by destruct b|congruence]. Qed.

Lemma forall_bytes_append p a b :
  forall_bytes p (a +:+ b) = forall_bytes p a && forall_bytes p b.
Proof. induction a; simpl; [done|]. by rewrite IHa, andb_assoc. Qed.

Lemma forall_bytes_impl (p q : ascii → bool) s :
  (∀ c, p c = true → q c = true) → forall_bytes p s = true → forall_bytes q s = true.
Proof.
  intros H. induction s; simpl; [done|]. intros Hs. bool_hyps.
  rewrite H, IHs; done.
Qed.

Lemma code_lt c : code c < 256.
Proof. apply N_ascii_bounded. Qed.

Lemma code_inj a b : code a = code b → a = b.
Proof.
  intros H. rewrite <- (ascii_N_embedding a), <- (ascii_N_embedding b). by f_equal.
Qed.

Lemma code_of_N n : n < 256 → code (ascii_of_N n) = n.
Proof. apply N_ascii_embedding. Qed.

(** * Decimal text *)

Lemma digit_char_is_digit d : d < 10 → is_digit (digit_char d) = true.
Proof.
  intros H. unfold is_digit, in_range, digit_char. rewrite code_of_N by lia.
  apply andb_true_intro; split; apply N.leb_le; lia.
Qed.

Lemma code_digit_char d : d < 10 → code (digit_char d) = 48 + d.
Proof. intros. unfold digit_char. apply code_of_N. lia. Qed.

Lemma decimal_digits_all fuel n acc :
  forall_bytes is_digit acc = true →
  forall_bytes is_digit (decimal_digits fuel n acc) = true.
Proof.
  revert n acc; induction fuel as [|fuel IH]; intros n acc H; simpl; [done|].
  assert (n mod 10 < 10) by (apply N.mod_lt; lia).
  assert (forall_bytes is_digit (String (digit_char (n mod 10)) acc) = true) as H'.
  { simpl. by rewrite digit_char_is_digit, H. }
  destruct (n <? 10); [done|]. by apply IH.
Qed.

Lemma to_string_digits n : forall_bytes is_digit (to_string n) = true.
Proof. by apply decimal_digits_all. Qed.

Lemma decimal_fuel_div n : 10 <= n →
  (N.to_nat (N.log2 (n / 10)) < N.to_nat (N.log2 n))%nat.
Proof.
  intros H. assert (N.log2 (n / 10) < N.log2 n); [|lia].
  assert (0 < n / 10) by (apply N.div_str_pos; lia).
  assert (n / 10 <= n / 2) by (apply N.div_le_compat_l; lia).
  assert (N.log2 (n / 2) = N.log2 n - 1) as Hs.
  { rewrite <- N.div2_div, N.div2_spec, N.log2_shiftr. done. }
  pose proof (N.log2_le_mono (n / 10) (n / 2) ltac:(done)).
  assert (0 < N.log2 n) by (apply N.log2_pos; lia). lia.
Qed.

(** Fuel beyond the number of binary digits changes nothing. *)
Lemma decimal_digits_fuel f g n acc :
  (N.to_nat (N.log2 n) < f)%nat → (N.to_nat (N.log2 n) < g)%nat →
  decimal_digits f n acc = decimal_digits g n acc.
Proof.
  revert g n acc. induction f as [|f IH]; intros [|g] n acc Hf Hg; [lia..|]. simpl.
  destruct (N.ltb_spec n 10) as [|H]; [done|]. pose proof (decimal_fuel_div n H).
  apply IH; lia.
Qed.

(** The digits of [n] are read back, most significant first, by Horner's rule:
    any left fold [f] that satisfies the rule sees [n]. *)
Lemma decimal_digits_horner {A} (g : N → string → A) (limit : N) :
  (∀ r d s, d < 10 → r * 10 + d <= limit →
     g r (String (digit_char d) s) = g (r * 10 + d) s) →
  ∀ fuel n acc, (N.to_nat (N.log2 n) < fuel)%nat → n <= limit →
    g 0 (decimal_digits fuel n acc) = g n acc.
Proof.
  intros Hg fuel. induction fuel as [|fuel IH]; intros n acc Hf Hl; [lia|].
  simpl. destruct (N.ltb_spec n 10) as [Hn|Hn].
  - by rewrite N.mod_small, Hg by lia.
  - pose proof (decimal_fuel_div n Hn).
    assert (n / 10 <= n) by (apply N.Div0.div_le_upper_bound; lia).
    pose proof (N.div_mod n 10 ltac:(lia)) as Hd.
    rewrite IH by lia.
    rewrite Hg by (try apply N.mod_lt; lia). f_equal. lia.
Qed.

Lemma to_string_horner {A} (g : N → string → A) (limit : N) rest n :
  (∀ r d s, d < 10 → r * 10 + d <= limit →
     g r (String (digit_char d) s) = g (r * 10 + d) s) →
  n <= limit → g 0 (to_string n +:+ rest) = g n rest.
Proof.
  intros Hg Hn. unfold to_string.
  rewrite (decimal_digits_horner (fun r s => g r (s +:+ rest)) limit);
    [done| |lia|done].
  intros r d s Hd Hl. simpl. by apply Hg.
Qed.

Lemma decimal_digits_length fuel n acc k :
  n < 10 ^ N.of_nat k → (1 <= k)%nat →
  (String.length (decimal_digits fuel n acc) <= k + String.length acc)%nat.
Proof.
  revert n acc k. induction fuel as [|fuel IH]; intros n acc k Hn Hk; simpl; [lia|].
  destruct (N.ltb_spec n 10) as [Hl|Hl]; [simpl; lia|].
  destruct k as [|[|k]]; [lia|simpl in Hn; lia|].
  rewrite Nat2N.inj_succ, N.pow_succ_r' in Hn.
  specialize (IH (n / 10) (String (digit_char (n mod 10)) acc) (S k)). simpl in IH.
  assert (n / 10 < 10 ^ N.of_nat (S k)) by (apply N.Div0.div_lt_upper_bound; lia).
  specialize (IH ltac:(done) ltac:(lia)). simpl. lia.
Qed.

Lemma to_string_length n k :
  n < 10 ^ N.of_nat k → (1 <= k)%nat → (String.length (to_string n) <= k)%nat.
Proof.
  intros Hn Hk. pose proof (decimal_digits_length (S (N.to_nat (N.log2 n))) n "" k Hn Hk).
  unfold to_string. simpl in *. lia.
Qed.

Lemma decimal_digits_first fuel n acc :
  (N.to_nat (N.log2 n) < fuel)%nat → 0 < n →
  ∃ d s, decimal_digits fuel n acc = String (digit_char d) s ∧ 0 < d < 10.
Proof.
  revert n acc; induction fuel as [|fuel IH]; intros n acc Hf Hn; [lia|].
  simpl. destruct (N.ltb_spec n 10) as [Hl|Hl].
  - rewrite N.mod_small by lia. eauto.
  - pose proof (decimal_fuel_div n Hl). apply IH; [lia|].
    apply N.div_str_pos; lia.
Qed.

(** The text of a number starts with a digit, and with a zero only for 0. *)
Lemma to_string_first n :
  ∃ d s, to_string n = String (digit_char d) s ∧ d < 10 ∧ (d = 0 → n = 0 ∧ s = EmptyString).
Proof.
  destruct (N.eq_dec n 0) as [->|Hn].
  - exists 0, "". done.
  - destruct (decimal_digits_first (S (N.to_nat (N.log2 n))) n "") as (d & s & H & Hd);
      [lia|lia|]. exists d, s. unfold to_string. rewrite H. split; [done|]. split; [lia|lia].
Qed.

Lemma to_string_inj n m : to_string n = to_string m → n = m.
Proof.
  intros H.
  set (g := fix g r (s : string) : N :=
    match s with "" => r | String c s => g (r * 10 + (code c - 48)) s end).
  assert (∀ k, g 0 (to_string k +:+ "") = k) as Hk.
  { intros k. rewrite (to_string_horner (A := N) g k); [done| |lia].
    intros r d s Hd _. simpl. rewrite code_digit_char by done. f_equal. lia. }
  rewrite <- (Hk n), <- (Hk m). by rewrite H.
Qed.

(** A decimal number ends at the first other byte: a length prefix is read back
    unambiguously. *)
Lemma digits_inj c a b r r' :
  is_digit c = false → forall_bytes is_digit a = true → forall_bytes is_digit b = true →
  a +:+ String c r = b +:+ String c r' → a = b ∧ r = r'.
Proof.
  intros Hc. revert b. induction a as [|x a IH]; intros [|y b] Ha Hb E; simpl in *; bool_hyps.
  - by injection E.
  - injection E as -> _. congruence.
  - injection E as <- _. congruence.
  - injection E as -> E. by destruct (IH b) as [-> ->].
Qed.

Lemma string_compare_cons c a d b :
  String.compare (String c a) (String d b) =
  match code c ?= code d with Eq => String.compare a b | x => x end.
Proof. done. Qed.

(** The number a decimal text denotes. *)
Fixpoint digits_value (s : string) : N :=
  match s with
  | EmptyString => 0
  | String c s => (code c - 48) * 10 ^ N.of_nat (String.length s) + digits_value s
  end.

Lemma digits_value_lt s : forall_bytes is_digit s = true →
  digits_value s < 10 ^ N.of_nat (String.length s).
Proof.
  induction s as [|c s IH]; simpl String.length; [done|]. cbn [forall_bytes digits_value].
  intros [Hc Hs]%andb_prop. specialize (IH Hs). rewrite Nat2N.inj_succ, N.pow_succ_r'.
  unfold is_digit, in_range in Hc. bool_hyps. nia.
Qed.

(** Texts of the same width are ordered like their numbers. *)
Lemma digits_order a b : forall_bytes is_digit a = true → forall_bytes is_digit b = true →
  String.length a = String.length b → digits_value a < digits_value b → string_ltb a b = true.
Proof.
  revert b. induction a as [|c a IH]; intros [|d b] Ha Hb Hl Hv; try done; simpl in Hl; try lia.
  cbn [forall_bytes digits_value] in *. apply andb_prop in Ha as [Hc Ha], Hb as [Hd Hb].
  injection Hl as Hl. rewrite <- Hl in Hv.
  pose proof (digits_value_lt a Ha) as La. pose proof (digits_value_lt b Hb) as Lb. rewrite <- Hl in Lb.
  unfold string_ltb in *. rewrite string_compare_cons.
  unfold is_digit, in_range in *. bool_hyps.
  destruct (N.compare_spec (code c) (code d)) as [E|E|E]; [|done|].
  - apply IH; [done..|]. rewrite E in Hv. lia.
  - exfalso. assert (code d - 48 + 1 <= code c - 48) by lia. nia.
Qed.

Lemma digits_value_append a b :
  digits_value (a +:+ b) = digits_value a * 10 ^ N.of_nat (String.length b) + digits_value b.
Proof.
  induction a as [|c a IH]; [simpl; lia|]. cbn [String.append digits_value].
  rewrite IH, length_append, Nat2N.inj_add, N.pow_add_r. lia.
Qed.

Lemma decimal_digits_value fuel n acc : (N.to_nat (N.log2 n) < fuel)%nat →
  digits_value (decimal_digits fuel n acc) =
  n * 10 ^ N.of_nat (String.length acc) + digits_value acc.
Proof.
  revert n acc. induction fuel as [|fuel IH]; intros n acc Hf; [lia|]. simpl.
  pose proof (N.mod_lt n 10 ltac:(lia)) as Hm.
  destruct (N.ltb_spec n 10) as [Hn|Hn].
  - cbn [digits_value]. rewrite code_digit_char, N.mod_small by lia. f_equal. f_equal. lia.
  - pose proof (decimal_fuel_div n Hn). rewrite IH by lia. cbn [digits_value String.length].
    rewrite code_digit_char, Nat2N.inj_succ, N.pow_succ_r' by lia.
    rewrite (N.add_comm 48), N.add_sub.
    rewrite (N.mul_comm (n / 10)), <- N.mul_assoc, (N.mul_comm _ (n / 10)), N.mul_assoc, N.add_assoc,
      <- N.mul_add_distr_r, <- N.div_mod by lia. done.
Qed.

Lemma to_string_value n : digits_value (to_string n) = n.
Proof. unfold to_string. rewrite decimal_digits_value by lia. simpl. lia. Qed.

(** [std::to_string(s.size()) + ":" + s], the length-prefixed form of a text. *)
Definition prefixed (s : string) : string := to_string (size s) +:+ ":" +:+ s.

Lemma prefixed_inj s s' r r' : prefixed s +:+ r = prefixed s' +:+ r' → s = s' ∧ r = r'.
Proof.
  unfold prefixed. rewrite !append_assoc. cbn [String.append]. intros E.
  apply digits_inj in E as [E1 E2]; [|done|apply to_string_digits..].
  apply to_string_inj in E1. unfold size in E1. apply append_inv_length in E2; [done|lia].
Qed.

(** * The byte order on strings *)

Lemma string_compare_refl s : String.compare s s = Eq.
Proof.
  induction s as [|c s IH]; [done|]. simpl.
  unfold Ascii.compare. by rewrite N.compare_refl.
Qed.

Lemma string_ltb_irrefl s : string_ltb s s = false.
Proof. unfold string_ltb. by rewrite string_compare_refl. Qed.


Lemma string_ltb_trans a b c :
  string_ltb a b = true → string_ltb b c = true → string_ltb a c = true.
Proof.
  unfold string_ltb. revert b c.
  induction a as [|x a IH]; intros [|y b] [|z c]; try (simpl; congruence).
  rewrite !string_compare_cons.
  destruct (N.compare_spec (code x) (code y)), (N.compare_spec (code y) (code z)),
    (N.compare_spec (code x) (code z)); intros; try done; try lia.
  eapply IH; eauto.
Qed.

Lemma string_ltb_ne a b : string_ltb a b = true → a ≠ b.
Proof. intros H ->. by rewrite string_ltb_irrefl in H. Qed.

Lemma string_ltb_antisym a b : string_ltb a b = true → string_ltb b a = false.
Proof.
  unfold string_ltb. rewrite (String.compare_antisym b a).
  destruct (String.compare a b); simpl; congruence.
Qed.

Lemma string_ltb_total a b : string_ltb a b = false → string_ltb b a = false → a = b.
Proof.
  unfold string_ltb. rewrite (String.compare_antisym b a).
  destruct (String.compare a b) eqn:E; simpl; try done.
  intros _ _. by apply String.compare_eq_iff.
Qed.

#[export] Hint Rewrite append_assoc append_nil_r append_cons push_back_append : usk.
#[export] Hint Resolve string_ltb_trans string_ltb_irrefl : usk.
