(* ===== verification/Effects.v ===== *)
(** Effects: a state and exception monad in which the state survives an
    exception, the exception handlers of the sources, and the invariant
    calculus the effectful components share. *)

From Stdlib Require Import Ascii String NArith ZArith Lia.
From stdpp Require Import base list strings.
From S2P Require Import Prelude.

Module Effects.

(** ** The monad *)

Definition M (S A : Type) : Type := S → result A * S.

Definition ret {S A} (a : A) : M S A := fun s => (Ok a, s).

#[global] Instance M_bind {S} : MBind (M S) := fun A B f m s =>
  match m s with
  | (Ok a, s) => f a s
  | (Throw e, s) => (Throw e, s)
  end.

Definition fail {S A} (what : string) : M S A := fun s => (throw what, s).
Definition raise {S A} (e : exn) : M S A := fun s => (Throw e, s).
Definition get {S} : M S S := fun s => (Ok s, s).
Definition put {S} (s : S) : M S unit := fun _ => (Ok tt, s).
Definition modify {S} (f : S → S) : M S unit := fun s => (Ok tt, f s).
Definition lift {S A} (r : result A) : M S A := fun s => (r, s).
Definition guard {S} (ok : bool) (what : string) : M S unit :=
  if ok then ret tt else fail what.
Definition when {S} (c : bool) (m : M S unit) : M S unit := if c then m else ret tt.

(** [a || b], [a && b] and [!a] of calls. *)
Definition or_m {S} (a b : M S bool) : M S bool := x ← a; if x : bool then ret true else b.
Definition and_m {S} (a b : M S bool) : M S bool := x ← a; if x : bool then b else ret false.
Definition not_m {S} (a : M S bool) : M S bool := x ← a; ret (negb x).

(** Whether a handler [catch (...)] sees the exception. *)
Definition catchable (e : exn) : bool :=
  match e with runtime_error _ | logic_error _ => true | killed | out_of_fuel => false end.

(** [try { m } catch (...) { h; throw; }]. *)
Definition on_exception {S A} (m : M S A) (h : M S unit) : M S A := fun s =>
  match m s with
  | (Throw e, s) =>
    if catchable e then
      match h s with
      | (Ok _, s) => (Throw e, s)
      | (Throw e', s) => (Throw e', s)
      end
    else (Throw e, s)
  | r => r
  end.

(** [try { m } catch (...) { return fallback; }]. *)
Definition otherwise {S A} (m : M S A) (h : M S A) : M S A := fun s =>
  match m s with
  | (Throw e, s) => if catchable e then h s else (Throw e, s)
  | r => r
  end.

(** [try { m } catch (...) {}]. *)
Definition ignore_errors {S} (m : M S unit) : M S unit := otherwise m (ret tt).

Fixpoint for_each {S A} (l : list A) (body : A → M S unit) : M S unit :=
  match l with
  | [] => ret tt
  | x :: l => body x ;; for_each l body
  end.

Fixpoint fold_eff {S A B} (f : B → A → M S B) (b : B) (l : list A) : M S B :=
  match l with
  | [] => ret b
  | x :: l => b ← f b x; fold_eff f b l
  end.

(** A loop: [body] returns the next loop state or the result.  The fuel is a
    power of two, [2 ^ n] rounds, so that large bounds stay small terms. *)
Fixpoint iterate {S St R} (n : nat) (body : St → M S (St + R)) (st : St) : M S (St + R) :=
  match n with
  | O => body st
  | S n =>
    r ← iterate n body st;
    match r with inl st => iterate n body st | inr r => ret (inr r) end
  end.

Definition loop {S St R} (n : nat) (body : St → M S (St + R)) (st : St) : M S R :=
  r ← iterate n body st;
  match r with inr r => ret r | inl _ => raise out_of_fuel end.

(** A computation on one component of a pair. *)
Definition on_snd {S T A} (m : M T A) : M (S * T) A := fun s =>
  let '(r, t) := m (snd s) in (r, (fst s, t)).

(** A sequence returns when both parts do. *)
Lemma seq_ok {S A B} (m : M S A) (f : A → M S B) s b s' :
  (m ≫= f) s = (Ok b, s') ↔ ∃ a s1, m s = (Ok a, s1) ∧ f a s1 = (Ok b, s').
Proof.
  unfold mbind, M_bind. destruct (m s) as [[a|e] s1]; split; [eauto| |done|].
  - by intros (? & ? & [= <- <-] & ?).
  - by intros (? & ? & ? & _).
Qed.

Lemma lift_ok {S A} (r : result A) s a s' : lift (S := S) r s = (Ok a, s') ↔ r = Ok a ∧ s' = s.
Proof. unfold lift. split; [by intros [= -> ->]|by intros [-> ->]]. Qed.

(** ** Invariants

    [keeps R m]: whatever [m] returns or throws, the state afterwards is
    related to the state before.  With a preorder [R] the property composes. *)

Definition keeps {S A} (R : S → S → Prop) (m : M S A) : Prop := ∀ s, R s (snd (m s)).

Section Keeps.
Context {S : Type} (R : S → S → Prop) `{!PreOrder R}.

Lemma keeps_ret {A} (a : A) : keeps R (ret a).
Proof. intros s. simpl. reflexivity. Qed.

Lemma keeps_fail {A} w : keeps R (fail (A := A) w).
Proof. intros s. simpl. reflexivity. Qed.

Lemma keeps_raise {A} e : keeps R (raise (A := A) e).
Proof. intros s. simpl. reflexivity. Qed.

Lemma keeps_get : keeps R get.
Proof. intros s. simpl. reflexivity. Qed.

Lemma keeps_lift {A} (r : result A) : keeps R (lift r).
Proof. intros s. simpl. reflexivity. Qed.

Lemma keeps_guard ok w : keeps R (guard ok w).
Proof. destruct ok; intros s; simpl; reflexivity. Qed.

Lemma keeps_bind {A B} (m : M S A) (f : A → M S B) :
  keeps R m → (∀ a, keeps R (f a)) → keeps R (m ≫= f).
Proof.
  intros Hm Hf s. unfold mbind, M_bind. specialize (Hm s). destruct (m s) as [[a|e] s']; simpl in *; [|done].
  etransitivity; [exact Hm|apply Hf].
Qed.

(** The same with a property of the value returned. *)
Lemma keeps_bind_val {A B} (V : A → Prop) (m : M S A) (f : A → M S B) :
  keeps R m → (∀ s a s', m s = (Ok a, s') → V a) → (∀ a, V a → keeps R (f a)) → keeps R (m ≫= f).
Proof.
  intros Hm HV Hf s. unfold mbind, M_bind. specialize (Hm s). specialize (HV s).
  destruct (m s) as [[a|e] s']; simpl in *; [|done].
  etransitivity; [exact Hm|apply Hf]. by eapply HV.
Qed.

Lemma keeps_when c m : keeps R m → keeps R (when c m).
Proof. destruct c; [done|]. intros _. apply keeps_ret. Qed.

Lemma keeps_on_exception {A} (m : M S A) h : keeps R m → keeps R h → keeps R (on_exception m h).
Proof.
  intros Hm Hh s. unfold on_exception. specialize (Hm s). destruct (m s) as [[a|e] s']; simpl in *; [done|].
  destruct (catchable e); [|done]. specialize (Hh s').
  destruct (h s') as [[[]|e'] s'']; simpl in *; (etransitivity; [exact Hm|exact Hh]).
Qed.

Lemma keeps_otherwise {A} (m h : M S A) : keeps R m → keeps R h → keeps R (otherwise m h).
Proof.
  intros Hm Hh s. unfold otherwise. specialize (Hm s). destruct (m s) as [[a|e] s']; simpl in *; [done|].
  destruct (catchable e); [|done]. etransitivity; [exact Hm|apply Hh].
Qed.

Lemma keeps_ignore m : keeps R m → keeps R (ignore_errors m).
Proof. intros. apply keeps_otherwise; [done|apply keeps_ret]. Qed.

Lemma keeps_for_each {A} (l : list A) body : (∀ x, keeps R (body x)) → keeps R (for_each l body).
Proof. intros H. induction l; simpl; [apply keeps_ret|]. by apply keeps_bind. Qed.

Lemma keeps_fold {A B} (f : B → A → M S B) b l :
  (∀ b x, keeps R (f b x)) → keeps R (fold_eff f b l).
Proof. intros H. revert b. induction l; intros b; simpl; [apply keeps_ret|]. by apply keeps_bind. Qed.

Lemma keeps_iterate {St B} n (body : St → M S (St + B)) st :
  (∀ st, keeps R (body st)) → keeps R (iterate n body st).
Proof.
  intros H. revert st. induction n as [|n IH]; intros st; simpl; [apply H|].
  apply keeps_bind; [apply IH|]. intros []; [apply IH|apply keeps_ret].
Qed.

Lemma keeps_loop {St B} n (body : St → M S (St + B)) st :
  (∀ st, keeps R (body st)) → keeps R (loop n body st).
Proof.
  intros H. apply keeps_bind; [by apply keeps_iterate|].
  intros []; [apply keeps_raise|apply keeps_ret].
Qed.

Lemma keeps_or_m a b : keeps R a → keeps R b → keeps R (or_m a b).
Proof. intros. apply keeps_bind; [done|]. intros []; [apply keeps_ret|done]. Qed.

Lemma keeps_and_m a b : keeps R a → keeps R b → keeps R (and_m a b).
Proof. intros. apply keeps_bind; [done|]. intros []; [done|apply keeps_ret]. Qed.

Lemma keeps_not_m a : keeps R a → keeps R (not_m a).
Proof. intros. apply keeps_bind; [done|]. intros. apply keeps_ret. Qed.

End Keeps.

(** What every round of a fold establishes of its accumulator. *)
Lemma fold_eff_val {S A B} (f : B → A → M S B) (V : B → Prop) l b s b' s' :
  V b → (∀ b x s b' s', x ∈ l → V b → f b x s = (Ok b', s') → V b') →
  fold_eff f b l s = (Ok b', s') → V b'.
Proof.
  revert b s. induction l as [|x l IH]; intros b s Hb Hf; simpl; [by intros [= <- _]|].
  unfold mbind, M_bind. destruct (f b x s) as [[b1|] s1] eqn:E; [|done]. apply IH.
  - eapply Hf; [|exact Hb|exact E]. left.
  - intros. eapply Hf; [|done|done]. by right.
Qed.

(** A relation on one component, lifted to the pair. *)
Lemma keeps_on_snd {S T A} (R : T → T → Prop) (Q : S * T → S * T → Prop) (m : M T A) :
  (∀ s t t', R t t' → Q (s, t) (s, t')) → keeps R m → keeps Q (on_snd m).
Proof.
  intros HQ Hm [s t]. unfold on_snd. simpl. specialize (Hm t).
  destruct (m t) as [r t']. simpl in *. by apply HQ.
Qed.

Create HintDb eff.
#[export] Hint Resolve keeps_ret keeps_fail keeps_raise keeps_get keeps_lift keeps_guard
  keeps_when keeps_or_m keeps_and_m keeps_not_m keeps_on_exception keeps_otherwise keeps_ignore keeps_for_each keeps_fold keeps_loop : eff.

(** Decompose a computation into its primitive steps. *)
Ltac keeps_step :=
  match goal with
  | |- keeps _ (mbind _ _) => apply keeps_bind; [done || typeclasses eauto| |intros ?]
  | |- keeps _ (loop _ _ _) => apply keeps_loop; [done || typeclasses eauto|intros ?]
  | |- keeps _ (fold_eff _ _ _) => apply keeps_fold; [done || typeclasses eauto|intros ? ?]
  | |- keeps _ (for_each _ _) => apply keeps_for_each; [done || typeclasses eauto|intros ?]
  | |- keeps _ (when _ _) => apply keeps_when; [done || typeclasses eauto|]
  | |- keeps _ (on_exception _ _) => apply keeps_on_exception; [done || typeclasses eauto| |]
  | |- keeps _ (otherwise _ _) => apply keeps_otherwise; [done || typeclasses eauto| |]
  | |- keeps _ (ignore_errors _) => apply keeps_ignore; [done || typeclasses eauto|]
  | |- keeps _ (or_m _ _) => apply keeps_or_m; [done || typeclasses eauto| |]
  | |- keeps _ (and_m _ _) => apply keeps_and_m; [done || typeclasses eauto| |]
  | |- keeps _ (not_m _) => apply keeps_not_m; [done || typeclasses eauto|]
  | |- keeps _ (if ?c then _ else _) => destruct c
  | |- keeps _ (match ?x with _ => _ end) => destruct x
  | |- keeps _ (let '_ := ?x in _) => destruct x
  end.
Ltac keeps_auto := repeat (solve [eauto with eff typeclass_instances] || keeps_step).

(** ** Triples

    [triple P m Q E]: from a state in [P], [m] returns [a] in a state in [Q a] or
    throws in a state in [E]. *)

Definition triple {S A} (P : S → Prop) (m : M S A) (Q : A → S → Prop) (E : S → Prop) : Prop :=
  ∀ s, P s → match m s with (Ok a, s') => Q a s' | (Throw _, s') => E s' end.

Lemma triple_bind {S A B} (P : S → Prop) (m : M S A) (f : A → M S B) Q R E :
  triple P m Q E → (∀ a, triple (Q a) (f a) R E) → triple P (m ≫= f) R E.
Proof.
  intros Hm Hf s Hs. specialize (Hm s Hs). unfold mbind, M_bind.
  destruct (m s) as [[a|e] s']; [by apply Hf|done].
Qed.

Lemma triple_conseq {S A} (P P' : S → Prop) (m : M S A) Q Q' (E E' : S → Prop) :
  triple P' m Q' E' → (∀ s, P s → P' s) → (∀ a s, Q' a s → Q a s) → (∀ s, E' s → E s) →
  triple P m Q E.
Proof.
  intros Hm HP HQ HE s Hs. specialize (Hm s (HP s Hs)). destruct (m s) as [[a|e] s']; auto.
Qed.

Lemma triple_ret {S A} (a : A) (P : S → Prop) (Q : A → S → Prop) E :
  (∀ s, P s → Q a s) → triple P (ret a) Q E.
Proof. intros H s Hs. by apply H. Qed.

Lemma triple_fail {S A} w (P : S → Prop) (Q : A → S → Prop) (E : S → Prop) :
  (∀ s, P s → E s) → triple P (fail w) Q E.
Proof. intros H s Hs. by apply H. Qed.

Lemma triple_raise {S A} e (P : S → Prop) (Q : A → S → Prop) (E : S → Prop) :
  (∀ s, P s → E s) → triple P (raise e) Q E.
Proof. intros H s Hs. by apply H. Qed.

(** A predicate that a preorder preserves passes over a computation that keeps it. *)
Lemma triple_keeps {S A} (R : S → S → Prop) (P Q : S → Prop) (m : M S A) :
  keeps R m → (∀ s s', P s → R s s' → Q s') → triple P m (fun _ => Q) Q.
Proof.
  intros Hm H s Hs. specialize (Hm s). destruct (m s) as [[a|e] s']; by eapply H.
Qed.

Lemma triple_on_exception {S A} (P : S → Prop) (m : M S A) h Q (E F : S → Prop) :
  triple P m Q F → triple F h (fun _ => E) E → (∀ s, F s → E s) → triple P (on_exception m h) Q E.
Proof.
  intros Hm Hh HF s Hs. specialize (Hm s Hs). unfold on_exception.
  destruct (m s) as [[a|e] s']; [done|]. destruct (catchable e); [|by apply HF].
  specialize (Hh s' Hm). by destruct (h s') as [[[]|e'] s''].
Qed.

Lemma triple_when {S} (P : S → Prop) c (m : M S unit) (Q : S → Prop) E :
  (c = true → triple P m (fun _ => Q) E) → (c = false → ∀ s, P s → Q s) →
  triple P (when c m) (fun _ => Q) E.
Proof. intros H1 H2. destruct c; [by apply H1|]. apply triple_ret. by apply H2. Qed.

(** ** Termination of fuelled loops *)

Definition ends {S A} (m : M S A) : Prop := ∀ s, fst (m s) ≠ Throw out_of_fuel.

Lemma ends_bind {S A B} (m : M S A) (f : A → M S B) : ends m → (∀ a, ends (f a)) → ends (m ≫= f).
Proof.
  intros Hm Hf s. unfold mbind, M_bind. specialize (Hm s). destruct (m s) as [[a|e] s']; simpl in *; [apply Hf|congruence].
Qed.

Lemma ends_ret {S A} (a : A) : ends (S := S) (ret a).
Proof. done. Qed.

Lemma ends_fail {S A} w : ends (S := S) (fail (A := A) w).
Proof. done. Qed.

Lemma ends_get {S} : ends (S := S) get.
Proof. done. Qed.

Lemma ends_put {S} (s : S) : ends (put s).
Proof. done. Qed.

Lemma ends_lift {S A} (r : result A) : r ≠ Throw out_of_fuel → ends (S := S) (lift r).
Proof. intros H s. exact H. Qed.

Lemma ends_or_m {S} (a b : M S bool) : ends a → ends b → ends (or_m a b).
Proof. intros. apply ends_bind; [done|]. intros []; [apply ends_ret|done]. Qed.

Lemma ends_and_m {S} (a b : M S bool) : ends a → ends b → ends (and_m a b).
Proof. intros. apply ends_bind; [done|]. intros []; [done|apply ends_ret]. Qed.

Lemma ends_not_m {S} (a : M S bool) : ends a → ends (not_m a).
Proof. intros. apply ends_bind; [done|]. intros. apply ends_ret. Qed.

#[export] Hint Resolve ends_ret ends_fail ends_get ends_put ends_or_m ends_and_m ends_not_m : eff.

Ltac ends_step :=
  match goal with
  | |- ends (mbind _ _) => apply ends_bind; [|intros ?]
  | |- ends (or_m _ _) => apply ends_or_m
  | |- ends (and_m _ _) => apply ends_and_m
  | |- ends (not_m _) => apply ends_not_m
  | |- ends (if ?c then _ else _) => destruct c
  | |- ends (match ?x with _ => _ end) => destruct x
  end.
Ltac ends_auto := repeat (ends_step || solve [eauto with eff]).

End Effects.
