(* ===== verification/Utf8.v ===== *)
(** UTF-8: the validator of [runtime/base/usk_utf8_path.cpp] and the encoder of
    [runtime/base/usk_json.cpp], related by a specification of UTF-8 as the
    image of the Unicode scalar values under the encoder. *)

From Stdlib Require Import Ascii String NArith ZArith Lia ZifyN.
From stdpp Require Import base list strings.
From S2P Require Import Prelude.

Module Utf8.

(** ** [valid_utf8]

    The C++ loop keeps an index; here the argument is the text from that index
    on.  The inner loop over the [remaining] continuation bytes is unrolled for
    its three possible counts; running off the end of the text is the early
    [return false] of [remaining > value.size() - index]. *)

Definition is_continuation (c : ascii) : bool := N.land (code c) 0xc0 =? 0x80.

Definition extend (codepoint : N) (c : ascii) : N :=
  N.lor (N.shiftl codepoint 6) (N.land (code c) 0x3f).

Definition codepoint_refused (remaining codepoint : N) : bool :=
  ((remaining =? 2) && (codepoint <? 0x800)) ||
  ((remaining =? 3) && (codepoint <? 0x10000)) ||
  (0x10ffff <? codepoint) ||
  ((0xd800 <=? codepoint) && (codepoint <=? 0xdfff)).

Fixpoint valid_utf8 (value : string) : bool :=
  match value with
  | EmptyString => true
  | String first rest =>
    if code first <=? 0x7f then valid_utf8 rest
    else if in_range 0xc2 0xdf first then
      match rest with
      | String c1 rest =>
        is_continuation c1 &&
        negb (codepoint_refused 1 (extend (N.land (code first) 0x1f) c1)) &&
        valid_utf8 rest
      | _ => false
      end
    else if in_range 0xe0 0xef first then
      match rest with
      | String c1 (String c2 rest) =>
        is_continuation c1 && is_continuation c2 &&
        negb (codepoint_refused 2 (extend (extend (N.land (code first) 0x0f) c1) c2)) &&
        valid_utf8 rest
      | _ => false
      end
    else if in_range 0xf0 0xf4 first then
      match rest with
      | String c1 (String c2 (String c3 rest)) =>
        is_continuation c1 && is_continuation c2 && is_continuation c3 &&
        negb (codepoint_refused 3
          (extend (extend (extend (N.land (code first) 0x07) c1) c2) c3)) &&
        valid_utf8 rest
      | _ => false
      end
    else false
  end.

(** ** [append_utf8] *)

Definition append_utf8 (output : string) (codepoint : N) : string :=
  if codepoint <=? 0x7f then push_back output (ascii_of_N codepoint)
  else if codepoint <=? 0x7ff then
    push_back (push_back output
      (ascii_of_N (N.lor 0xc0 (N.shiftr codepoint 6))))
      (ascii_of_N (N.lor 0x80 (N.land codepoint 0x3f)))
  else if codepoint <=? 0xffff then
    push_back (push_back (push_back output
      (ascii_of_N (N.lor 0xe0 (N.shiftr codepoint 12))))
      (ascii_of_N (N.lor 0x80 (N.land (N.shiftr codepoint 6) 0x3f))))
      (ascii_of_N (N.lor 0x80 (N.land codepoint 0x3f)))
  else
    push_back (push_back (push_back (push_back output
      (ascii_of_N (N.lor 0xf0 (N.shiftr codepoint 18))))
      (ascii_of_N (N.lor 0x80 (N.land (N.shiftr codepoint 12) 0x3f))))
      (ascii_of_N (N.lor 0x80 (N.land (N.shiftr codepoint 6) 0x3f))))
      (ascii_of_N (N.lor 0x80 (N.land codepoint 0x3f))).

(** ** Specification *)

(** A Unicode scalar value: a code point that is not a surrogate. *)
Definition scalar (cp : N) : Prop := cp < 0x110000 ∧ ¬ (0xd800 <= cp <= 0xdfff).

Definition encode (cps : list N) : string := fold_left append_utf8 cps EmptyString.

(** ** Bytes as arithmetic *)

Lemma lor_disjoint a b k : b < 2 ^ k → N.lor (a * 2 ^ k) b = a * 2 ^ k + b.
Proof.
  intros Hb. rewrite <- N.shiftl_mul_pow2.
  assert (N.land (N.shiftl a k) b = 0) as Hd.
  { apply N.bits_inj_iff. intros i. rewrite N.land_spec, N.bits_0.
    destruct (N.ltb_spec i k) as [Hi|Hi].
    - rewrite N.shiftl_spec_low; done.
    - destruct (N.eq_dec b 0) as [->|]; [by rewrite N.bits_0, andb_false_r|].
      rewrite (N.bits_above_log2 b), andb_false_r; [done|].
      assert (N.log2 b < k); [|lia]. apply N.log2_lt_pow2; lia. }
  rewrite <- N.lxor_lor by done. rewrite <- N.add_nocarry_lxor by done. done.
Qed.

Lemma lead_lor b x k n : n = b * 2 ^ k → x < 2 ^ k → N.lor n x = n + x.
Proof. intros ->. apply lor_disjoint. Qed.

Lemma land_63 x : N.land x 0x3f = x mod 64.
Proof. apply (N.land_ones x 6). Qed.
Lemma land_31 x : N.land x 0x1f = x mod 32.
Proof. apply (N.land_ones x 5). Qed.
Lemma land_15 x : N.land x 0x0f = x mod 16.
Proof. apply (N.land_ones x 4). Qed.
Lemma land_7 x : N.land x 0x07 = x mod 8.
Proof. apply (N.land_ones x 3). Qed.

Lemma is_continuation_iff c : is_continuation c = true ↔ 0x80 <= code c < 0xc0.
Proof.
  assert (is_continuation c = in_range 0x80 0xbf c) as -> by (by_bytes c).
  unfold in_range. rewrite andb_true_iff, !N.leb_le. lia.
Qed.

Lemma extend_eq cp c : extend cp c = cp * 64 + code c mod 64.
Proof.
  unfold extend. rewrite land_63, N.shiftl_mul_pow2.
  apply lor_disjoint. apply N.mod_lt. lia.
Qed.

Lemma continuation_byte x : x < 64 → code (ascii_of_N (N.lor 0x80 x)) = 0x80 + x.
Proof.
  intros H. rewrite (lead_lor 2 x 6) by done. apply code_of_N. lia.
Qed.

Lemma push_back_acc out c : push_back out c = out +:+ String c EmptyString.
Proof. done. Qed.

Lemma append_utf8_acc out cp : append_utf8 out cp = out +:+ append_utf8 EmptyString cp.
Proof.
  unfold append_utf8.
  repeat case_match; rewrite ?push_back_acc; simpl; rewrite ?append_assoc; done.
Qed.

Lemma append_utf8_nonempty cp : (0 < String.length (append_utf8 EmptyString cp))%nat.
Proof. unfold append_utf8. repeat case_match; simpl; lia. Qed.

Lemma encode_cons cp cps : encode (cp :: cps) = append_utf8 EmptyString cp +:+ encode cps.
Proof.
  unfold encode. simpl. generalize (append_utf8 "" cp) as out.
  assert (∀ l out, fold_left append_utf8 l out = out +:+ fold_left append_utf8 l "") as H.
  { intros l. induction l as [|x l IH]; intros out; simpl; [by rewrite append_nil_r|].
    rewrite IH, (IH (append_utf8 "" x)), append_utf8_acc. by rewrite append_assoc. }
  intros out. apply H.
Qed.

#[local] Ltac Zify.zify_post_hook ::= Z.div_mod_to_equations.

Lemma not_refused remaining cp :
  codepoint_refused remaining cp = false ↔
  (remaining = 2 → 0x800 <= cp) ∧ (remaining = 3 → 0x10000 <= cp) ∧
  cp < 0x110000 ∧ ¬ (0xd800 <= cp <= 0xdfff).
Proof.
  unfold codepoint_refused.
  rewrite !orb_false_iff, !andb_false_iff, !N.eqb_neq, !N.ltb_ge, !N.leb_gt. lia.
Qed.

Lemma lead_byte2 x : x < 32 → code (ascii_of_N (N.lor 0xc0 x)) = 0xc0 + x.
Proof. intros H. rewrite (lead_lor 6 x 5) by done. apply code_of_N. lia. Qed.
Lemma lead_byte3 x : x < 16 → code (ascii_of_N (N.lor 0xe0 x)) = 0xe0 + x.
Proof. intros H. rewrite (lead_lor 14 x 4) by done. apply code_of_N. lia. Qed.
Lemma lead_byte4 x : x < 8 → code (ascii_of_N (N.lor 0xf0 x)) = 0xf0 + x.
Proof. intros H. rewrite (lead_lor 30 x 3) by done. apply code_of_N. lia. Qed.

Lemma in_range_eq lo hi c n : code c = n → in_range lo hi c = (lo <=? n) && (n <=? hi).
Proof. by intros <-. Qed.

(** Decide a comparison of byte values whose outcome follows by [lia]. *)
Ltac decide_cmp :=
  repeat match goal with
  | |- context [?a <=? ?b] =>
      first [ rewrite (proj2 (N.leb_le a b)) by lia
            | rewrite (proj2 (N.leb_gt a b)) by lia ]
  end; cbn [andb orb negb].

(** The bytes of an encoding, by their values. *)
Lemma append_utf8_2 cp c0 c1 :
  0x7f < cp <= 0x7ff → code c0 = 0xc0 + cp / 64 → code c1 = 0x80 + cp mod 64 →
  append_utf8 EmptyString cp = String c0 (String c1 EmptyString).
Proof.
  intros H E0 E1. unfold append_utf8. decide_cmp.
  rewrite N.shiftr_div_pow2, land_63. change (2 ^ 6) with 64.
  unfold push_back; simpl. repeat f_equal; apply code_inj.
  - rewrite lead_byte2; lia.
  - rewrite continuation_byte; lia.
Qed.

Lemma append_utf8_3 cp c0 c1 c2 :
  0x7ff < cp <= 0xffff → code c0 = 0xe0 + cp / 4096 →
  code c1 = 0x80 + (cp / 64) mod 64 → code c2 = 0x80 + cp mod 64 →
  append_utf8 EmptyString cp = String c0 (String c1 (String c2 EmptyString)).
Proof.
  intros H E0 E1 E2. unfold append_utf8. decide_cmp.
  rewrite !N.shiftr_div_pow2, !land_63. change (2 ^ 6) with 64. change (2 ^ 12) with 4096.
  unfold push_back; simpl. repeat f_equal; apply code_inj.
  - rewrite lead_byte3; lia.
  - rewrite continuation_byte; lia.
  - rewrite continuation_byte; lia.
Qed.

Lemma append_utf8_4 cp c0 c1 c2 c3 :
  0xffff < cp < 0x110000 → code c0 = 0xf0 + cp / 262144 →
  code c1 = 0x80 + (cp / 4096) mod 64 →
  code c2 = 0x80 + (cp / 64) mod 64 → code c3 = 0x80 + cp mod 64 →
  append_utf8 EmptyString cp = String c0 (String c1 (String c2 (String c3 EmptyString))).
Proof.
  intros H E0 E1 E2 E3. unfold append_utf8. decide_cmp.
  rewrite !N.shiftr_div_pow2, !land_63.
  change (2 ^ 6) with 64. change (2 ^ 12) with 4096. change (2 ^ 18) with 262144.
  unfold push_back; simpl. repeat f_equal; apply code_inj.
  - rewrite lead_byte4; lia.
  - rewrite continuation_byte; lia.
  - rewrite continuation_byte; lia.
  - rewrite continuation_byte; lia.
Qed.

Lemma byte_exists n : n < 256 → ∃ c, code c = n.
Proof. intros H. exists (ascii_of_N n). by apply code_of_N. Qed.

(** An encoding beyond ASCII consists of at most four bytes with the top bit. *)
Lemma append_utf8_high cp : 0x7f < cp < 0x110000 →
  (String.length (append_utf8 EmptyString cp) <= 4)%nat ∧
  forall_bytes (fun c => 0x80 <=? code c) (append_utf8 EmptyString cp) = true.
Proof.
  intros Hcp.
  destruct (N.leb_spec cp 0x7ff) as [H2|H2]; [|destruct (N.leb_spec cp 0xffff) as [H3|H3]].
  - destruct (byte_exists (0xc0 + cp / 64)) as [c0 E0]; [lia|].
    destruct (byte_exists (0x80 + cp mod 64)) as [c1 E1]; [lia|].
    rewrite (append_utf8_2 cp c0 c1) by lia. split; [simpl; lia|].
    cbn [forall_bytes]. rewrite E0, E1. by decide_cmp.
  - destruct (byte_exists (0xe0 + cp / 4096)) as [c0 E0]; [lia|].
    destruct (byte_exists (0x80 + (cp / 64) mod 64)) as [c1 E1]; [lia|].
    destruct (byte_exists (0x80 + cp mod 64)) as [c2 E2]; [lia|].
    rewrite (append_utf8_3 cp c0 c1 c2) by lia. split; [simpl; lia|].
    cbn [forall_bytes]. rewrite E0, E1, E2. by decide_cmp.
  - destruct (byte_exists (0xf0 + cp / 262144)) as [c0 E0]; [lia|].
    destruct (byte_exists (0x80 + (cp / 4096) mod 64)) as [c1 E1]; [lia|].
    destruct (byte_exists (0x80 + (cp / 64) mod 64)) as [c2 E2]; [lia|].
    destruct (byte_exists (0x80 + cp mod 64)) as [c3 E3]; [lia|].
    rewrite (append_utf8_4 cp c0 c1 c2 c3) by lia. split; [simpl; lia|].
    cbn [forall_bytes]. rewrite E0, E1, E2, E3. by decide_cmp.
Qed.

(** One round of the validator's loop, by the class of the first byte. *)
Definition valid_utf8_step (c0 : ascii) (tail : string) : bool :=
  if code c0 <=? 0x7f then valid_utf8 tail
  else if in_range 0xc2 0xdf c0 then
    match tail with
    | String c1 rest =>
      is_continuation c1 &&
      negb (codepoint_refused 1 (extend (N.land (code c0) 0x1f) c1)) && valid_utf8 rest
    | _ => false
    end
  else if in_range 0xe0 0xef c0 then
    match tail with
    | String c1 (String c2 rest) =>
      is_continuation c1 && is_continuation c2 &&
      negb (codepoint_refused 2 (extend (extend (N.land (code c0) 0x0f) c1) c2)) &&
      valid_utf8 rest
    | _ => false
    end
  else if in_range 0xf0 0xf4 c0 then
    match tail with
    | String c1 (String c2 (String c3 rest)) =>
      is_continuation c1 && is_continuation c2 && is_continuation c3 &&
      negb (codepoint_refused 3
        (extend (extend (extend (N.land (code c0) 0x07) c1) c2) c3)) && valid_utf8 rest
    | _ => false
    end
  else false.

Lemma valid_utf8_unfold c0 tail : valid_utf8 (String c0 tail) = valid_utf8_step c0 tail.
Proof. done. Qed.

(** The validator accepts the encoding of a scalar value and goes on with what
    follows it. *)
Lemma valid_utf8_scalar cp rest :
  scalar cp → valid_utf8 (append_utf8 EmptyString cp +:+ rest) = valid_utf8 rest.
Proof.
  intros [Hmax Hsur].
  destruct (N.leb_spec cp 0x7f); [|destruct (N.leb_spec cp 0x7ff);
    [|destruct (N.leb_spec cp 0xffff)]].
  - unfold append_utf8. decide_cmp. rewrite push_back_append. cbn [String.append].
    rewrite valid_utf8_unfold.
    unfold valid_utf8_step. rewrite code_of_N by lia. by decide_cmp.
  - destruct (byte_exists (0xc0 + cp / 64)) as [c0 E0]; [lia|].
    destruct (byte_exists (0x80 + cp mod 64)) as [c1 E1]; [lia|].
    rewrite (append_utf8_2 cp c0 c1), !append_cons, valid_utf8_unfold by lia.
    unfold valid_utf8_step.
    rewrite !(in_range_eq _ _ _ _ E0), (proj2 (is_continuation_iff c1)), extend_eq,
      land_31, E0, E1 by lia.
    replace ((0xc0 + cp / 64) mod 32 * 64 + (0x80 + cp mod 64) mod 64) with cp by lia.
    decide_cmp. by rewrite (proj2 (not_refused 1 cp)) by lia.
  - destruct (byte_exists (0xe0 + cp / 4096)) as [c0 E0]; [lia|].
    destruct (byte_exists (0x80 + (cp / 64) mod 64)) as [c1 E1]; [lia|].
    destruct (byte_exists (0x80 + cp mod 64)) as [c2 E2]; [lia|].
    rewrite (append_utf8_3 cp c0 c1 c2), !append_cons, valid_utf8_unfold by lia.
    unfold valid_utf8_step.
    rewrite !(in_range_eq _ _ _ _ E0), (proj2 (is_continuation_iff c1)),
      (proj2 (is_continuation_iff c2)), !extend_eq, land_15, E0, E1, E2 by lia.
    replace (((0xe0 + cp / 4096) mod 16 * 64 + (0x80 + (cp / 64) mod 64) mod 64) * 64 +
      (0x80 + cp mod 64) mod 64) with cp by lia.
    decide_cmp. by rewrite (proj2 (not_refused 2 cp)) by lia.
  - destruct (byte_exists (0xf0 + cp / 262144)) as [c0 E0]; [lia|].
    destruct (byte_exists (0x80 + (cp / 4096) mod 64)) as [c1 E1]; [lia|].
    destruct (byte_exists (0x80 + (cp / 64) mod 64)) as [c2 E2]; [lia|].
    destruct (byte_exists (0x80 + cp mod 64)) as [c3 E3]; [lia|].
    rewrite (append_utf8_4 cp c0 c1 c2 c3), !append_cons, valid_utf8_unfold by lia.
    unfold valid_utf8_step.
    rewrite !(in_range_eq _ _ _ _ E0), (proj2 (is_continuation_iff c1)),
      (proj2 (is_continuation_iff c2)), (proj2 (is_continuation_iff c3)),
      !extend_eq, land_7, E0, E1, E2, E3 by lia.
    replace ((((0xf0 + cp / 262144) mod 8 * 64 + (0x80 + (cp / 4096) mod 64) mod 64) * 64 +
      (0x80 + (cp / 64) mod 64) mod 64) * 64 + (0x80 + cp mod 64) mod 64) with cp by lia.
    decide_cmp. by rewrite (proj2 (not_refused 3 cp)) by lia.
Qed.

Ltac byte_hyps :=
  repeat match goal with
  | H : is_continuation _ = true |- _ => apply is_continuation_iff in H
  | H : codepoint_refused _ _ = false |- _ => apply not_refused in H as (? & ? & ? & ?)
  end.

(** An accepted text is empty or starts with the encoding of a scalar value. *)
Lemma valid_utf8_inv value :
  valid_utf8 value = true → value = EmptyString ∨
  ∃ cp rest, scalar cp ∧ value = append_utf8 EmptyString cp +:+ rest ∧
    valid_utf8 rest = true.
Proof.
  destruct value as [|c0 rest]; [by left|]. intros H. right.
  rewrite valid_utf8_unfold in H. unfold valid_utf8_step in H.
  pose proof (code_lt c0).
  destruct (N.leb_spec (code c0) 0x7f) as [Hf|Hf].
  { exists (code c0), rest. split; [split; lia|]. split; [|done].
    unfold append_utf8. decide_cmp. by rewrite ascii_N_embedding. }
  destruct (in_range 0xc2 0xdf c0) eqn:R2; [|destruct (in_range 0xe0 0xef c0) eqn:R3;
    [|destruct (in_range 0xf0 0xf4 c0) eqn:R4; [|done]]];
    unfold in_range in *.
  - destruct rest as [|c1 rest]; [done|]. bool_hyps.
    rewrite extend_eq, land_31 in *.
    byte_hyps. eexists _, rest. split; [by split|]. split; [|done].
    by rewrite (append_utf8_2 _ c0 c1) by lia.
  - clear R2. destruct rest as [|c1 [|c2 rest]]; [done..|]. bool_hyps.
    rewrite !extend_eq, land_15 in *.
    byte_hyps. eexists _, rest. split; [by split|]. split; [|done].
    by rewrite (append_utf8_3 _ c0 c1 c2) by lia.
  - clear R2 R3. destruct rest as [|c1 [|c2 [|c3 rest]]]; [done..|]. bool_hyps.
    rewrite !extend_eq, land_7 in *.
    byte_hyps. eexists _, rest. split; [by split|]. split; [|done].
    by rewrite (append_utf8_4 _ c0 c1 c2 c3) by lia.
Qed.

(** The texts [valid_utf8] accepts are exactly the UTF-8 encodings of sequences
    of Unicode scalar values, as [append_utf8] writes them. *)
Theorem valid_utf8_correct value :
  valid_utf8 value = true ↔ ∃ cps, Forall scalar cps ∧ value = encode cps.
Proof.
  split.
  - remember (String.length value) as n eqn:Hn. revert value Hn.
    induction n as [n IH] using lt_wf_ind; intros value Hn H.
    destruct (valid_utf8_inv value H) as [->|(cp & rest & Hcp & -> & Hrest)]; [by exists []|].
    rewrite length_append in Hn. pose proof (append_utf8_nonempty cp).
    destruct (IH (String.length rest) ltac:(lia) rest eq_refl Hrest) as (cps & Hcps & ->).
    exists (cp :: cps). split; [by constructor|]. by rewrite encode_cons.
  - intros (cps & Hcps & ->). induction Hcps as [|cp cps Hcp _ IH]; [done|].
    by rewrite encode_cons, valid_utf8_scalar.
Qed.

End Utf8.
