(* ===== verification/Sha256.v ===== *)
(** The incremental SHA-256 of [runtime/base/usk_sha256.{h,cpp}]: the class, its
    compression function, and the equivalence of the buffered interface with a
    one-pass reference over the padded message. *)

From Stdlib Require Import Ascii String NArith ZArith Lia.
From stdpp Require Import base list strings.
From S2P Require Import Prelude.

Module Sha256.

(** ** 32-bit words *)

Definition w32 (x : N) : N := x mod 2 ^ 32.
Definition add32 (x y : N) : N := w32 (x + y).
Definition not32 (x : N) : N := N.lxor x 0xffffffff.

Definition rotate_right (value bits : N) : N :=
  N.lor (N.shiftr value bits) (w32 (N.shiftl value (32 - bits))).

(** ** [Sha256::transform] *)

Definition constants : list N :=
  [0x428a2f98;0x71374491;0xb5c0fbcf;0xe9b5dba5;0x3956c25b;0x59f111f1;0x923f82a4;0xab1c5ed5] ++
  [0xd807aa98;0x12835b01;0x243185be;0x550c7dc3;0x72be5d74;0x80deb1fe;0x9bdc06a7;0xc19bf174] ++
  [0xe49b69c1;0xefbe4786;0x0fc19dc6;0x240ca1cc;0x2de92c6f;0x4a7484aa;0x5cb0a9dc;0x76f988da] ++
  [0x983e5152;0xa831c66d;0xb00327c8;0xbf597fc7;0xc6e00bf3;0xd5a79147;0x06ca6351;0x14292967] ++
  [0x27b70a85;0x2e1b2138;0x4d2c6dfc;0x53380d13;0x650a7354;0x766a0abb;0x81c2c92e;0x92722c85] ++
  [0xa2bfe8a1;0xa81a664b;0xc24b8b70;0xc76c51a3;0xd192e819;0xd6990624;0xf40e3585;0x106aa070] ++
  [0x19a4c116;0x1e376c08;0x2748774c;0x34b0bcb5;0x391c0cb3;0x4ed8aa4a;0x5b9cca4f;0x682e6ff3] ++
  [0x748f82ee;0x78a5636f;0x84c87814;0x8cc70208;0x90befffa;0xa4506ceb;0xbef9a3f7;0xc67178f2].

(** [words[index]] for [index < 16]: big-endian groups of four bytes. *)
Fixpoint block_words (block : string) : list N :=
  match block with
  | String b0 (String b1 (String b2 (String b3 rest))) =>
    N.lor (N.lor (N.lor (N.shiftl (code b0) 24) (N.shiftl (code b1) 16))
      (N.shiftl (code b2) 8)) (code b3) :: block_words rest
  | _ => []
  end.

(** The loop [index = 16 .. 63]; [words] holds the entries below [index]. *)
Fixpoint extend_words (count : nat) (words : list N) : list N :=
  match count with
  | O => words
  | S count =>
    let index := length words in
    let at_ back := nth (index - back) words 0 in
    let s0 := N.lxor (N.lxor (rotate_right (at_ 15%nat) 7) (rotate_right (at_ 15%nat) 18))
      (N.shiftr (at_ 15%nat) 3) in
    let s1 := N.lxor (N.lxor (rotate_right (at_ 2%nat) 17) (rotate_right (at_ 2%nat) 19))
      (N.shiftr (at_ 2%nat) 10) in
    extend_words count
      (words ++ [add32 (add32 (add32 (at_ 16%nat) s0) (at_ 7%nat)) s1])
  end.

Record working := mk_working {
  va : N; vb : N; vc : N; vd : N; ve : N; vf : N; vg : N; vh : N }.

Definition round (v : working) (kw : N * N) : working :=
  let '(k, w) := kw in
  let t1 := add32 (add32 (add32 (add32 (vh v)
    (N.lxor (N.lxor (rotate_right (ve v) 6) (rotate_right (ve v) 11)) (rotate_right (ve v) 25)))
    (N.lxor (N.land (ve v) (vf v)) (N.land (not32 (ve v)) (vg v)))) k) w in
  let t2 := add32
    (N.lxor (N.lxor (rotate_right (va v) 2) (rotate_right (va v) 13)) (rotate_right (va v) 22))
    (N.lxor (N.lxor (N.land (va v) (vb v)) (N.land (va v) (vc v))) (N.land (vb v) (vc v))) in
  mk_working (add32 t1 t2) (va v) (vb v) (vc v) (add32 (vd v) t1) (ve v) (vf v) (vg v).

Definition transform (state : working) (block : string) : working :=
  let words := extend_words 48 (block_words block) in
  let v := fold_left round (combine constants words) state in
  mk_working (add32 (va state) (va v)) (add32 (vb state) (vb v)) (add32 (vc state) (vc v))
    (add32 (vd state) (vd v)) (add32 (ve state) (ve v)) (add32 (vf state) (vf v))
    (add32 (vg state) (vg v)) (add32 (vh state) (vh v)).

(** ** The class

    [block_] is the prefix of the 64-byte array that [block_size_] counts. *)

Record Sha256 := mk_Sha256 {
  state_ : working;
  block_ : string;
  total_bytes_ : N;
  finished_ : bool }.

Definition initial_state : working :=
  mk_working 0x6a09e667 0xbb67ae85 0x3c6ef372 0xa54ff53a
    0x510e527f 0x9b05688c 0x1f83d9ab 0x5be0cd19.

Definition initial : Sha256 := mk_Sha256 initial_state EmptyString 0 false.

(** The [while (size > 0)] loop of [update]. *)
Fixpoint update_loop (fuel : nat) (state : working) (block data : string) : working * string :=
  match fuel, data with
  | _, EmptyString => (state, block)
  | O, _ => (state, block)
  | S fuel, _ =>
    let count := (String.length data `min` (64 - String.length block))%nat in
    let block := block +:+ str_take count data in
    let data := str_drop count data in
    if (String.length block =? 64)%nat
    then update_loop fuel (transform state block) EmptyString data
    else update_loop fuel state block data
  end.

Definition update (h : Sha256) (data : string) : result Sha256 :=
  if finished_ h then Throw (logic_error "invalid SHA-256 update")
  else
    let '(state, block) := update_loop (String.length data) (state_ h) (block_ h) data in
    Ok (mk_Sha256 state block ((total_bytes_ h + size data) mod 2 ^ 64) false).

(** [while (block_size_ != 56u) update(&zero, 1);] *)
Fixpoint pad_zeros (fuel : nat) (h : Sha256) : result Sha256 :=
  if (String.length (block_ h) =? 56)%nat then Ok h
  else match fuel with
  | O => Throw out_of_fuel
  | S fuel => h ← update h (String (ascii_of_N 0) EmptyString); pad_zeros fuel h
  end.

(** [length[7u - index] = (bit_length >> (index * 8u)) & 0xff]. *)
Definition length_bytes (bit_length : N) : string :=
  fold_right (fun index s =>
    String (ascii_of_N (N.land (N.shiftr bit_length (index * 8)) 0xff)) s)
    EmptyString [7; 6; 5; 4; 3; 2; 1; 0].

Definition hex_digit_char (d : N) : ascii :=
  if d <? 10 then ascii_of_N (48 + d) else ascii_of_N (87 + d).

(** [out << std::hex << std::setfill('0') << std::setw(8) << value]. *)
Definition hex8 (value : N) : string :=
  fold_right (fun index s => String (hex_digit_char (N.land (N.shiftr value (index * 4)) 0xf)) s)
    EmptyString [7; 6; 5; 4; 3; 2; 1; 0].

Definition hex_state (s : working) : string :=
  hex8 (va s) +:+ hex8 (vb s) +:+ hex8 (vc s) +:+ hex8 (vd s) +:+
  hex8 (ve s) +:+ hex8 (vf s) +:+ hex8 (vg s) +:+ hex8 (vh s).

Definition finish (h : Sha256) : result (string * Sha256) :=
  if finished_ h then Throw (logic_error "SHA-256 was already finalized")
  else
    let bit_length := (total_bytes_ h * 8) mod 2 ^ 64 in
    h ← update h (String (ascii_of_N 0x80) EmptyString);
    h ← pad_zeros 64 h;
    h ← update h (length_bytes bit_length);
    Ok (hex_state (state_ h), mk_Sha256 (state_ h) (block_ h) (total_bytes_ h) true).

(** [Sha256 d; d.update(text); return d.finish();], the idiom of every caller. *)
Definition hash_text (text : string) : result string :=
  h ← update initial text; '(digest, _) ← finish h; Ok digest.

(** ** Reference: one pass over the padded message *)

(** Compress the leading 64-byte blocks of [s]; the tail is returned. *)
Fixpoint absorb (fuel : nat) (state : working) (s : string) : working * string :=
  match fuel with
  | O => (state, s)
  | S fuel =>
    if (String.length s <? 64)%nat then (state, s)
    else absorb fuel (transform state (str_take 64 s)) (str_drop 64 s)
  end.

Definition absorb_all (state : working) (s : string) : working * string :=
  absorb (String.length s) state s.

Definition zeros (n : nat) : string := Nat.iter n (String (ascii_of_N 0)) EmptyString.

Definition pad_count (n : nat) : nat := ((119 - n mod 64) mod 64)%nat.

Definition padded (message : string) : string :=
  message +:+ String (ascii_of_N 0x80) (zeros (pad_count (String.length message))) +:+
  length_bytes ((size message * 8) mod 2 ^ 64).

Definition sha256 (message : string) : string :=
  hex_state (fst (absorb_all initial_state (padded message))).

(** ** The buffered loop *)

Lemma absorb_fuel fuel fuel' state s :
  (String.length s <= fuel)%nat → (String.length s <= fuel')%nat →
  absorb fuel state s = absorb fuel' state s.
Proof.
  revert fuel' state s. induction fuel as [|fuel IH]; intros [|fuel'] state s H H';
    cbn [absorb].
  - done.
  - destruct s; simpl in *; [done|lia].
  - destruct s; simpl in *; [done|lia].
  - destruct (Nat.ltb_spec (String.length s) 64); [done|].
    apply IH; rewrite length_str_drop; lia.
Qed.

Lemma absorb_all_short state s : (String.length s < 64)%nat → absorb_all state s = (state, s).
Proof.
  intros H. unfold absorb_all. destruct (String.length s) eqn:E; [done|].
  cbn [absorb]. rewrite E. by destruct (Nat.ltb_spec (S n) 64); [|lia].
Qed.

Lemma absorb_all_block state b s :
  String.length b = 64%nat → absorb_all state (b +:+ s) = absorb_all (transform state b) s.
Proof.
  intros H. unfold absorb_all. rewrite length_append, H.
  change (64 + String.length s)%nat with (S (63 + String.length s)). cbn [absorb].
  rewrite length_append, H. destruct (Nat.ltb_spec (64 + String.length s) 64); [lia|].
  rewrite <- H, str_take_all, str_drop_all. apply absorb_fuel; lia.
Qed.

Lemma absorb_all_remainder state s state' r :
  absorb_all state s = (state', r) →
  (String.length r < 64)%nat ∧ String.length r = (String.length s mod 64)%nat.
Proof.
  remember (String.length s) as n eqn:Hn. revert s state Hn.
  induction n as [n IH] using lt_wf_ind; intros s state Hn.
  destruct (Nat.lt_ge_cases n 64) as [H|H].
  - rewrite absorb_all_short by lia. intros [= <- <-].
    rewrite Nat.mod_small by lia. lia.
  - rewrite <- (str_take_drop 64 s), absorb_all_block by (rewrite length_str_take; lia).
    intros E. assert (String.length (str_drop 64 s) = n - 64)%nat as Hd
      by (rewrite length_str_drop; lia).
    destruct (IH (n - 64)%nat ltac:(lia) _ _ (eq_sym Hd) E) as [H1 H2].
    split; [done|]. rewrite H2. replace n with ((n - 64) + 1 * 64)%nat at 2 by lia.
    by rewrite Nat.Div0.mod_add.
Qed.

(** Absorbing in two steps is absorbing at once. *)
Lemma absorb_all_app state s t :
  absorb_all state (s +:+ t) =
  let '(state', r) := absorb_all state s in absorb_all state' (r +:+ t).
Proof.
  remember (String.length s) as n eqn:Hn. revert s state Hn.
  induction n as [n IH] using lt_wf_ind; intros s state Hn.
  destruct (Nat.lt_ge_cases n 64) as [H|H].
  - by rewrite (absorb_all_short state s) by lia.
  - assert (String.length (str_take 64 s) = 64)%nat as Hb by (rewrite length_str_take; lia).
    rewrite <- (str_take_drop 64 s), append_assoc.
    rewrite (absorb_all_block _ _ (str_drop 64 s +:+ t)) by done.
    rewrite (absorb_all_block _ _ (str_drop 64 s)) by done.
    apply (IH (n - 64)%nat); [lia|rewrite length_str_drop; lia].
Qed.

(** The loop of [update] compresses exactly the full blocks of the buffered and
    the new bytes, and buffers the rest. *)
Lemma update_loop_absorb fuel state block data :
  (String.length block < 64)%nat → (String.length data <= fuel)%nat →
  update_loop fuel state block data = absorb_all state (block +:+ data).
Proof.
  revert state block data. induction fuel as [|fuel IH]; intros state block data Hb Hf.
  { destruct data; simpl in *; [|lia]. by rewrite append_nil_r, absorb_all_short. }
  destruct data as [|c data'] eqn:Ed.
  { simpl. by rewrite append_nil_r, absorb_all_short. }
  assert (0 < String.length data)%nat as Hpos by (subst; simpl; lia).
  cbn [update_loop]. rewrite <- Ed in *. clear Ed c data'.
  set (count := (_ `min` _)%nat).
  destruct (Nat.eqb_spec (String.length (block +:+ str_take count data)) 64) as [H|H].
  - rewrite IH by (simpl; rewrite ?length_str_drop; lia).
    replace (block +:+ data) with ((block +:+ str_take count data) +:+ str_drop count data)
      by (by rewrite append_assoc, str_take_drop).
    symmetry. by apply absorb_all_block.
  - rewrite length_append, length_str_take in H.
    rewrite IH by (rewrite ?length_append, ?length_str_take, ?length_str_drop; lia).
    by rewrite append_assoc, str_take_drop.
Qed.

(** ** Runs of the class *)

(** The invariant of a usable object: it has absorbed [fed]. *)
Definition fed (h : Sha256) (message : string) : Prop :=
  finished_ h = false ∧ total_bytes_ h = size message mod 2 ^ 64 ∧
  (state_ h, block_ h) = absorb_all initial_state message.

Lemma fed_initial : fed initial EmptyString.
Proof. done. Qed.

Lemma fed_block h m : fed h m →
  (String.length (block_ h) < 64)%nat ∧
  String.length (block_ h) = (String.length m mod 64)%nat.
Proof. intros (_ & _ & H). by eapply absorb_all_remainder. Qed.

Lemma fed_update h m data :
  fed h m → ∃ h', update h data = Ok h' ∧ fed h' (m +:+ data).
Proof.
  intros Hf. pose proof (fed_block h m Hf) as [Hlt _]. destruct Hf as (H1 & H2 & H3).
  unfold update. rewrite H1, update_loop_absorb by lia.
  destruct (absorb_all (state_ h) (block_ h +:+ data)) as [state block] eqn:E.
  eexists. split; [done|]. split; [done|]. split; simpl.
  - rewrite H2, size_append. by rewrite N.Div0.add_mod_idemp_l.
  - rewrite absorb_all_app, <- H3. by rewrite E.
Qed.

Lemma zeros_S n : zeros (S n) = String (ascii_of_N 0) (zeros n).
Proof. done. Qed.

Lemma length_zeros n : String.length (zeros n) = n.
Proof. induction n; simpl; auto. Qed.

(** The padding loop stops after the number of zero bytes that completes the
    message to 56 bytes modulo 64. *)
Lemma pad_zeros_fed z h m fuel :
  fed h m → ((String.length m + z) mod 64 = 56)%nat → (z < 64)%nat → (z <= fuel)%nat →
  ∃ h', pad_zeros fuel h = Ok h' ∧ fed h' (m +:+ zeros z).
Proof.
  revert h m fuel. induction z as [|z IH]; intros h m fuel Hf Hz Hlt Hfuel.
  - exists h. change (zeros 0) with EmptyString. rewrite append_nil_r.
    split; [|done]. destruct (fed_block h m Hf) as [_ Hl]. rewrite Nat.add_0_r in Hz.
    destruct fuel; simpl; by rewrite Hl, Hz.
  - destruct fuel as [|fuel]; [lia|]. cbn [pad_zeros].
    destruct (fed_block h m Hf) as [_ Hl].
    destruct (Nat.eqb_spec (String.length (block_ h)) 56) as [E|_].
    { exfalso. rewrite E in Hl.
      rewrite Nat.Div0.add_mod, <- Hl, (Nat.mod_small (S z)) in Hz by lia.
      destruct (Nat.lt_ge_cases (56 + S z) 64).
      - rewrite Nat.mod_small in Hz; lia.
      - replace (56 + S z)%nat with ((S z - 8) + 1 * 64)%nat in Hz by lia.
        rewrite Nat.Div0.mod_add, Nat.mod_small in Hz; lia. }
    destruct (fed_update h m (String (ascii_of_N 0) EmptyString) Hf) as (h1 & -> & Hf1).
    cbn [mbind result_bind].
    destruct (IH h1 (m +:+ String (ascii_of_N 0) "") fuel Hf1) as (h2 & -> & Hf2);
      [rewrite length_append; simpl; by replace (String.length m + 1 + z)%nat
         with (String.length m + S z)%nat by lia|lia|lia|].
    exists h2. split; [done|]. rewrite append_assoc in Hf2. exact Hf2.
Qed.

Lemma pad_count_spec n : ((n + 1 + pad_count n) mod 64 = 56)%nat ∧ (pad_count n < 64)%nat.
Proof.
  unfold pad_count. split; [|apply Nat.mod_upper_bound; lia].
  rewrite Nat.Div0.add_mod_idemp_r.
  pose proof (Nat.div_mod_eq n 64).
  assert (n mod 64 < 64)%nat by (apply Nat.mod_upper_bound; lia).
  replace (n + 1 + (119 - n mod 64))%nat with (56 + (1 + n / 64) * 64)%nat by lia.
  by rewrite Nat.Div0.mod_add.
Qed.

(** Finishing an object that has absorbed [m] returns the reference digest and
    leaves an object that refuses further use. *)
Lemma finish_fed h m :
  fed h m → ∃ h', finish h = Ok (sha256 m, h') ∧ finished_ h' = true.
Proof.
  intros Hf. unfold finish. pose proof Hf as (H1 & H2 & _). rewrite H1, H2.
  destruct (fed_update h m (String (ascii_of_N 0x80) EmptyString) Hf) as (h1 & -> & Hf1).
  cbn [mbind result_bind].
  destruct (pad_count_spec (String.length m)) as [Hp1 Hp2].
  destruct (pad_zeros_fed (pad_count (String.length m)) h1 _ 64 Hf1) as (h2 & -> & Hf2);
    [rewrite length_append; simpl; exact Hp1|done|lia|].
  cbn [mbind result_bind].
  destruct (fed_update h2 _ (length_bytes ((size m mod 2 ^ 64 * 8) mod 2 ^ 64)) Hf2)
    as (h3 & -> & Hf3).
  cbn [mbind result_bind].
  exists (mk_Sha256 (state_ h3) (block_ h3) (total_bytes_ h3) true). split; [|done].
  do 2 f_equal.
  destruct Hf3 as (_ & _ & H3). rewrite N.Div0.mul_mod_idemp_l, !append_assoc in H3.
  unfold sha256. replace (padded m) with (m +:+ String (ascii_of_N 0x80) EmptyString +:+
    zeros (pad_count (String.length m)) +:+ length_bytes ((size m * 8) mod 2 ^ 64)) by done.
  by rewrite <- H3.
Qed.

(** Feed the chunks one after the other, then finish. *)
Definition run (chunks : list string) : result string :=
  h ← fold_result update initial chunks; '(digest, _) ← finish h; Ok digest.

Definition concat_chunks (chunks : list string) : string :=
  fold_right String.append EmptyString chunks.

Lemma run_fed chunks h m :
  fed h m → ∃ h', fold_result update h chunks = Ok h' ∧ fed h' (m +:+ concat_chunks chunks).
Proof.
  revert h m. induction chunks as [|c chunks IH]; intros h m Hf; simpl.
  - exists h. by rewrite append_nil_r.
  - destruct (fed_update h m c Hf) as (h1 & -> & Hf1). simpl.
    destruct (IH h1 _ Hf1) as (h2 & -> & Hf2). rewrite append_assoc in Hf2. eauto.
Qed.

Lemma run_sha256 chunks : run chunks = Ok (sha256 (concat_chunks chunks)).
Proof.
  unfold run. destruct (run_fed chunks initial EmptyString fed_initial) as (h & -> & Hf).
  simpl. destruct (finish_fed h _ Hf) as (h' & E & _). simpl in E. by rewrite E.
Qed.

(** C38 However the message is cut into chunks, feeding the chunks and finishing
    returns the reference digest of the whole message: the 64-byte buffer, the
    padding loop and the length field are exact, and no run fails. *)
Theorem sha256_streaming chunks : run chunks = Ok (sha256 (concat_chunks chunks)).
Proof. apply run_sha256. Qed.

Lemma hash_text_sha256 text : hash_text text = Ok (sha256 text).
Proof.
  unfold hash_text. destruct (fed_update initial "" text fed_initial) as (h & -> & Hf).
  simpl. destruct (finish_fed h _ Hf) as (h' & E & _). simpl in E. by rewrite E.
Qed.

(** ** The shape of a digest *)

Lemma hex_digit_char_lower d : d < 16 →
  is_digit (hex_digit_char d) || is_lower_hex_alpha (hex_digit_char d) = true.
Proof.
  intros H. unfold is_digit, is_lower_hex_alpha, in_range, hex_digit_char.
  destruct (N.ltb_spec d 10); rewrite code_of_N by lia.
  - rewrite (proj2 (N.leb_le 48 _)), (proj2 (N.leb_le _ 57)) by lia. done.
  - rewrite (proj2 (N.leb_le 97 _)), (proj2 (N.leb_le _ 102)) by lia. apply orb_true_r.
Qed.

Definition is_lower_hex (c : ascii) : bool := is_digit c || is_lower_hex_alpha c.

Lemma hex8_lower v : forall_bytes is_lower_hex (hex8 v) = true.
Proof.
  unfold hex8. generalize [7; 6; 5; 4; 3; 2; 1; 0].
  induction l as [|i l IH]; [done|]. simpl. rewrite IH, andb_true_r.
  apply hex_digit_char_lower. change 15 with (N.ones 4). rewrite N.land_ones.
  apply N.mod_lt. done.
Qed.

(** A digest is 64 lower-case hexadecimal digits. *)
Lemma sha256_shape m :
  size (sha256 m) = 64 ∧ forall_bytes is_lower_hex (sha256 m) = true.
Proof.
  unfold sha256, hex_state. split.
  - rewrite !size_append. done.
  - by rewrite !forall_bytes_append, !hex8_lower.
Qed.

Example sha256_abc : sha256 "abc" =
  "ba7816bf8f01cfea414140de5dae2223b00361a396177a9cb410ff61f20015ad".
Proof. vm_compute. reflexivity. Qed.

Example sha256_two_blocks :
  sha256 "abcdbcdecdefdefgefghfghighijhijkijkljklmklmnlmnomnopnopq" =
  "248d6a61d20638b8e5c026930c3e6039a33ce45964ff2167f6ecedd419db06c1".
Proof. vm_compute. reflexivity. Qed.
Example hash_abc : hash_text "abc" = Ok
  "ba7816bf8f01cfea414140de5dae2223b00361a396177a9cb410ff61f20015ad".
Proof. vm_compute. reflexivity. Qed.

End Sha256.
