(* ===== verification/StdMap.v ===== *)
(** [std::map<std::string, T>] and [std::set<std::string>] of the C++ standard
    library: the key-ordered association list that iteration visits.  The
    invariant [sorted] is what the container guarantees; every operation keeps
    it. *)

From Stdlib Require Import Ascii String NArith ZArith Lia Sorted.
From stdpp Require Import base list sets strings.
From S2P Require Import Prelude.

Module StdMap.

Section Map.
Context {A : Type}.
Implicit Types (m : list (string * A)) (k : string) (v : A).

(** [find]. *)
Fixpoint find (k : string) (m : list (string * A)) : option A :=
  match m with
  | [] => None
  | (k', v) :: m => if String.eqb k k' then Some v else find k m
  end.

Definition contains_key k m : bool :=
  match find k m with Some _ => true | None => false end.

(** [emplace]: insert unless the key is present; the flag is [.second]. *)
Fixpoint emplace (k : string) (v : A) (m : list (string * A)) : list (string * A) * bool :=
  match m with
  | [] => ([(k, v)], true)
  | (k', v') :: m' =>
    match String.compare k k' with
    | Eq => (m, false)
    | Lt => ((k, v) :: m, true)
    | Gt => let '(m'', b) := emplace k v m' in ((k', v') :: m'', b)
    end
  end.

(** [erase(key)]. *)
Definition erase k m : list (string * A) :=
  List.filter (fun p => negb (String.eqb k (fst p))) m.

(** The initializer-list constructor. *)
Definition of_list (l : list (string * A)) : list (string * A) :=
  fold_left (fun m p => fst (emplace (fst p) (snd p) m)) l [].

Definition key_lt (p q : string * A) : Prop := string_ltb (fst p) (fst q) = true.

Definition sorted (m : list (string * A)) : Prop := StronglySorted key_lt m.

Lemma sorted_find_None k m :
  Forall (fun p => string_ltb k (fst p) = true) m → find k m = None.
Proof.
  induction 1 as [|[k' v'] m H _ IH]; [done|]. simpl in *.
  destruct (String.eqb_spec k k') as [->|]; [|done].
  by rewrite string_ltb_irrefl in H.
Qed.

Lemma compare_ltb a b :
  match String.compare a b with
  | Eq => a = b | Lt => string_ltb a b = true | Gt => string_ltb b a = true
  end.
Proof.
  unfold string_ltb. destruct (String.compare a b) eqn:E.
  - by apply String.compare_eq_iff.
  - done.
  - rewrite (String.compare_antisym b a), E. done.
Qed.

Lemma emplace_snd k v m : sorted m → snd (emplace k v m) = negb (contains_key k m).
Proof.
  unfold contains_key. induction 1 as [|[k' v'] m _ IH Hlt]; [done|]. simpl.
  pose proof (compare_ltb k k') as C. destruct (String.compare k k'); simpl.
  - subst. by rewrite String.eqb_refl.
  - destruct (String.eqb_spec k k') as [->|]; [by rewrite string_ltb_irrefl in C|].
    rewrite sorted_find_None; [done|].
    eapply Forall_impl; [exact Hlt|]. intros p Hp. eapply string_ltb_trans; eauto.
  - destruct (emplace k v m) as [m'' b] eqn:E. simpl in *.
    destruct (String.eqb_spec k k') as [->|]; [by rewrite string_ltb_irrefl in C|]. done.
Qed.

Lemma emplace_keys k v m p :
  p ∈ fst (emplace k v m) → p = (k, v) ∨ p ∈ m.
Proof.
  induction m as [|[k' v'] m IH]; simpl; [set_solver|].
  destruct (String.compare k k'); simpl; [set_solver..|].
  destruct (emplace k v m) as [m'' b]. simpl in *. set_solver.
Qed.

Lemma emplace_sorted k v m : sorted m → sorted (fst (emplace k v m)).
Proof.
  induction 1 as [|[k' v'] m Hm IH Hlt]; simpl; [repeat constructor|].
  pose proof (compare_ltb k k') as C. destruct (String.compare k k') eqn:E; simpl.
  - by constructor.
  - constructor; [by constructor|]. constructor; [done|].
    eapply Forall_impl; [exact Hlt|]. intros p Hp. eapply string_ltb_trans; eauto.
  - pose proof (emplace_keys k v m) as Hk. destruct (emplace k v m) as [m'' b]. simpl in *.
    constructor; [done|]. apply Forall_forall. intros p Hp.
    destruct (Hk p Hp) as [->|Hp']; [done|].
    rewrite Forall_forall in Hlt. by apply Hlt.
Qed.

(** A new key adds exactly one entry. *)
Lemma emplace_perm k v m :
  snd (emplace k v m) = true → fst (emplace k v m) ≡ₚ (k, v) :: m.
Proof.
  induction m as [|[k' v'] m IH]; simpl; [done|].
  destruct (String.compare k k'); simpl; [done|done|].
  destruct (emplace k v m) as [m'' b]. simpl in *. intros ->.
  rewrite IH by done. constructor.
Qed.

Lemma find_emplace_other k k' v m : sorted m →
  k ≠ k' → find k' (fst (emplace k v m)) = find k' m.
Proof.
  intros Hm Hne. induction Hm as [|[k1 v1] m _ IH _]; simpl.
  - by destruct (String.eqb_spec k' k); [subst|].
  - destruct (String.compare k k1); simpl; [done| |].
    + by destruct (String.eqb_spec k' k); [subst|].
    + destruct (emplace k v m). simpl in *. by rewrite IH.
Qed.

Lemma find_emplace_same k v m : sorted m → find k m = None →
  find k (fst (emplace k v m)) = Some v.
Proof.
  induction 1 as [|[k1 v1] m _ IH _]; simpl; [by rewrite String.eqb_refl|].
  pose proof (compare_ltb k k1) as C.
  destruct (String.eqb_spec k k1) as [|Hne]; [done|]. intros Hf.
  destruct (String.compare k k1); simpl; [done|by rewrite String.eqb_refl|].
  destruct (emplace k v m). simpl in *. destruct (String.eqb_spec k k1); [done|]. auto.
Qed.

(** Appending a larger key: the shape in which canonical text is read back. *)
Lemma emplace_snoc k v m :
  Forall (fun p => string_ltb (fst p) k = true) m → emplace k v m = (m ++ [(k, v)], true).
Proof.
  induction 1 as [|[k' v'] m Hk _ IH]; [done|]. simpl in *.
  pose proof (compare_ltb k k') as C. destruct (String.compare k k').
  - subst. by rewrite string_ltb_irrefl in Hk.
  - apply string_ltb_antisym in C. congruence.
  - by rewrite IH.
Qed.

Lemma of_list_sorted l : sorted (of_list l).
Proof.
  unfold of_list. assert (∀ m, sorted m →
    sorted (fold_left (fun m p => fst (emplace (fst p) (snd p) m)) l m)) as H.
  { induction l as [|p l IH]; intros m Hm; simpl; [done|]. apply IH, emplace_sorted, Hm. }
  apply H. constructor.
Qed.

Lemma sorted_nodup m : sorted m → NoDup (fst <$> m).
Proof.
  induction 1 as [|[k v] m _ IH Hlt]; simpl; constructor; [|done].
  rewrite list_elem_of_fmap. intros ([k' v'] & -> & Hin). simpl in *.
  rewrite Forall_forall in Hlt. apply Hlt in Hin.
  unfold key_lt in Hin. simpl in Hin. by rewrite string_ltb_irrefl in Hin.
Qed.

Lemma erase_sorted k m : sorted m → sorted (erase k m).
Proof.
  unfold erase. induction 1 as [|p m _ IH Hlt]; simpl; [constructor|].
  destruct (negb _); [|done]. constructor; [done|].
  apply Forall_forall. intros q [Hq _]%list_elem_of_In%filter_In.
  rewrite Forall_forall in Hlt. by apply Hlt, list_elem_of_In.
Qed.

Lemma find_erase_same k m : find k (erase k m) = None.
Proof.
  unfold erase. induction m as [|[k' v'] m IH]; simpl; [done|].
  destruct (String.eqb_spec k k'); simpl; [done|].
  by destruct (String.eqb_spec k k').
Qed.

Lemma find_erase_other k k' m : k ≠ k' → find k' (erase k m) = find k' m.
Proof.
  intros Hne. unfold erase. induction m as [|[k1 v1] m IH]; simpl; [done|].
  destruct (String.eqb_spec k k1); simpl.
  - subst. destruct (String.eqb_spec k' k1); [congruence|done].
  - by rewrite IH.
Qed.

Lemma find_In k v m : find k m = Some v → (k, v) ∈ m.
Proof.
  induction m as [|[k' v'] m IH]; simpl; [done|].
  destruct (String.eqb_spec k k') as [->|]; [intros [= ->]; set_solver|].
  intros H. right. by apply IH.
Qed.

Lemma find_of_In k v m : sorted m → (k, v) ∈ m → find k m = Some v.
Proof.
  induction 1 as [|[k' v'] m _ IH Hlt]; [set_solver|]. simpl.
  intros [[= <- <-]|Hin]%elem_of_cons; [by rewrite String.eqb_refl|].
  destruct (String.eqb_spec k k') as [->|]; [|by apply IH].
  rewrite Forall_forall in Hlt. apply Hlt in Hin.
  unfold key_lt in Hin. simpl in Hin. by rewrite string_ltb_irrefl in Hin.
Qed.

(** Two ordered maps with the same look-ups are the same list. *)
Lemma sorted_ext m m' : sorted m → sorted m' → (∀ k, find k m = find k m') → m = m'.
Proof.
  intros Hm. revert m'. induction Hm as [|[k v] m Hm IH Hlt]; intros m' Hm' H.
  - destruct m' as [|[k' v'] m']; [done|]. specialize (H k'). simpl in H. by rewrite String.eqb_refl in H.
  - destruct m' as [|[k' v'] m']; [|inversion Hm' as [|? ? Hs' Hlt']; subst].
    { specialize (H k). simpl in H. by rewrite String.eqb_refl in H. }
    assert (k = k') as <-.
    { pose proof (H k) as H1. pose proof (H k') as H2. simpl in H1, H2.
      rewrite String.eqb_refl in H1, H2.
      destruct (String.eqb_spec k k') as [|Hne]; [done|exfalso].
      destruct (String.eqb_spec k' k) as [|_]; [congruence|].
      symmetry in H1. apply find_In in H1, H2.
      rewrite Forall_forall in Hlt, Hlt'. apply Hlt in H2. apply Hlt' in H1.
      unfold key_lt in *. simpl in *. apply string_ltb_antisym in H1. congruence. }
    assert (v = v') as <-.
    { specialize (H k). simpl in H. rewrite String.eqb_refl in H. by injection H. }
    f_equal. apply IH; [done|]. intros k1. specialize (H k1). simpl in H.
    destruct (String.eqb_spec k1 k) as [E|]; [|done].
    rewrite E, !sorted_find_None; done.
Qed.

End Map.

(** [std::set<std::string>]: the keys. *)
Definition set_insert (k : string) (s : list string) : list string * bool :=
  let '(m, b) := emplace k tt (map (fun x => (x, tt)) s) in (map fst m, b).

Definition set_of_list (l : list string) : list string :=
  fold_left (fun s k => fst (set_insert k s)) l [].

Definition set_mem (k : string) (s : list string) : bool := existsb (String.eqb k) s.

End StdMap.

(** The members of a literal object are in key order. *)
Ltac by_sorted :=
  repeat (apply SSorted_cons || apply SSorted_nil || (apply Forall_cons; split; [reflexivity|]) || apply Forall_nil_2).
