(* ===== verification/Json.v ===== *)
(** The JSON value, parser and canonical encoder of [runtime/base/usk_json.{h,cpp}].
    Definitions only; [JsonFacts] and [JsonBudget] hold the theorems. *)

From Stdlib Require Import Ascii String NArith ZArith Lia.
From stdpp Require Import base list strings.
From S2P Require Import Prelude Utf8 Sha256 StdMap.

Module Json.
Import Utf8 Sha256.

(** ** [class Value]

    The alternatives of the variant, in the order of [enum class Type].  An
    object is the key-ordered content of its [std::map]. *)

Unset Elimination Schemes.
Inductive value : Type :=
| null_value
| boolean (b : bool)
| unsigned_integer (n : N)
| string_value (s : string)
| array (items : list value)
| object (members : list (string * value)).
Set Elimination Schemes.

(** ** Accessors *)

Definition as_boolean (v : value) : result bool :=
  match v with boolean b => Ok b | _ => throw "JSON value is not a boolean" end.

Definition as_unsigned (v : value) : result N :=
  match v with
  | unsigned_integer n => Ok n
  | _ => throw "JSON value is not an unsigned integer"
  end.

Definition as_string (v : value) : result string :=
  match v with string_value s => Ok s | _ => throw "JSON value is not a string" end.

Definition as_array (v : value) : result (list value) :=
  match v with array items => Ok items | _ => throw "JSON value is not an array" end.

Definition as_object (v : value) : result (list (string * value)) :=
  match v with object members => Ok members | _ => throw "JSON value is not an object" end.

Definition is_null (v : value) : bool :=
  match v with null_value => true | _ => false end.

(** [Value::at] and [Value::contains]. *)
Definition at_ (v : value) (key : string) : result value :=
  members ← as_object v;
  match StdMap.find key members with
  | Some found => Ok found
  | None => throw ("required JSON member is missing: " +:+ key)
  end.

Definition contains (v : value) (key : string) : bool :=
  match v with object members => StdMap.contains_key key members | _ => false end.

Definition at_string (v : value) (key : string) : result string :=
  found ← at_ v key; as_string found.

(** [v.at(key).as_string() != expected]. *)
Definition differs (v : value) (key expected : string) : result bool :=
  s ← at_string v key; Ok (negb (String.eqb s expected)).

(** [Value(Value::Object{{key, value}, ...})]. *)
Definition make_object (members : list (string * value)) : value :=
  object (StdMap.of_list members).

(** ** [class Parser]

    [position_] never moves back, so the state is the text from [position_] on
    and the count [values_]. *)

Record ParseLimits := mk_limits {
  max_bytes : N;
  max_depth : N;
  max_values : N;
  max_string_bytes : N }.

Definition default_limits : ParseLimits :=
  mk_limits (4 * 1024 * 1024) 64 100000 (1024 * 1024).

Definition is_space (c : ascii) : bool :=
  (code c =? 32) || (code c =? 9) || (code c =? 13) || (code c =? 10).

Fixpoint skip_space (text : string) : string :=
  match text with
  | String c rest => if is_space c then skip_space rest else text
  | EmptyString => text
  end.

(** [consume]: the flag and the text from the new position. *)
Definition consume (expected : ascii) (text : string) : bool * string :=
  match text with
  | String c rest => if Ascii.eqb c expected then (true, rest) else (false, text)
  | EmptyString => (false, text)
  end.

Definition require (expected : ascii) (text : string) : result string :=
  match consume expected (skip_space text) with
  | (true, rest) => Ok rest
  | (false, _) => throw "JSON punctuation is invalid"
  end.

Definition literal (expected text : string) : result string :=
  if String.prefix expected text then Ok (str_drop (String.length expected) text)
  else throw "JSON literal is invalid".

(** The digit loop of [number]; its first byte is a digit. *)
Fixpoint number_loop (result : N) (text : string) : Prelude.result (N * string) :=
  match text with
  | String c rest =>
    if is_digit c then
      let digit := code c - 48 in
      if (uint64_max - digit) / 10 <? result
      then throw "JSON integer overflows uint64"
      else number_loop (result * 10 + digit) rest
    else Ok (result, text)
  | EmptyString => Ok (result, text)
  end.

Definition starts_float (text : string) : bool :=
  match text with
  | String c _ => (code c =? 46) || (code c =? 101) || (code c =? 69)
  | EmptyString => false
  end.

Definition leading_zero (text : string) : bool :=
  match text with
  | String c (String d _) => (code c =? 48) && is_digit d
  | _ => false
  end.

Definition number (text : string) : result (N * string) :=
  if leading_zero text then throw "JSON integer has a leading zero"
  else
    '(n, rest) ← number_loop 0 text;
    if starts_float rest then throw "JSON floating point numbers are forbidden"
    else Ok (n, rest).

Definition hex_digit (c : ascii) : result N :=
  if in_range 48 57 c then Ok (code c - 48)
  else if in_range 97 102 c then Ok (code c - 97 + 10)
  else if in_range 65 70 c then Ok (code c - 65 + 10)
  else throw "JSON Unicode escape is invalid".

Definition unicode_escape (h0 h1 h2 h3 : ascii) : result N :=
  fold_result (fun r h => d ← hex_digit h; Ok (r * 16 + d)) 0 [h0; h1; h2; h3].

(** The one-byte escapes of the [switch (escaped)]. *)
Definition simple_escape (c : ascii) : option ascii :=
  if code c =? 34 then Some dquote
  else if code c =? 92 then Some backslash
  else if code c =? 47 then Some (ascii_of_N 47)
  else if code c =? 98 then Some (ascii_of_N 8)
  else if code c =? 102 then Some (ascii_of_N 12)
  else if code c =? 110 then Some (ascii_of_N 10)
  else if code c =? 114 then Some (ascii_of_N 13)
  else if code c =? 116 then Some (ascii_of_N 9)
  else None.

(** The loop of [string], after the opening quotation mark. *)
Fixpoint string_loop (limits : ParseLimits) (result : string) (text : string)
    : Prelude.result (string * string) :=
  match text with
  | EmptyString => throw "JSON string is unterminated"
  | String c rest =>
    if Ascii.eqb c dquote then
      if max_string_bytes limits <? size result then throw "JSON string exceeds budget"
      else if valid_utf8 result then Ok (result, rest)
      else throw "JSON string is not valid UTF-8"
    else if code c <? 0x20 then throw "JSON string contains an unescaped control byte"
    else if negb (Ascii.eqb c backslash) then string_loop limits (push_back result c) rest
    else match rest with
    | EmptyString => throw "JSON escape is truncated"
    | String escaped rest =>
      match simple_escape escaped with
      | Some byte => string_loop limits (push_back result byte) rest
      | None =>
        if negb (code escaped =? 117) then throw "JSON string escape is invalid"
        else match rest with
        | String h0 (String h1 (String h2 (String h3 rest))) =>
          codepoint ← unicode_escape h0 h1 h2 h3;
          if (0xd800 <=? codepoint) && (codepoint <=? 0xdbff) then
            match rest with
            | String e0 (String e1 rest) =>
              if negb (Ascii.eqb e0 backslash) || negb (code e1 =? 117)
              then throw "JSON high surrogate lacks a low surrogate"
              else match rest with
              | String l0 (String l1 (String l2 (String l3 rest))) =>
                low ← unicode_escape l0 l1 l2 l3;
                if (low <? 0xdc00) || (0xdfff <? low)
                then throw "JSON low surrogate is invalid"
                else string_loop limits (append_utf8 result
                  (0x10000 + N.shiftl (codepoint - 0xd800) 10 + (low - 0xdc00))) rest
              | _ => throw "JSON Unicode escape is truncated"
              end
            | _ => throw "JSON high surrogate lacks a low surrogate"
            end
          else if (0xdc00 <=? codepoint) && (codepoint <=? 0xdfff)
          then throw "JSON contains an unpaired low surrogate"
          else string_loop limits (append_utf8 result codepoint) rest
        | _ => throw "JSON Unicode escape is truncated"
        end
      end
    end
  end.

(** [Parser::string]; the caller has seen the opening quotation mark. *)
Definition string_ (limits : ParseLimits) (text : string) : result (string * string) :=
  string_loop limits EmptyString (str_drop 1 text).

(** [Parser::value], and the loops of [Parser::array] and [Parser::object]. *)
Fixpoint parse_value (limits : ParseLimits) (fuel : nat) (depth : N) (text : string)
    (values : N) {struct fuel} : result (value * string * N) :=
  match fuel with
  | O => Throw out_of_fuel
  | S fuel =>
    if max_depth limits <? depth then throw "JSON exceeds depth budget"
    else
    let values := values + 1 in
    if max_values limits <? values then throw "JSON exceeds value budget"
    else
    let text := skip_space text in
    match text with
    | EmptyString => throw "JSON value is truncated"
    | String ch rest =>
      if code ch =? 110 then rest ← literal "null" text; Ok (null_value, rest, values)
      else if code ch =? 116 then rest ← literal "true" text; Ok (boolean true, rest, values)
      else if code ch =? 102 then rest ← literal "false" text; Ok (boolean false, rest, values)
      else if Ascii.eqb ch dquote then
        '(s, rest) ← string_ limits text; Ok (string_value s, rest, values)
      else if code ch =? 91 then
        let rest := skip_space rest in
        match consume (ascii_of_N 93) rest with
        | (true, rest) => Ok (array [], rest, values)
        | (false, _) => parse_array limits fuel (depth + 1) [] rest values
        end
      else if code ch =? 123 then
        let rest := skip_space rest in
        match consume (ascii_of_N 125) rest with
        | (true, rest) => Ok (object [], rest, values)
        | (false, _) => parse_object limits fuel (depth + 1) [] rest values
        end
      else if in_range 48 57 ch then
        '(n, rest) ← number text; Ok (unsigned_integer n, rest, values)
      else throw "JSON contains an unsupported value token"
    end
  end
with parse_array (limits : ParseLimits) (fuel : nat) (depth : N) (items : list value)
    (text : string) (values : N) {struct fuel} : result (value * string * N) :=
  match fuel with
  | O => Throw out_of_fuel
  | S fuel =>
    '(item, rest, values) ← parse_value limits fuel depth text values;
    let items := items ++ [item] in
    let rest := skip_space rest in
    match consume (ascii_of_N 93) rest with
    | (true, rest) => Ok (array items, rest, values)
    | (false, _) =>
      rest ← require (ascii_of_N 44) rest;
      parse_array limits fuel depth items rest values
    end
  end
with parse_object (limits : ParseLimits) (fuel : nat) (depth : N)
    (members : list (string * value)) (text : string) (values : N) {struct fuel}
    : result (value * string * N) :=
  match fuel with
  | O => Throw out_of_fuel
  | S fuel =>
    let text := skip_space text in
    match text with
    | String c _ =>
      if negb (Ascii.eqb c dquote) then throw "JSON object key is invalid"
      else
      '(key, rest) ← string_ limits text;
      rest ← require (ascii_of_N 58) (skip_space rest);
      '(item, rest, values) ← parse_value limits fuel depth rest values;
      match StdMap.emplace key item members with
      | (_, false) => throw "JSON object contains a duplicate key"
      | (members, true) =>
        let rest := skip_space rest in
        match consume (ascii_of_N 125) rest with
        | (true, rest) => Ok (object members, rest, values)
        | (false, _) =>
          rest ← require (ascii_of_N 44) rest;
          parse_object limits fuel depth members rest values
        end
      end
    | EmptyString => throw "JSON object key is invalid"
    end
  end.

(** Each call of the three functions either consumes a byte or is the last one
    before a byte is consumed: twice the length of the text is enough fuel. *)
Definition parse_fuel (text : string) : nat := S (2 * String.length text).

(** [parse(text, limits)]: the [Parser] constructor and [run]. *)
Definition parse (text : string) (limits : ParseLimits) : result value :=
  if max_bytes limits <? size text then throw "JSON input exceeds byte budget"
  else
    let text := skip_space text in
    '(v, rest, _) ← parse_value limits (parse_fuel text) 0 text 0;
    match skip_space rest with
    | EmptyString => Ok v
    | _ => throw "JSON has trailing content"
    end.

(** ** The canonical encoder

    [append_canonical] is a template over its output: a [std::string], or the
    [CanonicalDigest] that hashes the bytes in 4096-byte steps.  All its output
    operations append bytes. *)

Class Sink (T : Type) := sink_append : T → string → T.

#[global] Instance string_sink : Sink string := String.append.

Definition sink_push_back {T} `{Sink T} (output : T) (c : ascii) : T :=
  sink_append output (String c EmptyString).

Definition hex_char (d : N) : ascii := hex_digit_char d.

(** The [switch (ch)] of [append_escaped]. *)
Definition append_escape {T} `{Sink T} (output : T) (ch : ascii) : T :=
  if code ch =? 34 then sink_append output (String backslash (String dquote EmptyString))
  else if code ch =? 92 then sink_append output (String backslash (String backslash EmptyString))
  else if code ch =? 8 then sink_append output (String backslash "b")
  else if code ch =? 12 then sink_append output (String backslash "f")
  else if code ch =? 10 then sink_append output (String backslash "n")
  else if code ch =? 13 then sink_append output (String backslash "r")
  else if code ch =? 9 then sink_append output (String backslash "t")
  else if code ch <? 0x20 then
    sink_push_back (sink_push_back (sink_append output (String backslash "u00"))
      (hex_char (N.shiftr (code ch) 4))) (hex_char (N.land (code ch) 0x0f))
  else output.

Definition needs_escape (ch : ascii) : bool :=
  negb ((0x20 <=? code ch) && negb (Ascii.eqb ch dquote) && negb (Ascii.eqb ch backslash)).

(** The loop over [index]; [rest] is the text from [index] on and [plain] the
    start of the pending run of unchanged bytes. *)
Fixpoint escape_loop {T} `{Sink T} (value rest : string) (index plain : nat) (output : T)
    : T * nat :=
  match rest with
  | EmptyString => (output, plain)
  | String ch rest =>
    if needs_escape ch then
      let output := sink_append output (String.substring plain (index - plain) value) in
      escape_loop value rest (S index) (S index) (append_escape output ch)
    else escape_loop value rest (S index) plain output
  end.

Definition append_escaped {T} `{Sink T} (output : T) (value : string) : T :=
  let output := sink_push_back output dquote in
  let '(output, plain) := escape_loop value value 0 0 output in
  let output := sink_append output
    (String.substring plain (String.length value - plain) value) in
  sink_push_back output dquote.

(** The member loops of [append_canonical]: a comma before every entry but the
    first. *)
Section Loops.
Context {T : Type} `{Sink T} (append_item : T → value → T).

Definition separate (first : bool) (output : T) : T :=
  if first then output else sink_push_back output (ascii_of_N 44).

Fixpoint append_items (first : bool) (output : T) (items : list value) : T :=
  match items with
  | [] => output
  | item :: items => append_items false (append_item (separate first output) item) items
  end.

Fixpoint append_members (first : bool) (output : T) (members : list (string * value)) : T :=
  match members with
  | [] => output
  | (key, item) :: members =>
    let output := append_escaped (separate first output) key in
    let output := sink_push_back output (ascii_of_N 58) in
    append_members false (append_item output item) members
  end.
End Loops.

Fixpoint append_canonical {T} `{Sink T} (output : T) (v : value) {struct v} : T :=
  match v with
  | null_value => sink_append output "null"
  | boolean b => sink_append output (if b then "true" else "false")
  | unsigned_integer n => sink_append output (to_string n)
  | string_value s => append_escaped output s
  | array items =>
    let output := sink_push_back output (ascii_of_N 91) in
    let output := append_items append_canonical true output items in
    sink_push_back output (ascii_of_N 93)
  | object members =>
    let output := sink_push_back output (ascii_of_N 123) in
    let output := append_members append_canonical true output members in
    sink_push_back output (ascii_of_N 125)
  end.

(** [canonical(value)]. *)
Definition canonical (v : value) : string := append_canonical EmptyString v.

(** [canonical_object(fields)]: the same loop over borrowed values. *)
Definition canonical_object (fields : list (string * value)) : string :=
  sink_push_back
    (append_members append_canonical true (String (ascii_of_N 123) EmptyString) fields)
    (ascii_of_N 125).

(** ** [class CanonicalDigest]

    [buffer_] is the used prefix of the 4096-byte array. *)

Record CanonicalDigest := mk_digest {
  digest_ : result Sha256.Sha256;
  buffer_ : string }.

Definition flush (d : CanonicalDigest) : CanonicalDigest :=
  mk_digest (h ← digest_ d; Sha256.update h (buffer_ d)) EmptyString.

(** [while (count)] of [append(const char*, std::size_t)]. *)
Fixpoint digest_append (fuel : nat) (d : CanonicalDigest) (data : string) : CanonicalDigest :=
  match fuel, data with
  | _, EmptyString => d
  | O, _ => d
  | S fuel, _ =>
    let copied := N.min (size data) (4096 - size (buffer_ d)) in
    let d := mk_digest (digest_ d) (buffer_ d +:+ str_take (N.to_nat copied) data) in
    let data := str_drop (N.to_nat copied) data in
    digest_append fuel (if size (buffer_ d) =? 4096 then flush d else d) data
  end.

#[global] Instance digest_sink : Sink CanonicalDigest :=
  fun d data => digest_append (String.length data) d data.

Definition digest_finish (d : CanonicalDigest) : result string :=
  h ← digest_ (flush d); '(hex, _) ← Sha256.finish h; Ok hex.

(** [sha256_canonical(value)]. *)
Definition sha256_canonical (v : value) : result string :=
  digest_finish (append_canonical (mk_digest (Ok Sha256.initial) EmptyString) v).

(** ** [equal_values] *)

Fixpoint equal_values (left right : value) {struct left} : bool :=
  match left, right with
  | null_value, null_value => true
  | boolean a, boolean b => Bool.eqb a b
  | unsigned_integer a, unsigned_integer b => a =? b
  | string_value a, string_value b => String.eqb a b
  | array a, array b =>
    (length a =? length b)%nat &&
    (fix loop (a b : list value) : bool :=
      match a, b with
      | x :: a, y :: b => if equal_values x y then loop a b else false
      | _, _ => true
      end) a b
  | object a, object b =>
    (length a =? length b)%nat &&
    (fix loop (a b : list (string * value)) : bool :=
      match a, b with
      | (k, x) :: a, (k', y) :: b =>
        if negb (String.eqb k k') || negb (equal_values x y) then false else loop a b
      | _, _ => true
      end) a b
  | _, _ => false
  end.

(** ** Well-formed values

    What the C++ type guarantees of every [Value]: integers are 64-bit and the
    members of an object are ordered by strictly increasing key. *)
Fixpoint wf (v : value) : Prop :=
  match v with
  | unsigned_integer n => n <= uint64_max
  | array items => (fix all (l : list value) : Prop :=
      match l with [] => True | x :: l => wf x ∧ all l end) items
  | object members => StdMap.sorted members ∧
      (fix all (l : list (string * value)) : Prop :=
        match l with [] => True | (_, x) :: l => wf x ∧ all l end) members
  | _ => True
  end.

Example parse_example :
  parse (lit "{'b':[1, true,null],'a' : 'x\u00e9\n'}") default_limits =
  Ok (object [("a", string_value (String (ascii_of_N 120) (String (ascii_of_N 195)
        (String (ascii_of_N 169) (String (ascii_of_N 10) EmptyString)))));
      ("b", array [unsigned_integer 1; boolean true; null_value])]).
Proof. vm_compute. reflexivity. Qed.

End Json.
