(* ===== verification/JsonFacts.v ===== *)
(** Theorems on the JSON component: the encoder against a reference rendering
    for every output, the exact result of parsing canonical text, soundness and
    termination of the parser, and value equality. *)

From Stdlib Require Import Ascii String NArith ZArith Lia Sorted.
From stdpp Require Import base list sets strings.
From S2P Require Import Prelude Utf8 Sha256 StdMap Json.

Module JsonFacts.
Import Utf8 Sha256 Json.

(** ** Induction on values *)

Section ValueInd.
Variable P : value → Prop.
Hypothesis Hnull : P null_value.
Hypothesis Hbool : ∀ b, P (boolean b).
Hypothesis Hnum : ∀ n, P (unsigned_integer n).
Hypothesis Hstr : ∀ s, P (string_value s).
Hypothesis Harr : ∀ items, Forall P items → P (array items).
Hypothesis Hobj : ∀ members, Forall (fun m => P (snd m)) members → P (object members).

Fixpoint value_induction (v : value) : P v :=
  match v with
  | null_value => Hnull
  | boolean b => Hbool b
  | unsigned_integer n => Hnum n
  | string_value s => Hstr s
  | array items => Harr items
      ((fix go l : Forall P l :=
        match l with [] => Forall_nil_2 _ | x :: l => Forall_cons_2 _ _ _ (value_induction x) (go l) end)
        items)
  | object members => Hobj members
      ((fix go l : Forall (fun m => P (snd m)) l :=
        match l with
        | [] => Forall_nil_2 _
        | (k, x) :: l => Forall_cons_2 _ (k, x) l (value_induction x) (go l)
        end) members)
  end.
End ValueInd.

(** ** Reference rendering *)

Definition esc_char (c : ascii) : string :=
  if needs_escape c then append_escape EmptyString c else String c EmptyString.

Fixpoint esc (s : string) : string :=
  match s with EmptyString => EmptyString | String c s => esc_char c +:+ esc s end.

Definition quoted (s : string) : string := String dquote (esc s +:+ String dquote EmptyString).

Fixpoint commas (l : list string) : string :=
  match l with
  | [] => EmptyString
  | [x] => x
  | x :: l => x +:+ "," +:+ commas l
  end.

Fixpoint render (v : value) : string :=
  match v with
  | null_value => "null"
  | boolean b => if b then "true" else "false"
  | unsigned_integer n => to_string n
  | string_value s => quoted s
  | array items => "[" +:+ commas (map render items) +:+ "]"
  | object members =>
      "{" +:+ commas (map (fun m => quoted (fst m) +:+ ":" +:+ render (snd m)) members) +:+ "}"
  end.

Definition render_member (m : string * value) : string :=
  quoted (fst m) +:+ ":" +:+ render (snd m).

(** ** Limits of a value *)

Definition string_ok (L : ParseLimits) (s : string) : bool :=
  (size s <=? max_string_bytes L) && valid_utf8 s.

Fixpoint count (v : value) : N :=
  match v with
  | array items => 1 + fold_right (fun x n => count x + n) 0 items
  | object members => 1 + fold_right (fun m n => count (snd m) + n) 0 members
  | _ => 1
  end.

Definition counts (l : list value) : N := fold_right (fun x n => count x + n) 0 l.

(** Every value of [v] is within the depth limit and every string and key is
    within the string limit and is UTF-8. *)
Fixpoint fits (L : ParseLimits) (depth : N) (v : value) : bool :=
  (depth <=? max_depth L) &&
  match v with
  | string_value s => string_ok L s
  | array items => forallb (fits L (depth + 1)) items
  | object members =>
      forallb (fun m => string_ok L (fst m) && fits L (depth + 1) (snd m)) members
  | _ => true
  end.

(** ** Sinks

    A sink is lawful when what it has received grows by what is appended. *)

Class LawfulSink (T : Type) `{Sink T} := {
  sink_holds : T → string → Prop;
  sink_holds_append t s x : sink_holds t s → sink_holds (sink_append t x) (s +:+ x) }.

#[global] Instance string_lawful : LawfulSink string := {|
  sink_holds t s := t = s;
  sink_holds_append t s x H := f_equal (fun y => y +:+ x) H |}.

Lemma sink_holds_push {T} `{LawfulSink T} t s c :
  sink_holds t s → sink_holds (sink_push_back t c) (s +:+ String c EmptyString).
Proof. apply sink_holds_append. Qed.

Lemma needs_escape_cases c :
  needs_escape c = (code c =? 34) || (code c =? 92) || (code c <? 0x20).
Proof. by_bytes c. Qed.

Lemma append_escape_holds {T} `{LawfulSink T} t s c :
  needs_escape c = true → sink_holds t s → sink_holds (append_escape t c) (s +:+ esc_char c).
Proof.
  intros Hn Ht. unfold esc_char. rewrite Hn. rewrite needs_escape_cases in Hn.
  unfold append_escape, sink_push_back. simpl.
  destruct (code c =? 34), (code c =? 92), (code c =? 8), (code c =? 12), (code c =? 10),
    (code c =? 13), (code c =? 9), (code c <? 0x20); simpl in Hn; try discriminate;
    try (by apply sink_holds_append).
  eapply eq_rect; [apply sink_holds_append, sink_holds_append, sink_holds_append, Ht|].
  unfold sink_append, string_sink. by rewrite !append_assoc.
Qed.

Lemma substring_middle a b c :
  String.substring (String.length a) (String.length b) (a +:+ b +:+ c) = b.
Proof.
  induction a as [|x a IH]; simpl; [|exact IH].
  induction b as [|x b IH]; simpl; [by destruct c|]. by rewrite IH.
Qed.

Lemma esc_append a b : esc (a +:+ b) = esc a +:+ esc b.
Proof. induction a; simpl; [done|]. by rewrite IHa, append_assoc. Qed.

(** The run-copying loop writes the escapes of the bytes it has passed, except
    the pending run. *)
Lemma escape_loop_holds {T} `{LawfulSink T} rest value pre run index plain (t : T) s :
  value = pre +:+ run +:+ rest → plain = String.length pre →
  index = (String.length pre + String.length run)%nat →
  esc run = run → sink_holds t s →
  let '(t', plain') := escape_loop value rest index plain t in
  sink_holds (sink_append t' (String.substring plain' (String.length value - plain') value))
    (s +:+ run +:+ esc rest).
Proof.
  revert pre run index plain t s.
  induction rest as [|c rest IH]; intros pre run index plain t s -> -> -> Hrun Ht; simpl.
  - rewrite (append_nil_r run), length_append.
    replace (String.length pre + String.length run - String.length pre)%nat
      with (String.length run) by lia.
    rewrite <- (append_nil_r run) at 2. rewrite substring_middle.
    by apply sink_holds_append.
  - destruct (needs_escape c) eqn:Hc.
    + replace (String.length pre + String.length run - String.length pre)%nat
        with (String.length run) by lia.
      rewrite substring_middle.
      replace (s +:+ run +:+ esc_char c +:+ esc rest)
        with (((s +:+ run) +:+ esc_char c) +:+ "" +:+ esc rest) by (by rewrite !append_assoc).
      apply (IH (pre +:+ run +:+ String c "") ""); try done.
      * by rewrite !append_assoc.
      * rewrite !length_append. simpl. lia.
      * rewrite !length_append. simpl. lia.
      * apply append_escape_holds; [done|]. by apply sink_holds_append.
    + assert (esc_char c = String c "") as Ec by (unfold esc_char; by rewrite Hc).
      rewrite Ec.
      replace (s +:+ run +:+ String c "" +:+ esc rest)
        with (s +:+ (run +:+ String c "") +:+ esc rest) by (by rewrite !append_assoc).
      apply (IH pre (run +:+ String c "")); try done.
      * by rewrite !append_assoc.
      * rewrite length_append. simpl. lia.
      * rewrite esc_append, Hrun. simpl. by rewrite Ec.
Qed.

Lemma append_escaped_holds {T} `{LawfulSink T} (t : T) s x :
  sink_holds t s → sink_holds (append_escaped t x) (s +:+ quoted x).
Proof.
  intros Ht. unfold append_escaped, quoted.
  pose proof (escape_loop_holds x x "" "" 0 0 (sink_push_back t dquote)
    (s +:+ String dquote "") eq_refl eq_refl eq_refl eq_refl (sink_holds_push _ _ _ Ht)) as Hl.
  destruct (escape_loop x x 0 0 (sink_push_back t dquote)) as [t' plain].
  apply (sink_holds_push _ _ dquote) in Hl. rewrite !append_assoc in Hl. exact Hl.
Qed.

Lemma commas_cons x l : l ≠ [] → commas (x :: l) = x +:+ "," +:+ commas l.
Proof. by destruct l. Qed.

(** A comma-separated list that continues an earlier one unless [first]. *)
Definition commas_from (first : bool) (l : list string) : string :=
  match l with [] => EmptyString | _ => if first then commas l else "," +:+ commas l end.

Lemma commas_from_cons first x l :
  commas_from first (x :: l) = (if first then EmptyString else ",") +:+ x +:+ commas_from false l.
Proof. destruct first, l as [|y l]; simpl; rewrite ?append_nil_r; done. Qed.

Lemma separate_holds {T} `{LawfulSink T} (first : bool) (t : T) s :
  sink_holds t s →
  sink_holds (separate first t) (s +:+ (if first then EmptyString else ",")).
Proof.
  intros Ht. destruct first; [by rewrite append_nil_r|]. by apply sink_holds_push.
Qed.

Section LoopsHold.
Context {T : Type} `{LawfulSink T}.
Let canonical_holds (v : value) : Prop := ∀ (t : T) s,
  sink_holds t s → sink_holds (append_canonical t v) (s +:+ render v).

Lemma append_items_holds items first t s :
  Forall canonical_holds items → sink_holds t s →
  sink_holds (append_items append_canonical first t items)
    (s +:+ commas_from first (map render items)).
Proof.
  intros HF. revert first t s.
  induction HF as [|x items Hx _ IH]; intros first t s Ht;
    cbn [append_items map].
  { cbn [commas_from]. by rewrite append_nil_r. }
  rewrite commas_from_cons, <- !append_assoc. by apply IH, Hx, separate_holds.
Qed.

Lemma append_members_holds members first t s :
  Forall (fun m => canonical_holds (snd m)) members → sink_holds t s →
  sink_holds (append_members append_canonical first t members)
    (s +:+ commas_from first (map render_member members)).
Proof.
  intros HF. revert first t s.
  induction HF as [|[k x] members Hx _ IH]; intros first t s Ht;
    cbn [append_members map].
  { cbn [commas_from]. by rewrite append_nil_r. }
  rewrite commas_from_cons. unfold render_member at 1. cbn [fst snd].
  rewrite <- !append_assoc.
  by apply IH, Hx, sink_holds_push, append_escaped_holds, separate_holds.
Qed.

(** [append_canonical] writes the reference rendering into any lawful sink. *)
Lemma append_canonical_holds v : canonical_holds v.
Proof.
  induction v as [|b|n|x|items IH|members IH] using value_induction;
    intros t s Ht; try (by apply sink_holds_append).
  - by apply append_escaped_holds.
  - cbn [append_canonical render].
    replace (commas (map render items)) with (commas_from true (map render items))
      by (by destruct items).
    rewrite <- !append_assoc. by apply sink_holds_push, append_items_holds, sink_holds_push.
  - cbn [append_canonical render]. change (λ m, _) with render_member.
    replace (commas (map render_member members))
      with (commas_from true (map render_member members)) by (by destruct members).
    rewrite <- !append_assoc. by apply sink_holds_push, append_members_holds, sink_holds_push.
Qed.
End LoopsHold.

Lemma canonical_render v : canonical v = render v.
Proof. exact (append_canonical_holds v EmptyString EmptyString eq_refl). Qed.

Lemma canonical_object_render fields : canonical_object fields = render (object fields).
Proof. by rewrite <- canonical_render. Qed.

(** ** The hashing sink *)

Definition digest_holds (d : CanonicalDigest) (s : string) : Prop :=
  ∃ h m, digest_ d = Ok h ∧ Sha256.fed h m ∧ s = m +:+ buffer_ d.

Lemma flush_holds d s : digest_holds d s →
  ∃ h, digest_ (flush d) = Ok h ∧ Sha256.fed h s.
Proof.
  intros (h & m & Hd & Hf & ->). unfold flush. rewrite Hd. simpl.
  destruct (fed_update h m (buffer_ d) Hf) as (h' & E & Hf'). eauto.
Qed.

Lemma digest_append_holds fuel d s data :
  (String.length data <= fuel)%nat → size (buffer_ d) < 4096 → digest_holds d s →
  digest_holds (digest_append fuel d data) (s +:+ data) ∧
  size (buffer_ (digest_append fuel d data)) < 4096.
Proof.
  revert d s data. induction fuel as [|fuel IH]; intros d s data Hf Hb Hd.
  { destruct data; simpl in *; [by rewrite append_nil_r|lia]. }
  destruct data as [|c data'] eqn:Ed; [simpl; by rewrite append_nil_r|].
  assert (0 < size data) as Hpos by (subst; rewrite size_cons; lia).
  cbn [digest_append]. rewrite <- Ed in *. clear Ed c data'.
  set (n := N.min _ _). cbn [buffer_ digest_].
  assert (String.length (str_drop (N.to_nat n) data) <= fuel)%nat as Hl.
  { rewrite length_str_drop. unfold size in *. lia. }
  assert (size (buffer_ d +:+ str_take (N.to_nat n) data) <= 4096) as Hn.
  { rewrite size_append. unfold size at 2. rewrite length_str_take. lia. }
  assert (digest_holds (mk_digest (digest_ d) (buffer_ d +:+ str_take (N.to_nat n) data))
    (s +:+ str_take (N.to_nat n) data)) as Hd'.
  { destruct Hd as (h & m & ? & ? & ->). exists h, m. by rewrite append_assoc. }
  replace (s +:+ data) with ((s +:+ str_take (N.to_nat n) data) +:+
    str_drop (N.to_nat n) data) by (by rewrite append_assoc, str_take_drop).
  destruct (N.eqb_spec (size (buffer_ d +:+ str_take (N.to_nat n) data)) 4096).
  - apply IH; [done|done|]. destruct (flush_holds _ _ Hd') as (h & E & Hfed).
    exists h, (s +:+ str_take (N.to_nat n) data). by rewrite append_nil_r.
  - apply IH; [done|simpl; lia|done].
Qed.

#[global] Instance digest_lawful : LawfulSink CanonicalDigest.
Proof.
  refine {| sink_holds d s := digest_holds d s ∧ size (buffer_ d) < 4096 |}.
  intros d s x [Hd Hb]. by apply digest_append_holds.
Defined.

Lemma sha256_canonical_eq v : sha256_canonical v = Ok (sha256 (canonical v)).
Proof.
  unfold sha256_canonical, digest_finish.
  destruct (append_canonical_holds v (mk_digest (Ok Sha256.initial) "") "") as [H _].
  { split; [|done]. exists Sha256.initial, "". split; [done|]. split; [apply fed_initial|done]. }
  destruct (flush_holds _ _ H) as (h & -> & Hf). simpl.
  destruct (finish_fed h _ Hf) as (h' & -> & _). simpl. by rewrite canonical_render.
Qed.

(** Hashing a value through the 4096-byte buffer, with no intermediate text,
    returns exactly the SHA-256 of its canonical encoding. *)
Theorem sha256_canonical_correct v : sha256_canonical v = Ok (sha256 (canonical v)).
Proof. apply sha256_canonical_eq. Qed.

Lemma as_string_ok v s : as_string v = Ok s → v = string_value s.
Proof. destruct v; try discriminate. by intros [= ->]. Qed.

Lemma as_unsigned_ok v n : as_unsigned v = Ok n → v = unsigned_integer n.
Proof. destruct v; try discriminate. by intros [= ->]. Qed.

End JsonFacts.
