(* ===== verification/JsonParse.v ===== *)
(** The parser against the canonical encoder: what [parse] returns on canonical
    text, and what every accepted text guarantees of the returned value. *)

From Stdlib Require Import Ascii String NArith ZArith Lia Sorted.
From stdpp Require Import base list sets strings.
From S2P Require Import Prelude Utf8 Sha256 StdMap Json JsonFacts.

Module JsonParse.
Import Utf8 Json JsonFacts.

(** A thrown C++ exception, as opposed to exhausted fuel. *)
Definition throws {A} (r : result A) : Prop := ∃ w, r = throw w.

(** The result is [a] when [b] holds and an exception otherwise. *)
Definition outcome {A} (b : bool) (a : A) (r : result A) : Prop :=
  if b then r = Ok a else throws r.

Lemma outcome_throw {A} (a : A) w : outcome false a (throw w).
Proof. by exists w. Qed.

Lemma outcome_bind {A B} b b' (a : A) (a' : B) r (k : A → result B) :
  outcome b a r → (b = true → outcome b' a' (k a)) → outcome (b && b') a' (r ≫= k).
Proof.
  destruct b; simpl; [intros -> H; by apply H|]. intros [w ->] _. by exists w.
Qed.

(** ** Strings *)

Lemma string_loop_esc_char L acc c t :
  string_loop L acc (esc_char c +:+ t) = string_loop L (push_back acc c) t.
Proof. destruct c as [[] [] [] [] [] [] [] []]; reflexivity. Qed.

Lemma string_loop_esc L acc s rest :
  outcome (string_ok L (acc +:+ s)) (acc +:+ s, rest)
    (string_loop L acc (esc s +:+ String dquote rest)).
Proof.
  revert acc. induction s as [|c s IH]; intros acc.
  - rewrite append_nil_r. cbn [esc String.append]. unfold string_ok. simpl.
    rewrite N.ltb_antisym.
    destruct (size acc <=? max_string_bytes L), (valid_utf8 acc); simpl; try done;
      by eexists.
  - cbn [esc]. rewrite append_assoc, string_loop_esc_char.
    specialize (IH (push_back acc c)). by rewrite push_back_append in IH.
Qed.

Lemma string_quoted L s rest :
  outcome (string_ok L s) (s, rest) (string_ L (quoted s +:+ rest)).
Proof.
  unfold string_, quoted. cbn [String.append str_drop]. rewrite append_assoc.
  exact (string_loop_esc L "" s rest).
Qed.

(** ** Numbers *)

Definition num_stop (rest : string) : bool :=
  match rest with
  | String c _ => negb (is_digit c) && negb (starts_float rest)
  | EmptyString => true
  end.

Lemma num_stop_inv rest : num_stop rest = true →
  starts_float rest = false ∧ (∀ c t, rest = String c t → is_digit c = false).
Proof.
  destruct rest as [|c t]; [done|]. unfold num_stop. intros [H1 H2]%andb_prop.
  apply negb_true_iff in H1, H2. split; [done|]. by intros ? ? [= <- <-].
Qed.

Lemma number_loop_stop n rest : num_stop rest = true → number_loop n rest = Ok (n, rest).
Proof.
  intros [_ H]%num_stop_inv. destruct rest as [|c t]; simpl; [done|].
  by rewrite (H c t eq_refl).
Qed.

Lemma number_loop_digit r d s :
  d < 10 → r * 10 + d <= uint64_max →
  number_loop r (String (digit_char d) s) = number_loop (r * 10 + d) s.
Proof.
  intros Hd Hr. cbn [number_loop]. rewrite digit_char_is_digit, code_digit_char by done.
  replace (48 + d - 48) with d by lia.
  destruct (N.ltb_spec ((uint64_max - d) / 10) r) as [Hlt|]; [|done].
  exfalso.
  assert (r <= (uint64_max - d) / 10); [|lia].
  apply N.div_le_lower_bound; lia.
Qed.

Lemma number_to_string n rest :
  n <= uint64_max → num_stop rest = true → number (to_string n +:+ rest) = Ok (n, rest).
Proof.
  intros Hn Hs. unfold number.
  assert (leading_zero (to_string n +:+ rest) = false) as ->.
  { destruct (to_string_first n) as (d & s & E & Hd & H0). rewrite E. simpl.
    destruct (s +:+ rest) as [|c t] eqn:Es; [done|].
    rewrite code_digit_char by done. destruct (N.eqb_spec (48 + d) 48); [|done].
    destruct (H0 ltac:(lia)) as [_ ->]. simpl in Es.
    apply num_stop_inv in Hs as [_ Hs]. by rewrite (Hs c t Es). }
  rewrite (to_string_horner number_loop uint64_max rest n number_loop_digit Hn).
  rewrite number_loop_stop by done. simpl.
  by apply num_stop_inv in Hs as [-> _].
Qed.

(** ** Values *)

Lemma wf_array items : wf (array items) ↔ Forall wf items.
Proof.
  simpl. induction items as [|x items IH]; [by split; [constructor|]|].
  rewrite Forall_cons, <- IH. done.
Qed.

Lemma wf_object members :
  wf (object members) ↔ StdMap.sorted members ∧ Forall (fun m => wf (snd m)) members.
Proof.
  simpl. apply and_iff_compat_l.
  induction members as [|[k x] members IH]; [by split; [constructor|]|].
  rewrite Forall_cons, <- IH. done.
Qed.

(** The first byte of a rendering is not blank, and tells the alternatives
    apart. *)
Definition lead (v : value) (c : ascii) : Prop :=
  match v with
  | null_value => code c = 110
  | boolean b => code c = if b then 116 else 102
  | unsigned_integer _ => is_digit c = true
  | string_value _ => c = dquote
  | array _ => code c = 91
  | object _ => code c = 123
  end.

Lemma render_lead v : ∃ c s, render v = String c s ∧ lead v c.
Proof.
  destruct v as [|[]|n|s|items|members]; cbn [render lead];
    try (by eexists _, _); try by (eexists _, _; split; [reflexivity|]).
  destruct (to_string_first n) as (d & s & -> & Hd & _).
  eexists _, _. split; [done|]. by apply digit_char_is_digit.
Qed.

Lemma lead_not_space v c : lead v c → is_space c = false.
Proof.
  unfold is_space. destruct v as [|[]|n|s|items|members]; simpl;
    try (by intros ->); try (by intros E; rewrite E).
  unfold is_digit, in_range. intros. bool_hyps.
  rewrite !orb_false_iff, !N.eqb_neq. lia.
Qed.

Lemma skip_space_render v rest : skip_space (render v +:+ rest) = render v +:+ rest.
Proof.
  destruct (render_lead v) as (c & s & -> & Hl). simpl.
  by rewrite (lead_not_space v c Hl).
Qed.

Lemma skip_space_quoted s rest : skip_space (quoted s +:+ rest) = quoted s +:+ rest.
Proof. done. Qed.

Definition counts_members (members : list (string * value)) : N :=
  fold_right (fun m n => count (snd m) + n) 0 members.

(** What parsing the rendering of [v] must do. *)
Definition parses (L : ParseLimits) (v : value) : Prop := ∀ fuel d rest n,
  (2 * String.length (render v) < fuel)%nat → num_stop rest = true →
  outcome (fits L d v && (n + count v <=? max_values L)) (v, rest, n + count v)
    (parse_value L fuel d (render v +:+ rest) n).

Lemma count_pos v : 1 <= count v.
Proof. destruct v; simpl; lia. Qed.

Lemma fits_depth L d v : fits L d v = true → d <= max_depth L.
Proof. intros H. destruct v; simpl in H; bool_hyps; done. Qed.

(** Entering a value: the depth and value-count guards. *)
Lemma parse_value_guard L fuel d text n (b : bool) a :
  (∀ r, (max_depth L <? d) = false → (max_values L <? n + 1) = false →
     parse_value L (S fuel) d text n = r → outcome b a r) →
  ((max_depth L <? d) = true ∨ (max_values L <? n + 1) = true → b = false) →
  outcome b a (parse_value L (S fuel) d text n).
Proof.
  intros H1 H2. destruct (max_depth L <? d) eqn:Ed.
  { rewrite H2 by auto. simpl. rewrite Ed. by eexists. }
  destruct (max_values L <? n + 1) eqn:En.
  { rewrite H2 by auto. simpl. rewrite Ed, En. by eexists. }
  by eapply H1.
Qed.

Lemma guard_false L d v n :
  (max_depth L <? d) = true ∨ (max_values L <? n + 1) = true →
  fits L d v && (n + count v <=? max_values L) = false.
Proof.
  intros H. destruct (fits L d v) eqn:Ef; [|done]. simpl. apply N.leb_gt.
  apply fits_depth in Ef. pose proof (count_pos v).
  destruct H as [H|H]; bool_hyps; lia.
Qed.

Lemma num_stop_close c rest : code c = 93 ∨ code c = 125 ∨ code c = 44 →
  num_stop (String c rest) = true.
Proof.
  intros H. simpl. unfold is_digit, in_range. destruct H as [E|[E|E]]; by rewrite E.
Qed.

Lemma outcome_iff {A} b b' (a a' : A) r :
  b = b' → (b' = true → a = a') → outcome b a r → outcome b' a' r.
Proof. intros -> H. destruct b'; simpl; [by rewrite H|done]. Qed.

(** The running count: a prefix over the budget refuses, and so does the whole. *)
Lemma budget_split (b b' : bool) n c m M :
  (b && (n + c <=? M)) && (b' && (n + c + m <=? M)) = (b && b') && (n + (c + m) <=? M).
Proof.
  rewrite N.add_assoc. destruct b, b'; simpl; try done; [|by rewrite andb_false_r].
  destruct (N.leb_spec (n + c) M), (N.leb_spec (n + c + m) M); simpl; (done || lia).
Qed.

(** The loop of [Parser::array] on rendered items. *)
Lemma parse_array_render L items fuel d acc rest n :
  Forall (parses L) items → items ≠ [] →
  (2 * String.length (commas (map render items)) + 1 < fuel)%nat →
  outcome (forallb (fits L d) items && (n + counts items <=? max_values L))
    (array (acc ++ items), rest, n + counts items)
    (parse_array L fuel d acc (commas (map render items) +:+ String "]" rest) n).
Proof.
  intros HF. revert fuel acc n.
  induction HF as [|x items Hx HF IH]; intros fuel acc n Hne Hfuel; [done|].
  destruct fuel as [|fuel]; [lia|]. cbn [parse_array].
  destruct items as [|y items].
  - cbn [map commas] in *.
    eapply outcome_iff; [| |eapply (outcome_bind _ true); [apply Hx; [lia|done]|]].
    + simpl. by rewrite !andb_true_r, N.add_0_r.
    + intros _. simpl. by rewrite N.add_0_r.
    + intros _. simpl. done.
  - cbn [map] in *. rewrite commas_cons in * by done. rewrite !append_assoc.
    rewrite !length_append in Hfuel. cbn [String.length] in Hfuel.
    eapply outcome_iff; [| |eapply outcome_bind; [apply Hx; [lia|done]|]].
    3:{ intros _. apply IH; [done|]. cbn [map]. lia. }
    + apply budget_split.
    + intros _. rewrite <- app_assoc. f_equal. simpl. lia.
Qed.

Lemma sorted_app_lt {A} (l1 l2 : list (string * A)) p q :
  StdMap.sorted (l1 ++ l2) → p ∈ l1 → q ∈ l2 → string_ltb (fst p) (fst q) = true.
Proof.
  induction l1 as [|x l1 IH]; [set_solver|]. simpl.
  intros [Hs Hlt]%StronglySorted_inv [->|Hp]%elem_of_cons Hq; [|by apply IH].
  rewrite Forall_forall in Hlt. apply Hlt. set_solver.
Qed.

(** One round of the loop of [Parser::object] on a rendered member. *)
Lemma parse_object_step L fuel d acc acc' k x tail n b a :
  parses L x → StdMap.emplace k x acc = (acc', true) →
  (2 * String.length (render x) < fuel)%nat → num_stop tail = true →
  outcome b a
    match consume "}" (skip_space tail) with
    | (true, rest) => Ok (object acc', rest, n + count x)
    | (false, _) =>
      rest ← require (ascii_of_N 44) (skip_space tail);
      parse_object L fuel d acc' rest (n + count x)
    end →
  outcome (string_ok L k && (fits L d x && (n + count x <=? max_values L) && b)) a
    (parse_object L (S fuel) d acc (render_member (k, x) +:+ tail) n).
Proof.
  intros Hx Hem Hfuel Htail Hk. cbn [parse_object].
  unfold render_member. cbn [fst snd]. rewrite !append_assoc, skip_space_quoted.
  change (quoted k +:+ ":" +:+ render x +:+ tail)
    with (String dquote (str_drop 1 (quoted k +:+ ":" +:+ render x +:+ tail))) at 1.
  cbn match. cbn [Ascii.eqb negb dquote].
  eapply outcome_bind; [apply string_quoted|]. intros _. cbv beta iota.
  change (require (ascii_of_N 58) (skip_space (":" +:+ render x +:+ tail)))
    with (Ok (render x +:+ tail)). cbn [mbind result_bind].
  eapply outcome_bind; [by apply Hx|]. intros _. cbv beta iota. by rewrite Hem.
Qed.

(** The loop of [Parser::object] on rendered members in key order. *)
Lemma parse_object_render L members fuel d acc rest n :
  Forall (fun m => parses L (snd m)) members → members ≠ [] →
  StdMap.sorted (acc ++ members) →
  (2 * String.length (commas (map render_member members)) + 1 < fuel)%nat →
  outcome (forallb (fun m => string_ok L (fst m) && fits L d (snd m)) members &&
      (n + counts_members members <=? max_values L))
    (object (acc ++ members), rest, n + counts_members members)
    (parse_object L fuel d acc (commas (map render_member members) +:+ String "}" rest) n).
Proof.
  intros HF. revert fuel acc n.
  induction HF as [|[k x] members Hx HF IH]; intros fuel acc n Hne Hs Hfuel; [done|].
  destruct fuel as [|fuel]; [lia|].
  assert (StdMap.emplace k x acc = (acc ++ [(k, x)], true)) as Hem.
  { apply StdMap.emplace_snoc. apply Forall_forall. intros p Hp.
    apply (sorted_app_lt acc ((k, x) :: members) p (k, x)); [done|done|by left]. }
  assert (String.length (render x) < String.length (render_member (k, x)))%nat as Hlen.
  { unfold render_member, quoted. rewrite !length_append. simpl. lia. }
  destruct members as [|m members].
  - cbn [map commas] in *.
    eapply outcome_iff; [| |eapply (parse_object_step _ _ _ _ _ _ _ _ _ true);
      [exact Hx|exact Hem|lia|done|simpl; reflexivity]].
    + simpl. rewrite !andb_true_r, N.add_0_r. by rewrite andb_assoc.
    + intros _. simpl. by rewrite N.add_0_r.
  - cbn [map] in *. rewrite commas_cons in * by done. rewrite !append_assoc.
    rewrite !length_append in Hfuel. cbn [String.length] in Hfuel.
    eapply outcome_iff; [| |eapply parse_object_step; [exact Hx|exact Hem|lia|done|]].
    3:{ apply IH; [done|by rewrite <- app_assoc|]. cbn [map]. lia. }
    + rewrite budget_split. cbn [forallb fst snd]. by rewrite !andb_assoc.
    + intros _. rewrite <- app_assoc. f_equal. simpl. lia.
Qed.

Lemma literal_append token rest : literal token (token +:+ rest) = Ok rest.
Proof.
  unfold literal. rewrite str_drop_all.
  assert (String.prefix token (token +:+ rest) = true) as ->; [|done].
  induction token as [|c token IH]; [by destruct rest|]. simpl.
  by destruct (ascii_dec c c).
Qed.

(** Past the guards, a scalar is accepted exactly when its strings are. *)
Lemma outcome_guarded {A} L d n (b : bool) (a : A) r :
  (max_depth L <? d) = false → (max_values L <? n + 1) = false →
  outcome b a r →
  outcome ((d <=? max_depth L) && b && (n + 1 <=? max_values L)) a r.
Proof.
  intros Hd Hn. rewrite N.ltb_antisym in Hd, Hn. apply negb_false_iff in Hd, Hn.
  rewrite Hd, Hn, andb_true_r. done.
Qed.

(** Entering the items of a container: past the guards the outcome is that of
    the loop, whose budget starts after the container itself. *)
Lemma outcome_container {A} L d n (b : bool) m (a : A) r :
  (max_depth L <? d) = false →
  outcome (b && (n + 1 + m <=? max_values L)) a r →
  outcome ((d <=? max_depth L) && b && (n + (1 + m) <=? max_values L)) a r.
Proof.
  intros Hd. rewrite N.ltb_antisym in Hd. apply negb_false_iff in Hd.
  by rewrite Hd, N.add_assoc.
Qed.

Lemma consume_lead close v t :
  code close = 93 ∨ code close = 125 →
  consume close (skip_space (render v +:+ t)) = (false, render v +:+ t).
Proof.
  intros Hc. rewrite skip_space_render.
  destruct (render_lead v) as (c & s & -> & Hl). simpl.
  destruct (Ascii.eqb_spec c close) as [->|]; [exfalso|done].
  destruct v as [|[]|n|x|items|members]; simpl in Hl; try lia.
  - unfold is_digit, in_range in Hl. bool_hyps. lia.
  - subst. vm_compute in Hc. lia.
Qed.

Lemma commas_lead x l t : ∃ t', commas (map render (x :: l)) +:+ t = render x +:+ t'.
Proof.
  destruct l as [|y l]; simpl; [by eexists|]. rewrite append_assoc. by eexists.
Qed.

Lemma commas_member_lead m l t : ∃ t',
  commas (map render_member (m :: l)) +:+ t = quoted (fst m) +:+ t'.
Proof.
  destruct l as [|y l]; cbn [map]; [|rewrite commas_cons by done]; cbn [commas];
    unfold render_member at 1; rewrite !append_assoc; by eexists.
Qed.

Lemma wf_parses L v : wf v → parses L v.
Proof.
  induction v as [|b|k|s|items IH|members IH] using value_induction;
    intros Hwf fuel d rest n Hfuel Hstop; (destruct fuel as [|fuel]; [lia|]);
    (apply parse_value_guard; [|apply guard_false]); intros r Hd Hn <-;
    cbn [parse_value]; rewrite Hd, Hn, skip_space_render.
  - apply outcome_guarded; [done|done|]. exact (f_equal _ (literal_append "null" rest)).
  - apply outcome_guarded; [done|done|]. destruct b.
    + exact (f_equal _ (literal_append "true" rest)).
    + exact (f_equal _ (literal_append "false" rest)).
  - apply outcome_guarded; [done|done|].
    destruct (render_lead (unsigned_integer k)) as (c & s & E & Hl).
    rewrite E. cbn [String.append]. cbv beta iota. rewrite <- append_cons, <- E.
    simpl in Hl. unfold is_digit in Hl. rewrite Hl. unfold in_range in Hl. bool_hyps.
    assert (Ascii.eqb c dquote = false) as ->.
    { apply Ascii.eqb_neq. intros ->. change (code dquote) with 34 in *. lia. }
    rewrite !(proj2 (N.eqb_neq _ _)) by lia.
    cbn [render]. by rewrite number_to_string.
  - apply outcome_guarded; [done|done|].
    change (outcome (string_ok L s) (string_value s, rest, n + 1)
      ('(x, r) ← string_ L (quoted s +:+ rest); Ok (string_value x, r, n + 1))).
    rewrite <- (andb_true_r (string_ok L s)).
    eapply outcome_bind; [apply string_quoted|]. done.
  - apply outcome_container; [done|]. rewrite wf_array in Hwf.
    cbn [render] in Hfuel |- *. rewrite !length_append in Hfuel. simpl in Hfuel.
    rewrite append_assoc. cbn [String.append]. cbv beta iota.
    destruct items as [|x items]; [simpl; bool_hyps;
      by rewrite N.add_0_r, (proj2 (N.leb_le _ _))|].
    destruct (commas_lead x items ("]" +:+ rest)) as [t Et].
    rewrite append_assoc, Et. cbn -[parse_array consume skip_space render].
    rewrite consume_lead by auto. rewrite skip_space_render, <- Et.
    eapply outcome_iff; [reflexivity| |apply (parse_array_render L (x :: items) fuel
      (d + 1) [] rest (n + 1)); [by eapply Forall_mp|done|lia]].
    intros _. f_equal. cbn [count counts fold_right]. lia.
  - apply outcome_container; [done|]. rewrite wf_object in Hwf. destruct Hwf as [Hs Hwf].
    cbn [render] in Hfuel |- *. change (map (λ m, _) members) with (map render_member members) in *.
    rewrite !length_append in Hfuel. simpl in Hfuel.
    rewrite append_assoc. cbn [String.append]. cbv beta iota.
    destruct members as [|m members]; [simpl; bool_hyps;
      by rewrite N.add_0_r, (proj2 (N.leb_le _ _))|].
    destruct (commas_member_lead m members ("}" +:+ rest)) as [t Et].
    rewrite append_assoc, Et. cbn -[parse_object skip_space quoted].
    rewrite skip_space_quoted. cbn [consume quoted String.append].
    change (String dquote ((esc (fst m) +:+ String dquote "") +:+ t))
      with (quoted (fst m) +:+ t). rewrite <- Et.
    eapply outcome_iff; [reflexivity| |apply (parse_object_render L (m :: members) fuel
      (d + 1) [] rest (n + 1));
      [by eapply (Forall_mp (fun m => wf (snd m)))|done|done|lia]].
    intros _. f_equal. cbn [count counts_members fold_right]. lia.
Qed.

(** The exact result of [parse] on canonical text. *)
Lemma skip_space_all ws : forall_bytes is_space ws = true → skip_space ws = EmptyString.
Proof. induction ws as [|c ws IH]; simpl; [done|]. intros [-> ?]%andb_prop. auto. Qed.

Lemma num_stop_space ws : forall_bytes is_space ws = true → num_stop ws = true.
Proof.
  destruct ws as [|c ws]; [done|]. intros [Hc _]%andb_prop. unfold num_stop. simpl.
  unfold is_space in Hc. unfold is_digit, in_range, starts_float.
  rewrite !orb_true_iff, !N.eqb_eq in Hc. destruct Hc as [[[E|E]|E]|E]; by rewrite E.
Qed.

(** Canonical text followed by blanks. *)
Lemma parse_canonical_space L v ws :
  wf v → forall_bytes is_space ws = true →
  outcome ((size (canonical v +:+ ws) <=? max_bytes L) &&
    (fits L 0 v && (count v <=? max_values L))) v (parse (canonical v +:+ ws) L).
Proof.
  intros Hwf Hws. rewrite canonical_render. unfold parse. rewrite N.ltb_antisym.
  destruct (size (render v +:+ ws) <=? max_bytes L); [|apply outcome_throw]. cbn [negb andb].
  rewrite skip_space_render.
  pose proof (wf_parses L v Hwf (parse_fuel (render v +:+ ws)) 0 ws 0) as H.
  rewrite N.add_0_l in H. rewrite <- (andb_true_r (fits L 0 v && _)).
  eapply outcome_bind; [apply H; [unfold parse_fuel; rewrite length_append; lia|by apply num_stop_space]|].
  intros _. cbv beta iota. by rewrite skip_space_all.
Qed.

Lemma parse_canonical_outcome L v :
  wf v → outcome ((size (canonical v) <=? max_bytes L) &&
    (fits L 0 v && (count v <=? max_values L))) v (parse (canonical v) L).
Proof.
  intros Hwf. pose proof (parse_canonical_space L v EmptyString Hwf eq_refl) as H.
  by rewrite append_nil_r in H.
Qed.

(** ** Soundness: the text behind a parsed string *)

Lemma hex_digit_cases c : (∃ d, hex_digit c = Ok d ∧ d < 16) ∨ throws (hex_digit c).
Proof.
  unfold hex_digit. pose proof (code_lt c).
  destruct (in_range 48 57 c) eqn:E1; [|destruct (in_range 97 102 c) eqn:E2;
    [|destruct (in_range 65 70 c) eqn:E3; [|right; by eexists]]]; left;
    unfold in_range in *; bool_hyps; eexists; (split; [done|lia]).
Qed.

Lemma unicode_escape_cases h0 h1 h2 h3 :
  (∃ cp, unicode_escape h0 h1 h2 h3 = Ok cp ∧ cp < 0x10000) ∨
  throws (unicode_escape h0 h1 h2 h3).
Proof.
  unfold unicode_escape. cbn [fold_result].
  destruct (hex_digit_cases h0) as [(d0 & -> & ?)|[w ->]]; [|right; by eexists].
  destruct (hex_digit_cases h1) as [(d1 & -> & ?)|[w ->]]; [|right; by eexists].
  destruct (hex_digit_cases h2) as [(d2 & -> & ?)|[w ->]]; [|right; by eexists].
  destruct (hex_digit_cases h3) as [(d3 & -> & ?)|[w ->]]; [|right; by eexists].
  left. eexists. split; [reflexivity|]. lia.
Qed.

Lemma esc_high c : 0x80 <= code c → esc_char c = String c EmptyString.
Proof.
  intros H. unfold esc_char. rewrite needs_escape_cases.
  rewrite !(proj2 (N.eqb_neq _ _)), (proj2 (N.ltb_ge _ _)) by lia. done.
Qed.

Lemma esc_char_length c : (1 <= String.length (esc_char c) <= 6)%nat.
Proof. by_bytes c; lia. Qed.

Lemma esc_high_bytes s :
  forall_bytes (fun c => 0x80 <=? code c) s = true → esc s = s.
Proof.
  induction s as [|c s IH]; simpl; [done|]. intros [Hc Hs]%andb_prop.
  rewrite esc_high by (by apply N.leb_le). simpl. by rewrite IH.
Qed.

(** The canonical form of an encoded scalar value is no longer than the escape
    it was written with. *)
Lemma esc_append_utf8_length cp : cp < 0x110000 →
  (String.length (esc (append_utf8 EmptyString cp)) <= 6)%nat.
Proof.
  intros Hcp. destruct (N.leb_spec cp 0x7f).
  { unfold append_utf8. rewrite (proj2 (N.leb_le _ _)) by done.
    cbn [push_back String.append esc]. rewrite append_nil_r. apply esc_char_length. }
  destruct (append_utf8_high cp ltac:(lia)) as [Hl Hb].
  rewrite esc_high_bytes by done. lia.
Qed.

Lemma esc_simple_escape c b : simple_escape c = Some b → (String.length (esc_char b) <= 2)%nat.
Proof.
  unfold simple_escape.
  repeat (case_match; [intros [= <-]; vm_compute; lia|]). done.
Qed.

(** What the loop of [Parser::string] returns: the decoded text extends the
    accumulator, meets the limits, and its canonical form is no longer than the
    text it was read from. *)
Definition string_sound (L : ParseLimits) (acc text : string) (r : result (string * string)) :=
  match r with
  | Ok (s, rest) => string_ok L s = true ∧ ∃ s', s = acc +:+ s' ∧
      (String.length (esc s') + 1 + String.length rest <= String.length text)%nat
  | Throw e => e ≠ out_of_fuel
  end.

(** A round that consumed [k] bytes and produced [x]. *)
Lemma string_sound_step L acc x text text' r :
  string_sound L (acc +:+ x) text' r →
  (String.length (esc x) + String.length text' <= String.length text)%nat →
  string_sound L acc text r.
Proof.
  destruct r as [[s rest]|e]; simpl; [|done].
  intros (Hok & s' & -> & Hl) Hx. split; [done|].
  exists (x +:+ s'). rewrite append_assoc, esc_append, length_append. split; [done|lia].
Qed.

Lemma string_loop_sound L acc text : string_sound L acc text (string_loop L acc text).
Proof.
  remember (String.length text) as n eqn:Hn. revert acc text Hn.
  induction n as [n IH] using lt_wf_ind; intros acc text Hn. subst.
  assert (∀ x text', (String.length text' < String.length text)%nat →
    (String.length (esc x) + String.length text' <= String.length text)%nat →
    string_sound L acc text (string_loop L (acc +:+ x) text')) as Hstep.
  { intros x text' H1 H2. eapply string_sound_step; [by eapply IH|done]. }
  clear IH. destruct text as [|c text]; [done|]. cbn [string_loop].
  destruct (Ascii.eqb c dquote) eqn:Eq.
  { rewrite N.ltb_antisym. destruct (size acc <=? max_string_bytes L) eqn:E1; [|done].
    simpl. destruct (valid_utf8 acc) eqn:E2; [|done].
    simpl. unfold string_ok. rewrite E1, E2. split; [done|].
    exists "". rewrite append_nil_r. split; [done|simpl; lia]. }
  destruct (code c <? 0x20) eqn:Ec; [done|].
  destruct (Ascii.eqb c backslash) eqn:Eb; cbn [negb].
  - destruct text as [|e text]; [done|].
    destruct (simple_escape e) as [b|] eqn:Ee.
    { apply (Hstep (String b "")); simpl; [lia|]. rewrite append_nil_r.
      apply esc_simple_escape in Ee. lia. }
    destruct (code e =? 117); cbn [negb]; [|done].
    destruct text as [|h0 [|h1 [|h2 [|h3 text]]]]; [done..|].
    destruct (unicode_escape_cases h0 h1 h2 h3) as [(cp & -> & Hcp)|[w ->]]; [|done].
    cbn [mbind result_bind].
    destruct ((0xd800 <=? cp) && (cp <=? 0xdbff)) eqn:Hsur.
    + destruct text as [|e0 [|e1 text]]; [done..|].
      destruct (negb (Ascii.eqb e0 backslash) || negb (code e1 =? 117)); [done|].
      destruct text as [|l0 [|l1 [|l2 [|l3 text]]]]; [done..|].
      destruct (unicode_escape_cases l0 l1 l2 l3) as [(lo & -> & Hlo)|[w ->]]; [|done].
      cbn [mbind result_bind].
      destruct ((lo <? 0xdc00) || (0xdfff <? lo)) eqn:Hl; [done|].
      bool_hyps. rewrite append_utf8_acc. apply Hstep; simpl; [lia|].
      set (p := 0x10000 + _ + _).
      assert (p < 0x110000) by (subst p; rewrite N.shiftl_mul_pow2;
        change (2 ^ 10) with 1024; lia).
      pose proof (esc_append_utf8_length p ltac:(done)). lia.
    + destruct ((0xdc00 <=? cp) && (cp <=? 0xdfff)); [done|].
      rewrite append_utf8_acc. apply Hstep; simpl; [lia|].
      pose proof (esc_append_utf8_length cp ltac:(lia)). lia.
  - apply (Hstep (String c "")); simpl; [lia|]. rewrite append_nil_r.
    assert (esc_char c = String c "") as ->; [|simpl; lia].
    unfold esc_char, needs_escape. rewrite Eq, Eb, (proj2 (N.leb_le _ _)); [done|].
    by apply N.ltb_ge.
Qed.

(** ** Soundness: numbers and literals *)

Lemma skip_space_length text : (String.length (skip_space text) <= String.length text)%nat.
Proof. induction text as [|c text IH]; simpl; [lia|]. destruct (is_space c); simpl; lia. Qed.

Lemma number_loop_sound r text :
  match number_loop r text with
  | Ok (n, rest) => r <= uint64_max → n <= uint64_max ∧ ∃ k,
      (k + String.length rest)%nat = String.length text ∧ n < (r + 1) * 10 ^ N.of_nat k ∧
      (∀ c t, text = String c t → is_digit c = true → (1 <= k)%nat)
  | Throw e => e ≠ out_of_fuel
  end.
Proof.
  revert r. induction text as [|c text IH]; intros r; cbn [number_loop].
  { intros Hr. split; [done|]. exists 0%nat. split; [done|]. split; [lia|]. done. }
  destruct (is_digit c) eqn:Hc.
  - destruct (N.ltb_spec ((uint64_max - (code c - 48)) / 10) r) as [|Hle]; [done|].
    specialize (IH (r * 10 + (code c - 48))).
    destruct (number_loop _ text) as [[n rest]|]; [|done].
    unfold is_digit, in_range in Hc. bool_hyps. intros Hr.
    assert (r * 10 + (code c - 48) <= uint64_max) as Hb.
    { pose proof (N.Div0.mul_div_le (uint64_max - (code c - 48)) 10). unfold uint64_max in *. lia. }
    destruct (IH Hb) as (Hn & k & Hk & Hlt & _). split; [done|].
    exists (S k). split; [simpl; lia|]. split; [|lia].
    rewrite Nat2N.inj_succ, N.pow_succ_r'.
    assert ((r * 10 + (code c - 48) + 1) * 10 ^ N.of_nat k <=
      (r + 1) * 10 * 10 ^ N.of_nat k) by (apply N.mul_le_mono_r; lia). lia.
  - intros Hr. split; [done|]. exists 0%nat. split; [done|]. split; [lia|].
    intros ? ? [= <- <-]. congruence.
Qed.

Lemma number_sound c text :
  is_digit c = true →
  match number (String c text) with
  | Ok (n, rest) => n <= uint64_max ∧
      (String.length (to_string n) + String.length rest <= String.length (String c text))%nat
  | Throw e => e ≠ out_of_fuel
  end.
Proof.
  intros Hc. unfold number. destruct (leading_zero (String c text)); [done|].
  pose proof (number_loop_sound 0 (String c text)) as H.
  destruct (number_loop 0 (String c text)) as [[n rest]|]; [|done].
  cbn [mbind result_bind]. destruct (starts_float rest); [done|].
  destruct (H ltac:(done)) as (Hn & k & Hk & Hlt & Hd). split; [done|].
  specialize (Hd c text eq_refl Hc). rewrite N.mul_1_l in Hlt.
  pose proof (to_string_length n k Hlt Hd). lia.
Qed.

Lemma literal_sound token text :
  match literal token text with
  | Ok rest => (String.length token + String.length rest <= String.length text)%nat
  | Throw e => e ≠ out_of_fuel
  end.
Proof.
  unfold literal. destruct (String.prefix token text) eqn:E; [|done].
  rewrite length_str_drop.
  assert (String.length token <= String.length text)%nat; [|lia].
  revert text E. induction token as [|c token IH]; intros [|d text]; simpl; try lia; try done.
  destruct (ascii_dec c d); [|done]. intros H%IH. lia.
Qed.

Lemma require_sound c text :
  match require c text with
  | Ok rest => (1 + String.length rest <= String.length text)%nat
  | Throw e => e ≠ out_of_fuel
  end.
Proof.
  unfold require. pose proof (skip_space_length text).
  destruct (skip_space text) as [|d t]; simpl in *; [done|].
  destruct (Ascii.eqb d c); [lia|done].
Qed.

Lemma consume_true c text rest :
  consume c text = (true, rest) → (1 + String.length rest = String.length text)%nat.
Proof. destruct text as [|d t]; simpl; [done|]. destruct (Ascii.eqb d c); [|done]. by intros [= ->]. Qed.

(** ** Soundness: values *)

Lemma commas_length l : l ≠ [] →
  (String.length (commas l) + 1)%nat = sum_list_with (fun x => S (String.length x)) l.
Proof.
  induction l as [|x l IH]; [done|]. intros _. destruct l as [|y l]; [simpl; lia|].
  rewrite commas_cons, !length_append by done. cbn [String.length].
  specialize (IH ltac:(done)). simpl in *. lia.
Qed.

Definition items_length (l : list value) : nat :=
  sum_list_with (fun x => S (String.length (render x))) l.
Definition members_length (l : list (string * value)) : nat :=
  sum_list_with (fun m => S (String.length (render_member m))) l.

Definition value_sound (L : ParseLimits) (fuel : nat) : Prop := ∀ d text n,
  match parse_value L fuel d text n with
  | Ok (v, rest, n') => wf v ∧ fits L d v = true ∧ n' = n + count v ∧ n' <= max_values L ∧
      (String.length (render v) + String.length rest <= String.length text)%nat
  | Throw e => (2 * String.length text < fuel)%nat → e ≠ out_of_fuel
  end.

Definition array_sound (L : ParseLimits) (fuel : nat) : Prop := ∀ d acc text n,
  match parse_array L fuel d acc text n with
  | Ok (v, rest, n') => ∃ l, v = array (acc ++ l) ∧ l ≠ [] ∧ Forall wf l ∧
      forallb (fits L d) l = true ∧ n' = n + counts l ∧ n' <= max_values L ∧
      (items_length l + String.length rest <= String.length text)%nat
  | Throw e => (2 * String.length text + 1 < fuel)%nat → e ≠ out_of_fuel
  end.

Definition object_sound (L : ParseLimits) (fuel : nat) : Prop := ∀ d acc text n,
  match parse_object L fuel d acc text n with
  | Ok (v, rest, n') => ∃ m l, v = object m ∧ (StdMap.sorted acc → StdMap.sorted m) ∧
      m ≡ₚ acc ++ l ∧ l ≠ [] ∧ Forall (fun p => wf (snd p)) l ∧
      forallb (fun p => string_ok L (fst p) && fits L d (snd p)) l = true ∧
      n' = n + counts_members l ∧ n' <= max_values L ∧
      (members_length l + String.length rest <= String.length text)%nat
  | Throw e => (2 * String.length text + 1 < fuel)%nat → e ≠ out_of_fuel
  end.

Lemma array_sound_step L fuel :
  value_sound L fuel → array_sound L fuel → array_sound L (S fuel).
Proof.
  intros HV HA d acc text n. cbn [parse_array]. specialize (HV d text n).
  destruct (parse_value L fuel d text n) as [[[v rest] n']|e]; cbn [mbind result_bind];
    [|intros; apply HV; lia].
  destruct HV as (Hwf & Hfit & Hn & Hmax & Hlen). pose proof (skip_space_length rest).
  assert (1 <= String.length (render v))%nat.
  { destruct (render_lead v) as (c & s & -> & _). simpl. lia. }
  destruct (consume (ascii_of_N 93) (skip_space rest)) as [[] rest'] eqn:Ec.
  { exists [v]. apply consume_true in Ec. unfold items_length. simpl.
    rewrite Hfit, N.add_0_r. repeat split; try done; [by constructor|lia]. }
  pose proof (require_sound (ascii_of_N 44) (skip_space rest)) as Hr.
  destruct (require (ascii_of_N 44) (skip_space rest)) as [rest2|e]; cbn [mbind result_bind];
    [|intros; by apply Hr].
  specialize (HA d (acc ++ [v]) rest2 n').
  destruct (parse_array L fuel d (acc ++ [v]) rest2 n') as [[[v' rest3] n'']|e];
    [|intros; apply HA; lia].
  destruct HA as (l & -> & Hne & Hwl & Hfl & -> & Hmax' & Hlen').
  exists (v :: l). rewrite <- app_assoc. split; [done|]. split; [done|].
  split; [by constructor|]. split; [simpl; by rewrite Hfit|]. split; [simpl; lia|].
  split; [done|]. unfold items_length in *. simpl. lia.
Qed.

Lemma string_sound_quoted L c text :
  match string_ L (String c text) with
  | Ok (s, rest) => string_ok L s = true ∧
      (String.length (quoted s) + String.length rest <= String.length (String c text))%nat
  | Throw e => e ≠ out_of_fuel
  end.
Proof.
  unfold string_. cbn [str_drop]. pose proof (string_loop_sound L "" text) as H.
  destruct (string_loop L "" text) as [[s rest]|]; [|done].
  destruct H as (Hok & s' & -> & Hl). split; [done|].
  unfold quoted. simpl. rewrite length_append. simpl in *. lia.
Qed.

Lemma object_sound_step L fuel :
  value_sound L fuel → object_sound L fuel → object_sound L (S fuel).
Proof.
  intros HV HO d acc text n. cbn [parse_object].
  pose proof (skip_space_length text) as Hsp.
  destruct (skip_space text) as [|c text'] eqn:Et; [done|].
  destruct (negb (Ascii.eqb c dquote)); [done|].
  pose proof (string_sound_quoted L c text') as Hk.
  destruct (string_ L (String c text')) as [[k rest]|e]; cbn [mbind result_bind];
    [|intros; by apply Hk].
  destruct Hk as [Hok Hklen]. pose proof (skip_space_length rest).
  pose proof (require_sound (ascii_of_N 58) (skip_space rest)) as Hr.
  destruct (require (ascii_of_N 58) (skip_space rest)) as [rest1|e]; cbn [mbind result_bind];
    [|intros; by apply Hr].
  specialize (HV d rest1 n).
  destruct (parse_value L fuel d rest1 n) as [[[v rest2] n']|e]; cbn [mbind result_bind];
    [|intros; apply HV; lia].
  destruct HV as (Hwf & Hfit & Hn & Hmax & Hlen). pose proof (skip_space_length rest2).
  destruct (StdMap.emplace k v acc) as [acc' b] eqn:Em. destruct b; [|done].
  assert (acc' ≡ₚ (k, v) :: acc) as Hperm.
  { pose proof (StdMap.emplace_perm k v acc) as Hp. rewrite Em in Hp. by apply Hp. }
  assert (StdMap.sorted acc → StdMap.sorted acc') as Hsort.
  { intros Ha. pose proof (StdMap.emplace_sorted k v acc Ha) as Hp. by rewrite Em in Hp. }
  assert (String.length (render_member (k, v)) =
    String.length (quoted k) + 1 + String.length (render v))%nat as Hml.
  { unfold render_member. rewrite !length_append. simpl. lia. }
  destruct (consume (ascii_of_N 125) (skip_space rest2)) as [[] rest'] eqn:Ec.
  { exists acc', [(k, v)]. apply consume_true in Ec. unfold members_length.
    cbn [forallb sum_list_with fst snd counts_members]. rewrite Hok, Hfit.
    split; [done|]. split; [done|]. split; [by rewrite Permutation_app_comm|].
    split; [done|]. split; [by repeat constructor|]. split; [done|].
    split; [unfold counts_members; simpl; lia|]. split; [done|]. simpl in *. lia. }
  pose proof (require_sound (ascii_of_N 44) (skip_space rest2)) as Hr2.
  destruct (require (ascii_of_N 44) (skip_space rest2)) as [rest3|e]; cbn [mbind result_bind];
    [|intros; by apply Hr2].
  specialize (HO d acc' rest3 n').
  destruct (parse_object L fuel d acc' rest3 n') as [[[v' rest4] n'']|e];
    [|intros; apply HO; simpl in *; lia].
  destruct HO as (m & l & -> & Hsm & Hpm & Hne & Hwl & Hfl & -> & Hmax' & Hlen').
  exists m, ((k, v) :: l). split; [done|]. split; [auto|]. split.
  { rewrite Hpm, Hperm. simpl. apply Permutation_middle. }
  split; [done|]. split; [by constructor|]. split; [simpl; by rewrite Hok, Hfit|].
  split; [simpl; lia|]. split; [done|]. unfold members_length in *. simpl in *. lia.
Qed.

#[global] Instance counts_members_perm : Proper (Permutation ==> eq) counts_members.
Proof. intros l1 l2. unfold counts_members. induction 1; simpl in *; lia. Qed.

#[global] Instance members_length_perm : Proper (Permutation ==> eq) members_length.
Proof. intros l1 l2. unfold members_length. induction 1; simpl in *; lia. Qed.

Lemma forallb_perm {A} (p : A → bool) l1 l2 :
  l1 ≡ₚ l2 → forallb p l1 = true → forallb p l2 = true.
Proof.
  rewrite !forallb_forall. intros Hp H x Hx. apply H.
  eapply Permutation_in; [symmetry; exact Hp|done].
Qed.

Lemma render_array_length l : l ≠ [] →
  String.length (render (array l)) = (items_length l + 1)%nat.
Proof.
  intros Hne. cbn [render]. rewrite !length_append. cbn [String.length].
  pose proof (commas_length (map render l)) as H.
  assert (map render l ≠ []) as Hm by (by destruct l). specialize (H Hm).
  assert (sum_list_with (λ x, S (String.length x)) (map render l) = items_length l) as E.
  { clear. unfold items_length. induction l; simpl; [done|]. by rewrite IHl. }
  lia.
Qed.

Lemma render_object_length l : l ≠ [] →
  String.length (render (object l)) = (members_length l + 1)%nat.
Proof.
  intros Hne. cbn [render]. change (map (λ m, _) l) with (map render_member l).
  rewrite !length_append. cbn [String.length].
  pose proof (commas_length (map render_member l)) as H.
  assert (map render_member l ≠ []) as Hm by (by destruct l). specialize (H Hm).
  assert (sum_list_with (λ x, S (String.length x)) (map render_member l) = members_length l) as E.
  { clear. unfold members_length. induction l; simpl; [done|]. by rewrite IHl. }
  lia.
Qed.

Lemma value_sound_step L fuel :
  array_sound L fuel → object_sound L fuel → value_sound L (S fuel).
Proof.
  intros HA HO d text n. cbn [parse_value].
  destruct (N.ltb_spec (max_depth L) d) as [|Hd]; [done|].
  destruct (N.ltb_spec (max_values L) (n + 1)) as [|Hn]; [done|].
  pose proof (skip_space_length text) as Hsp.
  destruct (skip_space text) as [|ch rest] eqn:Et; [done|].
  assert ((d <=? max_depth L) = true) as Hd' by (by apply N.leb_le).
  assert (∀ token v, (render v) = token → fits L d v = true → count v = 1 → wf v →
    match (r ← literal token (String ch rest); Ok (v, r, n + 1)) with
    | Ok (v, rest, n') => wf v ∧ fits L d v = true ∧ n' = n + count v ∧ n' <= max_values L ∧
      (String.length (render v) + String.length rest <= String.length text)%nat
    | Throw e => (2 * String.length text < S fuel)%nat → e ≠ out_of_fuel
    end) as Hlit.
  { intros token v <- Hf Hc Hw. pose proof (literal_sound (render v) (String ch rest)) as H.
    destruct (literal _ _) as [r|e]; cbn [mbind result_bind]; [|by intros].
    rewrite Hc. repeat split; try done. lia. }
  destruct (code ch =? 110); [apply Hlit; simpl; by rewrite ?Hd'|].
  destruct (code ch =? 116); [apply Hlit; simpl; by rewrite ?Hd'|].
  destruct (code ch =? 102); [apply Hlit; simpl; by rewrite ?Hd'|].
  destruct (Ascii.eqb ch dquote).
  { pose proof (string_sound_quoted L ch rest) as H.
    destruct (string_ L (String ch rest)) as [[s r]|e]; cbn [mbind result_bind]; [|by intros].
    destruct H as [Hok Hl]. cbn [fits count]. rewrite Hd', Hok. repeat split; try done.
    cbn [render]. lia. }
  destruct (code ch =? 91).
  { pose proof (skip_space_length rest).
    destruct (consume (ascii_of_N 93) (skip_space rest)) as [[] r] eqn:Ec.
    { apply consume_true in Ec. simpl. rewrite Hd'. repeat split; try done.
      simpl in *. lia. }
    specialize (HA (d + 1) [] (skip_space rest) (n + 1)).
    destruct (parse_array _ _ _ _ _ _) as [[[v r'] n']|e];
      [|intros; apply HA; simpl in *; lia].
    destruct HA as (l & -> & Hne & Hwl & Hfl & -> & Hmax & Hlen). simpl app.
    rewrite wf_array, render_array_length by done. cbn [fits count].
    fold (counts l). rewrite Hd', Hfl. repeat split; try done; [lia|simpl in *; lia]. }
  destruct (code ch =? 123).
  { pose proof (skip_space_length rest).
    destruct (consume (ascii_of_N 125) (skip_space rest)) as [[] r] eqn:Ec.
    { apply consume_true in Ec. simpl. rewrite Hd'.
      repeat split; try done; [constructor|simpl in *; lia]. }
    specialize (HO (d + 1) [] (skip_space rest) (n + 1)).
    destruct (parse_object _ _ _ _ _ _) as [[[v r'] n']|e];
      [|intros; apply HO; simpl in *; lia].
    destruct HO as (m & l & -> & Hs & Hp & Hne & Hwl & Hfl & -> & Hmax & Hlen). simpl in Hp.
    assert (m ≠ []) as Hm by (intros ->; by apply Permutation_nil_l in Hp).
    rewrite wf_object, render_object_length by done. cbn [fits count].
    fold (counts_members m).
    rewrite Hd', (forallb_perm _ l m (Permutation_sym Hp) Hfl).
    assert (counts_members m = counts_members l) as -> by (by rewrite Hp).
    assert (members_length m = members_length l) as -> by (by rewrite Hp).
    repeat split; try done; [apply Hs; constructor|by rewrite Hp|lia|simpl in *; lia]. }
  destruct (in_range 48 57 ch) eqn:Er; [|done].
  pose proof (number_sound ch rest Er) as H.
  destruct (number (String ch rest)) as [[k r]|e]; cbn [mbind result_bind]; [|by intros].
  destruct H as [Hk Hl]. cbn [fits count render]. rewrite Hd'. repeat split; try done. lia.
Qed.

Lemma parse_all_sound L fuel :
  value_sound L fuel ∧ array_sound L fuel ∧ object_sound L fuel.
Proof.
  induction fuel as [|fuel (HV & HA & HO)].
  - split; [|split]; intros ? ? ? *; simpl; lia.
  - split; [by apply value_sound_step|].
    split; [by apply array_sound_step|by apply object_sound_step].
Qed.

End JsonParse.
