(* ===== verification/JsonProps.v ===== *)
(** What the rest of the system relies on from [usk_json]: the parser always
    returns or throws, what it accepts is bounded and normal, canonical text is
    read back exactly when it is within the limits, the canonical encoding is
    injective, and [equal_values] decides equality of the encodings. *)

From Stdlib Require Import Ascii String NArith ZArith Lia Sorted.
From stdpp Require Import base list sets strings.
From S2P Require Import Prelude Effects Utf8 Sha256 StdMap Json JsonFacts JsonParse.

Module JsonProps.
Import Utf8 Json JsonFacts JsonParse.

(** ** The canonical encoding is a prefix code *)

(** Reading one encoded byte of a string back. *)
Definition unesc (text : string) : option (ascii * string) :=
  match text with
  | String c rest =>
    if Ascii.eqb c dquote then None
    else if negb (Ascii.eqb c backslash) then Some (c, rest)
    else match rest with
    | String e rest =>
      match simple_escape e with
      | Some b => Some (b, rest)
      | None =>
        match rest with
        | String _ (String _ (String h (String l rest))) =>
          match hex_digit h, hex_digit l with
          | Ok h, Ok l => Some (ascii_of_N (h * 16 + l), rest)
          | _, _ => None
          end
        | _ => None
        end
      end
    | EmptyString => None
    end
  | EmptyString => None
  end.

Lemma unesc_esc_char c t : unesc (esc_char c +:+ t) = Some (c, t).
Proof. destruct c as [[] [] [] [] [] [] [] []]; reflexivity. Qed.

Lemma unesc_quote t : unesc (String dquote t) = None.
Proof. done. Qed.

Lemma esc_inj s s' r r' :
  esc s +:+ String dquote r = esc s' +:+ String dquote r' → s = s' ∧ r = r'.
Proof.
  revert s'. induction s as [|c s IH]; intros [|c' s']; cbn [esc]; rewrite ?append_assoc.
  - simpl. by intros [= ->].
  - intros H%(f_equal unesc). by rewrite unesc_esc_char in H.
  - intros H%(f_equal unesc). by rewrite unesc_esc_char in H.
  - intros H%(f_equal unesc). rewrite !unesc_esc_char in H. injection H as -> H.
    by destruct (IH s' H) as [-> ->].
Qed.

Lemma quoted_inj s s' r r' : quoted s +:+ r = quoted s' +:+ r' → s = s' ∧ r = r'.
Proof. unfold quoted. simpl. rewrite !append_assoc. intros [= H]. by apply esc_inj. Qed.

Lemma number_text_inj a b r r' :
  forall_bytes is_digit a = true → forall_bytes is_digit b = true →
  num_stop r = true → num_stop r' = true → a +:+ r = b +:+ r' → a = b ∧ r = r'.
Proof.
  intros Ha Hb Hr Hr'. revert b Ha Hb.
  induction a as [|c a IH]; intros [|d b] Ha Hb E; simpl in *; bool_hyps.
  - done.
  - apply num_stop_inv in Hr as [_ Hr]. by rewrite (Hr _ _ E) in *.
  - apply num_stop_inv in Hr' as [_ Hr']. by rewrite (Hr' _ _ (eq_sym E)) in *.
  - injection E as -> E. by destruct (IH b) as [-> ->].
Qed.

Definition prefix_free {A} (f : A → string) (x : A) : Prop := ∀ y r r',
  num_stop r = true → num_stop r' = true → f x +:+ r = f y +:+ r' → x = y ∧ r = r'.

(** What follows an item of a list that ends with [close]. *)
Definition list_tail {A} (f : A → string) (close : ascii) (l : list A) (r : string) : string :=
  match l with
  | [] => String close r
  | _ => String (ascii_of_N 44) (commas (map f l) +:+ String close r)
  end.

Lemma commas_list_tail {A} (f : A → string) close x l r :
  commas (map f (x :: l)) +:+ String close r = f x +:+ list_tail f close l r.
Proof. destruct l; [done|]. simpl. by rewrite append_assoc. Qed.

Lemma commas_inj {A} (f : A → string) close l :
  code close = 93 ∨ code close = 125 →
  (∀ y, ∃ d s, f y = String d s ∧ d ≠ close) →
  Forall (prefix_free f) l → ∀ l' r r',
  commas (map f l) +:+ String close r = commas (map f l') +:+ String close r' →
  l = l' ∧ r = r'.
Proof.
  intros Hc Hlead. assert (∀ y l r s, commas (map f (y :: l)) +:+ String close r ≠ String close s)
    as Hno.
  { intros y l' r s. rewrite commas_list_tail. destruct (Hlead y) as (d & t & -> & Hd).
    simpl. congruence. }
  assert (∀ l r, num_stop (list_tail f close l r) = true) as Hstop.
  { intros [|y l0] r; [|done]. apply num_stop_close. tauto. }
  induction 1 as [|x l Hx _ IH]; intros [|y l'] r r' E.
  - simpl in E. by injection E as ->.
  - symmetry in E. by apply Hno in E.
  - by apply Hno in E.
  - rewrite !commas_list_tail in E. apply Hx in E as [-> E]; [|done..].
    destruct l as [|x' l], l' as [|y' l']; simpl in E.
    + by injection E as ->.
    + injection E as E _. rewrite E in Hc. vm_compute in Hc. lia.
    + injection E as E _. rewrite <- E in Hc. vm_compute in Hc. lia.
    + injection E as E. by destruct (IH (y' :: l') r r' E) as [-> ->].
Qed.

Lemma render_not_close close v : code close = 93 ∨ code close = 125 →
  ∃ d s, render v = String d s ∧ d ≠ close.
Proof.
  intros Hc. pose proof (consume_lead close v "" Hc) as H.
  rewrite skip_space_render in H.
  destruct (render_lead v) as (c & s & E & _). exists c, s. split; [done|].
  rewrite E in H. simpl in H. intros ->. by rewrite Ascii.eqb_refl in H.
Qed.

Lemma lead_agree v w c : lead v c → lead w c →
  match v, w with
  | null_value, null_value | unsigned_integer _, unsigned_integer _
  | string_value _, string_value _ | array _, array _ | object _, object _ => True
  | boolean a, boolean b => a = b
  | _, _ => False
  end.
Proof.
  destruct v as [|[]|n|s|l|m], w as [|[]|n'|s'|l'|m']; simpl; unfold is_digit, in_range;
    intros; bool_hyps; subst; try done; try lia.
Qed.

Lemma render_prefix_free v : prefix_free render v.
Proof.
  induction v as [|b|n|s|items IH|members IH] using value_induction; intros w r r' Hr Hr' E;
  (match type of E with render ?v +:+ _ = _ =>
    destruct (render_lead v) as (c & t & Ec & Hc);
    destruct (render_lead w) as (d & u & Ed & Hd);
    assert (c = d) as <- by (rewrite Ec, Ed in E; by injection E);
    pose proof (lead_agree _ _ _ Hc Hd) as Ha
  end); clear Ec Ed Hc Hd; destruct w as [|b'|n'|s'|items'|members']; try done;
    cbn [render] in E.
  - by injection E.
  - subst. split; [done|]. by apply append_inv_head in E.
  - apply number_text_inj in E as [E ->]; try done; try apply to_string_digits.
    by rewrite (to_string_inj _ _ E).
  - by apply quoted_inj in E as [-> ->].
  - cbn [String.append] in E. injection E as E. rewrite !append_assoc in E.
    apply (commas_inj render) in E as [-> ->]; try done; [by left|].
    intros y. apply render_not_close. by left.
  - cbn [String.append] in E. injection E as E. rewrite !append_assoc in E.
    apply (commas_inj render_member) in E as [-> ->]; try done; [by right| |].
    + intros y. by eexists _, _.
    + eapply Forall_impl; [exact IH|]. intros [k x] Hx [k' x'] q q' Hq Hq' E'.
      unfold render_member in E'. cbn [fst snd] in *. rewrite !append_assoc in E'.
      apply quoted_inj in E' as [-> E']. cbn [String.append] in E'. injection E' as E'.
      by apply Hx in E' as [-> ->].
Qed.

Lemma canonical_injective v w : canonical v = canonical w → v = w.
Proof.
  rewrite !canonical_render. intros E.
  apply (render_prefix_free v w "" "" eq_refl eq_refl). by rewrite !append_nil_r.
Qed.

Lemma equal_values_eq v w : equal_values v w = true ↔ v = w.
Proof.
  revert w. induction v as [|b|n|s|items IH|members IH] using value_induction;
    intros [|b'|n'|s'|items'|members']; simpl; try done.
  - rewrite Bool.eqb_true_iff. split; [by intros ->|by intros [= ->]].
  - rewrite N.eqb_eq. split; [by intros ->|by intros [= ->]].
  - rewrite String.eqb_eq. split; [by intros ->|by intros [= ->]].
  - transitivity (items = items'); [|split; [by intros ->|by intros [= ->]]].
    revert items'. induction IH as [|x items Hx _ IH]; intros [|y items']; simpl; try done.
    specialize (Hx y). destruct (equal_values x y).
    + rewrite IH. destruct Hx as [Hx _]. specialize (Hx eq_refl).
      split; [intros ->; congruence|by intros [= _ ->]].
    + rewrite andb_false_r. split; [done|]. intros [= -> _]. by destruct Hx as [_ Hx]; rewrite Hx.
  - transitivity (members = members'); [|split; [by intros ->|by intros [= ->]]].
    revert members'.
    induction IH as [|[k x] members Hx _ IH]; intros [|[k' y] members']; simpl; try done.
    specialize (Hx y). simpl in Hx. destruct (equal_values x y), (String.eqb_spec k k') as [->|Hk]; simpl;
      rewrite ?andb_false_r.
    + rewrite IH. destruct Hx as [Hx _]. specialize (Hx eq_refl).
      split; [intros ->; congruence|by intros [= _ ->]].
    + split; [done|]. intros [=]; congruence.
    + split; [done|]. intros [= -> _]. by destruct Hx as [_ Hx]; rewrite Hx.
    + split; [done|]. intros [=]; congruence.
Qed.

(** ** Properties of the parser and the encoder *)

Lemma parse_value_fuel text L :
  match parse_value L (parse_fuel (skip_space text)) 0 (skip_space text) 0 with
  | Ok (v, rest, n) => wf v ∧ fits L 0 v = true ∧ n = count v ∧ n <= max_values L ∧
      (String.length (render v) + String.length rest <= String.length text)%nat
  | Throw e => e ≠ out_of_fuel
  end.
Proof.
  pose proof (proj1 (parse_all_sound L (parse_fuel (skip_space text))) 0 (skip_space text) 0) as H.
  pose proof (skip_space_length text). unfold parse_fuel in *.
  destruct (parse_value _ _ _ _ _) as [[[v rest] n]|e]; [|by apply H; lia].
  destruct H as (?&?&?&?&?). repeat split; try done; lia.
Qed.

Lemma parse_accepted text L v : parse text L = Ok v →
  wf v ∧ fits L 0 v = true ∧ count v <= max_values L ∧
  size (canonical v) <= size text ∧ size text <= max_bytes L.
Proof.
  unfold parse. destruct (N.ltb_spec (max_bytes L) (size text)) as [|Hle]; [done|].
  pose proof (parse_value_fuel text L) as H.
  destruct (parse_value _ _ _ _ _) as [[[w rest] n]|e]; [|done]. cbn [mbind result_bind].
  destruct (skip_space rest); [|done]. intros [= ->].
  destruct H as (?&?&->&?&?). rewrite canonical_render. unfold size. repeat split; try done; lia.
Qed.

Lemma parse_fuelled text L : parse text L ≠ Throw out_of_fuel.
Proof.
  unfold parse. destruct (max_bytes L <? size text); [done|].
  pose proof (parse_value_fuel text L) as H.
  destruct (parse_value _ _ _ _ _) as [[[v rest] n]|e]; cbn [mbind result_bind].
  - by destruct (skip_space rest).
  - congruence.
Qed.

(** Parsing any byte sequence under any limits ends with a value or a C++
    exception: the fuel of the model, twice the length of the text, is never
    exhausted, so the recursive descent of [Parser] terminates. *)
Theorem parse_terminates text L : parse text L ≠ Throw out_of_fuel.
Proof. apply parse_fuelled. Qed.

(** C35 Whatever [parse] accepts is a well-formed value within every limit: at
    most [max_values] values, every nesting depth at most [max_depth], every
    string and key at most [max_string_bytes] long and valid UTF-8; and its
    canonical text is never longer than the accepted text. *)
Theorem parse_sound text L v : parse text L = Ok v →
  wf v ∧ fits L 0 v = true ∧ count v <= max_values L ∧ size (canonical v) <= size text.
Proof. intros (?&?&?&?&_)%parse_accepted. done. Qed.

(** C36 Reading canonical text back: for every well-formed value, [parse] of its
    canonical text returns that value exactly when the text is within the byte
    limit and the value within the others, and throws otherwise. *)
Theorem parse_canonical L v : wf v →
  if (size (canonical v) <=? max_bytes L) && fits L 0 v && (count v <=? max_values L)
  then parse (canonical v) L = Ok v
  else ∃ what, parse (canonical v) L = Throw (runtime_error what).
Proof.
  intros Hwf. pose proof (parse_canonical_outcome L v Hwf) as H.
  rewrite andb_assoc in H. destruct (_ && _); exact H.
Qed.

(** Canonical text is a normal form: an accepted text and the canonical text
    of its value parse to the same value under the same limits. *)
Theorem parse_normal_form text L v : parse text L = Ok v → parse (canonical v) L = Ok v.
Proof.
  intros (Hwf & Hfit & Hcount & Hs & Hb)%parse_accepted.
  pose proof (parse_canonical_outcome L v Hwf) as H.
  rewrite Hfit, (proj2 (N.leb_le _ _) Hcount) in H.
  assert (size (canonical v) <= max_bytes L) as Hc by lia.
  by rewrite (proj2 (N.leb_le _ _) Hc) in H.
Qed.

(** Two values have the same canonical text exactly when [equal_values]
    accepts them: comparing canonical bytes, as the record readers do, and
    comparing values decide the same relation. *)
Theorem canonical_decides_equality v w :
  equal_values v w = String.eqb (canonical v) (canonical w).
Proof.
  apply Bool.eq_true_iff_eq. rewrite equal_values_eq, String.eqb_eq.
  split; [by intros ->|apply canonical_injective].
Qed.

Definition sample_text : string := lit " {'k': [1, 'a\n'], 'b' :true} ".
Definition sample_value : value :=
  object [("b", boolean true);
    ("k", array [unsigned_integer 1; string_value (String (ascii_of_N 97) (String (ascii_of_N 10) ""))])].

Lemma parse_sound_witness :
  parse sample_text default_limits = Ok sample_value ∧
  (wf sample_value ∧ fits default_limits 0 sample_value = true ∧
   count sample_value <= max_values default_limits ∧
   size (canonical sample_value) <= size sample_text).
Proof.
  assert (parse sample_text default_limits = Ok sample_value) as H by (vm_compute; reflexivity).
  split; [exact H|apply (parse_sound _ _ _ H)].
Defined.

Lemma parse_canonical_witness :
  wf sample_value ∧ parse (canonical sample_value) default_limits = Ok sample_value.
Proof.
  assert (wf sample_value) as H.
  { apply (parse_accepted sample_text default_limits). vm_compute. reflexivity. }
  split; [exact H|exact (parse_canonical default_limits sample_value H)].
Defined.

Lemma parse_normal_form_witness :
  parse (canonical sample_value) default_limits = Ok sample_value.
Proof. apply (parse_normal_form sample_text default_limits). vm_compute. reflexivity. Defined.

End JsonProps.

(** The exceptions of the pure decoders are C++ exceptions: they are neither the
    end of the process nor exhausted fuel. *)

Module ParseErrors.
Import Json JsonFacts JsonParse JsonProps Effects.

(** Decoding does not end the process. *)
Definition alive {A} (r : result A) : Prop := r ≠ Throw killed.

Lemma alive_ok {A} (a : A) : alive (Ok a).
Proof. done. Qed.

Lemma alive_throw {A} w : alive (throw (A := A) w).
Proof. done. Qed.

Lemma alive_fuel {A} : alive (A := A) (Throw out_of_fuel).
Proof. done. Qed.

Lemma alive_bind {A B} (r : result A) (f : A → result B) : alive r → (∀ a, alive (f a)) → alive (r ≫= f).
Proof. unfold alive. destruct r as [a|e]; cbn [mbind result_bind]; [auto|congruence]. Qed.

Lemma alive_fold {A B} (f : B → A → result B) l : (∀ b a, alive (f b a)) → ∀ b, alive (fold_result f b l).
Proof. intros H. induction l as [|x l IH]; intros b; [done|]. cbn [fold_result]. by apply alive_bind. Qed.

Create HintDb alive.
#[export] Hint Resolve alive_ok alive_throw alive_fuel : alive.

Ltac alive_step :=
  match goal with
  | |- alive (_ ≫= _) => apply alive_bind; [|intros ?]
  | |- alive (if ?c then _ else _) => destruct c
  | |- alive (match ?x with _ => _ end) => destruct x
  | |- alive (let '_ := ?x in _) => destruct x
  end.
Ltac alive_auto := repeat (solve [eauto with alive] || alive_step).

Lemma alive_number_loop text : ∀ n, alive (number_loop n text).
Proof. induction text as [|c text IH]; intros n; cbn [number_loop]; cbv zeta; alive_auto. Qed.
#[export] Hint Resolve alive_number_loop : alive.

Lemma alive_number text : alive (number text).
Proof. unfold number. alive_auto. Qed.

Lemma alive_hex c : alive (hex_digit c).
Proof. unfold hex_digit. alive_auto. Qed.
#[export] Hint Resolve alive_number alive_hex : alive.

Lemma alive_unicode a b c d : alive (unicode_escape a b c d).
Proof. apply alive_fold. intros. alive_auto. Qed.
#[export] Hint Resolve alive_unicode : alive.

(** The loop consumes up to twelve bytes at a time. *)
Lemma alive_string_loop L n : ∀ text r, (String.length text < n)%nat → alive (string_loop L r text).
Proof.
  induction n as [|n IH]; [lia|]. intros [|c text] r Hn; cbn [string_loop]; [apply alive_throw|].
  cbn [String.length] in Hn.
  repeat (solve [eauto with alive] || (apply IH; cbn [String.length] in *; lia) || alive_step).
Qed.

Lemma alive_string L text : alive (string_ L text).
Proof. eapply alive_string_loop. apply Nat.lt_succ_diag_r. Qed.

Lemma alive_require c text : alive (require c text).
Proof. unfold require. alive_auto. Qed.

Lemma alive_literal e text : alive (literal e text).
Proof. unfold literal. alive_auto. Qed.
#[export] Hint Resolve alive_string alive_require alive_literal : alive.

Lemma alive_values L fuel : (∀ d t n, alive (parse_value L fuel d t n)) ∧
  (∀ d l t n, alive (parse_array L fuel d l t n)) ∧ (∀ d l t n, alive (parse_object L fuel d l t n)).
Proof.
  induction fuel as [|fuel (HV & HA & HO)]; [by split_and!|].
  split_and!; intros; cbn [parse_value parse_array parse_object]; cbv zeta;
    repeat (solve [eauto with alive] || alive_step).
Qed.

Lemma parse_alive text L : alive (parse text L).
Proof.
  unfold parse. cbv zeta. pose proof (alive_values L (parse_fuel (skip_space text))) as (H & _). alive_auto.
Qed.

(** An exception a handler sees. *)
Definition throws_catchable {A} (r : result A) : Prop := ∀ e, r = Throw e → catchable e = true.

Lemma catchable_ok {A} (a : A) : throws_catchable (Ok a).
Proof. by intros e [=]. Qed.

Lemma catchable_throw {A} w : throws_catchable (throw (A := A) w).
Proof. by intros e [= <-]. Qed.

Lemma catchable_throw_if c w : throws_catchable (throw_if c w).
Proof. destruct c; [apply catchable_throw|apply catchable_ok]. Qed.

Lemma catchable_bind {A B} (r : result A) (f : A → result B) :
  throws_catchable r → (∀ a, throws_catchable (f a)) → throws_catchable (r ≫= f).
Proof. intros Hr Hf. destruct r as [a|e]; [apply Hf|]. cbn [mbind result_bind]. intros e' [= <-]. by apply Hr. Qed.

Lemma catchable_or_else a b : throws_catchable a → throws_catchable b → throws_catchable (or_else a b).
Proof. intros Ha Hb. destruct a as [[]|e]; cbn; [apply catchable_ok|done|]. intros e' [= <-]. by apply Ha. Qed.

Lemma catchable_parse text L : throws_catchable (parse text L).
Proof.
  intros e E. pose proof (parse_alive text L) as Ha. pose proof (parse_fuelled text L) as Hf. unfold alive in Ha.
  rewrite E in Ha, Hf. by destruct e.
Qed.

Lemma catchable_at v k : throws_catchable (at_ v k).
Proof.
  unfold at_. apply catchable_bind; [by destruct v; (apply catchable_ok || apply catchable_throw)|].
  intros m. destruct (StdMap.find k m); [apply catchable_ok|apply catchable_throw].
Qed.

Lemma catchable_as_string v : throws_catchable (as_string v).
Proof. destruct v; (apply catchable_ok || apply catchable_throw). Qed.

Lemma catchable_as_unsigned v : throws_catchable (as_unsigned v).
Proof. destruct v; (apply catchable_ok || apply catchable_throw). Qed.

Lemma catchable_as_object v : throws_catchable (as_object v).
Proof. destruct v; (apply catchable_ok || apply catchable_throw). Qed.

Lemma catchable_at_string v k : throws_catchable (at_string v k).
Proof. apply catchable_bind; [apply catchable_at|apply catchable_as_string]. Qed.

Lemma catchable_differs v k s : throws_catchable (differs v k s).
Proof. apply catchable_bind; [apply catchable_at_string|intros; apply catchable_ok]. Qed.

Lemma catchable_digest v : throws_catchable (sha256_canonical v).
Proof. rewrite sha256_canonical_eq. apply catchable_ok. Qed.

Create HintDb catch.
#[export] Hint Resolve catchable_ok catchable_throw catchable_throw_if catchable_parse catchable_at catchable_as_string
  catchable_as_unsigned catchable_as_object catchable_at_string catchable_differs catchable_digest : catch.
Ltac catch_auto :=
  repeat (solve [eauto with catch] || (apply catchable_bind; [|intros ?]) || apply catchable_or_else ||
    match goal with
    | |- throws_catchable (if ?c then _ else _) => destruct c
    | |- throws_catchable (match ?x with _ => _ end) => destruct x
    end).

End ParseErrors.
