(* ===== verification/JsonBudget.v ===== *)
(** [class CanonicalBudget] of [runtime/base/usk_json.cpp]: the dry run that
    decides, without encoding anything, whether the canonical encoding of an
    object of borrowed fields would be accepted by the parser.  The header
    promises "exactly the acceptance of parse(canonical_object(fields), limits)"
    and the exact encoded size; both are proved here.  The variant with a
    replaced array, which identifies the array by its address, is left out. *)

From Stdlib Require Import Ascii String NArith ZArith Lia Sorted.
From stdpp Require Import base list sets strings.
From S2P Require Import Prelude Utf8 Sha256 StdMap Json JsonFacts JsonParse.

Module JsonBudget.
Import Utf8 Json JsonFacts JsonParse.

(** ** The state and its charges *)

Record CanonicalBudget := mk_budget { bytes_ : N; values_ : N }.

Definition charge (limits : ParseLimits) (count : N) (b : CanonicalBudget)
    : result CanonicalBudget :=
  if max_bytes limits - bytes_ b <? count then throw "JSON input exceeds byte budget"
  else Ok (mk_budget (bytes_ b + count) (values_ b)).

Definition count_value (limits : ParseLimits) (depth : N) (b : CanonicalBudget)
    : result CanonicalBudget :=
  if max_depth limits <? depth then throw "JSON exceeds depth budget"
  else if values_ b =? max_values limits then throw "JSON exceeds value budget"
  else Ok (mk_budget (bytes_ b) (values_ b + 1)).

(** The [switch (ch)] of [string]. *)
Definition escaped_size (ch : ascii) : N :=
  let c := code ch in
  if (c =? 34) || (c =? 92) || (c =? 8) || (c =? 12) || (c =? 10) || (c =? 13) || (c =? 9)
  then 2 else if c <? 0x20 then 6 else 1.

Fixpoint charge_bytes (limits : ParseLimits) (text : string) (b : CanonicalBudget)
    : result CanonicalBudget :=
  match text with
  | EmptyString => Ok b
  | String ch text => b ← charge limits (escaped_size ch) b; charge_bytes limits text b
  end.

Definition budget_string (limits : ParseLimits) (text : string) (b : CanonicalBudget)
    : result CanonicalBudget :=
  if max_string_bytes limits <? size text then throw "JSON string exceeds budget"
  else if negb (valid_utf8 text) then throw "JSON string is not valid UTF-8"
  else b ← charge limits 2 b; charge_bytes limits text b.

(** [while (number >= 10)]: a 64-bit number has at most twenty digits. *)
Fixpoint digit_loop (fuel : nat) (number digits : N) : N :=
  match fuel with
  | O => digits
  | S fuel => if 10 <=? number then digit_loop fuel (number / 10) (digits + 1) else digits
  end.

Definition separator (limits : ParseLimits) (first : bool) (b : CanonicalBudget)
    : result CanonicalBudget :=
  if first then Ok b else charge limits 1 b.

(** [child], [member] and the loops of [value], over the recursive call. *)
Section Containers.
Variable budget_value : value → N → CanonicalBudget → result CanonicalBudget.
Variable limits : ParseLimits.

Definition child (item : value) (depth : N) (b : CanonicalBudget) : result CanonicalBudget :=
  if max_depth limits <=? depth then throw "JSON exceeds depth budget"
  else budget_value item (depth + 1) b.

(** The budget afterwards and the encoded size of the item. *)
Definition member (key : string) (item : value) (depth : N) (first : bool)
    (b : CanonicalBudget) : result (CanonicalBudget * N) :=
  b ← separator limits first b;
  b ← budget_string limits key b;
  b ← charge limits 1 b;
  let before := bytes_ b in
  b ← child item depth b;
  Ok (b, bytes_ b - before).

Fixpoint budget_items (items : list value) (depth : N) (first : bool) (b : CanonicalBudget)
    : result CanonicalBudget :=
  match items with
  | [] => Ok b
  | entry :: items =>
    b ← separator limits first b;
    b ← child entry depth b;
    budget_items items depth false b
  end.

Fixpoint budget_members (members : list (string * value)) (depth : N) (first : bool)
    (b : CanonicalBudget) : result CanonicalBudget :=
  match members with
  | [] => Ok b
  | (key, item) :: members =>
    '(b, _) ← member key item depth first b;
    budget_members members depth false b
  end.
End Containers.

Fixpoint budget_value (limits : ParseLimits) (item : value) (depth : N) (b : CanonicalBudget)
    {struct item} : result CanonicalBudget :=
  b ← count_value limits depth b;
  match item with
  | null_value => charge limits 4 b
  | boolean flag => charge limits (if flag then 4 else 5) b
  | unsigned_integer number => charge limits (digit_loop 20 number 1) b
  | string_value s => budget_string limits s b
  | array items =>
    b ← charge limits 2 b; budget_items (budget_value limits) limits items depth true b
  | object members =>
    b ← charge limits 2 b; budget_members (budget_value limits) limits members depth true b
  end.

(** The loop of [object_member]: [found] is the selected member's size. *)
Fixpoint root_members (limits : ParseLimits) (selected : option string)
    (fields : list (string * value)) (first : bool) (found : option N) (b : CanonicalBudget)
    : result (CanonicalBudget * option N) :=
  match fields with
  | [] => Ok (b, found)
  | (key, item) :: fields =>
    '(b, encoded) ← member (budget_value limits) limits key item 0 first b;
    let in_selected := match selected with Some s => String.eqb key s | None => false end in
    root_members limits selected fields false (if in_selected then Some encoded else found) b
  end.

Definition object_member (limits : ParseLimits) (fields : list (string * value))
    (selected : option string) : result (CanonicalBudget * N) :=
  b ← count_value limits 0 (mk_budget 0 0);
  b ← charge limits 2 b;
  '(b, found) ← root_members limits selected fields true None b;
  match selected, found with
  | Some _, None => throw "JSON selected object member is absent"
  | _, Some n => Ok (b, n)
  | _, None => Ok (b, 0)
  end.

Definition require_canonical_object_encoded_size (fields : list (string * value))
    (limits : ParseLimits) : result N :=
  '(b, _) ← object_member limits fields None; Ok (bytes_ b).

Definition require_canonical_object_parse_limits (fields : list (string * value))
    (limits : ParseLimits) : result unit :=
  '(b, _) ← object_member limits fields None; Ok tt.

Definition require_canonical_object_member_parse_limits (fields : list (string * value))
    (limits : ParseLimits) (selected : string) : result N :=
  '(_, n) ← object_member limits fields (Some selected); Ok n.

(** ** Costs

    An action costs [nb] bytes and [nv] values under the condition [ok]: from
    a budget within the limits it succeeds exactly when [ok] holds and both
    charges still fit, and throws otherwise. *)

Definition within (L : ParseLimits) (b : CanonicalBudget) : Prop :=
  bytes_ b <= max_bytes L ∧ values_ b <= max_values L.

Definition affordable (L : ParseLimits) (ok : bool) (nb nv : N) (b : CanonicalBudget) : bool :=
  ok && ((bytes_ b + nb <=? max_bytes L) && (values_ b + nv <=? max_values L)).

Definition costs (L : ParseLimits) (ok : bool) (nb nv : N)
    (f : CanonicalBudget → result CanonicalBudget) : Prop := ∀ b, within L b →
  outcome (affordable L ok nb nv b) (mk_budget (bytes_ b + nb) (values_ b + nv)) (f b).

Lemma affordable_within L ok nb nv b : affordable L ok nb nv b = true →
  within L (mk_budget (bytes_ b + nb) (values_ b + nv)).
Proof. unfold affordable. intros. bool_hyps. by split. Qed.

Lemma affordable_seq L ok ok' nb nb' nv nv' b :
  affordable L (ok && ok') (nb + nb') (nv + nv') b =
  affordable L ok nb nv b &&
    affordable L ok' nb' nv' (mk_budget (bytes_ b + nb) (values_ b + nv)).
Proof.
  unfold affordable. simpl. apply Bool.eq_true_iff_eq.
  rewrite !andb_true_iff, !N.leb_le. intuition lia.
Qed.

Lemma costs_bind {A} L ok nb nv f b (r : A) ok' nb' nv' (k : CanonicalBudget → result A) :
  within L b → costs L ok nb nv f →
  (within L (mk_budget (bytes_ b + nb) (values_ b + nv)) →
   outcome (affordable L ok' nb' nv' (mk_budget (bytes_ b + nb) (values_ b + nv))) r
     (k (mk_budget (bytes_ b + nb) (values_ b + nv)))) →
  outcome (affordable L (ok && ok') (nb + nb') (nv + nv') b) r (f b ≫= k).
Proof.
  intros Hb Hf Hk. rewrite affordable_seq. apply (outcome_bind _ _ _ _ _ _ (Hf b Hb)).
  intros Ha. by apply Hk, (affordable_within _ ok).
Qed.

Lemma costs_seq L ok ok' nb nb' nv nv' f g :
  costs L ok nb nv f → costs L ok' nb' nv' g →
  costs L (ok && ok') (nb + nb') (nv + nv') (fun b => f b ≫= g).
Proof.
  intros Hf Hg b Hb. eapply costs_bind; [done|done|]. intros Hw.
  specialize (Hg _ Hw). simpl in Hg. by rewrite !N.add_assoc.
Qed.

Lemma costs_ext L ok ok' nb nb' nv nv' f :
  costs L ok nb nv f → ok = ok' → nb = nb' → nv = nv' → costs L ok' nb' nv' f.
Proof. by intros H -> -> ->. Qed.

Lemma costs_nothing L : costs L true 0 0 Ok.
Proof.
  intros [x y] [Hx Hy]. unfold affordable. simpl in *. rewrite !N.add_0_r.
  by rewrite (proj2 (N.leb_le _ _) Hx), (proj2 (N.leb_le _ _) Hy).
Qed.

Lemma costs_charge L n : costs L true n 0 (charge L n).
Proof.
  intros [x y] [Hx Hy]. unfold affordable, charge. simpl in *. rewrite N.add_0_r.
  rewrite (proj2 (N.leb_le _ _) Hy), andb_true_r.
  destruct (N.ltb_spec (max_bytes L - x) n), (N.leb_spec (x + n) (max_bytes L)); try lia;
    try done; by eexists.
Qed.

Lemma costs_count L d : costs L (d <=? max_depth L) 0 1 (count_value L d).
Proof.
  intros [x y] [Hx Hy]. unfold affordable, count_value. simpl in *. rewrite N.add_0_r.
  rewrite N.ltb_antisym. destruct (d <=? max_depth L); simpl; [|by eexists].
  rewrite (proj2 (N.leb_le _ _) Hx). simpl.
  destruct (N.eqb_spec y (max_values L)), (N.leb_spec (y + 1) (max_values L)); try lia;
    try done; by eexists.
Qed.

Lemma esc_char_size c : size (esc_char c) = escaped_size c.
Proof. by_bytes c. Qed.

Lemma costs_bytes L s : costs L true (size (esc s)) 0 (charge_bytes L s).
Proof.
  induction s as [|c s IH]; [apply costs_nothing|].
  eapply costs_ext; [apply (costs_seq _ _ _ _ _ _ _ _ _ (costs_charge L (escaped_size c)) IH)|..];
    [done| |done]. cbn [esc]. by rewrite size_append, esc_char_size.
Qed.

Lemma costs_guard L (c : bool) ok nb nv w f :
  costs L ok nb nv f →
  costs L (negb c && ok) nb nv (fun b => if c then throw w else f b).
Proof. intros Hf b Hb. destruct c; [apply outcome_throw|by apply Hf]. Qed.

Lemma costs_string L s : costs L (string_ok L s) (size (quoted s)) 0 (budget_string L s).
Proof.
  unfold budget_string, string_ok. eapply costs_ext.
  - apply costs_guard, costs_guard, (costs_seq _ _ _ _ _ _ _ _ _ (costs_charge L 2) (costs_bytes L s)).
  - rewrite N.leb_antisym, negb_involutive, andb_true_r. done.
  - unfold quoted. rewrite size_cons, size_append, size_cons, size_nil. lia.
  - done.
Qed.

Lemma costs_separator L (first : bool) :
  costs L true (if first then 0 else 1) 0 (separator L first).
Proof. destruct first; [apply costs_nothing|apply costs_charge]. Qed.

(** A number below [10 ^ 20] is counted completely in twenty rounds. *)
Lemma digit_loop_count fuel n acc k :
  n < 10 ^ N.of_nat fuel →
  size (decimal_digits (S (N.to_nat (N.log2 n))) n acc) + k = size acc + digit_loop fuel n (k + 1).
Proof.
  revert n acc k. induction fuel as [|fuel IH]; intros n acc k Hn.
  - change (10 ^ N.of_nat 0) with 1 in Hn. assert (n = 0) as -> by lia. simpl.
    rewrite size_cons. lia.
  - rewrite Nat2N.inj_succ, N.pow_succ_r' in Hn. cbn [decimal_digits digit_loop].
    rewrite N.ltb_antisym. destruct (N.leb_spec 10 n) as [H|H]; simpl;
      [|rewrite size_cons; lia].
    pose proof (decimal_fuel_div n H) as Hf.
    assert (n / 10 < 10 ^ N.of_nat fuel) as Hd by (apply N.Div0.div_lt_upper_bound; lia).
    specialize (IH (n / 10) (String (digit_char (n mod 10)) acc) (k + 1) Hd).
    rewrite size_cons in IH.
    rewrite (decimal_digits_fuel _ (S (N.to_nat (N.log2 (n / 10))))) by lia. lia.
Qed.

Lemma digit_loop_size n : n <= uint64_max → digit_loop 20 n 1 = size (to_string n).
Proof.
  intros Hn. assert (n < 10 ^ N.of_nat 20) as H.
  { change (10 ^ N.of_nat 20) with 100000000000000000000. unfold uint64_max in Hn. lia. }
  pose proof (digit_loop_count 20 n "" 0 H) as E. rewrite size_nil in E.
  rewrite N.add_0_r, !N.add_0_l in E. by rewrite <- E.
Qed.

(** ** Costs of values *)

Definition value_costs (L : ParseLimits) (v : value) : Prop := ∀ d,
  costs L (fits L d v) (size (render v)) (count v) (budget_value L v d).

Lemma costs_child L v d : value_costs L v →
  costs L (fits L (d + 1) v) (size (render v)) (count v) (child (budget_value L) L v d).
Proof.
  intros Hv. eapply costs_ext; [apply costs_guard, (Hv (d + 1))| |done|done].
  destruct (fits L (d + 1) v) eqn:E; [|apply andb_false_r].
  apply fits_depth in E. rewrite andb_true_r. apply negb_true_iff, N.leb_gt. lia.
Qed.

(** The bytes of the entries of a container whose separators start at
    [first]: each entry but the first is preceded by a comma. *)
Definition entries_size (first : bool) (l : list string) : N :=
  size (commas l) + match l with [] => 0 | _ => if first then 0 else 1 end.

Lemma entries_size_cons first x l :
  entries_size first (x :: l) = (if first then 0 else 1) + size x + entries_size false l.
Proof.
  unfold entries_size. destruct l as [|y l]; [simpl; rewrite size_nil; lia|].
  rewrite commas_cons, !size_append by done. change (size ",") with 1. lia.
Qed.

Lemma costs_items L items d first : Forall (value_costs L) items →
  costs L (forallb (fits L (d + 1)) items) (entries_size first (map render items)) (counts items)
    (budget_items (budget_value L) L items d first).
Proof.
  intros H. revert first. induction H as [|x items Hx _ IH]; intros first.
  { exact (costs_nothing L). }
  eapply costs_ext.
  - exact (costs_seq _ _ _ _ _ _ _ _ _ (costs_separator L first)
      (costs_seq _ _ _ _ _ _ _ _ _ (costs_child L x d Hx) (IH false))).
  - done.
  - cbn [map]. rewrite entries_size_cons. lia.
  - done.
Qed.

(** A member: the budget afterwards and the size of the item alone. *)
Lemma member_outcome L k v d (first : bool) b : value_costs L v → within L b →
  let nb := (if first then 0 else 1) + size (render_member (k, v)) in
  outcome (affordable L (string_ok L k && fits L (d + 1) v) nb (count v) b)
    (mk_budget (bytes_ b + nb) (values_ b + count v), size (render v))
    (member (budget_value L) L k v d first b).
Proof.
  intros Hv Hb nb. unfold member.
  assert (nb = (if first then 0 else 1) + (size (quoted k) + (1 + (size (render v) + 0)))) as ->.
  { unfold nb, render_member. rewrite !size_append. change (size ":") with 1. simpl. lia. }
  replace (string_ok L k && fits L (d + 1) v)
    with (true && (string_ok L k && (true && (fits L (d + 1) v && true))))
    by (by rewrite andb_true_r).
  replace (count v) with (0 + (0 + (0 + (count v + 0)))) by lia.
  eapply costs_bind; [done|apply costs_separator|]. intros H1.
  eapply costs_bind; [done|apply costs_string|]. intros H2.
  eapply costs_bind; [done|apply costs_charge|]. intros H3.
  eapply costs_bind; [done|apply costs_child, Hv|]. intros H4. simpl in *.
  unfold affordable. simpl. destruct H4 as [H4 H4']. simpl in *.
  rewrite !N.add_0_r in *. rewrite (proj2 (N.leb_le _ _) H4), (proj2 (N.leb_le _ _) H4'). simpl.
  f_equal. f_equal; [f_equal; lia|lia].
Qed.

Definition members_ok (L : ParseLimits) (d : N) (members : list (string * value)) : bool :=
  forallb (fun m => string_ok L (fst m) && fits L (d + 1) (snd m)) members.

(** The size of the last selected member, or what was found before. *)
Fixpoint selected_size (selected : option string) (fields : list (string * value))
    (found : option N) : option N :=
  match fields with
  | [] => found
  | (k, v) :: fields => selected_size selected fields
      (if match selected with Some s => String.eqb k s | None => false end
       then Some (size (render v)) else found)
  end.

Lemma root_members_outcome L selected fields first found b :
  Forall (fun m => value_costs L (snd m)) fields → within L b →
  let nb := entries_size first (map render_member fields) in
  outcome (affordable L (members_ok L 0 fields) nb (counts_members fields) b)
    (mk_budget (bytes_ b + nb) (values_ b + counts_members fields),
     selected_size selected fields found)
    (root_members L selected fields first found b).
Proof.
  intros H. revert first found b.
  induction H as [|[k v] fields Hv _ IH]; intros first found b Hb nb.
  { pose proof (costs_nothing L b Hb) as E. destruct (affordable _ _ _ _ _); simpl in *.
    - f_equal. injection E as E. f_equal. rewrite E at 1. done.
    - by destruct E. }
  unfold nb. cbn [map]. rewrite entries_size_cons.
  cbn [members_ok forallb counts_members fold_right fst snd root_members selected_size].
  rewrite affordable_seq.
  eapply outcome_bind; [apply (member_outcome L k v 0 first b Hv Hb)|].
  intros Ha. apply affordable_within in Ha.
  specialize (IH false (if match selected with Some s => String.eqb k s | None => false end
     then Some (size (render v)) else found) _ Ha). simpl in IH.
  rewrite !N.add_assoc in *. exact IH.
Qed.

Lemma budget_members_outcome L members d first :
  Forall (fun m => value_costs L (snd m)) members →
  costs L (members_ok L d members) (entries_size first (map render_member members))
    (counts_members members) (budget_members (budget_value L) L members d first).
Proof.
  intros H. revert first.
  induction H as [|[k v] members Hv _ IH]; intros first b Hb; [by apply costs_nothing|].
  cbn [map]. rewrite entries_size_cons.
  cbn [members_ok forallb counts_members fold_right fst snd budget_members].
  rewrite affordable_seq.
  eapply outcome_bind; [apply (member_outcome L k v d first b Hv Hb)|].
  intros Ha. apply affordable_within in Ha.
  specialize (IH false _ Ha). simpl in IH. rewrite !N.add_assoc in *. exact IH.
Qed.

Lemma costs_counted L v d ok nb nv f :
  costs L ok nb nv f → (d <=? max_depth L) && ok = fits L d v →
  size (render v) = nb → count v = 1 + nv →
  costs L (fits L d v) (size (render v)) (count v) (fun b => count_value L d b ≫= f).
Proof.
  intros Hf Hok Hb Hv. rewrite <- Hok, Hb, Hv.
  exact (costs_seq _ _ _ _ _ _ _ _ _ (costs_count L d) Hf).
Qed.

Lemma entries_size_true l : entries_size true l = size (commas l).
Proof. unfold entries_size. destruct l; lia. Qed.

Lemma wf_value_costs L v : wf v → value_costs L v.
Proof.
  induction v as [|x|n|s|items IH|members IH] using value_induction; intros Hwf d.
  - exact (costs_counted L null_value d _ _ _ _ (costs_charge L 4) eq_refl eq_refl eq_refl).
  - refine (costs_counted L (boolean x) d _ _ _ _ (costs_charge L _) eq_refl _ eq_refl).
    by destruct x.
  - refine (costs_counted L (unsigned_integer n) d _ _ _ _ (costs_charge L _) eq_refl _ eq_refl).
    symmetry. by apply digit_loop_size.
  - exact (costs_counted L (string_value s) d _ _ _ _ (costs_string L s) eq_refl eq_refl eq_refl).
  - apply wf_array in Hwf. apply (Forall_mp _ _ _ IH) in Hwf.
    refine (costs_counted L (array items) d _ _ _ _ (costs_seq _ _ _ _ _ _ _ _ _ (costs_charge L 2)
      (costs_items L items d true Hwf)) eq_refl _ eq_refl).
    cbn [render]. rewrite entries_size_true, !size_append. change (size "[") with 1.
    change (size "]") with 1. lia.
  - apply wf_object in Hwf as [_ Hwf]. apply (Forall_mp _ _ _ IH) in Hwf.
    refine (costs_counted L (object members) d _ _ _ _ (costs_seq _ _ _ _ _ _ _ _ _
      (costs_charge L 2) (budget_members_outcome L members d true Hwf)) eq_refl _ eq_refl).
    cbn [render]. change (map (λ m, _) members) with (map render_member members).
    rewrite entries_size_true, !size_append. change (size "{") with 1.
    change (size "}") with 1. lia.
Qed.

(** ** The entry points *)

Definition accepts (L : ParseLimits) (v : value) : bool :=
  (size (canonical v) <=? max_bytes L) && fits L 0 v && (count v <=? max_values L).

Lemma accepts_parse L v : wf v → outcome (accepts L v) v (parse (canonical v) L).
Proof. intros H. unfold accepts. rewrite <- andb_assoc. by apply parse_canonical_outcome. Qed.

Lemma canonical_object_canonical fields : canonical_object fields = canonical (object fields).
Proof. by rewrite canonical_object_render, canonical_render. Qed.

Lemma affordable_zero L ok nb nv :
  affordable L ok nb nv (mk_budget 0 0) = ok && ((nb <=? max_bytes L) && (nv <=? max_values L)).
Proof. done. Qed.

Lemma object_member_outcome L fields selected : wf (object fields) →
  let found := selected_size selected fields None in
  outcome (accepts L (object fields) &&
      match selected, found with Some _, None => false | _, _ => true end)
    (mk_budget (size (canonical (object fields))) (count (object fields)),
     default 0 found)
    (object_member L fields selected).
Proof.
  intros [_ Hwf]%wf_object found.
  assert (Forall (fun m => value_costs L (snd m)) fields) as Hc
    by (eapply Forall_impl; [exact Hwf|intros; by apply wf_value_costs]).
  set (nb := 0 + (2 + entries_size true (map render_member fields))).
  set (nv := 1 + (0 + counts_members fields)).
  assert (accepts L (object fields) = affordable L ((0 <=? max_depth L) &&
    (true && members_ok L 0 fields)) nb nv (mk_budget 0 0)) as ->.
  { rewrite affordable_zero. unfold accepts, nb, nv. rewrite canonical_render. cbn [fits count render].
    change (map (λ m, _) fields) with (map render_member fields).
    rewrite entries_size_true, !size_append. change (size "{") with 1. change (size "}") with 1.
    fold (counts_members fields). apply Bool.eq_true_iff_eq.
    rewrite !andb_true_iff, !N.leb_le. unfold members_ok. intuition lia. }
  assert (mk_budget (size (canonical (object fields))) (count (object fields)) =
    mk_budget nb nv) as ->.
  { unfold nb, nv. rewrite canonical_render. cbn [render count].
    change (map (λ m, _) fields) with (map render_member fields).
    rewrite entries_size_true, !size_append. change (size "{") with 1. change (size "}") with 1.
    f_equal; unfold counts_members; lia. }
  unfold object_member. unfold nb at 1, nv at 1. rewrite !affordable_seq, <- !andb_assoc.
  assert (within L (mk_budget 0 0)) as H0 by (split; simpl; lia).
  eapply outcome_bind; [exact (costs_count L 0 _ H0)|]. intros H1%affordable_within.
  eapply outcome_bind; [exact (costs_charge L 2 _ H1)|]. intros H2%affordable_within.
  eapply outcome_bind; [exact (root_members_outcome L selected fields true None _ Hc H2)|].
  intros _. fold found. destruct selected, found; simpl; try done; by eexists.
Qed.

Lemma selected_size_find s fields found : StdMap.sorted fields →
  selected_size (Some s) fields found =
    match StdMap.find s fields with Some v => Some (size (canonical v)) | None => found end.
Proof.
  intros H. revert found. induction H as [|[k v] fields _ IH Hlt]; intros found; [done|].
  cbn [selected_size StdMap.find]. rewrite IH, String.eqb_sym.
  destruct (String.eqb_spec s k) as [->|]; [|done].
  by rewrite StdMap.sorted_find_None, canonical_render.
Qed.

(** C37 [require_canonical_object_encoded_size] accepts the borrowed fields
    exactly when [parse(canonical_object(fields), limits)] succeeds, and then
    returns the exact size of that encoding. *)
Theorem encoded_size_exact L fields : wf (object fields) →
  match require_canonical_object_encoded_size fields L with
  | Ok n => n = size (canonical_object fields) ∧
      parse (canonical_object fields) L = Ok (object fields)
  | Throw e => e ≠ out_of_fuel ∧
      ∃ what, parse (canonical_object fields) L = Throw (runtime_error what)
  end.
Proof.
  intros Hwf. rewrite canonical_object_canonical.
  pose proof (accepts_parse L _ Hwf) as Hp. pose proof (object_member_outcome L fields None Hwf) as Ho.
  cbn zeta in Ho. rewrite andb_true_r in Ho. unfold require_canonical_object_encoded_size.
  destruct (accepts L (object fields)); simpl in Hp, Ho.
  - rewrite Ho. by destruct (selected_size _ _ _).
  - destruct Ho as [w ->]. simpl. split; [done|exact Hp].
Qed.

(** [require_canonical_object_member_parse_limits] returns exactly when the
    encoding of the whole object would be parsed and the selected member
    exists; its result is the encoded size of that member's value alone. *)
Theorem selected_member_exact L fields selected : wf (object fields) →
  match require_canonical_object_member_parse_limits fields L selected with
  | Ok n => parse (canonical_object fields) L = Ok (object fields) ∧
      ∃ v, StdMap.find selected fields = Some v ∧ n = size (canonical v)
  | Throw e => e ≠ out_of_fuel ∧ (StdMap.find selected fields = None ∨
      ∃ what, parse (canonical_object fields) L = Throw (runtime_error what))
  end.
Proof.
  intros Hwf. rewrite canonical_object_canonical. pose proof Hwf as [Hs _]%wf_object.
  pose proof (accepts_parse L _ Hwf) as Hp.
  pose proof (object_member_outcome L fields (Some selected) Hwf) as Ho.
  cbn zeta in Ho. rewrite (selected_size_find selected fields None Hs) in Ho.
  unfold require_canonical_object_member_parse_limits.
  destruct (accepts L (object fields)); simpl in Hp;
    destruct (StdMap.find selected fields) as [v|] eqn:Ef; simpl in Ho; rewrite ?Ho; simpl; eauto;
    destruct Ho as [w ->]; simpl; auto.
Qed.

Definition sample_fields : list (string * value) :=
  [("a", string_value "x"); ("b", array [unsigned_integer 12; null_value])].

Lemma sample_fields_wf : wf (object sample_fields).
Proof. repeat constructor; vm_compute; discriminate. Qed.

Lemma encoded_size_exact_witness :
  require_canonical_object_encoded_size sample_fields default_limits = Ok 23 ∧
  23 = size (canonical_object sample_fields) ∧
  parse (canonical_object sample_fields) default_limits = Ok (object sample_fields).
Proof.
  assert (require_canonical_object_encoded_size sample_fields default_limits = Ok 23) as E
    by (vm_compute; reflexivity).
  pose proof (encoded_size_exact default_limits sample_fields sample_fields_wf) as H.
  rewrite E in H. split; [exact E|exact H].
Defined.

Lemma selected_member_exact_witness :
  require_canonical_object_member_parse_limits sample_fields default_limits "b" = Ok 9 ∧
  parse (canonical_object sample_fields) default_limits = Ok (object sample_fields).
Proof.
  assert (require_canonical_object_member_parse_limits sample_fields default_limits "b" = Ok 9) as E
    by (vm_compute; reflexivity).
  pose proof (selected_member_exact default_limits sample_fields "b" sample_fields_wf) as H.
  rewrite E in H. split; [exact E|exact (proj1 H)].
Defined.

End JsonBudget.
