(* ===== verification/Path.v ===== *)
(** [std::filesystem::path] on a POSIX host, as far as the sources use it: the
    native text, its iteration into components, [operator/], the lexical
    operations, and the path checks of [runtime/base/usk_utf8_path.cpp] and of
    [runtime/setup/transaction/usk_transaction_session.cpp]. *)

From Stdlib Require Import Ascii String NArith ZArith Lia.
From stdpp Require Import base list strings.
From S2P Require Import Prelude Utf8 StdMap.

Module Path.

Definition slash : ascii := ascii_of_N 47.

(** ** The library class

    A path is its native text.  [names] are the non-empty components: what the
    kernel resolves; [components] is what iteration visits: the root directory,
    the names, and an empty component for a trailing separator. *)

Definition path := string.

Fixpoint segments (s : string) : list string :=
  match s with
  | EmptyString => [EmptyString]
  | String c s =>
    let rest := segments s in
    if Ascii.eqb c slash then EmptyString :: rest
    else match rest with
         | x :: rest => String c x :: rest
         | [] => [String c EmptyString]
         end
  end.

Definition names (p : path) : list string :=
  List.filter (fun s => negb (is_empty s)) (segments p).

Definition is_absolute (p : path) : bool :=
  match p with String c _ => Ascii.eqb c slash | EmptyString => false end.

Fixpoint last_byte (s : string) : option ascii :=
  match s with
  | EmptyString => None
  | String c EmptyString => Some c
  | String _ s => last_byte s
  end.

Definition ends_with (c : ascii) (s : string) : bool :=
  match last_byte s with Some d => Ascii.eqb d c | None => false end.

Definition components (p : path) : list string :=
  (if is_absolute p then ["/"] else []) ++ names p ++
  (if ends_with slash p && negb (match names p with [] => true | _ => false end)
   then [EmptyString] else []).

(** The components of [relative_path()]. *)
Definition relative_components (p : path) : list string :=
  match components p with
  | c :: rest => if is_absolute p then rest else c :: rest
  | [] => []
  end.

(** [operator/]. *)
Definition append_path (p q : path) : path :=
  if is_absolute q then q
  else if is_empty p || ends_with slash p then p +:+ q
  else p +:+ String slash q.
Infix "/+" := append_path (at level 40, left associativity).

Fixpoint join_names (l : list string) : string :=
  match l with
  | [] => EmptyString
  | [x] => x
  | x :: l => x +:+ String slash (join_names l)
  end.

Definition root_text (p : path) : string :=
  if is_absolute p then "/" else EmptyString.

(** The scan behind [lexically_normal]: the kept names, newest first, and
    whether the text so far ends with a separator. *)
Definition normal_step (rooted : bool) (st : list string * bool) (c : string)
    : list string * bool :=
  let '(stack, trailing) := st in
  if is_empty c then (stack, true)
  else if String.eqb c "." then (stack, true)
  else if String.eqb c ".." then
    match stack with
    | top :: stack' => if String.eqb top ".." then (c :: stack, false) else (stack', true)
    | [] => if rooted then ([], true) else ([c], false)
    end
  else (c :: stack, false).

Definition lexically_normal (p : path) : path :=
  if is_empty p then p
  else
    let '(stack, trailing) :=
      fold_left (normal_step (is_absolute p)) (relative_components p) ([], false) in
    match stack with
    | [] => if is_absolute p then "/" else "."
    | top :: _ =>
      root_text p +:+ join_names (rev stack) +:+
      (if trailing && negb (String.eqb top "..") then "/" else EmptyString)
    end.

(** [path ==]: component-wise. *)
Definition path_eqb (p q : path) : bool :=
  bool_decide (components p = components q).

Fixpoint mismatch (a b : list string) : list string * list string :=
  match a, b with
  | x :: a', y :: b' => if String.eqb x y then mismatch a' b' else (a, b)
  | _, _ => (a, b)
  end.

Definition up_count (l : list string) : Z :=
  fold_left (fun n c =>
    if String.eqb c ".." then (n - 1)%Z
    else if is_empty c || String.eqb c "." then n
    else (n + 1)%Z) l 0%Z.

(** [lexically_relative(base)]; no POSIX path has a root name. *)
Definition lexically_relative (p base : path) : path :=
  if negb (Bool.eqb (is_absolute p) (is_absolute base)) then EmptyString
  else
    match mismatch (components p) (components base) with
    | ([], []) => "."
    | (a, b) =>
      let n := up_count b in
      if (n <? 0)%Z then EmptyString
      else if (n =? 0)%Z && (match a with [] => true | x :: _ => is_empty x end) then "."
      else fold_left append_path (repeat ".." (Z.to_nat n) ++ a) EmptyString
    end.

(** [parent_path]: the text before the last separator. *)
Fixpoint drop_trailing_slashes (fuel : nat) (s : string) : string :=
  match fuel with
  | O => s
  | S fuel => if ends_with slash s
    then drop_trailing_slashes fuel (str_take (String.length s - 1) s) else s
  end.

Fixpoint before_last_slash (s : string) : string :=
  match s with
  | EmptyString => EmptyString
  | String c rest =>
    if contains_byte slash rest then String c (before_last_slash rest)
    else if Ascii.eqb c slash then String c EmptyString else EmptyString
  end.

Definition parent_path (p : path) : path :=
  let s := before_last_slash p in
  let s' := drop_trailing_slashes (String.length s) s in
  if is_empty s' then (if is_absolute p then "/" else EmptyString) else s'.

Definition filename (p : path) : string :=
  if ends_with slash p then (match names p with [] => "/" | _ => EmptyString end)
  else default EmptyString (last (names p)).

(** [generic_string]: the components joined by single separators. *)
Definition generic_string (p : path) : string :=
  root_text p +:+ join_names (relative_components p).

(** ** [usk_utf8_path.cpp] *)

Definition has_unc_or_device_prefix (value : string) : bool :=
  match value with
  | String a (String b _) =>
    (Ascii.eqb a backslash && Ascii.eqb b backslash) || (Ascii.eqb a slash && Ascii.eqb b slash)
  | _ => false
  end.

Definition contains_nul (s : string) : bool := contains_byte Ascii.zero s.

(** On POSIX [u8path] and [u8string] keep the bytes of the path. *)
Definition path_to_utf8 (p : path) : result string :=
  if negb (Utf8.valid_utf8 p) then throw "native filesystem path is not valid UTF-8"
  else if contains_nul p then throw "native filesystem path contains an embedded NUL"
  else Ok p.

Definition require_normalized_absolute_local_path_utf8 (value field_name : string)
    : result path :=
  if negb (Utf8.valid_utf8 value) then throw (field_name +:+ " must be valid UTF-8")
  else if contains_nul value then throw (field_name +:+ " contains an embedded NUL")
  else if has_unc_or_device_prefix value
  then throw (field_name +:+ " must not use a UNC or device namespace")
  else if negb (is_absolute value)
  then throw (field_name +:+ " must be an absolute local filesystem path")
  else
    let normalized := lexically_normal value in
    normalized_utf8 ← path_to_utf8 normalized;
    if negb (String.eqb normalized_utf8 value)
    then throw (field_name +:+ " must be lexically normalized")
    else Ok normalized.

(** ** The path checks of the transaction session *)

Definition reserved_names : list string :=
  ["con"; "prn"; "aux"; "nul"; "clock$";
   "com1"; "com2"; "com3"; "com4"; "com5"; "com6"; "com7"; "com8"; "com9";
   "lpt1"; "lpt2"; "lpt3"; "lpt4"; "lpt5"; "lpt6"; "lpt7"; "lpt8"; "lpt9"].

(** [segment.substr(0, segment.find('.'))]. *)
Fixpoint stem (segment : string) : string :=
  match segment with
  | EmptyString => EmptyString
  | String c s => if code c =? 46 then EmptyString else String c (stem s)
  end.

Definition safe_segment (segment : string) : bool :=
  negb (is_empty segment || String.eqb segment "." || String.eqb segment ".." ||
        contains_byte (ascii_of_N 58) segment ||
        ends_with (ascii_of_N 46) segment || ends_with (ascii_of_N 32) segment) &&
  negb (existsb (String.eqb (lowercase (stem segment))) reserved_names) &&
  forall_bytes (fun ch => (0x20 <=? code ch) && (code ch <? 0x7f)) segment.

Definition safe_relative_path (relative : path) : bool :=
  negb (is_empty relative || is_absolute relative) &&
  forallb safe_segment (components relative).

(** [comparable_path]: the generic text without trailing separators, but at
    least one byte. *)
Fixpoint pop_slashes (fuel : nat) (value : string) : string :=
  match fuel with
  | O => value
  | S fuel =>
    if (1 <? size value) && ends_with slash value
    then pop_slashes fuel (str_take (String.length value - 1) value) else value
  end.

Definition comparable_path (p : path) : string :=
  let value := generic_string p in pop_slashes (String.length value) value.

Definition path_contains (parent child : path) : bool :=
  let parent_text := comparable_path parent in
  let child_text := comparable_path child in
  String.eqb child_text parent_text ||
  ((size parent_text <? size child_text) &&
   String.prefix (parent_text +:+ "/") child_text).

Definition require_disjoint (left right : path) : result unit :=
  throw_if (path_contains left right || path_contains right left)
    "transaction state, audit, and target roots must be disjoint".

Example normal_examples :
  (lexically_normal "/a/./b/../c/", lexically_normal "/..", lexically_normal "a/..",
   lexically_normal "a/b/..", lexically_normal "../x") = ("/a/c/", "/", ".", "a/", "../x").
Proof. vm_compute. reflexivity. Qed.

Example relative_examples :
  (lexically_relative "/a/d" "/a/b/c", lexically_relative "/a/b/c" "/a/d",
   lexically_relative "a/b/c" "a", lexically_relative "a/b/c" "a/b/c",
   lexically_relative "a/b" "c/d") = ("../../d", "../b/c", "b/c", ".", "../../a/b").
Proof. vm_compute. reflexivity. Qed.

Example parent_examples :
  (parent_path "/a/b", parent_path "/a", parent_path "/", parent_path "a", parent_path "a/b/")
  = ("/a", "/", "/", EmptyString, "a/b").
Proof. vm_compute. reflexivity. Qed.

End Path.
