(* ===== verification/PathFacts.v ===== *)
(** The path checks against the component lists that the kernel resolves:
    containment of joined paths, the disjointness test of the transaction
    roots, and safe relative paths. *)

From Stdlib Require Import Ascii String NArith ZArith Lia.
From stdpp Require Import base list strings.
From S2P Require Import Prelude Utf8 StdMap Path.

Module PathFacts.
Import Path.

(** ** Segments and names *)

Definition slash_free (s : string) : bool := forall_bytes (fun c => negb (Ascii.eqb c slash)) s.

Lemma segments_ne s : segments s ≠ [].
Proof. destruct s as [|c s]; simpl; [done|]. destruct (Ascii.eqb c slash), (segments s); done. Qed.

Lemma segments_slash a b : segments (a +:+ String slash b) = segments a ++ segments b.
Proof.
  induction a as [|c a IH]; [done|]. cbn [segments String.append].
  rewrite IH. destruct (Ascii.eqb c slash); [done|].
  pose proof (segments_ne a). by destruct (segments a).
Qed.

Lemma segments_slash_free s : slash_free s = true → segments s = [s].
Proof.
  induction s as [|c s IH]; [done|]. unfold slash_free. simpl. intros [Hc Hs]%andb_prop.
  apply negb_true_iff in Hc. by rewrite Hc, (IH Hs).
Qed.

Lemma segments_free s : Forall (fun x => slash_free x = true) (segments s).
Proof.
  induction s as [|c s IH]; [by repeat constructor|]. simpl.
  destruct (Ascii.eqb c slash) eqn:E; [by constructor|].
  destruct (segments s) as [|x l]; [constructor; [|done]; unfold slash_free; simpl; by rewrite E|].
  inversion IH; subst. constructor; [|done]. unfold slash_free in *. simpl. by rewrite E.
Qed.

Lemma names_slash a b : names (a +:+ String slash b) = names a ++ names b.
Proof. unfold names. by rewrite segments_slash, List.filter_app. Qed.

Definition plain_name (s : string) : Prop := slash_free s = true ∧ is_empty s = false.

Lemma names_plain p : Forall plain_name (names p).
Proof.
  apply Forall_forall. intros x [Hx He]%list_elem_of_In%filter_In.
  split; [|by apply negb_true_iff].
  pose proof (segments_free p) as H. rewrite Forall_forall in H. by apply H, list_elem_of_In.
Qed.

Lemma names_of_plain s : plain_name s → names s = [s].
Proof. intros [Hs He]. unfold names. rewrite (segments_slash_free s Hs). simpl. by rewrite He. Qed.

Lemma names_join l : Forall plain_name l → names (join_names l) = l.
Proof.
  induction 1 as [|x l Hx Hl IH]; [done|]. destruct l as [|y l]; [by apply names_of_plain|].
  change (join_names (x :: y :: l)) with (x +:+ String slash (join_names (y :: l))).
  by rewrite names_slash, IH, (names_of_plain x Hx).
Qed.

Lemma names_trailing s : ends_with slash s = true →
  ∃ t, s = t +:+ String slash EmptyString.
Proof.
  unfold ends_with. induction s as [|c s IH]; [done|]. destruct s as [|d s].
  - simpl. intros ->%Ascii.eqb_eq. by exists EmptyString.
  - intros H. destruct (IH H) as [t Ht]. exists (String c t). simpl. by rewrite Ht.
Qed.

(** Joining a relative path appends its names. *)
Lemma names_append p q : is_absolute q = false → names (p /+ q) = names p ++ names q.
Proof.
  intros Hq. unfold append_path. rewrite Hq. destruct (is_empty p) eqn:Hp; simpl.
  { by destruct p. }
  destruct (ends_with slash p) eqn:He; [|apply names_slash].
  apply names_trailing in He as [t ->]. rewrite append_assoc. simpl.
  by rewrite !names_slash, app_nil_r.
Qed.

Lemma is_absolute_append p q : is_absolute p = true → is_absolute q = false →
  is_absolute (p /+ q) = true.
Proof.
  intros Hp Hq. unfold append_path. rewrite Hq. destruct p as [|c p]; [done|].
  destruct (_ || _); exact Hp.
Qed.

(** ** Comparable text *)

Definition abs_text (l : list string) : string := String slash (join_names l).

Lemma names_abs_text l : Forall plain_name l → names (abs_text l) = l.
Proof. intros H. exact (eq_trans (names_slash EmptyString (join_names l)) (names_join l H)). Qed.

Lemma last_byte_app a c : last_byte (a +:+ String c EmptyString) = Some c.
Proof.
  induction a as [|d a IH]; [done|]. simpl. rewrite IH. by destruct a.
Qed.

Lemma last_byte_append a b : b ≠ EmptyString → last_byte (a +:+ b) = last_byte b.
Proof.
  intros Hb. induction a as [|d a IH]; [done|]. cbn [String.append last_byte].
  rewrite IH. destruct (a +:+ b) eqn:E; [|done]. by destruct a, b.
Qed.

Lemma plain_not_slash x : plain_name x → ends_with slash x = false.
Proof.
  intros [Hs He]. destruct (ends_with slash x) eqn:E; [|done].
  apply names_trailing in E as [t ->]. unfold slash_free in Hs.
  rewrite forall_bytes_append in Hs. simpl in Hs. by rewrite andb_false_r in Hs.
Qed.

Lemma join_not_slash l : Forall plain_name l → l ≠ [] →
  ends_with slash (join_names l) = false ∧ join_names l ≠ EmptyString.
Proof.
  induction 1 as [|x l Hx Hl IH]; [done|]. intros _. destruct l as [|y l].
  - simpl. split; [by apply plain_not_slash|]. destruct Hx as [_ He]. by destruct x.
  - destruct (IH ltac:(done)) as [H1 H2].
    change (join_names (x :: y :: l)) with (x +:+ String slash (join_names (y :: l))).
    unfold ends_with in *. split; [|by destruct x].
    rewrite last_byte_append by done. cbn [last_byte].
    by destruct (join_names (y :: l)).
Qed.

Lemma abs_text_not_slash l : Forall plain_name l → l ≠ [] →
  ends_with slash (abs_text l) = false.
Proof.
  intros Hl Hne. destruct (join_not_slash l Hl Hne) as [H1 H2].
  unfold ends_with, abs_text in *. cbn [last_byte]. by destruct (join_names l).
Qed.

Lemma join_trailing l : l ≠ [] → join_names (l ++ [EmptyString]) = join_names l +:+ String slash EmptyString.
Proof.
  induction l as [|x l IH]; [done|]. intros _. destruct l as [|y l]; [done|].
  change (join_names ((x :: y :: l) ++ [EmptyString]))
    with (x +:+ String slash (join_names ((y :: l) ++ [EmptyString]))).
  rewrite IH by done.
  change (join_names (x :: y :: l)) with (x +:+ String slash (join_names (y :: l))).
  by rewrite append_assoc.
Qed.

Lemma generic_absolute p : is_absolute p = true →
  generic_string p = abs_text (names p) ∨
  (names p ≠ [] ∧ generic_string p = abs_text (names p) +:+ String slash EmptyString).
Proof.
  intros Hp. unfold generic_string, root_text, relative_components, components. rewrite Hp. simpl.
  destruct (ends_with slash p); simpl; [|by left; rewrite app_nil_r].
  destruct (names p) as [|x l] eqn:E; [by left|]. right. split; [done|]. simpl negb. cbv iota.
  rewrite join_trailing by done. done.
Qed.

Lemma pop_slashes_stop fuel s : ends_with slash s = false → pop_slashes fuel s = s.
Proof. intros H. destruct fuel; [done|]. simpl. by rewrite H, andb_false_r. Qed.

Lemma comparable_absolute p : is_absolute p = true → comparable_path p = abs_text (names p).
Proof.
  intros Hp. unfold comparable_path. pose proof (names_plain p) as Hn.
  destruct (generic_absolute p Hp) as [->|[Hne ->]].
  - destruct (names p) as [|x l]; [done|]. by apply pop_slashes_stop, abs_text_not_slash.
  - rewrite length_append. cbn [String.length]. rewrite Nat.add_1_r. cbn [pop_slashes].
    unfold ends_with. rewrite last_byte_app, Ascii.eqb_refl, size_append.
    assert ((1 <? size (abs_text (names p)) + size (String slash EmptyString)) = true) as ->.
    { apply N.ltb_lt. unfold abs_text. rewrite !size_cons, size_nil. lia. }
    cbn [andb]. rewrite length_append. cbn [String.length].
    replace (String.length (abs_text (names p)) + 1 - 1)%nat
      with (String.length (abs_text (names p))) by lia.
    rewrite str_take_all. by apply pop_slashes_stop, abs_text_not_slash.
Qed.

Lemma prefix_append a b : String.prefix a b = true ↔ ∃ t, b = a +:+ t.
Proof.
  revert b. induction a as [|c a IH]; intros b; simpl.
  - split; [by exists b|by destruct b].
  - destruct b as [|d b]; [split; [done|by intros [t ?]]|].
    cbn [String.prefix]. destruct (ascii_dec c d) as [->|Hne].
    + rewrite IH. split; intros [t E]; exists t; [by rewrite E|by injection E].
    + split; [done|]. intros [t [= E _]]. congruence.
Qed.

Lemma join_app l1 l2 : l1 ≠ [] → l2 ≠ [] →
  join_names (l1 ++ l2) = join_names l1 +:+ String slash (join_names l2).
Proof.
  intros H1 H2. induction l1 as [|x l1 IH]; [done|]. destruct l1 as [|y l1].
  - destruct l2; [done|]. done.
  - change (join_names ((x :: y :: l1) ++ l2)) with (x +:+ String slash (join_names ((y :: l1) ++ l2))).
    rewrite IH by done.
    change (join_names (x :: y :: l1)) with (x +:+ String slash (join_names (y :: l1))).
    by rewrite append_assoc.
Qed.

(** The containment test behind the disjointness of the transaction roots:
    for absolute paths, and a parent other than the file-system root,
    [path_contains] holds exactly when the parent's components are a prefix of
    the child's. *)
Theorem path_contains_prefix parent child :
  is_absolute parent = true → is_absolute child = true → names parent ≠ [] →
  path_contains parent child = true ↔ ∃ rest, names child = names parent ++ rest.
Proof.
  intros Hp Hc Hne. unfold path_contains. rewrite !comparable_absolute by done.
  pose proof (names_plain parent) as Pp. pose proof (names_plain child) as Pc.
  rewrite orb_true_iff, andb_true_iff, String.eqb_eq, prefix_append. split.
  - intros [E|[_ [t E]]].
    + exists []. rewrite app_nil_r. apply (f_equal names) in E. by rewrite !names_abs_text in E.
    + exists (names t). apply (f_equal names) in E.
      rewrite append_assoc in E. change ("/" +:+ t) with (String slash t) in E.
      by rewrite names_slash, !names_abs_text in E.
  - intros [[|x rest] E].
    + left. by rewrite E, app_nil_r.
    + right. rewrite E. unfold abs_text. rewrite join_app by done. split.
      * apply N.ltb_lt. rewrite !size_cons, size_append, size_cons. lia.
      * exists (join_names (x :: rest)). simpl. by rewrite append_assoc.
Qed.

Lemma path_contains_prefix_witness :
  path_contains "/srv/app/" "/srv/app/state" = true ∧
  ∃ rest, names "/srv/app/state" = names "/srv/app/" ++ rest.
Proof.
  split; [vm_compute; reflexivity|].
  apply (path_contains_prefix "/srv/app/" "/srv/app/state"); vm_compute; (reflexivity || discriminate).
Defined.

(** The file-system root is the exception: it contains every absolute path, yet
    the test finds it disjoint from all others, so [require_disjoint] accepts
    it beside a root below it. *)
Theorem root_counts_as_disjoint : require_disjoint "/" "/audit" = Ok tt.
Proof. vm_compute. reflexivity. Qed.

(** ** Safe relative paths *)

Definition safe_name (s : string) : Prop := plain_name s ∧ s ≠ "." ∧ s ≠ "..".

Lemma names_in_components p x : x ∈ names p → x ∈ components p.
Proof. intros. unfold components. rewrite !elem_of_app. auto. Qed.

Lemma safe_names r : safe_relative_path r = true → Forall safe_name (names r).
Proof.
  unfold safe_relative_path. intros [_ H]%andb_prop. rewrite forallb_forall in H.
  pose proof (names_plain r) as Hp. rewrite Forall_forall in Hp. apply Forall_forall.
  intros x Hx. split; [by apply Hp|].
  pose proof (H x (proj1 (list_elem_of_In _ _) (names_in_components r x Hx))) as Hs.
  unfold safe_segment in Hs. bool_hyps. done.
Qed.

Lemma safe_relative_not_absolute r : safe_relative_path r = true → is_absolute r = false.
Proof. unfold safe_relative_path. intros. bool_hyps. done. Qed.

Lemma safe_relative_ne r : safe_relative_path r = true → names r ≠ [].
Proof.
  intros H E. pose proof H as H'. unfold safe_relative_path in H'.
  apply andb_prop in H' as [[He Ha]%negb_true_iff%orb_false_elim _].
  destruct r as [|c r]; [done|]. simpl in Ha.
  unfold names in E. simpl in E. rewrite Ha in E.
  by destruct (segments r).
Qed.

(** A safe relative path never leaves the directory it is joined to: the
    joined path resolves to the root's components followed by at least one
    further component, none of which is a dot or dot-dot. *)
Theorem safe_path_stays_below root r :
  safe_relative_path r = true →
  ∃ rest, names (root /+ r) = names root ++ rest ∧ rest ≠ [] ∧
    Forall (fun c => c ≠ "." ∧ c ≠ "..") rest.
Proof.
  intros H. exists (names r). split; [by apply names_append, safe_relative_not_absolute|].
  split; [by apply safe_relative_ne|].
  eapply Forall_impl; [by apply safe_names|]. by intros x [_ ?].
Qed.

Lemma safe_path_stays_below_witness :
  safe_relative_path "bin/tool.exe" = true ∧
  ∃ rest, names ("/stage" /+ "bin/tool.exe") = names "/stage" ++ rest ∧ rest ≠ [] ∧
    Forall (fun c => c ≠ "." ∧ c ≠ "..") rest.
Proof.
  assert (safe_relative_path "bin/tool.exe" = true) as H by (vm_compute; reflexivity).
  split; [exact H|exact (safe_path_stays_below "/stage" _ H)].
Defined.

(** ** Normal and relative paths *)

Lemma normal_step_rooted c st :
  plain_name c ∨ c = EmptyString → Forall safe_name (fst st) →
  Forall safe_name (fst (normal_step true st c)).
Proof.
  destruct st as [stack t]. intros Hc Hs. unfold normal_step.
  destruct (is_empty c) eqn:He; [done|]. destruct (String.eqb_spec c "."); [done|].
  destruct Hc as [Hc| ->]; [|done].
  destruct (String.eqb_spec c "..").
  - destruct stack as [|top stack]; [done|]. inversion Hs as [|? ? [_ [_ Ht]] Hs']; subst.
    by destruct (String.eqb_spec top "..").
  - simpl. constructor; [|done]. done.
Qed.

Lemma relative_components_plain p :
  Forall (fun c => plain_name c ∨ c = EmptyString) (relative_components p).
Proof.
  assert (Forall (fun c => plain_name c ∨ c = EmptyString) (names p ++
    (if ends_with slash p && negb (match names p with [] => true | _ => false end)
     then [EmptyString] else []))) as H.
  { apply Forall_app. split; [eapply Forall_impl; [apply names_plain|by left]|].
    destruct (_ && _); repeat constructor; by right. }
  unfold relative_components, components. destruct (is_absolute p); [done|]. simpl.
  destruct (names p ++ _); [constructor|done].
Qed.

(** A normalized absolute path is absolute, and its names are real names. *)
Lemma normal_absolute p : is_absolute p = true →
  is_absolute (lexically_normal p) = true ∧ Forall safe_name (names (lexically_normal p)).
Proof.
  intros Hp. unfold lexically_normal, root_text. rewrite Hp.
  destruct (is_empty p) eqn:He; [by destruct p|].
  assert (Forall safe_name (fst (fold_left (normal_step true) (relative_components p) ([], false)))) as H.
  { pose proof (relative_components_plain p) as Hr. revert Hr.
    assert (Forall safe_name (fst ([] : list string, false))) as H0 by constructor. revert H0.
    generalize ([] : list string, false). induction (relative_components p) as [|c l IH]; [done|].
    intros st Hst Hl. inversion Hl; subst. simpl. apply IH; [by apply normal_step_rooted|done]. }
  destruct (fold_left _ _ _) as [stack t]. simpl in H.
  destruct stack as [|top stack]; [split; [done|constructor]|].
  split; [done|]. apply Forall_rev in H. set (l := rev (top :: stack)) in *.
  assert (Forall plain_name l) as Hl by (eapply Forall_impl; [exact H|by intros x [? _]]).
  destruct (t && _).
  - change ("/" +:+ join_names l +:+ "/") with (String slash (join_names l +:+ String slash "")).
    pose proof (names_slash EmptyString (join_names l +:+ String slash "")) as E.
    simpl in E. rewrite E, names_slash, names_join by done. simpl. by rewrite app_nil_r.
  - rewrite append_nil_r. change ("/" +:+ join_names l) with (abs_text l).
    by rewrite names_abs_text.
Qed.

(** No trailing separator: the last component is a name, or the path is the
    root itself. *)
Definition bare (p : path) : Prop := components p = (if is_absolute p then ["/"] else []) ++ names p.

Lemma mismatch_spec a b a' b' : mismatch a b = (a', b') →
  ∃ c, a = c ++ a' ∧ b = c ++ b' ∧ ∀ x y l l', a' = x :: l → b' = y :: l' → x ≠ y.
Proof.
  revert b. induction a as [|x a IH]; intros [|y b]; simpl; try (intros [= <- <-]; by exists []).
  destruct (String.eqb_spec x y) as [->|Hne].
  - intros H. destruct (IH b H) as (c & -> & -> & Hc). by exists (y :: c).
  - intros [= <- <-]. exists []. split; [done|]. split; [done|]. by intros ? ? ? ? [= <- _] [= <- _].
Qed.

Lemma up_count_safe l : Forall safe_name l → up_count l = Z.of_nat (length l).
Proof.
  unfold up_count. intros H. assert (∀ n, fold_left (fun n c =>
    if String.eqb c ".." then (n - 1)%Z
    else if is_empty c || String.eqb c "." then n else (n + 1)%Z) l n =
      (n + Z.of_nat (length l))%Z) as E; [|by rewrite E].
  induction H as [|c l [[_ He] [Hd Hdd]] _ IH]; intros n; simpl; [lia|].
  rewrite (proj2 (String.eqb_neq _ _) Hdd), He, (proj2 (String.eqb_neq _ _) Hd). simpl.
  rewrite IH. lia.
Qed.

Lemma fold_append_names l acc : Forall plain_name l → is_absolute acc = false →
  names (fold_left append_path l acc) = names acc ++ l ∧
  is_absolute (fold_left append_path l acc) = false.
Proof.
  intros H. revert acc. induction H as [|x l Hx _ IH]; intros acc Ha; simpl.
  { by rewrite app_nil_r. }
  assert (is_absolute x = false) as Hx'.
  { destruct Hx as [Hs _]. destruct x; [done|]. unfold slash_free in Hs. simpl in *.
    apply andb_prop in Hs as [Hs _]. by apply negb_true_iff in Hs. }
  destruct (IH (acc /+ x)) as [E1 E2].
  { unfold append_path. rewrite Hx'. destruct acc; [done|]. simpl in *. by destruct (ends_with _ _). }
  rewrite E1, E2, (names_append acc x Hx'), (names_of_plain x Hx), <- app_assoc. done.
Qed.

(** ** Canonical absolute paths

    [abs_text l] for real names [l] is the normal form without a trailing
    separator: joining, the parent and normalization act on the list. *)

Lemma safe_plain l : Forall safe_name l → Forall plain_name l.
Proof. intros H. eapply Forall_impl; [exact H|]. by intros x [? _]. Qed.

Lemma plain_not_absolute x : plain_name x → is_absolute x = false.
Proof.
  intros [Hs _]. destruct x; [done|]. unfold slash_free in Hs. simpl in *.
  apply andb_prop in Hs as [Hs _]. by apply negb_true_iff in Hs.
Qed.

Lemma join_relative rel : Forall plain_name rel → is_absolute (join_names rel) = false.
Proof.
  intros H. destruct rel as [|x rel]; [done|]. inversion H as [|? ? Hx Hr]; subst.
  assert (∃ y, join_names (x :: rel) = x +:+ y) as [y ->].
  { destruct rel as [|z rel]; [exists EmptyString; by rewrite append_nil_r|by eexists]. }
  pose proof (plain_not_absolute x Hx) as Ha. destruct Hx as [_ He]. by destruct x.
Qed.

Lemma components_join rel : Forall plain_name rel → rel ≠ [] → components (join_names rel) = rel.
Proof.
  intros H Hne. unfold components. rewrite (join_relative rel H), names_join by done.
  destruct (join_not_slash rel H Hne) as [-> _]. cbn [andb app]. by rewrite app_nil_r.
Qed.

Lemma abs_text_append l x : Forall plain_name l → plain_name x → abs_text l /+ x = abs_text (l ++ [x]).
Proof.
  intros Hl Hx. unfold append_path. rewrite (plain_not_absolute x Hx).
  destruct l as [|y l]; [done|].
  rewrite abs_text_not_slash by done. simpl is_empty. cbv iota. simpl orb. cbv iota.
  unfold abs_text. rewrite join_app by done. done.
Qed.

Lemma abs_text_ends l : Forall plain_name l → ends_with slash (abs_text l) = match l with [] => true | _ => false end.
Proof. intros Hl. destruct l; [done|]. by apply abs_text_not_slash. Qed.

Lemma abs_text_components l : Forall plain_name l → relative_components (abs_text l) = l.
Proof.
  intros Hl. unfold relative_components, components. rewrite names_abs_text, abs_text_ends by done.
  simpl. destruct l; [done|]. simpl. by rewrite app_nil_r.
Qed.

Lemma normal_fold_safe l st t : Forall safe_name l →
  fold_left (normal_step true) l (st, t) = (rev l ++ st, match l with [] => t | _ => false end).
Proof.
  intros H. revert st t. induction H as [|x l [[_ He] [Hd Hdd]] _ IH]; intros st t; [done|].
  cbn [fold_left normal_step]. rewrite He, (proj2 (String.eqb_neq _ _) Hd), (proj2 (String.eqb_neq _ _) Hdd).
  rewrite IH. simpl. rewrite <- app_assoc. simpl. by destruct l.
Qed.

Lemma normal_abs_text l : Forall safe_name l → lexically_normal (abs_text l) = abs_text l.
Proof.
  intros Hl. unfold lexically_normal. simpl is_empty. cbv iota. simpl is_absolute.
  rewrite abs_text_components by (by apply safe_plain). rewrite normal_fold_safe by done.
  rewrite app_nil_r. destruct (rev l) as [|y r] eqn:E.
  - apply (f_equal (@rev _)) in E. rewrite rev_involutive in E. by subst.
  - destruct l as [|x l]; [done|]. simpl andb. cbv iota. rewrite append_nil_r, <- E, rev_involutive. done.
Qed.

Lemma contains_slash_free s : contains_byte slash s = negb (slash_free s).
Proof.
  unfold contains_byte, slash_free. apply (f_equal negb). induction s as [|c s IH]; [done|].
  cbn [forall_bytes]. by rewrite IH, Ascii.eqb_sym.
Qed.

Lemma before_last_slash_snoc a x : slash_free x = true →
  before_last_slash (a +:+ String slash x) = a +:+ String slash EmptyString.
Proof.
  intros Hx. induction a as [|c a IH]; simpl.
  - by rewrite contains_slash_free, Hx.
  - rewrite contains_slash_free. unfold slash_free in *.
    rewrite forall_bytes_append. simpl. rewrite andb_false_r. simpl. by rewrite IH.
Qed.

Lemma drop_one_slash t : ends_with slash t = false →
  drop_trailing_slashes (String.length (t +:+ String slash EmptyString))
    (t +:+ String slash EmptyString) = t.
Proof.
  intros Ht. assert (∀ n, drop_trailing_slashes n t = t) as Hn
    by (intros [|n]; [done|]; cbn [drop_trailing_slashes]; by rewrite Ht).
  rewrite length_append. cbn [String.length]. rewrite Nat.add_1_r. cbn [drop_trailing_slashes].
  unfold ends_with at 1. rewrite last_byte_app, Ascii.eqb_refl, length_append.
  cbn [String.length]. by rewrite Nat.add_sub, str_take_all, Hn.
Qed.

Lemma parent_abs_text l x : Forall plain_name l → plain_name x →
  parent_path (abs_text (l ++ [x])) = abs_text l.
Proof.
  intros Hl [Hx He]. destruct l as [|y l].
  { change (abs_text ([] ++ [x])) with (EmptyString +:+ String slash x).
    unfold parent_path. by rewrite before_last_slash_snoc. }
  assert (abs_text ((y :: l) ++ [x]) = abs_text (y :: l) +:+ String slash x) as ->
    by (unfold abs_text; by rewrite join_app).
  unfold parent_path. rewrite before_last_slash_snoc by done.
  rewrite drop_one_slash by (by apply abs_text_not_slash). done.
Qed.

(** ** Parents of any absolute path *)

Lemma split_last_slash p : slash_free p = false →
  ∃ a x, p = a +:+ String slash x ∧ slash_free x = true.
Proof.
  unfold slash_free. induction p as [|c p IH]; [done|]. simpl.
  destruct (forall_bytes (fun c => negb (Ascii.eqb c slash)) p) eqn:E.
  - rewrite andb_true_r. intros ->%negb_false_iff%Ascii.eqb_eq. by exists EmptyString, p.
  - intros _. destruct (IH eq_refl) as (a & x & -> & Hx). by exists (String c a), x.
Qed.

Lemma drop_trailing_names fuel s : names (drop_trailing_slashes fuel s) = names s.
Proof.
  revert s. induction fuel as [|fuel IH]; intros s; [done|]. cbn [drop_trailing_slashes].
  destruct (ends_with slash s) eqn:He; [|done]. rewrite IH.
  apply names_trailing in He as [t ->]. rewrite length_append. cbn [String.length].
  by rewrite Nat.add_sub, str_take_all, names_slash, app_nil_r.
Qed.

Lemma drop_trailing_ends fuel s : (String.length s <= fuel)%nat →
  ends_with slash (drop_trailing_slashes fuel s) = false.
Proof.
  revert s. induction fuel as [|fuel IH]; intros s Hf; [by destruct s; simpl in *; [|lia]|].
  cbn [drop_trailing_slashes]. destruct (ends_with slash s) eqn:He; [|done].
  apply names_trailing in He as [t ->]. rewrite length_append in *. cbn [String.length] in *.
  rewrite Nat.add_sub, str_take_all. apply IH. lia.
Qed.

Lemma drop_trailing_absolute fuel s : is_absolute s = true →
  is_absolute (drop_trailing_slashes fuel s) = true ∨ drop_trailing_slashes fuel s = EmptyString.
Proof.
  revert s. induction fuel as [|fuel IH]; intros s Hs; [by left|]. cbn [drop_trailing_slashes].
  destruct (ends_with slash s) eqn:He; [|by left].
  apply names_trailing in He as [t ->]. rewrite length_append. cbn [String.length].
  rewrite Nat.add_sub, str_take_all. destruct t as [|c t]; [right; by destruct fuel|]. by apply IH.
Qed.

Lemma drop_trailing_length fuel s :
  (String.length (drop_trailing_slashes fuel s) <= String.length s)%nat.
Proof.
  revert s. induction fuel as [|fuel IH]; intros s; [done|]. cbn [drop_trailing_slashes].
  destruct (ends_with slash s) eqn:He; [|done]. etrans; [apply IH|]. rewrite length_str_take. lia.
Qed.

Lemma absolute_has_slash p : is_absolute p = true → slash_free p = false.
Proof. destruct p as [|c p]; [done|]. simpl. intros ->%Ascii.eqb_eq. done. Qed.

(** The parent of an absolute path without a trailing separator drops its last
    name, is absolute, and has no trailing separator unless it is the root. *)
Lemma parent_absolute p : is_absolute p = true → ends_with slash p = false →
  names (parent_path p) = removelast (names p) ∧ is_absolute (parent_path p) = true ∧
  (ends_with slash (parent_path p) = false ∨ names (parent_path p) = []) ∧
  (String.length (parent_path p) < String.length p)%nat.
Proof.
  intros Ha He. destruct (split_last_slash p (absolute_has_slash p Ha)) as (a & x & -> & Hx).
  assert (x ≠ EmptyString) as Hne.
  { intros ->. unfold ends_with in He. by rewrite last_byte_app, Ascii.eqb_refl in He. }
  assert (names (a +:+ String slash x) = names a ++ [x]) as En
    by (rewrite names_slash, (names_of_plain x); [done|split; [done|by destruct x]]).
  unfold parent_path. rewrite before_last_slash_snoc by done.
  set (s := a +:+ String slash EmptyString).
  assert (names s = names a) as Es by (unfold s; by rewrite names_slash, app_nil_r).
  assert (is_absolute s = true) as As by (unfold s; destruct a; [done|exact Ha]).
  assert (String.length s < String.length (a +:+ String slash x))%nat as Ls.
  { unfold s. rewrite !length_append. destruct x; [done|]. simpl. lia. }
  rewrite En, removelast_last, Ha. pose proof (drop_trailing_length (String.length s) s) as Ld.
  destruct (is_empty (drop_trailing_slashes (String.length s) s)) eqn:Ee.
  - assert (names a = []) as ->.
    { rewrite <- Es, <- (drop_trailing_names (String.length s)).
      by destruct (drop_trailing_slashes (String.length s) s). }
    repeat split; try done; [by right|]. rewrite length_append. destruct x; [done|]. simpl.
    destruct a; simpl in *; lia.
  - rewrite drop_trailing_names, Es. split; [done|]. split.
    { destruct (drop_trailing_absolute (String.length s) s As) as [?|E]; [done|]. by rewrite E in Ee. }
    split; [left; by apply drop_trailing_ends|lia].
Qed.

(** Absolute paths without trailing separators are equal when their names are. *)
Lemma path_eqb_names p q : is_absolute p = true → is_absolute q = true →
  ends_with slash p = false ∨ names p = [] → ends_with slash q = false ∨ names q = [] →
  path_eqb p q = bool_decide (names p = names q).
Proof.
  intros Hp Hq Ep Eq. unfold path_eqb.
  assert (∀ r, is_absolute r = true → ends_with slash r = false ∨ names r = [] →
    components r = "/" :: names r) as Hc.
  { intros r Hr [Er|Er]; unfold components; rewrite Hr, Er; simpl; [by rewrite app_nil_r|by rewrite andb_false_r]. }
  rewrite !Hc by done. apply bool_decide_ext. split; [intros H; by injection H|by intros ->].
Qed.

End PathFacts.
