(* ===== verification/TargetPolicy.v ===== *)
(** The live-target policy of [runtime/setup/policy/usk_target_policy.cpp]: a
    pure decision over collected evidence and the digest that binds a decision
    to it. *)

From Stdlib Require Import Ascii String NArith ZArith Lia.
From stdpp Require Import base list strings.
From S2P Require Import Prelude Utf8 Sha256 Path PathFacts.

Module TargetPolicy.
Import Path.

Inductive TargetClass :=
| fixture | disposable_test | operator_acceptance | managed_portable | imported
| foreign_owned | steam_managed | per_user | system_wide.

Inductive Activation :=
| unavailable | operator_acceptance_candidate | accepted_live_portable.

Inductive TargetState := nonexistent | empty | nonempty | unproven.

#[global] Instance TargetClass_eq_dec : EqDecision TargetClass.
Proof. solve_decision. Defined.
#[global] Instance Activation_eq_dec : EqDecision Activation.
Proof. solve_decision. Defined.
#[global] Instance TargetState_eq_dec : EqDecision TargetState.
Proof. solve_decision. Defined.

Record TargetEvidence := mk_evidence {
  target_class : TargetClass;
  target_root : path;
  authorized_acceptance_root : path;
  target_state : TargetState;
  target_identity_digest : string;
  filesystem_identity_digest : string;
  filesystem_kind : string;
  persistent_effects : list string;
  required_bytes : N;
  available_bytes : N;
  explicitly_supplied : bool;
  local_filesystem : bool;
  path_components_stable : bool;
  mount_redirection_absent : bool;
  excluded_roots_absent : bool;
  source_target_distinct : bool;
  persistent_effects_complete : bool }.

Record TargetPolicyDecision := mk_decision {
  accepted : bool;
  decision_code : string;
  detail : string;
  target_binding_digest : string }.

Definition sha256_text (value : string) : bool :=
  (size value =? 64) && forall_bytes (fun ch => is_digit ch || is_lower_hex_alpha ch) value.

Definition strictly_below (root candidate : path) : bool :=
  if is_empty root || is_empty candidate || negb (is_absolute root) || negb (is_absolute candidate)
  then false
  else
    let normalized_root := lexically_normal root in
    let normalized_candidate := lexically_normal candidate in
    if path_eqb normalized_root normalized_candidate then false
    else
      let relative := lexically_relative normalized_candidate normalized_root in
      if is_empty relative || is_absolute relative then false
      else forallb (fun part => negb (String.eqb part "..")) (components relative).

(** ** Names *)

Definition target_class_name (value : TargetClass) : string :=
  match value with
  | fixture => "fixture"
  | disposable_test => "disposable_test"
  | operator_acceptance => "operator_acceptance"
  | managed_portable => "managed_portable"
  | imported => "imported"
  | foreign_owned => "foreign_owned"
  | steam_managed => "steam_managed"
  | per_user => "per_user"
  | system_wide => "system_wide"
  end.

Definition activation_name (value : Activation) : string :=
  match value with
  | unavailable => "unavailable"
  | operator_acceptance_candidate => "operator_acceptance_candidate"
  | accepted_live_portable => "accepted_live_portable"
  end.

Definition target_state_name (value : TargetState) : string :=
  match value with
  | nonexistent => "nonexistent"
  | empty => "empty"
  | nonempty => "nonempty"
  | unproven => "unproven"
  end.

(** The search loop the three parsers share. *)
Definition parse_name {A} (name : A → string) (values : list A) (value : string) : option A :=
  List.find (fun candidate => String.eqb value (name candidate)) values.

Definition parse_target_class (value : string) : option TargetClass :=
  parse_name target_class_name
    [fixture; disposable_test; operator_acceptance; managed_portable; imported;
     foreign_owned; steam_managed; per_user; system_wide] value.

Definition parse_activation (value : string) : option Activation :=
  parse_name activation_name
    [unavailable; operator_acceptance_candidate; accepted_live_portable] value.

Definition parse_target_state (value : string) : option TargetState :=
  parse_name target_state_name [nonexistent; empty; nonempty; unproven] value.

(** ** The binding digest *)

Definition append_field (output name value : string) : string :=
  output +:+ to_string (size name) +:+ ":" +:+ name +:+ "=" +:+
  to_string (size value) +:+ ":" +:+ value +:+ String (ascii_of_N 10) EmptyString.

Definition flag (b : bool) : string := if b then "true" else "false".

Definition capacity_satisfied (e : TargetEvidence) : bool :=
  negb (required_bytes e =? 0) && (required_bytes e <=? available_bytes e).

(** The named fields in the order they are written. *)
Definition bound_fields (activation : Activation) (e : TargetEvidence)
    : list (string * string) :=
  [("activation", activation_name activation);
   ("target_class", target_class_name (target_class e));
   ("target_root", generic_string (lexically_normal (target_root e)));
   ("acceptance_root", generic_string (lexically_normal (authorized_acceptance_root e)));
   ("target_state", target_state_name (target_state e));
   ("target_identity_digest", target_identity_digest e);
   ("filesystem_identity_digest", filesystem_identity_digest e);
   ("filesystem_kind", filesystem_kind e);
   ("required_bytes", to_string (required_bytes e));
   ("capacity_satisfied", flag (capacity_satisfied e));
   ("explicitly_supplied", flag (explicitly_supplied e));
   ("local_filesystem", flag (local_filesystem e));
   ("path_components_stable", flag (path_components_stable e));
   ("mount_redirection_absent", flag (mount_redirection_absent e));
   ("excluded_roots_absent", flag (excluded_roots_absent e));
   ("source_target_distinct", flag (source_target_distinct e));
   ("persistent_effects_complete", flag (persistent_effects_complete e))] ++
  map (fun effect => ("effect", effect)) (persistent_effects e).

Definition binding_payload (activation : Activation) (e : TargetEvidence) : string :=
  fold_left (fun output field => append_field output (fst field) (snd field))
    (bound_fields activation e) EmptyString.

(** The digest object computes [Sha256.sha256] of the text: see
    [Sha256.hash_text_sha256]. *)
Definition binding_digest (activation : Activation) (e : TargetEvidence) : string :=
  Sha256.sha256 (binding_payload activation e).

Definition refuse (c d : string) (activation : Activation) (e : TargetEvidence)
    : TargetPolicyDecision :=
  mk_decision false c d (binding_digest activation e).

(** ** The decision *)

Definition evaluate_live_target (activation : Activation) (e : TargetEvidence)
    : TargetPolicyDecision :=
  if bool_decide (activation = unavailable) then
    refuse "live_target_acceptance_required"
      "live portable setup is unavailable before an authorized M2 acceptance lane" activation e
  else if bool_decide (target_class e = managed_portable) &&
          bool_decide (activation ≠ accepted_live_portable) then
    refuse "live_target_acceptance_required"
      "managed portable mutation requires a recorded human M2 Pass" activation e
  else if bool_decide (target_class e ≠ operator_acceptance) &&
          bool_decide (target_class e ≠ managed_portable) then
    refuse "target_class_forbidden"
      "the selected target class is outside M2 live portable authority" activation e
  else if negb (explicitly_supplied e) || is_empty (target_root e) ||
          negb (is_absolute (target_root e)) then
    refuse "target_not_explicit"
      "the operator must explicitly supply an absolute target root" activation e
  else if bool_decide (target_class e = operator_acceptance) &&
          negb (strictly_below (authorized_acceptance_root e) (target_root e)) then
    refuse "target_outside_acceptance_root"
      "operator-acceptance targets must remain below the authorized acceptance root" activation e
  else if bool_decide (target_state e ≠ nonexistent) && bool_decide (target_state e ≠ empty) then
    refuse "target_not_empty"
      "the selected install target must be nonexistent or proven empty" activation e
  else if negb (local_filesystem e) || is_empty (filesystem_kind e) ||
          negb (sha256_text (filesystem_identity_digest e)) then
    refuse "target_filesystem_not_local"
      "the target filesystem must be local and identity-bound" activation e
  else if negb (path_components_stable e) then
    refuse "target_path_redirected"
      "a target path component is a link, reparse point, or unstable ancestor" activation e
  else if negb (mount_redirection_absent e) then
    refuse "target_mount_redirected"
      "the target path crosses an unapproved mount redirection" activation e
  else if negb (excluded_roots_absent e) then
    refuse "target_root_excluded"
      "the target is within a protected, cloud-synchronized, Steam, or foreign-owned root"
      activation e
  else if (required_bytes e =? 0) || (available_bytes e <? required_bytes e) then
    refuse "target_space_insufficient"
      "available target space does not satisfy the reviewed plan requirement" activation e
  else if negb (source_target_distinct e) then
    refuse "source_target_same_object"
      "the source archive and selected target must be distinct filesystem objects" activation e
  else if negb (persistent_effects_complete e) ||
          (match persistent_effects e with [] => true | _ => false end) then
    refuse "target_effects_incomplete"
      "every persistent effect must be available for operator review" activation e
  else if negb (sha256_text (target_identity_digest e)) then
    refuse "target_identity_unproven"
      "the selected target identity must be digest-bound" activation e
  else mk_decision true EmptyString "live target satisfies the bounded M2 policy"
         (binding_digest activation e).

(** ** Acceptance *)

(** The conditions under which a live target is admitted. *)
Definition admissible (activation : Activation) (e : TargetEvidence) : Prop :=
  (target_class e = operator_acceptance ∧ activation ≠ unavailable ∧
     strictly_below (authorized_acceptance_root e) (target_root e) = true ∨
   target_class e = managed_portable ∧ activation = accepted_live_portable) ∧
  explicitly_supplied e = true ∧ is_absolute (target_root e) = true ∧
  (target_state e = nonexistent ∨ target_state e = empty) ∧
  local_filesystem e = true ∧ filesystem_kind e ≠ EmptyString ∧
  sha256_text (filesystem_identity_digest e) = true ∧
  path_components_stable e = true ∧ mount_redirection_absent e = true ∧
  excluded_roots_absent e = true ∧
  0 < required_bytes e <= available_bytes e ∧
  source_target_distinct e = true ∧
  persistent_effects_complete e = true ∧ persistent_effects e ≠ [] ∧
  sha256_text (target_identity_digest e) = true.

Lemma is_empty_false s : is_empty s = false ↔ s ≠ EmptyString.
Proof. by destruct s. Qed.

Lemma absolute_not_empty p : is_absolute p = true → is_empty p = false.
Proof. by destruct p. Qed.

(** A boolean test as a proposition. *)
Ltac reflect H :=
  rewrite ?andb_true_iff, ?andb_false_iff, ?orb_true_iff, ?orb_false_iff, ?negb_true_iff,
    ?negb_false_iff, ?bool_decide_eq_true, ?bool_decide_eq_false, ?N.eqb_eq, ?N.eqb_neq,
    ?N.ltb_lt, ?N.ltb_ge in H.

Lemma accepted_exactly activation e :
  accepted (evaluate_live_target activation e) = true ↔ admissible activation e.
Proof.
  unfold evaluate_live_target, admissible. split.
  - intros H. repeat match type of H with
    | accepted (if ?c then _ else _) = true =>
        let E := fresh "E" in destruct c eqn:E; [discriminate H|reflect E]
    end.
    destruct_and?. clear H. rewrite !is_empty_false in *.
    assert (target_state e = nonexistent ∨ target_state e = empty) by
      (destruct (target_state e); intuition congruence).
    assert (persistent_effects e ≠ []) by (by destruct (persistent_effects e)).
    split; [|repeat split; try done; lia].
    destruct (decide (target_class e = operator_acceptance)) as [Ho|Ho].
    + left. intuition congruence.
    + right. destruct (decide (target_class e = managed_portable)), (decide (activation = accepted_live_portable));
        intuition congruence.
  - intros ([(Ho & Ha & Hb)|[Hm Ha]]&?&?&Hs&?&?&?&?&?&?&?&?&?&?&?); repeat match goal with
    | |- accepted (if ?c then _ else _) = true =>
        let E := fresh "E" in destruct c eqn:E; [exfalso; reflect E|clear E]
    end; try done; rewrite ?absolute_not_empty in * by done;
      destruct (filesystem_kind e), (persistent_effects e); simpl in *; intuition (congruence || lia).
Qed.

(** C39 A live target is accepted exactly when every condition of the policy
    holds: an admitted class with its activation (and, for operator acceptance,
    a target strictly below the authorized root), an explicit absolute target
    that is nonexistent or empty, a local identity-bound filesystem, no
    redirection or excluded root, enough space for a non-empty plan, a distinct
    source, and complete reviewed effects. *)
Theorem accepted_iff_admissible activation e :
  accepted (evaluate_live_target activation e) = true ↔ admissible activation e.
Proof. apply accepted_exactly. Qed.

(** ** Strict containment *)

Import PathFacts.

Lemma strictly_below_normal root candidate :
  is_absolute root = true → is_absolute candidate = true →
  strictly_below root candidate = true ↔
    components (lexically_normal root) ≠ components (lexically_normal candidate) ∧
    let relative := lexically_relative (lexically_normal candidate) (lexically_normal root) in
    is_empty relative = false ∧ is_absolute relative = false ∧
    Forall (fun part => part ≠ "..") (components relative).
Proof.
  intros Hr Hc. unfold strictly_below, path_eqb.
  rewrite (absolute_not_empty _ Hr), (absolute_not_empty _ Hc), Hr, Hc. simpl.
  cbn zeta. set (relative := lexically_relative _ _).
  destruct (bool_decide_reflect (components (lexically_normal root) =
    components (lexically_normal candidate))) as [E|E]; [by split; [|intros [? _]]|].
  destruct (is_empty relative); [by split; [|intros (_ & ? & _)]|].
  destruct (is_absolute relative); [by split; [|intros (_ & _ & ? & _)]|]. simpl.
  rewrite forallb_forall, Forall_forall. split.
  - intros H. split; [done|]. split; [done|]. split; [done|]. intros x Hx%list_elem_of_In%H.
    by apply negb_true_iff, String.eqb_neq in Hx.
  - intros (_ & _ & _ & H) x Hx. by apply negb_true_iff, String.eqb_neq, H, list_elem_of_In.
Qed.

Lemma plain_dotdot : plain_name "..".
Proof. done. Qed.

Lemma fold_append_components l : Forall plain_name l → l ≠ [] →
  let r := fold_left append_path l EmptyString in
  is_empty r = false ∧ is_absolute r = false ∧
  (Forall (fun part => part ≠ "..") (components r) ↔ Forall (fun part => part ≠ "..") l).
Proof.
  intros Hl Hne r. destruct (fold_append_names l EmptyString Hl eq_refl) as [En Ea].
  fold r in En, Ea. simpl in En. split; [|split; [done|]].
  - destruct r; [|done]. simpl in En. by subst.
  - unfold components. rewrite Ea, En, !Forall_app. simpl.
    split; [by intros (_ & ? & _)|]. intros H. split; [constructor|]. split; [done|].
    destruct (_ && _); repeat constructor. done.
Qed.

(** Where neither normalized path ends with a separator, [strictly_below]
    means what its name says: the candidate's components are the root's
    followed by at least one more. *)
Theorem strictly_below_components root candidate :
  is_absolute root = true → is_absolute candidate = true →
  bare (lexically_normal root) → bare (lexically_normal candidate) →
  strictly_below root candidate = true ↔
  ∃ x rest, names (lexically_normal candidate) = names (lexically_normal root) ++ x :: rest.
Proof.
  intros Hr Hc Br Bc. rewrite strictly_below_normal by done.
  destruct (normal_absolute root Hr) as [Ar Sr], (normal_absolute candidate Hc) as [Ac Sc].
  unfold lexically_relative. rewrite Ar, Ac. simpl Bool.eqb. simpl negb. cbv iota.
  unfold bare in *. rewrite Br, Bc, Ar, Ac. simpl app. cbn [mismatch]. simpl String.eqb. cbv iota.
  set (R := names (lexically_normal root)) in *.
  set (C := names (lexically_normal candidate)) in *.
  destruct (mismatch C R) as [a b] eqn:Em.
  destruct (mismatch_spec _ _ _ _ Em) as (c & Ec & Er & Hne). clearbody R C. subst R C.
  apply Forall_app in Sc as [_ Sa]. apply Forall_app in Sr as [_ Sb].
  assert (∀ l, Forall safe_name l → Forall plain_name l ∧ Forall (fun p => p ≠ "..") l) as Hs.
  { intros l H. split; (eapply Forall_impl; [exact H|]); intros x [? [? ?]]; done. }
  destruct b as [|y b].
  - rewrite app_nil_r. destruct a as [|x a].
    + rewrite app_nil_r. split; [by intros [[] _]|]. intros (x & rest & E).
      apply (f_equal length) in E. rewrite length_app in E. simpl in E. lia.
    + inversion Sa as [|? ? [[_ Hx] _] _]; subst. simpl. rewrite Hx. simpl.
      split; [by eauto|]. intros _. split.
      * intros [= E]. apply (f_equal length) in E. rewrite length_app in E. simpl in E. lia.
      * destruct (Hs _ Sa) as [Hp Hd].
        destruct (fold_append_components (x :: a) Hp ltac:(done)) as (H1 & H2 & H3).
        split; [exact H1|]. split; [exact H2|]. by apply H3.
  - split.
    + intros [_ H]. exfalso. rewrite (up_count_safe _ Sb) in H.
      replace (_ <? 0)%Z with false in H by (symmetry; apply Z.ltb_ge; lia).
      replace (Z.of_nat (length (y :: b)) =? 0)%Z with false in H
        by (symmetry; apply Z.eqb_neq; simpl; lia). simpl andb in H. cbv iota in H.
      assert (match a with [] | _ => True end) by (by destruct a).
      destruct (fold_append_components (repeat ".." (Z.to_nat (Z.of_nat (length (y :: b)))) ++ a))
        as (_ & _ & H3).
      * apply Forall_app. split; [|apply (Hs _ Sa)]. apply Forall_forall. intros z Hz.
        apply list_elem_of_In, repeat_spec in Hz. by subst.
      * rewrite Nat2Z.id. done.
      * assert (Forall (fun part => part ≠ "..") (repeat ".." (Z.to_nat (Z.of_nat (length (y :: b)))) ++ a))
          as HF by (apply H3; destruct a; apply H).
        rewrite Nat2Z.id in HF. inversion HF. done.
    + intros (x & rest & E). exfalso. rewrite <- app_assoc in E. apply app_inv_head in E.
      destruct a as [|z a]; [done|]. injection E as -> _. by apply (Hne y y a b).
Qed.

Lemma strictly_below_components_witness :
  strictly_below "/accept" "/accept/x/../run" = true ∧
  ∃ x rest, names (lexically_normal "/accept/x/../run") = names (lexically_normal "/accept") ++ x :: rest.
Proof.
  assert (strictly_below "/accept" "/accept/x/../run" = true) as H by (vm_compute; reflexivity).
  split; [exact H|].
  apply (strictly_below_components "/accept" "/accept/x/../run"); try (vm_compute; reflexivity).
Defined.

(** With a trailing separator it does not: a root spelled with one counts as
    strictly below itself, and so does its own spelling without one. *)
Theorem strictly_below_itself :
  strictly_below "/accept" "/accept/" = true ∧ strictly_below "/accept/" "/accept" = true.
Proof. split; vm_compute; reflexivity. Qed.

(** ** The binding digest commits to the evidence *)

Definition field_text (f : string * string) : string :=
  prefixed (fst f) +:+ "=" +:+ prefixed (snd f) +:+ String (ascii_of_N 10) EmptyString.

Lemma append_field_text out f : append_field out (fst f) (snd f) = out +:+ field_text f.
Proof. unfold append_field, field_text, prefixed. by rewrite !append_assoc. Qed.

Fixpoint fields_text (l : list (string * string)) : string :=
  match l with [] => EmptyString | f :: l => field_text f +:+ fields_text l end.

Lemma append_fields_text l out :
  fold_left (fun output field => append_field output (fst field) (snd field)) l out =
  out +:+ fields_text l.
Proof.
  revert out. induction l as [|f l IH]; intros out; simpl; [by rewrite append_nil_r|].
  by rewrite IH, append_field_text, append_assoc.
Qed.

Lemma field_text_inj f g r r' : field_text f +:+ r = field_text g +:+ r' → f = g ∧ r = r'.
Proof.
  destruct f as [n v], g as [n' v']. unfold field_text. cbn [fst snd].
  rewrite !append_assoc. intros [-> E]%prefixed_inj. cbn [String.append] in E.
  injection E as E. rewrite ?append_assoc in E. apply prefixed_inj in E as [-> E].
  simpl in E. by injection E.
Qed.

Lemma field_text_ne f : field_text f ≠ EmptyString.
Proof.
  unfold field_text, prefixed. destruct (to_string_first (size (fst f))) as (d & s & -> & _). done.
Qed.

Lemma fields_text_inj l l' : fields_text l = fields_text l' → l = l'.
Proof.
  revert l'. induction l as [|f l IH]; intros [|g l'] E; simpl in E; [done|..].
  - symmetry in E. pose proof (field_text_ne g). by destruct (field_text g).
  - pose proof (field_text_ne f). by destruct (field_text f).
  - apply field_text_inj in E as [-> E]. by rewrite (IH l' E).
Qed.

Lemma payload_fields activation e : binding_payload activation e = fields_text (bound_fields activation e).
Proof. unfold binding_payload. by rewrite append_fields_text. Qed.

Lemma flag_inj a b : flag a = flag b → a = b.
Proof. by destruct a, b. Qed.

Lemma activation_name_inj a b : activation_name a = activation_name b → a = b.
Proof. by destruct a, b. Qed.

Lemma target_class_name_inj a b : target_class_name a = target_class_name b → a = b.
Proof. by destruct a, b. Qed.

Lemma target_state_name_inj a b : target_state_name a = target_state_name b → a = b.
Proof. by destruct a, b. Qed.

Lemma effects_inj l l' :
  map (fun x : string => ("effect", x)) l = map (fun x => ("effect", x)) l' → l = l'.
Proof.
  revert l'. induction l as [|x l IH]; intros [|y l'] [=]; [done|]. f_equal; auto.
Qed.

(** The bytes that are hashed into the binding digest determine the decision
    inputs: two pieces of evidence with the same payload have the same
    activation, class, normalized roots, state, identities, required bytes,
    capacity verdict, every flag, and the same effects in the same order. *)
Theorem binding_payload_injective a a' e e' :
  binding_payload a e = binding_payload a' e' →
  a = a' ∧ target_class e = target_class e' ∧
  generic_string (lexically_normal (target_root e)) =
    generic_string (lexically_normal (target_root e')) ∧
  generic_string (lexically_normal (authorized_acceptance_root e)) =
    generic_string (lexically_normal (authorized_acceptance_root e')) ∧
  target_state e = target_state e' ∧
  target_identity_digest e = target_identity_digest e' ∧
  filesystem_identity_digest e = filesystem_identity_digest e' ∧
  filesystem_kind e = filesystem_kind e' ∧
  required_bytes e = required_bytes e' ∧
  capacity_satisfied e = capacity_satisfied e' ∧
  explicitly_supplied e = explicitly_supplied e' ∧
  local_filesystem e = local_filesystem e' ∧
  path_components_stable e = path_components_stable e' ∧
  mount_redirection_absent e = mount_redirection_absent e' ∧
  excluded_roots_absent e = excluded_roots_absent e' ∧
  source_target_distinct e = source_target_distinct e' ∧
  persistent_effects_complete e = persistent_effects_complete e' ∧
  persistent_effects e = persistent_effects e'.
Proof.
  rewrite !payload_fields. intros H%fields_text_inj.
  injection H as Ha Hc Hr Hq Hs H1 H2 H3 H4 H5 H6 H7 H8 H9 H10 H11 H12 He.
  repeat split; try done;
    eauto using activation_name_inj, target_class_name_inj, target_state_name_inj, to_string_inj,
      flag_inj, effects_inj.
Qed.

Definition sample_evidence (available : N) : TargetEvidence :=
  mk_evidence operator_acceptance "/accept/run" "/accept" nonexistent
    (Sha256.sha256 "t") (Sha256.sha256 "f") "ext4" ["create_directory"] 10 available
    true true true true true true true.

(** The amount of free space is bound only through the capacity verdict. *)
Lemma binding_payload_injective_witness :
  binding_payload operator_acceptance_candidate (sample_evidence 20) =
    binding_payload operator_acceptance_candidate (sample_evidence 25) ∧
  capacity_satisfied (sample_evidence 20) = capacity_satisfied (sample_evidence 25).
Proof.
  assert (binding_payload operator_acceptance_candidate (sample_evidence 20) =
    binding_payload operator_acceptance_candidate (sample_evidence 25)) as H by reflexivity.
  split; [exact H|]. apply (binding_payload_injective _ _ _ _ H).
Defined.

(** The three enumerations of the policy are written and read back by name
    without loss, and nothing but a name is read. *)
Theorem policy_names_round_trip text :
  (∀ c, parse_target_class text = Some c ↔ text = target_class_name c) ∧
  (∀ a, parse_activation text = Some a ↔ text = activation_name a) ∧
  (∀ s, parse_target_state text = Some s ↔ text = target_state_name s).
Proof.
  split; [|split]; intros x; split; try (intros ->; destruct x; vm_compute; reflexivity);
    intros [_ E]%find_some; by apply String.eqb_eq in E.
Qed.

End TargetPolicy.
