(* ===== verification/World.v ===== *)
(** The host the portable code runs on: a POSIX file system reached through
    system calls, the wall clock, and the process itself.

    A file system is a directory of absolute names and a table of inodes.  Every
    system call is one step of a [world]: first anything else on the host may
    act (the oracle [interference]), then the process may die ([dies]), then
    the call may fail without effect ([fails]), and otherwise it does what
    POSIX says.  Theorems that do not restrict the oracles hold under every
    interference, every failure and death at every point.  A call that
    completed stays completed: the loss of unflushed caches is not modelled, so
    flushing is a call that can only fail.  A name below a symbolic link
    resolves to nothing; the sources refuse such paths before they use them. *)

From Stdlib Require Import Ascii String NArith ZArith Lia.
From stdpp Require Import base list strings gmap sets.
From S2P Require Import Prelude Path Effects.

Module World.
Import Path Effects.

(** ** File systems *)

(** What following a symbolic link leads to. *)
Inductive link_target := to_nothing | to_file | to_directory | to_other.

Inductive kind :=
| regular (content : string)
| directory
| symlink (target : link_target)
| special.

Record inode := mk_inode { dev : N; node : kind; mtime : N }.

Abbreviation name := (list string).

Record fs := mk_fs {
  entries : gmap name N;
  inodes : gmap N inode }.

Definition lookup_inode (d : fs) (n : name) : option (N * inode) :=
  i ← entries d !! n; x ← inodes d !! i; Some (i, x).

Definition is_dir_at (d : fs) (n : name) : bool :=
  match lookup_inode d n with Some (_, x) => match node x with directory => true | _ => false end
  | None => false end.

Definition parent_name (n : name) : name := removelast n.

(** The number of names of an inode. *)
Definition link_count (d : fs) (i : N) : N :=
  N.of_nat (length (filter (fun e => e.2 = i) (map_to_list (entries d)))).

Definition below (n m : name) : bool :=
  bool_decide (take (length n) m = n ∧ length n < length m)%nat.

(** The names directly in, and anywhere below, a directory. *)
Definition children (d : fs) (n : name) : list name :=
  List.filter (fun m => below n m && (length m =? S (length n))%nat) (map fst (map_to_list (entries d))).

Definition descendants (d : fs) (n : name) : list name :=
  List.filter (below n) (map fst (map_to_list (entries d))).

(** ** Effects on a file system *)

Definition fresh_inode (d : fs) : N := fresh (dom (inodes d)).

(** Add a new object under a name that is free in an existing directory. *)
Definition create (d : fs) (n : name) (k : kind) (t : N) : option (N * fs) :=
  match entries d !! n, lookup_inode d (parent_name n) with
  | None, Some (_, parent) =>
    match node parent, n with
    | directory, _ :: _ =>
      let i := fresh_inode d in
      Some (i, mk_fs (<[n := i]> (entries d)) (<[i := mk_inode (dev parent) k t]> (inodes d)))
    | _, _ => None
    end
  | _, _ => None
  end.

Definition append_content (d : fs) (i : N) (data : string) (t : N) : option fs :=
  match inodes d !! i with
  | Some (mk_inode v (regular content) _) =>
    Some (mk_fs (entries d) (<[i := mk_inode v (regular (content +:+ data)) t]> (inodes d)))
  | _ => None
  end.

Definition link_name (d : fs) (source target : name) : option fs :=
  match lookup_inode d source, entries d !! target with
  | Some (i, x), None =>
    if is_dir_at d (parent_name target) && negb (is_dir_at d source)
    then Some (mk_fs (<[target := i]> (entries d)) (inodes d)) else None
  | _, _ => None
  end.

Definition unlink_name (d : fs) (n : name) : option fs :=
  match entries d !! n with
  | Some _ => if is_dir_at d n then None else Some (mk_fs (delete n (entries d)) (inodes d))
  | None => None
  end.

(** [rename] of a file over a file or a free name. *)
Definition replace_name (d : fs) (source target : name) : option fs :=
  match entries d !! source with
  | Some i =>
    if is_dir_at d source || is_dir_at d target || negb (is_dir_at d (parent_name target)) then None
    else Some (mk_fs (<[target := i]> (delete source (entries d))) (inodes d))
  | None => None
  end.

Definition rebase (source target n : name) : name :=
  if bool_decide (n = source) || below source n then target ++ drop (length source) n else n.

(** [renameat2(..., RENAME_NOREPLACE)]: a whole tree moves to a free name of the
    same device outside itself. *)
Definition move_tree (d : fs) (source target : name) : option fs :=
  match lookup_inode d source, entries d !! target, lookup_inode d (parent_name target) with
  | Some (_, x), None, Some (_, parent) =>
    if is_dir_at d (parent_name target) && (dev x =? dev parent) && negb (below source target)
    then Some (mk_fs (kmap (rebase source target) (entries d)) (inodes d)) else None
  | _, _, _ => None
  end.

(** [std::filesystem::remove]: a file, a link, or an empty directory. *)
Definition remove_name (d : fs) (n : name) : option fs :=
  match entries d !! n with
  | Some _ =>
    if is_dir_at d n && negb (match children d n with [] => true | _ => false end) then None
    else Some (mk_fs (delete n (entries d)) (inodes d))
  | None => None
  end.

(** ** Worlds *)

(** What the process did to the file system, newest first. *)
Inductive event :=
| created (n : name) (i : N)
| wrote (i : N) (data : string)
| published (n : name) (content : string)
| unlinked (n : name)
| made_directory (n : name)
| moved (source target : name)
| removed (n : name).

Record world := mk_world {
  disk : fs;
  trace : list event;
  steps : nat;
  interference : nat → fs → fs;
  dies : nat → bool;
  fails : nat → bool;
  accepts : nat → N;
  clock : nat → N;
  cwd : path }.

Definition io (A : Type) : Type := M world A.

Definition with_disk (w : world) (d : fs) (es : list event) : world :=
  mk_world d (es ++ trace w) (steps w) (interference w) (dies w) (fails w) (accepts w) (clock w) (cwd w).

(** One step of the host: interference, then possibly the end of the process. *)
Definition tick (w : world) : world :=
  mk_world (interference w (steps w) (disk w)) (trace w) (S (steps w))
    (interference w) (dies w) (fails w) (accepts w) (clock w) (cwd w).

Definition step : io bool := fun w =>
  if dies w (steps w) then (Throw killed, tick w) else (Ok (fails w (steps w)), tick w).

(** A call that only observes; a failed call observes nothing. *)
Definition observe {A} (f : fs → option A) : io (option A) :=
  failed ← step;
  w ← get;
  ret (if failed : bool then None else f (disk w)).

(** A call that changes the file system. *)
Definition effect {A} (f : fs → option (A * fs * list event)) : io (option A) :=
  failed ← step;
  w ← get;
  if failed : bool then ret None
  else match f (disk w) with
       | Some (a, d, es) => put (with_disk w d es);; ret (Some a)
       | None => ret None
       end.

Definition now : io N := w ← get; ret (clock w (steps w)).

(** ** System calls *)

Definition lstat (p : path) : io (option (N * inode)) :=
  observe (fun d => lookup_inode d (names p)).

(** [stat] of an open descriptor; the link count counts names. *)
Definition fstat (i : N) : io (option (inode * N)) :=
  observe (fun d => x ← inodes d !! i; Some (x, link_count d i)).

Definition lstat_links (p : path) : io (option (N * inode * N)) :=
  observe (fun d => '(i, x) ← lookup_inode d (names p); Some (i, x, link_count d i)).

Definition open_existing (p : path) : io (option N) :=
  observe (fun d => '(i, x) ← lookup_inode d (names p);
    match node x with regular _ => Some i | _ => None end).

Definition read_content (i : N) : io (option string) :=
  observe (fun d => x ← inodes d !! i;
    match node x with regular content => Some content | _ => None end).

(** [open] with [O_WRONLY | O_CREAT | O_EXCL | O_NOFOLLOW]. *)
Definition create_exclusive (p : path) : io (option N) :=
  t ← now;
  effect (fun d => '(i, d) ← create d (names p) (regular EmptyString) t;
    Some (i, d, [created (names p) i])).

(** [write]: between one and all of the bytes. *)
Definition write_some (i : N) (data : string) : io (option nat) :=
  w ← get;
  t ← now;
  let count := Nat.max 1 (Nat.min (N.to_nat (accepts w (steps w))) (String.length data)) in
  effect (fun d => d ← append_content d i (str_take count data) t;
    Some (count, d, [wrote i (str_take count data)])).

Definition fsync : io bool := failed ← step; ret (negb failed).

Definition content_of (d : fs) (n : name) : string :=
  match lookup_inode d n with
  | Some (_, mk_inode _ (regular content) _) => content
  | _ => EmptyString
  end.

Definition link (source target : path) : io bool :=
  r ← effect (fun d => d' ← link_name d (names source) (names target);
    Some (tt, d', [published (names target) (content_of d (names source))]));
  ret (match r with Some _ => true | None => false end).

Definition succeeded {A} (m : io (option A)) : io bool :=
  r ← m; ret (match r with Some _ => true | None => false end).

Definition unlink (p : path) : io bool :=
  succeeded (effect (fun d => d ← unlink_name d (names p); Some (tt, d, [unlinked (names p)]))).

Definition rename (source target : path) : io bool :=
  succeeded (effect (fun d => d' ← replace_name d (names source) (names target);
    Some (tt, d', [published (names target) (content_of d (names source))]))).

Definition rename_no_replace (source target : path) : io bool :=
  succeeded (effect (fun d => d ← move_tree d (names source) (names target);
    Some (tt, d, [moved (names source) (names target)]))).

(** [fs::create_directory(p, error)] as used: true when it was created. *)
Definition create_directory (p : path) : io bool :=
  t ← now;
  succeeded (effect (fun d => '(_, d) ← create d (names p) directory t;
    Some (tt, d, [made_directory (names p)]))).

(** [fs::remove(p, error)] with its result and no error. *)
Definition remove (p : path) : io bool :=
  succeeded (effect (fun d => d ← remove_name d (names p); Some (tt, d, [removed (names p)]))).

Definition list_directory (p : path) : io (option (list (name * kind))) :=
  observe (fun d => if is_dir_at d (names p)
    then Some (omap (fun n => '(_, x) ← lookup_inode d n; Some (n, node x)) (children d (names p)))
    else None).

Definition list_recursive (p : path) : io (option (list (name * kind))) :=
  observe (fun d => if is_dir_at d (names p)
    then Some (omap (fun n => '(_, x) ← lookup_inode d n; Some (n, node x)) (descendants d (names p)))
    else None).

(** ** The observations of [std::filesystem] *)

(** [fs::exists]: follows a link. *)
Definition exists_kind (k : kind) : bool :=
  match k with symlink to_nothing => false | _ => true end.

Definition is_directory_kind (k : kind) : bool :=
  match k with directory | symlink to_directory => true | _ => false end.

(** [fs::exists(p)] and [fs::is_directory(p)] throw when the status cannot be
    determined; a failed call is such a case. *)
Definition status (p : path) : io (option (N * inode)) :=
  failed ← step;
  w ← get;
  if failed : bool then fail "filesystem error: cannot get file status"
  else ret (lookup_inode (disk w) (names p)).

Definition exists_ (p : path) : io bool :=
  r ← status p; ret (match r with Some (_, x) => exists_kind (node x) | None => false end).

Definition is_directory (p : path) : io bool :=
  r ← status p; ret (match r with Some (_, x) => is_directory_kind (node x) | None => false end).

(** [fs::is_symlink(fs::symlink_status(p, error)) || error]. *)
Definition reparse_or_symlink (p : path) : io bool :=
  failed ← step;
  w ← get;
  ret ((failed : bool) ||
    match lookup_inode (disk w) (names p) with
    | Some (_, x) => match node x with symlink _ => true | _ => false end
    | None => false
    end).

(** ** The wall clock *)

Definition two_digits (n : N) : string :=
  String (digit_char (n / 10 mod 10)) (String (digit_char (n mod 10)) EmptyString).

Definition four_digits (n : N) : string := two_digits (n / 100) +:+ two_digits n.

(** The civil date of a day counted from 1970-01-01, as [gmtime_r] computes it. *)
Definition civil_of_days (days : N) : N * N * N :=
  let z := days + 719468 in
  let era := z / 146097 in
  let doe := z mod 146097 in
  let yoe := (doe - doe / 1460 + doe / 36524 - doe / 146096) / 365 in
  let doy := doe - (365 * yoe + yoe / 4 - yoe / 100) in
  let mp := (5 * doy + 2) / 153 in
  let d := doy - (153 * mp + 2) / 5 + 1 in
  let m := if mp <? 10 then mp + 3 else mp - 9 in
  let y := yoe + era * 400 + (if m <=? 2 then 1 else 0) in
  (y, m, d).

Definition iso8601 (seconds : N) : string :=
  let '(y, m, d) := civil_of_days (seconds / 86400) in
  let t := seconds mod 86400 in
  four_digits y +:+ "-" +:+ two_digits m +:+ "-" +:+ two_digits d +:+ "T" +:+
  two_digits (t / 3600) +:+ ":" +:+ two_digits (t / 60 mod 60) +:+ ":" +:+
  two_digits (t mod 60) +:+ "Z".

Definition iso8601_now : io string := t ← now; ret (iso8601 t).

Example iso8601_examples :
  (iso8601 0, iso8601 951782399, iso8601 1767225600) =
  ("1970-01-01T00:00:00Z", "2000-02-28T23:59:59Z", "2026-01-01T00:00:00Z").
Proof. vm_compute. reflexivity. Qed.

(** ** Facts *)

(** The oracles never change. *)
Definition same_host (w w' : world) : Prop :=
  interference w' = interference w ∧ dies w' = dies w ∧ fails w' = fails w ∧ accepts w' = accepts w ∧
  clock w' = clock w ∧ cwd w' = cwd w.

#[global] Instance same_host_preorder : PreOrder same_host.
Proof. split; [done|]. unfold same_host. intros a b c. intuition congruence. Qed.

(** A call leaves the history alone, or adds the events of its effect. *)
Definition adds (P : event → Prop) (w w' : world) : Prop :=
  same_host w w' ∧ ∃ es, trace w' = es ++ trace w ∧ Forall P es.

#[global] Instance adds_preorder P : PreOrder (adds P).
Proof.
  split; [split; [done|by exists []]|]. intros a b c (S1 & e1 & H1 & F1) (S2 & e2 & H2 & F2).
  split; [by etransitivity|].
  exists (e2 ++ e1). rewrite H2, H1, app_assoc. split; [done|]. by apply Forall_app.
Qed.

(** The newest event comes first.  Bytes are written only to the file that is held
    open, and to files created before by the same events. *)
Fixpoint own_writes (held : option N) (es : list event) : Prop :=
  match es with
  | [] => True
  | e :: es =>
    match e with wrote i _ => held = Some i ∨ ∃ n, created n i ∈ es | _ => True end ∧ own_writes held es
  end.

Lemma own_writes_app held a b : own_writes held a → own_writes held b → own_writes held (a ++ b).
Proof.
  induction a as [|e a IH]; [done|]. intros [He Ha] Hb. split; [|by apply IH].
  destruct e; try done. destruct He as [He|[n He]]; [by left|right]. exists n. apply elem_of_app. by left.
Qed.

Lemma own_writes_created held i n a : own_writes (Some i) a → own_writes held (a ++ [created n i]).
Proof.
  induction a as [|e a IH]; [done|]. intros [He Ha]. split; [|by apply IH].
  destruct e as [| j | | | | |]; try done. right.
  destruct He as [[= <-]|[m Hm]]; [exists n|exists m]; apply elem_of_app; [right|by left]. by apply list_elem_of_singleton.
Qed.

(** A call adds allowed events and writes to its own files only. *)
Definition acts (held : option N) (P : event → Prop) (w w' : world) : Prop :=
  same_host w w' ∧ ∃ es, trace w' = es ++ trace w ∧ Forall P es ∧ own_writes held es.

#[global] Instance acts_preorder held P : PreOrder (acts held P).
Proof.
  split; [split; [done|by exists []]|]. intros a b c (S1 & e1 & H1 & F1 & O1) (S2 & e2 & H2 & F2 & O2).
  split; [by etransitivity|].
  exists (e2 ++ e1). rewrite H2, H1, app_assoc. split; [done|]. split; [by apply Forall_app|by apply own_writes_app].
Qed.

(** Nothing else acts; calls may fail and the process may die. *)
Definition calm (w : world) : Prop := ∀ n d, interference w n d = d.

Lemma calm_adds P w w' : calm w → adds P w w' → calm w'.
Proof. intros Hc [(Hi & _) _]. unfold calm. by rewrite Hi. Qed.

(** An observation: on a calm host the disk stays as it is. *)
Definition still (w w' : world) : Prop := same_host w w' ∧ (calm w → disk w' = disk w).

#[global] Instance still_preorder : PreOrder still.
Proof.
  split; [done|]. intros a b c [S1 D1] [S2 D2]. split; [by etransitivity|]. intros Hc.
  rewrite D2, D1; [done|done|]. destruct S1 as (Hi & _). unfold calm. by rewrite Hi.
Qed.

Lemma keeps_still_step : keeps still step.
Proof. intros w. unfold step. destruct (dies w (steps w)); (split; [done|]; intros Hc; apply Hc). Qed.

Lemma keeps_still_observe {A} (f : fs → option A) : keeps still (observe f).
Proof.
  apply keeps_bind; [typeclasses eauto|apply keeps_still_step|]. intros b.
  apply keeps_bind; [typeclasses eauto|apply keeps_get; typeclasses eauto|]. intros w.
  apply keeps_ret. typeclasses eauto.
Qed.
#[export] Hint Resolve keeps_still_step keeps_still_observe : eff.

Lemma adds_weaken (P Q : event → Prop) w w' :
  (∀ e, P e → Q e) → adds P w w' → adds Q w w'.
Proof. intros H (S & es & E & F). split; [done|]. exists es. split; [done|]. by eapply Forall_impl. Qed.

Lemma keeps_step_adds P : keeps (adds P) step.
Proof. intros w. unfold step. destruct (dies w (steps w)); (split; [done|by exists []]). Qed.

Lemma keeps_observe_adds {A} P (f : fs → option A) : keeps (adds P) (observe f).
Proof.
  apply keeps_bind; [typeclasses eauto|apply keeps_step_adds|]. intros b.
  apply keeps_bind; [typeclasses eauto|apply keeps_get; typeclasses eauto|]. intros w.
  apply keeps_ret. typeclasses eauto.
Qed.

Lemma keeps_effect_adds {A} (P : event → Prop) (f : fs → option (A * fs * list event)) :
  (∀ d a d' es, f d = Some (a, d', es) → Forall P es) → keeps (adds P) (effect f).
Proof.
  intros H w. unfold effect, mbind, M_bind, step, get.
  destruct (dies w (steps w)); [split; [done|by exists []]|].
  destruct (fails w (steps w)); [split; [done|by exists []]|].
  destruct (f (disk (tick w))) as [[[a d] es]|] eqn:E; [|split; [done|by exists []]].
  split; [done|]. exists es. split; [done|]. eapply H. exact E.
Qed.

Lemma keeps_effect_acts {A} held (P : event → Prop) (f : fs → option (A * fs * list event)) :
  (∀ d a d' es, f d = Some (a, d', es) → Forall P es ∧ own_writes held es) → keeps (acts held P) (effect f).
Proof.
  intros H w. unfold effect, mbind, M_bind, step, get.
  destruct (dies w (steps w)); [split; [done|by exists []]|].
  destruct (fails w (steps w)); [split; [done|by exists []]|].
  destruct (f (disk (tick w))) as [[[a d] es]|] eqn:E; [|split; [done|by exists []]].
  split; [done|]. exists es. split; [done|]. eapply H. exact E.
Qed.

(** What adds no event at all writes nothing. *)
Lemma keeps_acts_quiet {A} held P (m : io A) : keeps (adds (fun _ => False)) m → keeps (acts held P) m.
Proof.
  intros H w. destruct (H w) as (Hs & [|e es] & E & F); [|by inversion F].
  split; [done|]. exists []. done.
Qed.

(** The file that a call has created is its own. *)
Lemma create_exclusive_event p w : let '(r, w') := create_exclusive p w in
  same_host w w' ∧ match r with Ok (Some i) => trace w' = created (names p) i :: trace w | _ => trace w' = trace w end.
Proof.
  unfold create_exclusive, effect, now, mbind, M_bind, step, get, ret.
  destruct (dies w (steps w)); [done|]. destruct (fails w (steps w)); [done|].
  destruct (create (disk (tick w)) (names p) (regular EmptyString) (clock w (steps w))) as [[i d]|]; done.
Qed.

Lemma acts_created {A} held (P : event → Prop) p (w : world) (f : option N → io A) :
  (∀ i, P (created (names p) i)) → (∀ i, keeps (acts (Some i) P) (f (Some i))) → keeps (acts held P) (f None) →
  acts held P w (snd ((create_exclusive p ≫= f) w)).
Proof.
  intros HP Hs Hn. pose proof (create_exclusive_event p w) as H. unfold mbind, M_bind.
  destruct (create_exclusive p w) as [[[i|]|e] w1]; destruct H as [Hh Ht].
  - destruct (Hs i w1) as (Hh' & es & E & F & O). destruct (f (Some i) w1) as [r w2].
    split; [by etransitivity|]. exists (es ++ [created (names p) i]). cbn [snd] in *. rewrite E, Ht, <- app_assoc.
    split; [done|]. split; [|by apply own_writes_created]. apply Forall_app. split; [done|by constructor].
  - etransitivity; [|apply Hn]. split; [done|]. exists []. done.
  - split; [done|]. exists []. done.
Qed.

(** What a call returns comes from its effect on some disk. *)
Lemma effect_result {A} (f : fs → option (A * fs * list event)) w a :
  fst (effect f w) = Ok (Some a) → ∃ d d' es, f d = Some (a, d', es).
Proof.
  unfold effect, mbind, M_bind, step, get, ret, put.
  destruct (dies w (steps w)); [done|]. destruct (fails w (steps w)); [done|].
  destruct (f (disk (tick w))) as [[[b d'] es]|] eqn:E; simpl; [|done]. intros [= ->]. eauto.
Qed.

Lemma ends_step_call : ends step.
Proof. intros w. unfold step. by destruct (dies w (steps w)). Qed.
#[export] Hint Resolve ends_step_call : eff.

Lemma ends_observe {A} (f : fs → option A) : ends (observe f).
Proof. unfold observe. ends_auto. Qed.

Lemma ends_effect {A} (f : fs → option (A * fs * list event)) : ends (effect f).
Proof. unfold effect. ends_auto. Qed.

Lemma ends_now : ends now.
Proof. unfold now. ends_auto. Qed.
#[export] Hint Resolve ends_observe ends_effect ends_now : eff.

Lemma ends_status p : ends (status p).
Proof. unfold status. ends_auto. Qed.
#[export] Hint Resolve ends_status : eff.

End World.
