(* ===== verification/RecordIo.v ===== *)
(** Stable files and durable records: the POSIX branches of
    [runtime/base/usk_stable_file.cpp] and [runtime/base/usk_record_io.cpp].
    The texts of the operating system that some messages end with are left
    out, and the replaceable record writer of the tests is not installed. *)

From Stdlib Require Import Ascii String NArith ZArith Lia.
From stdpp Require Import base list strings gmap sets.
From S2P Require Import Prelude Sha256 Path Effects World.

(** ** Stable files *)

Module StableFile.
Import Path Effects World.

(** [std::hex], width 16, filled with zeros, of a 64-bit number. *)
Definition hex_id (value : N) : string :=
  fold_right (fun index s => String (Sha256.hex_digit_char (N.land (N.shiftr value (index * 4)) 0xf)) s)
    EmptyString [15; 14; 13; 12; 11; 10; 9; 8; 7; 6; 5; 4; 3; 2; 1; 0].

Record StableFileIdentity := mk_identity {
  volume_id : string;
  file_id : string;
  size_bytes : N;
  modified_time_ns : N;
  links : N }.

#[global] Instance identity_eq_dec : EqDecision StableFileIdentity.
Proof. solve_decision. Defined.

Record StableFile := mk_stable {
  path_ : path;
  native_handle_ : N;
  identity_ : StableFileIdentity }.

(** [fs::absolute(p, error)]: an empty path is an error and gives an empty path. *)
Definition absolute (p : path) : io path :=
  w ← get; ret (if is_empty p then EmptyString else if is_absolute p then p else cwd w /+ p).

Definition require_absolute_path (p : path) : io path :=
  a ← absolute p;
  let a := lexically_normal a in
  if is_empty a then fail "local archive path cannot be resolved" else ret a.

Definition identity_from_stat (i : N) (x : inode) (links : N) : result StableFileIdentity :=
  match node x with
  | regular content =>
    if negb (links =? 1)
    then throw "multiply linked source archive is not stable enough for planning"
    else Ok (mk_identity (hex_id (dev x)) (hex_id i) (size content) (mtime x) links)
  | _ => throw "local archive must be a regular non-link file"
  end.

Definition same_identity (left right : StableFileIdentity) : bool := bool_decide (left = right).

Definition is_symlink (x : inode) : bool :=
  match node x with symlink _ => true | _ => false end.

(** A component of the name is a symbolic link. *)
Definition through_link (d : fs) (n : name) : bool :=
  existsb (fun k => match lookup_inode d (take k n) with
    | Some (_, x) => is_symlink x | None => false end) (seq 1 (length n)).

(** The constructor. *)
Definition open_stable (p : path) : io StableFile :=
  path_ ← require_absolute_path p;
  r ← lstat_links path_;
  match r with
  | Some (i, x, n) =>
    if is_symlink x then fail "local archive path is missing or is a symbolic link"
    else
      path_identity ← lift (identity_from_stat i x n);
      h ← open_existing path_;
      match h with
      | None => fail "cannot open local archive without following links"
      | Some descriptor =>
        info ← fstat descriptor;
        match info with
        | None => fail "cannot inspect local archive handle"
        | Some (x, n) =>
          identity ← lift (identity_from_stat descriptor x n);
          if same_identity path_identity identity
          then ret (mk_stable path_ descriptor identity)
          else fail "local archive path changed while acquiring its stable handle"
        end
      end
  | None => fail "local archive path is missing or is a symbolic link"
  end.

(** [read_exact]: every requested byte, or an exception. *)
Definition read_exact (f : StableFile) (offset count : N) : io string :=
  r ← read_content (native_handle_ f);
  match r with
  | Some content =>
    let data := str_take (N.to_nat count) (str_drop (N.to_nat offset) content) in
    if size data =? count then ret data else fail "cannot read stable local archive"
  | None => fail "cannot read stable local archive"
  end.

Definition read (f : StableFile) (offset count : N) : io string :=
  if (size_bytes (identity_ f) <? offset) || (size_bytes (identity_ f) - offset <? count)
  then fail "local archive read exceeds stable source bounds"
  else if count =? 0 then ret EmptyString
  else read_exact f offset count.

(** [while (offset < identity_.size_bytes)] with a 64 KiB buffer. *)
Fixpoint hash_loop (f : StableFile) (fuel : nat) (offset : N) (hash : Sha256.Sha256) : io Sha256.Sha256 :=
  if offset <? size_bytes (identity_ f) then
    match fuel with
    | O => raise out_of_fuel
    | S fuel =>
      let count := N.min (64 * 1024) (size_bytes (identity_ f) - offset) in
      data ← read_exact f offset count;
      hash ← lift (Sha256.update hash data);
      hash_loop f fuel (offset + count) hash
    end
  else ret hash.

Definition sha256_hex (f : StableFile) : io string :=
  hash ← hash_loop f (S (N.to_nat (size_bytes (identity_ f) / (64 * 1024)))) 0 Sha256.initial;
  '(hex, _) ← lift (Sha256.finish hash);
  ret hex.

Definition verify_unchanged (f : StableFile) : io unit :=
  info ← fstat (native_handle_ f);
  match info with
  | None => fail "local archive changed through its stable handle"
  | Some (x, n) =>
    current ← lift (identity_from_stat (native_handle_ f) x n);
    if negb (same_identity (identity_ f) current)
    then fail "local archive changed through its stable handle"
    else
      r ← lstat_links (path_ f);
      match r with
      | None => fail "local archive path was substituted during inspection"
      | Some (i, x, n) =>
        if is_symlink x then fail "local archive path was substituted during inspection"
        else
          current ← lift (identity_from_stat i x n);
          if same_identity (identity_ f) current then ret tt
          else fail "local archive path was substituted during inspection"
      end
  end.

End StableFile.

(** ** Durable records *)

Module RecordIo.
Import Path Effects World StableFile.

Definition valid_identifier (value : string) : bool :=
  negb (is_empty value) && (size value <=? 128) &&
  forall_bytes (fun ch => is_alnum ch || (code ch =? 46) || (code ch =? 95) || (code ch =? 45)) value.

(** Open a directory and flush it. *)
Definition sync_directory (p : path) : io unit :=
  r ← lstat p;
  ok ← (match r with
        | Some (_, x) => if is_directory_kind (node x) then fsync else ret false
        | None => ret false
        end);
  if ok : bool then ret tt else fail "cannot flush durable record directory".

(** The walk over the components below the root. *)
Fixpoint walk_components (current : path) (rest : list string) : io unit :=
  match rest with
  | [] => ret tt
  | component :: rest =>
    let current := current /+ component in
    bad ← or_m (not_m (is_directory current)) (reparse_or_symlink current);
    if bad : bool then fail "record root crosses a linked or non-directory component"
    else walk_components current rest
  end.

Definition require_safe_directory (input : path) : io unit :=
  p ← absolute input;
  let p := lexically_normal p in
  if is_empty p then fail "record root is not an existing safe directory"
  else
  bad ← or_m (not_m (is_directory p)) (reparse_or_symlink p);
  if bad : bool then fail "record root is not an existing safe directory"
  else walk_components (root_text p) (relative_components p).

Definition create_directory_exclusive (parent : path) (nm : string) : io unit :=
  require_safe_directory parent;;
  if negb (valid_identifier nm) then fail "record directory identifier is invalid"
  else
    let target := parent /+ nm in
    bad ← or_m (not_m (create_directory target)) (reparse_or_symlink target);
    if bad : bool then fail "cannot exclusively create record directory"
    else sync_directory parent.

(** [while (remaining != 0)]: every write takes at least one byte. *)
Fixpoint write_loop (fuel : nat) (descriptor : N) (data what : string) : io unit :=
  match data with
  | EmptyString => ret tt
  | _ =>
    match fuel with
    | O => raise out_of_fuel
    | S fuel =>
      r ← write_some descriptor data;
      match r with
      | Some written => write_loop fuel descriptor (str_drop written data) what
      | None => fail what
      end
    end
  end.

Definition write_new_durable_text (p : path) (content : string) : io unit :=
  require_safe_directory (parent_path p);;
  h ← create_exclusive p;
  match h with
  | None => fail "cannot no-clobber create durable record"
  | Some descriptor =>
    write_loop (String.length content) descriptor content "cannot write durable record";;
    ok ← fsync;
    if negb (ok : bool) then fail "cannot flush durable record"
    else sync_directory (parent_path p)
  end.

Definition read_stable_text (p : path) (max_bytes : N) : io string :=
  file ← open_stable p;
  if max_bytes <? size_bytes (identity_ file) then fail "durable record exceeds read budget"
  else
    bytes ← read file 0 (size_bytes (identity_ file));
    verify_unchanged file;;
    ret bytes.

Definition record_rename_no_replace (source target : path) : io unit :=
  require_safe_directory (parent_path source);;
  require_safe_directory (parent_path target);;
  ok ← rename_no_replace source target;
  if (ok : bool) then ret tt
  else fail "platform or filesystem lacks a successful no-replace move".

End RecordIo.
