(* ===== verification/RecordFacts.v ===== *)
(** Stable files and durable records: on an undisturbed host a written record is
    read back byte for byte and hashed correctly; on any host the loops end and
    a creation never overwrites. *)

From Stdlib Require Import Ascii String NArith ZArith Lia.
From stdpp Require Import base list strings gmap sets.
From S2P Require Import Prelude Sha256 Path PathFacts Effects World RecordIo.

Module RecordFacts.
Import Path PathFacts Effects World StableFile RecordIo.

(** ** Undisturbed runs *)

(** Nothing else acts, nothing fails, and the process lives. *)
Definition quiet (w : world) : Prop :=
  (∀ n d, interference w n d = d) ∧ (∀ n, dies w n = false) ∧ (∀ n, fails w n = false).

(** [m] returns [a] and leaves the file system [d]. *)
Definition runs {A} (w : world) (m : io A) (a : A) (d : fs) : Prop :=
  ∃ w', m w = (Ok a, w') ∧ disk w' = d ∧ quiet w' ∧ cwd w' = cwd w.

Lemma runs_ret {A} w (a : A) : quiet w → runs w (ret a) a (disk w).
Proof. intros Hq. by exists w. Qed.

Lemma runs_get w : quiet w → runs w get w (disk w).
Proof. intros Hq. by exists w. Qed.

Lemma runs_lift {A} w r (a : A) : quiet w → r = Ok a → runs w (lift r) a (disk w).
Proof. intros Hq ->. by exists w. Qed.

Lemma runs_bind {A B} w (m : io A) (f : A → io B) a b d d' :
  runs w m a d →
  (∀ w', quiet w' → disk w' = d → cwd w' = cwd w → runs w' (f a) b d') →
  runs w (m ≫= f) b d'.
Proof.
  intros (w1 & E & Hd & Hq & Hc) H. destruct (H w1 Hq Hd Hc) as (w2 & E2 & Hd2 & Hq2 & Hc2).
  exists w2. unfold mbind, M_bind. rewrite E. split; [done|]. split; [done|]. split; [done|congruence].
Qed.

Lemma quiet_tick w : quiet w → quiet (tick w) ∧ disk (tick w) = disk w ∧ cwd (tick w) = cwd w.
Proof. intros (Hi & Hd & Hf). repeat split; simpl; auto. Qed.

Lemma runs_step w : quiet w → runs w step false (disk w).
Proof.
  intros Hq. pose proof Hq as (_ & Hd & Hf). exists (tick w). unfold step. rewrite Hd, Hf.
  destruct (quiet_tick w Hq) as (? & ? & ?). done.
Qed.

Lemma runs_observe {A} w (f : fs → option A) : quiet w → runs w (observe f) (f (disk w)) (disk w).
Proof.
  intros Hq. eapply runs_bind; [by apply runs_step|]. intros w' Hq' Hd Hc. cbv beta.
  exists w'. by rewrite <- Hd.
Qed.

Lemma runs_effect {A} w (f : fs → option (A * fs * list event)) a d es : quiet w →
  f (disk w) = Some (a, d, es) → runs w (effect f) (Some a) d.
Proof.
  intros Hq Hf. eapply runs_bind; [by apply runs_step|]. intros w' Hq' Hd Hc. cbv beta.
  exists (with_disk w' d es). unfold mbind, M_bind, get. rewrite Hd, Hf. done.
Qed.

Lemma runs_now w : quiet w → runs w now (clock w (steps w)) (disk w).
Proof. intros Hq. by exists w. Qed.

Lemma runs_fsync w : quiet w → runs w fsync true (disk w).
Proof.
  intros Hq. eapply runs_bind; [by apply runs_step|]. intros w' Hq' Hd Hc. by exists w'.
Qed.

Lemma runs_status w p : quiet w → runs w (status p) (lookup_inode (disk w) (names p)) (disk w).
Proof.
  intros Hq. eapply runs_bind; [by apply runs_step|]. intros w' Hq' Hd Hc. cbv beta.
  exists w'. unfold mbind, M_bind, get. by rewrite Hd.
Qed.

(** An undisturbed run ends with a value and a disk that satisfy [Q]. *)
Definition ensures {A} (w : world) (m : io A) (Q : A → fs → Prop) : Prop :=
  ∃ a d, runs w m a d ∧ Q a d.

Lemma ensures_runs {A} w (m : io A) a d (Q : A → fs → Prop) : runs w m a d → Q a d → ensures w m Q.
Proof. intros. by exists a, d. Qed.

Lemma ensures_ret {A} w (a : A) (Q : A → fs → Prop) : quiet w → Q a (disk w) → ensures w (ret a) Q.
Proof. intros. eapply ensures_runs; [by apply runs_ret|done]. Qed.

Lemma ensures_bind {A B} w (m : io A) (f : A → io B) P Q :
  ensures w m P →
  (∀ a w', quiet w' → P a (disk w') → cwd w' = cwd w → ensures w' (f a) Q) →
  ensures w (m ≫= f) Q.
Proof.
  intros (a & d & (w1 & E & <- & Hq & Hc) & HP) H.
  destruct (H a w1 Hq HP Hc) as (b & d' & (w2 & E2 & Hd2 & Hq2 & Hc2) & HQ).
  exists b, d'. split; [|done]. exists w2. unfold mbind, M_bind. rewrite E.
  split; [done|]. split; [done|]. split; [done|congruence].
Qed.

(** Sequence a step whose result and disk are known. *)
Lemma ensures_then {A B} w (m : io A) (f : A → io B) a d Q :
  runs w m a d →
  (∀ w', quiet w' → disk w' = d → cwd w' = cwd w → ensures w' (f a) Q) →
  ensures w (m ≫= f) Q.
Proof.
  intros Hr H. eapply (ensures_bind _ _ _ (fun a' d' => a' = a ∧ d' = d)).
  - eapply ensures_runs; [exact Hr|done].
  - intros ? w' Hq [-> Hd] Hc. by apply H.
Qed.

(** ** Reading a stable file *)

Definition holds_file (d : fs) (p : path) (i : N) (content : string) : Prop :=
  ∃ v t, lookup_inode d (names p) = Some (i, mk_inode v (regular content) t) ∧ link_count d i = 1.

Definition normal_absolute_path (p : path) : Prop :=
  is_absolute p = true ∧ lexically_normal p = p.

Definition stable_of (p : path) (i : N) (v t : N) (content : string) : StableFile :=
  mk_stable p i (mk_identity (hex_id v) (hex_id i) (size content) t 1).

Lemma lookup_inode_inv d n i x : lookup_inode d n = Some (i, x) →
  entries d !! n = Some i ∧ inodes d !! i = Some x.
Proof.
  unfold lookup_inode. intros (j & Hj & H)%bind_Some.
  apply bind_Some in H as (y & Hy & [= -> ->]). done.
Qed.

Lemma runs_require_absolute w p : quiet w → normal_absolute_path p →
  runs w (require_absolute_path p) p (disk w).
Proof.
  intros Hq [Ha Hn]. unfold require_absolute_path, absolute. exists w.
  unfold mbind, M_bind, get, ret. destruct p; [done|]. cbn [is_empty]. by rewrite Ha, Hn.
Qed.

Ltac run_bind lem := eapply runs_bind; [lem|intros ? ? ? ?; cbv beta iota].

Lemma runs_open_stable w p i v t content : quiet w → normal_absolute_path p →
  lookup_inode (disk w) (names p) = Some (i, mk_inode v (regular content) t) →
  link_count (disk w) i = 1 →
  runs w (open_stable p) (stable_of p i v t content) (disk w).
Proof.
  intros Hq Hp Hl Hc. destruct (lookup_inode_inv _ _ _ _ Hl) as [He Hi].
  eapply runs_bind; [by apply runs_require_absolute|]. intros w1 Q1 D1 _. cbv beta.
  eapply runs_bind; [by apply runs_observe|]. rewrite D1, Hl. simpl. rewrite Hc.
  intros w2 Q2 D2 _. eapply runs_bind; [apply runs_lift; [done|reflexivity]|].
  intros w3 Q3 D3 _. cbv beta.
  eapply runs_bind; [by apply runs_observe|]. rewrite D3, D2, Hl. simpl.
  intros w4 Q4 D4 _.
  eapply runs_bind; [by apply runs_observe|]. rewrite D4, Hi. simpl. rewrite Hc.
  intros w5 Q5 D5 _. eapply runs_bind; [apply runs_lift; [done|reflexivity]|].
  intros w6 Q6 D6 _. cbv beta. unfold same_identity. rewrite bool_decide_true by done.
  rewrite <- D5, <- D6. by apply runs_ret.
Qed.

Lemma runs_verify_unchanged w p i v t content : quiet w →
  lookup_inode (disk w) (names p) = Some (i, mk_inode v (regular content) t) →
  link_count (disk w) i = 1 →
  runs w (verify_unchanged (stable_of p i v t content)) tt (disk w).
Proof.
  intros Hq Hl Hc. destruct (lookup_inode_inv _ _ _ _ Hl) as [He Hi].
  eapply runs_bind; [by apply runs_observe|]. simpl. rewrite Hi. simpl. rewrite Hc.
  intros w1 Q1 D1 _. eapply runs_bind; [apply runs_lift; [done|reflexivity]|].
  intros w2 Q2 D2 _. cbv beta. unfold same_identity at 1. rewrite bool_decide_true by done. simpl.
  eapply runs_bind; [by apply runs_observe|]. simpl. rewrite D2, D1, Hl. simpl. rewrite Hc.
  intros w3 Q3 D3 _. eapply runs_bind; [apply runs_lift; [done|reflexivity]|].
  intros w4 Q4 D4 _. cbv beta. unfold same_identity. rewrite bool_decide_true by done.
  rewrite <- D3, <- D4. by apply runs_ret.
Qed.

Lemma str_take_ge n s : (String.length s <= n)%nat → str_take n s = s.
Proof.
  revert s. induction n as [|n IH]; intros [|c s] H; simpl in *; try done; [lia|].
  by rewrite IH by lia.
Qed.

Lemma str_drop_0 s : str_drop 0 s = s.
Proof. by destruct s. Qed.

Lemma runs_read_exact w p i v t content offset count : quiet w →
  inodes (disk w) !! i = Some (mk_inode v (regular content) t) →
  offset + count <= size content →
  runs w (read_exact (stable_of p i v t content) offset count)
    (str_take (N.to_nat count) (str_drop (N.to_nat offset) content)) (disk w).
Proof.
  intros Hq Hi Hb. eapply runs_bind; [by apply runs_observe|]. simpl. rewrite Hi. simpl.
  intros w1 Q1 D1 _. unfold size in *. rewrite length_str_take, length_str_drop.
  rewrite (proj2 (N.eqb_eq _ _)) by lia. rewrite <- D1. by apply runs_ret.
Qed.

Lemma runs_read_all w p i v t content : quiet w →
  inodes (disk w) !! i = Some (mk_inode v (regular content) t) →
  runs w (read (stable_of p i v t content) 0 (size content)) content (disk w).
Proof.
  intros Hq Hi. unfold read. simpl. rewrite N.sub_0_r, (proj2 (N.ltb_ge _ _)) by lia.
  rewrite (proj2 (N.ltb_ge _ _)) by lia. simpl.
  destruct (N.eqb_spec (size content) 0) as [E|E].
  { destruct content; [by apply runs_ret|]. rewrite size_cons in E. lia. }
  pose proof (runs_read_exact w p i v t content 0 (size content) Hq Hi ltac:(lia)) as H.
  unfold size in H at 2. rewrite Nat2N.id, N2Nat.inj_0, str_drop_0, str_take_ge in H by lia. exact H.
Qed.

Lemma runs_read_stable_text w p i content limit : quiet w → normal_absolute_path p →
  holds_file (disk w) p i content → size content <= limit →
  runs w (read_stable_text p limit) content (disk w).
Proof.
  intros Hq Hp (v & t & Hl & Hc) Hs.
  eapply runs_bind; [by eapply runs_open_stable|]. intros w1 Q1 D1 _. simpl.
  rewrite (proj2 (N.ltb_ge _ _)) by done.
  destruct (lookup_inode_inv _ _ _ _ Hl) as [_ Hi].
  eapply runs_bind; [apply runs_read_all; [done|by rewrite D1]|]. intros w2 Q2 D2 _. cbv beta.
  eapply runs_bind; [apply runs_verify_unchanged; [done|by rewrite D2, D1..]|].
  intros w3 Q3 D3 _. rewrite <- D1, <- D2, <- D3. by apply runs_ret.
Qed.

(** ** Hashing a stable file *)

Lemma str_take_split a b s :
  str_take (a + b) s = str_take a s +:+ str_take b (str_drop a s).
Proof. revert s. induction a as [|a IH]; intros [|c s]; simpl; try done; [by destruct b|]. by rewrite IH. Qed.

Lemma runs_hash_loop w p i v t content fuel offset h : quiet w →
  inodes (disk w) !! i = Some (mk_inode v (regular content) t) →
  offset <= size content → size content - offset <= 65536 * N.of_nat fuel →
  Sha256.fed h (str_take (N.to_nat offset) content) →
  ∃ h', runs w (hash_loop (stable_of p i v t content) fuel offset h) h' (disk w) ∧ Sha256.fed h' content.
Proof.
  intros Hq Hi. revert w Hq Hi offset h. induction fuel as [|fuel IH]; intros w Hq Hi offset h Ho Hs Hf;
    cbn [hash_loop]; simpl size_bytes;
    destruct (N.ltb_spec offset (size content)) as [Hlt|Hge]; try lia.
  - exists h. split; [by apply runs_ret|]. rewrite str_take_ge in Hf by (unfold size in *; lia). done.
  - set (count := N.min (64 * 1024) (size content - offset)).
    set (data := str_take (N.to_nat count) (str_drop (N.to_nat offset) content)).
    destruct (Sha256.fed_update h _ data Hf) as (h1 & E1 & F1).
    unfold data in F1. rewrite <- str_take_split, <- N2Nat.inj_add in F1.
    assert (∀ w', quiet w' → disk w' = disk w → ∃ h', runs w'
      (hash_loop (stable_of p i v t content) fuel (offset + count) h1) h' (disk w') ∧
      Sha256.fed h' content) as H.
    { intros w' Q' D'. apply IH; [done|by rewrite D'|unfold count; lia..|done]. }
    pose proof (runs_read_exact w p i v t content offset count Hq Hi ltac:(unfold count; lia)) as Hr.
    destruct Hr as (w1 & R1 & D1 & Q1 & C1).
    destruct (H w1 Q1 D1) as (h' & (w2 & R2 & D2 & Q2 & C2) & F2). exists h'. split; [|done].
    exists w2. unfold mbind, M_bind. rewrite R1. unfold lift. fold data. rewrite E1. simpl.
    rewrite R2. split; [done|]. rewrite D2. split; [done|]. split; [done|congruence].
  - exists h. split; [by apply runs_ret|]. rewrite str_take_ge in Hf by (unfold size in *; lia). done.
Qed.

Lemma runs_sha256_hex w p i v t content : quiet w →
  inodes (disk w) !! i = Some (mk_inode v (regular content) t) →
  runs w (sha256_hex (stable_of p i v t content)) (Sha256.sha256 content) (disk w).
Proof.
  intros Hq Hi. unfold sha256_hex. simpl size_bytes.
  destruct (runs_hash_loop w p i v t content (S (N.to_nat (size content / (64 * 1024)))) 0 Sha256.initial
    Hq Hi ltac:(lia)) as (h & Hr & Hf).
  { pose proof (N.div_mod (size content) 65536 ltac:(lia)) as E.
    pose proof (N.mod_lt (size content) 65536 ltac:(lia)).
    change (64 * 1024) with 65536. lia. }
  { change (N.to_nat 0) with 0%nat. destruct content; apply Sha256.fed_initial. }
  eapply runs_bind; [exact Hr|]. intros w1 Q1 D1 _. cbv beta.
  destruct (Sha256.finish_fed h content Hf) as (h' & E & _). rewrite E.
  rewrite <- D1. by exists w1.
Qed.

(** ** Writing a record *)

(** Every name leads to an inode. *)
Definition fs_ok (d : fs) : Prop := ∀ n i, entries d !! n = Some i → is_Some (inodes d !! i).

Lemma fresh_inode_free d : inodes d !! fresh_inode d = None.
Proof. apply not_elem_of_dom. unfold fresh_inode. apply is_fresh. Qed.

Lemma fresh_inode_unused d n : fs_ok d → entries d !! n ≠ Some (fresh_inode d).
Proof. intros H E. destruct (H _ _ E) as [x Hx]. by rewrite fresh_inode_free in Hx. Qed.

Lemma link_count_fresh d n x : fs_ok d → entries d !! n = None →
  link_count (mk_fs (<[n := fresh_inode d]> (entries d)) x) (fresh_inode d) = 1.
Proof.
  intros Hok Hn. unfold link_count. simpl.
  assert (filter (λ e : name * N, e.2 = fresh_inode d) (map_to_list (<[n := fresh_inode d]> (entries d)))
    ≡ₚ [(n, fresh_inode d)]) as E.
  { rewrite map_to_list_insert by done. rewrite filter_cons_True by done.
    assert (filter (λ e : name * N, e.2 = fresh_inode d) (map_to_list (entries d)) = []) as ->; [|done].
    destruct (filter _ (map_to_list (entries d))) as [|[m i] l] eqn:El; [done|exfalso].
    assert ((m, i) ∈ filter (λ e : name * N, e.2 = fresh_inode d) (map_to_list (entries d)))
      as [Hi Hm]%list_elem_of_filter by (rewrite El; left).
    simpl in Hi. subst. apply elem_of_map_to_list in Hm. by eapply fresh_inode_unused. }
  by rewrite E.
Qed.

(** The disk after one new file: nothing else has changed. *)
Definition adds_file (d d' : fs) (p : path) (i : N) (content : string) : Prop :=
  ∃ v t, inodes d !! i = None ∧ entries d !! names p = None ∧
    entries d' = <[names p := i]> (entries d) ∧
    inodes d' = <[i := mk_inode v (regular content) t]> (inodes d).

Lemma adds_file_holds d d' p i content : fs_ok d → i = fresh_inode d →
  adds_file d d' p i content → holds_file d' p i content.
Proof.
  intros Hok -> (v & t & Hi & Hn & He & Hi'). exists v, t. unfold lookup_inode.
  destruct d' as [e' x']. simpl in *. subst. rewrite lookup_insert_eq. simpl.
  rewrite lookup_insert_eq. simpl. split; [done|]. by apply link_count_fresh.
Qed.

Lemma runs_write_loop fuel w i v content t data what : quiet w →
  inodes (disk w) !! i = Some (mk_inode v (regular content) t) →
  (String.length data <= fuel)%nat →
  ∃ t' d', runs w (write_loop fuel i data what) tt d' ∧ entries d' = entries (disk w) ∧
    inodes d' = <[i := mk_inode v (regular (content +:+ data)) t']> (inodes (disk w)).
Proof.
  revert w content t data. induction fuel as [|fuel IH]; intros w content t data Hq Hi Hl.
  { destruct data; [|simpl in Hl; lia]. exists t, (disk w). split; [by apply runs_ret|].
    split; [done|]. by rewrite append_nil_r, insert_id. }
  destruct data as [|c data].
  { exists t, (disk w). split; [by apply runs_ret|]. split; [done|]. by rewrite append_nil_r, insert_id. }
  cbn [write_loop]. set (count := Nat.max 1 (Nat.min (N.to_nat (accepts w (steps w))) (String.length (String c data)))).
  set (d1 := mk_fs (entries (disk w))
    (<[i := mk_inode v (regular (content +:+ str_take count (String c data))) (clock w (steps w))]> (inodes (disk w)))).
  assert (runs w (write_some i (String c data)) (Some count) d1) as (w1 & R1 & D1 & Q1 & C1).
  { unfold write_some, mbind, M_bind, get, now, ret. eapply runs_effect; [done|].
    unfold append_content. rewrite Hi. reflexivity. }
  destruct (IH w1 (content +:+ str_take count (String c data)) (clock w (steps w))
    (str_drop count (String c data)) Q1) as (t' & d' & (w2 & R2 & D2 & Q2 & C2) & He & Hx).
  { rewrite D1. simpl. by rewrite lookup_insert_eq. }
  { rewrite length_str_drop. simpl in *. lia. }
  exists t', d'. split.
  { exists w2. unfold mbind, M_bind. rewrite R1. split; [done|]. split; [done|]. split; [done|congruence]. }
  split; [by rewrite He, D1|]. rewrite Hx, D1. simpl inodes.
  by rewrite append_assoc, str_take_drop, insert_insert_eq.
Qed.

Lemma adds_file_other d d' p i content n j x :
  adds_file d d' p i content → lookup_inode d n = Some (j, x) → lookup_inode d' n = Some (j, x).
Proof.
  intros (v & t & Hi & Hn & He & Hx) [H1 H2]%lookup_inode_inv. unfold lookup_inode.
  rewrite He, Hx, lookup_insert_ne by congruence. rewrite H1. simpl.
  rewrite lookup_insert_ne by congruence. by rewrite H2.
Qed.

(** Every component of the path is a directory, from the root on. *)
Definition safe_dir (d : fs) (l : list string) : Prop := ∀ k, is_dir_at d (take k l) = true.

Lemma safe_dir_here d l : safe_dir d l → is_dir_at d l = true.
Proof. intros H. specialize (H (length l)). by rewrite firstn_all in H. Qed.

Lemma is_dir_at_inv d n : is_dir_at d n = true →
  ∃ i x, lookup_inode d n = Some (i, x) ∧ node x = directory.
Proof. unfold is_dir_at. destruct (lookup_inode d n) as [[i [v [] t]]|]; naive_solver. Qed.

Lemma is_dir_at_intro d n i x : lookup_inode d n = Some (i, x) → node x = directory → is_dir_at d n = true.
Proof. intros H1 H2. unfold is_dir_at. by rewrite H1, H2. Qed.

Lemma safe_dir_adds d d' p i content l : adds_file d d' p i content → safe_dir d l → safe_dir d' l.
Proof.
  intros Ha H k. destruct (is_dir_at_inv _ _ (H k)) as (j & x & E & Hx).
  eapply is_dir_at_intro; [by eapply adds_file_other|done].
Qed.

Lemma runs_is_directory w p : quiet w → is_dir_at (disk w) (names p) = true →
  runs w (is_directory p) true (disk w).
Proof.
  intros Hq (i & x & E & Hx)%is_dir_at_inv. eapply runs_bind; [by apply runs_status|].
  intros w1 Q1 D1 _. rewrite E, Hx, <- D1. by apply runs_ret.
Qed.

Lemma runs_reparse w p : quiet w → is_dir_at (disk w) (names p) = true →
  runs w (reparse_or_symlink p) false (disk w).
Proof.
  intros Hq (i & x & E & Hx)%is_dir_at_inv. eapply runs_bind; [by apply runs_step|].
  intros w1 Q1 D1 _. exists w1. unfold mbind, M_bind, get, ret. rewrite D1, E, Hx. done.
Qed.

(** [!fs::is_directory(p) || reparse_or_symlink(p)] of a directory. *)
Lemma runs_plain_directory w p : quiet w → is_dir_at (disk w) (names p) = true →
  runs w (or_m (not_m (is_directory p)) (reparse_or_symlink p)) false (disk w).
Proof.
  intros Hq Hd. unfold or_m, not_m.
  assert (runs w (x ← is_directory p; ret (negb x)) false (disk w)) as Hn.
  { eapply runs_bind; [by apply runs_is_directory|]. intros w1 Q1 D1 _. rewrite <- D1. by apply runs_ret. }
  eapply runs_bind; [exact Hn|].
  intros w2 Q2 D2 _. cbv beta iota. rewrite <- D2. apply runs_reparse; [done|by rewrite D2].
Qed.

Lemma runs_walk w rest pre : quiet w → Forall safe_name (pre ++ rest) →
  safe_dir (disk w) (pre ++ rest) → runs w (walk_components (abs_text pre) rest) tt (disk w).
Proof.
  revert w pre. induction rest as [|c rest IH]; intros w pre Hq Hs Hd; [by apply runs_ret|].
  cbn [walk_components]. rewrite cons_middle, app_assoc in Hs, Hd.
  assert (Forall safe_name (pre ++ [c])) as Hs1 by (by apply Forall_app in Hs as [? _]).
  assert (abs_text pre /+ c = abs_text (pre ++ [c])) as Ec.
  { apply safe_plain, Forall_app in Hs1 as [? Hc]. apply abs_text_append; [done|by inversion Hc]. }
  assert (is_dir_at (disk w) (names (abs_text pre /+ c)) = true) as Hdir.
  { rewrite Ec, names_abs_text by (by apply safe_plain).
    specialize (Hd (length (pre ++ [c]))). by rewrite take_app_length in Hd. }
  eapply runs_bind; [by apply runs_plain_directory|]. intros w1 Q1 D1 _. cbv beta iota.
  rewrite Ec, <- D1. apply IH; [done|done|by rewrite D1].
Qed.

Lemma runs_require_safe_directory w l : quiet w → Forall safe_name l → safe_dir (disk w) l →
  runs w (require_safe_directory (abs_text l)) tt (disk w).
Proof.
  intros Hq Hs Hd. unfold require_safe_directory.
  assert (runs w (absolute (abs_text l)) (abs_text l) (disk w)) as Ha by (by exists w).
  eapply runs_bind; [exact Ha|].
  intros w1 Q1 D1 _. cbv beta. rewrite normal_abs_text by done. cbn [abs_text is_empty].
  change (String slash (join_names l)) with (abs_text l).
  assert (is_dir_at (disk w) (names (abs_text l)) = true) as Hdir.
  { rewrite names_abs_text by (by apply safe_plain). by apply safe_dir_here. }
  eapply runs_bind; [apply runs_plain_directory; [done|by rewrite D1]|]. intros w2 Q2 D2 _.
  rewrite abs_text_components by (by apply safe_plain). cbv beta iota.
  rewrite <- D1, <- D2. change (root_text (abs_text l)) with (abs_text []).
  apply runs_walk; [done|done|by rewrite D2, D1].
Qed.

Lemma create_free d l x k t j y : entries d !! (l ++ [x]) = None →
  lookup_inode d l = Some (j, y) → node y = directory →
  create d (l ++ [x]) k t = Some (fresh_inode d,
    mk_fs (<[l ++ [x] := fresh_inode d]> (entries d))
      (<[fresh_inode d := mk_inode (dev y) k t]> (inodes d))).
Proof.
  intros Hn E Hy. unfold create, parent_name. rewrite Hn, removelast_last, E, Hy.
  destruct (l ++ [x]) eqn:El; [by destruct l|done].
Qed.

Lemma runs_create w l x : quiet w → Forall safe_name (l ++ [x]) → safe_dir (disk w) l →
  entries (disk w) !! (l ++ [x]) = None →
  ∃ d', runs w (create_exclusive (abs_text (l ++ [x]))) (Some (fresh_inode (disk w))) d' ∧
    adds_file (disk w) d' (abs_text (l ++ [x])) (fresh_inode (disk w)) EmptyString.
Proof.
  intros Hq Hs Hd Hn. pose proof (is_dir_at_inv _ _ (safe_dir_here _ _ Hd)) as (j & y & E & Hy).
  eexists. split.
  - unfold create_exclusive, now. eapply runs_bind; [by exists w|]. intros w1 Q1 D1 _. cbv beta.
    eapply runs_effect; [done|]. rewrite names_abs_text, D1 by (by apply safe_plain).
    erewrite create_free by done. reflexivity.
  - eexists _, _. rewrite names_abs_text by (by apply safe_plain).
    split; [apply fresh_inode_free|]. split; [done|]. split; reflexivity.
Qed.

Lemma runs_sync_directory w l : quiet w → Forall safe_name l → safe_dir (disk w) l →
  runs w (sync_directory (abs_text l)) tt (disk w).
Proof.
  intros Hq Hs (j & y & E & Hy)%safe_dir_here%is_dir_at_inv.
  eapply runs_bind; [by apply runs_observe|]. intros w1 Q1 D1 _.
  rewrite names_abs_text, E by (by apply safe_plain). cbv beta iota. rewrite Hy. cbn [is_directory_kind].
  eapply runs_bind; [by apply runs_fsync|]. intros w2 Q2 D2 _. cbv beta.
  rewrite <- D1, <- D2. by apply runs_ret.
Qed.

(** Creating, filling and flushing a record. *)
Lemma write_new_ensures w l x content : quiet w → Forall safe_name (l ++ [x]) →
  safe_dir (disk w) l → entries (disk w) !! (l ++ [x]) = None →
  ensures w (write_new_durable_text (abs_text (l ++ [x])) content) (fun _ d' =>
    adds_file (disk w) d' (abs_text (l ++ [x])) (fresh_inode (disk w)) content).
Proof.
  intros Hq Hs Hd Hn. pose proof Hs as [Hl Hx]%Forall_app.
  assert (parent_path (abs_text (l ++ [x])) = abs_text l) as Ep.
  { apply parent_abs_text; [by apply safe_plain|]. by inversion Hx as [|? ? [? _]]. }
  unfold write_new_durable_text. rewrite Ep.
  eapply ensures_then; [by apply runs_require_safe_directory|]. intros w1 Q1 D1 _. rewrite <- D1 in *.
  destruct (runs_create w1 l x Q1 Hs Hd Hn) as (d2 & R2 & A2).
  eapply ensures_then; [exact R2|]. intros w2 Q2 D2 _. rewrite <- D2 in A2. cbv beta iota.
  pose proof A2 as (v & t & Hf & Hn' & He & Hi).
  destruct (runs_write_loop (String.length content) w2 (fresh_inode (disk w1)) v EmptyString t content
    "cannot write durable record" Q2 ltac:(by rewrite Hi, lookup_insert_eq) ltac:(lia))
    as (t' & d3 & R3 & He3 & Hi3).
  eapply ensures_then; [exact R3|]. intros w3 Q3 D3 _. rewrite <- D3 in *. cbv beta.
  assert (adds_file (disk w1) (disk w3) (abs_text (l ++ [x])) (fresh_inode (disk w1)) content) as A3.
  { exists v, t'. rewrite He3, Hi3, He, Hi, insert_insert_eq. done. }
  eapply ensures_then; [by apply runs_fsync|]. intros w4 Q4 D4 _. rewrite <- D4 in A3. simpl.
  eapply ensures_runs; [apply runs_sync_directory; [done|done|by eapply safe_dir_adds]|done].
Qed.

(** A durable record is read back byte for byte: on an undisturbed host, in
    an existing directory and under a name not in use, writing any content no
    longer than the reading budget and reading it again returns that content,
    and the new name is the only change to the file system. *)
Theorem record_round_trip w l x content limit :
  quiet w → fs_ok (disk w) → Forall safe_name (l ++ [x]) → safe_dir (disk w) l →
  entries (disk w) !! (l ++ [x]) = None → size content <= limit →
  let p := abs_text (l ++ [x]) in
  ensures w (write_new_durable_text p content;; read_stable_text p limit) (fun text d' =>
    text = content ∧ ∃ i, adds_file (disk w) d' p i content).
Proof.
  intros Hq Hok Hs Hd Hn Hc p. eapply ensures_bind; [by apply write_new_ensures|].
  intros u w1 Q1 A1 _. cbv beta in A1. eapply ensures_runs.
  - eapply runs_read_stable_text; [done| |by eapply adds_file_holds|done].
    split; [done|by apply normal_abs_text].
  - by eauto.
Qed.

(** The digest of a stable file, computed in 64 KiB pieces, is the SHA-256 of
    its whole content. *)
Theorem stable_file_digest w p i content :
  quiet w → normal_absolute_path p → holds_file (disk w) p i content →
  runs w (f ← open_stable p; sha256_hex f) (Sha256.sha256 content) (disk w).
Proof.
  intros Hq Hp (v & t & Hl & Hc). eapply runs_bind; [by eapply runs_open_stable|].
  intros w1 Q1 D1 _. rewrite <- D1. apply runs_sha256_hex; [done|].
  rewrite D1. by apply lookup_inode_inv in Hl as [_ ?].
Qed.

(** ** On any host *)

Lemma ends_walk cur rest : ends (walk_components cur rest).
Proof.
  revert cur. induction rest; intros cur; simpl; unfold is_directory, reparse_or_symlink; ends_auto.
Qed.

Lemma ends_require_safe_directory p : ends (require_safe_directory p).
Proof.
  unfold require_safe_directory, absolute, is_directory, reparse_or_symlink.
  ends_auto; apply ends_walk.
Qed.

Lemma write_some_count i data w n : fst (write_some i data w) = Ok (Some n) → (1 <= n)%nat.
Proof.
  unfold write_some, mbind, M_bind, get, now, ret.
  intros (d & d' & es & H)%effect_result. apply bind_Some in H as (d1 & _ & [= <- _ _]). lia.
Qed.

Lemma ends_write_some i data : ends (write_some i data).
Proof. unfold write_some. ends_auto. Qed.

Lemma ends_write_loop fuel i data what : (String.length data <= fuel)%nat → ends (write_loop fuel i data what).
Proof.
  revert data. induction fuel as [|fuel IH]; intros [|c data] Hl; try apply ends_ret; [simpl in Hl; lia|].
  intros w. cbn [write_loop]. unfold mbind, M_bind.
  pose proof (ends_write_some i (String c data) w) as He.
  pose proof (write_some_count i (String c data) w) as Hc.
  destruct (write_some i (String c data) w) as [[[n|]|e] w']; simpl in *; [|done|congruence].
  apply IH. rewrite length_str_drop. specialize (Hc n eq_refl). simpl in *. lia.
Qed.

Lemma ends_fsync : ends fsync.
Proof. unfold fsync. ends_auto. Qed.
#[local] Hint Resolve ends_fsync ends_require_safe_directory ends_write_loop : eff.

Lemma ends_sync_directory p : ends (sync_directory p).
Proof. unfold sync_directory, lstat. ends_auto. Qed.
#[local] Hint Resolve ends_sync_directory : eff.

(** The events of creating one file. *)
Definition creates (n : list string) (e : event) : Prop :=
  match e with created m _ => m = n | wrote _ _ => True | _ => False end.

Lemma keeps_observers P p : keeps (adds P) (is_directory p) ∧ keeps (adds P) (reparse_or_symlink p) ∧
  keeps (adds P) fsync ∧ keeps (adds P) (absolute p).
Proof.
  unfold is_directory, status, reparse_or_symlink, fsync, absolute.
  split; [|split; [|split]]; keeps_auto; apply keeps_step_adds.
Qed.

Lemma keeps_walk P cur rest : keeps (adds P) (walk_components cur rest).
Proof.
  revert cur. induction rest; intros cur; simpl; keeps_auto; apply keeps_observers.
Qed.

Lemma keeps_require_safe_directory P p : keeps (adds P) (require_safe_directory p).
Proof.
  unfold require_safe_directory. keeps_auto; try apply keeps_walk; apply keeps_observers.
Qed.

Lemma keeps_sync_directory P p : keeps (adds P) (sync_directory p).
Proof.
  unfold sync_directory, lstat. keeps_auto; (apply keeps_observe_adds || apply (keeps_observers P p)).
Qed.

Lemma keeps_write_loop n fuel i data what : keeps (adds (creates n)) (write_loop fuel i data what).
Proof.
  revert data. induction fuel as [|fuel IH]; intros [|c data]; simpl; keeps_auto; auto.
  unfold write_some, now. keeps_auto. apply keeps_effect_adds.
  intros d a' d' es (d1 & _ & [= _ _ <-])%bind_Some. by constructor.
Qed.

Lemma keeps_create_exclusive p : keeps (adds (creates (names p))) (create_exclusive p).
Proof.
  unfold create_exclusive, now. keeps_auto. apply keeps_effect_adds.
  intros d a' d' es ([i d1] & _ & [= _ _ <-])%bind_Some. by constructor.
Qed.

(** Writing a new record on any host: under every interference, failure and
    death of the process it returns or throws (the write loop ends, since every
    write takes a byte), and all it has done by then is to create that one file
    and append to it; nothing is replaced, renamed or removed. *)
Theorem record_write_creates_only p content :
  ends (write_new_durable_text p content) ∧
  keeps (adds (creates (names p))) (write_new_durable_text p content).
Proof.
  unfold write_new_durable_text. split.
  - unfold create_exclusive. ends_auto.
  - keeps_auto; first
      [apply keeps_require_safe_directory|apply keeps_create_exclusive|apply keeps_write_loop
      |apply keeps_sync_directory|apply (keeps_observers _ p)].
Qed.

(** ** A sample host *)

Definition quiet_world (d : fs) : world :=
  mk_world d [] 0 (fun _ d => d) (fun _ => false) (fun _ => false) (fun n => N.of_nat n)
    (fun n => 1767225600 + N.of_nat n) "/".

Lemma quiet_world_quiet d : quiet (quiet_world d).
Proof. done. Qed.

Definition sample_fs : fs :=
  mk_fs {[ [] := 1; ["r"] := 2 ]}
    {[ 1 := mk_inode 1 directory 0; 2 := mk_inode 1 directory 0 ]}.

Lemma sample_fs_ok : fs_ok sample_fs.
Proof.
  intros n i H. simpl in *. apply lookup_insert_Some in H as [[<- <-]|[_ H]]; [by eexists|].
  apply lookup_singleton_Some in H as [<- <-]. by eexists.
Qed.

Lemma sample_fs_dir : safe_dir sample_fs ["r"].
Proof. by intros [|[|k]]. Qed.

Lemma record_round_trip_witness :
  ensures (quiet_world sample_fs)
    (write_new_durable_text "/r/x" "data";; read_stable_text "/r/x" 10) (fun text d' =>
    text = "data" ∧ ∃ i, adds_file sample_fs d' "/r/x" i "data").
Proof.
  apply (record_round_trip (quiet_world sample_fs) ["r"] "x" "data" 10);
    [done|apply sample_fs_ok|by repeat constructor|apply sample_fs_dir|reflexivity|vm_compute; discriminate].
Defined.

Lemma stable_file_digest_witness :
  runs (quiet_world (mk_fs {[ [] := 1; ["f"] := 2 ]}
      {[ 1 := mk_inode 1 directory 0; 2 := mk_inode 1 (regular "abc") 0 ]}))
    (f ← open_stable "/f"; sha256_hex f) (Sha256.sha256 "abc")
    (mk_fs {[ [] := 1; ["f"] := 2 ]}
      {[ 1 := mk_inode 1 directory 0; 2 := mk_inode 1 (regular "abc") 0 ]}).
Proof.
  apply (stable_file_digest (quiet_world (mk_fs {[ [] := 1; ["f"] := 2 ]}
      {[ 1 := mk_inode 1 directory 0; 2 := mk_inode 1 (regular "abc") 0 ]})) "/f" 2 "abc");
    [done|split; reflexivity|exists 1, 0; split; reflexivity].
Defined.

End RecordFacts.
