(* ===== verification/DirectoryFacts.v ===== *)
(** Directories of numbered records on an undisturbed host: the order of the
    names, listing a directory, reading a stable file, adding one. *)

From Stdlib Require Import Ascii String NArith ZArith Lia Sorted.
From stdpp Require Import base list strings gmap sets sorting.
From S2P Require Import Prelude StdMap JsonProps Path PathFacts Effects World RecordIo RecordFacts.

Module DirectoryFacts.
Import ParseErrors Path PathFacts Effects World StableFile RecordIo RecordFacts.

(** ** Numbered names *)

Lemma pad20_shape n : n < 10 ^ 20 →
  String.length (pad20 n) = 20%nat ∧ forall_bytes is_digit (pad20 n) = true ∧ digits_value (pad20 n) = n.
Proof.
  intros Hn. unfold pad20.
  pose proof (to_string_length n 20 ltac:(exact Hn) ltac:(lia)) as Hl.
  assert (∀ k s, forall_bytes is_digit s = true →
    let p := fold_right (fun _ s => String (ascii_of_N 48) s) s (seq k (20 - String.length (to_string n))) in
    String.length p = (20 - String.length (to_string n) + String.length s)%nat ∧
    forall_bytes is_digit p = true ∧ digits_value p = digits_value s) as H.
  { generalize (20 - String.length (to_string n))%nat as m.
    induction m as [|m IH]; intros k s Hs; [done|]. cbn [seq fold_right].
    destruct (IH (S k) s Hs) as (H1 & H2 & H3). cbn [String.length forall_bytes digits_value].
    rewrite H1, H2, H3. done. }
  destruct (H 0%nat (to_string n) (to_string_digits n)) as (H1 & H2 & H3). cbv zeta in *.
  rewrite to_string_value in H3. split; [lia|done].
Qed.

Lemma compare_app a b x : String.length a = String.length b →
  string_ltb a b = true → string_ltb (a +:+ x) (b +:+ x) = true.
Proof.
  unfold string_ltb. revert b. induction a as [|c a IH]; intros [|d b] Hl H; try done.
  injection Hl as Hl. cbn [String.append]. rewrite string_compare_cons in *.
  destruct (code c ?= code d); try done. by apply IH.
Qed.

(** [pad20 n] followed by an extension. *)
Definition numbered (suffix : string) (n : N) : string := pad20 n +:+ suffix.

Definition numbered_names (suffix : string) (n : nat) : list string :=
  map (numbered suffix) (map N.of_nat (seq 0 n)).

Lemma numbered_order suffix i j : i < j → j < 10 ^ 20 →
  string_ltb (numbered suffix i) (numbered suffix j) = true.
Proof.
  intros Hij Hj. destruct (pad20_shape i ltac:(lia)) as (Li & Di & Vi), (pad20_shape j Hj) as (Lj & Dj & Vj).
  apply compare_app; [congruence|]. apply digits_order; [done..|congruence|lia].
Qed.

Lemma numbered_safe suffix n : slash_free suffix = true → n < 10 ^ 20 → safe_name (numbered suffix n).
Proof.
  intros Hf Hn. destruct (pad20_shape n Hn) as (L & D & _). unfold numbered.
  assert (∀ x, pad20 n +:+ suffix = x → (20 <= String.length x)%nat) as Hlen
    by (intros x <-; rewrite length_append; lia).
  split; [split|split].
  - unfold slash_free in *. rewrite forall_bytes_append, Hf, andb_true_r.
    eapply forall_bytes_impl; [|exact D]. intros x Hx. apply negb_true_iff.
    unfold is_digit, in_range in Hx. bool_hyps. apply Ascii.eqb_neq. intros ->. done.
  - by destruct (pad20 n).
  - intros Hx%Hlen. simpl in Hx. lia.
  - intros Hx%Hlen. simpl in Hx. lia.
Qed.

Lemma numbered_names_safe suffix n : slash_free suffix = true → N.of_nat n <= 10 ^ 20 →
  Forall safe_name (numbered_names suffix n).
Proof.
  intros Hf Hn. unfold numbered_names. apply Forall_forall. intros x Hx.
  apply list_elem_of_In in Hx. rewrite map_map in Hx. apply in_map_iff in Hx as (k & <- & Hk).
  apply in_seq in Hk. apply numbered_safe; [done|lia].
Qed.

Lemma numbered_length suffix n : length (numbered_names suffix n) = n.
Proof. unfold numbered_names. by rewrite !length_map, length_seq. Qed.

Lemma numbered_snoc suffix n : numbered_names suffix (S n) = numbered_names suffix n ++ [numbered suffix (N.of_nat n)].
Proof. unfold numbered_names. by rewrite seq_S, !map_app. Qed.

(** The next number is a new name. *)
Lemma numbered_fresh suffix n : N.of_nat n < 10 ^ 20 → numbered suffix (N.of_nat n) ∉ numbered_names suffix n.
Proof.
  intros Hn Hx%list_elem_of_In. unfold numbered_names in Hx. rewrite map_map in Hx.
  apply in_map_iff in Hx as (k & Hk & Hks). apply in_seq in Hks.
  pose proof (numbered_order suffix (N.of_nat k) (N.of_nat n) ltac:(lia) Hn) as Ho.
  rewrite Hk in Ho. by rewrite string_ltb_irrefl in Ho.
Qed.

(** ** Sorting *)

Definition name_le (a b : string) : Prop := string_ltb b a = false.

#[local] Instance name_le_antisym : AntiSymm (=) name_le.
Proof. intros a b H1 H2. by apply string_ltb_total. Qed.

Lemma name_le_of_lt a b : string_ltb a b = true → name_le a b.
Proof. apply string_ltb_antisym. Qed.

Lemma insert_name_perm x l : insert_name x l ≡ₚ x :: l.
Proof.
  induction l as [|y l IH]; simpl; [done|]. destruct (string_ltb y x); [|done].
  rewrite IH. apply Permutation_swap.
Qed.

Lemma sort_names_perm l : sort_names l ≡ₚ l.
Proof. induction l as [|x l IH]; simpl; [done|]. by rewrite insert_name_perm, IH. Qed.

Lemma name_le_trans a b c : name_le a b → name_le b c → name_le a c.
Proof.
  unfold name_le. intros H1 H2. destruct (string_ltb c a) eqn:E; [exfalso|done].
  destruct (string_ltb a b) eqn:E1.
  - by rewrite (string_ltb_trans c a b E E1) in H2.
  - by rewrite (string_ltb_total a b E1 H1) in E; congruence.
Qed.

Lemma insert_name_sorted x l : StronglySorted name_le l → StronglySorted name_le (insert_name x l).
Proof.
  induction 1 as [|y l Hl IH Hy]; simpl; [repeat constructor|].
  destruct (string_ltb y x) eqn:E.
  - constructor; [done|]. rewrite insert_name_perm. constructor; [by apply name_le_of_lt|done].
  - constructor; [by constructor|]. constructor; [done|].
    eapply Forall_impl; [exact Hy|]. intros z Hz. by eapply name_le_trans.
Qed.

Lemma sort_names_sorted l : StronglySorted name_le (sort_names l).
Proof. induction l; simpl; [constructor|]. by apply insert_name_sorted. Qed.

Lemma sort_names_unique l l' : StronglySorted name_le l' → l ≡ₚ l' → sort_names l = l'.
Proof.
  intros Hs Hp. apply (StronglySorted_unique name_le); [apply sort_names_sorted|done|].
  by rewrite sort_names_perm.
Qed.

Lemma numbered_sorted suffix n : N.of_nat n <= 10 ^ 20 → StronglySorted name_le (numbered_names suffix n).
Proof.
  intros Hn. unfold numbered_names. rewrite map_map.
  assert (∀ k m, N.of_nat (k + m) <= 10 ^ 20 →
    StronglySorted name_le (map (fun x => numbered suffix (N.of_nat x)) (seq k m))) as H.
  { intros k m. revert k. induction m as [|m IH]; intros k Hk; [constructor|]. simpl.
    constructor; [apply IH; lia|]. apply Forall_forall. intros z (x & <- & Hx)%list_elem_of_In%in_map_iff.
    apply in_seq in Hx. apply name_le_of_lt, numbered_order; lia. }
  apply H. simpl. lia.
Qed.

(** ** The keys of a map *)

Lemma sorted_keys {A} (m : list (string * A)) : StdMap.sorted m → StronglySorted name_le (fst <$> m).
Proof.
  induction 1 as [|p m _ IH Hp]; [constructor|]. constructor; [done|].
  apply Forall_fmap. eapply Forall_impl; [exact Hp|]. intros q Hq. by apply name_le_of_lt.
Qed.

Lemma set_mem_In k l : StdMap.set_mem k l = true → k ∈ l.
Proof.
  unfold StdMap.set_mem. intros (x & Hx & ->%String.eqb_eq)%existsb_exists. by apply list_elem_of_In.
Qed.

(** A map with as many members as [names] and no other key has exactly those. *)
Lemma keys_exact {A} (m : list (string * A)) names : StdMap.sorted m → NoDup names → length m = length names →
  Forall (fun p => StdMap.set_mem (fst p) names = true) m → fst <$> m = sort_names names.
Proof.
  intros Hs Hn E H. rewrite Forall_forall in H. symmetry.
  apply sort_names_unique; [by apply sorted_keys|]. symmetry.
  apply submseteq_length_Permutation; [|rewrite length_fmap; lia].
  apply NoDup_submseteq; [by apply StdMap.sorted_nodup|].
  intros k (p & -> & Hp)%list_elem_of_fmap. by apply set_mem_In, H.
Qed.

(** ** Undisturbed evaluation *)

Lemma observe_quiet {A} (f : fs → option A) w : quiet w → observe f w = (Ok (f (disk w)), tick w).
Proof.
  intros (Hi & Hd & Hf). unfold observe, mbind, M_bind, step, get, ret. rewrite Hd, Hf. simpl.
  by rewrite Hi.
Qed.

Lemma child_path cl nm : Forall safe_name cl → safe_name nm → normal_absolute_path (abs_text cl /+ nm).
Proof.
  intros Hc Hn. rewrite abs_text_append by (by apply safe_plain || by destruct Hn).
  split; [done|]. apply normal_abs_text, Forall_app. split; [done|]. by constructor.
Qed.

(** Only a regular file with one name is opened. *)
Lemma open_stable_inv w p f w' : quiet w → normal_absolute_path p → open_stable p w = (Ok f, w') →
  ∃ i v t c, lookup_inode (disk w) (names p) = Some (i, mk_inode v (regular c) t) ∧ link_count (disk w) i = 1.
Proof.
  intros Hq Hp H. unfold open_stable in H. destruct (runs_require_absolute w p Hq Hp) as (w2 & R2 & D2 & Q2 & _).
  apply seq_ok in H as (p' & w3 & R3 & H). rewrite R2 in R3. injection R3 as <- <-.
  unfold mbind, M_bind in H. unfold lstat_links in H. rewrite (observe_quiet _ _ Q2), D2 in H.
  destruct (lookup_inode (disk w) (names p)) as [[i [v [c| | |] t]]|] eqn:El; try done.
  simpl in H. unfold identity_from_stat in H. simpl in H.
  destruct (N.eqb_spec (link_count (disk w) i) 1); [|done]. by exists i, v, t, c.
Qed.

Lemma read_stable_text_inv w p limit text w' : quiet w → normal_absolute_path p →
  read_stable_text p limit w = (Ok text, w') →
  (∃ i, holds_file (disk w) p i text) ∧ size text <= limit.
Proof.
  intros Hq Hp H. pose proof H as (f0 & w0 & Ho & _)%seq_ok.
  destruct (open_stable_inv _ _ _ _ Hq Hp Ho) as (i & v & t & c & Hl & Hc).
  destruct (N.le_gt_cases (size c) limit) as [Hs|Hs].
  - destruct (runs_read_stable_text w p i c limit Hq Hp ltac:(by exists v, t) Hs) as (w2 & R2 & _).
    rewrite R2 in H. injection H as <- _. split; [|done]. exists i. by exists v, t.
  - exfalso. unfold read_stable_text in H. apply seq_ok in H as (f & w1 & R & H).
    destruct (runs_open_stable w p i v t c Hq Hp Hl Hc) as (w2 & R2 & _). rewrite R2 in R.
    injection R as <- <-. simpl in H. by rewrite (proj2 (N.ltb_lt _ _)) in H.
Qed.

(** Adding a file keeps every other stable file. *)
Lemma link_count_other d d' p i content j : adds_file d d' p i content → j ≠ i →
  link_count d' j = link_count d j.
Proof.
  intros (v & t & _ & Hn & He & _) Hj. unfold link_count. rewrite He, map_to_list_insert by done.
  by rewrite filter_cons_False by (simpl; congruence).
Qed.

Lemma holds_file_adds d d' p i content q j text : adds_file d d' p i content →
  holds_file d q j text → holds_file d' q j text.
Proof.
  intros Ha (v & t & Hl & Hc). exists v, t. split; [by eapply adds_file_other|].
  rewrite (link_count_other d d' p i content j Ha); [done|].
  intros ->. apply lookup_inode_inv in Hl as [_ Hl]. destruct Ha as (? & ? & Hi & _). congruence.
Qed.

(** ** Listing the directory *)

Definition listing (d : fs) (cl : list string) : list (list string * kind) :=
  omap (fun n => '(_, x) ← lookup_inode d n; Some (n, node x)) (children d cl).

Definition entry_name (entry : list string * kind) : string := default EmptyString (last (fst entry)).

Lemma filter_perm {A} (f : A → bool) l l' : l ≡ₚ l' → List.filter f l ≡ₚ List.filter f l'.
Proof.
  induction 1 as [|x l l' _ IH|x y l|l1 l2 l3 _ IH1 _ IH2]; simpl; [done|..].
  - destruct (f x); by rewrite IH.
  - destruct (f x), (f y); try done. apply Permutation_swap.
  - by rewrite IH1.
Qed.

Lemma omap_perm {A B} (f : A → option B) l l' : l ≡ₚ l' → omap f l ≡ₚ omap f l'.
Proof.
  induction 1 as [|x l l' _ IH|x y l|l1 l2 l3 _ IH1 _ IH2]; simpl; [done|..].
  - destruct (f x); by rewrite IH.
  - destruct (f x), (f y); try done. apply Permutation_swap.
  - by rewrite IH1.
Qed.

Lemma omap_agree {A B} (f g : A → option B) (l : list A) : (∀ x, x ∈ l → f x = g x) → omap f l = omap g l.
Proof.
  induction l as [|x l IH]; intros H; [done|]. cbn. rewrite (H x) by left.
  rewrite (IH (fun y Hy => H y (proj2 (elem_of_cons _ _ _) (or_intror Hy)))). done.
Qed.

Lemma below_child cl nm : below cl (cl ++ [nm]) = true.
Proof.
  unfold below. apply bool_decide_eq_true. split; [apply take_app_length|].
  rewrite length_app. simpl. lia.
Qed.

(** A new file changes no other entry of a listing. *)
Lemma listing_entries d d' p i content cl : fs_ok d → adds_file d d' p i content →
  omap (fun n => '(_, x) ← lookup_inode d' n; Some (n, node x)) (children d cl) = listing d cl.
Proof.
  intros Hok Ha. unfold listing.
  assert (∀ n, n ∈ children d cl → lookup_inode d' n = lookup_inode d n) as Hl.
  { intros n [Hin _]%list_elem_of_In%filter_In. apply in_map_iff in Hin as ([n' j] & <- & Hin).
    apply list_elem_of_In, elem_of_map_to_list in Hin. simpl.
    destruct (Hok _ _ Hin) as [x Hj].
    assert (lookup_inode d n' = Some (j, x)) as E by (unfold lookup_inode; by rewrite Hin; simpl; rewrite Hj).
    rewrite E. by eapply adds_file_other. }
  apply omap_agree. intros n Hn. by rewrite Hl.
Qed.

Definition child_of (cl n : list string) : bool := below cl n && (length n =? S (length cl))%nat.

Lemma children_adds d d' p i content cl : adds_file d d' p i content →
  children d' cl ≡ₚ (if child_of cl (names p) then [names p] else []) ++ children d cl.
Proof.
  intros (v & t & _ & Hn & He & _). unfold children. rewrite He.
  rewrite (filter_perm _ _ _ (Permutation_map fst (map_to_list_insert (entries d) (names p) i Hn))).
  cbn [map List.filter fst]. fold (child_of cl (names p)). by destruct (child_of cl (names p)).
Qed.

Lemma listing_adds d d' cl nm i content : fs_ok d → Forall plain_name (cl ++ [nm]) →
  adds_file d d' (abs_text (cl ++ [nm])) i content →
  listing d' cl ≡ₚ (cl ++ [nm], regular content) :: listing d cl.
Proof.
  intros Hok Hp Ha. pose proof (children_adds _ _ _ _ _ cl Ha) as Hc. rewrite names_abs_text in Hc by done.
  assert (child_of cl (cl ++ [nm]) = true) as E.
  { unfold child_of. rewrite below_child, length_app. simpl. by rewrite Nat.add_1_r, Nat.eqb_refl. }
  rewrite E in Hc. unfold listing at 1. rewrite (omap_perm _ _ _ Hc). simpl.
  pose proof Ha as (v & t & _ & _ & He & Hx). rewrite names_abs_text in He by done.
  assert (lookup_inode d' (cl ++ [nm]) = Some (i, mk_inode v (regular content) t)) as ->.
  { unfold lookup_inode. rewrite He, lookup_insert_eq. simpl. by rewrite Hx, lookup_insert_eq. }
  simpl. constructor. apply Permutation_refl'. by eapply listing_entries.
Qed.

(** A file in another directory leaves a listing alone. *)
Lemma listing_elsewhere d d' cl p i content : fs_ok d → adds_file d d' p i content →
  child_of cl (names p) = false → listing d' cl ≡ₚ listing d cl.
Proof.
  intros Hok Ha E. pose proof (children_adds _ _ _ _ _ cl Ha) as Hc. rewrite E in Hc.
  unfold listing at 1. rewrite (omap_perm _ _ _ Hc). apply Permutation_refl'. by eapply listing_entries.
Qed.

(** A name that is taken in the directory is listed. *)
Lemma listed d cl nm : fs_ok d → is_Some (entries d !! (cl ++ [nm])) →
  nm ∈ map entry_name (listing d cl).
Proof.
  intros Hok [i Hi]. destruct (Hok _ _ Hi) as [x Hx].
  assert (lookup_inode d (cl ++ [nm]) = Some (i, x)) as E by (unfold lookup_inode; by rewrite Hi; simpl; rewrite Hx).
  apply list_elem_of_In, in_map_iff. exists (cl ++ [nm], node x). split.
  - unfold entry_name. simpl. by rewrite last_snoc.
  - apply list_elem_of_In. unfold listing. apply list_elem_of_omap. exists (cl ++ [nm]).
    split; [|by rewrite E]. apply list_elem_of_In, filter_In. split.
    + apply in_map_iff. exists (cl ++ [nm], i). split; [done|]. by apply list_elem_of_In, elem_of_map_to_list.
    + rewrite below_child, length_app. simpl. by rewrite Nat.add_1_r, Nat.eqb_refl.
Qed.

(** ** Exceptions on an undisturbed host *)

(** [m] throws something a handler sees, and leaves the disk alone. *)
Definition throws_io {A} (w : world) (m : io A) : Prop :=
  ∃ e w', m w = (Throw e, w') ∧ catchable e = true ∧ disk w' = disk w ∧ quiet w' ∧ cwd w' = cwd w.

Lemma throws_io_bind {A B} w (m : io A) (f : A → io B) : throws_io w m → throws_io w (m ≫= f).
Proof. intros (e & w' & E & H). exists e, w'. unfold mbind, M_bind. by rewrite E. Qed.

Lemma throws_io_after {A B} w (m : io A) (f : A → io B) a : runs w m a (disk w) →
  (∀ w', quiet w' → disk w' = disk w → cwd w' = cwd w → throws_io w' (f a)) → throws_io w (m ≫= f).
Proof.
  intros (w1 & E & D & Q & C) H. destruct (H w1 Q D C) as (e & w2 & E2 & Hc & D2 & Q2 & C2).
  exists e, w2. unfold mbind, M_bind. rewrite E. split_and!; [done|done|congruence|done|congruence].
Qed.

Lemma throws_io_fail {A} w what : quiet w → throws_io w (fail (A := A) what).
Proof. intros Hq. by eexists _, w. Qed.

Lemma throws_io_lift {A} w (r : result A) : quiet w → throws_catchable r → is_ok r = false → throws_io w (lift r).
Proof. intros Hq Hr Ho. destruct r as [a|e]; [done|]. exists e, w. split; [done|]. split; [by apply Hr|done]. Qed.

(** A file beyond the bound is refused. *)
Lemma throws_read_large w p i content limit : quiet w → normal_absolute_path p → holds_file (disk w) p i content →
  limit < size content → throws_io w (read_stable_text p limit).
Proof.
  intros Hq Hp (v & t & Hl & Hc) Hs. eapply throws_io_after; [by eapply runs_open_stable|].
  intros w1 Q1 D1 _. simpl. rewrite (proj2 (N.ltb_lt _ _)) by done. by apply throws_io_fail.
Qed.
End DirectoryFacts.
