(* ===== verification/TextFacts.v ===== *)
(** Shared facts about record texts: ASCII fields are UTF-8, and a value whose
    canonical text is short enough has strings that are short enough. *)

From Stdlib Require Import Ascii String NArith ZArith Lia Sorted.
From stdpp Require Import base list strings sorting.
From S2P Require Import Prelude Utf8 Sha256 StdMap Json JsonFacts JsonParse RecordIo.

Module TextFacts.
Import Utf8 Json JsonFacts JsonParse RecordIo.

Definition ascii_text (s : string) : bool := forall_bytes (fun c => code c <=? 0x7f) s.

Lemma ascii_valid_utf8 s : ascii_text s = true → valid_utf8 s = true.
Proof.
  unfold ascii_text. induction s as [|c s IH]; simpl; [done|]. intros [-> ?]%andb_prop. auto.
Qed.

Lemma alnum_ascii c : is_alnum c || (code c =? 46) || (code c =? 95) || (code c =? 45) = true →
  (code c <=? 0x7f) = true.
Proof. by_bytes c. Qed.

Lemma identifier_ascii s : valid_identifier s = true → ascii_text s = true ∧ size s <= 128.
Proof.
  unfold valid_identifier. intros H. bool_hyps. split; [|done].
  eapply forall_bytes_impl; [|done]. apply alnum_ascii.
Qed.

Lemma hex_ascii s :
  forall_bytes (fun ch => is_digit ch || is_lower_hex_alpha ch) s = true → ascii_text s = true.
Proof.
  apply forall_bytes_impl. intros c. unfold is_digit, is_lower_hex_alpha, in_range.
  rewrite orb_true_iff, !andb_true_iff, !N.leb_le. lia.
Qed.

Lemma ascii_append a b : ascii_text (a +:+ b) = ascii_text a && ascii_text b.
Proof. apply forall_bytes_append. Qed.

Lemma ascii_to_string n : ascii_text (to_string n) = true.
Proof.
  eapply forall_bytes_impl; [|apply to_string_digits]. intros c. unfold is_digit, in_range.
  rewrite andb_true_iff, !N.leb_le. lia.
Qed.

(** ** Texts inside values *)

Fixpoint utf8_value (v : value) : bool :=
  match v with
  | string_value s => valid_utf8 s
  | array items => forallb utf8_value items
  | object members => forallb (fun m => valid_utf8 (fst m) && utf8_value (snd m)) members
  | _ => true
  end.

Fixpoint height (v : value) : N :=
  match v with
  | array items => fold_right (fun x n => N.max (1 + height x) n) 0 items
  | object members => fold_right (fun m n => N.max (1 + height (snd m)) n) 0 members
  | _ => 0
  end.

Lemma size_esc s : size s <= size (esc s).
Proof.
  induction s as [|c s IH]; [done|]. cbn [esc]. rewrite size_append, size_cons.
  pose proof (esc_char_length c). unfold size in *. lia.
Qed.

Lemma size_quoted s : size s <= size (quoted s).
Proof. unfold quoted. rewrite size_cons, size_append. pose proof (size_esc s). lia. Qed.

Lemma commas_member_size x l : x ∈ l → size x <= size (commas l).
Proof.
  induction l as [|y l IH]; [by intros ?%elem_of_nil|].
  destruct l as [|z l]; [intros ->%list_elem_of_singleton; done|].
  rewrite commas_cons, !size_append by done. intros [->|Hx]%elem_of_cons; [lia|].
  specialize (IH Hx). lia.
Qed.

Lemma item_size x items : x ∈ items → size (render x) <= size (render (array items)).
Proof.
  intros Hx. cbn [render]. rewrite !size_append.
  pose proof (commas_member_size (render x) (map render items)) as H.
  specialize (H ltac:(by apply list_elem_of_fmap_2)). lia.
Qed.

Lemma member_size k v members : (k, v) ∈ members →
  size k <= size (render (object members)) ∧ size (render v) <= size (render (object members)).
Proof.
  intros Hx. cbn [render]. rewrite !size_append. change (map (λ m, _) members) with (map render_member members).
  pose proof (commas_member_size (render_member (k, v)) (map render_member members)) as H.
  specialize (H ltac:(by apply (list_elem_of_fmap_2 render_member members (k, v)))).
  assert (size (render_member (k, v)) = size (quoted k) + 1 + size (render v)) as E.
  { unfold render_member. cbn [fst snd]. rewrite !size_append. change (size ":") with 1. lia. }
  pose proof (size_quoted k). split; lia.
Qed.

Lemma fits_of_size L v d : utf8_value v = true → d + height v <= max_depth L →
  size (render v) <= max_string_bytes L → fits L d v = true.
Proof.
  revert d. induction v as [|b|n|s|items IH|members IH] using value_induction; intros d Hu Hh Hs;
    cbn [fits]; (rewrite (proj2 (N.leb_le d _)) by lia); cbn [andb]; try done.
  - unfold string_ok. simpl in Hu. rewrite Hu, andb_true_r. apply N.leb_le.
    pose proof (size_quoted s). cbn [render] in Hs. lia.
  - apply forallb_forall. intros x Hx%list_elem_of_In. rewrite Forall_forall in IH.
    cbn [utf8_value] in Hu. rewrite forallb_forall in Hu.
    apply IH; [done|by apply Hu, list_elem_of_In| |].
    + enough (1 + height x <= height (array items)) by lia. clear -Hx. cbn [height].
      induction items as [|y items IH]; [by apply elem_of_nil in Hx|]. cbn [fold_right].
      apply elem_of_cons in Hx as [->|Hx]; [lia|]. specialize (IH Hx). lia.
    + pose proof (item_size x items Hx). lia.
  - apply forallb_forall. intros [k x] Hx%list_elem_of_In. rewrite Forall_forall in IH.
    cbn [utf8_value] in Hu. rewrite forallb_forall in Hu.
    pose proof (Hu (k, x) (proj1 (list_elem_of_In _ _) Hx)) as [Hk Hv]%andb_prop.
    destruct (member_size k x members Hx) as [Sk Sx]. cbn [fst snd] in *.
    unfold string_ok. rewrite Hk, (proj2 (N.leb_le (size k) _)) by lia. cbn [andb].
    apply (IH (k, x) Hx); cbn [snd]; [done| |lia].
    enough (1 + height x <= height (object members)) by (cbn [snd]; lia). clear -Hx. cbn [height].
    induction members as [|y members IH]; [by apply elem_of_nil in Hx|]. cbn [fold_right].
    apply elem_of_cons in Hx as [<-|Hx]; [cbn [snd]; lia|]. specialize (IH Hx). lia.
Qed.

(** Short canonical text, possibly followed by blanks, is read back. *)
Lemma parse_short L v ws : wf v → utf8_value v = true → height v <= max_depth L →
  count v <= max_values L → forall_bytes is_space ws = true →
  size (canonical v +:+ ws) <= max_bytes L → size (canonical v) <= max_string_bytes L →
  parse (canonical v +:+ ws) L = Ok v.
Proof.
  intros Hwf Hu Hh Hc Hws Hb Hs. pose proof (parse_canonical_space L v ws Hwf Hws) as H.
  rewrite (proj2 (N.leb_le _ _) Hb), (proj2 (N.leb_le _ _) Hc) in H.
  rewrite (fits_of_size L v 0) in H; [done|done|lia|]. by rewrite canonical_render in Hs.
Qed.

End TextFacts.

(** Sorting by a strict order given as a boolean, as [std::sort] is used. *)

Module SortFacts.

(** [std::sort(first, last, less)]; elements that [less] does not order keep their
    order here, which the library leaves open. *)
Fixpoint insert_by {A} (less : A → A → bool) (x : A) (l : list A) : list A :=
  match l with
  | [] => [x]
  | y :: l' => if less y x then y :: insert_by less x l' else x :: l
  end.

Definition sort_by {A} (less : A → A → bool) (l : list A) : list A := fold_right (insert_by less) [] l.

Section Sort.
Context {A : Type} (less : A → A → bool).

Definition not_after (a b : A) : Prop := less b a = false.

Hypothesis less_asym : ∀ a b, less a b = true → less b a = false.
Hypothesis not_after_trans : ∀ a b c, not_after a b → not_after b c → not_after a c.

Lemma insert_by_perm x l : insert_by less x l ≡ₚ x :: l.
Proof.
  induction l as [|y l IH]; simpl; [done|]. destruct (less y x); [|done]. rewrite IH. apply Permutation_swap.
Qed.

Lemma sort_by_perm l : sort_by less l ≡ₚ l.
Proof. induction l as [|x l IH]; simpl; [done|]. by rewrite insert_by_perm, IH. Qed.

Lemma insert_by_sorted x l : StronglySorted not_after l → StronglySorted not_after (insert_by less x l).
Proof.
  induction 1 as [|y l Hl IH Hy]; simpl; [repeat constructor|].
  destruct (less y x) eqn:E.
  - constructor; [done|]. rewrite insert_by_perm. constructor; [by apply less_asym|done].
  - constructor; [by constructor|]. constructor; [done|].
    eapply Forall_impl; [exact Hy|]. intros z Hz. by eapply not_after_trans.
Qed.

Lemma sort_by_sorted l : StronglySorted not_after (sort_by less l).
Proof. induction l; simpl; [constructor|]. by apply insert_by_sorted. Qed.

(** Sorting leaves a sorted list alone. *)
Lemma sort_by_id l : StronglySorted not_after l → sort_by less l = l.
Proof.
  induction 1 as [|x l Hl IH Hx]; simpl; [done|]. rewrite IH. destruct l as [|y l]; simpl; [done|].
  inversion Hx as [|? ? Hy]; subst. unfold not_after in Hy. by rewrite Hy.
Qed.

Lemma last_sorted l x : StronglySorted not_after l → last l = Some x → Forall (fun y => not_after y x ∨ y = x) l.
Proof.
  induction 1 as [|y l Hl IH Hy]; intros E; [done|]. destruct l as [|z l]; [by injection E as ->; constructor; auto|].
  rewrite last_cons_cons in E. constructor; [|by apply IH].
  left. rewrite Forall_forall in Hy. apply Hy. by apply last_Some_elem_of.
Qed.
End Sort.

Lemma ltb_asym a b : string_ltb a b = true → string_ltb b a = false.
Proof. apply string_ltb_antisym. Qed.

Lemma ltb_trans_le a b c : string_ltb b a = false → string_ltb c b = false → string_ltb c a = false.
Proof.
  intros H1 H2. destruct (string_ltb c a) eqn:E; [exfalso|done].
  destruct (string_ltb a b) eqn:E1.
  - by rewrite (string_ltb_trans c a b E E1) in H2.
  - rewrite (string_ltb_total a b E1 H1) in E. congruence.
Qed.

(** What is sorted by distinct keys does not depend on the order before. *)
Section Keyed.
Context {A : Type} (key : A → string).

Definition key_less (a b : A) : bool := string_ltb (key a) (key b).

Lemma sort_by_key_unique l l' : l ≡ₚ l' → NoDup (key <$> l) → sort_by key_less l = sort_by key_less l'.
Proof.
  intros Hp Hn.
  assert (∀ k, StronglySorted (not_after key_less) (sort_by key_less k)) as Hs.
  { intros k. apply sort_by_sorted; [intros ? ?; apply ltb_asym|intros ? ? ?; apply ltb_trans_le]. }
  assert (sort_by key_less l ≡ₚ sort_by key_less l') as Hq by (by rewrite !sort_by_perm).
  assert (NoDup (key <$> sort_by key_less l)) as Hd by (by rewrite sort_by_perm).
  revert Hq Hd. generalize (Hs l), (Hs l'). generalize (sort_by key_less l), (sort_by key_less l').
  clear. intros k k' Hk. revert k'. induction Hk as [|x k Hk IH Hx]; intros k' Hk' Hq Hd.
  { by apply Permutation_nil_l in Hq. }
  destruct Hk' as [|y k' Hk' Hy]; [by apply Permutation_nil_r in Hq|].
  apply NoDup_cons in Hd as [Hxd Hd].
  assert (x = y) as <-.
  { assert (y ∈ x :: k) as [->|Hyk]%elem_of_cons by (rewrite Hq; left); [done|].
    assert (x ∈ y :: k') as [->|Hxk]%elem_of_cons by (rewrite <- Hq; left); [done|].
    rewrite Forall_forall in Hx, Hy. specialize (Hx y Hyk). specialize (Hy x Hxk).
    exfalso. apply Hxd. unfold not_after, key_less in *. rewrite (string_ltb_total _ _ Hy Hx).
    by apply list_elem_of_fmap_2. }
  f_equal. apply IH; [done|by apply Permutation_cons_inv in Hq|done].
Qed.
End Keyed.

End SortFacts.
