(* ===== verification/JsonText.v ===== *)
(** JSON texts that are not canonical: a calculus of the texts the parser reads
    as a given value, for documents that are written member by member in an
    order of the writer's choice. *)

From Stdlib Require Import Ascii String NArith ZArith Lia Sorted.
From stdpp Require Import base list sets strings.
From S2P Require Import Prelude Utf8 Sha256 StdMap Json JsonFacts JsonParse TextFacts.

Module JsonText.
Import Utf8 Json JsonFacts JsonParse TextFacts.

(** The text opens a value: no blank and no closing bracket. *)
Definition opens (t : string) : Prop :=
  ∃ c s, t = String c s ∧ is_space c = false ∧ code c ≠ 93 ∧ code c ≠ 125.

(** [t] is read as [v] wherever a value is expected and the limits allow it. *)
Record reads (t : string) (v : value) : Prop := {
  reads_open : opens t;
  reads_count : 2 * count v <= size t + 1;
  reads_parse : ∀ L fuel d rest n, (2 * String.length t < fuel)%nat → num_stop rest = true →
    fits L d v = true → n + count v <= max_values L →
    parse_value L fuel d (t +:+ rest) n = Ok (v, rest, n + count v) }.

Lemma skip_opens t rest : opens t → skip_space (t +:+ rest) = t +:+ rest.
Proof. intros (c & s & -> & Hc & _). simpl. by rewrite Hc. Qed.

(** ** Canonical text *)

Lemma counts_size items : Forall (fun x => 2 * count x <= size (render x) + 1) items →
  items ≠ [] → 2 * counts items <= size (commas (map render items)) + 1.
Proof.
  induction 1 as [|x items Hx HF IH]; [done|]. intros _. destruct items as [|y items].
  - simpl in *. lia.
  - cbn [map] in *. rewrite commas_cons, !size_append by done. change (size ",") with 1.
    specialize (IH ltac:(done)). cbn [counts fold_right] in *. fold (counts items) in *. lia.
Qed.

Lemma counts_members_size members : Forall (fun m => 2 * count (snd m) <= size (render (snd m)) + 1) members →
  members ≠ [] → 2 * counts_members members <= size (commas (map render_member members)) + 1.
Proof.
  induction 1 as [|x members Hx HF IH]; [done|]. intros _.
  assert (size (render (snd x)) < size (render_member x)) as Hlt.
  { unfold render_member. rewrite !size_append. change (size ":") with 1. lia. }
  destruct members as [|y members].
  - unfold counts_members. cbn [map commas fold_right]. lia.
  - cbn [map] in *. rewrite commas_cons, !size_append by done. change (size ",") with 1.
    specialize (IH ltac:(done)). unfold counts_members in *. cbn [fold_right] in *. lia.
Qed.

Lemma count_size v : 2 * count v <= size (render v) + 1.
Proof.
  induction v as [|[]|n|s|items IH|members IH] using value_induction; try done.
  - cbn [count render]. destruct (to_string_first n) as (d & s & -> & _). rewrite size_cons. lia.
  - cbn [count render]. unfold quoted. rewrite size_cons, size_append, size_cons. lia.
  - cbn [count render]. fold (counts items). rewrite !size_append. change (size "[") with 1. change (size "]") with 1.
    destruct items; [simpl; lia|]. pose proof (counts_size _ IH ltac:(done)). lia.
  - cbn [count render]. fold (counts_members members). change (map (λ m, _) members) with (map render_member members).
    rewrite !size_append. change (size "{") with 1. change (size "}") with 1.
    destruct members; [simpl; lia|]. pose proof (counts_members_size _ IH ltac:(done)). lia.
Qed.

Lemma opens_render v : opens (render v).
Proof.
  destruct (render_lead v) as (c & s & E & Hl). exists c, s. split; [done|].
  split; [by eapply lead_not_space|].
  destruct v as [|[]|n|x|items|members]; simpl in Hl; try (split; lia).
  - unfold is_digit, in_range in Hl. bool_hyps. split; lia.
  - subst. by split.
Qed.

Lemma reads_canonical v : wf v → reads (canonical v) v.
Proof.
  intros Hwf. rewrite canonical_render. split; [apply opens_render|apply count_size|].
  intros L fuel d rest n Hf Hs Hfit Hn. pose proof (wf_parses L v Hwf fuel d rest n Hf Hs) as H.
  rewrite Hfit, (proj2 (N.leb_le _ _) Hn) in H. exact H.
Qed.

(** ** Scalars *)

Lemma reads_null : reads "null" null_value.
Proof. exact (reads_canonical null_value I). Qed.

Lemma reads_boolean (b : bool) : reads (if b then "true" else "false") (boolean b).
Proof. destruct b; [exact (reads_canonical (boolean true) I)|exact (reads_canonical (boolean false) I)]. Qed.

Lemma reads_number n : n <= uint64_max → reads (to_string n) (unsigned_integer n).
Proof. intros Hn. pose proof (reads_canonical (unsigned_integer n) Hn) as H. by rewrite canonical_render in H. Qed.

(** A string in any escaping the scanner undoes. *)
Lemma reads_string body s :
  (∀ L acc rest, string_loop L acc (body +:+ String dquote rest) =
     string_loop L (acc +:+ s) (String dquote rest)) →
  reads (String dquote (body +:+ String dquote EmptyString)) (string_value s).
Proof.
  intros Hb. split; [by exists dquote, (body +:+ String dquote EmptyString)| |].
  - rewrite size_cons, size_append, size_cons. simpl. lia.
  - intros L fuel d rest n Hf Hs Hfit Hn. destruct fuel as [|fuel]; [lia|].
    cbn [fits] in Hfit. apply andb_prop in Hfit as [Hd Hok]. cbn [count] in Hn.
    cbn [parse_value]. rewrite N.ltb_antisym, Hd, N.ltb_antisym, (proj2 (N.leb_le _ _) Hn). cbn [negb].
    change (skip_space (String dquote (body +:+ String dquote EmptyString) +:+ rest))
      with (String dquote ((body +:+ String dquote EmptyString) +:+ rest)). cbv beta iota.
    change (Ascii.eqb dquote dquote) with true. change (code dquote) with 34. cbn [N.eqb Pos.eqb].
    unfold string_. cbn [str_drop]. rewrite append_assoc. cbn [String.append]. rewrite Hb.
    unfold string_ok in Hok. apply andb_prop in Hok as [H1 H2].
    cbn [string_loop String.append]. change (Ascii.eqb dquote dquote) with true. cbv iota.
    rewrite N.ltb_antisym, H1, H2. done.
Qed.

(** ** Arrays *)

Lemma consume_opens close t rest : code close = 93 ∨ code close = 125 → opens t →
  consume close (t +:+ rest) = (false, t +:+ rest).
Proof.
  intros Hc (c & s & -> & _ & H1 & H2). simpl. destruct (Ascii.eqb_spec c close) as [->|]; [lia|done].
Qed.

Lemma opens_commas t l rest : opens t → ∃ rest', commas (t :: l) +:+ rest = t +:+ rest'.
Proof. intros _. destruct l as [|u l]; simpl; [by eexists|]. rewrite append_assoc. by eexists. Qed.

Lemma read_items L items fuel d acc rest n :
  Forall (fun p => reads (fst p) (snd p)) items → items ≠ [] →
  (2 * String.length (commas (map fst items)) + 1 < fuel)%nat →
  forallb (fits L d) (map snd items) = true → n + counts (map snd items) <= max_values L →
  parse_array L fuel d acc (commas (map fst items) +:+ String "]" rest) n =
    Ok (array (acc ++ map snd items), rest, n + counts (map snd items)).
Proof.
  intros HF. revert fuel acc n. induction HF as [|[t v] items [Ho Hc Hp] HF IH]; intros fuel acc n Hne Hf Hfit Hn; [done|].
  destruct fuel as [|fuel]; [lia|]. cbn [map fst snd forallb counts fold_right] in *.
  apply andb_prop in Hfit as [Hv Hfit]. fold (counts (map snd items)) in *. cbn [parse_array].
  destruct items as [|x items].
  - cbn [map commas] in *. rewrite Hp; [|lia|done|done|simpl in Hn; lia]. simpl. by rewrite N.add_0_r.
  - cbn [map] in *. rewrite commas_cons in * by done. rewrite !append_assoc.
    rewrite !length_append in Hf. cbn [String.length] in Hf.
    rewrite Hp; [|lia|done|done|lia]. 
    transitivity (parse_array L fuel d (acc ++ [v]) (commas (map fst (x :: items)) +:+ String "]" rest) (n + count v));
      [reflexivity|].
    rewrite IH; [|done|cbn [map]; lia|done|lia]. rewrite <- app_assoc. by rewrite N.add_assoc.
Qed.

Lemma items_size items : Forall (fun p => reads (fst p) (snd p)) items → items ≠ [] →
  2 * counts (map snd items) <= size (commas (map fst items)) + 1.
Proof.
  induction 1 as [|[t v] items [_ Hc _] HF IH]; [done|]. intros _. destruct items as [|y items].
  - simpl in *. lia.
  - cbn [map fst snd] in *. rewrite commas_cons, !size_append by done. change (size ",") with 1.
    specialize (IH ltac:(done)). cbn [counts fold_right] in *. lia.
Qed.

Lemma reads_array items : Forall (fun p => reads (fst p) (snd p)) items →
  reads ("[" +:+ commas (map fst items) +:+ "]") (array (map snd items)).
Proof.
  intros HF. split; [by exists "["%char, (commas (map fst items) +:+ "]")| |].
  - rewrite !size_append. change (size "[") with 1. change (size "]") with 1. cbn [count].
    fold (counts (map snd items)). destruct items; [simpl; lia|]. pose proof (items_size _ HF ltac:(done)). lia.
  - intros L fuel d rest n Hf Hs Hfit Hn. destruct fuel as [|fuel]; [lia|].
    cbn [fits] in Hfit. apply andb_prop in Hfit as [Hd Hfit]. cbn [count] in *. fold (counts (map snd items)) in *.
    rewrite !length_append in Hf. simpl in Hf.
    cbn [parse_value]. rewrite N.ltb_antisym, Hd, N.ltb_antisym, (proj2 (N.leb_le (n + 1) _)) by lia. cbn [negb].
    rewrite !append_assoc.
    transitivity (match consume "]" (skip_space (commas (map fst items) +:+ String "]" rest)) with
      | (true, r) => Ok (array [], r, n + 1)
      | (false, _) => parse_array L fuel (d + 1) [] (skip_space (commas (map fst items) +:+ String "]" rest)) (n + 1)
      end); [reflexivity|].
    destruct items as [|[t v] items]; [simpl; by rewrite N.add_0_r|].
    destruct (opens_commas t (map fst items) (String "]" rest)) as [rest' E];
      [by inversion HF as [|? ? [] ]; subst|].
    assert (opens t) as Ho by (by inversion HF as [|? ? [] ]; subst).
    cbn [map fst]. rewrite E, skip_opens, consume_opens, <- E by (done || by left).
    rewrite (read_items L ((t, v) :: items)); [|done|done|cbn [map fst] in *; lia|done|cbn [map snd] in *; lia].
    cbn [app map snd]. by rewrite N.add_assoc.
Qed.

(** ** Objects

    A member is its key, the text of its value and the value. *)

Abbreviation member := (string * (string * value))%type.

Definition member_text (m : member) : string := quoted (fst m) +:+ ":" +:+ fst (snd m).
Definition member_value (m : member) : string * value := (fst m, snd (snd m)).

Definition add_members (acc : list (string * value)) (ms : list member) : list (string * value) :=
  fold_left (fun a m => fst (StdMap.emplace (fst m) (snd (snd m)) a)) ms acc.

Definition good_member (m : member) : Prop := reads (fst (snd m)) (snd (snd m)).

Lemma key_loop L acc s rest : string_ok L (acc +:+ s) = true →
  string_loop L acc (esc s +:+ String dquote rest) = Ok (acc +:+ s, rest).
Proof. intros H. pose proof (string_loop_esc L acc s rest) as E. by rewrite H in E. Qed.

(** One round of the loop of [Parser::object]. *)
Lemma read_member L fuel d acc k t v tail n :
  reads t v → StdMap.sorted acc → StdMap.find k acc = None →
  (2 * String.length t < fuel)%nat → num_stop tail = true →
  string_ok L k = true → fits L d v = true → n + count v <= max_values L →
  parse_object L (S fuel) d acc (member_text (k, (t, v)) +:+ tail) n =
    match consume "}" (skip_space tail) with
    | (true, rest) => Ok (object (fst (StdMap.emplace k v acc)), rest, n + count v)
    | (false, _) => rest ← require "," (skip_space tail);
        parse_object L fuel d (fst (StdMap.emplace k v acc)) rest (n + count v)
    end.
Proof.
  intros [Ho Hc Hp] Hs Hfind Hf Ht Hk Hv Hn.
  assert (snd (StdMap.emplace k v acc) = true) as Hem.
  { rewrite StdMap.emplace_snd by done. unfold StdMap.contains_key. by rewrite Hfind. }
  unfold member_text. cbn [fst snd parse_object]. rewrite !append_assoc.
  change (skip_space (quoted k +:+ ?x)) with (quoted k +:+ x). unfold quoted at 1. cbn [String.append].
  cbv beta iota. change (Ascii.eqb dquote dquote) with true. cbn [negb]. unfold string_.
  cbn [str_drop quoted String.append]. rewrite append_assoc. cbn [String.append].
  rewrite key_loop by done. cbn [mbind result_bind String.append].
  change (require (ascii_of_N 58) (skip_space (String ":" ?x))) with (Ok x). cbn [mbind result_bind].
  rewrite Hp by done. cbn [mbind result_bind String.append]. cbv beta iota.
  destruct (StdMap.emplace k v acc) as [acc' b]. simpl in Hem. by rewrite Hem.
Qed.

Lemma read_members L ms fuel d acc rest n :
  Forall good_member ms → ms ≠ [] → NoDup (map fst acc ++ map fst ms) → StdMap.sorted acc →
  (2 * String.length (commas (map member_text ms)) + 1 < fuel)%nat →
  Forall (fun m => string_ok L (fst m) = true ∧ fits L d (snd (snd m)) = true) ms →
  n + counts_members (map member_value ms) <= max_values L →
  parse_object L fuel d acc (commas (map member_text ms) +:+ String "}" rest) n =
    Ok (object (add_members acc ms), rest, n + counts_members (map member_value ms)).
Proof.
  intros HF. revert fuel acc n.
  induction HF as [|[k [t v]] ms Hm HF IH]; intros fuel acc n Hne Hnd Hs Hf Hok Hn; [done|].
  destruct fuel as [|fuel]; [lia|]. apply Forall_cons in Hok as [[Hk Hv] Hok]. cbn [fst snd] in *.
  unfold counts_members in Hn |- *. cbn [map member_value fold_right snd fst] in Hn |- *.
  fold (counts_members (map member_value ms)) in *.
  assert (String.length t < String.length (member_text (k, (t, v))))%nat as Hlen.
  { unfold member_text, quoted. rewrite !length_append. simpl. lia. }
  cbn [map fst] in Hnd. apply NoDup_app in Hnd as (Hn1 & Hn2 & [Hn3 Hn4]%NoDup_cons).
  assert (StdMap.find k acc = None) as Hfind.
  { destruct (StdMap.find k acc) as [x|] eqn:E; [|done]. apply StdMap.find_In in E. exfalso.
    eapply (Hn2 k); [|by left]. apply list_elem_of_fmap. by exists (k, x). }
  destruct ms as [|m ms].
  - cbn [map commas] in *. rewrite read_member; [|done|done|done|lia|done|done|done|simpl in Hn; lia].
    simpl. by rewrite N.add_0_r.
  - cbn [map] in *. rewrite commas_cons in * by done. rewrite !append_assoc.
    rewrite !length_append in Hf. cbn [String.length] in Hf.
    rewrite read_member; [|done|done|done|lia|done|done|done|lia].
    transitivity (parse_object L fuel d (fst (StdMap.emplace k v acc))
      (commas (map member_text (m :: ms)) +:+ String "}" rest) (n + count v)); [reflexivity|].
    assert (snd (StdMap.emplace k v acc) = true) as Hem.
    { rewrite StdMap.emplace_snd by done. unfold StdMap.contains_key. by rewrite Hfind. }
    rewrite IH; [by rewrite N.add_assoc|done| |by apply StdMap.emplace_sorted|cbn [map]; lia|done|lia].
    apply (f_equal id) in Hem. rewrite (StdMap.emplace_perm k v acc Hem). cbn [map fst].
    change (NoDup (k :: (map fst acc ++ map fst (m :: ms)))). apply NoDup_cons. split.
    + rewrite elem_of_app. intros [H|H]; [|by apply Hn3]. eapply (Hn2 k); [done|by left].
    + apply NoDup_app. split; [done|]. split; [|done]. intros x Hx Hx'. eapply Hn2; [done|by right].
Qed.

Lemma members_size ms : Forall good_member ms → ms ≠ [] →
  2 * counts_members (map member_value ms) <= size (commas (map member_text ms)) + 1.
Proof.
  induction 1 as [|[k [t v]] ms [_ Hc _] HF IH]; [done|]. intros _. cbn [fst snd] in Hc.
  assert (size t < size (member_text (k, (t, v)))) as Hlt.
  { unfold member_text. rewrite !size_append. change (size ":") with 1. cbn [fst snd]. lia. }
  unfold counts_members in *. destruct ms as [|y ms].
  - cbn [map commas fold_right member_value snd fst]. lia.
  - cbn [map] in *. rewrite commas_cons, !size_append by done. change (size ",") with 1.
    specialize (IH ltac:(done)). cbn [fold_right member_value snd fst] in *. lia.
Qed.

Lemma of_list_perm {A} (l : list (string * A)) : NoDup (map fst l) → StdMap.of_list l ≡ₚ l.
Proof.
  unfold StdMap.of_list. enough (∀ acc, StdMap.sorted acc → NoDup (map fst acc ++ map fst l) →
    fold_left (fun m p => fst (StdMap.emplace (fst p) (snd p) m)) l acc ≡ₚ acc ++ l) as H
    by (intros Hn; by apply H; [constructor|]).
  induction l as [|[k v] l IH]; intros acc Hs Hn; simpl; [by rewrite app_nil_r|].
  assert (snd (StdMap.emplace k v acc) = true) as Hem.
  { rewrite StdMap.emplace_snd by done. unfold StdMap.contains_key.
    destruct (StdMap.find k acc) as [x|] eqn:E; [|done]. apply StdMap.find_In in E. exfalso.
    apply NoDup_app in Hn as (_ & Hn & _). eapply (Hn k); [|by left]. apply list_elem_of_fmap. by exists (k, x). }
  pose proof (StdMap.emplace_perm k v acc Hem) as Hp.
  rewrite IH; [|by apply StdMap.emplace_sorted|].
  - rewrite Hp. simpl. by rewrite Permutation_middle.
  - rewrite Hp. cbn [map fst] in *. simpl. by rewrite Permutation_middle.
Qed.

Lemma add_members_of_list ms : add_members [] ms = StdMap.of_list (map member_value ms).
Proof.
  unfold add_members, StdMap.of_list. generalize (@nil (string * value)) as acc.
  induction ms as [|[k [t v]] ms IH]; intros acc; simpl; [done|apply IH].
Qed.

Lemma counts_members_perm l l' : l ≡ₚ l' → counts_members l = counts_members l'.
Proof. unfold counts_members. induction 1; simpl in *; lia. Qed.

Lemma reads_object ms : Forall good_member ms → NoDup (map fst ms) →
  reads ("{" +:+ commas (map member_text ms) +:+ "}") (make_object (map member_value ms)).
Proof.
  intros HF Hnd. unfold make_object.
  assert (map fst (map member_value ms) = map fst ms) as Ek by (rewrite map_map; done).
  pose proof (of_list_perm (map member_value ms) ltac:(by rewrite Ek)) as Hp.
  assert (count (object (StdMap.of_list (map member_value ms))) = 1 + counts_members (map member_value ms)) as Ec.
  { cbn [count]. fold (counts_members (StdMap.of_list (map member_value ms))). by rewrite (counts_members_perm _ _ Hp). }
  split; [by exists "{"%char, (commas (map member_text ms) +:+ "}")| |].
  - rewrite Ec, !size_append. change (size "{") with 1. change (size "}") with 1.
    destruct ms; [simpl; lia|]. pose proof (members_size _ HF ltac:(done)). lia.
  - intros L fuel d rest n Hf Hs Hfit Hn. destruct fuel as [|fuel]; [lia|]. rewrite Ec in *.
    cbn [fits] in Hfit. apply andb_prop in Hfit as [Hd Hfit]. rewrite !length_append in Hf. simpl in Hf.
    cbn [parse_value]. rewrite N.ltb_antisym, Hd, N.ltb_antisym, (proj2 (N.leb_le (n + 1) _)) by lia. cbn [negb].
    rewrite !append_assoc.
    transitivity (match consume "}" (skip_space (commas (map member_text ms) +:+ String "}" rest)) with
      | (true, r) => Ok (object [], r, n + 1)
      | (false, _) => parse_object L fuel (d + 1) [] (skip_space (commas (map member_text ms) +:+ String "}" rest)) (n + 1)
      end); [reflexivity|].
    destruct ms as [|m ms]; [simpl; by rewrite N.add_0_r|].
    assert (∃ tail, commas (map member_text (m :: ms)) +:+ String "}" rest = String dquote tail) as [tail E].
    { cbn [map]. destruct (map member_text ms); eexists; reflexivity. }
    rewrite E. change (consume "}" (skip_space (String dquote tail))) with (false, String dquote tail). cbv iota beta.
    change (skip_space (String dquote tail)) with (String dquote tail). rewrite <- E.
    rewrite read_members; [by rewrite add_members_of_list, N.add_assoc|done|done|done|constructor|lia| |lia].
    rewrite forallb_forall in Hfit. apply Forall_forall. intros x Hx.
    specialize (Hfit (member_value x)). cbn [member_value fst snd] in Hfit. apply andb_prop, Hfit.
    apply list_elem_of_In. rewrite Hp. by apply list_elem_of_fmap_2.
Qed.

(** ** Documents *)

Lemma parse_reads L t v : reads t v → size t <= max_bytes L → fits L 0 v = true →
  count v <= max_values L → parse t L = Ok v.
Proof.
  intros [Ho _ Hp] Hb Hf Hc. unfold parse. rewrite N.ltb_antisym, (proj2 (N.leb_le _ _) Hb). cbn [negb].
  pose proof (skip_opens t EmptyString Ho) as E. rewrite append_nil_r in E. rewrite E.
  pose proof (Hp L (parse_fuel t) 0 EmptyString 0) as H. rewrite append_nil_r in H.
  rewrite H; [done|unfold parse_fuel; lia|done|done|lia].
Qed.

End JsonText.
