(* ===== verification/AuditLog.v ===== *)
(** The append-only audit chain of [runtime/setup/audit/usk_audit_repository.cpp]. *)

From Stdlib Require Import Ascii String NArith ZArith Lia.
From stdpp Require Import base list strings gmap sets.
From S2P Require Import Prelude Utf8 Sha256 StdMap Json Path Effects World RecordIo.

Module AuditLog.
Import Json Path Effects World RecordIo.

(** ** Events *)

Record AuditInput := mk_input {
  created_at : string;
  operation : string;
  phase : string;
  status : string;
  subject_type : string;
  subject_id : string;
  details_digest : string;
  transaction_id : string;
  plan_id : string;
  message : string }.

Record AuditEvent := mk_event {
  event_input :> AuditInput;
  event_id : string;
  event_digest : string;
  audit_chain_id : string;
  sequence : N;
  previous_event_digest : string }.

Definition sha256_text (value : string) : bool :=
  (size value =? 64) && forall_bytes (fun ch => is_digit ch || is_lower_hex_alpha ch) value.

Definition in_set (x : string) (l : list string) : bool := existsb (String.eqb x) l.

Definition exact_members (v : value) (required optional : list string) : result unit :=
  members ← as_object v;
  let actual := map fst members in
  throw_if (negb (forallb (fun m => in_set m actual) required))
    "audit event lacks a required member";;
  throw_if (negb (forallb (fun m => in_set m (required ++ optional)) actual))
    "audit event has an incompatible member".

Definition event_filename (sequence : N) : string := pad20 sequence +:+ ".event.json".

Definition operations : list string :=
  ["inspect"; "plan"; "install_local"; "verify"; "repair"; "move"; "uninstall"; "recovery"].
Definition phases : list string :=
  ["request"; "validated"; "planned"; "staging"; "verified"; "committing";
   "completed"; "refused"; "failed"; "recovery"].
Definition statuses : list string := ["pass"; "warn"; "fail"; "refused"; "recovery_required"].
Definition subjects : list string :=
  ["source"; "plan"; "transaction"; "installation"; "ownership_manifest"; "journal"].

Definition input_valid (i : AuditInput) : bool :=
  negb (is_empty (created_at i) || negb (in_set (operation i) operations) ||
    negb (in_set (phase i) phases) || negb (in_set (status i) statuses) ||
    negb (in_set (subject_type i) subjects) ||
    negb (valid_identifier (subject_id i)) || negb (sha256_text (details_digest i)) ||
    (negb (is_empty (transaction_id i)) && negb (valid_identifier (transaction_id i))) ||
    (negb (is_empty (plan_id i)) && negb (valid_identifier (plan_id i))) ||
    (4096 <? size (message i))).

Definition validate_input (i : AuditInput) : result unit :=
  throw_if (negb (input_valid i)) "audit event input is invalid".

(** [if (!x.empty()) object.emplace(key, Value(x))]. *)
Definition emplace_text (key x : string) (m : list (string * value)) : list (string * value) :=
  if is_empty x then m else fst (StdMap.emplace key (string_value x) m).

Definition payload_members (e : AuditEvent) : list (string * value) :=
  let m := StdMap.of_list [
    ("audit_chain_id", string_value (audit_chain_id e));
    ("created_at", string_value (created_at e));
    ("details_digest", string_value (details_digest e));
    ("event_id", string_value (event_id e));
    ("operation", string_value (operation e));
    ("phase", string_value (phase e));
    ("previous_event_digest",
      if is_empty (previous_event_digest e) then null_value
      else string_value (previous_event_digest e));
    ("schema", string_value "usk.audit_event.v1");
    ("sequence", unsigned_integer (sequence e));
    ("status", string_value (status e));
    ("subject", make_object [
      ("subject_id", string_value (subject_id e));
      ("subject_type", string_value (subject_type e))])] in
  let m := emplace_text "transaction_id" (transaction_id e) m in
  let m := emplace_text "plan_id" (plan_id e) m in
  emplace_text "message" (message e) m.

Definition event_payload (e : AuditEvent) : value := object (payload_members e).

Definition event_document (e : AuditEvent) : value :=
  object (fst (StdMap.emplace "event_digest" (string_value (event_digest e)) (payload_members e))).

Definition optional_text (v : value) (key : string) : result string :=
  if contains v key then at_string v key else Ok EmptyString.

Definition null_or_text (v : value) : result string :=
  if is_null v then Ok EmptyString else as_string v.

Definition parse_event (v : value) : result AuditEvent :=
  exact_members v
    ["schema"; "event_id"; "event_digest"; "audit_chain_id"; "sequence";
     "previous_event_digest"; "created_at"; "operation"; "phase"; "status";
     "subject"; "details_digest"]
    ["transaction_id"; "plan_id"; "message"];;
  schema ← at_string v "schema";
  throw_if (negb (String.eqb schema "usk.audit_event.v1")) "audit event schema is incompatible";;
  event_id ← at_string v "event_id";
  event_digest ← at_string v "event_digest";
  audit_chain_id ← at_string v "audit_chain_id";
  seq ← at_ v "sequence"; sequence ← as_unsigned seq;
  prev ← at_ v "previous_event_digest"; previous ← null_or_text prev;
  created_at ← at_string v "created_at";
  operation ← at_string v "operation";
  phase ← at_string v "phase";
  status ← at_string v "status";
  subject ← at_ v "subject";
  exact_members subject ["subject_type"; "subject_id"] [];;
  subject_type ← at_string subject "subject_type";
  subject_id ← at_string subject "subject_id";
  details_digest ← at_string v "details_digest";
  transaction_id ← optional_text v "transaction_id";
  plan_id ← optional_text v "plan_id";
  message ← optional_text v "message";
  let event := mk_event (mk_input created_at operation phase status subject_type subject_id
    details_digest transaction_id plan_id message)
    event_id event_digest audit_chain_id sequence previous in
  validate_input event;;
  bad ← Ok (negb (valid_identifier event_id)) ||| Ok (negb (valid_identifier audit_chain_id)) |||
    Ok (negb (sha256_text event_digest)) |||
    Ok (negb (is_empty previous) && negb (sha256_text previous)) |||
    (h ← sha256_canonical (event_payload event); Ok (negb (String.eqb h event_digest)));
  throw_if bad "audit event identity or canonical digest is invalid";;
  Ok event.

Definition newline : string := String (ascii_of_N 10) EmptyString.
Definition crlf : string := String (ascii_of_N 13) (String (ascii_of_N 10) EmptyString).

Definition decode_audit_event_record (text : string) : result AuditEvent :=
  throw_if (1024 * 1024 <? size text) "audit event exceeds its byte bound";;
  document ← parse text default_limits;
  let canonical_text := canonical document in
  throw_if (negb (String.eqb (canonical_text +:+ newline) text) &&
            negb (String.eqb (canonical_text +:+ crlf) text)) "audit event is not canonical";;
  parse_event document.

Definition decode_audit_chain_record (text chain_id record_name : string) (sequence_ : N)
    (previous_digest : string) : result AuditEvent :=
  throw_if (negb (valid_identifier chain_id)) "audit chain id is invalid";;
  event ← decode_audit_event_record text;
  throw_if (negb (String.eqb (audit_chain_id event) chain_id) ||
    negb (sequence event =? sequence_) ||
    negb (String.eqb (event_id event) (chain_id +:+ "." +:+ to_string sequence_)) ||
    negb (String.eqb (previous_event_digest event) previous_digest) ||
    negb (String.eqb record_name (event_filename sequence_)))
    "audit chain sequence or previous digest is invalid";;
  Ok event.

(** ** The repository

    [root] is [root_], the absolute normal path the constructor computes. *)

Definition audit_repository (audit_root : path) : io path :=
  p ← StableFile.absolute audit_root;
  let root := lexically_normal p in
  when (is_empty root) (fail "filesystem error: cannot make absolute path");;
  require_safe_directory root;;
  ret root.

Definition initialize_layout (audit_root : path) : io unit :=
  require_safe_directory audit_root;;
  create_directory_exclusive audit_root "chains".

Definition initialize_chain (root : path) (chain_id : string) : io unit :=
  guard (valid_identifier chain_id) "audit chain id is invalid";;
  require_safe_directory (root /+ "chains");;
  create_directory_exclusive (root /+ "chains") chain_id.

Definition event_name_ok (nm : string) : bool :=
  (size nm =? 31) && String.eqb (str_drop 20 nm) ".event.json" &&
  forall_bytes is_digit (str_take 20 nm).

Definition is_regular (k : kind) : bool := match k with regular _ => true | _ => false end.

(** The loop over the directory: the names accepted so far. *)
Definition admit_entry (maximum_events : N) (names_ : list string) (entry : list string * kind)
    : result (list string) :=
  let nm := default EmptyString (last (fst entry)) in
  if negb (is_regular (snd entry)) || negb (event_name_ok nm)
  then throw "audit chain contains an unrecognized or unsafe entry"
  else if maximum_events <=? N.of_nat (length names_)
  then throw "audit chain exceeds the admitted event bound"
  else Ok (names_ ++ [nm]).

(** The loop over the sorted records: the events so far and the last digest. *)
Fixpoint read_records (chain_root : path) (chain_id : string) (names_ : list string)
    (index : N) (previous : string) : io (list AuditEvent) :=
  match names_ with
  | [] => ret []
  | nm :: names_ =>
    text ← read_stable_text (chain_root /+ nm) (1024 * 1024);
    event ← lift (decode_audit_chain_record text chain_id nm index previous);
    rest ← read_records chain_root chain_id names_ (index + 1) (event_digest event);
    ret (event :: rest)
  end.

Definition read_and_validate_chain_bounded (root : path) (chain_id : string) (maximum_events : N)
    : io (list AuditEvent) :=
  guard (negb (maximum_events =? 0)) "audit event read bound must be positive";;
  guard (valid_identifier chain_id) "audit chain id is invalid";;
  let chain_root := root /+ "chains" /+ chain_id in
  require_safe_directory chain_root;;
  listing ← list_directory chain_root;
  match listing with
  | None => fail "filesystem error: directory iterator cannot open directory"
  | Some listing =>
    names_ ← lift (fold_result (admit_entry maximum_events) [] listing);
    read_records chain_root chain_id (sort_names names_) 0 EmptyString
  end.

Definition read_and_validate_chain (root : path) (chain_id : string) : io (list AuditEvent) :=
  read_and_validate_chain_bounded root chain_id uint64_max.

(** The event [append] writes after a validated chain; its digest comes from the
    payload of the event whose digest is still empty. *)
Definition next_event (chain_id : string) (chain : list AuditEvent) (i : AuditInput)
    : result AuditEvent :=
  let seq := N.of_nat (length chain) in
  let previous := match last chain with Some e => event_digest e | None => EmptyString end in
  let draft := mk_event i (chain_id +:+ "." +:+ to_string seq) EmptyString chain_id seq previous in
  digest ← sha256_canonical (event_payload draft);
  Ok (mk_event i (chain_id +:+ "." +:+ to_string seq) digest chain_id seq previous).

Definition record_text (e : AuditEvent) : string := canonical (event_document e) +:+ newline.

Definition append (root : path) (chain_id : string) (i : AuditInput) : io AuditEvent :=
  lift (validate_input i);;
  chain ← read_and_validate_chain root chain_id;
  event ← lift (next_event chain_id chain i);
  write_new_durable_text (root /+ "chains" /+ chain_id /+ event_filename (sequence event))
    (record_text event);;
  ret event.

End AuditLog.
