(* ===== verification/AuditFacts.v ===== *)
(** Theorems on the audit chain: what is written is read back, what is read is
    a digest-linked chain, and a chain is determined by its last digest. *)

From Stdlib Require Import Ascii String NArith ZArith Lia.
From stdpp Require Import base list strings gmap sets.
From S2P Require Import Prelude Utf8 Sha256 StdMap Json JsonFacts JsonParse JsonProps Path.
From S2P Require Import PathFacts Effects World RecordIo RecordFacts TextFacts AuditLog.

Module AuditFacts.
Import Utf8 Json JsonFacts JsonParse JsonProps Path Effects World RecordIo TextFacts AuditLog.

(** ** The members of an event *)

Definition option_member (key x : string) : list (string * value) :=
  if is_empty x then [] else [(key, string_value x)].

Definition previous_value (e : AuditEvent) : value :=
  if is_empty (previous_event_digest e) then null_value
  else string_value (previous_event_digest e).

(** The payload in key order; the document has the digest as well. *)
Definition ordered_members (digest : list (string * value)) (e : AuditEvent)
    : list (string * value) :=
  [("audit_chain_id", string_value (audit_chain_id e));
   ("created_at", string_value (created_at e));
   ("details_digest", string_value (details_digest e))] ++ digest ++
  [("event_id", string_value (event_id e))] ++ option_member "message" (message e) ++
  [("operation", string_value (operation e)); ("phase", string_value (phase e))] ++
  option_member "plan_id" (plan_id e) ++
  [("previous_event_digest", previous_value e);
   ("schema", string_value "usk.audit_event.v1");
   ("sequence", unsigned_integer (sequence e));
   ("status", string_value (status e));
   ("subject", object [("subject_id", string_value (subject_id e));
                       ("subject_type", string_value (subject_type e))])] ++
  option_member "transaction_id" (transaction_id e).

Definition document_members (e : AuditEvent) : list (string * value) :=
  ordered_members [("event_digest", string_value (event_digest e))] e.

Lemma payload_shape e : event_payload e = object (ordered_members [] e).
Proof.
  unfold event_payload, payload_members, ordered_members, option_member, emplace_text, previous_value.
  by destruct (is_empty (transaction_id e)), (is_empty (plan_id e)), (is_empty (message e)).
Qed.

Lemma document_shape e : event_document e = object (document_members e).
Proof.
  unfold event_document, payload_members, document_members, ordered_members, option_member,
    emplace_text, previous_value.
  by destruct (is_empty (transaction_id e)), (is_empty (plan_id e)), (is_empty (message e)).
Qed.

Lemma document_sorted e : StdMap.sorted (document_members e).
Proof.
  pose proof (document_shape e) as H. injection H as <-.
  apply StdMap.emplace_sorted. unfold payload_members, emplace_text.
  repeat match goal with |- context [if ?c then _ else _] => destruct c end;
    repeat first [apply StdMap.of_list_sorted|apply StdMap.emplace_sorted].
Qed.

(** ** Validity *)

Definition event_valid (e : AuditEvent) : bool :=
  input_valid e && valid_identifier (event_id e) && valid_identifier (audit_chain_id e) &&
  sha256_text (event_digest e) &&
  (is_empty (previous_event_digest e) || sha256_text (previous_event_digest e)) &&
  String.eqb (Sha256.sha256 (canonical (event_payload e))) (event_digest e).

Lemma check_event (e : AuditEvent) :
  (validate_input e;;
   bad ← Ok (negb (valid_identifier (event_id e))) ||| Ok (negb (valid_identifier (audit_chain_id e))) |||
     Ok (negb (sha256_text (event_digest e))) |||
     Ok (negb (is_empty (previous_event_digest e)) && negb (sha256_text (previous_event_digest e))) |||
     (h ← sha256_canonical (event_payload e); Ok (negb (String.eqb h (event_digest e))));
   throw_if bad "audit event identity or canonical digest is invalid";;
   Ok e) = if event_valid e then Ok e else
     throw (if input_valid e then "audit event identity or canonical digest is invalid"
            else "audit event input is invalid").
Proof.
  unfold validate_input, event_valid. rewrite sha256_canonical_eq.
  destruct (input_valid e); [|done]. cbn [mbind result_bind throw_if negb andb].
  destruct (valid_identifier (event_id e)), (valid_identifier (audit_chain_id e)),
    (sha256_text (event_digest e)), (is_empty (previous_event_digest e)),
    (sha256_text (previous_event_digest e)), (String.eqb _ _); reflexivity.
Qed.

(** Reading the document of an event back. *)
Lemma parse_event_document e : parse_event (event_document e) =
  if event_valid e then Ok e else
    throw (if input_valid e then "audit event identity or canonical digest is invalid"
           else "audit event input is invalid").
Proof.
  rewrite <- (check_event e), document_shape.
  unfold document_members, ordered_members, option_member, previous_value.
  destruct e as [[created operation phase status subject_type subject_id details transaction plan message]
    event_id digest chain seq previous]; cbn [created_at AuditLog.operation AuditLog.phase AuditLog.status
    AuditLog.subject_type AuditLog.subject_id details_digest transaction_id plan_id AuditLog.message event_input
    AuditLog.event_id event_digest audit_chain_id sequence previous_event_digest].
  destruct transaction, plan, message, previous; reflexivity.
Qed.

(** ** The payload determines the event *)

Lemma option_member_inj (x y : string) :
  (if is_empty x then None else Some (string_value x)) =
  (if is_empty y then None else Some (string_value y)) → x = y.
Proof. by destruct x, y; simpl; try congruence. Qed.

Lemma find_plain e :
  let m := ordered_members [] e in
  StdMap.find "audit_chain_id" m = Some (string_value (audit_chain_id e)) ∧
  StdMap.find "created_at" m = Some (string_value (created_at e)) ∧
  StdMap.find "details_digest" m = Some (string_value (details_digest e)) ∧
  StdMap.find "event_id" m = Some (string_value (event_id e)) ∧
  StdMap.find "operation" m = Some (string_value (operation e)) ∧
  StdMap.find "phase" m = Some (string_value (phase e)) ∧
  StdMap.find "previous_event_digest" m = Some (previous_value e) ∧
  StdMap.find "sequence" m = Some (unsigned_integer (sequence e)) ∧
  StdMap.find "status" m = Some (string_value (status e)) ∧
  StdMap.find "subject" m = Some (object [("subject_id", string_value (subject_id e));
                       ("subject_type", string_value (subject_type e))]).
Proof.
  cbn zeta. unfold ordered_members, option_member.
  destruct (is_empty (message e)), (is_empty (plan_id e)), (is_empty (transaction_id e));
    repeat split; reflexivity.
Qed.

Lemma find_optional e :
  let m := ordered_members [] e in
  StdMap.find "message" m = (if is_empty (message e) then None else Some (string_value (message e))) ∧
  StdMap.find "plan_id" m = (if is_empty (plan_id e) then None else Some (string_value (plan_id e))) ∧
  StdMap.find "transaction_id" m =
    (if is_empty (transaction_id e) then None else Some (string_value (transaction_id e))).
Proof.
  cbn zeta. unfold ordered_members, option_member.
  destruct (is_empty (message e)), (is_empty (plan_id e)), (is_empty (transaction_id e));
    repeat split; reflexivity.
Qed.

(** Equal payloads: the events agree in everything but the recorded digest. *)
Lemma payload_injective e e' : event_payload e = event_payload e' →
  event_input e = event_input e' ∧ event_id e = event_id e' ∧
  audit_chain_id e = audit_chain_id e' ∧ sequence e = sequence e' ∧
  previous_event_digest e = previous_event_digest e'.
Proof.
  rewrite !payload_shape. intros H0.
  assert (ordered_members [] e = ordered_members [] e') as H
    by exact (f_equal (fun v => match v with object m => m | _ => [] end) H0). clear H0.
  destruct (find_plain e) as (A1 & A2 & A3 & A4 & A5 & A6 & A7 & A8 & A9 & A10).
  destruct (find_plain e') as (B1 & B2 & B3 & B4 & B5 & B6 & B7 & B8 & B9 & B10).
  destruct (find_optional e) as (C1 & C2 & C3), (find_optional e') as (D1 & D2 & D3).
  cbn zeta in *. rewrite <- H in B1, B2, B3, B4, B5, B6, B7, B8, B9, B10, D1, D2, D3. clear H.
  rewrite A1 in B1; rewrite A2 in B2; rewrite A3 in B3; rewrite A4 in B4; rewrite A5 in B5;
  rewrite A6 in B6; rewrite A7 in B7; rewrite A8 in B8; rewrite A9 in B9; rewrite A10 in B10.
  rewrite C1 in D1; rewrite C2 in D2; rewrite C3 in D3.
  apply option_member_inj in D1, D2, D3.
  assert (previous_event_digest e = previous_event_digest e') as Hp.
  { unfold previous_value in B7.
    destruct (previous_event_digest e), (previous_event_digest e'); simpl in B7; congruence. }
  destruct e as [[]], e' as [[]]; simpl in *. repeat split; congruence.
Qed.

(** ** Digest-linked chains *)

(** What a valid chain looks like, from the first event on. *)
Fixpoint linked (chain_id : string) (index : N) (previous : string) (chain : list AuditEvent) : Prop :=
  match chain with
  | [] => True
  | e :: chain =>
    event_valid e = true ∧ audit_chain_id e = chain_id ∧ sequence e = index ∧
    event_id e = chain_id +:+ "." +:+ to_string index ∧
    previous_event_digest e = previous ∧
    linked chain_id (index + 1) (event_digest e) chain
  end.

Lemma linked_app chain_id index previous a b :
  linked chain_id index previous (a ++ b) ↔
  linked chain_id index previous a ∧
  linked chain_id (index + N.of_nat (length a))
    (match last a with Some e => event_digest e | None => previous end) b.
Proof.
  revert index previous. induction a as [|e a IH]; intros index previous; simpl.
  - rewrite N.add_0_r. tauto.
  - rewrite IH. replace (index + 1 + N.of_nat (length a)) with (index + N.pos (Pos.of_succ_nat (length a))) by lia.
    destruct a as [|x a]; simpl; [tauto|].
    change (last (x :: a)) with (last (x :: a)). destruct (last (x :: a)) eqn:El; [tauto|].
    by apply last_None in El.
Qed.

Definition sha256_collision : Prop := ∃ a b, a ≠ b ∧ Sha256.sha256 a = Sha256.sha256 b.

Lemma event_valid_digest e : event_valid e = true →
  event_digest e = Sha256.sha256 (canonical (event_payload e)).
Proof. unfold event_valid. intros. bool_hyps. done. Qed.

(** Equal digests of valid events: equal events, or two texts collide. *)
Lemma digest_determines e e' : event_valid e = true → event_valid e' = true →
  event_digest e = event_digest e' → e = e' ∨ sha256_collision.
Proof.
  intros H1%event_valid_digest H2%event_valid_digest H.
  destruct (decide (canonical (event_payload e) = canonical (event_payload e'))) as [E|E].
  - left. apply canonical_injective, payload_injective in E as (? & ? & ? & ? & ?).
    destruct e, e'; simpl in *. congruence.
  - right. exists (canonical (event_payload e)), (canonical (event_payload e')). split; [done|congruence].
Qed.

(** The last digest commits to the whole history: two validated chains of
    the same length and with the same last digest are the same chain, event by
    event, unless two different texts with the same SHA-256 exist. *)
Theorem chain_binding id id' chain chain' e e' :
  linked id 0 EmptyString (chain ++ [e]) → linked id' 0 EmptyString (chain' ++ [e']) →
  length chain = length chain' → event_digest e = event_digest e' →
  chain ++ [e] = chain' ++ [e'] ∨ sha256_collision.
Proof.
  revert chain' e e'. induction chain as [|x chain IH] using rev_ind; intros chain' e e' H H' Hl Hd.
  - destruct chain'; [|done]. simpl in *. destruct H as (Hv & _), H' as (Hv' & _).
    destruct (digest_determines e e' Hv Hv' Hd) as [->|]; auto.
  - destruct chain' as [|x' chain' _] using rev_ind; [rewrite length_app in Hl; simpl in Hl; lia|].
    rewrite !length_app in Hl. simpl in Hl.
    apply linked_app in H as [H He]. apply linked_app in H' as [H' He'].
    rewrite last_snoc in He, He'. simpl in He, He'.
    destruct He as (Hv & _ & _ & _ & Hp & _), He' as (Hv' & _ & _ & _ & Hp' & _).
    destruct (digest_determines e e' Hv Hv' Hd) as [<-|]; [|auto].
    destruct (IH chain' x x' H H' ltac:(lia) ltac:(congruence)) as [->|]; auto.
Qed.

(** ** Reading *)

Lemma parse_event_valid v e : parse_event v = Ok e → event_valid e = true.
Proof.
  unfold parse_event. intros H.
  repeat (apply bind_ok in H as (? & ? & H); cbv beta iota in H).
  repeat match goal with x : unit |- _ => destruct x end.
  assert (∀ m : result AuditEvent, m = Ok e → m = (if event_valid e then Ok e else
     throw (if input_valid e then "audit event identity or canonical digest is invalid"
            else "audit event input is invalid")) → event_valid e = true) as K.
  { intros m -> C. by destruct (event_valid e). }
  injection H as E. rewrite E in *. eapply K; [|apply check_event].
  apply bind_ok. exists tt. split; [eassumption|]. cbv beta.
  apply bind_ok. eexists. split; [subst e; eassumption|]. cbv beta.
  apply bind_ok. eexists. split; [eassumption|]. done.
Qed.

Lemma decode_record_valid text e : decode_audit_event_record text = Ok e → event_valid e = true.
Proof.
  unfold decode_audit_event_record. intros H.
  do 3 (apply bind_ok in H as (? & ? & H); cbv beta zeta in H). by eapply parse_event_valid.
Qed.

Lemma decode_chain_record text id nm index previous e :
  decode_audit_chain_record text id nm index previous = Ok e →
  valid_identifier id = true ∧ decode_audit_event_record text = Ok e ∧
  audit_chain_id e = id ∧ sequence e = index ∧
  event_id e = id +:+ "." +:+ to_string index ∧ previous_event_digest e = previous ∧
  nm = event_filename index.
Proof.
  unfold decode_audit_chain_record. intros H.
  apply bind_ok in H as (? & H1%throw_if_ok & H). apply bind_ok in H as (e' & H2 & H).
  apply bind_ok in H as (? & H3%throw_if_ok & [= <-]). bool_hyps. done.
Qed.

(** A successful run of a sequence, on any host. *)
Lemma read_records_linked root id nms index previous w chain w' :
  read_records root id nms index previous w = (Ok chain, w') →
  linked id index previous chain ∧ nms = map event_filename (map (fun k => index + N.of_nat k) (seq 0 (length nms)))
  ∧ length chain = length nms.
Proof.
  revert index previous w chain w'. induction nms as [|nm nms IH]; intros index previous w chain w' H.
  { injection H as <- _. done. }
  cbn [read_records] in H. apply seq_ok in H as (text & w1 & _ & H).
  apply seq_ok in H as (e & w2 & H2 & H). injection H2 as H2 _.
  apply seq_ok in H as (rest & w3 & H3 & H). injection H as <- _.
  destruct (decode_chain_record _ _ _ _ _ _ H2) as (Hid & Hd & Hc & Hs & He & Hp & Hn).
  destruct (IH _ _ _ _ _ H3) as (Hl & Hnms & Hlen).
  split; [|split; [|simpl; congruence]].
  - simpl. repeat split; try done. by eapply decode_record_valid.
  - cbn [length seq map]. rewrite N.add_0_r, <- Hn. f_equal. rewrite Hnms at 1.
    rewrite !map_map, <- (seq_shift (length nms) 0), !map_map. apply map_ext. intros k.
    f_equal. lia.
Qed.

Lemma read_chain_inv root id bound w chain w' :
  read_and_validate_chain_bounded root id bound w = (Ok chain, w') →
  ∃ listing nms w1, fold_result (admit_entry bound) [] listing = Ok nms ∧
    read_records (root /+ "chains" /+ id) id (sort_names nms) 0 EmptyString w1 = (Ok chain, w').
Proof.
  unfold read_and_validate_chain_bounded. intros H.
  apply seq_ok in H as ([] & w1 & _ & H). apply seq_ok in H as ([] & w2 & _ & H).
  apply seq_ok in H as ([] & w3 & _ & H). apply seq_ok in H as ([l|] & w4 & _ & H); [|done].
  apply seq_ok in H as (nms & w5 & H5 & H). injection H5 as H5 <-. eauto.
Qed.

Lemma read_chain_linked root id w chain w' :
  read_and_validate_chain root id w = (Ok chain, w') → linked id 0 EmptyString chain.
Proof.
  intros (l & nms & w1 & _ & H)%read_chain_inv. by apply read_records_linked in H as [? _].
Qed.

(** Whatever the host does meanwhile, a chain that [read_and_validate_chain]
    returns is a complete digest-linked chain: event [i] has sequence [i], the
    chain's identifier, the digest of event [i - 1] as its predecessor, valid
    fields, and as its own digest the SHA-256 of its canonical payload. *)
Theorem read_chain_is_linked root id w chain w' :
  read_and_validate_chain root id w = (Ok chain, w') → linked id 0 EmptyString chain.
Proof. apply read_chain_linked. Qed.

(** ** Records *)

Lemma in_set_ascii x l : in_set x l = true → forallb ascii_text l = true → valid_utf8 x = true.
Proof.
  unfold in_set. rewrite existsb_exists. intros (y & Hy & ->%String.eqb_eq) H.
  rewrite forallb_forall in H. by apply ascii_valid_utf8, H.
Qed.

Lemma identifier_utf8 s : valid_identifier s = true → valid_utf8 s = true.
Proof. intros [? _]%identifier_ascii. by apply ascii_valid_utf8. Qed.

Lemma sha256_text_utf8 s : sha256_text s = true → valid_utf8 s = true.
Proof. unfold sha256_text. intros. bool_hyps. by apply ascii_valid_utf8, hex_ascii. Qed.

Lemma optional_utf8 s : negb (is_empty s) && negb (valid_identifier s) = false → valid_utf8 s = true.
Proof.
  intros H. destruct s as [|c s]; [done|]. simpl in H. apply identifier_utf8.
  by apply negb_false_iff in H.
Qed.

(** The free-form fields are the only ones whose encoding is not checked. *)
Lemma event_utf8 e : event_valid e = true → valid_utf8 (created_at e) = true →
  valid_utf8 (message e) = true → utf8_value (event_document e) = true.
Proof.
  unfold event_valid, input_valid. intros Hv Hc Hm.
  repeat match goal with
  | H : _ && _ = true |- _ => apply andb_prop in H as [? ?]
  | H : negb (_ || _) = true |- _ => apply negb_true_iff in H
  | H : _ || _ = false |- _ => apply orb_false_elim in H as [? ?]
  | H : negb _ = false |- _ => apply negb_false_iff in H
  end.
  assert (valid_utf8 (previous_event_digest e) = true) as Hp.
  { destruct (is_empty (previous_event_digest e)) eqn:E;
      [by destruct (previous_event_digest e)|by apply sha256_text_utf8]. }
  assert (valid_utf8 (transaction_id e) = true) as Ht by (by apply optional_utf8).
  assert (valid_utf8 (plan_id e) = true) as Hl by (by apply optional_utf8).
  rewrite document_shape. unfold document_members, ordered_members, option_member, previous_value.
  repeat match goal with
  | |- context [is_empty ?x] => destruct (is_empty x)
  end; cbn [app utf8_value forallb fst snd]; rewrite ?Hc, ?Hm, ?Hp, ?Ht, ?Hl;
  rewrite ?(identifier_utf8 (audit_chain_id e)), ?(identifier_utf8 (event_id e)),
    ?(identifier_utf8 (subject_id e)), ?(sha256_text_utf8 (details_digest e)),
    ?(sha256_text_utf8 (event_digest e)), ?(in_set_ascii (operation e) operations),
    ?(in_set_ascii (phase e) phases), ?(in_set_ascii (status e) statuses),
    ?(in_set_ascii (subject_type e) subjects) by (done || reflexivity);
  reflexivity.
Qed.

Lemma document_wf e : sequence e <= uint64_max → wf (event_document e).
Proof.
  intros Hs. rewrite document_shape. apply wf_object. split; [apply document_sorted|].
  unfold document_members, ordered_members, option_member, previous_value.
  repeat match goal with |- context [is_empty ?x] => destruct (is_empty x) end;
    cbn [app]; repeat constructor; done.
Qed.

Lemma document_small e : count (event_document e) <= 18 ∧ height (event_document e) <= 2.
Proof.
  rewrite document_shape. unfold document_members, ordered_members, option_member, previous_value.
  repeat match goal with |- context [is_empty ?x] => destruct (is_empty x) end;
    vm_compute; split; discriminate.
Qed.

Lemma decode_record_text e :
  event_valid e = true → valid_utf8 (created_at e) = true → valid_utf8 (message e) = true →
  sequence e <= uint64_max → size (record_text e) <= 1024 * 1024 →
  decode_audit_event_record (record_text e) = Ok e.
Proof.
  intros Hv Hc Hm Hs Hz. unfold decode_audit_event_record. unfold record_text in *.
  destruct (document_small e) as [Hcount Hheight].
  rewrite (proj2 (N.ltb_ge _ _) Hz). cbn [throw_if mbind result_bind].
  rewrite size_append in Hz. rewrite (parse_short default_limits); cbn [mbind result_bind].
  - rewrite String.eqb_refl. simpl negb. cbn [andb throw_if mbind result_bind].
    by rewrite parse_event_document, Hv.
  - by apply document_wf.
  - by apply event_utf8.
  - unfold default_limits. simpl max_depth. lia.
  - unfold default_limits. simpl max_values. lia.
  - done.
  - unfold default_limits. simpl max_bytes. rewrite size_append. lia.
  - unfold default_limits. simpl max_string_bytes. lia.
Qed.

(** What [append] writes, [decode_audit_event_record] reads: the record of a
    valid event whose free-form fields are UTF-8 and whose text is within the
    1 MiB bound decodes to exactly that event. *)
Theorem audit_record_round_trip e :
  event_valid e = true → valid_utf8 (created_at e) = true → valid_utf8 (message e) = true →
  sequence e <= uint64_max → size (record_text e) <= 1024 * 1024 →
  decode_audit_event_record (record_text e) = Ok e.
Proof. apply decode_record_text. Qed.

End AuditFacts.
