(* ===== verification/AuditAppend.v ===== *)
(** Appending to an audit chain and reading it again, and two ways in which the
    written record and the reader disagree. *)

From Stdlib Require Import Ascii String NArith ZArith Lia Sorted.
From stdpp Require Import base list strings gmap sets sorting.
From S2P Require Import Prelude Utf8 Sha256 StdMap Json JsonFacts JsonParse JsonProps Path.
From S2P Require Import PathFacts Effects World RecordIo RecordFacts DirectoryFacts TextFacts AuditLog AuditFacts.

Module AuditAppend.
Import Utf8 Json JsonFacts JsonParse JsonProps ParseErrors Path PathFacts Effects World StableFile RecordIo
  RecordFacts DirectoryFacts TextFacts AuditLog AuditFacts.

(** ** Where writer and reader disagree *)

Lemma canonical_object_last m : last_byte (canonical (object m)) = Some (ascii_of_N 125).
Proof. rewrite canonical_render. cbn [render]. rewrite <- append_assoc. apply last_byte_app. Qed.

(** The canonical check finds the value that a record was rendered from. *)
Lemma rendered_document m doc :
  negb (String.eqb (canonical doc +:+ newline) (canonical (object m) +:+ newline)) &&
  negb (String.eqb (canonical doc +:+ crlf) (canonical (object m) +:+ newline)) = false → doc = object m.
Proof.
  intros Hc. apply canonical_injective.
  apply andb_false_iff in Hc as [Hc|Hc]; apply negb_false_iff, String.eqb_eq in Hc.
  - by apply append_inv_tail in Hc.
  - exfalso. change crlf with (String (ascii_of_N 13) EmptyString +:+ newline) in Hc.
    rewrite <- append_assoc in Hc. apply append_inv_tail, (f_equal last_byte) in Hc.
    by rewrite canonical_object_last, last_byte_app in Hc.
Qed.

(** A record that decodes is parsed as the value it was rendered from. *)
Lemma decode_rendered m e :
  decode_audit_event_record (canonical (object m) +:+ newline) = Ok e →
  parse (canonical (object m) +:+ newline) default_limits = Ok (object m) ∧ parse_event (object m) = Ok e.
Proof.
  unfold decode_audit_event_record. intros H.
  apply bind_ok in H as (? & _ & H). apply bind_ok in H as (doc & Hp & H). cbv zeta in H.
  apply bind_ok in H as (? & Hc%throw_if_ok & H). by apply rendered_document in Hc as ->.
Qed.

Lemma next_event_id id chain i e : next_event id chain i = Ok e →
  event_id e = id +:+ "." +:+ to_string (N.of_nat (length chain)).
Proof. unfold next_event. intros (d & _ & [= <-])%bind_ok. done. Qed.

Lemma next_event_total id chain i : ∃ e, next_event id chain i = Ok e.
Proof. unfold next_event. rewrite sha256_canonical_eq. by eexists. Qed.

Lemma next_event_fields id chain i e : next_event id chain i = Ok e →
  sequence e = N.of_nat (length chain) ∧ event_input e = i ∧ audit_chain_id e = id ∧
  previous_event_digest e = match last chain with Some x => event_digest x | None => EmptyString end.
Proof. unfold next_event. intros (d & _ & [= <-])%bind_ok. done. Qed.

Lemma catchable_chain_record text chain_id nm n previous :
  throws_catchable (decode_audit_chain_record text chain_id nm n previous).
Proof.
  unfold decode_audit_chain_record, decode_audit_event_record, parse_event, validate_input, optional_text,
    null_or_text, exact_members.
  catch_auto.
Qed.

(** What the reader can read back of an event that [append] writes. *)
Definition readable_event (e : AuditEvent) : bool :=
  valid_utf8 (created_at e) && valid_utf8 (message e) && valid_identifier (event_id e) &&
  (size (record_text e) <=? 1024 * 1024).

Lemma utf8_member e k s : parse (record_text e) default_limits = Ok (event_document e) →
  StdMap.find k (document_members e) = Some (string_value s) → valid_utf8 s = true.
Proof.
  intros (_ & Hf & _)%parse_accepted Hk%StdMap.find_In. rewrite document_shape in Hf. cbn [fits] in Hf.
  apply andb_prop in Hf as [_ Hf]. rewrite forallb_forall in Hf. apply list_elem_of_In, Hf in Hk.
  apply andb_prop in Hk as [_ Hk]. cbn [snd fits] in Hk. apply andb_prop in Hk as [_ Hk].
  unfold string_ok in Hk. by apply andb_prop in Hk as [_ Hk].
Qed.

Lemma decoded_readable e e' : decode_audit_event_record (record_text e) = Ok e' → readable_event e = true.
Proof.
  intros H. pose proof H as Hd. unfold record_text in Hd. rewrite document_shape in Hd. apply decode_rendered in Hd as [Hparse Hp].
  rewrite <- document_shape in Hparse, Hp. fold (record_text e) in Hparse. rewrite parse_event_document in Hp.
  destruct (event_valid e) eqn:Hv; [|done].
  unfold decode_audit_event_record in H. apply bind_ok in H as ([] & Hz%throw_if_ok%N.ltb_ge & _).
  unfold readable_event. rewrite (utf8_member e "created_at" (created_at e) Hparse).
  2:{ unfold document_members, ordered_members, option_member. by repeat destruct (is_empty _). }
  assert (valid_utf8 (message e) = true) as ->.
  { destruct (is_empty (message e)) eqn:Em; [by destruct (message e)|]. apply (utf8_member e "message" _ Hparse).
    unfold document_members, ordered_members, option_member. rewrite Em. by repeat destruct (is_empty _). }
  rewrite (proj2 (N.leb_le _ _) Hz). unfold event_valid in Hv. bool_hyps.
  assert (valid_identifier (event_id e) = true) as -> by done. done.
Qed.

(** An empty optional member is not bound by the digest: adding an empty
    message to the record of an event without one yields a different text that
    decodes to the same event with the same, still valid, digest. *)
Theorem empty_message_unbound e :
  event_valid e = true → message e = EmptyString →
  let altered := object (fst (StdMap.emplace "message" (string_value EmptyString) (document_members e))) in
  parse_event altered = Ok e ∧ canonical altered ≠ canonical (event_document e).
Proof.
  intros Hv Hm altered. split.
  - transitivity (if event_valid e then Ok e else
      throw (A := AuditEvent) (if input_valid e then "audit event identity or canonical digest is invalid"
           else "audit event input is invalid")); [|by rewrite Hv]. clear Hv.
    unfold altered. rewrite <- (check_event e).
    unfold document_members, ordered_members, option_member, previous_value.
    destruct e as [[created operation phase status subject_type subject_id details transaction plan message]
      event_id digest chain seq previous]; cbn [created_at AuditLog.operation AuditLog.phase AuditLog.status
      AuditLog.subject_type AuditLog.subject_id details_digest transaction_id plan_id AuditLog.message event_input
      AuditLog.event_id event_digest audit_chain_id sequence previous_event_digest] in *. subst.
    destruct transaction, plan, previous; reflexivity.
  - intros H%canonical_injective. rewrite document_shape in H. unfold altered in H.
    assert (fst (StdMap.emplace "message" (string_value EmptyString) (document_members e)) =
      document_members e) as H'.
    { exact (f_equal (fun v => match v with object m => m | _ => [] end) H). }
    apply (f_equal (fun m => StdMap.find "message" m)) in H'.
    rewrite StdMap.find_emplace_same in H'; [| apply document_sorted|]; revert H';
      unfold document_members, ordered_members, option_member; rewrite Hm; simpl;
      by destruct (is_empty (plan_id e)), (is_empty (transaction_id e)).
Qed.

(** ** File names *)

Lemma event_filename_ok i : i < 10 ^ 20 → event_name_ok (event_filename i) = true.
Proof.
  intros Hi. destruct (pad20_shape i Hi) as (L & D & _). unfold event_name_ok, event_filename.
  assert (∀ x, str_drop 20 (pad20 i +:+ x) = x ∧ str_take 20 (pad20 i +:+ x) = pad20 i) as H.
  { intros x. rewrite <- L. by rewrite str_drop_all, str_take_all. }
  destruct (H ".event.json") as [-> ->]. by rewrite size_append, D; unfold size; rewrite L.
Qed.

(** The names of a chain of [n] events. *)
Definition chain_names (n : nat) : list string := numbered_names ".event.json" n.

Lemma event_filename_order i j : i < j → j < 10 ^ 20 →
  string_ltb (event_filename i) (event_filename j) = true.
Proof. apply numbered_order. Qed.

Lemma chain_names_sorted n : N.of_nat n <= 10 ^ 20 → StronglySorted name_le (chain_names n).
Proof. apply numbered_sorted. Qed.

Lemma chain_names_snoc n : chain_names (S n) = chain_names n ++ [event_filename (N.of_nat n)].
Proof. apply numbered_snoc. Qed.

Lemma event_filename_safe n : n < 10 ^ 20 → safe_name (event_filename n).
Proof. intros Hn. by apply numbered_safe. Qed.

Lemma chain_names_safe n : N.of_nat n <= 10 ^ 20 → Forall safe_name (chain_names n).
Proof. intros Hn. by apply numbered_names_safe. Qed.

Lemma chain_names_length n : length (chain_names n) = n.
Proof. apply numbered_length. Qed.


(** The stored records of a chain. *)
Fixpoint records (d : fs) (chain_root : path) (id : string) (nms : list string) (index : N)
    (previous : string) (chain : list AuditEvent) : Prop :=
  match nms, chain with
  | [], [] => True
  | nm :: nms, e :: chain =>
    ∃ i text, holds_file d (chain_root /+ nm) i text ∧ size text <= 1024 * 1024 ∧
      decode_audit_chain_record text id nm index previous = Ok e ∧
      records d chain_root id nms (index + 1) (event_digest e) chain
  | _, _ => False
  end.

Section Chain.
Context (cl : list string) (id : string).
Hypothesis Hcl : Forall safe_name cl.
Let chain_root := abs_text cl.

Lemma record_path nm : safe_name nm → normal_absolute_path (chain_root /+ nm).
Proof. by apply child_path. Qed.

Lemma read_records_inv nms : Forall safe_name nms → ∀ w index previous chain w',
  quiet w → read_records chain_root id nms index previous w = (Ok chain, w') →
  records (disk w) chain_root id nms index previous chain.
Proof.
  induction 1 as [|nm nms Hn _ IH]; intros w index previous chain w' Hq H.
  { by injection H as <- _. }
  cbn [read_records] in H. apply seq_ok in H as (text & w1 & R & H).
  destruct (read_stable_text_inv w _ _ _ _ Hq (record_path nm Hn) R) as [[i Hf] Hs].
  pose proof (runs_read_stable_text w _ i text _ Hq (record_path nm Hn) Hf Hs) as (w2 & R2 & D2 & Q2 & _).
  rewrite R2 in R. injection R as <-.
  apply seq_ok in H as (e & w3 & [He ->]%lift_ok & H).
  apply seq_ok in H as (rest & w4 & R4 & H). injection H as <- _.
  exists i, text. split; [done|]. split; [done|]. split; [done|]. rewrite <- D2. by eapply IH.
Qed.

Lemma read_records_runs nms : Forall safe_name nms → ∀ w index previous chain,
  quiet w → records (disk w) chain_root id nms index previous chain →
  runs w (read_records chain_root id nms index previous) chain (disk w).
Proof.
  induction 1 as [|nm nms Hn _ IH]; intros w index previous chain Hq H.
  { destruct chain; [|done]. by apply runs_ret. }
  destruct chain as [|e chain]; [done|]. destruct H as (i & text & Hf & Hs & He & H).
  cbn [read_records]. eapply runs_bind; [by eapply runs_read_stable_text; [|apply record_path|..]|].
  intros w1 Q1 D1 _. cbv beta. eapply runs_bind; [by apply runs_lift|]. intros w2 Q2 D2 _. cbv beta.
  rewrite <- D1, <- D2. eapply runs_bind; [apply IH; [done|by rewrite D2, D1]|].
  intros w3 Q3 D3 _. rewrite <- D3. by apply runs_ret.
Qed.

Lemma records_app d nms1 nms2 index previous chain1 chain2 :
  records d chain_root id nms1 index previous chain1 →
  records d chain_root id nms2 (index + N.of_nat (length nms1))
    (match last chain1 with Some e => event_digest e | None => previous end) chain2 →
  records d chain_root id (nms1 ++ nms2) index previous (chain1 ++ chain2).
Proof.
  revert index previous chain1. induction nms1 as [|nm nms1 IH]; intros index previous [|e chain1] H1 H2;
    cbn [records app length] in *; try done; [by rewrite N.add_0_r in H2|].
  destruct H1 as (i & text & Hf & Hs & He & H1). exists i, text. split; [done|]. split; [done|].
  split; [done|]. apply IH; [done|].
  replace (index + 1 + N.of_nat (length nms1)) with (index + N.of_nat (S (length nms1))) by lia.
  rewrite last_cons in H2. by destruct (last chain1).
Qed.

(** A record that cannot be decoded stops the reader. *)
Lemma throws_read_records nms nm text j : Forall safe_name nms → safe_name nm → ∀ w index previous chain,
  quiet w → records (disk w) chain_root id nms index previous chain →
  holds_file (disk w) (chain_root /+ nm) j text →
  is_ok (decode_audit_event_record text) = false →
  throws_io w (read_records chain_root id (nms ++ [nm]) index previous).
Proof.
  intros Hs Hn. induction Hs as [|x nms Hx _ IH]; intros w index previous chain Hq H Hf Hdec;
    cbn [app read_records].
  - destruct (N.ltb_spec (1024 * 1024) (size text)) as [Hz|Hz].
    { apply throws_io_bind. by eapply throws_read_large; [|apply record_path|..]. }
    eapply throws_io_after; [by eapply runs_read_stable_text; [|apply record_path|..]|].
    intros w1 Q1 D1 _. apply throws_io_bind, throws_io_lift; [done|apply catchable_chain_record|].
    unfold decode_audit_chain_record. destruct (decode_audit_event_record text); [done|].
    by destruct (valid_identifier id).
  - destruct chain as [|e chain]; [done|]. destruct H as (i & t & Hf' & Hs' & He & H).
    eapply throws_io_after; [by eapply runs_read_stable_text; [|apply record_path|..]|].
    intros w1 Q1 D1 _. cbv beta. eapply throws_io_after; [by apply runs_lift|]. intros w2 Q2 D2 _. cbv beta.
    apply throws_io_bind. rewrite <- D1, <- D2 in H, Hf. by eapply IH.
Qed.
End Chain.

Lemma records_adds d d' p i content root id nms index previous chain :
  adds_file d d' p i content → records d root id nms index previous chain →
  records d' root id nms index previous chain.
Proof.
  intros Ha. revert index previous chain. induction nms as [|nm nms IH]; intros index previous [|e chain] H;
    try done. destruct H as (j & text & Hf & Hs & He & H). exists j, text.
  split; [by eapply holds_file_adds|]. split; [done|]. split; [done|]. by apply IH.
Qed.

Definition entry_ok (entry : list string * kind) : bool :=
  is_regular (snd entry) && event_name_ok (entry_name entry).

Lemma admit_entries bound acc l nms :
  fold_result (admit_entry bound) acc l = Ok nms ↔
  forallb entry_ok l = true ∧ nms = acc ++ map entry_name l ∧
  (l = [] ∨ N.of_nat (length acc + length l) <= bound).
Proof.
  revert acc. induction l as [|x l IH]; intros acc; simpl.
  - rewrite app_nil_r. split; [intros [= ->]; auto|]. by intros (_ & -> & _).
  - assert (admit_entry bound acc x = if entry_ok x then
      if bound <=? N.of_nat (length acc)
      then throw "audit chain exceeds the admitted event bound" else Ok (acc ++ [entry_name x])
      else throw "audit chain contains an unrecognized or unsafe entry") as ->.
    { unfold admit_entry, entry_ok. fold (entry_name x).
      by destruct (is_regular (snd x)), (event_name_ok (entry_name x)). }
    destruct (entry_ok x); simpl; [|by split; [|intros (? & _)]].
    destruct (N.leb_spec bound (N.of_nat (length acc))) as [Hb|Hb]; simpl.
    + split; [done|]. intros (_ & _ & [?|?]); [done|lia].
    + rewrite IH, <- app_assoc, length_app. simpl. split.
      * intros (H1 & H2 & H3). split; [done|]. split; [done|]. right. destruct H3 as [->|]; simpl; lia.
      * intros (H1 & H2 & H3). split; [done|]. split; [done|]. destruct H3 as [|]; [done|]. right. lia.
Qed.

(** ** Appending *)

Lemma next_event_valid id chain i e :
  linked id 0 EmptyString chain → next_event id chain i = Ok e → input_valid i = true →
  valid_identifier id = true → valid_identifier (event_id e) = true →
  event_valid e = true ∧ event_input e = i ∧ audit_chain_id e = id ∧
  sequence e = N.of_nat (length chain) ∧
  previous_event_digest e = match last chain with Some x => event_digest x | None => EmptyString end.
Proof.
  unfold next_event. rewrite sha256_canonical_eq. cbn [mbind result_bind].
  set (draft := mk_event i _ EmptyString id _ _). intros Hl [= <-] Hi Hid He.
  split; [|done]. unfold event_valid. cbn [event_input event_id audit_chain_id event_digest previous_event_digest] in *.
  rewrite Hi, He, Hid. rewrite !andb_true_l.
  change (event_payload (mk_event i _ _ id _ _)) with (event_payload draft).
  generalize (canonical (event_payload draft)) as text. intros text.
  destruct (Sha256.sha256_shape text) as [S1 S2].
  unfold sha256_text at 1. unfold Sha256.is_lower_hex in S2.
  rewrite S1, S2, String.eqb_refl, andb_true_r, andb_true_l.
  destruct (last chain) as [x|] eqn:El; [|done]. apply last_Some in El as [chain' ->].
  apply linked_app in Hl as [_ (Hv & _)]. unfold event_valid in Hv. bool_hyps.
  apply orb_true_iff. by right.
Qed.

Section Append.
Context (l : list string) (id : string) (w : world).
Hypothesis Hl : Forall safe_name l.
Hypothesis Hid : valid_identifier id = true ∧ id ≠ "." ∧ id ≠ "..".
Let root := abs_text l.
Let cl := l ++ ["chains"; id].

Lemma id_safe : safe_name id.
Proof.
  destruct Hid as (Hv & H1 & H2). split; [|done]. unfold valid_identifier in Hv. bool_hyps.
  split; [|done]. unfold slash_free. eapply forall_bytes_impl; [|done].
  intros c Hc. apply negb_true_iff, Ascii.eqb_neq. intros ->. vm_compute in Hc. discriminate.
Qed.

Lemma chains_safe : safe_name "chains".
Proof. by repeat split. Qed.

Lemma chain_safe : Forall safe_name cl.
Proof.
  apply Forall_app. split; [done|]. constructor; [apply chains_safe|]. constructor; [apply id_safe|constructor].
Qed.

Lemma chain_root_text : root /+ "chains" /+ id = abs_text cl.
Proof.
  unfold root, cl. rewrite abs_text_append; [|by apply safe_plain|apply chains_safe].
  rewrite abs_text_append; [by rewrite <- app_assoc| |apply id_safe].
  apply safe_plain, Forall_app. split; [done|]. constructor; [apply chains_safe|constructor].
Qed.

Lemma runs_read_chain w0 nms chain : quiet w0 → safe_dir (disk w0) cl →
  forallb entry_ok (listing (disk w0) cl) = true →
  N.of_nat (length (listing (disk w0) cl)) <= uint64_max →
  sort_names (map entry_name (listing (disk w0) cl)) = nms → Forall safe_name nms →
  records (disk w0) (abs_text cl) id nms 0 EmptyString chain →
  runs w0 (read_and_validate_chain root id) chain (disk w0).
Proof.
  intros Hq Hd Hok Hb Hs Hn Hr. unfold read_and_validate_chain, read_and_validate_chain_bounded.
  destruct Hid as [-> _]. simpl guard. rewrite chain_root_text.
  eapply runs_bind; [by apply runs_ret|]. intros w1 Q1 D1 _. rewrite <- D1 in *. cbv beta.
  eapply runs_bind; [by apply runs_ret|]. intros w2 Q2 D2 _. rewrite <- D2 in *. cbv beta zeta.
  eapply runs_bind; [by apply runs_require_safe_directory; [|apply chain_safe|]|].
  intros w3 Q3 D3 _. rewrite <- D3 in *. cbv beta.
  eapply runs_bind; [by apply runs_observe|]. intros w4 Q4 D4 _.
  rewrite names_abs_text by (apply safe_plain, chain_safe).
  rewrite (safe_dir_here _ _ Hd). fold (listing (disk w3) cl). cbv beta iota. rewrite <- D4 in *.
  eapply runs_bind; [apply runs_lift; [done|]|].
  { apply admit_entries. split; [exact Hok|]. split; [reflexivity|]. right. simpl. lia. }
  intros w5 Q5 D5 _. cbv beta. simpl app. rewrite Hs, <- D5 in *.
  apply read_records_runs; [apply chain_safe|done..].
Qed.

Lemma throws_read_chain w0 : quiet w0 → safe_dir (disk w0) cl →
  forallb entry_ok (listing (disk w0) cl) = true →
  N.of_nat (length (listing (disk w0) cl)) <= uint64_max →
  (∀ w1, quiet w1 → disk w1 = disk w0 → throws_io w1 (read_records (abs_text cl) id
    (sort_names (map entry_name (listing (disk w0) cl))) 0 EmptyString)) →
  throws_io w0 (read_and_validate_chain root id).
Proof.
  intros Hq Hd Hok Hb Ht. unfold read_and_validate_chain, read_and_validate_chain_bounded.
  destruct Hid as [-> _]. simpl guard. rewrite chain_root_text.
  eapply throws_io_after; [by apply runs_ret|]. intros w1 Q1 D1 _. rewrite <- D1 in *. cbv beta.
  eapply throws_io_after; [by apply runs_ret|]. intros w2 Q2 D2 _. rewrite <- D2 in *. cbv beta zeta.
  eapply throws_io_after; [by apply runs_require_safe_directory; [|apply chain_safe|]|].
  intros w3 Q3 D3 _. rewrite <- D3 in *. cbv beta.
  eapply throws_io_after; [by apply runs_observe|]. intros w4 Q4 D4 _.
  rewrite names_abs_text by (apply safe_plain, chain_safe).
  rewrite (safe_dir_here _ _ Hd). fold (listing (disk w3) cl). cbv beta iota. rewrite <- D4 in *.
  eapply throws_io_after; [apply runs_lift; [done|]|].
  { apply admit_entries. split; [exact Hok|]. split; [reflexivity|]. right. simpl. lia. }
  intros w5 Q5 D5 _. cbv beta. simpl app. by apply Ht.
Qed.

Lemma read_chain_quiet_inv w0 chain w' : quiet w0 → safe_dir (disk w0) cl →
  read_and_validate_chain root id w0 = (Ok chain, w') →
  N.of_nat (length chain) <= uint64_max →
  forallb entry_ok (listing (disk w0) cl) = true ∧
  sort_names (map entry_name (listing (disk w0) cl)) = chain_names (length chain) ∧
  records (disk w0) (abs_text cl) id (chain_names (length chain)) 0 EmptyString chain.
Proof.
  intros Hq Hd H Hb. unfold read_and_validate_chain, read_and_validate_chain_bounded in H.
  destruct Hid as [Hv _]. rewrite Hv in H. simpl guard in H. rewrite chain_root_text in H.
  do 2 (apply seq_ok in H as ([] & ? & [= <-] & H); cbv beta zeta in H).
  apply seq_ok in H as ([] & w1 & R1 & H).
  destruct (runs_require_safe_directory w0 cl Hq chain_safe Hd) as (w2 & R2 & D2 & Q2 & _).
  rewrite R2 in R1. injection R1 as <-.
  unfold list_directory in H. apply seq_ok in H as (r & w3 & R3 & H).
  rewrite (observe_quiet _ _ Q2), D2 in R3. injection R3 as <- <-.
  rewrite names_abs_text in H by (apply safe_plain, chain_safe).
  rewrite (safe_dir_here _ _ Hd) in H. fold (listing (disk w0) cl) in H.
  apply seq_ok in H as (nms & w4 & [Ha ->]%lift_ok & H).
  apply admit_entries in Ha as (Hok & -> & _). simpl app in H.
  destruct (read_records_linked _ _ _ _ _ _ _ _ H) as (_ & Hn & Hlen).
  assert (sort_names (map entry_name (listing (disk w0) cl)) = chain_names (length chain)) as Hs.
  { rewrite Hn, Hlen. by unfold chain_names. }
  split; [done|]. split; [done|]. rewrite Hs in H.
  destruct (quiet_tick w2 Q2) as (Q3 & D3 & _). rewrite <- D2, <- D3.
  eapply read_records_inv; [apply chain_safe|apply chain_names_safe; unfold uint64_max in Hb; lia|done|exact H].
Qed.

Lemma record_path_safe n : n <= uint64_max → Forall safe_name (cl ++ [event_filename n]).
Proof.
  intros Hn. apply Forall_app. split; [apply chain_safe|]. constructor; [|constructor].
  apply event_filename_safe. unfold uint64_max in Hn. lia.
Qed.

Lemma record_child n : n <= uint64_max →
  abs_text cl /+ event_filename n = abs_text (cl ++ [event_filename n]).
Proof.
  intros Hn. apply abs_text_append; [apply safe_plain, chain_safe|]. apply event_filename_safe.
  unfold uint64_max in Hn. lia.
Qed.

(** A chain that has been read from an undisturbed host. *)
Section Read.
Context (chain : list AuditEvent) (w' : world).
Hypothesis Hq : quiet w.
Hypothesis Hok : fs_ok (disk w).
Hypothesis Hd : safe_dir (disk w) cl.
Hypothesis Hr : read_and_validate_chain root id w = (Ok chain, w').
Hypothesis Hn : N.of_nat (length chain) < uint64_max.
Let nm := event_filename (N.of_nat (length chain)).

Lemma chain_stored :
  forallb entry_ok (listing (disk w) cl) = true ∧
  sort_names (map entry_name (listing (disk w) cl)) = chain_names (length chain) ∧
  records (disk w) (abs_text cl) id (chain_names (length chain)) 0 EmptyString chain.
Proof. apply (read_chain_quiet_inv w chain w'); [done..|lia]. Qed.

Lemma chain_listed : map entry_name (listing (disk w) cl) ≡ₚ chain_names (length chain).
Proof. destruct chain_stored as (_ & <- & _). by rewrite sort_names_perm. Qed.

Lemma chain_counted : length (listing (disk w) cl) = length chain.
Proof. rewrite <- (length_map entry_name), chain_listed. apply chain_names_length. Qed.

Lemma next_record_free : entries (disk w) !! (cl ++ [nm]) = None.
Proof.
  apply eq_None_not_Some. intros Hsome. apply (listed _ _ _ Hok) in Hsome.
  rewrite chain_listed in Hsome. revert Hsome. apply numbered_fresh. unfold uint64_max in Hn. lia.
Qed.

(** Appending a valid input returns the next event and adds its record. *)
Lemma append_adds i e : input_valid i = true → next_event id chain i = Ok e →
  ensures w (append root id i) (fun e' d' => e' = e ∧
    adds_file (disk w) d' (abs_text (cl ++ [nm])) (fresh_inode (disk w)) (record_text e)).
Proof.
  intros Hi He. destruct chain_stored as (Hent & Hsort & Hrec). unfold append.
  eapply ensures_then; [apply runs_lift; [done|]; unfold validate_input; by rewrite Hi|].
  intros w1 Q1 D1 _.
  assert (runs w1 (read_and_validate_chain root id) chain (disk w1)) as Hrun1.
  { eapply runs_read_chain; [done|by rewrite D1..|rewrite D1, chain_counted; lia|by rewrite D1|
      apply chain_names_safe; unfold uint64_max in Hn; lia|by rewrite D1]. }
  eapply ensures_then; [exact Hrun1|]. intros w2 Q2 D2 _. rewrite D1 in D2. cbv beta.
  eapply ensures_then; [by apply runs_lift|]. intros w3 Q3 D3 _. rewrite D2 in D3. cbv beta.
  rewrite (proj1 (next_event_fields _ _ _ _ He)), chain_root_text, record_child by lia. fold nm.
  pose proof (record_path_safe _ (N.lt_le_incl _ _ Hn)) as Hrn. pose proof next_record_free as Hfree.
  eapply ensures_bind; [apply write_new_ensures; [done|done|by rewrite D3..]|].
  intros u w4 Q4 A4 _. rewrite D3 in A4. by eapply ensures_ret.
Qed.

(** What the next reader of the chain finds. *)
Section Appended.
Context (w1 : world) (e : AuditEvent).
Let j := fresh_inode (disk w).
Hypothesis Q1 : quiet w1.
Hypothesis A1 : adds_file (disk w) (disk w1) (abs_text (cl ++ [nm])) j (record_text e).

Lemma appended_chain :
  safe_dir (disk w1) cl ∧ forallb entry_ok (listing (disk w1) cl) = true ∧
  length (listing (disk w1) cl) = S (length chain) ∧
  sort_names (map entry_name (listing (disk w1) cl)) = chain_names (length chain) ++ [nm] ∧
  records (disk w1) (abs_text cl) id (chain_names (length chain)) 0 EmptyString chain ∧
  holds_file (disk w1) (abs_text cl /+ nm) j (record_text e).
Proof.
  destruct chain_stored as (Hent & Hsort & Hrec).
  assert (N.of_nat (length chain) < 10 ^ 20) as Hlt by (unfold uint64_max in Hn; lia).
  pose proof (listing_adds _ _ _ _ _ _ Hok (safe_plain _ (record_path_safe _ (N.lt_le_incl _ _ Hn))) A1) as Hli.
  split; [by eapply safe_dir_adds|]. split; [|split; [|split; [|split]]].
  - eapply forallb_perm; [symmetry; exact Hli|]. simpl. rewrite Hent, andb_true_r.
    unfold entry_ok, entry_name. simpl. rewrite last_snoc. by apply event_filename_ok.
  - rewrite Hli. simpl length. by rewrite chain_counted.
  - unfold nm. rewrite <- chain_names_snoc. apply sort_names_unique; [apply chain_names_sorted; lia|].
    rewrite Hli, chain_names_snoc. simpl. unfold entry_name at 1. simpl. rewrite last_snoc. simpl.
    rewrite chain_listed. apply Permutation_cons_append.
  - by eapply records_adds.
  - unfold nm. rewrite record_child by lia. by eapply adds_file_holds; [exact Hok|reflexivity|exact A1].
Qed.

Lemma appended_readable i : input_valid i = true → next_event id chain i = Ok e → readable_event e = true →
  runs w1 (read_and_validate_chain root id) (chain ++ [e]) (disk w1).
Proof.
  intros Hi He Hv. unfold readable_event in Hv. rewrite !andb_true_iff in Hv. destruct Hv as [[[Hu1 Hu2] Hv] Hz%N.leb_le].
  destruct appended_chain as (Hd1 & Hent & Hlen & Hsort & Hrec & Hfile). destruct Hid as [Hidv _].
  pose proof (next_event_valid id chain i e (read_chain_linked _ _ _ _ _ Hr) He Hi Hidv ltac:(done))
    as (Hev & Hin & Hch & Hsq & Hpr).
  eapply runs_read_chain; [done|done|done|rewrite Hlen; lia|exact Hsort| |].
  { unfold nm. rewrite <- chain_names_snoc. apply chain_names_safe. unfold uint64_max in Hn. lia. }
  apply records_app; [done|]. rewrite chain_names_length, N.add_0_l. simpl. exists j, (record_text e).
  split; [done|]. split; [done|]. split; [|done].
  unfold decode_audit_chain_record. rewrite Hidv.
  rewrite decode_record_text; [|done|done|done|rewrite Hsq; lia|done].
  cbn [negb throw_if mbind result_bind]. rewrite Hch, Hsq, (next_event_id _ _ _ _ He), Hpr.
  by rewrite !String.eqb_refl, N.eqb_refl.
Qed.

Lemma appended_unreadable : readable_event e = false →
  throws_io w1 (read_and_validate_chain root id).
Proof.
  intros Hv. destruct appended_chain as (Hd1 & Hent & Hlen & Hsort & Hrec & Hfile).
  eapply throws_read_chain; [done|done|done|rewrite Hlen; lia|].
  intros w2 Q2 D2. rewrite Hsort. rewrite <- D2 in Hrec, Hfile.
  eapply throws_read_records; [apply chain_safe| | |done|exact Hrec|exact Hfile|].
  - apply chain_names_safe. unfold uint64_max in Hn. lia.
  - apply event_filename_safe. unfold uint64_max in Hn. lia.
  - destruct (decode_audit_event_record (record_text e)) eqn:E; [|done].
    apply decoded_readable in E. by rewrite E in Hv.
Qed.
End Appended.
End Read.

(** C34 Appending to an audit chain on an undisturbed host, after the chain has
    been read: a valid input is always accepted. [append] returns the event that
    carries the input, the next sequence number and event id and the digest of
    the last event, and its record is the only change to the file system. If the
    event is readable (its time and message are UTF-8, its event id is an
    identifier of at most 128 bytes and its record is at most 1 MiB), the next
    read returns the old chain followed by that event; if it is not, the next
    read throws, because [append] checks none of this. *)
Theorem append_then_read chain w' i :
  quiet w → fs_ok (disk w) → safe_dir (disk w) cl →
  read_and_validate_chain root id w = (Ok chain, w') →
  N.of_nat (length chain) < uint64_max → input_valid i = true →
  ∃ e w1 j, append root id i w = (Ok e, w1) ∧
    event_input e = i ∧ audit_chain_id e = id ∧ sequence e = N.of_nat (length chain) ∧
    event_id e = id +:+ "." +:+ to_string (N.of_nat (length chain)) ∧
    previous_event_digest e = match last chain with Some x => event_digest x | None => EmptyString end ∧
    adds_file (disk w) (disk w1) (abs_text (cl ++ [event_filename (N.of_nat (length chain))])) j (record_text e) ∧
    if readable_event e then runs w1 (read_and_validate_chain root id) (chain ++ [e]) (disk w1)
    else throws_io w1 (read_and_validate_chain root id).
Proof.
  intros Hq Hok Hd Hr Hn Hi. destruct (next_event_total id chain i) as [e He].
  destruct (append_adds chain w' Hq Hok Hd Hr Hn i e Hi He) as (e1 & d & (w1 & E & <- & Q1 & _) & -> & A).
  exists e, w1, (fresh_inode (disk w)). destruct (next_event_fields _ _ _ _ He) as (Hs & Hin & Hc & Hp).
  split_and!; try done; [by apply next_event_id in He|]. destruct (readable_event e) eqn:Ev.
  - by eapply appended_readable.
  - by eapply appended_unreadable.
Qed.

(** A chain identifier of 127 or 128 bytes is valid, and [append] accepts it
    and writes a record, but the event id it builds is then longer than the 128
    bytes an identifier may have: after a successful append on an undisturbed
    host every later read of the chain throws, and so does every later append. *)
Theorem long_chain_id_unreadable chain w' i :
  quiet w → fs_ok (disk w) → safe_dir (disk w) cl → 127 <= size id →
  read_and_validate_chain root id w = (Ok chain, w') →
  N.of_nat (length chain) < uint64_max → input_valid i = true →
  ∃ e w1, append root id i w = (Ok e, w1) ∧
    throws_io w1 (read_and_validate_chain root id) ∧ throws_io w1 (append root id i).
Proof.
  intros Hq Hok Hd Hlong Hr Hn Hi. destruct (next_event_total id chain i) as [e He].
  destruct (append_adds chain w' Hq Hok Hd Hr Hn i e Hi He) as (e1 & d & (w1 & E & <- & Q1 & _) & -> & A).
  assert (∀ w2, quiet w2 → disk w2 = disk w1 → throws_io w2 (read_and_validate_chain root id)) as Ht.
  { intros w2 Q2 D2. rewrite <- D2 in A. eapply appended_unreadable; [done..|]. destruct (readable_event e) eqn:Ev; [|done]. exfalso.
    unfold readable_event in Ev. bool_hyps.
    assert (valid_identifier (event_id e) = true) as [_ Hs]%identifier_ascii by done.
    rewrite (next_event_id _ _ _ _ He), !size_append in Hs. change (size ".") with 1 in Hs.
    destruct (to_string_first (N.of_nat (length chain))) as (d & s & E1 & _). rewrite E1, size_cons in Hs. lia. }
  exists e, w1. split; [done|]. split; [by apply Ht|]. unfold append.
  eapply throws_io_after; [apply runs_lift; [done|]; unfold validate_input; by rewrite Hi|].
  intros w2 Q2 D2 _. by apply throws_io_bind, Ht.
Qed.

End Append.

(** ** A sample chain *)

Lemma pair_of_fst {A B} (x : A * B) a : fst x = a → x = (a, snd x).
Proof. by destruct x; intros <-. Qed.

Definition sample_input : AuditInput :=
  mk_input "2026-01-01T00:00:00Z" "plan" "planned" "pass" "plan" "p.1" (Sha256.sha256 "abc")
    EmptyString EmptyString EmptyString.

Definition sample_event : AuditEvent :=
  match next_event "c" [] sample_input with
  | Ok e => e
  | Throw _ => mk_event sample_input EmptyString EmptyString EmptyString 0 EmptyString
  end.

Lemma sample_next : next_event "c" [] sample_input = Ok sample_event.
Proof. unfold sample_event, next_event. rewrite sha256_canonical_eq. done. Qed.

Lemma sample_input_valid : input_valid sample_input = true.
Proof. vm_compute. reflexivity. Qed.

Lemma sample_event_id : valid_identifier (event_id sample_event) = true.
Proof. rewrite (next_event_id _ _ _ _ sample_next). reflexivity. Qed.

Lemma sample_linked : linked "c" 0 EmptyString ([] ++ [sample_event]).
Proof.
  destruct (next_event_valid "c" [] sample_input sample_event I sample_next sample_input_valid
    eq_refl sample_event_id) as (Hv & _ & Hc & Hs & Hp).
  pose proof (next_event_id _ _ _ _ sample_next) as Hi.
  cbn [app linked]. split; [exact Hv|]. split; [exact Hc|]. split; [exact Hs|].
  split; [exact Hi|]. split; [exact Hp|exact I].
Qed.

Lemma chain_binding_witness :
  [] ++ [sample_event] = [] ++ [sample_event] ∨ sha256_collision.
Proof.
  exact (chain_binding "c" "c" [] [] sample_event sample_event sample_linked sample_linked eq_refl eq_refl).
Defined.

Definition audit_fs (id : string) : fs :=
  mk_fs {[ [] := 1; ["a"] := 2; ["a"; "chains"] := 3; ["a"; "chains"; id] := 4 ]}
    {[ 1 := mk_inode 1 directory 0; 2 := mk_inode 1 directory 0; 3 := mk_inode 1 directory 0;
       4 := mk_inode 1 directory 0 ]}.

Lemma audit_fs_ok id : fs_ok (audit_fs id).
Proof.
  intros n i H. assert (i ∈ [1; 2; 3; 4]) as Hi.
  { simpl in H. rewrite !lookup_insert_Some, lookup_singleton_Some in H. set_solver. }
  repeat (apply elem_of_cons in Hi as [->|Hi]; [by eexists|]). by apply elem_of_nil in Hi.
Qed.

Definition long_id : string := fold_right (fun _ s => String (ascii_of_N 97) s) EmptyString (seq 0 127).

Lemma audit_fs_dir : safe_dir (audit_fs "c") (["a"] ++ ["chains"; "c"]).
Proof. by intros [|[|[|[|k]]]]. Qed.

Lemma long_fs_dir : safe_dir (audit_fs long_id) (["a"] ++ ["chains"; long_id]).
Proof. by intros [|[|[|[|k]]]]. Qed.

Lemma sample_id : valid_identifier "c" = true ∧ "c" ≠ "." ∧ "c" ≠ "..".
Proof. done. Qed.

Lemma sample_root : Forall safe_name ["a"].
Proof. repeat constructor; done. Qed.

Lemma sample_event_valid : event_valid sample_event = true.
Proof. exact (proj1 sample_linked). Qed.

Lemma sample_record_size : size (record_text sample_event) <= 1024 * 1024.
Proof. vm_compute. discriminate. Qed.

Lemma audit_record_round_trip_witness :
  decode_audit_event_record (record_text sample_event) = Ok sample_event.
Proof.
  apply (audit_record_round_trip sample_event sample_event_valid);
    [reflexivity|reflexivity|vm_compute; discriminate|exact sample_record_size].
Defined.

Lemma read_chain_is_linked_witness :
  fst (read_and_validate_chain "/a" "c" (quiet_world (audit_fs "c"))) = Ok [] ∧ linked "c" 0 EmptyString [].
Proof.
  split; [vm_compute; reflexivity|].
  apply (read_chain_is_linked "/a" "c" (quiet_world (audit_fs "c")) []
    (snd (read_and_validate_chain "/a" "c" (quiet_world (audit_fs "c"))))).
  apply pair_of_fst. vm_compute. reflexivity.
Defined.

Lemma append_then_read_witness :
  ∃ e w1 j, append "/a" "c" sample_input (quiet_world (audit_fs "c")) = (Ok e, w1) ∧
    adds_file (audit_fs "c") (disk w1) (abs_text ["a"; "chains"; "c"; event_filename 0]) j (record_text e).
Proof.
  destruct (append_then_read ["a"] "c" (quiet_world (audit_fs "c")) sample_root sample_id []
    (snd (read_and_validate_chain "/a" "c" (quiet_world (audit_fs "c")))) sample_input) as
    (e & w1 & j & H & _ & _ & _ & _ & _ & A & _);
    [done|exact (audit_fs_ok "c")|exact audit_fs_dir|apply pair_of_fst; vm_compute; reflexivity|done|
     exact sample_input_valid|].
  exists e, w1, j. exact (conj H A).
Defined.

Lemma empty_message_unbound_witness :
  parse_event (object (fst (StdMap.emplace "message" (string_value EmptyString)
    (document_members sample_event)))) = Ok sample_event.
Proof. exact (proj1 (empty_message_unbound sample_event sample_event_valid eq_refl)). Defined.

Lemma long_id_valid : valid_identifier long_id = true ∧ long_id ≠ "." ∧ long_id ≠ "..".
Proof. split; [vm_compute; reflexivity|]. split; discriminate. Qed.

Lemma long_chain_id_unreadable_witness :
  ∃ e w1, append "/a" long_id sample_input (quiet_world (audit_fs long_id)) = (Ok e, w1) ∧
    throws_io w1 (read_and_validate_chain "/a" long_id).
Proof.
  destruct (long_chain_id_unreadable ["a"] long_id (quiet_world (audit_fs long_id)) sample_root long_id_valid []
    (snd (read_and_validate_chain "/a" long_id (quiet_world (audit_fs long_id)))) sample_input) as
    (e & w1 & H & T & _);
    [done|exact (audit_fs_ok long_id)|exact long_fs_dir|vm_compute; discriminate|
     apply pair_of_fst; vm_compute; reflexivity|done|exact sample_input_valid|].
  exists e, w1. exact (conj H T).
Defined.

End AuditAppend.
