(* ===== verification/StreamJournal.v ===== *)
(** The stream section of a transaction journal:
    [runtime/setup/transaction/usk_stream_entry_journal.{h,cpp}]. *)

From Stdlib Require Import Ascii String NArith ZArith Lia.
From stdpp Require Import base list strings.
From S2P Require Import Prelude Utf8 Sha256 StdMap Json Path World RecordIo.

Module StreamJournal.
Import Json Path RecordIo.

Record StreamEntryObservation := mk_entry {
  relative_path : string;
  sha256 : string;
  expected_size : N;
  source_identity_digest : string;
  phase : string;
  output_identity : string }.

Record StreamJournal := mk_stream {
  source_digest : string;
  source_context : string;
  publication_root_identity : string;
  origin_transaction_id : string;
  origin_snapshot_sha256 : string;
  entries : list StreamEntryObservation;
  present : bool }.

Definition empty_stream : StreamJournal :=
  mk_stream EmptyString EmptyString EmptyString EmptyString EmptyString [] false.

Definition digest (value : string) : bool :=
  (size value =? 64) && forall_bytes (fun c => in_range 48 57 c || in_range 97 102 c) value.

Definition optional_string (v : value) : result string :=
  if is_null v then Ok EmptyString else as_string v.

Definition nullable (s : string) : value := if is_empty s then null_value else string_value s.

Definition exact_keys (v : value) (expected : list string) : result unit :=
  members ← as_object v;
  throw_if (negb (bool_decide (map fst members = StdMap.set_of_list expected)))
    "stream journal fields are invalid".

(** ** Rendering *)

Definition entry_value (e : StreamEntryObservation) : value :=
  make_object [
    ("relative_path", string_value (relative_path e)); ("sha256", string_value (sha256 e));
    ("expected_size", unsigned_integer (expected_size e));
    ("source_identity_digest", string_value (source_identity_digest e));
    ("phase", string_value (phase e)); ("output_identity", nullable (output_identity e))].

Definition origin_value (j : StreamJournal) : value :=
  if is_empty (origin_transaction_id j) then null_value
  else make_object [
    ("transaction_id", string_value (origin_transaction_id j));
    ("snapshot_sha256", string_value (origin_snapshot_sha256 j))].

Definition stream_version (j : StreamJournal) : N :=
  if is_empty (publication_root_identity j) then 1 else 2.

(** The members before the digest is added. *)
Definition stream_body (j : StreamJournal) : list (string * value) :=
  let version := stream_version j in
  let m := StdMap.of_list [
    ("version", unsigned_integer version);
    ("source_digest", nullable (source_digest j));
    ("restart_origin", origin_value j);
    ("entries", array (map entry_value (entries j)))] in
  let m := if is_empty (source_context j) then m
    else fst (StdMap.emplace "source_context" (string_value (source_context j)) m) in
  if version =? 2
  then fst (StdMap.emplace "publication_root_identity"
         (string_value (publication_root_identity j)) m)
  else m.

Definition render_stream_journal (j : StreamJournal) : result value :=
  hash ← sha256_canonical (object (stream_body j));
  Ok (object (fst (StdMap.emplace "digest" (string_value hash) (stream_body j)))).

(** ** Reading *)

Definition is_identity_byte (c : ascii) : bool :=
  (code c =? 58) || in_range 48 57 c || in_range 97 102 c.

Fixpoint count_byte (c : ascii) (s : string) : N :=
  match s with
  | EmptyString => 0
  | String d s => (if Ascii.eqb d c then 1 else 0) + count_byte c s
  end.

Definition identity_valid (s : string) : bool :=
  (size s =? 33) &&
  match String.get 16 s with Some c => code c =? 58 | None => false end &&
  (count_byte (ascii_of_N 58) s =? 1) && forall_bytes is_identity_byte s.

Definition at_unsigned (v : value) (key : string) : result N := found ← at_ v key; as_unsigned found.
Definition at_array (v : value) (key : string) : result (list value) :=
  found ← at_ v key; as_array found.

(** The map of staged files by path. *)
Definition collect_staged (m : list (string * value)) (staged : value)
    : result (list (string * value)) :=
  key ← at_string staged "relative_path";
  match StdMap.emplace key staged m with
  | (m, true) => Ok m
  | (_, false) => throw "stream journal has duplicate staged closure paths"
  end.

(** The loop over the entries: the folded paths seen, whether an incomplete
    entry was seen, and the observations. *)
Definition read_entry (valid_path : path → bool) (staged_files : list (string * value))
    (st : list string * bool * list StreamEntryObservation) (entry : value)
    : result (list string * bool * list StreamEntryObservation) :=
  let '(paths, incomplete, acc) := st in
  exact_keys entry ["relative_path"; "sha256"; "expected_size"; "source_identity_digest";
    "phase"; "output_identity"];;
  relative_path ← at_string entry "relative_path";
  sha256 ← at_string entry "sha256";
  expected_size ← at_unsigned entry "expected_size";
  source_identity_digest ← at_string entry "source_identity_digest";
  phase ← at_string entry "phase";
  output ← at_ entry "output_identity";
  output_identity ← optional_string output;
  let folded := lowercase relative_path in
  let '(paths', inserted) := StdMap.set_insert folded paths in
  if incomplete || negb (valid_path relative_path) || negb inserted || negb (digest sha256) ||
     negb (digest source_identity_digest) ||
     (negb (String.eqb phase "intent") && negb (String.eqb phase "writing") &&
      negb (String.eqb phase "complete")) ||
     (if String.eqb phase "intent" then negb (is_null output)
      else negb (identity_valid output_identity))
  then throw "stream entry observation is invalid"
  else
    match StdMap.find relative_path staged_files with
    | Some staged =>
      differs ← (s ← at_string staged "sha256"; Ok (negb (String.eqb s sha256))) |||
        (n ← at_unsigned staged "size_bytes"; Ok (negb (n =? expected_size)));
      throw_if differs "stream completion differs from staged closure";;
      throw_if (negb (String.eqb phase "complete")) "stream phase differs from staged closure"
    | None => throw_if (String.eqb phase "complete") "stream phase differs from staged closure"
    end;;
    Ok (paths', negb (String.eqb phase "complete"),
        acc ++ [mk_entry relative_path sha256 expected_size source_identity_digest phase output_identity]).

Definition read_source_context (v : value) (source_digest : string) : result string :=
  if contains v "source_context" then
    text ← at_string v "source_context";
    if is_empty text || (16384 <? size text) then throw "stream source context exceeds its bound"
    else
      context ← parse text default_limits;
      bad ← Ok (negb (String.eqb (canonical context) text)) |||
        (h ← sha256_canonical context; Ok (negb (String.eqb h source_digest)));
      if (bad : bool) then throw "stream source context is not bound by its source digest"
      else Ok text
  else Ok EmptyString.

Definition read_origin (document v : value) (source_digest : string) : result (string * string) :=
  origin ← at_ v "restart_origin";
  if is_null origin then Ok (EmptyString, EmptyString)
  else
    exact_keys origin ["transaction_id"; "snapshot_sha256"];;
    id ← at_string origin "transaction_id";
    snapshot ← at_string origin "snapshot_sha256";
    bad ← Ok (negb (valid_identifier id)) |||
      (own ← at_string document "transaction_id"; Ok (String.eqb id own)) |||
      Ok (negb (digest snapshot)) ||| Ok (is_empty source_digest);
    if (bad : bool) then throw "stream restart lineage is invalid" else Ok (id, snapshot).

Definition read_publication (v : value) (version : N) : result string :=
  if version =? 2 then
    identity ← at_string v "publication_root_identity";
    if identity_valid identity then Ok identity
    else throw "stream publication root identity is invalid"
  else Ok EmptyString.

Definition read_source_digest (v : value) : result string :=
  found ← at_ v "source_digest";
  text ← optional_string found;
  if negb (is_null found) && negb (digest text) then throw "stream source digest is invalid"
  else Ok text.

(** [body = value; body.erase("digest")] and the check of the digest. *)
Definition check_stream_digest (v : value) (version : N) : result unit :=
  hash ← at_string v "digest";
  members ← as_object v;
  bad ← Ok (negb (version =? 1) && negb (version =? 2)) ||| Ok (negb (digest hash)) |||
    (h ← sha256_canonical (object (StdMap.erase "digest" members)); Ok (negb (String.eqb h hash)));
  throw_if bad "stream journal digest/version is invalid".

Definition stream_keys (v : value) (version : N) : list string :=
  ["version"; "source_digest"; "restart_origin"; "entries"; "digest"] ++
  (if contains v "source_context" then ["source_context"] else []) ++
  (if version =? 2 then ["publication_root_identity"] else []).

Definition read_stream_journal (document : value) (valid_path : path → bool)
    : result StreamJournal :=
  if negb (contains document "recovery_metadata") then Ok empty_stream
  else
  metadata ← at_ document "recovery_metadata";
  if negb (contains metadata "stream_journal") then Ok empty_stream
  else
  bad ← Ok (negb (contains metadata "stream_cleanup_policy")) |||
    (s ← at_string metadata "stream_cleanup_policy"; Ok (negb (String.eqb s "retain_only"))) |||
    (i ← at_ metadata "staging_identity"; Ok (negb (is_null i)));
  throw_if bad "stream journal cannot grant rollback authority";;
  v ← at_ metadata "stream_journal";
  version ← at_unsigned v "version";
  exact_keys v (stream_keys v version);;
  check_stream_digest v version;;
  publication ← read_publication v version;
  source_digest ← read_source_digest v;
  source_context ← read_source_context v source_digest;
  '(origin_id, origin_snapshot) ← read_origin document v source_digest;
  staged ← at_array metadata "staged_files";
  staged_files ← fold_result collect_staged [] staged;
  items ← at_array v "entries";
  throw_if (100000 <? N.of_nat (length items)) "stream journal entry bound exceeded";;
  '(_, _, observations) ← fold_result (read_entry valid_path staged_files) ([], false, []) items;
  Ok (mk_stream source_digest source_context publication origin_id origin_snapshot observations true).

(** [stream_output_identity] of an open descriptor. *)
Definition stream_output_identity (i : N) (x : World.inode) (links : N) : result string :=
  match World.node x with
  | World.regular _ =>
    if links =? 1 then Ok (StableFile.hex_id (World.dev x) +:+ ":" +:+ StableFile.hex_id i)
    else throw "stream output descriptor identity is invalid"
  | _ => throw "stream output descriptor identity is invalid"
  end.

End StreamJournal.
