(* ===== verification/Journal.v ===== *)
(** The transaction journal as a document: the data of a transaction session,
    the state graph, the text [render_journal] writes and the readers that take
    only bytes, from
    [runtime/setup/transaction/usk_transaction_session.{h,cpp}] and
    [runtime/setup/transaction/usk_commit_authority.{h,cpp}]. *)

From Stdlib Require Import Ascii String NArith ZArith Lia.
From stdpp Require Import base list strings.
From S2P Require Import Prelude Utf8 Sha256 StdMap Json Path Effects World RecordIo StreamJournal.

Module Journal.
Import Json Path RecordIo.

(** ** Data *)

Inductive CommitAuthorityRequirement := legacy_observed | staged_child_bound_v1.

#[global] Instance requirement_eq_dec : EqDecision CommitAuthorityRequirement.
Proof. solve_decision. Defined.

(** The enumeration has no third value, so the trailing [throw] is unreachable. *)
Definition commit_authority_name (requirement : CommitAuthorityRequirement) : string :=
  match requirement with
  | legacy_observed => "legacy_observed"
  | staged_child_bound_v1 => "staged_child_bound_v1"
  end.

(** [CommitAuthorityUnavailable]: no host is qualified for the stronger requirement. *)
Definition require_commit_authority (requirement : CommitAuthorityRequirement) : result unit :=
  throw_if (bool_decide (requirement = staged_child_bound_v1))
    "staged_child_bound_v1 requires protected namespace authority unavailable on this host; no fallback".

Record TransactionSpec := mk_spec {
  transaction_id : string;
  plan_id : string;
  plan_digest : string;
  operation : string;
  staging_parent : path;
  target_root : path;
  state_root : path;
  audit_root : path;
  required_commit_authority : CommitAuthorityRequirement }.

Record Transition := mk_transition {
  sequence : N;
  from : string;
  to : string;
  recorded_at : string }.

#[global] Instance transition_eq_dec : EqDecision Transition.
Proof. solve_decision. Defined.

Record StagedFile := mk_staged {
  relative_path : path;
  sha256 : string;
  size_bytes : N }.

#[global] Instance staged_eq_dec : EqDecision StagedFile.
Proof. solve_decision. Defined.

Definition journal_limits : ParseLimits :=
  mk_limits (4 * 1024 * 1024) 64 (2 * 1024 * 1024) (1024 * 1024).

Definition staging_path (spec : TransactionSpec) : path :=
  staging_parent spec /+ (".usk-stage-" +:+ transaction_id spec).

Definition journal_file (state_root : path) (transaction_id : string) : path :=
  state_root /+ "transactions" /+ (transaction_id +:+ ".journal.json").

(** ** Text helpers *)

Definition hex_byte (ch : ascii) : string :=
  String (Sha256.hex_digit_char (N.shiftr (code ch) 4))
    (String (Sha256.hex_digit_char (N.land (code ch) 0x0f)) EmptyString).

Definition escape_byte (ch : ascii) : string :=
  if Ascii.eqb ch backslash then String backslash (String backslash EmptyString)
  else if Ascii.eqb ch dquote then String backslash (String dquote EmptyString)
  else if code ch =? 10 then String backslash "n"
  else if code ch =? 13 then String backslash "r"
  else if code ch =? 9 then String backslash "t"
  else if code ch <? 0x20 then String backslash ("u00" +:+ hex_byte ch)
  else String ch EmptyString.

Fixpoint json_escape (value : string) : string :=
  match value with
  | EmptyString => EmptyString
  | String ch value => escape_byte ch +:+ json_escape value
  end.

Definition quote (value : string) : string :=
  String dquote (json_escape value +:+ String dquote EmptyString).

Definition valid_sha256 (value : string) : bool :=
  (size value =? 64) && forall_bytes (fun ch => is_digit ch || is_lower_hex_alpha ch) value.

(** [Sha256 h; h.update(text); h.finish()]. *)
Definition sha256_text (text : string) : result string :=
  h ← Sha256.update Sha256.initial text; '(hex, _) ← Sha256.finish h; Ok hex.

(** ** The state graph *)

Definition any_of (s : string) (l : list string) : bool := existsb (String.eqb s) l.

Definition valid_transition (from to : string) : bool :=
  if is_empty from then String.eqb to "created"
  else if String.eqb from "created" then String.eqb to "validated"
  else if String.eqb from "validated" then String.eqb to "planned"
  else if String.eqb from "planned" then String.eqb to "staging"
  else if String.eqb from "staging" then any_of to ["staged"; "recovery_required"; "refused"]
  else if String.eqb from "staged" then any_of to ["verified"; "recovery_required"; "refused"]
  else if String.eqb from "verified" then any_of to ["committing"; "recovery_required"; "refused"]
  else if String.eqb from "committing" then any_of to ["committed"; "recovery_required"]
  else if String.eqb from "committed" then any_of to ["completed"; "recovery_required"]
  else if String.eqb from "recovery_required" then
    any_of to ["committing"; "rolled_back"; "abandoned_by_operator"]
  else false.

Definition journal_actions (state : string) : list string :=
  if any_of state ["staging"; "staged"; "verified"; "committing"] then ["rollback"]
  else if String.eqb state "committed" then ["resume"]
  else if any_of state ["recovery_required"; "failed"] then
    ["resume"; "rollback"; "retain_for_operator"; "abandon"]
  else [].

(** The actions a journal in a state advertises, given the two cleanup latches. *)
Definition advertised_actions (retained : bool) (state : string) : list string :=
  if retained && negb (String.eqb state "completed") && negb (String.eqb state "committed")
  then ["retain_for_operator"] else journal_actions state.

(** ** The digest chain *)

Definition nul : string := String Ascii.zero EmptyString.
Definition newline : string := String (ascii_of_N 10) EmptyString.

Definition chain_line (sequence : N) (from to recorded_at : string) : string :=
  to_string sequence +:+ nul +:+ from +:+ nul +:+ to +:+ nul +:+ recorded_at +:+ newline.

Fixpoint chain_text (l : list Transition) : string :=
  match l with
  | [] => EmptyString
  | t :: l => chain_line (sequence t) (from t) (to t) (recorded_at t) +:+ chain_text l
  end.

(** ** Rendering

    What [render_journal] reads of a session. *)

Record JournalContent := mk_content {
  spec : TransactionSpec;
  staging_root : path;
  created_at : string;
  current_state : string;
  staging_identity : string;
  retain_stream : bool;
  retain_commit : bool;
  stream : StreamJournal.StreamJournal;
  transitions : list Transition;
  staged_files : list StagedFile }.

(** [for (index...) { if (index != 0) out << ','; out << ...; }]. *)
Fixpoint join_items (l : list string) : string :=
  match l with
  | [] => EmptyString
  | [x] => x
  | x :: l => x +:+ "," +:+ join_items l
  end.

Definition transition_text (id : string) (t : Transition) : string :=
  lit "{'sequence':" +:+ to_string (sequence t) +:+ "," +:+
  lit "'transition_id':" +:+ quote (id +:+ "." +:+ to_string (sequence t)) +:+ "," +:+
  lit "'from':" +:+ (if is_empty (from t) then "null" else quote (from t)) +:+ "," +:+
  lit "'to':" +:+ quote (to t) +:+ "," +:+
  lit "'recorded_at':" +:+ quote (recorded_at t) +:+ "," +:+
  lit "'durable_before_external_visibility':true}".

Definition staged_text (f : StagedFile) : string :=
  lit "{'relative_path':" +:+ quote (generic_string (relative_path f)) +:+ "," +:+
  lit "'sha256':" +:+ quote (sha256 f) +:+ "," +:+
  lit "'size_bytes':" +:+ to_string (size_bytes f) +:+ "}".

Definition root_item (role root classification : string) : string :=
  lit "{'role':'" +:+ role +:+ lit "','root':" +:+ quote root +:+
  lit ",'classification':'" +:+ classification +:+ lit "'}".

Definition retained (c : JournalContent) : bool := retain_stream c || retain_commit c.

(** Up to the recovery metadata, the metadata, and what follows. *)
Definition journal_head (c : JournalContent) (digest : string) : string :=
  let id := transaction_id (spec c) in
  lit "{'schema':'usk.transaction_journal.v1'," +:+
  lit "'journal_id':" +:+ quote ("journal." +:+ id) +:+ "," +:+
  lit "'journal_digest':" +:+ quote digest +:+ "," +:+
  lit "'transaction_id':" +:+ quote id +:+ "," +:+
  lit "'plan_id':" +:+ quote (plan_id (spec c)) +:+ "," +:+
  lit "'plan_digest':" +:+ quote (plan_digest (spec c)) +:+ "," +:+
  lit "'operation':" +:+ quote (operation (spec c)) +:+ "," +:+
  lit "'current_state':" +:+ quote (current_state c) +:+ "," +:+
  lit "'created_at':" +:+ quote (created_at c) +:+ "," +:+
  lit "'updated_at':" +:+
    quote (match last (transitions c) with Some t => recorded_at t | None => EmptyString end) +:+ "," +:+
  lit "'roots':[" +:+
  root_item "target" (target_root (spec c)) "operator_selected_owned_target" +:+ "," +:+
  root_item "staging" (staging_root c) "setup_owned" +:+ "," +:+
  root_item "setup_state" (state_root (spec c)) "setup_owned" +:+ "," +:+
  root_item "audit" (audit_root (spec c)) "audit_owned" +:+ "]," +:+
  (if bool_decide (required_commit_authority (spec c) = staged_child_bound_v1)
   then lit "'required_commit_authority':'staged_child_bound_v1'," else EmptyString) +:+
  lit "'transitions':[" +:+ join_items (map (transition_text id) (transitions c)) +:+
  lit "],'recovery_metadata':{".

Definition metadata_text (c : JournalContent) (stream_text : string) : string :=
  lit "'staging_identity':" +:+
  (if is_empty (staging_identity c) || retained c then "null" else quote (staging_identity c)) +:+ "," +:+
  (if retain_stream c then lit "'stream_cleanup_policy':'retain_only'," else EmptyString) +:+
  (if retain_commit c then lit "'commit_cleanup_policy':'retain_only'," else EmptyString) +:+
  (if StreamJournal.present (stream c) then lit "'stream_journal':" +:+ stream_text +:+ "," else EmptyString) +:+
  lit "'staged_files':[" +:+ join_items (map staged_text (staged_files c)) +:+
  lit "]}".

Definition recovery_text (c : JournalContent) : string :=
  lit ",'recovery':{" +:+
  lit "'required':" +:+
    (if any_of (current_state c) ["recovery_required"; "failed"] then "true" else "false") +:+ "," +:+
  lit "'available_actions':[" +:+
  join_items (map quote (advertised_actions (retained c) (current_state c))) +:+ "]}}".

Definition journal_text (c : JournalContent) (digest stream_text : string) : string :=
  journal_head c digest +:+ metadata_text c stream_text +:+ recovery_text c.

(** [transitions_.back()] of an empty vector is undefined; every caller has
    pushed a transition first. *)
Definition render_journal (c : JournalContent) : result string :=
  digest ← sha256_text (chain_text (transitions c));
  stream_text ← (if StreamJournal.present (stream c)
    then v ← StreamJournal.render_stream_journal (stream c); Ok (canonical v) else Ok EmptyString);
  let text := journal_text c digest stream_text in
  throw_if (4 * 1024 * 1024 <? size text)
    "transaction journal exceeds its bounded recovery reader";;
  Ok text.

(** ** The cleanup latches of a document *)

Definition retain_only (metadata : value) (policy : string) : result bool :=
  (p ← at_string metadata policy; Ok (negb (String.eqb p "retain_only"))) |||
  (i ← at_ metadata "staging_identity"; Ok (negb (is_null i))).

Definition retain_commit_cleanup (document : value) : result bool :=
  if negb (contains document "recovery_metadata") then Ok false
  else
    metadata ← at_ document "recovery_metadata";
    if negb (contains metadata "commit_cleanup_policy") then Ok false
    else
      bad ← retain_only metadata "commit_cleanup_policy";
      throw_if bad "commit cleanup policy or rollback authority is invalid";;
      Ok true.

Definition retain_stream_cleanup (document : value) : result bool :=
  members ← as_object document;
  if negb (StdMap.contains_key "recovery_metadata" members) then Ok false
  else
    metadata ← at_ document "recovery_metadata";
    members ← as_object metadata;
    if negb (StdMap.contains_key "stream_cleanup_policy" members) then Ok false
    else
      bad ← retain_only metadata "stream_cleanup_policy";
      throw_if bad "stream cleanup policy or rollback authority is invalid";;
      Ok true.

Definition validate_commit_requirement (document : value)
    (requirement : CommitAuthorityRequirement) : result unit :=
  let recorded := contains document "required_commit_authority" in
  bad ← Ok (negb (Bool.eqb recorded (bool_decide (requirement = staged_child_bound_v1)))) |||
    (Ok recorded &&&
      (differs document "required_commit_authority" "staged_child_bound_v1" |||
       (r ← retain_commit_cleanup document; Ok (negb r))));
  throw_if bad "journal commit authority requirement mismatch or missing retention".

(** ** Reading a journal from its bytes *)

Record RecoveryInspection := mk_inspection {
  i_current_state : string;
  i_journal_digest : string;
  i_recorded_at : string;
  i_snapshot_sha256 : string;
  stream_source_digest : string;
  stream_source_context : string;
  publication_root_identity : string;
  restart_origin_transaction_id : string;
  restart_origin_snapshot_sha256 : string;
  staging_exists : bool;
  target_exists : bool;
  commit_started : bool;
  commit_confirmed : bool;
  available_actions : list string }.

Record TransactionJournalMetadata := mk_metadata {
  inspection : RecoveryInspection;
  m_stream : StreamJournal.StreamJournal;
  retained_stream : bool;
  retained_commit : bool }.

Definition journal_header_differs (document : value) (s : TransactionSpec) : result bool :=
  differs document "schema" "usk.transaction_journal.v1" |||
  differs document "transaction_id" (transaction_id s) |||
  differs document "plan_id" (plan_id s) |||
  differs document "plan_digest" (plan_digest s) |||
  differs document "operation" (operation s).

Definition collect_root (m : list (string * string)) (root : value) : result (list (string * string)) :=
  role ← at_string root "role";
  text ← at_string root "root";
  match StdMap.emplace role text m with
  | (m, true) => Ok m
  | (_, false) => throw "transaction journal contains duplicate root authority"
  end.

(** [journal_roots.size() != 4 || journal_roots["target"] != ... || ...]. *)
Definition root_is (m : list (string * string)) (role root : string) : bool :=
  String.eqb (default EmptyString (StdMap.find role m)) root.

Definition roots_match (m : list (string * string)) (s : TransactionSpec) (staging : path) : bool :=
  (length m =? 4)%nat && root_is m "target" (target_root s) && root_is m "staging" staging &&
  root_is m "setup_state" (state_root s) && root_is m "audit" (audit_root s).

Definition check_roots (document : value) (s : TransactionSpec) (staging : path) (what : string)
    : result unit :=
  items ← StreamJournal.at_array document "roots";
  roots ← fold_result collect_root [] items;
  throw_if (negb (roots_match roots s staging)) what.

Definition transition_chain_invalid : string := "transaction journal transition chain is invalid".

(** The body of the loop over the transitions: [prior], [chain], [sequence]. *)
Definition decode_transition (id : string) (st : string * string * N) (item : value)
    : result (string * string * N) :=
  let '(prior, chain, sequence) := st in
  f ← at_ item "from";
  from ← StreamJournal.optional_string f;
  to ← at_string item "to";
  bad ← (n ← StreamJournal.at_unsigned item "sequence"; Ok (negb (n =? sequence))) |||
    Ok (negb (String.eqb from prior)) |||
    Ok (negb (valid_transition from to)) |||
    differs item "transition_id" (id +:+ "." +:+ to_string sequence) |||
    (d ← at_ item "durable_before_external_visibility"; b ← as_boolean d; Ok (negb b));
  throw_if bad transition_chain_invalid;;
  recorded ← at_string item "recorded_at";
  Ok (to, chain +:+ chain_line sequence from to recorded, sequence + 1).

(** [std::any_of] over the transitions by their [to]. *)
Fixpoint any_to (states : list string) (items : list value) : result bool :=
  match items with
  | [] => Ok false
  | item :: items =>
    state ← at_string item "to";
    if any_of state states then Ok true else any_to states items
  end.

Definition decode_transaction_metadata (s : TransactionSpec) (text : string)
    : result TransactionJournalMetadata :=
  let staging := staging_path s in
  document ← parse text journal_limits;
  bad ← journal_header_differs document s;
  throw_if bad "transaction journal does not bind the requested recovery inspection";;
  check_roots document s staging
    "transaction journal root authority does not match recovery inspection";;
  items ← StreamJournal.at_array document "transitions";
  '(prior, chain, count) ← fold_result (decode_transition (transaction_id s))
    (EmptyString, EmptyString, 0) items;
  started ← any_to ["committing"; "committed"; "completed"] items;
  confirmed ← any_to ["committed"; "completed"] items;
  current ← at_string document "current_state";
  digest ← at_string document "journal_digest";
  recorded ← at_string document "updated_at";
  expected ← sha256_text chain;
  throw_if ((count =? 0) || negb (String.eqb current prior) || negb (String.eqb digest expected))
    "transaction journal digest or current state is invalid";;
  validate_commit_requirement document (required_commit_authority s);;
  retained_stream ← retain_stream_cleanup document;
  retained_commit ← retain_commit_cleanup document;
  stream ← StreamJournal.read_stream_journal document safe_relative_path;
  snapshot ← sha256_text text;
  Ok (mk_metadata
    (mk_inspection current digest recorded snapshot
      (StreamJournal.source_digest stream) (StreamJournal.source_context stream)
      (StreamJournal.publication_root_identity stream)
      (StreamJournal.origin_transaction_id stream) (StreamJournal.origin_snapshot_sha256 stream)
      false false started confirmed [])
    stream retained_stream retained_commit).

Record TransactionJournalHistory := mk_history {
  h_current_state : string;
  h_journal_digest : string;
  h_recorded_at : string;
  h_snapshot_sha256 : string;
  h_stream : StreamJournal.StreamJournal;
  h_commit_started : bool;
  h_commit_confirmed : bool;
  retained_stream_cleanup : bool;
  retained_commit_cleanup : bool }.

Record CompletedTransactionHistory := mk_completed {
  c_journal_digest : string;
  c_recorded_at : string;
  c_snapshot_sha256 : string;
  c_stream : StreamJournal.StreamJournal }.

(** [decode_journal_history] and [decode_completed_history] after
    [normalized_inspection_spec]. *)
Definition journal_history (s : TransactionSpec) (text : string) : result TransactionJournalHistory :=
  m ← decode_transaction_metadata s text;
  let i := inspection m in
  Ok (mk_history (i_current_state i) (i_journal_digest i) (i_recorded_at i) (i_snapshot_sha256 i)
    (m_stream m) (commit_started i) (commit_confirmed i) (retained_stream m) (retained_commit m)).

Definition completed_history (s : TransactionSpec) (text : string) : result CompletedTransactionHistory :=
  m ← decode_transaction_metadata s text;
  let i := inspection m in
  throw_if (negb (String.eqb (i_current_state i) "completed"))
    "historical transaction journal is not completed";;
  Ok (mk_completed (i_journal_digest i) (i_recorded_at i) (i_snapshot_sha256 i) (m_stream m)).

(** ** Transition extensions *)

Definition last_value (l : list value) : value := default null_value (last l).

(** The loop over [transitions] with its position. *)
Fixpoint extension_loop (index : N) (prefix transitions : list value) (chain : string)
    : result string :=
  match transitions with
  | [] => Ok chain
  | t :: transitions =>
    match prefix with
    | item :: prefix =>
      throw_if (negb (String.eqb (canonical t) (canonical item)))
        "maintenance original transaction transition was rewritten";;
      f ← at_ item "from";
      from ← StreamJournal.optional_string f;
      to ← at_string item "to";
      recorded ← at_string item "recorded_at";
      extension_loop (index + 1) prefix transitions (chain +:+ chain_line index from to recorded)
    | [] =>
      state ← at_string t "to";
      throw_if (negb (any_of state ["recovery_required"; "committing"; "committed"; "completed"]))
        "maintenance transaction extension is not finalization";;
      extension_loop (index + 1) [] transitions chain
    end
  end.

(** The derived fields of one document. *)
Definition check_derived (document : value) : result unit :=
  state ← at_string document "current_state";
  items ← StreamJournal.at_array document "transitions";
  retained ← retain_stream_cleanup document ||| retain_commit_cleanup document;
  let actions := advertised_actions retained state in
  let recovery := make_object [
    ("required", boolean (String.eqb state "recovery_required"));
    ("available_actions", array (map string_value actions))] in
  bad ← (u ← at_string document "updated_at"; r ← at_string (last_value items) "recorded_at";
         Ok (negb (String.eqb u r))) |||
    (r ← at_ document "recovery"; Ok (negb (String.eqb (canonical r) (canonical recovery))));
  throw_if bad "maintenance transaction extension changed derived recovery fields".

Definition erase_keys (v : value) (keys : list string) : result value :=
  members ← as_object v; Ok (object (fold_left (fun m k => StdMap.erase k m) keys members)).

Definition extension_keys : list string :=
  ["transitions"; "current_state"; "journal_digest"; "updated_at"; "recovery"].

Definition require_transition_extension_documents (original_text current_text : string) : result unit :=
  original ← parse original_text journal_limits;
  current ← parse current_text journal_limits;
  prefix ← StreamJournal.at_array original "transitions";
  transitions ← StreamJournal.at_array current "transitions";
  original_state ← at_string original "current_state";
  bad ← Ok ((length prefix =? 0)%nat || (length transitions <? length prefix)%nat ||
      negb (any_of original_state ["committing"; "committed"; "recovery_required"])) |||
    differs (last_value prefix) "to" original_state;
  throw_if bad "maintenance original transition prefix is not a committed effect anchor";;
  chain ← extension_loop 0 prefix transitions EmptyString;
  hash ← sha256_text chain;
  bad ← differs original "journal_digest" hash;
  throw_if bad "maintenance original transaction chain digest changed";;
  check_derived original;;
  check_derived current;;
  original ← erase_keys original extension_keys;
  current ← erase_keys current extension_keys;
  throw_if (negb (String.eqb (canonical original) (canonical current)))
    "maintenance transaction extension changed immutable fields or its snapshot".

(** [require_completed_transition_extension_bytes], on a normalized spec. *)
Definition completed_extension_bytes (s : TransactionSpec)
    (original_text original_snapshot_sha256 current_text expected_current_snapshot_sha256 : string)
    : result unit :=
  bad ← Ok ((4 * 1024 * 1024 <? size original_text) || (4 * 1024 * 1024 <? size current_text) ||
      negb (valid_sha256 original_snapshot_sha256) || negb (valid_sha256 expected_current_snapshot_sha256)) |||
    (h ← sha256_text original_text; Ok (negb (String.eqb h original_snapshot_sha256))) |||
    (h ← sha256_text current_text; Ok (negb (String.eqb h expected_current_snapshot_sha256)));
  throw_if bad "completed transaction byte snapshots are unavailable";;
  current ← completed_history s current_text;
  throw_if (negb (String.eqb (c_snapshot_sha256 current) expected_current_snapshot_sha256))
    "completed transaction byte identity differs";;
  require_transition_extension_documents original_text current_text.

End Journal.
