(* ===== verification/JournalText.v ===== *)
(** The journal text as a JSON document: the value that [parse] reads from what
    [render_journal] writes. *)

From Stdlib Require Import Ascii String NArith ZArith Lia Sorted.
From stdpp Require Import base list sets strings.
From S2P Require Import Prelude Utf8 Sha256 StdMap Json JsonFacts JsonParse TextFacts JsonText.
From S2P Require Import Path RecordIo StreamJournal Journal.

Module JournalText.
Import Utf8 Json JsonFacts JsonParse TextFacts JsonText Path Journal.

(** ** Quoted strings *)

Lemma string_loop_escape_byte L acc c t :
  string_loop L acc (escape_byte c +:+ t) = string_loop L (push_back acc c) t.
Proof. destruct c as [[] [] [] [] [] [] [] []]; reflexivity. Qed.

Lemma string_loop_json_escape L acc s rest :
  string_loop L acc (json_escape s +:+ String dquote rest) = string_loop L (acc +:+ s) (String dquote rest).
Proof.
  revert acc. induction s as [|c s IH]; intros acc; [by rewrite append_nil_r|].
  cbn [json_escape]. rewrite append_assoc, string_loop_escape_byte, IH. by rewrite push_back_append.
Qed.

Lemma reads_quote s : reads (quote s) (string_value s).
Proof. apply reads_string. intros. apply string_loop_json_escape. Qed.

Lemma join_items_commas l : join_items l = commas l.
Proof. reflexivity. Qed.

(** ** Members *)

Definition text_member (k s : string) : member := (k, (quote s, string_value s)).
Definition number_member (k : string) (n : N) : member := (k, (to_string n, unsigned_integer n)).
Definition optional_text (s : string) : string := if is_empty s then "null" else quote s.
Definition optional_member (k s : string) : member := (k, (optional_text s, StreamJournal.nullable s)).
Definition object_text (ms : list member) : string := "{" +:+ commas (map member_text ms) +:+ "}".
Definition object_value (ms : list member) : value := make_object (map member_value ms).
Definition object_member (k : string) (ms : list member) : member := (k, (object_text ms, object_value ms)).
Definition list_member (k : string) (items : list (string * value)) : member :=
  (k, ("[" +:+ commas (map fst items) +:+ "]", array (map snd items))).
Definition object_item (ms : list member) : string * value := (object_text ms, object_value ms).

Lemma good_text k s : good_member (text_member k s).
Proof. apply reads_quote. Qed.

Lemma good_number k n : n <= uint64_max → good_member (number_member k n).
Proof. apply reads_number. Qed.

Lemma good_optional k s : good_member (optional_member k s).
Proof.
  unfold good_member, optional_member, optional_text, StreamJournal.nullable. simpl.
  destruct (is_empty s); [apply reads_null|apply reads_quote].
Qed.

Lemma good_boolean k (b : bool) : good_member (k, ((if b then "true" else "false"), boolean b)).
Proof. apply reads_boolean. Qed.

Lemma good_list k items : Forall (fun p => reads (fst p) (snd p)) items → good_member (list_member k items).
Proof. apply reads_array. Qed.

Lemma good_object k ms : Forall good_member ms → NoDup (map fst ms) → good_member (object_member k ms).
Proof. apply reads_object. Qed.

(** ** Looking up members *)

Lemma find_app {A} k (l l' : list (string * A)) :
  StdMap.find k (l ++ l') = match StdMap.find k l with Some v => Some v | None => StdMap.find k l' end.
Proof. induction l as [|[k' v] l IH]; simpl; [done|]. by destruct (String.eqb k k'). Qed.

Lemma find_elem {A} k (v : A) l : NoDup (map fst l) → (k, v) ∈ l → StdMap.find k l = Some v.
Proof.
  induction l as [|[k' v'] l IH]; [by intros _ ?%elem_of_nil|]. cbn [map fst].
  intros [Hn Hd]%NoDup_cons [E|Hx]%elem_of_cons; simpl.
  - injection E as <- <-. by rewrite String.eqb_refl.
  - destruct (String.eqb_spec k k') as [<-|]; [|by apply IH]. exfalso. apply Hn.
    apply list_elem_of_fmap. by exists (k, v).
Qed.

(** The lookup in an object built from members is the lookup in the list. *)
Lemma find_of_list {A} k (l : list (string * A)) : NoDup (map fst l) →
  StdMap.find k (StdMap.of_list l) = StdMap.find k l.
Proof.
  intros Hn. pose proof (of_list_perm l Hn) as Hp. destruct (StdMap.find k l) as [v|] eqn:E.
  - apply StdMap.find_of_In; [apply StdMap.of_list_sorted|]. rewrite Hp. by apply StdMap.find_In.
  - destruct (StdMap.find k (StdMap.of_list l)) as [v|] eqn:E'; [|done].
    apply StdMap.find_In in E'. rewrite Hp in E'. by rewrite (find_elem k v l Hn E') in E.
Qed.

Lemma member_keys ms : map fst (map member_value ms) = map fst ms.
Proof. by rewrite map_map. Qed.

Lemma at_object ms k v : NoDup (map fst ms) → StdMap.find k (map member_value ms) = Some v →
  at_ (object_value ms) k = Ok v.
Proof.
  intros Hn Hf. unfold at_, object_value, make_object. simpl. by rewrite find_of_list, Hf by (by rewrite member_keys).
Qed.

Lemma contains_object ms k : NoDup (map fst ms) →
  contains (object_value ms) k = StdMap.contains_key k (map member_value ms).
Proof.
  intros Hn. unfold contains, object_value, make_object, StdMap.contains_key.
  by rewrite find_of_list by (by rewrite member_keys).
Qed.

Lemma fits_object L d ms : NoDup (map fst ms) → d <= max_depth L →
  Forall (fun m => string_ok L (fst m) = true ∧ fits L (d + 1) (snd (snd m)) = true) ms →
  fits L d (object_value ms) = true.
Proof.
  intros Hn Hd HF. unfold object_value, make_object. cbn [fits]. rewrite (proj2 (N.leb_le _ _) Hd). cbn [andb].
  apply forallb_forall. intros [k v] Hx%list_elem_of_In.
  rewrite of_list_perm in Hx by (by rewrite member_keys).
  apply list_elem_of_fmap in Hx as (m & E & Hm). injection E as -> ->.
  rewrite Forall_forall in HF. destruct (HF m Hm) as [H1 H2]. cbn [fst snd member_value]. by rewrite H1, H2.
Qed.


(** ** The document *)

Definition transition_members (id : string) (t : Transition) : list member :=
  [number_member "sequence" (sequence t); text_member "transition_id" (id +:+ "." +:+ to_string (sequence t));
   optional_member "from" (from t); text_member "to" (to t); text_member "recorded_at" (recorded_at t);
   ("durable_before_external_visibility", ("true", boolean true))].

Definition staged_members (f : StagedFile) : list member :=
  [text_member "relative_path" (generic_string (relative_path f)); text_member "sha256" (sha256 f);
   number_member "size_bytes" (size_bytes f)].

Definition root_members (role root classification : string) : list member :=
  [text_member "role" role; text_member "root" root; text_member "classification" classification].

Definition metadata_members (c : JournalContent) (stream_text : string) (stream_value : value) : list member :=
  [optional_member "staging_identity" (if retained c then EmptyString else staging_identity c)] ++
  (if retain_stream c then [text_member "stream_cleanup_policy" "retain_only"] else []) ++
  (if retain_commit c then [text_member "commit_cleanup_policy" "retain_only"] else []) ++
  (if StreamJournal.present (stream c) then [("stream_journal", (stream_text, stream_value))] else []) ++
  [list_member "staged_files" (map (fun f => object_item (staged_members f)) (staged_files c))].

Definition recovery_members (c : JournalContent) : list member :=
  let required := any_of (current_state c) ["recovery_required"; "failed"] in
  [("required", ((if required then "true" else "false"), boolean required));
   list_member "available_actions"
     (map (fun s => (quote s, string_value s)) (advertised_actions (retained c) (current_state c)))].

Definition journal_members (c : JournalContent) (digest stream_text : string) (stream_value : value) : list member :=
  let id := transaction_id (spec c) in
  [text_member "schema" "usk.transaction_journal.v1"; text_member "journal_id" ("journal." +:+ id);
   text_member "journal_digest" digest; text_member "transaction_id" id; text_member "plan_id" (plan_id (spec c));
   text_member "plan_digest" (plan_digest (spec c)); text_member "operation" (operation (spec c));
   text_member "current_state" (current_state c); text_member "created_at" (created_at c);
   text_member "updated_at" (match last (transitions c) with Some t => recorded_at t | None => EmptyString end);
   list_member "roots" (map object_item
     [root_members "target" (target_root (spec c)) "operator_selected_owned_target";
      root_members "staging" (staging_root c) "setup_owned";
      root_members "setup_state" (state_root (spec c)) "setup_owned";
      root_members "audit" (audit_root (spec c)) "audit_owned"])] ++
  (if bool_decide (required_commit_authority (spec c) = staged_child_bound_v1)
   then [text_member "required_commit_authority" "staged_child_bound_v1"] else []) ++
  [list_member "transitions" (map (fun t => object_item (transition_members id t)) (transitions c));
   object_member "recovery_metadata" (metadata_members c stream_text stream_value);
   object_member "recovery" (recovery_members c)].

(** The text written is the text of the document. *)

Lemma transition_text_object id t : transition_text id t = object_text (transition_members id t).
Proof.
  unfold transition_text, object_text. cbn [map commas transition_members].
  unfold member_text, optional_text. cbn [fst snd text_member number_member optional_member].
  unfold optional_text. rewrite !append_assoc. reflexivity.
Qed.

Lemma staged_text_object f : staged_text f = object_text (staged_members f).
Proof.
  unfold staged_text, object_text. cbn [map commas staged_members]. unfold member_text.
  cbn [fst snd text_member number_member]. rewrite !append_assoc. reflexivity.
Qed.

Lemma root_item_object role root classification :
  json_escape role = role → json_escape classification = classification →
  root_item role root classification = object_text (root_members role root classification).
Proof.
  intros H1 H2. unfold root_item, object_text. cbn [map commas root_members]. unfold member_text.
  cbn [fst snd text_member]. unfold quote. rewrite H1, H2, !append_assoc. cbn [String.append lit].
  rewrite !append_assoc. reflexivity.
Qed.

Lemma staged_items_text files :
  map staged_text files = map fst (map (fun f => object_item (staged_members f)) files).
Proof. rewrite map_map. apply map_ext. intros f. apply staged_text_object. Qed.

Lemma transition_items_text id l :
  map (transition_text id) l = map fst (map (fun t => object_item (transition_members id t)) l).
Proof. rewrite map_map. apply map_ext. intros t. apply transition_text_object. Qed.

Lemma action_items_text l : map quote l = map fst (map (fun s => (quote s, string_value s)) l).
Proof. by rewrite map_map. Qed.

Lemma metadata_text_object c st sv :
  "{" +:+ metadata_text c st = object_text (metadata_members c st sv).
Proof.
  unfold metadata_text, object_text, metadata_members. rewrite staged_items_text, join_items_commas.
  set (files := map (fun f => object_item (staged_members f)) (staged_files c)).
  replace (if is_empty (staging_identity c) || retained c then "null" else quote (staging_identity c))
    with (optional_text (if retained c then EmptyString else staging_identity c))
    by (unfold optional_text; by destruct (is_empty (staging_identity c)) eqn:E, (retained c); simpl; rewrite ?E).
  set (identity := if retained c then EmptyString else staging_identity c).
  destruct (retain_stream c), (retain_commit c), (StreamJournal.present (stream c));
    cbn [app map commas]; unfold member_text; cbn [fst snd text_member list_member optional_member];
    rewrite !append_assoc; reflexivity.
Qed.

Lemma recovery_text_object c :
  recovery_text c = "," +:+ member_text (object_member "recovery" (recovery_members c)) +:+ "}".
Proof.
  unfold recovery_text. rewrite action_items_text, join_items_commas.
  set (actions := map (fun s => (quote s, string_value s)) (advertised_actions _ _)).
  unfold recovery_members, object_member, object_text, member_text at 1.
  cbn [map commas fst snd]. unfold member_text. cbn [fst snd list_member]. fold actions.
  rewrite !append_assoc. reflexivity.
Qed.

Lemma journal_text_object c digest st sv :
  journal_text c digest st = object_text (journal_members c digest st sv).
Proof.
  unfold journal_text, journal_head. rewrite recovery_text_object, transition_items_text, join_items_commas.
  rewrite !root_item_object by done.
  set (id := transaction_id (spec c)).
  set (ts := map (fun t => object_item (transition_members id t)) (transitions c)).
  set (recovery := member_text (object_member "recovery" (recovery_members c))).
  set (updated := match last (transitions c) with Some t => recorded_at t | None => EmptyString end).
  rewrite !append_assoc.
  change (lit "],'recovery_metadata':{" +:+ metadata_text c st +:+ "," +:+ recovery +:+ "}")
    with (lit "],'recovery_metadata':" +:+ ("{" +:+ metadata_text c st) +:+ "," +:+ recovery +:+ "}").
  rewrite (metadata_text_object c st sv).
  change (object_text (journal_members c digest st sv))
    with ("{" +:+ commas (map member_text (journal_members c digest st sv)) +:+ "}").
  unfold journal_members. fold id ts updated.
  destruct (bool_decide _); cbn [app map commas]; fold recovery; unfold member_text;
    cbn [fst snd text_member list_member object_member map object_item commas];
    rewrite !append_assoc; reflexivity.
Qed.
End JournalText.
