(* ===== verification/SessionHost.v ===== *)
(** The host-facing helpers of the transaction session, from the anonymous
    namespace of [runtime/setup/transaction/usk_transaction_session.cpp] (its
    Linux branch), and the commit closure of
    [runtime/setup/transaction/usk_commit_authority.cpp].  A retry after [EINTR]
    is not a separate step: a call that is retried is one call. *)

From Stdlib Require Import Ascii String NArith ZArith Lia.
From stdpp Require Import base list strings gmap sets.
From S2P Require Import Prelude Sha256 StdMap Path Effects World RecordIo.

Module SessionHost.
Import Path Effects World.

(** ** Directories and their identities *)

Definition absolute_normal (p : path) : io path :=
  a ← StableFile.absolute p;
  let result := lexically_normal a in
  if is_empty result || negb (is_absolute result)
  then fail "transaction root cannot be resolved as an absolute path" else ret result.

Fixpoint walk_root (p current : path) (rest : list string) : io unit :=
  match rest with
  | [] => ret tt
  | component :: rest =>
    let current := current /+ component in
    bad ← or_m (reparse_or_symlink current) (not_m (is_directory current));
    if bad : bool
    then fail ("transaction root crosses a linked or non-directory component: " +:+ p)
    else walk_root p current rest
  end.

Definition require_safe_directory (p : path) : io unit :=
  bad ← or_m (not_m (is_directory p)) (reparse_or_symlink p);
  if bad : bool
  then fail ("transaction root must be an existing non-linked directory: " +:+ p)
  else walk_root p (root_text p) (relative_components p).

Definition directory_identity (p : path) : io string :=
  require_safe_directory p;;
  r ← lstat p;
  match r with
  | Some (i, mk_inode v directory _) =>
    ret (StableFile.hex_id v +:+ ":" +:+ StableFile.hex_id i)
  | _ => fail "cannot inspect safe transaction directory identity"
  end.

(** [identity.substr(0, identity.find(':'))]. *)
Fixpoint before_colon (s : string) : string :=
  match s with
  | EmptyString => EmptyString
  | String c s => if code c =? 58 then EmptyString else String c (before_colon s)
  end.

Definition volume_identity (p : path) : io string :=
  identity ← directory_identity p; ret (before_colon identity).

Definition observe_directory_identity (p : path) : io string :=
  a ← absolute_normal p; directory_identity a.

(** ** Durable files and the journal *)

Definition write_new_durable_file (p : path) (data : string) : io unit :=
  h ← create_exclusive p;
  match h with
  | None => fail "cannot exclusively create durable transaction file"
  | Some descriptor =>
    RecordIo.write_loop (String.length data) descriptor data "cannot write durable transaction file";;
    ok ← fsync;
    if ok : bool then ret tt else fail "cannot flush durable transaction file"
  end.

Definition fsync_directory (p : path) : io unit :=
  r ← lstat p;
  ok ← (match r with
        | Some (_, x) => if is_directory_kind (node x) then fsync else ret false
        | None => ret false
        end);
  if ok : bool then ret tt else fail "cannot flush transaction journal directory".

Definition publish_journal (temporary journal : path) (first : bool) : io unit :=
  (if first then
     ok ← and_m (link temporary journal) (unlink temporary);
     if ok : bool then ret tt
     else fail "cannot no-clobber publish initial transaction journal"
   else
     info ← lstat_links journal;
     match info with
     | Some (_, mk_inode _ (regular _) _, links) =>
       if negb (links =? 1) then fail "existing transaction journal identity is unsafe"
       else
         ok ← rename temporary journal;
         if ok : bool then ret tt else fail "cannot atomically replace transaction journal"
     | _ => fail "existing transaction journal identity is unsafe"
     end);;
  fsync_directory (parent_path journal).

Definition journal_temporary_path (journal : path) (sequence : N) : path :=
  parent_path journal /+ (filename journal +:+ ".tmp." +:+ to_string sequence).

Definition atomic_write_journal (journal : path) (content : string) (sequence : N) (first : bool)
    : io unit :=
  let temporary := journal_temporary_path journal sequence in
  write_new_durable_file temporary content;;
  on_exception (publish_journal temporary journal first) (remove temporary;; ret tt).

Definition rename_directory_no_replace (source target : path) : io unit :=
  ok ← rename_no_replace source target;
  if ok : bool then ret tt else fail "same-volume renameat2 no-replace commit failed".

Definition read_bounded_text (p : path) (limit : N) : io string :=
  RecordIo.read_stable_text p limit.

(** [fs::symlink_status(p, error).type() != not_found || (error && error !=
    no_such_file_or_directory)], negated. *)
Definition genuinely_absent (p : path) : io bool :=
  failed ← step;
  w ← get;
  ret (negb failed && match lookup_inode (disk w) (names p) with None => true | Some _ => false end).

(** [FaultInjector]: an optional callback that sees the state, the point and
    the moment, and may throw.  Whatever else it does to the host is
    interference. *)
Definition FaultInjector : Type := option (string → string → nat → option string).

Definition inject (injector : FaultInjector) (state point : string) : io unit :=
  match injector with
  | None => ret tt
  | Some callback =>
    step;;
    w ← get;
    match callback state point (steps w) with
    | Some what => fail what
    | None => ret tt
    end
  end.

(** The path of a directory entry below [root]. *)
Definition entry_path (root : path) (n : name) : path :=
  fold_left append_path (drop (length (names root)) n) root.

(** ** The commit closure *)

Definition maximum_commit_closure_entries : N := 200000.
Definition maximum_commit_closure_depth : N := 128.

Record CommitClosureFile := mk_closure_file {
  closure_path : path;
  closure_sha256 : string;
  closure_size : N;
  closure_identity : string }.

Definition CommitClosureObservation : Type := list (string * string).

Definition over_budget (files directories : list string) : bool :=
  maximum_commit_closure_entries <? N.of_nat (length files) + N.of_nat (length directories).

(** [for (parent = ...parent_path(); !parent.empty(); parent = parent.parent_path())];
    every round shortens the text. *)
Fixpoint expect_parents (fuel : nat) (files : list string) (parent : path) (directories : list string)
    : result (list string) :=
  if is_empty parent then Ok directories
  else match fuel with
  | O => Throw out_of_fuel
  | S fuel =>
    let directories := fst (StdMap.set_insert (generic_string parent) directories) in
    throw_if (over_budget files directories) "commit closure entry budget exceeded";;
    expect_parents fuel files (parent_path parent) directories
  end.

Fixpoint check_depth (depth : N) (components : list string) : result unit :=
  match components with
  | [] => Ok tt
  | c :: components =>
    throw_if (String.eqb c "." || String.eqb c ".." || (maximum_commit_closure_depth <? depth + 1))
      "commit closure path depth or traversal refused";;
    check_depth (depth + 1) components
  end.

Definition expect_file (st : list string * list string) (file : CommitClosureFile)
    : result (list string * list string) :=
  let '(files, directories) := st in
  let p := closure_path file in
  let '(files', inserted) := StdMap.set_insert (generic_string p) files in
  throw_if (is_empty p || is_absolute p || negb inserted) "invalid commit closure path";;
  throw_if (over_budget files' directories) "commit closure entry budget exceeded";;
  check_depth 0 (components p);;
  directories ← expect_parents (String.length p) files' (parent_path p) directories;
  Ok (files', directories).

(** The loop over the entries of one directory: the count, the observation and
    the directories still to visit, the next one first. *)
Definition observe_entry (root : path) (files directories : list string)
    (st : N * CommitClosureObservation * list path) (entry : path * kind)
    : io (N * CommitClosureObservation * list path) :=
  let '(observed, result, pending) := st in
  let '(p, k) := entry in
  let observed := observed + 1 in
  if maximum_commit_closure_entries <? observed then fail "commit closure observation budget exceeded"
  else
    let relative := generic_string (lexically_relative p root) in
    match k with
    | directory =>
      if negb (StdMap.set_mem relative directories) then fail "commit refuses an unrecorded directory"
      else
        identity ← observe_directory_identity p;
        ret (observed, fst (StdMap.emplace ("D:" +:+ relative) identity result), p :: pending)
    | regular _ =>
      if StdMap.set_mem relative files then ret (observed, result, pending)
      else fail "commit refuses linked, unsupported, or unrecorded content"
    | _ => fail "commit refuses linked, unsupported, or unrecorded content"
    end.

Definition list_entries (p : path) : io (list (path * kind)) :=
  r ← list_directory p;
  match r with
  | Some l => ret (map (fun e => (entry_path p (fst e), snd e)) l)
  | None => fail "filesystem error: directory iterator cannot open directory"
  end.

Definition observe_round (root : path) (files directories : list string)
    (st : N * CommitClosureObservation * list path)
    : io ((N * CommitClosureObservation * list path) + (N * CommitClosureObservation)) :=
  let '(observed, result, pending) := st in
  match pending with
  | [] => ret (inr (observed, result))
  | p :: pending =>
    entries ← list_entries p;
    st ← fold_eff (observe_entry root files directories) (observed, result, pending) entries;
    ret (inl st)
  end.

Definition observe_file (root : path) (result : CommitClosureObservation) (expected : CommitClosureFile)
    : io CommitClosureObservation :=
  actual ← StableFile.open_stable (root /+ closure_path expected);
  let id := StableFile.identity_ actual in
  let identity := StableFile.volume_id id +:+ ":" +:+ StableFile.file_id id in
  bad ← or_m (ret ((negb (is_empty (closure_identity expected)) &&
                    negb (String.eqb identity (closure_identity expected))) ||
                   negb (StableFile.size_bytes id =? closure_size expected)))
    (hash ← StableFile.sha256_hex actual; ret (negb (String.eqb hash (closure_sha256 expected))));
  if bad : bool
  then fail "commit preparation refuses changed staged child identity or bytes"
  else
    StableFile.verify_unchanged actual;;
    ret (fst (StdMap.emplace ("F:" +:+ generic_string (closure_path expected)) identity result)).

(** Every round but the last pops a directory that an entry of the budget of
    200000 pushed: [2 ^ 18] rounds are enough. *)
Definition observe_commit_closure (root : path) (files : list CommitClosureFile)
    : io CommitClosureObservation :=
  if maximum_commit_closure_entries <? N.of_nat (length files)
  then fail "commit closure entry budget exceeded"
  else
    '(expected_files, expected_directories) ← lift (fold_result expect_file ([], []) files);
    identity ← observe_directory_identity root;
    '(observed, result) ← loop 18 (observe_round root expected_files expected_directories)
      (0, [("D:", identity)], [root]);
    if negb (observed =? N.of_nat (length expected_files) + N.of_nat (length expected_directories))
    then fail "commit closure has missing or duplicate paths"
    else fold_eff (observe_file root) result files.

End SessionHost.
