(* ===== verification/HostFacts.v ===== *)
(** The host helpers of the transaction session on an undisturbed host: walking to
    a directory and observing its identity. *)

From Stdlib Require Import Ascii String NArith ZArith Lia.
From stdpp Require Import base list strings gmap sets.
From S2P Require Import Prelude Path PathFacts Effects World RecordIo RecordFacts DirectoryFacts SessionHost.

Module HostFacts.
Import Path PathFacts Effects World RecordIo RecordFacts DirectoryFacts SessionHost.

(** ** Conditions that are calls *)

Lemma runs_not w (m : io bool) b d : runs w m b d → runs w (not_m m) (negb b) d.
Proof.
  intros Hm. unfold not_m. eapply runs_bind; [exact Hm|]. intros w1 Q1 D1 _. cbv beta. rewrite <- D1. by apply runs_ret.
Qed.

(** [a || b]: [b] is called when [a] is false. *)
Lemma runs_or w (a b : io bool) x y : runs w a x (disk w) →
  (x = false → ∀ w', quiet w' → disk w' = disk w → runs w' b y (disk w)) → runs w (or_m a b) (x || y) (disk w).
Proof.
  intros Ha Hb. unfold or_m. eapply runs_bind; [exact Ha|]. intros w1 Q1 D1 _. cbv beta. destruct x; cbn [orb].
  - rewrite <- D1. by apply runs_ret.
  - by apply Hb.
Qed.

(** [a && b]: [b] is called when [a] is true. *)
Lemma runs_and w (a b : io bool) x y : runs w a x (disk w) →
  (x = true → ∀ w', quiet w' → disk w' = disk w → runs w' b y (disk w)) → runs w (and_m a b) (x && y) (disk w).
Proof.
  intros Ha Hb. unfold and_m. eapply runs_bind; [exact Ha|]. intros w1 Q1 D1 _. cbv beta. destruct x; cbn [andb].
  - by apply Hb.
  - rewrite <- D1. by apply runs_ret.
Qed.

(** A comparison of an observation. *)
Lemma runs_eqb w (m : io string) s t : runs w m s (disk w) →
  runs w (found ← m; ret (String.eqb found t)) (String.eqb s t) (disk w).
Proof.
  intros Hm. eapply runs_bind; [exact Hm|]. intros w1 Q1 D1 _. cbv beta. rewrite <- D1. by apply runs_ret.
Qed.

(** ** Directory identities *)

Definition dir_identity (d : fs) (n : list string) : string :=
  match lookup_inode d n with
  | Some (i, mk_inode v directory _) => StableFile.hex_id v +:+ ":" +:+ StableFile.hex_id i
  | _ => EmptyString
  end.

Lemma runs_reparse_first w p : quiet w → is_dir_at (disk w) (names p) = true →
  runs w (or_m (reparse_or_symlink p) (not_m (is_directory p))) false (disk w).
Proof.
  intros Hq Hd. unfold or_m, not_m. eapply runs_bind; [by apply runs_reparse|].
  intros w1 Q1 D1 _. cbv beta iota. rewrite <-D1 in *.
  eapply runs_bind; [by apply runs_is_directory|]. intros w2 Q2 D2 _. rewrite <-D2. by apply runs_ret.
Qed.

Lemma runs_walk_root w p rest pre : quiet w → Forall safe_name (pre ++ rest) →
  safe_dir (disk w) (pre ++ rest) → runs w (walk_root p (abs_text pre) rest) tt (disk w).
Proof.
  revert w pre. induction rest as [|c rest IH]; intros w pre Hq Hs Hd; [by apply runs_ret|].
  cbn [walk_root]. rewrite cons_middle, app_assoc in Hs, Hd.
  assert (Forall safe_name (pre ++ [c])) as Hs1 by (by apply Forall_app in Hs as [? _]).
  assert (abs_text pre /+ c = abs_text (pre ++ [c])) as Ec.
  { apply safe_plain, Forall_app in Hs1 as [? Hc]. apply abs_text_append; [done|by inversion Hc]. }
  assert (is_dir_at (disk w) (names (abs_text pre /+ c)) = true) as Hdir.
  { rewrite Ec, names_abs_text by (by apply safe_plain).
    specialize (Hd (length (pre ++ [c]))). by rewrite take_app_length in Hd. }
  eapply runs_bind; [by apply runs_reparse_first|]. intros w1 Q1 D1 _. cbv beta iota.
  rewrite Ec, <- D1. apply IH; [done|done|by rewrite D1].
Qed.

Lemma runs_absolute_normal w l : quiet w → Forall safe_name l →
  runs w (absolute_normal (abs_text l)) (abs_text l) (disk w).
Proof.
  intros Hq Hs. unfold absolute_normal.
  assert (runs w (StableFile.absolute (abs_text l)) (abs_text l) (disk w)) as Ha by (by exists w).
  eapply runs_bind; [exact Ha|]. intros w1 Q1 D1 _. cbv beta zeta. rewrite normal_abs_text by done.
  rewrite <-D1. by apply runs_ret.
Qed.

Lemma runs_session_directory w l : quiet w → Forall safe_name l → safe_dir (disk w) l →
  runs w (SessionHost.require_safe_directory (abs_text l)) tt (disk w).
Proof.
  intros Hq Hs Hd. unfold SessionHost.require_safe_directory.
  assert (is_dir_at (disk w) (names (abs_text l)) = true) as Hdir.
  { rewrite names_abs_text by (by apply safe_plain). by apply safe_dir_here. }
  eapply runs_bind; [by apply runs_plain_directory|].
  intros w2 Q2 D2 _. cbv beta iota. rewrite abs_text_components by (by apply safe_plain).
  change (root_text (abs_text l)) with (abs_text []). rewrite <-D2. apply runs_walk_root; [done|done|by rewrite D2].
Qed.

Lemma runs_identity w l : quiet w → Forall safe_name l → safe_dir (disk w) l →
  runs w (observe_directory_identity (abs_text l)) (dir_identity (disk w) l) (disk w).
Proof.
  intros Hq Hs Hd. unfold observe_directory_identity.
  eapply runs_bind; [by apply runs_absolute_normal|]. intros w1 Q1 D1 _. cbv beta. rewrite <-D1 in *.
  eapply runs_bind; [by apply runs_session_directory|]. intros w2 Q2 D2 _. cbv beta. rewrite <-D2 in *.
  eapply runs_bind; [by apply runs_observe|]. intros w3 Q3 D3 _.
  rewrite names_abs_text by (by apply safe_plain). cbv beta.
  destruct (is_dir_at_inv _ _ (safe_dir_here _ _ Hd)) as (i & [v k t] & E & Hk). simpl in Hk. subst k.
  unfold dir_identity. rewrite E, <-D3. by apply runs_ret.
Qed.

Lemma dir_identity_adds d d' p i content l : adds_file d d' p i content → safe_dir d l →
  dir_identity d' l = dir_identity d l.
Proof.
  intros Ha Hd. destruct (is_dir_at_inv _ _ (safe_dir_here _ _ Hd)) as (j & x & E & _). unfold dir_identity.
  by rewrite E, (adds_file_other _ _ _ _ _ _ _ _ Ha E).
Qed.

End HostFacts.
