(* ===== verification/Maintenance.v ===== *)
(** The maintenance effect journal:
    [runtime/setup/transaction/usk_maintenance_effect_journal.{h,cpp}].  On a
    host other than Windows no native owner exists: [require_effect_authority]
    and its relatives do nothing and [apply_owned_effect] returns nothing. *)

From Stdlib Require Import Ascii String NArith ZArith Lia.
From stdpp Require Import base list strings gmap sets.
From S2P Require Import Prelude Utf8 Sha256 StdMap Json Path Effects World RecordIo StreamJournal.
From S2P Require Import Journal SessionHost.

Module Maintenance.
Import Json Path Effects World RecordIo SessionHost.

Definition maximum_records : N := 200002.
Definition maximum_journal_bytes : N := 64 * 1024 * 1024.
Definition maximum_record_bytes : N := 32768.

(** [digest] and [native_identity] are written as in the stream journal. *)
Definition digest (value : string) : bool := StreamJournal.digest value.
Definition native_identity (value : string) : bool := StreamJournal.identity_valid value.

Definition exact_keys (v : value) (expected : list string) : result unit :=
  members ← as_object v;
  throw_if (negb (bool_decide (map fst members = StdMap.set_of_list expected)))
    "maintenance journal fields are invalid".

(** [fs::absolute(path).lexically_normal().generic_u8string()]. *)
Definition normalized (cwd : path) (p : path) : result string :=
  if is_empty p then throw "filesystem error: cannot make absolute path"
  else Ok (generic_string (lexically_normal (if is_absolute p then p else cwd /+ p))).

Definition effect_path_byte (c : ascii) : bool :=
  negb ((code c <? 0x20) || (code c =? 0x7f) || (code c =? 58) || Ascii.eqb c backslash).

Definition relative_path (text : string) (allow_root : bool) : result unit :=
  if allow_root && is_empty text then Ok tt
  else
    throw_if (is_empty text || (4096 <? size text) || is_absolute text ||
        negb (String.eqb (generic_string text) text) || negb (forall_bytes effect_path_byte text))
      "maintenance effect path is invalid";;
    throw_if (existsb (fun c => is_empty c || String.eqb c "." || String.eqb c "..") (components text))
      "maintenance effect path is not relative and normalized".

Definition at_holds (v : value) (key : string) (p : string → bool) : result bool :=
  s ← at_string v key; Ok (p s).

(** The negated test: the condition of a [throw]. *)
Definition at_fails (v : value) (key : string) (p : string → bool) : result bool :=
  s ← at_string v key; Ok (negb (p s)).

Definition root_observation (cwd : path) (root : value) (expected : path) : result unit :=
  exact_keys root ["root"; "native_identity"];;
  bad ← (r ← at_string root "root"; n ← normalized cwd expected; Ok (negb (String.eqb r n))) |||
    at_fails root "native_identity" native_identity;
  throw_if bad "maintenance context root observation is invalid".

Definition context_keys : list string :=
  ["schema"; "operation"; "install_id"; "transaction_id"; "plan_id";
   "plan_digest"; "policy_digest"; "applied_at"; "original_installed_transaction_id";
   "original_installed_state_digest"; "ownership_manifest_ref"; "ownership_manifest_digest";
   "original_source_archive_digest"; "installed_root"; "operation_target_root";
   "operation_target_parent"; "staging_parent"; "state_root"; "audit_root"].

Definition reviewed_plan (s : Journal.TransactionSpec) (v : value) : result unit :=
  if contains v "reviewed_plan_ref" || contains v "reviewed_plan_sha256" then
    exact_keys v (context_keys ++ ["reviewed_plan_ref"; "reviewed_plan_sha256"]);;
    bad ← differs v "reviewed_plan_ref" (Journal.transaction_id s +:+ ".maintenance-plan.json") |||
      at_fails v "reviewed_plan_sha256" digest;
    throw_if bad "maintenance reviewed-plan binding is invalid"
  else exact_keys v context_keys.

Definition maintenance_operation (operation : string) : bool :=
  Journal.any_of operation ["repair"; "move"; "uninstall"].

Definition context_binding (s : Journal.TransactionSpec) (text : string) (v : value) : result bool :=
  Ok (negb (String.eqb (canonical v) text)) |||
  differs v "schema" "usk.maintenance_source_context.v1" |||
  Ok (negb (maintenance_operation (Journal.operation s))) |||
  differs v "operation" (Journal.operation s) |||
  differs v "transaction_id" (Journal.transaction_id s) |||
  differs v "plan_id" (Journal.plan_id s) |||
  differs v "plan_digest" (Journal.plan_digest s) |||
  Ok (negb (valid_identifier (Journal.transaction_id s)) || negb (valid_identifier (Journal.plan_id s)) ||
      negb (digest (Journal.plan_digest s))) |||
  at_fails v "install_id" valid_identifier |||
  at_fails v "original_installed_transaction_id" valid_identifier |||
  at_holds v "original_installed_transaction_id" (String.eqb (Journal.transaction_id s)) |||
  at_holds v "applied_at" is_empty |||
  at_holds v "applied_at" (fun a => 64 <? size a).

Definition installed_root_observation (cwd : path) (v : value) : result unit :=
  installed ← at_ v "installed_root";
  exact_keys installed ["root"; "native_identity"; "parent"];;
  installed_root ← at_string installed "root";
  bad ← Ok (negb (is_absolute installed_root)) |||
    (n ← normalized cwd installed_root; Ok (negb (String.eqb n installed_root))) |||
    (i ← at_ installed "native_identity";
     Ok (negb (is_null i)) &&& at_fails installed "native_identity" native_identity);
  throw_if bad "maintenance installed-root observation is invalid";;
  parent ← at_ installed "parent";
  root_observation cwd parent (parent_path installed_root).

(** [fs::absolute(spec.target_root).parent_path()]. *)
Definition absolute_parent (cwd : path) (p : path) : result path :=
  if is_empty p then throw "filesystem error: cannot make absolute path"
  else Ok (parent_path (if is_absolute p then p else cwd /+ p)).

Definition validate_context (cwd : path) (s : Journal.TransactionSpec) (text : string) : result unit :=
  throw_if (is_empty text || (16384 <? size text)) "maintenance context exceeds its bound";;
  v ← parse text (mk_limits 16384 8 128 16384);
  reviewed_plan s v;;
  bad ← context_binding s text v;
  throw_if bad "maintenance context does not bind the transaction";;
  fold_result (fun _ key =>
      bad ← at_fails v key digest; throw_if bad "maintenance context digest is invalid") tt
    ["policy_digest"; "original_installed_state_digest";
     "ownership_manifest_digest"; "original_source_archive_digest"];;
  ref ← at_string v "ownership_manifest_ref";
  relative_path ref false;;
  installed_root_observation cwd v;;
  target ← at_string v "operation_target_root";
  expected ← normalized cwd (Journal.target_root s);
  throw_if (negb (String.eqb target expected)) "maintenance operation target changed";;
  observed ← at_ v "operation_target_parent";
  parent ← absolute_parent cwd (Journal.target_root s);
  root_observation cwd observed parent;;
  observed ← at_ v "staging_parent";
  root_observation cwd observed (Journal.staging_parent s);;
  observed ← at_ v "state_root";
  root_observation cwd observed (Journal.state_root s);;
  observed ← at_ v "audit_root";
  root_observation cwd observed (Journal.audit_root s).

(** ** Effects *)

Definition file_effect (operation kind : string) (details : value) : result unit :=
  let removal := String.eqb kind "remove_file" in
  exact_keys details (["relative_path"; "native_identity"; "sha256"; "size_bytes"] ++
    (if removal then ["root_role"] else []));;
  p ← at_string details "relative_path";
  relative_path p false;;
  bad ← at_fails details "native_identity" native_identity |||
    at_fails details "sha256" digest |||
    (n ← StreamJournal.at_unsigned details "size_bytes"; Ok (2 ^ 32 <? n));
  throw_if bad "maintenance file observation is invalid";;
  throw_if (negb removal && negb (String.eqb operation "repair"))
    "maintenance file exchange belongs to repair";;
  if removal then
    role ← at_string details "root_role";
    throw_if (negb (Journal.any_of role ["installed"; "operation_target"]) || String.eqb operation "move" ||
        (String.eqb operation "repair" && negb (String.eqb role "operation_target")))
      "maintenance removal root role is invalid"
  else Ok tt.

Definition directory_effect (operation : string) (details : value) : result unit :=
  exact_keys details ["root_role"; "relative_path"; "native_identity"];;
  p ← at_string details "relative_path";
  relative_path p true;;
  role ← at_string details "root_role";
  bad ← at_fails details "native_identity" native_identity |||
    Ok (String.eqb operation "move" ||
        negb (Journal.any_of role ["installed"; "operation_target"]) ||
        (String.eqb operation "repair" && negb (String.eqb role "operation_target")));
  throw_if bad "maintenance directory observation is invalid".

(** [(void)value.at(key).as_string()] for every key. *)
Definition strings_at (v : value) (keys : list string) : result unit :=
  fold_result (fun _ key => at_string v key;; Ok tt) tt keys.

Definition installed_effect (details : value) : result unit :=
  members ← as_object details;
  let revised := StdMap.contains_key "state_revision" members in
  exact_keys details (["install_id"; "state_digest"] ++ (if revised then ["state_revision"] else []));;
  bad ← at_fails details "install_id" valid_identifier ||| at_fails details "state_digest" digest;
  throw_if bad "maintenance installed-state binding is invalid";;
  if revised then
    revision ← at_ details "state_revision";
    exact_keys revision ["target_root"; "ownership_manifest_ref"; "ownership_manifest_digest";
      "transaction_id"; "created_at"; "lifecycle_status"; "last_verification"];;
    strings_at revision ["target_root"; "ownership_manifest_ref"; "transaction_id";
      "created_at"; "lifecycle_status"];;
    bad ← at_fails revision "ownership_manifest_digest" digest;
    throw_if bad "maintenance installed-state ownership digest is invalid";;
    verification ← at_ revision "last_verification";
    exact_keys verification ["report_id"; "report_digest"; "status"; "verified_at"];;
    strings_at verification ["report_id"; "status"; "verified_at"];;
    bad ← at_fails verification "report_digest" digest;
    throw_if bad "maintenance installed-state verification digest is invalid"
  else Ok tt.

Definition audit_effect (details : value) : result unit :=
  members ← as_object details;
  let bound := StdMap.contains_key "input" members in
  exact_keys details (["chain_id"; "input_digest"] ++ (if bound then ["input"] else []));;
  bad ← at_fails details "chain_id" valid_identifier ||| at_fails details "input_digest" digest;
  throw_if bad "maintenance audit binding is invalid";;
  if bound then
    input ← at_ details "input";
    exact_keys input ["created_at"; "operation"; "phase"; "status"; "subject_type";
      "subject_id"; "details_digest"; "transaction_id"; "plan_id"; "message"];;
    members ← as_object input;
    fold_result (fun _ m => as_string (snd m);; Ok tt) tt members;;
    hash ← sha256_canonical input;
    expected ← at_string details "input_digest";
    throw_if (negb (String.eqb hash expected)) "maintenance audit postimage digest differs"
  else Ok tt.

Definition validate_effect (operation kind : string) (details : value) : result unit :=
  throw_if (8192 <? size (canonical details)) "maintenance effect exceeds its bound";;
  if Journal.any_of kind ["backup_file"; "replace_file"; "remove_file"]
  then file_effect operation kind details
  else if String.eqb kind "remove_directory" then directory_effect operation details
  else if String.eqb kind "publish_target" then
    exact_keys details ["native_identity"];;
    bad ← at_fails details "native_identity" native_identity;
    throw_if bad "maintenance publication observation is invalid"
  else if String.eqb kind "write_ownership" then
    exact_keys details ["manifest_id"; "prior_manifest_digest"];;
    bad ← Ok (String.eqb operation "uninstall") ||| at_fails details "manifest_id" valid_identifier |||
      at_fails details "prior_manifest_digest" digest;
    throw_if bad "maintenance ownership binding is invalid"
  else if String.eqb kind "write_installed" then installed_effect details
  else if String.eqb kind "append_audit" then audit_effect details
  else throw "maintenance effect kind is unknown".

Definition validate_completion (kind outcome result_digest : string) : result unit :=
  let metadata := Journal.any_of kind ["write_ownership"; "write_installed"; "append_audit"] in
  throw_if ((negb (String.eqb outcome "applied") &&
      (negb (String.eqb outcome "retained") || negb (String.eqb kind "remove_directory"))) ||
      (if metadata then negb (digest result_digest) else negb (is_empty result_digest)))
    "maintenance completion is invalid".

Definition filename (sequence : N) : string := pad20 sequence +:+ ".json".

(** ** Records *)

Definition record_schema : string := "usk.maintenance_effect_record.v1".

(** The value and the new byte total. *)
Definition decode_record_text (text : string) (bytes : N) : result (value * N) :=
  throw_if (maximum_record_bytes <? size text) "maintenance journal record exceeds its byte bound";;
  throw_if (maximum_journal_bytes - size text <? bytes) "maintenance journal exceeds its byte bound";;
  v ← parse text (mk_limits maximum_record_bytes 12 256 16384);
  exact_keys v ["schema"; "sequence"; "transaction_id"; "source_digest"; "phase";
    "details"; "previous_digest"; "digest"];;
  hash ← at_string v "digest";
  members ← as_object v;
  bad ← Ok (negb (String.eqb (canonical v +:+ Journal.newline) text) || negb (digest hash)) |||
    (h ← sha256_canonical (object (StdMap.erase "digest" members)); Ok (negb (String.eqb h hash))) |||
    differs v "schema" record_schema;
  throw_if bad "maintenance journal record is invalid";;
  Ok (v, bytes + size text).

Definition read_record (p : path) (bytes : N) : io (value * N) :=
  text ← read_stable_text p maximum_record_bytes;
  lift (decode_record_text text bytes).

Record CompletedMaintenanceEffect := mk_effect {
  intent_sequence : N;
  kind : string;
  details : value;
  outcome : string;
  result_digest : string }.

Record MaintenanceEffectInspection := mk_inspection {
  source_context : string;
  source_digest : string;
  journal_digest : string;
  completed_effects : N;
  next_sequence : N;
  pending_sequence : N;
  serialized_bytes : N;
  directory_identity : string;
  sealed : bool;
  pending_kind : string;
  pending_details : value;
  completed : list CompletedMaintenanceEffect }.

Definition empty_inspection : MaintenanceEffectInspection :=
  mk_inspection EmptyString EmptyString EmptyString 0 0 0 0 EmptyString false EmptyString null_value [].

(** ** [MaintenanceEffectRecordReader] *)

Record Reader := mk_reader {
  r_spec : Journal.TransactionSpec;
  r_directory_identity : string;
  expected_source_digest : string;
  record_count : N;
  retain_completed : bool;
  result_ : MaintenanceEffectInspection;
  r_pending_sequence : N;
  r_bytes : N;
  r_failed : bool;
  finished : bool }.

Definition make_reader (s : Journal.TransactionSpec) (identity expected : string) (count : N)
    (retain : bool) : result Reader :=
  throw_if (negb (valid_identifier (Journal.transaction_id s)) || negb (digest expected) ||
      (count =? 0) || (maximum_records <? count))
    "maintenance inspection identity or record count is invalid";;
  Ok (mk_reader s identity expected count retain empty_inspection 0 0 false false).

(** Copies of an inspection with some fields replaced. *)
Definition with_context (i : MaintenanceEffectInspection) (context digest : string) :=
  mk_inspection context digest (journal_digest i) (completed_effects i) (next_sequence i)
    (pending_sequence i) (serialized_bytes i) (directory_identity i) (sealed i) (pending_kind i)
    (pending_details i) (completed i).
Definition with_pending (i : MaintenanceEffectInspection) (k : string) (d : value) :=
  mk_inspection (source_context i) (source_digest i) (journal_digest i) (completed_effects i)
    (next_sequence i) (pending_sequence i) (serialized_bytes i) (directory_identity i) (sealed i) k d
    (completed i).
Definition with_completed (i : MaintenanceEffectInspection) (l : list CompletedMaintenanceEffect) :=
  mk_inspection (source_context i) (source_digest i) (journal_digest i) (completed_effects i + 1)
    (next_sequence i) (pending_sequence i) (serialized_bytes i) (directory_identity i) (sealed i)
    EmptyString null_value l.
Definition with_sealed (i : MaintenanceEffectInspection) :=
  mk_inspection (source_context i) (source_digest i) (journal_digest i) (completed_effects i)
    (next_sequence i) (pending_sequence i) (serialized_bytes i) (directory_identity i) true
    (pending_kind i) (pending_details i) (completed i).
Definition advanced (i : MaintenanceEffectInspection) (digest : string) :=
  mk_inspection (source_context i) (source_digest i) digest (completed_effects i)
    (next_sequence i + 1) (pending_sequence i) (serialized_bytes i) (directory_identity i) (sealed i)
    (pending_kind i) (pending_details i) (completed i).
Definition concluded (i : MaintenanceEffectInspection) (pending bytes : N) (identity : string) :=
  mk_inspection (source_context i) (source_digest i) (journal_digest i) (completed_effects i)
    (next_sequence i) pending bytes identity (sealed i) (pending_kind i) (pending_details i)
    (completed i).

Definition with_result (r : Reader) (i : MaintenanceEffectInspection) (pending bytes : N) : Reader :=
  mk_reader (r_spec r) (r_directory_identity r) (expected_source_digest r) (record_count r)
    (retain_completed r) i pending bytes (r_failed r) (finished r).

Definition poisoned (r : Reader) : Reader :=
  mk_reader (r_spec r) (r_directory_identity r) (expected_source_digest r) (record_count r)
    (retain_completed r) (result_ r) (r_pending_sequence r) (r_bytes r) true (finished r).

(** The branches of [consume] on the phase: the new result and pending sequence. *)
Definition consume_context (cwd : path) (r : Reader) (details : value)
    : result (MaintenanceEffectInspection * N) :=
  exact_keys details ["source_context"; "directory_identity"];;
  bad ← differs details "directory_identity" (r_directory_identity r);
  throw_if bad "maintenance journal directory identity changed";;
  context ← at_string details "source_context";
  validate_context cwd (r_spec r) context;;
  v ← parse context default_limits;
  hash ← sha256_canonical v;
  throw_if (negb (String.eqb hash (expected_source_digest r)))
    "maintenance original context digest changed";;
  Ok (with_context (result_ r) context hash, r_pending_sequence r).

Definition consume_intent (r : Reader) (details : value) : result (MaintenanceEffectInspection * N) :=
  let i := result_ r in
  exact_keys details ["kind"; "effect"];;
  throw_if (negb (is_empty (pending_kind i))) "maintenance intents overlap";;
  k ← at_string details "kind";
  effect ← at_ details "effect";
  validate_effect (Journal.operation (r_spec r)) k effect;;
  Ok (with_pending i k effect, next_sequence i).

Definition consume_complete (r : Reader) (details : value) : result (MaintenanceEffectInspection * N) :=
  let i := result_ r in
  exact_keys details ["intent_sequence"; "kind"; "outcome"; "result_digest"];;
  bad ← Ok (is_empty (pending_kind i)) ||| differs details "kind" (pending_kind i) |||
    (n ← StreamJournal.at_unsigned details "intent_sequence"; Ok (negb (n =? r_pending_sequence r)));
  throw_if bad "maintenance completion does not bind an intent";;
  d ← at_ details "result_digest";
  hash ← StreamJournal.optional_string d;
  out ← at_string details "outcome";
  validate_completion (pending_kind i) out hash;;
  Ok (with_completed i (if retain_completed r
        then completed i ++ [mk_effect (r_pending_sequence r) (pending_kind i) (pending_details i) out hash]
        else completed i),
      r_pending_sequence r).

Definition consume_sealed (r : Reader) (details : value) : result (MaintenanceEffectInspection * N) :=
  throw_if (negb (is_empty (pending_kind (result_ r))) || negb (is_null details))
    "maintenance journal sealed with an unresolved effect";;
  Ok (with_sealed (result_ r), r_pending_sequence r).

Definition chain_differs (r : Reader) (record_name : string) (v : value) : result bool :=
  let index := next_sequence (result_ r) in
  Ok (negb (String.eqb record_name (filename index))) |||
  (n ← StreamJournal.at_unsigned v "sequence"; Ok (negb (n =? index))) |||
  differs v "transaction_id" (Journal.transaction_id (r_spec r)) |||
  differs v "source_digest" (expected_source_digest r) |||
  Ok (sealed (result_ r)) |||
  (if index =? 0 then p ← at_ v "previous_digest"; Ok (negb (is_null p))
   else differs v "previous_digest" (journal_digest (result_ r))).

(** The body of the [try] of [consume]. *)
Definition consume_record (cwd : path) (r : Reader) (record_name text : string) : result Reader :=
  let index := next_sequence (result_ r) in
  throw_if (record_count r <=? index) "maintenance journal has an unexpected record";;
  '(v, bytes) ← decode_record_text text (r_bytes r);
  bad ← chain_differs r record_name v;
  throw_if bad "maintenance journal chain or binding is invalid";;
  phase ← at_string v "phase";
  details ← at_ v "details";
  '(i, pending) ← (
    if index =? 0 then
      throw_if (negb (String.eqb phase "context")) "maintenance journal lacks original context";;
      consume_context cwd r details
    else if String.eqb phase "intent" then consume_intent r details
    else if String.eqb phase "complete" then consume_complete r details
    else if String.eqb phase "sealed" then consume_sealed r details
    else throw "maintenance journal phase is invalid");
  hash ← at_string v "digest";
  Ok (with_result r (advanced i hash) pending bytes).

(** [consume]: the reader afterwards and the exception, if any. *)
Definition consume (cwd : path) (r : Reader) (record_name text : string) : result unit * Reader :=
  if r_failed r || finished r
  then (Throw (logic_error "maintenance record reader is no longer usable"), r)
  else match consume_record cwd r record_name text with
       | Ok r => (Ok tt, r)
       | Throw e => (Throw e, poisoned r)
       end.

Definition finish (r : Reader) : result MaintenanceEffectInspection * Reader :=
  if r_failed r || finished r
  then (Throw (logic_error "maintenance record reader is no longer usable"), r)
  else if negb (next_sequence (result_ r) =? record_count r)
  then (throw "maintenance journal input is incomplete", poisoned r)
  else
    let i := concluded (result_ r) (r_pending_sequence r) (r_bytes r) (r_directory_identity r) in
    (Ok i, mk_reader (r_spec r) (r_directory_identity r) (expected_source_digest r) (record_count r)
       (retain_completed r) i (r_pending_sequence r) (r_bytes r) false true).

(** ** [MaintenanceEffectJournal::inspect] *)

Definition is_regular (k : World.kind) : bool := match k with regular _ => true | _ => false end.

Definition admit_record (records : list string) (entry : name * World.kind) : result (list string) :=
  throw_if ((maximum_records <=? N.of_nat (length records)) || negb (is_regular (snd entry)))
    "maintenance journal directory is not exact";;
  Ok (records ++ [default EmptyString (last (fst entry))]).

(** The loop [for (const auto& path : records) reader.consume(...)]. *)
Fixpoint consume_all (directory : path) (r : Reader) (records : list string) : io Reader :=
  match records with
  | [] => ret r
  | nm :: records =>
    text ← read_stable_text (directory /+ nm) maximum_record_bytes;
    w ← get;
    let '(outcome, r) := consume (cwd w) r nm text in
    lift outcome;;
    consume_all directory r records
  end.

Definition effect_directory (s : Journal.TransactionSpec) : io path :=
  root ← StableFile.absolute (Journal.state_root s);
  when (is_empty root) (fail "filesystem error: cannot make absolute path");;
  ret (lexically_normal root /+ "transactions" /+ (Journal.transaction_id s +:+ ".maintenance")).

Definition inspect (s : Journal.TransactionSpec) (expected : string) (retain : bool)
    : io MaintenanceEffectInspection :=
  if negb (valid_identifier (Journal.transaction_id s)) || negb (digest expected)
  then fail "maintenance inspection identity is invalid"
  else
    directory ← effect_directory s;
    identity ← observe_directory_identity directory;
    listing ← list_directory directory;
    match listing with
    | None => fail "filesystem error: directory iterator cannot open directory"
    | Some listing =>
      records ← lift (fold_result admit_record [] listing);
      if (length records =? 0)%nat then fail "maintenance journal has no original context"
      else
        reader ← lift (make_reader s identity expected (N.of_nat (length records)) retain);
        reader ← consume_all directory reader (sort_names records);
        now ← observe_directory_identity directory;
        if negb (String.eqb now identity)
        then fail "maintenance journal directory changed during inspection"
        else lift (fst (finish reader))
    end.

(** ** [MaintenanceEffectJournal] *)

Record EffectJournal := mk_journal {
  spec_ : Journal.TransactionSpec;
  injector_ : FaultInjector;
  directory_ : path;
  directory_identity_ : string;
  source_digest_ : string;
  last_digest_ : string;
  pending_kind_ : string;
  pending_sequence_ : N;
  sequence_ : N;
  bytes_ : N;
  sealed_ : bool;
  failed_ : bool }.

Definition act (A : Type) : Type := M (EffectJournal * world) A.

Definition this : act EffectJournal := s ← get; ret (fst s).
Definition update (f : EffectJournal → EffectJournal) : act unit := modify (fun s => (f (fst s), snd s)).

Definition recorded (hash : string) (bytes : N) (j : EffectJournal) : EffectJournal :=
  mk_journal (spec_ j) (injector_ j) (directory_ j) (directory_identity_ j) (source_digest_ j) hash
    (pending_kind_ j) (pending_sequence_ j) (sequence_ j + 1) (bytes_ j + bytes) (sealed_ j) (failed_ j).
Definition set_failed (j : EffectJournal) : EffectJournal :=
  mk_journal (spec_ j) (injector_ j) (directory_ j) (directory_identity_ j) (source_digest_ j)
    (last_digest_ j) (pending_kind_ j) (pending_sequence_ j) (sequence_ j) (bytes_ j) (sealed_ j) true.
Definition set_sealed (j : EffectJournal) : EffectJournal :=
  mk_journal (spec_ j) (injector_ j) (directory_ j) (directory_identity_ j) (source_digest_ j)
    (last_digest_ j) (pending_kind_ j) (pending_sequence_ j) (sequence_ j) (bytes_ j) true (failed_ j).
Definition set_pending_kind (k : string) (j : EffectJournal) : EffectJournal :=
  mk_journal (spec_ j) (injector_ j) (directory_ j) (directory_identity_ j) (source_digest_ j)
    (last_digest_ j) k (pending_sequence_ j) (sequence_ j) (bytes_ j) (sealed_ j) (failed_ j).
Definition set_pending_sequence (n : N) (j : EffectJournal) : EffectJournal :=
  mk_journal (spec_ j) (injector_ j) (directory_ j) (directory_identity_ j) (source_digest_ j)
    (last_digest_ j) (pending_kind_ j) n (sequence_ j) (bytes_ j) (sealed_ j) (failed_ j).

Definition nullable (s : string) : value := if is_empty s then null_value else string_value s.

(** The record without and with its digest. *)
Definition record_body (j : EffectJournal) (phase : string) (details : value) : list (string * value) :=
  StdMap.of_list [
    ("schema", string_value record_schema);
    ("sequence", unsigned_integer (sequence_ j));
    ("transaction_id", string_value (Journal.transaction_id (spec_ j)));
    ("source_digest", string_value (source_digest_ j));
    ("phase", string_value phase); ("details", details);
    ("previous_digest", nullable (last_digest_ j))].

Definition record_value (j : EffectJournal) (phase : string) (details : value) (hash : string) : value :=
  object (fst (StdMap.emplace "digest" (string_value hash) (record_body j phase details))).

(** The body of the [try] of [persist]. *)
Definition persist_record (phase : string) (details : value) : act unit :=
  j ← this;
  on_snd (inject (injector_ j) phase "before_record");;
  identity ← on_snd (observe_directory_identity (directory_ j));
  when (negb (String.eqb identity (directory_identity_ j))) (fail "maintenance journal directory changed");;
  when (negb (sequence_ j =? 0)) (
    '(prior, _) ← on_snd (read_record (directory_ j /+ filename (sequence_ j - 1)) 0);
    bad ← lift (differs prior "digest" (last_digest_ j));
    when bad (fail "maintenance journal predecessor changed"));;
  hash ← lift (sha256_canonical (object (record_body j phase details)));
  let text := canonical (record_value j phase details hash) +:+ Journal.newline in
  when ((maximum_record_bytes <? size text) || (maximum_journal_bytes - size text <? bytes_ j))
    (fail "maintenance journal exceeds its bound");;
  on_snd (write_new_durable_text (directory_ j /+ filename (sequence_ j)) text);;
  identity ← on_snd (observe_directory_identity (directory_ j));
  when (negb (String.eqb identity (directory_identity_ j)))
    (fail "maintenance journal directory changed after persistence");;
  update (recorded hash (size text));;
  on_snd (inject (injector_ j) phase "after_record").

Definition persist (phase : string) (details : value) : act unit :=
  j ← this;
  if failed_ j || sealed_ j || (maximum_records <=? sequence_ j)
  then fail "maintenance journal cannot accept another record"
  else on_exception (persist_record phase details) (update set_failed).

Definition begin_effect (k : string) (effect : value) : act unit :=
  j ← this;
  if negb (is_empty (pending_kind_ j)) then raise (logic_error "maintenance effect is still unresolved")
  else
    lift (validate_effect (Journal.operation (spec_ j)) k effect);;
    update (set_pending_sequence (sequence_ j));;
    persist "intent" (make_object [("kind", string_value k); ("effect", effect)]);;
    update (set_pending_kind k).

(** [apply_payload_effect] and [apply_metadata_effect] without a native owner:
    the checks of the pending intent, and no result. *)
Definition apply_owned_effect : act (option (string * string)) :=
  j ← this;
  if failed_ j || sealed_ j || is_empty (pending_kind_ j)
  then fail "maintenance owned intent is absent, failed or already attempted"
  else ret None.

Definition apply_payload_effect : act (option string) :=
  j ← this;
  if negb (Journal.any_of (pending_kind_ j) ["backup_file"; "replace_file"; "remove_file"; "remove_directory"])
  then fail "maintenance payload dispatch received a non-payload intent"
  else result ← apply_owned_effect; ret (fst <$> result).

Definition apply_metadata_effect : act (option string) :=
  j ← this;
  if negb (Journal.any_of (pending_kind_ j) ["write_ownership"; "write_installed"; "append_audit"])
  then fail "maintenance metadata dispatch received a non-metadata intent"
  else result ← apply_owned_effect; ret (snd <$> result).

Definition persist_completion (out hash : string) : act unit :=
  j ← this;
  lift (validate_completion (pending_kind_ j) out hash);;
  persist "complete" (make_object [
    ("intent_sequence", unsigned_integer (pending_sequence_ j));
    ("kind", string_value (pending_kind_ j)); ("outcome", string_value out);
    ("result_digest", nullable hash)]);;
  update (set_pending_kind EmptyString).

Definition complete_effect (out hash : string) : act unit :=
  j ← this;
  if is_empty (pending_kind_ j) then raise (logic_error "maintenance completion has no intent")
  else persist_completion out hash.

Definition seal : act unit :=
  j ← this;
  if negb (is_empty (pending_kind_ j)) then raise (logic_error "maintenance journal has an unresolved intent")
  else
    persist "sealed" null_value;;
    update set_sealed.

(** Run a member function on an object that is still being constructed. *)
Definition constructing (j : EffectJournal) (m : act unit) : io EffectJournal := fun w =>
  match m (j, w) with
  | (Ok _, (j, w)) => (Ok j, w)
  | (Throw e, (_, w)) => (Throw e, w)
  end.

Definition create_journal (s : Journal.TransactionSpec) (context : string) (injector : FaultInjector)
    : io EffectJournal :=
  w ← get;
  lift (validate_context (cwd w) s context);;
  v ← lift (parse context default_limits);
  hash ← lift (sha256_canonical v);
  directory ← effect_directory s;
  RecordIo.require_safe_directory (parent_path directory);;
  create_directory_exclusive (parent_path directory) (Path.filename directory);;
  identity ← observe_directory_identity directory;
  constructing (mk_journal s injector directory identity hash EmptyString EmptyString 0 0 0 false false)
    (persist "context" (make_object [
      ("source_context", string_value context); ("directory_identity", string_value identity)])).

Definition resume (s : Journal.TransactionSpec) (expected history : string) (injector : FaultInjector)
    : io EffectJournal :=
  inspected ← inspect s expected false;
  if negb (digest history) || negb (String.eqb (journal_digest inspected) history) || sealed inspected
  then fail "maintenance continuation snapshot changed or is sealed"
  else
    directory ← effect_directory s;
    ret (mk_journal s injector directory (directory_identity inspected) (source_digest inspected)
      (journal_digest inspected) (pending_kind inspected) (pending_sequence inspected)
      (next_sequence inspected) (serialized_bytes inspected) false false).

End Maintenance.
