(* ===== verification/Session.v ===== *)
(** The transaction session: the class [TransactionSession] of
    [runtime/setup/transaction/usk_transaction_session.{h,cpp}], its state and
    every member function that changes it.  A member function is a computation
    on the session object and the host; the object survives an exception, as in
    the sources.  The readers that reopen a journal are in [Recovery]. *)

From Stdlib Require Import Ascii String NArith ZArith Lia.
From stdpp Require Import base list strings gmap sets.
From S2P Require Import Prelude Sha256 StdMap Json Path Effects World RecordIo StreamJournal.
From S2P Require Import Journal SessionHost.

Module Session.
Import Path Effects World Journal SessionHost.

(** ** The object *)

Record TransactionSession := mk_session {
  spec_ : TransactionSpec;
  injector_ : FaultInjector;
  staging_root_ : path;
  journal_path_ : path;
  created_at_ : string;
  current_state_ : string;
  staging_identity_ : string;
  retain_stream_cleanup_ : bool;
  retain_commit_cleanup_ : bool;
  maintenance_finalization_ : bool;
  verified_closure_ : CommitClosureObservation;
  stream_journal_ : StreamJournal.StreamJournal;
  staging_parent_identity_ : string;
  target_parent_identity_ : string;
  journal_directory_identity_ : string;
  persisted_journal_sha256_ : string;
  transitions_ : list Transition;
  staged_files_ : list StagedFile }.

Definition set_chain (state : string) (chain : list Transition) (s : TransactionSession) : TransactionSession :=
  mk_session (spec_ s) (injector_ s) (staging_root_ s) (journal_path_ s) (created_at_ s) state
    (staging_identity_ s) (retain_stream_cleanup_ s) (retain_commit_cleanup_ s)
    (maintenance_finalization_ s) (verified_closure_ s) (stream_journal_ s)
    (staging_parent_identity_ s) (target_parent_identity_ s) (journal_directory_identity_ s)
    (persisted_journal_sha256_ s) chain (staged_files_ s).
Definition set_staging_identity (identity : string) (s : TransactionSession) : TransactionSession :=
  mk_session (spec_ s) (injector_ s) (staging_root_ s) (journal_path_ s) (created_at_ s)
    (current_state_ s) identity (retain_stream_cleanup_ s) (retain_commit_cleanup_ s)
    (maintenance_finalization_ s) (verified_closure_ s) (stream_journal_ s)
    (staging_parent_identity_ s) (target_parent_identity_ s) (journal_directory_identity_ s)
    (persisted_journal_sha256_ s) (transitions_ s) (staged_files_ s).
Definition set_retain_stream (flag : bool) (s : TransactionSession) : TransactionSession :=
  mk_session (spec_ s) (injector_ s) (staging_root_ s) (journal_path_ s) (created_at_ s)
    (current_state_ s) (staging_identity_ s) flag (retain_commit_cleanup_ s)
    (maintenance_finalization_ s) (verified_closure_ s) (stream_journal_ s)
    (staging_parent_identity_ s) (target_parent_identity_ s) (journal_directory_identity_ s)
    (persisted_journal_sha256_ s) (transitions_ s) (staged_files_ s).
Definition set_retain_commit (flag : bool) (s : TransactionSession) : TransactionSession :=
  mk_session (spec_ s) (injector_ s) (staging_root_ s) (journal_path_ s) (created_at_ s)
    (current_state_ s) (staging_identity_ s) (retain_stream_cleanup_ s) flag
    (maintenance_finalization_ s) (verified_closure_ s) (stream_journal_ s)
    (staging_parent_identity_ s) (target_parent_identity_ s) (journal_directory_identity_ s)
    (persisted_journal_sha256_ s) (transitions_ s) (staged_files_ s).
Definition set_maintenance (flag : bool) (s : TransactionSession) : TransactionSession :=
  mk_session (spec_ s) (injector_ s) (staging_root_ s) (journal_path_ s) (created_at_ s)
    (current_state_ s) (staging_identity_ s) (retain_stream_cleanup_ s) (retain_commit_cleanup_
    s) flag (verified_closure_ s) (stream_journal_ s) (staging_parent_identity_ s)
    (target_parent_identity_ s) (journal_directory_identity_ s) (persisted_journal_sha256_ s)
    (transitions_ s) (staged_files_ s).
Definition set_closure (closure : CommitClosureObservation) (s : TransactionSession) : TransactionSession :=
  mk_session (spec_ s) (injector_ s) (staging_root_ s) (journal_path_ s) (created_at_ s)
    (current_state_ s) (staging_identity_ s) (retain_stream_cleanup_ s) (retain_commit_cleanup_
    s) (maintenance_finalization_ s) closure (stream_journal_ s) (staging_parent_identity_ s)
    (target_parent_identity_ s) (journal_directory_identity_ s) (persisted_journal_sha256_ s)
    (transitions_ s) (staged_files_ s).
Definition set_stream (stream : StreamJournal.StreamJournal) (s : TransactionSession) : TransactionSession :=
  mk_session (spec_ s) (injector_ s) (staging_root_ s) (journal_path_ s) (created_at_ s)
    (current_state_ s) (staging_identity_ s) (retain_stream_cleanup_ s) (retain_commit_cleanup_
    s) (maintenance_finalization_ s) (verified_closure_ s) stream (staging_parent_identity_ s)
    (target_parent_identity_ s) (journal_directory_identity_ s) (persisted_journal_sha256_ s)
    (transitions_ s) (staged_files_ s).
Definition set_identities (staging : string) (target : string) (journal : string) (s : TransactionSession) : TransactionSession :=
  mk_session (spec_ s) (injector_ s) (staging_root_ s) (journal_path_ s) (created_at_ s)
    (current_state_ s) (staging_identity_ s) (retain_stream_cleanup_ s) (retain_commit_cleanup_
    s) (maintenance_finalization_ s) (verified_closure_ s) (stream_journal_ s) staging target
    journal (persisted_journal_sha256_ s) (transitions_ s) (staged_files_ s).
Definition set_staged_files (files : list StagedFile) (s : TransactionSession) : TransactionSession :=
  mk_session (spec_ s) (injector_ s) (staging_root_ s) (journal_path_ s) (created_at_ s)
    (current_state_ s) (staging_identity_ s) (retain_stream_cleanup_ s) (retain_commit_cleanup_
    s) (maintenance_finalization_ s) (verified_closure_ s) (stream_journal_ s)
    (staging_parent_identity_ s) (target_parent_identity_ s) (journal_directory_identity_ s)
    (persisted_journal_sha256_ s) (transitions_ s) files.

Definition act (A : Type) : Type := M (TransactionSession * world) A.

Definition this : act TransactionSession := s ← get; ret (fst s).
Definition update (f : TransactionSession → TransactionSession) : act unit :=
  modify (fun s => (f (fst s), snd s)).
Definition host {A} (m : io A) : act A := on_snd m.

(** What [render_journal] reads. *)
Definition content (s : TransactionSession) : JournalContent :=
  mk_content (spec_ s) (staging_root_ s) (created_at_ s) (current_state_ s) (staging_identity_ s)
    (retain_stream_cleanup_ s) (retain_commit_cleanup_ s) (stream_journal_ s) (transitions_ s)
    (staged_files_ s).

(** [if (injector_) injector_(state, point)]. *)
Definition notify (state point : string) : act unit :=
  s ← this; host (inject (injector_ s) state point).

(** [injector_(current_state_, point)]. *)
Definition notify_here (point : string) : act unit :=
  s ← this; notify (current_state_ s) point.

(** ** Persistence *)

Definition persist_journal (sequence : N) (first : bool) : act unit :=
  s ← this;
  text ← lift (render_journal (content s));
  host (atomic_write_journal (journal_path_ s) text sequence first).

Definition last_sequence (s : TransactionSession) : N :=
  match last (transitions_ s) with Some t => sequence t | None => 0 end.

Definition require_journal_directory : act unit :=
  s ← this;
  identity ← host (directory_identity (parent_path (journal_path_ s)));
  when (negb (String.eqb identity (journal_directory_identity_ s)))
    (fail "transaction journal directory identity changed").

Definition push_transition (next recorded : string) (s : TransactionSession) : TransactionSession :=
  set_chain next (transitions_ s ++
    [mk_transition (N.of_nat (length (transitions_ s))) (current_state_ s) next recorded]) s.

(** [current_state_ = previous; transitions_.pop_back();]. *)
Definition pop_transition (previous : string) (s : TransactionSession) : TransactionSession :=
  set_chain previous (removelast (transitions_ s)) s.

Definition persist_transition (next_state : string) : act unit :=
  s ← this;
  if negb (valid_transition (current_state_ s) next_state)
  then raise (logic_error "invalid setup transaction state transition")
  else
    notify next_state "before_journal";;
    recorded ← host iso8601_now;
    update (push_transition next_state recorded);;
    on_exception (
        s ← this;
        let first := (length (transitions_ s) =? 1)%nat in
        when (negb first) require_journal_directory;;
        persist_journal (last_sequence s) first)
      (update (pop_transition (current_state_ s)));;
    notify next_state "after_journal".

Definition persist_snapshot : act unit :=
  s ← this;
  if (length (transitions_ s) =? 0)%nat then fail "transaction journal directory identity changed"
  else
    require_journal_directory;;
    persist_journal (last_sequence s + 1) false.

(** ** Roots *)

Definition verify_roots_for_plan : act unit :=
  s ← this;
  let spec := spec_ s in
  host (require_safe_directory (staging_parent spec));;
  host (require_safe_directory (parent_path (target_root spec)));;
  host (require_safe_directory (state_root spec));;
  host (require_safe_directory (state_root spec /+ "transactions"));;
  host (require_safe_directory (audit_root spec));;
  occupied ← host (or_m (exists_ (target_root spec)) (exists_ (staging_root_ s)));
  when occupied (fail "target and transaction staging roots must not already exist");;
  lift (require_disjoint (target_root spec) (state_root spec));;
  lift (require_disjoint (target_root spec) (audit_root spec));;
  lift (require_disjoint (state_root spec) (audit_root spec));;
  when (String.eqb (comparable_path (staging_root_ s)) (comparable_path (target_root spec)))
    (fail "staging and target roots must be distinct");;
  staging_volume ← host (volume_identity (staging_parent spec));
  target_volume ← host (volume_identity (parent_path (target_root spec)));
  when (negb (String.eqb staging_volume target_volume))
    (fail "WU4 supports same-volume no-replace commit only");;
  staging ← host (directory_identity (staging_parent spec));
  target ← host (directory_identity (parent_path (target_root spec)));
  journal ← host (directory_identity (state_root spec /+ "transactions"));
  update (set_identities staging target journal).

Definition with_publication_root (identity : string) (j : StreamJournal.StreamJournal)
    : StreamJournal.StreamJournal :=
  StreamJournal.mk_stream (StreamJournal.source_digest j) (StreamJournal.source_context j) identity
    (StreamJournal.origin_transaction_id j) (StreamJournal.origin_snapshot_sha256 j)
    (StreamJournal.entries j) (StreamJournal.present j).

Definition create_staging_root : act unit :=
  s ← this;
  bad ← or_m (identity ← host (directory_identity (staging_parent (spec_ s)));
              ret (negb (String.eqb identity (staging_parent_identity_ s))))
    (host (exists_ (staging_root_ s)));
  when bad (fail "staging parent changed or staging root now exists");;
  ok ← host (create_directory (staging_root_ s));
  when (negb ok) (fail "cannot exclusively create setup-owned staging root");;
  identity ← host (directory_identity (staging_root_ s));
  update (set_staging_identity identity);;
  update (fun s => if StreamJournal.present (stream_journal_ s)
    then set_stream (with_publication_root identity (stream_journal_ s)) s else s);;
  persist_snapshot;;
  notify_here "after_staging_create".

Definition verify_staging_identity : act unit :=
  s ← this;
  bad ← or_m (or_m (ret (is_empty (staging_identity_ s)))
      (identity ← host (directory_identity (staging_root_ s));
       ret (negb (String.eqb identity (staging_identity_ s)))))
    (identity ← host (directory_identity (staging_parent (spec_ s)));
     ret (negb (String.eqb identity (staging_parent_identity_ s))));
  when bad (fail "setup-owned staging root identity changed").

(** ** The recorded staging closure *)

(** [for (parent = file.parent_path(); parent != staging_root_; parent =
    parent.parent_path())]: the parents visited. *)
Fixpoint parents_up (fuel : nat) (stop parent : path) : result (list path) :=
  if path_eqb parent stop then Ok []
  else match fuel with
  | O => Throw out_of_fuel
  | S fuel => rest ← parents_up fuel stop (parent_path parent); Ok (parent :: rest)
  end.

Definition parents_below (stop file : path) : result (list path) :=
  parents_up (String.length file) stop (parent_path file).

Definition verify_recorded_file (file : path) (recorded : StagedFile) : io unit :=
  actual ← StableFile.open_stable file;
  bad ← or_m (ret (negb (StableFile.size_bytes (StableFile.identity_ actual) =? size_bytes recorded)))
    (hash ← StableFile.sha256_hex actual; ret (negb (String.eqb hash (sha256 recorded))));
  when bad (fail "rollback refuses changed setup-owned staging content");;
  StableFile.verify_unchanged actual.

Definition expect_recorded (staging : path) (st : list string * list string) (recorded : StagedFile)
    : io (list string * list string) :=
  let '(files, directories) := st in
  let file := staging /+ relative_path recorded in
  verify_recorded_file file recorded;;
  parents ← lift (parents_below staging file);
  ret (fst (StdMap.set_insert (comparable_path file) files),
       fold_left (fun d p => fst (StdMap.set_insert (comparable_path p) d)) parents directories).

Definition check_staged_entry (files directories : list string) (entry : path * kind) : result unit :=
  let comparable := comparable_path (fst entry) in
  match snd entry with
  | symlink _ => throw "rollback retains linked staging content"
  | directory => throw_if (negb (StdMap.set_mem comparable directories))
      "rollback retains a foreign staging directory"
  | regular _ => throw_if (negb (StdMap.set_mem comparable files))
      "rollback retains foreign staging content"
  | special => throw "rollback retains foreign staging content"
  end.

Definition list_tree (p : path) : io (list (path * kind)) :=
  r ← list_recursive p;
  match r with
  | Some l => ret (map (fun e => (entry_path p (fst e), snd e)) l)
  | None => fail "filesystem error: recursive directory iterator cannot open directory"
  end.

Definition verify_recorded_staging_closure : act unit :=
  verify_staging_identity;;
  s ← this;
  '(files, directories) ← host (fold_eff (expect_recorded (staging_root_ s)) ([], []) (staged_files_ s));
  entries ← host (list_tree (staging_root_ s));
  for_each entries (fun e => lift (check_staged_entry files directories e)).

(** The order of [std::sort]: longer native texts first, then by generic text. *)
Definition deeper (left right : path) : bool :=
  if negb (size left =? size right) then size right <? size left
  else string_ltb (generic_string left) (generic_string right).

Fixpoint insert_directory (p : path) (l : list path) : list path :=
  match l with
  | [] => [p]
  | q :: l => if deeper q p then q :: insert_directory p l else p :: q :: l
  end.

(** [std::unique]: drop what equals its predecessor. *)
Fixpoint unique_paths (l : list path) : list path :=
  match l with
  | p :: rest =>
    match rest with
    | q :: _ => if path_eqb p q then unique_paths rest else p :: unique_paths rest
    | [] => [p]
    end
  | [] => []
  end.

Definition removal_order (l : list path) : list path :=
  unique_paths (fold_right insert_directory [] l).

Definition remove_recorded_file (staging : path) (directories : list path) (recorded : StagedFile)
    : io (list path) :=
  let file := staging /+ relative_path recorded in
  verify_recorded_file file recorded;;
  ok ← remove file;
  when (negb ok) (fail "rollback cannot remove a recorded staged file");;
  parents ← lift (parents_below staging file);
  ret (directories ++ parents).

Definition remove_recorded_directory (p : path) : io unit :=
  require_safe_directory p;;
  ok ← remove p;
  when (negb ok) (fail "rollback retains a staging directory containing foreign content").

Definition remove_recorded_staging_closure : act unit :=
  s ← this;
  if retain_stream_cleanup_ s || retain_commit_cleanup_ s
  then fail "streamed staging is retained; automatic rollback has no deletion authority"
  else
    verify_recorded_staging_closure;;
    directories ← host (fold_eff (remove_recorded_file (staging_root_ s)) [] (staged_files_ s));
    host (for_each (removal_order directories) remove_recorded_directory);;
    verify_staging_identity;;
    ok ← host (remove (staging_root_ s));
    when (negb ok) (fail "rollback retains a staging root containing foreign content").

(** ** Staging a file *)

Definition duplicated (files : list StagedFile) (p : path) : bool :=
  existsb (fun f => String.eqb (lowercase (generic_string (relative_path f)))
    (lowercase (generic_string p))) files.

(** The loop over the components but the last. *)
Fixpoint ensure_parents (current : path) (components : list string) (what : string) : io unit :=
  match components with
  | [] => ret tt
  | c :: components =>
    let current := current /+ c in
    present ← exists_ current;
    when (negb present) (ok ← create_directory current; when (negb ok) (fail what));;
    require_safe_directory current;;
    ensure_parents current components what
  end.

Definition add_staged (f : StagedFile) (s : TransactionSession) : TransactionSession :=
  set_staged_files (staged_files_ s ++ [f]) s.

Definition stage_file (p : path) (bytes : string) : act unit :=
  s ← this;
  if negb (String.eqb (current_state_ s) "staging") || negb (safe_relative_path p)
  then fail "staged file path or transaction state is invalid"
  else if duplicated (staged_files_ s) p then fail "staged file path is duplicated"
  else
    verify_staging_identity;;
    host (ensure_parents (staging_root_ s) (removelast (components p)) "cannot create owned staging directory");;
    notify_here "before_stage_file";;
    host (write_new_durable_file (staging_root_ s /+ p) bytes);;
    hash ← lift (sha256_text bytes);
    update (add_staged (mk_staged p hash (size bytes)));;
    persist_snapshot;;
    notify_here "after_stage_file".

(** ** Staging a stream

    [StreamReader]: the number of the call, the caller's buffer, and the slice it
    is given as offset and capacity; the answer is the count it returns and the
    buffer as it leaves it.  A reader may have kept earlier slices, so it may
    change any byte of the buffer, but not its size. *)

Definition StreamReader : Type := nat → string → N → N → result (N * string).

Definition resize (n : nat) (s : string) : string :=
  str_take n s +:+ String.concat EmptyString (repeat (String Ascii.zero EmptyString) (n - String.length s)).

Definition call_reader (reader : StreamReader) (calls : nat) (buffer : string) (offset capacity : N)
    : result (N * string) :=
  '(read, buffer') ← reader calls buffer offset capacity;
  Ok (read, resize (String.length buffer) buffer').

Record StreamStageResult := mk_stage_result {
  result_sha256 : string;
  result_size : N;
  peak_buffer_bytes : N }.

Definition map_last {A} (f : A → A) (l : list A) : list A :=
  match last l with Some x => removelast l ++ [f x] | None => l end.

Definition with_entries (l : list StreamJournal.StreamEntryObservation) (j : StreamJournal.StreamJournal)
    : StreamJournal.StreamJournal :=
  StreamJournal.mk_stream (StreamJournal.source_digest j) (StreamJournal.source_context j)
    (StreamJournal.publication_root_identity j) (StreamJournal.origin_transaction_id j)
    (StreamJournal.origin_snapshot_sha256 j) l (StreamJournal.present j).

(** [stream_journal_.present = true; stream_journal_.publication_root_identity = identity;]. *)
Definition establish_stream (identity : string) (j : StreamJournal.StreamJournal) : StreamJournal.StreamJournal :=
  StreamJournal.mk_stream (StreamJournal.source_digest j) (StreamJournal.source_context j) identity
    (StreamJournal.origin_transaction_id j) (StreamJournal.origin_snapshot_sha256 j)
    (StreamJournal.entries j) true.

Definition observe_last (f : StreamJournal.StreamEntryObservation → StreamJournal.StreamEntryObservation)
    : act unit :=
  update (fun s => set_stream
    (with_entries (map_last f (StreamJournal.entries (stream_journal_ s))) (stream_journal_ s)) s).

Definition entry_writing (identity : string) (e : StreamJournal.StreamEntryObservation) :=
  StreamJournal.mk_entry (StreamJournal.relative_path e) (StreamJournal.sha256 e)
    (StreamJournal.expected_size e) (StreamJournal.source_identity_digest e) "writing" identity.
Definition entry_complete (e : StreamJournal.StreamEntryObservation) :=
  StreamJournal.mk_entry (StreamJournal.relative_path e) (StreamJournal.sha256 e)
    (StreamJournal.expected_size e) (StreamJournal.source_identity_digest e) "complete"
    (StreamJournal.output_identity e).

Definition output_identity (descriptor : N) : io string :=
  info ← fstat descriptor;
  match info with
  | Some (x, links) => lift (StreamJournal.stream_output_identity descriptor x links)
  | None => fail "stream output descriptor identity is invalid"
  end.

(** The [do ... while] that fills one batch: calls, buffer, count. *)
Definition read_round (reader : StreamReader) (buffer_bytes expected_size total : N) (batching : bool)
    (st : nat * string * N) : act ((nat * string * N) + (nat * string * N)) :=
  let '(calls, buffer, count) := st in
  notify_here "before_stream_read";;
  let remaining := expected_size - total - count in
  let capacity := N.min (N.min buffer_bytes (size buffer - count)) remaining in
  '(read, buffer) ← lift (call_reader reader calls buffer count capacity);
  when ((read =? 0) || (capacity <? read)) (fail "streamed source returned a short or oversized read");;
  notify_here "after_stream_read";;
  let count := count + read in
  ret (if batching && (count <? size buffer) && (total + count <? expected_size)
       then inl (S calls, buffer, count) else inr (S calls, buffer, count)).

(** [while (written_total < count)]: every write takes at least one byte. *)
Fixpoint stream_write (fuel : nat) (descriptor : N) (data : string) : act unit :=
  match data with
  | EmptyString => ret tt
  | _ =>
    match fuel with
    | O => raise out_of_fuel
    | S fuel =>
      notify_here "before_stream_write";;
      r ← host (write_some descriptor data);
      match r with
      | None => fail "cannot write streamed transaction file"
      | Some written =>
        notify_here "after_stream_write";;
        stream_write fuel descriptor (str_drop written data)
      end
    end
  end.

(** [while (total < expected_size)]: calls, buffer, digest, total.  A batch is
    at most the 4 MiB buffer, and each of its rounds reads a byte. *)
Definition stream_round (reader : StreamReader) (descriptor buffer_bytes expected_size : N) (batching : bool)
    (st : nat * string * Sha256.Sha256 * N)
    : act ((nat * string * Sha256.Sha256 * N) + (nat * string * Sha256.Sha256 * N)) :=
  let '(calls, buffer, digest, total) := st in
  if negb (total <? expected_size) then ret (inr st)
  else
    '(calls, buffer, count) ← loop 23 (read_round reader buffer_bytes expected_size total batching)
      (calls, buffer, 0);
    let batch := str_take (N.to_nat count) buffer in
    digest ← lift (Sha256.update digest batch);
    stream_write (String.length batch) descriptor batch;;
    ret (inl (calls, buffer, digest, total + count)).

(** The [try] block.  Every round of the outer loop moves [total], a 64-bit
    number, by at least one. *)
Definition stream_body (p : path) (expected_size : N) (expected_sha256 : string)
    (buffer_bytes : N) (reader : StreamReader) (write_buffer_bytes : N) : act StreamStageResult :=
  s ← this;
  notify_here "before_stage_stream";;
  h ← host (create_exclusive (staging_root_ s /+ p));
  match h with
  | None => fail "cannot exclusively create streamed transaction file"
  | Some descriptor =>
    identity ← host (output_identity descriptor);
    observe_last (entry_writing identity);;
    persist_snapshot;;
    notify_here "after_stream_open";;
    let capacity := if write_buffer_bytes =? 0 then buffer_bytes else write_buffer_bytes in
    let buffer := resize (N.to_nat capacity) EmptyString in
    '(calls, _, digest, total) ← loop 64
      (stream_round reader descriptor buffer_bytes expected_size (negb (write_buffer_bytes =? 0)))
      (0%nat, buffer, Sha256.initial, 0);
    '(extra, _) ← lift (call_reader reader calls (String Ascii.zero EmptyString) 0 1);
    when (negb (extra =? 0)) (fail "streamed source exceeded its reviewed size");;
    notify_here "before_stream_finalize";;
    flushed ← host fsync;
    now_identity ← host (output_identity descriptor);
    when (negb (String.eqb now_identity identity)) (fail "stream output descriptor identity changed");;
    failed ← host step;
    when (negb flushed || failed) (fail "cannot flush streamed transaction file");;
    '(actual_sha256, _) ← lift (Sha256.finish digest);
    when (negb (total =? expected_size) || negb (String.eqb actual_sha256 expected_sha256))
      (fail "streamed staged file integrity changed");;
    observe_last entry_complete;;
    update (add_staged (mk_staged p actual_sha256 total));;
    persist_snapshot;;
    notify_here "after_stage_stream";;
    ret (mk_stage_result actual_sha256 total capacity)
  end.

Definition four_mib : N := 4 * 1024 * 1024.

Definition stream_request_valid (s : TransactionSession) (p : path) (expected_sha256 : string)
    (buffer_bytes : N) (source_identity_digest : string) (write_buffer_bytes : N) : bool :=
  String.eqb (current_state_ s) "staging" && safe_relative_path p && valid_sha256 expected_sha256 &&
  (4096 <=? buffer_bytes) && (buffer_bytes <=? four_mib) &&
  ((write_buffer_bytes =? 0) || ((buffer_bytes <=? write_buffer_bytes) && (write_buffer_bytes <=? four_mib))) &&
  (is_empty source_identity_digest || valid_sha256 source_identity_digest).

Definition last_incomplete (l : list StreamJournal.StreamEntryObservation) : bool :=
  match last l with Some e => negb (String.eqb (StreamJournal.phase e) "complete") | None => false end.

Definition add_intent (e : StreamJournal.StreamEntryObservation) (s : TransactionSession) : TransactionSession :=
  set_stream (with_entries (StreamJournal.entries (stream_journal_ s) ++ [e]) (stream_journal_ s)) s.

Definition stage_file_stream (p : path) (expected_size : N) (expected_sha256 : string)
    (buffer_bytes : N) (reader : option StreamReader) (source_identity_digest : string)
    (write_buffer_bytes : N) : act StreamStageResult :=
  s ← this;
  match reader with
  | None => fail "streamed staged file request is invalid"
  | Some reader =>
    if negb (stream_request_valid s p expected_sha256 buffer_bytes source_identity_digest write_buffer_bytes)
    then fail "streamed staged file request is invalid"
    else if duplicated (staged_files_ s) p then fail "streamed staged file path is duplicated"
    else
      verify_staging_identity;;
      update (set_retain_stream true);;
      update (fun s => set_stream (establish_stream (staging_identity_ s) (stream_journal_ s)) s);;
      s ← this;
      if (100000 <=? N.of_nat (length (StreamJournal.entries (stream_journal_ s)))) ||
         last_incomplete (StreamJournal.entries (stream_journal_ s))
      then fail "stream journal has an incomplete entry or exceeds its entry bound"
      else
        update (add_intent (StreamJournal.mk_entry (generic_string p) expected_sha256 expected_size
          (if is_empty source_identity_digest then plan_digest (spec_ s) else source_identity_digest)
          "intent" EmptyString));;
        persist_snapshot;;
        notify_here "after_stream_intent";;
        host (ensure_parents (staging_root_ s) (removelast (components p))
          "cannot create owned streaming staging directory");;
        on_exception
          (stream_body p expected_size expected_sha256 buffer_bytes reader write_buffer_bytes)
          (ignore_errors (persist_transition "recovery_required"))
  end.

(** [source_context.size() > 16384u || canonical(parse(source_context)) !=
    source_context || sha256_canonical(parse(source_context)) != source_digest]. *)
Definition context_differs (source_digest source_context : string) : result bool :=
  Ok (16384 <? size source_context) |||
  (v ← Json.parse source_context Json.default_limits; Ok (negb (String.eqb (Json.canonical v) source_context))) |||
  (v ← Json.parse source_context Json.default_limits; h ← Json.sha256_canonical v;
   Ok (negb (String.eqb h source_digest))).

Definition with_source (source_digest source_context identity : string) (j : StreamJournal.StreamJournal)
    : StreamJournal.StreamJournal :=
  StreamJournal.mk_stream source_digest source_context identity
    (StreamJournal.origin_transaction_id j) (StreamJournal.origin_snapshot_sha256 j)
    (StreamJournal.entries j) (StreamJournal.present j).

Definition bind_stream_source (source_digest source_context : string) : act unit :=
  s ← this;
  let j := stream_journal_ s in
  if negb (String.eqb (current_state_ s) "staging") || negb (valid_sha256 source_digest) ||
     negb (length (StreamJournal.entries j) =? 0)%nat ||
     (negb (is_empty (StreamJournal.source_digest j)) &&
      negb (String.eqb (StreamJournal.source_digest j) source_digest))
  then fail "stream source binding changed or is too late"
  else
    update (set_retain_stream true);;
    update (fun s => set_stream (establish_stream
      (StreamJournal.publication_root_identity (stream_journal_ s)) (stream_journal_ s)) s);;
    bad ← lift (Ok (negb (is_empty source_context)) &&& context_differs source_digest source_context);
    when bad (fail "stream source context does not match its source digest");;
    update (fun s => set_stream
      (with_source source_digest source_context (staging_identity_ s) (stream_journal_ s)) s);;
    persist_snapshot.

(** ** The phases *)

Definition mark_staged : act unit :=
  s ← this;
  if negb (String.eqb (current_state_ s) "staging") || (length (staged_files_ s) =? 0)%nat ||
     existsb (fun e => negb (String.eqb (StreamJournal.phase e) "complete"))
       (StreamJournal.entries (stream_journal_ s))
  then fail "transaction cannot become staged without staged files"
  else
    verify_staging_identity;;
    persist_transition "staged".

Definition closure_file (entries : list StreamJournal.StreamEntryObservation) (f : StagedFile)
    : result CommitClosureFile :=
  match List.find (fun e => String.eqb (StreamJournal.relative_path e) (generic_string (relative_path f))) entries with
  | Some e =>
    throw_if (negb (String.eqb (StreamJournal.phase e) "complete")) "stream child is incomplete";;
    Ok (mk_closure_file (relative_path f) (sha256 f) (size_bytes f) (StreamJournal.output_identity e))
  | None => Ok (mk_closure_file (relative_path f) (sha256 f) (size_bytes f) EmptyString)
  end.

Definition observe_staged_commit_closure : act CommitClosureObservation :=
  verify_staging_identity;;
  s ← this;
  files ← lift (map_result (closure_file (StreamJournal.entries (stream_journal_ s))) (staged_files_ s));
  host (observe_commit_closure (staging_root_ s) files).

Definition mark_verified : act unit :=
  s ← this;
  if negb (String.eqb (current_state_ s) "staged") then fail "only a staged transaction can be verified"
  else
    closure ← observe_staged_commit_closure;
    update (set_closure closure);;
    persist_transition "verified".

Definition require_authority : act unit :=
  s ← this; lift (require_commit_authority (required_commit_authority (spec_ s))).

(** [directory_identity(target parent) != target_parent_identity_ || fs::exists(target)]. *)
Definition target_changed : act bool :=
  s ← this;
  or_m (identity ← host (directory_identity (parent_path (target_root (spec_ s))));
        ret (negb (String.eqb identity (target_parent_identity_ s))))
    (host (exists_ (target_root (spec_ s)))).

Definition require_unchanged_closure : act unit :=
  s ← this;
  bad ← or_m (ret (length (verified_closure_ s) =? 0)%nat)
    (closure ← observe_staged_commit_closure;
     ret (negb (bool_decide (closure = verified_closure_ s))));
  when bad (fail "commit preparation refuses a changed verified closure").

(** [try { persist_transition("recovery_required"); } catch (...) {}]. *)
Definition note_recovery : act unit := ignore_errors (persist_transition "recovery_required").

Definition commit_effect : act unit :=
  s ← this;
  if negb (String.eqb (current_state_ s) "verified") then fail "only a verified transaction can commit"
  else
    verify_staging_identity;;
    changed ← target_changed;
    when changed (persist_transition "refused";;
      fail "target changed or now exists; reviewed plan is invalid");;
    update (set_retain_commit true);;
    persist_snapshot;;
    on_exception (require_authority;; require_unchanged_closure) note_recovery;;
    notify_here "after_commit_preparation_observation";;
    persist_transition "committing";;
    verify_staging_identity;;
    changed ← target_changed;
    when changed (persist_transition "recovery_required";;
      fail "target changed immediately before no-replace commit");;
    on_exception (host (rename_directory_no_replace (staging_root_ s) (target_root (spec_ s)))) note_recovery;;
    notify_here "after_commit_effect".

(** [fs::exists(staging_root_) || !fs::is_directory(target) || reparse_or_symlink(target)]. *)
Definition target_not_visible (s : TransactionSession) : io bool :=
  or_m (or_m (exists_ (staging_root_ s)) (not_m (is_directory (target_root (spec_ s)))))
    (reparse_or_symlink (target_root (spec_ s))).

Definition mark_committed : act unit :=
  require_authority;;
  s ← this;
  bad ← or_m (ret (negb (String.eqb (current_state_ s) "committing")))
    (and_m (ret (negb (maintenance_finalization_ s))) (host (target_not_visible s)));
  when bad (fail "transaction commit effect is not present and stable");;
  persist_transition "committed".

Definition mark_completed : act unit :=
  require_authority;;
  s ← this;
  when (negb (String.eqb (current_state_ s) "committed")) (fail "only a committed transaction can complete");;
  persist_transition "completed".

Definition mark_recovery_required : act unit :=
  s ← this;
  when (negb (any_of (current_state_ s) ["committing"; "committed"]))
    (fail "transaction state cannot require finalization recovery");;
  persist_transition "recovery_required".

Definition resume_committing : act unit :=
  require_authority;;
  s ← this;
  bad ← or_m (ret (negb (String.eqb (current_state_ s) "recovery_required")))
    (and_m (ret (negb (maintenance_finalization_ s))) (host (target_not_visible s)));
  when bad (fail "only visible-target recovery can resume finalization");;
  persist_transition "committing".

Definition commit : act unit :=
  commit_effect;;
  mark_committed;;
  mark_completed.

Definition rollback : act unit :=
  s ← this;
  when (negb (any_of (current_state_ s) ["staging"; "staged"; "verified"; "committing"; "recovery_required"]))
    (fail "transaction state cannot be rolled back safely");;
  visible ← host (exists_ (target_root (spec_ s)));
  when visible (fail "rollback refuses a transaction whose target is visible");;
  when (negb (String.eqb (current_state_ s) "recovery_required")) (persist_transition "recovery_required");;
  remove_recorded_staging_closure;;
  notify_here "after_rollback_effect";;
  persist_transition "rolled_back".

(** ** Construction *)

Definition spec_valid (s : TransactionSpec) : bool :=
  RecordIo.valid_identifier (transaction_id s) && RecordIo.valid_identifier (plan_id s) &&
  valid_sha256 (plan_digest s) &&
  any_of (operation s) ["install_local"; "repair"; "move"; "uninstall"; "recovery"].

Definition normalized_inspection_spec (s : TransactionSpec) : io TransactionSpec :=
  staging ← absolute_normal (staging_parent s);
  target ← absolute_normal (target_root s);
  state ← absolute_normal (state_root s);
  audit ← absolute_normal (audit_root s);
  ret (mk_spec (transaction_id s) (plan_id s) (plan_digest s) (operation s) staging target state audit
    (required_commit_authority s)).

(** The members before anything is persisted; [require_path_capacity] has no
    effect on this host. *)
Definition initial_session (s : TransactionSpec) (injector : FaultInjector) (stream : StreamJournal.StreamJournal)
    : io TransactionSession :=
  if negb (spec_valid s) then fail "transaction identity, digest, or operation is invalid"
  else
    s ← normalized_inspection_spec s;
    created ← iso8601_now;
    ret (mk_session s injector (staging_path s) (journal_file (state_root s) (transaction_id s)) created
      EmptyString EmptyString (StreamJournal.present stream)
      (bool_decide (required_commit_authority s = staged_child_bound_v1)) false [] stream
      EmptyString EmptyString EmptyString EmptyString [] []).

(** Run member functions on an object under construction. *)
Definition constructing (s : TransactionSession) (m : act unit) : io TransactionSession := fun w =>
  match m (s, w) with
  | (Ok _, (s, w)) => (Ok s, w)
  | (Throw e, (_, w)) => (Throw e, w)
  end.

Definition begin_body : act unit :=
  verify_roots_for_plan;;
  s ← this;
  occupied ← host (exists_ (journal_path_ s));
  when occupied (fail "transaction journal already exists; recovery inspection is required");;
  persist_transition "created";;
  persist_transition "validated";;
  persist_transition "planned";;
  persist_transition "staging";;
  create_staging_root.

(** The constructor with [ResumeMode::none]. *)
Definition begin_session (s : TransactionSpec) (injector : FaultInjector) (stream : StreamJournal.StreamJournal)
    : io TransactionSession :=
  initial ← initial_session s injector stream;
  constructing initial begin_body.

Definition begin_streaming (s : TransactionSpec) (source_digest source_context : string)
    (injector : FaultInjector) : io TransactionSession :=
  bad ← lift (Ok (negb (valid_sha256 source_digest) || is_empty source_context) |||
    context_differs source_digest source_context);
  when bad (fail "initial stream source context does not match its source digest");;
  begin_session s injector
    (StreamJournal.mk_stream source_digest source_context EmptyString EmptyString EmptyString [] true).

End Session.
