(* ===== verification/Recovery.v ===== *)
(** Reopening a transaction: the resuming constructor of [TransactionSession]
    and the static inspectors of
    [runtime/setup/transaction/usk_transaction_session.cpp]. *)

From Stdlib Require Import Ascii String NArith ZArith Lia.
From stdpp Require Import base list strings gmap sets.
From S2P Require Import Prelude Sha256 StdMap Json Path Effects World RecordIo StreamJournal.
From S2P Require Import Journal SessionHost Maintenance Session.

Module Recovery.
Import Json Path Effects World Journal SessionHost Session.

Inductive ResumeMode := finalization | rollback_mode | maintenance_finalization.

#[global] Instance mode_eq_dec : EqDecision ResumeMode.
Proof. solve_decision. Defined.

Definition four_mib : N := 4 * 1024 * 1024.

(** ** The resuming constructor: the document *)

(** The body of the loop over the transitions: the transitions read so far. *)
Definition resume_transition (id : string) (st : string * list Transition) (item : value)
    : result (string * list Transition) :=
  let '(prior, chain) := st in
  sequence ← StreamJournal.at_unsigned item "sequence";
  f ← at_ item "from";
  from ← StreamJournal.optional_string f;
  to ← at_string item "to";
  bad ← Ok (negb (sequence =? N.of_nat (length chain)) || negb (String.eqb from prior) ||
      negb (valid_transition from to)) |||
    differs item "transition_id" (id +:+ "." +:+ to_string sequence) |||
    (d ← at_ item "durable_before_external_visibility"; b ← as_boolean d; Ok (negb b));
  throw_if bad transition_chain_invalid;;
  recorded ← at_string item "recorded_at";
  Ok (to, chain ++ [mk_transition sequence from to recorded]).

(** What the constructor takes from the document before it observes the roots. *)
Record Loaded := mk_loaded {
  l_document : value;
  l_retain_commit : bool;
  l_created_at : string;
  l_state : string;
  l_chain : list Transition;
  l_retain_stream : bool;
  l_stream : StreamJournal.StreamJournal }.

Definition load_document (s : TransactionSpec) (text : string) : result Loaded :=
  document ← parse text journal_limits;
  bad ← journal_header_differs document s;
  throw_if bad "transaction journal does not bind the requested finalization";;
  validate_commit_requirement document (required_commit_authority s);;
  retain_commit ← retain_commit_cleanup document;
  check_roots document s (staging_path s)
    "transaction journal root authority does not match recovery inputs";;
  created ← at_string document "created_at";
  items ← StreamJournal.at_array document "transitions";
  '(prior, chain) ← fold_result (resume_transition (transaction_id s)) (EmptyString, []) items;
  hash ← sha256_text (chain_text chain);
  bad ← Ok (length chain =? 0)%nat ||| differs document "current_state" prior |||
    differs document "journal_digest" hash;
  throw_if bad "transaction journal digest or current state is invalid";;
  retain_stream ← retain_stream_cleanup document;
  stream ← StreamJournal.read_stream_journal document safe_relative_path;
  Ok (mk_loaded document retain_commit created prior chain retain_stream stream).

Definition load_staged (file : value) : result StagedFile :=
  relative ← at_string file "relative_path";
  hash ← at_string file "sha256";
  bytes ← StreamJournal.at_unsigned file "size_bytes";
  throw_if (negb (safe_relative_path relative) || negb (valid_sha256 hash))
    "transaction recovery metadata is invalid";;
  Ok (mk_staged relative hash bytes).

(** The staging identity and the staged files of the recovery metadata. *)
Definition load_metadata (document : value) : result (string * list StagedFile) :=
  members ← as_object document;
  if negb (StdMap.contains_key "recovery_metadata" members) then Ok (EmptyString, [])
  else
    metadata ← at_ document "recovery_metadata";
    i ← at_ metadata "staging_identity";
    identity ← StreamJournal.optional_string i;
    items ← StreamJournal.at_array metadata "staged_files";
    files ← map_result load_staged items;
    Ok (identity, files).

(** ** The resuming constructor: the candidates *)

Definition removes_operation_root (e : Maintenance.CompletedMaintenanceEffect) (identity : string)
    : result bool :=
  Ok (negb (String.eqb (Maintenance.kind e) "remove_directory") ||
      negb (String.eqb (Maintenance.outcome e) "applied")) |||
  differs (Maintenance.details e) "root_role" "operation_target" |||
  (p ← at_string (Maintenance.details e) "relative_path"; Ok (negb (is_empty p))) |||
  differs (Maintenance.details e) "native_identity" identity.

Definition maintenance_candidate : act unit :=
  s ← this;
  let stream := stream_journal_ s in
  let identity := StreamJournal.publication_root_identity stream in
  when (negb (Maintenance.maintenance_operation (operation (spec_ s))) ||
        negb (any_of (current_state_ s) ["committing"; "committed"; "recovery_required"; "completed"]))
    (fail "transaction is not a maintenance finalization candidate");;
  history ← host (Maintenance.inspect (spec_ s) (StreamJournal.source_digest stream) true);
  match last (Maintenance.completed history) with
  | None => fail "maintenance finalization has no sealed original history"
  | Some effect =>
    when (negb (Maintenance.sealed history) || negb (is_empty (Maintenance.pending_kind history)) ||
          negb (String.eqb (Maintenance.source_context history) (StreamJournal.source_context stream)) ||
          is_empty identity)
      (fail "maintenance finalization has no sealed original history");;
    absent ← host (genuinely_absent (staging_root_ s));
    when (negb absent) (fail "maintenance finalization staging is not genuinely absent");;
    (if negb (String.eqb (operation (spec_ s)) "move") then
       let was_committed := existsb (fun t => String.eqb (to t) "committed") (transitions_ s) in
       absent ← host (genuinely_absent (target_root (spec_ s)));
       bad ← lift (Ok (negb was_committed) ||| removes_operation_root effect identity ||| Ok (negb absent));
       when bad (fail "maintenance finalization lacks confirmed operation-root removal")
     else
       bad ← or_m (or_m (or_m (ret (negb (String.eqb (Maintenance.kind effect) "append_audit")))
           (host (not_m (is_directory (target_root (spec_ s))))))
           (host (reparse_or_symlink (target_root (spec_ s)))))
         (now ← host (directory_identity (target_root (spec_ s))); ret (negb (String.eqb now identity)));
       when bad (fail "move finalization lost its published root"));;
    update (set_maintenance true)
  end.

Definition finalization_candidate : act unit :=
  s ← this;
  bad ← or_m (ret (negb (any_of (current_state_ s) ["committing"; "committed"; "recovery_required"])))
    (host (target_not_visible s));
  when bad (fail "transaction is not a visible-target finalization candidate").

Definition rollback_candidate : act unit :=
  s ← this;
  bad ← or_m (or_m (or_m (or_m
        (ret (negb (any_of (current_state_ s)
          ["staging"; "staged"; "verified"; "committing"; "recovery_required"])))
        (host (not_m (is_directory (staging_root_ s)))))
        (host (reparse_or_symlink (staging_root_ s))))
        (host (exists_ (target_root (spec_ s)))))
      (ret (is_empty (staging_identity_ s) || retain_stream_cleanup_ s || retain_commit_cleanup_ s));
  when bad (fail "transaction is not a staged rollback candidate");;
  verify_recorded_staging_closure.

Definition resume_candidate (mode : ResumeMode) : act unit :=
  match mode with
  | maintenance_finalization => maintenance_candidate
  | finalization => finalization_candidate
  | rollback_mode => rollback_candidate
  end.

(** ** The resuming constructor *)

Definition require_resume_roots (s : TransactionSpec) : io unit :=
  require_safe_directory (staging_parent s);;
  require_safe_directory (parent_path (target_root s));;
  require_safe_directory (state_root s);;
  require_safe_directory (state_root s /+ "transactions");;
  require_safe_directory (audit_root s);;
  lift (require_disjoint (target_root s) (state_root s));;
  lift (require_disjoint (target_root s) (audit_root s));;
  lift (require_disjoint (state_root s) (audit_root s)).

Definition resume_session (input : TransactionSpec) (injector : FaultInjector) (mode : ResumeMode)
    : io TransactionSession :=
  initial ← initial_session input injector StreamJournal.empty_stream;
  let s := spec_ initial in
  when (negb (bool_decide (mode = rollback_mode)))
    (lift (require_commit_authority (required_commit_authority s)));;
  require_resume_roots s;;
  text ← read_bounded_text (journal_path_ initial) four_mib;
  persisted ← lift (sha256_text text);
  loaded ← lift (load_document s text);
  staging ← directory_identity (staging_parent s);
  target ← directory_identity (parent_path (target_root s));
  journal ← directory_identity (state_root s /+ "transactions");
  '(identity, files) ← lift (load_metadata (l_document loaded));
  constructing
    (mk_session s injector (staging_root_ initial) (journal_path_ initial) (l_created_at loaded)
      (l_state loaded) identity (l_retain_stream loaded) (l_retain_commit loaded) false []
      (l_stream loaded) staging target journal persisted (l_chain loaded) files)
    (resume_candidate mode).

Definition resume_rollback (s : TransactionSpec) (injector : FaultInjector) : io TransactionSession :=
  resume_session s injector rollback_mode.

Definition resume_finalization (s : TransactionSpec) (injector : FaultInjector) : io TransactionSession :=
  result ← resume_session s injector finalization;
  let identity := StreamJournal.publication_root_identity (stream_journal_ result) in
  bad ← and_m (ret (StreamJournal.present (stream_journal_ result)))
    (or_m (ret (is_empty identity))
      (now ← directory_identity (target_root (spec_ result)); ret (negb (String.eqb now identity))));
  when bad (fail "visible target publication identity changed or is unavailable");;
  ret result.

(** ** Inspection *)

Definition decode_journal_history (input : TransactionSpec) (text : string) : io TransactionJournalHistory :=
  s ← normalized_inspection_spec input; lift (journal_history s text).

Definition decode_completed_history (input : TransactionSpec) (text : string)
    : io CompletedTransactionHistory :=
  s ← normalized_inspection_spec input; lift (completed_history s text).

Definition with_observation (i : RecoveryInspection) (staging target : bool) (actions : list string)
    : RecoveryInspection :=
  mk_inspection (i_current_state i) (i_journal_digest i) (i_recorded_at i) (i_snapshot_sha256 i)
    (stream_source_digest i) (stream_source_context i) (publication_root_identity i)
    (restart_origin_transaction_id i) (restart_origin_snapshot_sha256 i) staging target
    (commit_started i) (commit_confirmed i) actions.

(** The [try] around [resume_rollback]. *)
Definition rollback_action (s : TransactionSpec) (retained : bool) : io (list string) :=
  otherwise
    (when retained (fail "streamed staging must be retained");;
     resume_rollback s None;;
     ret ["rollback"])
    (ret ["retain_for_operator"]).

(** The chain of [if] that selects [available_actions]. *)
Definition select_actions (s : TransactionSpec) (state : string) (changed retained : bool)
    (staging target : bool) : io (list string) :=
  if changed then ret ["retain_for_operator"]
  else if bool_decide (required_commit_authority s = staged_child_bound_v1) then ret ["retain_for_operator"]
  else if any_of state ["committing"; "committed"; "recovery_required"] && target && negb staging
  then ret ["resume"]
  else if any_of state ["staging"; "staged"; "verified"; "committing"; "recovery_required"] &&
          staging && negb target
  then rollback_action s retained
  else if any_of state ["created"; "validated"; "planned"; "staging"] && negb staging && negb target
  then ret ["abandon"]
  else if negb (any_of state ["completed"; "rolled_back"; "refused"]) then ret ["retain_for_operator"]
  else ret [].

Definition inspect_recovery_impl (input : TransactionSpec) (observe_payload : bool)
    : io RecoveryInspection :=
  s ← normalized_inspection_spec input;
  let staging := staging_path s in
  text ← read_bounded_text (journal_file (state_root s) (transaction_id s)) four_mib;
  metadata ← lift (decode_transaction_metadata s text);
  let result := inspection metadata in
  if negb observe_payload then
    when (negb (String.eqb (i_current_state result) "completed"))
      (fail "historical transaction journal is not completed");;
    ret result
  else
    staging_present ← exists_ staging;
    target_present ← exists_ (target_root s);
    linked ← and_m (ret staging_present) (reparse_or_symlink staging);
    when linked (fail "recovery staging root is linked or substituted");;
    linked ← and_m (ret target_present) (reparse_or_symlink (target_root s));
    when linked (fail "recovery target root is linked or substituted");;
    let identity := StreamJournal.publication_root_identity (m_stream metadata) in
    changed ← and_m (ret (target_present && negb (is_empty identity)))
      (now ← directory_identity (target_root s); ret (negb (String.eqb now identity)));
    actions ← select_actions s (i_current_state result) changed
      (retained_stream metadata || retained_commit metadata) staging_present target_present;
    ret (with_observation result staging_present target_present actions).

Definition inspect_recovery (input : TransactionSpec) : io RecoveryInspection :=
  inspect_recovery_impl input true.

Definition journal_of (s : TransactionSpec) : io path :=
  root ← absolute_normal (state_root s); ret (journal_file root (transaction_id s)).

Definition inspect_recovery_stream (s : TransactionSpec) (expected : string)
    : io StreamJournal.StreamJournal :=
  before ← inspect_recovery s;
  when (negb (valid_sha256 expected) || negb (String.eqb (i_snapshot_sha256 before) expected))
    (fail "recovery stream snapshot changed");;
  journal ← journal_of s;
  text ← read_bounded_text journal four_mib;
  hash ← lift (sha256_text text);
  when (negb (String.eqb hash expected)) (fail "recovery stream bytes changed");;
  document ← lift (parse text journal_limits);
  result ← lift (StreamJournal.read_stream_journal document safe_relative_path);
  after ← inspect_recovery s;
  when (negb (String.eqb (i_snapshot_sha256 after) expected)) (fail "recovery stream changed during inspection");;
  ret result.

Definition inspect_completed_history (s : TransactionSpec) : io CompletedTransactionHistory :=
  before ← inspect_recovery_impl s false;
  journal ← journal_of s;
  text ← read_bounded_text journal four_mib;
  hash ← lift (sha256_text text);
  when (negb (String.eqb hash (i_snapshot_sha256 before))) (fail "historical transaction bytes changed");;
  document ← lift (parse text journal_limits);
  stream ← lift (StreamJournal.read_stream_journal document safe_relative_path);
  after ← inspect_recovery_impl s false;
  when (negb (String.eqb (i_snapshot_sha256 after) (i_snapshot_sha256 before)))
    (fail "historical transaction changed during inspection");;
  ret (mk_completed (i_journal_digest before) (i_recorded_at before) (i_snapshot_sha256 before) stream).

(** ** Transition extensions of the journal on disk *)

Definition require_transition_extension_impl (s : TransactionSpec)
    (original_text original_snapshot expected_current : string) (completed : bool) : io unit :=
  bad ← lift (Ok ((four_mib <? size original_text) || negb (valid_sha256 original_snapshot) ||
      negb (valid_sha256 expected_current)) |||
    (h ← sha256_text original_text; Ok (negb (String.eqb h original_snapshot))));
  when bad (fail "maintenance original transaction snapshot is unavailable");;
  before ← inspect_recovery_impl s (negb completed);
  when (negb (String.eqb (i_snapshot_sha256 before) expected_current) || negb (commit_started before))
    (fail "maintenance current transaction snapshot changed");;
  journal ← journal_of s;
  current_text ← read_bounded_text journal four_mib;
  hash ← lift (sha256_text current_text);
  when (negb (String.eqb hash expected_current)) (fail "maintenance current transaction bytes changed");;
  lift (require_transition_extension_documents original_text current_text);;
  after ← inspect_recovery_impl s (negb completed);
  when (negb (String.eqb (i_snapshot_sha256 after) expected_current))
    (fail "maintenance transaction extension changed immutable fields or its snapshot").

Definition require_completed_transition_extension_bytes (input : TransactionSpec)
    (original_text original_snapshot current_text expected_current : string) : io unit :=
  s ← normalized_inspection_spec input;
  lift (completed_extension_bytes s original_text original_snapshot current_text expected_current).

(** ** Restarting a stream *)

Definition replayable (i : RecoveryInspection) : bool :=
  any_of (i_current_state i)
    ["created"; "validated"; "planned"; "staging"; "staged"; "verified"; "recovery_required"] &&
  negb (commit_started i) && negb (target_exists i) &&
  (staging_exists i || is_empty (publication_root_identity i)).

Definition with_transaction_id (id : string) (s : TransactionSpec) : TransactionSpec :=
  mk_spec id (plan_id s) (plan_digest s) (operation s) (staging_parent s) (target_root s) (state_root s)
    (audit_root s) (required_commit_authority s).

(** [for (depth = 0;; ++depth)] with the set [visited]; the source bounds it by 64. *)
Fixpoint walk_lineage (remaining : nat) (source_digest : string) (visited : list string)
    (s : TransactionSpec) (ancestor : RecoveryInspection) : io unit :=
  match remaining with
  | O => fail "stream restart lineage is cyclic or exceeds 64 journals"
  | S remaining =>
    let '(visited', inserted) := StdMap.set_insert (transaction_id s) visited in
    if negb inserted then fail "stream restart lineage is cyclic or exceeds 64 journals"
    else if negb (replayable ancestor) || negb (String.eqb (stream_source_digest ancestor) source_digest)
    then fail "stream restart refuses changed or uncertain ancestor state"
    else if is_empty (restart_origin_transaction_id ancestor) then ret tt
    else
      let s := with_transaction_id (restart_origin_transaction_id ancestor) s in
      next ← inspect_recovery s;
      when (negb (String.eqb (i_snapshot_sha256 next) (restart_origin_snapshot_sha256 ancestor)))
        (fail "stream restart ancestor journal snapshot changed");;
      walk_lineage remaining source_digest visited' s next
  end.

Definition restart_streaming (prior : TransactionSpec) (new_id expected source_digest : string)
    (injector : FaultInjector) : io TransactionSession :=
  when (negb (RecordIo.valid_identifier (transaction_id prior)) || negb (RecordIo.valid_identifier new_id) ||
        String.eqb new_id (transaction_id prior) || negb (valid_sha256 expected) ||
        negb (valid_sha256 source_digest)) (fail "stream restart identity is invalid");;
  lift (require_commit_authority (required_commit_authority prior));;
  journal ← journal_of prior;
  file ← StableFile.open_stable journal;
  let bytes := StableFile.size_bytes (StableFile.identity_ file) in
  when (four_mib <? bytes) (fail "stream restart journal exceeds its bounded reader");;
  text ← StableFile.read file 0 bytes;
  snapshot ← lift (sha256_text text);
  when (negb (String.eqb snapshot expected)) (fail "stream restart journal snapshot changed");;
  document ← lift (parse text journal_limits);
  inspected ← inspect_recovery prior;
  stream ← lift (StreamJournal.read_stream_journal document safe_relative_path);
  when (negb (String.eqb (i_snapshot_sha256 inspected) expected) || negb (StreamJournal.present stream) ||
        negb (String.eqb (StreamJournal.source_digest stream) source_digest) || negb (replayable inspected))
    (fail "transaction is not an explicit stream replay candidate");;
  walk_lineage 64 source_digest [new_id] prior inspected;;
  StableFile.verify_unchanged file;;
  begin_session (with_transaction_id new_id prior) injector
    (StreamJournal.mk_stream source_digest (StreamJournal.source_context stream) EmptyString
      (transaction_id prior) expected [] true).

(** ** Finalizing maintenance *)

(** [pin()]: the history is still sealed and the journal on disk is what the
    session would write. *)
Definition pin (s : TransactionSpec) (history_digest : string) : act unit :=
  current ← host (inspect_recovery s);
  history ← host (Maintenance.inspect s (stream_source_digest current) false);
  session ← this;
  text ← lift (render_journal (content session));
  hash ← lift (sha256_text text);
  when (negb (String.eqb (Maintenance.journal_digest history) history_digest) ||
        negb (Maintenance.sealed history) || negb (is_empty (Maintenance.pending_kind history)) ||
        negb (String.eqb (i_current_state current) (current_state_ session)) ||
        negb (String.eqb (i_snapshot_sha256 current) hash))
    (fail "maintenance finalization changed its sealed history or transaction").

Definition in_state (state : string) (m : act unit) : act unit :=
  s ← this; when (String.eqb (current_state_ s) state) m.

Definition finalize_steps (s : TransactionSpec) (history_digest : string) : act unit :=
  pin s history_digest;;
  in_state "recovery_required" (resume_committing;; pin s history_digest);;
  in_state "committing" (mark_committed;; pin s history_digest);;
  in_state "committed" (mark_completed;; pin s history_digest);;
  session ← this;
  when (negb (String.eqb (current_state_ session) "completed"))
    (fail "maintenance finalization did not complete").

Definition finalize_maintenance (s : TransactionSpec) (expected history_digest : string)
    (injector : FaultInjector) : io RecoveryInspection :=
  before ← inspect_recovery s;
  when (negb (valid_sha256 expected) || negb (valid_sha256 history_digest) ||
        negb (String.eqb (i_snapshot_sha256 before) expected) || negb (commit_started before))
    (fail "maintenance finalization snapshot changed or has no committed effect");;
  session ← resume_session s injector maintenance_finalization;
  again ← inspect_recovery s;
  when (negb (String.eqb (i_snapshot_sha256 again) expected))
    (fail "maintenance finalization snapshot changed during reopening");;
  constructing session (finalize_steps s history_digest);;
  inspect_recovery s.

End Recovery.
