(* ===== verification/SessionSteps.v ===== *)
(** How a session object evolves: every member function, on every host and on
    every outcome, changes the object only by the steps of one relation.  The
    invariants of the object follow by induction on that relation. *)

From Stdlib Require Import Ascii String NArith ZArith Lia.
From stdpp Require Import base list strings gmap sets relations.
From S2P Require Import Prelude Sha256 StdMap Json Path Effects World RecordIo StreamJournal.
From S2P Require Import Journal SessionHost Session.

Module SessionSteps.
Import Path Effects World Journal SessionHost Session.

(** ** The step relation *)

Inductive session_step (s : TransactionSession) : TransactionSession → Prop :=
| step_transition next recorded :
    valid_transition (current_state_ s) next = true →
    session_step s (push_transition next recorded s)
| step_identities staging target journal : session_step s (set_identities staging target journal s)
| step_staging_identity identity : session_step s (set_staging_identity identity s)
| step_retain_stream : session_step s (set_retain_stream true s)
| step_retain_commit : session_step s (set_retain_commit true s)
| step_stream j :
    (StreamJournal.present j = true → retain_stream_cleanup_ s = true ∨
       StreamJournal.present (stream_journal_ s) = true) →
    session_step s (set_stream j s)
| step_closure closure : session_step s (set_closure closure s)
| step_staged f : safe_relative_path (relative_path f) = true → session_step s (add_staged f s)
| step_maintenance : session_step s (set_maintenance true s).

Definition evolves : TransactionSession → TransactionSession → Prop := rtc session_step.

(** Lifted to the object and the host. *)
Definition evolving (a b : TransactionSession * world) : Prop := evolves (fst a) (fst b).

#[global] Instance evolving_preorder : PreOrder evolving.
Proof. split; [intros a; apply rtc_refl|]. intros a b c. unfold evolving, evolves. by etransitivity. Qed.

Lemma keeps_host {A} (m : io A) : keeps evolving (host m).
Proof.
  intros [s w]. unfold host, on_snd. simpl. destruct (m w) as [r w']. apply rtc_refl.
Qed.

Lemma keeps_this : keeps evolving this.
Proof. unfold this. keeps_auto. Qed.

Lemma keeps_update f : (∀ s, evolves s (f s)) → keeps evolving (update f).
Proof. intros H [s w]. apply H. Qed.

Lemma evolves_one s s' : session_step s s' → evolves s s'.
Proof. apply rtc_once. Qed.

#[local] Hint Resolve keeps_host keeps_this : eff.

Lemma keeps_notify state point : keeps evolving (notify state point).
Proof. unfold notify. keeps_auto. Qed.

Lemma keeps_notify_here point : keeps evolving (notify_here point).
Proof. unfold notify_here. keeps_auto; apply keeps_notify. Qed.
#[local] Hint Resolve keeps_notify keeps_notify_here : eff.

Lemma keeps_persist_journal sequence first : keeps evolving (persist_journal sequence first).
Proof. unfold persist_journal. keeps_auto. Qed.

Lemma keeps_require_journal_directory : keeps evolving require_journal_directory.
Proof. unfold require_journal_directory. keeps_auto. Qed.
#[local] Hint Resolve keeps_persist_journal keeps_require_journal_directory : eff.

Lemma keeps_persist_snapshot : keeps evolving persist_snapshot.
Proof. unfold persist_snapshot. keeps_auto. Qed.
#[local] Hint Resolve keeps_persist_snapshot : eff.

(** ** The transition *)

(** The object is untouched. *)
Definition fixed (a b : TransactionSession * world) : Prop := fst a = fst b.

#[global] Instance fixed_preorder : PreOrder fixed.
Proof. split; [done|]. intros a b c. unfold fixed. congruence. Qed.

Lemma fixed_host {A} (m : io A) : keeps fixed (host m).
Proof. intros [s w]. unfold host, on_snd. simpl. by destruct (m w). Qed.

Lemma fixed_this : keeps fixed this.
Proof. unfold this. keeps_auto. Qed.
#[export] Hint Resolve fixed_host fixed_this : eff.

(** Reading an object that the precondition knows. *)
Lemma triple_this {A} s (f : TransactionSession → act A) (P : TransactionSession * world → Prop) Q E :
  (∀ x, P x → fst x = s) → triple P (f s) Q E → triple P (this ≫= f) Q E.
Proof. intros Hs H x Hx. unfold mbind, M_bind, this. simpl. rewrite (Hs x Hx). by apply H. Qed.

Lemma triple_update f (P Q : TransactionSession * world → Prop) E :
  (∀ x, P x → Q (f (fst x), snd x)) → triple P (update f) (fun _ => Q) E.
Proof. intros H x Hx. by apply H. Qed.

(** What is known of the object passes over a computation that leaves it alone. *)
Lemma triple_fixed {A} (m : act A) (P : TransactionSession → Prop) :
  keeps fixed m → triple (fun x => P (fst x)) m (fun _ x => P (fst x)) (fun x => P (fst x)).
Proof. intros Hm. eapply triple_keeps; [exact Hm|]. unfold fixed. intros x y Hx <-. done. Qed.

Lemma fixed_notify state point : keeps fixed (notify state point).
Proof. unfold notify. keeps_auto. Qed.

Lemma fixed_notify_here point : keeps fixed (notify_here point).
Proof. unfold notify_here, notify. keeps_auto. Qed.

Lemma fixed_persist sequence first : keeps fixed (persist_journal sequence first).
Proof. unfold persist_journal. keeps_auto. Qed.

Lemma fixed_require_journal_directory : keeps fixed require_journal_directory.
Proof. unfold require_journal_directory. keeps_auto. Qed.

#[export] Hint Resolve fixed_notify fixed_notify_here fixed_persist fixed_require_journal_directory : eff.

Lemma fixed_persist_snapshot : keeps fixed persist_snapshot.
Proof. unfold persist_snapshot. keeps_auto. Qed.

Lemma fixed_verify_staging_identity : keeps fixed verify_staging_identity.
Proof. unfold verify_staging_identity. keeps_auto. Qed.
#[export] Hint Resolve fixed_persist_snapshot fixed_verify_staging_identity : eff.

Lemma pop_push previous next recorded s : current_state_ s = previous →
  pop_transition previous (push_transition next recorded s) = s.
Proof.
  intros <-. unfold pop_transition, push_transition, set_chain. simpl.
  rewrite removelast_last. by destruct s.
Qed.

(** A transition leaves the object alone or appends one valid transition; in
    particular a failed write takes the new transition back. *)
Definition transition_of (next : string) (s s' : TransactionSession) : Prop :=
  valid_transition (current_state_ s) next = true ∧ ∃ recorded, s' = push_transition next recorded s.

Lemma persist_transition_cases next s :
  triple (fun x => fst x = s) (persist_transition next) (fun _ x => transition_of next s (fst x))
    (fun x => fst x = s ∨ transition_of next s (fst x)).
Proof.
  unfold persist_transition. apply (triple_this s); [done|].
  destruct (valid_transition (current_state_ s) next) eqn:Hv; cbn [negb].
  2: { apply triple_raise. by left. }
  eapply triple_bind.
  { eapply triple_conseq; [apply (triple_fixed _ (fun y => y = s)), fixed_notify|done|done|by left]. }
  intros []. eapply triple_bind.
  { eapply triple_conseq; [apply (triple_fixed _ (fun y => y = s)), fixed_host|done|done|by left]. }
  intros recorded. eapply triple_bind.
  { apply (triple_update _ _ (fun x => fst x = push_transition next recorded s)). intros x ->. done. }
  intros []. eapply triple_bind.
  - eapply triple_on_exception.
    + apply (triple_fixed _ (fun y => y = push_transition next recorded s)).
      keeps_auto.
    + apply triple_update. intros x ->. left. by rewrite pop_push.
    + intros x ->. right. split; [done|eauto].
  - intros []. eapply triple_conseq; [apply (triple_fixed _ (fun y => y = push_transition next recorded s)), fixed_notify| | |].
    + done.
    + intros _ x ->. split; [done|eauto].
    + intros x ->. right. split; [done|eauto].
Qed.

Lemma keeps_persist_transition next : keeps evolving (persist_transition next).
Proof.
  intros [s w]. pose proof (persist_transition_cases next s (s, w) eq_refl) as H. unfold evolving.
  destruct (persist_transition next (s, w)) as [[a|e] [s' w']]; simpl in *; destruct H as [|[? [? ->]]] || destruct H as [? [? ->]];
    subst; try apply rtc_refl; by apply evolves_one, step_transition.
Qed.
#[local] Hint Resolve keeps_persist_transition : eff.

(** ** The member functions *)

Lemma evolving_of_fixed {A} (m : act A) : keeps fixed m → keeps evolving m.
Proof. intros H x. specialize (H x). unfold fixed in H. unfold evolving. rewrite H. apply rtc_refl. Qed.

Lemma keeps_verify_staging_identity : keeps evolving verify_staging_identity.
Proof. apply evolving_of_fixed. auto with eff. Qed.
#[local] Hint Resolve keeps_verify_staging_identity : eff.

Lemma fixed_verify_recorded : keeps fixed verify_recorded_staging_closure.
Proof. unfold verify_recorded_staging_closure. keeps_auto. Qed.
#[export] Hint Resolve fixed_verify_recorded : eff.

Lemma fixed_remove_recorded : keeps fixed remove_recorded_staging_closure.
Proof. unfold remove_recorded_staging_closure. keeps_auto. Qed.

Lemma keeps_remove_recorded : keeps evolving remove_recorded_staging_closure.
Proof. apply evolving_of_fixed, fixed_remove_recorded. Qed.

Lemma keeps_verify_roots : keeps evolving verify_roots_for_plan.
Proof.
  unfold verify_roots_for_plan. keeps_auto. apply keeps_update. intros s. apply evolves_one, step_identities.
Qed.

Lemma keeps_set_stream f :
  (∀ s, StreamJournal.present (f s) = true →
     retain_stream_cleanup_ s = true ∨ StreamJournal.present (stream_journal_ s) = true) →
  keeps evolving (update (fun s => set_stream (f s) s)).
Proof. intros H. apply keeps_update. intros s. apply evolves_one, step_stream, H. Qed.

Lemma keeps_retain_stream : keeps evolving (update (set_retain_stream true)).
Proof. apply keeps_update. intros s. apply evolves_one, step_retain_stream. Qed.
#[local] Hint Resolve keeps_remove_recorded keeps_verify_roots keeps_retain_stream : eff.

Lemma keeps_observe_last f : keeps evolving (observe_last f).
Proof. apply keeps_set_stream. intros s H. by right. Qed.
#[local] Hint Resolve keeps_observe_last : eff.

Lemma keeps_stream_write fuel i data : keeps evolving (stream_write fuel i data).
Proof. revert data. induction fuel; intros []; simpl; keeps_auto. Qed.
#[local] Hint Resolve keeps_stream_write : eff.

Lemma keeps_add_staged f : safe_relative_path (relative_path f) = true →
  keeps evolving (update (add_staged f)).
Proof. intros H. apply keeps_update. intros s. by apply evolves_one, step_staged. Qed.

Lemma keeps_stream_body p n h b reader wb : safe_relative_path p = true →
  keeps evolving (stream_body p n h b reader wb).
Proof.
  intros Hp. unfold stream_body, stream_round, read_round. keeps_auto. by apply keeps_add_staged.
Qed.

(** The latch is set before the stream is established. *)
Lemma keeps_establish {A} f (k : unit → act A) : keeps evolving (k tt) →
  keeps evolving (update (set_retain_stream true) ≫= fun _ =>
    update (fun s => set_stream (f s) s) ≫= k).
Proof.
  intros Hk [s w]. etransitivity; [|apply Hk]. unfold evolving. cbn [fst snd].
  eapply rtc_l; [apply step_retain_stream|]. apply rtc_once, step_stream. intros _. by left.
Qed.

Lemma keeps_create_staging_root : keeps evolving create_staging_root.
Proof.
  unfold create_staging_root. keeps_auto; apply keeps_update; intros s.
  - apply evolves_one, step_staging_identity.
  - destruct (StreamJournal.present (stream_journal_ s)) eqn:E; [|apply rtc_refl].
    apply evolves_one, step_stream. by right.
Qed.

Lemma keeps_stage_file p bytes : keeps evolving (stage_file p bytes).
Proof.
  unfold stage_file. apply keeps_bind; [typeclasses eauto|auto with eff|]. intros s.
  destruct (safe_relative_path p) eqn:Hp; [|rewrite orb_true_r; auto with eff typeclass_instances].
  keeps_auto. by apply keeps_add_staged.
Qed.

Lemma keeps_stage_file_stream p n h b reader src wb : keeps evolving (stage_file_stream p n h b reader src wb).
Proof.
  unfold stage_file_stream. apply keeps_bind; [typeclasses eauto|auto with eff|]. intros s.
  destruct reader as [reader|]; [|auto with eff typeclass_instances].
  destruct (stream_request_valid s p h b src wb) eqn:Hr; cbn [negb]; [|auto with eff typeclass_instances].
  assert (safe_relative_path p = true) as Hp by (unfold stream_request_valid in Hr; by bool_hyps).
  destruct (duplicated (staged_files_ s) p); [auto with eff typeclass_instances|].
  apply keeps_bind; [typeclasses eauto|auto with eff|]. intros [].
  apply keeps_establish. keeps_auto.
  - unfold add_intent. apply keeps_update. intros s'. apply evolves_one, step_stream. by right.
  - by apply keeps_stream_body.
Qed.

Lemma keeps_bind_stream_source d c : keeps evolving (bind_stream_source d c).
Proof.
  unfold bind_stream_source. apply keeps_bind; [typeclasses eauto|auto with eff|]. intros s.
  match goal with |- keeps _ (if ?c then _ else _) => destruct c end; [auto with eff typeclass_instances|].
  apply keeps_establish. keeps_auto. apply keeps_set_stream. intros s'. by right.
Qed.

Lemma fixed_observe_closure : keeps fixed observe_staged_commit_closure.
Proof. unfold observe_staged_commit_closure. keeps_auto. Qed.

Lemma fixed_target_changed : keeps fixed target_changed.
Proof. unfold target_changed. keeps_auto. Qed.
#[export] Hint Resolve fixed_observe_closure fixed_target_changed : eff.

Lemma fixed_require_authority : keeps fixed require_authority.
Proof. unfold require_authority. keeps_auto. Qed.

Lemma fixed_require_unchanged_closure : keeps fixed require_unchanged_closure.
Proof. unfold require_unchanged_closure. keeps_auto. Qed.
#[export] Hint Resolve fixed_require_authority fixed_require_unchanged_closure : eff.

Lemma keeps_closure : keeps evolving observe_staged_commit_closure ∧ keeps evolving target_changed ∧
  keeps evolving require_authority ∧ keeps evolving require_unchanged_closure.
Proof. repeat split; apply evolving_of_fixed; auto with eff. Qed.

Ltac evolving_auto := keeps_auto; try apply keeps_closure.

Lemma keeps_mark_staged : keeps evolving mark_staged.
Proof. unfold mark_staged. evolving_auto. Qed.

Lemma keeps_mark_verified : keeps evolving mark_verified.
Proof.
  unfold mark_verified. evolving_auto. apply keeps_update. intros s. apply evolves_one, step_closure.
Qed.

Lemma keeps_note_recovery : keeps evolving note_recovery.
Proof. unfold note_recovery. evolving_auto. Qed.
#[local] Hint Resolve keeps_note_recovery : eff.

Lemma keeps_commit_effect : keeps evolving commit_effect.
Proof.
  unfold commit_effect. evolving_auto. apply keeps_update. intros s. apply evolves_one, step_retain_commit.
Qed.

Lemma keeps_mark_committed : keeps evolving mark_committed.
Proof. unfold mark_committed. evolving_auto. Qed.

Lemma keeps_mark_completed : keeps evolving mark_completed.
Proof. unfold mark_completed. evolving_auto. Qed.

Lemma keeps_mark_recovery_required : keeps evolving mark_recovery_required.
Proof. unfold mark_recovery_required. evolving_auto. Qed.

Lemma keeps_resume_committing : keeps evolving resume_committing.
Proof. unfold resume_committing. evolving_auto. Qed.

Lemma keeps_commit : keeps evolving commit.
Proof.
  unfold commit. evolving_auto; (apply keeps_commit_effect || apply keeps_mark_committed || apply keeps_mark_completed).
Qed.

Lemma keeps_rollback : keeps evolving rollback.
Proof. unfold rollback. evolving_auto. Qed.

Lemma keeps_begin_body : keeps evolving begin_body.
Proof. unfold begin_body. evolving_auto. apply keeps_create_staging_root. Qed.

End SessionSteps.
