(* ===== verification/SessionFacts.v ===== *)
(** What holds of every session object: its transitions form one chain of the
    state graph, they are never rewritten, the cleanup latches only ever close,
    and the durable journal it would write carries no rollback authority once a
    latch is closed. *)

From Stdlib Require Import Ascii String NArith ZArith Lia.
From stdpp Require Import base list strings gmap sets relations.
From S2P Require Import Prelude Sha256 StdMap Json Path Effects World RecordIo StreamJournal.
From S2P Require Import Journal SessionHost Session SessionSteps.

Module SessionFacts.
Import Path Effects World Journal SessionHost Session SessionSteps.

(** ** Chains of the state graph *)

Fixpoint chained (prior : string) (start : N) (l : list Transition) : Prop :=
  match l with
  | [] => True
  | t :: l => sequence t = start ∧ from t = prior ∧ valid_transition prior (to t) = true ∧
      chained (to t) (start + 1) l
  end.

(** The state a chain leads to. *)
Fixpoint leads (prior : string) (l : list Transition) : string :=
  match l with [] => prior | t :: l => leads (to t) l end.

Lemma leads_app prior l l' : leads prior (l ++ l') = leads (leads prior l) l'.
Proof. revert prior. induction l as [|t l IH]; intros prior; simpl; [done|apply IH]. Qed.

Lemma chained_app prior start l l' : chained prior start (l ++ l') ↔
  chained prior start l ∧ chained (leads prior l) (start + N.of_nat (length l)) l'.
Proof.
  revert prior start. induction l as [|t l IH]; intros prior start; simpl.
  - rewrite N.add_0_r. tauto.
  - rewrite IH. replace (start + 1 + N.of_nat (length l)) with (start + N.of_nat (S (length l))) by lia.
    tauto.
Qed.

Lemma chained_snoc l t : chained EmptyString 0 l → sequence t = N.of_nat (length l) →
  from t = leads EmptyString l → valid_transition (from t) (to t) = true →
  chained EmptyString 0 (l ++ [t]).
Proof.
  intros Hl Hs Hf Hv. apply chained_app. split; [done|]. simpl. rewrite <- Hf. repeat split; try done; lia.
Qed.

(** ** The invariant *)

Record session_ok (s : TransactionSession) : Prop := {
  ok_chain : chained EmptyString 0 (transitions_ s);
  ok_state : current_state_ s = leads EmptyString (transitions_ s);
  ok_stream : StreamJournal.present (stream_journal_ s) = true → retain_stream_cleanup_ s = true;
  ok_commit : required_commit_authority (spec_ s) = staged_child_bound_v1 → retain_commit_cleanup_ s = true;
  ok_staged : Forall (fun f => safe_relative_path (relative_path f) = true) (staged_files_ s);
  ok_staging_root : staging_root_ s = staging_path (spec_ s);
  ok_journal_path : journal_path_ s = journal_file (state_root (spec_ s)) (transaction_id (spec_ s)) }.

Lemma step_ok s s' : session_step s s' → session_ok s → session_ok s'.
Proof.
  intros H [Hc Hs Hst Hco Hf Hr Hj].
  destruct H as [next recorded Hv|?|?| | |j Hp|?|f Hsafe|]; split; simpl; try done.
  - apply chained_snoc; simpl; [done|done|done|]. done.
  - by rewrite leads_app.
  - intros Hj'. destruct (Hp Hj') as [?|?]; auto.
  - apply Forall_app. split; [done|by constructor].
Qed.

Lemma evolves_ok s s' : evolves s s' → session_ok s → session_ok s'.
Proof. induction 1; [done|]. intros. by eapply IHrtc, step_ok. Qed.

(** What never changes, and what only grows. *)
Record grows_from (s s' : TransactionSession) : Prop := {
  same_spec : spec_ s' = spec_ s;
  same_paths : staging_root_ s' = staging_root_ s ∧ journal_path_ s' = journal_path_ s ∧
    created_at_ s' = created_at_ s;
  chain_grows : transitions_ s `prefix_of` transitions_ s';
  files_grow : staged_files_ s `prefix_of` staged_files_ s';
  stream_latched : retain_stream_cleanup_ s = true → retain_stream_cleanup_ s' = true;
  commit_latched : retain_commit_cleanup_ s = true → retain_commit_cleanup_ s' = true }.

Lemma grows_from_refl s : grows_from s s.
Proof. by split. Qed.

Lemma grows_from_trans a b c : grows_from a b → grows_from b c → grows_from a c.
Proof.
  intros [S1 (P1 & Q1 & R1) C1 F1 L1 M1] [S2 (P2 & Q2 & R2) C2 F2 L2 M2].
  split; [congruence|split; [|split]; congruence|by etransitivity|by etransitivity|auto|auto].
Qed.

Lemma step_grows s s' : session_step s s' → grows_from s s'.
Proof.
  destruct 1; split; simpl; try done; by apply prefix_app_r.
Qed.

Lemma evolves_grows s s' : evolves s s' → grows_from s s'.
Proof.
  induction 1 as [|a b c Hs _ IH]; [apply grows_from_refl|].
  eapply grows_from_trans; [by apply step_grows|done].
Qed.

(** ** Clients

    A client constructs a session and calls its public member functions in any
    order; an exception leaves the object usable, and the client may go on. *)

Inductive call :=
| Stage (p : path) (bytes : string)
| StageStream (p : path) (expected_size : N) (expected_sha256 : string) (buffer_bytes : N)
    (reader : option StreamReader) (source_identity_digest : string) (write_buffer_bytes : N)
| BindStreamSource (source_digest source_context : string)
| MarkStaged | MarkVerified | CommitEffect | MarkCommitted | MarkCompleted | MarkRecoveryRequired
| ResumeCommitting | Commit | Rollback.

Definition perform (c : call) : act unit :=
  match c with
  | Stage p bytes => stage_file p bytes
  | StageStream p n h b r d wb => stage_file_stream p n h b r d wb;; ret tt
  | BindStreamSource d c => bind_stream_source d c
  | MarkStaged => mark_staged
  | MarkVerified => mark_verified
  | CommitEffect => commit_effect
  | MarkCommitted => mark_committed
  | MarkCompleted => mark_completed
  | MarkRecoveryRequired => mark_recovery_required
  | ResumeCommitting => resume_committing
  | Commit => commit
  | Rollback => rollback
  end.

(** The object and the host after a sequence of calls, whatever they returned. *)
Definition after (calls : list call) (x : TransactionSession * world) : TransactionSession * world :=
  fold_left (fun x c => snd (perform c x)) calls x.

Lemma perform_evolves c : keeps evolving (perform c).
Proof.
  destruct c; simpl.
  - apply keeps_stage_file.
  - apply keeps_bind; [typeclasses eauto|apply keeps_stage_file_stream|]. intros. apply keeps_ret. typeclasses eauto.
  - apply keeps_bind_stream_source.
  - apply keeps_mark_staged.
  - apply keeps_mark_verified.
  - apply keeps_commit_effect.
  - apply keeps_mark_committed.
  - apply keeps_mark_completed.
  - apply keeps_mark_recovery_required.
  - apply keeps_resume_committing.
  - apply keeps_commit.
  - apply keeps_rollback.
Qed.

Lemma after_evolves calls x : evolves (fst x) (fst (after calls x)).
Proof.
  revert x. induction calls as [|c calls IH]; intros x; simpl; [apply rtc_refl|].
  unfold evolves. etransitivity; [apply (perform_evolves c x)|apply IH].
Qed.

Lemma initial_ok spec injector stream w s w' :
  initial_session spec injector stream w = (Ok s, w') → session_ok s ∧ transitions_ s = [].
Proof.
  unfold initial_session. destruct (spec_valid spec); [|done]. cbn [negb].
  unfold mbind at 1, M_bind at 1. destruct (normalized_inspection_spec spec w) as [[n|] w1]; [|done].
  unfold iso8601_now, now, mbind, M_bind, get, ret. intros [= <- _]. split; [|done].
  split; simpl; try done. intros Hb. by apply bool_decide_eq_true_2.
Qed.

Lemma begin_inv spec injector stream w s w' :
  begin_session spec injector stream w = (Ok s, w') →
  ∃ s0 w0, session_ok s0 ∧ transitions_ s0 = [] ∧ begin_body (s0, w0) = (Ok tt, (s, w')).
Proof.
  unfold begin_session, mbind, M_bind.
  destruct (initial_session spec injector stream w) as [[s0|] w0] eqn:E; [|done].
  apply initial_ok in E as [Hok Ht]. unfold constructing.
  destruct (begin_body (s0, w0)) as [[[]|] [s1 w1]] eqn:Eb; [|done]. intros [= <- <-].
  exists s0, w0. by rewrite Eb.
Qed.

(** ** The states of a new session *)

Definition states (s : TransactionSession) : list string := map to (transitions_ s).

(** The transitions are untouched. *)
Definition same_chain (a b : TransactionSession * world) : Prop :=
  transitions_ (fst a) = transitions_ (fst b).

#[global] Instance same_chain_preorder : PreOrder same_chain.
Proof. split; [done|]. intros a b c. unfold same_chain. congruence. Qed.

Lemma same_chain_fixed {A} (m : act A) : keeps fixed m → keeps same_chain m.
Proof. intros H x. specialize (H x). unfold fixed in H. unfold same_chain. by rewrite H. Qed.

Lemma same_chain_host {A} (m : io A) : keeps same_chain (host m).
Proof. apply same_chain_fixed, fixed_host. Qed.

Lemma same_chain_basic : keeps same_chain this ∧ keeps same_chain persist_snapshot ∧
  (∀ p, keeps same_chain (notify_here p)).
Proof. split; [|split]; intros; apply same_chain_fixed; auto with eff. Qed.

Lemma same_chain_update f : (∀ s, transitions_ (f s) = transitions_ s) → keeps same_chain (update f).
Proof. intros H x. unfold same_chain. simpl. by rewrite H. Qed.

Lemma same_chain_begin : keeps same_chain verify_roots_for_plan ∧ keeps same_chain create_staging_root.
Proof.
  unfold verify_roots_for_plan, create_staging_root. pose proof same_chain_basic as (? & ? & ?).
  split; keeps_auto; try apply same_chain_host; apply same_chain_update; intros s; try done.
  by destruct (StreamJournal.present (stream_journal_ s)).
Qed.

Lemma transition_states next l :
  triple (fun x => states (fst x) = l) (persist_transition next) (fun _ x => states (fst x) = l ++ [next])
    (fun _ => True).
Proof.
  intros [s w] Hs. simpl in Hs. pose proof (persist_transition_cases next s (s, w) eq_refl) as H.
  destruct (persist_transition next (s, w)) as [[a|e] [s' w']]; [|done].
  destruct H as (_ & recorded & E). simpl in E. subst s'. simpl. unfold states in *. simpl.
  by rewrite map_app, Hs.
Qed.

Lemma same_chain_states {A} (m : act A) l : keeps same_chain m →
  triple (fun x => states (fst x) = l) m (fun _ x => states (fst x) = l) (fun _ => True).
Proof.
  intros Hm [s w] Hs. specialize (Hm (s, w)). unfold same_chain in Hm. unfold states in *.
  destruct (m (s, w)) as [[a|e] [s' w']]; [|done]. simpl in *. by rewrite <- Hm.
Qed.

Lemma begin_states : triple (fun x => states (fst x) = []) begin_body
  (fun _ x => states (fst x) = ["created"; "validated"; "planned"; "staging"]) (fun _ => True).
Proof.
  destruct same_chain_begin as [H1 H2]. destruct same_chain_basic as (H3 & _ & _). unfold begin_body.
  eapply triple_bind; [by apply same_chain_states|]. intros [].
  eapply triple_bind; [by apply same_chain_states|]. intros s.
  eapply triple_bind; [apply same_chain_states, same_chain_host|]. intros occupied.
  eapply triple_bind; [apply same_chain_states; keeps_auto|]. intros [].
  do 4 (eapply triple_bind; [apply transition_states|]; intros []).
  by apply same_chain_states.
Qed.

(** C1 Every client, on every host: a session that the constructor returned has
    gone through created, validated, planned and staging, and after any sequence
    of member-function calls, each returning or throwing at any point, the
    object still satisfies its invariant: numbered transitions that form one
    path of the state graph ending in the current state, closed cleanup latches
    where a stream or the stronger commit requirement demands them, safe staged
    paths.  Between any two points of the client, the transitions and staged files
    only grow, the specification never changes and a latch that is closed at the
    first point is closed at the second. *)
Theorem session_invariant spec injector stream w calls more :
  match begin_session spec injector stream w with
  | (Ok s, w') =>
    let x := after calls (s, w') in
    let y := after more x in
    states s = ["created"; "validated"; "planned"; "staging"] ∧
    session_ok (fst x) ∧ session_ok (fst y) ∧ grows_from s (fst x) ∧ grows_from (fst x) (fst y)
  | (Throw _, _) => True
  end.
Proof.
  destruct (begin_session spec injector stream w) as [[s|e] w'] eqn:E; [|done].
  apply begin_inv in E as (s0 & w0 & Hok & Ht & Eb).
  pose proof (keeps_begin_body (s0, w0)) as Hev. unfold evolving in Hev. rewrite Eb in Hev. simpl in Hev.
  pose proof (after_evolves calls (s, w')) as Ha. cbv zeta. set (x := after calls (s, w')) in *. cbn [fst] in Ha.
  pose proof (after_evolves more x) as Hm.
  assert (session_ok (fst x)) as Hx by (by eapply evolves_ok, evolves_ok). split_and!.
  - pose proof (begin_states (s0, w0)) as Hs. rewrite Eb in Hs. apply Hs. unfold states. simpl. by rewrite Ht.
  - done.
  - by eapply evolves_ok.
  - by apply evolves_grows.
  - by apply evolves_grows.
Qed.

(** ** What the journal of a retained session says *)

(** Once a latch is closed, every later call on the session, on every host,
    leaves it closed; the journal text such a session renders has a null staging
    identity and, unless the state is committed or completed, offers nothing but
    retention to an operator: no reader can derive deletion authority from it. *)
Theorem latched_journal_grants_nothing calls s w :
  session_ok s → retain_stream_cleanup_ s || retain_commit_cleanup_ s = true →
  let s' := fst (after calls (s, w)) in
  retained (content s') = true ∧
  (current_state_ s' = "committed" ∨ current_state_ s' = "completed" ∨
   advertised_actions (retained (content s')) (current_state_ s') = ["retain_for_operator"]) ∧
  ∀ digest text, ∃ before after,
    journal_text (content s') digest text = before +:+ lit "'staging_identity':null," +:+ after.
Proof.
  intros Hok Hr. simpl. pose proof (evolves_grows _ _ (after_evolves calls (s, w))) as G.
  set (s' := fst (after calls (s, w))) in *. destruct G as [_ _ _ _ G1 G2].
  assert (retained (content s') = true) as Hr'.
  { unfold retained. simpl. apply orb_true_iff. apply orb_true_iff in Hr as [?|?]; auto. }
  split; [done|]. split.
  - unfold advertised_actions. rewrite Hr'. cbn [andb].
    destruct (String.eqb_spec (current_state_ s') "completed"); [auto|].
    destruct (String.eqb_spec (current_state_ s') "committed"); auto.
  - intros digest text. eexists (journal_head (content s') digest), _.
    unfold journal_text, metadata_text. rewrite Hr', orb_true_r, !append_assoc. reflexivity.
Qed.

(** A session that has just bound a stream, on a host with an empty disk. *)
Definition bound_spec : TransactionSpec :=
  mk_spec "t1" "p1" "" "install_local" "/stage" "/target" "/state" "/audit" legacy_observed.

Definition bound_session : TransactionSession :=
  mk_session bound_spec None (staging_path bound_spec) (journal_file "/state" "t1") "2026-01-01T00:00:00Z"
    "created" "" true false false [] (establish_stream "" StreamJournal.empty_stream) "" "" "" ""
    [mk_transition 0 "" "created" "2026-01-01T00:00:00Z"] [].

Definition empty_world : world :=
  mk_world (mk_fs ∅ ∅) [] 0 (fun _ d => d) (fun _ => false) (fun _ => false) (fun _ => 1) (fun _ => 0) "/".

Lemma latched_journal_grants_nothing_witness :
  session_ok bound_session ∧
  retain_stream_cleanup_ bound_session || retain_commit_cleanup_ bound_session = true ∧
  retained (content (fst (after [MarkStaged; Rollback] (bound_session, empty_world)))) = true.
Proof.
  assert (session_ok bound_session) as Hok by (by split).
  split; [exact Hok|]. split; [reflexivity|].
  exact (proj1 (latched_journal_grants_nothing [MarkStaged; Rollback] bound_session empty_world Hok eq_refl)).
Defined.

End SessionFacts.
