(* ===== verification/JournalFacts.v ===== *)
(** The journal round trip: what [render_journal] writes for a well-formed
    session, [decode_transaction_metadata] reads back. *)

From Stdlib Require Import Ascii String NArith ZArith Lia Sorted.
From stdpp Require Import base list sets strings gmap.
From S2P Require Import Prelude Utf8 Sha256 StdMap Json JsonFacts JsonParse TextFacts JsonText.
From S2P Require Import Path Effects World RecordIo StreamJournal Journal JournalText.
From S2P Require Import SessionHost Session SessionSteps SessionFacts.

Module JournalFacts.
Import Utf8 Json JsonFacts JsonParse TextFacts JsonText Path RecordIo Journal JournalText SessionFacts.

(** ** Texts the reader accepts *)

(** UTF-8 of at most 1 MiB. *)
Definition printable (s : string) : bool := string_ok journal_limits s.

Lemma printable_ascii s : ascii_text s = true → size s <= 1024 * 1024 → printable s = true.
Proof.
  intros Ha Hs. unfold printable, string_ok. rewrite (ascii_valid_utf8 _ Ha), andb_true_r. by apply N.leb_le.
Qed.

Lemma printable_identifier s : valid_identifier s = true → printable s = true.
Proof. intros [Ha Hs]%identifier_ascii. apply printable_ascii; [done|lia]. Qed.

Lemma valid_sha256_digest s : valid_sha256 s = StreamJournal.digest s.
Proof. reflexivity. Qed.

Lemma printable_sha256 s : valid_sha256 s = true → printable s = true.
Proof.
  unfold valid_sha256. intros [Hs%N.eqb_eq Hb]%andb_prop. apply printable_ascii; [|lia].
  unfold ascii_text. eapply forall_bytes_impl; [|exact Hb]. intros c. by_bytes c.
Qed.

(** The states of the graph. *)
Definition state_names : list string :=
  ["created"; "validated"; "planned"; "staging"; "staged"; "verified"; "committing"; "committed"; "completed";
   "recovery_required"; "refused"; "rolled_back"; "abandoned_by_operator"].

Lemma valid_transition_state from to : valid_transition from to = true → to ∈ state_names.
Proof.
  unfold valid_transition, any_of. simpl.
  repeat match goal with |- (if ?b then _ else _) = true → _ => destruct b end; try done;
    rewrite ?orb_true_iff, ?String.eqb_eq; intros; unfold state_names; set_solver.
Qed.

Lemma printable_state s : s ∈ state_names → printable s = true.
Proof. unfold state_names. set_unfold. intros H. repeat destruct H as [->|H]; done || reflexivity. Qed.

Lemma sha256_text_eq text : sha256_text text = Ok (Sha256.sha256 text).
Proof. apply Sha256.hash_text_sha256. Qed.

(** ** Well-formed contents *)

Definition staged_ok (f : StagedFile) : Prop :=
  printable (generic_string (relative_path f)) = true ∧ valid_sha256 (sha256 f) = true ∧ size_bytes f <= uint64_max.

Record content_ok (c : JournalContent) : Prop := {
  ok_id : valid_identifier (transaction_id (spec c)) = true;
  ok_plan : valid_identifier (plan_id (spec c)) = true;
  ok_digest : valid_sha256 (plan_digest (spec c)) = true;
  ok_operation : printable (operation (spec c)) = true;
  ok_roots : Forall (fun p => printable p = true)
    [target_root (spec c); staging_root c; state_root (spec c); audit_root (spec c)];
  ok_staging : staging_root c = staging_path (spec c);
  ok_created : printable (created_at c) = true;
  ok_identity : printable (staging_identity c) = true;
  ok_transitions : chained EmptyString 0 (transitions c) ∧ transitions c ≠ [] ∧
    N.of_nat (length (transitions c)) <= uint64_max;
  ok_current : current_state c = leads EmptyString (transitions c);
  ok_times : Forall (fun t => printable (recorded_at t) = true) (transitions c);
  ok_files : Forall staged_ok (staged_files c);
  ok_latch : required_commit_authority (spec c) = staged_child_bound_v1 → retain_commit c = true }.

Section Document.
Context (c : JournalContent) (Hok : content_ok c).
Context (digest stream_text : string) (stream_value : value).
Context (Hdigest : valid_sha256 digest = true).
Context (Hstream : StreamJournal.present (stream c) = true →
  reads stream_text stream_value ∧ fits journal_limits 2 stream_value = true).

Lemma nodup_keys ks (ms : list member) : map fst ms = ks → bool_decide (NoDup ks) = true → NoDup (map fst ms).
Proof. intros -> H. by apply bool_decide_eq_true in H. Qed.

Ltac keys := first [eapply nodup_keys; [reflexivity|vm_compute; reflexivity]].

Lemma keys_transition id t : NoDup (map fst (transition_members id t)).
Proof. keys. Qed.

Lemma keys_staged f : NoDup (map fst (staged_members f)).
Proof. keys. Qed.

Lemma keys_root r p k : NoDup (map fst (root_members r p k)).
Proof. keys. Qed.

Lemma keys_recovery : NoDup (map fst (recovery_members c)).
Proof. keys. Qed.

Lemma keys_metadata : NoDup (map fst (metadata_members c stream_text stream_value)).
Proof.
  unfold metadata_members. destruct (retain_stream c), (retain_commit c), (StreamJournal.present (stream c)); keys.
Qed.

Lemma keys_journal : NoDup (map fst (journal_members c digest stream_text stream_value)).
Proof. unfold journal_members. destruct (bool_decide _); keys. Qed.

(** *** The texts are read as their values *)

Lemma chained_sequence prior start l : chained prior start l →
  Forall (fun t => sequence t < start + N.of_nat (length l)) l.
Proof.
  revert prior start. induction l as [|t l IH]; intros prior start; [constructor|].
  cbn [chained length]. intros (E & _ & _ & H). constructor; [lia|].
  eapply Forall_impl; [exact (IH _ _ H)|]. cbv beta. intros x Hx. lia.
Qed.

Lemma good_transition id t : sequence t <= uint64_max → Forall good_member (transition_members id t).
Proof.
  intros Hn. unfold transition_members.
  repeat apply Forall_cons_2; try apply Forall_nil_2;
    try apply good_text; try apply good_optional; [by apply good_number|apply (good_boolean _ true)].
Qed.

Lemma good_staged f : staged_ok f → Forall good_member (staged_members f).
Proof.
  intros (_ & _ & Hn). unfold staged_members. repeat apply Forall_cons_2; try apply Forall_nil_2;
    try apply good_text. by apply good_number.
Qed.

Lemma transitions_bounded : Forall (fun t => sequence t <= uint64_max) (transitions c).
Proof.
  destruct (ok_transitions c Hok) as (Hc & _ & Hn). eapply Forall_impl; [exact (chained_sequence _ _ _ Hc)|].
  cbv beta. intros t Ht. lia.
Qed.

Lemma reads_metadata : reads (object_text (metadata_members c stream_text stream_value))
  (object_value (metadata_members c stream_text stream_value)).
Proof.
  apply reads_object; [|apply keys_metadata]. unfold metadata_members.
  repeat apply Forall_app_2; try (apply Forall_cons_2; [|apply Forall_nil_2]).
  - apply good_optional.
  - destruct (retain_stream c); repeat constructor; apply reads_quote.
  - destruct (retain_commit c); repeat constructor; apply reads_quote.
  - destruct (StreamJournal.present (stream c)) eqn:E; [|constructor]. apply Forall_cons_2; [|apply Forall_nil_2].
    by apply Hstream.
  - apply good_list, Forall_map. eapply Forall_impl; [exact (ok_files c Hok)|]. cbv beta. intros f Hf.
    apply reads_object; [by apply good_staged|apply keys_staged].
Qed.

Lemma reads_journal : reads (object_text (journal_members c digest stream_text stream_value))
  (object_value (journal_members c digest stream_text stream_value)).
Proof.
  apply reads_object; [|apply keys_journal]. unfold journal_members.
  repeat apply Forall_app_2; [|destruct (bool_decide _); repeat constructor; apply reads_quote|];
    repeat apply Forall_cons_2; try apply Forall_nil_2; try apply good_text.
  - apply good_list. repeat apply Forall_cons_2; try apply Forall_nil_2;
      (apply reads_object; [repeat apply Forall_cons_2; try apply Forall_nil_2; apply good_text|apply keys_root]).
  - apply good_list, Forall_map. eapply Forall_impl; [exact transitions_bounded|]. cbv beta. intros t Ht.
    apply reads_object; [by apply good_transition|apply keys_transition].
  - apply reads_metadata.
  - apply good_object; [|apply keys_recovery]. repeat apply Forall_cons_2; try apply Forall_nil_2.
    + apply (good_boolean "required").
    + apply good_list, Forall_map, Forall_true. intros x. apply reads_quote.
Qed.

(** *** The limits *)

Lemma fits_text d s : d <= 64 → printable s = true → fits journal_limits d (string_value s) = true.
Proof. intros Hd Hs. cbn [fits]. change (max_depth journal_limits) with 64. by rewrite (proj2 (N.leb_le _ _) Hd). Qed.

Lemma fits_optional d s : d <= 64 → printable s = true →
  fits journal_limits d (StreamJournal.nullable s) = true.
Proof.
  intros Hd Hs. unfold StreamJournal.nullable. destruct (is_empty s); [|by apply fits_text].
  cbn [fits]. change (max_depth journal_limits) with 64. by rewrite (proj2 (N.leb_le _ _) Hd).
Qed.

Lemma fits_array d items : d <= 64 → Forall (fun v => fits journal_limits (d + 1) v = true) items →
  fits journal_limits d (array items) = true.
Proof.
  intros Hd HF. cbn [fits]. change (max_depth journal_limits) with 64. rewrite (proj2 (N.leb_le _ _) Hd).
  cbn [andb]. apply forallb_forall. intros v Hv%list_elem_of_In. rewrite Forall_forall in HF. by apply HF.
Qed.

Lemma fits_fields d ms : d <= 64 → NoDup (map fst ms) →
  Forall (fun m => printable (fst m) = true ∧ fits journal_limits (d + 1) (snd (snd m)) = true) ms →
  fits journal_limits d (object_value ms) = true.
Proof. intros Hd Hn HF. by apply fits_object. Qed.

Lemma size_journal_id : size ("journal." +:+ transaction_id (spec c)) <= 1024 ∧
  ascii_text ("journal." +:+ transaction_id (spec c)) = true.
Proof.
  destruct (identifier_ascii _ (ok_id c Hok)) as [Ha Hs]. rewrite size_append, ascii_append, Ha.
  change (size "journal.") with 8. split; [lia|done].
Qed.

Lemma chained_states prior start l : chained prior start l → (prior = EmptyString ∨ prior ∈ state_names) →
  Forall (fun t => (from t = EmptyString ∨ from t ∈ state_names) ∧ to t ∈ state_names) l.
Proof.
  revert prior start. induction l as [|t l IH]; intros prior start; [constructor|].
  cbn [chained]. intros (_ & Ef & Hv & H) Hp. apply valid_transition_state in Hv.
  constructor; [rewrite Ef; by split|]. eapply IH; [exact H|by right].
Qed.

Lemma printable_from s : s = EmptyString ∨ s ∈ state_names → printable s = true.
Proof. intros [->|H]; [done|by apply printable_state]. Qed.

Ltac fields := repeat apply Forall_cons_2; try apply Forall_nil_2;
  (split; [reflexivity|cbn [fst snd text_member number_member optional_member list_member object_member]]).

Lemma fits_transition t : t ∈ transitions c →
  fits journal_limits 2 (object_value (transition_members (transaction_id (spec c)) t)) = true.
Proof.
  intros Ht. destruct (ok_transitions c Hok) as (Hc & _ & _).
  pose proof (chained_states _ _ _ Hc (or_introl eq_refl)) as Hst. rewrite Forall_forall in Hst.
  destruct (Hst t Ht) as [Hf Hto]. pose proof (ok_times c Hok) as Hti. rewrite Forall_forall in Hti.
  pose proof transitions_bounded as Hb. rewrite Forall_forall in Hb. specialize (Hb t Ht).
  apply fits_fields; [lia|apply keys_transition|]. unfold transition_members. fields; try done.
  - apply fits_text; [lia|]. destruct (identifier_ascii _ (ok_id c Hok)) as [Ha Hs].
    apply printable_ascii.
    + by rewrite !ascii_append, Ha, ascii_to_string.
    + rewrite !size_append. change (size ".") with 1.
      assert (size (to_string (sequence t)) <= 20) as H20; [|lia].
      unfold size. pose proof (to_string_length (sequence t) 20) as Hl.
      assert (sequence t < 10 ^ N.of_nat 20) as H10 by (eapply N.le_lt_trans; [exact Hb|reflexivity]).
      specialize (Hl H10 ltac:(lia)). lia.
  - apply fits_optional; [lia|by apply printable_from].
  - apply fits_text; [lia|by apply printable_state].
  - apply fits_text; [lia|by apply Hti].
Qed.

Lemma fits_staged f : staged_ok f → fits journal_limits 3 (object_value (staged_members f)) = true.
Proof.
  intros (Hp & Hs & _). apply fits_fields; [lia|apply keys_staged|]. unfold staged_members. fields; try done.
  apply fits_text; [lia|by apply printable_sha256].
Qed.

Lemma fits_metadata : fits journal_limits 1 (object_value (metadata_members c stream_text stream_value)) = true.
Proof.
  apply fits_fields; [lia|apply keys_metadata|]. unfold metadata_members.
  repeat apply Forall_app_2.
  - fields. apply fits_optional; [lia|]. destruct (retained c); [done|apply ok_identity, Hok].
  - destruct (retain_stream c); repeat constructor.
  - destruct (retain_commit c); repeat constructor.
  - destruct (StreamJournal.present (stream c)) eqn:E; [|constructor]. fields. by apply Hstream.
  - fields. apply fits_array; [lia|]. rewrite map_map. apply Forall_map.
    eapply Forall_impl; [exact (ok_files c Hok)|]. intros f Hf. by apply (fits_staged f).
Qed.

Lemma fits_root role root classification : printable role = true → printable root = true →
  printable classification = true → fits journal_limits 2 (object_value (root_members role root classification)) = true.
Proof.
  intros H1 H2 H3. apply fits_fields; [lia|apply keys_root|]. unfold root_members. fields; (apply fits_text; [lia|done]).
Qed.

Lemma printable_actions retained state : Forall (fun s => printable s = true) (advertised_actions retained state).
Proof.
  unfold advertised_actions, journal_actions.
  repeat match goal with |- Forall _ (if ?b then _ else _) => destruct b end; repeat constructor.
Qed.

Lemma printable_updated :
  printable (match last (transitions c) with Some t => recorded_at t | None => EmptyString end) = true.
Proof.
  destruct (last (transitions c)) as [t|] eqn:E; [|done]. pose proof (ok_times c Hok) as Hti.
  rewrite Forall_forall in Hti. apply Hti. apply last_Some in E as [l ->]. set_solver.
Qed.

Lemma state_of_chain : current_state c ∈ state_names.
Proof.
  destruct (ok_transitions c Hok) as (Hc & Hne & _). rewrite (ok_current c Hok).
  destruct (transitions c) as [|t l _] using rev_ind; [done|]. rewrite leads_app. simpl.
  pose proof (chained_states _ _ _ Hc (or_introl eq_refl)) as Hst. rewrite Forall_forall in Hst. apply Hst. set_solver.
Qed.

Lemma fits_journal : fits journal_limits 0 (object_value (journal_members c digest stream_text stream_value)) = true.
Proof.
  pose proof (ok_roots c Hok) as Hr. rewrite !Forall_cons in Hr. destruct Hr as (R1 & R2 & R3 & R4 & _).
  destruct size_journal_id as [Hj1 Hj2].
  apply fits_fields; [lia|apply keys_journal|]. unfold journal_members.
  repeat apply Forall_app_2; [|destruct (bool_decide _); repeat constructor|]; fields.
  - done.
  - apply fits_text; [lia|]. apply printable_ascii; [done|lia].
  - apply fits_text; [lia|by apply printable_sha256].
  - apply fits_text; [lia|apply printable_identifier, ok_id, Hok].
  - apply fits_text; [lia|apply printable_identifier, ok_plan, Hok].
  - apply fits_text; [lia|apply printable_sha256, ok_digest, Hok].
  - apply fits_text; [lia|apply ok_operation, Hok].
  - apply fits_text; [lia|apply printable_state, state_of_chain].
  - apply fits_text; [lia|apply ok_created, Hok].
  - apply fits_text; [lia|apply printable_updated].
  - apply fits_array; [lia|]. repeat apply Forall_cons_2; try apply Forall_nil_2; by apply fits_root.
  - apply fits_array; [lia|]. rewrite map_map. apply Forall_map, Forall_forall. intros t Ht. by apply (fits_transition t).
  - apply fits_metadata.
  - apply fits_fields; [lia|apply keys_recovery|]. fields; [done|]. apply fits_array; [lia|].
    rewrite map_map. apply Forall_map. eapply Forall_impl; [apply printable_actions|].
    intros x Hx. apply (fits_text 3 x); [lia|done].
Qed.

(** The document of a journal within the size bound. *)
Definition document : value := object_value (journal_members c digest stream_text stream_value).

Lemma parse_journal : size (journal_text c digest stream_text) <= 4 * 1024 * 1024 →
  parse (journal_text c digest stream_text) journal_limits = Ok document.
Proof.
  intros Hs. rewrite (journal_text_object c digest stream_text stream_value) in *.
  pose proof reads_journal as Hr. apply parse_reads; [exact Hr|exact Hs|apply fits_journal|].
  pose proof (reads_count _ _ Hr) as Hc. change (max_values journal_limits) with (2 * 1024 * 1024).
  unfold document. lia.
Qed.

(** *** Reading the document *)

Lemma at_document k v :
  StdMap.find k (map member_value (journal_members c digest stream_text stream_value)) = Some v →
  at_ document k = Ok v.
Proof. apply at_object, keys_journal. Qed.

Lemma at_metadata k v :
  StdMap.find k (map member_value (metadata_members c stream_text stream_value)) = Some v →
  at_ (object_value (metadata_members c stream_text stream_value)) k = Ok v.
Proof. apply at_object, keys_metadata. Qed.

Ltac found := unfold at_string, StreamJournal.at_array, StreamJournal.at_unsigned;
  erewrite at_document by (unfold journal_members; destruct (bool_decide _); reflexivity); reflexivity.

Lemma document_strings :
  at_string document "schema" = Ok "usk.transaction_journal.v1" ∧
  at_string document "transaction_id" = Ok (transaction_id (spec c)) ∧
  at_string document "plan_id" = Ok (plan_id (spec c)) ∧
  at_string document "plan_digest" = Ok (plan_digest (spec c)) ∧
  at_string document "operation" = Ok (operation (spec c)) ∧
  at_string document "current_state" = Ok (current_state c) ∧
  at_string document "journal_digest" = Ok digest ∧
  at_string document "updated_at" =
    Ok (match last (transitions c) with Some t => recorded_at t | None => EmptyString end).
Proof. repeat match goal with |- _ ∧ _ => split end; found. Qed.

Lemma document_roots : StreamJournal.at_array document "roots" = Ok (map object_value
  [root_members "target" (target_root (spec c)) "operator_selected_owned_target";
   root_members "staging" (staging_root c) "setup_owned";
   root_members "setup_state" (state_root (spec c)) "setup_owned";
   root_members "audit" (audit_root (spec c)) "audit_owned"]).
Proof. found. Qed.

Lemma document_transitions : StreamJournal.at_array document "transitions" =
  Ok (map (fun t => object_value (transition_members (transaction_id (spec c)) t)) (transitions c)).
Proof.
  unfold StreamJournal.at_array.
  erewrite at_document by (unfold journal_members; destruct (bool_decide _); reflexivity).
  simpl. by rewrite map_map.
Qed.

Lemma document_metadata :
  at_ document "recovery_metadata" = Ok (object_value (metadata_members c stream_text stream_value)).
Proof. apply at_document. unfold journal_members. destruct (bool_decide _); reflexivity. Qed.

Lemma document_contains :
  contains document "recovery_metadata" = true ∧
  contains document "required_commit_authority" =
    bool_decide (required_commit_authority (spec c) = staged_child_bound_v1).
Proof.
  unfold document. rewrite !contains_object by apply keys_journal. unfold journal_members.
  destruct (bool_decide _); done.
Qed.

Lemma metadata_contains :
  let m := object_value (metadata_members c stream_text stream_value) in
  contains m "stream_cleanup_policy" = retain_stream c ∧ contains m "commit_cleanup_policy" = retain_commit c ∧
  contains m "stream_journal" = StreamJournal.present (stream c).
Proof.
  cbv zeta. rewrite !contains_object by apply keys_metadata. unfold metadata_members.
  destruct (retain_stream c), (retain_commit c), (StreamJournal.present (stream c)); done.
Qed.

Lemma header_matches : journal_header_differs document (spec c) = Ok false.
Proof.
  destruct document_strings as (E1 & E2 & E3 & E4 & E5 & _). unfold journal_header_differs, differs.
  rewrite E1, E2, E3, E4, E5. cbn [mbind result_bind]. rewrite !String.eqb_refl. reflexivity.
Qed.

Lemma roots_match_document what : check_roots document (spec c) (staging_path (spec c)) what = Ok tt.
Proof.
  unfold check_roots. rewrite document_roots, (ok_staging c Hok). cbn [mbind result_bind map fold_result].
  unfold collect_root, at_string. erewrite !at_object by (apply keys_root || reflexivity).
  set (m := [("audit", audit_root (spec c)); ("setup_state", state_root (spec c));
    ("staging", staging_path (spec c)); ("target", target_root (spec c))]).
  transitivity (throw_if (negb (roots_match m (spec c) (staging_path (spec c)))) what); [reflexivity|].
  unfold roots_match, root_is, m.
  change (StdMap.find "target" _) with (Some (target_root (spec c))).
  change (StdMap.find "staging" _) with (Some (staging_path (spec c))).
  change (StdMap.find "setup_state" _) with (Some (state_root (spec c))).
  change (StdMap.find "audit" _) with (Some (audit_root (spec c))).
  cbn [default]. unfold default, id. rewrite !String.eqb_refl. reflexivity.
Qed.

Lemma policies :
  retain_stream_cleanup document = Ok (retain_stream c) ∧ retain_commit_cleanup document = Ok (retain_commit c).
Proof.
  destruct document_contains as [Hm _]. destruct metadata_contains as (H1 & H2 & _).
  unfold retain_stream_cleanup, retain_commit_cleanup. rewrite Hm, document_metadata.
  assert (StdMap.contains_key "recovery_metadata" (StdMap.of_list (map member_value
    (journal_members c digest stream_text stream_value))) = true) as Hm' by exact Hm.
  cbn [mbind result_bind as_object document object_value make_object]. rewrite Hm'. cbn [negb].
  assert (StdMap.contains_key "stream_cleanup_policy" (StdMap.of_list (map member_value
    (metadata_members c stream_text stream_value))) = retain_stream c) as H1' by exact H1.
  rewrite H1', H2. unfold retain_only.
  change (object (StdMap.of_list (map member_value (metadata_members c stream_text stream_value))))
    with (object_value (metadata_members c stream_text stream_value)).
  assert (retained c = true → at_ (object_value (metadata_members c stream_text stream_value)) "staging_identity" =
    Ok null_value) as Hi.
  { intros Hr. apply at_metadata. unfold metadata_members. by rewrite Hr. }
  split.
  - destruct (retain_stream c) eqn:E; [|done]. cbn [negb]. rewrite Hi by (unfold retained; by rewrite E).
    unfold at_string. erewrite at_metadata by (unfold metadata_members; rewrite E; reflexivity). reflexivity.
  - destruct (retain_commit c) eqn:E; [|done]. cbn [negb]. rewrite Hi by (unfold retained; by rewrite E, orb_true_r).
    unfold at_string.
    erewrite at_metadata by (unfold metadata_members; rewrite E; destruct (retain_stream c); reflexivity). reflexivity.
Qed.

Lemma requirement_matches : validate_commit_requirement document (required_commit_authority (spec c)) = Ok tt.
Proof.
  unfold validate_commit_requirement. destruct document_contains as [_ ->].
  destruct policies as [_ Hp]. rewrite Hp. case_bool_decide as E; [|reflexivity].
  rewrite (ok_latch c Hok E). unfold differs, at_string.
  erewrite at_document by (unfold journal_members; rewrite bool_decide_eq_true_2 by done; reflexivity). reflexivity.
Qed.

Lemma decode_item prior chain t : from t = prior → valid_transition prior (to t) = true →
  decode_transition (transaction_id (spec c)) (prior, chain, sequence t)
    (object_value (transition_members (transaction_id (spec c)) t)) =
  Ok (to t, chain +:+ chain_line (sequence t) (from t) (to t) (recorded_at t), sequence t + 1).
Proof.
  intros <- Hv. unfold decode_transition, differs, at_string, StreamJournal.at_unsigned.
  erewrite !at_object by (apply keys_transition || reflexivity).
  cbn [mbind result_bind as_string as_unsigned as_boolean snd fst text_member number_member optional_member].
  assert (StreamJournal.optional_string (StreamJournal.nullable (from t)) = Ok (from t)) as ->.
  { unfold StreamJournal.nullable. destruct (from t); reflexivity. }
  cbn [mbind result_bind]. rewrite N.eqb_refl, !String.eqb_refl, Hv. reflexivity.
Qed.

Lemma decode_items prior chain start l : chained prior start l →
  fold_result (decode_transition (transaction_id (spec c))) (prior, chain, start)
    (map (fun t => object_value (transition_members (transaction_id (spec c)) t)) l) =
  Ok (leads prior l, chain +:+ chain_text l, start + N.of_nat (length l)).
Proof.
  revert prior chain start. induction l as [|t l IH]; intros prior chain start.
  - intros _. simpl. by rewrite append_nil_r, N.add_0_r.
  - cbn [chained map fold_result]. intros (<- & Ef & Hv & Hl). rewrite decode_item by done.
    cbn [mbind result_bind]. rewrite IH by done. cbn [leads chain_text length]. rewrite append_assoc.
    by replace (sequence t + N.of_nat (S (length l))) with (sequence t + 1 + N.of_nat (length l)) by lia.
Qed.

Lemma any_items states l :
  any_to states (map (fun t => object_value (transition_members (transaction_id (spec c)) t)) l) =
  Ok (existsb (fun t => any_of (to t) states) l).
Proof.
  induction l as [|t l IH]; [done|]. cbn [map any_to existsb]. unfold at_string.
  erewrite at_object by (apply keys_transition || reflexivity). cbn [mbind result_bind as_string snd text_member].
  destruct (any_of (to t) states); [done|exact IH].
Qed.

Lemma count_positive : (0 + N.of_nat (length (transitions c)) =? 0) = false.
Proof.
  destruct (ok_transitions c Hok) as (_ & Hne & _). apply N.eqb_neq.
  destruct (transitions c) as [|t l]; [by destruct Hne|]. cbn [length]. lia.
Qed.

(** What a reader learns of the content. *)
Definition metadata_of (text : string) (read : StreamJournal.StreamJournal) : TransactionJournalMetadata :=
  mk_metadata
    (mk_inspection (current_state c) digest
      (match last (transitions c) with Some t => recorded_at t | None => EmptyString end)
      (Sha256.sha256 text) (StreamJournal.source_digest read) (StreamJournal.source_context read)
      (StreamJournal.publication_root_identity read) (StreamJournal.origin_transaction_id read)
      (StreamJournal.origin_snapshot_sha256 read) false false
      (existsb (fun t => any_of (to t) ["committing"; "committed"; "completed"]) (transitions c))
      (existsb (fun t => any_of (to t) ["committed"; "completed"]) (transitions c)) [])
    read (retain_stream c) (retain_commit c).

Lemma decode_document read :
  sha256_text (chain_text (transitions c)) = Ok digest →
  size (journal_text c digest stream_text) <= 4 * 1024 * 1024 →
  StreamJournal.read_stream_journal document safe_relative_path = Ok read →
  decode_transaction_metadata (spec c) (journal_text c digest stream_text) =
    Ok (metadata_of (journal_text c digest stream_text) read).
Proof.
  intros Hd Hs Hread. pose proof count_positive as Hcount.
  destruct (ok_transitions c Hok) as (Hc & _ & _).
  destruct document_strings as (_ & _ & _ & _ & _ & E1 & E2 & E3). destruct policies as [P1 P2].
  unfold decode_transaction_metadata.
  rewrite (bind_step _ _ _ (parse_journal Hs)), (bind_step _ _ _ header_matches). rewrite (bind_step _ _ tt) by reflexivity.
  rewrite (bind_step _ _ _ (roots_match_document _)), (bind_step _ _ _ document_transitions).
  rewrite (bind_step _ _ _ (decode_items EmptyString EmptyString 0 (transitions c) Hc)). cbv beta iota.
  rewrite !(bind_step _ _ _ (any_items _ _)).
  rewrite (bind_step _ _ _ E1), (bind_step _ _ _ E2), (bind_step _ _ _ E3).
  change (EmptyString +:+ chain_text (transitions c)) with (chain_text (transitions c)).
  rewrite (bind_step _ _ _ Hd), (ok_current c Hok), !String.eqb_refl, Hcount.
  rewrite (bind_step _ _ tt) by reflexivity. rewrite (bind_step _ _ _ requirement_matches).
  rewrite (bind_step _ _ _ P1), (bind_step _ _ _ P2), (bind_step _ _ _ Hread), (bind_step _ _ _ (sha256_text_eq _)).
  unfold metadata_of. by rewrite (ok_current c Hok).
Qed.

End Document.



End JournalFacts.
