(* ===== verification/StreamFacts.v ===== *)
(** The stream journal inside a transaction journal: what
    [render_stream_journal] writes, [read_stream_journal] reads back. *)

From Stdlib Require Import Ascii String NArith ZArith Lia Sorted.
From stdpp Require Import base list sets strings gmap.
From S2P Require Import Prelude Utf8 Sha256 StdMap Json JsonFacts JsonParse TextFacts JsonText.
From S2P Require Import Path Effects World RecordIo StreamJournal Journal JournalText.
From S2P Require Import SessionHost Session SessionSteps SessionFacts JournalFacts.

Module StreamFacts.
Import Utf8 Json JsonFacts JsonParse TextFacts JsonText Path RecordIo Journal JournalText JournalFacts.
Import StreamJournal.

(** ** The fields of the value *)

Definition body_fields (j : StreamJournal) : list (string * value) :=
  [("version", unsigned_integer (stream_version j)); ("source_digest", nullable (source_digest j));
   ("restart_origin", origin_value j); ("entries", array (map entry_value (entries j)))] ++
  (if is_empty (source_context j) then [] else [("source_context", string_value (source_context j))]) ++
  (if is_empty (publication_root_identity j) then []
   else [("publication_root_identity", string_value (publication_root_identity j))]).

Definition stream_fields (j : StreamJournal) : list (string * value) :=
  body_fields j ++ [("digest", string_value (Sha256.sha256 (canonical (make_object (body_fields j)))))].

Lemma of_list_snoc {A} (l : list (string * A)) k v :
  StdMap.of_list (l ++ [(k, v)]) = fst (StdMap.emplace k v (StdMap.of_list l)).
Proof. unfold StdMap.of_list. by rewrite fold_left_app. Qed.

Lemma stream_body_fields j : object (stream_body j) = make_object (body_fields j).
Proof.
  unfold stream_body, body_fields, make_object, stream_version.
  destruct (is_empty (publication_root_identity j)), (is_empty (source_context j)); reflexivity.
Qed.

Lemma render_stream j : render_stream_journal j = Ok (make_object (stream_fields j)).
Proof.
  unfold render_stream_journal. rewrite sha256_canonical_eq, stream_body_fields. cbn [mbind result_bind].
  pose proof (stream_body_fields j) as E. unfold make_object in E. injection E as E.
  unfold stream_fields, make_object at 2. by rewrite of_list_snoc, E.
Qed.

Lemma stream_keys_nodup j : NoDup (map fst (stream_fields j)).
Proof.
  apply (bool_decide_eq_true_1 _). unfold stream_fields, body_fields.
  destruct (is_empty (publication_root_identity j)), (is_empty (source_context j)); vm_compute; reflexivity.
Qed.

Lemma at_make_object l k v : NoDup (map fst l) → StdMap.find k l = Some v → at_ (make_object l) k = Ok v.
Proof. intros Hn Hf. unfold at_, make_object. simpl. by rewrite find_of_list, Hf. Qed.

Lemma contains_make_object l k : NoDup (map fst l) → contains (make_object l) k = StdMap.contains_key k l.
Proof. intros Hn. unfold contains, make_object, StdMap.contains_key. by rewrite find_of_list. Qed.

(** ** Well-formed streams *)

(** The entry against the staged files, by path. *)
Definition entry_matches (files : list StagedFile) (e : StreamEntryObservation) : Prop :=
  match List.find (fun f => String.eqb (generic_string (Journal.relative_path f)) (relative_path e)) files with
  | Some f => phase e = "complete" ∧ Journal.sha256 f = sha256 e ∧ size_bytes f = expected_size e
  | None => phase e ≠ "complete"
  end.

Record entry_ok (files : list StagedFile) (e : StreamEntryObservation) : Prop := {
  e_path : safe_relative_path (relative_path e) = true;
  e_printable : printable (relative_path e) = true;
  e_sha256 : digest (sha256 e) = true;
  e_source : digest (source_identity_digest e) = true;
  e_size : expected_size e <= uint64_max;
  e_phase : (phase e = "intent" ∧ output_identity e = EmptyString) ∨
    ((phase e = "writing" ∨ phase e = "complete") ∧ identity_valid (output_identity e) = true);
  e_staged : entry_matches files e }.

(** Only the last entry may be incomplete. *)
Fixpoint only_last_open (l : list StreamEntryObservation) : Prop :=
  match l with
  | [] => True
  | e :: l => (l ≠ [] → phase e = "complete") ∧ only_last_open l
  end.

Record stream_ok (own : string) (files : list StagedFile) (j : StreamJournal) : Prop := {
  s_source : source_digest j = EmptyString ∨ digest (source_digest j) = true;
  s_context : source_context j = EmptyString ∨
    (size (source_context j) <= 16384 ∧ ∃ v, parse (source_context j) default_limits = Ok v ∧
       canonical v = source_context j ∧ Sha256.sha256 (canonical v) = source_digest j ∧
       printable (source_context j) = true);
  s_publication : publication_root_identity j = EmptyString ∨ identity_valid (publication_root_identity j) = true;
  s_origin : (origin_transaction_id j = EmptyString ∧ origin_snapshot_sha256 j = EmptyString) ∨
    (valid_identifier (origin_transaction_id j) = true ∧ origin_transaction_id j ≠ own ∧
     digest (origin_snapshot_sha256 j) = true ∧ source_digest j ≠ EmptyString);
  s_bound : N.of_nat (length (entries j)) <= 100000;
  s_distinct : NoDup (map (fun e => lowercase (relative_path e)) (entries j));
  s_entries : Forall (entry_ok files) (entries j);
  s_open : only_last_open (entries j);
  s_files : NoDup (map (fun f => generic_string (Journal.relative_path f)) files);
  s_present : present j = true }.

(** ** The text is read as the value *)

Lemma wf_make_object l : NoDup (map fst l) → Forall (fun m => wf (snd m)) l → wf (make_object l).
Proof.
  intros Hn HF. unfold make_object. apply wf_object. split; [apply StdMap.of_list_sorted|].
  by rewrite (of_list_perm l Hn).
Qed.

Lemma fits_make_object d l : d <= 64 → NoDup (map fst l) →
  Forall (fun m => printable (fst m) = true ∧ fits journal_limits (d + 1) (snd m) = true) l →
  fits journal_limits d (make_object l) = true.
Proof.
  intros Hd Hn HF. unfold make_object. cbn [fits]. change (max_depth journal_limits) with 64.
  rewrite (proj2 (N.leb_le _ _) Hd). cbn [andb]. apply forallb_forall. intros [k v] Hx%list_elem_of_In.
  rewrite (of_list_perm l Hn) in Hx. rewrite Forall_forall in HF. destruct (HF _ Hx) as [H1 H2].
  cbn [fst snd] in *. unfold printable in H1. by rewrite H1, H2.
Qed.

Lemma wf_nullable s : wf (nullable s).
Proof. unfold nullable. by destruct (is_empty s). Qed.

Definition entry_fields (e : StreamEntryObservation) : list (string * value) :=
  [("relative_path", string_value (relative_path e)); ("sha256", string_value (sha256 e));
   ("expected_size", unsigned_integer (expected_size e));
   ("source_identity_digest", string_value (source_identity_digest e));
   ("phase", string_value (phase e)); ("output_identity", nullable (output_identity e))].

Lemma entry_keys e : NoDup (map fst (entry_fields e)).
Proof. apply (bool_decide_eq_true_1 _). vm_compute. reflexivity. Qed.

Definition origin_fields (j : StreamJournal) : list (string * value) :=
  [("transaction_id", string_value (origin_transaction_id j));
   ("snapshot_sha256", string_value (origin_snapshot_sha256 j))].

Lemma origin_keys j : NoDup (map fst (origin_fields j)).
Proof. apply (bool_decide_eq_true_1 _). vm_compute. reflexivity. Qed.

Lemma wf_entry files e : entry_ok files e → wf (entry_value e).
Proof.
  intros H. apply (wf_make_object (entry_fields e)); [apply entry_keys|].
  repeat apply Forall_cons_2; try apply Forall_nil_2; cbn [snd]; try exact I; [apply e_size in H; exact H|apply wf_nullable].
Qed.

Lemma wf_origin j : wf (origin_value j).
Proof.
  unfold origin_value. destruct (is_empty _); [done|].
  apply (wf_make_object (origin_fields j)); [apply origin_keys|]. by repeat constructor.
Qed.

Lemma wf_stream own files j : stream_ok own files j → wf (make_object (stream_fields j)).
Proof.
  intros Hj. apply wf_make_object; [apply stream_keys_nodup|]. unfold stream_fields, body_fields.
  repeat apply Forall_app_2; repeat apply Forall_cons_2; try apply Forall_nil_2; cbn [snd]; try exact I.
  - unfold stream_version. by destruct (is_empty _).
  - apply wf_nullable.
  - apply wf_origin.
  - apply wf_array, Forall_map. eapply Forall_impl; [exact (s_entries _ _ _ Hj)|].
    intros e He. by eapply wf_entry.
  - destruct (is_empty (source_context j)); repeat constructor.
  - destruct (is_empty (publication_root_identity j)); repeat constructor.
Qed.

Lemma printable_digest s : s = EmptyString ∨ digest s = true → printable s = true.
Proof. intros [->|H]; [done|]. by apply printable_sha256. Qed.

Lemma printable_identity s : s = EmptyString ∨ identity_valid s = true → printable s = true.
Proof.
  intros [->|H]; [done|]. unfold identity_valid in H. bool_hyps. apply printable_ascii; [|lia].
  unfold ascii_text. eapply forall_bytes_impl; [|eassumption]. intros x. by_bytes x.
Qed.

Lemma sha256_digest m : digest (Sha256.sha256 m) = true.
Proof.
  destruct (Sha256.sha256_shape m) as [H1 H2]. unfold digest. rewrite H1. cbn [andb N.eqb Pos.eqb].
  eapply forall_bytes_impl; [|exact H2]. intros x. by_bytes x.
Qed.

Ltac text_fields := repeat apply Forall_cons_2; try apply Forall_nil_2; (split; [reflexivity|cbn [fst snd]]).

Lemma fits_entry files e : entry_ok files e → fits journal_limits 4 (entry_value e) = true.
Proof.
  intros [Hp Hpr Hs Hd Hz Hph Hst]. apply (fits_make_object 4 (entry_fields e)); [lia|apply entry_keys|].
  text_fields; try done; try (apply fits_text; [lia|]); try (by apply printable_digest; right).
  - destruct Hph as [[-> _]|[[->| ->] _]]; done.
  - apply fits_optional; [lia|]. apply printable_identity. destruct Hph as [[_ ->]|[_ H]]; auto.
Qed.

Lemma fits_stream own files j : stream_ok own files j → fits journal_limits 2 (make_object (stream_fields j)) = true.
Proof.
  intros Hj. apply fits_make_object; [lia|apply stream_keys_nodup|]. unfold stream_fields, body_fields.
  repeat apply Forall_app_2; [text_fields| | |text_fields].
  - done.
  - apply fits_optional; [lia|]. apply printable_digest, (s_source _ _ _ Hj).
  - unfold origin_value. destruct (is_empty _) eqn:E; [done|].
    apply (fits_make_object 3 (origin_fields j)); [lia|apply origin_keys|].
    destruct (s_origin _ _ _ Hj) as [[H _]|(H1 & _ & H2 & _)]; [by rewrite H in E|].
    text_fields; (apply fits_text; [lia|]); [by apply printable_identifier|by apply printable_digest; right].
  - apply fits_array; [lia|]. apply Forall_map. eapply Forall_impl; [exact (s_entries _ _ _ Hj)|].
    intros e He. by eapply fits_entry.
  - destruct (is_empty (source_context j)) eqn:E; [constructor|]. text_fields. apply fits_text; [lia|].
    destruct (s_context _ _ _ Hj) as [H|(_ & v & _ & _ & _ & H)]; [by rewrite H in E|done].
  - destruct (is_empty (publication_root_identity j)) eqn:E; [constructor|]. text_fields. apply fits_text; [lia|].
    apply printable_identity, (s_publication _ _ _ Hj).
  - apply fits_text; [lia|]. apply printable_digest. right. apply sha256_digest.
Qed.

(** ** Reading the value *)

Section Read.
Context (own : string) (files : list StagedFile) (j : StreamJournal) (Hj : stream_ok own files j).
Let v := make_object (stream_fields j).

Lemma at_stream k x : StdMap.find k (stream_fields j) = Some x → at_ v k = Ok x.
Proof. apply at_make_object, stream_keys_nodup. Qed.

Lemma contains_stream k : contains v k = StdMap.contains_key k (stream_fields j).
Proof. apply contains_make_object, stream_keys_nodup. Qed.

Ltac stream_cases := unfold stream_fields, body_fields, stream_version;
  destruct (is_empty (publication_root_identity j)), (is_empty (source_context j)).

Lemma stream_lookups :
  at_ v "version" = Ok (unsigned_integer (stream_version j)) ∧
  at_ v "source_digest" = Ok (nullable (source_digest j)) ∧
  at_ v "restart_origin" = Ok (origin_value j) ∧
  at_ v "entries" = Ok (array (map entry_value (entries j))) ∧
  at_ v "digest" = Ok (string_value (Sha256.sha256 (canonical (make_object (body_fields j))))) ∧
  contains v "source_context" = negb (is_empty (source_context j)).
Proof.
  repeat match goal with |- _ ∧ _ => split end; try apply at_stream; try rewrite contains_stream;
    stream_cases; reflexivity.
Qed.

Lemma read_keys : exact_keys v (stream_keys v (stream_version j)) = Ok tt.
Proof.
  destruct stream_lookups as (_ & _ & _ & _ & _ & Hc). unfold exact_keys, stream_keys. rewrite Hc.
  unfold v, make_object. cbn [mbind result_bind as_object].
  rewrite bool_decide_eq_true_2; [done|]. stream_cases; reflexivity.
Qed.

Lemma read_digest : check_stream_digest v (stream_version j) = Ok tt.
Proof.
  destruct stream_lookups as (_ & _ & _ & _ & Hd & _). unfold check_stream_digest, at_string.
  rewrite Hd. cbn [mbind result_bind as_string]. unfold v at 1, make_object. cbn [mbind result_bind as_object].
  assert (StdMap.erase "digest" (StdMap.of_list (stream_fields j)) = StdMap.of_list (body_fields j)) as ->
    by (stream_cases; reflexivity).
  change (object (StdMap.of_list (body_fields j))) with (make_object (body_fields j)).
  rewrite sha256_canonical_eq, sha256_digest. cbn [mbind result_bind]. rewrite String.eqb_refl.
  unfold stream_version. by destruct (is_empty _).
Qed.

Lemma read_publication_stream : read_publication v (stream_version j) = Ok (publication_root_identity j).
Proof.
  unfold read_publication. destruct (publication_root_identity j) as [|b s] eqn:E.
  - unfold stream_version. by rewrite E.
  - assert (stream_version j = 2) as -> by (unfold stream_version; by rewrite E). cbn [N.eqb Pos.eqb].
    unfold at_string. rewrite (at_stream _ (string_value (String b s)))
      by (rewrite <-E; unfold stream_fields, body_fields; rewrite E; destruct (is_empty (source_context j)); reflexivity).
    cbn [mbind result_bind as_string]. destruct (s_publication _ _ _ Hj) as [H|H]; [by rewrite E in H|].
    rewrite E in H. by rewrite H.
Qed.

Lemma optional_nullable s : optional_string (nullable s) = Ok s.
Proof. unfold nullable. by destruct s. Qed.

Lemma is_null_nullable s : is_null (nullable s) = is_empty s.
Proof. unfold nullable. by destruct s. Qed.

Lemma read_source_stream : read_source_digest v = Ok (source_digest j).
Proof.
  destruct stream_lookups as (_ & Hs & _). unfold read_source_digest. rewrite Hs. cbn [mbind result_bind].
  rewrite optional_nullable, is_null_nullable. cbn [mbind result_bind].
  destruct (s_source _ _ _ Hj) as [->|H]; [done|]. by rewrite H, andb_false_r.
Qed.

Lemma read_context_stream : read_source_context v (source_digest j) = Ok (source_context j).
Proof.
  destruct stream_lookups as (_ & _ & _ & _ & _ & Hc). unfold read_source_context. rewrite Hc.
  destruct (s_context _ _ _ Hj) as [->|(Hs & x & Hp & Hcan & Hsha & _)]; [done|].
  destruct (source_context j) as [|b s] eqn:E; [done|]. cbn [is_empty negb]. unfold at_string.
  rewrite (at_stream _ (string_value (String b s)))
    by (rewrite <-E; unfold stream_fields, body_fields; rewrite E; destruct (is_empty (publication_root_identity j)); reflexivity).
  cbn [mbind result_bind as_string is_empty orb].
  rewrite (proj2 (N.ltb_ge _ _) Hs), (bind_step _ _ _ Hp), Hcan, String.eqb_refl, sha256_canonical_eq.
  cbn [negb mbind result_bind]. rewrite <-Hcan. rewrite Hsha, String.eqb_refl. reflexivity.
Qed.

Lemma read_origin_stream document : at_string document "transaction_id" = Ok own →
  read_origin document v (source_digest j) = Ok (origin_transaction_id j, origin_snapshot_sha256 j).
Proof.
  intros Hown. destruct stream_lookups as (_ & _ & Ho & _). unfold read_origin. rewrite Ho. cbn [mbind result_bind].
  destruct (s_origin _ _ _ Hj) as [[Hid Hsn]|(Hid & Hne & Hsn & Hsrc)].
  - unfold origin_value. rewrite Hid, Hsn. reflexivity.
  - unfold origin_value.
    assert (is_empty (origin_transaction_id j) = false) as -> by (by destruct (origin_transaction_id j)).
    change (make_object _) with (make_object (origin_fields j)).
    rewrite (bind_step (exact_keys _ _) _ tt)
      by (unfold exact_keys, make_object; cbn [mbind result_bind as_object];
          rewrite bool_decide_eq_true_2 by reflexivity; reflexivity).
    assert (at_string (make_object (origin_fields j)) "transaction_id" = Ok (origin_transaction_id j) ∧
      at_string (make_object (origin_fields j)) "snapshot_sha256" = Ok (origin_snapshot_sha256 j)) as [-> ->]
      by (split; unfold at_string; erewrite at_make_object by (apply origin_keys || reflexivity); reflexivity).
    cbn [mbind result_bind is_null make_object]. rewrite Hid, Hown. cbn [negb mbind result_bind].
    apply String.eqb_neq in Hne. rewrite Hne, Hsn. destruct (source_digest j); done.
Qed.

(** *** The staged files by path *)

Lemma staged_lookups f :
  at_string (object_value (staged_members f)) "relative_path" = Ok (generic_string (Journal.relative_path f)) ∧
  at_string (object_value (staged_members f)) "sha256" = Ok (Journal.sha256 f) ∧
  at_unsigned (object_value (staged_members f)) "size_bytes" = Ok (size_bytes f).
Proof.
  unfold at_string, at_unsigned. repeat match goal with |- _ ∧ _ => split end;
    (erewrite at_object by (apply keys_staged || reflexivity); reflexivity).
Qed.

Definition staged_entry (f : StagedFile) : string * value :=
  (generic_string (Journal.relative_path f), object_value (staged_members f)).

Lemma emplace_fresh {A} k (x : A) m : k ∉ map fst m → snd (StdMap.emplace k x m) = true.
Proof.
  induction m as [|[k' x'] m IH]; [done|]. cbn [map fst StdMap.emplace].
  intros [Hne Hk]%not_elem_of_cons. pose proof (StdMap.compare_ltb k k') as C.
  destruct (String.compare k k'); [done|done|]. specialize (IH Hk).
  by destruct (StdMap.emplace k x m).
Qed.

Lemma collect_all l m : NoDup (map fst m ++ map (fun f => fst (staged_entry f)) l) →
  fold_result collect_staged m (map (fun f => object_value (staged_members f)) l) =
  Ok (fold_left (fun m p => fst (StdMap.emplace (fst p) (snd p) m)) (map staged_entry l) m).
Proof.
  revert m. induction l as [|f l IH]; intros m Hn; [done|]. cbn [map fold_result fold_left] in *.
  apply NoDup_app in Hn as (H1 & H2 & H3). apply NoDup_cons in H3 as [H3 H4].
  assert (fst (staged_entry f) ∉ map fst m) as Hf by (intros H; apply (H2 _ H); left).
  pose proof (emplace_fresh _ (object_value (staged_members f)) m Hf) as Hs.
  pose proof (StdMap.emplace_perm _ _ _ Hs) as Hp. unfold staged_entry in *. cbn [fst snd] in *.
  assert (collect_staged m (object_value (staged_members f)) =
    match StdMap.emplace (generic_string (Journal.relative_path f)) (object_value (staged_members f)) m with
    | (m, true) => Ok m
    | (_, false) => throw "stream journal has duplicate staged closure paths"
    end) as ->
    by (unfold collect_staged; by rewrite (proj1 (staged_lookups f))).
  destruct (StdMap.emplace _ _ m) as [m' b]. cbn [fst snd] in *. subst b. cbn [mbind result_bind].
  rewrite IH; [done|]. rewrite Hp. cbn [map fst app]. apply NoDup_cons. split.
  - intros [H|H]%elem_of_app; [done|]. by apply H3.
  - apply NoDup_app. split; [done|]. split; [|done]. intros x Hx Hx'. apply (H2 x Hx). by right.
Qed.

Lemma staged_lookup p :
  StdMap.find p (StdMap.of_list (map staged_entry files)) =
  option_map (fun f => object_value (staged_members f))
    (List.find (fun f => String.eqb (generic_string (Journal.relative_path f)) p) files).
Proof.
  rewrite find_of_list by (rewrite map_map; exact (s_files _ _ _ Hj)).
  clear Hj. induction files as [|f l IH]; [done|]. cbn [map StdMap.find List.find staged_entry].
  rewrite String.eqb_sym. by destruct (String.eqb _ p).
Qed.

(** *** The entries *)

Lemma entry_lookups e :
  at_string (entry_value e) "relative_path" = Ok (relative_path e) ∧
  at_string (entry_value e) "sha256" = Ok (sha256 e) ∧
  at_unsigned (entry_value e) "expected_size" = Ok (expected_size e) ∧
  at_string (entry_value e) "source_identity_digest" = Ok (source_identity_digest e) ∧
  at_string (entry_value e) "phase" = Ok (phase e) ∧
  at_ (entry_value e) "output_identity" = Ok (nullable (output_identity e)) ∧
  exact_keys (entry_value e) ["relative_path"; "sha256"; "expected_size"; "source_identity_digest";
    "phase"; "output_identity"] = Ok tt.
Proof.
  unfold at_string, at_unsigned. change (entry_value e) with (make_object (entry_fields e)).
  repeat match goal with |- _ ∧ _ => split end;
    try (erewrite at_make_object by (apply entry_keys || reflexivity); reflexivity).
  unfold exact_keys, make_object. cbn [mbind result_bind as_object].
  by rewrite bool_decide_eq_true_2 by reflexivity.
Qed.

Lemma staged_agrees e : entry_ok files e →
  match StdMap.find (relative_path e) (StdMap.of_list (map staged_entry files)) with
  | Some staged =>
    differs ← (s ← at_string staged "sha256"; Ok (negb (String.eqb s (sha256 e)))) |||
      (n ← at_unsigned staged "size_bytes"; Ok (negb (n =? expected_size e)));
    throw_if differs "stream completion differs from staged closure";;
    throw_if (negb (String.eqb (phase e) "complete")) "stream phase differs from staged closure"
  | None => throw_if (String.eqb (phase e) "complete") "stream phase differs from staged closure"
  end = Ok tt.
Proof.
  intros He. rewrite staged_lookup. pose proof (e_staged _ _ He) as H. unfold entry_matches in H.
  destruct (List.find _ files) as [f|]; cbn [option_map].
  - destruct H as (-> & <- & <-). destruct (staged_lookups f) as (_ & -> & ->).
    cbn [mbind result_bind]. by rewrite !String.eqb_refl, N.eqb_refl.
  - apply String.eqb_neq in H. by rewrite H.
Qed.

Lemma set_insert_fresh k s : k ∉ s → ∃ s', StdMap.set_insert k s = (s', true) ∧ s' ≡ₚ k :: s.
Proof.
  intros Hk. unfold StdMap.set_insert. assert (map fst (map (fun x => (x, tt)) s) = s) as E
    by (rewrite map_map; apply map_id). rewrite <-E in Hk.
  pose proof (emplace_fresh k tt _ Hk) as Hs. pose proof (StdMap.emplace_perm _ _ _ Hs) as Hp.
  destruct (StdMap.emplace _ _ _) as [m b]. cbn [fst snd] in *. subst b. exists (map fst m). split; [done|].
  rewrite Hp. cbn [map fst]. by rewrite E.
Qed.

Lemma read_one e paths acc : entry_ok files e → lowercase (relative_path e) ∉ paths → ∃ paths',
  read_entry safe_relative_path (StdMap.of_list (map staged_entry files)) (paths, false, acc) (entry_value e) =
    Ok (paths', negb (String.eqb (phase e) "complete"), acc ++ [e]) ∧
  paths' ≡ₚ lowercase (relative_path e) :: paths.
Proof.
  intros He Hn. destruct (set_insert_fresh _ _ Hn) as (paths' & Hs & Hp). exists paths'. split; [|done].
  destruct (entry_lookups e) as (E1 & E2 & E3 & E4 & E5 & E6 & E7). unfold read_entry.
  rewrite (bind_step _ _ _ E7), (bind_step _ _ _ E1), (bind_step _ _ _ E2), (bind_step _ _ _ E3),
    (bind_step _ _ _ E4), (bind_step _ _ _ E5), (bind_step _ _ _ E6), (bind_step _ _ _ (optional_nullable _)).
  cbv zeta. rewrite Hs, is_null_nullable, (e_path _ _ He), (e_sha256 _ _ He), (e_source _ _ He). cbn [negb orb].
  assert ((negb (String.eqb (phase e) "intent") && negb (String.eqb (phase e) "writing") &&
      negb (String.eqb (phase e) "complete")) ||
     (if String.eqb (phase e) "intent" then negb (is_empty (output_identity e))
      else negb (identity_valid (output_identity e))) = false) as ->.
  { destruct (e_phase _ _ He) as [[-> ->]|[[->| ->] ->]]; reflexivity. }
  rewrite (bind_step _ _ _ (staged_agrees e He)). by destruct e.
Qed.

Lemma read_all l : Forall (entry_ok files) l → only_last_open l → ∀ paths acc,
  NoDup (paths ++ map (fun e => lowercase (relative_path e)) l) → ∃ paths' b,
  fold_result (read_entry safe_relative_path (StdMap.of_list (map staged_entry files))) (paths, false, acc)
    (map entry_value l) = Ok (paths', b, acc ++ l).
Proof.
  induction 1 as [|e l He Hl IH]; intros Hopen paths acc Hn; cbn [map fold_result].
  - exists paths, false. by rewrite app_nil_r.
  - cbn [only_last_open map] in *. destruct Hopen as [Hc Hopen]. pose proof Hn as Hn'.
    rewrite <-Permutation_middle in Hn'. apply NoDup_cons in Hn' as [Hx Hn'].
    destruct (read_one e paths acc He) as (paths' & -> & Hp).
    { intros H. apply Hx, elem_of_app. by left. }
    cbn [mbind result_bind]. destruct l as [|e' l].
    + eexists _, _. cbn [map fold_result]. reflexivity.
    + rewrite (Hc ltac:(done)). cbn [String.eqb Ascii.eqb Bool.eqb negb].
      destruct (IH Hopen paths' (acc ++ [e])) as (p' & b & Hr).
      { rewrite Hp. by rewrite <-Permutation_middle in Hn. }
      exists p', b. rewrite <-app_assoc in Hr. exact Hr.
Qed.
End Read.
End StreamFacts.
