(* ===== verification/JournalRoundTrip.v ===== *)
(** The journal round trip, streams included: what [render_journal] writes for
    a well-formed content, [decode_transaction_metadata] reads back. *)

From Stdlib Require Import Ascii String NArith ZArith Lia Sorted.
From stdpp Require Import base list sets strings gmap.
From S2P Require Import Prelude Utf8 Sha256 StdMap Json JsonFacts JsonParse TextFacts JsonText.
From S2P Require Import Path Effects World RecordIo StreamJournal Journal JournalText.
From S2P Require Import SessionHost Session SessionSteps SessionFacts JournalFacts StreamFacts.

Module JournalRoundTrip.
Import Json JsonFacts JsonParse TextFacts JsonText Path RecordIo Journal JournalText JournalFacts StreamFacts.

(** A present stream has closed the cleanup latch and is well formed against
    the staged files. *)
Definition stream_section_ok (c : JournalContent) : Prop :=
  StreamJournal.present (stream c) = true →
  retain_stream c = true ∧ stream_ok (transaction_id (spec c)) (staged_files c) (stream c).

(** The stream a reader sees. *)
Definition visible_stream (c : JournalContent) : StreamJournal.StreamJournal :=
  if StreamJournal.present (stream c) then stream c else StreamJournal.empty_stream.

Definition chain_digest (c : JournalContent) : string := Sha256.sha256 (chain_text (transitions c)).

(** The stream section of the document and its text. *)
Definition section_value (c : JournalContent) : value := make_object (stream_fields (stream c)).
Definition section_text (c : JournalContent) : string :=
  if StreamJournal.present (stream c) then canonical (section_value c) else EmptyString.

Section RoundTrip.
Context (c : JournalContent) (Hok : content_ok c) (Hstream : stream_section_ok c).

#[local] Abbreviation stream_value := (section_value c).
#[local] Abbreviation stream_text := (section_text c).

Lemma chain_digest_valid : valid_sha256 (chain_digest c) = true.
Proof. apply sha256_digest. Qed.

Lemma stream_text_reads : StreamJournal.present (stream c) = true →
  reads stream_text stream_value ∧ fits journal_limits 2 stream_value = true.
Proof.
  intros Hp. destruct (Hstream Hp) as [_ Hs]. unfold section_text. rewrite Hp.
  split; [apply reads_canonical; by eapply wf_stream|by eapply fits_stream].
Qed.

Abbreviation metadata := (object_value (metadata_members c stream_text stream_value)).

Lemma section_lookups : StreamJournal.present (stream c) = true →
  at_string metadata "stream_cleanup_policy" = Ok "retain_only" ∧
  at_ metadata "staging_identity" = Ok null_value ∧
  at_ metadata "stream_journal" = Ok stream_value ∧
  StreamJournal.at_array metadata "staged_files" =
    Ok (map (fun f => object_value (staged_members f)) (staged_files c)).
Proof.
  intros E. destruct (Hstream E) as [Hr _].
  assert (∀ k v, StdMap.find k (map member_value (metadata_members c stream_text stream_value)) = Some v →
    at_ metadata k = Ok v) as Hat by (intros; apply at_metadata; [exact stream_text_reads|done]).
  unfold at_string, StreamJournal.at_array. repeat match goal with |- _ ∧ _ => split end.
  - erewrite Hat by (unfold metadata_members; rewrite Hr; reflexivity). reflexivity.
  - apply Hat. unfold metadata_members, retained. by rewrite Hr.
  - apply Hat. unfold metadata_members. rewrite Hr, E. by destruct (retain_commit c).
  - erewrite Hat by (unfold metadata_members; rewrite Hr, E; destruct (retain_commit c); reflexivity).
    cbn [mbind result_bind as_array snd list_member]. by rewrite map_map.
Qed.

Lemma read_stream_document :
  StreamJournal.read_stream_journal (document c (chain_digest c) stream_text stream_value) safe_relative_path =
  Ok (visible_stream c).
Proof.
  destruct (document_contains c (chain_digest c) stream_text stream_value) as [Hc _].
  destruct (metadata_contains c stream_text stream_value stream_text_reads) as (Hp & _ & Hj).
  pose proof (document_metadata c (chain_digest c) stream_text stream_value) as Hm.
  destruct (document_strings c (chain_digest c) stream_text stream_value) as (_ & Hown & _).
  unfold StreamJournal.read_stream_journal, visible_stream. rewrite Hc. cbn [negb].
  rewrite (bind_step _ _ _ Hm), Hj. destruct (StreamJournal.present (stream c)) eqn:E; [|done]. cbn [negb].
  destruct (Hstream E) as [Hr Hs], (section_lookups E) as (M1 & M2 & M3 & M4).
  destruct (stream_lookups (stream c)) as (L1 & _ & _ & L4 & _).
  rewrite Hp, Hr, M1, M2, (bind_step _ _ false) by reflexivity. rewrite (bind_step _ _ tt) by reflexivity.
  assert (StreamJournal.at_array stream_value "entries" =
    Ok (map StreamJournal.entry_value (StreamJournal.entries (stream c)))) as L4'
    by (unfold StreamJournal.at_array, section_value; by rewrite L4).
  rewrite (bind_step _ _ _ M3). unfold StreamJournal.at_unsigned, section_value in *.
  rewrite L1, (bind_step _ _ (StreamJournal.stream_version (stream c))) by reflexivity.
  rewrite (bind_step _ _ _ (read_keys _)), (bind_step _ _ _ (read_digest _)),
    (bind_step _ _ _ (read_publication_stream _ _ _ Hs)), (bind_step _ _ _ (read_source_stream _ _ _ Hs)),
    (bind_step _ _ _ (read_context_stream _ _ _ Hs)), (bind_step _ _ _ (read_origin_stream _ _ _ Hs _ Hown)).
  cbv beta iota. rewrite (bind_step _ _ _ M4).
  rewrite (bind_step _ _ _ (collect_all (staged_files c) [] (s_files _ _ _ Hs))).
  rewrite (bind_step _ _ _ L4'), length_map, (proj2 (N.ltb_ge _ _) (s_bound _ _ _ Hs)), (bind_step _ _ tt) by reflexivity.
  destruct (read_all _ _ _ Hs _ (s_entries _ _ _ Hs) (s_open _ _ _ Hs) [] [] (s_distinct _ _ _ Hs)) as (paths & b & Hr').
  unfold StdMap.of_list in Hr'. rewrite (bind_step _ _ _ Hr'). cbv beta iota.
  pose proof (s_present _ _ _ Hs). destruct (stream c). simpl in *. by subst.
Qed.
End RoundTrip.

(** C7 The journal of a well-formed content is written and read back: unless the
    text is longer than a reader accepts, in which case nothing is written,
    decoding it under the same specification gives the state, the chain
    digest, the time of the last transition, the digest of the text, the
    flags of the history, both latches and the whole stream section. *)
Theorem journal_round_trip c : content_ok c → stream_section_ok c →
  match render_journal c with
  | Ok text => decode_transaction_metadata (spec c) text =
      Ok (metadata_of c (chain_digest c) text (visible_stream c))
  | Throw e => e = runtime_error "transaction journal exceeds its bounded recovery reader"
  end.
Proof.
  intros Hok Hs. unfold render_journal. rewrite sha256_text_eq. cbn [mbind result_bind].
  assert ((if StreamJournal.present (stream c)
    then v ← StreamJournal.render_stream_journal (stream c); Ok (canonical v) else Ok EmptyString) =
    Ok (section_text c)) as ->.
  { unfold section_text. rewrite render_stream. by destruct (StreamJournal.present _). }
  cbn [mbind result_bind]. fold (chain_digest c). cbv zeta.
  destruct (N.ltb_spec (4 * 1024 * 1024) (size (journal_text c (chain_digest c) (section_text c)))) as [Hl|Hl]; [done|].
  rewrite (bind_step _ _ tt) by reflexivity.
  eapply decode_document; eauto using chain_digest_valid, stream_text_reads, read_stream_document, sha256_text_eq.
Qed.

(** A session in the staging state that streams its second file. *)
Definition sample_digest : string := "0123456789abcdef0123456789abcdef0123456789abcdef0123456789abcdef".

Definition sample_spec : TransactionSpec :=
  mk_spec "tx-1" "plan-1" sample_digest "install_local" "/srv/stage" "/srv/app" "/srv/state" "/srv/audit"
    legacy_observed.

Definition sample_content : JournalContent :=
  mk_content sample_spec (staging_path sample_spec) "2024-01-01T00:00:00Z" "staging" EmptyString true false
    (StreamJournal.mk_stream sample_digest EmptyString "0000000000000001:0000000000000002" EmptyString EmptyString
      [StreamJournal.mk_entry "bin/a" sample_digest 7 sample_digest "complete" "0000000000000001:0000000000000003";
       StreamJournal.mk_entry "bin/b" sample_digest 9 sample_digest "intent" EmptyString] true)
    [mk_transition 0 EmptyString "created" "2024-01-01T00:00:00Z";
     mk_transition 1 "created" "validated" "2024-01-01T00:00:01Z";
     mk_transition 2 "validated" "planned" "2024-01-01T00:00:02Z";
     mk_transition 3 "planned" "staging" "2024-01-01T00:00:03Z"]
    [mk_staged "bin/a" sample_digest 7].

Lemma sample_ok : content_ok sample_content.
Proof.
  split; try match goal with |- _ = _ => vm_compute; reflexivity end.
  - repeat apply Forall_cons_2; try apply Forall_nil_2; vm_compute; reflexivity.
  - split; [|split; [discriminate|vm_compute; discriminate]]. repeat (split; [vm_compute; reflexivity|]). exact I.
  - repeat apply Forall_cons_2; try apply Forall_nil_2; vm_compute; reflexivity.
  - repeat apply Forall_cons_2; try apply Forall_nil_2.
    split; [|split]; vm_compute; [reflexivity|reflexivity|discriminate].
  - discriminate.
Qed.

Lemma sample_stream_ok : stream_section_ok sample_content.
Proof.
  intros _. split; [reflexivity|]. split.
  - right. vm_compute. reflexivity.
  - left. reflexivity.
  - right. vm_compute. reflexivity.
  - left. split; reflexivity.
  - vm_compute. discriminate.
  - apply (bool_decide_eq_true_1 _). vm_compute. reflexivity.
  - repeat apply Forall_cons_2; [split|split|apply Forall_nil_2]; 
      try match goal with |- _ = _ => vm_compute; reflexivity | |- _ <= _ => vm_compute; discriminate end.
    + right. split; [right; reflexivity|vm_compute; reflexivity].
    + split; [|split]; reflexivity.
    + left. split; reflexivity.
    + vm_compute. discriminate.
  - split; [reflexivity|]. split; [intros []; reflexivity|exact I].
  - apply (bool_decide_eq_true_1 _). vm_compute. reflexivity.
  - reflexivity.
Qed.

Lemma journal_round_trip_witness : ∃ text, render_journal sample_content = Ok text ∧
  decode_transaction_metadata sample_spec text =
    Ok (metadata_of sample_content (chain_digest sample_content) text (stream sample_content)).
Proof.
  pose proof (journal_round_trip sample_content sample_ok sample_stream_ok) as H.
  destruct (render_journal sample_content) as [text|e] eqn:E.
  - exists text. split; [reflexivity|exact H].
  - exfalso. vm_compute in E. discriminate E.
Defined.

End JournalRoundTrip.
