(* ===== verification/RecoveryFacts.v ===== *)
(** What the readers of a transaction journal guarantee: a document they accept
    carries one numbered path of the state graph under its digest, the two
    decoders agree, and a session reopened from it satisfies the invariant of
    [SessionFacts]. *)

From Stdlib Require Import Ascii String NArith ZArith Lia.
From stdpp Require Import base list strings gmap sets relations.
From S2P Require Import Prelude Sha256 StdMap Json JsonFacts Path Effects World RecordIo StreamJournal.
From S2P Require Import Journal SessionHost Maintenance Session Recovery SessionSteps SessionFacts.
From S2P Require Import JournalFacts.

Module RecoveryFacts.
Import Json Path Effects World Journal SessionHost Session SessionSteps SessionFacts Recovery.

(** ** Transitions as items of the document *)

Record item_is (item : value) (t : Transition) : Prop := {
  item_sequence : StreamJournal.at_unsigned item "sequence" = Ok (sequence t);
  item_from : (f ← at_ item "from"; StreamJournal.optional_string f) = Ok (from t);
  item_to : at_string item "to" = Ok (to t);
  item_time : at_string item "recorded_at" = Ok (recorded_at t) }.

Lemma item_is_functional item t t' : item_is item t → item_is item t' → t = t'.
Proof.
  intros [A1 A2 A3 A4] [B1 B2 B3 B4]. destruct t, t'. simpl in *.
  rewrite A1 in B1. rewrite A2 in B2. rewrite A3 in B3. rewrite A4 in B4. by simplify_eq.
Qed.

Lemma items_functional items l l' : Forall2 item_is items l → Forall2 item_is items l' → l = l'.
Proof.
  intros H. revert l'. induction H as [|i t items l Hi _ IH]; intros l' H'; inversion H'; subst; [done|].
  f_equal; [by eapply item_is_functional|auto].
Qed.

(** Invert a reader that returned: every test passed. *)
Ltac inv_read :=
  inv_result; rewrite ?or_else_false in *; destruct_and?; inv_result;
  repeat match goal with H : (if ?c then Ok true else _) = Ok false |- _ =>
    destruct c eqn:?; [discriminate H|] end;
  simplify_eq; bool_hyps; subst.

(** One round of either loop. *)
Lemma decode_transition_ok id prior text n item r :
  decode_transition id (prior, text, n) item = Ok r → ∃ t,
  item_is item t ∧ sequence t = n ∧ from t = prior ∧ valid_transition prior (to t) = true ∧
  r = (to t, text +:+ chain_line (sequence t) (from t) (to t) (recorded_at t), n + 1).
Proof.
  unfold decode_transition. intros H. inv_read.
  match goal with H3 : at_string item "to" = Ok ?t, H4 : at_string item "recorded_at" = Ok ?r |- _ =>
    exists (mk_transition n prior t r) end.
  repeat split; try done. simpl. match goal with H : at_ item "from" = _ |- _ => by rewrite H end.
Qed.

Lemma resume_transition_ok id prior chain item r :
  resume_transition id (prior, chain) item = Ok r → ∃ t,
  item_is item t ∧ sequence t = N.of_nat (length chain) ∧ from t = prior ∧
  valid_transition prior (to t) = true ∧ r = (to t, chain ++ [t]).
Proof.
  unfold resume_transition. intros H. inv_read.
  match goal with H3 : at_string item "to" = Ok ?t, H4 : at_string item "recorded_at" = Ok ?r |- _ =>
    exists (mk_transition (N.of_nat (length chain)) prior t r) end.
  repeat split; try done. simpl. match goal with H : at_ item "from" = _ |- _ => by rewrite H end.
Qed.

Lemma decode_fold id items prior text n prior' text' n' :
  fold_result (decode_transition id) (prior, text, n) items = Ok (prior', text', n') → ∃ l,
  Forall2 item_is items l ∧ chained prior n l ∧ prior' = leads prior l ∧
  text' = text +:+ chain_text l ∧ n' = n + N.of_nat (length l).
Proof.
  revert prior text n. induction items as [|item items IH]; intros prior text n; cbn [fold_result].
  - intros [= <- <- <-]. exists []. repeat split; simpl; [constructor|by rewrite append_nil_r|lia].
  - intros H. apply bind_ok in H as (r & H1 & H2).
    apply decode_transition_ok in H1 as (t & Hi & Hn & Hf & Hv & ->).
    apply IH in H2 as (l & Hl & Hc & -> & -> & ->). exists (t :: l).
    split; [by constructor|]. rewrite <-Hn in *. cbn [chained leads chain_text length].
    repeat split; try done; [by rewrite append_assoc|lia].
Qed.

Lemma resume_fold id items prior chain prior' chain' :
  fold_result (resume_transition id) (prior, chain) items = Ok (prior', chain') → ∃ l,
  Forall2 item_is items l ∧ chained prior (N.of_nat (length chain)) l ∧ prior' = leads prior l ∧
  chain' = chain ++ l.
Proof.
  revert prior chain. induction items as [|item items IH]; intros prior chain; cbn [fold_result].
  - intros [= <- <-]. exists []. repeat split; simpl; [constructor|by rewrite app_nil_r].
  - intros H. apply bind_ok in H as (r & H1 & H2).
    apply resume_transition_ok in H1 as (t & Hi & Hn & Hf & Hv & ->).
    apply IH in H2 as (l & Hl & Hc & -> & ->). exists (t :: l).
    split; [by constructor|]. cbn [chained leads].
    rewrite length_app in Hc. simpl in Hc.
    replace (N.of_nat (length chain + 1)) with (N.of_nat (length chain) + 1) in Hc by lia.
    repeat split; try done. by rewrite <-app_assoc.
Qed.

Lemma any_to_ok states items l b : Forall2 item_is items l → any_to states items = Ok b →
  b = existsb (fun t => any_of (to t) states) l.
Proof.
  induction 1 as [|item t items l Hi _ IH]; cbn [any_to existsb]; [by intros [= <-]|].
  rewrite (item_to _ _ Hi). cbn [mbind result_bind]. destruct (any_of (to t) states); [by intros [= <-]|exact IH].
Qed.

(** ** The two decoders *)

(** What holds of a document that a decoder accepted. *)
Record history_of (s : TransactionSpec) (document : value) (l : list Transition) : Prop := {
  hist_items : ∃ items, StreamJournal.at_array document "transitions" = Ok items ∧ Forall2 item_is items l;
  hist_header : journal_header_differs document s = Ok false;
  hist_chain : chained EmptyString 0 l;
  hist_nonempty : l ≠ [];
  hist_state : at_string document "current_state" = Ok (leads EmptyString l);
  hist_digest : at_string document "journal_digest" = Ok (Sha256.sha256 (chain_text l)) }.

Lemma history_functional s document l l' : history_of s document l → history_of s document l' → l = l'.
Proof.
  intros [(i & E & H) _ _ _ _ _] [(i' & E' & H') _ _ _ _ _]. rewrite E in E'. simplify_eq. by eapply items_functional.
Qed.

Lemma decode_sound s text m : decode_transaction_metadata s text = Ok m → ∃ document l,
  parse text journal_limits = Ok document ∧ history_of s document l ∧
  i_current_state (inspection m) = leads EmptyString l ∧
  i_journal_digest (inspection m) = Sha256.sha256 (chain_text l) ∧
  i_snapshot_sha256 (inspection m) = Sha256.sha256 text ∧
  commit_started (inspection m) = existsb (fun t => any_of (to t) ["committing"; "committed"; "completed"]) l ∧
  commit_confirmed (inspection m) = existsb (fun t => any_of (to t) ["committed"; "completed"]) l ∧
  retain_stream_cleanup document = Ok (retained_stream m) ∧
  retain_commit_cleanup document = Ok (retained_commit m) ∧
  StreamJournal.read_stream_journal document safe_relative_path = Ok (m_stream m).
Proof.
  unfold decode_transaction_metadata. intros H.
  apply bind_ok in H as (document & Hp & H). apply bind_ok in H as (bad & Hh & H).
  apply bind_ok in H as ([] & Hb%throw_if_ok & H). subst bad.
  apply bind_ok in H as ([] & Hr & H). apply bind_ok in H as (items & Hi & H).
  apply bind_ok in H as ([[prior chain] count] & Hf & H).
  apply decode_fold in Hf as (l & Hl & Hc & -> & -> & ->).
  apply bind_ok in H as (started & Hs & H). apply bind_ok in H as (confirmed & Hco & H).
  apply (any_to_ok _ _ _ _ Hl) in Hs, Hco.
  apply bind_ok in H as (current & H1 & H). apply bind_ok in H as (digest & H2 & H).
  apply bind_ok in H as (recorded & H3 & H).
  apply bind_ok in H as (expected & He & H). rewrite JournalFacts.sha256_text_eq in He. injection He as <-.
  apply bind_ok in H as ([] & H4%throw_if_ok & H). bool_hyps. subst.
  apply bind_ok in H as ([] & Hv & H). apply bind_ok in H as (rs & H5 & H).
  apply bind_ok in H as (rc & H6 & H). apply bind_ok in H as (stream & H7 & H).
  rewrite JournalFacts.sha256_text_eq in H. injection H as <-. exists document, l. split; [done|]. split; [|done].
  split; try done; [by exists items|]. intros ->. simpl in *. lia.
Qed.

Lemma load_sound s text l : load_document s text = Ok l →
  parse text journal_limits = Ok (l_document l) ∧ history_of s (l_document l) (l_chain l) ∧
  l_state l = leads EmptyString (l_chain l) ∧
  validate_commit_requirement (l_document l) (required_commit_authority s) = Ok tt ∧
  retain_stream_cleanup (l_document l) = Ok (l_retain_stream l) ∧
  retain_commit_cleanup (l_document l) = Ok (l_retain_commit l) ∧
  StreamJournal.read_stream_journal (l_document l) safe_relative_path = Ok (l_stream l).
Proof.
  unfold load_document. intros H.
  apply bind_ok in H as (document & Hp & H). apply bind_ok in H as (bad & Hh & H).
  apply bind_ok in H as ([] & Hb%throw_if_ok & H). subst bad.
  apply bind_ok in H as ([] & Hv & H). apply bind_ok in H as (rc & H6 & H).
  apply bind_ok in H as ([] & Hr & H). apply bind_ok in H as (created & H0 & H).
  apply bind_ok in H as (items & Hi & H). apply bind_ok in H as ([prior chain] & Hf & H).
  apply resume_fold in Hf as (c & Hl & Hc & -> & ->). cbn [app] in H.
  apply bind_ok in H as (hash & He & H). rewrite JournalFacts.sha256_text_eq in He. injection He as <-.
  apply bind_ok in H as (bad & Hbad & H).
  apply bind_ok in H as ([] & Hb%throw_if_ok & H). subst bad.
  apply or_else_false in Hbad as [[Hne Hst]%or_else_false Hd].
  apply bind_ok in H as (rs & H5 & H). apply bind_ok in H as (stream & H7 & H). injection H as <-.
  unfold differs in Hst, Hd. inv_result. bool_hyps. subst. simpl.
  repeat (split; [done|]). split; [|done]. split; try done; [by exists items|].
  intros ->. done.
Qed.

(** The loop of the constructor accepts what the loop of the inspector accepts. *)
Lemma decode_resume id items prior text n chain r :
  fold_result (decode_transition id) (prior, text, n) items = Ok r → n = N.of_nat (length chain) →
  ∃ prior' l, fold_result (resume_transition id) (prior, chain) items = Ok (prior', chain ++ l).
Proof.
  revert prior text n chain. induction items as [|item items IH]; intros prior text n chain; cbn [fold_result].
  - intros _ _. exists prior, []. by rewrite app_nil_r.
  - intros H Hn. apply bind_ok in H as (st & H1 & H2). pose proof H1 as H1'.
    apply decode_transition_ok in H1' as (t & Hi & Ht & Hf & Hv & ->).
    assert (resume_transition id (prior, chain) item = Ok (to t, chain ++ [t])) as ->.
    { unfold decode_transition in H1. inv_read. destruct Hi as [I1 I2 I3 I4]. unfold resume_transition.
      rewrite I1. cbn [mbind result_bind]. destruct (at_ item "from") as [f|]; [|done].
      cbn [mbind result_bind] in *. rewrite I2, I3, I4. cbn [mbind result_bind]. rewrite Ht.
      rewrite N.eqb_refl, String.eqb_refl, Hv.
      match goal with H : differs item _ _ = Ok false, H' : at_ item "durable_before_external_visibility" = Ok _ |- _ =>
        rewrite (H : differs item "transition_id" (id +:+ "." +:+ to_string (N.of_nat (length chain))) = Ok false), H'
      end.
      cbn [negb orb mbind result_bind or_else].
      match goal with H : as_boolean _ = Ok true |- _ => rewrite H end.
      clear IH H2. destruct t; simpl in *; by subst. }
    cbn [mbind result_bind]. destruct (IH _ _ _ (chain ++ [t]) H2) as (prior' & l & ->).
    { rewrite length_app. simpl. lia. }
    exists prior', (t :: l). by rewrite <-app_assoc.
Qed.
Lemma check_roots_what document s staging what what' :
  check_roots document s staging what = Ok tt → check_roots document s staging what' = Ok tt.
Proof.
  unfold check_roots. intros H. apply bind_ok in H as (items & -> & H). apply bind_ok in H as (roots & Hr & H).
  apply throw_if_ok in H. cbn [mbind result_bind]. rewrite Hr. cbn [mbind result_bind]. by rewrite H.
Qed.

(** C8 The readers of a journal agree.  A text that the inspector accepts is a
    document whose transitions are one non-empty numbered path of the state
    graph from nothing to the reported state, bound by the reported digest; its
    commit flags say whether that path has reached committing or committed; and
    the resuming constructor loads from the same text exactly that path, that
    state, those cleanup latches and that stream, unless the text has no time of
    creation. *)
Theorem readers_agree s text :
  match decode_transaction_metadata s text with
  | Ok m => ∃ document l,
      parse text journal_limits = Ok document ∧ history_of s document l ∧
      i_current_state (inspection m) = leads EmptyString l ∧
      i_journal_digest (inspection m) = Sha256.sha256 (chain_text l) ∧
      i_snapshot_sha256 (inspection m) = Sha256.sha256 text ∧
      commit_started (inspection m) = existsb (fun t => any_of (to t) ["committing"; "committed"; "completed"]) l ∧
      commit_confirmed (inspection m) = existsb (fun t => any_of (to t) ["committed"; "completed"]) l ∧
      load_document s text =
        (created ← at_string document "created_at";
         Ok (mk_loaded document (retained_commit m) created (leads EmptyString l) l (retained_stream m) (m_stream m)))
  | Throw _ => True
  end.
Proof.
  destruct (decode_transaction_metadata s text) as [m|] eqn:E; [|done].
  pose proof E as E'. apply decode_sound in E' as (document & l & Hp & Hh & H1 & H2 & H3 & H4 & H5 & H6 & H7 & H8).
  exists document, l. repeat (split; [done|]).
  assert (validate_commit_requirement document (required_commit_authority s) = Ok tt ∧
    check_roots document s (staging_path s) "transaction journal root authority does not match recovery inputs" = Ok tt ∧
    fold_result (resume_transition (transaction_id s)) (EmptyString, [])
      (default [] (match StreamJournal.at_array document "transitions" with Ok i => Some i | _ => None end)) =
      Ok (leads EmptyString l, l)) as (Hv & Hr & Hf).
  { unfold decode_transaction_metadata in E. rewrite Hp in E. cbn [mbind result_bind] in E.
    apply bind_ok in E as (? & _ & E). apply bind_ok in E as (? & _ & E). apply bind_ok in E as ([] & Hr & E).
    apply bind_ok in E as (items & Hi & E). apply bind_ok in E as ([[prior chain] count] & Hf & E).
    do 7 (apply bind_ok in E as (? & _ & E)). apply bind_ok in E as ([] & Hv & E).
    split; [done|]. split; [by eapply check_roots_what|]. rewrite Hi. cbn [default id].
    destruct (decode_resume _ _ _ _ _ [] _ Hf eq_refl) as (prior' & l' & Hl). unfold default, id. rewrite Hl.
    pose proof Hl as Hl'. apply resume_fold in Hl' as (c & Hc & _ & -> & ->).
    destruct Hh as [(items' & Hi' & Hl') _ _ _ _ _]. rewrite Hi in Hi'. simplify_eq.
    by rewrite (items_functional _ _ _ Hc Hl'). }
  destruct Hh as [(items & Hi & Hl) Hd Hc Hne Hs Hg]. rewrite Hi in Hf. unfold default, id in Hf.
  unfold load_document. rewrite Hp. cbn [mbind result_bind]. rewrite Hd. cbn [mbind result_bind throw_if].
  rewrite Hv, H7. cbn [mbind result_bind]. rewrite Hr. cbn [mbind result_bind].
  destruct (at_string document "created_at") as [created|e]; [|done]. cbn [mbind result_bind].
  rewrite Hi. cbn [mbind result_bind]. rewrite Hf. cbn [mbind result_bind].
  rewrite JournalFacts.sha256_text_eq. cbn [mbind result_bind]. unfold differs. rewrite Hs, Hg.
  cbn [mbind result_bind]. rewrite !String.eqb_refl.
  destruct l as [|t l]; [done|]. cbn [length Nat.eqb negb or_else mbind result_bind throw_if].
  rewrite H6. cbn [mbind result_bind]. by rewrite H8.
Qed.

(** ** Reopened sessions *)

Lemma stream_needs_retention document stream b :
  StreamJournal.read_stream_journal document safe_relative_path = Ok stream →
  StreamJournal.present stream = true → retain_stream_cleanup document = Ok b → b = true.
Proof.
  unfold StreamJournal.read_stream_journal, retain_stream_cleanup, contains.
  destruct document as [| | | | |ms]; try done; cbn [negb mbind result_bind as_object]; try by intros [= <-].
  destruct (StdMap.contains_key "recovery_metadata" ms); cbn [negb]; [|by intros [= <-]].
  intros H Hp. apply bind_ok in H as (metadata & Hm & H). rewrite Hm. cbn [mbind result_bind].
  destruct metadata as [| | | | |fields]; cbn [negb] in H; try by (injection H as <-).
  destruct (StdMap.contains_key "stream_journal" fields); cbn [negb] in H; [|by injection H as <-].
  cbn [mbind result_bind as_object]. apply bind_ok in H as (bad & Hb & H).
  apply bind_ok in H as ([] & ->%throw_if_ok & _). apply or_else_false in Hb as [[Hb _]%or_else_false _].
  injection Hb as Hb%negb_false_iff. rewrite Hb. cbn [negb]. intros Hr. by inv_result.
Qed.

Lemma requirement_needs_retention document b :
  validate_commit_requirement document staged_child_bound_v1 = Ok tt →
  retain_commit_cleanup document = Ok b → b = true.
Proof.
  unfold validate_commit_requirement. intros H Hb. rewrite Hb in H. apply bind_ok in H as (bad & H & ->%throw_if_ok).
  apply or_else_false in H as [H1 H2]. rewrite bool_decide_eq_true_2 in H1 by done.
  injection H1 as H1%negb_false_iff. apply Bool.eqb_prop in H1. rewrite H1 in H2.
  apply and_also_false in H2 as [H2|[_ H2]]; [done|]. apply or_else_false in H2 as [_ H2].
  cbn [mbind result_bind] in H2. injection H2 as H2. by apply negb_false_iff.
Qed.

Lemma load_staged_safe items files : map_result load_staged items = Ok files →
  Forall (fun f => safe_relative_path (relative_path f) = true) files.
Proof.
  intros H. apply map_result_ok in H. induction H as [|item f items files H _ IH]; constructor; [|done].
  unfold load_staged in H. inv_result. simpl. bool_hyps. done.
Qed.

Lemma load_metadata_safe document identity files : load_metadata document = Ok (identity, files) →
  Forall (fun f => safe_relative_path (relative_path f) = true) files.
Proof.
  unfold load_metadata. intros H. apply bind_ok in H as (ms & _ & H).
  destruct (negb _); [by injection H as <- <-|].
  do 4 (apply bind_ok in H as (? & ? & H)). apply bind_ok in H as (l & Hl & H). injection H as <- <-.
  by eapply load_staged_safe.
Qed.

Lemma keeps_resume_candidate mode : keeps evolving (resume_candidate mode).
Proof.
  assert (keeps evolving (update (set_maintenance true))) as Hm
    by (apply keeps_update; intros s; apply evolves_one; constructor).
  assert (keeps evolving verify_recorded_staging_closure) as Hv
    by (apply evolving_of_fixed, fixed_verify_recorded).
  destruct mode; simpl; unfold finalization_candidate, rollback_candidate, maintenance_candidate;
    keeps_auto; apply keeps_host.
Qed.

(** What a candidate of each mode has passed. *)
Definition candidate (mode : ResumeMode) (s : TransactionSession) : Prop :=
  match mode with
  | finalization => any_of (current_state_ s) ["committing"; "committed"; "recovery_required"] = true
  | rollback_mode =>
    any_of (current_state_ s) ["staging"; "staged"; "verified"; "committing"; "recovery_required"] = true ∧
    staging_identity_ s ≠ EmptyString ∧ retain_stream_cleanup_ s = false ∧ retain_commit_cleanup_ s = false
  | maintenance_finalization =>
    any_of (current_state_ s) ["committing"; "committed"; "recovery_required"; "completed"] = true ∧
    maintenance_finalization_ s = true
  end.

Lemma or_m_false {S} (a b : M S bool) s s' : or_m a b s = (Ok false, s') →
  ∃ s1, a s = (Ok false, s1) ∧ b s1 = (Ok false, s').
Proof.
  unfold or_m. intros (x & s1 & H1 & H2)%seq_ok. destruct x; [done|]. by exists s1.
Qed.

Lemma when_fail_ok {S} c w (s s' : S) u : when c (fail w) s = (Ok u, s') → c = false ∧ s' = s.
Proof. destruct c; simpl; [done|]. by intros [= _ ->]. Qed.

Lemma this_ok x s x' : this x = (Ok s, x') → s = fst x ∧ x' = x.
Proof. unfold this. by intros [= <- <-]. Qed.

Lemma finalization_candidate_ok x x' : finalization_candidate x = (Ok tt, x') → candidate finalization (fst x').
Proof.
  intros H. assert (keeps fixed finalization_candidate) as Hf
    by (unfold finalization_candidate; keeps_auto). specialize (Hf x). unfold fixed in Hf. rewrite H in Hf.
  simpl in Hf. unfold finalization_candidate in H. apply seq_ok in H as (s & x1 & [-> ->]%this_ok & H).
  apply seq_ok in H as (bad & x2 & Hb & [-> ->]%when_fail_ok). apply or_m_false in Hb as (x3 & [= Hb <-] & _).
  simpl. rewrite <-Hf. by apply negb_false_iff.
Qed.

Lemma rollback_candidate_ok x x' : rollback_candidate x = (Ok tt, x') → candidate rollback_mode (fst x').
Proof.
  intros H. assert (keeps fixed rollback_candidate) as Hf
    by (unfold rollback_candidate; pose proof fixed_verify_recorded; keeps_auto).
  specialize (Hf x). unfold fixed in Hf. rewrite H in Hf. simpl in Hf. unfold rollback_candidate in H.
  apply seq_ok in H as (s & x1 & [-> ->]%this_ok & H). apply seq_ok in H as (bad & x2 & Hb & H).
  apply seq_ok in H as ([] & x3 & [-> ->]%when_fail_ok & _).
  apply or_m_false in Hb as (y1 & Hb & [= Hr <-]). apply or_m_false in Hb as (y2 & Hb & _).
  apply or_m_false in Hb as (y3 & Hb & _). apply or_m_false in Hb as (y4 & [= Hb <-] & _).
  simpl. rewrite <-Hf. bool_hyps. repeat split; try done. intros E. by rewrite E in *.
Qed.

Lemma maintenance_candidate_ok x x' : maintenance_candidate x = (Ok tt, x') → candidate maintenance_finalization (fst x').
Proof.
  assert (∀ A (m : act A), keeps fixed m → ∀ y r y', m y = (r, y') → fst y = fst y') as Hfix.
  { intros A m Hm y r y' E. specialize (Hm y). rewrite E in Hm. exact Hm. }
  unfold maintenance_candidate. intros H. apply seq_ok in H as (s & x1 & [-> ->]%this_ok & H). cbv zeta in H.
  apply seq_ok in H as ([] & x2 & [Hc ->]%when_fail_ok & H). bool_hyps.
  apply seq_ok in H as (history & x3 & E1 & H). apply Hfix in E1; [|apply fixed_host].
  destruct (last (Maintenance.completed history)) as [effect|]; [|done].
  apply seq_ok in H as ([] & x4 & [_ ->]%when_fail_ok & H).
  apply seq_ok in H as (absent & x5 & E2 & H). apply Hfix in E2; [|apply fixed_host].
  apply seq_ok in H as ([] & x6 & [_ ->]%when_fail_ok & H).
  apply seq_ok in H as ([] & x7 & E3 & H). apply Hfix in E3; [|destruct (negb _); keeps_auto].
  injection H as <-. split; [|done]. change (any_of (current_state_ (fst x7))
    ["committing"; "committed"; "recovery_required"; "completed"] = true). by rewrite <-E3, <-E2, <-E1.
Qed.

Lemma candidate_ok mode x x' : resume_candidate mode x = (Ok tt, x') → candidate mode (fst x').
Proof.
  destruct mode; [apply finalization_candidate_ok|apply rollback_candidate_ok|apply maintenance_candidate_ok].
Qed.

(** The object that the constructor has read before it looks at the candidate. *)
Lemma resume_inv input injector mode w s w' :
  resume_session input injector mode w = (Ok s, w') → ∃ s0 w0,
  session_ok s0 ∧ transitions_ s0 ≠ [] ∧ resume_candidate mode (s0, w0) = (Ok tt, (s, w')).
Proof.
  unfold resume_session. intros H. apply seq_ok in H as (i & w1 & Hi & H).
  apply initial_ok in Hi as [Hi _]. cbv zeta in H.
  apply seq_ok in H as ([] & w2 & _ & H). apply seq_ok in H as ([] & w3 & _ & H).
  apply seq_ok in H as (text & w4 & _ & H). apply seq_ok in H as (persisted & w5 & _ & H).
  apply seq_ok in H as (d & w6 & [Hd _]%lift_ok & H).
  apply load_sound in Hd as (_ & Hh & Hst & Hv & Hrs & Hrc & Hstream).
  do 3 (apply seq_ok in H as (? & ? & _ & H)).
  apply seq_ok in H as ([identity files] & w7 & [Hm _]%lift_ok & H). apply load_metadata_safe in Hm.
  unfold constructing in H. destruct (resume_candidate mode _) as [[[]|] [s' w'']] eqn:E; [|done].
  injection H as -> ->. eexists _, _. split; [|split; [|exact E]]; [|apply Hh].
  split; simpl; try done; try apply Hh; try apply Hi.
  - intros Hp. by eapply stream_needs_retention.
  - intros Hr. rewrite Hr in Hv. by eapply requirement_needs_retention.
Qed.

(** C6 Reopening preserves what the first run established, on every host: a
    session that the resuming constructor returns, for finalization, rollback
    or maintenance, has a non-empty history and the invariant of a session, and
    keeps both through every later sequence of calls, growing between any two
    points of it as a live session does; it is a candidate of its
    mode, and one reopened for rollback has a recorded staging identity and no
    closed cleanup latch. *)
Theorem resumed_session_invariant input injector mode w calls more :
  match resume_session input injector mode w with
  | (Ok s, w') =>
    let x := after calls (s, w') in
    let y := after more x in
    candidate mode s ∧ transitions_ s ≠ [] ∧
    session_ok (fst x) ∧ session_ok (fst y) ∧ grows_from s (fst x) ∧ grows_from (fst x) (fst y)
  | (Throw _, _) => True
  end.
Proof.
  destruct (resume_session input injector mode w) as [[s|e] w'] eqn:E; [|done].
  apply resume_inv in E as (s0 & w0 & Hok & Hne & Ec).
  pose proof (keeps_resume_candidate mode (s0, w0)) as Hev. unfold evolving in Hev. rewrite Ec in Hev. simpl in Hev.
  pose proof (after_evolves calls (s, w')) as Ha. cbv zeta. set (x := after calls (s, w')) in *. cbn [fst] in Ha.
  pose proof (after_evolves more x) as Hm.
  assert (session_ok (fst x)) as Hx by (by eapply evolves_ok, evolves_ok). split_and!.
  - exact (candidate_ok _ _ _ Ec).
  - pose proof (chain_grows _ _ (evolves_grows _ _ Hev)) as [l Hl]. rewrite Hl. by destruct (transitions_ s0).
  - done.
  - by eapply evolves_ok.
  - by apply evolves_grows.
  - by apply evolves_grows.
Qed.
End RecoveryFacts.
