(* ===== verification/MaintenanceFacts.v ===== *)
(** What an accepted maintenance journal guarantees: the reader accepts only an
    original context followed by intents and completions that alternate and an
    optional seal, and its last digest commits to every record. *)

From Stdlib Require Import Ascii String NArith ZArith Lia.
From stdpp Require Import base list strings gmap sets.
From S2P Require Import Prelude Utf8 Sha256 StdMap Json JsonFacts JsonParse JsonProps Path Effects World.
From S2P Require Import RecordIo StreamJournal Journal SessionHost Maintenance TextFacts AuditFacts.

Module MaintenanceFacts.
Import Json JsonFacts JsonParse AuditFacts Path Effects World RecordIo SessionHost Maintenance.

(** ** The reader as a fold over the records *)

Definition consume_records (cwd : path) (r : Reader) (records : list (string * string)) : result Reader :=
  fold_result (fun r x => consume_record cwd r (fst x) (snd x)) r records.

(** The reader before the first record. *)
Definition fresh (s : Journal.TransactionSpec) (identity expected : string) (n : N) (retain : bool) : Reader :=
  mk_reader s identity expected n retain empty_inspection 0 0 false false.

Definition flag (b : bool) : N := if b then 1 else 0.
Definition pending (i : MaintenanceEffectInspection) : bool := negb (is_empty (pending_kind i)).

(** A completed effect at a position of the history. *)
Definition effect_ok (operation : string) (k : nat) (e : CompletedMaintenanceEffect) : Prop :=
  intent_sequence e = 1 + 2 * N.of_nat k ∧
  validate_effect operation (kind e) (details e) = Ok tt ∧
  validate_completion (kind e) (outcome e) (result_digest e) = Ok tt.

Record history_ok (operation : string) (retain : bool) (i : MaintenanceEffectInspection) (last_intent : N) : Prop := {
  h_count : next_sequence i = 1 + 2 * completed_effects i + flag (pending i) + flag (sealed i);
  h_sealed : sealed i = true → pending i = false;
  h_pending : pending i = true →
    validate_effect operation (pending_kind i) (pending_details i) = Ok tt ∧ next_sequence i = last_intent + 1;
  h_completed : retain = true → N.of_nat (length (completed i)) = completed_effects i;
  h_effects : ∀ k e, completed i !! k = Some e → retain = true → effect_ok operation k e }.

(** The original context: validated, and bound by the source digest. *)
Definition context_ok (s : Journal.TransactionSpec) (expected : string) (i : MaintenanceEffectInspection) : Prop :=
  source_digest i = expected ∧ ∃ cwd v,
  validate_context cwd s (source_context i) = Ok tt ∧ parse (source_context i) default_limits = Ok v ∧
  Sha256.sha256 (canonical v) = expected.

Definition reader_ok (r : Reader) : Prop :=
  r_failed r = false ∧ finished r = false ∧ r_bytes r <= maximum_journal_bytes ∧
  next_sequence (result_ r) <= record_count r ∧
  if next_sequence (result_ r) =? 0 then result_ r = empty_inspection
  else history_ok (Journal.operation (r_spec r)) (retain_completed r) (result_ r) (r_pending_sequence r) ∧
       context_ok (r_spec r) (expected_source_digest r) (result_ r).

Lemma effect_kind_nonempty operation k v : validate_effect operation k v = Ok tt → k ≠ EmptyString.
Proof.
  unfold validate_effect. intros H ->. apply bind_ok in H as (? & _ & H). discriminate H.
Qed.

Lemma decode_record_bytes text bytes v total : decode_record_text text bytes = Ok (v, total) →
  total = bytes + size text ∧ total <= maximum_journal_bytes ∧ text = canonical v +:+ Journal.newline.
Proof.
  unfold decode_record_text. intros H.
  apply bind_ok in H as ([] & H1%throw_if_ok & H). apply bind_ok in H as ([] & H2%throw_if_ok & H).
  apply bind_ok in H as (v' & _ & H). apply bind_ok in H as ([] & _ & H).
  apply bind_ok in H as (hash & _ & H). apply bind_ok in H as (ms & _ & H).
  apply bind_ok in H as (bad & Hb & H). apply bind_ok in H as ([] & ->%throw_if_ok & H). injection H as <- <-.
  apply or_else_false in Hb as [[Hb _]%or_else_false _]. injection Hb as Hb. bool_hyps.
  unfold maximum_record_bytes, maximum_journal_bytes in *. repeat split; [lia|done].
Qed.

(** The branches on the phase. *)
Lemma consume_intent_ok r d i n : consume_intent r d = Ok (i, n) → ∃ k e,
  pending (result_ r) = false ∧ validate_effect (Journal.operation (r_spec r)) k e = Ok tt ∧
  i = with_pending (result_ r) k e ∧ n = next_sequence (result_ r).
Proof.
  unfold consume_intent, pending. intros H. apply bind_ok in H as ([] & _ & H).
  apply bind_ok in H as ([] & Hp%throw_if_ok & H). apply bind_ok in H as (k & _ & H).
  apply bind_ok in H as (e & _ & H). apply bind_ok in H as ([] & Hv & H). injection H as <- <-. by exists k, e.
Qed.

Lemma consume_complete_ok r d i n : consume_complete r d = Ok (i, n) → ∃ out hash,
  pending (result_ r) = true ∧ validate_completion (pending_kind (result_ r)) out hash = Ok tt ∧
  n = r_pending_sequence r ∧
  i = with_completed (result_ r) (if retain_completed r
    then completed (result_ r) ++
      [mk_effect (r_pending_sequence r) (pending_kind (result_ r)) (pending_details (result_ r)) out hash]
    else completed (result_ r)).
Proof.
  unfold consume_complete, pending. intros H. apply bind_ok in H as ([] & _ & H).
  apply bind_ok in H as (bad & Hb & H). apply bind_ok in H as ([] & ->%throw_if_ok & H).
  apply or_else_false in Hb as [[Hb _]%or_else_false _]. injection Hb as Hb.
  apply bind_ok in H as (v & _ & H). apply bind_ok in H as (hash & _ & H). apply bind_ok in H as (out & _ & H).
  apply bind_ok in H as ([] & Hv & H). injection H as <- <-. exists out, hash. by rewrite Hb.
Qed.

Lemma consume_sealed_ok r d i n : consume_sealed r d = Ok (i, n) →
  pending (result_ r) = false ∧ i = with_sealed (result_ r) ∧ n = r_pending_sequence r.
Proof.
  unfold consume_sealed, pending. intros H. apply bind_ok in H as ([] & Hp%throw_if_ok & H).
  injection H as <- <-. by apply orb_false_elim in Hp as [-> _].
Qed.

Lemma consume_context_ok cwd r d i n : consume_context cwd r d = Ok (i, n) → ∃ context,
  i = with_context (result_ r) context (expected_source_digest r) ∧
  validate_context cwd (r_spec r) context = Ok tt ∧
  (∃ v, parse context default_limits = Ok v ∧ Sha256.sha256 (canonical v) = expected_source_digest r).
Proof.
  unfold consume_context. intros H. apply bind_ok in H as ([] & _ & H). apply bind_ok in H as (bad & _ & H).
  apply bind_ok in H as ([] & _ & H). apply bind_ok in H as (context & _ & H).
  apply bind_ok in H as ([] & Hv & H). apply bind_ok in H as (v & Hp & H).
  rewrite sha256_canonical_eq in H. cbn [mbind result_bind] in H.
  apply bind_ok in H as ([] & Hh%throw_if_ok & H). injection H as <- _. bool_hyps. exists context. rewrite Hh.
  split; [done|]. split; [done|]. by exists v.
Qed.

(** The body of [consume], by its branch. *)
Lemma consume_record_ok cwd r nm text r' : consume_record cwd r nm text = Ok r' → ∃ v i n bytes hash,
  next_sequence (result_ r) < record_count r ∧
  decode_record_text text (r_bytes r) = Ok (v, bytes) ∧ chain_differs r nm v = Ok false ∧
  at_string v "digest" = Ok hash ∧ r' = with_result r (advanced i hash) n bytes ∧
  if next_sequence (result_ r) =? 0 then ∃ d, consume_context cwd r d = Ok (i, n)
  else ∃ d, consume_intent r d = Ok (i, n) ∨ consume_complete r d = Ok (i, n) ∨ consume_sealed r d = Ok (i, n).
Proof.
  unfold consume_record. intros H. cbv zeta in H. apply bind_ok in H as ([] & Hl%throw_if_ok & H).
  apply bind_ok in H as ([v bytes] & Hd & H). apply bind_ok in H as (bad & Hc & H).
  apply bind_ok in H as ([] & ->%throw_if_ok & H). apply bind_ok in H as (phase & _ & H).
  apply bind_ok in H as (d & _ & H). apply bind_ok in H as ([i n] & Hi & H).
  apply bind_ok in H as (hash & Hh & H). injection H as <-. bool_hyps.
  exists v, i, n, bytes, hash. repeat (split; [done|]).
  destruct (next_sequence (result_ r) =? 0).
  - apply bind_ok in Hi as ([] & _ & Hi). by exists d.
  - exists d. destruct (String.eqb phase "intent"); [by left|]. right.
    destruct (String.eqb phase "complete"); [by left|]. right. by destruct (String.eqb phase "sealed").
Qed.

Lemma chain_not_sealed r nm v : chain_differs r nm v = Ok false → sealed (result_ r) = false.
Proof.
  unfold chain_differs. intros H. apply or_else_false in H as [H _]. apply or_else_false in H as [_ H]. by injection H.
Qed.
Lemma reader_ok_step cwd r nm text r' : consume_record cwd r nm text = Ok r' → reader_ok r → reader_ok r'.
Proof.
  intros H (Hf & Hfin & Hb & Hc & Hr).
  apply consume_record_ok in H as (v & i & n & bytes & hash & Hlt & Hd & Hch & _ & -> & Hi).
  apply chain_not_sealed in Hch. apply decode_record_bytes in Hd as (_ & Hbytes & _).
  unfold reader_ok. simpl. repeat (split; [done|]).
  destruct (next_sequence (result_ r) =? 0) eqn:E0.
  - destruct Hi as (d & Hi). apply consume_context_ok in Hi as (context & -> & Hv & x & Hx). rewrite Hr in *. simpl.
    split; [lia|]. split; [by split|]. split; [done|]. by exists cwd, x.
  - destruct Hr as [[H1 H2 H3 H4 H5] Hs]. destruct Hi as (d & [Hi|[Hi|Hi]]).
    + apply consume_intent_ok in Hi as (k & e & Hp & Hv & -> & ->). simpl. split; [lia|].
      rewrite (proj2 (N.eqb_neq _ _)) by lia. split; [|done]. pose proof (effect_kind_nonempty _ _ _ Hv).
      assert (pending (advanced (with_pending (result_ r) k e) hash) = true) as Hp'
        by (unfold pending; simpl; by destruct k).
      split; simpl; try done.
      * rewrite Hp'. rewrite Hp in H1. simpl in *. lia.
      * intros. congruence.
    + apply consume_complete_ok in Hi as (out & h & Hp & Hv & -> & ->). simpl. split; [lia|].
      rewrite (proj2 (N.eqb_neq _ _)) by lia. split; [|done].
      destruct (H3 Hp) as [Hve Hn]. split; simpl; try done.
      * rewrite Hp in H1. simpl in *. unfold flag in *. rewrite Hch in *. lia.
      * intros Hr. rewrite Hr, length_app. specialize (H4 Hr). simpl. lia.
      * intros k e Hk Hr. rewrite Hr in Hk. apply lookup_app_Some in Hk as [Hk|[Hl Hk]]; [by apply H5|].
        specialize (H4 Hr). apply list_lookup_singleton_Some in Hk as [Hk <-].
        split; [|done]. simpl. rewrite Hp, Hch in H1. simpl in H1. unfold flag in H1. lia.
    + apply consume_sealed_ok in Hi as (Hp & -> & ->). simpl. split; [lia|].
      rewrite (proj2 (N.eqb_neq _ _)) by lia. split; [|done].
      assert (pending (advanced (with_sealed (result_ r)) hash) = false) as Hp' by done.
      split; simpl; try done.
      * rewrite Hp'. rewrite Hp, Hch in H1. simpl in *. lia.
      * intros. congruence.
Qed.
Lemma consume_ok cwd r nm text r' : consume cwd r nm text = (Ok tt, r') → consume_record cwd r nm text = Ok r'.
Proof.
  unfold consume. destruct (r_failed r || finished r); [done|].
  destruct (consume_record cwd r nm text); [by intros [= ->]|done].
Qed.

Lemma fresh_ok s identity expected n retain : reader_ok (fresh s identity expected n retain).
Proof. repeat split; simpl; [apply N.le_0_l|apply N.le_0_l]. Qed.

(** What is fixed for the whole reading. *)
Definition same_reading (r r' : Reader) : Prop :=
  r_spec r' = r_spec r ∧ r_directory_identity r' = r_directory_identity r ∧
  expected_source_digest r' = expected_source_digest r ∧ record_count r' = record_count r ∧
  retain_completed r' = retain_completed r.

Lemma consume_record_same cwd r nm text r' : consume_record cwd r nm text = Ok r' → same_reading r r'.
Proof. intros (? & ? & ? & ? & ? & _ & _ & _ & _ & -> & _)%consume_record_ok. done. Qed.

Lemma consume_all_ok directory nms r w r' w' : consume_all directory r nms w = (Ok r', w') →
  reader_ok r → reader_ok r' ∧ same_reading r r'.
Proof.
  revert r w. induction nms as [|nm nms IH]; intros r w; cbn [consume_all]; [by intros [= <- _]|].
  intros (text & w1 & _ & H)%seq_ok Hr. apply seq_ok in H as (w2 & w3 & [= <- <-] & H).
  destruct (consume (cwd w1) r nm text) as [outcome r1] eqn:E.
  apply seq_ok in H as ([] & w4 & [-> ->]%lift_ok & H). apply consume_ok in E.
  destruct (IH _ _ H (reader_ok_step _ _ _ _ _ E Hr)) as [H1 H2]. split; [done|].
  apply consume_record_same in E. unfold same_reading in *. naive_solver congruence.
Qed.

(** C10 Whatever a host does, an inspection that returns describes a well-formed
    maintenance history: a validated original context with the expected digest,
    then effects whose intents and completions alternate, so that the k-th
    completed effect was announced by record 1 + 2k and the number of records is
    exactly one, plus two per completed effect, plus one for an unresolved
    intent and one for a seal; every effect satisfies the effect grammar of the
    operation, and a sealed journal has no unresolved intent. *)
Theorem inspection_sound s expected retain w :
  match inspect s expected retain w with
  | (Ok i, _) =>
    history_ok (Journal.operation s) retain i (pending_sequence i) ∧ context_ok s expected i ∧
    next_sequence i <= maximum_records ∧ serialized_bytes i <= maximum_journal_bytes
  | (Throw _, _) => True
  end.
Proof.
  destruct (inspect s expected retain w) as [[i|e] w'] eqn:E; [|done]. unfold inspect in E.
  destruct (_ || _) eqn:Ei; [done|].
  apply seq_ok in E as (directory & w1 & _ & E). apply seq_ok in E as (identity & w2 & _ & E).
  apply seq_ok in E as ([listing|] & w3 & _ & E); [|done].
  apply seq_ok in E as (records & w4 & _ & E). destruct (length records =? 0)%nat eqn:El; [done|].
  apply seq_ok in E as (r & w5 & [Hm _]%lift_ok & E). apply seq_ok in E as (r' & w6 & Hc & E).
  apply seq_ok in E as (now & w7 & _ & E). destruct (negb (String.eqb now identity)); [done|].
  apply lift_ok in E as [Hfin _]. unfold make_reader in Hm. apply bind_ok in Hm as ([] & Hg%throw_if_ok & Hm).
  injection Hm as <-. bool_hyps.
  apply consume_all_ok in Hc as [(Hf & Hn & Hb & Hcount & Hr) (S1 & S2 & S3 & S4 & S5)]; [|apply fresh_ok].
  unfold finish in Hfin. rewrite Hf, Hn in Hfin. simpl in Hfin, S1, S2, S3, S4, S5.
  destruct (N.eqb_spec (next_sequence (result_ r')) (record_count r')) as [Eq|]; [|done]. simpl in Hfin.
  injection Hfin as <-. simpl. rewrite Eq, S4 in *. rewrite (proj2 (N.eqb_neq _ _)) in Hr by done.
  rewrite S1, S3, S5 in Hr. destruct Hr as [[A1 A2 A3 A4 A5] A6].
  split; [by split|done].
Qed.
(** ** The digest chain *)

(** A record that was accepted after [previous] at a position. *)
Definition record_at (n : N) (previous hash : string) (x : string * string) : Prop := ∃ ms,
  snd x = canonical (object ms) +:+ Journal.newline ∧ fst x = filename n ∧ StdMap.sorted ms ∧
  StdMap.find "digest" ms = Some (string_value hash) ∧
  hash = Sha256.sha256 (canonical (object (StdMap.erase "digest" ms))) ∧
  StdMap.find "sequence" ms = Some (unsigned_integer n) ∧
  (n ≠ 0 → StdMap.find "previous_digest" ms = Some (string_value previous)).

Lemma at_find ms k v : at_ (object ms) k = Ok v → StdMap.find k ms = Some v.
Proof. unfold at_. simpl. destruct (StdMap.find k ms); [by intros [= ->]|done]. Qed.

Lemma at_string_find ms k s : at_string (object ms) k = Ok s → StdMap.find k ms = Some (string_value s).
Proof.
  unfold at_string. intros (v & Hv%at_find & H)%bind_ok. destruct v; try done. by injection H as <-.
Qed.

Lemma at_unsigned_find ms k n : StreamJournal.at_unsigned (object ms) k = Ok n →
  StdMap.find k ms = Some (unsigned_integer n).
Proof.
  unfold StreamJournal.at_unsigned. intros (v & Hv%at_find & H)%bind_ok. destruct v; try done. by injection H as <-.
Qed.

Lemma decode_record_shape text bytes v total : decode_record_text text bytes = Ok (v, total) → ∃ ms hash,
  v = object ms ∧ text = canonical v +:+ Journal.newline ∧ StdMap.sorted ms ∧
  StdMap.find "digest" ms = Some (string_value hash) ∧
  hash = Sha256.sha256 (canonical (object (StdMap.erase "digest" ms))).
Proof.
  unfold decode_record_text. intros H.
  apply bind_ok in H as ([] & _ & H). apply bind_ok in H as ([] & _ & H).
  apply bind_ok in H as (v' & Hwf & H). apply JsonProps.parse_accepted in Hwf as [Hwf _].
  apply bind_ok in H as ([] & _ & H). apply bind_ok in H as (hash & Hh & H). apply bind_ok in H as (ms & Hms & H).
  apply bind_ok in H as (bad & Hb & H). apply bind_ok in H as ([] & ->%throw_if_ok & H). injection H as <- <-.
  destruct v' as [| | | | |ms']; try done. injection Hms as ->.
  apply or_else_false in Hb as [[Hb Hd]%or_else_false _]. injection Hb as Hb. bool_hyps.
  rewrite sha256_canonical_eq in Hd. cbn [mbind result_bind] in Hd. apply ok_inj in Hd. bool_hyps.
  exists ms, hash. apply wf_object in Hwf as [Hs _].
  split; [reflexivity|]. split; [symmetry; assumption|]. split; [assumption|].
  split; [by apply at_string_find|symmetry; assumption].
Qed.

Lemma consume_record_at cwd r nm text r' : consume_record cwd r nm text = Ok r' →
  record_at (next_sequence (result_ r)) (journal_digest (result_ r)) (journal_digest (result_ r')) (nm, text) ∧
  next_sequence (result_ r') = next_sequence (result_ r) + 1.
Proof.
  intros H. apply consume_record_ok in H as (v & i & n & bytes & hash & _ & Hd & Hc & Hh & -> & Hi).
  apply decode_record_shape in Hd as (ms & hash' & -> & Ht & Hs & Hf & He).
  apply at_string_find in Hh. rewrite Hf in Hh. injection Hh as ->.
  assert (next_sequence i = next_sequence (result_ r)) as Hn.
  { destruct (next_sequence (result_ r) =? 0).
    - destruct Hi as (d & (? & -> & _)%consume_context_ok). done.
    - destruct Hi as (d & [(? & ? & _ & _ & -> & _)%consume_intent_ok|
        [(? & ? & _ & _ & _ & ->)%consume_complete_ok|(_ & -> & _)%consume_sealed_ok]]); done. }
  split; [|simpl; by rewrite Hn].
  unfold chain_differs in Hc.
  apply or_else_false in Hc as [Hc Hp]. apply or_else_false in Hc as [Hc _].
  apply or_else_false in Hc as [Hc _]. apply or_else_false in Hc as [Hc _].
  apply or_else_false in Hc as [Hnm Hsq]. injection Hnm as Hnm. bool_hyps.
  apply bind_ok in Hsq as (m & Hsq%at_unsigned_find & Hm). apply ok_inj in Hm. bool_hyps. subst.
  exists ms. simpl. repeat split; try done.
  - intros Hne. apply N.eqb_neq in Hne. rewrite Hne in Hp. unfold differs in Hp. inv_result. bool_hyps.
    subst. by apply at_string_find.
Qed.
(** A chain of records that ends with a digest. *)
Inductive record_chain : list (string * string) → string → Prop :=
| chain_empty : record_chain [] EmptyString
| chain_snoc l x previous hash :
    record_chain l previous → record_at (N.of_nat (length l)) previous hash x → record_chain (l ++ [x]) hash.

Lemma consume_records_chain cwd r l r' : next_sequence (result_ r) = 0 → journal_digest (result_ r) = EmptyString →
  consume_records cwd r l = Ok r' →
  record_chain l (journal_digest (result_ r')) ∧ next_sequence (result_ r') = N.of_nat (length l).
Proof.
  intros Hn Hj. revert r'. induction l as [|x l IH] using rev_ind; intros r' H.
  - injection H as <-. rewrite Hj. split; [constructor|done].
  - unfold consume_records in H. rewrite fold_result_app in H. apply bind_ok in H as (r1 & H1 & H).
    apply bind_ok in H as (r2 & H2 & H). injection H as <-. destruct (IH _ H1) as [Hc Hl].
    apply consume_record_at in H2 as [Ha Hs]. rewrite <-surjective_pairing, Hl in Ha. split; [by econstructor|].
    rewrite Hs, Hl, length_app. simpl. lia.
Qed.

Lemma record_at_determined n n' previous previous' hash x x' :
  record_at n previous hash x → record_at n' previous' hash x' →
  (x = x' ∧ n = n' ∧ (n ≠ 0 → previous = previous')) ∨ sha256_collision.
Proof.
  intros (ms & Ht & Hf & Hs & Hd & Hh & Hn & Hp) (ms' & Ht' & Hf' & Hs' & Hd' & Hh' & Hn' & Hp').
  destruct (decide (canonical (object (StdMap.erase "digest" ms)) =
    canonical (object (StdMap.erase "digest" ms')))) as [E|E].
  - left. apply JsonProps.canonical_injective in E. injection E as E.
    assert (ms = ms') as <-.
    { apply StdMap.sorted_ext; [done|done|]. intros k. destruct (decide (k = "digest")) as [->|Hk]; [congruence|].
      by rewrite <-(StdMap.find_erase_other "digest" k ms), <-(StdMap.find_erase_other "digest" k ms'), E. }
    assert (n = n') as <- by congruence. split; [|split; [done|]].
    + destruct x, x'. simpl in *. congruence.
    + intros H0. specialize (Hp H0). specialize (Hp' H0). congruence.
  - right. eexists _, _. split; [exact E|]. by rewrite <-Hh, <-Hh'.
Qed.

Lemma record_chain_determined l l' hash : record_chain l hash → record_chain l' hash → l ≠ [] → l' ≠ [] →
  l = l' ∨ sha256_collision.
Proof.
  intros H. revert l'. induction H as [|l x previous hash Hl IH Hx]; [done|]. intros l' H' _ Hne.
  destruct H' as [|l' x' previous' hash Hl' Hx']; [done|].
  destruct (record_at_determined _ _ _ _ _ _ _ Hx Hx') as [(-> & Hn & Hp)|]; [|by right].
  destruct (decide (l = [])) as [->|Hl0].
  - left. destruct l'; [done|]. simpl in Hn. lia.
  - assert (length l ≠ 0%nat) as Hl1 by (by destruct l). rewrite <-(Hp ltac:(lia)) in Hl'.
    destruct (IH l' Hl' Hl0) as [->|]; [|by left|by right]. intros ->. simpl in Hn. lia.
Qed.

(** The last digest of a maintenance journal commits to the whole of it: two
    record sequences that readers accept, whatever the readers were made for,
    and that end with the same digest are the same sequence of names and bytes,
    unless two different texts with the same SHA-256 exist. *)
Theorem maintenance_binding cwd s identity expected n retain records r
    cwd' s' identity' expected' n' retain' records' r' :
  consume_records cwd (fresh s identity expected n retain) records = Ok r →
  consume_records cwd' (fresh s' identity' expected' n' retain') records' = Ok r' →
  records ≠ [] → records' ≠ [] → journal_digest (result_ r) = journal_digest (result_ r') →
  records = records' ∨ sha256_collision.
Proof.
  intros [H _]%consume_records_chain [H' _]%consume_records_chain Hr Hr' E; try done.
  rewrite E in H. by eapply record_chain_determined.
Qed.
End MaintenanceFacts.
