(* ===== verification/MaintenanceWriter.v ===== *)
(** The writer of the maintenance journal against its reader: every record that
    the writer accepts is one that the reader of the records before it accepts,
    and afterwards the two agree on the state of the journal. *)

From Stdlib Require Import Ascii String NArith ZArith Lia.
From stdpp Require Import base list strings gmap sets.
From S2P Require Import Prelude Utf8 Sha256 StdMap Json JsonFacts JsonParse JsonProps Path Effects World.
From S2P Require Import RecordIo StreamJournal Journal SessionHost Maintenance TextFacts JsonText JournalText.
From S2P Require Import AuditFacts MaintenanceFacts StreamFacts.

Module MaintenanceWriter.
Import Utf8 Json JsonFacts JsonParse TextFacts JsonText JournalText Path Effects World RecordIo SessionHost.
Import Maintenance MaintenanceFacts.

Definition record_limits : ParseLimits := mk_limits maximum_record_bytes 12 256 16384.

(** ** Values within the limits of a record *)

Definition ascii_short (s : string) : Prop := ascii_text s = true ∧ size s <= 16384.

Lemma short_ok s : ascii_short s → string_ok record_limits s = true.
Proof.
  intros [Ha Hs]. unfold string_ok. rewrite (ascii_valid_utf8 _ Ha), andb_true_r. by apply N.leb_le.
Qed.

(** A value that may stand in a record at a depth. *)
Record readable (d : N) (v : value) (n : N) : Prop := {
  rd_wf : wf v;
  rd_fits : fits record_limits d v = true;
  rd_count : count v <= n }.

Lemma readable_text d s : d <= 12 → ascii_short s → readable d (string_value s) 1.
Proof.
  intros Hd Hs. split; [done| |done]. cbn [fits]. change (max_depth record_limits) with 12.
  rewrite (proj2 (N.leb_le _ _) Hd). by apply short_ok.
Qed.

Lemma readable_null d : d <= 12 → readable d null_value 1.
Proof.
  intros Hd. split; [done| |done]. cbn [fits]. change (max_depth record_limits) with 12.
  by rewrite (proj2 (N.leb_le _ _) Hd).
Qed.

Lemma readable_nullable d s : d <= 12 → ascii_short s → readable d (nullable s) 1.
Proof. intros Hd Hs. unfold nullable. destruct (is_empty s); [by apply readable_null|by apply readable_text]. Qed.

Lemma readable_number d n : d <= 12 → n <= uint64_max → readable d (unsigned_integer n) 1.
Proof.
  intros Hd Hn. split; [done| |done]. cbn [fits]. change (max_depth record_limits) with 12.
  by rewrite (proj2 (N.leb_le _ _) Hd).
Qed.

Lemma readable_mono d v n m : n <= m → readable d v n → readable d v m.
Proof. intros Hm [H1 H2 H3]. split; [done|done|lia]. Qed.

Definition total (ns : list N) : N := fold_right N.add 0 ns.

Lemma count_perm (l l' : list (string * value)) : l ≡ₚ l' →
  fold_right (fun m n => count (snd m) + n) 0 l = fold_right (fun m n => count (snd m) + n) 0 l'.
Proof. induction 1; simpl; lia. Qed.

Lemma readable_object d l ns : d <= 11 → NoDup (map fst l) →
  Forall2 (fun m n => string_ok record_limits (fst m) = true ∧ readable (d + 1) (snd m) n) l ns →
  readable d (make_object l) (1 + total ns).
Proof.
  intros Hd Hn HF. pose proof (of_list_perm l Hn) as Hp. unfold make_object.
  assert (Forall (fun m => string_ok record_limits (fst m) = true ∧ wf (snd m) ∧
    fits record_limits (d + 1) (snd m) = true) l) as HF'.
  { clear -HF. induction HF as [|m n l ns [H1 [H2 H3 _]] _ IH]; by constructor. }
  split.
  - apply wf_object. split; [apply StdMap.of_list_sorted|]. rewrite Hp.
    eapply Forall_impl; [exact HF'|]. by intros m (_ & ? & _).
  - cbn [fits]. change (max_depth record_limits) with 12. rewrite (proj2 (N.leb_le d 12)) by lia. cbn [andb].
    apply forallb_forall. intros [k v] Hx%list_elem_of_In. rewrite Hp in Hx. rewrite Forall_forall in HF'.
    destruct (HF' _ Hx) as (H1 & _ & H3). cbn [fst snd] in *. by rewrite H1, H3.
  - cbn [count]. rewrite (count_perm _ _ Hp). apply N.add_le_mono_l. clear -HF.
    induction HF as [|m n l ns [_ [_ _ H]] _ IH]; simpl; lia.
Qed.

Lemma short_identifier s : valid_identifier s = true → ascii_short s.
Proof. intros [Ha Hs]%identifier_ascii. split; [done|]. lia. Qed.

Lemma short_digest s : digest s = true → ascii_short s.
Proof.
  unfold digest, StreamJournal.digest. intros [Hs%N.eqb_eq Hb]%andb_prop. split; [|lia].
  unfold ascii_text. eapply forall_bytes_impl; [|exact Hb]. intros c. by_bytes c.
Qed.

Lemma short_empty : ascii_short EmptyString.
Proof. split; [done|]. apply N.le_0_l. Qed.

(** ** The journal object *)

Definition effect_kinds : list string :=
  ["backup_file"; "replace_file"; "remove_file"; "remove_directory"; "publish_target"; "write_ownership";
   "write_installed"; "append_audit"].

Lemma effect_kind_known operation k e : validate_effect operation k e = Ok tt → k ∈ effect_kinds.
Proof.
  unfold validate_effect. intros H. apply bind_ok in H as ([] & _ & H).
  unfold Journal.any_of in H. simpl in H.
  repeat match type of H with (if ?b then _ else _) = _ => destruct b eqn:?; bool_hyps end; try done;
    rewrite ?orb_true_iff, ?String.eqb_eq in *; unfold effect_kinds; set_solver.
Qed.

Lemma short_kind k : k ∈ effect_kinds → ascii_short k.
Proof.
  unfold effect_kinds. set_unfold. intros H. repeat destruct H as [->|H]; (split; [reflexivity|vm_compute; discriminate]) || done.
Qed.

Record journal_ok (j : EffectJournal) : Prop := {
  j_id : valid_identifier (Journal.transaction_id (spec_ j)) = true;
  j_source : digest (source_digest_ j) = true;
  j_sequence : sequence_ j < maximum_records;
  j_last : if sequence_ j =? 0 then last_digest_ j = EmptyString else digest (last_digest_ j) = true;
  j_pending : pending_kind_ j = EmptyString ∨ pending_kind_ j ∈ effect_kinds;
  j_intent : pending_kind_ j ≠ EmptyString → pending_sequence_ j <= sequence_ j }.

Definition record_hash (j : EffectJournal) (phase : string) (details : value) : string :=
  Sha256.sha256 (canonical (object (record_body j phase details))).

Definition record_text (j : EffectJournal) (phase : string) (details : value) : string :=
  canonical (record_value j phase details (record_hash j phase details)) +:+ Journal.newline.

Definition record_fields (j : EffectJournal) (phase : string) (details : value) : list (string * value) :=
  [("schema", string_value record_schema); ("sequence", unsigned_integer (sequence_ j));
   ("transaction_id", string_value (Journal.transaction_id (spec_ j)));
   ("source_digest", string_value (source_digest_ j));
   ("phase", string_value phase); ("details", details); ("previous_digest", nullable (last_digest_ j));
   ("digest", string_value (record_hash j phase details))].

Lemma record_value_fields j phase d : record_value j phase d (record_hash j phase d) = make_object (record_fields j phase d).
Proof. reflexivity. Qed.

Lemma record_keys j phase d : NoDup (map fst (record_fields j phase d)).
Proof. apply (bool_decide_eq_true_1 _). vm_compute. reflexivity. Qed.

Lemma readable_record j phase d n : journal_ok j → ascii_short phase → readable 1 d n →
  readable 0 (make_object (record_fields j phase d)) (8 + n).
Proof.
  intros [Hid Hsrc Hseq Hlast _ _] Hph Hd.
  replace (8 + n) with (1 + total [1; 1; 1; 1; 1; n; 1; 1]) by (simpl; lia).
  apply readable_object; [lia|apply record_keys|]. unfold record_fields.
  repeat (apply Forall2_cons; split; [split; [reflexivity|cbn [snd]]|]); [..|done].
  - apply readable_text; [lia|]. split; [done|]. vm_compute. discriminate.
  - apply readable_number; [lia|]. unfold maximum_records in Hseq. unfold uint64_max. lia.
  - apply readable_text; [lia|by apply short_identifier].
  - apply readable_text; [lia|by apply short_digest].
  - by apply readable_text.
  - done.
  - apply readable_nullable; [lia|]. destruct (sequence_ j =? 0); [rewrite Hlast; apply short_empty|by apply short_digest].
  - apply readable_text; [lia|]. apply short_digest, StreamFacts.sha256_digest.
Qed.

(** The text is decoded as the record. *)
Lemma decode_record j phase d n bytes : journal_ok j → ascii_short phase → readable 1 d n → n <= 248 →
  size (record_text j phase d) <= maximum_record_bytes →
  bytes <= maximum_journal_bytes - size (record_text j phase d) →
  decode_record_text (record_text j phase d) bytes =
    Ok (make_object (record_fields j phase d), bytes + size (record_text j phase d)).
Proof.
  intros Hj Hph Hd Hn Hs Hb. destruct (readable_record j phase d n Hj Hph Hd) as [Hwf Hfits Hcount].
  unfold decode_record_text.
  rewrite (proj2 (N.ltb_ge _ _) Hs), (proj2 (N.ltb_ge _ _) Hb). cbn [throw_if mbind result_bind].
  assert (parse (record_text j phase d) (mk_limits maximum_record_bytes 12 256 16384) =
    Ok (make_object (record_fields j phase d))) as ->.
  { pose proof (parse_canonical_space record_limits _ Journal.newline Hwf eq_refl) as H. fold record_limits.
    unfold record_text in *. rewrite record_value_fields in *.
    change (max_bytes record_limits) with maximum_record_bytes in H. change (max_values record_limits) with 256 in H.
    rewrite (proj2 (N.leb_le _ _) Hs), Hfits, (proj2 (N.leb_le (count _) 256)) in H by lia. exact H. }
  cbn [mbind result_bind].
  assert (exact_keys (make_object (record_fields j phase d)) ["schema"; "sequence"; "transaction_id"; "source_digest";
    "phase"; "details"; "previous_digest"; "digest"] = Ok tt) as ->.
  { unfold exact_keys, make_object. cbn [mbind result_bind as_object]. by rewrite bool_decide_eq_true_2 by reflexivity. }
  cbn [mbind result_bind].
  assert (at_string (make_object (record_fields j phase d)) "digest" = Ok (record_hash j phase d)) as Hdg
    by (unfold at_string; erewrite StreamFacts.at_make_object by (apply record_keys || reflexivity); reflexivity).
  assert (differs (make_object (record_fields j phase d)) "schema" record_schema = Ok false) as Hsc
    by (unfold differs, at_string; erewrite StreamFacts.at_make_object by (apply record_keys || reflexivity); reflexivity).
  rewrite Hdg. cbn [mbind result_bind]. rewrite (bind_step _ _ (StdMap.of_list (record_fields j phase d))) by reflexivity.
  rewrite sha256_canonical_eq. 
  assert (StdMap.erase "digest" (StdMap.of_list (record_fields j phase d)) = record_body j phase d) as -> by reflexivity.
  fold (record_hash j phase d). rewrite Hsc. cbn [mbind result_bind]. rewrite String.eqb_refl.
  assert (digest (record_hash j phase d) = true) as -> by apply StreamFacts.sha256_digest.
  unfold record_text at 1. rewrite record_value_fields, String.eqb_refl. reflexivity.
Qed.
(** ** Agreement of the writer with a reader *)

Record tracks (j : EffectJournal) (r : Reader) : Prop := {
  t_alive : r_failed r || finished r = false;
  t_spec : r_spec r = spec_ j;
  t_identity : r_directory_identity r = directory_identity_ j;
  t_source : expected_source_digest r = source_digest_ j;
  t_next : next_sequence (result_ r) = sequence_ j;
  t_digest : journal_digest (result_ r) = last_digest_ j;
  t_bytes : r_bytes r = bytes_ j;
  t_sealed : sealed (result_ r) = sealed_ j;
  t_pending : pending_kind (result_ r) = pending_kind_ j;
  t_intent : pending_kind_ j ≠ EmptyString → r_pending_sequence r = pending_sequence_ j }.

Lemma record_lookups j phase d :
  let v := make_object (record_fields j phase d) in
  at_ v "sequence" = Ok (unsigned_integer (sequence_ j)) ∧
  at_string v "transaction_id" = Ok (Journal.transaction_id (spec_ j)) ∧
  at_string v "source_digest" = Ok (source_digest_ j) ∧ at_string v "phase" = Ok phase ∧
  at_ v "details" = Ok d ∧ at_ v "previous_digest" = Ok (nullable (last_digest_ j)) ∧
  at_string v "digest" = Ok (record_hash j phase d).
Proof.
  cbv zeta. unfold at_string. repeat match goal with |- _ ∧ _ => split end;
    (erewrite StreamFacts.at_make_object by (apply record_keys || reflexivity); reflexivity).
Qed.

Lemma record_continues j r phase d : journal_ok j → tracks j r → sealed_ j = false →
  chain_differs r (filename (sequence_ j)) (make_object (record_fields j phase d)) = Ok false.
Proof.
  intros Hj Ht Hs. destruct (record_lookups j phase d) as (L1 & L2 & L3 & _ & _ & L6 & _).
  unfold chain_differs, differs, StreamJournal.at_unsigned.
  rewrite (t_next _ _ Ht), (t_spec _ _ Ht), (t_source _ _ Ht), (t_sealed _ _ Ht), (t_digest _ _ Ht), Hs.
  rewrite L1, L2, L3, L6. cbn [mbind result_bind as_unsigned]. rewrite N.eqb_refl, !String.eqb_refl.
  pose proof (j_last _ Hj) as Hl. destruct (sequence_ j =? 0).
  - by rewrite Hl.
  - unfold at_string. rewrite L6. unfold nullable. destruct (last_digest_ j) as [|b s]; [done|].
    cbn [is_empty mbind result_bind as_string]. by rewrite String.eqb_refl.
Qed.

(** What is written and how the writer goes on. *)
Lemma persist_ok phase d j w j' w' : persist phase d (j, w) = (Ok tt, (j', w')) →
  failed_ j = false ∧ sealed_ j = false ∧ sequence_ j < maximum_records ∧
  size (record_text j phase d) <= maximum_record_bytes ∧
  bytes_ j <= maximum_journal_bytes - size (record_text j phase d) ∧
  j' = recorded (record_hash j phase d) (size (record_text j phase d)) j.
Proof.
  unfold persist. intros (x & y & [= <- <-] & H)%seq_ok. cbn [fst] in H.
  destruct (failed_ j || sealed_ j || (maximum_records <=? sequence_ j)) eqn:E; [done|]. bool_hyps.
  unfold on_exception in H. destruct (persist_record phase d (j, w)) as [[[]|e] [j1 w1]] eqn:Hp;
    [|by destruct (catchable e)]. injection H as -> ->. unfold persist_record in Hp.
  apply seq_ok in Hp as (x & y & [= <- <-] & Hp). cbn [fst] in Hp.
  assert (∀ A (m : io A) (y y' : EffectJournal * world) a, on_snd m y = (Ok a, y') → fst y' = fst y) as Hsnd.
  { intros A m [y1 y2] y' a. unfold on_snd. simpl. destruct (m y2). by intros [= _ <-]. }
  apply seq_ok in Hp as ([] & x1 & E1%Hsnd & Hp). apply seq_ok in Hp as (identity & x2 & E2%Hsnd & Hp).
  apply seq_ok in Hp as ([] & x3 & E3 & Hp).
  assert (x3 = x2) as -> by (destruct (negb _); [done|by injection E3 as <-]).
  apply seq_ok in Hp as ([] & x4 & E4 & Hp).
  assert (fst x4 = fst x2) as E4'.
  { destruct (negb (sequence_ j =? 0)); [|by injection E4 as <-]. simpl in E4.
    apply seq_ok in E4 as ([prior ?] & z1 & F1%Hsnd & E4). apply seq_ok in E4 as (bad & z2 & [_ ->]%lift_ok & E4).
    destruct bad; [done|]. injection E4 as <-. done. }
  rewrite sha256_canonical_eq in Hp. apply seq_ok in Hp as (hash & x5 & [Hh ->]%lift_ok & Hp).
  apply ok_inj in Hh. subst hash. fold (record_hash j phase d) in Hp. cbv zeta in Hp.
  fold (record_text j phase d) in Hp.
  apply seq_ok in Hp as ([] & x6 & E6 & Hp). destruct (_ || _) eqn:Eb in E6; [done|]. injection E6 as <-. bool_hyps.
  apply seq_ok in Hp as ([] & x7 & E7%Hsnd & Hp). apply seq_ok in Hp as (now & x8 & E8%Hsnd & Hp).
  apply seq_ok in Hp as ([] & x9 & E9 & Hp).
  assert (x9 = x8) as -> by (destruct (negb _) in E9; [done|by injection E9 as <-]).
  apply seq_ok in Hp as ([] & x10 & [= <-] & Hp). apply Hsnd in Hp. simpl in *.
  repeat split; try done. rewrite Hp. f_equal. congruence.
Qed.
(** ** The operations of the writer *)

Inductive command := Begin (kind : string) (effect : value) | Complete (outcome hash : string) | Seal.

Definition run (c : command) : act unit :=
  match c with
  | Begin k effect => begin_effect k effect
  | Complete out hash => complete_effect out hash
  | Seal => seal
  end.

Definition phase_of (c : command) : string :=
  match c with Begin _ _ => "intent" | Complete _ _ => "complete" | Seal => "sealed" end.

Definition completion_fields (j : EffectJournal) (out hash : string) : list (string * value) :=
  [("intent_sequence", unsigned_integer (pending_sequence_ j)); ("kind", string_value (pending_kind_ j));
   ("outcome", string_value out); ("result_digest", nullable hash)].

Definition details_of (c : command) (j : EffectJournal) : value :=
  match c with
  | Begin k effect => make_object [("kind", string_value k); ("effect", effect)]
  | Complete out hash => make_object (completion_fields j out hash)
  | Seal => null_value
  end.

(** The record a command writes. *)
Definition command_text (c : command) (j : EffectJournal) : string := record_text j (phase_of c) (details_of c j).

Definition commanded (c : command) (j : EffectJournal) : EffectJournal :=
  let next := recorded (record_hash j (phase_of c) (details_of c j)) (size (command_text c j)) j in
  match c with
  | Begin k _ => set_pending_kind k (set_pending_sequence (sequence_ j) next)
  | Complete _ _ => set_pending_kind EmptyString next
  | Seal => set_sealed next
  end.

(** When a command is admitted. *)
Definition admitted (c : command) (j : EffectJournal) : Prop :=
  failed_ j = false ∧ sealed_ j = false ∧ sequence_ j < maximum_records ∧
  size (command_text c j) <= maximum_record_bytes ∧
  bytes_ j <= maximum_journal_bytes - size (command_text c j) ∧
  match c with
  | Begin k effect => pending_kind_ j = EmptyString ∧ validate_effect (Journal.operation (spec_ j)) k effect = Ok tt
  | Complete out hash => pending_kind_ j ≠ EmptyString ∧ validate_completion (pending_kind_ j) out hash = Ok tt
  | Seal => pending_kind_ j = EmptyString
  end.

Lemma run_ok c j w j' w' : run c (j, w) = (Ok tt, (j', w')) → admitted c j ∧ j' = commanded c j.
Proof.
  destruct c as [k effect|out hash|]; simpl.
  - unfold begin_effect. intros (x & y & [= <- <-] & H)%seq_ok. cbn [fst] in H.
    destruct (is_empty (pending_kind_ j)) eqn:Ep; [|done]. cbn [negb] in H.
    apply seq_ok in H as ([] & x1 & [Hv ->]%lift_ok & H). apply seq_ok in H as ([] & x2 & [= <-] & H).
    apply seq_ok in H as ([] & [j3 w3] & (H1 & H2 & H3 & H4 & H5 & ->)%persist_ok & H). injection H as <- <-.
    split; [|done]. repeat split; try done. by destruct (pending_kind_ j).
  - unfold complete_effect. intros (x & y & [= <- <-] & H)%seq_ok. cbn [fst] in H.
    destruct (is_empty (pending_kind_ j)) eqn:Ep; [done|]. unfold persist_completion in H.
    apply seq_ok in H as (x & y & [= <- <-] & H). cbn [fst] in H.
    apply seq_ok in H as ([] & x1 & [Hv ->]%lift_ok & H).
    apply seq_ok in H as ([] & [j3 w3] & (H1 & H2 & H3 & H4 & H5 & ->)%persist_ok & H). injection H as <- <-.
    split; [|done]. repeat split; try done. intros E. by rewrite E in Ep.
  - unfold seal. intros (x & y & [= <- <-] & H)%seq_ok. cbn [fst] in H.
    destruct (is_empty (pending_kind_ j)) eqn:Ep; [|done]. cbn [negb] in H.
    apply seq_ok in H as ([] & [j3 w3] & (H1 & H2 & H3 & H4 & H5 & ->)%persist_ok & H). injection H as <- <-.
    split; [|done]. repeat split; try done. by destruct (pending_kind_ j).
Qed.

(** ** The records are accepted *)

(** The part of a record that is the caller's: the effect of an intent must be
    a value the parser accepts within the limits of a record. *)
Definition command_readable (c : command) : Prop :=
  match c with Begin _ effect => readable 2 effect 200 | _ => True end.
Ltac fields := repeat (apply Forall2_cons; split; [split; [reflexivity|cbn [snd]]|]); [..|done].

Lemma intent_keys k e : NoDup (map fst [("kind", string_value k); ("effect", e)]).
Proof. apply (bool_decide_eq_true_1 _). vm_compute. reflexivity. Qed.

Lemma completion_keys j out hash : NoDup (map fst (completion_fields j out hash)).
Proof. apply (bool_decide_eq_true_1 _). vm_compute. reflexivity. Qed.

Lemma completion_shape k out hash : validate_completion k out hash = Ok tt →
  (out = "applied" ∨ out = "retained") ∧ (hash = EmptyString ∨ digest hash = true).
Proof.
  unfold validate_completion. intros H%throw_if_ok. apply orb_false_elim in H as [H1 H2]. split.
  - apply andb_false_iff in H1 as [H1|H1]; bool_hyps; [by left|]. right. by bool_hyps.
  - destruct (Journal.any_of _ _); bool_hyps; [by right|]. left. by destruct hash.
Qed.

Lemma details_readable c j : journal_ok j → admitted c j → command_readable c → readable 1 (details_of c j) 202.
Proof.
  intros Hj (_ & _ & Hs & _ & _ & Ha) Hr. destruct c as [k e|out hash|]; simpl in *.
  - destruct Ha as [_ Hv]. apply (readable_object 1 _ [1; 200]); [lia|apply intent_keys|]. fields; [|done].
    apply readable_text; [lia|]. by eapply short_kind, effect_kind_known.
  - destruct Ha as [Hp Hv]. apply completion_shape in Hv as [Ho Hh].
    eapply readable_mono; [|apply (readable_object 1 _ [1; 1; 1; 1]); [lia|apply completion_keys|]]; [simpl; lia|].
    unfold completion_fields. fields.
    + apply readable_number; [lia|]. pose proof (j_intent _ Hj Hp). unfold maximum_records in Hs. unfold uint64_max. lia.
    + apply readable_text; [lia|]. destruct (j_pending _ Hj); [done|]. by apply short_kind.
    + apply readable_text; [lia|]. destruct Ho as [-> | ->]; (split; [reflexivity|vm_compute; discriminate]).
    + apply readable_nullable; [lia|]. destruct Hh as [->|Hh]; [apply short_empty|by apply short_digest].
  - eapply readable_mono; [|apply readable_null; lia]. lia.
Qed.

(** The inspection after a record. *)
Definition observed (c : command) (j : EffectJournal) (r : Reader) : MaintenanceEffectInspection :=
  let i := result_ r in
  advanced match c with
    | Begin k e => with_pending i k e
    | Complete out hash => with_completed i (if retain_completed r
        then completed i ++ [mk_effect (r_pending_sequence r) (pending_kind i) (pending_details i) out hash]
        else completed i)
    | Seal => with_sealed i
    end (record_hash j (phase_of c) (details_of c j)).

Definition observed_intent (c : command) (r : Reader) : N :=
  match c with Begin _ _ => next_sequence (result_ r) | _ => r_pending_sequence r end.

Lemma consume_details c j r : tracks j r → admitted c j →
  match c with
  | Begin _ _ => consume_intent r (details_of c j)
  | Complete _ _ => consume_complete r (details_of c j)
  | Seal => consume_sealed r (details_of c j)
  end = Ok (match c with
    | Begin k e => with_pending (result_ r) k e
    | Complete out hash => with_completed (result_ r) (if retain_completed r
        then completed (result_ r) ++
          [mk_effect (r_pending_sequence r) (pending_kind (result_ r)) (pending_details (result_ r)) out hash]
        else completed (result_ r))
    | Seal => with_sealed (result_ r)
    end, observed_intent c r).
Proof.
  intros Ht (_ & _ & _ & _ & _ & Ha). destruct c as [k e|out hash|]; simpl in Ha |- *.
  - destruct Ha as [Hp Hv]. unfold consume_intent. cbv zeta. rewrite (t_pending _ _ Ht), Hp, (t_spec _ _ Ht).
    unfold at_string. erewrite !StreamFacts.at_make_object by (apply intent_keys || reflexivity).
    rewrite (bind_step (exact_keys _ _) _ tt)
      by (unfold exact_keys, make_object; cbn [mbind result_bind as_object];
          rewrite bool_decide_eq_true_2 by reflexivity; reflexivity).
    cbn [is_empty negb throw_if mbind result_bind as_string]. rewrite Hv. reflexivity.
  - destruct Ha as [Hp Hv]. unfold consume_complete. cbv zeta.
    rewrite (t_pending _ _ Ht), (t_intent _ _ Ht Hp).
    rewrite (bind_step (exact_keys _ _) _ tt)
      by (unfold exact_keys, make_object; cbn [mbind result_bind as_object];
          rewrite bool_decide_eq_true_2 by reflexivity; reflexivity).
    assert (differs (make_object (completion_fields j out hash)) "kind" (pending_kind_ j) = Ok false ∧
      StreamJournal.at_unsigned (make_object (completion_fields j out hash)) "intent_sequence" = Ok (pending_sequence_ j) ∧
      at_ (make_object (completion_fields j out hash)) "result_digest" = Ok (nullable hash) ∧
      at_string (make_object (completion_fields j out hash)) "outcome" = Ok out) as (-> & -> & -> & ->).
    { unfold differs, StreamJournal.at_unsigned, at_string. repeat match goal with |- _ ∧ _ => split end;
      erewrite StreamFacts.at_make_object by (apply completion_keys || reflexivity); try reflexivity.
      cbn [mbind result_bind as_string]. by rewrite String.eqb_refl. }
    assert (is_empty (pending_kind_ j) = false) as -> by (by destruct (pending_kind_ j)).
    cbn [mbind result_bind]. rewrite N.eqb_refl. cbn [negb or_else mbind result_bind throw_if].
    rewrite (StreamFacts.optional_nullable hash : StreamJournal.optional_string (nullable hash) = Ok hash).
    cbn [mbind result_bind]. rewrite Hv. reflexivity.
  - unfold consume_sealed. by rewrite (t_pending _ _ Ht), Ha.
Qed.

Lemma consume_command cwd c j r : journal_ok j → tracks j r → admitted c j → command_readable c →
  sequence_ j < record_count r → sequence_ j ≠ 0 →
  consume cwd r (filename (sequence_ j)) (command_text c j) =
    (Ok tt, with_result r (observed c j r) (observed_intent c r) (bytes_ j + size (command_text c j))).
Proof.
  intros Hj Ht Ha Hr Hlt H0. pose proof (details_readable c j Hj Ha Hr) as Hd.
  pose proof Ha as (_ & Hs & _ & Hsize & Hbytes & _).
  assert (ascii_short (phase_of c)) as Hph by (destruct c; split; (reflexivity || (vm_compute; discriminate))).
  pose proof (decode_record j (phase_of c) (details_of c j) 202 (bytes_ j) Hj Hph Hd ltac:(lia) Hsize Hbytes) as Hdec.
  destruct (record_lookups j (phase_of c) (details_of c j)) as (_ & _ & _ & L4 & L5 & _ & L7).
  unfold consume. rewrite (t_alive _ _ Ht). unfold consume_record. cbv zeta.
  rewrite (t_next _ _ Ht), (proj2 (N.leb_gt _ _) Hlt), (t_bytes _ _ Ht). cbn [throw_if mbind result_bind].
  fold (command_text c j) in Hdec. rewrite Hdec. cbn [mbind result_bind].
  rewrite (record_continues j r _ _ Hj Ht Hs). cbn [mbind result_bind throw_if].
  rewrite L4, L5. cbn [mbind result_bind]. rewrite (proj2 (N.eqb_neq _ _) H0).
  pose proof (consume_details c j r Ht Ha) as Hc. rewrite L7.
  destruct c; cbn [phase_of String.eqb Ascii.eqb Bool.eqb]; rewrite Hc; reflexivity.
Qed.

Lemma tracks_commanded c j r : tracks j r → admitted c j →
  tracks (commanded c j) (with_result r (observed c j r) (observed_intent c r) (bytes_ j + size (command_text c j))).
Proof.
  intros [T1 T2 T3 T4 T5 T6 T7 T8 T9 T10] (_ & _ & _ & _ & _ & Ha).
  destruct c as [k e|out hash|]; simpl in Ha; split; simpl; try done; try congruence;
    try (by rewrite T5).
Qed.

Lemma commanded_ok c j : journal_ok j → admitted c j → sequence_ j + 1 < maximum_records → journal_ok (commanded c j).
Proof.
  intros [H1 H2 H3 H4 H5 H6] (_ & _ & _ & _ & _ & Ha) Hs.
  assert (digest (record_hash j (phase_of c) (details_of c j)) = true) as Hh by apply StreamFacts.sha256_digest.
  destruct c as [k e|out hash|]; simpl in Ha; split; simpl; try done; try lia;
    try (rewrite (proj2 (N.eqb_neq _ _)) by lia; exact Hh); try (by left).
  right. destruct Ha as [_ Hv]. by eapply effect_kind_known.
Qed.
End MaintenanceWriter.
