(* ===== verification/MaintenanceAppend.v ===== *)
(** The maintenance journal on an undisturbed host: a command of the writer
    followed by an inspection, end to end. *)

From Stdlib Require Import Ascii String NArith ZArith Lia Sorted.
From stdpp Require Import base list strings gmap sets.
From S2P Require Import Prelude Effects Utf8 Sha256 StdMap Json JsonFacts JsonParse Path PathFacts World.
From S2P Require Import RecordIo RecordFacts DirectoryFacts AuditFacts StreamJournal Journal SessionHost.
From S2P Require Import HostFacts Maintenance StreamFacts MaintenanceFacts MaintenanceWriter.

Module MaintenanceAppend.
Import Json JsonFacts Path PathFacts Effects World RecordIo RecordFacts DirectoryFacts SessionHost HostFacts.
Import Maintenance MaintenanceFacts MaintenanceWriter.

(** ** Reading the stored records *)

(** The records of a directory by name. *)
Definition stored (d : fs) (cl : list string) (records : list (string * string)) : Prop :=
  Forall (fun x => (∃ i, holds_file d (abs_text cl /+ fst x) i (snd x)) ∧
    size (snd x) <= maximum_record_bytes) records.

Definition alive (r : Reader) : Prop := r_failed r || finished r = false.

Lemma consume_alive cwd r nm text : alive r →
  consume cwd r nm text = match consume_record cwd r nm text with
    | Ok r => (Ok tt, r) | Throw e => (Throw e, poisoned r) end.
Proof. intros H. unfold consume. by rewrite H. Qed.

Lemma consume_record_alive cwd r nm text r' : consume_record cwd r nm text = Ok r' → alive r → alive r'.
Proof. intros (? & ? & ? & ? & ? & _ & _ & _ & _ & -> & _)%consume_record_ok. done. Qed.

Lemma consume_all_inv cl nms : Forall safe_name cl → Forall safe_name nms → ∀ w r r' w', quiet w → alive r →
  consume_all (abs_text cl) r nms w = (Ok r', w') → ∃ texts,
  length texts = length nms ∧ stored (disk w) cl (zip nms texts) ∧
  consume_records (cwd w) r (zip nms texts) = Ok r'.
Proof.
  intros Hcl. induction 1 as [|nm nms Hn _ IH]; intros w r r' w' Hq Ha H.
  { injection H as <- _. exists []. repeat split. constructor. }
  cbn [consume_all] in H. apply seq_ok in H as (text & w1 & R & H).
  destruct (read_stable_text_inv w _ _ _ _ Hq (child_path cl nm Hcl Hn) R) as [[i Hf] Hs].
  pose proof (runs_read_stable_text w _ i text _ Hq (child_path cl nm Hcl Hn) Hf Hs) as (w2 & R2 & D2 & Q2 & C2).
  rewrite R2 in R. injection R as <-. apply seq_ok in H as (w3 & w4 & [= <- <-] & H).
  rewrite consume_alive in H by done. destruct (consume_record (cwd w2) r nm text) as [r1|] eqn:E; [|done].
  apply seq_ok in H as ([] & w3 & [_ ->]%lift_ok & H).
  destruct (IH w2 r1 r' w' Q2 (consume_record_alive _ _ _ _ _ E Ha) H) as (texts & Hl & Hst & Hc).
  rewrite D2 in Hst. rewrite C2 in E, Hc. exists (text :: texts). split; [simpl; by rewrite Hl|]. split.
  - constructor; [|done]. split; [by exists i|done].
  - unfold consume_records. cbn [zip zip_with fold_result fst snd]. rewrite E. exact Hc.
Qed.

Lemma consume_all_runs cl records : Forall safe_name cl → Forall (fun x => safe_name (fst x)) records →
  ∀ w r r', quiet w → alive r → stored (disk w) cl records → consume_records (cwd w) r records = Ok r' →
  runs w (consume_all (abs_text cl) r (map fst records)) r' (disk w).
Proof.
  intros Hcl. induction 1 as [|[nm text] records Hn _ IH]; intros w r r' Hq Ha Hst H.
  { injection H as <-. by apply runs_ret. }
  apply Forall_cons in Hst as [[[i Hf] Hs] Hst]. simpl in Hn, Hf, Hs. cbn [map fst consume_all].
  unfold consume_records in H. cbn [fold_result fst snd] in H. apply bind_ok in H as (r1 & E & H).
  eapply runs_bind; [eapply runs_read_stable_text; [done|by apply child_path|done|done]|].
  intros w1 Q1 D1 C1. cbv beta. eapply runs_bind; [by apply runs_get|]. intros w2 Q2 D2 C2. cbv beta.
  rewrite consume_alive by done. rewrite C1, E.
  eapply runs_bind; [by apply runs_lift|]. intros w3 Q3 D3 C3. cbv beta.
  assert (disk w3 = disk w) as D by congruence. rewrite <-D in *. apply IH; [done|by eapply consume_record_alive|done|].
  replace (cwd w3) with (cwd w) by congruence. exact H.
Qed.
(** ** Inspection *)

(** The reader does not depend on how many records will follow. *)
Definition with_count (n : N) (r : Reader) : Reader :=
  mk_reader (r_spec r) (r_directory_identity r) (expected_source_digest r) n (retain_completed r) (result_ r)
    (r_pending_sequence r) (r_bytes r) (r_failed r) (finished r).

Lemma consume_record_count cwd n r nm text r' : record_count r <= n →
  consume_record cwd r nm text = Ok r' → consume_record cwd (with_count n r) nm text = Ok (with_count n r').
Proof.
  intros Hn H. pose proof H as (? & ? & ? & ? & ? & Hlt & _)%consume_record_ok.
  unfold consume_record in *. cbv zeta in *. apply bind_ok in H as ([] & _ & H).
  change (result_ (with_count n r)) with (result_ r). change (record_count (with_count n r)) with n.
  rewrite (proj2 (N.leb_gt _ _)) by lia. cbn [throw_if mbind result_bind].
  change (r_bytes (with_count n r)) with (r_bytes r).
  destruct (decode_record_text text (r_bytes r)) as [[v bytes]|]; [|done]. cbn [mbind result_bind] in *.
  change (chain_differs (with_count n r)) with (chain_differs r).
  destruct (chain_differs r nm v) as [bad|]; [|done]. cbn [mbind result_bind] in *.
  destruct (throw_if bad _); [|done]. cbn [mbind result_bind] in *.
  destruct (at_string v "phase"); [|done]. cbn [mbind result_bind] in *.
  destruct (at_ v "details") as [d|]; [|done]. cbn [mbind result_bind] in *.
  change (consume_context cwd (with_count n r)) with (consume_context cwd r).
  change (consume_intent (with_count n r)) with (consume_intent r).
  change (consume_complete (with_count n r)) with (consume_complete r).
  change (consume_sealed (with_count n r)) with (consume_sealed r).
  apply bind_ok in H as ([i k] & -> & H). cbn [mbind result_bind].
  apply bind_ok in H as (hash & -> & H). cbn [mbind result_bind]. by injection H as <-.
Qed.

Lemma consume_records_count cwd n l r r' : record_count r <= n →
  consume_records cwd r l = Ok r' → consume_records cwd (with_count n r) l = Ok (with_count n r').
Proof.
  revert r. induction l as [|x l IH]; intros r Hn; [by intros [= <-]|]. unfold consume_records. cbn [fold_result].
  intros (r1 & H1 & H)%bind_ok. rewrite (consume_record_count cwd n _ _ _ _ Hn H1). cbn [mbind result_bind].
  apply IH; [|exact H]. apply consume_record_same in H1 as (_ & _ & _ & -> & _). done.
Qed.

Lemma consume_records_same cwd l r r' : consume_records cwd r l = Ok r' → same_reading r r'.
Proof.
  revert r. induction l as [|x l IH]; intros r; [by intros [= <-]|]. unfold consume_records. cbn [fold_result].
  intros (r1 & H1%consume_record_same & H%IH)%bind_ok. unfold same_reading in *. naive_solver congruence.
Qed.

Lemma consume_records_alive cwd l r r' : consume_records cwd r l = Ok r' → alive r → alive r'.
Proof.
  revert r. induction l as [|x l IH]; intros r; [by intros [= <-]|]. unfold consume_records. cbn [fold_result].
  intros (r1 & H1 & H)%bind_ok Ha. eapply IH; [exact H|]. by eapply consume_record_alive.
Qed.

Lemma fold_reader_ok cwd l r r' : consume_records cwd r l = Ok r' → reader_ok r → reader_ok r'.
Proof.
  revert r. induction l as [|x l IH]; intros r; [by intros [= <-]|]. unfold consume_records. cbn [fold_result].
  intros (r1 & H1 & H)%bind_ok Hr. eapply IH; [exact H|]. by eapply reader_ok_step.
Qed.

Lemma admit_records acc l nms : fold_result admit_record acc l = Ok nms ↔
  forallb (fun x => is_regular (snd x)) l = true ∧ nms = acc ++ map entry_name l ∧
  (l = [] ∨ N.of_nat (length acc + length l) <= maximum_records).
Proof.
  revert acc. induction l as [|x l IH]; intros acc; cbn [fold_result map forallb length].
  - rewrite app_nil_r. split; [intros [= ->]; auto|]. by intros (_ & -> & _).
  - assert (admit_record acc x = if (maximum_records <=? N.of_nat (length acc)) || negb (is_regular (snd x))
      then throw "maintenance journal directory is not exact" else Ok (acc ++ [entry_name x])) as ->
      by (unfold admit_record; by destruct (_ || _)).
    destruct (is_regular (snd x)); cbn [negb andb]; rewrite ?orb_true_r, ?orb_false_r; [|by split; [|intros (? & _)]].
    destruct (N.leb_spec maximum_records (N.of_nat (length acc))) as [Hb|Hb]; cbn [mbind result_bind throw].
    + split; [done|]. intros (_ & _ & [?|?]); [done|]. lia.
    + rewrite IH, <-app_assoc, length_app. cbn [length app]. split.
      * intros (H1 & H2 & H3). split; [done|]. split; [done|]. right. destruct H3 as [->|]; simpl; lia.
      * intros (H1 & H2 & H3). split; [done|]. split; [done|]. destruct H3 as [|]; [done|]. right. lia.
Qed.
(** The reader forces the names of the records. *)
Lemma consume_all_names directory nms r w r' w' : consume_all directory r nms w = (Ok r', w') →
  nms = map (fun k => filename (next_sequence (result_ r) + N.of_nat k)) (seq 0 (length nms)).
Proof.
  revert r w. induction nms as [|nm nms IH]; intros r w H; [done|]. cbn [consume_all] in H.
  apply seq_ok in H as (text & w1 & _ & H). apply seq_ok in H as (w2 & w3 & [= <- <-] & H).
  destruct (consume (cwd w1) r nm text) as [outcome r1] eqn:E.
  apply seq_ok in H as ([] & w4 & [-> ->]%lift_ok & H). apply consume_ok in E.
  apply consume_record_at in E as [(ms & _ & Hn & _) Hs]. simpl in Hn. apply IH in H. rewrite H at 1.
  cbn [length seq map]. rewrite N.add_0_r, Hn. f_equal. rewrite <-seq_shift, map_map. apply map_ext. intros k.
  rewrite Hs. f_equal. lia.
Qed.

Lemma record_names n : map (fun k => filename (0 + N.of_nat k)) (seq 0 n) = numbered_names ".json" n.
Proof. unfold numbered_names. rewrite map_map. by apply map_ext. Qed.

Section Journal.
Context (l : list string) (s : Journal.TransactionSpec).
Hypothesis Hl : Forall safe_name l.
Hypothesis Hroot : Journal.state_root s = abs_text l.
Hypothesis Hid : valid_identifier (Journal.transaction_id s) = true.
Let nm := Journal.transaction_id s +:+ ".maintenance".
Let cl := l ++ ["transactions"; nm].

Lemma journal_name_safe : safe_name nm.
Proof.
  unfold nm. assert (∀ x, Journal.transaction_id s +:+ ".maintenance" = x → (12 <= String.length x)%nat) as Hlen
    by (intros x <-; rewrite length_append; simpl; lia).
  split; [split|split].
  - unfold slash_free. rewrite forall_bytes_append, andb_true_r. unfold valid_identifier in Hid. bool_hyps.
    eapply forall_bytes_impl; [|done]. intros c Hc. apply negb_true_iff, Ascii.eqb_neq. intros ->.
    vm_compute in Hc. discriminate.
  - by destruct (Journal.transaction_id s).
  - intros Hx%Hlen. simpl in Hx. lia.
  - intros Hx%Hlen. simpl in Hx. lia.
Qed.

Lemma effect_names_safe : Forall safe_name cl.
Proof.
  apply Forall_app. split; [done|]. constructor; [by repeat split|]. constructor; [apply journal_name_safe|constructor].
Qed.

Lemma runs_effect_directory w : quiet w → runs w (effect_directory s) (abs_text cl) (disk w).
Proof.
  intros Hq. unfold effect_directory. rewrite Hroot.
  assert (runs w (StableFile.absolute (abs_text l)) (abs_text l) (disk w)) as Ha by (by exists w).
  eapply runs_bind; [exact Ha|]. intros w1 Q1 D1 _. cbv beta. rewrite <-D1.
  eapply runs_bind; [by apply runs_ret|]. intros w2 Q2 D2 _. cbv beta. rewrite normal_abs_text by done.
  pose proof effect_names_safe as Hc. fold nm. rewrite abs_text_append; [|by apply safe_plain|by repeat split].
  assert (Forall safe_name (l ++ ["transactions"])) as Hc' by (apply Forall_app; split; [done|by repeat constructor]).
  rewrite abs_text_append; [|by apply safe_plain|apply journal_name_safe]. rewrite <-app_assoc, <-D2. by apply runs_ret.
Qed.

(** What an inspection of a quiet directory has seen. *)
Record seen (w : world) (expected : string) (retain : bool) (texts : list string) (r : Reader) : Prop := {
  seen_expected : digest expected = true;
  seen_count : length texts ≠ 0%nat ∧ N.of_nat (length texts) <= maximum_records;
  seen_regular : forallb (fun x => is_regular (snd x)) (listing (disk w) cl) = true;
  seen_names : map entry_name (listing (disk w) cl) ≡ₚ numbered_names ".json" (length texts);
  seen_stored : stored (disk w) cl (zip (numbered_names ".json" (length texts)) texts);
  seen_read : consume_records (cwd w)
    (fresh s (dir_identity (disk w) cl) expected (N.of_nat (length texts)) retain)
    (zip (numbered_names ".json" (length texts)) texts) = Ok r }.

(** What an inspection returns. *)
Definition reported (w : world) (r : Reader) : MaintenanceEffectInspection :=
  concluded (result_ r) (r_pending_sequence r) (r_bytes r) (dir_identity (disk w) cl).

Lemma names_safe n : N.of_nat n <= maximum_records → Forall safe_name (numbered_names ".json" n).
Proof.
  intros Hn. apply numbered_names_safe; [done|]. etransitivity; [exact Hn|]. vm_compute. discriminate.
Qed.

Lemma inspect_inv expected retain w i w' : quiet w → safe_dir (disk w) cl →
  inspect s expected retain w = (Ok i, w') → ∃ texts r, seen w expected retain texts r ∧ i = reported w r.
Proof.
  intros Hq Hd H. unfold inspect in H. rewrite Hid in H. cbn [negb orb] in H.
  destruct (digest expected) eqn:Ed; [|done]. cbn [negb] in H.
  apply seq_ok in H as (directory & w1 & R & H).
  destruct (runs_effect_directory w Hq) as (w1' & R1 & D1 & Q1 & C1). rewrite R1 in R. injection R as <- <-.
  apply seq_ok in H as (identity & w2 & R & H).
  destruct (runs_identity w1' cl Q1 effect_names_safe ltac:(by rewrite D1)) as (w2' & R2 & D2 & Q2 & C2).
  rewrite R2 in R. injection R as <- <-. unfold list_directory in H.
  apply seq_ok in H as (listed & w3 & R3 & H). rewrite (observe_quiet _ _ Q2) in R3. injection R3 as <- <-.
  rewrite names_abs_text in H by (apply safe_plain, effect_names_safe).
  assert (disk w2' = disk w) as Dw by congruence. rewrite Dw, (safe_dir_here _ _ Hd) in H.
  fold (listing (disk w) cl) in H. apply seq_ok in H as (nms & w4 & [Ha ->]%lift_ok & H).
  apply admit_records in Ha as (Hreg & -> & Hb). cbn [app] in H.
  destruct (length (map entry_name (listing (disk w) cl)) =? 0)%nat eqn:El; [done|]. apply Nat.eqb_neq in El.
  apply seq_ok in H as (r0 & w5 & [Hm ->]%lift_ok & H). unfold make_reader in Hm.
  apply bind_ok in Hm as ([] & _ & Hm). injection Hm as <-.
  apply seq_ok in H as (r & w6 & Hc & H). apply seq_ok in H as (now & w7 & _ & H).
  destruct (negb (String.eqb now (dir_identity (disk w1') cl))); [done|].
  apply lift_ok in H as [Hf _]. rewrite D1 in *.
  pose proof (consume_all_names _ _ _ _ _ _ Hc) as Hn. cbn [result_ empty_inspection next_sequence] in Hn.
  rewrite record_names in Hn. set (names0 := map entry_name (listing (disk w) cl)) in *.
  assert (length (sort_names names0) = length names0) as Hlen by (by rewrite sort_names_perm).
  rewrite Hlen in Hn. destruct Hb as [Hb|Hb]; [unfold names0 in El; by rewrite Hb in El|].
  assert (N.of_nat (length names0) <= maximum_records) as Hbound by (unfold names0; by rewrite length_map).
  destruct (quiet_tick w2' Q2) as (Q3 & D3 & C3). rewrite Hn in Hc.
  fold (fresh s (dir_identity (disk w) cl) expected (N.of_nat (length names0)) retain) in Hc.
  set (r0 := fresh _ _ _ _ _) in Hc. assert (alive r0) as Hr0 by done.
  destruct (consume_all_inv cl _ effect_names_safe (names_safe _ Hbound) _ _ _ _ Q3 Hr0 Hc) as (texts & Ht & Hst & Hco).
  unfold r0 in Hco.
  rewrite numbered_length in Ht. rewrite <-Ht in *. rewrite D3, Dw in Hst.
  replace (cwd (tick w2')) with (cwd w) in Hco by congruence.
  exists texts, r. split; [split|]; try done.
  - by rewrite <-Hn, sort_names_perm.
  - unfold finish in Hf. destruct (r_failed r || finished r); [done|].
    destruct (negb _); [done|]. injection Hf as <-. unfold reported. f_equal.
    by apply consume_records_same in Hco as (_ & -> & _).
Qed.

Lemma zip_names {A B} (nms : list A) (texts : list B) : length nms = length texts → map fst (zip nms texts) = nms.
Proof. revert texts. induction nms as [|n nms IH]; intros [|t texts] H; simpl in *; try done. by rewrite IH by lia. Qed.

Lemma inspect_runs expected retain w texts r : quiet w → safe_dir (disk w) cl → seen w expected retain texts r →
  next_sequence (result_ r) = N.of_nat (length texts) →
  runs w (inspect s expected retain) (reported w r) (disk w).
Proof.
  intros Hq Hd [He [Hne Hn] Hreg Hnm Hst Hc] Hseq. unfold inspect, reported. rewrite Hid, He. cbn [negb orb].
  assert (length (listing (disk w) cl) = length texts) as Hlen
    by (rewrite <-(length_map entry_name), Hnm; apply numbered_length).
  assert (sort_names (map entry_name (listing (disk w) cl)) = numbered_names ".json" (length texts)) as Hsort.
  { apply sort_names_unique; [|done]. apply numbered_sorted. etransitivity; [exact Hn|]. vm_compute. discriminate. }
  eapply runs_bind; [by apply runs_effect_directory|]. intros w1 Q1 D1 C1. cbv beta. rewrite <-D1, <-C1 in *.
  eapply runs_bind; [apply runs_identity; [done|apply effect_names_safe|done]|]. intros w2 Q2 D2 C2. cbv beta.
  eapply runs_bind; [by apply runs_observe|]. intros w3 Q3 D3 C3. cbv beta.
  rewrite names_abs_text by (apply safe_plain, effect_names_safe). rewrite D2, (safe_dir_here _ _ Hd).
  fold (listing (disk w1) cl).
  eapply runs_bind; [apply runs_lift; [done|]; apply admit_records; split; [exact Hreg|]; split; [reflexivity|]|].
  { right. simpl. by rewrite Hlen. }
  intros w4 Q4 D4 C4. cbv beta. cbn [app]. rewrite length_map, Hlen, (proj2 (Nat.eqb_neq _ _) Hne).
  assert (make_reader s (dir_identity (disk w1) cl) expected (N.of_nat (length texts)) retain =
    Ok (fresh s (dir_identity (disk w1) cl) expected (N.of_nat (length texts)) retain)) as Hm.
  { unfold make_reader. rewrite Hid, He, (proj2 (N.eqb_neq _ _)), (proj2 (N.ltb_ge _ _) Hn) by lia. reflexivity. }
  eapply runs_bind; [by apply runs_lift|]. intros w5 Q5 D5 C5. cbv beta.
  assert (disk w5 = disk w1) as D by congruence. assert (cwd w5 = cwd w1) as C by congruence.
  rewrite Hsort. eapply runs_bind.
  { rewrite <-(zip_names (numbered_names ".json" (length texts)) texts) by apply numbered_length.
    apply consume_all_runs; [apply effect_names_safe| |done|done|by rewrite D|by rewrite C].
    apply Forall_forall. intros [x t] Hx. pose proof (names_safe _ Hn) as Hs. rewrite Forall_forall in Hs.
    apply Hs. by eapply elem_of_zip_l. }
  intros w6 Q6 D6 C6. cbv beta. assert (disk w6 = disk w1) as D' by congruence.
  eapply runs_bind; [apply runs_identity; [done|apply effect_names_safe|by rewrite D']|]. intros w7 Q7 D7 C7. cbv beta.
  rewrite D', String.eqb_refl. cbn [negb]. rewrite <-D', <-D7. apply runs_lift; [done|].
  unfold finish. rewrite (consume_records_alive _ _ _ _ Hc eq_refl).
  pose proof (consume_records_same _ _ _ _ Hc) as (_ & Hdi & _ & Hco & _). cbn in Hco, Hdi.
  rewrite Hco, Hseq, N.eqb_refl, Hdi. cbn [negb fst]. by rewrite ?D7, ?D'.
Qed.

(** ** Writing the next record *)

Lemma decode_record_less text bytes v total : decode_record_text text bytes = Ok (v, total) →
  decode_record_text text 0 = Ok (v, size text).
Proof.
  unfold decode_record_text. intros H.
  apply bind_ok in H as ([] & -> & H). apply bind_ok in H as ([] & _ & H). cbn [mbind result_bind].
  rewrite (proj2 (N.ltb_ge _ 0)) by lia. cbn [throw_if mbind result_bind].
  destruct (parse text _) as [x|]; [|done]. cbn [mbind result_bind] in *.
  destruct (exact_keys x _); [|done]. cbn [mbind result_bind] in *.
  destruct (at_string x "digest") as [hash|]; [|done]. cbn [mbind result_bind] in *.
  destruct (as_object x) as [ms|]; [|done]. cbn [mbind result_bind] in *.
  apply bind_ok in H as (bad & -> & H). cbn [mbind result_bind].
  apply bind_ok in H as ([] & -> & H). cbn [mbind result_bind]. by injection H as <- _.
Qed.

Lemma zip_snoc {A B} (xs : list A) x (ys : list B) y : length xs = length ys →
  zip (xs ++ [x]) (ys ++ [y]) = zip xs ys ++ [(x, y)].
Proof. intros H. by rewrite zip_with_app. Qed.

(** The last record seen. *)
Lemma seen_last w expected retain texts r : seen w expected retain texts r → ∃ text v,
  (∃ i, holds_file (disk w) (abs_text cl /+ filename (N.of_nat (length texts) - 1)) i text) ∧
  size text <= maximum_record_bytes ∧ decode_record_text text 0 = Ok (v, size text) ∧
  at_string v "digest" = Ok (journal_digest (result_ r)) ∧ next_sequence (result_ r) = N.of_nat (length texts).
Proof.
  intros [_ [Hne Hn] _ _ Hst Hc]. destruct texts as [|text texts _] using rev_ind; [done|].
  rewrite length_app in *. simpl in *. rewrite Nat.add_1_r in *. rewrite numbered_snoc in *.
  rewrite zip_snoc in * by apply numbered_length.
  pose proof Hc as Hchain. apply consume_records_chain in Hchain as [_ Hseq]; [|done|done].
  unfold consume_records in Hc. rewrite fold_result_app in Hc. apply bind_ok in Hc as (r1 & _ & Hc).
  apply bind_ok in Hc as (r2 & Hc & H). injection H as <-. simpl in Hc.
  apply consume_record_ok in Hc as (v & i & k & bytes & hash & _ & Hd & _ & Hh & -> & _).
  apply Forall_app in Hst as [_ Hst]. apply Forall_cons in Hst as [[Hf Hs] _]. simpl in Hf, Hs.
  exists text, v. replace (N.of_nat (S (length texts)) - 1) with (N.of_nat (length texts)) by lia.
  split; [exact Hf|]. split; [done|]. split; [by eapply decode_record_less|]. split; [done|].
  rewrite Hseq, length_app, length_zip_with_l_eq by apply numbered_length. rewrite numbered_length. simpl. lia.
Qed.

Lemma host_step {A B} (m : io A) (f : A → act B) j w a w1 : m w = (Ok a, w1) → (on_snd m ≫= f) (j, w) = f a (j, w1).
Proof. intros H. unfold mbind, M_bind, on_snd. simpl. by rewrite H. Qed.

Lemma persist_of_record phase d j w x : failed_ j = false → sealed_ j = false → sequence_ j < maximum_records →
  persist_record phase d (j, w) = (Ok tt, x) → persist phase d (j, w) = (Ok tt, x).
Proof.
  intros Hf Hs Hm H. unfold persist. apply seq_ok. exists j, (j, w). split; [done|]. cbv beta.
  rewrite Hf, Hs, (proj2 (N.leb_gt _ _) Hm). cbn [orb]. unfold on_exception. by rewrite H.
Qed.

(** The writer that [resume] makes of an inspection, without a fault injector. *)
Definition writer (i : MaintenanceEffectInspection) : EffectJournal :=
  mk_journal s None (abs_text cl) (directory_identity i) (source_digest i) (journal_digest i) (pending_kind i)
    (pending_sequence i) (next_sequence i) (serialized_bytes i) (sealed i) false.

Lemma persist_runs w expected retain texts r j phase d : quiet w → fs_ok (disk w) → safe_dir (disk w) cl →
  seen w expected retain texts r → N.of_nat (length texts) < maximum_records →
  injector_ j = None → directory_ j = abs_text cl → directory_identity_ j = dir_identity (disk w) cl →
  last_digest_ j = journal_digest (result_ r) → sequence_ j = N.of_nat (length texts) →
  failed_ j = false → sealed_ j = false →
  size (record_text j phase d) <= maximum_record_bytes →
  bytes_ j <= maximum_journal_bytes - size (record_text j phase d) → ∃ w1,
  persist phase d (j, w) = (Ok tt, (recorded (record_hash j phase d) (size (record_text j phase d)) j, w1)) ∧
  quiet w1 ∧ cwd w1 = cwd w ∧
  adds_file (disk w) (disk w1) (abs_text (cl ++ [filename (N.of_nat (length texts))])) (fresh_inode (disk w))
    (record_text j phase d).
Proof.
  intros Hq Hok Hd Hseen Hmax Hinj Hdir Hident Hlast Hseq Hfail Hseal Hs Hb.
  destruct (seen_last _ _ _ _ _ Hseen) as (text & v & [i0 Hf] & Hst & Hdec & Hdg & _).
  destruct Hseen as [_ [Hne _] _ Hnm _ _].
  assert (safe_name (filename (N.of_nat (length texts)))) as Hsafe.
  { apply (numbered_safe ".json"); [done|]. etransitivity; [exact Hmax|]. reflexivity. }
  assert (safe_name (filename (N.of_nat (length texts) - 1))) as Hsafe'.
  { apply (numbered_safe ".json"); [done|]. eapply N.le_lt_trans; [|exact (N.lt_trans _ _ (10 ^ 20) Hmax eq_refl)]. lia. }
  assert (entries (disk w) !! (cl ++ [filename (N.of_nat (length texts))]) = None) as Hfree.
  { apply eq_None_not_Some. intros Hsome. apply (listed _ _ _ Hok) in Hsome. rewrite Hnm in Hsome. revert Hsome.
    apply (numbered_fresh ".json"). etransitivity; [exact Hmax|]. reflexivity. }
  assert (Forall safe_name (cl ++ [filename (N.of_nat (length texts))])) as Hcl'
    by (apply Forall_app; split; [apply effect_names_safe|by constructor]).
  destruct (runs_identity w cl Hq effect_names_safe Hd) as (w1 & R1 & D1 & Q1 & C1).
  assert (runs w1 (read_record (abs_text cl /+ filename (N.of_nat (length texts) - 1)) 0) (v, size text) (disk w1))
    as (w2 & R2 & D2 & Q2 & C2).
  { unfold read_record. eapply runs_bind;
      [eapply runs_read_stable_text; [done|apply child_path; [apply effect_names_safe|done]|by rewrite D1|exact Hst]|].
    intros w2 Q2 D2 _. rewrite <-D2. by apply runs_lift. }
  destruct (write_new_ensures w2 cl (filename (N.of_nat (length texts))) (record_text j phase d) Q2 Hcl')
    as ([] & d3 & (w3 & R3 & D3 & Q3 & C3) & A3); [by rewrite D2, D1|by rewrite D2, D1|].
  rewrite D2, D1, <-D3 in A3. rewrite <-abs_text_append in R3 by (apply safe_plain, effect_names_safe || apply Hsafe).
  assert (safe_dir (disk w3) cl) as Hd3 by (by eapply safe_dir_adds).
  destruct (runs_identity w3 cl Q3 effect_names_safe Hd3) as (w4 & R4 & D4 & Q4 & C4).
  rewrite (dir_identity_adds _ _ _ _ _ _ A3 Hd), <-Hident in R4. rewrite <-Hident in R1.
  exists w4. split; [|split; [done|split; [congruence|by rewrite D4]]].
  apply persist_of_record; [done|done|by rewrite Hseq|].
  unfold persist_record. apply seq_ok. exists j, (j, w). split; [done|]. cbv beta. rewrite Hinj, Hdir.
  apply seq_ok. exists tt, (j, w). split; [done|]. cbv beta.
  rewrite (host_step _ _ _ _ _ _ R1). cbv beta. rewrite String.eqb_refl. cbn [negb].
  apply seq_ok. exists tt, (j, w1). split; [done|]. cbv beta.
  apply seq_ok. exists tt, (j, w2). split.
  { rewrite Hseq, (proj2 (N.eqb_neq _ _)) by lia. cbn [negb when]. rewrite (host_step _ _ _ _ _ _ R2). cbv beta iota.
    apply seq_ok. exists false, (j, w2). split; [|done]. unfold differs. rewrite Hdg, Hlast.
    cbn [mbind result_bind]. by rewrite String.eqb_refl. }
  cbv beta. rewrite sha256_canonical_eq. apply seq_ok. exists (record_hash j phase d), (j, w2). split; [done|]. cbv beta zeta.
  fold (record_text j phase d). rewrite (proj2 (N.ltb_ge _ _) Hs), (proj2 (N.ltb_ge _ _) Hb). cbn [orb].
  apply seq_ok. exists tt, (j, w2). split; [done|]. cbv beta. rewrite Hseq.
  rewrite (host_step _ _ _ _ _ _ R3). cbv beta. rewrite (host_step _ _ _ _ _ _ R4). cbv beta.
  rewrite String.eqb_refl. cbn [negb]. reflexivity.
Qed.

(** The object that a command hands to [persist]. *)
Definition prepared (c : command) (j : EffectJournal) : EffectJournal :=
  match c with Begin _ _ => set_pending_sequence (sequence_ j) j | _ => j end.

Lemma run_of_persist c j w w1 : admitted c j →
  persist (phase_of c) (details_of c j) (prepared c j, w) = (Ok tt,
    (recorded (record_hash j (phase_of c) (details_of c j)) (size (command_text c j)) (prepared c j), w1)) →
  run c (j, w) = (Ok tt, (commanded c j, w1)).
Proof.
  intros (_ & _ & _ & _ & _ & Ha) Hp. destruct c as [k e|out hash|]; cbn [run prepared phase_of details_of] in *.
  - destruct Ha as [Hk Hv]. unfold begin_effect. apply seq_ok. exists j, (j, w). split; [done|]. cbv beta.
    rewrite Hk. cbn [is_empty negb]. apply seq_ok. exists tt, (j, w). split; [by apply lift_ok|]. cbv beta.
    apply seq_ok. exists tt, (set_pending_sequence (sequence_ j) j, w). split; [done|]. cbv beta.
    apply seq_ok. eexists tt, _. split; [exact Hp|]. done.
  - destruct Ha as [Hk Hv]. unfold complete_effect. apply seq_ok. exists j, (j, w). split; [done|]. cbv beta.
    assert (is_empty (pending_kind_ j) = false) as -> by (by destruct (pending_kind_ j)).
    unfold persist_completion. apply seq_ok. exists j, (j, w). split; [done|]. cbv beta.
    apply seq_ok. exists tt, (j, w). split; [by apply lift_ok|]. cbv beta.
    apply seq_ok. eexists tt, _. split; [exact Hp|]. done.
  - unfold seal. apply seq_ok. exists j, (j, w). split; [done|]. cbv beta. rewrite Ha. cbn [is_empty negb].
    apply seq_ok. eexists tt, _. split; [exact Hp|]. done.
Qed.

(** The inspection after a command. *)
Definition inspected (c : command) (retain : bool) (i : MaintenanceEffectInspection) : MaintenanceEffectInspection :=
  let j := writer i in
  concluded (advanced match c with
      | Begin k e => with_pending i k e
      | Complete out hash => with_completed i (if retain
          then completed i ++ [mk_effect (pending_sequence i) (pending_kind i) (pending_details i) out hash]
          else completed i)
      | Seal => with_sealed i
      end (record_hash j (phase_of c) (details_of c j)))
    (match c with Begin _ _ => next_sequence i | _ => pending_sequence i end)
    (serialized_bytes i + size (command_text c j)) (directory_identity i).

Lemma writer_inspected c retain i : writer (inspected c retain i) = commanded c (writer i).
Proof. by destruct c. Qed.

(** The writer made of what was seen agrees with the reader. *)
Lemma seen_tracks w expected retain texts r : seen w expected retain texts r →
  let j := writer (reported w r) in
  sealed (result_ r) = false → N.of_nat (length texts) < maximum_records →
  journal_ok j ∧ tracks j (with_count (N.of_nat (S (length texts))) r).
Proof.
  intros Hseen j Hseal Hmax. destruct (seen_last _ _ _ _ _ Hseen) as (text & v & _ & _ & Hdec & Hdg & Hseq).
  destruct Hseen as [He [Hne _] _ _ _ Hc]. pose proof (consume_records_same _ _ _ _ Hc) as (S1 & S2 & S3 & _ & _).
  pose proof (consume_records_alive _ _ _ _ Hc eq_refl) as Hal.
  assert (reader_ok r) as (_ & _ & _ & _ & Hr).
  { eapply (fold_reader_ok _ _ _ _ Hc), fresh_ok. }
  rewrite Hseq, (proj2 (N.eqb_neq _ _)) in Hr by lia. destruct Hr as [[_ _ Hp _ _] [Hsrc _]]. simpl in S1, S2, S3.
  split; split; simpl; rewrite ?Hseq; try done.
  - by rewrite Hsrc, S3.
  - rewrite (proj2 (N.eqb_neq _ _)) by lia.
    apply decode_record_shape in Hdec as (ms & hash & -> & _ & _ & Hf & ->). apply at_string_find in Hdg.
    rewrite Hf in Hdg. injection Hdg as <-. apply StreamFacts.sha256_digest.
  - unfold pending in Hp. destruct (pending_kind (result_ r)) as [|b k] eqn:Ek; [by left|]. right.
    rewrite <-Ek in *. destruct Hp as [Hv _]; [by rewrite Ek|]. by eapply effect_kind_known.
  - intros Hk. unfold pending in Hp. destruct Hp as [_ Hv]; [by destruct (pending_kind (result_ r))|]. lia.
Qed.

(** C9 A command of the maintenance writer and the inspector agree.  On an
    undisturbed host, when an inspection of the journal returned and the writer
    made of it admits a command (announce a valid effect, complete the pending
    one, or seal), the command returns, one new record with the next number is
    the only change to the file system, and the next inspection returns exactly
    the previous one advanced by that command; the writer object is then the one
    that this inspection would resume.  The effect of an announcement has to be
    a value the parser takes back ([command_readable]: UTF-8 texts within the
    limits of the parser and at most 200 values): the writer does not check this. *)
Theorem command_then_inspect c expected retain w i w0 :
  quiet w → fs_ok (disk w) → safe_dir (disk w) cl → inspect s expected retain w = (Ok i, w0) →
  admitted c (writer i) → command_readable c → ∃ w1,
  run c (writer i, w) = (Ok tt, (commanded c (writer i), w1)) ∧
  adds_file (disk w) (disk w1) (abs_text (cl ++ [filename (next_sequence i)])) (fresh_inode (disk w))
    (command_text c (writer i)) ∧
  fst (inspect s expected retain w1) = Ok (inspected c retain i) ∧
  writer (inspected c retain i) = commanded c (writer i).
Proof.
  intros Hq Hok Hd Hi Ha Hr. destruct (inspect_inv _ _ _ _ _ Hq Hd Hi) as (texts & r & Hseen & ->).
  pose proof Ha as (_ & Hsl & Hmax & Hsize & Hbytes & _). simpl in Hsl, Hmax, Hbytes.
  destruct (seen_last _ _ _ _ _ Hseen) as (_ & _ & _ & _ & _ & _ & Hseq). rewrite Hseq in Hmax.
  destruct (seen_tracks _ _ _ _ _ Hseen Hsl Hmax) as [Hj Ht]. set (j := writer (reported w r)) in *.
  assert (sequence_ j = N.of_nat (length texts)) as Hsj by exact Hseq.
  assert (directory_identity_ (prepared c j) = dir_identity (disk w) cl ∧
    last_digest_ (prepared c j) = journal_digest (result_ r) ∧ sequence_ (prepared c j) = N.of_nat (length texts) ∧
    directory_ (prepared c j) = abs_text cl ∧ injector_ (prepared c j) = None ∧ failed_ (prepared c j) = false ∧
    sealed_ (prepared c j) = false ∧ bytes_ (prepared c j) = bytes_ j ∧
    record_text (prepared c j) (phase_of c) (details_of c j) = command_text c j ∧
    record_hash (prepared c j) (phase_of c) (details_of c j) = record_hash j (phase_of c) (details_of c j))
    as (P1 & P2 & P3 & P4 & P5 & P6 & P7 & P8 & P9 & P10) by (by destruct c).
  destruct (persist_runs w expected retain texts r (prepared c j) (phase_of c) (details_of c j)
    Hq Hok Hd Hseen Hmax P5 P4 P1 P2 P3 P6 P7) as (w1 & R & Q1 & C1 & A1); [by rewrite P9|by rewrite P8, P9|].
  rewrite P9 in A1, R. rewrite P10 in R. exists w1. split; [by apply run_of_persist|].
  split; [simpl; by rewrite Hseq|]. split; [|apply writer_inspected].
  destruct Hseen as [He [Hne Hn] Hreg Hnm Hst Hc].
  assert (Forall safe_name (cl ++ [filename (N.of_nat (length texts))])) as Hcl'.
  { apply Forall_app. split; [apply effect_names_safe|]. constructor; [|constructor]. apply (numbered_safe ".json"); [done|].
    etransitivity; [exact Hmax|]. reflexivity. }
  pose proof (listing_adds _ _ _ _ _ _ Hok (safe_plain _ Hcl') A1) as Hli.
  set (r1 := with_result (with_count (N.of_nat (S (length texts))) r)
    (observed c j (with_count (N.of_nat (S (length texts))) r))
    (observed_intent c (with_count (N.of_nat (S (length texts))) r)) (bytes_ j + size (command_text c j))).
  assert (seen w1 expected retain (texts ++ [command_text c j]) r1) as Hseen1.
  { assert (length (texts ++ [command_text c j]) = S (length texts)) as Hlen by (rewrite length_app; simpl; lia).
    assert (abs_text cl /+ filename (N.of_nat (length texts)) = abs_text (cl ++ [filename (N.of_nat (length texts))])) as Ep.
    { apply safe_plain, Forall_app in Hcl' as [? Hx]. apply abs_text_append; [done|by inversion Hx]. }
    split; rewrite ?Hlen; try done.
    - split; [done|]. lia.
    - eapply JsonParse.forallb_perm; [symmetry; exact Hli|]. exact Hreg.
    - rewrite Hli, numbered_snoc. simpl. unfold entry_name at 1. simpl. rewrite last_snoc. simpl. rewrite Hnm.
      apply Permutation_cons_append.
    - rewrite numbered_snoc, zip_snoc by apply numbered_length. apply Forall_app. split.
      + eapply Forall_impl; [exact Hst|]. intros x [[k Hk] Hx]. split; [|done]. exists k. by eapply holds_file_adds.
      + constructor; [|constructor]. split; [|done]. exists (fresh_inode (disk w)). simpl.
        change (numbered ".json" (N.of_nat (length texts))) with (filename (N.of_nat (length texts))).
        rewrite Ep. by eapply adds_file_holds.
    - rewrite numbered_snoc, zip_snoc, C1, (dir_identity_adds _ _ _ _ _ _ A1 Hd) by apply numbered_length.
      unfold consume_records. rewrite fold_result_app.
      apply (consume_records_count _ (N.of_nat (S (length texts)))) in Hc; [|simpl; lia].
      unfold consume_records in Hc. change (with_count _ (fresh ?a ?b ?x ?y ?z)) with
        (fresh a b x (N.of_nat (S (length texts))) z) in Hc. rewrite Hc. cbn [mbind result_bind fold_result fst snd].
      pose proof (consume_command (cwd w) c j _ Hj Ht Ha Hr) as Hcc. apply consume_ok in Hcc;
        [|simpl; lia|lia].
      change (numbered ".json" (N.of_nat (length texts))) with (filename (N.of_nat (length texts))).
      rewrite <-Hsj, Hcc. reflexivity. }
  destruct (inspect_runs expected retain w1 _ r1 Q1 ltac:(by eapply safe_dir_adds) Hseen1) as (w2 & R2 & _).
  { unfold r1, observed. rewrite length_app. simpl. destruct c; simpl; rewrite Hseq; lia. }
  rewrite R2. simpl. f_equal. unfold reported, inspected.
  rewrite (dir_identity_adds _ _ _ _ _ _ A1 Hd).
  pose proof (consume_records_same _ _ _ _ Hc) as (_ & _ & _ & _ & S5). fold j.
  assert (retain_completed (with_count (N.of_nat (S (length texts))) r) = retain) as S5' by exact S5.
  unfold r1, observed, observed_intent. rewrite S5'. destruct c; reflexivity.
Qed.
End Journal.
End MaintenanceAppend.

(** A maintenance journal that holds its original context and nothing else. *)

Module MaintenanceSample.
Import Json Path PathFacts Effects World RecordIo RecordFacts SessionHost Maintenance AuditFacts.
Import MaintenanceFacts MaintenanceWriter MaintenanceAppend.

Definition sample_digest : string := "00112233445566778899aabbccddeeff00112233445566778899aabbccddeeff".
Definition sample_native : string := "0000000000000001:0000000000000009".

Definition sample_spec : Journal.TransactionSpec :=
  Journal.mk_spec "t1" "p1" sample_digest "uninstall" "/stage" "/app" "/state" "/audit" Journal.legacy_observed.

Definition observed_root (r : string) : value :=
  make_object [("root", string_value r); ("native_identity", string_value sample_native)].

Definition sample_context : string := canonical (make_object [
  ("schema", string_value "usk.maintenance_source_context.v1"); ("operation", string_value "uninstall");
  ("install_id", string_value "app"); ("transaction_id", string_value "t1"); ("plan_id", string_value "p1");
  ("plan_digest", string_value sample_digest); ("policy_digest", string_value sample_digest);
  ("applied_at", string_value "2026-01-01T00:00:00Z"); ("original_installed_transaction_id", string_value "t0");
  ("original_installed_state_digest", string_value sample_digest);
  ("ownership_manifest_ref", string_value "manifests/app.json");
  ("ownership_manifest_digest", string_value sample_digest);
  ("original_source_archive_digest", string_value sample_digest);
  ("installed_root", make_object [("root", string_value "/app"); ("native_identity", string_value sample_native);
     ("parent", observed_root "/")]);
  ("operation_target_root", string_value "/app"); ("operation_target_parent", observed_root "/");
  ("staging_parent", observed_root "/stage"); ("state_root", observed_root "/state");
  ("audit_root", observed_root "/audit")]).

Definition sample_source : string := Sha256.sha256 sample_context.

Definition directory_names : list string := ["state"; "transactions"; "t1.maintenance"].

Definition directory_text : string := StableFile.hex_id 1 +:+ ":" +:+ StableFile.hex_id 4.

Definition sample_record : string :=
  record_text (mk_journal sample_spec None (abs_text directory_names) directory_text sample_source
      EmptyString EmptyString 0 0 0 false false) "context"
    (make_object [("source_context", string_value sample_context); ("directory_identity", string_value directory_text)]).

Definition sample_fs : fs :=
  mk_fs {[ [] := 1; ["state"] := 2; ["state"; "transactions"] := 3; directory_names := 4;
           directory_names ++ [filename 0] := 5 ]}
    {[ 1 := mk_inode 1 directory 0; 2 := mk_inode 1 directory 0; 3 := mk_inode 1 directory 0;
       4 := mk_inode 1 directory 0; 5 := mk_inode 1 (regular sample_record) 0 ]}.

Definition sample_command : command :=
  Begin "remove_directory" (make_object [("root_role", string_value "installed");
    ("relative_path", string_value EmptyString); ("native_identity", string_value sample_native)]).

Lemma sample_accepted : is_ok (consume_records "/" (fresh sample_spec directory_text sample_source 1 true)
  [(filename 0, sample_record)]) = true.
Proof. vm_compute. reflexivity. Qed.

Lemma sample_inspected :
  match fst (inspect sample_spec sample_source true (quiet_world sample_fs)) with
  | Ok i => (next_sequence i =? 1) && is_empty (pending_kind i) && negb (sealed i) && (serialized_bytes i <? 8192) &&
      (size (command_text sample_command (writer ["state"] sample_spec i)) <? 8192)
  | Throw _ => false
  end = true.
Proof. vm_compute. reflexivity. Qed.
Lemma sample_disk_ok : fs_ok sample_fs.
Proof.
  intros n i H. assert (i ∈ [1; 2; 3; 4; 5]) as Hi.
  { simpl in H. rewrite !lookup_insert_Some, lookup_singleton_Some in H. set_solver. }
  repeat (apply elem_of_cons in Hi as [->|Hi]; [by eexists|]). by apply elem_of_nil in Hi.
Qed.

Lemma sample_disk_dir : safe_dir sample_fs directory_names.
Proof. by intros [|[|[|[|k]]]]. Qed.

Lemma sample_quiet : quiet (quiet_world sample_fs).
Proof. done. Qed.

Lemma sample_command_readable : command_readable sample_command.
Proof.
  eapply (readable_mono 2 _ 4); [lia|]. apply (readable_object 2 _ [1; 1; 1]); [lia| |].
  - apply (bool_decide_eq_true_1 _). vm_compute. reflexivity.
  - repeat (apply Forall2_cons; split; [split; [reflexivity|apply readable_text; [lia|]]|]); [..|constructor];
      (split; [reflexivity|vm_compute; discriminate]).
Qed.

(** An effect that is admitted but not readable: its path is not UTF-8, and no parser
    takes the text of its record back. *)
Definition unreadable_effect : value :=
  make_object [("root_role", string_value "installed");
    ("relative_path", string_value (String (ascii_of_N 255) EmptyString)); ("native_identity", string_value sample_native)].

Example admitted_unreadable :
  validate_effect (Journal.operation sample_spec) "remove_directory" unreadable_effect = Ok tt ∧
  is_ok (parse (canonical unreadable_effect) default_limits) = false.
Proof. vm_compute. split; reflexivity. Qed.

(** The hypotheses of [command_then_inspect] at the sample, with its conclusion
    on the new inspection. *)
Lemma command_then_inspect_witness : ∃ i w1,
  fst (inspect sample_spec sample_source true (quiet_world sample_fs)) = Ok i ∧ next_sequence i = 1 ∧
  fst (run sample_command (writer ["state"] sample_spec i, quiet_world sample_fs)) = Ok tt ∧
  fst (inspect sample_spec sample_source true w1) = Ok (inspected ["state"] sample_spec sample_command true i) ∧
  next_sequence (inspected ["state"] sample_spec sample_command true i) = 2.
Proof.
  pose proof sample_inspected as H.
  destruct (inspect sample_spec sample_source true (quiet_world sample_fs)) as [[i|e] w0] eqn:E; [|done].
  cbn [fst] in H. bool_hyps.
  destruct (command_then_inspect ["state"] sample_spec ltac:(by repeat constructor) eq_refl eq_refl sample_command
    sample_source true (quiet_world sample_fs) i w0 sample_quiet sample_disk_ok sample_disk_dir E)
    as (w1 & R1 & _ & R2 & _).
  - split; [done|]. split; [done|]. simpl sequence_. simpl bytes_. simpl pending_kind_. unfold maximum_records,
      maximum_record_bytes, maximum_journal_bytes. split; [lia|]. split; [lia|]. split; [lia|].
    split; [by destruct (pending_kind i)|]. vm_compute. reflexivity.
  - exact sample_command_readable.
  - exists i, w1. rewrite R1. split; [done|]. split; [done|]. split; [done|]. split; [exact R2|].
    simpl. lia.
Defined.

Lemma maintenance_binding_witness :
  [(filename 0, sample_record)] = [(filename 0, sample_record)] ∨ sha256_collision.
Proof.
  pose proof sample_accepted as H.
  destruct (consume_records "/" (fresh sample_spec directory_text sample_source 1 true)
    [(filename 0, sample_record)]) as [r|] eqn:E; [|discriminate H].
  exact (maintenance_binding _ _ _ _ _ _ _ _ _ _ _ _ _ _ _ _ E E ltac:(discriminate) ltac:(discriminate) eq_refl).
Defined.
End MaintenanceSample.
