(* ===== verification/InstallLease.v ===== *)
(** The installation lease: the data protocol of
    [runtime/setup/transaction/usk_install_lease.{h,cpp}].  An ownership record
    is a sealed JSON object; the operations check, derive, finish and replay
    such records. *)

From Stdlib Require Import Ascii String NArith ZArith Lia.
From stdpp Require Import base list strings.
From S2P Require Import Prelude Utf8 Sha256 StdMap Json Path Effects World RecordIo.

Module InstallLease.
Import Json.

(** The three exception classes, all [std::runtime_error]s, each with a message
    of its own. *)
Definition InstallLeaseConflict : exn := runtime_error "installation has an outstanding operation".
Definition InstallLeaseStale : exn := runtime_error "installation ownership generation is stale".
Definition InstallStateRevisionStale : exn := runtime_error "installed state changed before effects".

Definition stop_if (c : bool) (e : exn) : result unit := if c then Throw e else Ok tt.

Record InstallLeaseRequest := mk_request {
  install_id : string;
  operation : string;
  operation_id : string;
  attempt_id : string;
  expected_state_revision : string;
  recovery : bool;
  operation_context_sha256 : string;
}.

Inductive InstallLeasePreviousHolder := unknown | live | ended | identity_reused.

#[global] Instance previous_holder_eq_dec : EqDecision InstallLeasePreviousHolder.
Proof. solve_decision. Defined.

(** ** Checks of the parts of a record *)

(** [names] is a set literal: its elements are distinct. *)
Definition members (v : value) (names : list string) : result unit :=
  object ← as_object v;
  throw_if (negb (length object =? length names)%nat) "installation lease fields differ";;
  fold_result (fun _ member =>
    throw_if (negb (StdMap.set_mem (fst member) names)) "installation lease field is unknown") tt object.

Definition hex (text : string) (n : N) : bool :=
  (size text =? n) && forall_bytes (fun ch => is_digit ch || is_lower_hex_alpha ch) text.

Definition revision (v : string) : result unit :=
  throw_if (negb (hex v 64)) "installation state revision is not a SHA-256".

(** [std::string(n, '0')]. *)
Fixpoint zeros (n : nat) : string :=
  match n with O => EmptyString | S n => String (ascii_of_N 48) (zeros n) end.

Definition front_is_zero (s : string) : bool :=
  match s with String ch _ => code ch =? 48 | EmptyString => false end.

(** The digits of the volume serial, accumulated in a [std::uint64_t]. *)
Fixpoint volume_serial (number : N) (serial : string) : result unit :=
  match serial with
  | EmptyString => Ok tt
  | String ch serial =>
    throw_if (negb (is_digit ch) || ((uint64_max - (code ch - 48)) / 10 <? number))
      "installation lease volume serial is invalid";;
    volume_serial (number * 10 + (code ch - 48)) serial
  end.

Definition root_identity (root : value) : result unit :=
  members root ["file_id"; "volume_serial"];;
  id ← at_string root "file_id";
  serial ← at_string root "volume_serial";
  throw_if (negb (hex id 32) || String.eqb id (zeros 32) || is_empty serial || (20 <? size serial) ||
      front_is_zero serial) "installation lease root identity is invalid";;
  volume_serial 0 serial.

Definition holder_identity (holder : value) : result unit :=
  members holder ["process_id"; "process_creation_time"];;
  process ← (p ← at_ holder "process_id"; as_unsigned p);
  creation ← at_string holder "process_creation_time";
  throw_if ((process =? 0) || (0xffffffff <? process) || negb (hex creation 16) ||
      String.eqb creation (zeros 16)) "installation lease holder identity is invalid".

Definition operations : list string :=
  ["install_local"; "repair"; "move"; "update"; "uninstall"; "generation_activate"; "generation_retire"].

Definition request_identity (request : InstallLeaseRequest) : result unit :=
  throw_if (negb (RecordIo.valid_identifier (install_id request)) ||
      negb (RecordIo.valid_identifier (operation_id request)) ||
      negb (RecordIo.valid_identifier (attempt_id request)) ||
      negb (StdMap.set_mem (operation request) operations))
    "installation lease request identity is invalid";;
  revision (expected_state_revision request);;
  revision (operation_context_sha256 request).

(** ** Sealing *)

Definition seal (v : value) : result value :=
  members ← as_object v;
  let members := StdMap.erase "ownership_sha256" members in
  digest ← sha256_canonical (object members);
  Ok (object (fst (StdMap.emplace "ownership_sha256" (string_value digest) members))).

Definition equal (left right : value) : bool := String.eqb (canonical left) (canonical right).

(** ** [require_install_lease_record] *)

Definition record_members : list string :=
  ["schema"; "install_id"; "operation"; "operation_id"; "attempt_id";
   "state_root_identity"; "holder"; "generation"; "expected_state_revision"; "status";
   "result_state_revision"; "predecessor_sha256"; "ownership_sha256"; "operation_context_sha256"].

Definition lease_schema : string := "usk.installation_lease_ownership.v1".

(** The request a record answers; the flag is the caller's. *)
Definition request_of (record : value) (recovery : bool) : result InstallLeaseRequest :=
  install ← at_string record "install_id";
  op ← at_string record "operation";
  id ← at_string record "operation_id";
  attempt ← at_string record "attempt_id";
  expected ← at_string record "expected_state_revision";
  context ← at_string record "operation_context_sha256";
  Ok (mk_request install op id attempt expected recovery context).

Definition require_predecessor (generation : N) (predecessor : value) : result unit :=
  bad ← (if generation =? 1 then Ok (negb (is_null predecessor))
         else s ← as_string predecessor; Ok (negb (hex s 64)));
  throw_if bad "installation lease predecessor binding is invalid".

Definition require_status (record : value) (status : string) : result unit :=
  if String.eqb status "active" then
    r ← at_ record "result_state_revision";
    throw_if (negb (is_null r)) "active installation lease has a terminal revision"
  else if String.eqb status "completed" || String.eqb status "handoff" then
    r ← at_string record "result_state_revision"; revision r
  else throw "installation lease status is invalid".

Definition require_install_lease_record (record : value) : result unit :=
  members record record_members;;
  schema ← at_string record "schema";
  throw_if (negb (String.eqb schema lease_schema)) "installation lease schema is unsupported";;
  request ← request_of record false;
  request_identity request;;
  root ← at_ record "state_root_identity"; root_identity root;;
  holder ← at_ record "holder"; holder_identity holder;;
  generation ← (g ← at_ record "generation"; as_unsigned g);
  throw_if (generation =? 0) "installation lease generation is zero";;
  predecessor ← at_ record "predecessor_sha256"; require_predecessor generation predecessor;;
  status ← at_string record "status";
  require_status record status;;
  digest ← at_string record "ownership_sha256"; revision digest;;
  sealed ← seal record;
  throw_if (negb (equal record sealed)) "installation lease digest differs".

(** ** [derive_install_lease_ownership] *)

(** The branch of a lease that is not completed: only the recovery of the same
    operation may continue it. *)
Definition require_continuation (previous : value) (request : InstallLeaseRequest) (status : string)
    (observed_state_revision : string) (previous_holder : InstallLeasePreviousHolder) : result unit :=
  other ← Ok (negb (recovery request)) ||| differs previous "operation" (operation request) |||
    differs previous "operation_id" (operation_id request) |||
    differs previous "operation_context_sha256" (operation_context_sha256 request);
  stop_if other InstallLeaseConflict;;
  stop_if (String.eqb status "active" && negb (bool_decide (previous_holder = ended)) &&
    negb (bool_decide (previous_holder = identity_reused))) InstallLeaseConflict;;
  stale ← Ok (String.eqb status "handoff") &&&
    differs previous "result_state_revision" observed_state_revision;
  stop_if stale InstallStateRevisionStale.

(** The generation and the predecessor of the record that follows [previous]. *)
Definition follow (previous : value) (request : InstallLeaseRequest) (observed_state_root : value)
    (observed_state_revision : string) (previous_holder : InstallLeasePreviousHolder) : result (N * value) :=
  require_install_lease_record previous;;
  foreign ← differs previous "install_id" (install_id request) |||
    (root ← at_ previous "state_root_identity"; Ok (negb (equal root observed_state_root)));
  stop_if foreign InstallLeaseStale;;
  previous_generation ← (g ← at_ previous "generation"; as_unsigned g);
  throw_if (previous_generation =? uint64_max) "installation lease generation is exhausted";;
  status ← at_string previous "status";
  attempt ← at_string previous "attempt_id";
  stop_if (String.eqb attempt (attempt_id request)) InstallLeaseStale;;
  (if negb (String.eqb status "completed")
   then require_continuation previous request status observed_state_revision previous_holder
   else Ok tt);;
  predecessor ← at_ previous "ownership_sha256";
  Ok (previous_generation + 1, predecessor).

Definition derive_install_lease_ownership (previous : option value) (request : InstallLeaseRequest)
    (observed_state_root observed_holder : value) (observed_state_revision : string)
    (previous_holder : InstallLeasePreviousHolder) : result value :=
  request_identity request;;
  root_identity observed_state_root;;
  holder_identity observed_holder;;
  revision observed_state_revision;;
  stop_if (negb (String.eqb (expected_state_revision request) observed_state_revision))
    InstallStateRevisionStale;;
  link ← match previous with
         | None => Ok (1, null_value)
         | Some previous =>
           follow previous request observed_state_root observed_state_revision previous_holder
         end;
  seal (make_object [
    ("schema", string_value lease_schema);
    ("install_id", string_value (install_id request)); ("operation", string_value (operation request));
    ("operation_id", string_value (operation_id request)); ("attempt_id", string_value (attempt_id request));
    ("operation_context_sha256", string_value (operation_context_sha256 request));
    ("state_root_identity", observed_state_root); ("holder", observed_holder);
    ("generation", unsigned_integer (fst link));
    ("expected_state_revision", string_value observed_state_revision);
    ("status", string_value "active"); ("result_state_revision", null_value);
    ("predecessor_sha256", snd link)]).

(** ** Using and finishing a lease *)

Definition require_install_lease_start (ownership : value) (observed_state_revision : string) : result unit :=
  require_install_lease_record ownership;;
  revision observed_state_revision;;
  inactive ← differs ownership "status" "active";
  stop_if inactive InstallLeaseStale;;
  changed ← differs ownership "expected_state_revision" observed_state_revision;
  stop_if changed InstallStateRevisionStale.

Definition require_install_lease_fence (ownership current observed_state_root observed_holder : value)
    : result unit :=
  require_install_lease_record ownership;;
  require_install_lease_record current;;
  root_identity observed_state_root;;
  holder_identity observed_holder;;
  bad ← differs ownership "status" "active" ||| Ok (negb (equal ownership current)) |||
    (root ← at_ ownership "state_root_identity"; Ok (negb (equal root observed_state_root))) |||
    (holder ← at_ ownership "holder"; Ok (negb (equal holder observed_holder)));
  stop_if bad InstallLeaseStale.

(** [map.at(key) = v]; an absent key is a [std::out_of_range]. *)
Definition assign (key : string) (v : value) (m : list (string * value)) : result (list (string * value)) :=
  if StdMap.contains_key key m
  then Ok (map (fun p => if String.eqb key (fst p) then (fst p, v) else p) m)
  else Throw (logic_error "map::at").

Definition finish_install_lease_ownership (ownership observed_state_root observed_holder : value)
    (observed_state_revision : string) (handoff : bool) : result value :=
  require_install_lease_fence ownership ownership observed_state_root observed_holder;;
  revision observed_state_revision;;
  result ← as_object ownership;
  result ← assign "status" (string_value (if handoff then "handoff" else "completed")) result;
  result ← assign "result_state_revision" (string_value observed_state_revision) result;
  seal (object result).

(** ** [select_completed_install_lease_history] *)

Definition same_operation (original v : value) : result bool :=
  op ← at_string original "operation";
  id ← at_string original "operation_id";
  (d ← differs v "operation" op; Ok (negb d)) &&&
  (d ← differs v "operation_id" id; Ok (negb d)) &&&
  (context ← at_string original "operation_context_sha256";
   d ← differs v "operation_context_sha256" context; Ok (negb d)).

(** The record the protocol produces where the history has [v]. *)
Definition expected_record (previous : option value) (install : string) (root v : value) (status : string)
    : result value :=
  if String.eqb status "active" then
    transition ← request_of v true;
    holder ← at_ v "holder";
    derive_install_lease_ownership previous
      (mk_request install (operation transition) (operation_id transition) (attempt_id transition)
        (expected_state_revision transition) true (operation_context_sha256 transition))
      root holder (expected_state_revision transition) ended
  else match previous with
       | None => Throw InstallLeaseStale
       | Some previous =>
         holder ← at_ previous "holder";
         result ← at_string v "result_state_revision";
         finish_install_lease_ownership previous root holder result (String.eqb status "handoff")
       end.

(** The last part of the loop body: [completed] and [found_original]. *)
Definition track (original v : value) (status : string) (completed : option value) (found : bool)
    : result (option value * bool) :=
  match completed with
  | Some _ =>
    id ← at_string original "operation_id";
    other ← differs v "operation_id" id;
    stop_if (negb other) InstallLeaseStale;;
    Ok (completed, found)
  | None =>
    if found then
      same ← same_operation original v;
      stop_if (negb same) InstallLeaseStale;;
      Ok (if String.eqb status "completed" then Some v else None, true)
    else
      generation ← (g ← at_ v "generation"; as_unsigned g);
      original_generation ← (g ← at_ original "generation"; as_unsigned g);
      if (generation =? original_generation) && String.eqb status "active" then
        stop_if (negb (equal v original)) InstallLeaseStale;;
        Ok (None, true)
      else Ok (None, false)
  end.

Definition history_step (original root : value) (install : string)
    (state : option value * option value * bool) (v : value) : result (option value * option value * bool) :=
  let '(previous, completed, found) := state in
  require_install_lease_record v;;
  foreign ← differs v "install_id" install |||
    (r ← at_ v "state_root_identity"; Ok (negb (equal r root)));
  stop_if foreign InstallLeaseStale;;
  status ← at_string v "status";
  expected ← expected_record previous install root v status;
  stop_if (negb (equal v expected)) InstallLeaseStale;;
  next ← track original v status completed found;
  Ok (Some v, fst next, snd next).

Definition select_completed_install_lease_history (history : list value) (original_active : value)
    : result (option value) :=
  require_install_lease_record original_active;;
  bad ← differs original_active "status" "active" |||
    Ok (bool_decide (history = []) || (4096 <? N.of_nat (length history)));
  stop_if bad InstallLeaseStale;;
  root ← at_ original_active "state_root_identity";
  install ← at_string original_active "install_id";
  _ ← at_string original_active "operation_id";
  final ← fold_result (history_step original_active root install) (None, None, false) history;
  stop_if (negb (snd final)) InstallLeaseStale;;
  Ok (snd (fst final)).
End InstallLease.
