(* ===== verification/InstallLeaseFacts.v ===== *)
(** Ownership records as abstract leases: the records the protocol accepts are
    exactly the encodings of the leases below. *)

From Stdlib Require Import Ascii String NArith ZArith Lia Sorted.
From stdpp Require Import base list strings sorting.
From S2P Require Import Prelude Effects Utf8 Sha256 StdMap Json JsonFacts JsonParse JsonProps Path World.
From S2P Require Import RecordIo DirectoryFacts InstallLease.

Module InstallLeaseFacts.
Import Sha256 Json JsonFacts JsonProps DirectoryFacts InstallLease.

(** ** Abstract leases *)

Inductive phase := active | completed (result : string) | handoff (result : string).

Record Lease := mk_lease {
  lease_install : string;
  lease_operation : string;
  lease_operation_id : string;
  lease_attempt : string;
  lease_context : string;
  lease_revision : string;
  lease_root : value;
  lease_holder : value;
  generation : N;
  predecessor : option string;
  lease_phase : phase;
}.

Definition status_text (p : phase) : string :=
  match p with active => "active" | completed _ => "completed" | handoff _ => "handoff" end.

Definition result_value (p : phase) : value :=
  match p with active => null_value | completed r | handoff r => string_value r end.

Definition optional (s : option string) : value :=
  match s with None => null_value | Some s => string_value s end.

(** The members of a record before it is sealed, in key order. *)
Definition body (l : Lease) : list (string * value) :=
  [("attempt_id", string_value (lease_attempt l));
   ("expected_state_revision", string_value (lease_revision l));
   ("generation", unsigned_integer (generation l));
   ("holder", lease_holder l);
   ("install_id", string_value (lease_install l));
   ("operation", string_value (lease_operation l));
   ("operation_context_sha256", string_value (lease_context l));
   ("operation_id", string_value (lease_operation_id l));
   ("predecessor_sha256", optional (predecessor l));
   ("result_state_revision", result_value (lease_phase l));
   ("schema", string_value lease_schema);
   ("state_root_identity", lease_root l);
   ("status", string_value (status_text (lease_phase l)))].

Definition digest (l : Lease) : string := sha256 (canonical (object (body l))).

Definition encode (l : Lease) : value :=
  object (fst (StdMap.emplace "ownership_sha256" (string_value (digest l)) (body l))).

Definition lease_request (l : Lease) (flag : bool) : InstallLeaseRequest :=
  mk_request (lease_install l) (lease_operation l) (lease_operation_id l) (lease_attempt l)
    (lease_revision l) flag (lease_context l).

Definition revision_ok (r : string) : Prop := hex r 64 = true.

Definition phase_ok (p : phase) : Prop :=
  match p with active => True | completed r | handoff r => revision_ok r end.

Definition predecessor_ok (g : N) (p : option string) : Prop :=
  if g =? 1 then p = None else ∃ d, p = Some d ∧ revision_ok d.

Record lease_ok (l : Lease) : Prop := mk_ok {
  ok_request : request_identity (lease_request l false) = Ok tt;
  ok_root : root_identity (lease_root l) = Ok tt;
  ok_holder : holder_identity (lease_holder l) = Ok tt;
  ok_generation : 1 <= generation l <= uint64_max;
  ok_predecessor : predecessor_ok (generation l) (predecessor l);
  ok_phase : phase_ok (lease_phase l);
}.

(** ** The members of a record *)

Lemma members_keys v names : wf v → NoDup names → members v names = Ok tt →
  ∃ m, v = object m ∧ fst <$> m = sort_names names.
Proof.
  intros Hwf Hn H. destruct v as [| | | | |m]; try discriminate H. exists m. split; [done|].
  unfold members in H. cbn [as_object mbind result_bind] in H. destruct Hwf as [Hs _].
  destruct (length m =? length names)%nat eqn:E; [|discriminate H]. apply Nat.eqb_eq in E.
  simpl in H. rewrite fold_unit_ok in H. apply keys_exact; [done..|].
  eapply Forall_impl; [exact H|]. intros p Hp%throw_if_ok%negb_false_iff. exact Hp.
Qed.

(** ** Sealed records *)

Lemma seal_as m l : StdMap.erase "ownership_sha256" m = body l → seal (object m) = Ok (encode l).
Proof. intros E. unfold seal. cbn [as_object mbind result_bind]. by rewrite E, sha256_canonical_eq. Qed.

Lemma seal_body l : seal (object (body l)) = Ok (encode l).
Proof. by apply seal_as. Qed.

Lemma seal_encode l : seal (encode l) = Ok (encode l).
Proof. by apply seal_as. Qed.

Lemma equal_true v w : equal v w = true ↔ v = w.
Proof. unfold equal. rewrite String.eqb_eq. split; [apply canonical_injective|by intros ->]. Qed.

Lemma equal_false v w : equal v w = false ↔ v ≠ w.
Proof. rewrite <- not_true_iff_false. by rewrite equal_true. Qed.

Lemma equal_refl v : equal v v = true.
Proof. by apply equal_true. Qed.

Lemma hex_sha256 s : hex (sha256 s) 64 = true.
Proof. unfold hex. destruct (sha256_shape s) as [-> H]. exact H. Qed.

(** ** The accepted records *)

Lemma record_shape v : wf v → members v record_members = Ok tt →
  ∃ attempt expected gen holder install op context id own pred result schema root status,
  v = object [("attempt_id", attempt); ("expected_state_revision", expected); ("generation", gen);
    ("holder", holder); ("install_id", install); ("operation", op); ("operation_context_sha256", context);
    ("operation_id", id); ("ownership_sha256", own); ("predecessor_sha256", pred);
    ("result_state_revision", result); ("schema", schema); ("state_root_identity", root); ("status", status)].
Proof.
  intros Hwf Hm. destruct (members_keys v record_members Hwf) as (m & -> & Hk); [|done|].
  { apply (bool_decide_unpack (NoDup record_members)). by vm_compute. }
  assert (sort_names record_members = ["attempt_id"; "expected_state_revision"; "generation"; "holder";
    "install_id"; "operation"; "operation_context_sha256"; "operation_id"; "ownership_sha256";
    "predecessor_sha256"; "result_state_revision"; "schema"; "state_root_identity"; "status"]) as E by reflexivity.
  rewrite E in Hk. clear E Hwf Hm.
  do 14 (destruct m as [|[? ?] m]; [discriminate Hk|]; cbn [fmap list_fmap fst] in Hk;
    injection Hk as -> Hk). destruct m; [|discriminate Hk]. do 14 eexists. reflexivity.
Qed.

Lemma revision_iff r u : revision r = Ok u ↔ revision_ok r.
Proof. unfold revision, revision_ok. rewrite throw_if_ok. by destruct (hex r 64). Qed.

Lemma require_status_inv record status result :
  at_ record "result_state_revision" = Ok result → require_status record status = Ok tt →
  ∃ p, status = status_text p ∧ result = result_value p ∧ phase_ok p.
Proof.
  unfold require_status, at_string. intros ->. cbn [mbind result_bind].
  destruct (String.eqb_spec status "active") as [->|_].
  - rewrite throw_if_ok. destruct result; try discriminate. by exists active.
  - destruct (String.eqb_spec status "completed") as [->|_]; [|destruct (String.eqb_spec status "handoff") as [->|_]];
      cbn [orb]; [| |discriminate]; intros H; apply bind_ok in H as (r & ->%as_string_ok & H%revision_iff);
      [by exists (completed r)|by exists (handoff r)].
Qed.

Lemma require_predecessor_inv g v : require_predecessor g v = Ok tt →
  ∃ p, v = optional p ∧ predecessor_ok g p.
Proof.
  unfold require_predecessor, predecessor_ok. destruct (g =? 1); cbn [mbind result_bind].
  - rewrite throw_if_ok. destruct v; try discriminate. by exists None.
  - intros H. apply bind_ok in H as (b & H & Hb%throw_if_ok). subst b.
    apply bind_ok in H as (d & ->%as_string_ok & H%ok_inj). apply negb_false_iff in H.
    exists (Some d). split; [done|]. by exists d.
Qed.

Lemma record_inv v : wf v → require_install_lease_record v = Ok tt → ∃ l, lease_ok l ∧ v = encode l.
Proof.
  intros Hwf H. unfold require_install_lease_record in H. apply bind_ok in H as ([] & Hm & H).
  destruct (record_shape v Hwf Hm) as (attempt & expected & gen & holder & install & op & context & id &
    own & pred & result & schema & root & status & ->). clear Hm.
  destruct Hwf as [_ (_ & _ & Hgen & _)].
  unfold request_of, at_string in H.
  repeat match goal with
  | E : mbind _ _ = Ok _ |- _ => apply bind_ok in E as (? & ? & E)
  end.
  repeat match goal with
  | E : at_ _ _ = Ok _ |- _ =>
    cbv [at_ as_object mbind result_bind StdMap.find String.eqb Ascii.eqb Bool.eqb] in E
  | E : Ok _ = Ok _ |- _ => apply ok_inj in E; subst
  | E : throw_if _ _ = Ok _ |- _ => apply throw_if_ok in E
  | E : as_string ?v = Ok _ |- _ => apply as_string_ok in E; subst v
  | E : as_unsigned ?v = Ok _ |- _ => apply as_unsigned_ok in E; subst v
  | u : unit |- _ => destruct u
  | E : require_status _ _ = Ok _ |- _ =>
    apply (require_status_inv _ _ result) in E as (p & -> & -> & Hp); [|reflexivity]
  | E : require_predecessor _ _ = Ok _ |- _ => apply require_predecessor_inv in E as (q & -> & Hq)
  end. bool_hyps. subst.
  match goal with
  | E : request_identity (mk_request ?i ?o ?id ?a ?x _ ?c) = _, R : root_identity ?r = _,
    H : holder_identity ?h = _, N : ?g ≠ 0, S : seal _ = _ |- _ =>
    exists (mk_lease i o id a c x r h g q p); split;
      [split; [exact E|exact R|exact H|simpl in *; lia|exact Hq|exact Hp]|];
    rewrite (seal_as _ (mk_lease i o id a c x r h g q p)) in S by reflexivity;
    apply ok_inj in S; subst
  end. by apply equal_true.
Qed.

Lemma require_predecessor_ok g p : predecessor_ok g p → require_predecessor g (optional p) = Ok tt.
Proof.
  unfold predecessor_ok, require_predecessor. destruct (g =? 1); [by intros ->|].
  intros (d & -> & Hd). simpl. by rewrite Hd.
Qed.

Lemma require_status_ok l : phase_ok (lease_phase l) →
  require_status (encode l) (status_text (lease_phase l)) = Ok tt.
Proof.
  destruct l as [? ? ? ? ? ? ? ? ? ? p]. unfold require_status. simpl lease_phase.
  destruct p as [|r|r]; simpl status_text; [reflexivity|..]; intros Hr;
    cbn [String.eqb Ascii.eqb Bool.eqb orb]; next r; by apply revision_iff.
Qed.

Lemma record_encode l : lease_ok l → require_install_lease_record (encode l) = Ok tt.
Proof.
  intros [Hr Hroot Hh Hg Hp Hph]. unfold require_install_lease_record.
  next tt. next lease_schema. next tt. next (lease_request l false). next tt.
  next (lease_root l). next tt. next (lease_holder l). next tt. next (generation l).
  rewrite (bind_step _ _ tt) by (apply throw_if_ok, N.eqb_neq; lia).
  next (optional (predecessor l)). rewrite (bind_step _ _ tt) by (by apply require_predecessor_ok).
  next (status_text (lease_phase l)). rewrite (bind_step _ _ tt) by (by apply require_status_ok).
  next (digest l). rewrite (bind_step _ _ tt) by (apply revision_iff, hex_sha256).
  rewrite (bind_step _ _ (encode l)) by apply seal_encode. by rewrite equal_refl.
Qed.

(** C12 [require_install_lease_record] accepts exactly the sealed encodings of
    well-formed leases: every accepted value has the fourteen members, the
    record's digest is the SHA-256 of its other members, a result revision is
    present exactly when the lease is finished, and a predecessor exactly when
    the generation is not the first. *)
Theorem lease_record_exact v : wf v →
  (require_install_lease_record v = Ok tt ↔ ∃ l, lease_ok l ∧ v = encode l).
Proof.
  intros Hwf. split; [by apply record_inv|]. intros (l & Hl & ->). by apply record_encode.
Qed.

Lemma body_inj l l' : body l = body l' → l = l'.
Proof.
  intros E. destruct l as [? ? ? ? ? ? ? ? ? q p], l' as [? ? ? ? ? ? ? ? ? q' p']. unfold body in E. simpl in E.
  injection E as -> -> -> -> -> -> -> -> Eq Er -> Es. f_equal.
  - by destruct q, q'; simplify_eq/=.
  - by destruct p, p'; simplify_eq/=.
Qed.

Lemma encode_inj l l' : encode l = encode l' → l = l'.
Proof.
  intros H. apply body_inj.
  exact (f_equal (fun v => match v with object m => StdMap.erase "ownership_sha256" m | _ => [] end) H).
Qed.

#[global] Instance encode_injective : Inj (=) (=) encode := encode_inj.

Lemma wf_encode l : wf (lease_root l) → wf (lease_holder l) → generation l <= uint64_max → wf (encode l).
Proof.
  intros Hr Hh Hg. split.
  - by_sorted.
  - simpl. destruct (predecessor l), (lease_phase l); simpl; tauto.
Qed.
End InstallLeaseFacts.

(** The lease protocol on abstract leases: which acquisitions and finishes the
    operations on records perform, and which histories they accept. *)

Module LeaseProtocol.
Import Sha256 Json JsonFacts JsonProps InstallLease InstallLeaseFacts.

(** ** Acquiring a lease *)

Definition same_request (p : Lease) (r : InstallLeaseRequest) : Prop :=
  lease_operation p = operation r ∧ lease_operation_id p = operation_id r ∧
  lease_context p = operation_context_sha256 r.

(** How a lease may be followed: a completed one by any operation, an
    outstanding one only by the recovery of its own operation. *)
Definition continues (p : Lease) (r : InstallLeaseRequest) (h : InstallLeasePreviousHolder) : Prop :=
  match lease_phase p with
  | completed _ => True
  | active => recovery r = true ∧ same_request p r ∧ (h = ended ∨ h = identity_reused)
  | handoff q => recovery r = true ∧ same_request p r ∧ q = expected_state_revision r
  end.

Definition admits (p : Lease) (r : InstallLeaseRequest) (root : value)
    (h : InstallLeasePreviousHolder) : Prop :=
  lease_install p = install_id r ∧ lease_root p = root ∧ generation p ≠ uint64_max ∧
  lease_attempt p ≠ attempt_id r ∧ continues p r h.

Definition acquired (po : option Lease) (r : InstallLeaseRequest) (root holder : value) : Lease :=
  mk_lease (install_id r) (operation r) (operation_id r) (attempt_id r) (operation_context_sha256 r)
    (expected_state_revision r) root holder
    (match po with None => 1 | Some p => generation p + 1 end) (digest <$> po) active.

Lemma stop_if_ok c e u : stop_if c e = Ok u ↔ c = false.
Proof. destruct c, u; simpl; naive_solver. Qed.

Lemma eqb_sym_false a b : negb (String.eqb a b) = false ↔ a = b.
Proof. rewrite negb_false_iff. apply String.eqb_eq. Qed.

Lemma differs_false v key s x : at_string v key = Ok x → differs v key s = Ok false ↔ x = s.
Proof. intros E. unfold differs. rewrite E. cbn [mbind result_bind]. rewrite <- eqb_sym_false. split; [apply ok_inj|by intros ->]. Qed.

Lemma guard_bind {B} (r : result bool) e (k : result B) b :
  (c ← r; stop_if c e;; k) = Ok b ↔ r = Ok false ∧ k = Ok b.
Proof. destruct r as [[]|]; simpl; naive_solver. Qed.

Lemma stop_bind {B} c e (f : unit → result B) b : (stop_if c e ≫= f) = Ok b ↔ c = false ∧ f tt = Ok b.
Proof. destruct c; simpl; naive_solver. Qed.

Lemma stop_last (r : result bool) e : (c ← r; stop_if c e) = Ok tt ↔ r = Ok false.
Proof. destruct r as [[]|]; simpl; naive_solver. Qed.

Lemma ok_false b : Ok b = Ok false ↔ b = false.
Proof. split; [apply ok_inj|by intros ->]. Qed.

(** Read a member of an encoded lease. *)
Ltac members_of p :=
  rewrite ?(differs_false (encode p) "install_id" _ (lease_install p)),
    ?(differs_false (encode p) "operation" _ (lease_operation p)),
    ?(differs_false (encode p) "operation_id" _ (lease_operation_id p)),
    ?(differs_false (encode p) "operation_context_sha256" _ (lease_context p)),
    ?(differs_false (encode p) "status" _ (status_text (lease_phase p))),
    ?(differs_false (encode p) "expected_state_revision" _ (lease_revision p)) by reflexivity.

Lemma require_continuation_exact p r h :
  (if negb (String.eqb (status_text (lease_phase p)) "completed")
   then require_continuation (encode p) r (status_text (lease_phase p)) (expected_state_revision r) h
   else Ok tt) = Ok tt ↔ continues p r h.
Proof.
  unfold continues, require_continuation, same_request.
  destruct (lease_phase p) as [|q|q] eqn:Hp; simpl status_text; cbn [String.eqb Ascii.eqb Bool.eqb negb]; [..|done|].
  - rewrite guard_bind, stop_bind, stop_last, !or_else_false, and_also_false, ok_false. members_of p.
    rewrite negb_false_iff. destruct h; simpl; naive_solver.
  - rewrite guard_bind, stop_bind, stop_last, !or_else_false, and_also_false, ok_false.
    members_of p. rewrite negb_false_iff, (differs_false _ _ _ q); [naive_solver|].
    unfold at_string. rewrite (bind_step _ _ (result_value (lease_phase p))) by reflexivity. by rewrite Hp.
Qed.

Lemma follow_exact p r root h link : lease_ok p →
  follow (encode p) r root (expected_state_revision r) h = Ok link ↔
  admits p r root h ∧ link = (generation p + 1, string_value (digest p)).
Proof.
  intros Hp. unfold follow, admits. rewrite (bind_step _ _ tt) by (by apply record_encode).
  rewrite guard_bind, or_else_false.
  rewrite (bind_step (at_ (encode p) "state_root_identity") _ (lease_root p)) by reflexivity.
  rewrite (bind_step (at_ (encode p) "generation" ≫= _) _ (generation p)) by reflexivity.
  rewrite bind_unit, throw_if_ok, N.eqb_neq.
  rewrite (bind_step (at_string (encode p) "status") _ (status_text (lease_phase p))) by reflexivity.
  rewrite (bind_step (at_string (encode p) "attempt_id") _ (lease_attempt p)) by reflexivity.
  rewrite stop_bind, String.eqb_neq, bind_unit, require_continuation_exact.
  rewrite (bind_step (at_ (encode p) "ownership_sha256") _ (string_value (digest p))) by reflexivity.
  members_of p. rewrite ok_false, negb_false_iff, equal_true.
  split; [intros ([? ?] & ? & ? & ? & <-%ok_inj)|intros ((? & ? & ? & ? & ?) & ->)]; done.
Qed.

Lemma seal_acquired po r root holder :
  seal (make_object [
    ("schema", string_value lease_schema);
    ("install_id", string_value (install_id r)); ("operation", string_value (operation r));
    ("operation_id", string_value (operation_id r)); ("attempt_id", string_value (attempt_id r));
    ("operation_context_sha256", string_value (operation_context_sha256 r));
    ("state_root_identity", root); ("holder", holder);
    ("generation", unsigned_integer (generation (acquired po r root holder)));
    ("expected_state_revision", string_value (expected_state_revision r));
    ("status", string_value "active"); ("result_state_revision", null_value);
    ("predecessor_sha256", optional (digest <$> po))]) = Ok (encode (acquired po r root holder)).
Proof. by apply (seal_as _ (acquired po r root holder)). Qed.

(** The parts of a request that a new lease is made of. *)
Definition request_ok (r : InstallLeaseRequest) (root holder : value) : Prop :=
  request_identity r = Ok tt ∧ root_identity root = Ok tt ∧ holder_identity holder = Ok tt.

Lemma request_revision r : request_identity r = Ok tt → revision (expected_state_revision r) = Ok tt.
Proof. unfold request_identity. rewrite !bind_unit. tauto. Qed.

Lemma acquired_ok po r root holder : request_ok r root holder →
  (∀ p, po = Some p → lease_ok p ∧ generation p ≠ uint64_max) → lease_ok (acquired po r root holder).
Proof.
  intros (Hr & Hroot & Hh) Hpo. split; [exact Hr|exact Hroot|exact Hh| | |exact I]; destruct po as [p|]; simpl;
    try (destruct (Hpo p eq_refl) as [[_ _ _ ? _ _] ?]); unfold uint64_max in *; [lia|lia| |done].
  unfold predecessor_ok. destruct (N.eqb_spec (generation p + 1) 1); [lia|]. eexists. split; [done|]. apply hex_sha256.
Qed.

Lemma derive_exact po r root holder rev h v : (∀ p, po = Some p → lease_ok p) →
  derive_install_lease_ownership (encode <$> po) r root holder rev h = Ok v ↔
  request_ok r root holder ∧ rev = expected_state_revision r ∧
  (∀ p, po = Some p → admits p r root h) ∧ v = encode (acquired po r root holder).
Proof.
  intros Hpo. unfold derive_install_lease_ownership, request_ok. rewrite !bind_unit, stop_if_ok, eqb_sym_false.
  pose proof (request_revision r) as Hrev. split.
  - intros (Hr & Hroot & Hh & _ & <- & H). apply bind_ok in H as (link & Hl & H).
    destruct po as [p|]; cbn [fmap option_fmap option_map] in Hl.
    + apply follow_exact in Hl as [Ha ->]; [|by apply Hpo].
      assert (Ok v = Ok (encode (acquired (Some p) r root holder))) as Hv%ok_inj
        by (rewrite <-H; apply (seal_acquired (Some p))).
      split_and!; [done..|by intros ? [= <-]|done].
    + apply ok_inj in Hl as <-.
      assert (Ok v = Ok (encode (acquired None r root holder))) as Hv%ok_inj
        by (rewrite <-H; apply (seal_acquired None)).
      by split_and!.
  - intros ((Hr & Hroot & Hh) & -> & Ha & ->). split_and!; [done..|by apply Hrev|done|].
    destruct po as [p|]; cbn [fmap option_fmap option_map].
    + rewrite (bind_step _ _ (generation p + 1, string_value (digest p))).
      * apply (seal_acquired (Some p)).
      * apply follow_exact; [by apply Hpo|]. split; [by apply Ha|done].
    + apply (seal_acquired None).
Qed.

(** [derive_install_lease_ownership] succeeds exactly when the request, the
    observed root and the observed holder are well formed, the observed revision
    is the expected one, and the previous record, if any, is a sealed lease that
    the request may follow: the same installation and root, a new attempt, and
    either a completed lease or the recovery of the outstanding operation whose
    holder has ended or which was handed off at this revision.  The result is
    the sealed active lease of the next generation that names the digest of the
    previous record, and it is again an accepted record. *)
Theorem lease_acquisition previous r root holder rev h v :
  (∀ p, previous = Some p → wf p) →
  derive_install_lease_ownership previous r root holder rev h = Ok v ↔
  ∃ po, previous = encode <$> po ∧ request_ok r root holder ∧ rev = expected_state_revision r ∧
    (∀ p, po = Some p → lease_ok p ∧ admits p r root h) ∧
    v = encode (acquired po r root holder) ∧ require_install_lease_record v = Ok tt.
Proof.
  intros Hwf. split.
  - intros H. assert (∃ po, previous = encode <$> po ∧ ∀ p, po = Some p → lease_ok p) as (po & -> & Hpo).
    { destruct previous as [p|]; [|by exists None]. unfold derive_install_lease_ownership in H.
      rewrite !bind_unit in H. destruct H as (_ & _ & _ & _ & _ & H). apply bind_ok in H as (link & H & _).
      unfold follow in H. apply bind_unit in H as [(l & Hl & ->)%record_inv _]; [|by apply Hwf].
      exists (Some l). split; [done|]. by intros ? [= <-]. }
    apply derive_exact in H as (Hr & -> & Ha & ->); [|done].
    exists po. split_and!; try done; [by auto|]. apply record_encode, acquired_ok; [done|].
    intros p ->. destruct (Ha p eq_refl) as (_ & _ & ? & _). auto.
  - intros (po & -> & Hr & -> & Hpo & -> & _). apply derive_exact; [by intros p ?; apply Hpo|].
    split_and!; try done. intros p ?. by apply Hpo.
Qed.

(** ** Finishing a lease *)

Definition with_phase (q : phase) (l : Lease) : Lease :=
  mk_lease (lease_install l) (lease_operation l) (lease_operation_id l) (lease_attempt l) (lease_context l)
    (lease_revision l) (lease_root l) (lease_holder l) (generation l) (predecessor l) q.

Lemma status_active p : status_text p = "active" ↔ p = active.
Proof. by destruct p. Qed.

Lemma fence_exact l root holder : lease_ok l →
  require_install_lease_fence (encode l) (encode l) root holder = Ok tt ↔
  lease_phase l = active ∧ lease_root l = root ∧ lease_holder l = holder.
Proof.
  intros Hl. unfold require_install_lease_fence.
  rewrite !bind_unit, stop_last, record_encode, !or_else_false by done. members_of l.
  rewrite (bind_step (at_ (encode l) "state_root_identity") _ (lease_root l)) by reflexivity.
  rewrite (bind_step (at_ (encode l) "holder") _ (lease_holder l)) by reflexivity.
  rewrite !ok_false, !negb_false_iff, !equal_true, status_active. destruct Hl as [_ Hr Hh _ _ _].
  split; [tauto|]. intros (? & <- & <-). by split_and!.
Qed.

Lemma fence_current ownership current root holder :
  require_install_lease_fence ownership current root holder = Ok tt ↔
  ownership = current ∧ require_install_lease_fence ownership ownership root holder = Ok tt.
Proof.
  unfold require_install_lease_fence. rewrite !bind_unit, !stop_last, !or_else_false, !ok_false, !negb_false_iff.
  rewrite !equal_true. naive_solver.
Qed.

Definition finished (b : bool) (rev : string) : phase := if b then handoff rev else completed rev.

Lemma assign_ok key v m : StdMap.contains_key key m = true →
  assign key v m = Ok (map (fun p => if String.eqb key (fst p) then (fst p, v) else p) m).
Proof. unfold assign. by intros ->. Qed.

Lemma finish_seal l rev (b : bool) :
  (m ← as_object (encode l);
   m ← assign "status" (string_value (if b then "handoff" else "completed")) m;
   m ← assign "result_state_revision" (string_value rev) m; seal (object m)) =
  Ok (encode (with_phase (finished b rev) l)).
Proof.
  rewrite (bind_step _ _ (fst (StdMap.emplace "ownership_sha256" (string_value (digest l)) (body l)))) by reflexivity.
  rewrite !assign_ok by reflexivity. cbn [mbind result_bind]. apply seal_as. by destruct b.
Qed.

Lemma finish_exact l root holder rev b v : lease_ok l →
  finish_install_lease_ownership (encode l) root holder rev b = Ok v ↔
  lease_phase l = active ∧ lease_root l = root ∧ lease_holder l = holder ∧ revision_ok rev ∧
  v = encode (with_phase (finished b rev) l).
Proof.
  intros Hl. unfold finish_install_lease_ownership. rewrite !bind_unit, fence_exact, revision_iff by done.
  rewrite finish_seal. split; [intros ((? & ? & ?) & ? & <-%ok_inj)|intros (? & ? & ? & ? & ->)]; by split_and!.
Qed.

Lemma start_exact l rev : lease_ok l → require_install_lease_start (encode l) rev = Ok tt ↔
  lease_phase l = active ∧ rev = lease_revision l.
Proof.
  intros Hl. unfold require_install_lease_start. rewrite !bind_unit, record_encode, guard_bind, stop_last by done.
  members_of l. rewrite status_active. split; [naive_solver|]. intros [? ->]. split_and!; try done.
  apply (request_revision (lease_request l false)), Hl.
Qed.

(** Using a lease: effects may start, and a lease passes its fence or is
    finished, exactly when the record at hand is a sealed active lease that
    equals the current record and was derived for the observed revision, root
    and holder; a finished lease is the same lease with its end and result, and
    never passes again. *)
Theorem lease_use_exact ownership current root holder rev b v : wf ownership → wf current →
  (require_install_lease_start ownership rev = Ok tt ↔
    ∃ l, ownership = encode l ∧ lease_ok l ∧ lease_phase l = active ∧ rev = lease_revision l) ∧
  (require_install_lease_fence ownership current root holder = Ok tt ↔
    ∃ l, ownership = encode l ∧ current = encode l ∧ lease_ok l ∧ lease_phase l = active ∧
      lease_root l = root ∧ lease_holder l = holder) ∧
  (finish_install_lease_ownership ownership root holder rev b = Ok v ↔
    ∃ l, ownership = encode l ∧ lease_ok l ∧ lease_phase l = active ∧ lease_root l = root ∧
      lease_holder l = holder ∧ revision_ok rev ∧ v = encode (with_phase (finished b rev) l)).
Proof.
  intros Ho Hc. split_and!; split.
  - intros H. pose proof (proj1 (proj1 (bind_unit _ _ _) H)) as (l & Hl & ->)%record_inv; [|done].
    apply start_exact in H; [|done]. exists l. tauto.
  - intros (l & -> & Hl & ?). by apply start_exact.
  - intros H. destruct (proj1 (fence_current _ _ _ _) H) as [E H']. subst current.
    pose proof (proj1 (proj1 (bind_unit _ _ _) H')) as (l & Hl & ->)%record_inv; [|done].
    apply fence_exact in H'; [|done]. by exists l.
  - intros (l & -> & -> & Hl & ?). by apply fence_exact.
  - intros H. pose proof (proj1 (proj1 (bind_unit _ _ _) (proj1 (proj1 (bind_unit _ _ _) H)))) as (l & Hl & ->)%record_inv;
      [|done]. apply finish_exact in H; [|done]. by exists l.
  - intros (l & -> & Hl & ?). by apply finish_exact.
Qed.

(** ** Steps of the protocol *)

(** A history grows by an acquisition or by the end of the last lease. *)
Inductive step : option Lease → Lease → Prop :=
| step_acquire po r root holder :
    recovery r = true → (∀ p, po = Some p → admits p r root ended) → step po (acquired po r root holder)
| step_finish p b rev :
    lease_phase p = active → step (Some p) (with_phase (finished b rev) p).

(** The well-formed continuations of a lease, and of the empty history. *)
Inductive chain : option Lease → list Lease → Prop :=
| chain_nil po : chain po []
| chain_cons po l ls : lease_ok l → step po l → chain (Some l) ls → chain po (l :: ls).

Lemma lease_request_ok l b : lease_ok l → request_ok (lease_request l b) (lease_root l) (lease_holder l).
Proof. by intros [Hr Hroot Hh _ _ _]. Qed.

Lemma acquired_request po r root holder : recovery r = true →
  lease_request (acquired po r root holder) true = r.
Proof. by destruct r; simpl; intros ->. Qed.

Lemma expected_record_exact po l : (∀ p, po = Some p → lease_ok p) → lease_ok l →
  expected_record (encode <$> po) (lease_install l) (lease_root l) (encode l) (status_text (lease_phase l))
    = Ok (encode l) ↔ step po l.
Proof.
  intros Hpo Hl. unfold expected_record. destruct (String.eqb_spec (status_text (lease_phase l)) "active") as [E|E].
  - apply status_active in E. rewrite (bind_step _ _ (lease_request l true)) by reflexivity.
    rewrite (bind_step _ _ (lease_holder l)) by reflexivity. rewrite derive_exact by done. split.
    + intros (_ & _ & Ha & He%encode_inj). rewrite He. by constructor.
    + intros H. inversion H; subst; [|by destruct b]. change (mk_request _ _ _ _ _ _ _) with
        (lease_request (acquired po r root holder) true).
      split; [by apply lease_request_ok|]. rewrite acquired_request by done. by split_and!.
  - destruct po as [p|]; cbn [fmap option_fmap option_map]; [|split; [done|by inversion 1; subst]].
    rewrite (bind_step _ _ (lease_holder p)) by reflexivity. split.
    + intros H. apply bind_ok in H as (rev & _ & H). apply finish_exact in H as (Ha & _ & _ & _ & He%encode_inj);
        [|by apply Hpo]. rewrite He. by constructor.
    + intros H. inversion H as [|? b rev Ha]; subst; [done|].
      rewrite (bind_step _ _ rev) by by destruct b. apply finish_exact; [by apply Hpo|]. split_and!; try done.
      * destruct Hl as [_ _ _ _ _ Hl]. by destruct b.
      * by destruct b.
Qed.

End LeaseProtocol.
