(* ===== verification/LeaseHistory.v ===== *)
(** The histories [select_completed_install_lease_history] accepts. *)

From Stdlib Require Import Ascii String NArith ZArith Lia Sorted.
From stdpp Require Import base list strings sets.
From S2P Require Import Prelude Utf8 Sha256 StdMap Json JsonFacts JsonProps AuditLog AuditFacts InstallLease.
From S2P Require Import InstallLeaseFacts.

Module LeaseHistory.
Import Sha256 Json JsonFacts JsonProps InstallLease InstallLeaseFacts LeaseProtocol.

Definition same_lease_operation (o l : Lease) : Prop :=
  lease_operation l = lease_operation o ∧ lease_operation_id l = lease_operation_id o ∧
  lease_context l = lease_context o.

Definition is_completed (p : phase) : bool := match p with completed _ => true | _ => false end.

(** How a record of the history moves the search for the completion of [o]. *)
Inductive tracks (o : Lease) : option Lease * bool → Lease → option Lease * bool → Prop :=
| tracks_before l : ¬ (generation l = generation o ∧ lease_phase l = active) →
    tracks o (None, false) l (None, false)
| tracks_original : tracks o (None, false) o (None, true)
| tracks_same l : same_lease_operation o l → is_completed (lease_phase l) = false →
    tracks o (None, true) l (None, true)
| tracks_completed l : same_lease_operation o l → is_completed (lease_phase l) = true →
    tracks o (None, true) l (Some l, true)
| tracks_after f found l : lease_operation_id l ≠ lease_operation_id o →
    tracks o (Some f, found) l (Some f, found).

Lemma status_completed p : String.eqb (status_text p) "completed" = is_completed p.
Proof. by destruct p. Qed.

Lemma differs_exact v key s x : at_string v key = Ok x → differs v key s = Ok (negb (String.eqb x s)).
Proof. unfold differs. by intros ->. Qed.

Lemma same_operation_exact o l : ∃ b, same_operation (encode o) (encode l) = Ok b ∧
  (b = true ↔ same_lease_operation o l).
Proof.
  unfold same_operation, same_lease_operation.
  rewrite (bind_step _ _ (lease_operation o)) by reflexivity.
  rewrite (bind_step _ _ (lease_operation_id o)) by reflexivity.
  rewrite (bind_step (at_string (encode o) _) _ (lease_context o)) by reflexivity.
  rewrite (differs_exact _ "operation" _ (lease_operation l)) by reflexivity.
  rewrite (differs_exact _ "operation_id" _ (lease_operation_id l)) by reflexivity.
  rewrite (differs_exact _ "operation_context_sha256" _ (lease_context l)) by reflexivity.
  cbn [mbind result_bind]. rewrite !negb_involutive. unfold and_also. cbn [mbind result_bind].
  destruct (String.eqb_spec (lease_operation l) (lease_operation o));
    [|eexists; split; [reflexivity|]; naive_solver].
  destruct (String.eqb_spec (lease_operation_id l) (lease_operation_id o));
    [|eexists; split; [reflexivity|]; naive_solver].
  eexists. split; [reflexivity|]. rewrite String.eqb_eq. naive_solver.
Qed.

Lemma track_exact o l c found st : lease_phase o = active →
  track (encode o) (encode l) (status_text (lease_phase l)) (encode <$> c) found = Ok st ↔
  ∃ c' f', tracks o (c, found) l (c', f') ∧ st = (encode <$> c', f').
Proof.
  intros Ho. unfold track. destruct c as [f|]; cbn [fmap option_fmap option_map].
  - rewrite (bind_step _ _ (lease_operation_id o)) by reflexivity.
    rewrite (differs_exact _ _ _ (lease_operation_id l)) by reflexivity. cbn [mbind result_bind].
    rewrite negb_involutive, stop_bind, String.eqb_neq. split.
    + intros [? <-%ok_inj]. exists (Some f), found. split; [by constructor|done].
    + intros (c' & f' & H & ->). by inversion H; subst.
  - destruct found.
    + destruct (same_operation_exact o l) as (b & -> & Hb). cbn [mbind result_bind].
      rewrite stop_bind, negb_false_iff, Hb, status_completed. split.
      * intros [? <-%ok_inj]. destruct (is_completed (lease_phase l)) eqn:Ec; eexists _, _; split;
          try (by constructor); done.
      * intros (c' & f' & H & ->). by inversion H as [| |? ? E|? ? E|]; subst; rewrite E.
    + rewrite (bind_step _ _ (generation l)) by reflexivity. rewrite (bind_step _ _ (generation o)) by reflexivity.
      destruct ((generation l =? generation o) && String.eqb (status_text (lease_phase l)) "active") eqn:E.
      * bool_hyps. rewrite stop_bind, negb_false_iff, equal_true. split.
        { intros [->%encode_inj <-%ok_inj]. exists None, true. by split; [constructor|]. }
        { intros (c' & f' & H' & ->). inversion H' as [? Hn| | | |]; subst; [|done].
          destruct Hn. split; [done|by apply status_active]. }
      * split; [intros <-%ok_inj; exists None, false; split; [constructor|done]|].
        { intros [Eg Ep]. rewrite Eg, Ep, N.eqb_refl in E. discriminate E. }
        { intros (c' & f' & H' & ->). inversion H'; subst; [done|]. rewrite Ho, N.eqb_refl in E. discriminate E. }
Qed.

Lemma history_step_exact o po c found v st : lease_phase o = active → wf v → (∀ p, po = Some p → lease_ok p) →
  history_step (encode o) (lease_root o) (lease_install o) (encode <$> po, encode <$> c, found) v = Ok st ↔
  ∃ l c' f', v = encode l ∧ lease_ok l ∧ lease_install l = lease_install o ∧ lease_root l = lease_root o ∧
    step po l ∧ tracks o (c, found) l (c', f') ∧ st = (encode <$> Some l, encode <$> c', f').
Proof.
  intros Ho Hwf Hpo. unfold history_step. rewrite bind_unit. split.
  - intros [(l & Hl & ->)%record_inv H]; [|done]. apply guard_bind in H as [[Hi Hr]%or_else_false H].
    rewrite (differs_false _ _ _ (lease_install l)) in Hi by reflexivity.
    rewrite (bind_step _ _ (lease_root l)), ok_false, negb_false_iff, equal_true in Hr by reflexivity.
    rewrite (bind_step _ _ (status_text (lease_phase l))), <- Hi, <- Hr in H by reflexivity.
    apply bind_ok in H as (x & Hx & H). apply stop_bind in H as [H1%negb_false_iff%equal_true H]. subst x.
    apply expected_record_exact in Hx; [|done..]. apply bind_ok in H as (nx & Hn & H%ok_inj).
    apply track_exact in Hn as (c' & f' & Ht & ->); [|done]. exists l, c', f'. by split_and!.
  - intros (l & c' & f' & -> & Hl & Hi & Hr & Hs & Ht & ->). split; [by apply record_encode|].
    rewrite guard_bind, or_else_false, (differs_false _ _ _ (lease_install l)) by reflexivity.
    rewrite (bind_step (at_ _ _) _ (lease_root l)), ok_false, negb_false_iff, equal_true by reflexivity.
    split; [done|]. rewrite (bind_step _ _ (status_text (lease_phase l))), <- Hi, <- Hr by reflexivity.
    rewrite (bind_step _ _ (encode l)) by (by apply expected_record_exact). rewrite equal_refl. simpl negb.
    rewrite stop_bind. split; [done|]. rewrite (bind_step _ _ (encode <$> c', f')); [done|].
    apply track_exact; [done|]. by eexists _, _.
Qed.

(** ** The whole loop *)

Inductive tracked (o : Lease) : option Lease * bool → list Lease → option Lease * bool → Prop :=
| tracked_nil st : tracked o st [] st
| tracked_cons st l st1 ls st2 : tracks o st l st1 → tracked o st1 ls st2 → tracked o st (l :: ls) st2.

Definition in_scope (o l : Lease) : Prop := lease_install l = lease_install o ∧ lease_root l = lease_root o.

Lemma fold_exact o history : lease_phase o = active → Forall wf history → ∀ po c f st,
  (∀ p, po = Some p → lease_ok p) →
  fold_result (history_step (encode o) (lease_root o) (lease_install o)) (encode <$> po, encode <$> c, f) history
    = Ok st ↔
  ∃ ls c' f', history = encode <$> ls ∧ Forall (in_scope o) ls ∧ chain po ls ∧ tracked o (c, f) ls (c', f') ∧
    st = (encode <$> fold_left (fun _ l => Some l) ls po, encode <$> c', f').
Proof.
  intros Ho Hwf. induction Hwf as [|v history Hv _ IH]; intros po c f st Hpo; cbn [fold_result].
  - split; [intros <-%ok_inj; exists [], c, f; by repeat constructor|].
    intros (ls & c' & f' & E & _ & _ & Ht & ->). destruct ls; [|done]. by inversion Ht; subst.
  - split.
    + intros H. apply bind_ok in H as (st1 & (l & c1 & f1 & -> & Hl & Hi & Hr & Hs & Ht & ->)%history_step_exact & H);
        [|done..].
      apply IH in H as (ls & c' & f' & -> & Hsc & Hc & Hts & ->); [|by intros ? [= <-]].
      exists (l :: ls), c', f'. split_and!; try done; by econstructor.
    + intros (ls & c' & f' & E & Hsc & Hc & Ht & ->). destruct ls as [|l ls]; [done|].
      cbn [fmap list_fmap] in E. injection E as -> ->. apply Forall_cons in Hsc as [[Hi Hr] Hsc]. inversion Hc; subst. inversion Ht as [|? ? [c1 f1]]; subst.
      rewrite (bind_step _ _ (encode <$> Some l, encode <$> c1, f1)).
      * apply IH; [by intros ? [= <-]|]. by exists ls, c', f'.
      * apply history_step_exact; [done..|]. by exists l, c1, f1.
Qed.

(** ** What the search finds *)

Definition outstanding (o l : Lease) : Prop := same_lease_operation o l ∧ is_completed (lease_phase l) = false.

Lemma tracked_after o f b ls st : tracked o (Some f, b) ls st ↔
  Forall (fun l => lease_operation_id l ≠ lease_operation_id o) ls ∧ st = (Some f, b).
Proof.
  split.
  - revert st. induction ls as [|l ls IH]; intros st H; inversion H as [|? ? st1 ? ? Ht Hts]; subst; [done|].
    inversion Ht; subst. apply IH in Hts as [? ->]. split; [by constructor|done].
  - intros [H ->]. induction H; [constructor|]. econstructor; [by constructor|done].
Qed.

(** The continuation of [o] up to its completion, if there is one. *)
Definition continuation (o : Lease) (ls : list Lease) (c : option Lease) : Prop :=
  match c with
  | None => Forall (outstanding o) ls
  | Some f => ∃ mid post, ls = mid ++ f :: post ∧ Forall (outstanding o) mid ∧ same_lease_operation o f ∧
      is_completed (lease_phase f) = true ∧ Forall (fun l => lease_operation_id l ≠ lease_operation_id o) post
  end.

Lemma tracked_found o ls c b : tracked o (None, true) ls (c, b) ↔ b = true ∧ continuation o ls c.
Proof.
  induction ls as [|l ls IH].
  - split; [intros H; inversion H; subst; split; [done|constructor]|]. intros [-> H]. destruct c as [f|]; [|constructor].
    destruct H as (mid & post & H & _). by destruct mid.
  - split.
    + intros H. inversion H as [|? ? st1 ? ? Ht Hts]; subst. inversion Ht as [| |? Hs E|? Hs E|]; subst.
      * apply IH in Hts as [-> Hc]. split; [done|]. destruct c as [f|]; [|by constructor].
        destruct Hc as (mid & post & -> & ? & ? & ? & ?). exists (l :: mid), post. by split_and!; [|constructor|..].
      * apply tracked_after in Hts as [? [= -> ->]]. split; [done|]. by exists [], ls.
    + intros [-> Hc]. destruct c as [f|]; [|apply Forall_cons in Hc as [[Hs E] Hc]].
      * destruct Hc as (mid & post & E & Hm & Hs & Hc & Hp). destruct mid as [|x mid]; simplify_eq/=.
        { econstructor; [by constructor|]. by apply tracked_after. }
        apply Forall_cons in Hm as [[? ?] Hm]. econstructor; [by constructor|]. apply IH. split; [done|].
        by exists mid, post.
      * econstructor; [by constructor|]. by apply IH.
Qed.

Definition before (o l : Lease) : Prop := ¬ (generation l = generation o ∧ lease_phase l = active).

Lemma tracked_search o ls c : tracked o (None, false) ls (c, true) ↔
  ∃ pre rest, ls = pre ++ o :: rest ∧ Forall (before o) pre ∧ continuation o rest c.
Proof.
  induction ls as [|l ls IH].
  - split; [by inversion 1|]. intros (pre & rest & H & _). by destruct pre.
  - split.
    + intros H. inversion H as [|? ? st1 ? ? Ht Hts]; subst. inversion Ht; subst.
      * apply IH in Hts as (pre & rest & -> & ? & ?). exists (l :: pre), rest. by split_and!; [|constructor|].
      * apply tracked_found in Hts as [_ ?]. by exists [], ls.
    + intros (pre & rest & E & Hp & Hc). destruct pre as [|x pre]; simplify_eq/=.
      * econstructor; [apply tracks_original|]. by apply tracked_found.
      * apply Forall_cons in Hp as [? Hp]. econstructor; [by constructor|]. apply IH. by exists pre, rest.
Qed.

(** ** Chains *)

Lemma step_scope p l : step (Some p) l → in_scope p l ∧ generation p <= generation l.
Proof.
  inversion 1 as [? r root holder _ Ha|]; subst; [|by split; [|simpl; lia]].
  destruct (Ha p eq_refl) as (? & ? & _). by split; [|simpl; lia].
Qed.

Lemma chain_scope p ls : chain (Some p) ls → Forall (in_scope p) ls.
Proof.
  remember (Some p) as po eqn:E. intros H. revert p E. induction H as [|po l ls Hl Hs Hc IH]; intros p ->; [done|].
  apply step_scope in Hs as [[Hi Hr] _]. constructor; [done|].
  eapply Forall_impl; [by apply IH|]. intros x [Ei Er]. split; congruence.
Qed.

Lemma chain_app po ls ls' : chain po (ls ++ ls') → chain po ls ∧ chain (fold_left (fun _ l => Some l) ls po) ls'.
Proof.
  revert po. induction ls as [|l ls IH]; intros po H; simpl in *; [by split; [constructor|]|].
  inversion H as [|? ? ? Hl Hs Hc]; subst. apply IH in Hc as [? ?]. by split; [constructor|].
Qed.

Lemma chain_in_scope ls o : chain None ls → o ∈ ls → Forall (in_scope o) ls.
Proof.
  intros Hc Ho. destruct ls as [|l ls]; [constructor|]. inversion Hc as [|? ? ? _ _ H]; subst.
  apply chain_scope in H. assert (Forall (in_scope l) (l :: ls)) as Ha by (by constructor).
  rewrite Forall_forall in Ha. destruct (Ha o Ho) as [Ei Er].
  apply Forall_forall. intros x [Xi Xr]%Ha. split; congruence.
Qed.

(** An acquisition has a larger generation than every earlier record. *)
Lemma chain_generation po pre o rest : lease_phase o = active → chain po (pre ++ o :: rest) →
  Forall (fun l => generation l < generation o) pre ∧ ∀ p, po = Some p → generation p < generation o.
Proof.
  intros Ho. revert po. induction pre as [|l pre IH]; intros po H; inversion H as [|? ? ? Hl Hs Hc]; subst.
  - split; [constructor|]. intros p ->. inversion Hs as [|? b rev]; subst; [simpl; lia|]. by destruct b.
  - apply IH in Hc as [Hf Hg]. specialize (Hg l eq_refl). split; [by constructor|].
    intros p ->. apply step_scope in Hs as [_ ?]. lia.
Qed.

Lemma lease_history_iff history original c : Forall wf history → wf original →
  select_completed_install_lease_history history original = Ok c ↔
  ∃ o pre rest f, original = encode o ∧ lease_ok o ∧ lease_phase o = active ∧
    history = encode <$> pre ++ o :: rest ∧ N.of_nat (length history) <= 4096 ∧
    chain None (pre ++ o :: rest) ∧ continuation o rest f ∧ c = encode <$> f.
Proof.
  intros Hwf Ho. unfold select_completed_install_lease_history. rewrite bind_unit. split.
  - intros [(o & Hok & ->)%record_inv H]; [|done]. apply guard_bind in H as [[Ha Hn]%or_else_false H].
    rewrite (differs_false _ _ _ (status_text (lease_phase o))), status_active in Ha by reflexivity.
    apply ok_inj, orb_false_iff in Hn as [_ Hn%N.ltb_ge].
    rewrite (bind_step _ _ (lease_root o)), (bind_step _ _ (lease_install o)) in H by reflexivity.
    rewrite (bind_step _ _ (lease_operation_id o)) in H by reflexivity.
    apply bind_ok in H as (st & Hf & [Hs%negb_false_iff Hc%ok_inj]%stop_bind).
    apply (fold_exact o history Ha Hwf None None false) in Hf as (ls & c' & f' & -> & Hsc & Hch & Ht & ->); [|done].
    simpl in Hs, Hc. subst f' c. apply tracked_search in Ht as (pre & rest & -> & _ & Hcont).
    by exists o, pre, rest, c'.
  - intros (o & pre & rest & f & -> & Hok & Ha & -> & Hn & Hch & Hcont & ->). split; [by apply record_encode|].
    rewrite guard_bind, or_else_false, (differs_false _ _ _ (status_text (lease_phase o))), status_active by reflexivity.
    split.
    { split; [done|]. rewrite ok_false, orb_false_iff, N.ltb_ge. split; [|done].
      apply bool_decide_eq_false. rewrite fmap_app. by destruct (encode <$> pre). }
    rewrite (bind_step _ _ (lease_root o)), (bind_step _ _ (lease_install o)) by reflexivity.
    rewrite (bind_step _ _ (lease_operation_id o)) by reflexivity.
    rewrite (bind_step _ _ (encode <$> fold_left (fun _ l => Some l) (pre ++ o :: rest) None, encode <$> f, true)).
    + done.
    + apply (fold_exact o _ Ha Hwf None None false); [done|]. exists (pre ++ o :: rest), f, true.
      split_and!; try done.
      * apply chain_in_scope; [done|]. set_solver.
      * apply tracked_search. exists pre, rest. split_and!; try done.
        apply chain_generation in Hch as [Hg _]; [|done]. eapply Forall_impl; [exact Hg|]. intros l Hlt [E _]. simpl in Hlt. lia.
Qed.

(** C11 [select_completed_install_lease_history] accepts exactly the histories
    the protocol can produce that contain the original acquisition: a chain of
    acquisitions and finishes in which every record after the original, up to
    its completion, belongs to the same operation, and no record after the
    completion has its operation id.  It returns that completion, if any. *)
Theorem lease_history_exact history original c : Forall wf history → wf original →
  select_completed_install_lease_history history original = Ok c ↔
  ∃ o pre rest f, original = encode o ∧ lease_ok o ∧ lease_phase o = active ∧
    history = encode <$> pre ++ o :: rest ∧ N.of_nat (length history) <= 4096 ∧
    chain None (pre ++ o :: rest) ∧ continuation o rest f ∧ c = encode <$> f.
Proof. apply lease_history_iff. Qed.

(** ** Histories are determined by their last record *)

Lemma fold_last {A} (ls : list A) po : fold_left (fun _ l => Some l) ls po = match last ls with None => po | x => x end.
Proof. induction ls as [|l ls _] using rev_ind; [done|]. by rewrite fold_left_app, last_snoc. Qed.

Lemma chain_snoc ls l : chain None (ls ++ [l]) → chain None ls ∧ step (last ls) l.
Proof.
  intros [Hc H]%chain_app. split; [done|]. rewrite fold_last in H. inversion H as [|? ? ? _ Hs _]; subst.
  by destruct (last ls).
Qed.

Lemma digest_binds p p' : digest p = digest p' → p = p' ∨ AuditFacts.sha256_collision.
Proof.
  intros E. destruct (decide (canonical (object (body p)) = canonical (object (body p')))) as [Hc|Hc].
  - left. apply body_inj. apply canonical_injective in Hc.
    exact (f_equal (fun v => match v with object m => m | _ => [] end) Hc).
  - right. by eexists _, _.
Qed.

(** A record tells what it follows: an acquisition by the digest of the record
    before it, a finish by its own members. *)
Lemma step_origin po l : step po l →
  (lease_phase l = active ∧ predecessor l = digest <$> po) ∨
  (lease_phase l ≠ active ∧ po = Some (with_phase active l)).
Proof.
  inversion 1 as [|p b rev Ha]; subst; [by left|]. right. split; [by destruct b|].
  destruct p. simpl in Ha. by subst.
Qed.

Lemma step_binds po po' l : step po l → step po' l → po = po' ∨ AuditFacts.sha256_collision.
Proof.
  intros [[Ha E]|[Ha ->]]%step_origin [[Ha' E']|[Ha' ->]]%step_origin; try done; [|by left].
  rewrite E in E'. destruct po as [p|], po' as [p'|]; try discriminate E'; [|by left].
  assert (digest p = digest p') as [->|?]%digest_binds by (by apply (inj Some)); [by left|by right].
Qed.

Lemma chain_binds ls : ∀ ls', chain None ls → chain None ls' → last ls = last ls' →
  ls = ls' ∨ AuditFacts.sha256_collision.
Proof.
  induction ls as [|l ls IH] using rev_ind; intros ls' Hc Hc' E.
  - destruct ls' as [|l' ls' _] using rev_ind; [by left|]. by rewrite last_snoc in E.
  - destruct ls' as [|l' ls' _] using rev_ind; rewrite ?last_snoc in E; [done|]. injection E as ->.
    apply chain_snoc in Hc as [Hc Hs]. apply chain_snoc in Hc' as [Hc' Hs'].
    destruct (step_binds _ _ _ Hs Hs') as [E|?]; [|by right].
    destruct (IH ls' Hc Hc' E) as [->|?]; [by left|by right].
Qed.

(** Two accepted histories that end with the same record are the same
    history, record for record, unless two different texts with the same SHA-256
    exist: the last ownership record authenticates everything before it. *)
Theorem lease_history_binding history original c history' original' c' :
  Forall wf history → wf original → Forall wf history' → wf original' →
  select_completed_install_lease_history history original = Ok c →
  select_completed_install_lease_history history' original' = Ok c' →
  last history = last history' → history = history' ∨ AuditFacts.sha256_collision.
Proof.
  intros Hh Ho Hh' Ho' (o & pre & rest & f & _ & _ & _ & -> & _ & Hc & _)%lease_history_iff
    (o' & pre' & rest' & f' & _ & _ & _ & -> & _ & Hc' & _)%lease_history_iff E; try done.
  rewrite !fmap_last in E. apply (inj (fmap encode)) in E.
  destruct (chain_binds _ _ Hc Hc' E) as [->|?]; [by left|by right].
Qed.

(** ** A sample history *)

Definition lease_sample_root : value :=
  object [("file_id", string_value "0123456789abcdef0123456789abcdef"); ("volume_serial", string_value "4711")].

Definition lease_sample_holder : value :=
  object [("process_creation_time", string_value "01d0000000000001"); ("process_id", unsigned_integer 42)].

Definition lease_sample_revision : string := sha256 "state".

Definition lease_sample_request : InstallLeaseRequest :=
  mk_request "install.1" "repair" "op.1" "attempt.1" lease_sample_revision true (sha256 "context").

Definition lease_sample_active : Lease := acquired None lease_sample_request lease_sample_root lease_sample_holder.
Definition lease_sample_completed : Lease := with_phase (completed lease_sample_revision) lease_sample_active.
Definition lease_sample_history : list value := [encode lease_sample_active; encode lease_sample_completed].

Lemma lease_sample_request_ok : request_ok lease_sample_request lease_sample_root lease_sample_holder.
Proof. by vm_compute. Qed.

Lemma lease_sample_wf : wf (encode lease_sample_active) ∧ Forall wf lease_sample_history.
Proof.
  assert (wf lease_sample_root) as Hr by (split; [by_sorted|done]).
  assert (wf lease_sample_holder) as Hh by (split; [by_sorted|done]).
  assert (∀ q, wf (encode (with_phase q lease_sample_active))) as H.
  { intros q. apply wf_encode; [exact Hr|exact Hh|]. by change (1 <= uint64_max). }
  split; [exact (H active)|]. constructor; [exact (H active)|]. constructor; [apply H|constructor].
Qed.

Lemma lease_sample_ok : lease_ok lease_sample_active ∧ lease_ok lease_sample_completed.
Proof.
  assert (lease_ok lease_sample_active) as H by (apply acquired_ok; [exact lease_sample_request_ok|done]).
  split; [exact H|]. destruct H as [Hr Hroot Hh Hg Hp _].
  split; [exact Hr|exact Hroot|exact Hh|exact Hg|exact Hp|apply hex_sha256].
Qed.

Lemma lease_sample_chain : chain None ([] ++ lease_sample_active :: [lease_sample_completed]).
Proof.
  constructor; [apply lease_sample_ok|by constructor|]. constructor; [apply lease_sample_ok| |constructor].
  by apply (step_finish _ false).
Qed.

Lemma lease_acquisition_witness :
  derive_install_lease_ownership None lease_sample_request lease_sample_root lease_sample_holder lease_sample_revision unknown =
  Ok (encode lease_sample_active).
Proof.
  apply (lease_acquisition None lease_sample_request lease_sample_root lease_sample_holder lease_sample_revision unknown); [done|].
  exists None. split; [reflexivity|]. split; [apply lease_sample_request_ok|]. split; [reflexivity|].
  split; [done|]. split; [reflexivity|]. apply record_encode, lease_sample_ok.
Defined.

Lemma lease_use_exact_witness :
  require_install_lease_start (encode lease_sample_active) lease_sample_revision = Ok tt ∧
  require_install_lease_fence (encode lease_sample_active) (encode lease_sample_active) lease_sample_root lease_sample_holder = Ok tt ∧
  finish_install_lease_ownership (encode lease_sample_active) lease_sample_root lease_sample_holder lease_sample_revision false =
    Ok (encode lease_sample_completed).
Proof.
  destruct (lease_use_exact (encode lease_sample_active) (encode lease_sample_active) lease_sample_root lease_sample_holder
    lease_sample_revision false (encode lease_sample_completed)) as (H1 & H2 & H3); [apply lease_sample_wf..|].
  destruct lease_sample_ok as [Hok _]. split; [|split].
  - apply H1. exists lease_sample_active. repeat (split; [reflexivity || exact Hok|]). reflexivity.
  - apply H2. exists lease_sample_active. repeat (split; [reflexivity || exact Hok|]). reflexivity.
  - apply H3. exists lease_sample_active. do 5 (split; [reflexivity || exact Hok|]).
    split; [apply hex_sha256|reflexivity].
Defined.

Lemma lease_record_exact_witness : require_install_lease_record (encode lease_sample_active) = Ok tt.
Proof.
  apply (lease_record_exact (encode lease_sample_active)); [apply lease_sample_wf|]. exists lease_sample_active.
  split; [apply lease_sample_ok|done].
Defined.

Lemma lease_sample_accepted : select_completed_install_lease_history lease_sample_history (encode lease_sample_active) =
  Ok (Some (encode lease_sample_completed)).
Proof.
  apply lease_history_iff; [apply lease_sample_wf..|].
  exists lease_sample_active, [], [lease_sample_completed], (Some lease_sample_completed).
  split; [reflexivity|]. split; [apply lease_sample_ok|]. split; [reflexivity|]. split; [reflexivity|].
  split; [simpl; lia|]. split; [apply lease_sample_chain|]. split; [|reflexivity].
  exists [], []. by repeat split.
Qed.

Lemma lease_history_exact_witness :
  select_completed_install_lease_history lease_sample_history (encode lease_sample_active) =
  Ok (Some (encode lease_sample_completed)).
Proof.
  apply (lease_history_exact lease_sample_history (encode lease_sample_active)); [apply lease_sample_wf..|].
  exists lease_sample_active, [], [lease_sample_completed], (Some lease_sample_completed).
  split; [reflexivity|]. split; [apply lease_sample_ok|]. split; [reflexivity|]. split; [reflexivity|].
  split; [simpl; lia|]. split; [apply lease_sample_chain|]. split; [|reflexivity].
  exists [], []. by repeat split.
Defined.

Lemma lease_history_binding_witness : lease_sample_history = lease_sample_history ∨ AuditFacts.sha256_collision.
Proof.
  apply (lease_history_binding lease_sample_history (encode lease_sample_active) (Some (encode lease_sample_completed))
    lease_sample_history (encode lease_sample_active) (Some (encode lease_sample_completed)));
    [apply lease_sample_wf..|apply lease_sample_accepted|apply lease_sample_accepted|reflexivity].
Defined.
End LeaseHistory.
