(* ===== verification/SessionConfined.v ===== *)
(** Where a session may act: every effect of every member function, on every
    host and on every outcome, is on the journal and its temporaries, inside the
    staging root, or the one move of the staging root to the target. *)

From Stdlib Require Import Ascii String NArith ZArith Lia.
From stdpp Require Import base list strings gmap sets relations.
From S2P Require Import Prelude Sha256 StdMap Json Path PathFacts Effects World RecordIo.
From S2P Require Import RecordFacts StreamJournal Journal SessionHost Session SessionSteps.
From S2P Require Import SessionFacts.

Module SessionConfined.
Import Path PathFacts Effects World Journal SessionHost Session SessionSteps SessionFacts.

(** ** Allowed events *)

(** A name of a temporary of the journal, and a name at or below a root, spelled without
    dot components below it. *)
Definition temporary_of (journal : path) (n : name) : Prop :=
  ∃ k, n = names (journal_temporary_path journal k).

Definition inside (root : path) (n : name) : Prop := ∃ rest, n = names root ++ rest ∧ Forall safe_name rest.

(** [open]: whether the session still has deletion authority; [mover]: whether
    the call may move the staging root. *)
Definition confined (spec : TransactionSpec) (open mover : bool) (e : event) : Prop :=
  let journal := journal_file (state_root spec) (transaction_id spec) in
  let staging := staging_path spec in
  match e with
  | created n _ => temporary_of journal n ∨ inside staging n
  | wrote _ _ => True
  | published n _ => n = names journal
  | unlinked n => temporary_of journal n
  | made_directory n => inside staging n
  | moved a b => mover = true ∧ a = names staging ∧ b = names (target_root spec) ∧
      required_commit_authority spec = legacy_observed
  | removed n => temporary_of journal n ∨ (open = true ∧ inside staging n)
  end.

(** The member functions that may move. *)
Definition moves (c : call) : bool := match c with CommitEffect | Commit => true | _ => false end.

(** An absolute root without a trailing separator. *)
Definition clean_root (p : path) : Prop := is_absolute p = true ∧ ends_with slash p = false.

Section Confined.
Context (spec : TransactionSpec) (open mover : bool).
Context (Hclean : clean_root (staging_path spec)).

Definition latched (s : TransactionSession) : Prop :=
  retain_stream_cleanup_ s = true ∨ retain_commit_cleanup_ s = true.

Record anchored (s : TransactionSession) : Prop := {
  at_spec : spec_ s = spec;
  at_staging : staging_root_ s = staging_path spec;
  at_journal : journal_path_ s = journal_file (state_root spec) (transaction_id spec);
  at_files : Forall (fun f => safe_relative_path (relative_path f) = true) (staged_files_ s);
  at_latch : open = false → latched s }.

Definition confining (held : option N) (x y : TransactionSession * world) : Prop :=
  anchored (fst x) → anchored (fst y) ∧ acts held (confined spec open mover) (snd x) (snd y).

#[global] Instance confining_preorder held : PreOrder (confining held).
Proof.
  split; [intros x Hx; split; [done|reflexivity]|]. intros x y z H1 H2 Hx.
  destruct (H1 Hx) as [Hy A1]. destruct (H2 Hy) as [Hz A2]. split; [done|by etransitivity].
Qed.

Lemma confine_host held {A} (m : io A) : keeps (acts held (confined spec open mover)) m → keeps (confining held) (host m).
Proof.
  intros Hm [s w] Hs. specialize (Hm w). unfold host, on_snd. simpl in *.
  destruct (m w) as [r w']. done.
Qed.

Lemma confine_update held f : (∀ s, anchored s → anchored (f s)) → keeps (confining held) (update f).
Proof. intros H [s w] Hs. split; [by apply H|reflexivity]. Qed.

(** Reading the object: it is anchored. *)
Lemma confine_this held {A} (f : TransactionSession → act A) :
  (∀ s, anchored s → keeps (confining held) (f s)) → keeps (confining held) (this ≫= f).
Proof. intros H [s w] Hs. by apply (H s Hs (s, w)). Qed.

(** A computation that cannot return needs no continuation. *)
Lemma confine_never held {A B} (m : act A) (f : A → act B) :
  keeps (confining held) m → (∀ x a y, anchored (fst x) → m x ≠ (Ok a, y)) → keeps (confining held) (m ≫= f).
Proof.
  intros Hm Hn x Hx. specialize (Hm x Hx). unfold mbind, M_bind.
  destruct (m x) as [[a|e] y] eqn:E; [by destruct (Hn x a y Hx)|done].
Qed.

(** ** Observations add nothing *)

Ltac conjuncts := repeat match goal with |- _ ∧ _ => apply conj end.

Lemma quiet_calls P p : keeps (adds P) (exists_ p) ∧ keeps (adds P) (is_directory p) ∧
  keeps (adds P) (reparse_or_symlink p) ∧ keeps (adds P) (lstat p) ∧ keeps (adds P) (lstat_links p) ∧
  keeps (adds P) (open_existing p) ∧ keeps (adds P) (list_directory p) ∧ keeps (adds P) (list_recursive p).
Proof.
  unfold exists_, is_directory, status, reparse_or_symlink, lstat, lstat_links, open_existing,
    list_directory, list_recursive.
  conjuncts; keeps_auto; (apply keeps_step_adds || apply keeps_observe_adds).
Qed.

Lemma quiet_handles P i : keeps (adds P) fsync ∧ keeps (adds P) (fstat i) ∧ keeps (adds P) (read_content i) ∧
  keeps (adds P) now ∧ keeps (adds P) iso8601_now ∧ keeps (adds P) step.
Proof.
  unfold fsync, fstat, read_content, iso8601_now, now.
  conjuncts; keeps_auto; (apply keeps_step_adds || apply keeps_observe_adds).
Qed.

Ltac observes := first [apply quiet_calls | apply (quiet_handles _ 0) | apply quiet_handles].

Lemma quiet_safe_directory P p : keeps (adds P) (require_safe_directory p).
Proof.
  unfold require_safe_directory. keeps_auto; try observes.
  generalize (root_text p). induction (relative_components p) as [|c l IH]; intros q; simpl; keeps_auto; observes.
Qed.

Lemma quiet_directory_identity P p : keeps (adds P) (directory_identity p).
Proof. unfold directory_identity. keeps_auto; [apply quiet_safe_directory|observes]. Qed.

Lemma quiet_open P p : keeps (adds P) (StableFile.open_stable p).
Proof.
  unfold StableFile.open_stable, StableFile.require_absolute_path, StableFile.absolute.
  keeps_auto; observes.
Qed.

Lemma quiet_verify P f : keeps (adds P) (StableFile.verify_unchanged f).
Proof. unfold StableFile.verify_unchanged. keeps_auto; observes. Qed.

Lemma quiet_hash P f : keeps (adds P) (StableFile.sha256_hex f).
Proof.
  unfold StableFile.sha256_hex. keeps_auto.
  generalize Sha256.initial. generalize 0 at 1. induction (S _) as [|n IH]; intros k h; simpl; keeps_auto.
  unfold StableFile.read_exact. keeps_auto. observes.
Qed.

Ltac quietly := try apply keeps_acts_quiet; first
  [apply quiet_safe_directory | apply quiet_directory_identity | apply quiet_open | apply quiet_verify | apply quiet_hash | observes].

Lemma quiet_absolute_normal P p : keeps (adds P) (absolute_normal p).
Proof. unfold absolute_normal, StableFile.absolute. keeps_auto. Qed.

Lemma quiet_observe_identity P p : keeps (adds P) (observe_directory_identity p).
Proof. unfold observe_directory_identity. keeps_auto; [apply quiet_absolute_normal|quietly]. Qed.

Lemma quiet_commit_closure P root files : keeps (adds P) (observe_commit_closure root files).
Proof.
  unfold observe_commit_closure, observe_round, list_entries, observe_entry, observe_file.
  keeps_auto; try quietly; apply quiet_observe_identity.
Qed.

Lemma quiet_inject P injector state point : keeps (adds P) (inject injector state point).
Proof. unfold inject. keeps_auto. quietly. Qed.

(** ** The journal *)

Lemma confine_write_some i data : keeps (acts (Some i) (confined spec open mover)) (write_some i data).
Proof.
  unfold write_some, now. keeps_auto. apply keeps_effect_acts.
  intros d a' d' es (d1 & _ & [= _ _ <-])%bind_Some. split; [by constructor|]. split; [by left|done].
Qed.

Lemma confine_write_loop fuel i data what :
  keeps (acts (Some i) (confined spec open mover)) (RecordIo.write_loop fuel i data what).
Proof.
  revert data. induction fuel as [|fuel IH]; intros [|c data]; simpl; keeps_auto; apply confine_write_some.
Qed.

Lemma confine_write_file held p data : temporary_of (journal_file (state_root spec) (transaction_id spec)) (names p) ∨
  inside (staging_path spec) (names p) → keeps (acts held (confined spec open mover)) (write_new_durable_file p data).
Proof.
  intros H w. apply acts_created; [by intros i|intros i|]; keeps_auto; try quietly; apply confine_write_loop.
Qed.

Lemma confine_publish held temporary first :
  temporary_of (journal_file (state_root spec) (transaction_id spec)) (names temporary) →
  keeps (acts held (confined spec open mover))
    (publish_journal temporary (journal_file (state_root spec) (transaction_id spec)) first).
Proof.
  intros H. unfold publish_journal, fsync_directory, link, unlink, rename, succeeded.
  keeps_auto; try quietly; apply keeps_effect_acts;
    intros d a' d' es (d1 & _ & [= _ _ <-])%bind_Some; by split; [constructor|].
Qed.

Lemma confine_remove held p :
  temporary_of (journal_file (state_root spec) (transaction_id spec)) (names p) ∨
  (open = true ∧ inside (staging_path spec) (names p)) → keeps (acts held (confined spec open mover)) (remove p).
Proof.
  intros H. unfold remove, succeeded. keeps_auto. apply keeps_effect_acts.
  intros d a' d' es (d1 & _ & [= _ _ <-])%bind_Some. by split; [constructor|].
Qed.

Lemma confine_atomic_write held content sequence first :
  keeps (acts held (confined spec open mover))
    (atomic_write_journal (journal_file (state_root spec) (transaction_id spec)) content sequence first).
Proof.
  assert (temporary_of (journal_file (state_root spec) (transaction_id spec))
    (names (journal_temporary_path (journal_file (state_root spec) (transaction_id spec)) sequence))) as H
    by (by exists sequence).
  unfold atomic_write_journal. keeps_auto.
  - apply confine_write_file. by left.
  - by apply confine_publish.
  - apply confine_remove. by left.
Qed.

(** Decompose a member function: an object that is read is anchored. *)
Ltac confine_step :=
  match goal with
  | |- keeps _ (this ≫= _) => apply confine_this; intros ? ?
  | |- keeps _ (host _) => apply confine_host
  | |- keeps _ (update _) => apply confine_update; intros ? ?
  | _ => keeps_step
  end.
Ltac confine_auto := repeat (solve [eauto with eff typeclass_instances] || confine_step).

Lemma confine_notify held state point : keeps (confining held) (notify state point).
Proof. unfold notify. confine_auto. apply keeps_acts_quiet, quiet_inject. Qed.

Lemma confine_notify_here held point : keeps (confining held) (notify_here point).
Proof. unfold notify_here. confine_auto. apply confine_notify. Qed.

Lemma confine_persist_journal held sequence first : keeps (confining held) (persist_journal sequence first).
Proof.
  unfold persist_journal. confine_auto. rewrite (at_journal s) by done. apply confine_atomic_write.
Qed.

Lemma confine_require_journal_directory held : keeps (confining held) require_journal_directory.
Proof. unfold require_journal_directory. confine_auto. quietly. Qed.
#[local] Hint Resolve confine_notify confine_notify_here confine_persist_journal
  confine_require_journal_directory : eff.

Lemma confine_persist_snapshot held : keeps (confining held) persist_snapshot.
Proof. unfold persist_snapshot. confine_auto. Qed.

Lemma anchored_chain state chain s : anchored s → anchored (set_chain state chain s).
Proof. by intros []. Qed.

Lemma confine_persist_transition held next : keeps (confining held) (persist_transition next).
Proof.
  unfold persist_transition. confine_auto; try quietly; by apply anchored_chain.
Qed.
#[local] Hint Resolve confine_persist_snapshot confine_persist_transition : eff.

(** ** The staging closure *)

Lemma inside_append p q : is_absolute q = false → Forall safe_name (names q) → inside (staging_path spec) (names p) →
  inside (staging_path spec) (names (p /+ q)).
Proof.
  intros Hq Hs (rest & E & Hr). exists (rest ++ names q). rewrite names_append, E, app_assoc by done.
  split; [done|by apply Forall_app].
Qed.

Lemma inside_root : inside (staging_path spec) (names (staging_path spec)).
Proof. exists []. by rewrite app_nil_r. Qed.

Lemma inside_file p : safe_relative_path p = true →
  inside (staging_path spec) (names (staging_path spec /+ p)).
Proof. intros Hp. apply inside_append; [by apply safe_relative_not_absolute|by apply safe_names|apply inside_root]. Qed.

Lemma clean_file p : safe_relative_path p = true → clean_root (staging_path spec /+ p).
Proof.
  intros Hp. destruct Hclean as [Ha He]. pose proof (safe_relative_not_absolute p Hp) as Hr.
  split; [by apply is_absolute_append|]. unfold append_path. rewrite Hr.
  assert (p ≠ EmptyString) as Hne by (intros ->; done).
  assert (ends_with slash p = false) as Hp'.
  { destruct (ends_with slash p) eqn:E; [|done]. exfalso.
    pose proof (safe_relative_ne p Hp) as Hn. unfold safe_relative_path in Hp.
    apply andb_prop in Hp as [_ Hf]. rewrite forallb_forall in Hf.
    specialize (Hf EmptyString). unfold components in Hf. rewrite Hr, E in Hf. simpl in Hf.
    discriminate Hf. apply in_or_app. right. destruct (names p); [done|]. by left. }
  unfold ends_with in *. destruct (_ || _).
  - by rewrite last_byte_append.
  - rewrite last_byte_append by done. destruct p as [|c p]; [done|]. exact Hp'.
Qed.

Lemma Forall_removelast {A} (P : A → Prop) l : Forall P l → Forall P (removelast l).
Proof.
  induction 1 as [|x l Hx Hl IH]; [constructor|]. cbn [removelast]. destruct l; [constructor|by constructor].
Qed.

(** The loop over the parents never climbs above the staging root. *)
Lemma parents_up_inside fuel parent l :
  is_absolute parent = true → ends_with slash parent = false ∨ names parent = [] →
  inside (staging_path spec) (names parent) →
  parents_up fuel (staging_path spec) parent = Ok l →
  Forall (fun p => inside (staging_path spec) (names p)) l.
Proof.
  revert parent l. destruct Hclean as [Ha He].
  induction fuel as [|fuel IH]; intros parent l Hp Hs Hi; simpl;
    rewrite path_eqb_names by (try done; by left);
    (case_bool_decide as Hn; [by intros [= <-]|]); [done|].
  intros (rest & Hr & [= <-])%bind_ok. constructor; [done|].
  destruct Hi as (names_ & E & Hsafe).
  assert (names_ ≠ []) as Hne by (intros ->; by rewrite E, app_nil_r in Hn).
  assert (names parent ≠ []) as Hnp by (rewrite E; by destruct (names (staging_path spec)), names_).
  destruct Hs as [Hs|Hs]; [|done].
  destruct (parent_absolute parent Hp Hs) as (N1 & N2 & N3 & _).
  apply (IH _ _ N2 N3); [|exact Hr]. exists (removelast names_). rewrite N1, E, removelast_app by done.
  split; [done|by apply Forall_removelast].
Qed.

Lemma parents_below_inside p l : safe_relative_path p = true →
  parents_below (staging_path spec) (staging_path spec /+ p) = Ok l →
  Forall (fun p => inside (staging_path spec) (names p)) l.
Proof.
  intros Hp. destruct (clean_file p Hp) as [Ha He].
  destruct (parent_absolute _ Ha He) as (N1 & N2 & N3 & _).
  apply parents_up_inside; [done|done|]. rewrite N1.
  pose proof (safe_relative_ne p Hp) as Hne. rewrite names_append by (by apply safe_relative_not_absolute).
  exists (removelast (names p)). rewrite removelast_app by done. split; [done|by apply Forall_removelast, safe_names].
Qed.

Lemma insert_directory_elem p q l : q ∈ insert_directory p l → q = p ∨ q ∈ l.
Proof.
  induction l as [|x l IH]; simpl; [set_solver|]. destruct (deeper x p); set_solver.
Qed.

Lemma unique_paths_elem q l : q ∈ unique_paths l → q ∈ l.
Proof.
  induction l as [|x [|y l] IH]; simpl in *; [done|done|]. destruct (path_eqb x y); set_solver.
Qed.

Lemma removal_order_elem q l : q ∈ removal_order l → q ∈ l.
Proof.
  unfold removal_order. intros H%unique_paths_elem. revert H.
  induction l as [|x l IH]; simpl; [done|]. intros [->|H]%insert_directory_elem; [left|right; auto].
Qed.

Lemma quiet_verify_file P file f : keeps (adds P) (verify_recorded_file file f).
Proof. unfold verify_recorded_file. keeps_auto; quietly. Qed.

Lemma confine_verify_staging held : keeps (confining held) verify_staging_identity.
Proof. unfold verify_staging_identity. confine_auto; quietly. Qed.
#[local] Hint Resolve confine_verify_staging : eff.

Lemma confine_verify_recorded held : keeps (confining held) verify_recorded_staging_closure.
Proof.
  unfold verify_recorded_staging_closure, expect_recorded, list_tree.
  confine_auto; try quietly. apply keeps_acts_quiet, quiet_verify_file.
Qed.
#[local] Hint Resolve confine_verify_recorded : eff.

Lemma confine_remove_file held directories f : open = true → safe_relative_path (relative_path f) = true →
  keeps (acts held (confined spec open mover)) (remove_recorded_file (staging_path spec) directories f).
Proof.
  intros Ho Hf. unfold remove_recorded_file. keeps_auto; [apply keeps_acts_quiet, quiet_verify_file|].
  apply confine_remove. right. split; [done|by apply inside_file].
Qed.

Lemma removed_directories files directories w l w' :
  Forall (fun f => safe_relative_path (relative_path f) = true) files →
  Forall (fun p => inside (staging_path spec) (names p)) directories →
  fold_eff (remove_recorded_file (staging_path spec)) directories files w = (Ok l, w') →
  Forall (fun p => inside (staging_path spec) (names p)) l.
Proof.
  intros Hf Hd. apply (fold_eff_val _ (Forall (fun p => inside (staging_path spec) (names p)))); [done|].
  intros b x v b' v' Hx Hb. rewrite Forall_forall in Hf. unfold remove_recorded_file, mbind, M_bind.
  destruct (verify_recorded_file _ _ v) as [[[]|] v1]; [|done].
  destruct (remove _ v1) as [[ok|] v2]; [|done]. destruct (when _ _ v2) as [[[]|] v3]; [|done].
  unfold lift. destruct (parents_below _ _) as [parents|] eqn:E; [|done]. intros [= <- _].
  apply Forall_app. split; [done|]. eapply parents_below_inside; [by apply Hf|exact E].
Qed.

Lemma confine_fold_remove held files directories : open = true →
  Forall (fun f => safe_relative_path (relative_path f) = true) files →
  keeps (acts held (confined spec open mover)) (fold_eff (remove_recorded_file (staging_path spec)) directories files).
Proof.
  intros Ho Hf. revert directories. induction Hf as [|f files Hf _ IH]; intros directories; simpl; keeps_auto.
  by apply confine_remove_file.
Qed.

Lemma confine_remove_directories held l : open = true →
  Forall (fun p => inside (staging_path spec) (names p)) l →
  keeps (acts held (confined spec open mover)) (for_each l remove_recorded_directory).
Proof.
  intros Ho. induction 1 as [|p l Hp _ IH]; simpl; keeps_auto.
  unfold remove_recorded_directory. keeps_auto; [quietly|]. apply confine_remove. by right.
Qed.

Lemma confine_remove_closure held : keeps (confining held) remove_recorded_staging_closure.
Proof.
  unfold remove_recorded_staging_closure. apply confine_this. intros s Hs.
  destruct (retain_stream_cleanup_ s || retain_commit_cleanup_ s) eqn:Hl; [confine_auto|].
  assert (open = true) as Ho.
  { destruct open eqn:E; [done|]. apply orb_false_elim in Hl as [L1 L2].
    destruct (at_latch s Hs E); congruence. }
  confine_step; [auto with eff|]. rewrite (at_staging s Hs).
  apply (keeps_bind_val _ (Forall (fun p => inside (staging_path spec) (names p)))).
  - apply confine_host, confine_fold_remove; [done|by apply at_files].
  - intros [s1 w1] l [s2 w2]. unfold host, on_snd. simpl.
    destruct (fold_eff _ _ _ w1) as [r w3] eqn:E. intros [= -> -> ->].
    eapply removed_directories; [by apply (at_files s)|constructor|exact E].
  - intros l Hl'. confine_step; [|confine_auto].
    + apply confine_host, confine_remove_directories; [done|].
      apply Forall_forall. intros p Hp%removal_order_elem. by eapply Forall_forall in Hl'.
    + apply confine_remove. right. split; [done|apply inside_root].
Qed.
#[local] Hint Resolve confine_remove_closure : eff.

(** ** Staging *)

Lemma confine_make_directory held p : inside (staging_path spec) (names p) →
  keeps (acts held (confined spec open mover)) (create_directory p).
Proof.
  intros H. unfold create_directory, succeeded. keeps_auto; try quietly. apply keeps_effect_acts.
  intros d a' d' es ([i d1] & _ & [= _ _ <-])%bind_Some. by split; [constructor|].
Qed.

Lemma confine_ensure_parents held current l what : inside (staging_path spec) (names current) →
  Forall (fun c => is_absolute c = false ∧ Forall safe_name (names c)) l →
  keeps (acts held (confined spec open mover)) (ensure_parents current l what).
Proof.
  intros Hi Hl. revert current Hi. induction Hl as [|c l [Hc Hn] _ IH]; intros current Hi; simpl; [keeps_auto|].
  assert (inside (staging_path spec) (names (current /+ c))) as Hi' by (by apply inside_append).
  keeps_auto; try quietly. by apply confine_make_directory.
Qed.

Lemma relative_parents p : safe_relative_path p = true →
  Forall (fun c => is_absolute c = false ∧ Forall safe_name (names c)) (removelast (components p)).
Proof.
  intros Hp. apply Forall_removelast. unfold components. rewrite (safe_relative_not_absolute p Hp). cbn [app].
  apply Forall_app. split; [|destruct (_ && _); repeat constructor].
  eapply Forall_impl; [by apply safe_names|]. intros c Hc. pose proof Hc as [Hplain _].
  split; [by apply plain_not_absolute|]. rewrite names_of_plain by done. by constructor.
Qed.

Lemma confine_parents held p what : safe_relative_path p = true →
  keeps (acts held (confined spec open mover)) (ensure_parents (staging_path spec) (removelast (components p)) what).
Proof. intros Hp. apply confine_ensure_parents; [apply inside_root|by apply relative_parents]. Qed.

Lemma anchored_staged f s : safe_relative_path (relative_path f) = true → anchored s → anchored (add_staged f s).
Proof.
  intros Hf [H1 H2 H3 H4 H5]. split; try done. simpl. apply Forall_app. split; [done|by constructor].
Qed.

Lemma confine_stage_file held p bytes : keeps (confining held) (stage_file p bytes).
Proof.
  unfold stage_file. apply confine_this. intros s Hs.
  destruct (safe_relative_path p) eqn:Hp; [|rewrite orb_true_r; confine_auto].
  rewrite (at_staging s Hs). confine_auto.
  - by apply confine_parents.
  - apply confine_write_file. right. by apply inside_file.
  - by apply anchored_staged.
Qed.

Lemma anchored_latch s : anchored s → anchored (set_retain_stream true s) ∧ anchored (set_retain_commit true s).
Proof. intros [H1 H2 H3 H4 H5]. split; split; try done; intros _; [by left|by right]. Qed.

Lemma anchored_stream j s : anchored s → anchored (set_stream j s).
Proof. by intros []. Qed.

Lemma confine_stream_write fuel i data : keeps (confining (Some i)) (stream_write fuel i data).
Proof.
  revert data. induction fuel as [|fuel IH]; intros [|c data]; simpl; confine_auto; apply confine_write_some.
Qed.
#[local] Hint Resolve confine_stream_write : eff.

(** The file that a session has created is its own. *)
Lemma confine_created held {A} p (f : option N → act A) : inside (staging_path spec) (names p) →
  (∀ i, keeps (confining (Some i)) (f (Some i))) → keeps (confining held) (f None) →
  keeps (confining held) (host (create_exclusive p) ≫= f).
Proof.
  intros Hp Hs Hn [s w] Hx. pose proof (create_exclusive_event p w) as H. unfold host, on_snd, mbind, M_bind. cbn [fst snd] in *.
  destruct (create_exclusive p w) as [[[i|]|e] w1]; destruct H as [Hh Ht]; cbn [fst snd].
  - destruct (Hs i (s, w1) Hx) as (Ha & Hh' & es & E & F & O). cbn [fst snd] in *.
    destruct (f (Some i) (s, w1)) as [r [s2 w2]]. split; [done|]. split; [by etransitivity|].
    exists (es ++ [created (names p) i]). cbn [snd] in *. rewrite E, Ht, <- app_assoc.
    split; [done|]. split; [|by apply own_writes_created]. apply Forall_app. split; [done|]. constructor; [by right|done].
  - destruct (Hn (s, w1) Hx) as [Ha Hacts]. cbn [snd] in *. split; [done|]. etransitivity; [|exact Hacts].
    split; [done|]. exists []. done.
  - split; [done|]. split; [done|]. exists []. done.
Qed.

Lemma confine_stream_body held p n h b reader wb : safe_relative_path p = true →
  keeps (confining held) (stream_body p n h b reader wb).
Proof.
  intros Hp. unfold stream_body, stream_round, read_round, observe_last, output_identity.
  apply confine_this. intros s Hs. confine_step; [auto with eff|]. rewrite (at_staging s Hs).
  apply confine_created; [by apply inside_file|intros i|confine_auto].
  confine_auto; try quietly; solve [by apply anchored_stream|by apply anchored_staged].
Qed.

Lemma confine_stage_stream held p n h b reader src wb : keeps (confining held) (stage_file_stream p n h b reader src wb).
Proof.
  unfold stage_file_stream. apply confine_this. intros s Hs.
  destruct reader as [reader|]; [|confine_auto].
  destruct (stream_request_valid s p h b src wb) eqn:Hr; cbn [negb]; [|confine_auto].
  assert (safe_relative_path p = true) as Hp by (unfold stream_request_valid in Hr; by bool_hyps).
  confine_auto.
  - by apply anchored_latch.
  - by apply anchored_stream.
  - by apply anchored_stream.
  - rewrite (at_staging s0) by done. by apply confine_parents.
  - by apply confine_stream_body.
Qed.

Lemma confine_bind_source held d c : keeps (confining held) (bind_stream_source d c).
Proof.
  unfold bind_stream_source. confine_auto; try (by apply anchored_stream). by apply anchored_latch.
Qed.

(** ** The phases *)

Lemma confine_target_changed held : keeps (confining held) target_changed.
Proof. unfold target_changed. confine_auto; quietly. Qed.

Lemma confine_require_authority held : keeps (confining held) require_authority.
Proof. unfold require_authority. confine_auto. Qed.

Lemma confine_observe_closure held : keeps (confining held) observe_staged_commit_closure.
Proof. unfold observe_staged_commit_closure. confine_auto. apply keeps_acts_quiet, quiet_commit_closure. Qed.
#[local] Hint Resolve confine_target_changed confine_require_authority confine_observe_closure : eff.

Lemma confine_unchanged_closure held : keeps (confining held) require_unchanged_closure.
Proof. unfold require_unchanged_closure. confine_auto. Qed.

Lemma confine_note_recovery held : keeps (confining held) note_recovery.
Proof. unfold note_recovery. confine_auto. Qed.
#[local] Hint Resolve confine_unchanged_closure confine_note_recovery : eff.

Lemma confine_rename held : mover = true → required_commit_authority spec = legacy_observed →
  keeps (acts held (confined spec open mover)) (rename_directory_no_replace (staging_path spec) (target_root spec)).
Proof.
  intros Hm H. unfold rename_directory_no_replace, rename_no_replace, succeeded. keeps_auto.
  apply keeps_effect_acts. intros d a' d' es (d1 & _ & [= _ _ <-])%bind_Some. by split; [constructor|].
Qed.

(** The stronger requirement is refused before the move. *)
Lemma authority_never : required_commit_authority spec = staged_child_bound_v1 →
  ∀ x a y, anchored (fst x) →
    on_exception (require_authority;; require_unchanged_closure) note_recovery x ≠ (Ok a, y).
Proof.
  intros Hr x a y Hx. unfold on_exception, require_authority, mbind, M_bind, lift. simpl.
  rewrite (at_spec _ Hx), Hr. simpl. by destruct (note_recovery x) as [[[]|] ?].
Qed.

Lemma confine_commit_effect held : mover = true → keeps (confining held) commit_effect.
Proof.
  intros Hm. unfold commit_effect. apply confine_this. intros s Hs. rewrite (at_staging s Hs), (at_spec s Hs).
  destruct (required_commit_authority spec) eqn:Hr.
  - confine_auto; [by apply anchored_latch|by apply confine_rename].
  - destruct (negb _); [confine_auto|]. do 2 (confine_step; [auto with eff|]). confine_step; [confine_auto|].
    confine_step; [confine_auto; by apply anchored_latch|]. confine_step; [auto with eff|].
    apply confine_never; [confine_auto|]. by apply authority_never.
Qed.

Lemma anchored_closure closure s : anchored s → anchored (set_closure closure s).
Proof. by intros []. Qed.
#[local] Hint Resolve anchored_closure : eff.

Lemma confine_phases held : keeps (confining held) mark_staged ∧ keeps (confining held) mark_verified ∧
  keeps (confining held) mark_committed ∧ keeps (confining held) mark_completed ∧ keeps (confining held) mark_recovery_required ∧
  keeps (confining held) resume_committing ∧ keeps (confining held) rollback.
Proof.
  unfold mark_staged, mark_verified, mark_committed, mark_completed, mark_recovery_required,
    resume_committing, rollback, target_not_visible.
  conjuncts; confine_auto; quietly.
Qed.

Lemma confine_perform held c : (moves c = true → mover = true) → keeps (confining held) (perform c).
Proof.
  intros Hm. pose proof (confine_phases held) as (H1 & H2 & H3 & H4 & H5 & H6 & H7).
  pose proof (confine_commit_effect held) as H8. destruct c; simpl in *; try done.
  - apply confine_stage_file.
  - confine_auto. apply confine_stage_stream.
  - apply confine_bind_source.
  - by apply H8, Hm.
  - specialize (H8 (Hm eq_refl)). unfold commit. confine_auto.
Qed.

Lemma confine_after held calls x : mover = true → confining held x (after calls x).
Proof.
  intros Hm. revert x. induction calls as [|c calls IH]; intros x; simpl; [reflexivity|].
  etransitivity; [by apply (confine_perform held c)|apply IH].
Qed.

Lemma confine_begin_body held : keeps (confining held) begin_body.
Proof.
  unfold begin_body, verify_roots_for_plan, volume_identity, create_staging_root.
  confine_auto; try quietly.
  - match goal with H : anchored _ |- _ => by destruct H end.
  - rewrite (at_staging _ ltac:(eassumption)). apply confine_make_directory, inside_root.
  - match goal with H : anchored _ |- _ => by destruct H end.
  - destruct (StreamJournal.present _); [by apply anchored_stream|done].
Qed.

End Confined.

(** ** Clients *)

Lemma identifier_no_slash id : RecordIo.valid_identifier id = true → ends_with slash id = false ∧ id ≠ EmptyString.
Proof.
  unfold RecordIo.valid_identifier. intros [[Hne _]%andb_prop Hb]%andb_prop. split; [|by intros ->].
  unfold ends_with. clear Hne. induction id as [|c id IH]; [done|]. cbn [forall_bytes] in Hb.
  apply andb_prop in Hb as [Hc Hb]. destruct id as [|d id]; [|by apply IH].
  cbn [last_byte]. destruct (Ascii.eqb_spec c slash) as [->|]; done.
Qed.

Lemma initial_clean spec injector stream w s w' :
  initial_session spec injector stream w = (Ok s, w') →
  clean_root (staging_path (spec_ s)) ∧ w' = w.
Proof.
  unfold initial_session. destruct (spec_valid spec) eqn:Hv; [|done]. cbn [negb].
  unfold normalized_inspection_spec, iso8601_now, now, mbind, M_bind, get, ret.
  assert (∀ p v, match absolute_normal p v with
    (Ok r, v') => is_absolute r = true ∧ v' = v | (Throw _, v') => v' = v end) as Hn.
  { intros p v. unfold absolute_normal, StableFile.absolute, mbind, M_bind, get, ret.
    destruct (_ || _) eqn:E; [done|]. apply orb_false_elim in E as [_ E]. by apply negb_false_iff in E. }
  pose proof (Hn (staging_parent spec) w) as H1.
  destruct (absolute_normal (staging_parent spec) w) as [[p1|] w1]; [|done]. destruct H1 as [A1 ->].
  pose proof (Hn (target_root spec) w) as H2.
  destruct (absolute_normal (target_root spec) w) as [[p2|] w2]; [|done]. destruct H2 as [_ ->].
  pose proof (Hn (state_root spec) w) as H3.
  destruct (absolute_normal (state_root spec) w) as [[p3|] w3]; [|done]. destruct H3 as [_ ->].
  pose proof (Hn (audit_root spec) w) as H4.
  destruct (absolute_normal (audit_root spec) w) as [[p4|] w4]; [|done]. destruct H4 as [_ ->].
  intros [= <- <-]. split; [|done]. unfold spec_valid in Hv. apply andb_prop in Hv as [[[Hid _]%andb_prop _]%andb_prop _].
  destruct (identifier_no_slash _ Hid) as [He Hne]. unfold staging_path. simpl. split.
  - by apply is_absolute_append.
  - assert (∀ x, ends_with slash (x +:+ transaction_id spec) = false) as Hx
      by (intros x; unfold ends_with in *; by rewrite last_byte_append).
    unfold append_path. cbn [is_absolute String.append]. destruct (_ || _).
    + change (ends_with slash (p1 +:+ (".usk-stage-" +:+ transaction_id spec)) = false).
      rewrite <- append_assoc. apply Hx.
    + change (ends_with slash (p1 +:+ ("/.usk-stage-" +:+ transaction_id spec)) = false).
      rewrite <- append_assoc. apply Hx.
Qed.

Lemma initial_anchored spec injector stream w s w' :
  initial_session spec injector stream w = (Ok s, w') → anchored (spec_ s) true s.
Proof.
  intros [[_ _ _ _ H1 H2 H3] _]%initial_ok. by split.
Qed.

(** The constructor, whatever it returns. *)
Lemma confine_begin spec injector stream w s0 w0 :
  initial_session spec injector stream w = (Ok s0, w0) →
  let '(r, w1) := begin_session spec injector stream w in
  acts None (confined (spec_ s0) true true) w w1 ∧
  match r with Ok s => anchored (spec_ s0) true s | Throw _ => True end.
Proof.
  intros E. pose proof (initial_anchored _ _ _ _ _ _ E) as Ha.
  destruct (initial_clean _ _ _ _ _ _ E) as [_ Ht].
  pose proof (confine_begin_body (spec_ s0) true true None (s0, w0) Ha) as [H1 H2].
  unfold begin_session, mbind, M_bind. rewrite E. unfold constructing.
  destruct (begin_body (s0, w0)) as [[[]|e] [s1 w1]]; simpl in *;
    by subst w0.
Qed.

(** C2 Confinement, for every client, host, interference, failure and death of
    the process: constructing a session and calling its member functions in any
    order creates, publishes, unlinks, removes and moves nothing except the
    journal and its temporaries, names at or below the transaction's own staging
    root that hold no dot component below it, and the move of the staging root to
    the target, which only a session without the stronger commit requirement
    makes; and it writes bytes only to files that it has created itself.  From the
    first call after which a cleanup latch is closed, nothing is removed but
    temporaries. *)
Theorem session_confined input injector stream w calls more :
  match initial_session input injector stream w with
  | (Ok s0, _) =>
    let '(r, w1) := begin_session input injector stream w in
    acts None (confined (spec_ s0) true true) w w1 ∧
    match r with
    | Ok s =>
      let x := after calls (s, w1) in
      acts None (confined (spec_ s0) true true) w1 (snd x) ∧
      (latched (fst x) → acts None (confined (spec_ s0) false true) (snd x) (snd (after more x)))
    | Throw _ => True
    end
  | (Throw _, w0) => trace w0 = trace w
  end.
Proof.
  destruct (initial_session input injector stream w) as [[s0|e] w0] eqn:E.
  - destruct (initial_clean _ _ _ _ _ _ E) as [Hc _].
    pose proof (confine_begin _ _ _ _ _ _ E) as H.
    destruct (begin_session input injector stream w) as [[s|e] w1]; destruct H as [H1 H2]; [|done].
    split; [done|]. pose proof (confine_after (spec_ s0) true true Hc None calls (s, w1) eq_refl H2) as [A1 A2].
    split; [done|]. intros Hl. apply (confine_after (spec_ s0) false true Hc None more); [done|].
    destruct A1 as [B1 B2 B3 B4 B5]. by split.
  - revert E. unfold initial_session. destruct (negb _); [by intros [= _ <-]|].
    unfold normalized_inspection_spec, iso8601_now, now, absolute_normal, StableFile.absolute, mbind, M_bind, get, ret.
    repeat (destruct (_ || _); [by intros [= _ <-]|]). done.
Qed.

End SessionConfined.
