(* ===== verification/SessionDurable.v ===== *)
(** What is durable when: on a host where nothing else acts, though any call may
    fail and the process may die at any point, a member function that returns
    has published the journal of the object as it now is, and the move to the
    target is made only after a journal that says so. *)

From Stdlib Require Import Ascii String NArith ZArith Lia.
From stdpp Require Import base list strings gmap sets relations.
From S2P Require Import Prelude Sha256 StdMap Json Path PathFacts Effects World RecordIo.
From S2P Require Import RecordFacts StreamJournal Journal SessionHost Session SessionSteps.
From S2P Require Import SessionFacts SessionConfined.

Module SessionDurable.
Import Path PathFacts Effects World Journal SessionHost Session SessionSteps SessionFacts SessionConfined.

(** ** Undisturbed file systems *)

Definition any {S} : S → Prop := fun _ => True.

Lemma triple_any {S A} (P : S → Prop) (m : M S A) : triple P m (fun _ => any) any.
Proof. intros s _. by destruct (m s) as [[]]. Qed.

Lemma triple_step (P : world → Prop) : (∀ w, P w → P (tick w)) → triple P step (fun _ => P) any.
Proof. intros H w Hw. unfold step. destruct (dies w (steps w)); [done|]. by apply H. Qed.

(** Facts about the disk and the history. *)
Definition stable (P : fs → list event → Prop) (w : world) : Prop := calm w ∧ P (disk w) (trace w).

Lemma stable_tick P w : stable P w → stable P (tick w).
Proof. intros [Hc HP]. split; [done|]. simpl. by rewrite Hc. Qed.

Lemma triple_observe {A} (f : fs → option A) P :
  triple (stable P) (observe f)
    (fun a w => stable P w ∧ (∀ x, a = Some x → f (disk w) = Some x)) any.
Proof.
  eapply triple_bind; [apply triple_step, stable_tick|]. intros failed w Hw.
  unfold mbind, M_bind, get, ret. destruct failed; [done|]. split; [done|]. by intros.
Qed.

(** An effect either did not happen or happened to the disk as it was. *)
Lemma triple_effect {A} (f : fs → option (A * fs * list event)) P (Q : option A → fs → list event → Prop) :
  (∀ d t, P d t → Q None d t) →
  (∀ d t a d' es, P d t → f d = Some (a, d', es) → Q (Some a) d' (es ++ t)) →
  triple (stable P) (effect f) (fun a => stable (Q a)) any.
Proof.
  intros H1 H2. eapply triple_bind; [apply triple_step, stable_tick|]. intros failed w [Hc Hw].
  unfold mbind, M_bind, get, put, ret. destruct failed; [by split; [|apply H1]|].
  destruct (f (disk w)) as [[[a d'] es]|] eqn:E; [|by split; [|apply H1]].
  split; [exact Hc|]. simpl. by eapply H2.
Qed.

Lemma triple_now (P : world → Prop) : triple P now (fun _ => P) any.
Proof. intros w Hw. exact Hw. Qed.

Lemma triple_fsync P : triple (stable P) fsync (fun _ => stable P) any.
Proof.
  eapply triple_bind; [apply triple_step, stable_tick|]. intros failed. by apply triple_ret.
Qed.

(** ** Writing a file *)

(** A name holds a file with these contents. *)
Definition holds (n : name) (i : N) (content : string) (d : fs) : Prop :=
  entries d !! n = Some i ∧ ∃ v t, inodes d !! i = Some (mk_inode v (regular content) t).

Lemma create_holds d n t i d' : create d n (regular EmptyString) t = Some (i, d') → holds n i EmptyString d'.
Proof.
  unfold create. destruct (entries d !! n); [done|]. destruct (lookup_inode d (parent_name n)) as [[j [v k m]]|]; [|done].
  destruct k; try done. destruct n as [|x n]; [done|]. intros [= <- <-]. split; simpl; [by rewrite lookup_insert_eq|].
  rewrite lookup_insert_eq. eauto.
Qed.

Lemma append_holds n d i content data t d' : holds n i content d → append_content d i data t = Some d' →
  holds n i (content +:+ data) d'.
Proof.
  intros (He & v & m & Hi). unfold append_content. rewrite Hi. intros [= <-]. split; [done|]. simpl.
  rewrite lookup_insert_eq. eauto.
Qed.

Lemma holds_content n i content d : holds n i content d → content_of d n = content.
Proof. intros (He & v & t & Hi). unfold content_of, lookup_inode. rewrite He. simpl. rewrite Hi. done. Qed.

Lemma triple_create p P : triple (stable P) (create_exclusive p)
  (fun h => stable (fun d _ => ∀ i, h = Some i → holds (names p) i EmptyString d)) any.
Proof.
  unfold create_exclusive. eapply triple_bind; [apply triple_now|]. intros t. apply triple_effect; [done|].
  intros d tr a d' es HP ([i d1] & Hc & [= <- <- <-])%bind_Some. intros j [= <-]. by eapply create_holds.
Qed.

Lemma triple_write_loop n i content fuel data what :
  triple (stable (fun d _ => holds n i content d)) (RecordIo.write_loop fuel i data what)
    (fun _ => stable (fun d _ => holds n i (content +:+ data) d)) any.
Proof.
  revert content data. induction fuel as [|fuel IH]; intros content [|c data]; simpl;
    try (apply triple_ret; intros w [Hc Hh]; by rewrite append_nil_r); [by apply triple_raise|].
  eapply (triple_bind _ _ _ (fun r => stable (fun d _ => ∀ k, r = Some k →
    holds n i (content +:+ str_take k (String c data)) d))).
  - intros w Hw. unfold write_some, now, mbind, M_bind, get, ret.
    revert w Hw. intros w Hw.
    pose proof (triple_effect (fun d => d0 ← append_content d i
      (str_take (Nat.max 1 (Nat.min (N.to_nat (accepts w (steps w))) (String.length (String c data))))
         (String c data)) (clock w (steps w));
      Some (Nat.max 1 (Nat.min (N.to_nat (accepts w (steps w))) (String.length (String c data))), d0,
        [wrote i (str_take (Nat.max 1 (Nat.min (N.to_nat (accepts w (steps w)))
           (String.length (String c data)))) (String c data))]))
      (fun d _ => holds n i content d)
      (fun r d _ => ∀ k, r = Some k → holds n i (content +:+ str_take k (String c data)) d)) as H.
    apply H; [done| |exact Hw].
    intros d t a d' es Hh (d1 & Ha & [= <- <- <-])%bind_Some. intros k [= <-]. by eapply append_holds.
  - intros [k|]; [|by apply triple_fail].
    eapply triple_conseq; [apply (IH (content +:+ str_take k (String c data)) (str_drop k (String c data)))| | |done].
    + intros w [Hc Hh]. split; [done|]. by apply Hh.
    + intros _ w [Hc Hh]. split; [done|]. by rewrite append_assoc, str_take_drop in Hh.
Qed.

Lemma triple_write_file p data P : triple (stable P) (write_new_durable_file p data)
  (fun _ => stable (fun d _ => ∃ i, holds (names p) i data d)) any.
Proof.
  unfold write_new_durable_file. eapply triple_bind; [apply triple_create|]. intros [i|]; [|by apply triple_fail].
  eapply triple_bind.
  { eapply triple_conseq; [apply (triple_write_loop (names p) i EmptyString)| |done|done].
    intros w [Hc Hh]. split; [done|]. by apply Hh. }
  intros []. eapply triple_bind; [apply triple_fsync|]. intros []; [|by apply triple_fail].
  apply triple_ret. intros w [Hc Hh]. split; [done|]. eauto.
Qed.

(** ** Publishing the journal *)

(** The newest publication under a name. *)
Fixpoint last_published (n : name) (es : list event) : option string :=
  match es with
  | [] => None
  | published m content :: es => if bool_decide (m = n) then Some content else last_published n es
  | _ :: es => last_published n es
  end.

Lemma triple_link source target content :
  triple (stable (fun d _ => ∃ i, holds (names source) i content d)) (link source target)
    (fun ok => stable (fun _ t => ok = true → last_published (names target) t = Some content)) any.
Proof.
  unfold link. eapply triple_bind.
  - apply (triple_effect _ _ (fun r _ t => r = Some tt → last_published (names target) t = Some content)); [done|].
    intros d t a d' es [i Hi] (d1 & Hl & [= <- <- <-])%bind_Some _. simpl.
    rewrite bool_decide_eq_true_2 by done. by rewrite (holds_content _ _ _ _ Hi).
  - intros r. apply triple_ret. intros w [Hc Hr]. split; [done|]. destruct r as [[]|]; [auto|done].
Qed.

Lemma triple_rename source target content :
  triple (stable (fun d _ => ∃ i, holds (names source) i content d)) (rename source target)
    (fun ok => stable (fun _ t => ok = true → last_published (names target) t = Some content)) any.
Proof.
  unfold rename, succeeded. eapply triple_bind.
  - apply (triple_effect _ _ (fun r _ t => r = Some tt → last_published (names target) t = Some content)); [done|].
    intros d t a d' es [i Hi] (d1 & Hl & [= <- <- <-])%bind_Some _. simpl.
    rewrite bool_decide_eq_true_2 by done. by rewrite (holds_content _ _ _ _ Hi).
  - intros r. apply triple_ret. intros w [Hc Hr]. split; [done|]. destruct r as [[]|]; [auto|done].
Qed.

Lemma triple_unlink p n content :
  triple (stable (fun _ t => last_published n t = Some content)) (unlink p)
    (fun _ => stable (fun _ t => last_published n t = Some content)) any.
Proof.
  unfold unlink, succeeded. eapply triple_bind.
  - apply (triple_effect _ _ (fun _ _ t => last_published n t = Some content)); [done|].
    by intros d t a d' es Hp (d1 & Hl & [= <- <- <-])%bind_Some.
  - intros r. by apply triple_ret.
Qed.

(** What only observes keeps what was published. *)
Lemma triple_quiet {A} (m : io A) n content : keeps (adds (fun _ => False)) m →
  triple (stable (fun _ t => last_published n t = Some content)) m
    (fun _ => stable (fun _ t => last_published n t = Some content)) any.
Proof.
  intros Hm. intros w [Hc Hp]. specialize (Hm w). destruct (m w) as [[a|e] w']; [|done]. simpl in Hm.
  split; [by eapply calm_adds|]. destruct Hm as (_ & es & -> & F). destruct es as [|e es]; [done|].
  by inversion F.
Qed.

Lemma triple_publish temporary journal first content :
  triple (stable (fun d _ => ∃ i, holds (names temporary) i content d)) (publish_journal temporary journal first)
    (fun _ => stable (fun _ t => last_published (names journal) t = Some content)) any.
Proof.
  unfold publish_journal.
  eapply (triple_bind _ _ _ (fun _ => stable (fun _ t => last_published (names journal) t = Some content))).
  - destruct first.
    + unfold and_m. eapply (triple_bind _ _ _ (fun ok => stable (fun _ t => ok = true →
        last_published (names journal) t = Some content))).
      * eapply triple_bind; [apply triple_link|]. intros []; [|by apply triple_ret].
        eapply triple_conseq; [apply (triple_unlink temporary (names journal) content)| | |done].
        -- intros w [Hc Hp]. split; [done|auto].
        -- intros ok w [Hc Hp]. by split.
      * intros []; [|by apply triple_fail]. apply triple_ret. intros w [Hc Hp]. split; [done|]. auto.
    + eapply triple_bind; [apply triple_observe|]. intros [[[? [? [] ?]] links]|]; try by apply triple_fail.
      destruct (negb _); [by apply triple_fail|]. eapply triple_bind.
      { eapply triple_conseq; [apply triple_rename|by intros w [? _]|done|done]. }
      intros []; [|by apply triple_fail]. apply triple_ret. intros w [Hc Hp]. split; [done|]. auto.
  - intros []. apply triple_quiet. unfold fsync_directory. keeps_auto; [apply (quiet_calls _ (parent_path journal))|].
    apply (quiet_handles _ 0).
Qed.

Lemma triple_atomic_write journal content sequence first P :
  triple (stable P) (atomic_write_journal journal content sequence first)
    (fun _ => stable (fun _ t => last_published (names journal) t = Some content)) any.
Proof.
  unfold atomic_write_journal. eapply triple_bind; [apply triple_write_file|]. intros [].
  eapply triple_on_exception; [apply triple_publish|apply triple_any|done].
Qed.

(** ** The journal of the object *)

(** The newest journal published is the rendering of the object. *)
Definition durable (x : TransactionSession * world) : Prop :=
  calm (snd x) ∧ ∃ text, render_journal (content (fst x)) = Ok text ∧
    last_published (names (journal_path_ (fst x))) (trace (snd x)) = Some text.

Definition calmly (x : TransactionSession * world) : Prop := calm (snd x).

(** Neither the object nor the history changes. *)
Definition observing (x y : TransactionSession * world) : Prop :=
  fst x = fst y ∧ adds (fun _ => False) (snd x) (snd y).

#[global] Instance observing_preorder : PreOrder observing.
Proof.
  split; [intros x; split; [done|reflexivity]|]. intros x y z [E1 A1] [E2 A2].
  split; [congruence|by etransitivity].
Qed.

Lemma observing_host {A} (m : io A) : keeps (adds (fun _ => False)) m → keeps observing (host m).
Proof.
  intros Hm [s w]. specialize (Hm w). unfold host, on_snd. simpl in *. destruct (m w) as [r w']. done.
Qed.

Lemma observing_this : keeps observing this.
Proof. unfold this. keeps_auto. Qed.
#[local] Hint Resolve observing_this : eff.

Lemma no_events (w w' : world) : adds (fun _ => False) w w' → trace w' = trace w.
Proof. intros (_ & es & -> & F). destruct es; [done|]. by inversion F. Qed.

Lemma durable_observing x y : durable x → observing x y → durable y.
Proof.
  intros [Hc (text & Hr & Hp)] [E A]. split; [by eapply calm_adds|]. exists text.
  rewrite <- E, (no_events _ _ A). done.
Qed.

Lemma triple_durable {A} (m : act A) : keeps observing m → triple durable m (fun _ => durable) any.
Proof.
  intros Hm. eapply triple_conseq; [eapply (triple_keeps observing durable durable); [done|by apply durable_observing]|done|done|done].
Qed.

Lemma observing_notify_here point : keeps observing (notify_here point).
Proof.
  unfold notify_here, notify. keeps_auto. apply observing_host, quiet_inject.
Qed.

Lemma observing_notify state point : keeps observing (notify state point).
Proof. unfold notify. keeps_auto. apply observing_host, quiet_inject. Qed.

Lemma triple_persist_journal sequence first : triple calmly (persist_journal sequence first) (fun _ => durable) any.
Proof.
  intros [s w] Hc. unfold calmly in Hc. simpl in Hc. unfold persist_journal, mbind, M_bind, this, get, ret, lift. simpl.
  destruct (render_journal (content s)) as [text|] eqn:Hr; [|done].
  pose proof (triple_atomic_write (journal_path_ s) text sequence first (fun _ _ => True) w (conj Hc I)) as H.
  unfold host, on_snd. simpl. destruct (atomic_write_journal _ _ _ _ w) as [[[]|e] w']; [|done].
  destruct H as [Hc' Hp]. split; [done|]. eauto.
Qed.

Lemma calmly_observing x y : calmly x → observing x y → calmly y.
Proof. intros Hc [_ A]. by eapply calm_adds. Qed.

Lemma triple_calmly {A} (m : act A) : keeps observing m → triple calmly m (fun _ => calmly) any.
Proof.
  intros Hm. eapply triple_conseq; [eapply (triple_keeps observing calmly calmly); [done|by apply calmly_observing]|done|done|done].
Qed.

Lemma observing_journal_directory : keeps observing require_journal_directory.
Proof. unfold require_journal_directory. keeps_auto. apply observing_host, quiet_directory_identity. Qed.

Lemma triple_persist_snapshot : triple calmly persist_snapshot (fun _ => durable) any.
Proof.
  unfold persist_snapshot. eapply triple_bind; [apply triple_calmly; auto with eff|]. intros s.
  destruct (_ =? _)%nat; [by apply triple_fail|].
  eapply triple_bind; [apply triple_calmly, observing_journal_directory|]. intros [].
  apply triple_persist_journal.
Qed.

Lemma calmly_update f : triple calmly (update f) (fun _ => calmly) any.
Proof. intros x Hx. exact Hx. Qed.

(** A transition that returns is durable. *)
Lemma triple_persist_transition next : triple calmly (persist_transition next) (fun _ => durable) any.
Proof.
  unfold persist_transition. eapply triple_bind; [apply triple_calmly; auto with eff|]. intros s.
  destruct (negb _); [by apply triple_raise|].
  eapply triple_bind; [apply triple_calmly, observing_notify|]. intros [].
  eapply triple_bind; [apply triple_calmly, observing_host, (quiet_handles _ 0)|]. intros recorded.
  eapply triple_bind; [apply calmly_update|]. intros [].
  eapply triple_bind.
  - eapply triple_on_exception; [|apply triple_any|done].
    eapply triple_bind; [apply triple_calmly; auto with eff|]. intros s'.
    eapply triple_bind; [apply triple_calmly; keeps_auto; apply observing_journal_directory|]. intros [].
    apply triple_persist_journal.
  - intros []. apply triple_durable, observing_notify.
Qed.

(** ** Every call stays on its host *)

(** No tree moves. *)
Definition unmoved (e : event) : Prop := match e with moved _ _ => False | _ => True end.

Definition on_host (w w' : world) : Prop := adds unmoved w w'.

#[global] Instance on_host_preorder : PreOrder on_host.
Proof. unfold on_host. typeclasses eauto. Qed.

(** The effect of a single call. *)
Ltac one_event :=
  apply keeps_effect_adds;
  intros ? ? ? ? (y & _ & E)%bind_Some; try destruct y; injection E as _ _ <-; by constructor.
#[export] Hint Extern 1 (keeps _ (effect _)) => one_event : eff.

Lemma on_host_observe {A} (f : fs → option A) : keeps on_host (observe f).
Proof. apply keeps_observe_adds. Qed.

Lemma on_host_step : keeps on_host step.
Proof. apply keeps_step_adds. Qed.

Lemma on_host_quiet p : keeps on_host (require_safe_directory p) ∧ keeps on_host (directory_identity p) ∧
  keeps on_host (StableFile.open_stable p) ∧ keeps on_host (exists_ p) ∧ keeps on_host (is_directory p) ∧
  keeps on_host (reparse_or_symlink p).
Proof.
  pose proof (quiet_calls unmoved p) as (H1 & H2 & H3 & _).
  split; [apply quiet_safe_directory|]. split; [apply quiet_directory_identity|]. split; [apply quiet_open|]. done.
Qed.

Lemma on_host_stable f : keeps on_host (StableFile.sha256_hex f) ∧ keeps on_host (StableFile.verify_unchanged f).
Proof. split; [apply quiet_hash|apply quiet_verify]. Qed.

#[export] Hint Resolve on_host_observe on_host_step : eff.

Ltac hosted := keeps_auto; first
  [apply on_host_quiet | apply on_host_stable | apply quiet_commit_closure | apply quiet_inject].

Lemma on_host_write_loop fuel i data what : keeps on_host (RecordIo.write_loop fuel i data what).
Proof. revert data. induction fuel; intros []; simpl; unfold write_some, now; keeps_auto. Qed.

Lemma on_host_write_file p data : keeps on_host (write_new_durable_file p data).
Proof. unfold write_new_durable_file, create_exclusive, now, fsync. keeps_auto. apply on_host_write_loop. Qed.
#[export] Hint Resolve on_host_write_file : eff.

Lemma on_host_atomic_write journal text k first : keeps on_host (atomic_write_journal journal text k first).
Proof.
  unfold atomic_write_journal, publish_journal, fsync_directory, link, unlink, rename, remove, succeeded,
    lstat, lstat_links, fsync. keeps_auto.
Qed.

Lemma on_host_parents current l what : keeps on_host (ensure_parents current l what).
Proof.
  revert current. induction l as [|c l IH]; intros current; simpl; [keeps_auto|].
  unfold create_directory, succeeded, now. hosted.
Qed.

Lemma on_host_remove_file staging l f : keeps on_host (remove_recorded_file staging l f).
Proof. unfold remove_recorded_file, verify_recorded_file, remove, succeeded. hosted. Qed.

Lemma on_host_remove_directory p : keeps on_host (remove_recorded_directory p).
Proof. unfold remove_recorded_directory, remove, succeeded. hosted. Qed.
#[export] Hint Resolve on_host_atomic_write on_host_parents on_host_remove_file on_host_remove_directory : eff.

(** The same for member functions. *)
Definition hosting (x y : TransactionSession * world) : Prop := on_host (snd x) (snd y).

#[global] Instance hosting_preorder : PreOrder hosting.
Proof. split; [intros x; unfold hosting; reflexivity|]. intros x y z. unfold hosting. by etransitivity. Qed.

Lemma hosting_host {A} (m : io A) : keeps on_host m → keeps hosting (host m).
Proof. intros Hm [s w]. specialize (Hm w). unfold host, on_snd. simpl in *. by destruct (m w). Qed.

Lemma hosting_this : keeps hosting this.
Proof. unfold this. keeps_auto. Qed.

Lemma hosting_update f : keeps hosting (update f).
Proof. intros x. unfold hosting. simpl. reflexivity. Qed.
#[export] Hint Resolve hosting_this hosting_update : eff.

Lemma hosting_notify_here point : keeps hosting (notify_here point).
Proof. unfold notify_here, notify. keeps_auto. apply hosting_host, quiet_inject. Qed.
#[export] Hint Resolve hosting_notify_here : eff.

Ltac hosted_member := repeat (solve [eauto with eff typeclass_instances] ||
  match goal with |- keeps _ (host _) => apply hosting_host | _ => keeps_step end);
  try first [apply on_host_quiet | apply on_host_stable | apply quiet_commit_closure | apply quiet_inject].

Lemma hosting_persist sequence first : keeps hosting (persist_journal sequence first).
Proof. unfold persist_journal. hosted_member. Qed.

Lemma hosting_journal_directory : keeps hosting require_journal_directory.
Proof. unfold require_journal_directory. hosted_member. Qed.
#[export] Hint Resolve hosting_persist hosting_journal_directory : eff.

Lemma hosting_persist_snapshot : keeps hosting persist_snapshot.
Proof. unfold persist_snapshot. hosted_member. Qed.

Lemma hosting_persist_transition next : keeps hosting (persist_transition next).
Proof. unfold persist_transition, notify, iso8601_now, now. hosted_member. Qed.

Lemma hosting_verify_staging : keeps hosting verify_staging_identity.
Proof. unfold verify_staging_identity. hosted_member. Qed.
#[export] Hint Resolve hosting_persist_snapshot hosting_persist_transition hosting_verify_staging : eff.

Lemma hosting_remove_closure : keeps hosting remove_recorded_staging_closure.
Proof.
  unfold remove_recorded_staging_closure, verify_recorded_staging_closure, expect_recorded, list_tree,
    list_recursive, verify_recorded_file, remove, succeeded. hosted_member.
Qed.

Lemma hosting_closure : keeps hosting observe_staged_commit_closure.
Proof. unfold observe_staged_commit_closure. hosted_member. Qed.

Lemma hosting_target_changed : keeps hosting target_changed.
Proof. unfold target_changed. hosted_member. Qed.
#[export] Hint Resolve hosting_remove_closure hosting_closure hosting_target_changed : eff.

Lemma triple_hosting {A} (m : act A) : keeps hosting m → triple calmly m (fun _ => calmly) any.
Proof.
  intros Hm x Hx. specialize (Hm x). destruct (m x) as [[a|e] y]; [|done]. by eapply calm_adds.
Qed.

End SessionDurable.
