(* ===== verification/SessionOrder.v ===== *)
(** The order of effects: a member function that returns has published the
    journal of the object as it now is, and the move to the target is made only
    after a journal that announces it. *)

From Stdlib Require Import Ascii String NArith ZArith Lia.
From stdpp Require Import base list strings gmap sets relations.
From S2P Require Import Prelude Sha256 StdMap Json Path PathFacts Effects World RecordIo RecordFacts.
From S2P Require Import StreamJournal Journal SessionHost Session SessionSteps SessionFacts.
From S2P Require Import SessionConfined SessionDurable.

Module SessionOrder.
Import Path PathFacts Effects World Journal SessionHost Session SessionSteps SessionFacts SessionConfined SessionDurable.

(** ** Durable on return *)

(** Everything before the last snapshot only has to stay on the host. *)
Lemma calm_step {A B} (m : act A) (f : A → act B) : keeps hosting m →
  (∀ a, triple calmly (f a) (fun _ => durable) any) → triple calmly (m ≫= f) (fun _ => durable) any.
Proof. intros Hm Hf. eapply triple_bind; [by apply triple_hosting|exact Hf]. Qed.

Lemma durable_step {A B} (m : act A) (f : A → act B) : keeps observing m →
  (∀ a, triple durable (f a) (fun _ => durable) any) → triple durable (m ≫= f) (fun _ => durable) any.
Proof. intros Hm Hf. eapply triple_bind; [by apply triple_durable|exact Hf]. Qed.

(** The last snapshot or transition. *)
Lemma last_snapshot {B} (f : unit → act B) : keeps observing (f tt) →
  triple calmly (persist_snapshot ≫= f) (fun _ => durable) any.
Proof. intros Hf. eapply triple_bind; [apply triple_persist_snapshot|]. intros []. by apply triple_durable. Qed.

Lemma last_transition {B} next (f : unit → act B) : (triple durable (f tt) (fun _ => durable) any) →
  triple calmly (persist_transition next ≫= f) (fun _ => durable) any.
Proof. intros Hf. eapply triple_bind; [apply triple_persist_transition|]. by intros []. Qed.

#[local] Hint Resolve observing_this observing_notify_here : eff.

Ltac refuses := first [apply triple_fail; done | apply triple_raise; done].
Ltac settle :=
  repeat first
    [ refuses
    | apply last_snapshot; solve [keeps_auto]
    | apply triple_persist_transition
    | apply triple_persist_snapshot
    | apply calm_step; [solve [hosted_member]|intros ?]
    | match goal with
      | |- triple _ (if ?c then _ else _) _ _ => destruct c
      | |- triple _ (match ?x with _ => _ end) _ _ => destruct x
      | |- triple _ (let '_ := ?x in _) _ _ => destruct x
      end ].

Lemma durable_stage_file p bytes : triple calmly (stage_file p bytes) (fun _ => durable) any.
Proof. unfold stage_file. settle. Qed.

Lemma durable_bind_source d c : triple calmly (bind_stream_source d c) (fun _ => durable) any.
Proof. unfold bind_stream_source. settle. Qed.

Lemma hosting_stream_write fuel i data : keeps hosting (stream_write fuel i data).
Proof.
  revert data. induction fuel as [|fuel IH]; intros [|c data]; simpl; unfold write_some, now; hosted_member.
Qed.
#[local] Hint Resolve hosting_stream_write : eff.

Lemma durable_stream_body p n h b reader wb :
  triple calmly (stream_body p n h b reader wb) (fun _ => durable) any.
Proof.
  unfold stream_body, stream_round, read_round, observe_last, output_identity, create_exclusive, fstat, fsync, now.
  settle.
Qed.

Lemma durable_stage_stream p n h b reader src wb :
  triple calmly (stage_file_stream p n h b reader src wb) (fun _ => durable) any.
Proof.
  unfold stage_file_stream. settle.
  eapply triple_on_exception; [apply durable_stream_body|apply triple_any|done].
Qed.

Lemma durable_phases : triple calmly mark_staged (fun _ => durable) any ∧
  triple calmly mark_verified (fun _ => durable) any ∧ triple calmly mark_committed (fun _ => durable) any ∧
  triple calmly mark_completed (fun _ => durable) any ∧ triple calmly mark_recovery_required (fun _ => durable) any ∧
  triple calmly resume_committing (fun _ => durable) any ∧ triple calmly rollback (fun _ => durable) any.
Proof.
  unfold mark_staged, mark_verified, mark_committed, mark_completed, mark_recovery_required,
    resume_committing, rollback, require_authority, target_not_visible.
  split; [settle|]. split; [settle|]. split; [settle|]. split; [settle|]. split; [settle|]. split; settle.
Qed.

(** ** The move *)

(** The newest journal published says that the commit has begun and that the
    staged content is kept. *)
Definition announced (journal : name) (t : list event) : Prop :=
  ∃ c text, render_journal c = Ok text ∧ Journal.current_state c = "committing" ∧ Journal.retain_commit c = true ∧
    last_published journal t = Some text.

(** Every move among the events after [t0] follows such a journal. *)
Definition moves_announced (journal : name) (t0 t : list event) : Prop :=
  ∃ es, t = es ++ t0 ∧
    ∀ post source target pre, es = post ++ moved source target :: pre → announced journal (pre ++ t0).

Lemma moves_announced_refl j t : moves_announced j t t.
Proof. exists []. split; [done|]. intros [|e post] ? ? ? E; discriminate E. Qed.

Lemma moves_announced_trans j a b c :
  moves_announced j a b → moves_announced j b c → moves_announced j a c.
Proof.
  intros (e1 & -> & H1) (e2 & -> & H2). exists (e2 ++ e1). split; [by rewrite app_assoc|].
  intros post source target pre E. apply app_eq_inv in E as [(k & E1 & E2)|(k & E1 & E2)].
  - destruct k as [|e k]; simpl in E2.
    + by apply (H1 [] source target pre).
    + injection E2 as <- ->. rewrite <- app_assoc. by apply (H2 post source target k).
  - apply (H1 k source target pre). exact E2.
Qed.

Lemma unmoved_announced j w w' : on_host w w' → moves_announced j (trace w) (trace w').
Proof.
  intros (_ & es & -> & F). exists es. split; [done|]. intros post source target pre ->.
  apply Forall_app in F as [_ F]. by inversion F.
Qed.

Lemma triple_and {S A} (P P' : S → Prop) (m : M S A) Q Q' (E E' : S → Prop) :
  triple P m Q E → triple P' m Q' E' →
  triple (fun s => P s ∧ P' s) m (fun a s => Q a s ∧ Q' a s) (fun s => E s ∧ E' s).
Proof. intros H H' s [Hs Hs']. specialize (H s Hs). specialize (H' s Hs'). by destruct (m s) as [[a|e] s']. Qed.

Section Order.
Context (journal : path) (t0 : list event).

(** The calls since [t0] were calm and announced every move. *)
Record orderly (x : TransactionSession * world) : Prop := {
  still_calm : calmly x;
  same_journal : journal_path_ (fst x) = journal;
  all_announced : moves_announced (names journal) t0 (trace (snd x)) }.

Lemma orderly_step {A} (m : act A) : keeps hosting m → keeps evolving m → keeps (fun x y => orderly x → orderly y) m.
Proof.
  intros Hh He x [Hc Hj Ha]. specialize (Hh x). specialize (He x).
  apply evolves_grows in He as [_ (_ & E & _) _ _ _ _]. split.
  - by eapply calm_adds.
  - congruence.
  - eapply moves_announced_trans; [exact Ha|by apply unmoved_announced].
Qed.

Lemma triple_orderly {A} (m : act A) : keeps hosting m → keeps evolving m → triple orderly m (fun _ => orderly) orderly.
Proof. intros Hh He. eapply triple_keeps; [by apply orderly_step|]. auto. Qed.

(** The latch that keeps the staged content is closed. *)
Definition ready (x : TransactionSession * world) : Prop := orderly x ∧ retain_commit_cleanup_ (fst x) = true.

Lemma triple_ready {A} (m : act A) : keeps hosting m → keeps evolving m → triple ready m (fun _ => ready) orderly.
Proof.
  intros Hh He x [Ho Hr]. pose proof (orderly_step m Hh He x Ho) as Ho'. specialize (He x).
  apply evolves_grows in He as [_ _ _ _ _ L]. destruct (m x) as [[a|e] y]; [|done]. split; [done|by apply L].
Qed.

Definition announcing (x : TransactionSession * world) : Prop :=
  ready x ∧ durable x ∧ current_state_ (fst x) = "committing".

Lemma announce : triple ready (persist_transition "committing") (fun _ => announcing) orderly.
Proof.
  intros x Hx. assert (calmly x) as Hc by (by destruct Hx as [[? _ _] _]).
  pose proof (triple_ready (persist_transition "committing") (hosting_persist_transition _)
    (keeps_persist_transition _) x Hx) as H1.
  pose proof (triple_persist_transition "committing" x Hc) as H2.
  pose proof (persist_transition_cases "committing" (fst x) x eq_refl) as H3.
  destruct (persist_transition "committing" x) as [[a|e] y]; [|done].
  split; [done|]. split; [done|]. destruct H3 as (_ & recorded & ->). done.
Qed.

Lemma announcing_step {A} (m : act A) : keeps observing m → triple announcing m (fun _ => announcing) orderly.
Proof.
  intros Hm x ([Ho Hr] & Hd & Hs). specialize (Hm x).
  assert (orderly (snd (m x))) as Ho'.
  { destruct Hm as [E A']. destruct Ho as [Hc Hj Ha]. split; [by eapply calm_adds|congruence|].
    by rewrite (no_events _ _ A'). }
  destruct (m x) as [[a|e] y]; [|done]. simpl in *. destruct Hm as [E A'].
  split; [split; [done|congruence]|]. split; [|congruence]. by eapply durable_observing.
Qed.

Lemma announced_move source target :
  triple announcing (host (rename_directory_no_replace source target)) (fun _ x => orderly x ∧ durable x) orderly.
Proof.
  intros [s w] ([[Hc Hj Ha] Hr] & [_ (text & Ht & Hp)] & Hs). simpl in *.
  assert (announced (names journal) (trace w)) as Hann.
  { exists (content s), text. split; [done|]. split; [done|]. split; [done|]. by rewrite <- Hj. }
  unfold host, on_snd, rename_directory_no_replace, rename_no_replace, succeeded, effect, step, mbind, M_bind,
    get, put, ret. simpl.
  destruct (dies w (steps w)); [by split|]. destruct (fails w (steps w)); [by split|]. simpl.
  match goal with |- context [move_tree ?d ?a ?b] => destruct (move_tree d a b) as [d'|]; [|by split] end.
  simpl. assert (moves_announced (names journal) t0 (moved (names source) (names target) :: trace w)) as Ha'.
  { destruct Ha as (es & E & H). exists (moved (names source) (names target) :: es). split; [by rewrite E|].
    intros [|e post] a b pre E'; injection E' as E1 E2; [subst|].
    - by rewrite <- E.
    - by apply (H post a b pre). }
  split; [by split|]. split; [done|]. exists text. done.
Qed.


Lemma observing_target_changed : keeps observing target_changed.
Proof.
  unfold target_changed. keeps_auto; apply observing_host; [apply quiet_directory_identity|apply quiet_calls].
Qed.

Lemma observing_verify_staging : keeps observing verify_staging_identity.
Proof. unfold verify_staging_identity. keeps_auto; apply observing_host, quiet_directory_identity. Qed.

Lemma hosting_unchanged : keeps hosting (on_exception (require_authority;; require_unchanged_closure) note_recovery).
Proof. unfold require_authority, require_unchanged_closure, note_recovery. hosted_member. Qed.

Lemma evolving_unchanged : keeps evolving (on_exception (require_authority;; require_unchanged_closure) note_recovery).
Proof.
  destruct keeps_closure as (_ & _ & H1 & H2). pose proof keeps_note_recovery. keeps_auto.
Qed.

Lemma hosting_note_recovery : keeps hosting note_recovery.
Proof. unfold note_recovery. hosted_member. Qed.

(** A refusal after the target was seen changed never returns. *)
Lemma orderly_refusal (P Q : TransactionSession * world → Prop) changed next what :
  (∀ x, P x → Q x) → (∀ x, P x → orderly x) →
  triple P (when changed (persist_transition next;; fail what)) (fun _ => Q) orderly.
Proof.
  intros HQ HP. destruct changed; [|by apply triple_ret].
  apply (triple_bind _ _ _ (fun _ => orderly)); [|intros []; by apply triple_fail].
  eapply triple_conseq; [apply (triple_orderly (persist_transition next))|exact HP|done|done];
    [apply hosting_persist_transition|apply keeps_persist_transition].
Qed.

Lemma orderly_observing {A} (m : act A) : keeps observing m → triple orderly m (fun _ => orderly) orderly.
Proof.
  intros Hm. eapply triple_keeps; [exact Hm|]. intros x y [Hc Hj Ha] [E A'].
  split; [by eapply calm_adds|congruence|]. by rewrite (no_events _ _ A').
Qed.

Lemma latch : triple orderly (update (set_retain_commit true)) (fun _ => ready) orderly.
Proof. intros x [Hc Hj Ha]. by split. Qed.

Lemma orderly_commit_effect : triple orderly commit_effect (fun _ x => orderly x ∧ durable x) orderly.
Proof.
  unfold commit_effect. eapply triple_bind; [apply orderly_observing, observing_this|]. intros s.
  destruct (negb _); [by apply triple_fail|].
  eapply triple_bind; [apply orderly_observing, observing_verify_staging|]. intros [].
  eapply triple_bind; [apply orderly_observing, observing_target_changed|]. intros changed.
  eapply triple_bind; [by apply orderly_refusal|]. intros [].
  eapply triple_bind; [apply latch|]. intros [].
  eapply triple_bind; [apply triple_ready; [apply hosting_persist_snapshot|apply keeps_persist_snapshot]|]. intros [].
  eapply triple_bind; [apply triple_ready; [apply hosting_unchanged|apply evolving_unchanged]|]. intros [].
  eapply triple_bind; [apply triple_ready; [apply hosting_notify_here|apply keeps_notify_here]|]. intros [].
  eapply triple_bind; [apply announce|]. intros [].
  eapply triple_bind; [apply announcing_step, observing_verify_staging|]. intros [].
  eapply triple_bind; [apply announcing_step, observing_target_changed|]. intros changed'.
  eapply triple_bind; [apply (orderly_refusal announcing announcing); [done|by intros x [[? _] _]]|]. intros [].
  eapply triple_bind.
  { eapply triple_on_exception; [apply announced_move| |done].
    apply triple_orderly; [apply hosting_note_recovery|apply keeps_note_recovery]. }
  intros []. eapply triple_conseq; [apply triple_and; [apply (orderly_observing (notify_here _))|
    apply (triple_durable (notify_here _))]; apply observing_notify_here|done|done|by intros x []].
Qed.

(** A call that moves nothing. *)
Lemma orderly_durable {A} (m : act A) : keeps hosting m → keeps evolving m →
  triple calmly m (fun _ => durable) any → triple orderly m (fun _ x => orderly x ∧ durable x) orderly.
Proof.
  intros Hh He Hd. eapply triple_conseq;
    [apply triple_and; [apply (triple_orderly m Hh He)|exact Hd]| |done|by intros x []].
  intros x Hx. split; [done|]. by destruct Hx.
Qed.

Lemma orderly_commit : keeps hosting mark_committed → keeps hosting mark_completed →
  triple orderly commit (fun _ x => orderly x ∧ durable x) orderly.
Proof.
  intros H1 H2. destruct durable_phases as (_ & _ & D1 & D2 & _). unfold commit.
  eapply triple_bind; [apply orderly_commit_effect|]. intros []. eapply triple_bind.
  - eapply triple_conseq; [apply (orderly_durable mark_committed H1 keeps_mark_committed D1)|by intros x []|done|done].
  - intros []. eapply triple_conseq;
      [apply (orderly_durable mark_completed H2 keeps_mark_completed D2)|by intros x []|done|done].
Qed.

End Order.

(** ** Every call *)

Lemma hosting_stage_stream p n h b reader src wb : keeps hosting (stage_file_stream p n h b reader src wb).
Proof.
  unfold stage_file_stream, stream_body, stream_round, read_round, observe_last, output_identity,
    create_exclusive, fstat, fsync, now.
  hosted_member.
Qed.

Lemma hosting_phases : keeps hosting mark_staged ∧ keeps hosting mark_verified ∧ keeps hosting mark_committed ∧
  keeps hosting mark_completed ∧ keeps hosting mark_recovery_required ∧ keeps hosting resume_committing ∧
  keeps hosting rollback.
Proof.
  unfold mark_staged, mark_verified, mark_committed, mark_completed, mark_recovery_required,
    resume_committing, rollback, require_authority, target_not_visible.
  split; [hosted_member|]. split; [hosted_member|]. split; [hosted_member|]. split; [hosted_member|].
  split; [hosted_member|]. split; hosted_member.
Qed.

Lemma orderly_perform journal t0 c :
  triple (orderly journal t0) (perform c) (fun _ x => orderly journal t0 x ∧ durable x) (orderly journal t0).
Proof.
  destruct hosting_phases as (H1 & H2 & H3 & H4 & H5 & H6 & H7).
  destruct durable_phases as (D1 & D2 & D3 & D4 & D5 & D6 & D7).
  destruct c; simpl;
    try (apply orderly_durable; [done|apply (perform_evolves MarkStaged) || apply (perform_evolves MarkVerified) ||
      apply (perform_evolves MarkCommitted) || apply (perform_evolves MarkCompleted) ||
      apply (perform_evolves MarkRecoveryRequired) || apply (perform_evolves ResumeCommitting) ||
      apply (perform_evolves Rollback)|done]).
  - apply orderly_durable; [unfold stage_file; hosted_member|apply keeps_stage_file|apply durable_stage_file].
  - eapply triple_bind; [apply orderly_durable; [apply hosting_stage_stream|apply keeps_stage_file_stream|
      apply durable_stage_stream]|]. intros r. by apply triple_ret.
  - apply orderly_durable; [unfold bind_stream_source; hosted_member|apply keeps_bind_stream_source|apply durable_bind_source].
  - apply orderly_commit_effect.
  - by apply orderly_commit.
Qed.

Lemma orderly_after journal t0 calls x : orderly journal t0 x → orderly journal t0 (after calls x).
Proof.
  revert x. induction calls as [|c calls IH]; intros x Hx; simpl; [done|]. apply IH.
  pose proof (orderly_perform journal t0 c x Hx) as H. destruct (perform c x) as [[a|e] y]; [apply H|exact H].
Qed.

(** ** The constructor *)

Lemma hosting_verify_roots : keeps hosting verify_roots_for_plan.
Proof. unfold verify_roots_for_plan, volume_identity. hosted_member. Qed.
#[local] Hint Resolve hosting_verify_roots : eff.

Lemma durable_begin : triple calmly begin_body (fun _ => durable) any.
Proof. unfold begin_body, create_staging_root, create_directory, succeeded, now. settle. Qed.

Lemma begin_durable spec injector stream w s w' : calm w →
  begin_session spec injector stream w = (Ok s, w') → durable (s, w') ∧ orderly (journal_path_ s) (trace w') (s, w').
Proof.
  intros Hc. unfold begin_session, mbind, M_bind.
  destruct (initial_session spec injector stream w) as [[s0|] w0] eqn:E; [|done].
  destruct (initial_clean _ _ _ _ _ _ E) as [_ ->]. unfold constructing.
  pose proof (durable_begin (s0, w) Hc) as H.
  destruct (begin_body (s0, w)) as [[[]|] [s1 w1]]; [|done]. intros [= <- <-]. split; [done|].
  destruct H as [Hc' _]. split; [done|done|apply moves_announced_refl].
Qed.

(** C3 Durable on return.  On a host where nothing else acts, but where every call
    may fail and the process may die at any point: a session that the
    constructor or a member function returns has just published its journal, and
    the text published is the rendering of the object exactly as it now is. *)
Theorem durable_on_return input injector stream d t n dies fails accepts clock cwd calls c :
  match begin_session input injector stream (mk_world d t n (fun _ d => d) dies fails accepts clock cwd) with
  | (Ok s, w) =>
    durable (s, w) ∧
    match perform c (after calls (s, w)) with
    | (Ok _, x) => durable x
    | (Throw _, _) => True
    end
  | (Throw _, _) => True
  end.
Proof.
  destruct (begin_session _ _ _ _) as [[s|e] w] eqn:E; [|done].
  apply begin_durable in E as [Hd Ho]; [|done]. split; [done|].
  pose proof (orderly_perform _ _ c _ (orderly_after _ _ calls _ Ho)) as H.
  destruct (perform c (after calls (s, w))) as [[a|e] x]; [apply H|done].
Qed.

(** C4 The commit is announced.  On the same hosts, through any sequence of calls,
    returning or throwing: whenever the staging root is moved to the target, the
    newest journal published before says that the transaction is committing and
    that its staged content is kept, so a crash at any point finds the intent. *)
Theorem commit_announced input injector stream d t n dies fails accepts clock cwd calls :
  match begin_session input injector stream (mk_world d t n (fun _ d => d) dies fails accepts clock cwd) with
  | (Ok s, w) =>
    moves_announced (names (journal_path_ s)) (trace w) (trace (snd (after calls (s, w))))
  | (Throw _, _) => True
  end.
Proof.
  destruct (begin_session _ _ _ _) as [[s|e] w] eqn:E; [|done].
  apply begin_durable in E as [_ Ho]; [|done]. by destruct (orderly_after _ _ calls _ Ho).
Qed.

End SessionOrder.
