(* ===== verification/SessionLifecycle.v ===== *)
(** The lifecycle a client sees: an abstract table of what each call does to the
    recorded states, on return and on an exception, and the proof that the
    session refines it on every host. *)

From Stdlib Require Import Ascii String NArith ZArith Lia.
From stdpp Require Import base list strings gmap sets relations.
From S2P Require Import Prelude Sha256 StdMap Json Path Effects World RecordIo StreamJournal.
From S2P Require Import Journal SessionHost Session SessionSteps SessionFacts.

Module SessionLifecycle.
Import Path Effects World Journal SessionHost Session SessionSteps SessionFacts.

(** ** The abstract lifecycle *)

(** The states from which a call can return. *)
Definition starts (c : call) (state : string) : bool :=
  match c with
  | Stage _ _ | StageStream _ _ _ _ _ _ _ | BindStreamSource _ _ | MarkStaged => String.eqb state "staging"
  | MarkVerified => String.eqb state "staged"
  | CommitEffect | Commit => String.eqb state "verified"
  | MarkCommitted => String.eqb state "committing"
  | MarkCompleted => String.eqb state "committed"
  | MarkRecoveryRequired => any_of state ["committing"; "committed"]
  | ResumeCommitting => String.eqb state "recovery_required"
  | Rollback => any_of state ["staging"; "staged"; "verified"; "committing"; "recovery_required"]
  end.

(** The states a call that returns has recorded. *)
Definition records (c : call) (state : string) : list string :=
  match c with
  | Stage _ _ | StageStream _ _ _ _ _ _ _ | BindStreamSource _ _ => []
  | MarkStaged => ["staged"]
  | MarkVerified => ["verified"]
  | CommitEffect => ["committing"]
  | MarkCommitted => ["committed"]
  | MarkCompleted => ["completed"]
  | MarkRecoveryRequired => ["recovery_required"]
  | ResumeCommitting => ["committing"]
  | Commit => ["committing"; "committed"; "completed"]
  | Rollback => if String.eqb state "recovery_required" then ["rolled_back"] else ["recovery_required"; "rolled_back"]
  end.

(** The states a call that throws, or dies, may have recorded. *)
Definition leaves (c : call) (state : string) : list (list string) :=
  match c with
  | Stage _ _ | BindStreamSource _ _ => [[]]
  | StageStream _ _ _ _ _ _ _ => [[]; ["recovery_required"]]
  | CommitEffect =>
    [[]; ["refused"]; ["recovery_required"]; ["committing"]; ["committing"; "recovery_required"]]
  | Commit =>
    [[]; ["refused"]; ["recovery_required"]; ["committing"]; ["committing"; "recovery_required"];
     ["committing"; "committed"]; ["committing"; "committed"; "completed"]]
  | Rollback =>
    if String.eqb state "recovery_required" then [[]; ["rolled_back"]]
    else [[]; ["recovery_required"]; ["recovery_required"; "rolled_back"]]
  | c => [[]; records c state]
  end.

(** The object has recorded the states [l]. *)
Definition recorded_from (s : TransactionSession) (l : list string) (s' : TransactionSession) : Prop :=
  states s' = states s ++ l ∧ current_state_ s' = default (current_state_ s) (last l).

(** ** Walking through a member function *)

(** Neither the transitions nor the current state change. *)
Definition same_life (x y : TransactionSession * world) : Prop :=
  transitions_ (fst x) = transitions_ (fst y) ∧ current_state_ (fst x) = current_state_ (fst y).

#[global] Instance same_life_preorder : PreOrder same_life.
Proof. split; [done|]. intros x y z [] []. split; congruence. Qed.

Lemma life_fixed {A} (m : act A) : keeps fixed m → keeps same_life m.
Proof. intros H x. specialize (H x). unfold fixed in H. unfold same_life. by rewrite H. Qed.

Lemma life_host {A} (m : io A) : keeps same_life (host m).
Proof. apply life_fixed, fixed_host. Qed.

Lemma life_update f : (∀ s, transitions_ (f s) = transitions_ s) → (∀ s, current_state_ (f s) = current_state_ s) →
  keeps same_life (update f).
Proof. intros H1 H2 x. split; simpl; by rewrite ?H1, ?H2. Qed.

Lemma life_basic : keeps same_life this ∧ keeps same_life persist_snapshot ∧ (∀ p, keeps same_life (notify_here p)) ∧
  keeps same_life verify_staging_identity ∧ keeps same_life target_changed ∧
  keeps same_life observe_staged_commit_closure ∧ keeps same_life require_authority ∧
  keeps same_life require_unchanged_closure ∧ keeps same_life remove_recorded_staging_closure.
Proof.
  pose proof fixed_remove_recorded.
  repeat match goal with |- _ ∧ _ => apply conj end; intros; apply life_fixed; auto with eff.
Qed.

Section Walk.
Context (l : list string) (st : string) (W : list (list string)).

(** The word [w] has been recorded since [l]. *)
Definition along (w : list string) (x : TransactionSession * world) : Prop :=
  states (fst x) = l ++ w ∧ current_state_ (fst x) = default st (last w).

Definition left_at (x : TransactionSession * world) : Prop := ∃ w, w ∈ W ∧ along w x.

Lemma along_same {A} (m : act A) w : keeps same_life m → w ∈ W → triple (along w) m (fun _ => along w) left_at.
Proof.
  intros Hm Hw x [Hs Hc]. destruct (Hm x) as [Et Ec]. unfold along, states in *.
  destruct (m x) as [[a|e] y]; simpl in *; [split; congruence|]. exists w. split; [done|split]; unfold states; congruence.
Qed.

Lemma pass {A B} (m : act A) (f : A → act B) w Q : keeps same_life m → w ∈ W →
  (∀ a, triple (along w) (f a) Q left_at) → triple (along w) (m ≫= f) Q left_at.
Proof. intros Hm Hw Hf. eapply triple_bind; [by apply along_same|exact Hf]. Qed.

Lemma pass_this {B} (f : TransactionSession → act B) w Q :
  (∀ s, current_state_ s = default st (last w) → triple (along w) (f s) Q left_at) →
  triple (along w) (this ≫= f) Q left_at.
Proof. intros Hf x Hx. destruct Hx as [Hs Hc] eqn:E. by apply (Hf (fst x) Hc). Qed.

Lemma refused_at {A} what w Q : w ∈ W → triple (along w) (fail (A := A) what) Q left_at.
Proof. intros Hw. apply triple_fail. intros x Hx. by exists w. Qed.

(** A transition extends the word, or leaves it. *)
Lemma record next w : w ∈ W → w ++ [next] ∈ W →
  triple (along w) (persist_transition next) (fun _ => along (w ++ [next])) left_at.
Proof.
  intros Hw Hn x [Hs Hc]. pose proof (persist_transition_cases next (fst x) x eq_refl) as H.
  assert (∀ s', transition_of next (fst x) s' → ∀ v, along (w ++ [next]) (s', v)) as Hstep.
  { intros s' (_ & recorded & ->) v. unfold along, states in *. simpl.
    by rewrite map_app, Hs, <- app_assoc, last_snoc. }
  destruct (persist_transition next x) as [[a|e] [s' v]]; simpl in *; [by apply Hstep|].
  destruct H as [->|H]; [exists w; split; [done|]; by split|]. exists (w ++ [next]). split; [done|]. by apply Hstep.
Qed.

Lemma record_then {B} next (f : unit → act B) w Q : w ∈ W → w ++ [next] ∈ W →
  triple (along (w ++ [next])) (f tt) Q left_at → triple (along w) (persist_transition next ≫= f) Q left_at.
Proof. intros H1 H2 Hf. eapply triple_bind; [by apply record|]. by intros []. Qed.

(** [try { m } catch (...) { note_recovery; throw; }]. *)
Lemma noted {A} (m : act A) w Q : w ∈ W → w ++ ["recovery_required"] ∈ W → triple (along w) m Q (along w) →
  triple (along w) (on_exception m note_recovery) Q left_at.
Proof.
  intros H1 H2 Hm. eapply triple_on_exception; [exact Hm| |intros x Hx; by exists w].
  intros x Hx. pose proof (record "recovery_required" w H1 H2 x Hx) as H.
  unfold note_recovery, ignore_errors, otherwise.
  destruct (persist_transition "recovery_required" x) as [[a|e] y]; [by exists (w ++ ["recovery_required"])|].
  by destruct (catchable e).
Qed.

Lemma along_kept {A} (m : act A) w : keeps same_life m → triple (along w) m (fun _ => along w) (along w).
Proof.
  intros Hm. eapply triple_keeps; [exact Hm|]. intros x y [Hs Hc] [Et Ec]. unfold along, states in *.
  split; congruence.
Qed.

End Walk.

(** ** The calls *)

#[local] Hint Resolve life_host : eff.
#[local] Hint Extern 1 (keeps same_life _) => apply life_basic : eff.
#[local] Hint Extern 1 (keeps same_life (update _)) => apply life_update; done : eff.

Lemma life_stream_write fuel i data : keeps same_life (stream_write fuel i data).
Proof. revert data. induction fuel; intros []; simpl; keeps_auto. Qed.
#[local] Hint Resolve life_stream_write : eff.

Lemma life_stream_body p n h b reader wb : keeps same_life (stream_body p n h b reader wb).
Proof. unfold stream_body, stream_round, read_round, observe_last. keeps_auto. Qed.

(** What a call does, as a triple over its abstract effect. *)
Definition refines (c : call) : Prop := ∀ l st,
  triple (along l st []) (perform c) (fun _ x => starts c st = true ∧ along l st (records c st) x)
    (left_at l st (leaves c st)).

Ltac word := simpl; set_solver.
Ltac walk_step :=
  match goal with
  | |- triple _ (fail _) _ _ => apply refused_at; word
  | |- triple _ (this ≫= _) _ _ => apply pass_this; intros ? ?
  | |- triple _ (persist_transition _ ≫= _) _ _ => apply record_then; [word|word|]
  | |- triple _ (_ ≫= _) _ _ => apply pass; [solve [keeps_auto]|word|intros ?]
  end.
Ltac walk := repeat walk_step.

(** The last transition of a call, and a call that records nothing more. *)
Lemma record_last l st W next w (Q : unit → TransactionSession * world → Prop) : w ∈ W → w ++ [next] ∈ W →
  (∀ x, along l st (w ++ [next]) x → Q tt x) → triple (along l st w) (persist_transition next) Q (left_at l st W).
Proof. intros H1 H2 HQ. eapply triple_conseq; [apply (record l st W next w H1 H2)|done| |done]. by intros []. Qed.

Lemma end_same {A} l st W (m : act A) w Q : keeps same_life m → w ∈ W →
  (∀ a x, along l st w x → Q a x) → triple (along l st w) m Q (left_at l st W).
Proof. intros Hm Hw HQ. eapply triple_conseq; [apply (along_same l st W m w Hm Hw)|done|exact HQ|done]. Qed.

Lemma refines_stage p bytes : refines (Stage p bytes).
Proof.
  intros l st. simpl. unfold stage_file. apply pass_this. intros s Hs. simpl in Hs. rewrite Hs.
  destruct (String.eqb st "staging"); simpl; [|apply refused_at; word].
  destruct (negb _); [walk|]. destruct (duplicated _ _); walk. apply end_same; [auto with eff|word|done].
Qed.

Lemma refines_bind_source d c : refines (BindStreamSource d c).
Proof.
  intros l st. simpl. unfold bind_stream_source. apply pass_this. intros s Hs. simpl in Hs. rewrite Hs.
  destruct (String.eqb st "staging"); simpl; [|apply refused_at; word].
  destruct (_ || _); walk. apply end_same; [auto with eff|word|done].
Qed.

Lemma refines_stage_stream p n h b reader src wb : refines (StageStream p n h b reader src wb).
Proof.
  intros l st. simpl. unfold stage_file_stream.
  apply (triple_bind _ _ _ (fun _ x => String.eqb st "staging" = true ∧ along l st [] x)); [|intros r; by apply triple_ret].
  apply pass_this. intros s Hs. simpl in Hs.
  destruct reader as [reader|]; [|walk]. unfold stream_request_valid. rewrite Hs.
  destruct (String.eqb st "staging"); simpl; [|apply refused_at; word].
  destruct (negb _); [walk|]. destruct (duplicated _ _); [walk|]. walk. destruct (_ || _); [walk|]. walk.
  apply noted; [word|word|]. eapply triple_conseq; [apply along_kept, life_stream_body|done|done|done].
Qed.

(** [if (bad) throw]. *)
Lemma required {B} l st W w (bad : bool) what (f : unit → act B) Q : w ∈ W →
  (bad = false → triple (along l st w) (f tt) Q (left_at l st W)) →
  triple (along l st w) (when bad (fail what) ≫= f) Q (left_at l st W).
Proof. intros Hw Hf. destruct bad; intros x Hx; [by exists w|by apply (Hf eq_refl)]. Qed.

(** A guard on the state that the first operand of [||] decides. *)
Lemma guarded {B} l st W w (b : bool) (m : act bool) (f : bool → act B) Q : keeps same_life m → w ∈ W →
  (b = true → triple (along l st w) (f true) Q (left_at l st W)) →
  (b = false → ∀ a, triple (along l st w) (f a) Q (left_at l st W)) →
  triple (along l st w) (or_m (ret b) m ≫= f) Q (left_at l st W).
Proof.
  intros Hm Hw H1 H2. destruct b.
  - intros x Hx. by apply (H1 eq_refl x).
  - apply pass; [keeps_auto|done|by apply H2].
Qed.

Lemma life_visible s : keeps same_life (and_m (ret (negb (maintenance_finalization_ s))) (host (target_not_visible s))).
Proof. keeps_auto. Qed.
#[local] Hint Resolve life_visible : eff.

Ltac open_call H := intros l st; simpl; apply pass_this; intros s H; simpl in H; rewrite ?H.

Lemma refines_mark_staged : refines MarkStaged.
Proof.
  unfold refines. simpl. unfold mark_staged. open_call Hs.
  destruct (String.eqb st "staging"); simpl; [|apply refused_at; word].
  destruct (_ || _); walk. apply record_last; [word|word|done].
Qed.

Lemma refines_mark_verified : refines MarkVerified.
Proof.
  unfold refines. simpl. unfold mark_verified. open_call Hs.
  destruct (String.eqb st "staged"); simpl; [|apply refused_at; word].
  walk. apply record_last; [word|word|done].
Qed.

Lemma refines_mark_committed : refines MarkCommitted.
Proof.
  unfold refines. simpl. unfold mark_committed. intros l st. walk_step. apply pass_this. intros s Hs. simpl in Hs.
  rewrite Hs. apply guarded; [auto with eff|word| |].
  - intros _. apply required; [word|done].
  - intros Hst%negb_false_iff bad. walk. apply record_last; [word|word|done].
Qed.

Lemma refines_resume_committing : refines ResumeCommitting.
Proof.
  unfold refines. simpl. unfold resume_committing. intros l st. walk_step. apply pass_this. intros s Hs. simpl in Hs.
  rewrite Hs. apply guarded; [auto with eff|word| |].
  - intros _. apply required; [word|done].
  - intros Hst%negb_false_iff bad. walk. apply record_last; [word|word|done].
Qed.

Lemma refines_mark_completed : refines MarkCompleted.
Proof.
  unfold refines. simpl. unfold mark_completed. intros l st. walk_step. apply pass_this. intros s Hs. simpl in Hs.
  rewrite Hs. apply required; [word|]. intros Hst%negb_false_iff. apply record_last; [word|word|done].
Qed.

Lemma refines_mark_recovery : refines MarkRecoveryRequired.
Proof.
  unfold refines. simpl. unfold mark_recovery_required. open_call Hs.
  apply required; [word|]. intros Hst%negb_false_iff. apply record_last; [word|word|done].
Qed.

Lemma refines_commit_effect : refines CommitEffect.
Proof.
  unfold refines. simpl. unfold commit_effect. open_call Hs.
  destruct (String.eqb st "verified"); simpl; [|apply refused_at; word].
  do 2 walk_step. eapply triple_bind.
  { apply (triple_when _ _ _ (along l st [])); [|done]. intros _. apply record_then; [word|word|].
    apply refused_at. word. }
  intros []. do 2 walk_step. eapply triple_bind.
  { apply noted; [word|word|]. apply along_kept. keeps_auto. }
  intros []. do 4 walk_step. simpl app. eapply triple_bind.
  { apply (triple_when _ _ _ (along l st ["committing"])); [|done]. intros _. apply record_then; [word|word|].
    apply refused_at. word. }
  intros []. eapply triple_bind.
  { apply noted; [word|word|]. apply along_kept. keeps_auto. }
  intros []. apply end_same; [auto with eff|word|done].
Qed.

Lemma refines_rollback : refines Rollback.
Proof.
  unfold refines. simpl. unfold rollback. open_call Hs.
  apply required; [destruct (String.eqb st _); word|]. intros Hst%negb_false_iff. rewrite Hst.
  destruct (String.eqb_spec st "recovery_required") as [->|]; simpl.
  - walk. apply record_last; [word|word|done].
  - walk. apply record_last; [word|word|done].
Qed.

(** Words compose. *)
Lemma along_shift l st w v x : along (l ++ w) (default st (last w)) v x ↔ along l st (w ++ v) x.
Proof.
  unfold along. rewrite <- app_assoc, last_app. by destruct (last v).
Qed.

Lemma then_call {A B} l st W w c (m : act A) (f : A → act B) Q :
  triple (along (l ++ w) (default st (last w)) []) m
    (fun _ x => starts c (default st (last w)) = true ∧
       along (l ++ w) (default st (last w)) (records c (default st (last w))) x)
    (left_at (l ++ w) (default st (last w)) (leaves c (default st (last w)))) →
  Forall (fun v => w ++ v ∈ W) (leaves c (default st (last w))) →
  (∀ a, triple (along l st (w ++ records c (default st (last w)))) (f a) Q (left_at l st W)) →
  triple (along l st w) (m ≫= f) Q (left_at l st W).
Proof.
  intros Hm HW Hf. eapply triple_bind; [|exact Hf].
  eapply triple_conseq; [exact Hm| | |].
  - intros x Hx. apply along_shift. by rewrite app_nil_r.
  - intros a x [_ Hx]. by apply along_shift.
  - intros x (v & Hv & Hx). exists (w ++ v). rewrite Forall_forall in HW. split; [by apply HW|by apply along_shift].
Qed.

Lemma refines_commit : refines Commit.
Proof.
  intros l st. pose proof (refines_commit_effect l st) as H1. simpl in H1 |- *. unfold commit.
  destruct (String.eqb st "verified") eqn:Hst.
  - eapply (then_call l st _ [] CommitEffect); [rewrite app_nil_r; apply refines_commit_effect|repeat constructor; word|]. intros [].
    change (triple (along l st ["committing"]) (mark_committed ≫= fun _ => mark_completed)
      (fun _ x => true = true ∧ along l st ["committing"; "committed"; "completed"] x) (left_at l st (leaves Commit st))).
    eapply (then_call l st _ ["committing"] MarkCommitted);
      [apply (refines_mark_committed (l ++ ["committing"]) "committing")|repeat constructor; word|]. intros [].
    eapply triple_conseq; [apply (refines_mark_completed (l ++ ["committing"; "committed"]) "committed")| | |].
    + intros x Hx. apply (along_shift l st ["committing"; "committed"] []). by rewrite app_nil_r.
    + intros a x [_ Hx]. split; [done|]. by apply (along_shift l st ["committing"; "committed"] ["completed"]).
    + intros x (v & Hv & Hx). exists (["committing"; "committed"] ++ v). split.
      * simpl in Hv. set_solver.
      * by apply (along_shift l st ["committing"; "committed"] v).
  - apply (triple_bind _ _ _ (fun _ _ => False)); [|intros a x []].
    eapply triple_conseq; [exact H1|done|by intros a x []|].
    intros x (w & Hw & Hx). exists w. split; [set_solver|done].
Qed.

Lemma refines_all c : refines c.
Proof.
  destruct c.
  - apply refines_stage.
  - apply refines_stage_stream.
  - apply refines_bind_source.
  - apply refines_mark_staged.
  - apply refines_mark_verified.
  - apply refines_commit_effect.
  - apply refines_mark_committed.
  - apply refines_mark_completed.
  - apply refines_mark_recovery.
  - apply refines_resume_committing.
  - apply refines_commit.
  - apply refines_rollback.
Qed.

(** C5 Every call refines the abstract lifecycle, on every host: a call that
    returns was made in one of its starting states and has recorded exactly the
    states of the table, in order; a call that throws, or is cut short, has
    recorded one of the words of the table, in particular nothing beyond a
    prefix of its own states followed by refused or recovery_required. *)
Theorem session_refines_lifecycle c s w :
  match perform c (s, w) with
  | (Ok _, (s', _)) => starts c (current_state_ s) = true ∧ recorded_from s (records c (current_state_ s)) s'
  | (Throw _, (s', _)) => ∃ l, l ∈ leaves c (current_state_ s) ∧ recorded_from s l s'
  end.
Proof.
  assert (along (states s) (current_state_ s) [] (s, w)) as Hx by (split; [by rewrite app_nil_r|done]).
  pose proof (refines_all c _ _ _ Hx) as H. by destruct (perform c (s, w)) as [[a|e] [s' w']].
Qed.

End SessionLifecycle.
