(* ===== verification/StateRepository.v ===== *)
(** The installed-state repository:
    [runtime/setup/state/usk_state_repository.{h,cpp}]. *)

From Stdlib Require Import Ascii String NArith ZArith Lia.
From stdpp Require Import base list strings gmap sets.
From S2P Require Import Prelude Effects Utf8 Sha256 StdMap Json Path World RecordIo TextFacts.

Module StateRepository.
Import Json Path Effects World RecordIo SortFacts.

(** ** Data *)

Record OwnedFile := mk_owned {
  relative_path : string;
  sha256 : string;
  size_bytes : N }.

Record OwnershipManifest := mk_manifest {
  manifest_id : string;
  manifest_digest : string;
  owner_install_id : string;
  owner_target_root : string;
  created_by_transaction_id : string;
  files : list OwnedFile;
  directories : list string }.

Record Entrypoint := mk_entrypoint {
  entrypoint_id : string;
  entry_relative_path : string;
  entry_kind : string }.

Record VerificationSummary := mk_summary {
  report_id : string;
  report_digest : string;
  report_status : string;
  verified_at : string }.

Record InstalledState := mk_installed {
  install_id : string;
  product_id : string;
  product_version : string;
  recipe_digest : string;
  source_archive_digest : string;
  target_root : string;
  component_selection : list string;
  ownership_manifest_ref : string;
  ownership_manifest_digest : string;
  entrypoints : list Entrypoint;
  setup_abi_major : N;
  setup_abi_minor : N;
  provider_revision : string;
  transaction_id : string;
  created_at : string;
  last_verification : VerificationSummary;
  audit_chain_id : string;
  lifecycle_status : string }.

(** ** Checks *)

Definition sha256_text (value : string) : bool :=
  (size value =? 64) && forall_bytes (fun ch => is_digit ch || is_lower_hex_alpha ch) value.

Definition colon : ascii := ascii_of_N 58.

Definition part_refused (part : string) : bool :=
  is_empty part || String.eqb part "." || String.eqb part "..".

(** The loop over the parts: [part] is the part read so far, [rest] the text
    from the position on.  A final separator ends the loop. *)
Fixpoint safe_parts (part rest : string) : bool :=
  match rest with
  | EmptyString => negb (part_refused part)
  | String ch rest =>
    if Ascii.eqb ch slash
    then negb (part_refused part) && (is_empty rest || safe_parts EmptyString rest)
    else safe_parts (push_back part ch) rest
  end.

Definition front_is (ch : ascii) (value : string) : bool :=
  match value with String c _ => Ascii.eqb c ch | EmptyString => false end.

Definition safe_relative (value : string) : bool :=
  negb (is_empty value || (4096 <? size value) || front_is slash value || front_is backslash value ||
    contains_byte backslash value || contains_byte colon value) && safe_parts EmptyString value.

Definition exact_members (v : value) (expected : list string) : result unit :=
  members ← as_object v;
  throw_if (negb (bool_decide (map fst members = StdMap.set_of_list expected)))
    "durable record member set is incompatible".

(** ** Ownership manifests *)

Definition ownership_schema : string := "usk.ownership_manifest.v1".

Definition owned_file_value (f : OwnedFile) : value :=
  make_object [("relative_path", string_value (relative_path f)); ("sha256", string_value (sha256 f));
    ("size_bytes", unsigned_integer (size_bytes f))].

Definition directory_value (directory : string) : value :=
  make_object [("relative_path", string_value directory)].

Definition payload_members (m : OwnershipManifest) : list (string * value) :=
  StdMap.of_list [
    ("created_by_transaction_id", string_value (created_by_transaction_id m));
    ("directories", array (map directory_value (directories m)));
    ("files", array (map owned_file_value (files m)));
    ("install_id", string_value (owner_install_id m));
    ("manifest_id", string_value (manifest_id m));
    ("schema", string_value ownership_schema);
    ("target_root", string_value (owner_target_root m))].

Definition ownership_payload (m : OwnershipManifest) : value := object (payload_members m).

(** The texts [ownership_digest] feeds to the hash, in order. *)
Definition quoted_text (s : string) : string := canonical (string_value s).

Definition separated {A} (f : A → list string) (l : list A) : list string :=
  match l with
  | [] => []
  | x :: l => f x ++ concat (map (fun y => "," :: f y) l)
  end.

Definition directory_chunks (directory : string) : list string :=
  [lit "{'relative_path':"; quoted_text directory; "}"].

Definition file_chunks (f : OwnedFile) : list string :=
  [lit "{'relative_path':"; quoted_text (relative_path f); lit ",'sha256':"; quoted_text (sha256 f);
   lit ",'size_bytes':"; to_string (size_bytes f); "}"].

Definition ownership_chunks (m : OwnershipManifest) : list string :=
  [lit "{'created_by_transaction_id':"; quoted_text (created_by_transaction_id m); lit ",'directories':["] ++
  separated directory_chunks (directories m) ++ [lit "],'files':["] ++
  separated file_chunks (files m) ++
  [lit "],'install_id':"; quoted_text (owner_install_id m);
   lit ",'manifest_id':"; quoted_text (manifest_id m);
   lit ",'schema':'usk.ownership_manifest.v1','target_root':"; quoted_text (owner_target_root m); "}"].

Definition ownership_digest (m : OwnershipManifest) : result string :=
  h ← fold_result Sha256.update Sha256.initial (ownership_chunks m);
  '(digest, _) ← Sha256.finish h;
  Ok digest.

Definition ownership_document (m : OwnershipManifest) : value :=
  object (fst (StdMap.emplace "manifest_digest" (string_value (manifest_digest m)) (payload_members m))).

Definition with_digest (digest : string) (m : OwnershipManifest) : OwnershipManifest :=
  mk_manifest (manifest_id m) digest (owner_install_id m) (owner_target_root m)
    (created_by_transaction_id m) (files m) (directories m).

Definition file_less (a b : OwnedFile) : bool := string_ltb (relative_path a) (relative_path b).

Definition check_file (previous : string) (f : OwnedFile) : result string :=
  throw_if (negb (safe_relative (relative_path f)) || negb (sha256_text (sha256 f)) ||
      String.eqb (relative_path f) previous) "ownership file closure is invalid or duplicated";;
  Ok (relative_path f).

Definition check_directory (previous directory : string) : result string :=
  throw_if (negb (safe_relative directory) || String.eqb directory previous)
    "ownership directory closure is invalid or duplicated";;
  Ok directory.

(** [while (!parent.empty())]. *)
Fixpoint check_parents (fuel : nat) (directory_set : list string) (parent : path) : result unit :=
  if is_empty parent then Ok tt
  else match fuel with
       | O => Throw out_of_fuel
       | S fuel =>
         throw_if (negb (StdMap.set_mem (generic_string parent) directory_set))
           "ownership directory closure omits a file parent";;
         check_parents fuel directory_set (parent_path parent)
       end.

Definition check_closure (directory_set : list string) (f : OwnedFile) : result unit :=
  throw_if (StdMap.set_mem (relative_path f) directory_set)
    "ownership path cannot be both a file and directory";;
  check_parents (String.length (relative_path f)) directory_set (parent_path (relative_path f)).

(** The manifest is sorted in place. *)
Definition validate_ownership (m : OwnershipManifest) : result OwnershipManifest :=
  throw_if (negb (valid_identifier (manifest_id m)) || negb (valid_identifier (owner_install_id m)) ||
      negb (valid_identifier (created_by_transaction_id m)) || is_empty (owner_target_root m) ||
      (32768 <? size (owner_target_root m))) "ownership identity is invalid";;
  let sorted_files := sort_by file_less (files m) in
  let sorted_directories := sort_by string_ltb (directories m) in
  fold_result check_file EmptyString sorted_files;;
  fold_result check_directory EmptyString sorted_directories;;
  fold_result (fun _ f => check_closure sorted_directories f) tt sorted_files;;
  Ok (mk_manifest (manifest_id m) (manifest_digest m) (owner_install_id m) (owner_target_root m)
    (created_by_transaction_id m) sorted_files sorted_directories).

Definition parse_file (item : value) : result OwnedFile :=
  exact_members item ["relative_path"; "sha256"; "size_bytes"];;
  p ← at_string item "relative_path";
  h ← at_string item "sha256";
  n ← (n ← at_ item "size_bytes"; as_unsigned n);
  Ok (mk_owned p h n).

Definition parse_directory (item : value) : result string :=
  exact_members item ["relative_path"];;
  at_string item "relative_path".

Definition parse_ownership (v : value) : result OwnershipManifest :=
  exact_members v ["schema"; "manifest_id"; "manifest_digest"; "install_id"; "target_root";
    "created_by_transaction_id"; "files"; "directories"];;
  bad ← differs v "schema" ownership_schema;
  throw_if bad "ownership schema is incompatible";;
  id ← at_string v "manifest_id";
  digest ← at_string v "manifest_digest";
  install ← at_string v "install_id";
  root ← at_string v "target_root";
  creator ← at_string v "created_by_transaction_id";
  items ← (a ← at_ v "files"; as_array a);
  fs ← map_result parse_file items;
  items ← (a ← at_ v "directories"; as_array a);
  ds ← map_result parse_directory items;
  validate_ownership (mk_manifest id digest install root creator fs ds).

Definition newline : string := String (ascii_of_N 10) EmptyString.
Definition crlf : string := String (ascii_of_N 13) newline.

Definition canonical_record (text : string) (document : value) (what : string) : result unit :=
  throw_if (negb (String.eqb (canonical document +:+ newline) text) &&
    negb (String.eqb (canonical document +:+ crlf) text)) what.

Definition decode_ownership_record (text lookup_id : string) : result OwnershipManifest :=
  throw_if (negb (valid_identifier lookup_id)) "ownership lookup id is invalid";;
  throw_if (16 * 1024 * 1024 <? size text) "ownership record exceeds its byte bound";;
  document ← parse text default_limits;
  canonical_record text document "ownership record is not canonical";;
  m ← parse_ownership document;
  bad ← Ok (negb (sha256_text (manifest_digest m))) |||
    (h ← ownership_digest m; Ok (negb (String.eqb h (manifest_digest m))));
  throw_if bad "ownership manifest digest does not match its canonical payload";;
  throw_if (negb (String.eqb (manifest_id m) lookup_id) && negb (String.eqb (owner_install_id m) lookup_id))
    "ownership lookup identity mismatch";;
  Ok m.

(** ** Installed states *)

Definition entrypoint_value (e : Entrypoint) : value :=
  make_object [("entrypoint_id", string_value (entrypoint_id e)); ("kind", string_value (entry_kind e));
    ("relative_path", string_value (entry_relative_path e))].

Definition installed_schema : string := "usk.installed_state.v1".

Definition installed_document (s : InstalledState) : value :=
  make_object [
    ("audit_chain_id", string_value (audit_chain_id s));
    ("component_selection", array (map string_value (component_selection s)));
    ("created_at", string_value (created_at s));
    ("entrypoints", array (map entrypoint_value (entrypoints s)));
    ("install_id", string_value (install_id s));
    ("last_verification", make_object [
      ("report_digest", string_value (report_digest (last_verification s)));
      ("report_id", string_value (report_id (last_verification s)));
      ("status", string_value (report_status (last_verification s)));
      ("verified_at", string_value (verified_at (last_verification s)))]);
    ("lifecycle_status", string_value (lifecycle_status s));
    ("ownership_manifest_digest", string_value (ownership_manifest_digest s));
    ("ownership_manifest_ref", string_value (ownership_manifest_ref s));
    ("product_id", string_value (product_id s));
    ("product_version", string_value (product_version s));
    ("recipe_digest", string_value (recipe_digest s));
    ("schema", string_value installed_schema);
    ("setup_abi", make_object [
      ("major", unsigned_integer (setup_abi_major s));
      ("minor", unsigned_integer (setup_abi_minor s));
      ("provider_revision", string_value (provider_revision s))]);
    ("source_archive_digest", string_value (source_archive_digest s));
    ("target_root", string_value (target_root s));
    ("target_scope", string_value "portable");
    ("transaction_id", string_value (transaction_id s))].

Definition installed_members : list string :=
  ["schema"; "install_id"; "product_id"; "product_version"; "recipe_digest";
   "source_archive_digest"; "target_root"; "target_scope"; "component_selection";
   "ownership_manifest_ref"; "ownership_manifest_digest"; "entrypoints"; "setup_abi";
   "transaction_id"; "created_at"; "last_verification"; "audit_chain_id"; "lifecycle_status"].

Definition verification_status : list string := ["pass"; "warn"; "fail"].
Definition lifecycle : list string :=
  ["installed"; "verified"; "repair_required"; "move_pending_acceptance"; "uninstall_blocked";
   "recovery_required"; "retired"].

Definition identity_refused (s : InstalledState) : bool :=
  negb (valid_identifier (install_id s)) || negb (valid_identifier (product_id s)) ||
  negb (valid_identifier (transaction_id s)) || negb (valid_identifier (audit_chain_id s)) ||
  negb (valid_identifier (provider_revision s)) || is_empty (product_version s) ||
  is_empty (target_root s) || is_empty (created_at s) || negb (sha256_text (recipe_digest s)) ||
  negb (sha256_text (source_archive_digest s)) || negb (sha256_text (ownership_manifest_digest s)) ||
  negb (sha256_text (report_digest (last_verification s))) || (setup_abi_major s =? 0) ||
  bool_decide (component_selection s = []) || bool_decide (entrypoints s = []).

(** The loops insert into a set as they go. *)
Definition check_component (seen : list string) (component : string) : result (list string) :=
  throw_if (negb (valid_identifier component) || StdMap.set_mem component seen)
    "installed-state component selection is invalid";;
  Ok (component :: seen).

Definition check_entrypoint (seen : list string) (e : Entrypoint) : result (list string) :=
  throw_if (negb (valid_identifier (entrypoint_id e)) || negb (safe_relative (entry_relative_path e)) ||
      (negb (String.eqb (entry_kind e) "application") && negb (String.eqb (entry_kind e) "tool") &&
       negb (String.eqb (entry_kind e) "server")) || StdMap.set_mem (entrypoint_id e) seen)
    "installed-state entrypoint is invalid";;
  Ok (entrypoint_id e :: seen).

(** [ref.substr(10, ref.size() - 15)]. *)
Definition ownership_record_id (reference : string) : string :=
  str_take (String.length reference - 15) (str_drop 10 reference).

Definition reference_refused (reference : string) : bool :=
  negb (String.eqb (str_take 10 reference) "ownership/") || (size reference <=? 15) ||
  negb (String.eqb (str_drop (String.length reference - 5) reference) ".json") ||
  negb (valid_identifier (ownership_record_id reference)).

Definition validate_installed (s : InstalledState) : result unit :=
  throw_if (identity_refused s) "installed-state identity or required binding is invalid";;
  throw_if (negb (StdMap.set_mem (report_status (last_verification s)) verification_status) ||
    negb (StdMap.set_mem (lifecycle_status s) lifecycle)) "installed-state status is invalid";;
  fold_result check_component [] (component_selection s);;
  fold_result check_entrypoint [] (entrypoints s);;
  throw_if (reference_refused (ownership_manifest_ref s))
    "installed-state ownership reference is not repository-local and exact".

Definition parse_entrypoint (item : value) : result Entrypoint :=
  exact_members item ["entrypoint_id"; "relative_path"; "kind"];;
  id ← at_string item "entrypoint_id";
  p ← at_string item "relative_path";
  k ← at_string item "kind";
  Ok (mk_entrypoint id p k).

Definition parse_verification (v : value) : result VerificationSummary :=
  exact_members v ["report_id"; "report_digest"; "status"; "verified_at"];;
  id ← at_string v "report_id";
  digest ← at_string v "report_digest";
  status ← at_string v "status";
  at_time ← at_string v "verified_at";
  Ok (mk_summary id digest status at_time).

Definition parse_installed (v : value) : result InstalledState :=
  exact_members v installed_members;;
  bad ← differs v "schema" installed_schema ||| differs v "target_scope" "portable";
  throw_if bad "installed-state schema or scope is incompatible";;
  install ← at_string v "install_id";
  product ← at_string v "product_id";
  version ← at_string v "product_version";
  recipe ← at_string v "recipe_digest";
  archive ← at_string v "source_archive_digest";
  root ← at_string v "target_root";
  items ← (a ← at_ v "component_selection"; as_array a);
  components ← map_result as_string items;
  reference ← at_string v "ownership_manifest_ref";
  ownership ← at_string v "ownership_manifest_digest";
  items ← (a ← at_ v "entrypoints"; as_array a);
  entries_ ← map_result parse_entrypoint items;
  abi ← at_ v "setup_abi";
  exact_members abi ["major"; "minor"; "provider_revision"];;
  major ← (n ← at_ abi "major"; as_unsigned n);
  minor ← (n ← at_ abi "minor"; as_unsigned n);
  provider ← at_string abi "provider_revision";
  transaction ← at_string v "transaction_id";
  created ← at_string v "created_at";
  verification ← (r ← at_ v "last_verification"; parse_verification r);
  chain ← at_string v "audit_chain_id";
  status ← at_string v "lifecycle_status";
  let s := mk_installed install product version recipe archive root components reference ownership
    entries_ major minor provider transaction created verification chain status in
  validate_installed s;;
  Ok s.

Definition decode_installed_record (text : string) : result InstalledState :=
  throw_if (4 * 1024 * 1024 <? size text) "installed-state record exceeds its byte bound";;
  document ← parse text default_limits;
  canonical_record text document "installed-state record is not canonical";;
  parse_installed document.

Definition serialize_installed_state (s : InstalledState) : result string :=
  validate_installed s;;
  Ok (canonical (installed_document s) +:+ newline).

(** ** The repository

    [root] is [root_], the absolute normal path the constructor computes. *)

Definition state_repository (state_root : path) : io path :=
  p ← StableFile.absolute state_root;
  let root := lexically_normal p in
  when (is_empty root) (fail "filesystem error: cannot make absolute path");;
  require_safe_directory root;;
  ret root.

Definition initialize_layout (state_root : path) : io unit :=
  require_safe_directory state_root;;
  create_directory_exclusive state_root "ownership";;
  create_directory_exclusive state_root "installed".

Definition ownership_path (root : path) (id : string) : path := root /+ "ownership" /+ (id +:+ ".json").

Definition write_ownership (root : path) (m : OwnershipManifest) : io OwnershipManifest :=
  require_safe_directory (root /+ "ownership");;
  m ← lift (validate_ownership m);
  digest ← lift (ownership_digest m);
  let m := with_digest digest m in
  write_new_durable_text (ownership_path root (manifest_id m)) (canonical (ownership_document m) +:+ newline);;
  ret m.

Definition read_ownership (root : path) (id : string) : io OwnershipManifest :=
  guard (valid_identifier id) "ownership lookup id is invalid";;
  text ← read_stable_text (ownership_path root id) (16 * 1024 * 1024);
  lift (decode_ownership_record text id).

(** The manifest a state refers to, and whether the two agree. *)
Definition require_binding (root : path) (s : InstalledState) (what : string) : io unit :=
  ownership ← read_ownership root (ownership_record_id (ownership_manifest_ref s));
  if negb (String.eqb (manifest_digest ownership) (ownership_manifest_digest s)) ||
    negb (String.eqb (owner_install_id ownership) (install_id s)) ||
    negb (String.eqb (owner_target_root ownership) (target_root s))
  then fail what else ret tt.

Definition snapshot_name (install transaction : string) : string :=
  install +:+ "." +:+ transaction +:+ ".json".

Definition write_installed (root : path) (s : InstalledState) : io unit :=
  require_safe_directory (root /+ "installed");;
  lift (validate_installed s);;
  require_binding root s "installed state does not bind the exact ownership manifest";;
  text ← lift (serialize_installed_state s);
  write_new_durable_text (root /+ "installed" /+ snapshot_name (install_id s) (transaction_id s)) text.

Definition is_regular (k : kind) : bool := match k with regular _ => true | _ => false end.

(** One entry of the directory: the candidates so far. *)
Definition admit_candidate (directory : path) (install : string) (candidates : list InstalledState)
    (entry : list string * kind) : io (list InstalledState) :=
  let nm := default EmptyString (last (fst entry)) in
  if negb (is_regular (snd entry)) || (size nm <=? 5) ||
    negb (String.eqb (str_drop (String.length nm - 5) nm) ".json")
  then fail "installed-state repository contains an unsafe entry"
  else
    text ← read_stable_text (directory /+ nm) (4 * 1024 * 1024);
    candidate ← lift (decode_installed_record text);
    if negb (String.eqb nm (snapshot_name (install_id candidate) (transaction_id candidate))) &&
      negb (String.eqb nm (install_id candidate +:+ ".json"))
    then fail "installed-state filename does not bind its record identity"
    else ret (if String.eqb (install_id candidate) install then candidates ++ [candidate] else candidates).

(** [for (entry : directory_iterator(directory))]; the iterator lists the names
    that are there when it is opened. *)
Fixpoint collect_candidates (directory : path) (install : string) (candidates : list InstalledState)
    (listing : list (list string * kind)) : io (list InstalledState) :=
  match listing with
  | [] => ret candidates
  | entry :: listing =>
    candidates ← admit_candidate directory install candidates entry;
    collect_candidates directory install candidates listing
  end.

(** [std::tie(created_at, transaction_id)].  [std::sort] leaves the order of two
    candidates with the same key open; [sort_by] keeps theirs. *)
Definition older (a b : InstalledState) : bool :=
  string_ltb (created_at a) (created_at b) ||
  (negb (string_ltb (created_at b) (created_at a)) && string_ltb (transaction_id a) (transaction_id b)).

Definition read_installed (root : path) (install : string) : io InstalledState :=
  guard (valid_identifier install) "installed-state lookup id is invalid";;
  let directory := root /+ "installed" in
  require_safe_directory directory;;
  listing ← list_directory directory;
  match listing with
  | None => fail "filesystem error: directory iterator cannot open directory"
  | Some listing =>
    candidates ← collect_candidates directory install [] listing;
    match last (sort_by older candidates) with
    | None => fail "installed-state record does not exist"
    | Some s =>
      require_binding root s "installed-state ownership binding no longer validates";;
      ret s
    end
  end.

Definition read_installed_snapshot (root : path) (install transaction : string) : io InstalledState :=
  guard (valid_identifier install && valid_identifier transaction)
    "installed-state snapshot identity is invalid";;
  text ← read_stable_text (root /+ "installed" /+ snapshot_name install transaction) (4 * 1024 * 1024);
  s ← lift (decode_installed_record text);
  if negb (String.eqb (install_id s) install) || negb (String.eqb (transaction_id s) transaction)
  then fail "installed-state snapshot lookup identity mismatch"
  else
    require_binding root s "installed-state snapshot ownership binding no longer validates";;
    ret s.

End StateRepository.
