(* ===== verification/StateFacts.v ===== *)
(** What the checks of the state repository accept: validated ownership
    manifests, their digest, and the records that are read back. *)

From Stdlib Require Import Ascii String NArith ZArith Lia Sorted.
From stdpp Require Import base list strings gmap sets sorting.
From S2P Require Import Prelude Effects Utf8 Sha256 StdMap Json JsonFacts JsonParse JsonProps Path PathFacts.
From S2P Require Import World RecordIo TextFacts StateRepository.

Module StateFacts.
Import Json JsonFacts JsonParse JsonProps TextFacts Path PathFacts Effects World RecordIo SortFacts StateRepository.

(** ** Sorted members *)

Lemma files_sorted l : StronglySorted (not_after file_less) (sort_by file_less l).
Proof. apply sort_by_sorted; [intros ? ?; apply ltb_asym|intros ? ? ?; apply ltb_trans_le]. Qed.

Lemma names_sorted l : StronglySorted (not_after string_ltb) (sort_by string_ltb l).
Proof. apply sort_by_sorted; [apply ltb_asym|intros ? ? ?; apply ltb_trans_le]. Qed.

(** ** Distinct and safe paths *)

Section Distinct.
Context {A : Type} (key : A → string) (ok : A → bool) (what : string).
Hypothesis ok_nonempty : ∀ x, ok x = true → key x ≠ EmptyString.

Let check (previous : string) (x : A) : result string :=
  throw_if (negb (ok x) || String.eqb (key x) previous) what;; Ok (key x).

Let le (a b : A) : Prop := string_ltb (key b) (key a) = false.

Lemma check_step previous x r : check previous x = Ok r ↔ ok x = true ∧ key x ≠ previous ∧ r = key x.
Proof.
  unfold check. destruct (ok x); simpl; [|naive_solver].
  destruct (String.eqb_spec (key x) previous); simpl; naive_solver.
Qed.

Lemma sorted_distinct l : StronglySorted le l → ∀ previous,
  (∀ x, x ∈ l → string_ltb (key x) previous = false) →
  (∃ r, fold_result check previous l = Ok r) ↔
  Forall (fun x => ok x = true) l ∧ NoDup (map key l) ∧ previous ∉ map key l.
Proof.
  induction 1 as [|x l Hl IH Hx]; intros previous Hp; simpl.
  - split; [|by eexists]. intros _. split_and!; [constructor|constructor|apply not_elem_of_nil].
  - assert (∀ y, y ∈ l → string_ltb (key y) (key x) = false) as Hx' by (by apply Forall_forall).
    split.
    + intros (r & H). apply bind_ok in H as (? & (Hok & Hne & ->)%check_step & H).
      destruct (proj1 (IH (key x) Hx') (ex_intro _ r H)) as (Hf & Hn & Hi).
      split_and!; [by constructor|by constructor|]. intros [->|Hin]%elem_of_cons; [done|].
      apply list_elem_of_fmap in Hin as (y & -> & Hy).
      assert (string_ltb (key y) (key x) = false) by auto.
      assert (string_ltb (key x) (key y) = false) by (apply Hp; by left).
      destruct Hne. by apply string_ltb_total.
    + intros (Hf & Hn & Hi). apply Forall_cons in Hf as [Hok Hf]. apply NoDup_cons in Hn as [Hni Hn].
      destruct (proj2 (IH (key x) Hx')) as [r Hr]; [done|]. exists r.
      rewrite (bind_step _ _ (key x)); [done|]. apply check_step. split_and!; [done| |done].
      intros E. apply Hi. rewrite E. by left.
Qed.

Lemma distinct_exact l : StronglySorted le l →
  (∃ r, fold_result check EmptyString l = Ok r) ↔ Forall (fun x => ok x = true) l ∧ NoDup (map key l).
Proof.
  intros Hs. rewrite sorted_distinct; [|done|by intros; destruct (key x)].
  split; [tauto|]. intros [Hf Hn]. split_and!; [done..|]. intros (x & E & Hx)%list_elem_of_fmap.
  rewrite Forall_forall in Hf. by apply (ok_nonempty x (Hf x Hx)).
Qed.
End Distinct.

(** ** The parents of a file *)

Inductive ancestor : path → path → Prop :=
| ancestor_parent p : parent_path p ≠ EmptyString → ancestor (parent_path p) p
| ancestor_up a p : parent_path p ≠ EmptyString → ancestor a (parent_path p) → ancestor a p.

Lemma drop_trailing_relative fuel s : is_absolute s = false → is_absolute (drop_trailing_slashes fuel s) = false.
Proof.
  revert s. induction fuel as [|fuel IH]; intros s Hs; [done|]. cbn [drop_trailing_slashes].
  destruct (ends_with slash s) eqn:He; [|done]. apply names_trailing in He as [t ->].
  rewrite length_append. cbn [String.length]. rewrite Nat.add_sub, str_take_all. apply IH. by destruct t.
Qed.

Lemma slash_free_parent p : slash_free p = true → is_absolute p = false → parent_path p = EmptyString.
Proof.
  intros Hs Ha. unfold parent_path. assert (before_last_slash p = EmptyString) as ->; [|by rewrite Ha].
  destruct p as [|c p]; [done|]. simpl in *. unfold slash_free in Hs. simpl in Hs. apply andb_prop in Hs as [Hc Hp].
  rewrite contains_slash_free. unfold slash_free. rewrite Hp. simpl. by rewrite Ha.
Qed.

(** The parents of a relative path get shorter until there is none. *)
Lemma parent_relative p : p ≠ EmptyString → is_absolute p = false →
  (String.length (parent_path p) < String.length p)%nat ∧ is_absolute (parent_path p) = false.
Proof.
  intros Hp Ha. destruct (slash_free p) eqn:Hs.
  { rewrite slash_free_parent by done. by destruct p; simpl; [|split; [lia|]]. }
  destruct (split_last_slash p Hs) as (a & x & -> & Hx).
  unfold parent_path. rewrite before_last_slash_snoc, Ha by done.
  set (s := a +:+ String slash EmptyString). destruct a as [|c a]; [done|].
  assert (is_absolute s = false) as As by exact Ha.
  pose proof (drop_trailing_relative (String.length s) s As) as Hd.
  assert (String.length (drop_trailing_slashes (String.length s) s) < String.length (String c a +:+ String slash x))%nat.
  { subst s. rewrite !length_append. cbn [String.length]. rewrite Nat.add_1_r. cbn [drop_trailing_slashes].
    unfold ends_with at 1. rewrite last_byte_app, Ascii.eqb_refl, length_append. cbn [String.length].
    rewrite Nat.add_sub. change (S (String.length a)) with (String.length (String c a)). rewrite str_take_all.
    pose proof (drop_trailing_length (String.length (String c a)) (String c a)). simpl in *. lia. }
  destruct (is_empty _); [|done]. split; [rewrite length_append; simpl; lia|done].
Qed.

Lemma set_mem_iff k l : StdMap.set_mem k l = true ↔ k ∈ l.
Proof.
  unfold StdMap.set_mem. rewrite existsb_exists, list_elem_of_In. setoid_rewrite String.eqb_eq. naive_solver.
Qed.

Definition parents_in (ds : list string) (p : path) : Prop := ∀ a, ancestor a p → generic_string a ∈ ds.

(** The loop over the parents ends within its fuel. *)
Lemma check_parents_exact ds fuel : ∀ p, (String.length p <= fuel)%nat → is_absolute p = false →
  check_parents fuel ds p = Ok tt ↔ (p ≠ EmptyString → generic_string p ∈ ds) ∧ parents_in ds p.
Proof.
  assert (∀ ds, parents_in ds EmptyString) as He.
  { intros ds' a H. remember EmptyString as q eqn:E. induction H; subst; done. }
  induction fuel as [|fuel IH]; intros p Hf Ha.
  { destruct p; [|simpl in Hf; lia]. simpl. split; [|done]. intros _. split; [done|apply He]. }
  simpl. destruct (is_empty p) eqn:Hp.
  { destruct p; [|done]. split; [|done]. intros _. split; [done|apply He]. }
  assert (p ≠ EmptyString) as Hne by (by intros ->). destruct (parent_relative p Hne Ha) as [Hl Hr].
  destruct (StdMap.set_mem (generic_string p) ds) eqn:Hm; simpl.
  - apply set_mem_iff in Hm. rewrite IH by (done || lia). split.
    + intros [H1 H2]. split; [done|]. intros a H. inversion H; subst; [by apply H1|by apply H2].
    + intros [_ H]. split; [intros Hq; by apply H, ancestor_parent|]. intros a Hq.
      destruct (decide (parent_path p = EmptyString)) as [E|E]; [rewrite E in Hq; exfalso; exact (not_elem_of_nil _ (He [] a Hq))|].
      by apply H, ancestor_up.
  - split; [done|]. intros [H _]. specialize (H Hne). apply set_mem_iff in H. congruence.
Qed.

(** ** Validated manifests *)

Definition file_ok (f : OwnedFile) : bool := safe_relative (relative_path f) && sha256_text (sha256 f).

Lemma safe_relative_shape p : safe_relative p = true → p ≠ EmptyString ∧ is_absolute p = false.
Proof.
  unfold safe_relative. intros H. bool_hyps. destruct p; [done|]. split; [done|].
  by match goal with H : front_is slash _ = false |- _ => exact H end.
Qed.

Definition sorted_manifest (m : OwnershipManifest) : OwnershipManifest :=
  mk_manifest (manifest_id m) (manifest_digest m) (owner_install_id m) (owner_target_root m)
    (created_by_transaction_id m) (sort_by file_less (files m)) (sort_by string_ltb (directories m)).

(** What a manifest must satisfy: proper identities, safe paths that are all
    different, no file among the directories, and every parent of a file among
    them. *)
Record ownership_ok (m : OwnershipManifest) : Prop := mk_ownership_ok {
  owner_identity : valid_identifier (manifest_id m) = true ∧ valid_identifier (owner_install_id m) = true ∧
    valid_identifier (created_by_transaction_id m) = true;
  owner_root : owner_target_root m ≠ EmptyString ∧ size (owner_target_root m) <= 32768;
  owned_files : Forall (fun f => file_ok f = true) (files m);
  owned_directories : Forall (fun d => safe_relative d = true) (directories m);
  files_distinct : NoDup (map relative_path (files m));
  directories_distinct : NoDup (directories m);
  files_closed : Forall (fun f => (relative_path f ∉ directories m) ∧
    parents_in (directories m) (relative_path f)) (files m);
}.

Lemma closure_exact ds f : file_ok f = true →
  check_closure ds f = Ok tt ↔ (relative_path f ∉ ds) ∧ parents_in ds (relative_path f).
Proof.
  unfold file_ok, check_closure. intros [Hf _]%andb_prop. apply safe_relative_shape in Hf as [Hne Ha].
  destruct (StdMap.set_mem (relative_path f) ds) eqn:Hm; simpl.
  { apply set_mem_iff in Hm. naive_solver. }
  assert (relative_path f ∉ ds) as Hn by (rewrite <- set_mem_iff; congruence).
  destruct (parent_relative _ Hne Ha) as [Hl Hr]. rewrite check_parents_exact by (done || lia). split.
  - intros [H1 H2]. split; [done|]. intros a H. inversion H; subst; [by apply H1|by apply H2].
  - intros [_ H]. split; [intros Hq; by apply H, ancestor_parent|]. intros a Hq.
    destruct (decide (parent_path (relative_path f) = EmptyString)) as [E|E]; [|by apply H, ancestor_up].
    exfalso. rewrite E in Hq. clear -Hq. remember EmptyString as q eqn:E. induction Hq; subst; done.
Qed.

Lemma check_files_exact l : StronglySorted (not_after file_less) l →
  (∃ r, fold_result check_file EmptyString l = Ok r) ↔
  Forall (fun f => file_ok f = true) l ∧ NoDup (map relative_path l).
Proof.
  intros Hs. rewrite <- (distinct_exact relative_path file_ok "ownership file closure is invalid or duplicated").
  - split; intros [r H]; exists r; rewrite <- H; apply fold_result_ext; intros b f; unfold check_file, file_ok;
      by rewrite negb_andb.
  - unfold file_ok. intros f [Hf _]%andb_prop. by apply safe_relative_shape.
  - exact Hs.
Qed.

Lemma check_directories_exact l : StronglySorted (not_after string_ltb) l →
  (∃ r, fold_result check_directory EmptyString l = Ok r) ↔
  Forall (fun d => safe_relative d = true) l ∧ NoDup l.
Proof.
  intros Hs. assert (NoDup l ↔ NoDup (map id l)) as -> by (by rewrite map_id).
  rewrite <- (distinct_exact id safe_relative "ownership directory closure is invalid or duplicated").
  - done.
  - intros d Hd. by apply safe_relative_shape.
  - exact Hs.
Qed.

Lemma check_closures_exact ds l : Forall (fun f => file_ok f = true) l →
  (∃ u, fold_result (fun _ f => check_closure ds f) tt l = Ok u) ↔
  Forall (fun f => (relative_path f ∉ ds) ∧ parents_in ds (relative_path f)) l.
Proof.
  intros Hf. transitivity (fold_result (fun _ f => check_closure ds f) tt l = Ok tt).
  { split; [intros [[] ?]; done|by eexists]. }
  rewrite fold_unit_ok, !Forall_forall. rewrite Forall_forall in Hf.
  split; intros H f Hin; by apply closure_exact; auto.
Qed.

Lemma validate_exact m m' : validate_ownership m = Ok m' ↔ m' = sorted_manifest m ∧ ownership_ok m'.
Proof.
  unfold validate_ownership. rewrite !bind_any, check_files_exact, check_directories_exact
    by (apply files_sorted || apply names_sorted). split.
  - intros ([u Hu] & (Hf & Hn) & (Hd & Hnd) & Hc & H). apply (ok_inj (sorted_manifest m)) in H as <-.
    split; [done|]. apply check_closures_exact in Hc; [|done]. apply throw_if_ok in Hu. bool_hyps.
    split; simpl; try done. split; [by destruct (owner_target_root m)|done].
  - intros (-> & [(H1 & H2 & H3) [H4 H5] Hf Hd Hn Hnd Hc]). simpl in *. split_and!; try done.
    + exists tt. apply throw_if_ok. rewrite H1, H2, H3. simpl.
      rewrite (proj2 (N.ltb_ge _ _)) by done. by destruct (owner_target_root m).
    + by apply check_closures_exact.
Qed.

Lemma sorted_manifest_id m : validate_ownership m = Ok (sorted_manifest m) →
  validate_ownership (sorted_manifest m) = Ok (sorted_manifest m).
Proof.
  intros [_ H]%validate_exact. apply validate_exact. split; [|done]. unfold sorted_manifest. simpl.
  rewrite (sort_by_id file_less (sort_by _ _)), (sort_by_id string_ltb (sort_by _ _));
    [done|apply names_sorted|apply files_sorted].

Qed.

(** ** The digest of a manifest *)

Lemma concat_app a b : Sha256.concat_chunks (a ++ b) = Sha256.concat_chunks a +:+ Sha256.concat_chunks b.
Proof. induction a as [|x a IH]; simpl; [done|]. by rewrite IH, append_assoc. Qed.

Lemma concat_separated {A} (f : A → list string) l :
  Sha256.concat_chunks (separated f l) = commas (map (fun x => Sha256.concat_chunks (f x)) l).
Proof.
  destruct l as [|x l]; [done|]. simpl separated. rewrite concat_app. revert x.
  induction l as [|y l IH]; intros x; [by simpl; rewrite append_nil_r|].
  rewrite (map_cons _ x), commas_cons, <- IH by done. f_equal.
  change (concat (map (fun y => "," :: f y) (y :: l))) with (("," :: f y) ++ concat (map (fun y => "," :: f y) l)).
  by rewrite concat_app.
Qed.

Lemma quoted_text_eq s : quoted_text s = quoted s.
Proof. unfold quoted_text. by rewrite canonical_render. Qed.

(** Texts that differ in the grouping of their parts. *)
Ltac same_text := rewrite ?append_assoc; reflexivity.

Lemma owned_file_shape f : owned_file_value f = object [("relative_path", string_value (relative_path f));
    ("sha256", string_value (sha256 f)); ("size_bytes", unsigned_integer (size_bytes f))].
Proof. reflexivity. Qed.

Lemma file_chunks_text f : Sha256.concat_chunks (file_chunks f) = render (owned_file_value f).
Proof.
  rewrite owned_file_shape. unfold file_chunks. rewrite !quoted_text_eq. cbn [render map commas fst snd Sha256.concat_chunks fold_right].
  same_text.
Qed.

Lemma directory_chunks_text d : Sha256.concat_chunks (directory_chunks d) = render (directory_value d).
Proof.
  unfold directory_chunks. rewrite quoted_text_eq. cbn [directory_value make_object render map commas fst snd
    StdMap.of_list fold_left StdMap.emplace Sha256.concat_chunks fold_right].
  same_text.
Qed.

Lemma manifest_payload_shape m : ownership_payload m = object [
    ("created_by_transaction_id", string_value (created_by_transaction_id m));
    ("directories", array (map directory_value (directories m)));
    ("files", array (map owned_file_value (files m)));
    ("install_id", string_value (owner_install_id m));
    ("manifest_id", string_value (manifest_id m));
    ("schema", string_value ownership_schema);
    ("target_root", string_value (owner_target_root m))].
Proof. reflexivity. Qed.

Lemma chunks_text m : Sha256.concat_chunks (ownership_chunks m) = canonical (ownership_payload m).
Proof.
  rewrite canonical_render, manifest_payload_shape. unfold ownership_chunks. rewrite !concat_app, !concat_separated.
  cbn [render map commas fst snd]. rewrite !map_map, !quoted_text_eq.
  rewrite (map_ext _ _ file_chunks_text), (map_ext _ _ directory_chunks_text).
  cbn [Sha256.concat_chunks fold_right]. same_text.
Qed.

Lemma ownership_digest_eq m : ownership_digest m = Ok (Sha256.sha256 (canonical (ownership_payload m))).
Proof. rewrite <- chunks_text. apply Sha256.run_sha256. Qed.

Lemma sha256_text_digest s : sha256_text (Sha256.sha256 s) = true.
Proof. unfold sha256_text. destruct (Sha256.sha256_shape s) as [-> H]. exact H. Qed.

(** ** Records of manifests *)

Lemma ownership_document_shape m : ownership_document m = object [
    ("created_by_transaction_id", string_value (created_by_transaction_id m));
    ("directories", array (map directory_value (directories m)));
    ("files", array (map owned_file_value (files m)));
    ("install_id", string_value (owner_install_id m));
    ("manifest_digest", string_value (manifest_digest m));
    ("manifest_id", string_value (manifest_id m));
    ("schema", string_value ownership_schema);
    ("target_root", string_value (owner_target_root m))].
Proof. reflexivity. Qed.

Lemma parse_ownership_document m : parse_ownership (ownership_document m) = validate_ownership m.
Proof.
  rewrite ownership_document_shape. unfold parse_ownership. rewrite (bind_step _ _ tt) by reflexivity.
  rewrite (bind_step _ _ false) by reflexivity. rewrite (bind_step _ _ tt) by reflexivity.
  rewrite (bind_step _ _ (manifest_id m)) by reflexivity. rewrite (bind_step _ _ (manifest_digest m)) by reflexivity.
  rewrite (bind_step _ _ (owner_install_id m)) by reflexivity.
  rewrite (bind_step _ _ (owner_target_root m)) by reflexivity.
  rewrite (bind_step _ _ (created_by_transaction_id m)) by reflexivity.
  rewrite (bind_step _ _ (map owned_file_value (files m))) by reflexivity.
  rewrite (bind_step _ _ (files m)).
  2: { induction (files m) as [|f l IH]; [done|]. simpl map_result in *. rewrite IH. by destruct f. }
  rewrite (bind_step _ _ (map directory_value (directories m))) by reflexivity.
  rewrite (bind_step _ _ (directories m)).
  2: { induction (directories m) as [|d l IH]; [done|]. simpl map_result in *. by rewrite IH. }
  by destruct m.
Qed.

Definition sizes_ok (m : OwnershipManifest) : Prop := Forall (fun f => size_bytes f <= uint64_max) (files m).

Lemma ownership_document_wf m : sizes_ok m → wf (ownership_document m).
Proof.
  intros Hs. rewrite ownership_document_shape. split.
  - by_sorted.
  - split_and!; try done.
    + induction (directories m) as [|d l IH]; [done|]. simpl. split; [|done].
      split; [repeat constructor|done].
    + induction Hs as [|f l Hf _ IH]; [done|]. simpl. split; [|done]. split; [|done].
      by_sorted.
Qed.

Lemma ownership_document_count m :
  count (ownership_document m) = 9 + 2 * N.of_nat (length (directories m)) + 4 * N.of_nat (length (files m)).
Proof.
  rewrite ownership_document_shape. cbn [count fold_right snd].
  assert (∀ l, fold_right (fun x n => count x + n) 0 (map directory_value l) = 2 * N.of_nat (length l)) as ->.
  { induction l as [|d l IH]; [done|]. cbn [map fold_right length]. rewrite IH.
    change (count (directory_value d)) with 2. lia. }
  assert (∀ l, fold_right (fun x n => count x + n) 0 (map owned_file_value l) = 4 * N.of_nat (length l)) as ->.
  { induction l as [|f l IH]; [done|]. cbn [map fold_right length]. rewrite IH.
    change (count (owned_file_value f)) with 4. lia. }
  lia.
Qed.

(** The strings of a valid manifest that need not be ASCII. *)
Definition utf8_paths (m : OwnershipManifest) : bool :=
  Utf8.valid_utf8 (owner_target_root m) && forallb Utf8.valid_utf8 (directories m) &&
  forallb (fun f => Utf8.valid_utf8 (relative_path f)) (files m).

Definition ascii_short (s : string) : Prop := Utf8.valid_utf8 s = true ∧ size s <= 1024 * 1024.

Lemma string_fits L s : size s <= max_string_bytes L → string_ok L s = Utf8.valid_utf8 s.
Proof. unfold string_ok. intros H. by rewrite (proj2 (N.leb_le _ _)). Qed.

Lemma identifier_fits s : valid_identifier s = true → string_ok default_limits s = true.
Proof.
  intros [Ha Hs]%identifier_ascii. rewrite string_fits; [by apply ascii_valid_utf8|].
  unfold default_limits. simpl. lia.
Qed.

Lemma sha256_fits s : sha256_text s = true → string_ok default_limits s = true.
Proof.
  unfold sha256_text. intros H. bool_hyps. rewrite string_fits; [by apply ascii_valid_utf8, hex_ascii|].
  unfold default_limits. simpl. lia.
Qed.

Lemma safe_fits s : safe_relative s = true → string_ok default_limits s = Utf8.valid_utf8 s.
Proof.
  unfold safe_relative. intros H. bool_hyps. apply string_fits. unfold default_limits. simpl. lia.
Qed.

Lemma ownership_document_fits m : ownership_ok m → sha256_text (manifest_digest m) = true →
  fits default_limits 0 (ownership_document m) = utf8_paths m.
Proof.
  intros [(H1 & H2 & H3) [_ H5] Hf Hd _ _ _] Hs. rewrite ownership_document_shape. unfold utf8_paths.
  assert (forallb (fits default_limits 2) (map directory_value (directories m)) =
    forallb Utf8.valid_utf8 (directories m)) as Ed.
  { induction Hd as [|d l Hx _ IH]; [done|]. cbn [map forallb]. rewrite IH. f_equal.
    rewrite <- (safe_fits d Hx). unfold directory_value. cbn [make_object StdMap.of_list fold_left StdMap.emplace fst snd
      fits forallb]. rewrite identifier_fits by reflexivity. by rewrite andb_true_r. }
  assert (forallb (fits default_limits 2) (map owned_file_value (files m)) =
    forallb (fun f => Utf8.valid_utf8 (relative_path f)) (files m)) as Ef.
  { induction Hf as [|f l Hx _ IH]; [done|]. cbn [map forallb]. rewrite IH. f_equal.
    apply andb_prop in Hx as [Hx Hh]. rewrite <- (safe_fits _ Hx), owned_file_shape. cbn [fits forallb fst snd].
    rewrite (sha256_fits _ Hh), !identifier_fits by reflexivity. by rewrite andb_true_r. }
  cbn [fits forallb fst snd]. change (0 + 1 + 1) with 2. rewrite Ed, Ef, (sha256_fits _ Hs).
  rewrite !identifier_fits by (assumption || reflexivity).
  rewrite (string_fits _ (owner_target_root m)) by (unfold default_limits; simpl; lia).
  change (0 <=? _) with true. change (0 + 1 <=? _) with true. cbn [andb].
  destruct (forallb _ (directories m)), (forallb _ (files m)), (Utf8.valid_utf8 _); reflexivity.
Qed.

Definition ownership_text (m : OwnershipManifest) : string := canonical (ownership_document m) +:+ newline.

Definition readable (m : OwnershipManifest) (text : string) : bool :=
  (size text <=? 4 * 1024 * 1024) && (utf8_paths m &&
    (9 + 2 * N.of_nat (length (directories m)) + 4 * N.of_nat (length (files m)) <=? 100000)).

Lemma parse_ownership_text m : ownership_ok m → sizes_ok m → sha256_text (manifest_digest m) = true →
  outcome (readable m (ownership_text m)) (ownership_document m) (parse (ownership_text m) default_limits).
Proof.
  intros Hok Hs Hh.
  pose proof (parse_canonical_space default_limits (ownership_document m) newline
    (ownership_document_wf m Hs) eq_refl) as Hp.
  rewrite ownership_document_count, ownership_document_fits in Hp by done. exact Hp.
Qed.

Lemma decode_ownership_text m id : ownership_ok m → validate_ownership m = Ok m → sizes_ok m →
  manifest_digest m = Sha256.sha256 (canonical (ownership_payload m)) →
  id = manifest_id m ∨ (id = owner_install_id m) →
  outcome (readable m (ownership_text m)) m (decode_ownership_record (ownership_text m) id).
Proof.
  intros Hok Hv Hs Hd Hid.
  assert (sha256_text (manifest_digest m) = true) as Hh by (rewrite Hd; apply sha256_text_digest).
  assert (ownership_digest m = Ok (manifest_digest m)) as Hg by (rewrite Hd; apply ownership_digest_eq).
  clear Hd. pose proof (parse_ownership_text m Hok Hs Hh) as Hp.
  unfold decode_ownership_record.
  assert (valid_identifier id = true) as -> by (destruct Hok as [(? & ? & ?) _ _ _ _ _ _], Hid; by subst).
  cbn [negb throw_if mbind result_bind]. unfold outcome in *.
  destruct (readable m (ownership_text m)) eqn:Eb.
  - apply andb_prop in Eb as [Hz%N.leb_le _]. rewrite (proj2 (N.ltb_ge _ _)) by lia.
    rewrite Hp. cbn [throw_if mbind result_bind]. unfold canonical_record.
    fold (ownership_text m). rewrite String.eqb_refl. cbn [negb andb throw_if mbind result_bind].
    rewrite parse_ownership_document, Hv. cbn [mbind result_bind].
    rewrite Hh, Hg. cbn [negb or_else mbind result_bind]. rewrite String.eqb_refl.
    cbn [negb throw_if mbind result_bind].
    destruct Hid as [->| ->]; rewrite String.eqb_refl; by rewrite ?andb_false_r.
  - destruct (16 * 1024 * 1024 <? size (ownership_text m)); [by eexists|].
    destruct Hp as [what Hp]. rewrite Hp. by exists what.
Qed.

Lemma written_decodes m m' id : sizes_ok m → validate_ownership m = Ok m' →
  id = manifest_id m' ∨ id = owner_install_id m' →
  let written := with_digest (Sha256.sha256 (canonical (ownership_payload m'))) m' in
  outcome (readable written (ownership_text written)) written (decode_ownership_record (ownership_text written) id).
Proof.
  intros Hs Hv Hid written. pose proof Hv as [-> Hok]%validate_exact. apply (decode_ownership_text written id).
  - by destruct Hok; split.
  - apply sorted_manifest_id in Hv. apply validate_exact in Hv as [E _]. apply validate_exact.
    split; [|by destruct Hok; split]. unfold sorted_manifest, written, with_digest. simpl.
    unfold sorted_manifest in E. simpl in E. congruence.
  - unfold sizes_ok, written, with_digest, sorted_manifest in *. simpl. by rewrite sort_by_perm.
  - reflexivity.
  - done.
Qed.

(** ** Owned paths *)

(** A relative path of plain names, none of them a dot name, in at most 4096
    bytes and without the separators and drive marks of other systems.  One
    final separator is allowed. *)
Definition owned_path (p : string) : Prop :=
  size p <= 4096 ∧ contains_byte (ascii_of_N 92) p = false ∧ contains_byte (ascii_of_N 58) p = false ∧
  ∃ l, l ≠ [] ∧ Forall safe_name l ∧ (p = join_names l ∨ p = join_names l +:+ "/").

Lemma refused_exact x : slash_free x = true → part_refused x = false ↔ safe_name x.
Proof.
  intros Hx. unfold part_refused, safe_name, plain_name. rewrite !orb_false_iff, !String.eqb_neq.
  split; [intros [[He ?] ?]|intros [[_ He] [? ?]]]; split_and!; try done; by destruct x.
Qed.

Lemma parts_run part x rest : slash_free x = true → safe_parts part (x +:+ rest) = safe_parts (part +:+ x) rest.
Proof.
  revert part. induction x as [|c x IH]; intros part Hx; [by rewrite append_nil_r|].
  apply andb_prop in Hx as [Hc%negb_true_iff Hx]. cbn [String.append safe_parts]. rewrite Hc, IH by done.
  by rewrite push_back_append.
Qed.

Lemma parts_accept l : Forall safe_name l → l ≠ [] →
  safe_parts EmptyString (join_names l) = true ∧ safe_parts EmptyString (join_names l +:+ "/") = true.
Proof.
  induction 1 as [|x l Hx _ IH]; [done|]. intros _. pose proof Hx as [[Hf _] _].
  apply (refused_exact _ Hf) in Hx. destruct l as [|y l].
  - cbn [join_names]. rewrite (parts_run _ _ "/") by done. rewrite <- (append_nil_r x) at 1. rewrite parts_run by done.
    cbn. by rewrite Hx.
  - change (join_names (x :: y :: l)) with (x +:+ String slash (join_names (y :: l))). rewrite append_assoc.
    rewrite !parts_run by done. cbn [String.append safe_parts]. rewrite Hx, Ascii.eqb_refl. cbn [negb andb].
    destruct IH as [H1 H2]; [done|]. by rewrite H1, H2, !orb_true_r.
Qed.

Lemma parts_names rest : ∀ part, slash_free part = true → safe_parts part rest = true →
  ∃ l, l ≠ [] ∧ Forall safe_name l ∧ (part +:+ rest = join_names l ∨ part +:+ rest = join_names l +:+ "/").
Proof.
  induction rest as [|c rest IH]; intros part Hp H; cbn [safe_parts] in H.
  - apply negb_true_iff, refused_exact in H; [|done]. exists [part]. rewrite append_nil_r. split_and!; auto.
  - destruct (Ascii.eqb_spec c slash) as [->|Hc].
    + apply andb_prop in H as [Hs%negb_true_iff H]. apply refused_exact in Hs; [|done].
      destruct rest as [|c rest]; [exists [part]; split_and!; auto|].
      destruct (IH EmptyString eq_refl H) as (l & Hne & Hl & E). exists (part :: l).
      split_and!; [done|by constructor|]. destruct l as [|y l]; [done|].
      change (join_names (part :: y :: l)) with (part +:+ String slash (join_names (y :: l))).
      rewrite append_assoc. destruct E as [<-|E]; [by left|]. right. simpl in *. by rewrite <- E.
    + destruct (IH (push_back part c)) as (l & Hne & Hl & E); [|done|].
      { unfold push_back, slash_free in *. rewrite forall_bytes_append, Hp. cbn [forall_bytes].
        by rewrite (proj2 (Ascii.eqb_neq _ _) Hc). }
      exists l. by rewrite push_back_append in E.
Qed.

Lemma safe_relative_exact p : safe_relative p = true ↔ owned_path p.
Proof.
  unfold safe_relative, owned_path. rewrite andb_true_iff, negb_true_iff, !orb_false_iff, N.ltb_ge. split.
  - intros [[[[[[_ Hz] _] _] Hb] Hc] H]. split_and!; [done..|]. by apply (parts_names _ EmptyString).
  - intros (Hz & Hb & Hc & l & Hne & Hl & E). destruct (parts_accept l Hl Hne) as [H1 H2].
    destruct l as [|x l]; [done|]. apply Forall_cons in Hl as [[[Hx Hx'] _] _].
    assert (∃ c s, p = String c s ∧ Ascii.eqb c slash = false) as (c & s & -> & Hs).
    { destruct x as [|c x]; [done|]. apply andb_prop in Hx as [Hx%negb_true_iff _].
      destruct E as [-> | ->]; destruct l; eexists c, _; split; try done; reflexivity. }
    split_and!; try done; [|by destruct E as [-> | ->]].
    cbn [front_is]. unfold contains_byte in Hb. cbn [forall_bytes] in Hb.
    apply negb_false_iff, andb_prop in Hb as [Hb%negb_true_iff%Ascii.eqb_neq _].
    apply Ascii.eqb_neq. intros ->. by apply Hb.
Qed.

(** What a manifest must satisfy, on its data. *)
Record ownership_closed (m : OwnershipManifest) : Prop := mk_ownership_closed {
  closed_identity : valid_identifier (manifest_id m) = true ∧ valid_identifier (owner_install_id m) = true ∧
    valid_identifier (created_by_transaction_id m) = true;
  closed_root : owner_target_root m ≠ EmptyString ∧ size (owner_target_root m) <= 32768;
  closed_files : Forall (fun f => owned_path (relative_path f) ∧ size (sha256 f) = 64 ∧
    forall_bytes Sha256.is_lower_hex (sha256 f) = true) (files m);
  closed_directories : Forall owned_path (directories m);
  closed_files_distinct : NoDup (map relative_path (files m));
  closed_directories_distinct : NoDup (directories m);
  closed_parents : Forall (fun f => (relative_path f ∉ directories m) ∧
    parents_in (directories m) (relative_path f)) (files m);
}.

Lemma closed_exact m : ownership_ok m ↔ ownership_closed m.
Proof.
  assert (∀ f, file_ok f = true ↔ owned_path (relative_path f) ∧ size (sha256 f) = 64 ∧
    forall_bytes Sha256.is_lower_hex (sha256 f) = true) as Hf.
  { intros f. unfold file_ok, sha256_text. by rewrite !andb_true_iff, safe_relative_exact, N.eqb_eq. }
  assert (∀ l, Forall (fun f => file_ok f = true) l ↔ Forall (fun f => owned_path (relative_path f) ∧
    size (sha256 f) = 64 ∧ forall_bytes Sha256.is_lower_hex (sha256 f) = true) l) as Hfs.
  { intros l. apply Forall_iff. intros f. apply Hf. }
  assert (∀ l, Forall (fun d => safe_relative d = true) l ↔ Forall owned_path l) as Hds.
  { intros l. apply Forall_iff. intros d. apply safe_relative_exact. }
  split; intros [H1 H2 H3%Hfs H4%Hds H5 H6 H7]; by split.
Qed.

(** C15 Ownership records: [validate_ownership] accepts exactly the manifests of
    proper identities whose paths are plain relative paths and all different,
    whose files are no directories and have all their parents among the
    directories, and sorts them; what [write_ownership] writes for such a
    manifest is read back, under either lookup identity, exactly when the text
    is at most 4 MiB, has at most 100000 JSON values and its paths are UTF-8;
    otherwise the reader throws. *)
Theorem ownership_record_exact m : sizes_ok m →
  (∀ m', validate_ownership m = Ok m' ↔ m' = sorted_manifest m ∧ ownership_closed m') ∧
  ∀ m' id, validate_ownership m = Ok m' → id = manifest_id m' ∨ id = owner_install_id m' →
  let written := with_digest (Sha256.sha256 (canonical (ownership_payload m'))) m' in
  ownership_digest m' = Ok (manifest_digest written) ∧
  outcome (readable written (ownership_text written)) written (decode_ownership_record (ownership_text written) id).
Proof.
  intros Hs. split; [intros m'; by rewrite validate_exact, closed_exact|]. intros m' id Hv Hid. cbv zeta.
  split; [apply ownership_digest_eq|]. by apply (written_decodes m m' id).
Qed.

End StateFacts.
