(* ===== verification/InstalledFacts.v ===== *)
(** Installed-state records: what [serialize_installed_state] writes,
    [decode_installed_record] reads back. *)

From Stdlib Require Import Ascii String NArith ZArith Lia Sorted.
From stdpp Require Import base list strings gmap sets.
From S2P Require Import Prelude Utf8 Sha256 StdMap Json JsonFacts JsonParse JsonProps Path PathFacts.
From S2P Require Import Effects World RecordIo TextFacts StateRepository StateFacts.

Module InstalledFacts.
Import Json JsonFacts JsonParse JsonProps TextFacts Path PathFacts Effects World RecordIo StateRepository StateFacts.

Lemma entrypoint_shape e : entrypoint_value e = object [("entrypoint_id", string_value (entrypoint_id e));
    ("kind", string_value (entry_kind e)); ("relative_path", string_value (entry_relative_path e))].
Proof. reflexivity. Qed.

Definition verification_value (v : VerificationSummary) : value := object [
    ("report_digest", string_value (report_digest v)); ("report_id", string_value (report_id v));
    ("status", string_value (report_status v)); ("verified_at", string_value (verified_at v))].

Definition abi_value (s : InstalledState) : value := object [
    ("major", unsigned_integer (setup_abi_major s)); ("minor", unsigned_integer (setup_abi_minor s));
    ("provider_revision", string_value (provider_revision s))].

Lemma installed_shape s : installed_document s = object [
    ("audit_chain_id", string_value (audit_chain_id s));
    ("component_selection", array (map string_value (component_selection s)));
    ("created_at", string_value (created_at s));
    ("entrypoints", array (map entrypoint_value (entrypoints s)));
    ("install_id", string_value (install_id s));
    ("last_verification", verification_value (last_verification s));
    ("lifecycle_status", string_value (lifecycle_status s));
    ("ownership_manifest_digest", string_value (ownership_manifest_digest s));
    ("ownership_manifest_ref", string_value (ownership_manifest_ref s));
    ("product_id", string_value (product_id s));
    ("product_version", string_value (product_version s));
    ("recipe_digest", string_value (recipe_digest s));
    ("schema", string_value installed_schema);
    ("setup_abi", abi_value s);
    ("source_archive_digest", string_value (source_archive_digest s));
    ("target_root", string_value (target_root s));
    ("target_scope", string_value "portable");
    ("transaction_id", string_value (transaction_id s))].
Proof. reflexivity. Qed.

Lemma parse_installed_document s :
  parse_installed (installed_document s) = (validate_installed s;; Ok s).
Proof.
  rewrite installed_shape. unfold parse_installed. next tt. next false. next tt.
  next (install_id s). next (product_id s). next (product_version s). next (recipe_digest s).
  next (source_archive_digest s). next (target_root s). next (map string_value (component_selection s)).
  rewrite (bind_step _ _ (component_selection s)).
  2: { induction (component_selection s) as [|c l IH]; [done|]. simpl map_result in *. by rewrite IH. }
  next (ownership_manifest_ref s). next (ownership_manifest_digest s). next (map entrypoint_value (entrypoints s)).
  rewrite (bind_step _ _ (entrypoints s)).
  2: { induction (entrypoints s) as [|e l IH]; [done|]. simpl map_result in *. rewrite IH. by destruct e. }
  next (abi_value s). next tt. next (setup_abi_major s). next (setup_abi_minor s). next (provider_revision s).
  next (transaction_id s). next (created_at s).
  rewrite (bind_step _ _ (last_verification s)) by (by destruct s as [? ? ? ? ? ? ? ? ? ? ? ? ? ? ? [] ? ?]).
  next (audit_chain_id s). next (lifecycle_status s). by destruct s.
Qed.

(** ** Validated states *)

Lemma installed_wf s : setup_abi_major s <= uint64_max → setup_abi_minor s <= uint64_max →
  wf (installed_document s).
Proof.
  intros H1 H2. rewrite installed_shape. split; [by_sorted|].
  split_and!; try done; try (split; [by_sorted|done]).
  - by induction (component_selection s).
  - induction (entrypoints s) as [|e l IH]; [done|]. split; [|done]. rewrite entrypoint_shape.
    split; [by_sorted|done].
Qed.

Lemma installed_count s : count (installed_document s) =
  26 + N.of_nat (length (component_selection s)) + 4 * N.of_nat (length (entrypoints s)).
Proof.
  rewrite installed_shape. cbn [count fold_right snd verification_value abi_value].
  assert (∀ l, fold_right (fun x n => count x + n) 0 (map string_value l) = N.of_nat (length l)) as ->.
  { induction l as [|d l IH]; [done|]. cbn [map fold_right length count]. rewrite IH. lia. }
  assert (∀ l, fold_right (fun x n => count x + n) 0 (map entrypoint_value l) = 4 * N.of_nat (length l)) as ->.
  { induction l as [|f l IH]; [done|]. cbn [map fold_right length]. rewrite IH.
    change (count (entrypoint_value f)) with 4. lia. }
  lia.
Qed.

(** The strings of a valid state that need not be short ASCII. *)
Definition free_text (s : InstalledState) : list string :=
  [product_version s; target_root s; created_at s; report_id (last_verification s);
   verified_at (last_verification s)] ++ map entry_relative_path (entrypoints s).

Lemma reference_shape r : reference_refused r = false →
  r = "ownership/" +:+ ownership_record_id r +:+ ".json" ∧ valid_identifier (ownership_record_id r) = true.
Proof.
  unfold reference_refused. intros H. bool_hyps. split; [|done]. unfold ownership_record_id, size in *.
  rewrite <- (str_take_drop 10 r) at 1. f_equal; [done|].
  rewrite <- (str_take_drop (String.length r - 15) (str_drop 10 r)) at 1. f_equal.
  rewrite str_drop_drop. rewrite <- H1. f_equal. lia.
Qed.

Lemma reference_fits r : reference_refused r = false → string_ok default_limits r = true.
Proof.
  intros [E [Ha Hs]%identifier_ascii]%reference_shape. rewrite E, string_fits.
  - apply ascii_valid_utf8. by rewrite !ascii_append, Ha.
  - rewrite !size_append. change (size "ownership/") with 10. change (size ".json") with 5.
    change (max_string_bytes default_limits) with (1024 * 1024). lia.
Qed.

Lemma set_mem_fits x l : StdMap.set_mem x l = true → forallb valid_identifier l = true →
  string_ok default_limits x = true.
Proof.
  intros Hx%set_mem_iff%list_elem_of_In Hl. rewrite forallb_forall in Hl. by apply identifier_fits, Hl.
Qed.

Lemma components_ok l : ∀ seen r, fold_result check_component seen l = Ok r →
  forallb valid_identifier l = true.
Proof.
  induction l as [|c l IH]; intros seen r H; [done|]. cbn [fold_result] in H.
  apply bind_ok in H as (s & Hs & H). unfold check_component in Hs.
  apply bind_unit in Hs as [Hs%throw_if_ok _]. bool_hyps. simpl. apply IH in H. by rewrite H, andb_true_r.
Qed.

Lemma components_fit l seen r : fold_result check_component seen l = Ok r →
  forallb (fits default_limits 2) (map string_value l) = true.
Proof.
  intros H%components_ok. induction l as [|c l IH]; [done|]. simpl in H. apply andb_prop in H as [Hc Hl].
  cbn [map forallb fits]. by rewrite (identifier_fits c Hc), IH.
Qed.

Lemma entrypoint_fits e seen r : check_entrypoint seen e = Ok r →
  fits default_limits 2 (entrypoint_value e) = string_ok default_limits (entry_relative_path e).
Proof.
  unfold check_entrypoint. intros [H%throw_if_ok _]%bind_unit. bool_hyps. rewrite entrypoint_shape.
  assert (string_ok default_limits (entry_kind e) = true) as Hk.
  { apply (set_mem_fits _ ["application"; "tool"; "server"]); [|done]. unfold StdMap.set_mem. cbn [existsb].
    match goal with H : context [entry_kind e] |- _ => revert H end.
    by destruct (String.eqb (entry_kind e) "application"), (String.eqb (entry_kind e) "tool"),
      (String.eqb (entry_kind e) "server"). }
  cbn [fits forallb fst snd]. rewrite Hk, (identifier_fits (entrypoint_id e)), !identifier_fits by (done || reflexivity).
  by destruct (string_ok default_limits (entry_relative_path e)).
Qed.

Lemma entrypoints_fit l : ∀ seen r, fold_result check_entrypoint seen l = Ok r →
  forallb (fits default_limits 2) (map entrypoint_value l) =
  forallb (string_ok default_limits) (map entry_relative_path l).
Proof.
  induction l as [|e l IH]; intros seen r H; [done|]. cbn [fold_result] in H. apply bind_ok in H as (s & Hs & H).
  cbn [map forallb]. by rewrite (entrypoint_fits e _ _ Hs), (IH _ _ H).
Qed.

Lemma installed_fits s : validate_installed s = Ok tt →
  fits default_limits 0 (installed_document s) = forallb (string_ok default_limits) (free_text s).
Proof.
  unfold validate_installed. rewrite !bind_any. intros ([u Hi] & [u1 Hst] & [r1 Hc] & [r2 He] & Hr%throw_if_ok).
  apply throw_if_ok in Hi, Hst. unfold identity_refused in Hi. bool_hyps.
  rewrite installed_shape. unfold verification_value, abi_value, free_text. cbn [fits forallb fst snd].
  change (0 + 1 + 1) with 2.
  rewrite (entrypoints_fit _ _ _ He), (reference_fits _ Hr), (components_fit _ _ _ Hc).
  rewrite (set_mem_fits (report_status _) verification_status), (set_mem_fits (lifecycle_status s) lifecycle)
    by (done || reflexivity).
  repeat match goal with
  | |- context [string_ok default_limits ?x] =>
    first [rewrite (identifier_fits x) by (assumption || reflexivity) | rewrite (sha256_fits x) by assumption]
  end.
  rewrite forallb_app. cbn [forallb]. change (_ <=? max_depth default_limits) with true. cbn [andb].
  repeat match goal with |- context [string_ok default_limits ?x] => destruct (string_ok default_limits x) end;
    by destruct (forallb _ _).
Qed.

Definition installed_text (s : InstalledState) : string := canonical (installed_document s) +:+ newline.

(** When the reader accepts the text of a valid state. *)
Definition readable_state (s : InstalledState) : bool :=
  (size (installed_text s) <=? 4 * 1024 * 1024) && (forallb (string_ok default_limits) (free_text s) &&
    (26 + N.of_nat (length (component_selection s)) + 4 * N.of_nat (length (entrypoints s)) <=? 100000)).

Definition abi_ok (s : InstalledState) : Prop := setup_abi_major s <= uint64_max ∧ setup_abi_minor s <= uint64_max.

Lemma parse_installed_text s : validate_installed s = Ok tt → abi_ok s →
  outcome (readable_state s) (installed_document s) (parse (installed_text s) default_limits).
Proof.
  intros Hv [H1 H2].
  pose proof (parse_canonical_space default_limits (installed_document s) newline
    (installed_wf s H1 H2) eq_refl) as Hp.
  rewrite installed_count, installed_fits in Hp by done. exact Hp.
Qed.

Lemma decode_installed_text s : validate_installed s = Ok tt → abi_ok s →
  outcome (readable_state s) s (decode_installed_record (installed_text s)).
Proof.
  intros Hv Ha. pose proof (parse_installed_text s Hv Ha) as Hp. unfold decode_installed_record, outcome in *.
  destruct (readable_state s) eqn:Eb.
  - apply andb_prop in Eb as [Hz%N.leb_le _]. rewrite (proj2 (N.ltb_ge _ _)) by lia.
    rewrite Hp. cbn [throw_if mbind result_bind]. unfold canonical_record.
    fold (installed_text s). rewrite String.eqb_refl. cbn [negb andb throw_if mbind result_bind].
    by rewrite parse_installed_document, Hv.
  - destruct (4 * 1024 * 1024 <? size (installed_text s)); [by eexists|].
    destruct Hp as [what Hp]. rewrite Hp. by exists what.
Qed.

(** Installed-state records: a state is serialised exactly when it is valid,
    and the reader returns that very state from the text when the text is at most
    4 MiB, has at most 100000 JSON values and its free strings are UTF-8 of at
    most the permitted length; otherwise the reader throws. *)
Theorem installed_record_exact s text : abi_ok s → serialize_installed_state s = Ok text →
  validate_installed s = Ok tt ∧ text = installed_text s ∧
  outcome (readable_state s) s (decode_installed_record text).
Proof.
  unfold serialize_installed_state. intros Ha (u & Hv & H%ok_inj)%bind_ok. destruct u.
  fold (installed_text s) in H. subst text. split; [done|]. split; [done|]. by apply decode_installed_text.
Qed.

End InstalledFacts.
