(* ===== verification/StateHost.v ===== *)
(** The state repository on a host: what a read returns under any interference,
    and recording an installation on an undisturbed host, end to end. *)

From Stdlib Require Import Ascii String NArith ZArith Lia Sorted.
From stdpp Require Import base list strings gmap sets.
From S2P Require Import Prelude Effects Utf8 Sha256 StdMap Json JsonFacts JsonParse Path PathFacts World.
From S2P Require Import RecordIo RecordFacts DirectoryFacts TextFacts AuditFacts StateRepository StateFacts.
From S2P Require Import InstalledFacts.

Module StateHost.
Import Json JsonFacts JsonParse Path PathFacts Effects World RecordIo RecordFacts DirectoryFacts.
Import SortFacts StateRepository StateFacts InstalledFacts.

(** ** What the decoders guarantee *)

Lemma parse_installed_valid v s : parse_installed v = Ok s → validate_installed s = Ok tt.
Proof.
  unfold parse_installed. intros H.
  repeat match goal with H : mbind _ _ = Ok _ |- _ => apply bind_ok in H as (? & ? & H) end.
  apply ok_inj in H. subst s. by match goal with u : unit |- _ => destruct u end.
Qed.

Lemma decode_installed_valid text s : decode_installed_record text = Ok s → validate_installed s = Ok tt.
Proof.
  unfold decode_installed_record. intros H. do 3 apply bind_ok in H as (? & _ & H).
  by eapply parse_installed_valid.
Qed.

Lemma parse_ownership_valid v m : parse_ownership v = Ok m → ownership_ok m.
Proof.
  unfold parse_ownership. intros H. do 12 apply bind_ok in H as (? & _ & H). by apply validate_exact in H as [_ ?].
Qed.

(** A manifest that may back an installed state. *)
Definition sealed_manifest (m : OwnershipManifest) : Prop :=
  ownership_ok m ∧ manifest_digest m = Sha256.sha256 (canonical (ownership_payload m)).

Lemma decode_ownership_valid text id m : decode_ownership_record text id = Ok m →
  sealed_manifest m ∧ (manifest_id m = id ∨ owner_install_id m = id).
Proof.
  unfold decode_ownership_record. intros H. do 4 apply bind_ok in H as (? & _ & H).
  apply bind_ok in H as (m' & Hm & H). apply bind_ok in H as (bad & Hb & H).
  apply bind_unit in H as [->%throw_if_ok H]. apply bind_unit in H as [Hi%throw_if_ok H]. apply ok_inj in H as ->.
  apply or_else_false in Hb as [_ Hb]. rewrite ownership_digest_eq in Hb.
  apply ok_inj, negb_false_iff, String.eqb_eq in Hb. apply parse_ownership_valid in Hm.
  split; [by split|]. apply andb_false_iff in Hi as [Hi|Hi]; apply negb_false_iff, String.eqb_eq in Hi; auto.
Qed.

(** ** Reading on any host *)

(** The manifest agrees with the state that refers to it. *)
Definition backs (m : OwnershipManifest) (s : InstalledState) : Prop :=
  manifest_digest m = ownership_manifest_digest s ∧ owner_install_id m = install_id s ∧
  owner_target_root m = target_root s.

Lemma binding_refused m s :
  negb (String.eqb (manifest_digest m) (ownership_manifest_digest s)) ||
  negb (String.eqb (owner_install_id m) (install_id s)) ||
  negb (String.eqb (owner_target_root m) (target_root s)) = false ↔ backs m s.
Proof. unfold backs. rewrite !orb_false_iff, !negb_false_iff, !String.eqb_eq. tauto. Qed.

Lemma require_binding_inv root s what w u w' : require_binding root s what w = (Ok u, w') →
  ∃ m, sealed_manifest m ∧ backs m s.
Proof.
  unfold require_binding, read_ownership. intros H. apply seq_ok in H as (m & w1 & Hm & H).
  apply seq_ok in Hm as (u0 & w2 & _ & Hm). apply seq_ok in Hm as (text & w3 & _ & Hm).
  apply lift_ok in Hm as [[Hs _]%decode_ownership_valid _].
  destruct (_ || _) eqn:E; [done|]. apply binding_refused in E. by exists m.
Qed.

Definition candidate (install : string) (s : InstalledState) : Prop :=
  validate_installed s = Ok tt ∧ install_id s = install.

Lemma collect_candidates_inv directory install listing : ∀ cs w cs' w',
  collect_candidates directory install cs listing w = (Ok cs', w') →
  Forall (candidate install) cs → Forall (candidate install) cs'.
Proof.
  induction listing as [|entry listing IH]; intros cs w cs' w' H Hcs; cbn [collect_candidates] in H.
  { by injection H as <- _. }
  apply seq_ok in H as (cs1 & w1 & Ha & H). eapply IH; [exact H|]. unfold admit_candidate in Ha.
  destruct (_ || _) eqn:E in Ha; [done|]. apply seq_ok in Ha as (text & w2 & _ & Ha).
  apply seq_ok in Ha as (s & w3 & Hs & Ha). apply lift_ok in Hs as [Hs%decode_installed_valid _].
  destruct (_ && _) eqn:En in Ha; [done|]. injection Ha as <- _.
  destruct (String.eqb_spec (install_id s) install); [|done]. apply Forall_app. split; [done|]. by constructor.
Qed.

(** C14 Whatever the host does meanwhile, a state that [read_installed] or
    [read_installed_snapshot] returns is a valid state of the requested
    installation (and transaction), and a valid ownership manifest whose digest
    is the SHA-256 of its canonical payload backs it: the digest, installation
    and target root the state records are those of the manifest. *)
Theorem read_state_sound root install transaction w s w' :
  (read_installed root install w = (Ok s, w') →
    candidate install s ∧ ∃ m, sealed_manifest m ∧ backs m s) ∧
  (read_installed_snapshot root install transaction w = (Ok s, w') →
    candidate install s ∧ transaction_id s = transaction ∧ ∃ m, sealed_manifest m ∧ backs m s).
Proof.
  split.
  - unfold read_installed. intros H. apply seq_ok in H as (u & w1 & _ & H). cbv zeta in H.
    apply seq_ok in H as (u2 & w2 & _ & H). apply seq_ok in H as (listing & w3 & _ & H).
    destruct listing as [listing|]; [|done]. apply seq_ok in H as (cs & w4 & Hc & H).
    apply collect_candidates_inv in Hc; [|done]. destruct (last (sort_by older cs)) as [s'|] eqn:El; [|done].
    apply seq_ok in H as (u3 & w5 & Hb & H). injection H as -> _.
    apply require_binding_inv in Hb. split; [|done]. rewrite Forall_forall in Hc. apply Hc.
    rewrite <- (sort_by_perm older cs). by apply last_Some_elem_of.
  - unfold read_installed_snapshot. intros H. apply seq_ok in H as (u & w1 & _ & H).
    apply seq_ok in H as (text & w2 & _ & H). apply seq_ok in H as (s' & w3 & Hs & H).
    apply lift_ok in Hs as [Hs%decode_installed_valid _]. destruct (_ || _) eqn:E; [done|]. bool_hyps.
    apply seq_ok in H as (u3 & w5 & Hb & H). injection H as -> _. apply require_binding_inv in Hb. by split_and!.
Qed.

(** ** Recording an installation on an undisturbed host *)

Definition name_binds (nm : string) (s : InstalledState) : Prop :=
  nm = snapshot_name (install_id s) (transaction_id s) ∨ nm = install_id s +:+ ".json".

(** What an entry of the directory of states holds. *)
Definition record_of (d : fs) (cl : list string) (entry : list string * kind) (s : InstalledState) : Prop :=
  ∃ i text, name_binds (entry_name entry) s ∧ is_regular (snd entry) = true ∧
    holds_file d (abs_text (cl ++ [entry_name entry])) i text ∧ size text <= 4 * 1024 * 1024 ∧
    decode_installed_record text = Ok s.

(** The directory of states holds exactly these records. *)
Definition repository (d : fs) (cl : list string) (states : list InstalledState) : Prop :=
  Forall2 (record_of d cl) (listing d cl) states.

Lemma identifier_slash_free id : valid_identifier id = true → slash_free id = true.
Proof.
  unfold valid_identifier. intros H. bool_hyps. unfold slash_free. eapply forall_bytes_impl; [|done].
  intros c Hc. apply negb_true_iff, Ascii.eqb_neq. intros ->. vm_compute in Hc. discriminate.
Qed.

Lemma identifier_nonempty id : valid_identifier id = true → (0 < String.length id)%nat.
Proof. destruct id; [done|simpl; lia]. Qed.

(** A name that ends in [.json] after at least one other byte. *)
Definition json_name (nm : string) : Prop := ∃ stem, nm = stem +:+ ".json" ∧ slash_free stem = true ∧
  (0 < String.length stem)%nat.

Lemma json_name_safe nm : json_name nm → safe_name nm.
Proof.
  intros (stem & -> & Hs & Hl).
  assert (∀ x, stem +:+ ".json" = x → (5 < String.length x)%nat) as Hlen
    by (intros x <-; rewrite length_append; simpl; lia).
  split; [split|split].
  - unfold slash_free in *. by rewrite forall_bytes_append, Hs.
  - destruct stem; [simpl in Hl; lia|done].
  - intros Hx%Hlen. simpl in Hx. lia.
  - intros Hx%Hlen. simpl in Hx. lia.
Qed.

Lemma identifier_json id : valid_identifier id = true → json_name (id +:+ ".json").
Proof. exists id. auto using identifier_slash_free, identifier_nonempty. Qed.

Lemma validate_ids s : validate_installed s = Ok tt →
  valid_identifier (install_id s) = true ∧ valid_identifier (transaction_id s) = true.
Proof.
  unfold validate_installed. intros [H%throw_if_ok _]%bind_unit. unfold identity_refused in H. bool_hyps. done.
Qed.

Lemma snapshot_json s : validate_installed s = Ok tt → json_name (snapshot_name (install_id s) (transaction_id s)).
Proof.
  intros [Hi Ht]%validate_ids. exists (install_id s +:+ "." +:+ transaction_id s). unfold snapshot_name.
  rewrite !append_assoc. split; [done|]. split.
  - apply identifier_slash_free in Hi, Ht. unfold slash_free in *. by rewrite !forall_bytes_append, Hi, Ht.
  - apply identifier_nonempty in Hi. rewrite length_append. lia.
Qed.

Lemma name_binds_json nm s : name_binds nm s → validate_installed s = Ok tt → json_name nm.
Proof. intros [->| ->] Hv; [by apply snapshot_json|]. by apply identifier_json, validate_ids. Qed.

Lemma json_name_accepted nm : json_name nm →
  (size nm <=? 5) || negb (String.eqb (str_drop (String.length nm - 5) nm) ".json") = false.
Proof.
  intros (stem & -> & _ & Hl). rewrite size_append, length_append. change (size ".json") with 5.
  change (String.length ".json") with 5%nat. rewrite Nat.add_sub, str_drop_all, String.eqb_refl.
  rewrite (proj2 (N.leb_gt _ _)) by (unfold size; lia). done.
Qed.

Definition of_install (install : string) (states : list InstalledState) : list InstalledState :=
  List.filter (fun s => String.eqb (install_id s) install) states.

Lemma of_install_app install a b : of_install install (a ++ b) = of_install install a ++ of_install install b.
Proof. apply List.filter_app. Qed.

Section Directory.
Context (cl : list string) (install : string).
Hypothesis Hcl : Forall safe_name cl.

Lemma runs_admit w cs entry s : quiet w → record_of (disk w) cl entry s →
  runs w (admit_candidate (abs_text cl) install cs entry) (cs ++ of_install install [s]) (disk w).
Proof.
  intros Hq (i & text & Hn & Hr & Hf & Hz & Hd). pose proof (decode_installed_valid _ _ Hd) as Hv.
  pose proof (name_binds_json _ _ Hn Hv) as Hj. unfold admit_candidate. fold (entry_name entry).
  rewrite Hr. cbn [negb orb]. rewrite (json_name_accepted _ Hj).
  rewrite abs_text_append by (by apply safe_plain || by apply json_name_safe).
  eapply runs_bind; [eapply runs_read_stable_text; [done| |exact Hf|exact Hz]|].
  { rewrite <- abs_text_append by (by apply safe_plain || by apply json_name_safe). by apply child_path, json_name_safe. }
  intros w1 Q1 D1 _. cbv beta. eapply runs_bind; [by apply runs_lift|]. intros w2 Q2 D2 _. cbv beta.
  assert (negb (String.eqb (entry_name entry) (snapshot_name (install_id s) (transaction_id s))) &&
    negb (String.eqb (entry_name entry) (install_id s +:+ ".json")) = false) as ->.
  { apply andb_false_iff. rewrite !negb_false_iff, !String.eqb_eq. exact Hn. }
  unfold of_install. cbn [List.filter]. rewrite <- D1, <- D2.
  destruct (String.eqb (install_id s) install); rewrite ?app_nil_r; by apply runs_ret.
Qed.

Lemma runs_collect listing states : ∀ w cs, quiet w → Forall2 (record_of (disk w) cl) listing states →
  runs w (collect_candidates (abs_text cl) install cs listing) (cs ++ of_install install states) (disk w).
Proof.
  revert states. induction listing as [|entry listing IH]; intros states w cs Hq H; inversion H as [|? y ? l' ? ?]; subst.
  { rewrite app_nil_r. by apply runs_ret. }
  cbn [collect_candidates]. eapply runs_bind; [by apply runs_admit|]. intros w1 Q1 D1 _. cbv beta.
  rewrite <- D1 in *. rewrite (of_install_app install [y] l' : of_install install (y :: l') = _), app_assoc. by apply IH.
Qed.
End Directory.

(** ** The newest state *)

Lemma older_asym a b : older a b = true → older b a = false.
Proof.
  unfold older. destruct (string_ltb (created_at a) (created_at b)) eqn:E; simpl.
  - intros _. by rewrite (ltb_asym _ _ E).
  - intros [H1%negb_true_iff H2]%andb_prop. by rewrite H1, (ltb_asym _ _ H2).
Qed.

Lemma older_false a b : older b a = false ↔ string_ltb (created_at b) (created_at a) = false ∧
  (created_at a = created_at b → string_ltb (transaction_id b) (transaction_id a) = false).
Proof.
  unfold older. rewrite orb_false_iff, andb_false_iff, negb_false_iff. split.
  - intros [H1 [H2|H2]]; [|done]. split; [done|]. intros E. rewrite E, string_ltb_irrefl in H2. done.
  - intros [H1 H2]. split; [done|]. destruct (string_ltb (created_at a) (created_at b)) eqn:E; [by left|right].
    apply H2. by apply string_ltb_total.
Qed.

Lemma older_trans a b c : not_after older a b → not_after older b c → not_after older a c.
Proof.
  unfold not_after. rewrite !older_false. intros [H1 H2] [H3 H4]. split; [by eapply ltb_trans_le|].
  intros E. rewrite <- E in H3. pose proof (string_ltb_total _ _ H3 H1) as E1. rewrite <- E in H4.
  eapply ltb_trans_le; [by apply H2|by apply H4].
Qed.

Lemma newest states s rest : states ≡ₚ s :: rest → Forall (fun c => older c s = true) rest →
  last (sort_by older states) = Some s.
Proof.
  intros Hp Hr. assert (sort_by older states ≡ₚ s :: rest) as Hs by (etrans; [apply sort_by_perm|done]).
  destruct (last (sort_by older states)) as [x|] eqn:El.
  - f_equal. pose proof (last_sorted older _ x (sort_by_sorted older older_asym older_trans states) El) as Hl.
    rewrite Hs in Hl. apply Forall_cons in Hl as [Hl _]. apply last_Some_elem_of in El. rewrite Hs in El.
    apply elem_of_cons in El as [->|El]; [done|]. rewrite Forall_forall in Hr. specialize (Hr x El).
    destruct Hl as [Hl| ->]; [|done]. unfold not_after in Hl. congruence.
  - apply last_None in El. rewrite El in Hs. by apply Permutation_nil_cons in Hs.
Qed.

Lemma Forall2_perm {A B} (R : A → B → Prop) l l' k : l ≡ₚ l' → Forall2 R l k →
  ∃ k', k ≡ₚ k' ∧ Forall2 R l' k'.
Proof.
  intros Hp. revert k. induction Hp as [|x l l' _ IH|x y l|l1 l2 l3 _ IH1 _ IH2]; intros k H.
  - by exists k.
  - inversion H as [|? b ? k1 Hb Hk]; subst. destruct (IH _ Hk) as (k' & E & ?). exists (b :: k'). by rewrite E; auto.
  - inversion H as [|? b ? k1 Hb Hk]; subst. inversion Hk as [|? c ? k2 Hc Hk2]; subst.
    exists (c :: b :: k2). split; [apply Permutation_swap|]. by repeat constructor.
  - destruct (IH1 _ H) as (k1 & E1 & H1). destruct (IH2 _ H1) as (k2 & E2 & H2). exists k2. by rewrite E1.
Qed.

(** ** Adding records *)

Lemma record_adds d d' p i content cl entry s : adds_file d d' p i content → record_of d cl entry s →
  record_of d' cl entry s.
Proof.
  intros Ha (j & text & Hn & Hr & Hf & Hz & Hd). exists j, text. split_and!; try done. by eapply holds_file_adds.
Qed.

Lemma repository_adds d d' cl nm i content states s : fs_ok d → Forall plain_name (cl ++ [nm]) →
  adds_file d d' (abs_text (cl ++ [nm])) i content → repository d cl states →
  record_of d' cl (cl ++ [nm], regular content) s →
  ∃ states', states' ≡ₚ s :: states ∧ repository d' cl states'.
Proof.
  intros Hok Hp Ha Hr Hs. pose proof (listing_adds _ _ _ _ _ _ Hok Hp Ha) as Hl. symmetry in Hl.
  destruct (Forall2_perm (record_of d' cl) _ _ (s :: states) Hl) as (states' & E & H).
  - constructor; [done|]. eapply Forall2_impl; [exact Hr|]. intros x y. by eapply record_adds.
  - exists states'. by rewrite E.
Qed.

Lemma repository_elsewhere d d' cl p i content states : fs_ok d → adds_file d d' p i content →
  child_of cl (names p) = false → repository d cl states →
  ∃ states', states' ≡ₚ states ∧ repository d' cl states'.
Proof.
  intros Hok Ha E Hr. pose proof (listing_elsewhere _ _ _ _ _ _ Hok Ha E) as Hl. symmetry in Hl.
  destruct (Forall2_perm (record_of d' cl) _ _ states Hl) as (states' & E' & H).
  - eapply Forall2_impl; [exact Hr|]. intros x y. by eapply record_adds.
  - exists states'. by rewrite E'.
Qed.

Lemma adds_file_ok d d' p i content : fs_ok d → adds_file d d' p i content → fs_ok d'.
Proof.
  intros Hok (v & t & _ & _ & He & Hx) n j. rewrite He, Hx.
  intros [[_ <-]|[_ Hn]]%lookup_insert_Some; [by rewrite lookup_insert_eq; eexists|].
  destruct (decide (j = i)) as [->|]; [by rewrite lookup_insert_eq; eexists|].
  rewrite lookup_insert_ne by done. by eapply Hok.
Qed.

(** ** The operations on an undisturbed host *)

Section Record.
Context (l : list string).
Hypothesis Hl : Forall safe_name l.

Definition ownership_dir : list string := l ++ ["ownership"].
Definition installed_dir : list string := l ++ ["installed"].

Lemma dir_safe nm : safe_name nm → Forall safe_name (l ++ [nm]).
Proof. intros. apply Forall_app. by split; [|constructor]. Qed.

Lemma ownership_safe : Forall safe_name ownership_dir.
Proof. apply dir_safe. by repeat split. Qed.

Lemma installed_safe : Forall safe_name installed_dir.
Proof. apply dir_safe. by repeat split. Qed.

Lemma record_safe cl nm : Forall safe_name cl → json_name nm → Forall safe_name (cl ++ [nm]).
Proof. intros. apply Forall_app. split; [done|]. constructor; [by apply json_name_safe|done]. Qed.

Lemma child_text cl nm : Forall safe_name cl → safe_name nm → abs_text cl /+ nm = abs_text (cl ++ [nm]).
Proof. intros Hc Hn. apply abs_text_append; [by apply safe_plain|by destruct Hn]. Qed.

Lemma installed_text_path : abs_text l /+ "installed" = abs_text installed_dir.
Proof. apply child_text; [done|by repeat split]. Qed.

Lemma ownership_text_path : abs_text l /+ "ownership" = abs_text ownership_dir.
Proof. apply child_text; [done|by repeat split]. Qed.

Definition manifest_file (id : string) : list string := ownership_dir ++ [id +:+ ".json"].
Definition state_file (s : InstalledState) : list string :=
  installed_dir ++ [snapshot_name (install_id s) (transaction_id s)].

Lemma ownership_path_text id : valid_identifier id = true →
  ownership_path (abs_text l) id = abs_text (manifest_file id).
Proof.
  intros H. unfold ownership_path. rewrite ownership_text_path.
  apply child_text; [apply ownership_safe|]. by apply json_name_safe, identifier_json.
Qed.

Lemma state_path_text s : validate_installed s = Ok tt →
  abs_text l /+ "installed" /+ snapshot_name (install_id s) (transaction_id s) = abs_text (state_file s).
Proof.
  intros H. rewrite installed_text_path. apply child_text; [apply installed_safe|]. by apply json_name_safe, snapshot_json.
Qed.

Lemma record_normal cl nm : Forall safe_name cl → json_name nm → normal_absolute_path (abs_text (cl ++ [nm])).
Proof. intros Hc Hn. split; [done|]. by apply normal_abs_text, record_safe. Qed.

(** The manifest a state refers to is there and agrees with it. *)
Definition backed (d : fs) (s : InstalledState) : Prop :=
  let id := ownership_record_id (ownership_manifest_ref s) in
  ∃ m i text, holds_file d (abs_text (manifest_file id)) i text ∧ size text <= 16 * 1024 * 1024 ∧
    decode_ownership_record text id = Ok m ∧ backs m s.

Lemma validate_reference s : validate_installed s = Ok tt →
  valid_identifier (ownership_record_id (ownership_manifest_ref s)) = true.
Proof.
  unfold validate_installed. intros H. do 4 apply bind_ok in H as (? & _ & H).
  apply throw_if_ok in H. unfold reference_refused in H. bool_hyps. done.
Qed.

Lemma runs_read_ownership w id m i text : quiet w → valid_identifier id = true →
  holds_file (disk w) (abs_text (manifest_file id)) i text → size text <= 16 * 1024 * 1024 →
  decode_ownership_record text id = Ok m → runs w (read_ownership (abs_text l) id) m (disk w).
Proof.
  intros Hq Hid Hf Hz Hd. unfold read_ownership. rewrite Hid, ownership_path_text by done. cbn [guard].
  eapply runs_bind; [by apply runs_ret|]. intros w0 Q0 D0 _. cbv beta. rewrite <- D0 in *.
  eapply runs_bind; [eapply runs_read_stable_text; [done| |exact Hf|exact Hz]|].
  { apply record_normal; [apply ownership_safe|by apply identifier_json]. }
  intros w1 Q1 D1 _. cbv beta. rewrite <- D1. by apply runs_lift.
Qed.

Lemma runs_require_binding w s what : quiet w → validate_installed s = Ok tt → backed (disk w) s →
  runs w (require_binding (abs_text l) s what) tt (disk w).
Proof.
  intros Hq Hv (m & i & text & Hf & Hz & Hd & Hb). unfold require_binding.
  eapply runs_bind; [by eapply runs_read_ownership; [|apply validate_reference|..]|].
  intros w2 Q2 D2 _. cbv beta. rewrite (proj2 (binding_refused m s) Hb), <- D2. by apply runs_ret.
Qed.

(** Writing the manifest. *)
Lemma ensures_write_ownership w m m' : quiet w → safe_dir (disk w) ownership_dir →
  validate_ownership m = Ok m' → entries (disk w) !! manifest_file (manifest_id m') = None →
  let written := with_digest (Sha256.sha256 (canonical (ownership_payload m'))) m' in
  ensures w (write_ownership (abs_text l) m) (fun o d' => o = written ∧
    adds_file (disk w) d' (abs_text (manifest_file (manifest_id m'))) (fresh_inode (disk w)) (ownership_text written)).
Proof.
  intros Hq Hd Hv Hn written. pose proof Hv as [_ [(Hid & _) _ _ _ _ _ _]]%validate_exact.
  unfold write_ownership. rewrite ownership_text_path.
  eapply ensures_then; [apply runs_require_safe_directory; [done|apply ownership_safe|done]|].
  intros w1 Q1 D1 _. rewrite <- D1 in *.
  eapply ensures_then; [by apply runs_lift|]. intros w2 Q2 D2 _. cbv beta. rewrite <- D2 in *.
  eapply ensures_then; [apply runs_lift; [done|apply ownership_digest_eq]|].
  intros w3 Q3 D3 _. cbv beta zeta. rewrite <- D3 in *. fold written. fold (ownership_text written).
  change (manifest_id written) with (manifest_id m'). rewrite ownership_path_text by done.
  eapply ensures_bind.
  { apply write_new_ensures; [done| |done|done]. apply record_safe; [apply ownership_safe|by apply identifier_json]. }
  intros [] w4 Q4 A4 _. cbv beta. by apply ensures_ret.
Qed.

(** Writing the state. *)
Lemma ensures_write_installed w s : quiet w → safe_dir (disk w) installed_dir → validate_installed s = Ok tt →
  backed (disk w) s → entries (disk w) !! state_file s = None →
  ensures w (write_installed (abs_text l) s) (fun _ d' =>
    adds_file (disk w) d' (abs_text (state_file s)) (fresh_inode (disk w)) (installed_text s)).
Proof.
  intros Hq Hd Hv Hb Hn. unfold write_installed. rewrite state_path_text, installed_text_path by done.
  eapply ensures_then; [apply runs_require_safe_directory; [done|apply installed_safe|done]|].
  intros w1 Q1 D1 _. rewrite <- D1 in *.
  eapply ensures_then; [by apply runs_lift|]. intros w2 Q2 D2 _. cbv beta. rewrite <- D2 in *.
  eapply ensures_then; [by apply runs_require_binding|]. intros w3 Q3 D3 _. cbv beta. rewrite <- D3 in *.
  eapply ensures_then.
  { apply (runs_lift w3 _ (installed_text s)); [done|]. unfold serialize_installed_state. by rewrite Hv. }
  intros w4 Q4 D4 _. cbv beta. rewrite <- D4 in *.
  apply write_new_ensures; [done| |done|done]. by apply record_safe, snapshot_json; [apply installed_safe|].
Qed.

(** Reading the newest state. *)
Lemma runs_read_installed w s states rest : quiet w → safe_dir (disk w) installed_dir →
  validate_installed s = Ok tt → repository (disk w) installed_dir states →
  of_install (install_id s) states ≡ₚ s :: rest → Forall (fun c => older c s = true) rest →
  backed (disk w) s → runs w (read_installed (abs_text l) (install_id s)) s (disk w).
Proof.
  intros Hq Hd Hv Hr Hp Ho Hb. unfold read_installed. destruct (validate_ids _ Hv) as [-> _]. cbn [guard].
  eapply runs_bind; [by apply runs_ret|]. intros w0 Q0 D0 _. cbv beta zeta. rewrite <- D0 in *.
  rewrite installed_text_path.
  eapply runs_bind; [apply runs_require_safe_directory; [done|apply installed_safe|done]|].
  intros w1 Q1 D1 _. cbv beta. rewrite <- D1 in *.
  eapply runs_bind; [by apply runs_observe|]. intros w2 Q2 D2 _. rewrite <- D2 in *. cbv beta.
  rewrite names_abs_text by (apply safe_plain, installed_safe). rewrite (safe_dir_here _ _ Hd).
  fold (listing (disk w2) installed_dir). cbv iota.
  eapply runs_bind; [apply runs_collect; [apply installed_safe|done|exact Hr]|].
  intros w3 Q3 D3 _. rewrite <- D3 in *. cbv beta. cbn [app]. rewrite (newest _ _ _ Hp Ho).
  eapply runs_bind; [by apply runs_require_binding|]. intros w4 Q4 D4 _. cbv beta. rewrite <- D4. by apply runs_ret.
Qed.

(** Reading one snapshot. *)
Lemma runs_read_snapshot w s i text : quiet w → holds_file (disk w) (abs_text (state_file s)) i text →
  size text <= 4 * 1024 * 1024 → decode_installed_record text = Ok s → backed (disk w) s →
  runs w (read_installed_snapshot (abs_text l) (install_id s) (transaction_id s)) s (disk w).
Proof.
  intros Hq Hf Hz Hd Hb. pose proof (decode_installed_valid _ _ Hd) as Hv.
  unfold read_installed_snapshot. destruct (validate_ids _ Hv) as [-> ->]. cbn [guard andb].
  eapply runs_bind; [by apply runs_ret|]. intros w0 Q0 D0 _. cbv beta. rewrite <- D0 in *.
  rewrite state_path_text by done.
  eapply runs_bind; [eapply runs_read_stable_text; [done| |exact Hf|exact Hz]|].
  { by apply record_normal, snapshot_json; [apply installed_safe|]. }
  intros w1 Q1 D1 _. cbv beta. rewrite <- D1 in *.
  eapply runs_bind; [by apply runs_lift|]. intros w2 Q2 D2 _. cbv beta. rewrite <- D2 in *.
  rewrite !String.eqb_refl. cbn [negb orb].
  eapply runs_bind; [by apply runs_require_binding|]. intros w4 Q4 D4 _. cbv beta. rewrite <- D4. by apply runs_ret.
Qed.

(** The two directories are apart. *)
Lemma manifest_elsewhere id : child_of installed_dir (manifest_file id) = false.
Proof.
  unfold child_of, below, manifest_file. apply andb_false_iff. left. apply bool_decide_eq_false. intros [H _].
  assert (length installed_dir = length ownership_dir) as E by (unfold installed_dir, ownership_dir; by rewrite !length_app).
  rewrite E, take_app_length in H. by apply app_inv_head in H.
Qed.

Lemma state_record d s i : validate_installed s = Ok tt → abi_ok s → readable_state s = true →
  holds_file d (abs_text (state_file s)) i (installed_text s) →
  record_of d installed_dir (state_file s, regular (installed_text s)) s.
Proof.
  intros Hv Ha Hr Hf. exists i, (installed_text s). unfold entry_name, state_file. cbn [fst snd].
  rewrite last_snoc. cbn [default]. pose proof (decode_installed_text s Hv Ha) as Hd. rewrite Hr in Hd.
  apply andb_prop in Hr as [Hz%N.leb_le _]. split_and!; try done. by left.
Qed.

Lemma written_backs d m m' s i : sizes_ok m → validate_ownership m = Ok m' →
  let written := with_digest (Sha256.sha256 (canonical (ownership_payload m'))) m' in
  readable written (ownership_text written) = true → backs written s →
  ownership_record_id (ownership_manifest_ref s) = manifest_id m' →
  holds_file d (abs_text (manifest_file (manifest_id m'))) i (ownership_text written) → backed d s.
Proof.
  intros Hs Hv written Hr Hb Hid Hf. pose proof (written_decodes m m' (manifest_id m') Hs Hv (or_introl eq_refl)) as Hd.
  fold written in Hd. unfold outcome in Hd. rewrite Hr in Hd. unfold backed. rewrite Hid.
  apply andb_prop in Hr as [Hz%N.leb_le _]. exists written, i, (ownership_text written). split_and!; [done|lia|done..].
Qed.

(** A manifest and a state of it that can be recorded next to [states]. *)
Record recordable (d : fs) (m m' : OwnershipManifest) (s : InstalledState) (states : list InstalledState) : Prop := {
  manifest_valid : validate_ownership m = Ok m';
  manifest_sizes : sizes_ok m;
  manifest_new : entries d !! manifest_file (manifest_id m') = None;
  manifest_readable : let written := with_digest (Sha256.sha256 (canonical (ownership_payload m'))) m' in
    readable written (ownership_text written) = true ∧ backs written s;
  state_valid : validate_installed s = Ok tt;
  state_abi : abi_ok s;
  state_new : entries d !! state_file s = None;
  state_readable : readable_state s = true;
  state_reference : ownership_record_id (ownership_manifest_ref s) = manifest_id m';
  state_newest : Forall (fun c => older c s = true) (of_install (install_id s) states);
}.

Lemma file_apart s id : state_file s ≠ manifest_file id.
Proof. unfold state_file, manifest_file. intros [E _]%app_inj_tail. by apply app_inj_tail in E as [_ E]. Qed.

Lemma of_install_perm install a b : a ≡ₚ b → of_install install a ≡ₚ of_install install b.
Proof. apply filter_perm. Qed.

Lemma of_install_self s states : of_install (install_id s) (s :: states) = s :: of_install (install_id s) states.
Proof. unfold of_install. cbn [List.filter]. by rewrite String.eqb_refl. Qed.

(** A well-formed host whose directory of states holds these records, in some
    order. *)
Definition holds_states (d : fs) (states : list InstalledState) : Prop :=
  fs_ok d ∧ safe_dir d ownership_dir ∧ safe_dir d installed_dir ∧
  ∃ states', states' ≡ₚ states ∧ repository d installed_dir states'.

Lemma manifest_step w m m' s states : quiet w → holds_states (disk w) states → recordable (disk w) m m' s states →
  ensures w (write_ownership (abs_text l) m) (fun o d' =>
    o = with_digest (Sha256.sha256 (canonical (ownership_payload m'))) m' ∧
    holds_states d' states ∧ backed d' s ∧ entries d' !! state_file s = None).
Proof.
  intros Hq (Hok & Ho & Hi & states1 & E1 & Hr) [Hm Hz Hmn [Hmr Hb] Hv Ha Hsn Hsr Hid Hnew].
  pose proof (validate_exact m m') as [Hx _]. destruct (Hx Hm) as [_ [(Hmid & _) _ _ _ _ _ _]]. clear Hx.
  pose proof (ensures_write_ownership w m m' Hq Ho Hm Hmn) as (o & d' & R & -> & A). exists (with_digest (Sha256.sha256 (canonical (ownership_payload m'))) m'), d'.
  split; [exact R|]. split; [done|].
  assert (names (abs_text (manifest_file (manifest_id m'))) = manifest_file (manifest_id m')) as En.
  { apply names_abs_text, safe_plain, record_safe; [apply ownership_safe|by apply identifier_json]. }
  split; [|split].
  - split; [by eapply adds_file_ok|]. do 2 (split; [by eapply safe_dir_adds|]).
    destruct (repository_elsewhere _ _ installed_dir _ _ _ _ Hok A ltac:(rewrite En; apply manifest_elsewhere) Hr)
      as (states2 & E2 & Hr2). exists states2. split; [by rewrite E2|done].
  - eapply written_backs; [done..|]. by eapply adds_file_holds.
  - destruct A as (v & t & _ & _ & He & _). rewrite He, En, lookup_insert_ne; [done|].
    intros E. by apply (file_apart s (manifest_id m')).
Qed.

Lemma state_step w s states : quiet w → holds_states (disk w) states → backed (disk w) s →
  validate_installed s = Ok tt → abi_ok s → readable_state s = true → entries (disk w) !! state_file s = None →
  ensures w (write_installed (abs_text l) s) (fun _ d' => holds_states d' (s :: states) ∧ backed d' s ∧
    ∃ i, holds_file d' (abs_text (state_file s)) i (installed_text s)).
Proof.
  intros Hq (Hok & Ho & Hi & states1 & E1 & Hr) Hb Hv Ha Hsr Hn.
  destruct (ensures_write_installed w s Hq Hi Hv Hb Hn) as (u & d' & R & A). exists u, d'. split; [exact R|].
  pose proof (adds_file_holds _ _ _ _ _ Hok eq_refl A) as Hf. split; [|split].
  - split; [by eapply adds_file_ok|]. do 2 (split; [by eapply safe_dir_adds|]).
    destruct (repository_adds _ _ _ _ _ _ _ s Hok (safe_plain _ (record_safe _ _ installed_safe (snapshot_json s Hv)))
      A Hr) as (states2 & E2 & Hr2); [by eapply state_record|]. exists states2. split; [by rewrite E2, E1|done].
  - destruct Hb as (m & i & text & Hh & Hb). exists m, i, text. split; [by eapply holds_file_adds|done].
  - by eexists.
Qed.

(** C13 Recording an installation, end to end: on an undisturbed host whose
    directory of states holds exactly [states], writing a valid manifest and a
    state bound to it, newer than every state of the same installation, makes
    both readers return that state, and afterwards the directory holds exactly
    the old states and the new one, so the next installation can be recorded the
    same way.  [recordable] asks besides that the two file names are free and
    that both records can be read back (at most 4 MiB and 100000 JSON values,
    paths in UTF-8): the writers do not check this, and a record beyond it is
    written and then refused by the readers, see [ownership_record_exact]. *)
Theorem record_installation w m m' s states :
  quiet w → holds_states (disk w) states → recordable (disk w) m m' s states →
  ensures w (
      written ← write_ownership (abs_text l) m;
      write_installed (abs_text l) s;;
      current ← read_installed (abs_text l) (install_id s);
      snapshot ← read_installed_snapshot (abs_text l) (install_id s) (transaction_id s);
      ret (written, current, snapshot)) (fun r d' =>
    r = (with_digest (Sha256.sha256 (canonical (ownership_payload m'))) m', s, s) ∧ holds_states d' (s :: states)).
Proof.
  intros Hq Hs Hrec. pose proof Hrec as [_ _ _ _ Hv Ha _ Hsr _ Hnew].
  eapply ensures_bind; [by eapply manifest_step|]. intros o w1 Q1 (-> & Hs1 & Hb1 & Hn1) _. cbv beta.
  eapply ensures_bind; [by eapply state_step|]. intros [] w2 Q2 (Hs2 & Hb2 & i & Hf) _. cbv beta.
  pose proof Hs2 as (_ & _ & Hi & states2 & E2 & Hr).
  eapply ensures_then.
  { eapply (runs_read_installed _ _ states2 (of_install (install_id s) states)); try done.
    by rewrite (of_install_perm _ _ _ E2), of_install_self. }
  intros w3 Q3 D3 _. cbv beta. rewrite <- D3 in *.
  eapply ensures_then.
  { pose proof (decode_installed_text s Hv Ha) as Hd. rewrite Hsr in Hd.
    apply andb_prop in Hsr as [Hz%N.leb_le _]. by eapply runs_read_snapshot. }
  intros w4 Q4 D4 _. cbv beta. rewrite <- D4 in *. by apply ensures_ret.
Qed.


End Record.
End StateHost.

(** A state repository at [/r], and the theorems about it at concrete records. *)

Module StateSample.
Import Json Path PathFacts Effects World RecordIo RecordFacts DirectoryFacts.
Import JsonParse AuditFacts StateRepository StateFacts InstalledFacts StateHost.

Definition digest_text : string := "00112233445566778899aabbccddeeff00112233445566778899aabbccddeeff".

Definition sample_manifest : OwnershipManifest :=
  mk_manifest "m1" EmptyString "app" "/app" "t1"
    [mk_owned "bin/tool" digest_text 7; mk_owned "bin/app" digest_text 42] ["lib"; "bin"].

Definition sample_sorted : OwnershipManifest :=
  mk_manifest "m1" EmptyString "app" "/app" "t1"
    [mk_owned "bin/app" digest_text 42; mk_owned "bin/tool" digest_text 7] ["bin"; "lib"].

Definition sample_seal : string := Eval vm_compute in Sha256.sha256 (canonical (ownership_payload sample_sorted)).

Definition sample_state : InstalledState :=
  mk_installed "app" "product" "1.0" digest_text digest_text "/app" ["core"] "ownership/m1.json" sample_seal
    [mk_entrypoint "main" "bin/app" "application"] 1 0 "rev" "t1" "2026-01-01T00:00:00Z"
    (mk_summary "v1" digest_text "pass" "2026-01-01T00:00:00Z") "chain" "installed".

Lemma sample_validated : validate_ownership sample_manifest = Ok sample_sorted.
Proof. vm_compute. reflexivity. Qed.

Lemma sample_sizes : sizes_ok sample_manifest.
Proof. repeat constructor; vm_compute; discriminate. Qed.

Lemma sample_abi : abi_ok sample_state.
Proof. split; vm_compute; discriminate. Qed.

Definition sample_written : OwnershipManifest := with_digest sample_seal sample_sorted.

Lemma sample_seal_eq : Sha256.sha256 (canonical (ownership_payload sample_sorted)) = sample_seal.
Proof. vm_compute. reflexivity. Qed.

Lemma sample_readable : readable sample_written (ownership_text sample_written) = true.
Proof. vm_compute. reflexivity. Qed.

Lemma ownership_record_exact_witness :
  decode_ownership_record (ownership_text sample_written) "app" = Ok sample_written ∧
  decode_ownership_record (ownership_text sample_written) "m1" = Ok sample_written.
Proof.
  destruct (ownership_record_exact sample_manifest sample_sizes) as [_ H].
  pose proof (H sample_sorted "app" sample_validated (or_intror eq_refl)) as (_ & H1).
  pose proof (H sample_sorted "m1" sample_validated (or_introl eq_refl)) as (_ & H2).
  rewrite sample_seal_eq in H1, H2. fold sample_written in H1, H2. unfold outcome in H1, H2.
  rewrite sample_readable in H1, H2. exact (conj H1 H2).
Defined.

Lemma sample_serialized : serialize_installed_state sample_state = Ok (installed_text sample_state).
Proof. vm_compute. reflexivity. Qed.

Lemma sample_state_readable : readable_state sample_state = true.
Proof. vm_compute. reflexivity. Qed.

Lemma installed_record_exact_witness : decode_installed_record (installed_text sample_state) = Ok sample_state.
Proof.
  destruct (installed_record_exact _ _ sample_abi sample_serialized) as (_ & _ & H). unfold outcome in H.
  rewrite sample_state_readable in H. exact H.
Defined.

(** A final separator hides that a path is both a file and a directory. *)
Example separator_hides_directory : is_ok (validate_ownership
  (mk_manifest "m1" EmptyString "app" "/app" "t1" [mk_owned "bin/" digest_text 1] ["bin"])) = true.
Proof. vm_compute. reflexivity. Qed.

(** ** The empty repository *)

Definition empty_fs : fs :=
  mk_fs {[ [] := 1; ["r"] := 2; ["r"; "ownership"] := 3; ["r"; "installed"] := 4 ]}
    {[ 1 := mk_inode 1 directory 0; 2 := mk_inode 1 directory 0; 3 := mk_inode 1 directory 0;
       4 := mk_inode 1 directory 0 ]}.

Lemma empty_fs_ok : fs_ok empty_fs.
Proof.
  intros n i H. assert (i ∈ [1; 2; 3; 4]) as Hi.
  { simpl in H. rewrite !lookup_insert_Some, lookup_singleton_Some in H. set_solver. }
  repeat (apply elem_of_cons in Hi as [->|Hi]; [by eexists|]). by apply elem_of_nil in Hi.
Qed.

Lemma empty_holds : holds_states ["r"] empty_fs [].
Proof.
  split; [apply empty_fs_ok|]. split; [by intros [|[|[|k]]]|]. split; [by intros [|[|[|k]]]|].
  exists []. split; [done|]. unfold repository.
  assert (listing empty_fs (installed_dir ["r"]) = []) as -> by (vm_compute; reflexivity). constructor.
Qed.

Lemma sample_recordable : recordable ["r"] empty_fs sample_manifest sample_sorted sample_state [].
Proof.
  split; [apply sample_validated|apply sample_sizes|vm_compute; reflexivity| |vm_compute; reflexivity
    |apply sample_abi|vm_compute; reflexivity|apply sample_state_readable|reflexivity|constructor].
  cbv zeta. rewrite sample_seal_eq. split; [apply sample_readable|by repeat split].
Qed.

Lemma record_installation_witness : ensures (quiet_world empty_fs) (
    written ← write_ownership "/r" sample_manifest;
    write_installed "/r" sample_state;;
    current ← read_installed "/r" "app";
    snapshot ← read_installed_snapshot "/r" "app" "t1";
    ret (written, current, snapshot)) (fun r d' =>
  r = (sample_written, sample_state, sample_state) ∧ holds_states ["r"] d' [sample_state]).
Proof.
  pose proof (record_installation ["r"] ltac:(by repeat constructor) (quiet_world empty_fs) sample_manifest
    sample_sorted sample_state [] ltac:(done) empty_holds sample_recordable) as H.
  rewrite sample_seal_eq in H. exact H.
Defined.

(** ** A repository with one installation *)

Definition one_fs : fs :=
  mk_fs {[ [] := 1; ["r"] := 2; ["r"; "ownership"] := 3; ["r"; "installed"] := 4;
           ["r"; "ownership"; "m1.json"] := 5; ["r"; "installed"; "app.t1.json"] := 6 ]}
    {[ 1 := mk_inode 1 directory 0; 2 := mk_inode 1 directory 0; 3 := mk_inode 1 directory 0;
       4 := mk_inode 1 directory 0; 5 := mk_inode 1 (regular (ownership_text sample_written)) 0;
       6 := mk_inode 1 (regular (installed_text sample_state)) 0 ]}.

Lemma one_reads :
  fst (read_installed "/r" "app" (quiet_world one_fs)) = Ok sample_state ∧
  fst (read_installed_snapshot "/r" "app" "t1" (quiet_world one_fs)) = Ok sample_state.
Proof. vm_compute. split; reflexivity. Qed.

Lemma read_state_sound_witness : candidate "app" sample_state ∧
  ∃ m, sealed_manifest m ∧ backs m sample_state.
Proof.
  pose proof one_reads as [H _].
  destruct (read_installed "/r" "app" (quiet_world one_fs)) as [r w] eqn:E. cbn [fst] in H. subst r.
  exact (proj1 (read_state_sound "/r" "app" "t1" (quiet_world one_fs) sample_state w) E).
Defined.

End StateSample.
