(* ===== verification/Replacement.v ===== *)
(** The replacement session: the exchange of one installed root for a staged one,
    [runtime/setup/transaction/usk_replacement_session.{h,cpp}].  Each phase adds
    one record to a journal directory of its own; a member function is a
    computation on the session object and the host. *)

From Stdlib Require Import Ascii String NArith ZArith Lia.
From stdpp Require Import base list strings gmap sets.
From S2P Require Import Prelude Effects Sha256 StdMap Json Path World RecordIo TextFacts StreamJournal Journal.
From S2P Require Import SessionHost Session.

Module Replacement.
Import Json Path Effects World RecordIo SortFacts SessionHost.

(** ** Data *)

Record ReplacementSpec := mk_spec {
  transaction_id : string;
  plan_id : string;
  plan_digest : string;
  live_root : path;
  staged_root : path;
  retained_root : path;
  state_root : path;
  old_root_identity : string;
  old_snapshot_digest : string;
  new_root_identity : string;
  new_snapshot_digest : string;
  required_commit_authority : Journal.CommitAuthorityRequirement }.

Record ReplacementInspection := mk_inspection {
  inspected_phase : string;
  disposition : string;
  journal_digest : string;
  live_root_exists : bool;
  staged_root_exists : bool;
  retained_root_exists : bool;
  available_actions : list string }.

(** ** Helpers *)

Definition maximum_snapshot_entries : N := 200000.
Definition maximum_snapshot_bytes : N := 2 ^ 34.

Definition sha256 (value : string) : bool :=
  (size value =? 64) && forall_bytes (fun ch => is_digit ch || is_lower_hex_alpha ch) value.

(** [fs::absolute(p)], which throws for an empty path. *)
Definition absolute_path (p : path) : io path :=
  a ← StableFile.absolute p;
  if is_empty a then fail "filesystem error: cannot make absolute path" else ret a.

Definition absolute_normal (p : path) : io path :=
  a ← absolute_path p; ret (lexically_normal a).

Definition normalized (p : path) : io string :=
  a ← absolute_normal p; ret (generic_string a).

Definition same_or_below (root candidate : path) : bool :=
  let relative := lexically_relative candidate root in
  if is_empty relative then path_eqb candidate root
  else negb (is_absolute relative) && negb (existsb (String.eqb "..") (components relative)).

Definition phase_filename (sequence : N) (phase : string) : string :=
  pad20 sequence +:+ "." +:+ phase +:+ ".json".

Definition valid_transition (from to : string) : bool :=
  (String.eqb from "intent" && String.eqb to "old_retire_prepared") ||
  (String.eqb from "old_retire_prepared" && String.eqb to "old_retired") ||
  (String.eqb from "old_retired" && String.eqb to "new_activate_prepared") ||
  (String.eqb from "new_activate_prepared" && String.eqb to "new_active") ||
  (String.eqb from "new_active" && String.eqb to "state_published") ||
  (String.eqb from "state_published" && String.eqb to "completed").

Definition journal_schema : string := "usk.replacement_transaction_journal.v1".

(** The normalized texts of the roots in a record. *)
Record RootTexts := mk_texts { retained_text : string; staged_text : string; target_text : string }.

Definition normalized_roots (spec : ReplacementSpec) : io RootTexts :=
  retained ← normalized (retained_root spec);
  staged ← normalized (staged_root spec);
  target ← normalized (live_root spec);
  ret (mk_texts retained staged target).

Definition payload_members (spec : ReplacementSpec) (roots : RootTexts) (sequence : N)
    (phase previous_digest : string) : list (string * value) :=
  [("new_root_identity", string_value (new_root_identity spec));
   ("new_snapshot_digest", string_value (new_snapshot_digest spec));
   ("old_root_identity", string_value (old_root_identity spec));
   ("old_snapshot_digest", string_value (old_snapshot_digest spec));
   ("phase", string_value phase);
   ("plan_digest", string_value (plan_digest spec));
   ("plan_id", string_value (plan_id spec));
   ("previous_journal_digest",
     if is_empty previous_digest then null_value else string_value previous_digest);
   ("required_commit_authority",
     string_value (Journal.commit_authority_name (required_commit_authority spec)));
   ("retained_root", string_value (retained_text roots));
   ("schema", string_value journal_schema);
   ("sequence", unsigned_integer sequence);
   ("staged_root", string_value (staged_text roots));
   ("target_root", string_value (target_text roots));
   ("transaction_id", string_value (transaction_id spec))].

Definition journal_payload (spec : ReplacementSpec) (roots : RootTexts) (sequence : N)
    (phase previous_digest : string) : value :=
  make_object (payload_members spec roots sequence phase previous_digest).

Definition journal_document (spec : ReplacementSpec) (roots : RootTexts) (sequence : N)
    (phase previous_digest : string) : result value :=
  let payload := journal_payload spec roots sequence phase previous_digest in
  digest ← sha256_canonical payload;
  members ← as_object payload;
  Ok (object (fst (StdMap.emplace "journal_digest" (string_value digest) members))).

Definition journal_members : list string :=
  ["journal_digest"; "new_root_identity"; "new_snapshot_digest"; "old_root_identity";
   "old_snapshot_digest"; "phase"; "plan_digest"; "plan_id"; "previous_journal_digest";
   "required_commit_authority"; "retained_root"; "schema"; "sequence"; "staged_root";
   "target_root"; "transaction_id"].

Definition exact_journal_members (v : value) : bool :=
  match v with
  | object members =>
    (length members =? length journal_members)%nat &&
    forallb (fun member => StdMap.set_mem (fst member) journal_members) members
  | _ => false
  end.

(** ** The snapshot of a root *)

(** [fs::is_symlink(fs::symlink_status(p))]. *)
Definition is_link (p : path) : io bool :=
  r ← status p;
  ret (match r with Some (_, x) => StableFile.is_symlink x | None => false end).

Definition directory_entry_value (relative : string) : value :=
  make_object [("relative_path", string_value relative); ("type", string_value "directory")].

Definition file_entry_value (relative digest : string) (bytes : N) : value :=
  make_object [("relative_path", string_value relative); ("sha256", string_value digest);
    ("size_bytes", unsigned_integer bytes); ("type", string_value "file")].

(** One entry of the iteration: the entries and the bytes so far. *)
Definition snapshot_entry (root : path) (st : list value * N) (entry : path * kind) : io (list value * N) :=
  let '(entries, bytes) := st in
  if maximum_snapshot_entries <=? N.of_nat (length entries)
  then fail "replacement snapshot entry budget exceeded"
  else
    let relative := generic_string (lexically_relative (fst entry) root) in
    match snd entry with
    | directory => ret (entries ++ [directory_entry_value relative], bytes)
    | regular _ =>
      file ← StableFile.open_stable (fst entry);
      let file_bytes := StableFile.size_bytes (StableFile.identity_ file) in
      if maximum_snapshot_bytes - bytes <? file_bytes
      then fail "replacement snapshot byte budget exceeded"
      else
        digest ← StableFile.sha256_hex file;
        StableFile.verify_unchanged file;;
        ret (entries ++ [file_entry_value relative digest file_bytes], bytes + file_bytes)
    | _ => fail "replacement snapshot contains linked or unsupported content"
    end.

(** [at("relative_path").as_string()], which every entry has. *)
Definition entry_key (v : value) : string :=
  match at_string v "relative_path" with Ok s => s | Throw _ => EmptyString end.

Definition entry_less (left right : value) : bool := string_ltb (entry_key left) (entry_key right).

Definition snapshot_value (entries : list value) : value :=
  make_object [("entries", array (sort_by entry_less entries));
    ("schema", string_value "usk.replacement_snapshot.v1")].

Definition replacement_snapshot_digest (root : path) : io string :=
  bad ← or_m (not_m (is_directory root)) (is_link root);
  if bad : bool then fail "replacement snapshot root is unavailable or linked"
  else
    listing ← Session.list_tree root;
    '(entries, _) ← fold_eff (snapshot_entry root) ([], 0) listing;
    lift (sha256_canonical (snapshot_value entries)).

Definition matches_root (p : path) (identity snapshot : string) : io bool :=
  otherwise
    (and_m (and_m (and_m (is_directory p) (not_m (is_link p)))
        (found ← observe_directory_identity p; ret (String.eqb found identity)))
      (found ← replacement_snapshot_digest p; ret (String.eqb found snapshot)))
    (ret false).

Definition volume_of (identity : string) : string :=
  if contains_byte (ascii_of_N 58) identity then before_colon identity else EmptyString.

(** ** The object *)

Record ReplacementSession := mk_replacement {
  spec_ : ReplacementSpec;
  injector_ : FaultInjector;
  journal_path_ : path;
  phase_ : string;
  journal_directory_identity_ : string;
  sequence_ : N }.

Definition act (A : Type) : Type := M (ReplacementSession * world) A.

Definition this : act ReplacementSession := s ← get; ret (fst s).
Definition update (f : ReplacementSession → ReplacementSession) : act unit :=
  modify (fun s => (f (fst s), snd s)).
Definition host {A} (m : io A) : act A := on_snd m.

Definition with_journal (directory identity : string) (s : ReplacementSession) : ReplacementSession :=
  mk_replacement (spec_ s) (injector_ s) directory (phase_ s) identity (sequence_ s).

Definition advance (phase : string) (s : ReplacementSession) : ReplacementSession :=
  mk_replacement (spec_ s) (injector_ s) (journal_path_ s) phase (journal_directory_identity_ s)
    (sequence_ s + 1).

(** [if (injector_) injector_(phase, point)]. *)
Definition notify (phase point : string) : act unit :=
  s ← this; host (inject (injector_ s) phase point).

Definition line_end : string := String (ascii_of_N 10) EmptyString.

(** The digest of the newest record. *)
Definition previous_digest (s : ReplacementSession) : io string :=
  if sequence_ s =? 0 then ret EmptyString
  else
    text ← read_stable_text (journal_path_ s /+ phase_filename (sequence_ s - 1) (phase_ s)) (1024 * 1024);
    lift (document ← parse text default_limits; at_string document "journal_digest").

Definition write_record (s : ReplacementSession) (next_phase previous : string) : io unit :=
  roots ← normalized_roots (spec_ s);
  document ← lift (journal_document (spec_ s) roots (sequence_ s) next_phase previous);
  write_new_durable_text (journal_path_ s /+ phase_filename (sequence_ s) next_phase)
    (canonical document +:+ line_end).

Definition persist (next_phase : string) : act unit :=
  s ← this;
  bad ← or_m (ret (negb (is_empty (phase_ s)) && negb (valid_transition (phase_ s) next_phase)))
    (identity ← host (observe_directory_identity (journal_path_ s));
     ret (negb (String.eqb identity (journal_directory_identity_ s))));
  if bad : bool then fail "replacement journal transition or identity is invalid"
  else
    previous ← host (previous_digest s);
    notify next_phase "before_journal";;
    host (write_record s next_phase previous);;
    update (advance next_phase);;
    notify next_phase "after_journal".

(** ** Construction *)

Definition spec_invalid (spec : ReplacementSpec) : bool :=
  negb (valid_identifier (transaction_id spec)) || negb (valid_identifier (plan_id spec)) ||
  negb (sha256 (plan_digest spec)) || negb (sha256 (old_snapshot_digest spec)) ||
  negb (sha256 (new_snapshot_digest spec)) || is_empty (old_root_identity spec) ||
  is_empty (new_root_identity spec).

(** The roots made absolute and normal. *)
Definition normal_spec (spec : ReplacementSpec) : io ReplacementSpec :=
  live ← absolute_normal (live_root spec);
  staged ← absolute_normal (staged_root spec);
  retained ← absolute_normal (retained_root spec);
  state ← absolute_normal (state_root spec);
  ret (mk_spec (transaction_id spec) (plan_id spec) (plan_digest spec) live staged retained state
    (old_root_identity spec) (old_snapshot_digest spec) (new_root_identity spec)
    (new_snapshot_digest spec) (required_commit_authority spec)).

Definition siblings_differ (spec : ReplacementSpec) : bool :=
  negb (path_eqb (parent_path (live_root spec)) (parent_path (staged_root spec))) ||
  negb (path_eqb (parent_path (live_root spec)) (parent_path (retained_root spec))) ||
  path_eqb (live_root spec) (staged_root spec) || path_eqb (live_root spec) (retained_root spec) ||
  path_eqb (staged_root spec) (retained_root spec).

Definition state_overlaps (spec : ReplacementSpec) : bool :=
  negb (String.eqb (volume_of (old_root_identity spec)) (volume_of (new_root_identity spec))) ||
  same_or_below (live_root spec) (state_root spec) || same_or_below (state_root spec) (live_root spec) ||
  same_or_below (staged_root spec) (state_root spec) || same_or_below (state_root spec) (staged_root spec) ||
  same_or_below (retained_root spec) (state_root spec) || same_or_below (state_root spec) (retained_root spec).

Definition live_is_old (spec : ReplacementSpec) : io bool :=
  matches_root (live_root spec) (old_root_identity spec) (old_snapshot_digest spec).
Definition live_is_new (spec : ReplacementSpec) : io bool :=
  matches_root (live_root spec) (new_root_identity spec) (new_snapshot_digest spec).
Definition staged_is_new (spec : ReplacementSpec) : io bool :=
  matches_root (staged_root spec) (new_root_identity spec) (new_snapshot_digest spec).
Definition retained_is_old (spec : ReplacementSpec) : io bool :=
  matches_root (retained_root spec) (old_root_identity spec) (old_snapshot_digest spec).

Definition roots_refused (spec : ReplacementSpec) : io bool :=
  or_m (or_m (or_m (or_m (ret (siblings_differ spec)) (exists_ (retained_root spec)))
    (not_m (live_is_old spec))) (not_m (staged_is_new spec))) (ret (state_overlaps spec)).

Definition journal_root (spec : ReplacementSpec) : path := state_root spec /+ "replacement-transactions".

(** The body of the constructor, on an object with the caller's spec. *)
Definition construct : act unit :=
  s ← this;
  if spec_invalid (spec_ s) then fail "replacement transaction identity is invalid"
  else
    spec ← host (normal_spec (spec_ s));
    update (fun s => mk_replacement spec (injector_ s) (journal_path_ s) (phase_ s)
      (journal_directory_identity_ s) (sequence_ s));;
    bad ← host (roots_refused spec);
    if bad : bool then fail "replacement roots do not match the reviewed same-volume identities"
    else
      let journals := journal_root spec in
      host (RecordIo.require_safe_directory journals);;
      host (create_directory_exclusive journals (transaction_id spec));;
      let directory := journals /+ transaction_id spec in
      identity ← host (observe_directory_identity directory);
      update (with_journal directory identity);;
      persist "intent".

Definition unborn (spec : ReplacementSpec) (injector : FaultInjector) : ReplacementSession :=
  mk_replacement spec injector EmptyString EmptyString EmptyString 0.

(** [ReplacementSession(spec, injector)]. *)
Definition replacement_session (spec : ReplacementSpec) (injector : FaultInjector) : io ReplacementSession :=
  fun w =>
    let '(r, (s, w)) := construct (unborn spec injector, w) in
    (match r with Ok _ => Ok s | Throw e => Throw e end, w).

(** ** Member functions *)

Definition retire_old_root : act unit :=
  s ← this;
  if negb (String.eqb (phase_ s) "intent")
  then raise (logic_error "old-root retirement is out of sequence")
  else
    let spec := spec_ s in
    lift (Journal.require_commit_authority (required_commit_authority spec));;
    persist "old_retire_prepared";;
    bad ← host (or_m (or_m (not_m (live_is_old spec)) (not_m (staged_is_new spec)))
      (exists_ (retained_root spec)));
    if bad : bool then fail "replacement roots changed before old-root retirement"
    else
      host (record_rename_no_replace (live_root spec) (retained_root spec));;
      s ← this;
      notify (phase_ s) "after_old_root_rename";;
      bad ← host (or_m (not_m (retained_is_old spec)) (exists_ (live_root spec)));
      if bad : bool then fail "retained old root cannot be proven after retirement"
      else persist "old_retired".

Definition activate_new_root : act unit :=
  s ← this;
  if negb (String.eqb (phase_ s) "old_retired")
  then raise (logic_error "new-root activation is out of sequence")
  else
    let spec := spec_ s in
    persist "new_activate_prepared";;
    bad ← host (or_m (or_m (exists_ (live_root spec)) (not_m (retained_is_old spec)))
      (not_m (staged_is_new spec)));
    if bad : bool then fail "replacement roots changed before new-root activation"
    else
      host (record_rename_no_replace (staged_root spec) (live_root spec));;
      s ← this;
      notify (phase_ s) "after_new_root_rename";;
      bad ← host (or_m (not_m (live_is_new spec)) (not_m (retained_is_old spec)));
      if bad : bool then fail "active new root cannot be proven after activation"
      else persist "new_active".

Definition mark_state_published : act unit :=
  s ← this;
  if negb (String.eqb (phase_ s) "new_active")
  then raise (logic_error "replacement state publication is out of sequence")
  else
    let spec := spec_ s in
    bad ← host (or_m (not_m (live_is_new spec)) (not_m (retained_is_old spec)));
    if bad : bool then fail "replacement state publication lost exact roots"
    else persist "state_published".

Definition mark_completed : act unit :=
  s ← this;
  if negb (String.eqb (phase_ s) "state_published")
  then raise (logic_error "replacement completion is out of sequence")
  else persist "completed".

(** ** Inspection *)

Definition binding_differs (spec : ReplacementSpec) (roots : RootTexts) (index : N) (text : string)
    (document : value) : result bool :=
  or_else (Ok (negb (exact_journal_members document) ||
      negb (String.eqb (canonical document +:+ line_end) text)))
  (or_else (differs document "schema" journal_schema)
  (or_else (found ← at_ document "sequence"; n ← as_unsigned found; Ok (negb (n =? index)))
  (or_else (differs document "transaction_id" (transaction_id spec))
  (or_else (differs document "plan_id" (plan_id spec))
  (or_else (differs document "plan_digest" (plan_digest spec))
  (or_else (differs document "target_root" (target_text roots))
  (or_else (differs document "staged_root" (staged_text roots))
  (or_else (differs document "retained_root" (retained_text roots))
  (or_else (differs document "old_root_identity" (old_root_identity spec))
  (or_else (differs document "old_snapshot_digest" (old_snapshot_digest spec))
  (or_else (differs document "new_root_identity" (new_root_identity spec))
  (or_else (differs document "new_snapshot_digest" (new_snapshot_digest spec))
    (differs document "required_commit_authority"
      (Journal.commit_authority_name (required_commit_authority spec))))))))))))))).

(** The loop state: the index, [prior_digest] and [prior_phase]. *)
Definition check_record (spec : ReplacementSpec) (roots : RootTexts) (st : N * string * string)
    (name text : string) : result (N * string * string) :=
  let '(index, prior_digest, prior_phase) := st in
  document ← parse text default_limits;
  bad ← binding_differs spec roots index text document;
  throw_if bad "replacement journal binding changed";;
  phase ← at_string document "phase";
  throw_if (((index =? 0) && negb (String.eqb phase "intent")) ||
      (negb (index =? 0) && negb (valid_transition prior_phase phase)))
    "replacement journal phase chain is invalid";;
  previous ← at_ document "previous_journal_digest";
  bad ← (if index =? 0 then Ok (negb (is_null previous))
         else digest ← as_string previous; Ok (negb (String.eqb digest prior_digest)));
  throw_if bad "replacement journal digest chain is invalid";;
  digest ← at_string document "journal_digest";
  members ← as_object document;
  bad ← or_else (Ok (negb (sha256 digest)))
    (or_else (actual ← sha256_canonical (object (StdMap.erase "journal_digest" members));
              Ok (negb (String.eqb actual digest)))
      (Ok (negb (String.eqb name (phase_filename index phase)))));
  throw_if bad "replacement journal digest or filename is invalid";;
  Ok (index + 1, digest, phase).

Definition read_record (spec : ReplacementSpec) (roots : RootTexts) (directory : path)
    (st : N * string * string) (name : string) : io (N * string * string) :=
  text ← read_stable_text (directory /+ name) (1024 * 1024);
  lift (check_record spec roots st name text).

(** One entry of the journal directory: the names so far. *)
Definition admit_record (records : list string) (entry : list string * kind) : result (list string) :=
  match snd entry with
  | regular _ =>
    throw_if (16 <=? N.of_nat (length records)) "replacement journal directory is not exact";;
    Ok (records ++ [default EmptyString (last (fst entry))])
  | _ => throw "replacement journal directory is not exact"
  end.

(** The object [result] survives the exceptions of the [try] block. *)
Definition look (A : Type) : Type := M (ReplacementInspection * world) A.

Definition assign (f : ReplacementInspection → ReplacementInspection) : look unit :=
  modify (fun s => (f (fst s), snd s)).

Definition set_live (b : bool) (r : ReplacementInspection) : ReplacementInspection :=
  mk_inspection (inspected_phase r) (disposition r) (journal_digest r) b (staged_root_exists r)
    (retained_root_exists r) (available_actions r).
Definition set_staged (b : bool) (r : ReplacementInspection) : ReplacementInspection :=
  mk_inspection (inspected_phase r) (disposition r) (journal_digest r) (live_root_exists r) b
    (retained_root_exists r) (available_actions r).
Definition set_retained (b : bool) (r : ReplacementInspection) : ReplacementInspection :=
  mk_inspection (inspected_phase r) (disposition r) (journal_digest r) (live_root_exists r)
    (staged_root_exists r) b (available_actions r).
Definition set_chain (phase digest : string) (r : ReplacementInspection) : ReplacementInspection :=
  mk_inspection phase (disposition r) digest (live_root_exists r) (staged_root_exists r)
    (retained_root_exists r) (available_actions r).
Definition set_corrupt (r : ReplacementInspection) : ReplacementInspection :=
  mk_inspection "corrupt" "indeterminate" (journal_digest r) (live_root_exists r)
    (staged_root_exists r) (retained_root_exists r) ["retain_for_operator"].
Definition set_disposition (verdict : string) (actions : list string) (r : ReplacementInspection)
    : ReplacementInspection :=
  mk_inspection (inspected_phase r) verdict (journal_digest r) (live_root_exists r)
    (staged_root_exists r) (retained_root_exists r) actions.

(** The journal: its last phase and digest. *)
Definition read_journal (spec : ReplacementSpec) : io (string * string) :=
  let directory := journal_root spec /+ transaction_id spec in
  RecordIo.require_safe_directory directory;;
  listing ← list_directory directory;
  match listing with
  | None => fail "filesystem error: directory iterator cannot open directory"
  | Some listing =>
    records ← lift (fold_result admit_record [] listing);
    match sort_names records with
    | [] => fail "replacement journal is empty"
    | records =>
      roots ← normalized_roots spec;
      '(_, digest, phase) ← fold_eff (read_record spec roots directory) (0, EmptyString, EmptyString) records;
      ret (phase, digest)
    end
  end.

(** The [try] block. *)
Definition read_state (spec : ReplacementSpec) : look unit :=
  live ← on_snd (exists_ (live_root spec));
  assign (set_live live);;
  staged ← on_snd (exists_ (staged_root spec));
  assign (set_staged staged);;
  retained ← on_snd (exists_ (retained_root spec));
  assign (set_retained retained);;
  '(phase, digest) ← on_snd (read_journal spec);
  assign (set_chain phase digest).

Definition phase_in (phase : string) (l : list string) : bool := existsb (String.eqb phase) l.

Definition classify (live_old live_new staged_new retained_old : bool) (r : ReplacementInspection)
    : ReplacementInspection :=
  let phase := inspected_phase r in
  let retain := ["retain_for_operator"] in
  if live_old && staged_new && negb (retained_root_exists r) &&
    phase_in phase ["intent"; "old_retire_prepared"]
  then set_disposition "no_replacement_effect" retain r
  else if negb (live_root_exists r) && staged_new && retained_old &&
    phase_in phase ["old_retire_prepared"; "old_retired"; "new_activate_prepared"]
  then set_disposition "old_retired" retain r
  else if live_new && negb (staged_root_exists r) && retained_old &&
    phase_in phase ["new_activate_prepared"; "new_active"; "state_published"; "completed"]
  then if String.eqb phase "completed" then set_disposition "completed" (available_actions r) r
       else set_disposition "new_active" retain r
  else set_disposition "indeterminate" retain r.

(** The [try] block, its handler, and what follows: [false] after the handler. *)
Definition read_or_corrupt (spec : ReplacementSpec) : look bool :=
  otherwise (read_state spec;; ret true) (assign set_corrupt;; ret false).

Definition fresh_inspection : ReplacementInspection :=
  mk_inspection EmptyString EmptyString EmptyString false false false [].

(** What follows the [try] block. *)
Definition judge (spec : ReplacementSpec) (result : ReplacementInspection) : io ReplacementInspection :=
  live_old ← live_is_old spec;
  live_new ← live_is_new spec;
  staged_new ← staged_is_new spec;
  retained_old ← retained_is_old spec;
  ret (classify live_old live_new staged_new retained_old result).

Definition inspect_normal (spec : ReplacementSpec) : io ReplacementInspection := fun w =>
  let '(r, (result, w)) := read_or_corrupt spec (fresh_inspection, w) in
  match r with
  | Throw e => (Throw e, w)
  | Ok false => (Ok result, w)
  | Ok true => judge spec result w
  end.

Definition inspect (supplied : ReplacementSpec) : io ReplacementInspection :=
  spec ← normal_spec supplied; inspect_normal spec.

End Replacement.
