(* ===== verification/ReplacementJournal.v ===== *)
(** The journal of a replacement: a specification has exactly one sequence of
    records, and the inspection accepts exactly its beginnings. *)

From Stdlib Require Import Ascii String NArith ZArith Lia.
From stdpp Require Import base list strings gmap sets.
From S2P Require Import Prelude Effects Utf8 Sha256 StdMap Json JsonFacts JsonParse JsonProps Path PathFacts.
From S2P Require Import World RecordIo DirectoryFacts TextFacts Journal SessionHost Replacement.

Module ReplacementJournal.
Import Json JsonFacts JsonParse JsonProps Path DirectoryFacts TextFacts Replacement.

Definition phases : list string :=
  ["intent"; "old_retire_prepared"; "old_retired"; "new_activate_prepared"; "new_active";
   "state_published"; "completed"].

Definition phase_at (k : nat) : string := nth k phases EmptyString.

(** The phase before the record [k]. *)
Definition phase_before (k : nat) : string := match k with O => EmptyString | S k => phase_at k end.

Lemma transition_exact k phase : (k < 7)%nat →
  valid_transition (phase_at k) phase = true ↔ (S k < 7)%nat ∧ phase = phase_at (S k).
Proof.
  intros Hk. destruct k as [|[|[|[|[|[|[|k]]]]]]]; [..|exfalso; lia]; unfold valid_transition, phase_at, phases; cbn [nth];
    repeat match goal with |- context [String.eqb ?a ?b && _] =>
      let v := eval vm_compute in (String.eqb a b) in change (String.eqb a b) with v end;
    cbn [andb orb]; rewrite ?orb_false_r, ?String.eqb_eq;
    (split; [intros ->; split; [lia|done]|by intros [_ ->]]) || (split; [done|intros [? _]; lia]).
Qed.

Section Journal.
Context (spec : ReplacementSpec) (roots : RootTexts).

(** The digest of the newest of the first [k] records. *)
Fixpoint digest_after (k : nat) : string :=
  match k with
  | O => EmptyString
  | S k => Sha256.sha256 (canonical (object
      (payload_members spec roots (N.of_nat k) (phase_at k) (digest_after k))))
  end.

Definition payload (k : nat) : list (string * value) :=
  payload_members spec roots (N.of_nat k) (phase_at k) (digest_after k).

Definition record_value (k : nat) : value :=
  object (fst (StdMap.emplace "journal_digest" (string_value (digest_after (S k))) (payload k))).

Definition record_text (k : nat) : string := canonical (record_value k) +:+ line_end.

Definition record_name (k : nat) : string := phase_filename (N.of_nat k) (phase_at k).

Definition state_after (k : nat) : N * string * string := (N.of_nat k, digest_after k, phase_before k).

Lemma payload_value k : journal_payload spec roots (N.of_nat k) (phase_at k) (digest_after k) = object (payload k).
Proof. reflexivity. Qed.

Lemma document_eq k : journal_document spec roots (N.of_nat k) (phase_at k) (digest_after k) = Ok (record_value k).
Proof. unfold journal_document. rewrite payload_value, sha256_canonical_eq. reflexivity. Qed.

Lemma digest_text k : sha256 (digest_after (S k)) = true.
Proof.
  change (digest_after (S k)) with (Sha256.sha256 (canonical (object (payload k)))).
  destruct (Sha256.sha256_shape (canonical (object (payload k)))) as [E H]. unfold sha256. rewrite E. exact H.
Qed.

Lemma digest_nonempty k : is_empty (digest_after k) = (k =? 0)%nat.
Proof.
  destruct k as [|k]; [done|]. pose proof (digest_text k) as H. by destruct (digest_after (S k)).
Qed.

(** The members of an accepted document. *)
Lemma replacement_shape v : wf v → exact_journal_members v = true →
  ∃ jd ni ns oi os ph pd pi pj ca rr sc sq sr tr ti, v = object
    [("journal_digest", jd); ("new_root_identity", ni); ("new_snapshot_digest", ns); ("old_root_identity", oi);
     ("old_snapshot_digest", os); ("phase", ph); ("plan_digest", pd); ("plan_id", pi);
     ("previous_journal_digest", pj); ("required_commit_authority", ca); ("retained_root", rr); ("schema", sc);
     ("sequence", sq); ("staged_root", sr); ("target_root", tr); ("transaction_id", ti)].
Proof.
  intros Hwf Hm. destruct v as [| | | | |m]; try discriminate Hm. destruct Hwf as [Hs _].
  unfold exact_journal_members in Hm. apply andb_prop in Hm as [Hl%Nat.eqb_eq Hm].
  assert (fst <$> m = journal_members) as Hk.
  { change journal_members with (sort_names journal_members). apply keys_exact; [done| |done|].
    - apply (bool_decide_unpack (NoDup journal_members)). by vm_compute.
    - apply Forall_forall. rewrite forallb_forall in Hm. intros p Hp. by apply Hm, list_elem_of_In. }
  clear Hl Hm Hs. unfold journal_members in Hk.
  do 16 (destruct m as [|[? ?] m]; [discriminate Hk|]; cbn [fmap list_fmap fst] in Hk;
    injection Hk as -> Hk). destruct m; [|discriminate Hk]. do 16 eexists. reflexivity.
Qed.

(** A document that is bound to the specification and the position [k]. *)
Definition bound (k : nat) (digest phase previous : value) : value := object
  [("journal_digest", digest); ("new_root_identity", string_value (new_root_identity spec));
   ("new_snapshot_digest", string_value (new_snapshot_digest spec));
   ("old_root_identity", string_value (old_root_identity spec));
   ("old_snapshot_digest", string_value (old_snapshot_digest spec)); ("phase", phase);
   ("plan_digest", string_value (plan_digest spec)); ("plan_id", string_value (plan_id spec));
   ("previous_journal_digest", previous);
   ("required_commit_authority", string_value (Journal.commit_authority_name (required_commit_authority spec)));
   ("retained_root", string_value (retained_text roots)); ("schema", string_value journal_schema);
   ("sequence", unsigned_integer (N.of_nat k)); ("staged_root", string_value (staged_text roots));
   ("target_root", string_value (target_text roots)); ("transaction_id", string_value (transaction_id spec))].

Lemma record_bound k : record_value k = bound k (string_value (digest_after (S k))) (string_value (phase_at k))
  (if (k =? 0)%nat then null_value else string_value (digest_after k)).
Proof. unfold record_value, payload. rewrite <- digest_nonempty. reflexivity. Qed.

Lemma erase_digest k : StdMap.erase "journal_digest" (fst (StdMap.emplace "journal_digest"
  (string_value (digest_after (S k))) (payload k))) = payload k.
Proof. reflexivity. Qed.

Lemma differs_of v key x expected : at_ v key = Ok x → differs v key expected = Ok false ↔ x = string_value expected.
Proof.
  intros E. unfold differs, at_string. rewrite E. cbn [mbind result_bind]. split.
  - intros (s & ->%as_string_ok & H%ok_inj)%bind_ok. apply negb_false_iff, String.eqb_eq in H. by subst.
  - intros ->. cbn [as_string mbind result_bind]. by rewrite String.eqb_refl.
Qed.

Lemma sequence_of v x n : at_ v "sequence" = Ok x →
  (found ← at_ v "sequence"; m ← as_unsigned found; Ok (negb (m =? n))) = Ok false ↔ x = unsigned_integer n.
Proof.
  intros E. rewrite E. cbn [mbind result_bind]. split.
  - intros (m & ->%as_unsigned_ok & H%ok_inj)%bind_ok. apply negb_false_iff, N.eqb_eq in H. by subst.
  - intros ->. cbn [as_unsigned mbind result_bind]. by rewrite N.eqb_refl.
Qed.

Lemma binding_exact k text v : wf v →
  binding_differs spec roots (N.of_nat k) text v = Ok false ↔
  text = canonical v +:+ line_end ∧ ∃ digest phase previous, v = bound k digest phase previous.
Proof.
  intros Hwf. unfold binding_differs. rewrite !or_else_false. split.
  - intros [[Hm Ht]%ok_inj%orb_false_iff H]. apply negb_false_iff in Hm, Ht. apply String.eqb_eq in Ht.
    split; [done|].
    destruct (replacement_shape v Hwf Hm) as (jd & ni & ns & oi & os & ph & pd & pi & pj & ca & rr & sc & sq & sr & tr &
      ti & ->). exists jd, ph, pj.
    rewrite (differs_of _ _ sc), (differs_of _ _ ti), (differs_of _ _ pi), (differs_of _ _ pd), (differs_of _ _ tr),
      (differs_of _ _ sr), (differs_of _ _ rr), (differs_of _ _ oi), (differs_of _ _ os), (differs_of _ _ ni),
      (differs_of _ _ ns), (differs_of _ _ ca), (sequence_of _ sq) in H by reflexivity.
    destruct H as (-> & -> & -> & -> & -> & -> & -> & -> & -> & -> & -> & -> & ->). reflexivity.
  - intros [-> (jd & ph & pj & ->)]. rewrite String.eqb_refl. split; [done|].
    rewrite !(differs_of (bound _ _ _ _) _ (string_value _)) by reflexivity.
    rewrite (sequence_of _ (unsigned_integer (N.of_nat k))) by reflexivity. done.
Qed.

Lemma phase_checked k phase : (k <= 7)%nat →
  ((N.of_nat k =? 0) && negb (String.eqb phase "intent")) ||
  (negb (N.of_nat k =? 0) && negb (valid_transition (phase_before k) phase)) = false ↔
  (k < 7)%nat ∧ phase = phase_at k.
Proof.
  intros Hk. destruct k as [|k].
  - change (N.of_nat 0 =? 0) with true. change (negb true) with false.
    rewrite andb_true_l, andb_false_l, orb_false_r, negb_false_iff, String.eqb_eq.
    split; [intros ->; split; [lia|done]|by intros [_ ->]].
  - rewrite (proj2 (N.eqb_neq (N.of_nat (S k)) 0)) by lia. change (negb false) with true.
    rewrite andb_true_l, andb_false_l, orb_false_l, negb_false_iff. apply transition_exact. lia.
Qed.

Lemma previous_checked k v :
  (if N.of_nat k =? 0 then Ok (negb (is_null v))
   else d ← as_string v; Ok (negb (String.eqb d (digest_after k)))) = Ok false ↔
  v = (if (k =? 0)%nat then null_value else string_value (digest_after k)).
Proof.
  destruct k as [|k].
  - cbn [N.of_nat N.eqb Nat.eqb]. split; [|by intros ->]. intros H%ok_inj. by destruct v.
  - rewrite (proj2 (N.eqb_neq (N.of_nat (S k)) 0)) by lia. cbn [Nat.eqb]. split.
    + intros (d & ->%as_string_ok & H%ok_inj)%bind_ok. apply negb_false_iff, String.eqb_eq in H. by subst.
    + intros ->. cbn [as_string mbind result_bind]. by rewrite String.eqb_refl.
Qed.

Lemma erase_bound k digest m : object m = bound k digest (string_value (phase_at k))
    (if (k =? 0)%nat then null_value else string_value (digest_after k)) →
  StdMap.erase "journal_digest" m = payload k.
Proof. intros [= ->]. unfold payload, payload_members. rewrite digest_nonempty. reflexivity. Qed.

Lemma digest_checked k name digest phase :
  or_else (Ok (negb (sha256 digest)))
    (or_else (actual ← sha256_canonical (object (payload k)); Ok (negb (String.eqb actual digest)))
      (Ok (negb (String.eqb name (phase_filename (N.of_nat k) phase))))) = Ok false ↔
  digest = digest_after (S k) ∧ name = phase_filename (N.of_nat k) phase.
Proof.
  rewrite !or_else_false, sha256_canonical_eq. cbn [mbind result_bind].
  fold (digest_after (S k)). change (Sha256.sha256 (canonical (object (payload k)))) with (digest_after (S k)).
  split.
  - intros (_ & H1%ok_inj & H2%ok_inj). apply negb_false_iff, String.eqb_eq in H1, H2. by subst.
  - intros [-> ->]. by rewrite digest_text, !String.eqb_refl.
Qed.

(** One step of the reader accepts exactly one record. *)
Lemma check_exact k name text st : (k <= 7)%nat →
  check_record spec roots (state_after k) name text = Ok st ↔
  (k < 7)%nat ∧ name = record_name k ∧ text = record_text k ∧
  parse text default_limits = Ok (record_value k) ∧ st = state_after (S k).
Proof.
  intros Hk. unfold check_record, state_after. split.
  - intros (v & Hp & H)%bind_ok. apply bind_ok in H as (b & Hb & H). apply bind_unit in H as [->%throw_if_ok H].
    pose proof (parse_accepted _ _ _ Hp) as (Hwf & _).
    apply (binding_exact k text v Hwf) in Hb as (Ht & digest & phase & previous & ->).
    apply bind_ok in H as (ph & Hph & H). cbn in Hph. apply as_string_ok in Hph as ->.
    apply bind_unit in H as [Hph%throw_if_ok H]. apply phase_checked in Hph as [Hk7 ->]; [|done].
    apply bind_ok in H as (pj & Hpj%ok_inj & H). subst pj.
    apply bind_ok in H as (b & Hpj & H). apply bind_unit in H as [->%throw_if_ok H].
    apply previous_checked in Hpj as ->.
    apply bind_ok in H as (d & Hd & H). cbn in Hd. apply as_string_ok in Hd as ->.
    apply bind_ok in H as (m & Hm%ok_inj & H). subst m. apply bind_ok in H as (b & Hb & H).
    apply bind_unit in H as [->%throw_if_ok H]. rewrite (erase_bound k _ _ eq_refl) in Hb.
    apply digest_checked in Hb as [-> ->]. rewrite <- record_bound in Hp, Ht.
    apply ok_inj in H as <-. split; [done|]. split; [done|]. split; [done|]. split; [done|].
    f_equal. f_equal. lia.
  - intros (Hk7 & -> & -> & Hp & ->).
    rewrite (bind_step _ _ _ Hp), (bind_step _ _ false).
    2:{ apply binding_exact; [by apply parse_accepted in Hp as (? & _)|]. split; [done|].
        eexists _, _, _. apply record_bound. }
    cbn [throw_if mbind result_bind]. rewrite record_bound. rewrite (bind_step _ _ (phase_at k)) by reflexivity.
    rewrite (proj2 (phase_checked k (phase_at k) Hk)) by done. cbn [throw_if mbind result_bind].
    rewrite (bind_step (at_ _ _) _ (if (k =? 0)%nat then null_value else string_value (digest_after k))) by reflexivity.
    rewrite (bind_step _ _ false) by (by apply previous_checked). cbn [throw_if mbind result_bind].
    rewrite (bind_step _ _ (digest_after (S k))) by reflexivity. cbn [bound as_object mbind result_bind].
    rewrite (erase_bound k _ _ eq_refl). rewrite (bind_step _ _ false) by (by apply digest_checked).
    cbn [throw_if mbind result_bind]. f_equal. f_equal. f_equal. lia.
Qed.

(** ** The whole journal *)

Definition journal (n : nat) : list (string * string) := map (fun k => (record_name k, record_text k)) (seq 0 n).

Lemma journal_snoc n : journal (S n) = journal n ++ [(record_name n, record_text n)].
Proof. unfold journal. by rewrite seq_S, map_app. Qed.

(** The loop of [read_journal] over the records of the directory.  The reader has
    refused a directory without records before ("replacement journal is empty"). *)
Definition accept (st : N * string * string) (records : list (string * string)) : result (N * string * string) :=
  fold_result (fun st r => check_record spec roots st (fst r) (snd r)) st records.

Lemma accept_from records : ∀ k st, (k <= 7)%nat →
  accept (state_after k) records = Ok st ↔ ∃ n, (n <= 7)%nat ∧ (k <= n)%nat ∧
    records = map (fun k => (record_name k, record_text k)) (seq k (n - k)) ∧
    (∀ j, (k <= j < n)%nat → parse (record_text j) default_limits = Ok (record_value j)) ∧ st = state_after n.
Proof.
  induction records as [|[name text] records IH]; intros k st Hk; unfold accept; cbn [fold_result fst snd].
  - split.
    + intros <-%ok_inj. exists k. rewrite Nat.sub_diag. split_and!; [done|done|done|intros; lia|done].
    + intros (n & Hn & Hkn & E & _ & ->). assert (n - k = 0)%nat as Hz by (by destruct (n - k)%nat).
      by replace n with k by lia.
  - split.
    + intros (st1 & (Hk7 & -> & -> & Hp & ->)%check_exact & H)%bind_ok; [|done].
      apply IH in H as (n & Hn & Hkn & -> & Hr & ->); [|lia]. exists n.
      split_and!; [done|lia| | |done].
      * replace (n - k)%nat with (S (n - S k)) by lia. done.
      * intros j Hj. destruct (decide (j = k)) as [->|]; [done|apply Hr; lia].
    + intros (n & Hn & Hkn & E & Hr & ->). destruct (n - k)%nat as [|m] eqn:Em; [done|].
      cbn [seq map] in E. injection E as -> -> ->.
      rewrite (bind_step _ _ (state_after (S k))).
      * apply IH; [lia|]. exists n. split_and!; [done|lia|by replace (n - S k)%nat with m by lia| |done].
        intros j Hj. apply Hr. lia.
      * apply check_exact; [done|]. split_and!; [lia|done|done|apply Hr; lia|done].
Qed.

(** What the reader can read back. *)
Definition spec_texts : list string :=
  [new_root_identity spec; new_snapshot_digest spec; old_root_identity spec; old_snapshot_digest spec;
   plan_digest spec; plan_id spec; retained_text roots; staged_text roots; target_text roots; transaction_id spec].

Definition journal_readable : Prop :=
  forallb Utf8.valid_utf8 spec_texts = true ∧ ∀ k, (k < 7)%nat → size (record_text k) <= 1024 * 1024.

Lemma record_parses k : journal_readable → (k < 7)%nat → parse (record_text k) default_limits = Ok (record_value k).
Proof.
  intros [Hu Hs] Hk. specialize (Hs k Hk). unfold record_text in *.
  assert (size (canonical (record_value k)) <= 1024 * 1024) as Hc by (rewrite size_append in Hs; lia).
  apply parse_short; try done.
  - rewrite record_bound. split; [by_sorted|]. split_and!; try done; try (by destruct k). cbn [wf]. unfold uint64_max. lia.
  - rewrite record_bound. unfold spec_texts in Hu. cbn [forallb] in Hu. bool_hyps.
    assert (Utf8.valid_utf8 (phase_at k) = true) as Hph by (destruct k as [|[|[|[|[|[|[|k]]]]]]]; [done..|exfalso; lia]).
    assert (∀ j, Utf8.valid_utf8 (digest_after (S j)) = true) as Hd.
    { intros j. apply ascii_valid_utf8, hex_ascii. pose proof (digest_text j) as Hj. by apply andb_prop in Hj as [_ ?]. }
    cbn [utf8_value bound forallb fst snd].
    repeat match goal with H : Utf8.valid_utf8 _ = true |- _ => rewrite H; clear H end. rewrite Hd.
    destruct k; cbn [Nat.eqb utf8_value]; rewrite ?Hd; by destruct (required_commit_authority spec).
  - rewrite record_bound. destruct k; vm_compute; discriminate.
  - rewrite record_bound. destruct k; vm_compute; discriminate.
  - unfold default_limits. cbn [max_bytes]. lia.
Qed.

Lemma accept_whole records st :
  accept (0, EmptyString, EmptyString) records = Ok st ↔
  ∃ n, (n <= 7)%nat ∧ records = journal n ∧
    (∀ k, (k < n)%nat → parse (record_text k) default_limits = Ok (record_value k)) ∧ st = state_after n.
Proof.
  change (0, EmptyString, EmptyString) with (state_after 0). rewrite accept_from by lia. split.
  - intros (n & Hn & _ & -> & Hr & ->). rewrite Nat.sub_0_r. exists n. split_and!; try done. intros k Hk. apply Hr. lia.
  - intros (n & Hn & -> & Hr & ->). exists n. rewrite Nat.sub_0_r. split_and!; try done; [lia|].
    intros k Hk. apply Hr. lia.
Qed.

(** C19 The journal of a replacement is unique: the reader accepts a sequence of
    named texts exactly when it is a beginning of the one journal the
    specification determines (at most seven records, each one with the name,
    phase, predecessor digest and digest of its position, in canonical text that
    the parser can read), and it ends in the digest and phase of the last one. *)
Theorem replacement_journal_exact records st :
  accept (0, EmptyString, EmptyString) records = Ok st ↔
  ∃ n, (n <= 7)%nat ∧ records = journal n ∧
    (∀ k, (k < n)%nat → parse (record_text k) default_limits = Ok (record_value k)) ∧ st = state_after n.
Proof. apply accept_whole. Qed.


End Journal.
End ReplacementJournal.
