(* ===== verification/TreeFacts.v ===== *)
(** Trees of a file system: what creating a name, writing a file and moving a tree
    do to the objects below another name. *)

From Stdlib Require Import Ascii String NArith ZArith Lia.
From stdpp Require Import base list strings gmap sets fin_maps.
From S2P Require Import Prelude Path PathFacts Effects World RecordIo RecordFacts DirectoryFacts.

Module TreeFacts.
Import Path PathFacts Effects World RecordFacts DirectoryFacts.

(** ** Well-formed file systems *)

Record tree_ok (d : fs) : Prop := mk_tree_ok {
  tree_inodes : fs_ok d;
  tree_names : ∀ n, is_Some (entries d !! n) → Forall safe_name n;
  tree_parents : ∀ n x, is_Some (entries d !! (n ++ [x])) → is_dir_at d n = true;
}.

Lemma is_dir_entry d n : is_dir_at d n = true → is_Some (entries d !! n).
Proof. intros (i & x & [E _]%lookup_inode_inv & _)%is_dir_at_inv. by eexists. Qed.

Lemma tree_prefix d n rel : tree_ok d → is_Some (entries d !! (n ++ rel)) → rel ≠ [] → is_dir_at d n = true.
Proof.
  intros Hok. induction rel as [|x rel IH] using rev_ind; [done|]. intros H _. rewrite app_assoc in H.
  apply tree_parents in H; [|done]. destruct rel as [|y rel]; [by rewrite app_nil_r in H|].
  apply IH; [by apply is_dir_entry|done].
Qed.

Lemma absent_below d n rel : tree_ok d → entries d !! n = None → entries d !! (n ++ rel) = None.
Proof.
  intros Hok Hn. destruct (entries d !! (n ++ rel)) as [i|] eqn:E; [exfalso|done].
  destruct (decide (rel = [])) as [->|Hr]; [rewrite app_nil_r in E; congruence|].
  assert (is_dir_at d n = true) as [j Hj]%is_dir_entry by (eapply tree_prefix; [done|by rewrite E|done]). congruence.
Qed.

Lemma lookup_entry d n : fs_ok d → is_Some (lookup_inode d n) ↔ is_Some (entries d !! n).
Proof.
  intros Hok. unfold lookup_inode. split.
  - intros [y (i & Hi & _)%bind_Some]. by eexists.
  - intros [i Hi]. rewrite Hi. cbn. destruct (Hok _ _ Hi) as [x ->]. by eexists.
Qed.

(** [n] and everything below it. *)
Lemma below_iff n m : below n m = true ↔ ∃ rel, m = n ++ rel ∧ rel ≠ [].
Proof.
  unfold below. rewrite bool_decide_eq_true. split.
  - intros [E Hl]. exists (drop (length n) m). split; [by rewrite <- E at 1; rewrite take_drop|].
    intros Hd. apply (f_equal length) in Hd. rewrite length_drop in Hd. simpl in Hd. lia.
  - intros (rel & -> & Hr). rewrite take_app_length, length_app. split; [done|]. destruct rel; [done|simpl; lia].
Qed.

Lemma inside_iff n m : bool_decide (m = n) || below n m = true ↔ ∃ rel, m = n ++ rel.
Proof.
  rewrite orb_true_iff, bool_decide_eq_true, below_iff. split.
  - intros [->|(rel & -> & _)]; [exists []; by rewrite app_nil_r|by exists rel].
  - intros [rel ->]. destruct rel as [|x rel]; [left; by rewrite app_nil_r|right; by exists (x :: rel)].
Qed.

Lemma rebase_inside source target rel : rebase source target (source ++ rel) = target ++ rel.
Proof.
  unfold rebase. assert (bool_decide (source ++ rel = source) || below source (source ++ rel) = true) as ->
    by (apply inside_iff; by exists rel). by rewrite drop_app_length.
Qed.

Lemma rebase_outside source target m : (∀ rel, m ≠ source ++ rel) → rebase source target m = m.
Proof.
  intros H. unfold rebase. destruct (bool_decide _ || _) eqn:E; [|done].
  apply inside_iff in E as [rel E]. by apply H in E.
Qed.

(** ** Renaming the keys of a map *)

Section Kmap.
Context {A : Type} (f : name → name) (m : gmap name A).
Hypothesis f_inj : ∀ i j, is_Some (m !! i) → is_Some (m !! j) → f i = f j → i = j.

Lemma kmap_keys : NoDup ((prod_map f id <$> map_to_list m).*1).
Proof.
  rewrite <- list_fmap_compose. change (fst ∘ prod_map f id) with (λ p : name * A, f p.1).
  assert (∀ l, (∀ p, p ∈ l → p ∈ map_to_list m) → NoDup (l.*1) → NoDup ((λ p : name * A, f p.1) <$> l)) as H.
  { induction l as [|[k x] l IH]; intros Hl Hn; [constructor|]. apply NoDup_cons in Hn as [Hk Hn]. constructor.
    - intros ([k' x'] & E & Hp)%list_elem_of_fmap. cbn [fst] in E.
      assert ((k', x') ∈ map_to_list m) as H1%elem_of_map_to_list by (apply Hl; by right).
      assert ((k, x) ∈ map_to_list m) as H2%elem_of_map_to_list by (apply Hl; by left).
      apply f_inj in E; [|by eexists|by eexists]. subst k'. apply Hk. by apply (list_elem_of_fmap_2 fst l (k, x')).
    - apply IH; [|done]. intros p Hp. apply Hl. by right. }
  apply H; [done|]. apply NoDup_fst_map_to_list.
Qed.

Lemma kmap_list : map_to_list (kmap f m : gmap name A) ≡ₚ prod_map f id <$> map_to_list m.
Proof. unfold kmap. apply map_to_list_to_map, kmap_keys. Qed.

Lemma kmap_some j x : (kmap f m : gmap name A) !! j = Some x ↔ ∃ i, j = f i ∧ m !! i = Some x.
Proof.
  rewrite <- elem_of_map_to_list, kmap_list, list_elem_of_fmap. split.
  - intros ([i y] & [= -> ->] & H%elem_of_map_to_list). by exists i.
  - intros (i & -> & H). exists (i, x). split; [done|]. by apply elem_of_map_to_list.
Qed.
End Kmap.

(** ** The same tree *)

(** What is at and below [n] in [d] is at and below [n'] in [d']. *)
Definition same_tree (d : fs) (n : name) (d' : fs) (n' : name) : Prop :=
  (∀ rel, lookup_inode d' (n' ++ rel) = lookup_inode d (n ++ rel)) ∧
  (∀ rel i x, lookup_inode d (n ++ rel) = Some (i, x) → link_count d' i = link_count d i).

Lemma same_tree_refl d n : same_tree d n d n.
Proof. done. Qed.

Lemma same_tree_trans d1 n1 d2 n2 d3 n3 : same_tree d1 n1 d2 n2 → same_tree d2 n2 d3 n3 → same_tree d1 n1 d3 n3.
Proof.
  intros [H1 L1] [H2 L2]. split.
  - intros rel. by rewrite H2, H1.
  - intros rel i x E. rewrite (L2 rel i x) by (by rewrite H1). by eapply L1.
Qed.

(** ** Moving a tree *)

Section Move.
Context (d d' : fs) (source target : name).
Hypothesis Hok : tree_ok d.
Hypothesis Hm : move_tree d source target = Some d'.

Lemma move_inv : is_Some (entries d !! source) ∧ entries d !! target = None ∧
  is_dir_at d (parent_name target) = true ∧ below source target = false ∧
  entries d' = kmap (rebase source target) (entries d) ∧ inodes d' = inodes d.
Proof.
  unfold move_tree in Hm. destruct (lookup_inode d source) as [[i x]|] eqn:E1; [|done].
  destruct (entries d !! target) eqn:E2; [done|].
  destruct (lookup_inode d (parent_name target)) as [[j y]|] eqn:E3; [|done].
  destruct (_ && _) eqn:E4 in Hm; [|done]. injection Hm as <-. bool_hyps.
  apply lookup_inode_inv in E1 as [E1 _]. split_and!; done || by eexists.
Qed.

Lemma target_free rel : entries d !! (target ++ rel) = None.
Proof. apply absent_below; [done|]. apply move_inv. Qed.

Lemma rebase_inj i j : is_Some (entries d !! i) → is_Some (entries d !! j) →
  rebase source target i = rebase source target j → i = j.
Proof.
  intros [x Hi] [y Hj]. pose proof target_free as Hf. unfold rebase.
  destruct (bool_decide (i = source) || below source i) eqn:Ei, (bool_decide (j = source) || below source j) eqn:Ej.
  - apply inside_iff in Ei as [r ->], Ej as [r' ->]. rewrite !drop_app_length. by intros ->%app_inv_head.
  - intros <-. by rewrite Hf in Hj.
  - intros ->. by rewrite Hf in Hi.
  - done.
Qed.

Lemma moved_some j i : entries d' !! j = Some i ↔ ∃ n, j = rebase source target n ∧ entries d !! n = Some i.
Proof. destruct move_inv as (_ & _ & _ & _ & -> & _). apply kmap_some, rebase_inj. Qed.

Lemma moved_eq j n : (∀ m, is_Some (entries d !! m) → rebase source target m = j → m = n) →
  (is_Some (entries d !! n) → rebase source target n = j) → entries d' !! j = entries d !! n.
Proof.
  intros H1 H2. apply option_eq. intros i. rewrite moved_some. split.
  - intros (m & E & Hi). by rewrite <- (H1 m) by (by eexists || done).
  - intros Hi. exists n. split; [|done]. symmetry. apply H2. by eexists.
Qed.

Lemma moved_inside rel : entries d' !! (target ++ rel) = entries d !! (source ++ rel).
Proof.
  apply moved_eq; [|intros _; apply rebase_inside]. intros m [i Hi] E. unfold rebase in E.
  destruct (bool_decide (m = source) || below source m) eqn:Em.
  - apply inside_iff in Em as [r ->]. rewrite drop_app_length in E. by apply app_inv_head in E as ->.
  - subst m. by rewrite target_free in Hi.
Qed.

Lemma moved_outside n : (∀ rel, n ≠ source ++ rel) → (∀ rel, n ≠ target ++ rel) → entries d' !! n = entries d !! n.
Proof.
  intros Hs Ht. apply moved_eq; [|by intros _; apply rebase_outside]. intros m _ E. unfold rebase in E.
  destruct (bool_decide (m = source) || below source m); [|done]. by symmetry in E; apply Ht in E.
Qed.

Lemma moved_away rel : entries d' !! (source ++ rel) = None.
Proof.
  destruct (entries d' !! (source ++ rel)) as [i|] eqn:E; [exfalso|done].
  apply moved_some in E as (n & E & Hn). unfold rebase in E.
  destruct (bool_decide (n = source) || below source n) eqn:Em.
  - apply inside_iff in Em as [r ->]. rewrite drop_app_length in E.
    pose proof move_inv as (Hs & Ht & _ & Hb & _).
    assert (∃ k, target = source ++ k ∨ source = target ++ k) as [k Hk].
    { destruct (Nat.le_ge_cases (length source) (length target)).
      - exists (drop (length source) target). left. rewrite <- (take_drop (length source) target) at 1. f_equal.
        apply (f_equal (take (length source))) in E. rewrite take_app_length in E.
        by rewrite take_app_le in E by done.
      - exists (drop (length target) source). right. rewrite <- (take_drop (length target) source) at 1. f_equal.
        apply (f_equal (take (length target))) in E. rewrite take_app_length in E.
        by rewrite take_app_le in E by done. }
    destruct Hk as [Hk|Hk].
    + destruct k as [|y k]; [rewrite app_nil_r in Hk; subst target; destruct Hs; congruence|].
      assert (below source target = true) by (apply below_iff; by exists (y :: k)). congruence.
    + destruct Hs as [z Hz]. by rewrite Hk, target_free in Hz.
  - subst n. assert (bool_decide (source ++ rel = source) || below source (source ++ rel) = true)
      by (apply inside_iff; by exists rel). congruence.
Qed.

Lemma moved_inode n m : entries d' !! n = entries d !! m → lookup_inode d' n = lookup_inode d m.
Proof. intros E. unfold lookup_inode. destruct move_inv as (_ & _ & _ & _ & _ & ->). by rewrite E. Qed.

Lemma moved_links i : link_count d' i = link_count d i.
Proof.
  unfold link_count. destruct move_inv as (_ & _ & _ & _ & -> & _). f_equal.
  rewrite (kmap_list _ _ rebase_inj). generalize (map_to_list (entries d)). intros l. induction l as [|[k j] l IH]; [done|].
  cbn [fmap list_fmap prod_map fst snd id]. rewrite !filter_cons. cbn [snd].
  destruct (decide (j = i)); cbn [length]; by rewrite IH.
Qed.

(** The tree arrives as it was, and everything elsewhere stays. *)
Lemma move_same_tree : same_tree d source d' target.
Proof. split; [|intros; apply moved_links]. intros rel. apply moved_inode, moved_inside. Qed.

Lemma move_elsewhere n : (∀ rel rel', n ++ rel ≠ source ++ rel') → (∀ rel rel', n ++ rel ≠ target ++ rel') →
  same_tree d n d' n.
Proof.
  intros Hs Ht. split; [|intros; apply moved_links]. intros rel. apply moved_inode, moved_outside; auto.
Qed.

Lemma moved_dir n m : entries d' !! n = entries d !! m → is_dir_at d m = true → is_dir_at d' n = true.
Proof. intros E. unfold is_dir_at. by rewrite (moved_inode n m E). Qed.

Lemma move_tree_ok : Forall safe_name target → tree_ok d'.
Proof.
  intros Ht. pose proof move_inv as (_ & Hfree & Hp & Hb & _ & Hi). split.
  - intros n i (m & -> & Hm')%moved_some. rewrite Hi. by eapply (tree_inodes d Hok).
  - intros n [i (m & -> & Hm')%moved_some]. unfold rebase. destruct (bool_decide (m = source) || below source m) eqn:E.
    + apply inside_iff in E as [r ->]. rewrite drop_app_length. apply Forall_app. split; [done|].
      assert (Forall safe_name (source ++ r)) as [_ ?]%Forall_app by (apply (tree_names d Hok); by eexists). done.
    + apply (tree_names d Hok). by eexists.
  - intros n x [i (m & E & Hm')%moved_some]. unfold rebase in E.
    destruct (bool_decide (m = source) || below source m) eqn:Em.
    + apply inside_iff in Em as [r ->]. rewrite drop_app_length in E. destruct r as [|y r _] using rev_ind.
      * rewrite app_nil_r in E. unfold parent_name in Hp. rewrite <- E in Hb, Hp. rewrite removelast_last in Hp.
        apply (moved_dir n n); [|done]. apply moved_outside.
        -- intros rel ->. rewrite <- app_assoc in Hb.
           assert (below source (source ++ rel ++ [x]) = true)
             by (apply below_iff; exists (rel ++ [x]); split; [done|by destruct rel]). congruence.
        -- intros rel En. apply (f_equal length) in E, En. rewrite length_app in E, En. simpl in E. lia.
      * rewrite app_assoc in E. apply app_inj_tail in E as [-> ->]. apply (moved_dir _ (source ++ r)); [apply moved_inside|].
        apply (tree_parents d Hok _ y). rewrite <- app_assoc. by eexists.
    + subst m. apply (moved_dir n n); [|apply (tree_parents d Hok _ x); by eexists]. apply moved_outside.
      * intros rel ->. rewrite <- app_assoc in Em.
        assert (bool_decide (source ++ rel ++ [x] = source) || below source (source ++ rel ++ [x]) = true)
          by (apply inside_iff; by exists (rel ++ [x])). congruence.
      * intros rel ->. by rewrite <- app_assoc, target_free in Hm'.
Qed.
End Move.

(** ** Adding a name and writing a file *)

(** One new object under a free name. *)
Definition adds_object (d d' : fs) (n : name) (i : N) (x : inode) : Prop :=
  inodes d !! i = None ∧ entries d !! n = None ∧
  entries d' = <[n := i]> (entries d) ∧ inodes d' = <[i := x]> (inodes d).

(** One inode changes. *)
Definition rewrites (d d' : fs) (i : N) (x : inode) : Prop :=
  entries d' = entries d ∧ inodes d' = <[i := x]> (inodes d).

Lemma adds_lookup d d' n i x m : fs_ok d → adds_object d d' n i x → m ≠ n → lookup_inode d' m = lookup_inode d m.
Proof.
  intros Hok (Hi & _ & He & Hx) Hm. unfold lookup_inode. rewrite He, Hx, lookup_insert_ne by done.
  destruct (entries d !! m) as [j|] eqn:E; [|done]. cbn. rewrite lookup_insert_ne; [done|].
  intros ->. destruct (Hok _ _ E) as [y Hy]. congruence.
Qed.

Lemma adds_links d d' n i x j : adds_object d d' n i x → j ≠ i → link_count d' j = link_count d j.
Proof.
  intros (_ & Hn & He & _) Hj. unfold link_count. rewrite He, map_to_list_insert by done.
  by rewrite filter_cons_False by (simpl; congruence).
Qed.

Lemma adds_same_tree d d' n i x m : fs_ok d → adds_object d d' n i x → (∀ rel, m ++ rel ≠ n) → same_tree d m d' m.
Proof.
  intros Hok Ha Hm. split.
  - intros rel. by eapply adds_lookup.
  - intros rel j y [_ E]%lookup_inode_inv. eapply adds_links; [done|]. intros ->. destruct Ha as (Hi & _). congruence.
Qed.

Lemma rewrites_lookup d d' i x m : rewrites d d' i x → entries d !! m ≠ Some i → lookup_inode d' m = lookup_inode d m.
Proof.
  intros [He Hx] Hm. unfold lookup_inode. rewrite He, Hx. destruct (entries d !! m) as [j|] eqn:E; [|done]. cbn.
  by rewrite lookup_insert_ne by congruence.
Qed.

Lemma rewrites_links d d' i x j : rewrites d d' i x → link_count d' j = link_count d j.
Proof. intros [He _]. unfold link_count. by rewrite He. Qed.

Lemma rewrites_same_tree d d' i x m : rewrites d d' i x → (∀ rel, entries d !! (m ++ rel) ≠ Some i) →
  same_tree d m d' m.
Proof.
  intros Hr Hm. split; [|intros; by eapply rewrites_links]. intros rel. by eapply rewrites_lookup.
Qed.

(** An inode with one name has no other. *)
Lemma single_name d n m i : link_count d i = 1 → entries d !! n = Some i → entries d !! m = Some i → m = n.
Proof.
  intros Hl Hn Hm. destruct (decide (m = n)) as [->|Hne]; [done|exfalso].
  unfold link_count in Hl. revert Hl.
  rewrite <- (insert_delete_id (entries d) n i Hn), map_to_list_insert by (apply lookup_delete_eq).
  rewrite filter_cons_True by done.
  rewrite <- (insert_delete_id (delete n (entries d)) m i) by (by rewrite lookup_delete_ne by done).
  rewrite map_to_list_insert by (apply lookup_delete_eq). rewrite filter_cons_True by done. cbn [length]. lia.
Qed.

Lemma adds_tree_ok d d' l nm i x : tree_ok d → adds_object d d' (l ++ [nm]) i x → is_dir_at d l = true →
  safe_name nm → tree_ok d'.
Proof.
  intros Hok Ha Hl Hs. pose proof Ha as (Hi & Hn & He & Hx). pose proof (tree_inodes d Hok) as Hf.
  assert (∀ n, is_dir_at d n = true → is_dir_at d' n = true) as Hdir.
  { intros n Hd. assert (n ≠ l ++ [nm]) by (intros ->; apply is_dir_entry in Hd as [? ?]; congruence).
    unfold is_dir_at in *. by rewrite (adds_lookup d d' _ i x n Hf Ha). }
  split.
  - intros n j. rewrite He, Hx. intros [[<- <-]|[_ Hj]]%lookup_insert_Some; [by rewrite lookup_insert_eq; eexists|].
    destruct (Hf _ _ Hj) as [y Hy]. destruct (decide (i = j)) as [<-|]; [by rewrite lookup_insert_eq; eexists|].
    rewrite lookup_insert_ne by done. by eexists.
  - intros n [j Hj]. rewrite He in Hj. apply lookup_insert_Some in Hj as [[<- _]|[_ Hj]].
    + apply Forall_app. split; [|by constructor]. apply (tree_names d Hok). by apply is_dir_entry.
    + apply (tree_names d Hok). by eexists.
  - intros n y [j Hj]. rewrite He in Hj. apply lookup_insert_Some in Hj as [[E _]|[_ Hj]].
    + apply app_inj_tail in E as [-> _]. by apply Hdir.
    + apply Hdir, (tree_parents d Hok _ y). by eexists.
Qed.

(** A file is written, no directory. *)
Lemma rewrites_tree_ok d d' i v c t c' t' : tree_ok d → inodes d !! i = Some (mk_inode v (regular c) t) →
  rewrites d d' i (mk_inode v (regular c') t') → tree_ok d'.
Proof.
  intros Hok Hi [He Hx]. split.
  - intros n j. rewrite He, Hx. intros Hj. destruct (decide (i = j)) as [<-|]; [by rewrite lookup_insert_eq; eexists|].
    rewrite lookup_insert_ne by done. by eapply (tree_inodes d Hok).
  - intros n. rewrite He. apply (tree_names d Hok).
  - intros n y. rewrite He. intros Hn%(tree_parents d Hok). unfold is_dir_at, lookup_inode in *. rewrite He, Hx.
    destruct (entries d !! n) as [j|] eqn:E; [|done]. cbn in *. destruct (decide (i = j)) as [<-|].
    + by rewrite Hi in Hn.
    + by rewrite lookup_insert_ne by done.
Qed.

(** A file system given by its lists of names and objects. *)
Definition listed_fs (names : list (name * N)) (objects : list (N * inode)) : fs :=
  mk_fs (list_to_map names) (list_to_map objects).

Lemma listed_tree_ok names objects : let d := listed_fs names objects in
  Forall (fun e => is_Some (inodes d !! (snd e)) ∧ Forall safe_name (fst e) ∧
    (fst e = [] ∨ is_dir_at d (parent_name (fst e)) = true)) names → tree_ok d.
Proof.
  intros d H. rewrite Forall_forall in H.
  assert (∀ n i, entries d !! n = Some i → (n, i) ∈ names) as Hin by (intros n i; apply elem_of_list_to_map_2).
  split.
  - intros n i Hi%Hin%H. by destruct Hi.
  - intros n [i Hi%Hin%H]. by destruct Hi as (_ & ? & _).
  - intros n x [i Hi%Hin%H]. destruct Hi as (_ & _ & [E|E]); cbn [fst] in E; [by destruct n|].
    unfold parent_name in E. by rewrite removelast_last in E.
Qed.

End TreeFacts.
