(* ===== verification/ReplacementSnapshot.v ===== *)
(** Snapshots of a root on an undisturbed host: what the digest is of, and that a
    tree keeps its identity and its snapshot wherever it is moved. *)

From Stdlib Require Import Ascii String NArith ZArith Lia.
From stdpp Require Import base list strings gmap sets.
From S2P Require Import Prelude Effects Sha256 StdMap Json JsonFacts Path PathFacts World RecordIo RecordFacts.
From S2P Require Import DirectoryFacts TextFacts SessionHost HostFacts Session Replacement TreeFacts.

Module ReplacementSnapshot.
Import Json JsonFacts Path PathFacts Effects World RecordIo RecordFacts DirectoryFacts TreeFacts SortFacts.
Import SessionHost HostFacts Replacement.

(** ** The relative text of an entry *)

Lemma entry_path_text n rel : Forall plain_name (n ++ rel) → entry_path (abs_text n) (n ++ rel) = abs_text (n ++ rel).
Proof.
  intros H. pose proof H as [Hn _]%Forall_app. unfold entry_path.
  rewrite names_abs_text, drop_app_length by done. clear Hn.
  revert n H. induction rel as [|x rel IH]; intros n H; [by rewrite app_nil_r|]. cbn [fold_left].
  rewrite cons_middle, app_assoc in *. pose proof H as [[Hn Hx]%Forall_app _]%Forall_app.
  rewrite abs_text_append by (done || by inversion Hx). by apply IH.
Qed.

Lemma mismatch_prefix a b : mismatch (a ++ b) a = (b, []).
Proof. induction a as [|x a IH]; cbn [app mismatch]; [by destruct b|]. by rewrite String.eqb_refl. Qed.

Lemma fold_append_join rel : Forall plain_name rel → rel ≠ [] →
  fold_left append_path rel EmptyString = join_names rel.
Proof.
  induction rel as [|x rel IH] using rev_ind; [done|]. intros [Hr Hx]%Forall_app _.
  transitivity (fold_left append_path rel EmptyString /+ x); [apply fold_left_app|]. assert (plain_name x) as Hp by (by inversion Hx).
  destruct (decide (rel = [])) as [->|Hne].
  - cbn. unfold append_path. by rewrite (plain_not_absolute x Hp).
  - rewrite IH by done. destruct (join_not_slash rel Hr Hne) as [H1 H2].
    unfold append_path. rewrite (plain_not_absolute x Hp), H1.
    destruct (is_empty (join_names rel)) eqn:E; [by destruct (join_names rel)|]. cbn [orb].
    by rewrite join_app.
Qed.

Lemma generic_join rel : Forall plain_name rel → rel ≠ [] → generic_string (join_names rel) = join_names rel.
Proof.
  intros H Hne. unfold generic_string, root_text, relative_components.
  rewrite (components_join rel H Hne), (join_relative rel H). by destruct rel.
Qed.

Lemma relative_text n rel : Forall plain_name (n ++ rel) → rel ≠ [] →
  generic_string (lexically_relative (abs_text (n ++ rel)) (abs_text n)) = join_names rel.
Proof.
  intros H Hne. pose proof H as [Hn Hr]%Forall_app. unfold lexically_relative.
  change (is_absolute (abs_text (n ++ rel))) with true. change (is_absolute (abs_text n)) with true. cbn [Bool.eqb negb].
  assert (∀ l, Forall plain_name l → components (abs_text l) = "/" :: l) as Hc.
  { intros l Hl. unfold components. change (is_absolute (abs_text l)) with true. rewrite names_abs_text by done.
    destruct l as [|x l]; [done|]. rewrite abs_text_not_slash by done. cbn [andb app]. by rewrite app_nil_r. }
  rewrite !Hc by done. cbn [mismatch]. rewrite String.eqb_refl, mismatch_prefix.
  destruct rel as [|x rel]; [done|]. cbn [up_count fold_left Z.ltb Z.eqb Z.compare andb].
  pose proof Hr as Hr'. inversion Hr' as [|? ? [_ Hx] _]; subst. rewrite Hx. cbn [Z.to_nat repeat app].
  change (fold_left append_path rel (EmptyString /+ x)) with (fold_left append_path (x :: rel) EmptyString).
  rewrite fold_append_join by done. by apply generic_join.
Qed.

(** ** The entries of a snapshot *)

(** The names below [n], relative to it. *)
Definition relatives (d : fs) (n : name) : list name := map (drop (length n)) (descendants d n).

Lemma descendants_relative d n : descendants d n = map (app n) (relatives d n).
Proof.
  unfold relatives. rewrite map_map. symmetry. rewrite <- (map_id (descendants d n)) at 2. apply map_ext_in.
  intros m [_ (rel & -> & _)%below_iff]%filter_In. by rewrite drop_app_length.
Qed.

Lemma relatives_in d n rel : rel ∈ relatives d n ↔ rel ≠ [] ∧ is_Some (entries d !! (n ++ rel)).
Proof.
  unfold relatives, descendants. rewrite list_elem_of_In, in_map_iff. split.
  - intros (m & <- & [([k i] & <- & Hi)%in_map_iff (r & E & Hr)%below_iff]%filter_In). cbn [fst] in E. subst k.
    apply list_elem_of_In, elem_of_map_to_list in Hi. cbn [fst]. rewrite drop_app_length. split; [done|by eexists].
  - intros [Hr [i Hi]]. exists (n ++ rel). rewrite drop_app_length. split; [done|]. apply filter_In. split.
    + apply in_map_iff. exists (n ++ rel, i). split; [done|]. by apply list_elem_of_In, elem_of_map_to_list.
    + apply below_iff. by exists rel.
Qed.

Lemma relatives_nodup d n : NoDup (relatives d n).
Proof.
  apply (NoDup_fmap_1 (app n)). change (app n <$> relatives d n) with (map (app n) (relatives d n)).
  rewrite <- descendants_relative. apply NoDup_ListNoDup, List.NoDup_filter, NoDup_ListNoDup.
  apply NoDup_fst_map_to_list.
Qed.

(** The same names are below the same trees. *)
Lemma same_relatives d n d' n' : fs_ok d → fs_ok d' → same_tree d n d' n' → relatives d' n' ≡ₚ relatives d n.
Proof.
  intros Hok Hok' [Hs _]. apply NoDup_Permutation; [apply relatives_nodup..|]. intros rel.
  by rewrite !relatives_in, <- !lookup_entry, Hs by done.
Qed.

Definition entry_of (d : fs) (n rel : name) : option value :=
  '(_, x) ← lookup_inode d (n ++ rel);
  match node x with
  | directory => Some (directory_entry_value (join_names rel))
  | regular c => Some (file_entry_value (join_names rel) (Sha256.sha256 c) (size c))
  | _ => None
  end.

Definition bytes_of (d : fs) (n rel : name) : N :=
  match lookup_inode d (n ++ rel) with Some (_, mk_inode _ (regular c) _) => size c | _ => 0 end.

(** A directory, or a file without other names. *)
Definition plain_entry (d : fs) (n rel : name) : Prop :=
  ∃ i v k t, lookup_inode d (n ++ rel) = Some (i, mk_inode v k t) ∧
    (k = directory ∨ ∃ c, k = regular c ∧ link_count d i = 1).

Definition total (l : list N) : N := fold_right N.add 0 l.

Definition snapshot_fits (d : fs) (n : name) : Prop :=
  Forall (plain_entry d n) (relatives d n) ∧
  N.of_nat (length (relatives d n)) <= maximum_snapshot_entries ∧
  total (map (bytes_of d n) (relatives d n)) <= maximum_snapshot_bytes.

Definition snapshot_of (d : fs) (n : name) : string :=
  Sha256.sha256 (canonical (snapshot_value (omap (entry_of d n) (relatives d n)))).

Lemma total_perm l l' : l ≡ₚ l' → total l = total l'.
Proof. induction 1; cbn [total fold_right] in *; unfold total in *; lia. Qed.

Lemma snapshot_fits_same d n d' n' : fs_ok d → fs_ok d' → same_tree d n d' n' → snapshot_fits d n → snapshot_fits d' n'.
Proof.
  intros Hok Hok' Hs (H1 & H2 & H3). pose proof (same_relatives _ _ _ _ Hok Hok' Hs) as Hp. pose proof Hs as [Hl Hc].
  split; [|split].
  - rewrite Hp. eapply Forall_impl; [exact H1|]. intros rel (i & v & k & t & E & Hk). exists i, v, k, t.
    rewrite Hl. split; [done|]. destruct Hk as [?|(c & -> & Hk)]; [by left|right]. exists c. by rewrite (Hc rel _ _ E).
  - by rewrite Hp.
  - rewrite (total_perm _ (map (bytes_of d' n') (relatives d n))) by (by apply Permutation_map).
    erewrite map_ext; [exact H3|]. intros rel. unfold bytes_of. by rewrite Hl.
Qed.

Lemma entry_key_of d n rel v : entry_of d n rel = Some v → entry_key v = join_names rel.
Proof.
  unfold entry_of. intros ([i x] & _ & H)%bind_Some. destruct (node x); try done; by injection H as <-.
Qed.

Lemma join_inj a b : Forall plain_name a → Forall plain_name b → join_names a = join_names b → a = b.
Proof. intros Ha Hb E. by rewrite <- (names_join a Ha), <- (names_join b Hb), E. Qed.

Lemma keys_distinct d n l : Forall (fun rel => Forall plain_name rel) l → NoDup l →
  NoDup (entry_key <$> omap (entry_of d n) l).
Proof.
  intros Hp. induction Hp as [|rel l Hrel Hl IH]; [by constructor|]. intros [Hn Hd]%NoDup_cons. cbn.
  destruct (entry_of d n rel) as [v|] eqn:E; [|by apply IH]. constructor; [|by apply IH].
  intros (v' & E' & (rel' & Hr' & Hv')%list_elem_of_omap)%list_elem_of_fmap. apply Hn.
  rewrite (entry_key_of _ _ _ _ E), (entry_key_of _ _ _ _ Hv') in E'. rewrite Forall_forall in Hl.
  apply join_inj in E'; [by subst|done|by apply Hl].
Qed.

Lemma snapshot_same d n d' n' : tree_ok d → fs_ok d' → same_tree d n d' n' → snapshot_of d' n' = snapshot_of d n.
Proof.
  intros Hok Hok' Hs. pose proof (tree_inodes d Hok) as Hf. pose proof (same_relatives _ _ _ _ Hf Hok' Hs) as Hp.
  unfold snapshot_of, snapshot_value. do 4 f_equal. change entry_less with (key_less entry_key).
  assert (omap (entry_of d' n') (relatives d' n') ≡ₚ omap (entry_of d n) (relatives d n)) as Hq.
  { rewrite (omap_perm _ _ _ Hp). apply Permutation_refl', omap_agree. intros rel _. unfold entry_of. by destruct Hs as [-> _]. }
  f_equal. f_equal. symmetry. apply sort_by_key_unique; [by symmetry|]. apply keys_distinct; [|apply relatives_nodup].
  apply Forall_forall. intros rel [_ H]%relatives_in. apply (tree_names d Hok) in H. apply safe_plain.
  by apply Forall_app in H as [_ ?].
Qed.

(** ** Taking a snapshot *)

Lemma runs_is_link w n : quiet w → Forall safe_name n → is_dir_at (disk w) n = true →
  runs w (is_link (abs_text n)) false (disk w).
Proof.
  intros Hq Hs (i & x & E & Hx)%is_dir_at_inv. eapply runs_bind; [by apply runs_status|].
  intros w1 Q1 D1 _. rewrite names_abs_text, E by (by apply safe_plain). cbv beta iota.
  unfold StableFile.is_symlink. rewrite Hx, <- D1. by apply runs_ret.
Qed.

Lemma runs_snapshot_entry w n rel es b v k : quiet w → Forall safe_name (n ++ rel) → rel ≠ [] →
  plain_entry (disk w) n rel → entry_of (disk w) n rel = Some v →
  (∃ i x, lookup_inode (disk w) (n ++ rel) = Some (i, x) ∧ k = node x) →
  N.of_nat (length es) < maximum_snapshot_entries → b + bytes_of (disk w) n rel <= maximum_snapshot_bytes →
  runs w (snapshot_entry (abs_text n) (es, b) (abs_text (n ++ rel), k))
    (es ++ [v], b + bytes_of (disk w) n rel) (disk w).
Proof.
  intros Hq Hs Hr (i & u & k' & t & E & Hk) Hv (i' & x & Ex & ->) Hl Hb. rewrite E in Ex. injection Ex as <- <-.
  unfold snapshot_entry, entry_of, bytes_of in *. rewrite E in *. cbn in Hv. cbn [fst snd node].
  rewrite (proj2 (N.leb_gt _ _)) by done. rewrite relative_text by (done || by apply safe_plain).
  destruct Hk as [->|(c & -> & Hc)].
  - injection Hv as <-. rewrite N.add_0_r. by apply runs_ret.
  - injection Hv as <-. assert (normal_absolute_path (abs_text (n ++ rel))) as Hp by (split; [done|by apply normal_abs_text]).
    assert (names (abs_text (n ++ rel)) = n ++ rel) as En by (by apply names_abs_text, safe_plain).
    eapply runs_bind; [eapply runs_open_stable; [done|done|by rewrite En|done]|].
    intros w1 Q1 D1 _. cbv beta. rewrite <- D1 in *. cbn [StableFile.identity_ stable_of StableFile.size_bytes].
    rewrite (proj2 (N.ltb_ge _ _)) by lia. pose proof (lookup_inode_inv _ _ _ _ E) as [_ Ei].
    eapply runs_bind; [eapply runs_sha256_hex; [done|exact Ei]|]. intros w2 Q2 D2 _. cbv beta. rewrite <- D2 in *.
    eapply runs_bind; [eapply runs_verify_unchanged; [done|by rewrite En|done]|].
    intros w3 Q3 D3 _. cbv beta. rewrite <- D3 in *. by apply runs_ret.
Qed.

(** The entries of the listing, in its order. *)
Definition listed_tree (d : fs) (n : name) (rels : list name) : list (path * kind) :=
  omap (fun rel => '(_, x) ← lookup_inode d (n ++ rel); Some (abs_text (n ++ rel), node x)) rels.

Lemma map_omap_map {A B C D} (f : C → D) (g : B → option C) (h : A → B) (l : list A) :
  map f (omap g (map h l)) = omap (fun x => f <$> g (h x)) l.
Proof. induction l as [|x l IH]; [done|]. cbn in *. by destruct (g (h x)); cbn; rewrite IH. Qed.

Lemma runs_list_tree w n : quiet w → tree_ok (disk w) → is_dir_at (disk w) n = true →
  runs w (Session.list_tree (abs_text n)) (listed_tree (disk w) n (relatives (disk w) n)) (disk w).
Proof.
  intros Hq Hok Hd. assert (Forall safe_name n) as Hs by (by apply (tree_names _ Hok), is_dir_entry).
  eapply runs_bind; [by apply runs_observe|]. intros w1 Q1 D1 _. cbv beta. rewrite <- D1 in *.
  rewrite names_abs_text, Hd by (by apply safe_plain). cbv iota.
  assert (map (fun e => (entry_path (abs_text n) (fst e), snd e))
    (omap (fun m => '(_, x) ← lookup_inode (disk w1) m; Some (m, node x)) (descendants (disk w1) n)) =
    listed_tree (disk w1) n (relatives (disk w1) n)) as ->; [|by apply runs_ret].
  rewrite descendants_relative. unfold listed_tree.
  assert (Forall (fun rel => Forall safe_name (n ++ rel)) (relatives (disk w1) n)) as Hn.
  { apply Forall_forall. intros rel [_ H]%relatives_in. by apply (tree_names _ Hok). }
  rewrite map_omap_map. apply omap_agree. intros rel Hrel. rewrite Forall_forall in Hn.
  destruct (lookup_inode (disk w1) (n ++ rel)) as [[i x]|]; [|done].
  cbn [mbind option_bind fmap option_fmap option_map fst snd]. by rewrite entry_path_text by (by apply safe_plain, Hn).
Qed.

Lemma runs_snapshot_fold n rels : ∀ w es b, quiet w → Forall (fun rel => Forall safe_name (n ++ rel) ∧ rel ≠ []) rels →
  Forall (plain_entry (disk w) n) rels → N.of_nat (length es + length rels) <= maximum_snapshot_entries →
  b + total (map (bytes_of (disk w) n) rels) <= maximum_snapshot_bytes →
  runs w (fold_eff (snapshot_entry (abs_text n)) (es, b) (listed_tree (disk w) n rels))
    (es ++ omap (entry_of (disk w) n) rels, b + total (map (bytes_of (disk w) n) rels)) (disk w).
Proof.
  induction rels as [|rel rels IH]; intros w es b Hq Hn Hp Hl Hb.
  { cbn. rewrite app_nil_r, N.add_0_r. by apply runs_ret. }
  apply Forall_cons in Hn as [[Hs Hr] Hn]. apply Forall_cons in Hp as [Hrel Hp]. pose proof Hrel as (i & v & k & t & E & Hk).
  cbn [length] in Hl. cbn [map total fold_right] in Hb. fold (total (map (bytes_of (disk w) n) rels)) in Hb.
  assert (∃ v, entry_of (disk w) n rel = Some v) as [ev Ev].
  { unfold entry_of. rewrite E. cbn. destruct Hk as [->|(c & -> & _)]; by eexists. }
  assert (listed_tree (disk w) n (rel :: rels) = (abs_text (n ++ rel), k) :: listed_tree (disk w) n rels) as ->.
  { unfold listed_tree. cbn. by rewrite E. }
  assert (omap (entry_of (disk w) n) (rel :: rels) = ev :: omap (entry_of (disk w) n) rels) as -> by (cbn; by rewrite Ev).
  cbn [fold_eff]. eapply runs_bind.
  { eapply runs_snapshot_entry; try done; [by eexists _, _; split; [exact E|]|lia|lia]. }
  intros w1 Q1 D1 _. cbv beta. rewrite <- D1 in *. cbn [map total fold_right].
  fold (total (map (bytes_of (disk w1) n) rels)). rewrite N.add_assoc.
  replace (es ++ ev :: omap (entry_of (disk w1) n) rels) with ((es ++ [ev]) ++ omap (entry_of (disk w1) n) rels)
    by (by rewrite <- app_assoc).
  apply IH; try done; [rewrite length_app; simpl; lia|lia].
Qed.

Lemma runs_snapshot w n : quiet w → tree_ok (disk w) → is_dir_at (disk w) n = true → snapshot_fits (disk w) n →
  runs w (replacement_snapshot_digest (abs_text n)) (snapshot_of (disk w) n) (disk w).
Proof.
  intros Hq Hok Hd (Hp & Hl & Hb). assert (Forall safe_name n) as Hs by (by apply (tree_names _ Hok), is_dir_entry).
  unfold replacement_snapshot_digest.
  assert (runs w (or_m (not_m (is_directory (abs_text n))) (is_link (abs_text n))) false (disk w)) as Hor.
  { apply (runs_or _ _ _ false false).
    - apply (runs_not _ _ true), runs_is_directory; [done|]. by rewrite names_abs_text by (by apply safe_plain).
    - intros _ w1 Q1 D1. rewrite <- D1 in *. by apply runs_is_link. }
  eapply runs_bind; [exact Hor|]. intros w1 Q1 D1 _. cbv beta iota. rewrite <- D1 in *.
  eapply runs_bind; [by apply runs_list_tree|]. intros w2 Q2 D2 _. cbv beta. rewrite <- D2 in *.
  eapply runs_bind.
  { apply runs_snapshot_fold; [done| |done|exact Hl|by rewrite N.add_0_l]. apply Forall_forall.
    intros rel [Hr H]%relatives_in. split; [|done]. by apply (tree_names _ Hok). }
  intros w3 Q3 D3 _. cbv beta iota. rewrite <- D3 in *. cbn [app]. apply runs_lift; [done|]. apply sha256_canonical_eq.
Qed.

(** ** Matching a root *)

Lemma safe_dir_tree d n : tree_ok d → is_dir_at d n = true → safe_dir d n.
Proof.
  intros Hok Hd k. destruct (decide (length n <= k)%nat); [by rewrite take_ge by lia|].
  apply (tree_prefix d _ (drop k n)); [done|by rewrite take_drop; apply is_dir_entry|].
  intros E. apply (f_equal length) in E. rewrite length_drop in E. simpl in E. lia.
Qed.

(** A directory with this identity and a snapshot with this digest. *)
Definition holds_root (d : fs) (n : name) (identity snapshot : string) : Prop :=
  is_dir_at d n = true ∧ dir_identity d n = identity ∧ snapshot_fits d n ∧ snapshot_of d n = snapshot.

Lemma holds_root_same d n d' n' identity snapshot : tree_ok d → fs_ok d' → same_tree d n d' n' →
  holds_root d n identity snapshot → holds_root d' n' identity snapshot.
Proof.
  intros Hok Hok' Hs (H1 & H2 & H3 & H4). pose proof (tree_inodes d Hok) as Hf.
  pose proof (proj1 Hs []) as E. rewrite !app_nil_r in E.
  split; [unfold is_dir_at in *; by rewrite E|]. split; [unfold dir_identity in *; by rewrite E|].
  split; [by eapply snapshot_fits_same|]. by rewrite (snapshot_same d n d' n').
Qed.

Lemma runs_otherwise {A} w (m h : io A) a d : runs w m a d → runs w (otherwise m h) a d.
Proof. intros (w' & R & D & Q & C). exists w'. unfold otherwise. by rewrite R. Qed.

Section Matches.
Context (w : world) (n : name).
Hypothesis Hq : quiet w.
Hypothesis Hok : tree_ok (disk w).

Let directory_test : io bool := and_m (is_directory (abs_text n)) (not_m (is_link (abs_text n))).

Lemma runs_directory_test : is_dir_at (disk w) n = true → runs w directory_test true (disk w).
Proof.
  intros Hd. assert (Forall safe_name n) as Hs by (by apply (tree_names _ Hok), is_dir_entry).
  apply (runs_and _ _ _ true true).
  - apply runs_is_directory; [done|]. by rewrite names_abs_text by (by apply safe_plain).
  - intros _ w1 Q1 D1. apply (runs_not _ _ false). rewrite <- D1 in *. by apply runs_is_link.
Qed.

Lemma runs_identity_test identity : is_dir_at (disk w) n = true →
  runs w (and_m directory_test (found ← observe_directory_identity (abs_text n); ret (String.eqb found identity)))
    (String.eqb (dir_identity (disk w) n) identity) (disk w).
Proof.
  intros Hd. assert (Forall safe_name n) as Hs by (by apply (tree_names _ Hok), is_dir_entry).
  apply (runs_and _ _ _ true); [by apply runs_directory_test|]. intros _ w1 Q1 D1. rewrite <- D1 in *.
  apply runs_eqb, runs_identity; [done|done|]. by apply safe_dir_tree.
Qed.

Lemma matches_held identity snapshot : holds_root (disk w) n identity snapshot →
  runs w (matches_root (abs_text n) identity snapshot) true (disk w).
Proof.
  intros (Hd & Hi & Hf & Hs). apply runs_otherwise. apply (runs_and _ _ _ true true).
  - pose proof (runs_identity_test identity Hd) as H. by rewrite Hi, String.eqb_refl in H.
  - intros _ w1 Q1 D1. rewrite <- D1 in *. replace true with (String.eqb (snapshot_of (disk w1) n) snapshot)
      by (by rewrite Hs, String.eqb_refl). by apply runs_eqb, runs_snapshot.
Qed.

(** Another directory is there, or nothing. *)
Lemma matches_other identity snapshot : is_dir_at (disk w) n = true → dir_identity (disk w) n ≠ identity →
  runs w (matches_root (abs_text n) identity snapshot) false (disk w).
Proof.
  intros Hd Hi. apply runs_otherwise. apply (runs_and _ _ _ false true); [|done].
  pose proof (runs_identity_test identity Hd) as H. by rewrite (proj2 (String.eqb_neq _ _) Hi) in H.
Qed.

Lemma matches_absent identity snapshot : Forall safe_name n → entries (disk w) !! n = None →
  runs w (matches_root (abs_text n) identity snapshot) false (disk w).
Proof.
  intros Hs Hn. apply runs_otherwise. apply (runs_and _ _ _ false true); [|done].
  apply (runs_and _ _ _ false true); [|done]. apply (runs_and _ _ _ false true); [|done].
  eapply runs_bind; [by apply runs_status|]. intros w1 Q1 D1 _. cbv beta. rewrite <- D1 in *.
  rewrite names_abs_text by (by apply safe_plain). unfold lookup_inode. rewrite Hn. by apply runs_ret.
Qed.
End Matches.

End ReplacementSnapshot.
