(* ===== verification/ReplacementHost.v ===== *)
(** Inspecting a replacement on an undisturbed host: the verdict says where the two
    roots are, for every complete journal, and "corrupt" for every other one. *)

From Stdlib Require Import Ascii String NArith ZArith Lia.
From stdpp Require Import base list strings gmap sets.
From S2P Require Import Prelude Effects Sha256 StdMap Json JsonFacts JsonProps Path PathFacts World RecordIo.
From S2P Require Import RecordFacts DirectoryFacts SessionHost HostFacts Replacement ReplacementJournal.
From S2P Require Import TreeFacts ReplacementSnapshot.

Module ReplacementHost.
Import Json Path PathFacts Effects World RecordIo RecordFacts DirectoryFacts TreeFacts ParseErrors.
Import SessionHost HostFacts Replacement ReplacementJournal ReplacementSnapshot.

Lemma catchable_check spec roots st name text : throws_catchable (check_record spec roots st name text).
Proof. unfold check_record, binding_differs. destruct st as [[? ?] ?]. catch_auto. Qed.

(** ** Where the roots are *)

Section Exchange.
Context (spec : ReplacementSpec) (parent state : name) (a b c : string).

Definition live : name := parent ++ [a].
Definition staged : name := parent ++ [b].
Definition retained : name := parent ++ [c].
Definition transactions : name := state ++ ["replacement-transactions"].
Definition journal_dir : name := transactions ++ [transaction_id spec].

(** The specification names three siblings apart from the state root. *)
Record geometry : Prop := {
  live_path : live_root spec = abs_text live;
  staged_path : staged_root spec = abs_text staged;
  retained_path : retained_root spec = abs_text retained;
  state_path : state_root spec = abs_text state;
  parent_safe : Forall safe_name parent;
  roots_safe : safe_name a ∧ safe_name b ∧ safe_name c;
  state_safe : Forall safe_name state;
  id_safe : safe_name (transaction_id spec);
  roots_differ : a ≠ b ∧ a ≠ c ∧ b ≠ c;
  state_apart : ∀ x rel rel', x = a ∨ x = b ∨ x = c → parent ++ [x] ++ rel ≠ state ++ rel';
  identities_differ : old_root_identity spec ≠ new_root_identity spec;
}.

Inductive location := before | retired | active.

#[global] Instance location_eq_dec : EqDecision location.
Proof. solve_decision. Defined.

Definition old_at (d : fs) (n : name) : Prop := holds_root d n (old_root_identity spec) (old_snapshot_digest spec).
Definition new_at (d : fs) (n : name) : Prop := holds_root d n (new_root_identity spec) (new_snapshot_digest spec).

Definition roots_at (d : fs) (l : location) : Prop :=
  match l with
  | before => old_at d live ∧ new_at d staged ∧ entries d !! retained = None
  | retired => entries d !! live = None ∧ new_at d staged ∧ old_at d retained
  | active => new_at d live ∧ entries d !! staged = None ∧ old_at d retained
  end.

Hypothesis Hg : geometry.

Lemma live_safe : Forall safe_name live.
Proof. apply Forall_app. split; [apply Hg|]. constructor; [apply Hg|done]. Qed.

Lemma staged_safe : Forall safe_name staged.
Proof. apply Forall_app. split; [apply Hg|]. constructor; [apply Hg|done]. Qed.

Lemma retained_safe : Forall safe_name retained.
Proof. apply Forall_app. split; [apply Hg|]. constructor; [apply Hg|done]. Qed.

Lemma transactions_safe : Forall safe_name transactions.
Proof. apply Forall_app. split; [apply Hg|]. by repeat constructor. Qed.

Lemma journal_safe : Forall safe_name journal_dir.
Proof. apply Forall_app. split; [apply transactions_safe|]. constructor; [apply Hg|done]. Qed.

Definition texts : RootTexts := mk_texts (abs_text retained) (abs_text staged) (abs_text live).

Lemma runs_absolute w n : quiet w → Forall safe_name n →
  runs w (Replacement.absolute_normal (abs_text n)) (abs_text n) (disk w).
Proof.
  intros Hq Hs.
  assert (runs w (absolute_path (abs_text n)) (abs_text n) (disk w)) as Ha.
  { assert (runs w (StableFile.absolute (abs_text n)) (abs_text n) (disk w)) as Ha by (by exists w).
    eapply runs_bind; [exact Ha|]. intros w1 Q1 D1 _. cbv beta. cbn [is_empty abs_text].
    rewrite <- D1. by apply runs_ret. }
  eapply runs_bind; [exact Ha|]. intros w1 Q1 D1 _. cbv beta. rewrite normal_abs_text, <- D1 by done. by apply runs_ret.
Qed.

Lemma generic_abs_text n : Forall safe_name n → generic_string (abs_text n) = abs_text n.
Proof. intros Hs. unfold generic_string. by rewrite abs_text_components by (by apply safe_plain). Qed.

Lemma runs_normalized w n : quiet w → Forall safe_name n → runs w (normalized (abs_text n)) (abs_text n) (disk w).
Proof.
  intros Hq Hs. eapply runs_bind; [by apply runs_absolute|]. intros w1 Q1 D1 _. cbv beta.
  rewrite generic_abs_text, <- D1 by done. by apply runs_ret.
Qed.

Lemma runs_normalized_roots w : quiet w → runs w (normalized_roots spec) texts (disk w).
Proof.
  intros Hq. unfold normalized_roots. rewrite (live_path Hg), (staged_path Hg), (retained_path Hg).
  eapply runs_bind; [apply runs_normalized; [done|apply retained_safe]|]. intros w1 Q1 D1 _. cbv beta. rewrite <- D1.
  eapply runs_bind; [apply runs_normalized; [done|apply staged_safe]|]. intros w2 Q2 D2 _. cbv beta. rewrite <- D2.
  eapply runs_bind; [apply runs_normalized; [done|apply live_safe]|]. intros w3 Q3 D3 _. cbv beta. rewrite <- D3.
  by apply runs_ret.
Qed.

Lemma runs_normal_spec w : quiet w → runs w (normal_spec spec) spec (disk w).
Proof.
  intros Hq. unfold normal_spec. rewrite (live_path Hg), (staged_path Hg), (retained_path Hg), (state_path Hg).
  eapply runs_bind; [apply runs_absolute; [done|apply live_safe]|]. intros w1 Q1 D1 _. cbv beta. rewrite <- D1.
  eapply runs_bind; [apply runs_absolute; [done|apply staged_safe]|]. intros w2 Q2 D2 _. cbv beta. rewrite <- D2.
  eapply runs_bind; [apply runs_absolute; [done|apply retained_safe]|]. intros w3 Q3 D3 _. cbv beta. rewrite <- D3.
  eapply runs_bind; [apply runs_absolute; [done|apply Hg]|]. intros w4 Q4 D4 _. cbv beta. rewrite <- D4.
  rewrite <- (live_path Hg), <- (staged_path Hg), <- (retained_path Hg), <- (state_path Hg).
  destruct spec. by apply runs_ret.
Qed.

Lemma journal_path_text : journal_root spec /+ transaction_id spec = abs_text journal_dir.
Proof.
  unfold journal_root. rewrite (state_path Hg).
  rewrite (abs_text_append state) by (by apply safe_plain, Hg || by repeat split). fold transactions.
  apply abs_text_append; [by apply safe_plain, transactions_safe|]. apply (id_safe Hg).
Qed.

(** ** Reading the journal *)

(** The journal directory holds exactly these files. *)
Definition stores (d : fs) (records : list (string * string)) : Prop :=
  is_dir_at d journal_dir = true ∧
  listing d journal_dir ≡ₚ map (fun r => (journal_dir ++ [fst r], regular (snd r))) records ∧
  Forall (fun r => ∃ i, holds_file d (abs_text (journal_dir ++ [fst r])) i (snd r)) records.

Lemma record_name_safe k : (k < 7)%nat → safe_name (record_name k).
Proof.
  intros Hk. destruct k as [|[|[|[|[|[|[|k]]]]]]]; [..|lia];
    (split; [split; vm_compute; reflexivity|split; vm_compute; discriminate]).
Qed.

Lemma record_names_sorted m : (m <= 7)%nat → sort_names (map record_name (seq 0 m)) = map record_name (seq 0 m).
Proof. intros Hm. destruct m as [|[|[|[|[|[|[|[|m]]]]]]]]; [..|lia]; vm_compute; reflexivity. Qed.

Lemma admit_all listing : ∀ names, Forall (fun e => ∃ t, snd e = regular t) listing →
  (length names + length listing <= 16)%nat →
  fold_result admit_record names listing = Ok (names ++ map entry_name listing).
Proof.
  induction listing as [|e listing IH]; intros names Hr Hl; cbn [fold_result map]; [by rewrite app_nil_r|].
  apply Forall_cons in Hr as [[t Ht] Hr]. cbn [length] in Hl. rewrite (bind_step _ _ (names ++ [entry_name e])).
  - rewrite IH by (done || (rewrite length_app; simpl; lia)). by rewrite <- app_assoc.
  - unfold admit_record. rewrite Ht. by rewrite (proj2 (N.leb_gt _ _)) by lia.
Qed.

Definition readable_file (d : fs) (r : string * string) : Prop :=
  safe_name (fst r) ∧ (∃ i, holds_file d (abs_text (journal_dir ++ [fst r])) i (snd r)) ∧ size (snd r) <= 1024 * 1024.

Lemma runs_read_records records : ∀ w st, quiet w → Forall (readable_file (disk w)) records →
  match accept spec texts st records with
  | Ok st' => runs w (fold_eff (read_record spec texts (abs_text journal_dir)) st (map fst records)) st' (disk w)
  | Throw _ => throws_io w (fold_eff (read_record spec texts (abs_text journal_dir)) st (map fst records))
  end.
Proof.
  induction records as [|[nm text] records IH]; intros w st Hq Hr; [by apply runs_ret|].
  apply Forall_cons in Hr as [(Hs & [i Hf] & Hz) Hr]. unfold accept. cbn [map fst snd fold_eff fold_result] in *.
  assert (runs w (read_stable_text (abs_text journal_dir /+ nm) (1024 * 1024)) text (disk w)) as Ht.
  { eapply runs_read_stable_text; [done| |by rewrite abs_text_append by (by apply safe_plain, journal_safe || apply Hs)|done].
    apply child_path; [apply journal_safe|done]. }
  destruct (check_record spec texts st nm text) as [st1|e] eqn:E; cbn [mbind result_bind].
  - assert (runs w (read_record spec texts (abs_text journal_dir) st nm) st1 (disk w)) as H1.
    { eapply runs_bind; [exact Ht|]. intros w1 Q1 D1 _. cbv beta. rewrite <- D1. by apply runs_lift. }
    fold (accept spec texts st1 records).
    destruct (accept spec texts st1 records) as [st2|e] eqn:E2.
    + eapply runs_bind; [exact H1|]. intros w1 Q1 D1 _. cbv beta. rewrite <- D1 in *.
      specialize (IH w1 st1 Q1 Hr). by rewrite E2 in IH.
    + eapply throws_io_after; [exact H1|]. intros w1 Q1 D1 _. cbv beta. rewrite <- D1 in *.
      specialize (IH w1 st1 Q1 Hr). by rewrite E2 in IH.
  - apply throws_io_bind. eapply throws_io_after; [exact Ht|]. intros w1 Q1 D1 _. cbv beta.
    apply throws_io_lift; [done|apply catchable_check|by rewrite E].
Qed.

(** [m] gets to [k] with the disk as it was. *)
Definition reaches {A} (w : world) (m k : io A) : Prop :=
  ∃ w', m w = k w' ∧ quiet w' ∧ disk w' = disk w ∧ cwd w' = cwd w.

Lemma reaches_refl {A} w (m : io A) : quiet w → reaches w m m.
Proof. by exists w. Qed.

Lemma reaches_bind {A B} w (m : io A) (f : A → io B) k x : runs w m x (disk w) →
  (∀ w', quiet w' → disk w' = disk w → reaches w' (f x) k) → reaches w (m ≫= f) k.
Proof.
  intros (w1 & E & D & Q & C) H. destruct (H w1 Q D) as (w2 & E2 & Q2 & D2 & C2).
  exists w2. unfold mbind, M_bind. rewrite E. split_and!; [done|done|congruence|congruence].
Qed.

Lemma reaches_runs {A} w (m k : io A) x : reaches w m k →
  (∀ w', quiet w' → disk w' = disk w → runs w' k x (disk w)) → runs w m x (disk w).
Proof.
  intros (w1 & E & Q & D & C) H. destruct (H w1 Q D) as (w2 & E2 & D2 & Q2 & C2).
  exists w2. rewrite E, E2. split_and!; congruence.
Qed.

Lemma reaches_throws {A} w (m k : io A) : reaches w m k →
  (∀ w', quiet w' → disk w' = disk w → throws_io w' k) → throws_io w m.
Proof.
  intros (w1 & E & Q & D & C) H. destruct (H w1 Q D) as (e & w2 & E2 & Hc & D2 & Q2 & C2).
  exists e, w2. rewrite E, E2. split_and!; (done || congruence).
Qed.

Definition read_all (records : list (string * string)) : io (string * string) :=
  '(_, digest, phase) ← fold_eff (read_record spec texts (abs_text journal_dir)) (0, EmptyString, EmptyString)
    (map fst records);
  ret (phase, digest).

Lemma listed_names (records : list (string * string)) :
  map entry_name (map (fun r => (journal_dir ++ [fst r], regular (snd r))) records) = map fst records.
Proof. rewrite map_map. apply map_ext. intros r. unfold entry_name. cbn [fst]. by rewrite last_snoc. Qed.

Lemma read_journal_reaches w records m : quiet w → tree_ok (disk w) → stores (disk w) records →
  map fst records = map record_name (seq 0 m) → (m <= 7)%nat → (m ≠ 0)%nat →
  reaches w (read_journal spec) (read_all records).
Proof.
  intros Hq Hok (Hd & Hl & _) En Hm Hm0. unfold read_journal. rewrite journal_path_text.
  eapply reaches_bind.
  { apply runs_require_safe_directory; [done|apply journal_safe|by apply safe_dir_tree]. }
  intros w1 Q1 D1. rewrite <- D1 in *. eapply reaches_bind; [by apply runs_observe|].
  intros w2 Q2 D2. rewrite <- D2 in *. cbv beta. rewrite names_abs_text, Hd by (apply safe_plain, journal_safe).
  cbv iota. fold (listing (disk w2) journal_dir).
  assert (length records = m) as Hlen by (apply (f_equal length) in En; by rewrite !length_map, length_seq in En).
  eapply reaches_bind.
  { apply runs_lift; [done|]. apply admit_all.
    - rewrite Hl. apply Forall_fmap, Forall_forall. intros r _. by eexists.
    - rewrite Hl, length_map. cbn [length]. lia. }
  intros w3 Q3 D3. rewrite <- D3 in *. cbv beta. cbn [app].
  assert (sort_names (map entry_name (listing (disk w3) journal_dir)) = map fst records) as ->.
  { rewrite (sort_names_unique _ (map record_name (seq 0 m))); [done| |].
    - rewrite <- record_names_sorted by done. apply sort_names_sorted.
    - rewrite <- En, <- listed_names. by apply Permutation_map. }
  destruct records as [|r records]; [simpl in Hlen; lia|]. cbn [map].
  eapply reaches_bind; [by apply runs_normalized_roots|]. intros w4 Q4 D4. by apply reaches_refl.
Qed.

Hypothesis Hread : journal_readable spec texts.

Lemma journal_names n : map fst (journal spec texts n) = map record_name (seq 0 n).
Proof. unfold journal. by rewrite map_map. Qed.

Lemma journal_files d n records : (n <= 7)%nat → records = journal spec texts n → stores d records →
  Forall (readable_file d) records.
Proof.
  intros Hn -> (_ & _ & Hf). unfold journal in *. rewrite Forall_fmap in *.
  apply Forall_forall. intros k Hk. rewrite Forall_forall in Hf. specialize (Hf k Hk).
  apply list_elem_of_In, in_seq in Hk. split; [|split; [exact Hf|]]; cbn [fst snd].
  - apply record_name_safe. lia.
  - apply Hread. lia.
Qed.

Lemma runs_read_complete w n : quiet w → tree_ok (disk w) → stores (disk w) (journal spec texts n) →
  (0 < n <= 7)%nat → runs w (read_journal spec) (phase_before n, digest_after spec texts n) (disk w).
Proof.
  intros Hq Hok Hs Hn. eapply reaches_runs; [eapply (read_journal_reaches _ _ n); try done; [apply journal_names|lia|lia]|].
  intros w1 Q1 D1. rewrite <- D1 in *.
  pose proof (runs_read_records (journal spec texts n) w1 (0, EmptyString, EmptyString) Q1) as H.
  specialize (H ltac:(by eapply (journal_files _ n); [lia|..])).
  rewrite (proj2 (accept_whole spec texts (journal spec texts n) (state_after spec texts n))) in H.
  - eapply runs_bind; [exact H|]. intros w2 Q2 D2 _. cbv beta iota. rewrite <- D2. by apply runs_ret.
  - exists n. split_and!; [lia|done| |done]. intros k Hk. apply record_parses; [done|lia].
Qed.

Lemma throws_read_torn w n content : quiet w → tree_ok (disk w) →
  stores (disk w) (journal spec texts n ++ [(record_name n, content)]) → (n < 7)%nat →
  content ≠ record_text spec texts n → size content <= 1024 * 1024 → throws_io w (read_journal spec).
Proof.
  intros Hq Hok Hs Hn Hc Hz. eapply reaches_throws.
  { eapply (read_journal_reaches _ _ (S n)); try done. rewrite map_app, journal_names, seq_S, map_app. done. }
  intros w1 Q1 D1. rewrite <- D1 in *.
  pose proof (runs_read_records (journal spec texts n ++ [(record_name n, content)]) w1 (0, EmptyString, EmptyString) Q1) as H.
  assert (Forall (readable_file (disk w1)) (journal spec texts n ++ [(record_name n, content)])) as Hf.
  { pose proof Hs as (_ & _ & [Hf1 Hf2]%Forall_app). apply Forall_app. split.
    - unfold journal in *. rewrite Forall_fmap in *. apply Forall_forall. intros k Hk. rewrite Forall_forall in Hf1.
      specialize (Hf1 k Hk). apply list_elem_of_In, in_seq in Hk. split; [apply record_name_safe; cbn; lia|].
      split; [done|]. apply Hread. lia.
    - rewrite Forall_singleton in Hf2. apply Forall_singleton. split; [by apply record_name_safe|split; [exact Hf2|exact Hz]]. }
  specialize (H Hf). destruct (accept spec texts _ _) as [st|e] eqn:E.
  - exfalso. apply accept_whole in E as (m & Hm & E & _). apply Hc.
    assert (m = S n) as ->.
    { apply (f_equal length) in E. unfold journal in E. rewrite length_app, !length_map, !length_seq in E. simpl in E. lia. }
    rewrite journal_snoc in E. by apply app_inj_tail in E as [_ [= ->]].
  - by apply throws_io_bind.
Qed.

Lemma throws_read_empty w : quiet w → tree_ok (disk w) → stores (disk w) [] → throws_io w (read_journal spec).
Proof.
  intros Hq Hok (Hd & Hl & _). unfold read_journal. rewrite journal_path_text.
  eapply throws_io_after.
  { apply runs_require_safe_directory; [done|apply journal_safe|by apply safe_dir_tree]. }
  intros w1 Q1 D1 _. rewrite <- D1 in *. eapply throws_io_after; [by apply runs_observe|].
  intros w2 Q2 D2 _. rewrite <- D2 in *. cbv beta. rewrite names_abs_text, Hd by (apply safe_plain, journal_safe).
  cbv iota. fold (listing (disk w2) journal_dir). cbn [map] in Hl. apply Permutation_nil_r in Hl as ->.
  eapply throws_io_after; [by apply runs_lift|]. intros w3 Q3 D3 _. cbv beta. by apply throws_io_fail.
Qed.

Lemma throws_read_absent w : quiet w → entries (disk w) !! journal_dir = None → throws_io w (read_journal spec).
Proof.
  intros Hq Hn. unfold read_journal. rewrite journal_path_text. apply throws_io_bind.
  assert (runs w (StableFile.absolute (abs_text journal_dir)) (abs_text journal_dir) (disk w)) as Ha by (by exists w).
  unfold RecordIo.require_safe_directory. eapply throws_io_after; [exact Ha|]. intros w1 Q1 D1 _. cbv beta zeta.
  rewrite <- D1 in *. rewrite normal_abs_text by apply journal_safe. cbn [is_empty abs_text].
  change (String slash (join_names journal_dir)) with (abs_text journal_dir).
  eapply throws_io_after.
  { apply (runs_or _ _ _ true true); [|done]. apply (runs_not _ _ false).
    eapply runs_bind; [by apply runs_status|]. intros w2 Q2 D2 _. cbv beta. rewrite <- D2 in *.
    rewrite names_abs_text by (apply safe_plain, journal_safe). unfold lookup_inode. rewrite Hn. by apply runs_ret. }
  intros w2 Q2 D2 _. cbv beta iota. by apply throws_io_fail.
Qed.

(** ** The verdict *)

Definition live_there (l : location) : bool := bool_decide (l ≠ retired).
Definition staged_there (l : location) : bool := bool_decide (l ≠ active).
Definition retained_there (l : location) : bool := bool_decide (l ≠ before).

(** How many records there may be where the roots are. *)
Definition compatible (n : nat) (l : location) : Prop :=
  match l with before => (1 <= n <= 2)%nat | retired => (2 <= n <= 4)%nat | active => (4 <= n <= 7)%nat end.

Definition verdict (n : nat) (l : location) : string :=
  match l with
  | before => "no_replacement_effect"
  | retired => "old_retired"
  | active => if (n =? 7)%nat then "completed" else "new_active"
  end.

Definition expected (n : nat) (l : location) : ReplacementInspection :=
  mk_inspection (phase_before n) (verdict n l) (digest_after spec texts n) (live_there l) (staged_there l)
    (retained_there l) (if (n =? 7)%nat then [] else ["retain_for_operator"]).

Definition corrupt (l : location) : ReplacementInspection :=
  mk_inspection "corrupt" "indeterminate" EmptyString (live_there l) (staged_there l) (retained_there l)
    ["retain_for_operator"].

Lemma runs_exists_dir w n : quiet w → Forall safe_name n → is_dir_at (disk w) n = true →
  runs w (exists_ (abs_text n)) true (disk w).
Proof.
  intros Hq Hs (i & x & E & Hx)%is_dir_at_inv. eapply runs_bind; [by apply runs_status|]. intros w1 Q1 D1 _.
  cbv beta. rewrite <- D1 in *. rewrite names_abs_text, E by (by apply safe_plain). rewrite Hx. by apply runs_ret.
Qed.

Lemma runs_exists_none w n : quiet w → Forall safe_name n → entries (disk w) !! n = None →
  runs w (exists_ (abs_text n)) false (disk w).
Proof.
  intros Hq Hs Hn. eapply runs_bind; [by apply runs_status|]. intros w1 Q1 D1 _. cbv beta. rewrite <- D1 in *.
  rewrite names_abs_text by (by apply safe_plain). unfold lookup_inode. rewrite Hn. by apply runs_ret.
Qed.

Lemma runs_flags w l : quiet w → roots_at (disk w) l →
  runs w (exists_ (live_root spec)) (live_there l) (disk w) ∧
  runs w (exists_ (staged_root spec)) (staged_there l) (disk w) ∧
  runs w (exists_ (retained_root spec)) (retained_there l) (disk w).
Proof.
  intros Hq Hr. rewrite (live_path Hg), (staged_path Hg), (retained_path Hg).
  pose proof live_safe as S1. pose proof staged_safe as S2. pose proof retained_safe as S3.
  destruct l; destruct Hr as (H1 & H2 & H3); split_and!;
    first [apply runs_exists_none; assumption|apply runs_exists_dir; [assumption..|first [apply H1|apply H2|apply H3]]].
Qed.

Definition flagged (l : location) : ReplacementInspection :=
  mk_inspection EmptyString EmptyString EmptyString (live_there l) (staged_there l) (retained_there l) [].

(** The [try] block up to the journal. *)
Lemma read_state_flags w l : quiet w → roots_at (disk w) l → ∃ w', quiet w' ∧ disk w' = disk w ∧ cwd w' = cwd w ∧
  read_state spec (fresh_inspection, w) =
    ('(phase, digest) ← on_snd (read_journal spec); assign (set_chain phase digest)) (flagged l, w').
Proof.
  intros Hq Hr. destruct (runs_flags w l Hq Hr) as ((w1 & E1 & D1 & Q1 & C1) & _ & _). rewrite <- D1 in Hr.
  destruct (runs_flags w1 l Q1 Hr) as (_ & (w2 & E2 & D2 & Q2 & C2) & _). rewrite <- D2 in Hr.
  destruct (runs_flags w2 l Q2 Hr) as (_ & _ & (w3 & E3 & D3 & Q3 & C3)).
  exists w3. split; [done|]. split; [congruence|]. split; [congruence|].
  unfold read_state, assign, modify, mbind, M_bind. unfold on_snd at 1. cbn [fst snd]. rewrite E1. cbn [fst snd].
  unfold on_snd at 1. cbn [fst snd]. rewrite E2. cbn [fst snd].
  unfold on_snd at 1. cbn [fst snd]. rewrite E3. cbn [fst snd]. reflexivity.
Qed.

Lemma read_or_corrupt_ok w l phase digest : quiet w → roots_at (disk w) l →
  (∀ w', quiet w' → disk w' = disk w → runs w' (read_journal spec) (phase, digest) (disk w')) →
  ∃ w', read_or_corrupt spec (fresh_inspection, w) = (Ok true, (set_chain phase digest (flagged l), w')) ∧
    quiet w' ∧ disk w' = disk w ∧ cwd w' = cwd w.
Proof.
  intros Hq Hr Hj. destruct (read_state_flags w l Hq Hr) as (w1 & Q1 & D1 & C1 & E1).
  destruct (Hj w1 Q1 D1) as (w2 & E2 & D2 & Q2 & C2). exists w2. split; [|split_and!; congruence].
  unfold read_or_corrupt, otherwise, mbind, M_bind at 1. unfold mbind, M_bind in E1. rewrite E1.
  unfold on_snd. cbn [fst snd]. rewrite E2. reflexivity.
Qed.

Lemma read_or_corrupt_bad w l : quiet w → roots_at (disk w) l →
  (∀ w', quiet w' → disk w' = disk w → throws_io w' (read_journal spec)) →
  ∃ w', read_or_corrupt spec (fresh_inspection, w) = (Ok false, (corrupt l, w')) ∧
    quiet w' ∧ disk w' = disk w ∧ cwd w' = cwd w.
Proof.
  intros Hq Hr Hj. destruct (read_state_flags w l Hq Hr) as (w1 & Q1 & D1 & C1 & E1).
  destruct (Hj w1 Q1 D1) as (e & w2 & E2 & Hc & D2 & Q2 & C2). exists w2. split; [|split_and!; congruence].
  unfold read_or_corrupt, otherwise, mbind, M_bind at 1. unfold mbind, M_bind in E1. rewrite E1.
  unfold on_snd. cbn [fst snd]. rewrite E2. rewrite Hc. reflexivity.
Qed.

Lemma old_not_new d n : old_at d n → is_dir_at d n = true ∧ dir_identity d n ≠ new_root_identity spec.
Proof. intros (Hd & -> & _). split; [done|apply (identities_differ Hg)]. Qed.

Lemma new_not_old d n : new_at d n → is_dir_at d n = true ∧ dir_identity d n ≠ old_root_identity spec.
Proof. intros (Hd & -> & _). split; [done|]. intros E. by apply (identities_differ Hg). Qed.

Lemma runs_matches w l : quiet w → tree_ok (disk w) → roots_at (disk w) l →
  runs w (live_is_old spec) (bool_decide (l = before)) (disk w) ∧
  runs w (live_is_new spec) (bool_decide (l = active)) (disk w) ∧
  runs w (staged_is_new spec) (bool_decide (l ≠ active)) (disk w) ∧
  runs w (retained_is_old spec) (bool_decide (l ≠ before)) (disk w).
Proof.
  intros Hq Hok Hr. unfold live_is_old, live_is_new, staged_is_new, retained_is_old.
  rewrite (live_path Hg), (staged_path Hg), (retained_path Hg).
  pose proof live_safe as S1. pose proof staged_safe as S2. pose proof retained_safe as S3.
  destruct l; destruct Hr as (H1 & H2 & H3); split_and!;
    first [apply matches_absent; assumption|apply matches_held; assumption
          |apply matches_other; [assumption..|eapply old_not_new; eassumption|eapply old_not_new; eassumption]
          |apply matches_other; [assumption..|eapply new_not_old; eassumption|eapply new_not_old; eassumption]].
Qed.

Lemma judged n l : compatible n l →
  classify (bool_decide (l = before)) (bool_decide (l = active)) (bool_decide (l ≠ active)) (bool_decide (l ≠ before))
    (set_chain (phase_before n) (digest_after spec texts n) (flagged l)) = expected n l.
Proof.
  intros Hc. unfold expected. generalize (digest_after spec texts n) as d. intros d.
  destruct l; cbn [compatible] in Hc; destruct n as [|[|[|[|[|[|[|[|n]]]]]]]]; try (exfalso; lia); reflexivity.
Qed.

(** What the inspection finds where the roots are at [l]: a complete journal of [n]
    records, or anything else a session can leave. *)
Inductive journal_state (d : fs) (l : location) : ReplacementInspection → Prop :=
| journal_complete n : stores d (journal spec texts n) → compatible n l → journal_state d l (expected n l)
| journal_torn n content : stores d (journal spec texts n ++ [(record_name n, content)]) → (n < 7)%nat →
    content ≠ record_text spec texts n → size content <= 1024 * 1024 → journal_state d l (corrupt l)
| journal_empty : stores d [] → journal_state d l (corrupt l)
| journal_absent : entries d !! journal_dir = None → journal_state d l (corrupt l).

Lemma runs_inspect w l r : quiet w → tree_ok (disk w) → roots_at (disk w) l → journal_state (disk w) l r →
  runs w (inspect spec) r (disk w).
Proof.
  intros Hq Hok Hr Hj. eapply runs_bind; [by apply runs_normal_spec|]. intros w1 Q1 D1 _. rewrite <- D1 in *.
  assert (throws_case : (∀ w', quiet w' → disk w' = disk w1 → throws_io w' (read_journal spec)) →
    runs w1 (inspect_normal spec) (corrupt l) (disk w1)).
  { intros Ht. destruct (read_or_corrupt_bad w1 l Q1 Hr Ht) as (w2 & E2 & Q2 & D2 & C2). exists w2.
    unfold inspect_normal. by rewrite E2. }
  destruct Hj as [n Hs Hc|n content Hs Hn Hc Hz|Hs|Hs].
  - destruct (read_or_corrupt_ok w1 l (phase_before n) (digest_after spec texts n) Q1 Hr) as (w2 & E2 & Q2 & D2 & C2).
    { intros w' Q' D'. rewrite <- D' in *. apply runs_read_complete; try done. destruct l; cbn in Hc; lia. }
    rewrite <- D2 in Hok, Hr.
    assert (runs w2 (judge spec (set_chain (phase_before n) (digest_after spec texts n) (flagged l))) (expected n l)
      (disk w2)) as (w7 & E7 & D7 & Q7 & C7).
    { destruct (runs_matches w2 l Q2 Hok Hr) as (M1 & _). eapply runs_bind; [exact M1|]. intros w3 Q3 D3 _. cbv beta.
      rewrite <- D3 in *. destruct (runs_matches w3 l Q3 Hok Hr) as (_ & M2 & _). eapply runs_bind; [exact M2|].
      intros w4 Q4 D4 _. cbv beta. rewrite <- D4 in *. destruct (runs_matches w4 l Q4 Hok Hr) as (_ & _ & M3 & _).
      eapply runs_bind; [exact M3|]. intros w5 Q5 D5 _. cbv beta. rewrite <- D5 in *.
      destruct (runs_matches w5 l Q5 Hok Hr) as (_ & _ & _ & M4). eapply runs_bind; [exact M4|].
      intros w6 Q6 D6 _. cbv beta. rewrite <- D6, judged by done. by apply runs_ret. }
    exists w7. unfold inspect_normal. rewrite E2. split_and!; congruence.
  - apply throws_case. intros w' Q' D'. rewrite <- D' in *. by eapply throws_read_torn.
  - apply throws_case. intros w' Q' D'. rewrite <- D' in *. by apply throws_read_empty.
  - apply throws_case. intros w' Q' D'. rewrite <- D' in *. by apply throws_read_absent.
Qed.

End Exchange.
End ReplacementHost.
