(* ===== verification/CalmFacts.v ===== *)
(** Observations on a host where nothing else acts, though calls may fail and the
    process may die: they leave the disk alone, and what they return is there. *)

From Stdlib Require Import Ascii String NArith ZArith Lia.
From stdpp Require Import base list strings gmap sets.
From S2P Require Import Prelude Sha256 Path PathFacts Effects World RecordIo RecordFacts SessionHost Session.

Module CalmFacts.
Import Path PathFacts Effects World RecordIo RecordFacts SessionHost.

(** ** Observations *)

Lemma still_status p : keeps still (status p).
Proof. unfold status. keeps_auto. Qed.
#[export] Hint Resolve still_status : eff.

Lemma still_exists p : keeps still (exists_ p).
Proof. unfold exists_. keeps_auto. Qed.

Lemma still_is_directory p : keeps still (is_directory p).
Proof. unfold is_directory. keeps_auto. Qed.

Lemma still_reparse p : keeps still (reparse_or_symlink p).
Proof. unfold reparse_or_symlink. keeps_auto. Qed.

Lemma still_absolute p : keeps still (StableFile.absolute p).
Proof. unfold StableFile.absolute. keeps_auto. Qed.

Lemma still_fsync : keeps still fsync.
Proof. unfold fsync. keeps_auto. Qed.
#[export] Hint Resolve still_exists still_is_directory still_reparse still_absolute still_fsync : eff.

Lemma still_open p : keeps still (StableFile.open_stable p).
Proof.
  unfold StableFile.open_stable, StableFile.require_absolute_path, lstat_links, open_existing, fstat. keeps_auto.
Qed.

Lemma still_read_exact f o n : keeps still (StableFile.read_exact f o n).
Proof. unfold StableFile.read_exact, read_content. keeps_auto. Qed.
#[export] Hint Resolve still_open still_read_exact : eff.

Lemma still_read f o n : keeps still (StableFile.read f o n).
Proof. unfold StableFile.read. keeps_auto. Qed.

Lemma still_hash_loop f fuel : ∀ o h, keeps still (StableFile.hash_loop f fuel o h).
Proof. induction fuel as [|fuel IH]; intros o h; cbn [StableFile.hash_loop]; cbv zeta; keeps_auto. Qed.
#[export] Hint Resolve still_read still_hash_loop : eff.

Lemma still_sha256 f : keeps still (StableFile.sha256_hex f).
Proof. unfold StableFile.sha256_hex. keeps_auto. Qed.

Lemma still_verify f : keeps still (StableFile.verify_unchanged f).
Proof. unfold StableFile.verify_unchanged, fstat, lstat_links. keeps_auto. Qed.
#[export] Hint Resolve still_sha256 still_verify : eff.

Lemma still_read_text p n : keeps still (read_stable_text p n).
Proof. unfold read_stable_text. keeps_auto. Qed.

Lemma still_sync p : keeps still (sync_directory p).
Proof. unfold sync_directory, lstat. keeps_auto. Qed.

Lemma still_walk l : ∀ p, keeps still (walk_components p l).
Proof. induction l as [|x l IH]; intros p; cbn [walk_components]; cbv zeta; keeps_auto. Qed.
#[export] Hint Resolve still_read_text still_sync still_walk : eff.

Lemma still_record_directory p : keeps still (RecordIo.require_safe_directory p).
Proof. unfold RecordIo.require_safe_directory. cbv zeta. keeps_auto. Qed.

Lemma still_walk_root q l : ∀ p, keeps still (walk_root q p l).
Proof. induction l as [|x l IH]; intros p; cbn [walk_root]; cbv zeta; keeps_auto. Qed.
#[export] Hint Resolve still_record_directory still_walk_root : eff.

Lemma still_session_directory p : keeps still (SessionHost.require_safe_directory p).
Proof. unfold SessionHost.require_safe_directory. keeps_auto. Qed.
#[export] Hint Resolve still_session_directory : eff.

Lemma still_identity p : keeps still (observe_directory_identity p).
Proof. unfold observe_directory_identity, SessionHost.absolute_normal, directory_identity, lstat. cbv zeta. keeps_auto. Qed.

Lemma still_inject i s p : keeps still (inject i s p).
Proof. unfold inject. keeps_auto. Qed.

Lemma still_list_tree p : keeps still (Session.list_tree p).
Proof. unfold Session.list_tree, list_recursive. keeps_auto. Qed.

#[export] Hint Resolve still_identity still_inject still_list_tree : eff.

(** ** Reading on a calm host *)

Lemma observe_calm {A} (f : fs → option A) w r w' : calm w → observe f w = (Ok r, w') →
  calm w' ∧ disk w' = disk w ∧ (∀ x, r = Some x → f (disk w) = Some x).
Proof.
  intros Hc. unfold observe, mbind, M_bind, step, get, ret. destruct (dies w (steps w)); [done|]. intros [= <- <-].
  split; [exact Hc|]. split; [apply Hc|]. intros x. destruct (fails w (steps w)); [done|]. cbn. by rewrite Hc.
Qed.

(** The file that was opened is there under the path it keeps. *)
Lemma open_stable_served w p file w' : calm w → StableFile.open_stable p w = (Ok file, w') →
  calm w' ∧ disk w' = disk w ∧ (∃ w1, StableFile.require_absolute_path p w = (Ok (StableFile.path_ file), w1)) ∧
  ∃ i v t c, lookup_inode (disk w) (names (StableFile.path_ file)) = Some (i, mk_inode v (regular c) t) ∧
    file = stable_of (StableFile.path_ file) i v t c.
Proof.
  intros Hc H. unfold StableFile.open_stable in H. apply seq_ok in H as (q & w1 & E1 & H).
  assert (w1 = w) as ->.
  { unfold StableFile.require_absolute_path, StableFile.absolute, mbind, M_bind, get, ret in E1. cbv zeta in E1.
    destruct (is_empty (lexically_normal _)); [done|]. by injection E1. }
  apply seq_ok in H as (r & w2 & E2 & H). apply observe_calm in E2 as (Hc1 & D1 & F1); [|done].
  destruct r as [[[i x] n]|]; [|done]. specialize (F1 _ eq_refl). apply bind_Some in F1 as ([i' x'] & El & [= -> -> <-]).
  destruct (StableFile.is_symlink x); [done|].
  apply seq_ok in H as (id & w3 & [Hid ->]%lift_ok & H).
  unfold StableFile.identity_from_stat in Hid. destruct x as [v [c| | |] t]; try done. cbn [node] in Hid.
  destruct (link_count (disk w) i =? 1) eqn:Hlink; [|done]. apply ok_inj in Hid. cbn [negb] in Hid.
  apply seq_ok in H as (h & w3 & E3 & H). apply observe_calm in E3 as (Hc2 & D2 & F2); [|done].
  destruct h as [j|]; [|done]. specialize (F2 _ eq_refl). rewrite D1 in F2. rewrite El in F2. cbn in F2. injection F2 as <-.
  apply seq_ok in H as (info & w4 & E4 & H). apply observe_calm in E4 as (Hc3 & D3 & F3); [|done].
  destruct info as [[x n]|]; [|done]. specialize (F3 _ eq_refl). rewrite D2, D1 in F3.
  apply lookup_inode_inv in El as Ei. destruct Ei as [_ Ei]. rewrite Ei in F3. cbn in F3. injection F3 as <- <-.
  apply seq_ok in H as (id2 & w5 & [Hid2 ->]%lift_ok & H). cbn [StableFile.identity_from_stat node] in Hid2.
  rewrite Hlink in Hid2. apply ok_inj in Hid2. destruct (StableFile.same_identity id id2); [|done].
  injection H as <- <-. cbn [StableFile.path_]. split; [done|]. split; [congruence|]. split; [by exists w|].
  exists i, v, t, c. split; [done|].
  unfold stable_of. apply N.eqb_eq in Hlink. rewrite Hlink in Hid2. by rewrite <- Hid2.
Qed.

Lemma open_stable_calm w p file w' : calm w → normal_absolute_path p → StableFile.open_stable p w = (Ok file, w') →
  calm w' ∧ disk w' = disk w ∧ ∃ i v t c, lookup_inode (disk w) (names p) = Some (i, mk_inode v (regular c) t) ∧
    file = stable_of p i v t c.
Proof.
  intros Hc [Ha Hn] H. apply open_stable_served in H as (Hc' & D & (w1 & E) & H); [|done].
  unfold StableFile.require_absolute_path, StableFile.absolute, mbind, M_bind, get, ret in E.
  destruct p as [|x p]; [done|]. cbn [is_empty] in E. rewrite Ha, Hn in E. cbv zeta in E. cbn [is_empty] in E.
  injection E as E _. rewrite <- E in H. done.
Qed.

Lemma read_text_calm w p limit text w' : calm w → normal_absolute_path p → read_stable_text p limit w = (Ok text, w') →
  ∃ i v t, lookup_inode (disk w) (names p) = Some (i, mk_inode v (regular text) t).
Proof.
  intros Hc Hp H. unfold read_stable_text in H. apply seq_ok in H as (file & w1 & E1 & H).
  apply open_stable_calm in E1 as (Hc1 & D1 & i & v & t & c & El & ->); [|done..].
  cbn [stable_of StableFile.identity_ StableFile.size_bytes] in H. destruct (limit <? size c); [done|].
  apply seq_ok in H as (bytes & w2 & E2 & H). apply seq_ok in H as (u & w3 & _ & H). injection H as <- _.
  exists i, v, t. unfold StableFile.read in E2. cbn [stable_of StableFile.identity_ StableFile.size_bytes] in E2.
  destruct (_ || _); [done|]. destruct (N.eqb_spec (size c) 0) as [Hz|Hz].
  - injection E2 as <- _. by destruct c.
  - unfold StableFile.read_exact in E2. apply seq_ok in E2 as (r & w4 & E4 & H).
    apply observe_calm in E4 as (_ & _ & F4); [|done]. destruct r as [content|]; [|done]. specialize (F4 _ eq_refl).
    rewrite D1 in F4. cbn [stable_of StableFile.native_handle_] in F4.
    apply lookup_inode_inv in El as Ei. destruct Ei as [_ Ei]. rewrite Ei in F4. cbn in F4. injection F4 as <-.
    change (N.to_nat 0) with 0%nat in H. rewrite str_drop_0, str_take_ge in H by (unfold size; lia).
    rewrite N.eqb_refl in H. by injection H as <- _.
Qed.

End CalmFacts.
