(* ===== verification/ReplacementSteps.v ===== *)
(** A replacement on a host where nothing else acts, though any call may fail and
    the process may die at any point: whatever the session does, both roots stay
    whole in one of three places, and the journal says which. *)

From Stdlib Require Import Ascii String NArith ZArith Lia.
From stdpp Require Import base list strings gmap sets.
From S2P Require Import Prelude Sha256 StdMap Json JsonFacts Path PathFacts Effects World RecordIo RecordFacts.
From S2P Require Import DirectoryFacts TreeFacts SessionHost HostFacts CalmFacts Session Journal Replacement.
From S2P Require Import ReplacementJournal ReplacementSnapshot ReplacementHost.

Module ReplacementSteps.
Import Json JsonFacts Path PathFacts Effects World RecordIo RecordFacts DirectoryFacts TreeFacts.
Import SessionHost HostFacts CalmFacts Replacement ReplacementJournal ReplacementSnapshot ReplacementHost.

(** ** Observations of the session *)

Lemma still_is_link p : keeps still (is_link p).
Proof. unfold is_link. keeps_auto. Qed.

#[local] Hint Resolve still_is_link : eff.

Lemma still_snapshot_entry p st e : keeps still (snapshot_entry p st e).
Proof. unfold snapshot_entry. destruct st. cbv zeta. keeps_auto. Qed.
#[local] Hint Resolve still_snapshot_entry : eff.

Lemma still_snapshot p : keeps still (replacement_snapshot_digest p).
Proof. unfold replacement_snapshot_digest. keeps_auto. Qed.
#[local] Hint Resolve still_snapshot : eff.

Lemma still_matches p i s : keeps still (matches_root p i s).
Proof. unfold matches_root. keeps_auto. Qed.
#[local] Hint Resolve still_matches : eff.

Lemma still_refused spec : keeps still (roots_refused spec).
Proof. unfold roots_refused, live_is_old, staged_is_new. keeps_auto. Qed.
#[local] Hint Resolve still_refused : eff.

(** ** A client of the session *)

Inductive call := retire | activate | publish | complete.

Definition perform (what : call) : act unit :=
  match what with
  | retire => retire_old_root
  | activate => activate_new_root
  | publish => mark_state_published
  | complete => mark_completed
  end.

(** The client builds the session and makes these calls, going on after an exception. *)
Definition exchange (calls : list call) : act unit :=
  construct;; for_each calls (fun what => ignore_errors (perform what)).

Definition after_exchange (spec : ReplacementSpec) (injector : FaultInjector) (calls : list call) (w : world) : world :=
  snd (snd (exchange calls (unborn spec injector, w))).

(** ** The disk of an exchange *)

Section Exchange.
Context (spec : ReplacementSpec) (parent state : name) (a b c : string).
Hypothesis Hg : geometry spec parent state a b c.

Local Abbreviation live := (live parent a).
Local Abbreviation staged := (staged parent b).
Local Abbreviation retained := (retained parent c).
Local Abbreviation journal_dir := (journal_dir spec state).
Local Abbreviation roots_at := (roots_at spec parent a b c).
Local Abbreviation texts := (texts parent a b c).

(** The journal directory holds exactly these files, each under its own name. *)
Definition files_at (d : fs) (records : list (string * string)) : Prop :=
  is_dir_at d journal_dir = true ∧ NoDup (map fst records) ∧
  (∀ nm, is_Some (entries d !! (journal_dir ++ [nm])) ↔ nm ∈ map fst records) ∧
  Forall (fun r => ∃ i v t, lookup_inode d (journal_dir ++ [fst r]) = Some (i, mk_inode v (regular (snd r)) t) ∧
    link_count d i = 1) records.

Lemma children_in d n m : m ∈ children d n ↔ ∃ nm, m = n ++ [nm] ∧ is_Some (entries d !! m).
Proof.
  unfold children. rewrite list_elem_of_In, filter_In, in_map_iff, andb_true_iff, below_iff, Nat.eqb_eq. split.
  - intros [([k i] & <- & Hi) [(rel & E & _) Hl]]. cbn [fst] in *. subst k.
    apply list_elem_of_In, elem_of_map_to_list in Hi. rewrite length_app in Hl.
    destruct rel as [|x [|y rel]]; [simpl in Hl; lia| |simpl in Hl; lia]. exists x. split; [done|by eexists].
  - intros (nm & -> & [i Hi]). split.
    + exists (n ++ [nm], i). split; [done|]. by apply list_elem_of_In, elem_of_map_to_list.
    + split; [by exists [nm]|]. rewrite length_app. simpl. lia.
Qed.

Lemma children_nodup d n : NoDup (children d n).
Proof. apply NoDup_ListNoDup, List.NoDup_filter, NoDup_ListNoDup, NoDup_fst_map_to_list. Qed.

Lemma files_stores d records : Forall (fun nm => safe_name nm) (map fst records) → files_at d records →
  stores spec state d records.
Proof.
  intros Hsafe (Hd & Hn & Hm & Hf). split; [done|].
  assert (Forall (fun r => ∃ i, holds_file d (abs_text (journal_dir ++ [fst r])) i (snd r)) records) as Hh.
  { rewrite Forall_forall in Hf. rewrite Forall_forall in Hsafe. apply Forall_forall. intros r Hr. destruct (Hf r Hr) as (i & v & t & E & Hc). exists i, v, t.
    rewrite names_abs_text; [done|]. apply safe_plain, Forall_app. split; [by eapply journal_safe|].
    constructor; [|done]. apply Hsafe. by apply list_elem_of_fmap_2. }
  split; [|done].
  assert (children d journal_dir ≡ₚ map (fun r => journal_dir ++ [fst r]) records) as Hp.
  { apply NoDup_Permutation; [apply children_nodup| |].
    - rewrite <- (map_map fst (fun nm => journal_dir ++ [nm])).
      apply (NoDup_fmap_2_strong (fun nm => journal_dir ++ [nm])); [|done].
      intros x y _ _ E. by apply app_inj_tail in E as [_ ?].
    - intros m. rewrite children_in. split.
      + intros (nm & -> & Hs). apply Hm in Hs. apply list_elem_of_fmap in Hs as (r & -> & Hr).
        by apply (list_elem_of_fmap_2 (fun r => journal_dir ++ [fst r])).
      + intros (r & -> & Hr)%list_elem_of_fmap. exists (fst r). split; [done|]. apply Hm.
        by apply list_elem_of_fmap_2. }
  unfold listing. rewrite (omap_perm _ _ _ Hp). apply Permutation_refl'. clear -Hf.
  induction Hf as [|r records (i & v & t & E & _) _ IH]; [done|]. cbn. rewrite E. cbn. f_equal. exact IH.
Qed.

Lemma files_same d d' records : fs_ok d → fs_ok d' → same_tree d journal_dir d' journal_dir →
  files_at d records → files_at d' records.
Proof.
  intros Hok Hok' [Hs Hl] (Hd & Hn & Hm & Hf). pose proof (Hs []) as E0. rewrite app_nil_r in E0.
  split; [unfold is_dir_at in *; by rewrite E0|]. split; [done|]. split.
  - intros nm. by rewrite <- lookup_entry, Hs, lookup_entry, Hm by done.
  - eapply Forall_impl; [exact Hf|]. intros r (i & v & t & E & Hc). exists i, v, t. rewrite Hs. split; [done|].
    by rewrite (Hl _ _ _ E).
Qed.

Lemma holds_same d d' n identity snapshot : tree_ok d → fs_ok d' → same_tree d n d' n →
  holds_root d n identity snapshot → holds_root d' n identity snapshot.
Proof. apply holds_root_same. Qed.

Lemma absent_same d d' n : fs_ok d → fs_ok d' → same_tree d n d' n → entries d !! n = None → entries d' !! n = None.
Proof.
  intros Hok Hok' [Hs _] Hn. specialize (Hs []). rewrite app_nil_r in Hs.
  destruct (entries d' !! n) eqn:E; [exfalso|done].
  assert (is_Some (lookup_inode d' n)) as Hx by (apply lookup_entry; [done|by rewrite E]).
  rewrite Hs, lookup_entry, Hn in Hx by done. by destruct Hx.
Qed.

Lemma roots_same d d' l : tree_ok d → fs_ok d' →
  same_tree d live d' live → same_tree d staged d' staged → same_tree d retained d' retained →
  roots_at d l → roots_at d' l.
Proof.
  intros Hok Hok' S1 S2 S3. pose proof (tree_inodes d Hok) as Hf.
  destruct l; intros (H1 & H2 & H3); (split; [|split]);
    first [eapply holds_same; eassumption|by eapply absent_same; [| | |eassumption]].
Qed.

Lemma apart x rel rel' : x = a ∨ x = b ∨ x = c → (parent ++ [x]) ++ rel ≠ journal_dir ++ rel'.
Proof.
  intros Hx. rewrite <- app_assoc. unfold ReplacementHost.journal_dir, transactions. rewrite <- !app_assoc.
  by apply (state_apart _ _ _ _ _ _ Hg).
Qed.

Lemma siblings x y rel rel' : x ≠ y → (parent ++ [x]) ++ rel ≠ (parent ++ [y]) ++ rel'.
Proof. intros Hne E. rewrite <- !app_assoc in E. apply app_inv_head in E. injection E as E _. done. Qed.

(** A change in the journal directory leaves the roots alone. *)
Lemma roots_added d d' l rel i x : tree_ok d → fs_ok d' → adds_object d d' (journal_dir ++ rel) i x →
  roots_at d l → roots_at d' l.
Proof.
  intros Hok Hok' Ha. pose proof (tree_inodes d Hok) as Hf.
  apply roots_same; [done|done|..]; (eapply adds_same_tree; [done|exact Ha|]); intros r; apply apart; auto.
Qed.

Lemma roots_written d d' l rel i x : tree_ok d → fs_ok d' → rewrites d d' i x → link_count d i = 1 →
  entries d !! (journal_dir ++ rel) = Some i → roots_at d l → roots_at d' l.
Proof.
  intros Hok Hok' Ha Hc He.
  apply roots_same; [done|done|..]; (eapply rewrites_same_tree; [exact Ha|]); intros r Hr;
    pose proof (single_name d _ _ i Hc He Hr) as E; revert E; apply apart; auto.
Qed.

(** ** A record is created and written *)

Lemma files_added d d' records nm i v t content : fs_ok d → fs_ok d' → files_at d records →
  adds_object d d' (journal_dir ++ [nm]) i (mk_inode v (regular content) t) → link_count d' i = 1 →
  files_at d' (records ++ [(nm, content)]).
Proof.
  intros Hok Hok' (Hd & Hn & Hm & Hf) Ha Hc. pose proof Ha as (Hi & Hfree & He & Hx).
  assert (nm ∉ map fst records) as Hnm by (intros [j Hj]%Hm; congruence).
  assert (∀ m, m ≠ journal_dir ++ [nm] → lookup_inode d' m = lookup_inode d m) as Hl by (intros; by eapply adds_lookup).
  split_and!.
  - unfold is_dir_at. rewrite Hl; [done|]. intros E. apply (f_equal length) in E. rewrite length_app in E. simpl in E. lia.
  - rewrite map_app. apply NoDup_app. split; [done|]. cbn [map fst]. split; [|apply NoDup_singleton].
    intros x Hx' ->%list_elem_of_singleton. done.
  - intros x. rewrite map_app, elem_of_app, <- Hm. cbn [map fst]. rewrite list_elem_of_singleton, He. split.
    + intros [j [[E _]|[_ Hj]]%lookup_insert_Some]; [right|left; by eexists]. by apply app_inj_tail in E as [_ ->].
    + intros [[j Hj]| ->]; [|by rewrite lookup_insert_eq; eexists]. destruct (decide (x = nm)) as [->|Hne].
      * by rewrite lookup_insert_eq; eexists.
      * rewrite lookup_insert_ne; [by eexists|]. intros E. apply app_inj_tail in E as [_ E]. congruence.
  - apply Forall_app. split.
    + rewrite Forall_forall in Hf. apply Forall_forall. intros r Hr. destruct (Hf r Hr) as (j & v' & t' & E & Hc').
      exists j, v', t'. rewrite Hl.
      * split; [done|]. rewrite (adds_links d d' _ i _ j Ha); [done|]. intros ->. apply lookup_inode_inv in E as [_ E]. congruence.
      * intros E'. apply app_inj_tail in E' as [_ E']. apply Hnm. rewrite <- E'. by apply list_elem_of_fmap_2.
    + apply Forall_singleton. exists i, v, t. split; [|done]. unfold lookup_inode. cbn [fst snd].
      rewrite He, lookup_insert_eq. cbn. by rewrite Hx, lookup_insert_eq.
Qed.

Lemma files_written d d' records nm i v t content content' : files_at d (records ++ [(nm, content)]) →
  entries d !! (journal_dir ++ [nm]) = Some i → rewrites d d' i (mk_inode v (regular content') t) →
  files_at d' (records ++ [(nm, content')]) ∧ link_count d i = 1.
Proof.
  intros (Hd & Hn & Hm & Hf) He Hr. rewrite map_app in Hn, Hm. cbn [map fst] in Hn, Hm.
  apply Forall_app in Hf as [Hf Hlast]. rewrite Forall_singleton in Hlast. cbn [fst snd] in Hlast.
  destruct Hlast as (i' & v0 & t0 & E & Hc). pose proof (lookup_inode_inv _ _ _ _ E) as [Ei Ex].
  rewrite He in Ei. injection Ei as <-. split; [|done]. pose proof Hr as [He' Hx'].
  assert (∀ m, m ≠ journal_dir ++ [nm] → lookup_inode d' m = lookup_inode d m) as Hl.
  { intros m Hne. eapply rewrites_lookup; [exact Hr|]. intros Hm'. by apply Hne, (single_name d _ _ i). }
  split_and!.
  - unfold is_dir_at. rewrite Hl; [done|]. intros E'. apply (f_equal length) in E'. rewrite length_app in E'. simpl in E'. lia.
  - by rewrite map_app.
  - intros x. rewrite He', map_app. apply Hm.
  - apply Forall_app. split.
    + rewrite Forall_forall in Hf. apply Forall_forall. intros r Hr'. destruct (Hf r Hr') as (j & v' & t' & E' & Hc').
      exists j, v', t'. rewrite Hl, (rewrites_links _ _ _ _ _ Hr); [done|]. intros Ek. apply app_inj_tail in Ek as [_ Ek].
      apply NoDup_app in Hn as (_ & Hn & _). apply (Hn nm); [|by left]. rewrite <- Ek. by apply list_elem_of_fmap_2.
    + apply Forall_singleton. cbn [fst snd]. exists i, v, t. rewrite (rewrites_links _ _ _ _ _ Hr). split; [|done].
      unfold lookup_inode. rewrite He', He. cbn. by rewrite Hx', lookup_insert_eq.
Qed.

(** ** Stages *)

Hypothesis Hread : journal_readable spec texts.

Local Abbreviation journal := (journal spec texts).
Local Abbreviation record_text := (record_text spec texts).

(** The record that is being written, if any. *)
Definition torn_record (k : nat) (torn : option string) : list (string * string) :=
  match torn with Some content => [(record_name k, content)] | None => [] end.

(** The roots are at [l], and the directory holds [k] records and the beginning of
    the next one. *)
Definition stage (k : nat) (l : location) (torn : option string) (d : fs) : Prop :=
  tree_ok d ∧ roots_at d l ∧ files_at d (journal k ++ torn_record k torn) ∧
  (∀ content, torn = Some content → (k < 7)%nat ∧ ∃ rest, record_text k = content +:+ rest).

Lemma stage_created k l torn d t i d' : (k < 7)%nat → stage k l torn d →
  create d (journal_dir ++ [record_name k]) (regular EmptyString) t = Some (i, d') →
  torn = None ∧ stage k l (Some EmptyString) d' ∧ entries d' !! (journal_dir ++ [record_name k]) = Some i.
Proof.
  intros Hk (Hok & Hr & Hf & Ht) Hc. pose proof (tree_inodes d Hok) as Hfs.
  assert (torn = None) as ->.
  { destruct torn as [content|]; [exfalso|done]. destruct Hf as (_ & _ & Hm & _).
    assert (is_Some (entries d !! (journal_dir ++ [record_name k]))) as [j Hj].
    { apply Hm. rewrite map_app, elem_of_app. right. by left. }
    unfold create in Hc. by rewrite Hj in Hc. }
  split; [done|]. cbn [torn_record] in Hf. rewrite app_nil_r in Hf. pose proof Hf as (Hd & _).
  pose proof (is_dir_at_inv _ _ Hd) as (j & y & Ey & Hy).
  assert (entries d !! (journal_dir ++ [record_name k]) = None) as Hfree.
  { unfold create in Hc. by destruct (entries d !! (journal_dir ++ [record_name k])). }
  rewrite (create_free d _ _ _ _ _ _ Hfree Ey Hy) in Hc. injection Hc as <- <-.
  match goal with |- context [mk_fs ?e ?x] => set (d' := mk_fs e x) end.
  assert (adds_object d d' (journal_dir ++ [record_name k]) (fresh_inode d) (mk_inode (dev y) (regular EmptyString) t)) as Ha.
  { split; [apply fresh_inode_free|]. done. }
  assert (tree_ok d') as Hok' by (by eapply adds_tree_ok; [done|exact Ha|done|apply record_name_safe]).
  pose proof (tree_inodes d' Hok') as Hfs'. split; [|cbn; by rewrite lookup_insert_eq].
  split; [done|]. split; [exact (roots_added d d' l [record_name k] _ _ Hok Hfs' Ha Hr)|]. split.
  - refine (files_added d d' (journal k) _ _ _ _ _ Hfs Hfs' Hf Ha _). by apply link_count_fresh.
  - intros content [= <-]. split; [done|]. by eexists.
Qed.

Lemma stage_appended k l content d i data t d' : stage k l (Some content) d →
  entries d !! (journal_dir ++ [record_name k]) = Some i → append_content d i data t = Some d' →
  (∃ rest, record_text k = (content +:+ data) +:+ rest) →
  stage k l (Some (content +:+ data)) d' ∧ entries d' !! (journal_dir ++ [record_name k]) = Some i.
Proof.
  intros (Hok & Hr & Hf & Ht) He Ha Hp. destruct (Ht content eq_refl) as [Hk _].
  assert (∃ v t0, lookup_inode d (journal_dir ++ [record_name k]) = Some (i, mk_inode v (regular content) t0)) as (v & t0 & El).
  { destruct Hf as (_ & _ & _ & [_ Hf]%Forall_app). cbn [torn_record] in Hf. rewrite Forall_singleton in Hf.
    destruct Hf as (j & v & t0 & El & _). cbn [fst snd] in El. pose proof (lookup_inode_inv _ _ _ _ El) as [Ej _].
    rewrite He in Ej. injection Ej as <-. by exists v, t0. }
  pose proof (lookup_inode_inv _ _ _ _ El) as [_ Ei]. unfold append_content in Ha. rewrite Ei in Ha. injection Ha as <-.
  match goal with |- context [mk_fs ?e ?x] => set (d' := mk_fs e x) end.
  assert (rewrites d d' i (mk_inode v (regular (content +:+ data)) t)) as Hw by done.
  assert (tree_ok d') as Hok' by (by eapply rewrites_tree_ok).
  destruct (files_written d d' (journal k) (record_name k) i v t content (content +:+ data) Hf He Hw) as [Hf' Hc].
  split; [|done]. split; [done|]. split; [exact (roots_written d d' l [record_name k] i _ Hok (tree_inodes d' Hok') Hw Hc He Hr)|]. split; [done|].
  intros x [= <-]. done.
Qed.

Lemma stage_complete k l d : stage k l (Some (record_text k)) d → stage (S k) l None d.
Proof.
  intros (Hok & Hr & Hf & Ht). split; [done|]. split; [done|]. split; [|done]. cbn [torn_record].
  by rewrite app_nil_r, journal_snoc.
Qed.

(** ** The two moves *)

Lemma stage_moved k torn d d' x y l l' : (x = a ∨ x = b ∨ x = c) → (y = a ∨ y = b ∨ y = c) → stage k l torn d →
  move_tree d (parent ++ [x]) (parent ++ [y]) = Some d' → (tree_ok d' → roots_at d' l') → stage k l' torn d'.
Proof.
  intros Hx Hy (Hok & Hr & Hf & Ht) Hm Hr'.
  assert (Forall safe_name (parent ++ [y])) as Hs.
  { apply Forall_app. split; [apply Hg|]. constructor; [|done]. destruct (roots_safe _ _ _ _ _ _ Hg) as (? & ? & ?).
    by destruct Hy as [->|[->| ->]]. }
  pose proof (move_tree_ok d d' _ _ Hok Hm Hs) as Hok'. split; [done|]. split; [by apply Hr'|]. split; [|done].
  refine (files_same d d' _ (tree_inodes d Hok) (tree_inodes d' Hok') _ Hf).
  apply (move_elsewhere d d' _ _ Hok Hm); intros r r' E; symmetry in E; revert E; by apply apart.
Qed.

Lemma stage_retired k torn d d' : stage k before torn d → move_tree d live retained = Some d' → stage k retired torn d'.
Proof.
  intros Hs Hm. pose proof Hs as (Hok & (H1 & H2 & H3) & _). destruct (roots_differ _ _ _ _ _ _ Hg) as (D1 & D2 & D3).
  eapply stage_moved; [by left|by right; right|exact Hs|exact Hm|]. intros Hok'. split; [|split].
  - pose proof (moved_away d d' _ _ Hok Hm []) as E. by rewrite app_nil_r in E.
  - refine (holds_same d d' _ _ _ Hok (tree_inodes d' Hok') _ H2). apply (move_elsewhere d d' _ _ Hok Hm); intros r r'; by apply siblings.
  - refine (holds_root_same d _ d' _ _ _ Hok (tree_inodes d' Hok') _ H1). by apply move_same_tree.
Qed.

Lemma stage_activated k torn d d' : stage k retired torn d → move_tree d staged live = Some d' → stage k active torn d'.
Proof.
  intros Hs Hm. pose proof Hs as (Hok & (H1 & H2 & H3) & _). destruct (roots_differ _ _ _ _ _ _ Hg) as (D1 & D2 & D3).
  eapply stage_moved; [by right; left|by left|exact Hs|exact Hm|]. intros Hok'. split; [|split].
  - refine (holds_root_same d _ d' _ _ _ Hok (tree_inodes d' Hok') _ H2). by apply move_same_tree.
  - pose proof (moved_away d d' _ _ Hok Hm []) as E. by rewrite app_nil_r in E.
  - refine (holds_same d d' _ _ _ Hok (tree_inodes d' Hok') _ H3).
    apply (move_elsewhere d d' _ _ Hok Hm); intros r r'; apply siblings; congruence.
Qed.

(** ** Triples on a calm host *)

Definition on_disk (P : fs → Prop) (w : world) : Prop := calm w ∧ P (disk w).

Lemma on_disk_impl (P Q : fs → Prop) w : (∀ d, P d → Q d) → on_disk P w → on_disk Q w.
Proof. intros H [Hc Hp]. split; [done|by apply H]. Qed.

Lemma still_disk P w w' : still w w' → on_disk P w → on_disk P w'.
Proof.
  intros [(Hi & _) Hd] [Hc HP]. split; [unfold calm; by rewrite Hi|]. by rewrite Hd.
Qed.

Lemma triple_still {A} (m : io A) P : keeps still m → triple (on_disk P) m (fun _ => on_disk P) (on_disk P).
Proof. intros Hm. eapply triple_keeps; [exact Hm|]. intros w w' Hw Hs. by eapply still_disk. Qed.

Lemma calm_effect {A} (f : fs → option (A * fs * list event)) (P : fs → Prop) (Q : option A → fs → Prop) :
  (∀ d, P d → Q None d) → (∀ d x d' es, P d → f d = Some (x, d', es) → Q (Some x) d') →
  triple (on_disk P) (effect f) (fun r => on_disk (Q r)) (on_disk P).
Proof.
  intros H1 H2 w [Hc Hw]. unfold effect, mbind, M_bind, step, get, put, ret.
  assert (disk (tick w) = disk w) as Ht by apply Hc.
  destruct (dies w (steps w)); [split; [done|by rewrite Ht]|]. rewrite Ht.
  destruct (fails w (steps w)); [split; [done|rewrite Ht; by apply H1]|].
  destruct (f (disk w)) as [[[x d'] es]|] eqn:E; [|split; [done|rewrite Ht; by apply H1]].
  split; [exact Hc|]. by eapply H2.
Qed.

Definition some_stage (k : nat) (l : location) (d : fs) : Prop := ∃ torn, stage k l torn d.

Definition writing (k : nat) (l : location) (i : N) (content : string) (d : fs) : Prop :=
  stage k l (Some content) d ∧ entries d !! (journal_dir ++ [record_name k]) = Some i.

Lemma writing_some k l i content d : writing k l i content d → some_stage k l d.
Proof. intros [Hs _]. by eexists. Qed.

Lemma calm_write_loop k l i what fuel : ∀ content data, record_text k = content +:+ data →
  triple (on_disk (writing k l i content)) (write_loop fuel i data what)
    (fun _ => on_disk (stage k l (Some (record_text k)))) (on_disk (some_stage k l)).
Proof.
  induction fuel as [|fuel IH]; intros content [|ch data] E; cbn [write_loop].
  1, 3: apply triple_ret; intros w [Hc [Hs _]]; rewrite append_nil_r in E; rewrite E; by split.
  { apply triple_raise. intros w. apply on_disk_impl, writing_some. }
  eapply (triple_bind _ _ _ (fun r => on_disk (fun d => match r with
    | Some n => writing k l i (content +:+ str_take n (String ch data)) d
    | None => some_stage k l d end))).
  - intros w Hw.
    set (count := Nat.max 1 (Nat.min (N.to_nat (accepts w (steps w))) (String.length (String ch data)))).
    set (f := fun d => d0 ← append_content d i (str_take count (String ch data)) (clock w (steps w));
      Some (count, d0, [wrote i (str_take count (String ch data))])).
    pose proof (calm_effect f (writing k l i content) (fun r d => match r with
      | Some n => writing k l i (content +:+ str_take n (String ch data)) d
      | None => some_stage k l d end)) as H.
    specialize (H (writing_some k l i content)).
    assert (∀ d x d' es, writing k l i content d → f d = Some (x, d', es) →
      writing k l i (content +:+ str_take x (String ch data)) d') as Hf.
    { intros d x d' es [Hs He] (d1 & Ha & [= <- <- <-])%bind_Some. eapply stage_appended; [done|done|exact Ha|].
      exists (str_drop count (String ch data)). by rewrite append_assoc, str_take_drop. }
    specialize (H Hf w Hw). change (write_some i (String ch data) w) with (effect f w). destruct (effect f w) as [[r|e] w']; [exact H|].
    revert H. apply on_disk_impl, writing_some.
  - intros [n|]; [|by apply triple_fail]. apply IH. by rewrite append_assoc, str_take_drop.
Qed.

Lemma record_path_names k : (k < 7)%nat →
  names (abs_text (journal_dir ++ [record_name k])) = journal_dir ++ [record_name k].
Proof.
  intros Hk. apply names_abs_text, safe_plain, Forall_app. split; [by eapply journal_safe|].
  constructor; [by apply record_name_safe|done].
Qed.

Lemma calm_create k l : (k < 7)%nat →
  triple (on_disk (some_stage k l)) (create_exclusive (abs_text (journal_dir ++ [record_name k])))
    (fun h => on_disk (fun d => match h with Some i => writing k l i EmptyString d | None => some_stage k l d end))
    (on_disk (some_stage k l)).
Proof.
  intros Hk w Hw. set (n := journal_dir ++ [record_name k]).
  set (f := fun d => '(i, d) ← create d (names (abs_text n)) (regular EmptyString) (clock w (steps w));
    Some (i, d, [created (names (abs_text n)) i])).
  pose proof (calm_effect f (some_stage k l) (fun h d => match h with
    | Some i => writing k l i EmptyString d | None => some_stage k l d end) (fun d x => x)) as H.
  assert (∀ d x d' es, some_stage k l d → f d = Some (x, d', es) → writing k l x EmptyString d') as Hf.
  { intros d x d' es [torn Hs] ([i d1] & Hc & [= <- <- <-])%bind_Some. unfold n in Hc. rewrite record_path_names in Hc by done.
    by destruct (stage_created k l torn d _ _ _ Hk Hs Hc) as (_ & ? & ?). }
  exact (H Hf w Hw).
Qed.

Lemma triple_write_text k l : (k < 7)%nat →
  triple (on_disk (some_stage k l)) (write_new_durable_text (abs_text (journal_dir ++ [record_name k])) (record_text k))
    (fun _ => on_disk (stage (S k) l None)) (on_disk (some_stage k l)).
Proof.
  intros Hk. unfold write_new_durable_text.
  eapply triple_bind; [apply triple_still, still_record_directory|]. intros [].
  eapply triple_bind; [by apply calm_create|]. intros [i|]; [|by apply triple_fail].
  eapply triple_bind; [by apply (calm_write_loop k l i _ _ EmptyString)|]. intros [].
  assert (∀ w, on_disk (stage k l (Some (record_text k))) w → on_disk (some_stage k l) w) as Hsome.
  { intros w. apply on_disk_impl. intros d Hd. by eexists. }
  eapply (triple_bind _ _ _ (fun _ => on_disk (stage k l (Some (record_text k))))).
  { eapply triple_conseq; [apply (triple_still _ (stage k l (Some (record_text k)))), still_fsync|done|done|exact Hsome]. }
  intros []; cbn [negb]; [|by apply triple_fail].
  eapply triple_conseq; [apply (triple_still _ (stage k l (Some (record_text k)))), still_sync|done| |exact Hsome].
  intros [] w. apply on_disk_impl, stage_complete.
Qed.

Lemma triple_throw {S A} (P : S → Prop) (m : M S A) Q (E E' : S → Prop) :
  triple P m Q E → (∀ s, E s → E' s) → triple P m Q E'.
Proof. intros Hm H. by eapply triple_conseq; [exact Hm|..]. Qed.

(** ** A member function *)

(** The object after [k] records. *)
Record session_ok (k : nat) (s : ReplacementSession) : Prop := {
  session_spec : spec_ s = spec;
  session_journal : journal_path_ s = abs_text journal_dir;
  session_sequence : sequence_ s = N.of_nat k;
  session_phase : phase_ s = phase_before k }.

Definition about (O : ReplacementSession → Prop) (P : fs → Prop) (sw : ReplacementSession * world) : Prop :=
  O (fst sw) ∧ on_disk P (snd sw).

Local Abbreviation holding k := (about (session_ok k)).

Lemma holding_impl O (P Q : fs → Prop) sw : (∀ d, P d → Q d) → about O P sw → about O Q sw.
Proof. intros H [Hs Hd]. split; [done|]. by eapply on_disk_impl. Qed.

Lemma triple_host {A} O (m : io A) P (Q : A → fs → Prop) E :
  triple (on_disk P) m (fun x => on_disk (Q x)) (on_disk E) →
  triple (about O P) (host m) (fun x => about O (Q x)) (about O E).
Proof.
  intros Hm [s w] [Hs Hw]. specialize (Hm w Hw). unfold host, on_snd. cbn [fst snd] in *.
  destruct (m w) as [[x|e] w']; by split.
Qed.

Lemma triple_host_still {A} O (m : io A) P : keeps still m →
  triple (about O P) (host m) (fun _ => about O P) (about O P).
Proof. intros Hm. by apply (triple_host O m P (fun _ => P)), triple_still. Qed.

Lemma about_this {B} O P (f : ReplacementSession → act B) Q E :
  (∀ s, O s → triple (about O P) (f s) Q E) → triple (about O P) (this ≫= f) Q E.
Proof. intros H [s w] Hs. pose proof Hs as [H1 _]. exact (H s H1 (s, w) Hs). Qed.

Lemma about_update {O O' : ReplacementSession → Prop} P f E : (∀ s, O s → O' (f s)) →
  triple (about O P) (update f) (fun _ => about O' P) E.
Proof. intros H [s w] [Hs Hw]. split; [by apply H|done]. Qed.

Lemma triple_notify O P phase point : triple (about O P) (notify phase point) (fun _ => about O P) (about O P).
Proof. apply about_this. intros s _. apply triple_host_still, still_inject. Qed.

(** ** A record is persisted *)

Lemma absolute_normal_any w n : Forall safe_name n → Replacement.absolute_normal (abs_text n) w = (Ok (abs_text n), w).
Proof.
  intros Hs. transitivity (Ok (lexically_normal (abs_text n)), w); [done|]. by rewrite normal_abs_text.
Qed.

Lemma normalized_any w n : Forall safe_name n → normalized (abs_text n) w = (Ok (abs_text n), w).
Proof.
  intros Hs. unfold normalized. unfold mbind, M_bind. rewrite absolute_normal_any by done. unfold ret.
  by rewrite generic_abs_text.
Qed.

Lemma normalized_roots_any w : normalized_roots spec w = (Ok texts, w).
Proof.
  unfold normalized_roots. rewrite (live_path _ _ _ _ _ _ Hg), (staged_path _ _ _ _ _ _ Hg), (retained_path _ _ _ _ _ _ Hg).
  unfold mbind, M_bind. rewrite !normalized_any; [done| | |].
  - by eapply live_safe.
  - by eapply staged_safe.
  - by eapply retained_safe.
Qed.

Lemma normal_spec_any w : normal_spec spec w = (Ok spec, w).
Proof.
  unfold normal_spec. rewrite (live_path _ _ _ _ _ _ Hg), (staged_path _ _ _ _ _ _ Hg), (retained_path _ _ _ _ _ _ Hg),
    (state_path _ _ _ _ _ _ Hg).
  unfold mbind, M_bind. rewrite !absolute_normal_any.
  - rewrite <- (live_path _ _ _ _ _ _ Hg), <- (staged_path _ _ _ _ _ _ Hg), <- (retained_path _ _ _ _ _ _ Hg),
      <- (state_path _ _ _ _ _ _ Hg). by destruct spec.
  - apply Hg.
  - by eapply retained_safe.
  - by eapply staged_safe.
  - by eapply live_safe.
Qed.

Lemma replacement_record_path k : (k < 7)%nat → abs_text journal_dir /+ record_name k = abs_text (journal_dir ++ [record_name k]).
Proof. intros Hk. apply abs_text_append; [by eapply safe_plain, journal_safe|by apply record_name_safe]. Qed.

Lemma record_stored k l torn d j i v t text : stage k l torn d → (j < k)%nat →
  lookup_inode d (journal_dir ++ [record_name j]) = Some (i, mk_inode v (regular text) t) → text = record_text j.
Proof.
  intros (_ & _ & (_ & _ & _ & [Hf _]%Forall_app) & _) Hj E. rewrite Forall_forall in Hf.
  destruct (Hf (record_name j, record_text j)) as (i' & v' & t' & E' & _).
  { unfold ReplacementJournal.journal. apply list_elem_of_In, in_map_iff. exists j. split; [done|]. apply in_seq. lia. }
  cbn [fst snd] in E'. rewrite E in E'. by injection E'.
Qed.

Lemma triple_previous k l s : (k <= 7)%nat → session_ok k s →
  triple (on_disk (some_stage k l)) (previous_digest s)
    (fun digest => on_disk (fun d => some_stage k l d ∧ digest = digest_after spec texts k)) (on_disk (some_stage k l)).
Proof.
  intros Hk Hs w Hw. pose proof (triple_still (previous_digest s) (some_stage k l)) as Ht.
  assert (keeps still (previous_digest s)) as Hkeep by (unfold previous_digest; keeps_auto).
  specialize (Ht Hkeep w Hw). destruct (previous_digest s w) as [[digest|e] w'] eqn:E; [|done].
  destruct Ht as [Hc' Hd']. split; [done|]. split; [done|]. unfold previous_digest in E.
  rewrite (session_journal k s Hs), (session_sequence k s Hs), (session_phase k s Hs) in E.
  destruct k as [|j]; [by injection E|]. rewrite (proj2 (N.eqb_neq (N.of_nat (S j)) 0)) in E by lia.
  replace (N.of_nat (S j) - 1) with (N.of_nat j) in E by lia. cbn [phase_before] in E. fold (record_name j) in E.
  rewrite replacement_record_path in E by lia. apply seq_ok in E as (text & w1 & E & H).
  destruct Hw as [Hc [torn Hd]]. apply read_text_calm in E as (i & v & t & E); [|done|].
  2:{ split; [done|]. apply normal_abs_text, Forall_app. split; [by eapply journal_safe|]. constructor; [apply record_name_safe; lia|done]. }
  rewrite record_path_names in E by lia. rewrite (record_stored (S j) l torn _ j i v t text Hd ltac:(lia) E) in H.
  apply lift_ok in H as [H _]. rewrite record_parses in H by (done || lia). rewrite record_bound in H. by injection H.
Qed.

Lemma triple_write k l s : (k < 7)%nat → session_ok k s →
  triple (on_disk (some_stage k l)) (write_record s (phase_at k) (digest_after spec texts k))
    (fun _ => on_disk (stage (S k) l None)) (on_disk (some_stage k l)).
Proof.
  intros Hk Hs w Hw. unfold write_record. unfold mbind at 1, M_bind at 1.
  rewrite (session_spec k s Hs), (session_journal k s Hs), (session_sequence k s Hs), normalized_roots_any, document_eq.
  fold (record_name k). rewrite replacement_record_path by done. by apply (triple_write_text k l Hk w).
Qed.

Lemma advanced k s : session_ok k s → session_ok (S k) (advance (phase_at k) s).
Proof. intros [H1 H2 H3 H4]. split; [done|done| |done]. cbn [advance sequence_]. rewrite H3. lia. Qed.

(** [persist] adds the record of its position, or leaves the journal with at most the
    beginning of it. *)
Lemma triple_persist k l : (k < 7)%nat →
  triple (holding k (some_stage k l)) (persist (phase_at k)) (fun _ => holding (S k) (stage (S k) l None))
    (fun sw => holding k (some_stage k l) sw ∨ holding (S k) (stage (S k) l None) sw).
Proof.
  intros Hk. unfold persist. apply about_this. intros s Hs.
  eapply (triple_bind _ _ _ (fun _ => holding k (some_stage k l))).
  { apply (triple_throw _ _ _ (holding k (some_stage k l))); [|by left].
    apply (triple_bind _ _ _ (fun _ => holding k (some_stage k l))); [by apply triple_ret|]. intros []; [by apply triple_ret|].
    eapply triple_bind; [apply triple_host_still, still_identity|]. intros x. by apply triple_ret. }
  intros []; [apply triple_fail; by left|].
  eapply triple_bind.
  { eapply triple_throw; [apply triple_host, (triple_previous k l); [lia|exact Hs]|by left]. }
  intros previous. cbv beta.
  assert (∀ sw, holding k (fun d => some_stage k l d ∧ previous = digest_after spec texts k) sw →
    holding k (some_stage k l) sw ∧ previous = digest_after spec texts k) as Hprev.
  { intros sw (H1 & Hc & H2 & ->). done. }
  intros sw Hsw. apply Hprev in Hsw as [Hsw ->]. revert sw Hsw.
  match goal with |- ∀ sw, holding k (some_stage k l) sw → match ?m sw with _ => _ end => 
    change (triple (holding k (some_stage k l)) m (fun _ => holding (S k) (stage (S k) l None))
      (fun sw => holding k (some_stage k l) sw ∨ holding (S k) (stage (S k) l None) sw)) end.
  eapply triple_bind; [eapply triple_throw; [apply triple_notify|by left]|]. intros [].
  eapply (triple_bind _ _ _ (fun _ => holding k (stage (S k) l None))).
  { eapply triple_throw; [apply (triple_host _ _ (some_stage k l) (fun _ => stage (S k) l None)), triple_write; [done|exact Hs]|by left]. }
  intros []. eapply triple_bind; [apply (about_update (O' := session_ok (S k))), advanced|].
  intros []. eapply triple_throw; [apply triple_notify|by right].
Qed.

(** ** A root is moved *)

Lemma triple_move source target (P Q : fs → Prop) :
  (∀ d d', P d → move_tree d (names source) (names target) = Some d' → Q d') →
  triple (on_disk P) (record_rename_no_replace source target) (fun _ => on_disk Q) (on_disk P).
Proof.
  intros H. unfold record_rename_no_replace.
  eapply triple_bind; [apply triple_still, still_record_directory|]. intros [].
  eapply triple_bind; [apply triple_still, still_record_directory|]. intros [].
  eapply (triple_bind _ _ _ (fun ok : bool => on_disk (if ok then Q else P))).
  - unfold rename_no_replace, succeeded. eapply triple_bind.
    + apply (calm_effect _ P (fun r => if r is Some _ then Q else P)); [done|].
      intros d x d' es Hd (d1 & Hm & [= <- <- <-])%bind_Some. by eapply H.
    + intros [r|]; by apply triple_ret.
  - intros []; [by apply triple_ret|by apply triple_fail].
Qed.

(** ** The invariant of the session *)

(** How many records there may be where the roots are, the first one included. *)
Definition admissible (k : nat) (l : location) : Prop := (k = 0%nat ∧ l = before) ∨ compatible k l.

Definition exchanging (sw : ReplacementSession * world) : Prop :=
  ∃ k l torn, holding k (stage k l torn) sw ∧ admissible k l ∧ (is_Some torn → compatible (S k) l).

Lemma exchanging_settled k l sw : holding k (stage k l None) sw → compatible k l → exchanging sw.
Proof. intros H Hc. exists k, l, None. split; [done|]. split; [by right|]. by intros []. Qed.

Lemma exchanging_open k l sw : holding k (some_stage k l) sw → admissible k l → compatible (S k) l → exchanging sw.
Proof. intros (H1 & Hc & torn & H2) Ha Hl. by exists k, l, torn. Qed.

Lemma admissible_bound k l : admissible k l → (k <= 7)%nat.
Proof. intros [[-> _]|H]; [lia|]. destruct l; cbn in H; lia. Qed.

Lemma phase_before_exact k j : (k <= 7)%nat → (j < 7)%nat → phase_before k = phase_at j → k = S j.
Proof.
  intros Hk Hj E.
  destruct j as [|[|[|[|[|[|[|j]]]]]]]; [..|exfalso; lia];
    destruct k as [|[|[|[|[|[|[|[|k]]]]]]]]; try (exfalso; lia); done.
Qed.

(** The exact step of the session. *)
Lemma triple_persist_exchanging k l : admissible k l → compatible (S k) l →
  triple (holding k (some_stage k l)) (persist (phase_at k)) (fun _ => holding (S k) (stage (S k) l None)) exchanging.
Proof.
  intros Ha Hc. assert (k < 7)%nat as Hk by (destruct l; cbn in Hc; lia).
  eapply triple_throw; [by apply triple_persist|]. intros sw [H|H].
  - by eapply exchanging_open.
  - by eapply exchanging_settled.
Qed.

Lemma triple_enter j l e phase (f : ReplacementSession → act unit) : (j < 7)%nat → phase = phase_at j →
  (∀ l', compatible (S j) l' → l' = l) →
  (∀ s, session_ok (S j) s → triple (holding (S j) (some_stage (S j) l)) (f s) (fun _ => exchanging) exchanging) →
  triple exchanging (s ← this; if negb (String.eqb (phase_ s) phase) then raise e else f s)
    (fun _ => exchanging) exchanging.
Proof.
  intros Hj -> Hl Hf [s w] (k & l' & torn & Hh & Ha & Ht). unfold this, mbind, M_bind, get, ret. cbn [fst].
  pose proof Hh as [Hs Hd]. cbn [fst] in Hs. rewrite (session_phase k s Hs).
  destruct (String.eqb_spec (phase_before k) (phase_at j)) as [E|E]; cbn [negb].
  - apply phase_before_exact in E as ->; [|by eapply admissible_bound|done].
    destruct Ha as [[? _]|Ha]; [done|]. apply Hl in Ha as ->. apply (Hf s Hs). split; [done|].
    eapply on_disk_impl; [|exact Hd]. intros d Hx. by exists torn.
  - by exists k, l', torn.
Qed.

(** A check that only looks, before something that matters. *)
Lemma triple_check {B} O P (m : io bool) what (f : act B) Q (E : _ → Prop) : keeps still m →
  (∀ sw, about O P sw → E sw) → triple (about O P) f Q E →
  triple (about O P) (bad ← host m; if bad : bool then fail what else f) Q E.
Proof.
  intros Hm HE Hf. eapply triple_bind; [eapply triple_throw; [by apply triple_host_still|done]|].
  intros []; [by apply triple_fail|done].
Qed.

(** A settled stage takes the next record. *)
Lemma triple_next k l phase : phase = phase_at k → admissible k l → compatible (S k) l →
  triple (holding k (stage k l None)) (persist phase) (fun _ => exchanging) exchanging.
Proof.
  intros -> Ha Hc. eapply triple_conseq; [by apply (triple_persist_exchanging k l)| | |done].
  - intros sw. apply holding_impl. intros d Hd. by exists None.
  - intros [] sw H. by eapply exchanging_settled.
Qed.

(** A phase that moves a root: it is announced, done, checked and recorded. *)
Lemma triple_move_phase j l l' prepared recorded point (source target : path) (checked proven : io bool) what what' :
  prepared = phase_at (S j) → recorded = phase_at (S (S j)) → keeps still checked → keeps still proven →
  admissible (S j) l → compatible (S (S j)) l → compatible (S (S j)) l' → compatible (S (S (S j))) l' →
  (∀ d d', stage (S (S j)) l None d → move_tree d (names source) (names target) = Some d' →
    stage (S (S j)) l' None d') →
  triple (holding (S j) (some_stage (S j) l))
    (persist prepared;;
     bad ← host checked;
     if bad : bool then fail what
     else
       host (record_rename_no_replace source target);;
       s ← this;
       notify (phase_ s) point;;
       bad ← host proven;
       if bad : bool then fail what' else persist recorded) (fun _ => exchanging) exchanging.
Proof.
  intros -> -> Hchecked Hproven Ha Hl Hl' Hd Hm.
  eapply triple_bind; [by apply triple_persist_exchanging|]. intros [].
  apply triple_check; [done|intros sw H; by eapply exchanging_settled|].
  eapply (triple_bind _ _ _ (fun _ => holding (S (S j)) (stage (S (S j)) l' None))).
  { eapply triple_throw; [apply (triple_host _ _ _ (fun _ => stage (S (S j)) l' None)), triple_move; exact Hm|].
    intros sw H. by eapply exchanging_settled. }
  intros []. apply about_this. intros s _.
  eapply triple_bind.
  { eapply triple_throw; [apply triple_notify|]. intros sw H. by eapply exchanging_settled. }
  intros []. apply triple_check; [done|intros sw H; by eapply exchanging_settled|].
  apply (triple_next _ l'); [done|by right|done].
Qed.

Lemma live_names : names (live_root spec) = live.
Proof. rewrite (live_path _ _ _ _ _ _ Hg). apply names_abs_text. by eapply safe_plain, live_safe. Qed.

Lemma staged_names : names (staged_root spec) = staged.
Proof. rewrite (staged_path _ _ _ _ _ _ Hg). apply names_abs_text. by eapply safe_plain, staged_safe. Qed.

Lemma retained_names : names (retained_root spec) = retained.
Proof. rewrite (retained_path _ _ _ _ _ _ Hg). apply names_abs_text. by eapply safe_plain, retained_safe. Qed.

Lemma retire_exchanging : triple exchanging retire_old_root (fun _ => exchanging) exchanging.
Proof.
  apply (triple_enter 0 before); [lia|done|intros [] Hl; cbn in Hl; (done || lia)|]. intros s Hs. cbv zeta. rewrite (session_spec _ s Hs).
  apply (triple_bind _ _ _ (fun _ => holding 1 (some_stage 1 before))).
  { intros sw H. unfold lift. destruct (Journal.require_commit_authority _); [done|].
    eapply exchanging_open; [exact H|right; cbn; lia|cbn; lia]. }
  intros []. apply (triple_move_phase 0 before retired); try done; try (cbn; lia).
  - unfold live_is_old, staged_is_new. keeps_auto.
  - unfold retained_is_old. keeps_auto.
  - right. cbn. lia.
  - intros d d' Hd Hm. rewrite live_names, retained_names in Hm. by eapply stage_retired.
Qed.

Lemma activate_exchanging : triple exchanging activate_new_root (fun _ => exchanging) exchanging.
Proof.
  apply (triple_enter 2 retired); [lia|done|intros [] Hl; cbn in Hl; (done || lia)|]. intros s Hs. cbv zeta. rewrite (session_spec _ s Hs).
  apply (triple_move_phase 2 retired active); try done; try (cbn; lia).
  - unfold retained_is_old, staged_is_new. keeps_auto.
  - unfold live_is_new, retained_is_old. keeps_auto.
  - right. cbn. lia.
  - intros d d' Hd Hm. rewrite live_names, staged_names in Hm. by eapply stage_activated.
Qed.

(** A phase that only records. *)
Lemma triple_record_phase j l phase : phase = phase_at (S j) → compatible (S j) l → compatible (S (S j)) l →
  triple (holding (S j) (some_stage (S j) l)) (persist phase) (fun _ => exchanging) exchanging.
Proof.
  intros -> Ha Hc. eapply triple_conseq; [apply (triple_persist_exchanging (S j) l); [by right|done]|done| |done].
  intros [] sw H. by eapply exchanging_settled.
Qed.

Lemma published_exchanging : triple exchanging mark_state_published (fun _ => exchanging) exchanging.
Proof.
  apply (triple_enter 4 active); [lia|done|intros [] Hl; cbn in Hl; (done || lia)|]. intros s Hs. cbv zeta. rewrite (session_spec _ s Hs).
  apply triple_check.
  - unfold live_is_new, retained_is_old. keeps_auto.
  - intros sw H. eapply exchanging_open; [exact H|right; cbn; lia|cbn; lia].
  - apply triple_record_phase; [done|cbn; lia|cbn; lia].
Qed.

Lemma completed_exchanging : triple exchanging mark_completed (fun _ => exchanging) exchanging.
Proof.
  apply (triple_enter 5 active); [lia|done|intros [] Hl; cbn in Hl; (done || lia)|]. intros s Hs.
  apply triple_record_phase; [done|cbn; lia|cbn; lia].
Qed.

(** ** Construction *)

Definition starting (d : fs) : Prop := tree_ok d ∧ roots_at d before ∧ entries d !! journal_dir = None.

Lemma stage_started d t i d' : starting d → create d journal_dir directory t = Some (i, d') → stage 0 before None d'.
Proof.
  intros (Hok & Hr & Hfree) Hc. pose proof (tree_inodes d Hok) as Hfs.
  assert (∃ j y, lookup_inode d (transactions state) = Some (j, y) ∧ node y = directory) as (j & y & Ey & Hy).
  { unfold create in Hc. rewrite Hfree in Hc. unfold parent_name, ReplacementHost.journal_dir in Hc.
    rewrite removelast_last in Hc. destruct (lookup_inode d (transactions state)) as [[j y]|] eqn:E; [|done].
    exists j, y. split; [done|]. by destruct (node y). }
  rewrite (create_free d _ _ _ _ _ _ Hfree Ey Hy) in Hc. injection Hc as <- <-.
  match goal with |- context [mk_fs ?e ?x] => set (d' := mk_fs e x) end.
  assert (adds_object d d' journal_dir (fresh_inode d) (mk_inode (dev y) directory t)) as Ha.
  { split; [apply fresh_inode_free|]. done. }
  assert (tree_ok d') as Hok'.
  { eapply adds_tree_ok; [done|exact Ha| |apply Hg]. unfold is_dir_at. by rewrite Ey, Hy. }
  split; [done|]. split.
  { rewrite <- (app_nil_r journal_dir) in Ha. exact (roots_added d d' before [] _ _ Hok (tree_inodes d' Hok') Ha Hr). }
  split; [|done]. cbn [torn_record app]. split_and!; [|constructor| |constructor].
  - unfold is_dir_at, lookup_inode. cbn. rewrite lookup_insert_eq. cbn. by rewrite lookup_insert_eq.
  - intros nm. split; [|intros H; by apply elem_of_nil in H]. intros Hs. exfalso.
    destruct Ha as (_ & _ & He & _). rewrite He, lookup_insert_ne in Hs.
    + destruct Hs as [x Hx]. rewrite (absent_below d journal_dir [nm] Hok Hfree) in Hx. done.
    + intros E. apply (f_equal length) in E. rewrite length_app in E. simpl in E. lia.
Qed.

Lemma triple_make_directory :
  triple (on_disk starting) (create_directory_exclusive (journal_root spec) (transaction_id spec))
    (fun _ => on_disk (stage 0 before None)) (on_disk (fun d => starting d ∨ stage 0 before None d)).
Proof.
  assert (∀ w, on_disk starting w → on_disk (fun d => starting d ∨ stage 0 before None d) w) as Hleft
    by (intros w; apply on_disk_impl; by left).
  assert (∀ w, on_disk (stage 0 before None) w → on_disk (fun d => starting d ∨ stage 0 before None d) w) as Hright
    by (intros w; apply on_disk_impl; by right).
  unfold create_directory_exclusive. cbv zeta. rewrite (journal_path_text _ _ _ _ _ _ Hg).
  eapply triple_bind; [eapply triple_throw; [apply triple_still, still_record_directory|done]|]. intros [].
  destruct (negb _); [by apply triple_fail|].
  eapply (triple_bind _ _ _ (fun bad : bool => on_disk (fun d => if bad then starting d ∨ stage 0 before None d
    else stage 0 before None d))).
  - eapply (triple_bind _ _ _ (fun bad : bool => on_disk (if bad then starting else stage 0 before None))).
    + eapply (triple_bind _ _ _ (fun ok : bool => on_disk (if ok then stage 0 before None else starting))).
      * intros w Hw. set (f := fun d => '(_, d) ← create d (names (abs_text journal_dir)) directory (clock w (steps w));
          Some (tt, d, [made_directory (names (abs_text journal_dir))])).
        assert (triple (on_disk starting) (succeeded (effect f))
          (fun ok : bool => on_disk (if ok then stage 0 before None else starting)) (on_disk starting)) as H.
        { unfold succeeded. eapply triple_bind.
          - apply (calm_effect f starting (fun r => if r is Some _ then stage 0 before None else starting)); [done|].
            intros d x d' es Hd ([i d1] & Hc & [= <- <- <-])%bind_Some.
            rewrite names_abs_text in Hc by (by eapply safe_plain, journal_safe). by eapply stage_started.
          - intros [[]|]; by apply triple_ret. }
        specialize (H w Hw). change (create_directory (abs_text journal_dir) w) with (succeeded (effect f) w).
        destruct (succeeded (effect f) w) as [[[]|e] w']; [done|done|by apply Hleft].
      * intros []; by apply triple_ret.
    + intros []; [apply triple_ret; exact Hleft|].
      eapply triple_conseq; [apply (triple_still _ (stage 0 before None)), still_reparse|done| |done].
      intros [] w H; [by apply Hright|done].
  - intros []; [by apply triple_fail|]. eapply triple_throw; [apply triple_still, still_sync|done].
Qed.

(** What a session can leave behind. *)
Definition left_over (d : fs) : Prop := starting d ∨
  ∃ k l torn, stage k l torn d ∧ admissible k l ∧ (is_Some torn → compatible (S k) l).

Lemma exchanging_left sw : exchanging sw → on_disk left_over (snd sw).
Proof. intros (k & l & torn & [_ H] & Ha & Ht). eapply on_disk_impl; [|exact H]. intros d Hd. right. by exists k, l, torn. Qed.

Definition blank (s : ReplacementSession) : Prop := spec_ s = spec ∧ phase_ s = EmptyString ∧ sequence_ s = 0.

Lemma construct_exchanging :
  triple (about blank starting) construct (fun _ => exchanging) (fun sw => on_disk left_over (snd sw)).
Proof.
  assert (∀ sw, about blank starting sw → on_disk left_over (snd sw)) as Hleft.
  { intros sw [_ H]. eapply on_disk_impl; [|exact H]. by left. }
  unfold construct. apply about_this. intros s (-> & _). destruct (spec_invalid spec); [by apply triple_fail|].
  eapply (triple_bind _ _ _ (fun spec' sw => spec' = spec ∧ about blank starting sw)).
  { intros [s' w] H. unfold host, on_snd. cbn [snd]. by rewrite normal_spec_any. }
  intros spec' sw [-> Hsw]. revert sw Hsw.
  eapply triple_bind.
  { apply (about_update (O' := blank)). intros s' (_ & H2 & H3). by split. }
  intros []. apply triple_check; [apply still_refused|done|]. cbv zeta.
  eapply triple_bind; [eapply triple_throw; [apply triple_host_still, still_record_directory|done]|]. intros [].
  eapply triple_bind.
  { eapply triple_throw; [apply triple_host, triple_make_directory|]. intros sw [_ H]. eapply on_disk_impl; [|exact H].
    intros d [Hd|Hd]; [by left|right]. exists 0%nat, before, None. split; [done|]. split; [by left|]. by intros []. }
  intros []. assert (∀ sw O, about O (stage 0 before None) sw → on_disk left_over (snd sw)) as Hmade.
  { intros sw O [_ H]. eapply on_disk_impl; [|exact H]. intros d Hd. right. exists 0%nat, before, None.
    split; [done|]. split; [by left|]. by intros []. }
  eapply triple_bind.
  { eapply triple_throw; [apply (triple_host_still _ _ (stage 0 before None)), still_identity|]. intros sw. apply Hmade. }
  intros identity. eapply triple_bind.
  { apply (about_update (O' := session_ok 0)). intros s' (H1 & H2 & H3). split; [done| |done|done].
    exact (journal_path_text _ _ _ _ _ _ Hg). }
  intros []. eapply triple_throw; [apply (triple_next 0 before); [done|by left|cbn; lia]|]. apply exchanging_left.
Qed.

(** ** What is left is inspected *)

Lemma perform_exchanging what : triple exchanging (perform what) (fun _ => exchanging) exchanging.
Proof.
  destruct what;
    [apply retire_exchanging|apply activate_exchanging|apply published_exchanging|apply completed_exchanging].
Qed.

Lemma exchange_left calls : triple (about blank starting) (exchange calls)
  (fun _ => exchanging) (fun sw => on_disk left_over (snd sw)).
Proof.
  eapply triple_bind; [apply construct_exchanging|]. intros []. eapply triple_throw; [|apply exchanging_left].
  induction calls as [|what calls IH]; [by apply triple_ret|].
  apply (triple_bind _ _ _ (fun _ => exchanging)); [|intros []; exact IH].
  intros sw Hsw. pose proof (perform_exchanging what sw Hsw) as H. unfold ignore_errors, otherwise.
  destruct (perform what sw) as [[[]|e] sw']; [done|]. by destruct (catchable e).
Qed.

Lemma journal_names_safe k : (k <= 7)%nat → Forall (fun nm => safe_name nm) (map fst (journal k)).
Proof.
  intros Hk. rewrite journal_names. apply Forall_fmap, Forall_forall. intros j Hj%list_elem_of_In%in_seq.
  apply record_name_safe. lia.
Qed.

(** What the inspection says of the roots at [l]. *)
Definition says (l : location) (r : ReplacementInspection) : Prop :=
  r = corrupt l ∨ ∃ n, compatible n l ∧ r = expected spec parent a b c n l.

Lemma left_over_state d : left_over d → ∃ l r, tree_ok d ∧ roots_at d l ∧ says l r ∧
  journal_state spec parent state a b c d l r.
Proof.
  intros [(Hok & Hr & Hn)|(k & l & torn & (Hok & Hr & Hf & Ht) & Ha & Hc)].
  - exists before, (corrupt before). split_and!; [done|done|by left|]. by apply journal_absent.
  - pose proof (admissible_bound k l Ha) as Hk. destruct torn as [content|]; cbn [torn_record] in Hf.
    + specialize (Hc ltac:(by eexists)). destruct (Ht content eq_refl) as [Hk7 [rest Hrest]].
      destruct (decide (content = record_text k)) as [->|Hne].
      * rewrite <- journal_snoc in Hf. exists l, (expected spec parent a b c (S k) l). split_and!; [done|done| |].
        -- right. by exists (S k).
        -- apply journal_complete; [|done]. apply files_stores; [apply journal_names_safe; lia|done].
      * exists l, (corrupt l). split_and!; [done|done|by left|]. apply (journal_torn _ _ _ _ _ _ _ _ k content); try done.
        -- apply files_stores; [|done]. rewrite map_app. apply Forall_app. split; [by apply journal_names_safe|].
           apply Forall_singleton. by apply record_name_safe.
        -- destruct Hread as [_ Hz]. specialize (Hz k Hk7). rewrite Hrest, size_append in Hz. lia.
    + rewrite app_nil_r in Hf. destruct Ha as [[-> ->]|Ha].
      * exists before, (corrupt before). split_and!; [done|done|by left|]. by apply journal_empty, files_stores.
      * exists l, (expected spec parent a b c k l). split_and!; [done|done| |].
        -- right. by exists k.
        -- apply journal_complete; [|done]. by apply files_stores; [apply journal_names_safe|].
Qed.

(** C16 A replacement is recoverable: on a host where nothing else acts, whatever calls
    the client makes in whatever order, whichever of the host's calls fail, wherever
    the injector throws or the process dies, both roots are whole at the end, in one
    of the three places of an exchange, and an inspection on an undisturbed host
    returns and says which one, or that the journal is corrupt and the roots are to be
    retained for the operator.  The texts of the specification are UTF-8 and every
    record is at most 1 MiB ([journal_readable]). *)
Theorem replacement_recoverable injector calls w : calm w → starting (disk w) →
  let d := disk (after_exchange spec injector calls w) in
  ∃ l r, roots_at d l ∧ says l r ∧
    ∀ w', quiet w' → disk w' = d → runs w' (inspect spec) r d.
Proof.
  intros Hc Hs d. pose proof (exchange_left calls (unborn spec injector, w)) as H.
  assert (on_disk left_over (after_exchange spec injector calls w)) as [_ Hl].
  { unfold after_exchange. specialize (H ltac:(by split)).
    destruct (exchange calls (unborn spec injector, w)) as [[[]|e] sw]; [by apply exchanging_left|exact H]. }
  destruct (left_over_state _ Hl) as (l & r & Hok & Hr & Hsay & Hj). exists l, r. split; [done|]. split; [done|].
  intros w' Hq Hd. unfold d in *. rewrite <- Hd in *. by eapply runs_inspect.
Qed.


End Exchange.
End ReplacementSteps.
