(* ===== verification/ReplacementComplete.v ===== *)
(** A replacement on an undisturbed host: every call returns, and the exchange ends
    with the new root active, the old one retained and the journal complete. *)

From Stdlib Require Import Ascii String NArith ZArith Lia.
From stdpp Require Import base list strings gmap sets.
From S2P Require Import Prelude Sha256 StdMap Json JsonFacts Path PathFacts Effects World RecordIo RecordFacts.
From S2P Require Import DirectoryFacts TreeFacts SessionHost HostFacts CalmFacts Session Journal Replacement.
From S2P Require Import ReplacementJournal ReplacementSnapshot ReplacementHost ReplacementSteps.

Module ReplacementComplete.
Import Json JsonFacts Path PathFacts Effects World RecordIo RecordFacts DirectoryFacts TreeFacts.
Import SessionHost HostFacts CalmFacts Replacement ReplacementJournal ReplacementSnapshot ReplacementHost.
Import ReplacementSteps.

(** ** Total correctness *)

(** From a state in [P], [m] returns a value in a state in [Q]. *)
Definition goes {S A} (P : S → Prop) (m : M S A) (Q : A → S → Prop) : Prop :=
  ∀ s, P s → ∃ x s', m s = (Ok x, s') ∧ Q x s'.

Lemma goes_bind {S A B} (P : S → Prop) (m : M S A) (f : A → M S B) Q R :
  goes P m Q → (∀ x, goes (Q x) (f x) R) → goes P (m ≫= f) R.
Proof.
  intros Hm Hf s Hs. destruct (Hm s Hs) as (x & s1 & E & Hq). unfold mbind, M_bind. rewrite E. by apply Hf.
Qed.

Lemma goes_ret {S A} (x : A) (P : S → Prop) (Q : A → S → Prop) : (∀ s, P s → Q x s) → goes P (ret x) Q.
Proof. intros H s Hs. exists x, s. split; [done|by apply H]. Qed.

Definition quietly (O : ReplacementSession → Prop) (P : fs → Prop) (sw : ReplacementSession * world) : Prop :=
  O (fst sw) ∧ quiet (snd sw) ∧ P (disk (snd sw)).

Lemma goes_host {A} O (m : io A) P (Q : A → fs → Prop) : (∀ w, quiet w → P (disk w) → ensures w m Q) →
  goes (quietly O P) (host m) (fun x => quietly O (Q x)).
Proof.
  intros Hm [s w] (Ho & Hq & Hp). destruct (Hm w Hq Hp) as (x & d & (w' & E & D & Q' & _) & HQ).
  exists x, (s, w'). unfold host, on_snd. cbn [fst snd]. rewrite E. split; [done|]. split; [done|]. split; [done|].
  cbn [snd]. by rewrite D.
Qed.

(** An observation whose result the disk determines. *)
Lemma goes_look {A B} O (m : io A) x (f : A → act B) P R : (∀ w, quiet w → P (disk w) → runs w m x (disk w)) →
  goes (quietly O P) (f x) R → goes (quietly O P) (host m ≫= f) R.
Proof.
  intros Hm Hf [s w] (Ho & Hq & Hp). destruct (Hm w Hq Hp) as (w' & E & D & Q' & _).
  unfold mbind, M_bind, host, on_snd. cbn [fst snd]. rewrite E. apply Hf. split; [done|]. split; [done|]. cbn [snd]. by rewrite D.
Qed.

Lemma goes_this {B} O P (f : ReplacementSession → act B) R :
  (∀ s, O s → goes (quietly O P) (f s) R) → goes (quietly O P) (this ≫= f) R.
Proof. intros H [s w] Hs. pose proof Hs as [Ho _]. exact (H s Ho (s, w) Hs). Qed.

Lemma goes_update {O O' : ReplacementSession → Prop} P f : (∀ s, O s → O' (f s)) →
  goes (quietly O P) (update f) (fun _ => quietly O' P).
Proof. intros H [s w] [Ho Hw]. exists tt, (f s, w). split; [done|]. split; [by apply H|done]. Qed.

Lemma goes_pure {A B} (r : result A) x (f : A → act B) P R : r = Ok x → goes P (f x) R → goes P (lift r ≫= f) R.
Proof. intros -> Hf s Hs. exact (Hf s Hs). Qed.

Lemma runs_or_false w (a b : io bool) : (∀ w', quiet w' → disk w' = disk w → runs w' a false (disk w')) →
  (∀ w', quiet w' → disk w' = disk w → runs w' b false (disk w')) → quiet w → runs w (or_m a b) false (disk w).
Proof.
  intros Ha Hb Hq. apply (runs_or w a b false false); [by apply Ha|]. intros _ w' Q' D'. rewrite <- D'. by apply Hb.
Qed.

(** ** The state of the exchange *)

Section Exchange.
Context (spec : ReplacementSpec) (parent state : name) (a b c : string).
Hypothesis Hg : geometry spec parent state a b c.

Local Abbreviation live := (live parent a).
Local Abbreviation staged := (staged parent b).
Local Abbreviation retained := (retained parent c).
Local Abbreviation journal_dir := (journal_dir spec state).
Local Abbreviation roots_at := (roots_at spec parent a b c).
Local Abbreviation texts := (texts parent a b c).
Local Abbreviation stage := (stage spec parent state a b c).

Hypothesis Hread : journal_readable spec texts.

Definition device (d : fs) (n : name) : option N := '(_, x) ← lookup_inode d n; Some (dev x).

(** The roots that are still to be moved are on the volume of their parent. *)
Definition one_volume (l : location) (d : fs) : Prop :=
  match l with
  | before => device d live = device d parent ∧ device d staged = device d parent
  | retired => device d staged = device d parent
  | active => True
  end.

Definition settled (k : nat) (l : location) (identity : string) (d : fs) : Prop :=
  stage k l None d ∧ one_volume l d ∧ dir_identity d journal_dir = identity.

Definition object_at (k : nat) (identity : string) (s : ReplacementSession) : Prop :=
  session_ok spec state k s ∧ journal_directory_identity_ s = identity ∧ injector_ s = None.

Lemma volume_adds d d' l rel i x : fs_ok d → adds_object d d' (journal_dir ++ rel) i x → one_volume l d → one_volume l d'.
Proof.
  intros Hok Ha. assert (∀ n, n ≠ journal_dir ++ rel → device d' n = device d n) as Hd.
  { intros n Hn. unfold device. by rewrite (adds_lookup d d' _ i x n Hok Ha Hn). }
  assert (∀ y, y = a ∨ y = b ∨ y = c → device d' (parent ++ [y]) = device d (parent ++ [y])) as Hr.
  { intros y Hy. apply Hd. rewrite <- (app_nil_r (parent ++ [y])). by eapply apart. }
  assert (device d' parent = device d parent) as Hp.
  { apply Hd. intros E. apply (apart spec parent state a b c Hg a [] (rel ++ [a]) ltac:(by left)).
    by rewrite app_nil_r, E, app_assoc. }
  unfold ReplacementHost.live, ReplacementHost.staged in *.
  destruct l; cbn [one_volume]; unfold ReplacementHost.live, ReplacementHost.staged; rewrite ?Hp, ?Hr by auto; done.
Qed.

(** ** Persisting *)

Lemma journal_directory_safe k l d : stage k l None d → safe_dir d journal_dir.
Proof. intros (Hok & _ & (Hd & _) & _). by apply safe_dir_tree. Qed.

Lemma runs_previous k l s w : (k <= 7)%nat → session_ok spec state k s → quiet w → stage k l None (disk w) →
  runs w (previous_digest s) (digest_after spec texts k) (disk w).
Proof.
  intros Hk Hs Hq Hst. unfold previous_digest.
  rewrite (session_sequence _ _ _ _ Hs), (session_journal _ _ _ _ Hs), (session_phase _ _ _ _ Hs).
  destruct k as [|j]; [by apply runs_ret|]. rewrite (proj2 (N.eqb_neq (N.of_nat (S j)) 0)) by lia.
  replace (N.of_nat (S j) - 1) with (N.of_nat j) by lia. cbn [phase_before]. fold (record_name j).
  pose proof Hst as (_ & _ & Hf & _). cbn [torn_record] in Hf. rewrite app_nil_r in Hf.
  apply (files_stores spec parent state a b c Hg) in Hf as (_ & _ & Hf); [|by apply journal_names_safe].
  unfold journal in Hf. rewrite Forall_fmap, Forall_forall in Hf.
  destruct (Hf j) as [i Hi]; [apply list_elem_of_In, in_seq; lia|]. cbn [fst snd] in Hi.
  rewrite (replacement_record_path spec parent state a b c Hg) by lia.
  eapply runs_bind.
  - eapply runs_read_stable_text; [done| |exact Hi|apply Hread; lia].
    rewrite <- (replacement_record_path spec parent state a b c Hg) by lia.
    apply child_path; [by eapply journal_safe|apply record_name_safe; lia].
  - intros w1 Q1 D1 _. cbv beta. rewrite <- D1. apply runs_lift; [done|]. rewrite record_parses by (done || lia).
    by rewrite record_bound.
Qed.

Lemma record_names_differ j k : (j < 7)%nat → (k < 7)%nat → record_name j = record_name k → j = k.
Proof.
  intros Hj Hk E. assert (NoDup (map record_name (seq 0 7))) as Hn by (apply (bool_decide_unpack _); by vm_compute).
  apply (NoDup_lookup _ j k (record_name k) Hn); rewrite list_lookup_fmap, lookup_seq_lt by done; [|done].
  cbn. by rewrite E.
Qed.

Lemma ensures_write k l identity s w : (k < 7)%nat → session_ok spec state k s → quiet w → settled k l identity (disk w) →
  ensures w (write_record s (phase_at k) (digest_after spec texts k)) (fun _ => settled (S k) l identity).
Proof.
  intros Hk Hs Hq (Hst & Hv & Hid). pose proof Hst as (Hok & Hr & Hf & _). unfold write_record.
  rewrite (session_spec _ _ _ _ Hs), (session_sequence _ _ _ _ Hs), (session_journal _ _ _ _ Hs).
  eapply ensures_then; [by apply (runs_normalized_roots spec parent state a b c Hg)|]. intros w1 Q1 D1 _. cbv beta.
  eapply ensures_then; [apply runs_lift; [done|apply document_eq]|]. intros w2 Q2 D2 _. cbv beta.
  rewrite <- D1, <- D2 in *. clear w w1 D1 D2 Q1 Hq. fold (record_name k).
  rewrite (replacement_record_path spec parent state a b c Hg) by done. cbn [torn_record] in Hf. rewrite app_nil_r in Hf.
  assert (Forall safe_name (journal_dir ++ [record_name k])) as Hsafe.
  { apply Forall_app. split; [by eapply journal_safe|]. constructor; [by apply record_name_safe|done]. }
  assert (entries (disk w2) !! (journal_dir ++ [record_name k]) = None) as Hfree.
  { destruct (entries (disk w2) !! (journal_dir ++ [record_name k])) eqn:E; [exfalso|done].
    destruct Hf as (_ & _ & Hm & _). assert (record_name k ∈ map fst (journal spec texts k)) as Hin by (apply Hm; by rewrite E).
    rewrite journal_names in Hin. apply list_elem_of_In, in_map_iff in Hin as (j & Ej & Hj%in_seq).
    apply record_names_differ in Ej; lia. }
  destruct (write_new_ensures w2 journal_dir (record_name k) (record_text spec texts k) Q2 Hsafe
    (journal_directory_safe k l _ Hst) Hfree) as (u & d' & Hrun & Hadd).
  eapply ensures_runs; [destruct u; exact Hrun|]. pose proof Hadd as (v & t & Hi & _ & He & Hx).
  rewrite names_abs_text in He by (by apply safe_plain). pose proof (tree_inodes _ Hok) as Hfs.
  assert (adds_object (disk w2) d' (journal_dir ++ [record_name k]) (fresh_inode (disk w2))
    (mk_inode v (regular (record_text spec texts k)) t)) as Ha by done.
  assert (tree_ok d') as Hok' by (eapply adds_tree_ok; [done|exact Ha|apply Hf|by apply record_name_safe]).
  pose proof (tree_inodes _ Hok') as Hfs'. split_and!.
  - split; [done|]. split; [exact (roots_added _ _ _ _ _ _ Hg _ _ l [record_name k] _ _ Hok Hfs' Ha Hr)|]. split; [|done].
    cbn [torn_record]. rewrite app_nil_r, journal_snoc.
    refine (files_added spec state _ d' (journal spec texts k) _ _ _ _ _ Hfs Hfs' Hf Ha _).
    destruct (adds_file_holds _ _ _ _ _ Hfs eq_refl Hadd) as (? & ? & _ & Hc). exact Hc.
  - exact (volume_adds _ _ l [record_name k] _ _ Hfs Ha Hv).
  - rewrite <- Hid. eapply dir_identity_adds; [exact Hadd|]. by eapply journal_directory_safe.
Qed.

Lemma notify_goes k identity phase point P : goes (quietly (object_at k identity) P) (notify phase point)
  (fun _ => quietly (object_at k identity) P).
Proof. apply goes_this. intros s (_ & _ & ->). apply goes_host. intros w Hq Hp. by apply ensures_ret. Qed.

Lemma persist_goes k l identity : (k < 7)%nat →
  goes (quietly (object_at k identity) (settled k l identity)) (persist (phase_at k))
    (fun _ => quietly (object_at (S k) identity) (settled (S k) l identity)).
Proof.
  intros Hk. unfold persist. apply goes_this. intros s (Hs & Hi & Hn).
  assert (negb (is_empty (phase_ s)) && negb (valid_transition (phase_ s) (phase_at k)) = false) as ->.
  { rewrite (session_phase _ _ _ _ Hs). destruct k as [|k]; [done|]. cbn [phase_before].
    rewrite (proj2 (transition_exact k (phase_at (S k)) ltac:(lia))) by (split; [lia|done]). by rewrite andb_false_r. }
  rewrite (session_journal _ _ _ _ Hs), Hi.
  eapply (goes_bind _ _ _ (fun bad sw => bad = false ∧ quietly (object_at k identity) (settled k l identity) sw)).
  { apply (goes_bind _ _ _ (fun bad sw => bad = false ∧ quietly (object_at k identity) (settled k l identity) sw)).
    { apply goes_ret. done. }
    intros bad sw [-> Hsw]. revert sw Hsw. apply (goes_look _ _ identity).
    - intros w Hq (Hst & _ & <-). apply runs_identity; [done|by eapply journal_safe|by eapply journal_directory_safe].
    - apply goes_ret. intros sw Hsw. by rewrite String.eqb_refl. }
  intros bad sw [-> Hsw]. revert sw Hsw. apply (goes_look _ _ (digest_after spec texts k)).
  { intros w Hq (Hst & _). eapply runs_previous; [lia|done|done|exact Hst]. }
  eapply goes_bind; [apply notify_goes|]. intros [].
  eapply goes_bind; [apply goes_host; intros w Hq Hw; by eapply ensures_write|]. intros [].
  apply (goes_bind _ _ _ (fun _ => quietly (object_at (S k) identity) (settled (S k) l identity))); [|intros []; apply notify_goes].
  apply (goes_update (O' := object_at (S k) identity)). intros s' (H1 & H2 & H3). split; [by apply advanced|done].
Qed.

(** ** Moving *)

Lemma can_move d x y : tree_ok d → is_dir_at d (parent ++ [x]) = true → entries d !! (parent ++ [y]) = None →
  device d (parent ++ [x]) = device d parent → x ≠ y → ∃ d', move_tree d (parent ++ [x]) (parent ++ [y]) = Some d'.
Proof.
  intros Hok Hx Hy Hv Hne. unfold move_tree, parent_name. rewrite Hy, removelast_last.
  pose proof Hx as (i & n & Ex & _)%is_dir_at_inv.
  assert (is_dir_at d parent = true) as Hp by (apply (tree_parents d Hok _ x); by apply is_dir_entry).
  pose proof Hp as (j & m & Ep & _)%is_dir_at_inv. rewrite Ex, Ep, Hp. unfold device in Hv. rewrite Ex, Ep in Hv.
  injection Hv as ->. rewrite N.eqb_refl.
  destruct (below (parent ++ [x]) (parent ++ [y])) eqn:E; [exfalso|by eexists].
  apply below_iff in E as (rel & E & _). revert E. rewrite <- (app_nil_r (parent ++ [y])). apply siblings. congruence.
Qed.

Lemma ensures_move w x y d' : quiet w → tree_ok (disk w) → (x = a ∨ x = b ∨ x = c) → (y = a ∨ y = b ∨ y = c) →
  move_tree (disk w) (parent ++ [x]) (parent ++ [y]) = Some d' →
  ensures w (record_rename_no_replace (abs_text (parent ++ [x])) (abs_text (parent ++ [y]))) (fun _ d => d = d').
Proof.
  intros Hq Hok Hx Hy Hm. pose proof (parent_safe _ _ _ _ _ _ Hg) as Hp.
  assert (∀ z, z = a ∨ z = b ∨ z = c → safe_name z) as Hz.
  { destruct (roots_safe _ _ _ _ _ _ Hg) as (? & ? & ?). by intros z [->|[->| ->]]. }
  assert (∀ z, z = a ∨ z = b ∨ z = c → Forall plain_name (parent ++ [z])) as Hplain.
  { intros z H. apply safe_plain, Forall_app. split; [done|]. constructor; [by apply Hz|done]. }
  assert (∀ z, z = a ∨ z = b ∨ z = c → parent_path (abs_text (parent ++ [z])) = abs_text parent) as Hpp.
  { intros z H. apply parent_abs_text; [by apply safe_plain|by apply Hz]. }
  assert (safe_dir (disk w) parent) as Hd.
  { apply safe_dir_tree; [done|]. destruct (move_inv _ _ _ _ Hm) as (_ & _ & H & _).
    unfold parent_name in H. by rewrite removelast_last in H. }
  unfold record_rename_no_replace. rewrite !Hpp by done.
  eapply ensures_then; [by apply runs_require_safe_directory|]. intros w1 Q1 D1 _. cbv beta.
  eapply ensures_then; [apply runs_require_safe_directory; [done|done|by rewrite D1]|]. intros w2 Q2 D2 _. cbv beta.
  assert (runs w2 (rename_no_replace (abs_text (parent ++ [x])) (abs_text (parent ++ [y]))) true d') as Hren.
  { unfold rename_no_replace, succeeded. eapply runs_bind.
    - eapply runs_effect; [done|]. rewrite D2, D1, !names_abs_text, Hm by auto. reflexivity.
    - intros w3 Q3 D3 _. cbv beta iota. rewrite <- D3. by apply runs_ret. }
  eapply ensures_then; [exact Hren|]. intros w3 Q3 D3 _. cbv beta iota. by apply ensures_ret.
Qed.

Lemma root_device d d' x y z : tree_ok d → move_tree d (parent ++ [x]) (parent ++ [y]) = Some d' → z ≠ x → z ≠ y →
  device d' (parent ++ [z]) = device d (parent ++ [z]) ∧ device d' parent = device d parent.
Proof.
  intros Hok Hm Hx Hy. unfold device. split; f_equal.
  - destruct (move_elsewhere d d' _ _ Hok Hm (parent ++ [z])) as [Hs _]; [intros ? ?; by apply siblings..|].
    specialize (Hs []). by rewrite app_nil_r in Hs.
  - apply (moved_inode d d' _ _ Hm), (moved_outside d d' _ _ Hok Hm);
      intros rel E; apply (f_equal length) in E; rewrite !length_app in E; simpl in E; lia.
Qed.

Lemma identity_moved d d' x y : tree_ok d → (x = a ∨ x = b ∨ x = c) → (y = a ∨ y = b ∨ y = c) →
  move_tree d (parent ++ [x]) (parent ++ [y]) = Some d' → dir_identity d' journal_dir = dir_identity d journal_dir.
Proof.
  intros Hok Hx Hy Hm. unfold dir_identity. destruct (move_elsewhere d d' _ _ Hok Hm journal_dir) as [Hs _].
  1, 2: intros ? ? E; symmetry in E; revert E; by eapply apart.
  specialize (Hs []). rewrite app_nil_r in Hs. by rewrite Hs.
Qed.

(** A phase that moves a root. *)
Lemma move_goes j l l' identity x y prepared recorded point (source target : path) (checked proven : io bool) what what' :
  prepared = phase_at (S j) → recorded = phase_at (S (S j)) → (S (S j) < 7)%nat →
  source = abs_text (parent ++ [x]) → target = abs_text (parent ++ [y]) →
  (x = a ∨ x = b ∨ x = c) → (y = a ∨ y = b ∨ y = c) →
  (∀ w, quiet w → settled (S (S j)) l identity (disk w) → runs w checked false (disk w)) →
  (∀ w, quiet w → settled (S (S j)) l' identity (disk w) → runs w proven false (disk w)) →
  (∀ d, settled (S (S j)) l identity d → ∃ d', move_tree d (parent ++ [x]) (parent ++ [y]) = Some d') →
  (∀ d d', settled (S (S j)) l identity d → move_tree d (parent ++ [x]) (parent ++ [y]) = Some d' →
    settled (S (S j)) l' identity d') →
  goes (quietly (object_at (S j) identity) (settled (S j) l identity))
    (persist prepared;;
     bad ← host checked;
     if bad : bool then fail what
     else
       host (record_rename_no_replace source target);;
       s ← this;
       notify (phase_ s) point;;
       bad ← host proven;
       if bad : bool then fail what' else persist recorded)
    (fun _ => quietly (object_at (S (S (S j))) identity) (settled (S (S (S j))) l' identity)).
Proof.
  intros -> -> Hj -> -> Hx Hy Hc Hp Hcan Hm. eapply goes_bind; [apply persist_goes; lia|]. intros [].
  apply (goes_look _ _ false); [done|].
  apply (goes_bind _ _ _ (fun _ => quietly (object_at (S (S j)) identity) (settled (S (S j)) l' identity))).
  { apply (goes_host _ _ _ (fun _ => settled (S (S j)) l' identity)). intros w Hq Hw. destruct (Hcan _ Hw) as [d' Hd'].
    destruct (ensures_move w x y d' Hq (proj1 (proj1 Hw)) Hx Hy Hd') as (u & d1 & Hr & ->).
    eapply ensures_runs; [exact Hr|]. by eapply Hm. }
  intros []. apply goes_this. intros s _. eapply goes_bind; [apply notify_goes|]. intros [].
  apply (goes_look _ _ false); [done|]. apply persist_goes. lia.
Qed.

(** ** The calls *)

Lemma runs_now_flags w l k identity : quiet w → settled k l identity (disk w) →
  runs w (live_is_old spec) (bool_decide (l = before)) (disk w) ∧
  runs w (live_is_new spec) (bool_decide (l = active)) (disk w) ∧
  runs w (staged_is_new spec) (bool_decide (l ≠ active)) (disk w) ∧
  runs w (retained_is_old spec) (bool_decide (l ≠ before)) (disk w) ∧
  runs w (exists_ (live_root spec)) (live_there l) (disk w) ∧
  runs w (exists_ (retained_root spec)) (retained_there l) (disk w).
Proof.
  intros Hq ((Hok & Hr & _) & _). pose proof (runs_matches _ _ _ _ _ _ Hg w l Hq Hok Hr) as (? & ? & ? & ?).
  pose proof (runs_flags _ _ _ _ _ _ Hg w l Hq Hr) as (? & _ & ?). done.
Qed.

(** A condition of several tests, each of which the state decides. *)
Ltac sees_no_fault := lazymatch goal with
  | |- runs _ (or_m _ _) false _ => apply runs_or_false; [..|assumption];
    (let w := fresh "w" in let Q := fresh "Q" in let D := fresh "D" in intros w Q D;
     match goal with Hw : settled _ _ _ _ |- _ => rewrite <- D in Hw end; clear D; sees_no_fault)
  | Hq : quiet ?w, Hw : settled ?k ?l ?i (disk ?w) |- runs ?w _ _ _ =>
    destruct (runs_now_flags w l k i Hq Hw) as (M1 & M2 & M3 & M4 & M5 & M6);
    first [exact M5|exact M6|apply (runs_not _ _ true);
      first [exact M1|exact M2|exact M3|exact M4]]
  end.

Lemma retire_goes identity : required_commit_authority spec = Journal.legacy_observed →
  goes (quietly (object_at 1 identity) (settled 1 before identity)) retire_old_root
    (fun _ => quietly (object_at 3 identity) (settled 3 retired identity)).
Proof.
  intros Hauth. unfold retire_old_root. apply goes_this. intros s (Hs & _).
  rewrite (session_phase _ _ _ _ Hs), (session_spec _ _ _ _ Hs). cbn [phase_before phase_at nth phases].
  cbv zeta. change (negb (String.eqb "intent" "intent")) with false. cbv iota.
  apply (goes_pure _ tt); [by rewrite Hauth|].
  apply (move_goes 0 before retired identity a c); [done|done|lia|apply Hg|apply Hg|auto|auto| | | |].
  - intros w Hq Hw. sees_no_fault.
  - intros w Hq Hw. sees_no_fault.
  - intros d ((Hok & (H1 & H2 & H3) & _) & (Hv & _) & _). apply can_move; try done; [apply H1|apply (roots_differ _ _ _ _ _ _ Hg)].
  - intros d d' (Hst & (Hv1 & Hv2) & Hid) Hm. pose proof (roots_differ _ _ _ _ _ _ Hg) as (D1 & D2 & D3).
    split; [by eapply stage_retired|]. split.
    + destruct (root_device d d' a c b (proj1 Hst) Hm) as [E1 E2]; [done|done|]. cbn [one_volume].
      unfold ReplacementHost.staged in *. congruence.
    + rewrite <- Hid. eapply (identity_moved d d' a c); auto. apply Hst.
Qed.

Lemma activate_goes identity :
  goes (quietly (object_at 3 identity) (settled 3 retired identity)) activate_new_root
    (fun _ => quietly (object_at 5 identity) (settled 5 active identity)).
Proof.
  unfold activate_new_root. apply goes_this. intros s (Hs & _).
  rewrite (session_phase _ _ _ _ Hs), (session_spec _ _ _ _ Hs). cbn [phase_before phase_at nth phases].
  cbv zeta. change (negb (String.eqb "old_retired" "old_retired")) with false. cbv iota.
  apply (move_goes 2 retired active identity b a); [done|done|lia|apply Hg|apply Hg|auto|auto| | | |].
  - intros w Hq Hw. sees_no_fault.
  - intros w Hq Hw. sees_no_fault.
  - intros d ((Hok & (H1 & H2 & H3) & _) & Hv & _). apply can_move; try done; [apply H2|].
    pose proof (roots_differ _ _ _ _ _ _ Hg) as (D1 & _). congruence.
  - intros d d' (Hst & Hv & Hid) Hm. split; [by eapply stage_activated|]. split; [done|].
    rewrite <- Hid. eapply (identity_moved d d' b a); auto. apply Hst.
Qed.

Lemma published_goes identity :
  goes (quietly (object_at 5 identity) (settled 5 active identity)) mark_state_published
    (fun _ => quietly (object_at 6 identity) (settled 6 active identity)).
Proof.
  unfold mark_state_published. apply goes_this. intros s (Hs & _).
  rewrite (session_phase _ _ _ _ Hs), (session_spec _ _ _ _ Hs). cbn [phase_before phase_at nth phases].
  cbv zeta. change (negb (String.eqb "new_active" "new_active")) with false. cbv iota.
  apply (goes_look _ _ false); [intros w Hq Hw; sees_no_fault|]. by apply (persist_goes 5); lia.
Qed.

Lemma completed_goes identity :
  goes (quietly (object_at 6 identity) (settled 6 active identity)) mark_completed
    (fun _ => quietly (object_at 7 identity) (settled 7 active identity)).
Proof.
  unfold mark_completed. apply goes_this. intros s (Hs & _). rewrite (session_phase _ _ _ _ Hs).
  cbn [phase_before phase_at nth phases]. change (negb (String.eqb "state_published" "state_published")) with false.
  cbv iota. by apply (persist_goes 6); lia.
Qed.

(** ** Construction *)

(** The static conditions of the constructor. *)
Definition acceptable : Prop :=
  spec_invalid spec = false ∧ siblings_differ spec = false ∧ state_overlaps spec = false ∧
  required_commit_authority spec = Journal.legacy_observed.

Definition ready (d : fs) : Prop :=
  starting spec parent state a b c d ∧ is_dir_at d (transactions state) = true ∧ one_volume before d.

Lemma runs_refused w : acceptable → quiet w → ready (disk w) → runs w (roots_refused spec) false (disk w).
Proof.
  intros (_ & Hs & Ho & _) Hq ((Hok & Hr & _) & _ & _). unfold roots_refused. rewrite Hs, Ho.
  assert (∀ w', quiet w' → disk w' = disk w → runs w' (live_is_old spec) true (disk w') ∧
    runs w' (staged_is_new spec) true (disk w') ∧ runs w' (exists_ (retained_root spec)) false (disk w')) as H.
  { intros w' Q' D'. rewrite <- D' in *. destruct (runs_matches _ _ _ _ _ _ Hg w' before Q' Hok Hr) as (M1 & _ & M3 & _).
    destruct (runs_flags _ _ _ _ _ _ Hg w' before Q' Hr) as (_ & _ & M6). done. }
  apply runs_or_false; [|intros; by apply runs_ret|done]. intros w1 Q1 D1.
  apply runs_or_false; [| |done].
  - intros w2 Q2 D2. apply runs_or_false; [| |done].
    + intros w3 Q3 D3. apply runs_or_false; [intros; by apply runs_ret| |done]. intros w4 Q4 D4. apply H; [done|congruence].
    + intros w3 Q3 D3. apply (runs_not _ _ true). apply H; [done|congruence].
  - intros w2 Q2 D2. apply (runs_not _ _ true). apply H; [done|congruence].
Qed.

Lemma ensures_directory w : acceptable → quiet w → ready (disk w) →
  ensures w (create_directory_exclusive (journal_root spec) (transaction_id spec))
    (fun _ d => stage 0 before None d ∧ one_volume before d).
Proof.
  intros (Hs & _) Hq ((Hok & Hr & Hfree) & Ht & Hv). unfold create_directory_exclusive. cbv zeta.
  assert (valid_identifier (transaction_id spec) = true) as ->.
  { unfold spec_invalid in Hs. by destruct (valid_identifier (transaction_id spec)). }
  assert (journal_root spec = abs_text (transactions state)) as Hj.
  { unfold journal_root. rewrite (state_path _ _ _ _ _ _ Hg). apply abs_text_append; [apply safe_plain, Hg|by repeat split]. }
  rewrite (journal_path_text _ _ _ _ _ _ Hg), Hj. cbn [negb].
  pose proof (transactions_safe _ _ _ _ _ _ Hg) as Hsafe. pose proof (safe_dir_tree _ _ Hok Ht) as Hsd.
  eapply ensures_then; [by apply runs_require_safe_directory|]. intros w1 Q1 D1 _. cbv beta. rewrite <- D1 in *.
  pose proof Ht as (j & y & Ey & Hy)%is_dir_at_inv.
  pose proof (create_free (disk w1) _ _ directory (clock w1 (steps w1)) _ _ Hfree Ey Hy) as Hc.
  match type of Hc with _ = Some (_, ?x) => set (d' := x) in Hc end.
  assert (stage 0 before None d') as Hst by (by eapply stage_started).
  assert (one_volume before d') as Hv'.
  { apply (volume_adds (disk w1) d' before [] (fresh_inode (disk w1)) (mk_inode (dev y) directory (clock w1 (steps w1))));
      [by apply tree_inodes| |done]. rewrite app_nil_r. split; [apply fresh_inode_free|done]. }
  pose proof Hst as (Hok' & _ & (Hjd & _) & _).
  assert (runs w1 (create_directory (abs_text journal_dir)) true d') as Hmk.
  { unfold create_directory, now. eapply runs_bind; [by exists w1|]. intros w2 Q2 D2 _. cbv beta.
    unfold succeeded. eapply runs_bind.
    - eapply runs_effect; [done|]. rewrite names_abs_text, D2, <- D1 by (by eapply safe_plain, journal_safe).
      unfold ReplacementHost.journal_dir in *. rewrite Hc. reflexivity.
    - intros w3 Q3 D3 _. cbv beta iota. rewrite <- D3. by apply runs_ret. }
  assert (runs w1 (or_m (not_m (create_directory (abs_text journal_dir))) (reparse_or_symlink (abs_text journal_dir))) false d') as Hor.
  { unfold or_m. eapply runs_bind; [by apply (runs_not _ _ true)|]. intros w2 Q2 D2 _. cbv beta iota. rewrite <- D2 in *.
    apply runs_reparse; [done|]. by rewrite names_abs_text by (by eapply safe_plain, journal_safe). }
  eapply ensures_then; [exact Hor|]. intros w2 Q2 D2 _. cbv beta iota. rewrite <- D2 in *.
  eapply ensures_runs; [apply runs_sync_directory; [done|done|]|done]. apply safe_dir_tree; [done|].
  apply (tree_parents _ Hok' _ (transaction_id spec)). by apply is_dir_entry.
Qed.

Definition newborn (s : ReplacementSession) : Prop := blank spec s ∧ injector_ s = None.

Lemma construct_goes : acceptable → goes (quietly newborn ready) construct
  (fun _ sw => ∃ identity, quietly (object_at 1 identity) (settled 1 before identity) sw).
Proof.
  intros Ha. unfold construct. apply goes_this. intros s ((-> & _) & _). pose proof Ha as (-> & _).
  apply (goes_look _ _ spec); [intros w Hq _; by apply (runs_normal_spec _ _ _ _ _ _ Hg)|].
  eapply goes_bind.
  { apply (goes_update (O' := newborn)). intros s' ((_ & H2 & H3) & H4). by split. }
  intros []. apply (goes_look _ _ false); [intros w Hq Hw; by apply runs_refused|]. cbv zeta.
  apply (goes_look _ _ tt).
  { intros w Hq ((Hok & _) & Ht & _). unfold journal_root. rewrite (state_path _ _ _ _ _ _ Hg).
    rewrite abs_text_append by (apply safe_plain, Hg || by repeat split).
    apply runs_require_safe_directory; [done|by eapply transactions_safe|by apply safe_dir_tree]. }
  eapply goes_bind; [apply goes_host; intros w Hq Hw; by apply ensures_directory|]. intros [] [s0 w0] (Ho & Hq0 & Hst & Hv).
  cbn [fst snd] in *.
  destruct (runs_identity w0 journal_dir Hq0 ltac:(by eapply journal_safe) (journal_directory_safe _ _ _ Hst))
    as (w1 & E1 & D1 & Q1 & _).
  unfold mbind at 1, M_bind at 1, host at 1, on_snd at 1. cbn [snd fst].
  rewrite (journal_path_text _ _ _ _ _ _ Hg), E1. cbv beta iota.
  assert (object_at 0 (dir_identity (disk w1) journal_dir)
    (with_journal (abs_text journal_dir) (dir_identity (disk w0) journal_dir) s0)) as Hobj.
  { destruct Ho as ((H1 & H2 & H3) & H4). by rewrite D1. }
  destruct (persist_goes 0 before (dir_identity (disk w1) journal_dir) ltac:(lia)
    (with_journal (abs_text journal_dir) (dir_identity (disk w0) journal_dir) s0, w1)) as (u & sw & E & Hsw).
  { split; [done|]. split; [done|]. cbn [snd]. rewrite D1. done. }
  exists u, sw. split; [exact E|]. by eexists.
Qed.

(** The whole exchange. *)
Definition whole_exchange : act unit :=
  construct;; retire_old_root;; activate_new_root;; mark_state_published;; mark_completed.

(** C17 An undisturbed exchange completes: on a host where nothing fails or
    interferes, for a specification the constructor admits, whose roots are in place
    on one volume, every call of the session returns; at the end the new root is live,
    the old one is retained, both whole, and an inspection says "completed" and
    proposes no action.  The texts of the specification must be UTF-8 and every record
    at most 1 MiB ([journal_readable]): the constructor does not check this, and the
    next record could not be written, because the reader refuses the one before. *)
Theorem replacement_completes w : acceptable → quiet w → ready (disk w) →
  ∃ s w', whole_exchange (unborn spec None, w) = (Ok tt, (s, w')) ∧ phase_ s = "completed" ∧
    roots_at (disk w') active ∧
    ∃ r, runs w' (inspect spec) r (disk w') ∧ disposition r = "completed" ∧ available_actions r = [].
Proof.
  intros Ha Hq Hr. assert (goes (quietly newborn ready) whole_exchange (fun _ sw => ∃ identity,
    quietly (object_at 7 identity) (settled 7 active identity) sw)) as H.
  { eapply goes_bind; [by apply construct_goes|]. intros [] sw [identity Hsw]. revert sw Hsw.
    eapply goes_bind; [apply retire_goes, Ha|]. intros []. eapply goes_bind; [apply activate_goes|]. intros [].
    eapply goes_bind; [apply published_goes|]. intros [] sw Hsw.
    destruct (completed_goes identity sw Hsw) as (x & sw' & E & Hx). exists x, sw'. split; [done|by exists identity]. }
  destruct (H (unborn spec None, w)) as ([] & [s w'] & E & identity & (Hs & _) & Q' & (Hst & _)); [by split|].
  exists s, w'. split; [done|]. cbn [fst snd] in *. split; [by rewrite (session_phase _ _ _ _ Hs)|].
  pose proof Hst as (Hok & Hroots & Hf & _). split; [done|]. exists (expected spec parent a b c 7 active).
  split; [|done]. refine (runs_inspect spec parent state a b c Hg Hread w' active _ Q' Hok Hroots _).
  apply journal_complete; [|cbn; lia]. cbn [torn_record] in Hf. rewrite app_nil_r in Hf.
  apply (files_stores spec parent state a b c Hg); [by apply journal_names_safe|done].
Qed.


End Exchange.
End ReplacementComplete.
