(* ===== verification/ReplacementConfined.v ===== *)
(** What a replacement session does to any host, whatever else acts on it: it fills
    its own journal directory and makes the two moves, and no move at all when the
    specification asks for an authority the host does not have. *)

From Stdlib Require Import Ascii String NArith ZArith Lia.
From stdpp Require Import base list strings gmap sets.
From S2P Require Import Prelude Effects Sha256 StdMap Json JsonFacts Path PathFacts World RecordIo RecordFacts.
From S2P Require Import DirectoryFacts Journal SessionHost HostFacts Session SessionConfined Replacement.
From S2P Require Import ReplacementJournal TreeFacts ReplacementSnapshot ReplacementHost ReplacementSteps.
From S2P Require Import ReplacementComplete.

Module ReplacementConfined.
Import Json Path Effects World RecordIo RecordFacts SessionHost SessionConfined Replacement ReplacementSteps.

(** ** The permitted events *)

Section Confined.
Context (spec : ReplacementSpec).

Definition journal_directory : path := journal_root spec /+ transaction_id spec.

Definition permitted (e : event) : Prop :=
  match e with
  | made_directory n => n = names journal_directory
  | created n _ => ∃ k phase, n = names (journal_directory /+ phase_filename k phase)
  | wrote _ _ => True
  | moved source target => required_commit_authority spec = Journal.legacy_observed ∧
      ((source, target) = (names (live_root spec), names (retained_root spec)) ∨
       (source, target) = (names (staged_root spec), names (live_root spec)))
  | _ => False
  end.

Local Abbreviation allowed := (acts None permitted).

(** ** Observations add nothing *)

Ltac quietly := try apply keeps_acts_quiet; first
  [apply quiet_safe_directory | apply quiet_directory_identity | apply quiet_open | apply quiet_verify | apply quiet_hash
  |apply quiet_calls|apply (quiet_handles _ 0)|apply quiet_handles].

Lemma allowed_text p n : keeps allowed (read_stable_text p n).
Proof.
  unfold read_stable_text, StableFile.read, StableFile.read_exact. keeps_auto; quietly.
Qed.

Lemma allowed_snapshot p : keeps allowed (replacement_snapshot_digest p).
Proof.
  unfold replacement_snapshot_digest, is_link, status, snapshot_entry, Session.list_tree.
  keeps_auto; try quietly; apply keeps_acts_quiet, keeps_step_adds.
Qed.

Lemma allowed_matches p i s : keeps allowed (matches_root p i s).
Proof.
  unfold matches_root, is_link, status. keeps_auto; try quietly;
    first [apply allowed_snapshot|apply keeps_acts_quiet; first [apply keeps_step_adds|apply quiet_observe_identity]].
Qed.

Ltac observing := first
  [apply allowed_matches|apply allowed_text
  |apply keeps_acts_quiet; first [apply quiet_observe_identity|apply quiet_inject|apply keeps_require_safe_directory|apply keeps_sync_directory]
  |quietly].

Lemma allowed_refused s : keeps allowed (roots_refused s).
Proof. unfold roots_refused, live_is_old, staged_is_new. keeps_auto; observing. Qed.

Lemma allowed_normal s : keeps allowed (normal_spec s).
Proof. unfold normal_spec, Replacement.absolute_normal, absolute_path, StableFile.absolute. keeps_auto. Qed.

(** ** The effects *)

Lemma allowed_directory : keeps allowed (create_directory_exclusive (journal_root spec) (transaction_id spec)).
Proof.
  unfold create_directory_exclusive, create_directory, succeeded, now. cbv zeta.
  keeps_auto; first [observing|idtac].
  apply keeps_effect_acts. intros d x d' es ([i d1] & _ & [= _ _ <-])%bind_Some. by split; [constructor|].
Qed.

Lemma allowed_write_loop fuel i data what : keeps (acts (Some i) permitted) (write_loop fuel i data what).
Proof.
  revert data. induction fuel as [|fuel IH]; intros [|c data]; simpl; keeps_auto.
  unfold write_some, now. keeps_auto. apply keeps_effect_acts.
  intros d a' d' es (d1 & _ & [= _ _ <-])%bind_Some. split; [by constructor|]. split; [by left|done].
Qed.

Lemma allowed_write k phase content :
  keeps allowed (write_new_durable_text (journal_directory /+ phase_filename k phase) content).
Proof.
  unfold write_new_durable_text. apply keeps_bind; [typeclasses eauto|observing|]. intros [] w.
  apply acts_created; [intros i; by exists k, phase|intros i|]; keeps_auto; first [apply allowed_write_loop|observing].
Qed.

Lemma allowed_move source target : required_commit_authority spec = Journal.legacy_observed →
  (source, target) = (live_root spec, retained_root spec) ∨ (source, target) = (staged_root spec, live_root spec) →
  keeps allowed (record_rename_no_replace source target).
Proof.
  intros Hl Hm. unfold record_rename_no_replace, rename_no_replace, succeeded.
  keeps_auto; first [observing|apply keeps_effect_acts].
  intros d x d' es (d1 & _ & [= _ _ <-])%bind_Some. split; [|done]. constructor; [|done]. split; [done|].
  by destruct Hm as [[= -> ->]|[= -> ->]]; [left|right].
Qed.

(** ** The session *)

Context (w0 : world).

(** The session of this specification, which has done what is permitted. *)
Definition confined_session (sw : ReplacementSession * world) : Prop :=
  spec_ (fst sw) = spec ∧ journal_path_ (fst sw) = journal_directory ∧
  (required_commit_authority spec = Journal.staged_child_bound_v1 → phase_ (fst sw) = EmptyString ∨ phase_ (fst sw) = "intent") ∧
  allowed w0 (snd sw).

Local Abbreviation confined m := (triple confined_session m (fun _ => confined_session) confined_session).

Lemma confined_host {A} (m : io A) : keeps allowed m → confined (host m).
Proof.
  intros Hm [s w] (H1 & H2 & H3 & H4). unfold host, on_snd. cbn [fst snd] in *. pose proof (Hm w) as H5.
  destruct (m w) as [[x|e] w']; (split; [done|]; split; [done|]; split; [done|]; by etransitivity).
Qed.

Lemma confined_this {A} (f : ReplacementSession → act A) :
  (∀ s, spec_ s = spec → journal_path_ s = journal_directory →
    (required_commit_authority spec = Journal.staged_child_bound_v1 → phase_ s = EmptyString ∨ phase_ s = "intent") →
    confined (f s)) → confined (this ≫= f).
Proof. intros H [s w] Hs. pose proof Hs as (H1 & H2 & H3 & _). exact (H s H1 H2 H3 (s, w) Hs). Qed.

Lemma confined_notify phase point : confined (notify phase point).
Proof. apply confined_this. intros s _ _ _. apply confined_host, keeps_acts_quiet, quiet_inject. Qed.

Lemma confined_bind {A B} (m : act A) (f : A → act B) : confined m → (∀ x, confined (f x)) → confined (m ≫= f).
Proof. intros Hm Hf. by eapply triple_bind. Qed.

Lemma confined_if {A} (bad : bool) what (m : act A) : confined m → confined (if bad then fail what else m).
Proof. intros Hm. destruct bad; [by apply triple_fail|done]. Qed.

Lemma confined_persist next : required_commit_authority spec = Journal.legacy_observed ∨ next = "intent" →
  confined (persist next).
Proof.
  intros Hn. unfold persist. apply confined_this. intros s Hs Hj _.
  apply confined_bind.
  { apply confined_bind; [by apply triple_ret|]. intros []; [by apply triple_ret|].
    apply confined_bind; [apply confined_host, keeps_acts_quiet, quiet_observe_identity|]. intros x. by apply triple_ret. }
  intros bad. apply confined_if.
  apply confined_bind; [apply confined_host; unfold previous_digest; keeps_auto; apply allowed_text|]. intros previous.
  apply confined_bind; [apply confined_notify|]. intros [].
  apply confined_bind.
  { apply confined_host. unfold write_record, normalized_roots, normalized, Replacement.absolute_normal, absolute_path,
      StableFile.absolute. rewrite Hj. keeps_auto. apply allowed_write. }
  intros []. apply confined_bind; [|intros []; apply confined_notify].
  intros [s' w'] (H1 & H2 & H3 & H4). split; [done|]. split; [done|]. split; [|done].
  cbn. intros Hb. destruct Hn as [Hn| ->]; [congruence|by right].
Qed.

Lemma bound_or_legacy : required_commit_authority spec = Journal.legacy_observed ∨
  required_commit_authority spec = Journal.staged_child_bound_v1.
Proof. destruct (required_commit_authority spec); auto. Qed.

(** A call whose phase the stronger requirement never reaches. *)
Lemma confined_enter phase e (f : ReplacementSession → act unit) : phase ≠ EmptyString → phase ≠ "intent" →
  (required_commit_authority spec = Journal.legacy_observed → ∀ s, spec_ s = spec → confined (f s)) →
  confined (s ← this; if negb (String.eqb (phase_ s) phase) then raise e else f s).
Proof.
  intros H1 H2 Hf. apply confined_this. intros s Hs _ Hb. destruct (String.eqb_spec (phase_ s) phase) as [E|E]; cbn [negb].
  - apply Hf; [|done]. destruct bound_or_legacy as [Hl|Hl]; [done|]. destruct (Hb Hl); congruence.
  - by apply triple_raise.
Qed.

Lemma confined_check (m : io bool) what (f : act unit) : keeps allowed m → confined f →
  confined (bad ← host m; if bad : bool then fail what else f).
Proof. intros Hm Hf. apply confined_bind; [by apply confined_host|]. intros bad. by apply confined_if. Qed.

Lemma confined_move_phase prepared recorded point source target (checked proven : io bool) what what' :
  required_commit_authority spec = Journal.legacy_observed → keeps allowed checked → keeps allowed proven →
  (source, target) = (live_root spec, retained_root spec) ∨ (source, target) = (staged_root spec, live_root spec) →
  confined (persist prepared;;
     bad ← host checked;
     if bad : bool then fail what
     else
       host (record_rename_no_replace source target);;
       s ← this;
       notify (phase_ s) point;;
       bad ← host proven;
       if bad : bool then fail what' else persist recorded).
Proof.
  intros Hl Hc Hp Hm. apply confined_bind; [apply confined_persist; by left|]. intros [].
  apply confined_check; [done|]. apply confined_bind; [by apply confined_host, allowed_move|]. intros [].
  apply confined_this. intros s _ _ _. apply confined_bind; [apply confined_notify|]. intros [].
  apply confined_check; [done|]. apply confined_persist. by left.
Qed.

Lemma confined_perform what : confined (perform what).
Proof.
  destruct what; cbn [perform].
  - unfold retire_old_root. apply confined_this. intros s Hs _ _. destruct (negb _); [by apply triple_raise|]. cbv zeta.
    rewrite Hs. destruct bound_or_legacy as [Hl|Hl].
    + apply confined_bind; [rewrite Hl; by apply triple_ret|]. intros [].
      apply confined_move_phase; [done| | |by left]; unfold live_is_old, staged_is_new, retained_is_old; keeps_auto; observing.
    + rewrite Hl. intros sw Hsw. exact Hsw.
  - apply confined_enter; [done|done|]. intros Hl s ->. cbv zeta.
    apply confined_move_phase; [done| | |by right]; unfold live_is_new, staged_is_new, retained_is_old; keeps_auto; observing.
  - apply confined_enter; [done|done|]. intros Hl s ->. cbv zeta. apply confined_check; [|apply confined_persist; by left].
    unfold live_is_new, retained_is_old. keeps_auto; observing.
  - apply confined_enter; [done|done|]. intros Hl s _. apply confined_persist. by left.
Qed.

(** ** Construction *)

(** Before the journal path is known. *)
Definition early (sw : ReplacementSession * world) : Prop :=
  spec_ (fst sw) = spec ∧ phase_ (fst sw) = EmptyString ∧ allowed w0 (snd sw).

Lemma early_host {A} (m : io A) : keeps allowed m → triple early (host m) (fun _ => early) (fun sw => allowed w0 (snd sw)).
Proof.
  intros Hm [s w] (H1 & H2 & H3). unfold host, on_snd. cbn [fst snd] in *. pose proof (Hm w) as H4.
  destruct (m w) as [[x|e] w']; [|by etransitivity]. split; [done|]. split; [done|]. by etransitivity.
Qed.

(** The constructor after the specification is normal. *)
Definition construct_rest : act unit :=
  bad ← host (roots_refused spec);
  if bad : bool then fail "replacement roots do not match the reviewed same-volume identities"
  else
    host (RecordIo.require_safe_directory (journal_root spec));;
    host (create_directory_exclusive (journal_root spec) (transaction_id spec));;
    identity ← host (observe_directory_identity journal_directory);
    update (with_journal journal_directory identity);;
    persist "intent".

Lemma confined_construct : triple early construct_rest (fun _ => confined_session) (fun sw => allowed w0 (snd sw)).
Proof.
  eapply triple_bind; [apply early_host, allowed_refused|]. intros []; [apply triple_fail; by intros sw (_ & _ & ?)|].
  eapply triple_bind; [apply early_host, keeps_acts_quiet, keeps_require_safe_directory|]. intros [].
  eapply triple_bind; [apply early_host, allowed_directory|]. intros [].
  eapply triple_bind; [apply early_host, keeps_acts_quiet, quiet_observe_identity|]. intros identity.
  apply (triple_bind _ _ _ (fun _ => confined_session)).
  - intros [s w] (H1 & H2 & H3). split; [done|]. split; [done|]. split; [|done]. intros _. by left.
  - intros []. eapply triple_conseq; [apply confined_persist; by right|done|done|]. by intros sw (_ & _ & _ & ?).
Qed.

End Confined.

Lemma normal_spec_reads spec w : snd (normal_spec spec w) = w.
Proof.
  assert (keeps (fun w w' : world => w' = w) (normal_spec spec)) as H; [|exact (H w)].
  assert (PreOrder (fun w w' : world => w' = w)) by (split; [done|intros ? ? ?; congruence]).
  unfold normal_spec, Replacement.absolute_normal, absolute_path, StableFile.absolute. keeps_auto.
Qed.

Lemma confined_calls spec w0 calls : triple (confined_session spec w0)
  (for_each calls (fun what => ignore_errors (perform what))) (fun _ => confined_session spec w0) (confined_session spec w0).
Proof.
  induction calls as [|what calls IH]; [by apply triple_ret|].
  apply (triple_bind _ _ _ (fun _ => confined_session spec w0)); [|intros []; exact IH].
  intros sw Hsw. pose proof (confined_perform spec w0 what sw Hsw) as H. unfold ignore_errors, otherwise.
  destruct (perform what sw) as [[[]|e] sw']; [done|]. by destruct (catchable e).
Qed.

(** C18 What a replacement session does to any host, under every interference, failure,
    injected exception and death, and whatever calls its client makes: nothing before
    the specification is resolved, and then it creates its journal directory and
    records in it, writes bytes to no file but those records, moves the live root to
    the retained name and the staged root to the live name, and nothing else; and it
    moves nothing when the specification requires the authority of a bound staged
    child, which no host has. *)
Theorem replacement_confined supplied injector calls w :
  match fst (normal_spec supplied w) with
  | Ok spec => acts None (permitted spec) w (after_exchange supplied injector calls w)
  | Throw _ => after_exchange supplied injector calls w = w
  end.
Proof.
  unfold after_exchange, exchange. pose proof (normal_spec_reads supplied w) as Hw.
  set (rest := for_each calls _).
  destruct (spec_invalid supplied) eqn:Hi.
  { assert ((construct;; rest) (unborn supplied injector, w) =
      (throw "replacement transaction identity is invalid", (unborn supplied injector, w))) as ->.
    { assert (construct (unborn supplied injector, w) =
        (throw "replacement transaction identity is invalid", (unborn supplied injector, w))) as Hc.
      { unfold construct. unfold mbind at 1, M_bind at 1. unfold this, mbind at 1, M_bind at 1, get, ret.
        cbn [fst spec_ unborn]. by rewrite Hi. }
      unfold mbind, M_bind. by rewrite Hc. }
    destruct (fst (normal_spec supplied w)); done. }
  destruct (normal_spec supplied w) as [r w'] eqn:En. cbn [fst snd] in *. subst w'.
  assert (construct (unborn supplied injector, w) = match r with
    | Ok spec => construct_rest spec (unborn spec injector, w)
    | Throw e => (Throw e, (unborn supplied injector, w))
    end) as Hc.
  { unfold construct. unfold mbind at 1, M_bind at 1. unfold this, mbind at 1, M_bind at 1, get, ret.
    cbn [fst spec_ unborn]. rewrite Hi. unfold mbind at 1, M_bind at 1, host at 1, on_snd. cbn [fst snd]. rewrite En.
    by destruct r. }
  unfold mbind, M_bind. rewrite Hc. destruct r as [spec|e]; [|done].
  pose proof (confined_construct spec w (unborn spec injector, w)) as H.
  assert (early spec w (unborn spec injector, w)) as Hearly by (split; [done|split; done]). specialize (H Hearly).
  destruct (construct_rest spec (unborn spec injector, w)) as [[[]|e] sw]; [|exact H].
  pose proof (confined_calls spec w calls sw H) as H'. fold rest in H'. destruct (rest sw) as [[[]|e] sw']; apply H'.
Qed.

End ReplacementConfined.

(** The exchange of [/p/live] for [/p/new] with its state at [/s], and the theorems
    about it at this host. *)

Module ReplacementSample.
Import Json JsonFacts Path PathFacts Effects World RecordIo RecordFacts DirectoryFacts TreeFacts.
Import SessionHost HostFacts Replacement ReplacementJournal ReplacementSnapshot ReplacementHost.
Import ReplacementSteps ReplacementComplete.

Definition sample_entries : list (name * N) :=
  [([], 1); (["p"], 2); (["p"; "live"], 3); (["p"; "live"; "app"], 4); (["p"; "new"], 5); (["p"; "new"; "app"], 6);
   (["s"], 7); (["s"; "replacement-transactions"], 8)].

Definition sample_inodes : list (N * inode) :=
  [(1, mk_inode 1 directory 0); (2, mk_inode 1 directory 0); (3, mk_inode 1 directory 0);
   (4, mk_inode 1 (regular "one") 0); (5, mk_inode 1 directory 0); (6, mk_inode 1 (regular "two") 0);
   (7, mk_inode 1 directory 0); (8, mk_inode 1 directory 0)].

Definition sample_disk : fs := listed_fs sample_entries sample_inodes.

Definition sample_plan : string := "00112233445566778899aabbccddeeff00112233445566778899aabbccddeeff".

Definition sample_spec : ReplacementSpec := Eval vm_compute in
  mk_spec "t1" "plan1" sample_plan (abs_text ["p"; "live"]) (abs_text ["p"; "new"]) (abs_text ["p"; "old"])
    (abs_text ["s"]) (dir_identity sample_disk ["p"; "live"]) (snapshot_of sample_disk ["p"; "live"])
    (dir_identity sample_disk ["p"; "new"]) (snapshot_of sample_disk ["p"; "new"]) Journal.legacy_observed.

Lemma sample_geometry : geometry sample_spec ["p"] ["s"] "live" "new" "old".
Proof.
  split; try (vm_compute; reflexivity); try (by repeat constructor).
Qed.

(** The sizes of the records, with each digest computed once. *)
Fixpoint record_sizes (spec : ReplacementSpec) (roots : RootTexts) (n k : nat) (digest : string) : list N :=
  match n with
  | O => []
  | S n =>
    let members := payload_members spec roots (N.of_nat k) (phase_at k) digest in
    let next := Sha256.sha256 (canonical (object members)) in
    size (canonical (object (fst (StdMap.emplace "journal_digest" (string_value next) members))) +:+ line_end) ::
      record_sizes spec roots n (S k) next
  end.

Lemma record_sizes_eq spec roots n : ∀ k,
  record_sizes spec roots n k (digest_after spec roots k) = map (fun k => size (record_text spec roots k)) (seq k n).
Proof. induction n as [|n IH]; intros k; [done|]. cbn [record_sizes seq map]. cbv zeta. f_equal. apply (IH (S k)). Qed.

Lemma sample_record_sizes :
  forallb (fun n => n <=? 1024 * 1024)
    (map (fun k => size (record_text sample_spec (texts ["p"] "live" "new" "old") k)) (seq 0 7)) = true.
Proof. rewrite <- record_sizes_eq. vm_cast_no_check (eq_refl true). Qed.

Lemma sample_journal_readable : journal_readable sample_spec (texts ["p"] "live" "new" "old").
Proof.
  split; [vm_compute; reflexivity|]. intros k Hk. pose proof sample_record_sizes as H. rewrite forallb_forall in H.
  apply N.leb_le, H, in_map_iff. exists k. split; [done|]. apply in_seq. lia.
Qed.

Lemma sample_tree : tree_ok sample_disk.
Proof.
  apply listed_tree_ok. repeat constructor; vm_compute; try discriminate; by eexists || by left || by right.
Qed.

Lemma sample_relatives n r : relatives sample_disk n = r → snapshot_fits sample_disk n ↔
  Forall (plain_entry sample_disk n) r ∧ N.of_nat (length r) <= maximum_snapshot_entries ∧
  total (map (bytes_of sample_disk n) r) <= maximum_snapshot_bytes.
Proof. intros <-. done. Qed.

Lemma sample_old : old_at sample_spec sample_disk ["p"; "live"].
Proof.
  split; [vm_compute; reflexivity|]. split; [vm_compute; reflexivity|]. split; [|vm_compute; reflexivity].
  apply (sample_relatives _ [["app"]]); [vm_compute; reflexivity|]. split; [|split; vm_compute; discriminate].
  constructor; [|done]. exists 4, 1, (regular "one"), 0. split; [vm_compute; reflexivity|]. right.
  exists "one". split; [done|vm_compute; reflexivity].
Qed.

Lemma sample_new : new_at sample_spec sample_disk ["p"; "new"].
Proof.
  split; [vm_compute; reflexivity|]. split; [vm_compute; reflexivity|]. split; [|vm_compute; reflexivity].
  apply (sample_relatives _ [["app"]]); [vm_compute; reflexivity|]. split; [|split; vm_compute; discriminate].
  constructor; [|done]. exists 6, 1, (regular "two"), 0. split; [vm_compute; reflexivity|]. right.
  exists "two". split; [done|vm_compute; reflexivity].
Qed.

Lemma sample_starting : starting sample_spec ["p"] ["s"] "live" "new" "old" sample_disk.
Proof.
  split; [apply sample_tree|]. split; [|vm_compute; reflexivity].
  split; [apply sample_old|]. split; [apply sample_new|vm_compute; reflexivity].
Qed.

(** A host on which nothing else acts, every third call fails and the process dies at
    the hundredth. *)
Definition failing_world (d : fs) : world :=
  mk_world d [] 0 (fun _ d => d) (fun n => (n =? 100)%nat) (fun n => (n mod 3 =? 2)%nat) (fun n => N.of_nat n)
    (fun n => 1767225600 + N.of_nat n) "/".

Lemma replacement_recoverable_witness :
  calm (failing_world sample_disk) ∧
  ∃ l r, roots_at sample_spec ["p"] "live" "new" "old"
      (disk (after_exchange sample_spec None [retire; activate; publish; complete] (failing_world sample_disk))) l ∧
    says sample_spec ["p"] "live" "new" "old" l r.
Proof.
  split; [done|].
  destruct (replacement_recoverable sample_spec ["p"] ["s"] "live" "new" "old" sample_geometry sample_journal_readable
    None [retire; activate; publish; complete] (failing_world sample_disk)) as (l & r & H1 & H2 & _).
  - done.
  - exact sample_starting.
  - exists l, r. split; assumption.
Defined.

Lemma sample_acceptable : acceptable sample_spec.
Proof. repeat split; vm_compute; reflexivity. Qed.

Lemma sample_ready : ready sample_spec ["p"] ["s"] "live" "new" "old" sample_disk.
Proof. split; [apply sample_starting|]. repeat split; vm_compute; reflexivity. Qed.

Lemma replacement_completes_witness :
  ∃ s w', whole_exchange (unborn sample_spec None, quiet_world sample_disk) = (Ok tt, (s, w')) ∧ phase_ s = "completed".
Proof.
  destruct (replacement_completes sample_spec ["p"] ["s"] "live" "new" "old" sample_geometry sample_journal_readable
    (quiet_world sample_disk) sample_acceptable (quiet_world_quiet _) sample_ready) as (s & w' & H1 & H2 & _).
  exists s, w'. split; assumption.
Defined.

(** ** Runs of the model *)

(** The phase of the session, the files under [/p], and the verdict of an inspection. *)
Definition report (r : result unit * (ReplacementSession * world)) : bool * string * list name * string :=
  let '(outcome, (s, w)) := r in
  (is_ok outcome, phase_ s, filter (fun n => below ["p"] n = true) (map fst (map_to_list (entries (disk w)))),
   match fst (inspect sample_spec (quiet_world (disk w))) with Ok found => disposition found | Throw _ => EmptyString end).

Example exchange_completes : report (whole_exchange (unborn sample_spec None, quiet_world sample_disk)) =
  (true, "completed", [["p"; "live"; "app"]; ["p"; "old"; "app"]; ["p"; "live"]; ["p"; "old"]], "completed").
Proof. vm_cast_no_check (eq_refl (true, "completed",
  [["p"; "live"; "app"]; ["p"; "old"; "app"]; ["p"; "live"]; ["p"; "old"]], "completed")). Qed.

End ReplacementSample.
