(* ===== verification/Archive.v ===== *)
(** Archive inspection: the bounded reader of ZIP archives of
    [runtime/setup/package/usk_archive_inspect.cpp], up to the command.  A byte
    vector is a string, and a function that only computes on bytes already read is
    pure. *)

From Stdlib Require Import Ascii String NArith ZArith Lia.
From stdpp Require Import base list strings gmap sets.
From S2P Require Import Prelude Effects Sha256 StdMap Json Path World RecordIo TextFacts.

Module Archive.
Import Json Path Effects World RecordIo SortFacts.

(** ** Limits and data *)

Definition max_request_bytes : N := 64 * 1024.
Definition max_request_string_bytes : N := 32768.
Definition max_request_values : N := 32.
Definition max_name_bytes : N := 4096.
Definition max_central_directory_bytes : N := 64 * 1024 * 1024.
Definition max_archive_bytes : N := 2 ^ 40.
Definition max_inspection_elapsed_ms : N := 10 * 60 * 1000.
Definition max_request_entries : N := 100000.
Definition max_request_uncompressed_bytes : N := 2 ^ 40.
Definition max_request_entry_bytes : N := 2 ^ 38.
Definition max_request_depth : N := 256.
Definition max_request_ratio : N := 100000.

Record Budgets := mk_budgets {
  max_entries : N;
  max_uncompressed_bytes : N;
  max_entry_bytes : N;
  max_depth : N;
  max_ratio : N;
  max_elapsed_ms : N }.

Record ArchiveRequest := mk_request { archive_path : path; request_budgets : Budgets }.

Record Entry := mk_entry {
  normalized_path : string;
  directory : bool;
  compressed_size : N;
  uncompressed_size : N;
  compression_method : N;
  crc32 : N;
  local_header_offset : N;
  data_offset : N;
  data_end : N }.

Record Inspection := mk_inspection {
  inspected_path : path;
  identity : StableFile.StableFileIdentity;
  source_sha256 : string;
  entry_set_digest_ : string;
  inspected_at : string;
  budgets : Budgets;
  entries : list Entry;
  file_count : N;
  directory_count : N;
  compressed_bytes : N;
  uncompressed_bytes : N }.

(** ** The request *)

Definition require_exact_members (v : value) (names : list string) (object_name : string) : result unit :=
  match v with
  | object members =>
    match List.find (fun member => negb (StdMap.set_mem (fst member) names)) members with
    | Some member => throw (object_name +:+ " has an unexpected member: " +:+ fst member)
    | None =>
      match List.find (fun name => negb (contains v name)) (sort_names names) with
      | Some name => throw (object_name +:+ " is missing required member: " +:+ name)
      | None => Ok tt
      end
    end
  | _ => throw (object_name +:+ " must be a JSON object")
  end.

Definition require_string (v : value) (key : string) : result string :=
  found ← at_ v key;
  match found with
  | string_value s => Ok s
  | _ => throw ("archive inspection request field must be a string: " +:+ key)
  end.

Definition require_bounded_unsigned (v : value) (key : string) (maximum : N) : result N :=
  found ← at_ v key;
  match found with
  | unsigned_integer n =>
    if maximum <? n then throw ("numeric request field exceeds its hard limit: " +:+ key)
    else if n =? 0 then throw ("numeric request field is outside its allowed range: " +:+ key)
    else Ok n
  | _ => throw ("numeric request field must be an unsigned integer: " +:+ key)
  end.

Definition request_limits : ParseLimits :=
  mk_limits max_request_bytes 2 max_request_values max_request_string_bytes.

Definition request_members : list string := ["schema"; "archive_path"; "archive_format"; "budgets"].

Definition budget_members : list string :=
  ["max_entries"; "max_uncompressed_bytes"; "max_entry_bytes"; "max_depth"; "max_ratio"; "max_elapsed_ms"].

Definition parse_budgets (v : value) : result Budgets :=
  require_exact_members v budget_members "archive inspection request budgets";;
  entries ← require_bounded_unsigned v "max_entries" max_request_entries;
  uncompressed ← require_bounded_unsigned v "max_uncompressed_bytes" max_request_uncompressed_bytes;
  entry ← require_bounded_unsigned v "max_entry_bytes" max_request_entry_bytes;
  depth ← require_bounded_unsigned v "max_depth" max_request_depth;
  ratio ← require_bounded_unsigned v "max_ratio" max_request_ratio;
  elapsed ← require_bounded_unsigned v "max_elapsed_ms" max_inspection_elapsed_ms;
  Ok (mk_budgets entries uncompressed entry depth ratio elapsed).

Definition parse_archive_request (text : string) : result ArchiveRequest :=
  request ← parse text request_limits;
  require_exact_members request request_members "archive inspection request";;
  schema ← require_string request "schema";
  throw_if (negb (String.eqb schema "usk.archive_inspect_request.v1"))
    "unsupported archive inspection request schema";;
  format ← require_string request "archive_format";
  throw_if (negb (String.eqb format "zip")) "WU3 supports only explicitly declared ZIP archives";;
  archive ← require_string request "archive_path";
  throw_if (is_empty archive) "archive_path is required";;
  throw_if (contains_nul archive) "archive_path contains an embedded NUL";;
  throw_if (max_request_string_bytes <? size archive) "archive_path exceeds its hard length limit";;
  budgets_value ← at_ request "budgets";
  budgets ← parse_budgets budgets_value;
  resolved ← require_normalized_absolute_local_path_utf8 archive "archive_path";
  Ok (mk_request resolved budgets).

(** ** Little-endian numbers *)

(** [data[offset]]; the callers have checked the bound. *)
Definition byte_at (data : string) (offset : N) : N :=
  match str_drop (N.to_nat offset) data with String c _ => code c | EmptyString => 0 end.

Definition truncated (data : string) (offset count : N) : bool :=
  (size data <=? offset) || (size data - offset <? count).

Definition little16 (data : string) (offset : N) : result N :=
  if truncated data offset 2 then throw "ZIP structure is truncated"
  else Ok (N.lor (byte_at data offset) (N.shiftl (byte_at data (offset + 1)) 8)).

Definition little32 (data : string) (offset : N) : result N :=
  if truncated data offset 4 then throw "ZIP structure is truncated"
  else Ok (N.lor (N.lor (N.lor (byte_at data offset) (N.shiftl (byte_at data (offset + 1)) 8))
    (N.shiftl (byte_at data (offset + 2)) 16)) (N.shiftl (byte_at data (offset + 3)) 24)).

Definition little64 (data : string) (offset : N) : result N :=
  if truncated data offset 8 then throw "ZIP structure is truncated"
  else
    low ← little32 data offset;
    high ← little32 data (offset + 4);
    Ok (N.lor low (N.shiftl high 32)).

(** ** Entry paths *)

Definition windows_reserved_name (segment : string) : bool :=
  let base := lowercase (stem segment) in
  existsb (String.eqb base) ["con"; "prn"; "aux"; "nul"; "clock$"] ||
  ((size base =? 4) && (String.prefix "com" base || String.prefix "lpt" base) &&
   (49 <=? byte_at base 3) && (byte_at base 3 <=? 57)).

Definition is_separator (c : ascii) : bool := Ascii.eqb c slash || Ascii.eqb c backslash.

Definition check_segment (segment : string) : result unit :=
  throw_if (String.eqb segment "." || String.eqb segment "..")
    "archive entry path contains traversal or dot segments";;
  throw_if (ends_with (ascii_of_N 46) segment || ends_with (ascii_of_N 32) segment ||
      windows_reserved_name segment)
    "archive entry path contains a reserved or ambiguous Windows name".

(** The loop over the characters and the end. *)
Fixpoint split_segments (raw : string) (trailing : bool) (segments : list string) (segment : string)
    : result (list string) :=
  match raw with
  | EmptyString =>
    if is_empty segment then
      if trailing && negb (bool_decide (segments = [])) then Ok segments
      else throw "archive entry path contains an empty or ambiguous segment"
    else check_segment segment;; Ok (segments ++ [segment])
  | String c rest =>
    if is_separator c then
      if is_empty segment then throw "archive entry path contains an empty or ambiguous segment"
      else check_segment segment;; split_segments rest trailing (segments ++ [segment]) EmptyString
    else if Ascii.eqb c (ascii_of_N 58)
    then throw "archive entry path contains an alternate-data-stream separator"
    else split_segments rest trailing segments (push_back segment c)
  end.

Definition absolute_like (raw : string) : bool :=
  match raw with
  | String a rest => is_separator a || (is_alpha a && match rest with String b _ => code b =? 58 | _ => false end)
  | EmptyString => false
  end.

(** The normalized path and [trailing_separator]. *)
Definition normalize_path (raw : string) (depth : N) : result (string * bool) :=
  throw_if (is_empty raw || (max_name_bytes <? size raw))
    "archive entry path is empty or exceeds the name budget";;
  throw_if (negb (forall_bytes (fun ch => (0x20 <=? code ch) && (code ch <? 0x7f)) raw))
    "archive entry path requires unsupported Unicode normalization";;
  throw_if (absolute_like raw) "archive entry path is absolute, drive-qualified, or UNC-like";;
  let trailing := ends_with slash raw || ends_with backslash raw in
  segments ← split_segments raw trailing [] EmptyString;
  throw_if (bool_decide (segments = []) || (depth <? N.of_nat (length segments)))
    "archive entry path exceeds the depth budget";;
  Ok (join_names segments, trailing).

(** ** Extra fields *)

Record Zip64Extra := mk_zip64 {
  present : bool;
  zip64_uncompressed : N;
  zip64_compressed : N;
  zip64_offset : N;
  zip64_disk : N }.

(** Which fields the header leaves to the extra field. *)
Record Needs := mk_needs {
  needs_uncompressed_size : bool;
  needs_compressed_size : bool;
  needs_local_header_offset : bool;
  needs_disk_start : bool }.

Definition needs_any (needs : Needs) : bool :=
  needs_uncompressed_size needs || needs_compressed_size needs || needs_local_header_offset needs ||
  needs_disk_start needs.

(** One value of the ZIP64 field: the value and the next offset. *)
Definition take_value (read : string → N → result N) (width : N) (needed : bool) (what : string)
    (data : string) (offset field_end : N) : result (N * N) :=
  if needed then
    if field_end - offset <? width then throw ("ZIP64 extra field is missing " +:+ what)
    else v ← read data offset; Ok (v, offset + width)
  else Ok (0, offset).

Definition parse_zip64 (data : string) (offset field_end : N) (needs : Needs) : result Zip64Extra :=
  throw_if (negb (needs_any needs)) "ZIP64 extra field is present when no sentinel requires it";;
  '(uncompressed, offset) ← take_value little64 8 (needs_uncompressed_size needs) "uncompressed size" data offset field_end;
  '(compressed, offset) ← take_value little64 8 (needs_compressed_size needs) "compressed size" data offset field_end;
  '(local, offset) ← take_value little64 8 (needs_local_header_offset needs) "local-header offset" data offset field_end;
  '(disk, offset) ← take_value little32 4 (needs_disk_start needs) "disk number" data offset field_end;
  throw_if (negb (offset =? field_end)) "ZIP64 extra field contains ambiguous trailing values";;
  Ok (mk_zip64 true uncompressed compressed local disk).

Definition no_zip64 : Zip64Extra := mk_zip64 false 0 0 0 0.

(** [while (offset < end)]: every round takes at least four bytes. *)
Fixpoint extra_loop (fuel : nat) (data : string) (offset end_ : N) (needs : Needs)
    (identifiers : list N) (zip64 : Zip64Extra) : result Zip64Extra :=
  if offset <? end_ then
    match fuel with
    | O => Throw out_of_fuel
    | S fuel =>
      throw_if (end_ - offset <? 4) "ZIP extra field header is truncated";;
      identifier ← little16 data offset;
      field_size ← little16 data (offset + 2);
      let offset := offset + 4 in
      throw_if ((end_ - offset <? field_size) || bool_decide (identifier ∈ identifiers))
        "ZIP extra fields are truncated or duplicated";;
      let field_end := offset + field_size in
      if identifier =? 0x0001 then
        zip64 ← parse_zip64 data offset field_end needs;
        extra_loop fuel data field_end end_ needs (identifier :: identifiers) zip64
      else if (identifier =? 0x7075) || (identifier =? 0x9901)
      then throw "alternate Unicode paths and AES metadata are unsupported"
      else extra_loop fuel data field_end end_ needs (identifier :: identifiers) zip64
    end
  else Ok zip64.

Definition parse_extra_fields (data : string) (offset count : N) (needs : Needs) : result Zip64Extra :=
  throw_if ((size data <? offset) || (size data - offset <? count)) "ZIP extra field range is truncated";;
  zip64 ← extra_loop (S (N.to_nat count)) data offset (offset + count) needs [] no_zip64;
  throw_if (needs_any needs && negb (present zip64)) "ZIP64 sentinel has no ZIP64 extra field";;
  Ok zip64.

Definition add_checked (total v maximum : N) (name : string) : result N :=
  if (maximum <? v) || (maximum - v <? total)
  then throw (name +:+ " exceeds its archive inspection budget")
  else Ok (total + v).

(** ** The set of entries *)

(** The texts before each separator. *)
Fixpoint ancestors (before key : string) : list string :=
  match key with
  | EmptyString => []
  | String c rest =>
    let rest := ancestors (push_back before c) rest in
    if Ascii.eqb c slash then before :: rest else rest
  end.

(** [paths.lower_bound(prefix)] starts with [prefix]. *)
Definition has_child (paths : list (string * bool)) (prefix : string) : bool :=
  match List.find (fun p => negb (string_ltb (fst p) prefix)) paths with
  | Some p => String.prefix prefix (fst p)
  | None => false
  end.

Definition validate_path_collision (paths : list (string * bool)) (normalized : string) (is_directory : bool)
    : result (list (string * bool)) :=
  let key := lowercase normalized in
  let '(paths, inserted) := StdMap.emplace key is_directory paths in
  throw_if (negb inserted) "archive contains duplicate or case-insensitive-colliding paths";;
  throw_if (existsb (fun ancestor => match StdMap.find ancestor paths with Some d => negb d | None => false end)
      (ancestors EmptyString key)) "archive path descends through an entry declared as a file";;
  throw_if (negb is_directory && has_child paths (key +:+ "/"))
    "archive file path collides with an existing directory subtree";;
  Ok paths.

Definition nul : string := String Ascii.zero EmptyString.
Definition newline : string := String (ascii_of_N 10) EmptyString.

Definition entry_line (entry : Entry) : string :=
  (if directory entry then "directory" else "file") +:+ nul +:+ normalized_path entry +:+ nul +:+
  to_string (uncompressed_size entry) +:+ nul +:+ to_string (compressed_size entry) +:+ nul +:+
  to_string (crc32 entry) +:+ nul +:+ to_string (compression_method entry) +:+ newline.

Definition entry_set_digest (list_ : list Entry) : result string :=
  hash ← fold_result (fun hash entry => Sha256.update hash (entry_line entry)) Sha256.initial list_;
  '(hex, _) ← Sha256.finish hash;
  Ok hex.

(** ** Time *)

(** The steady clock in milliseconds and the caller's cancellation, which see the
    moment of the call. *)
Record Timer := mk_timer { steady : nat → N; cancellation : option (nat → bool) }.

Definition no_cancellation (t : Timer) : Timer := mk_timer (steady t) None.

Definition check_cancelled (t : Timer) : io unit :=
  match cancellation t with
  | None => ret tt
  | Some cancelled =>
    step;;
    w ← get;
    if cancelled (steps w) then fail "archive streaming operation was cancelled" else ret tt
  end.

Definition steady_now (t : Timer) : io N := step;; w ← get; ret (steady t (steps w)).

Definition check_deadline (t : Timer) (deadline : N) (what : string) : io unit :=
  now ← steady_now t;
  if deadline <? now then fail what else ret tt.

Definition hashing_expired : string := "archive inspection exceeded the elapsed-time budget while hashing".

Fixpoint hash_until_loop (t : Timer) (deadline : N) (source : StableFile.StableFile) (fuel : nat) (offset : N)
    (hash : Sha256.Sha256) : io Sha256.Sha256 :=
  let bytes := StableFile.size_bytes (StableFile.identity_ source) in
  if offset <? bytes then
    match fuel with
    | O => raise out_of_fuel
    | S fuel =>
      check_cancelled t;;
      check_deadline t deadline hashing_expired;;
      let count := N.min (64 * 1024) (bytes - offset) in
      data ← StableFile.read source offset count;
      hash ← lift (Sha256.update hash data);
      hash_until_loop t deadline source fuel (offset + count) hash
    end
  else ret hash.

Definition hash_source_until (t : Timer) (source : StableFile.StableFile) (deadline : N) : io string :=
  let bytes := StableFile.size_bytes (StableFile.identity_ source) in
  hash ← hash_until_loop t deadline source (S (N.to_nat (bytes / (64 * 1024)))) 0 Sha256.initial;
  check_cancelled t;;
  check_deadline t deadline hashing_expired;;
  '(hex, _) ← lift (Sha256.finish hash);
  ret hex.

(** ** The end of the central directory *)

(** The search from the end of [tail]: the position tried first is [position - 1]. *)
Fixpoint find_eocd (tail : string) (position : nat) : result (option N) :=
  match position with
  | O => Ok None
  | S position =>
    let here := N.of_nat position in
    signature ← little32 tail here;
    if signature =? 0x06054b50 then
      comment_length ← little16 tail (here + 20);
      if here + 22 + comment_length =? size tail then Ok (Some here) else find_eocd tail position
    else find_eocd tail position
  end.

(** The counts and the extent of the central directory. *)
Record EndRecord := mk_end {
  entries_on_disk : N;
  entry_count : N;
  central_size : N;
  central_offset : N }.

Definition classic_end (tail : string) (eocd : N) : result EndRecord :=
  disk ← little16 tail (eocd + 4);
  bad ← (if negb (disk =? 0) then Ok true else central_disk ← little16 tail (eocd + 6); Ok (negb (central_disk =? 0)));
  throw_if bad "multi-disk ZIP archives are unsupported";;
  on_disk ← little16 tail (eocd + 8);
  count ← little16 tail (eocd + 10);
  csize ← little32 tail (eocd + 12);
  offset ← little32 tail (eocd + 16);
  Ok (mk_end on_disk count csize offset).

Definition needs_zip64 (classic : EndRecord) : bool :=
  (entries_on_disk classic =? 0xffff) || (entry_count classic =? 0xffff) ||
  (central_size classic =? 0xffffffff) || (central_offset classic =? 0xffffffff).

(** The record offset that the locator names. *)
Definition locate_zip64 (locator : string) (eocd_offset : N) : result N :=
  disk ← little32 locator 4;
  bad ← (if negb (disk =? 0) then Ok true else disks ← little32 locator 16; Ok (negb (disks =? 1)));
  throw_if bad "ZIP64 locator declares a multi-disk archive";;
  offset ← little64 locator 8;
  throw_if ((eocd_offset - 20 <? offset) || (eocd_offset - 20 - offset <? 56)) "ZIP64 end record offset is invalid";;
  Ok offset.

Definition end_disagrees (classic zip64 : EndRecord) : bool :=
  (negb (entries_on_disk classic =? 0xffff) && negb (entries_on_disk classic =? entries_on_disk zip64)) ||
  (negb (entry_count classic =? 0xffff) && negb (entry_count classic =? entry_count zip64)) ||
  (negb (central_size classic =? 0xffffffff) && negb (central_size classic =? central_size zip64)) ||
  (negb (central_offset classic =? 0xffffffff) && negb (central_offset classic =? central_offset zip64)).

Definition zip64_end (classic : EndRecord) (zip64 : string) (offset eocd_offset : N) : result EndRecord :=
  record_size ← little64 zip64 4;
  signature ← little32 zip64 0;
  throw_if (negb (signature =? 0x06064b50) || negb (record_size =? 44) ||
      negb (offset + 12 + record_size =? eocd_offset - 20))
    "ZIP64 end-of-central-directory record is malformed";;
  disk ← little32 zip64 16;
  bad ← (if negb (disk =? 0) then Ok true else central_disk ← little32 zip64 20; Ok (negb (central_disk =? 0)));
  throw_if bad "ZIP64 end record declares a multi-disk archive";;
  on_disk ← little64 zip64 24;
  count ← little64 zip64 32;
  csize ← little64 zip64 40;
  central ← little64 zip64 48;
  let record := mk_end on_disk count csize central in
  throw_if (negb (on_disk =? count)) "ZIP64 central-directory entry counts disagree";;
  throw_if (end_disagrees classic record) "classic and ZIP64 end records disagree";;
  Ok record.

Definition end_invalid (b : Budgets) (record : EndRecord) (central_end : N) : bool :=
  (entry_count record =? 0) || (max_entries b <? entry_count record) ||
  (max_central_directory_bytes <? central_size record) ||
  (central_end <? central_offset record) ||
  (central_end - central_offset record <? central_size record) ||
  negb (central_offset record + central_size record =? central_end) ||
  negb (entries_on_disk record =? entry_count record).

(** ** One central record *)

Record CentralRecord := mk_central {
  flags : N;
  method : N;
  record_crc32 : N;
  compressed : N;
  uncompressed : N;
  raw_name : string;
  local_offset : N;
  external_attributes : N;
  record_size : N }.

Definition name_size (r : CentralRecord) : N := size (raw_name r).

Definition unsupported_flags (flags method : N) : bool :=
  negb (N.land flags (N.lxor 0xffff (if method =? 8 then 0x0806 else 0x0800)) =? 0).

(** The fields of the record at [position], with the ZIP64 values. *)
Definition central_record (central : string) (position : N) : result CentralRecord :=
  signature ← little32 central position;
  throw_if (negb (signature =? 0x02014b50) || (size central - position <? 46))
    "ZIP central-directory entry is truncated or malformed";;
  flags ← little16 central (position + 8);
  method ← little16 central (position + 10);
  crc ← little32 central (position + 16);
  compressed32 ← little32 central (position + 20);
  uncompressed32 ← little32 central (position + 24);
  name_bytes ← little16 central (position + 28);
  extra_bytes ← little16 central (position + 30);
  comment_bytes ← little16 central (position + 32);
  disk16 ← little16 central (position + 34);
  attributes ← little32 central (position + 38);
  local32 ← little32 central (position + 42);
  let record_bytes := 46 + name_bytes + extra_bytes + comment_bytes in
  throw_if ((size central - position <? record_bytes) || (name_bytes =? 0))
    "ZIP central-directory variable fields are truncated";;
  throw_if (negb (method =? 0) && negb (method =? 8)) "ZIP entry uses an unsupported compression method";;
  throw_if (unsupported_flags flags method)
    "ZIP entry uses encrypted, streamed, patched, masked, multi-disk, or unsupported flags";;
  let name := str_take (N.to_nat name_bytes) (str_drop (N.to_nat (position + 46)) central) in
  let needs := mk_needs (uncompressed32 =? 0xffffffff) (compressed32 =? 0xffffffff) (local32 =? 0xffffffff)
    (disk16 =? 0xffff) in
  zip64 ← parse_extra_fields central (position + 46 + name_bytes) extra_bytes needs;
  let disk := if needs_disk_start needs then zip64_disk zip64 else disk16 in
  throw_if (negb (disk =? 0)) "ZIP entry declares a nonzero or multi-disk start";;
  Ok (mk_central flags method crc
    (if needs_compressed_size needs then zip64_compressed zip64 else compressed32)
    (if needs_uncompressed_size needs then zip64_uncompressed zip64 else uncompressed32)
    name (if needs_local_header_offset needs then zip64_offset zip64 else local32) attributes record_bytes).

Definition unix_type (r : CentralRecord) : N := N.land (N.shiftr (external_attributes r) 16) 0xf000.

(** The normalized path and whether the entry is a directory. *)
Definition classify_entry (b : Budgets) (r : CentralRecord) : result (string * bool) :=
  let unix_directory := unix_type r =? 0x4000 in
  let unix_regular := (unix_type r =? 0x8000) || (unix_type r =? 0) in
  throw_if (negb unix_directory && negb unix_regular)
    "ZIP entry is a link, device, socket, or unsupported Unix file type";;
  throw_if (negb (N.land (external_attributes r) 0x440 =? 0)) "ZIP entry declares reparse-like or device attributes";;
  '(normalized, trailing) ← normalize_path (raw_name r) (max_depth b);
  let dos_directory := negb (N.land (external_attributes r) 0x10 =? 0) in
  let is_directory := trailing || unix_directory || dos_directory in
  throw_if (((unix_type r =? 0x8000) && is_directory) ||
      (is_directory && (negb (compressed r =? 0) || negb (uncompressed r =? 0) || negb (method r =? 0))))
    "ZIP directory and file metadata disagree";;
  Ok (normalized, is_directory).

(** The totals: uncompressed and compressed bytes, files and directories. *)
Record Totals := mk_totals {
  total_uncompressed : N;
  total_compressed : N;
  total_files : N;
  total_directories : N }.

Definition account (b : Budgets) (r : CentralRecord) (is_directory : bool) (t : Totals) : result Totals :=
  if is_directory
  then Ok (mk_totals (total_uncompressed t) (total_compressed t) (total_files t) (total_directories t + 1))
  else
    throw_if ((max_entry_bytes b <? uncompressed r) || (max_archive_bytes <? compressed r))
      "ZIP entry exceeds the per-entry size budget";;
    throw_if (negb (uncompressed r =? 0) && (compressed r =? 0))
      "ZIP entry declares an unbounded compression ratio";;
    throw_if (negb (compressed r =? 0) && (compressed r * max_ratio b <? uncompressed r))
      "ZIP entry exceeds the compression-ratio budget";;
    un ← add_checked (total_uncompressed t) (uncompressed r) (max_uncompressed_bytes b) "total uncompressed size";
    co ← add_checked (total_compressed t) (compressed r) max_archive_bytes "total compressed size";
    Ok (mk_totals un co (total_files t + 1) (total_directories t)).

(** ** The local header *)

(** The size of the local extra field, when the headers agree. *)
Definition check_local_header (r : CentralRecord) (header : string) : result N :=
  signature ← little32 header 0;
  bad ← or_else (Ok (negb (signature =? 0x04034b50)))
    (or_else (x ← little16 header 6; Ok (negb (x =? flags r)))
    (or_else (x ← little16 header 8; Ok (negb (x =? method r)))
    (or_else (x ← little32 header 14; Ok (negb (x =? record_crc32 r)))
      (x ← little16 header 26; Ok (negb (x =? name_size r))))));
  throw_if bad "ZIP local and central headers disagree";;
  little16 header 28.

(** The local name and sizes agree with the central ones. *)
Definition check_local_variables (r : CentralRecord) (compressed32 uncompressed32 extra_size : N) (variables : string)
    : result unit :=
  throw_if (negb (String.eqb (str_take (N.to_nat (name_size r)) variables) (raw_name r)))
    "ZIP local and central entry names disagree";;
  let needs := mk_needs (uncompressed32 =? 0xffffffff) (compressed32 =? 0xffffffff) false false in
  zip64 ← parse_extra_fields variables (name_size r) extra_size needs;
  throw_if (negb ((if needs_compressed_size needs then zip64_compressed zip64 else compressed32) =? compressed r) ||
      negb ((if needs_uncompressed_size needs then zip64_uncompressed zip64 else uncompressed32) =? uncompressed r))
    "ZIP local and central sizes disagree".

Definition read_local (source : StableFile.StableFile) (central_offset : N) (r : CentralRecord)
    (normalized : string) (is_directory : bool) : io Entry :=
  if (central_offset <=? local_offset r) || (central_offset - local_offset r <? 30)
  then fail "ZIP local header offset overlaps the central directory"
  else
    header ← StableFile.read source (local_offset r) 30;
    compressed32 ← lift (little32 header 18);
    uncompressed32 ← lift (little32 header 22);
    extra_size ← lift (check_local_header r header);
    let variable_size := name_size r + extra_size in
    if central_offset - local_offset r - 30 <? variable_size
    then fail "ZIP local header variable fields overlap the central directory"
    else
      variables ← StableFile.read source (local_offset r + 30) variable_size;
      lift (check_local_variables r compressed32 uncompressed32 extra_size variables);;
      let offset := local_offset r + 30 + variable_size in
      if (central_offset <? offset) || (central_offset - offset <? compressed r)
      then fail "ZIP entry payload overlaps the central directory"
      else ret (mk_entry normalized is_directory (compressed r) (uncompressed r) (method r) (record_crc32 r)
        (local_offset r) offset (offset + compressed r)).

(** ** The loop over the central directory *)

Record Progress := mk_progress {
  position : N;
  normalized_paths : list (string * bool);
  totals : Totals;
  collected : list Entry }.

Definition started : Progress := mk_progress 0 [] (mk_totals 0 0 0 0) [].

Definition inspection_expired : string := "archive inspection exceeded the elapsed-time budget".

(** What an iteration computes of the central record. *)
Definition central_step (b : Budgets) (central : string) (p : Progress)
    : result (CentralRecord * string * bool * Totals * list (string * bool)) :=
  r ← central_record central (position p);
  '(normalized, is_directory) ← classify_entry b r;
  totals ← account b r is_directory (totals p);
  paths ← validate_path_collision (normalized_paths p) normalized is_directory;
  Ok (r, normalized, is_directory, totals, paths).

Definition inspect_entry (t : Timer) (deadline : N) (b : Budgets) (source : StableFile.StableFile)
    (central : string) (central_offset : N) (p : Progress) : io Progress :=
  check_cancelled t;;
  check_deadline t deadline inspection_expired;;
  '(r, normalized, is_directory, totals, paths) ← lift (central_step b central p);
  entry ← read_local source central_offset r normalized is_directory;
  ret (mk_progress (position p + record_size r) paths totals (collected p ++ [entry])).

Fixpoint inspect_entries (t : Timer) (deadline : N) (b : Budgets) (source : StableFile.StableFile)
    (central : string) (central_offset : N) (count : nat) (p : Progress) : io Progress :=
  match count with
  | O => ret p
  | S count =>
    p ← inspect_entry t deadline b source central central_offset p;
    inspect_entries t deadline b source central central_offset count p
  end.

(** ** The physical order *)

Definition by_offset (left right : Entry) : bool := local_header_offset left <? local_header_offset right.
Definition by_path (left right : Entry) : bool := string_ltb (normalized_path left) (normalized_path right).

Fixpoint contiguous (previous : Entry) (l : list Entry) (central_offset : N) : result unit :=
  match l with
  | [] =>
    throw_if (negb (data_end previous =? central_offset))
      "ZIP local entries leave ambiguous bytes before the central directory"
  | e :: l =>
    throw_if (negb (data_end previous =? local_header_offset e))
      "ZIP entry ranges overlap or contain ambiguous unclaimed bytes";;
    contiguous e l central_offset
  end.

Definition check_ranges (l : list Entry) (central_offset : N) : result unit :=
  match sort_by by_offset l with
  | [] => throw "ZIP archive contains a preamble or has no entry at offset zero"
  | e :: l =>
    throw_if (negb (local_header_offset e =? 0)) "ZIP archive contains a preamble or has no entry at offset zero";;
    contiguous e l central_offset
  end.

(** ** The inspection *)

(** The tail, the end record and the end of the central directory. *)
Definition read_end (source : StableFile.StableFile) : io (EndRecord * N) :=
  let bytes := StableFile.size_bytes (StableFile.identity_ source) in
  let tail_size := N.min bytes (22 + 65535) in
  let tail_offset := bytes - tail_size in
  tail ← StableFile.read source tail_offset tail_size;
  found ← lift (if 22 <=? size tail then find_eocd tail (N.to_nat (size tail - 22 + 1)) else Ok None);
  match found with
  | None => fail "ZIP end-of-central-directory record is missing or ambiguous"
  | Some eocd =>
    classic ← lift (classic_end tail eocd);
    let eocd_offset := tail_offset + eocd in
    locator ← (if 20 <=? eocd_offset
      then data ← StableFile.read source (eocd_offset - 20) 20; ret (Some data) else ret None);
    has_locator ← lift (match locator with
      | Some data => signature ← little32 data 0; Ok (signature =? 0x07064b50)
      | None => Ok false end);
    if needs_zip64 classic || has_locator : bool then
      match locator, has_locator with
      | Some data, true =>
        offset ← lift (locate_zip64 data eocd_offset);
        zip64 ← StableFile.read source offset 56;
        record ← lift (zip64_end classic zip64 offset eocd_offset);
        ret (record, offset)
      | _, _ => fail "ZIP64 locator is missing"
      end
    else ret (classic, eocd_offset)
  end.

Definition inspect_zip (t : Timer) (request : string) : io Inspection :=
  parsed ← lift (parse_archive_request request);
  let b := request_budgets parsed in
  start ← steady_now t;
  let deadline := start + max_elapsed_ms b in
  source ← StableFile.open_stable (archive_path parsed);
  let bytes := StableFile.size_bytes (StableFile.identity_ source) in
  if (bytes <? 22) || (max_archive_bytes <? bytes) then fail "source is not a bounded ZIP archive"
  else
    digest ← hash_source_until t source deadline;
    '(record, central_end) ← read_end source;
    if end_invalid b record central_end then fail "ZIP central-directory count, size, or bounds are invalid"
    else
      central ← StableFile.read source (central_offset record) (central_size record);
      p ← inspect_entries t deadline b source central (central_offset record) (N.to_nat (entry_count record)) started;
      if negb (position p =? size central) then fail "ZIP central directory contains trailing or uncounted records"
      else
        check_cancelled t;;
        check_deadline t deadline inspection_expired;;
        lift (check_ranges (collected p) (central_offset record));;
        let sorted := sort_by by_path (collected p) in
        set_digest ← lift (entry_set_digest sorted);
        at_ ← iso8601_now;
        StableFile.verify_unchanged source;;
        ret (mk_inspection (StableFile.path_ source) (StableFile.identity_ source) digest set_digest at_ b sorted
          (total_files (totals p)) (total_directories (totals p)) (total_compressed (totals p))
          (total_uncompressed (totals p))).

(** ** The response *)

Definition hex2 (n : N) : string :=
  String (Sha256.hex_digit_char (N.shiftr n 4)) (String (Sha256.hex_digit_char (N.land n 0xf)) EmptyString).

Definition escape_byte (c : ascii) : string :=
  if Ascii.eqb c backslash then String backslash (String backslash EmptyString)
  else if Ascii.eqb c dquote then String backslash (String dquote EmptyString)
  else if code c =? 10 then String backslash "n"
  else if code c =? 13 then String backslash "r"
  else if code c =? 9 then String backslash "t"
  else if code c <? 0x20 then String backslash "u00" +:+ hex2 (code c)
  else String c EmptyString.

Fixpoint json_escape (s : string) : string :=
  match s with EmptyString => EmptyString | String c s => escape_byte c +:+ json_escape s end.

Definition quote (s : string) : string := String dquote (json_escape s) +:+ String dquote EmptyString.

(** A member: the quoted key, a colon and the text of the value. *)
Definition member (key text : string) : string := quote key +:+ ":" +:+ text.

Fixpoint commas (l : list string) : string :=
  match l with
  | [] => EmptyString
  | [x] => x
  | x :: l => x +:+ "," +:+ commas l
  end.

Definition braces (l : list string) : string := "{" +:+ commas l +:+ "}".

Definition budgets_json (b : Budgets) : string := braces
  [member "max_entries" (to_string (max_entries b));
   member "max_uncompressed_bytes" (to_string (max_uncompressed_bytes b));
   member "max_entry_bytes" (to_string (max_entry_bytes b)); member "max_depth" (to_string (max_depth b));
   member "max_ratio" (to_string (max_ratio b)); member "max_elapsed_ms" (to_string (max_elapsed_ms b))].

Definition identity_json (i : StableFile.StableFileIdentity) : string := braces
  [member "volume_id" (quote (StableFile.volume_id i)); member "file_id" (quote (StableFile.file_id i));
   member "size_bytes" (to_string (StableFile.size_bytes i));
   member "modified_time_ns" (to_string (StableFile.modified_time_ns i))].

Definition source_json (i : Inspection) (path_text : string) : string := braces
  [member "schema" (quote "usk.source.v1");
   member "source_id" (quote ("source." +:+ str_take 24 (source_sha256 i)));
   member "kind" (quote "local_archive"); member "path" (quote path_text); member "archive_format" (quote "zip");
   member "size_bytes" (to_string (StableFile.size_bytes (identity i))); member "sha256" (quote (source_sha256 i));
   member "filesystem_identity" (identity_json (identity i)); member "inspected_at" (quote (inspected_at i));
   member "stable_read" "true"; member "budgets" (budgets_json (budgets i))].

Definition entry_json (e : Entry) : string := braces
  [member "normalized_path" (quote (normalized_path e));
   member "entry_type" (quote (if directory e then "directory" else "file"));
   member "compressed_size" (to_string (compressed_size e));
   member "uncompressed_size" (to_string (uncompressed_size e));
   member "compression_method" (quote (if compression_method e =? 0 then "stored" else "deflate"));
   member "local_header_offset" (to_string (local_header_offset e))].

Definition totals_json (i : Inspection) : string := braces
  [member "file_count" (to_string (file_count i)); member "directory_count" (to_string (directory_count i));
   member "compressed_bytes" (to_string (compressed_bytes i));
   member "uncompressed_bytes" (to_string (uncompressed_bytes i))].

Definition payload_json (i : Inspection) (path_text : string) : string := braces
  [member "schema" (quote "usk.archive_inspection.v1");
   member "inspection_id" (quote ("inspection." +:+ str_take 24 (entry_set_digest_ i)));
   member "entry_set_digest" (quote (entry_set_digest_ i)); member "status" (quote "pass");
   member "inspected_at" (quote (inspected_at i));
   member "normalization_policy" (quote "ascii_case_insensitive_v1"); member "source" (source_json i path_text);
   member "entries" ("[" +:+ commas (map entry_json (entries i)) +:+ "]"); member "totals" (totals_json i);
   member "problems" "[]"].

Definition inspection_json (i : Inspection) : result string :=
  path_text ← path_to_utf8 (inspected_path i);
  Ok (braces [member "schema" (quote "usk.command_response.v1"); member "status" (quote "ok");
    member "payload" (payload_json i path_text); member "error" "null"]).

Definition refused_json (problem : string) : string := braces
  [member "schema" (quote "usk.command_response.v1"); member "status" (quote "refused"); member "payload" "null";
   member "error" (braces [member "code" (quote "archive_inspection_refused"); member "message" (quote problem)])].

Definition what (e : exn) : string :=
  match e with runtime_error s | logic_error s => s | _ => EmptyString end.

(** The response and whether the status is [USK_STATUS_OK]. *)
Definition usk_archive_inspect_command_json (t : Timer) (request : string) : io (string * bool) := fun w =>
  let body : io string :=
    if (size request =? 0) || (max_request_bytes <? size request)
    then fail "bounded archive inspection request is required"
    else inspection ← inspect_zip (no_cancellation t) request; lift (inspection_json inspection) in
  match body w with
  | (Ok response, w) => (Ok (response, true), w)
  | (Throw e, w) => if catchable e then (Ok (refused_json (what e), false), w) else (Throw e, w)
  end.

End Archive.
