(* ===== verification/ArchivePaths.v ===== *)
(** The paths of archive entries: what the normalization accepts, that the
    transaction session accepts every result, and that the collision check admits
    exactly the sets of paths that name a directory tree on any file system. *)

From Stdlib Require Import Ascii String NArith ZArith Lia Sorted.
From stdpp Require Import base list strings gmap sets.
From S2P Require Import Prelude Effects StdMap Path PathFacts World RecordIo TextFacts Archive.

Module ArchivePaths.
Import Path PathFacts Archive.

(** ** Segments *)

Definition separator_free (s : string) : bool := forall_bytes (fun c => negb (is_separator c)) s.
Definition colon_free (s : string) : bool := forall_bytes (fun c => negb (Ascii.eqb c (ascii_of_N 58))) s.

(** The segments that the loop accepts. *)
Definition accepted_segment (s : string) : Prop :=
  is_empty s = false ∧ separator_free s = true ∧ colon_free s = true ∧ check_segment s = Ok tt.

(** Backslashes become slashes. *)
Definition unify (s : string) : string := map_bytes (fun c => if Ascii.eqb c backslash then slash else c) s.

(** The segments, each with a separator behind it. *)
Fixpoint closed_names (l : list string) : string :=
  match l with [] => EmptyString | x :: l => x +:+ String slash (closed_names l) end.

Lemma separator_slash_free s : separator_free s = true → slash_free s = true.
Proof.
  apply forall_bytes_impl. intros c. unfold is_separator. by destruct (Ascii.eqb c slash).
Qed.

Lemma slash_position a b x y : slash_free a = true → slash_free x = true →
  a +:+ String slash b = x +:+ String slash y → a = x ∧ b = y.
Proof.
  revert x. induction a as [|c a IH]; intros [|d x] Ha Hx E; cbn in *.
  - by injection E as ->.
  - injection E as <- E. rewrite Ascii.eqb_refl in Hx. done.
  - injection E as -> E. rewrite Ascii.eqb_refl in Ha. done.
  - injection E as <- E. apply andb_prop in Ha as [_ Ha]. apply andb_prop in Hx as [_ Hx].
    destruct (IH x Ha Hx E) as [-> ->]. done.
Qed.

Lemma slash_absent a x y : slash_free a = true → a ≠ x +:+ String slash y.
Proof.
  intros Ha E. subst a. unfold slash_free in Ha. rewrite forall_bytes_append in Ha. apply andb_prop in Ha as [_ Ha].
  done.
Qed.

Lemma join_cons x l : l ≠ [] → join_names (x :: l) = x +:+ String slash (join_names l).
Proof. by destruct l. Qed.

Lemma join_nonempty l : Forall accepted_segment l → l ≠ [] → join_names l ≠ EmptyString.
Proof.
  intros H Hl. destruct H as [|x l (Hx & _) _]; [done|]. destruct x; [done|]. destruct l; done.
Qed.

(** A separator-free text in front of a joined list. *)
Lemma join_single a l : slash_free a = true → Forall accepted_segment l → l ≠ [] → a = join_names l → l = [a].
Proof.
  intros Ha Hl Hne E. destruct Hl as [|x l Hx Hl]; [done|]. destruct l as [|y l]; [by cbn in E; subst|].
  rewrite join_cons in E by done. by apply slash_absent in E.
Qed.

Lemma join_split a b l : slash_free a = true → Forall accepted_segment l → a +:+ String slash b = join_names l →
  ∃ l', l = a :: l' ∧ l' ≠ [] ∧ b = join_names l'.
Proof.
  intros Ha Hl E. destruct Hl as [|x l (_ & Hx & _) Hl]; [by destruct a|]. apply separator_slash_free in Hx.
  destruct l as [|y l]; [by cbn in E; symmetry in E; apply slash_absent in E|].
  rewrite join_cons in E by done. apply slash_position in E as [-> ->]; [|done|done]. by exists (y :: l).
Qed.

Lemma closed_split a b l : slash_free a = true → Forall accepted_segment l → a +:+ String slash b = closed_names l →
  ∃ l', l = a :: l' ∧ b = closed_names l'.
Proof.
  intros Ha Hl E. destruct Hl as [|x l (_ & Hx & _) Hl]; [by destruct a|]. apply separator_slash_free in Hx. cbn in E.
  apply slash_position in E as [-> ->]; [|done|done]. by exists l.
Qed.

Lemma colon_join l : Forall accepted_segment l → colon_free (join_names l) = true.
Proof.
  induction 1 as [|x l (_ & _ & Hx & _) _ IH]; [done|]. destruct l as [|y l]; [done|].
  rewrite join_cons by done. unfold colon_free in *. rewrite forall_bytes_append, Hx. exact IH.
Qed.

Lemma colon_closed l : Forall accepted_segment l → colon_free (closed_names l) = true.
Proof.
  induction 1 as [|x l (_ & _ & Hx & _) _ IH]; [done|]. cbn [closed_names]. unfold colon_free in *.
  rewrite forall_bytes_append, Hx. exact IH.
Qed.

Lemma colon_here a b : colon_free (a +:+ String (ascii_of_N 58) b) = false.
Proof. unfold colon_free. rewrite forall_bytes_append. apply andb_false_r. Qed.

(** What the loop reads from [segment] and the rest. *)
Definition reads (trailing : bool) (segments news : list string) (text : string) : Prop :=
  Forall accepted_segment news ∧
  ((news ≠ [] ∧ text = join_names news) ∨
   (trailing = true ∧ segments ++ news ≠ [] ∧ text = closed_names news)).

Lemma split_exact raw trailing : ∀ segments segment out, separator_free segment = true → colon_free segment = true →
  split_segments raw trailing segments segment = Ok out ↔
  ∃ news, out = segments ++ news ∧ reads trailing segments news (segment +:+ unify raw).
Proof.
  induction raw as [|c raw IH]; intros segments segment out Hs Hc; cbn [split_segments unify map_bytes].
  - rewrite append_nil_r. pose proof (separator_slash_free _ Hs) as Hf. destruct (is_empty segment) eqn:He.
    + destruct segment; [|done]. split.
      * destruct trailing, (bool_decide_reflect (segments = [])) as [->|Hne]; cbn [andb negb]; try done.
        intros <-%ok_inj. exists []. rewrite app_nil_r. split; [done|]. split; [constructor|]. right. by rewrite app_nil_r.
      * intros (news & -> & Hn & [[Hne E]|(-> & Hne & E)]).
        -- by symmetry in E; apply join_nonempty in E.
        -- destruct news as [|x news]; [|destruct x; done]. rewrite app_nil_r in *.
           by rewrite bool_decide_eq_false_2.
    + rewrite bind_unit. split.
      * intros [Hk <-%ok_inj]. exists [segment]. split; [done|]. split; [by repeat constructor|]. by left.
      * intros (news & -> & Hn & [[Hne E]|(-> & _ & E)]).
        -- apply join_single in E as ->; [|done..]. inversion Hn as [|? ? (_ & _ & _ & Hk)]; subst. done.
        -- destruct news as [|x news]; [by subst segment|]. by apply slash_absent in E.
  - destruct (is_separator c) eqn:Esep.
    + assert ((if Ascii.eqb c backslash then slash else c) = slash) as ->.
      { unfold is_separator in Esep. destruct (Ascii.eqb_spec c backslash) as [|]; [done|].
        rewrite orb_false_r in Esep. by apply Ascii.eqb_eq. }
      fold (unify raw). pose proof (separator_slash_free _ Hs) as Hf. destruct (is_empty segment) eqn:He.
      * destruct segment; [|done]. split; [done|]. intros (news & -> & Hn & H). exfalso.
        assert (∃ l, news = EmptyString :: l) as [l ->].
        { destruct H as [[Hne E]|(_ & _ & E)].
          - apply (join_split EmptyString) in E as (l & -> & _); [by eexists|done|done].
          - apply (closed_split EmptyString) in E as (l & -> & _); [by eexists|done|done]. }
        inversion Hn as [|? ? (? & _)]; subst. done.
      * rewrite bind_unit. split.
        -- intros [Hk H]. apply IH in H as (news & -> & Hn & H); [|done|done]. exists (segment :: news).
           rewrite <- app_assoc. split; [done|]. split; [by constructor|]. cbn [String.append] in H.
           destruct H as [[Hne ->]|(-> & Hne & ->)]; [left|right].
           ++ by rewrite join_cons.
           ++ rewrite <- app_assoc in Hne. done.
        -- intros (news & -> & Hn & H).
           assert (∃ l, news = segment :: l ∧ reads trailing (segments ++ [segment]) l (unify raw)) as (l & -> & Hl).
           { destruct H as [[Hne E]|(-> & Hne & E)].
             - apply join_split in E as (l & -> & Hl & ->); [|done|done]. exists l. split; [done|].
               split; [by inversion Hn|]. by left.
             - apply closed_split in E as (l & -> & ->); [|done|done]. exists l. split; [done|].
               split; [by inversion Hn|]. right. rewrite <- app_assoc. done. }
           inversion Hn as [|? ? (_ & _ & _ & Hk)]; subst. split; [done|]. apply IH; [done|done|].
           exists l. rewrite <- app_assoc. done.
    + assert ((if Ascii.eqb c backslash then slash else c) = c) as ->.
      { unfold is_separator in Esep. by destruct (Ascii.eqb c backslash); [rewrite orb_true_r in Esep|]. }
      fold (unify raw). destruct (Ascii.eqb_spec c (ascii_of_N 58)) as [->|Hcol].
      * split; [done|]. intros (news & -> & Hn & H). exfalso.
        assert (colon_free (segment +:+ String (ascii_of_N 58) (unify raw)) = true) as Hx; [|by rewrite colon_here in Hx].
        destruct H as [[_ ->]|(_ & _ & ->)]; [by apply colon_join|by apply colon_closed].
      * rewrite IH.
        -- by rewrite push_back_append.
        -- unfold separator_free, push_back in *. rewrite forall_bytes_append, Hs. cbn. by rewrite Esep.
        -- unfold colon_free, push_back in *. rewrite forall_bytes_append, Hc. cbn [forall_bytes].
           by destruct (Ascii.eqb_spec c (ascii_of_N 58)).
Qed.

(** ** Normalized paths *)

Definition printable (s : string) : bool := forall_bytes (fun ch => (0x20 <=? code ch) && (code ch <? 0x7f)) s.

(** The same names are reserved here and in the transaction session. *)
Lemma numbered_device base : (size base =? 4) = true → (String.prefix "com" base || String.prefix "lpt" base) = true →
  (49 <=? byte_at base 3) = true → (byte_at base 3 <=? 57) = true → existsb (String.eqb base) reserved_names = true.
Proof.
  intros Hs Hp H1%N.leb_le H2%N.leb_le. apply N.eqb_eq in Hs.
  assert (∃ d, base = "com" +:+ String d EmptyString ∨ base = "lpt" +:+ String d EmptyString) as [d Hd].
  { apply orb_prop in Hp as [Hp|Hp]; apply String.prefix_correct in Hp;
      destruct base as [|x [|y [|z [|d [|? base]]]]]; unfold size in Hs; cbn in Hs; try lia; exists d;
      [left|right]; cbn in Hp; injection Hp as -> -> ->; done. }
  assert (49 <= code d <= 57) as Hc by (by destruct Hd as [->| ->]).
  assert (d = ascii_of_N (code d)) as Ed by (apply code_inj; by rewrite code_of_N by lia).
  assert (∃ n, (n < 9)%nat ∧ d = ascii_of_N (49 + N.of_nat n)) as (n & Hn & ->).
  { exists (N.to_nat (code d - 49)). split; [lia|]. rewrite Ed at 1. f_equal. lia. }
  destruct Hd as [->| ->]; do 9 (destruct n as [|n]; [reflexivity|]); lia.
Qed.

Lemma reserved_same segment :
  windows_reserved_name segment = existsb (String.eqb (lowercase (stem segment))) reserved_names.
Proof.
  unfold windows_reserved_name. cbv zeta. generalize (lowercase (stem segment)). intros base.
  apply Bool.eq_iff_eq_true. rewrite orb_true_iff, !andb_true_iff. split.
  - intros [H|[[[Hs Hp] H1] H2]]; [|by apply numbered_device].
    apply existsb_exists in H as (x & Hx & E). apply existsb_exists. exists x. split; [|done].
    unfold reserved_names. cbn [List.In] in *. tauto.
  - intros (x & Hx & ->%String.eqb_eq)%existsb_exists. unfold reserved_names in Hx. cbn [List.In] in Hx.
    repeat (destruct Hx as [<-|Hx]; [first [left; reflexivity|right; repeat split; reflexivity]|]). done.
Qed.

Lemma accepted_safe s : accepted_segment s → printable s = true → safe_segment s = true ∧ plain_name s.
Proof.
  intros (He & Hs & Hc & Hk) Hp. split; [|split; [by apply separator_slash_free|done]].
  unfold check_segment in Hk. apply bind_unit in Hk as [H1%throw_if_ok H2%throw_if_ok].
  apply orb_false_iff in H1 as [H11 H12]. apply orb_false_iff in H2 as [H2 H23]. apply orb_false_iff in H2 as [H21 H22].
  unfold safe_segment. rewrite <- reserved_same, He, H11, H12, H21, H22, H23.
  assert (contains_byte (ascii_of_N 58) s = false) as ->; [|exact Hp].
  unfold contains_byte. apply negb_false_iff. exact Hc.
Qed.

(** A segment of an entry: safe, and free of both separators. *)
Definition good_segment (s : string) : Prop := safe_segment s = true ∧ separator_free s = true.

Lemma good_exact s : good_segment s ↔ accepted_segment s ∧ printable s = true.
Proof.
  split.
  - intros [Hs Hf]. unfold safe_segment in Hs. apply andb_prop in Hs as [Hs Hp]. apply andb_prop in Hs as [Hs Hr].
    apply negb_true_iff in Hs, Hr. repeat (apply orb_false_iff in Hs as [Hs ?]). split; [|done].
    split; [done|]. split; [done|]. split.
    + match goal with H : contains_byte _ s = false |- _ => unfold contains_byte in H; apply negb_false_iff in H; exact H end.
    + unfold check_segment. rewrite reserved_same, Hr.
      repeat match goal with H : _ = false |- _ => rewrite H; clear H end. done.
  - intros [Ha Hp]. split; [by apply accepted_safe|apply Ha].
Qed.

Lemma map_bytes_append f x y : map_bytes f (x +:+ y) = map_bytes f x +:+ map_bytes f y.
Proof. induction x as [|c x IH]; [done|]. cbn. by rewrite IH. Qed.

Lemma printable_unify s : printable (unify s) = printable s.
Proof.
  induction s as [|c s IH]; [done|]. unfold printable, unify in *. cbn [map_bytes forall_bytes]. rewrite IH.
  destruct (Ascii.eqb_spec c backslash) as [->|]; done.
Qed.

Lemma printable_join l : printable (join_names l) = forallb printable l.
Proof.
  induction l as [|x l IH]; [done|]. destruct l as [|y l]; [cbn [forallb]; by rewrite andb_true_r|].
  rewrite join_cons by done. cbn [forallb] in *. rewrite <- IH. unfold printable. rewrite forall_bytes_append. done.
Qed.

Lemma printable_closed l : printable (closed_names l) = forallb printable l.
Proof.
  induction l as [|x l IH]; [done|]. cbn [forallb closed_names]. rewrite <- IH. unfold printable.
  rewrite forall_bytes_append. done.
Qed.

Lemma last_byte_unify s : last_byte (unify s) = (fun c => if Ascii.eqb c backslash then slash else c) <$> last_byte s.
Proof.
  induction s as [|c s IH]; [done|]. destruct s as [|d s]; [done|]. exact IH.
Qed.

Lemma ends_unify s : ends_with slash (unify s) = ends_with slash s || ends_with backslash s.
Proof.
  unfold ends_with. rewrite last_byte_unify. destruct (last_byte s) as [c|]; [|done].
  cbn [fmap option_fmap option_map].
  destruct (Ascii.eqb_spec c backslash) as [->|]; [done|]. by rewrite orb_false_r.
Qed.

Lemma ends_appended y : ends_with slash (y +:+ String slash EmptyString) = true.
Proof.
  unfold ends_with. assert (last_byte (y +:+ String slash EmptyString) = Some slash) as ->; [|done].
  induction y as [|c y IH]; [done|]. cbn [String.append last_byte].
  destruct (y +:+ String slash EmptyString) eqn:E; [by destruct y|exact IH].
Qed.

Lemma ends_closed l : l ≠ [] → ends_with slash (closed_names l) = true.
Proof.
  intros Hl. destruct (exists_last Hl) as (l' & x & ->). clear Hl.
  assert (∃ y, closed_names (l' ++ [x]) = y +:+ String slash EmptyString) as [y ->]; [|apply ends_appended].
  induction l' as [|z l' [y IH]]; [by exists x|]. cbn [app closed_names]. rewrite IH.
  exists (z +:+ String slash y). by rewrite append_assoc.
Qed.

Lemma unify_head c s rest : unify s = String c rest → c ≠ slash → ∃ s', s = String c s' ∧ rest = unify s'.
Proof.
  destruct s as [|d s]; [done|]. unfold unify. cbn [map_bytes]. intros [= <- <-] Hc.
  destruct (Ascii.eqb d backslash); [done|]. by exists s.
Qed.

Lemma accepted_head x y : accepted_segment x → ∃ c s, x +:+ y = String c s ∧ is_separator c = false.
Proof.
  intros (He & Hs & _). destruct x as [|c x]; [done|]. exists c, (x +:+ y). split; [done|].
  unfold separator_free in Hs. cbn in Hs. apply andb_prop in Hs as [Hs _]. by apply negb_true_iff.
Qed.

Lemma not_absolute_like raw l (closed : bool) : Forall accepted_segment l → l ≠ [] →
  unify raw = (if closed then closed_names l else join_names l) → absolute_like raw = false.
Proof.
  intros Hl Hne E.
  assert (∃ c s, unify raw = String c s ∧ is_separator c = false) as (c & s & Ec & Hc).
  { destruct Hl as [|x l Hx Hl]; [done|]. destruct closed; [rewrite E; by apply accepted_head|].
    destruct l as [|y l]; [cbn in E; rewrite E, <- (append_nil_r x); by apply accepted_head|].
    rewrite E, join_cons by done. by apply accepted_head. }
  assert (colon_free (unify raw) = true) as Hcol by (rewrite E; destruct closed; [by apply colon_closed|by apply colon_join]).
  assert (c ≠ slash) as Hcs by (intros ->; done).
  destruct (unify_head _ _ _ Ec Hcs) as (raw' & -> & ->). unfold absolute_like. rewrite Hc. cbn [orb].
  apply andb_false_iff. right. destruct raw' as [|d raw']; [done|].
  destruct (N.eqb_spec (code d) 58) as [Hd|]; [|done]. exfalso.
  assert (d = ascii_of_N 58) as -> by (by apply code_inj).
  unfold colon_free, unify in Hcol. cbn [map_bytes forall_bytes] in Hcol.
  change (negb (Ascii.eqb (if Ascii.eqb (ascii_of_N 58) backslash then slash else ascii_of_N 58) (ascii_of_N 58))) with false in Hcol.
  by rewrite andb_false_l, andb_false_r in Hcol.
Qed.

(** The names an accepted raw path stands for. *)
Definition names_of (raw : string) (depth : N) (trailing : bool) (l : list string) : Prop :=
  size raw <= max_name_bytes ∧ l ≠ [] ∧ N.of_nat (length l) <= depth ∧ Forall good_segment l ∧
  unify raw = if trailing then closed_names l else join_names l.

Lemma normalize_iff raw depth p trailing :
  normalize_path raw depth = Ok (p, trailing) ↔ ∃ l, names_of raw depth trailing l ∧ p = join_names l.
Proof.
  unfold normalize_path. rewrite !bind_unit, !throw_if_ok. cbv zeta. set (tr := ends_with slash raw || ends_with backslash raw).
  assert (Htr : ends_with slash (unify raw) = tr) by apply ends_unify.
  split.
  - intros (Hz & Hp%negb_false_iff & _ & H). apply bind_ok in H as (l & Hl & H). apply bind_unit in H as [Hd%throw_if_ok H%ok_inj].
    injection H as <- <-. apply orb_false_iff in Hz as [_ Hz%N.ltb_ge]. apply orb_false_iff in Hd as [Hne%bool_decide_eq_false Hd%N.ltb_ge].
    apply split_exact in Hl as (news & -> & Hn & Hr); [|done|done]. cbn [app] in *. cbn [String.append] in Hr.
    fold (printable raw) in Hp. rewrite <- printable_unify in Hp.
    assert (unify raw = if tr then closed_names news else join_names news) as E.
    { destruct Hr as [[_ E]|(-> & _ & E)]; [|done]. replace tr with false; [done|].
      rewrite <- Htr, E. symmetry. apply join_not_slash; [|done]. eapply Forall_impl; [exact Hn|].
      intros x (H1 & H2 & _). split; [by apply separator_slash_free|done]. }
    exists news. split; [|done]. split_and!; try done. apply Forall_forall. intros x Hx. apply good_exact.
    rewrite Forall_forall in Hn. split; [by apply Hn|].
    assert (forallb printable news = true) as Ha
      by (rewrite <- Hp, E; destruct tr; [by rewrite printable_closed|by rewrite printable_join]).
    rewrite forallb_forall in Ha. by apply Ha, list_elem_of_In.
  - intros (l & (Hz & Hne & Hd & Hg & E) & ->).
    assert (Forall accepted_segment l) as Ha by (eapply Forall_impl; [exact Hg|]; by intros x [? _]%good_exact).
    assert (tr = trailing) as Et.
    { rewrite <- Htr, E. destruct trailing; [by apply ends_closed|]. apply join_not_slash; [|done].
      eapply Forall_impl; [exact Ha|]. intros x (H1 & H2 & _). split; [by apply separator_slash_free|done]. }
    rewrite Et. split; [|split; [|split]].
    + apply orb_false_iff. split; [|by apply N.ltb_ge]. destruct raw; [|done]. cbn in E.
      destruct trailing; [destruct l as [|[|] ?]; done|]. by symmetry in E; apply join_nonempty in E.
    + apply negb_false_iff. fold (printable raw). rewrite <- printable_unify, E.
      assert (forallb printable l = true) as Hp.
      { apply forallb_forall. intros x Hx%list_elem_of_In. rewrite Forall_forall in Hg. by apply Hg, good_exact in Hx as [_ ?]. }
      destruct trailing; [by rewrite printable_closed|by rewrite printable_join].
    + by eapply not_absolute_like.
    + rewrite (bind_step _ _ l).
      * rewrite bool_decide_eq_false_2 by done. rewrite (proj2 (N.ltb_ge _ _)) by done. done.
      * apply split_exact; [done|done|]. exists l. split; [done|]. split; [done|]. cbn [String.append].
        destruct trailing; [right|left]; done.
Qed.

Lemma good_plain l : Forall good_segment l → Forall plain_name l.
Proof.
  intros H. eapply Forall_impl; [exact H|]. intros x [Ha Hp]%good_exact. by apply accepted_safe.
Qed.

Lemma unify_separator_free s : separator_free s = true → unify s = s.
Proof.
  induction s as [|c s IH]; [done|]. unfold separator_free, unify in *. cbn [forall_bytes map_bytes].
  intros [Hc Hs]%andb_prop. rewrite IH by done. apply negb_true_iff, orb_false_iff in Hc as [_ ->]. done.
Qed.

Lemma unify_join l : Forall good_segment l → unify (join_names l) = join_names l.
Proof.
  induction 1 as [|x l [_ Hx] Hl IH]; [done|]. destruct l as [|y l]; [by apply unify_separator_free|].
  rewrite join_cons by done. unfold unify in *. rewrite map_bytes_append. cbn [map_bytes].
  rewrite IH. fold (unify x). by rewrite unify_separator_free.
Qed.

Lemma unify_length s : String.length (unify s) = String.length s.
Proof. unfold unify. induction s as [|c s IH]; [done|]. cbn [map_bytes String.length]. by rewrite IH. Qed.

Lemma closed_join l : l ≠ [] → closed_names l = join_names l +:+ String slash EmptyString.
Proof.
  induction l as [|x l IH]; [done|]. intros _. destruct l as [|y l]; [done|].
  rewrite join_cons, append_assoc by done. cbn [closed_names] in *. rewrite append_cons, <- IH by done. done.
Qed.

(** What the normalization returns is a safe path, and normal. *)
Lemma normalized_safe raw depth p trailing : normalize_path raw depth = Ok (p, trailing) →
  safe_relative_path p = true ∧ normalize_path p depth = Ok (p, false).
Proof.
  intros (l & (Hz & Hne & Hd & Hg & E) & ->)%normalize_iff. pose proof (good_plain l Hg) as Hp. split.
  - unfold safe_relative_path. rewrite join_relative, components_join by done.
    destruct (join_not_slash l Hp Hne) as [_ Hn]. destruct (join_names l) eqn:El; [done|]. cbn [is_empty orb negb andb].
    apply forallb_forall. intros x Hx%list_elem_of_In. rewrite Forall_forall in Hg. by apply Hg in Hx as [? _].
  - apply normalize_iff. exists l. split; [|done]. split_and!; try done; [|by apply unify_join].
    apply (f_equal String.length) in E. rewrite unify_length in E. unfold size in *.
    destruct trailing; [|by rewrite <- E]. rewrite closed_join, length_append in E by done. lia.
Qed.

(** C24 The normalization of entry paths is exact: a raw path is accepted exactly when,
    read with both separators, it is one to [depth] segments (and perhaps a final
    separator), each of which the transaction session accepts as a path segment, in
    at most 4096 bytes; the result joins these segments, is a safe relative path of
    the session, and is its own normal form. *)
Theorem entry_path_exact raw depth p trailing :
  (normalize_path raw depth = Ok (p, trailing) ↔ ∃ l, names_of raw depth trailing l ∧ p = join_names l) ∧
  (normalize_path raw depth = Ok (p, trailing) →
   safe_relative_path p = true ∧ normalize_path p depth = Ok (p, false)).
Proof. split; [apply normalize_iff|apply normalized_safe]. Qed.

(** ** Collisions *)

(** The text [key] names something below [file]. *)
Definition inside (file key : string) : Prop := ∃ rest, key = file +:+ String slash rest.

Lemma inside_irrefl k : ¬ inside k k.
Proof. intros [rest E]. apply (f_equal String.length) in E. rewrite length_append in E. simpl in E. lia. Qed.

Lemma ancestors_exact key : ∀ before a,
  a ∈ ancestors before key ↔ ∃ x y, key = x +:+ String slash y ∧ a = before +:+ x.
Proof.
  induction key as [|c key IH]; intros before a; cbn [ancestors].
  - split; [by intros ?%elem_of_nil|]. intros ([|] & y & E & _); done.
  - cbv zeta. assert (a ∈ ancestors (push_back before c) key ↔
      ∃ x y, key = x +:+ String slash y ∧ a = before +:+ String c x) as Hrest.
    { rewrite IH. split; intros (x & y & -> & ->); exists x, y; by rewrite push_back_append. }
    assert ((∃ x y, String c key = x +:+ String slash y ∧ a = before +:+ x) ↔
      (c = slash ∧ a = before) ∨ ∃ x y, key = x +:+ String slash y ∧ a = before +:+ String c x) as Hsplit.
    { split.
      - intros ([|d x] & y & E & ->); cbn [String.append] in E.
        + injection E as -> _. left. by rewrite append_nil_r.
        + injection E as <- ->. right. by exists x, y.
      - intros [[-> ->]|(x & y & -> & ->)].
        + exists EmptyString, key. by rewrite append_nil_r.
        + by exists (String c x), y. }
    rewrite Hsplit. destruct (Ascii.eqb_spec c slash) as [->|Hc].
    + rewrite elem_of_cons, Hrest. naive_solver.
    + rewrite Hrest. naive_solver.
Qed.

Lemma prefix_above p rest : string_ltb (p +:+ rest) p = false.
Proof.
  induction p as [|c p IH]; [by destruct rest|]. unfold string_ltb in *. cbn [String.append].
  by rewrite string_compare_cons, N.compare_refl.
Qed.

Lemma prefix_between p x rest : string_ltb x p = false → string_ltb (p +:+ rest) x = false → ∃ r, x = p +:+ r.
Proof.
  revert x. induction p as [|c p IH]; intros x H1 H2; [by exists x|]. unfold string_ltb in *. cbn [String.append] in *.
  destruct x as [|d x]; [done|]. rewrite string_compare_cons in H1, H2.
  destruct (N.compare_spec (code d) (code c)) as [E|E|E]; [|done|].
  - apply code_inj in E as ->. rewrite N.compare_refl in H2. destruct (IH x H1 H2) as [r ->]. by exists r.
  - rewrite (proj2 (N.compare_lt_iff (code c) (code d)) E) in H2. done.
Qed.

(** The entry that [lower_bound] finds decides for all. *)
Lemma has_child_exact paths p : StdMap.sorted paths →
  has_child paths p = true ↔ ∃ k d, (k, d) ∈ paths ∧ ∃ rest, k = p +:+ rest.
Proof.
  induction 1 as [|[k d] paths Hs IH Hk]; unfold has_child in *; cbn [List.find fst].
  - split; [done|]. by intros (k & d & ?%elem_of_nil & _).
  - destruct (string_ltb k p) eqn:E; cbn [negb].
    + rewrite IH. split.
      * intros (k' & d' & H & Hr). exists k', d'. split; [by right|done].
      * intros (k' & d' & [[= -> ->]|H]%elem_of_cons & [rest ->]); [by rewrite prefix_above in E|].
        exists (p +:+ rest), d'. split; [done|by exists rest].
    + cbn [fst]. rewrite prefix_append. split.
      * intros Hr. exists k, d. split; [by left|done].
      * intros (k' & d' & [[= -> ->]|H]%elem_of_cons & [rest ->]); [by exists rest|].
        eapply prefix_between; [done|]. rewrite Forall_forall in Hk. apply Hk in H. by apply string_ltb_antisym.
Qed.

(** No file is an ancestor of another entry. *)
Definition tree_set (paths : list (string * bool)) : Prop :=
  ∀ k k' d, (k, false) ∈ paths → (k', d) ∈ paths → ¬ inside k k'.

Lemma tree_set_cons key is_directory paths :
  tree_set ((key, is_directory) :: paths) ↔ tree_set paths ∧
  (∀ k, (k, false) ∈ paths → ¬ inside k key) ∧
  (is_directory = false → ∀ k d, (k, d) ∈ paths → ¬ inside key k).
Proof.
  unfold tree_set. setoid_rewrite elem_of_cons. split.
  - intros H. split_and!.
    + intros k k' d H1 H2. by apply (H k k' d); right.
    + intros k Hk. apply (H k key is_directory); [by right|by left].
    + intros -> k d Hk. apply (H key k d); [by left|by right].
  - intros (H1 & H2 & H3) k k' d [[= -> <-]|Hk] [[= -> ->]|Hk'].
    + apply inside_irrefl.
    + by eapply H3.
    + by apply H2.
    + by eapply H1.
Qed.

Lemma tree_set_perm l l' : l ≡ₚ l' → tree_set l → tree_set l'.
Proof. unfold tree_set. intros Hp H k k' d. rewrite <- !Hp. apply H. Qed.

Lemma collision_exact paths normalized is_directory paths' : StdMap.sorted paths → tree_set paths →
  validate_path_collision paths normalized is_directory = Ok paths' ↔
  StdMap.find (lowercase normalized) paths = None ∧
  paths' = fst (StdMap.emplace (lowercase normalized) is_directory paths) ∧ tree_set paths'.
Proof.
  intros Hs Ht. unfold validate_path_collision. cbv zeta. set (key := lowercase normalized).
  pose proof (StdMap.emplace_snd key is_directory paths Hs) as Hsnd.
  pose proof (StdMap.emplace_perm key is_directory paths) as Hp.
  pose proof (StdMap.emplace_sorted key is_directory paths Hs) as Hs'.
  destruct (StdMap.emplace key is_directory paths) as [after inserted]. cbn [fst snd] in *. subst inserted.
  rewrite !bind_unit, !throw_if_ok, negb_involutive. unfold StdMap.contains_key in *.
  destruct (StdMap.find key paths) as [d|] eqn:Hf; [split; [by intros [? _]|by intros [? _]]|].
  specialize (Hp eq_refl).
  assert (existsb (fun a => match StdMap.find a after with Some d => negb d | None => false end)
    (ancestors EmptyString key) = false ↔ ∀ k, (k, false) ∈ paths → ¬ inside k key) as Hanc.
  { rewrite <- not_true_iff_false, existsb_exists. split.
    - intros H k Hk [rest E]. apply H. exists k. split.
      + apply list_elem_of_In, ancestors_exact. by exists k, rest.
      + by rewrite (StdMap.find_of_In k false after Hs') by (rewrite Hp; by right).
    - intros H (a & Ha & Hd). apply list_elem_of_In, ancestors_exact in Ha as (x & y & E & ->). cbn [String.append] in Hd.
      destruct (StdMap.find x after) as [[]|] eqn:Ex; try done. apply StdMap.find_In in Ex. rewrite Hp in Ex.
      apply elem_of_cons in Ex as [[= Ex _]|Ex]; [subst x; by apply (inside_irrefl key); exists y|].
      apply (H x Ex). by exists y. }
  assert (negb is_directory && has_child after (key +:+ "/") = false ↔
    (is_directory = false → ∀ k d, (k, d) ∈ paths → ¬ inside key k)) as Hchild.
  { destruct is_directory; cbn [negb andb]; [done|]. rewrite <- not_true_iff_false, has_child_exact by done. split.
    - intros H _ k d Hk [rest ->]. apply H. exists (key +:+ String slash rest), d. split; [rewrite Hp; by right|].
      exists rest. by rewrite append_assoc.
    - intros H (k & d & Hk & [rest E]). rewrite append_assoc in E. change ("/" +:+ rest) with (String slash rest) in E.
      rewrite Hp in Hk. apply elem_of_cons in Hk as [[= Hk _]|Hk]; [apply (inside_irrefl key); exists rest; congruence|].
      apply (H eq_refl k d Hk). by exists rest. }
  rewrite Hanc, Hchild. split.
  - intros (_ & H1 & H2 & <-%ok_inj). split; [done|]. split; [done|]. apply (tree_set_perm _ _ (symmetry Hp)).
    by apply tree_set_cons.
  - intros (_ & -> & H). apply (tree_set_perm _ _ Hp) in H. apply tree_set_cons in H as (_ & H1 & H2). done.
Qed.

(** The entries of an archive, one after the other. *)
Definition collide (l : list (string * bool)) : result (list (string * bool)) :=
  fold_result (fun paths e => validate_path_collision paths (fst e) (snd e)) [] l.

Definition keyed (e : string * bool) : string * bool := (lowercase (fst e), snd e).

Lemma collide_from l : ∀ paths paths', StdMap.sorted paths → tree_set paths →
  fold_result (fun paths e => validate_path_collision paths (fst e) (snd e)) paths l = Ok paths' →
  StdMap.sorted paths' ∧ paths' ≡ₚ map keyed l ++ paths ∧ tree_set paths'.
Proof.
  induction l as [|[n d] l IH]; intros paths paths' Hs Ht; cbn [fold_result fst snd map app]; [by intros <-%ok_inj|].
  intros (p1 & H1 & H)%bind_ok. apply collision_exact in H1 as (Hf & -> & Ht1); [|done|done].
  apply IH in H as (H1 & H2 & H3); [|by apply StdMap.emplace_sorted|done]. split; [done|]. split; [|done].
  rewrite H2, (StdMap.emplace_perm (lowercase n) d paths).
  - unfold keyed at 2. cbn [fst snd]. by rewrite Permutation_middle.
  - rewrite StdMap.emplace_snd by done. unfold StdMap.contains_key. by rewrite Hf.
Qed.

Lemma find_absent {A} k (m : list (string * A)) : k ∉ map fst m → StdMap.find k m = None.
Proof.
  induction m as [|[k' v] m IH]; [done|]. cbn [map fst StdMap.find]. intros [Hne H]%not_elem_of_cons.
  destruct (String.eqb_spec k k') as [|]; [done|]. by apply IH.
Qed.

Lemma collide_accepts l : ∀ paths, StdMap.sorted paths → tree_set (map keyed l ++ paths) →
  NoDup (map fst (map keyed l ++ paths)) →
  is_ok (fold_result (fun paths e => validate_path_collision paths (fst e) (snd e)) paths l) = true.
Proof.
  induction l as [|[n d] l IH]; intros paths Hs Ht Hn; [done|]. cbn [fold_result fst snd map app] in *.
  unfold keyed in Ht at 1. cbn [fst snd] in Ht. apply NoDup_cons in Hn as [Hk Hn].
  assert (StdMap.find (lowercase n) paths = None) as Hf.
  { apply find_absent. intros H. apply Hk. rewrite map_app, elem_of_app. by right. }
  assert (fst (StdMap.emplace (lowercase n) d paths) ≡ₚ (lowercase n, d) :: paths) as Hp.
  { apply StdMap.emplace_perm. rewrite StdMap.emplace_snd by done. unfold StdMap.contains_key. by rewrite Hf. }
  assert (map keyed l ++ fst (StdMap.emplace (lowercase n) d paths) ≡ₚ (lowercase n, d) :: map keyed l ++ paths) as Hq.
  { by rewrite Hp, Permutation_middle. }
  assert (∀ x y, tree_set (x ++ y) → tree_set y) as Hsub.
  { intros x y H k k' e H1 H2. by apply (H k k' e); rewrite elem_of_app; right. }
  rewrite (bind_step _ _ (fst (StdMap.emplace (lowercase n) d paths))).
  - apply IH; [by apply StdMap.emplace_sorted|by apply (tree_set_perm _ _ (symmetry Hq))|].
    rewrite (Permutation_map fst Hq). cbn [map fst]. by apply NoDup_cons.
  - apply collision_exact; [done| |].
    + apply (Hsub (map keyed l)). by apply tree_set_cons in Ht as (? & _).
    + split; [done|]. split; [done|]. apply (tree_set_perm _ _ (symmetry Hp)). apply (Hsub (map keyed l)).
      by apply (tree_set_perm ((lowercase n, d) :: map keyed l ++ paths)); [rewrite Permutation_middle|].
Qed.

Lemma tree_set_nil : tree_set [].
Proof. by intros k k' d ?%elem_of_nil. Qed.

Lemma collisions_iff l :
  is_ok (collide l) = true ↔
  NoDup (map (fun e => lowercase (fst e)) l) ∧
  ∀ file other is_directory, (file, false) ∈ l → (other, is_directory) ∈ l →
    ¬ inside (lowercase file) (lowercase other).
Proof.
  assert (map fst (map keyed l) = map (fun e => lowercase (fst e)) l) as Hkeys by (by rewrite map_map).
  assert (tree_set (map keyed l) ↔ ∀ f e d, (f, false) ∈ l → (e, d) ∈ l → ¬ inside (lowercase f) (lowercase e)) as Htree.
  { split.
    - intros H f e d Hf He. eapply H; [by apply (list_elem_of_fmap_2 keyed l (f, false))|].
      by apply (list_elem_of_fmap_2 keyed l (e, d)).
    - intros H k k' d ([f []] & [= ->] & Hf)%list_elem_of_fmap ([e d'] & [= -> ->] & He)%list_elem_of_fmap.
      by eapply H. }
  rewrite <- Hkeys, <- Htree. split.
  - intros H. unfold collide in H. destruct (fold_result _ [] l) as [paths|] eqn:E; [|done].
    apply collide_from in E as (Hs & Hp & Ht); [|constructor|apply tree_set_nil]. rewrite app_nil_r in Hp.
    split; [|by apply (tree_set_perm _ _ Hp)]. rewrite <- (Permutation_map fst Hp). by apply StdMap.sorted_nodup.
  - intros [Hn Ht]. apply collide_accepts; [constructor|by rewrite app_nil_r|by rewrite app_nil_r].
Qed.

(** The collision check is exact and does not depend on the order of the entries:
    the entries are accepted exactly when no two paths are equal up to the case of
    their letters and no file is an ancestor of another entry up to that case, that
    is, when they name one tree on every file system. *)
Theorem path_collisions_exact l :
  is_ok (collide l) = true ↔
  NoDup (map (fun e => lowercase (fst e)) l) ∧
  ∀ file other is_directory, (file, false) ∈ l → (other, is_directory) ∈ l →
    ¬ inside (lowercase file) (lowercase other).
Proof. apply collisions_iff. Qed.


End ArchivePaths.
