(* ===== verification/ArchiveFacts.v ===== *)
(** What an archive inspection guarantees on any host: safe and compatible paths,
    budgets that hold, and entries that claim every byte before the central directory
    exactly once. *)

From Stdlib Require Import Ascii String NArith ZArith Lia Sorted.
From stdpp Require Import base list strings gmap sets.
From S2P Require Import Prelude Effects Sha256 StdMap Json Path PathFacts World RecordIo TextFacts Archive.
From S2P Require Import ArchivePaths.

Module ArchiveFacts.
Import Json Path PathFacts Effects World RecordIo SortFacts Archive ArchivePaths.

(** ** Ranges *)

(** The entries cover the bytes from one offset to another, one after the other. *)
Inductive tiles : N → list Entry → N → Prop :=
| tiles_nil x : tiles x [] x
| tiles_cons e l y : tiles (data_end e) l y → tiles (local_header_offset e) (e :: l) y.

Lemma contiguous_tiles l : ∀ e c, contiguous e l c = Ok tt → tiles (local_header_offset e) (e :: l) c.
Proof.
  induction l as [|e' l IH]; intros e c; cbn [contiguous].
  - intros H%throw_if_ok%negb_false_iff%N.eqb_eq. constructor. rewrite H. constructor.
  - intros [H%throw_if_ok%negb_false_iff%N.eqb_eq Hl]%bind_unit. constructor. rewrite H. by apply IH.
Qed.

Lemma check_ranges_tiles l c : check_ranges l c = Ok tt → ∃ l', l' ≡ₚ l ∧ tiles 0 l' c.
Proof.
  unfold check_ranges. intros H. exists (sort_by by_offset l). split; [apply sort_by_perm|].
  destruct (sort_by by_offset l) as [|e l']; [done|].
  apply bind_unit in H as [H%throw_if_ok%negb_false_iff%N.eqb_eq Hc]. rewrite <- H. by apply contiguous_tiles.
Qed.

Definition holds_byte (x : N) (e : Entry) : Prop := local_header_offset e <= x < data_end e.

Definition forward (e : Entry) : Prop := local_header_offset e < data_end e.

Lemma tiles_after a l c : tiles a l c → Forall forward l →
  a <= c ∧ Forall (fun e => a <= local_header_offset e ∧ data_end e <= c) l.
Proof.
  induction 1 as [x|e l y Ht IH]; intros Hf; [by split; [lia|]|]. inversion Hf as [|? ? He Hl]; subst. unfold forward in He.
  destruct (IH Hl) as [H1 H2]. split; [lia|]. constructor; [lia|]. eapply Forall_impl; [exact H2|].
  intros e' [? ?]. cbn in *. lia.
Qed.

Lemma tiles_cover a l c x : tiles a l c → a <= x < c → ∃ e, e ∈ l ∧ holds_byte x e.
Proof.
  induction 1 as [y|e l y Ht IH]; intros Hx; [lia|]. destruct (N.lt_ge_cases x (data_end e)) as [H|H].
  - exists e. split; [by left|]. split; lia.
  - destruct IH as (e' & He & Hh); [lia|]. exists e'. split; [by right|done].
Qed.

Lemma tiles_unique a l c x e e' : tiles a l c → Forall forward l → e ∈ l → e' ∈ l →
  holds_byte x e → holds_byte x e' → e = e'.
Proof.
  induction 1 as [y|e0 l y Ht IH]; intros Hf He He' H H'; [by apply elem_of_nil in He|].
  inversion Hf as [|? ? _ Hl]; subst. destruct (tiles_after _ _ _ Ht Hl) as [_ Ha]. rewrite Forall_forall in Ha.
  unfold holds_byte in *.
  apply elem_of_cons in He as [->|He], He' as [->|He']; [done| | |by apply IH].
  - apply Ha in He'. lia.
  - apply Ha in He. lia.
Qed.

(** ** Totals *)

Definition sum (f : Entry → N) (l : list Entry) : N := fold_right (fun e n => f e + n) 0 l.

Lemma sum_app f l e : sum f (l ++ [e]) = sum f l + f e.
Proof. induction l as [|x l IH]; cbn; [lia|]. unfold sum in IH. rewrite IH. lia. Qed.

Lemma sum_perm f l l' : l ≡ₚ l' → sum f l = sum f l'.
Proof. induction 1; unfold sum in *; cbn [fold_right] in *; lia. Qed.

Definition file_size (f : Entry → N) (e : Entry) : N := if directory e then 0 else f e.
Definition counts (want : bool) (e : Entry) : N := if Bool.eqb (directory e) want then 1 else 0.

Definition totals_of (l : list Entry) : Totals :=
  mk_totals (sum (file_size uncompressed_size) l) (sum (file_size compressed_size) l) (sum (counts false) l)
    (sum (counts true) l).

(** ** One entry *)

Record entry_ok (b : Budgets) (e : Entry) : Prop := {
  entry_normal : normalize_path (normalized_path e) (max_depth b) = Ok (normalized_path e, false);
  entry_method : compression_method e = 0 ∨ compression_method e = 8;
  entry_directory : directory e = true → compressed_size e = 0 ∧ uncompressed_size e = 0 ∧ compression_method e = 0;
  entry_bounded : directory e = false → uncompressed_size e <= max_entry_bytes b ∧
    uncompressed_size e <= compressed_size e * max_ratio b;
  entry_header : local_header_offset e + 31 <= data_offset e;
  entry_data : data_end e = data_offset e + compressed_size e }.

Lemma add_checked_ok total v maximum name n : add_checked total v maximum name = Ok n ↔
  n = total + v ∧ total + v <= maximum.
Proof.
  unfold add_checked. destruct (N.ltb_spec maximum v); cbn [orb]; [split; [done|lia]|].
  destruct (N.ltb_spec (maximum - v) total); split; try done; try lia.
  - intros <-%ok_inj. lia.
  - by intros [-> _].
Qed.

Lemma central_method central position r : central_record central position = Ok r → method r = 0 ∨ method r = 8.
Proof.
  unfold central_record. intros H.
  repeat match type of H with
  | (throw_if _ _ ≫= _) = _ => apply bind_unit in H as [?%throw_if_ok H]
  | (_ ≫= _) = _ => apply bind_ok in H as (? & _ & H)
  | context [let _ := _ in _] => progress cbv zeta in H
  end.
  apply ok_inj in H as <-. cbn [method].
  match goal with H : negb (?m =? 0) && negb (?m =? 8) = false |- _ =>
    destruct (N.eqb_spec m 0) as [|]; [by left|]; destruct (N.eqb_spec m 8) as [|]; [by right|done] end.
Qed.

Lemma classify_inv b r normalized is_directory : classify_entry b r = Ok (normalized, is_directory) →
  normalize_path normalized (max_depth b) = Ok (normalized, false) ∧ is_empty (raw_name r) = false ∧
  (is_directory = true → compressed r = 0 ∧ uncompressed r = 0 ∧ method r = 0).
Proof.
  unfold classify_entry. cbv zeta. intros H. apply bind_unit in H as [_ H]. apply bind_unit in H as [_ H].
  apply bind_ok in H as ([n trailing] & Hn & H). apply bind_unit in H as [Hd%throw_if_ok H%ok_inj].
  injection H as <- <-. split; [by eapply normalized_safe|]. split.
  - unfold normalize_path in Hn. apply bind_unit in Hn as [He%throw_if_ok _]. by apply orb_false_iff in He as [? _].
  - intros E. rewrite E in Hd. apply orb_false_iff in Hd as [_ Hd]. cbn [andb] in Hd.
    apply orb_false_iff in Hd as [Hd H3%negb_false_iff%N.eqb_eq].
    apply orb_false_iff in Hd as [H1%negb_false_iff%N.eqb_eq H2%negb_false_iff%N.eqb_eq]. done.
Qed.

Lemma account_inv b r is_directory t t' : account b r is_directory t = Ok t' →
  (is_directory = false → uncompressed r <= max_entry_bytes b ∧ uncompressed r <= compressed r * max_ratio b) ∧
  (is_directory = false → total_uncompressed t' <= max_uncompressed_bytes b ∧ total_compressed t' <= max_archive_bytes) ∧
  t' = mk_totals (total_uncompressed t + (if is_directory then 0 else uncompressed r))
    (total_compressed t + (if is_directory then 0 else compressed r))
    (total_files t + (if is_directory then 0 else 1)) (total_directories t + (if is_directory then 1 else 0)).
Proof.
  unfold account. destruct is_directory.
  - intros <-%ok_inj. rewrite !N.add_0_r. done.
  - intros H. apply bind_unit in H as [H1%throw_if_ok H]. apply bind_unit in H as [H2%throw_if_ok H].
    apply bind_unit in H as [H3%throw_if_ok H]. apply bind_ok in H as (un & [-> Hun]%add_checked_ok & H).
    apply bind_ok in H as (co & [-> Hco]%add_checked_ok & <-%ok_inj). rewrite N.add_0_r.
    apply orb_false_iff in H1 as [H1%N.ltb_ge _]. split; [|done]. intros _. split; [done|].
    destruct (N.eqb_spec (uncompressed r) 0) as [->|Hu]; [lia|]. destruct (N.eqb_spec (compressed r) 0) as [Hc|Hc]; [done|].
    by apply N.ltb_ge.
Qed.

Lemma read_local_inv source c r normalized is_directory w e w' :
  read_local source c r normalized is_directory w = (Ok e, w') →
  ∃ offset, e = mk_entry normalized is_directory (compressed r) (uncompressed r) (method r) (record_crc32 r)
    (local_offset r) offset (offset + compressed r) ∧
    local_offset r + 30 + name_size r <= offset ∧ offset + compressed r <= c.
Proof.
  unfold read_local. destruct (_ || _); [done|]. intros H. apply seq_ok in H as (header & w1 & _ & H).
  apply seq_ok in H as (c32 & w2 & _ & H). apply seq_ok in H as (u32 & w3 & _ & H).
  apply seq_ok in H as (extra & w4 & _ & H). cbv zeta in H. destruct (N.ltb_spec (c - local_offset r - 30) (name_size r + extra)); [done|].
  apply seq_ok in H as (vars & w5 & _ & H). apply seq_ok in H as (u & w6 & _ & H).
  destruct (N.ltb_spec c (local_offset r + 30 + (name_size r + extra))); cbn [orb] in H; [done|].
  destruct (N.ltb_spec (c - (local_offset r + 30 + (name_size r + extra))) (compressed r)); [done|].
  injection H as <- _. eexists. split; [reflexivity|]. lia.
Qed.

(** ** The loop *)

Definition path_of (e : Entry) : string * bool := (normalized_path e, directory e).

Record progress_ok (b : Budgets) (c : N) (p : Progress) : Prop := {
  progress_sorted : StdMap.sorted (normalized_paths p);
  progress_tree : tree_set (normalized_paths p);
  progress_paths : normalized_paths p ≡ₚ map (fun e => keyed (path_of e)) (collected p);
  progress_entries : Forall (entry_ok b) (collected p);
  progress_inside : Forall (fun e => data_end e <= c) (collected p);
  progress_totals : totals p = totals_of (collected p);
  progress_uncompressed : total_uncompressed (totals p) <= max_uncompressed_bytes b;
  progress_compressed : total_compressed (totals p) <= max_archive_bytes }.

Lemma started_ok b c : progress_ok b c started.
Proof. split; first [apply tree_set_nil|constructor|done|cbn; lia]. Qed.

Lemma inspect_entry_ok t deadline b source central c p w p' w' : progress_ok b c p →
  inspect_entry t deadline b source central c p w = (Ok p', w') →
  progress_ok b c p' ∧ length (collected p') = S (length (collected p)).
Proof.
  intros [H1 H2 H3 H4 H5 H6 H7 H8] H. unfold inspect_entry in H.
  apply seq_ok in H as (u1 & w1 & _ & H). apply seq_ok in H as (u2 & w2 & _ & H).
  apply seq_ok in H as ([[[[r normalized] is_directory] ts] paths] & w3 & [Hs ->]%lift_ok & H).
  apply seq_ok in H as (e & w4 & He & H). injection H as <- _. cbn [collected]. split; [|rewrite length_app; simpl; lia].
  unfold central_step in Hs. apply bind_ok in Hs as (r' & Hr & Hs). apply bind_ok in Hs as ([n d] & Hc & Hs).
  apply bind_ok in Hs as (ts' & Ha & Hs). apply bind_ok in Hs as (paths' & Hv & Hs). injection Hs as -> -> -> -> ->.
  apply read_local_inv in He as (offset & -> & Ho1 & Ho2). apply central_method in Hr.
  apply classify_inv in Hc as (Hn & Hraw & Hdir). apply account_inv in Ha as (Hb1 & Hb2 & ->).
  apply collision_exact in Hv as (Hf & -> & Ht); [|done|done].
  assert (1 <= name_size r) as Hsize by (unfold name_size, size; destruct (raw_name r); [done|simpl; lia]).
  split; cbn [normalized_paths collected totals position].
  - by apply StdMap.emplace_sorted.
  - done.
  - rewrite StdMap.emplace_perm by (rewrite StdMap.emplace_snd by done; unfold StdMap.contains_key; by rewrite Hf).
    rewrite map_app, H3. cbn [map]. by rewrite Permutation_cons_append.
  - apply Forall_app. split; [done|]. constructor; [|done]. split; cbn; try done; lia.
  - apply Forall_app. split; [done|]. by constructor.
  - rewrite H6. unfold totals_of. rewrite !sum_app. cbn. by destruct is_directory.
  - rewrite H6 in *. cbn [totals_of total_uncompressed] in *. destruct is_directory; [by rewrite N.add_0_r|].
    by destruct (Hb2 eq_refl).
  - rewrite H6 in *. cbn [totals_of total_compressed] in *. destruct is_directory; [by rewrite N.add_0_r|].
    by destruct (Hb2 eq_refl).
Qed.

Lemma inspect_entries_ok t deadline b source central c count : ∀ p w p' w', progress_ok b c p →
  inspect_entries t deadline b source central c count p w = (Ok p', w') →
  progress_ok b c p' ∧ length (collected p') = (count + length (collected p))%nat.
Proof.
  induction count as [|count IH]; intros p w p' w' Hp; cbn [inspect_entries].
  - intros [= <- _]. done.
  - intros (p1 & w1 & H1 & H)%seq_ok. apply inspect_entry_ok in H1 as [Hp1 Hl]; [|done].
    apply IH in H as [Hp' Hl']; [|done]. split; [done|]. lia.
Qed.

(** ** The whole inspection *)

Lemma read_size source offset count w data w' : StableFile.read source offset count w = (Ok data, w') →
  size data = count ∧ offset + count <= StableFile.size_bytes (StableFile.identity_ source).
Proof.
  unfold StableFile.read. destruct (N.ltb_spec (StableFile.size_bytes (StableFile.identity_ source)) offset); cbn [orb]; [done|].
  destruct (N.ltb_spec (StableFile.size_bytes (StableFile.identity_ source) - offset) count); [done|].
  destruct (N.eqb_spec count 0) as [->|Hc]; [intros [= <- _]; split; [done|lia]|].
  intros Hr. split; [|lia]. unfold StableFile.read_exact in Hr. apply seq_ok in Hr as (r & w1 & _ & Hr).
  destruct r as [content|]; [|done]. cbv zeta in Hr. destruct (N.eqb_spec (size (str_take (N.to_nat count)
    (str_drop (N.to_nat offset) content))) count) as [E|]; [|done]. by injection Hr as <- _.
Qed.

Lemma find_eocd_inv tail n eocd : find_eocd tail n = Ok (Some eocd) → eocd + 22 <= size tail.
Proof.
  induction n as [|n IH]; cbn [find_eocd]; [done|]. cbv zeta. intros (sig & _ & H)%bind_ok.
  destruct (sig =? 0x06054b50); [|by apply IH]. apply bind_ok in H as (len & _ & H).
  destruct (N.eqb_spec (N.of_nat n + 22 + len) (size tail)) as [E|]; [|by apply IH]. injection H as <-. lia.
Qed.

Lemma read_end_inv source w record central_end w' : read_end source w = (Ok (record, central_end), w') →
  central_end + 22 <= StableFile.size_bytes (StableFile.identity_ source).
Proof.
  unfold read_end. cbv zeta. intros H. apply seq_ok in H as (tail & w1 & [Ht _]%read_size & H).
  apply seq_ok in H as (found & w2 & [Hf ->]%lift_ok & H). destruct found as [eocd|]; [|done].
  assert (eocd + 22 <= size tail) as He by (destruct (22 <=? size tail); [by eapply find_eocd_inv|done]). clear Hf.
  apply seq_ok in H as (classic & w3 & _ & H). apply seq_ok in H as (locator & w4 & _ & H).
  apply seq_ok in H as (has & w5 & _ & H). destruct (needs_zip64 classic || has).
  - destruct locator as [data|]; [|done]. destruct has; [|done]. apply seq_ok in H as (offset & w6 & [Hl ->]%lift_ok & H).
    apply seq_ok in H as (zip64 & w7 & _ & H). apply seq_ok in H as (rec & w8 & _ & H). injection H as _ <- _.
    unfold locate_zip64 in Hl. apply bind_ok in Hl as (d1 & _ & Hl). apply bind_ok in Hl as (bad & _ & Hl).
    apply bind_unit in Hl as [_ Hl]. apply bind_ok in Hl as (o & _ & Hl). apply bind_unit in Hl as [Hb%throw_if_ok <-%ok_inj].
    apply orb_false_iff in Hb as [Hb%N.ltb_ge _]. lia.
  - injection H as _ <- _. lia.
Qed.

Definition budgets_bounded (b : Budgets) : Prop :=
  0 < max_entries b <= max_request_entries ∧ 0 < max_uncompressed_bytes b <= max_request_uncompressed_bytes ∧
  0 < max_entry_bytes b <= max_request_entry_bytes ∧ 0 < max_depth b <= max_request_depth ∧
  0 < max_ratio b <= max_request_ratio ∧ 0 < max_elapsed_ms b <= max_inspection_elapsed_ms.

Lemma bounded_unsigned v key maximum n : require_bounded_unsigned v key maximum = Ok n → 0 < n <= maximum.
Proof.
  unfold require_bounded_unsigned. intros (found & _ & H)%bind_ok. destruct found; try done.
  destruct (N.ltb_spec maximum n0); [done|]. destruct (N.eqb_spec n0 0); [done|]. apply ok_inj in H as <-. lia.
Qed.

Lemma parse_budgets_bounded v b : parse_budgets v = Ok b → budgets_bounded b.
Proof.
  unfold parse_budgets. intros H. apply bind_unit in H as [_ H].
  apply bind_ok in H as (n1 & H1%bounded_unsigned & H). apply bind_ok in H as (n2 & H2%bounded_unsigned & H).
  apply bind_ok in H as (n3 & H3%bounded_unsigned & H). apply bind_ok in H as (n4 & H4%bounded_unsigned & H).
  apply bind_ok in H as (n5 & H5%bounded_unsigned & H). apply bind_ok in H as (n6 & H6%bounded_unsigned & H).
  apply ok_inj in H as <-. unfold budgets_bounded. cbn. tauto.
Qed.

Lemma parse_request_bounded text parsed : parse_archive_request text = Ok parsed → budgets_bounded (request_budgets parsed).
Proof.
  unfold parse_archive_request. intros H.
  apply bind_ok in H as (request & _ & H). apply bind_unit in H as [_ H]. apply bind_ok in H as (schema & _ & H).
  apply bind_unit in H as [_ H]. apply bind_ok in H as (format & _ & H). apply bind_unit in H as [_ H].
  apply bind_ok in H as (archive & _ & H). do 3 apply bind_unit in H as [_ H].
  apply bind_ok in H as (bv & _ & H). apply bind_ok in H as (b & Hb & H). apply bind_ok in H as (resolved & _ & <-%ok_inj).
  by eapply parse_budgets_bounded.
Qed.

Definition set_text (l : list Entry) : string := Sha256.concat_chunks (map entry_line l).

Lemma entry_set_digest_eq l : entry_set_digest l = Ok (Sha256.sha256 (set_text l)).
Proof.
  unfold set_text. rewrite <- Sha256.run_sha256. unfold entry_set_digest, Sha256.run.
  assert (∀ h, fold_result (fun hash entry => Sha256.update hash (entry_line entry)) h l =
    fold_result Sha256.update h (map entry_line l)) as E; [|by rewrite E].
  induction l as [|e l IH]; intros h; [done|]. cbn [fold_result map]. destruct (Sha256.update h (entry_line e)); [apply IH|done].
Qed.

(** What an inspection promises to its callers. *)
Record sound_inspection (i : Inspection) : Prop := {
  sound_budgets : budgets_bounded (budgets i);
  sound_count : (0 < N.of_nat (length (entries i)) <= max_entries (budgets i));
  sound_each : Forall (entry_ok (budgets i)) (entries i);
  sound_tree : is_ok (collide (map path_of (entries i))) = true;
  sound_bytes : ∃ c, c + 22 <= StableFile.size_bytes (identity i) <= max_archive_bytes ∧
    ∀ x, (x < c ↔ ∃ e, e ∈ entries i ∧ holds_byte x e) ∧
      ∀ e e', e ∈ entries i → e' ∈ entries i → holds_byte x e → holds_byte x e' → e = e';
  sound_totals : mk_totals (uncompressed_bytes i) (compressed_bytes i) (file_count i) (directory_count i) =
    totals_of (entries i);
  sound_uncompressed : uncompressed_bytes i <= max_uncompressed_bytes (budgets i);
  sound_compressed : compressed_bytes i <= max_archive_bytes;
  sound_order : StronglySorted (fun e e' => string_ltb (normalized_path e) (normalized_path e') = true) (entries i);
  sound_digest : entry_set_digest_ i = Sha256.sha256 (set_text (entries i)) }.

Lemma sorted_strict l : NoDup (map (fun e => lowercase (normalized_path e)) l) →
  StronglySorted (fun e e' => string_ltb (normalized_path e) (normalized_path e') = true) (sort_by by_path l).
Proof.
  intros Hn.
  assert (StronglySorted (not_after by_path) (sort_by by_path l)) as Hs.
  { apply sort_by_sorted; [intros ? ?; apply ltb_asym|intros ? ? ?; apply ltb_trans_le]. }
  assert (NoDup (map (fun e => lowercase (normalized_path e)) (sort_by by_path l))) as Hn'.
  { by rewrite (Permutation_map _ (sort_by_perm by_path l)). }
  revert Hn'. clear Hn. induction Hs as [|e k Hk IH He]; intros Hn; [constructor|]. cbn [map] in Hn.
  apply NoDup_cons in Hn as [Hx Hn]. constructor; [by apply IH|]. rewrite Forall_forall in He. apply Forall_forall.
  intros e' He'. specialize (He e' He'). unfold not_after, by_path in He.
  destruct (string_ltb (normalized_path e) (normalized_path e')) eqn:E; [done|exfalso]. apply Hx.
  rewrite (string_ltb_total _ _ E He). by apply (list_elem_of_fmap_2 (fun e => lowercase (normalized_path e))).
Qed.

Lemma collide_perm l l' : l ≡ₚ l' → is_ok (collide l) = true → is_ok (collide l') = true.
Proof.
  intros Hp H. apply collisions_iff in H as [Hn Ht]. apply collisions_iff. split.
  - by rewrite <- (Permutation_map _ Hp).
  - intros f o d. rewrite <- !Hp. apply Ht.
Qed.

Lemma progress_collide b c p : progress_ok b c p → is_ok (collide (map path_of (collected p))) = true ∧
  NoDup (map (fun e => lowercase (normalized_path e)) (collected p)).
Proof.
  intros [H1 H2 H3 _ _ _ _ _].
  assert (NoDup (map (fun e => lowercase (normalized_path e)) (collected p))) as Hn.
  { pose proof (StdMap.sorted_nodup _ H1) as Hn. rewrite (Permutation_map fst H3), map_map in Hn. exact Hn. }
  split; [|done]. apply collide_accepts; [constructor| |].
  - rewrite app_nil_r, map_map. by apply (tree_set_perm _ _ H3).
  - rewrite app_nil_r, !map_map. exact Hn.
Qed.

Lemma inspect_zip_sound t request w i w' : inspect_zip t request w = (Ok i, w') → sound_inspection i.
Proof.
  unfold inspect_zip. intros H. apply seq_ok in H as (parsed & w1 & [Hp ->]%lift_ok & H). cbv zeta in H.
  apply seq_ok in H as (start & w2 & _ & H). apply seq_ok in H as (source & w3 & _ & H).
  destruct (N.ltb_spec (StableFile.size_bytes (StableFile.identity_ source)) 22); cbn [orb] in H; [done|].
  destruct (N.ltb_spec max_archive_bytes (StableFile.size_bytes (StableFile.identity_ source))) as [|Hmax]; [done|].
  apply seq_ok in H as (digest & w4 & _ & H). apply seq_ok in H as ([record central_end] & w5 & Hend%read_end_inv & H).
  destruct (end_invalid _ record central_end) eqn:Hinv; [done|].
  apply seq_ok in H as (central & w6 & _ & H). apply seq_ok in H as (p & w7 & Hloop & H).
  apply inspect_entries_ok in Hloop as [Hok Hlen]; [|apply started_ok]. cbn [started collected length] in Hlen.
  destruct (negb (position p =? size central)); [done|].
  apply seq_ok in H as (u1 & w8 & _ & H). apply seq_ok in H as (u2 & w9 & _ & H).
  apply seq_ok in H as ([] & w10 & [Hr ->]%lift_ok & H). apply seq_ok in H as (set_digest & w11 & [Hd ->]%lift_ok & H).
  apply seq_ok in H as (time & w12 & _ & H). apply seq_ok in H as (u3 & w13 & _ & H). injection H as <- _.
  rewrite entry_set_digest_eq in Hd. apply ok_inj in Hd as <-.
  pose proof (sort_by_perm by_path (collected p)) as Hperm. pose proof Hok as [_ _ _ H4 H5 H6 H7 H8].
  apply check_ranges_tiles in Hr as (l & Hl & Htiles).
  unfold end_invalid in Hinv. repeat (apply orb_false_iff in Hinv as [Hinv ?]).
  repeat match goal with H : (_ <? _) = false |- _ => apply N.ltb_ge in H end.
  apply N.eqb_neq in Hinv. destruct (progress_collide _ _ _ Hok) as [Hcol Hnd].
  assert (Forall forward l) as Hforward.
  { rewrite Hl. eapply Forall_impl; [exact H4|]. intros e [_ _ _ _ He1 He2]. unfold forward. lia. }
  split; cbn [budgets entries identity uncompressed_bytes compressed_bytes file_count directory_count entry_set_digest_].
  - by eapply parse_request_bounded.
  - rewrite Hperm. lia.
  - by rewrite Hperm.
  - by apply (collide_perm (map path_of (collected p))); [apply Permutation_map|].
  - exists (central_offset record). split; [lia|]. intros x. split; [split|].
    + intros Hx. destruct (tiles_cover 0 l _ x Htiles) as (e & He & Hh); [lia|]. exists e. split; [|done].
      by rewrite Hperm, <- Hl.
    + intros (e & He & Hh). rewrite Hperm in He. rewrite Forall_forall in H5. apply H5 in He. unfold holds_byte in Hh. lia.
    + intros e e'. rewrite Hperm, <- Hl. intros He He'. by eapply tiles_unique.
  - unfold totals_of. rewrite !(sum_perm _ _ _ Hperm). fold (totals_of (collected p)). rewrite <- H6.
    by destruct (totals p).
  - done.
  - done.
  - by apply sorted_strict.
  - done.
Qed.

(** C20 Whatever the host does during an inspection, one that returns is sound: the
    budgets are within the hard limits and every one of them holds; the paths are
    normal, safe and name one tree on every file system; directories are empty and
    the sizes of files keep the ratio; before the central directory, which with the
    end record lies within the file, every byte belongs to exactly one entry; the
    totals are the sums over the entries, which are strictly sorted by path; and the
    digest is the SHA-256 of their lines. *)
Theorem archive_inspection_sound t request w i w' :
  inspect_zip t request w = (Ok i, w') → sound_inspection i.
Proof. apply inspect_zip_sound. Qed.

End ArchiveFacts.
