(* ===== verification/ArchivePayload.v ===== *)
(** The payload of an inspected archive: the second half of
    [runtime/setup/package/usk_archive_inspect.cpp], which reads the files of a
    reviewed archive either at once or in pieces.  The Deflate decoder is zlib's and
    a parameter here. *)

From Stdlib Require Import Ascii String NArith ZArith Lia.
From stdpp Require Import base list strings gmap sets.
From S2P Require Import Prelude Effects Sha256 StdMap Json Path World RecordIo TextFacts Archive.

Module ArchivePayload.
Import Path Effects World RecordIo Archive.

Definition max_materialized_payload_bytes : N := 512 * 1024 * 1024.
Definition streaming_payload_buffer_bytes : N := 64 * 1024.
Definition size_max : N := uint64_max.

Record PayloadFile := mk_file { relative_path : string; bytes : string; file_sha256 : string }.

Record StoredArchivePayload := mk_payload {
  payload_source_sha256 : string;
  payload_identity_digest : string;
  payload_entry_set_digest : string;
  archive_size_bytes : N;
  payload_bytes : N;
  files : list PayloadFile }.

Record PayloadMemoryObservation := mk_observation {
  materialization_ceiling_bytes : N;
  final_payload_size_bytes : N;
  final_payload_capacity_bytes : N;
  peak_payload_capacity_bytes : N;
  largest_entry_bytes : N;
  observed_file_count : N;
  complete_payload_retained : bool }.

(** ** CRC-32 *)

Definition word32 : N := 2 ^ 32.
Definition all_ones : N := 0xffffffff.

Definition crc_bit (crc : N) : N :=
  N.lxor (N.shiftr crc 1) (N.land 0xedb88320 ((word32 - N.land crc 1) mod word32)).

(** [for (int bit = 0; bit < 8; ++bit)]. *)
Definition crc_byte (crc : N) : N := Nat.iter 8 crc_bit crc.

Definition payload_crc32_step (crc : N) (c : ascii) : N := crc_byte (N.lxor crc (code c)).

Definition payload_crc32 (data : string) : N :=
  N.lxor (fold_left payload_crc32_step (list_ascii_of_string data) all_ones) all_ones.

Definition crc32_table : list N := map (fun index => crc_byte (N.of_nat index)) (seq 0 256).

Record PayloadIntegrity := mk_integrity { sha256_ : Sha256.Sha256; crc32_ : N }.

Definition new_integrity : PayloadIntegrity := mk_integrity Sha256.initial all_ones.

Definition table_step (table : list N) (crc : N) (c : ascii) : N :=
  N.lxor (nth (N.to_nat (N.land (N.lxor crc (code c)) 0xff)) table 0) (N.shiftr crc 8).

Definition integrity_update (i : PayloadIntegrity) (data : string) : result PayloadIntegrity :=
  hash ← Sha256.update (sha256_ i) data;
  Ok (mk_integrity hash (fold_left (table_step crc32_table) (list_ascii_of_string data) (crc32_ i))).

Definition finish_sha256 (i : PayloadIntegrity) : result string :=
  '(hex, _) ← Sha256.finish (sha256_ i); Ok hex.

Definition finish_crc32 (i : PayloadIntegrity) : N := N.lxor (crc32_ i) all_ones.

(** ** Helpers *)

Definition source_identity_digest (i : StableFile.StableFileIdentity) : result string :=
  Sha256.hash_text (StableFile.volume_id i +:+ newline +:+ StableFile.file_id i +:+ newline +:+
    to_string (StableFile.size_bytes i) +:+ newline +:+ to_string (StableFile.modified_time_ns i) +:+ newline +:+
    to_string (StableFile.links i)).

Definition strip_entry_path (entry prefix : string) (is_directory : bool) : result string :=
  if is_empty prefix then Ok entry
  else if String.eqb entry prefix
  then if is_directory then Ok EmptyString else throw "strip prefix resolves to a file entry"
  else
    let required := prefix +:+ "/" in
    if String.prefix required entry then Ok (str_drop (String.length required) entry)
    else throw "archive entry is outside the reviewed strip prefix".

Definition normalize_prefix (strip_prefix : string) (b : Budgets) : result string :=
  if is_empty strip_prefix then Ok EmptyString
  else
    '(normalized, trailing) ← normalize_path strip_prefix (max_depth b);
    throw_if trailing "strip prefix must not have a trailing separator";;
    Ok normalized.

Definition identity_changed (a b : StableFile.StableFileIdentity) : bool :=
  negb (String.eqb (StableFile.volume_id a) (StableFile.volume_id b)) ||
  negb (String.eqb (StableFile.file_id a) (StableFile.file_id b)) ||
  negb (StableFile.size_bytes a =? StableFile.size_bytes b) ||
  negb (StableFile.modified_time_ns a =? StableFile.modified_time_ns b).

(** The source opened again, with the identity and the digest of the inspection. *)
Definition reopen (t : Timer) (i : Inspection) : io (StableFile.StableFile * N) :=
  source ← StableFile.open_stable (inspected_path i);
  if identity_changed (StableFile.identity_ source) (identity i)
  then fail "source archive identity changed after inspection"
  else
    start ← steady_now t;
    let deadline := start + max_elapsed_ms (budgets i) in
    digest ← hash_source_until t source deadline;
    if negb (String.eqb digest (source_sha256 i)) then fail "source archive digest changed after inspection"
    else ret (source, deadline).

(** ** All at once *)

(** The loop state: the lower-case paths, the files, the retained and the peak
    capacity, the largest entry and the bytes. *)
Record Materialized := mk_materialized {
  seen : list string;
  kept : list PayloadFile;
  retained_capacity : N;
  peak_capacity : N;
  largest_entry : N;
  kept_bytes : N }.

Section Capacity.
(** [vector::capacity()] of a vector read with this many bytes. *)
Context (capacity : N → N).

Definition over_budget (retained amount : N) : bool :=
  (max_materialized_payload_bytes <? amount) || (max_materialized_payload_bytes - amount <? retained).

Definition materialize (source : StableFile.StableFile) (prefix : string) (m : Materialized) (e : Entry)
    : io Materialized :=
  path ← lift (strip_entry_path (normalized_path e) prefix (directory e));
  if directory e || is_empty path then ret m
  else if negb (compression_method e =? 0) || negb (compressed_size e =? uncompressed_size e)
  then fail "public lifecycle materialization currently requires stored ZIP file entries"
  else
    let '(paths, inserted) := StdMap.set_insert (lowercase path) (seen m) in
    if negb inserted then fail "strip prefix creates a payload path collision"
    else if size_max <? compressed_size e then fail "stored ZIP payload exceeds the addressable read size"
    else
      data ← StableFile.read source (data_offset e) (compressed_size e);
      let amount := capacity (size data) in
      if over_budget (retained_capacity m) amount
      then fail "archive payload vector capacity exceeds the materialization budget"
      else
        let peak := N.max (peak_capacity m) (retained_capacity m + amount) in
        let largest := N.max (largest_entry m) (uncompressed_size e) in
        if negb (payload_crc32 data =? crc32 e)
        then fail "stored ZIP payload CRC does not match reviewed metadata"
        else
          digest ← lift (Sha256.hash_text data);
          (* the moved vector keeps its capacity, so the second test is the first one *)
          if over_budget (retained_capacity m) amount
          then fail "retained archive payload exceeds the materialization budget"
          else
            let retained := retained_capacity m + amount in
            ret (mk_materialized paths (kept m ++ [mk_file path data digest]) retained (N.max peak retained) largest
              (kept_bytes m + uncompressed_size e)).

Definition inspect_stored_payload (t : Timer) (request strip_prefix : string)
    : io (StoredArchivePayload * PayloadMemoryObservation) :=
  i ← inspect_zip (no_cancellation t) request;
  if max_materialized_payload_bytes <? uncompressed_bytes i
  then fail "archive payload exceeds the public lifecycle materialization budget"
  else
    prefix ← lift (normalize_prefix strip_prefix (budgets i));
    '(source, _) ← reopen (no_cancellation t) i;
    identity_digest ← lift (source_identity_digest (identity i));
    m ← fold_eff (materialize source prefix) (mk_materialized [] [] 0 0 0 0) (entries i);
    if bool_decide (kept m = []) then fail "archive payload has no files after strip prefix"
    else
      StableFile.verify_unchanged source;;
      ret (mk_payload (source_sha256 i) identity_digest (entry_set_digest_ i)
             (StableFile.size_bytes (identity i)) (kept_bytes m) (kept m),
           mk_observation max_materialized_payload_bytes (kept_bytes m) (retained_capacity m) (peak_capacity m)
             (largest_entry m) (N.of_nat (length (kept m))) true).

End Capacity.
End ArchivePayload.

(** CRC-32 of payloads: the table-driven update over any cut of the data agrees with
    the bitwise routine over the whole of it. *)

Module ArchiveCrc.
Import ArchivePayload.

(** ** One bit *)

Lemma word_mask b : (word32 - N.b2n b) mod word32 = if b then all_ones else 0.
Proof. by destruct b. Qed.

Lemma all_ones_land x : x < word32 → N.land x all_ones = x.
Proof. intros H. change all_ones with (N.ones 32). rewrite N.land_ones. by apply N.mod_small. Qed.

Lemma crc_bit_eq crc : crc_bit crc = N.lxor (N.shiftr crc 1) (if N.odd crc then 0xedb88320 else 0).
Proof.
  unfold crc_bit. change 1 with (N.ones 1) at 2. rewrite N.land_ones. change (2 ^ 1) with 2.
  rewrite <- N.bit0_mod, N.bit0_odd, word_mask. destruct (N.odd crc); [by rewrite all_ones_land|done].
Qed.

(** The step is linear over exclusive or. *)
Lemma crc_bit_lxor a b : crc_bit (N.lxor a b) = N.lxor (crc_bit a) (crc_bit b).
Proof.
  rewrite !crc_bit_eq, N.shiftr_lxor. rewrite <- (N.bit0_odd (N.lxor a b)), N.lxor_spec, !N.bit0_odd.
  rewrite !N.lxor_assoc. f_equal. rewrite (N.lxor_comm _ (N.lxor (N.shiftr b 1) _)), !N.lxor_assoc. f_equal.
  by destruct (N.odd a), (N.odd b).
Qed.

Lemma iter_bits_lxor n a b : Nat.iter n crc_bit (N.lxor a b) = N.lxor (Nat.iter n crc_bit a) (Nat.iter n crc_bit b).
Proof. induction n as [|n IH]; [done|]. rewrite !Nat.iter_succ, IH. apply crc_bit_lxor. Qed.

(** On a number whose low bits are clear the steps only shift. *)
Lemma crc_bit_shift x k : crc_bit (N.shiftl x (N.succ k)) = N.shiftl x k.
Proof.
  rewrite crc_bit_eq, <- N.bit0_odd, N.shiftl_spec_low by lia. rewrite N.lxor_0_r, N.shiftr_shiftl_l by lia.
  f_equal. lia.
Qed.

Lemma iter_bits_shift n x : Nat.iter n crc_bit (N.shiftl x (N.of_nat n)) = x.
Proof.
  revert x. induction n as [|n IH]; intros x; [apply N.shiftl_0_r|].
  rewrite Nat.iter_succ_r, Nat2N.inj_succ, crc_bit_shift. apply IH.
Qed.

(** ** One byte *)

Lemma low_byte y : y = N.lxor (N.land y 0xff) (N.shiftl (N.shiftr y 8) 8).
Proof.
  apply N.bits_inj. intros k. rewrite N.lxor_spec, N.land_spec. change 0xff with (N.ones 8).
  destruct (N.lt_ge_cases k 8) as [H|H].
  - rewrite N.ones_spec_low, N.shiftl_spec_low by done. by rewrite andb_true_r, xorb_false_r.
  - rewrite N.ones_spec_high, N.shiftl_spec_high', N.shiftr_spec' by done. rewrite andb_false_r. cbn [xorb].
    f_equal. lia.
Qed.

(** Eight steps at once, through the table of the 256 low bytes. *)
Lemma crc_byte_split y : crc_byte y = N.lxor (crc_byte (N.land y 0xff)) (N.shiftr y 8).
Proof.
  unfold crc_byte. rewrite (low_byte y) at 1. rewrite iter_bits_lxor. f_equal.
  apply (iter_bits_shift 8).
Qed.

Lemma table_lookup k : (k < 256)%nat → nth k crc32_table 0 = crc_byte (N.of_nat k).
Proof.
  intros H. unfold crc32_table. erewrite nth_indep by (rewrite length_map, length_seq; exact H).
  rewrite (map_nth (fun index => crc_byte (N.of_nat index)) (seq 0 256) 0%nat k). by rewrite seq_nth.
Qed.

Lemma land_byte x : N.land x 0xff < 256.
Proof. change 0xff with (N.ones 8). rewrite N.land_ones. by apply N.mod_lt. Qed.

Lemma shiftr_code crc c : N.shiftr (N.lxor crc (code c)) 8 = N.shiftr crc 8.
Proof.
  rewrite N.shiftr_lxor. assert (N.shiftr (code c) 8 = 0) as ->; [|apply N.lxor_0_r].
  rewrite N.shiftr_div_pow2. apply N.div_small. apply N_ascii_bounded.
Qed.

Lemma table_step_eq crc c : table_step crc32_table crc c = payload_crc32_step crc c.
Proof.
  unfold table_step, payload_crc32_step. rewrite crc_byte_split, shiftr_code.
  rewrite table_lookup by (pose proof (land_byte (N.lxor crc (code c))); lia). by rewrite N2Nat.id.
Qed.

(** ** Any cut of the data *)

Lemma list_ascii_app s u : list_ascii_of_string (s +:+ u) = list_ascii_of_string s ++ list_ascii_of_string u.
Proof. induction s as [|c s IH]; [done|]. cbn. by rewrite IH. Qed.

(** The value that the updates so far stand for. *)
Definition absorbed (i : PayloadIntegrity) (data : string) : Prop :=
  Sha256.fed (sha256_ i) data ∧
  crc32_ i = fold_left payload_crc32_step (list_ascii_of_string data) all_ones.

Lemma absorbed_new : absorbed new_integrity EmptyString.
Proof. split; [apply Sha256.fed_initial|done]. Qed.

Lemma absorbed_update i data piece : absorbed i data →
  ∃ i', integrity_update i piece = Ok i' ∧ absorbed i' (data +:+ piece).
Proof.
  intros [Hs Hc]. destruct (Sha256.fed_update _ _ piece Hs) as (h & E & Hf).
  unfold integrity_update. rewrite E. eexists. split; [reflexivity|]. split; [exact Hf|]. cbn [crc32_].
  rewrite list_ascii_app, fold_left_app, <- Hc. generalize (crc32_ i).
  induction (list_ascii_of_string piece) as [|c l IH]; intros crc; [done|]. cbn [fold_left]. by rewrite table_step_eq.
Qed.

Lemma absorbed_finish i data : absorbed i data →
  finish_sha256 i = Ok (Sha256.sha256 data) ∧ finish_crc32 i = payload_crc32 data.
Proof.
  intros [Hs Hc]. split.
  - unfold finish_sha256. destruct (Sha256.finish_fed _ _ Hs) as (h & E & _). by rewrite E.
  - unfold finish_crc32, payload_crc32. by rewrite Hc.
Qed.

(** C25 However a payload is cut into pieces, updating the integrity object with the
    pieces in turn never fails, and what it finishes with is the SHA-256 reference
    digest of the whole payload and the CRC that the bitwise routine computes of it:
    the table of 256 entries stands for eight steps of the polynomial. *)
Theorem integrity_streaming pieces : ∃ i, fold_result integrity_update new_integrity pieces = Ok i ∧
  finish_sha256 i = Ok (Sha256.sha256 (Sha256.concat_chunks pieces)) ∧
  finish_crc32 i = payload_crc32 (Sha256.concat_chunks pieces).
Proof.
  assert (∀ i data, absorbed i data → ∃ i', fold_result integrity_update i pieces = Ok i' ∧
    absorbed i' (data +:+ Sha256.concat_chunks pieces)) as H.
  { induction pieces as [|p pieces IH]; intros i data Hi; simpl.
    - exists i. by rewrite append_nil_r.
    - destruct (absorbed_update i data p Hi) as (i1 & -> & H1). simpl.
      destruct (IH i1 _ H1) as (i2 & -> & H2). rewrite append_assoc in H2. eauto. }
  destruct (H new_integrity EmptyString absorbed_new) as (i & E & Hi). exists i. split; [done|].
  by apply absorbed_finish.
Qed.

End ArchiveCrc.
