(* ===== verification/ArchiveStream.v ===== *)
(** The payload of an archive in pieces: the readers of
    [runtime/setup/package/usk_archive_inspect.cpp] and the inspection that runs every
    file through one of them.  zlib's decoder is a parameter: [zstream] is its state,
    [inflate] one call on the input and the output space it is given. *)

From Stdlib Require Import Ascii String NArith ZArith Lia.
From stdpp Require Import base list strings gmap sets.
From S2P Require Import Prelude Effects Sha256 StdMap Json Path World RecordIo TextFacts Archive ArchivePayload.

Module ArchiveStream.
Import Path Effects World RecordIo Archive ArchivePayload.

(** What one call of [inflate] reports. *)
Inductive zstatus := Z_OK | Z_STREAM_END | Z_ERROR (code : Z).

Record inflated (zstream : Type) := mk_inflated {
  status : zstatus;
  consumed : N;
  produced : string;
  after : zstream }.
Arguments mk_inflated {_}. Arguments status {_}. Arguments consumed {_}. Arguments produced {_}. Arguments after {_}.

(** [static_cast<uInt>]. *)
Definition uint (n : N) : N := n mod 2 ^ 32.

Definition read_into (source : StableFile.StableFile) (offset : N) (has_output : bool) (count : N) : io string :=
  if (negb has_output && negb (count =? 0)) ||
    (StableFile.size_bytes (StableFile.identity_ source) <? offset) ||
    (StableFile.size_bytes (StableFile.identity_ source) - offset <? count)
  then fail "local archive read exceeds stable source bounds"
  else if negb (count =? 0) then StableFile.read_exact source offset count else ret EmptyString.

Section Zlib.
Context {zstream : Type} (zfresh : zstream) (inflate : zstream → string → N → inflated zstream).

(** ** The Deflate reader *)

(** [input_] is the part of the input buffer from [next_in] on, [avail_in] bytes. *)
Record DeflatePayloadReader := mk_deflate {
  source_ : StableFile.StableFile;
  data_offset_ : N;
  compressed_size_ : N;
  uncompressed_size_ : N;
  fetched_input_ : N;
  output_offset_ : N;
  consumed_input_ : N;
  produced_output_ : N;
  input_bytes_ : N;
  input_ : string;
  deadline_ : N;
  stream_ : zstream;
  finished_ : bool }.

(** The object and the host; an exception leaves the object as far as it got. *)
Definition dio (A : Type) : Type := M (DeflatePayloadReader * world) A.

Definition this : dio DeflatePayloadReader := s ← get; ret (fst s).
Definition set_this (d : DeflatePayloadReader) : dio unit := modify (fun s => (d, snd s)).
Definition call {A} (m : io A) : dio A := on_snd m.

(** The constructor; [inflateInit2] allocates and so may fail. *)
Definition new_deflate (source : StableFile.StableFile) (data_offset compressed_size uncompressed_size
    input_buffer_bytes deadline : N) : io DeflatePayloadReader :=
  failed ← step;
  if failed : bool then fail "could not initialize the private ZIP Deflate reader"
  else ret (mk_deflate source data_offset compressed_size uncompressed_size 0 0 0 0 input_buffer_bytes EmptyString
              deadline zfresh false).

Definition deflate_expired : string := "ZIP Deflate streaming exceeded its time budget".

Definition deflate_check_deadline (t : Timer) : dio unit :=
  d ← this;
  call (check_cancelled t);;
  call (check_deadline t (deadline_ d) deflate_expired).

Definition fill_input (t : Timer) : dio unit :=
  deflate_check_deadline t;;
  d ← this;
  if negb (size (input_ d) =? 0) || (fetched_input_ d =? compressed_size_ d) then ret tt
  else
    let count := N.min (input_bytes_ d) (compressed_size_ d - fetched_input_ d) in
    data ← call (read_into (source_ d) (data_offset_ d + fetched_input_ d) true count);
    set_this (mk_deflate (source_ d) (data_offset_ d) (compressed_size_ d) (uncompressed_size_ d)
      (fetched_input_ d + count) (output_offset_ d) (consumed_input_ d) (produced_output_ d) (input_bytes_ d)
      (str_take (N.to_nat (uint count)) data) (deadline_ d) (stream_ d) (finished_ d)).

(** [inflate(&stream_, Z_NO_FLUSH)] with the counters around it: the status, whether
    input was consumed, and the output. *)
Definition run_inflate (avail_out : N) : dio (zstatus * bool * string) :=
  d ← this;
  let before_input := size (input_ d) in
  let r := inflate (stream_ d) (input_ d) avail_out in
  let rest := str_drop (N.to_nat (consumed r)) (input_ d) in
  set_this (mk_deflate (source_ d) (data_offset_ d) (compressed_size_ d) (uncompressed_size_ d)
    (fetched_input_ d) (output_offset_ d) (consumed_input_ d + (before_input - size rest))
    (produced_output_ d + size (produced r)) (input_bytes_ d) rest (deadline_ d) (after r) (finished_ d));;
  ret (status r, before_input =? size rest, produced r).

Definition set_finished : dio unit :=
  d ← this;
  set_this (mk_deflate (source_ d) (data_offset_ d) (compressed_size_ d) (uncompressed_size_ d)
    (fetched_input_ d) (output_offset_ d) (consumed_input_ d) (produced_output_ d) (input_bytes_ d)
    (input_ d) (deadline_ d) (stream_ d) true).

Definition advance_output (count : N) : dio unit :=
  d ← this;
  set_this (mk_deflate (source_ d) (data_offset_ d) (compressed_size_ d) (uncompressed_size_ d)
    (fetched_input_ d) (output_offset_ d + count) (consumed_input_ d) (produced_output_ d) (input_bytes_ d)
    (input_ d) (deadline_ d) (stream_ d) (finished_ d)).

Definition malformed : string := "ZIP Deflate stream is truncated or malformed".

(** [while (stream_.avail_out != 0u && !finished_)]; every round consumes input or
    produces output or is the last one. *)
Fixpoint inflate_loop (t : Timer) (fuel : nat) (avail_out : N) (written : string) : dio (N * string) :=
  d ← this;
  if negb (avail_out =? 0) && negb (finished_ d) then
    match fuel with
    | O => raise out_of_fuel
    | S fuel =>
      fill_input t;;
      '(status, same_input, output) ← run_inflate avail_out;
      (match status with
       | Z_STREAM_END => set_finished
       | Z_OK => ret tt
       | Z_ERROR _ => fail malformed
       end);;
      d ← this;
      let remaining := avail_out - size output in
      if same_input && (avail_out =? remaining) && negb (finished_ d) then fail "ZIP Deflate stream made no progress"
      else inflate_loop t fuel remaining (written +:+ output)
    end
  else ret (avail_out, written).

(** [while (!finished_)] of [finish_exactly], with its one-byte probe. *)
Fixpoint finish_loop (t : Timer) (fuel : nat) : dio unit :=
  d ← this;
  if negb (finished_ d) then
    match fuel with
    | O => raise out_of_fuel
    | S fuel =>
      deflate_check_deadline t;;
      fill_input t;;
      '(status, same_input, output) ← run_inflate 1;
      if 1 - size output =? 0 then fail "ZIP Deflate output exceeds the reviewed size"
      else
        (match status with
         | Z_STREAM_END => set_finished
         | Z_OK => if same_input : bool then fail malformed else ret tt
         | Z_ERROR _ => fail malformed
         end);;
        finish_loop t fuel
    end
  else ret tt.

Definition finish_exactly (t : Timer) : dio unit :=
  d ← this;
  finish_loop t (S (N.to_nat (compressed_size_ d)));;
  d ← this;
  if negb (output_offset_ d =? uncompressed_size_ d) || negb (produced_output_ d =? uncompressed_size_ d) ||
    negb (consumed_input_ d =? compressed_size_ d) || negb (fetched_input_ d =? compressed_size_ d) ||
    negb (size (input_ d) =? 0)
  then fail "ZIP Deflate stream does not end at its reviewed boundaries"
  else ret tt.

(** The count returned and the bytes written at the start of the output buffer. *)
Definition deflate_read (t : Timer) (relative_offset : N) (has_output : bool) (capacity : N) : dio (N * string) :=
  d ← this;
  if negb (relative_offset =? output_offset_ d) then fail "ZIP Deflate reader requires sequential reviewed offsets"
  else if uncompressed_size_ d <? relative_offset then fail "ZIP Deflate reader offset exceeds the reviewed entry"
  else
    deflate_check_deadline t;;
    if relative_offset =? uncompressed_size_ d then
      finish_exactly t;;
      deflate_check_deadline t;;
      d ← this;
      call (StableFile.verify_unchanged (source_ d));;
      ret (0, EmptyString)
    else if negb has_output || (capacity =? 0) then fail "ZIP Deflate reader requires an output buffer"
    else
      let allowed := N.min capacity (uncompressed_size_ d - output_offset_ d) in
      '(remaining, written) ← inflate_loop t (S (N.to_nat (compressed_size_ d + uint allowed))) (uint allowed) EmptyString;
      let count := allowed - remaining in
      advance_output count;;
      d ← this;
      if uncompressed_size_ d <? output_offset_ d then fail "ZIP Deflate output exceeds the reviewed size"
      else if finished_ d && negb (output_offset_ d =? uncompressed_size_ d)
      then fail "ZIP Deflate stream ended before the reviewed size"
      else if (count =? 0) && negb (output_offset_ d =? uncompressed_size_ d)
      then fail "ZIP Deflate stream ended without output"
      else
        (if output_offset_ d =? uncompressed_size_ d then finish_exactly t;; deflate_check_deadline t else ret tt);;
        ret (count, written).

(** ** Payload readers *)

(** The closures: what they captured, and the [mutable] state of a Deflate reader. *)
Inductive PayloadReader :=
| stored_payload_reader (source : StableFile.StableFile) (data_offset size_bytes deadline : N)
| deflate_payload_reader (source : StableFile.StableFile)
    (data_offset compressed_size uncompressed_size input_buffer_bytes deadline : N)
    (state : option DeflatePayloadReader).

Definition stored_read (t : Timer) (source : StableFile.StableFile) (data_offset size_bytes deadline : N)
    (relative_offset : N) (has_output : bool) (capacity : N) : io (N * string) :=
  if size_bytes <? relative_offset then fail "stored ZIP streaming reader offset exceeds the reviewed entry"
  else
    check_cancelled t;;
    check_deadline t deadline "stored ZIP streaming apply exceeded its time budget";;
    if relative_offset =? size_bytes then StableFile.verify_unchanged source;; ret (0, EmptyString)
    else if negb has_output || (capacity =? 0) then fail "stored ZIP streaming reader requires an output buffer"
    else
      let count := N.min capacity (size_bytes - relative_offset) in
      data ← read_into source (data_offset + relative_offset) has_output count;
      ret (count, data).

(** A call of the closure. *)
Definition invoke (t : Timer) (relative_offset : N) (has_output : bool) (capacity : N)
    : M (PayloadReader * world) (N * string) := fun '(r, w) =>
  match r with
  | stored_payload_reader source data_offset size_bytes deadline =>
    on_snd (stored_read t source data_offset size_bytes deadline relative_offset has_output capacity) (r, w)
  | deflate_payload_reader source data_offset compressed_size uncompressed_size input_buffer_bytes deadline state =>
    let with_state state :=
      deflate_payload_reader source data_offset compressed_size uncompressed_size input_buffer_bytes deadline state in
    let init : io DeflatePayloadReader :=
      match state with
      | Some d => ret d
      | None =>
        if negb (relative_offset =? 0) then fail "ZIP Deflate reader cannot resume without reviewed state"
        else new_deflate source data_offset compressed_size uncompressed_size input_buffer_bytes deadline
      end in
    match init w with
    | (Throw e, w) => (Throw e, (r, w))
    | (Ok d, w) =>
      match deflate_read t relative_offset has_output capacity (d, w) with
      | (Throw e, (d, w)) => (Throw e, (with_state (Some d), w))
      | (Ok (count, data), (d, w)) =>
        let reset := (relative_offset =? uncompressed_size) && (count =? 0) in
        (Ok (count, data), (with_state (if reset then None else Some d), w))
      end
    end
  end.

(** ** The inspection in pieces *)

Record StreamingPayloadFile := mk_streaming_file {
  stream_path : string;
  stream_sha256 : string;
  stream_crc32 : N;
  stream_size_bytes : N;
  reader : PayloadReader;
  method_name : string }.

(** [validate_source] captured the source and the deadline. *)
Record StreamingStoredArchivePayload := mk_streaming {
  stream_source_sha256 : string;
  stream_identity_digest : string;
  stream_entry_set_digest : string;
  stream_archive_size_bytes : N;
  stream_uncompressed_bytes : N;
  payload_buffer_bytes : N;
  stream_files : list StreamingPayloadFile;
  stream_source : StableFile.StableFile;
  stream_deadline : N }.

Record StreamingPayloadMemoryObservation := mk_streaming_observation {
  logical_payload_bytes : N;
  peak_payload_buffer_bytes : N;
  peak_compressed_input_buffer_bytes : N;
  peak_total_stream_buffer_bytes : N;
  stream_file_count : N;
  stream_payload_retained : bool }.

Definition cancelled (t : Timer) : io bool :=
  match cancellation t with
  | None => ret false
  | Some check => step;; w ← get; ret (check (steps w))
  end.

Definition validate_source (t : Timer) (p : StreamingStoredArchivePayload) : io unit :=
  stopped ← cancelled t;
  expired ← (if stopped : bool then ret true else now ← steady_now t; ret (stream_deadline p <? now));
  if expired : bool then fail "archive source admission expired or was cancelled"
  else StableFile.verify_unchanged (stream_source p).

Definition streaming_expired : string := "ZIP streaming inspection exceeded its time budget".

(** The reader of an entry, new for the inspection and again for the payload. *)
Definition entry_reader (source : StableFile.StableFile) (e : Entry) (buffer_bytes deadline : N) : PayloadReader :=
  if compression_method e =? 8
  then deflate_payload_reader source (data_offset e) (compressed_size e) (uncompressed_size e) buffer_bytes deadline None
  else stored_payload_reader source (data_offset e) (uncompressed_size e) deadline.

(** The first bytes of a buffer overwritten. *)
Definition overwrite (written buffer : string) : string := written +:+ str_drop (String.length written) buffer.

(** [while (offset < entry.uncompressed_size)]: the buffer, the integrity and the
    offset; every round moves the offset on. *)
Fixpoint inspect_pieces (t : Timer) (deadline total : N) (fuel : nat) (buffer : string) (integrity : PayloadIntegrity)
    (offset : N) : M (PayloadReader * world) (PayloadIntegrity * string * N) :=
  if offset <? total then
    match fuel with
    | O => raise out_of_fuel
    | S fuel =>
      on_snd (check_deadline t deadline streaming_expired);;
      let capacity := N.min (size buffer) (total - offset) in
      '(count, written) ← invoke t offset true capacity;
      let buffer := overwrite written buffer in
      if (count =? 0) || (capacity <? count) then fail "ZIP streaming inspection returned a short read"
      else
        integrity ← lift (integrity_update integrity (str_take (N.to_nat count) buffer));
        inspect_pieces t deadline total fuel buffer integrity (offset + count)
    end
  else ret (integrity, buffer, offset).

(** Everything the reader of one entry is asked for. *)
Definition inspect_content (t : Timer) (deadline total : N) (buffer : string)
    : M (PayloadReader * world) (PayloadIntegrity * string) :=
  '(integrity, buffer, offset) ← inspect_pieces t deadline total (N.to_nat total) buffer new_integrity 0;
  '(count, _) ← invoke t offset true 1;
  if negb (count =? 0) then fail "ZIP streaming payload exceeds the reviewed size"
  else ret (integrity, buffer).

(** A reader that lives as long as the computation. *)
Definition with_reader {A} (r : PayloadReader) (m : M (PayloadReader * world) A) : io A := fun w =>
  let '(a, (_, w)) := m (r, w) in (a, w).

Record Streamed := mk_streamed {
  stream_seen : list string;
  streamed : list StreamingPayloadFile;
  has_deflate : bool;
  streamed_bytes : N;
  stream_buffer : string }.

Definition stream_entry (t : Timer) (allow_deflate : bool) (source : StableFile.StableFile)
    (prefix : string) (buffer_bytes deadline : N) (s : Streamed) (e : Entry) : io Streamed :=
  check_cancelled t;;
  check_deadline t deadline streaming_expired;;
  path ← lift (strip_entry_path (normalized_path e) prefix (directory e));
  if directory e || is_empty path then ret s
  else if (compression_method e =? 0) && negb (compressed_size e =? uncompressed_size e)
  then fail "stored ZIP entry sizes do not match"
  else if (compression_method e =? 8) && negb allow_deflate
  then fail "public lifecycle streaming currently requires stored ZIP file entries"
  else if negb (compression_method e =? 0) && negb (compression_method e =? 8)
  then fail "public lifecycle streaming requires stored or Deflate ZIP file entries"
  else
    let '(paths, inserted) := StdMap.set_insert (lowercase path) (stream_seen s) in
    if negb inserted then fail "strip prefix creates a payload path collision"
    else
      let deflated := compression_method e =? 8 in
      '(integrity, buffer) ← with_reader (entry_reader source e buffer_bytes deadline)
        (inspect_content t deadline (uncompressed_size e) (stream_buffer s));
      check_cancelled t;;
      check_deadline t deadline streaming_expired;;
      sha256 ← lift (finish_sha256 integrity);
      if negb (finish_crc32 integrity =? crc32 e)
      then fail "ZIP streaming payload CRC does not match reviewed metadata"
      else
        StableFile.verify_unchanged source;;
        ret (mk_streamed paths
          (streamed s ++ [mk_streaming_file path sha256 (crc32 e) (uncompressed_size e)
             (entry_reader source e buffer_bytes deadline) (if deflated then "deflate" else "stored")])
          (has_deflate s || deflated) (streamed_bytes s + uncompressed_size e) buffer).

(** [std::vector<unsigned char> buffer(payload_buffer_bytes)]. *)
Definition zero_buffer (count : N) : string := Sha256.zeros (N.to_nat count).

Definition inspect_streaming_payload_impl (t : Timer) (request strip_prefix : string) (buffer_bytes : N)
    (allow_deflate : bool) : io (StreamingStoredArchivePayload * StreamingPayloadMemoryObservation) :=
  if negb (buffer_bytes =? streaming_payload_buffer_bytes) then fail "ZIP streaming buffer budget is invalid"
  else
    i ← inspect_zip t request;
    prefix ← lift (normalize_prefix strip_prefix (budgets i));
    '(source, deadline) ← reopen t i;
    identity_digest ← lift (source_identity_digest (identity i));
    s ← fold_eff (stream_entry t allow_deflate source prefix buffer_bytes deadline)
      (mk_streamed [] [] false 0 (zero_buffer buffer_bytes)) (entries i);
    if bool_decide (length (streamed s) = 0%nat) then fail "archive payload has no files after strip prefix"
    else
      check_cancelled t;;
      check_deadline t deadline streaming_expired;;
      StableFile.verify_unchanged source;;
      let input_peak := if has_deflate s then buffer_bytes else 0 in
      ret (mk_streaming (source_sha256 i) identity_digest (entry_set_digest_ i)
             (StableFile.size_bytes (identity i)) (streamed_bytes s) buffer_bytes (streamed s) source deadline,
           mk_streaming_observation (streamed_bytes s) (size (stream_buffer s)) input_peak (buffer_bytes + input_peak)
             (N.of_nat (length (streamed s))) false).

(** The public entry points, without and with a cancellation check. *)
Definition inspect_streaming_stored_payload (t : Timer) (request strip_prefix : string) (buffer_bytes : N) :=
  inspect_streaming_payload_impl t request strip_prefix buffer_bytes false.

Definition inspect_streaming_payload (t : Timer) (request strip_prefix : string) (buffer_bytes : N) :=
  inspect_streaming_payload_impl t request strip_prefix buffer_bytes true.

End Zlib.
End ArchiveStream.
