(* ===== verification/ArchiveReads.v ===== *)
(** What the payload readers of an archive deliver on a host where nothing else acts,
    though calls may fail and the process may die: the stored bytes themselves, or what
    zlib makes of exactly the compressed bytes. *)

From Stdlib Require Import Ascii String NArith ZArith Lia.
From stdpp Require Import base list strings gmap sets.
From S2P Require Import Prelude Effects Sha256 StdMap Json Path PathFacts World RecordIo RecordFacts CalmFacts.
From S2P Require Import Archive ArchiveFacts ArchivePayload ArchiveStream.

Module ArchiveReads.
Import Path PathFacts Effects World RecordIo RecordFacts CalmFacts Archive ArchiveFacts ArchivePayload ArchiveStream ArchiveCrc.

(** ** Observations *)

Lemma still_cancelled t : keeps still (check_cancelled t).
Proof. unfold check_cancelled. keeps_auto. Qed.

Lemma still_now t : keeps still (steady_now t).
Proof. unfold steady_now. keeps_auto. Qed.
#[export] Hint Resolve still_cancelled still_now : eff.

Lemma still_deadline t deadline what : keeps still (check_deadline t deadline what).
Proof. unfold check_deadline. keeps_auto. Qed.

Lemma still_read_into source o h n : keeps still (read_into source o h n).
Proof. unfold read_into. keeps_auto. Qed.
#[export] Hint Resolve still_deadline still_read_into : eff.

Lemma still_hash_until t deadline source fuel : ∀ o h, keeps still (hash_until_loop t deadline source fuel o h).
Proof. induction fuel as [|fuel IH]; intros o h; cbn [hash_until_loop]; cbv zeta; keeps_auto. Qed.
#[export] Hint Resolve still_hash_until : eff.

Lemma still_hash_source t source deadline : keeps still (hash_source_until t source deadline).
Proof. unfold hash_source_until. keeps_auto. Qed.

Lemma still_read_end source : keeps still (read_end source).
Proof. unfold read_end. cbv zeta. keeps_auto. Qed.

Lemma still_inspect_entries t deadline b source central c count : ∀ p,
  keeps still (inspect_entries t deadline b source central c count p).
Proof.
  induction count as [|count IH]; intros p; cbn [inspect_entries]; [keeps_auto|].
  apply keeps_bind; [typeclasses eauto| |intros; apply IH]. unfold inspect_entry, read_local. cbv zeta. keeps_auto.
Qed.
#[export] Hint Resolve still_hash_source still_read_end still_inspect_entries : eff.

Lemma still_iso8601_now : keeps still iso8601_now.
Proof. unfold iso8601_now, now. keeps_auto. Qed.
#[export] Hint Resolve still_iso8601_now : eff.

Lemma still_inspect_zip t request : keeps still (inspect_zip t request).
Proof. unfold inspect_zip. cbv zeta. keeps_auto. Qed.

(** ** Serving *)

(** [count] bytes from [offset] on. *)
Definition slice (content : string) (offset count : N) : string :=
  str_take (N.to_nat count) (str_drop (N.to_nat offset) content).

(** The open file has this content, and nothing else acts. *)
Definition serving (source : StableFile.StableFile) (content : string) (w : world) : Prop :=
  calm w ∧ ∃ v t, inodes (disk w) !! StableFile.native_handle_ source = Some (mk_inode v (regular content) t).

Lemma serving_still source content w w' : serving source content w → still w w' → serving source content w'.
Proof.
  intros [Hc H] [(Hi & _) Hd]. split; [unfold calm; by rewrite Hi|]. by rewrite Hd.
Qed.

Lemma serving_after {A} source content (m : io A) w r w' : keeps still m → serving source content w →
  m w = (r, w') → serving source content w'.
Proof. intros Hm Hs E. eapply serving_still; [exact Hs|]. specialize (Hm w). by rewrite E in Hm. Qed.

Lemma read_exact_serving source content o n w data w' : serving source content w →
  StableFile.read_exact source o n w = (Ok data, w') → data = slice content o n ∧ size data = n.
Proof.
  intros [Hc (v & t & Hi)] H. unfold StableFile.read_exact in H. apply seq_ok in H as (r & w1 & E & H).
  apply observe_calm in E as (_ & _ & F); [|done]. destruct r as [c|]; [|done]. specialize (F _ eq_refl).
  rewrite Hi in F. cbn in F. injection F as <-. cbv zeta in H.
  destruct (N.eqb_spec (size (str_take (N.to_nat n) (str_drop (N.to_nat o) content))) n) as [Hn|]; [|done].
  by injection H as <- _.
Qed.

Lemma slice_0 content o : slice content o 0 = EmptyString.
Proof. unfold slice. by destruct (str_drop (N.to_nat o) content). Qed.

Lemma read_serving source content o n w data w' : serving source content w →
  StableFile.read source o n w = (Ok data, w') → data = slice content o n ∧ size data = n.
Proof.
  intros Hs. unfold StableFile.read. destruct (_ || _); [done|]. destruct (N.eqb_spec n 0) as [->|Hn].
  - intros [= <- _]. by rewrite slice_0.
  - by apply read_exact_serving.
Qed.

Lemma read_into_serving source content o h n w data w' : serving source content w →
  read_into source o h n w = (Ok data, w') → data = slice content o n ∧ size data = n.
Proof.
  intros Hs. unfold read_into. destruct (_ || _); [done|]. destruct (N.eqb_spec n 0) as [->|Hn]; cbn [negb].
  - intros [= <- _]. by rewrite slice_0.
  - by apply read_exact_serving.
Qed.

(** Two adjacent slices. *)
Lemma slice_app content o n m : slice content o n +:+ slice content (o + n) m = slice content o (n + m).
Proof. unfold slice. by rewrite !N2Nat.inj_add, <- str_drop_drop, <- str_take_split. Qed.

Lemma slice_all content : slice content 0 (size content) = content.
Proof. unfold slice. rewrite str_drop_0. apply str_take_ge. unfold size. lia. Qed.

Lemma slice_beyond content o n : size content <= n → slice content o n = slice content o (size content).
Proof.
  intros H. unfold slice. rewrite !str_take_ge; [done|rewrite length_str_drop; unfold size in *; lia..].
Qed.

(** The digest, taken piece by piece, of the file that is served. *)
Lemma hash_until_serving t deadline source content fuel : ∀ o h w h' w', serving source content w →
  StableFile.size_bytes (StableFile.identity_ source) = size content →
  Sha256.fed h (slice content 0 o) → hash_until_loop t deadline source fuel o h w = (Ok h', w') → Sha256.fed h' content.
Proof.
  induction fuel as [|fuel IH]; intros o h w h' w' Hs Hz Hf; cbn [hash_until_loop]; cbv zeta; rewrite Hz;
    (destruct (N.ltb_spec o (size content)) as [Ho|Ho]; [|intros [= <- _]; by rewrite slice_beyond, slice_all in Hf by lia]).
  - done.
  - intros (u1 & w1 & H1 & H)%seq_ok. apply seq_ok in H as (u2 & w2 & H2 & H). apply seq_ok in H as (data & w3 & H3 & H).
    apply seq_ok in H as (h1 & w4 & [E ->]%lift_ok & H).
    assert (serving source content w1) as S1 by (by eapply serving_after; [apply still_cancelled| |exact H1]).
    assert (serving source content w2) as S2 by (by eapply serving_after; [apply still_deadline| |exact H2]).
    assert (serving source content w3) as S3 by (by eapply serving_after; [apply still_read| |exact H3]).
    apply (read_serving _ content) in H3 as [-> _]; [|done].
    destruct (Sha256.fed_update h _ (slice content o (N.min (64 * 1024) (size content - o))) Hf) as (h2 & E2 & F2).
    rewrite E in E2. injection E2 as ->. pose proof (slice_app content 0 o (N.min (64 * 1024) (size content - o))) as Ea.
    rewrite N.add_0_l in Ea. rewrite Ea in F2.
    exact (IH _ _ _ _ _ S3 Hz F2 H).
Qed.

Lemma hash_source_serving t source content deadline w digest w' : serving source content w →
  StableFile.size_bytes (StableFile.identity_ source) = size content →
  hash_source_until t source deadline w = (Ok digest, w') → digest = Sha256.sha256 content.
Proof.
  intros Hs Hz H. unfold hash_source_until in H. cbv zeta in H. apply seq_ok in H as (h & w1 & H1 & H).
  apply (hash_until_serving _ _ _ content) in H1; [|done|done|rewrite slice_0; apply Sha256.fed_initial].
  apply seq_ok in H as (u1 & w2 & _ & H). apply seq_ok in H as (u2 & w3 & _ & H).
  destruct (Sha256.finish_fed h content H1) as (h2 & E & _). rewrite E in H. unfold lift, mbind, M_bind in H.
  by injection H as <- _.
Qed.

(** A file of the host, by the path it was opened under. *)
Definition file_at (d : fs) (p : path) (content : string) : Prop :=
  ∃ i v t, lookup_inode d (names p) = Some (i, mk_inode v (regular content) t).

Lemma reopen_serves t i w source deadline w' : calm w → reopen t i w = (Ok (source, deadline), w') →
  ∃ content, serving source content w' ∧ source_sha256 i = Sha256.sha256 content ∧
    file_at (disk w) (StableFile.path_ source) content.
Proof.
  intros Hc H. unfold reopen in H. apply seq_ok in H as (f & w1 & H1 & H).
  apply open_stable_served in H1 as (C1 & D1 & _ & j & v & m & c & El & Ef); [|done].
  destruct (identity_changed _ _); [done|]. apply seq_ok in H as (start & w2 & H2 & H). cbv zeta in H.
  apply seq_ok in H as (digest & w3 & H3 & H).
  destruct (String.eqb_spec digest (source_sha256 i)) as [Hd|]; [|done]. injection H as <- _ <-. cbn [negb] in *.
  assert (serving f c w1) as S1.
  { split; [done|]. exists v, m. rewrite Ef, D1. cbn. by apply lookup_inode_inv in El as [_ ?]. }
  assert (serving f c w2) as S2 by (by eapply serving_after; [apply still_now| |exact H2]).
  assert (serving f c w3) as S3 by (by eapply serving_after; [apply still_hash_source| |exact H3]).
  exists c. split; [done|]. split; [|by exists j, v, m].
  rewrite <- Hd. eapply (hash_source_serving t f c); [exact S2|by rewrite Ef|exact H3].
Qed.

(** ** The set of paths *)

Definition sorted_set (s : list string) : Prop := StdMap.sorted (map (fun x => (x, tt)) s).

Lemma keys_of_set (s : list string) : map fst (map (fun x => (x, tt)) s) = s.
Proof. rewrite map_map. apply map_id. Qed.

Lemma set_insert_new k s s' : sorted_set s → StdMap.set_insert k s = (s', true) →
  sorted_set s' ∧ (k ∉ s) ∧ s' ≡ₚ (k :: s).
Proof.
  unfold StdMap.set_insert, sorted_set. intros Hs H.
  pose proof (StdMap.emplace_sorted k tt _ Hs) as Hs'. pose proof (StdMap.emplace_perm k tt (map (fun x => (x, tt)) s)) as Hp.
  destruct (StdMap.emplace k tt _) as [m b]. injection H as <- ->. cbn [fst snd] in *. specialize (Hp eq_refl).
  assert (map fst m ≡ₚ (k :: s)) as Hk by (rewrite Hp; cbn [map fst]; by rewrite keys_of_set).
  assert (map (fun x => (x, tt)) (map fst m) = m) as Em.
  { rewrite map_map. clear. induction m as [|[x []] m IH]; [done|]. cbn. by rewrite IH. }
  split; [by rewrite Em|]. split; [|done]. pose proof (StdMap.sorted_nodup _ Hs') as Hn. rewrite Hk in Hn.
  by apply NoDup_cons in Hn as [? _].
Qed.

End ArchiveReads.

(** The Deflate reader, against what zlib documents of [inflate]: on a host where
    nothing else acts it delivers what a run of the decoder makes of exactly the
    compressed bytes of the entry. *)

Module ArchiveInflate.
Import Effects World RecordIo RecordFacts CalmFacts Archive ArchiveStream ArchiveReads.

(** zlib never takes more input, or writes more output, than it is offered. *)
Class Decoder {zstream : Type} (inflate : zstream → string → N → inflated zstream) : Prop := {
  inflate_consumes z input avail_out : consumed (inflate z input avail_out) <= size input;
  inflate_fits z input avail_out : size (produced (inflate z input avail_out)) <= avail_out }.

Section Decoding.
Context {zstream : Type} (zfresh : zstream) (inflate : zstream → string → N → inflated zstream).

(** Calls of the decoder, one after the other: what they consumed and produced, the
    state they lead to, and whether the last one reported the end of the stream. *)
Inductive inflates : string → string → zstream → bool → Prop :=
| inflates_fresh : inflates EmptyString EmptyString zfresh false
| inflates_call input output z pending avail_out :
    inflates input output z false →
    (status (inflate z pending avail_out) = Z_OK ∨ status (inflate z pending avail_out) = Z_STREAM_END) →
    inflates (input +:+ str_take (N.to_nat (consumed (inflate z pending avail_out))) pending)
      (output +:+ produced (inflate z pending avail_out)) (after (inflate z pending avail_out))
      (match status (inflate z pending avail_out) with Z_STREAM_END => true | _ => false end).

(** The decoder takes the compressed bytes, all of them, to the data and its end. *)
Definition inflation (compressed data : string) : Prop := ∃ z, inflates compressed data z true.

Context `{!Decoder inflate}.
Context (source : StableFile.StableFile) (content : string) (data_offset compressed_size uncompressed_size input_bytes : N).
Context (Hbuffer : input_bytes < 2 ^ 32).

(** The reader has fetched a prefix of the compressed bytes, the decoder consumed all
    of it but [input_], and produced [output]. *)
Record decoding (output : string) (over : bool) (d : DeflatePayloadReader) : Prop := {
  decoding_source : source_ d = source;
  decoding_offset : data_offset_ d = data_offset;
  decoding_compressed : compressed_size_ d = compressed_size;
  decoding_uncompressed : uncompressed_size_ d = uncompressed_size;
  decoding_buffer : input_bytes_ d = input_bytes;
  decoding_run : ∃ input, inflates input output (stream_ d) over ∧
    input +:+ input_ d = slice content data_offset (fetched_input_ d) ∧ size input = consumed_input_ d;
  decoding_produced : produced_output_ d = size output;
  decoding_fetched : fetched_input_ d <= compressed_size }.

(** The parts that a step leaves alone. *)
Definition same_place (d d' : DeflatePayloadReader (zstream := zstream)) : Prop :=
  output_offset_ d' = output_offset_ d ∧ finished_ d' = finished_ d.

Lemma this_run (d : DeflatePayloadReader (zstream := zstream)) w : this (d, w) = (Ok d, (d, w)).
Proof. done. Qed.

Lemma call_ok {A} (m : io A) (d : DeflatePayloadReader (zstream := zstream)) w a s' : call m (d, w) = (Ok a, s') →
  ∃ w', m w = (Ok a, w') ∧ s' = (d, w').
Proof. unfold call, on_snd. cbn [fst snd]. destruct (m w) as [r w']. intros [= -> <-]. by exists w'. Qed.

Lemma check_run t (d : DeflatePayloadReader (zstream := zstream)) w u s' : serving source content w →
  deflate_check_deadline t (d, w) = (Ok u, s') → ∃ w', s' = (d, w') ∧ serving source content w'.
Proof.
  intros Hs H. unfold deflate_check_deadline in H. apply seq_ok in H as (d0 & s1 & E & H). rewrite this_run in E.
  injection E as <- <-. apply seq_ok in H as (u1 & s1 & (w1 & H1 & ->)%call_ok & (w2 & H2 & ->)%call_ok).
  exists w2. split; [done|].
  eapply serving_after; [apply still_deadline| |exact H2]. by eapply serving_after; [apply still_cancelled| |exact H1].
Qed.

Lemma fill_input_run t output over d w u s' : decoding output over d → serving source content w →
  fill_input t (d, w) = (Ok u, s') →
  ∃ d' w', s' = (d', w') ∧ decoding output over d' ∧ serving source content w' ∧ same_place d d' ∧ stream_ d' = stream_ d.
Proof.
  intros Hd Hs H. unfold fill_input in H. apply seq_ok in H as (u1 & s1 & (w1 & -> & S1)%check_run & H); [|done].
  apply seq_ok in H as (d0 & s1 & E & H). rewrite this_run in E. injection E as <- <-.
  destruct (N.eqb_spec (size (input_ d)) 0) as [Hi|Hi]; cbn [negb orb] in H.
  2: { injection H as _ <-. by exists d, w1. }
  destruct (N.eqb_spec (fetched_input_ d) (compressed_size_ d)) as [He|He].
  { injection H as _ <-. by exists d, w1. }
  cbv zeta in H. destruct Hd as [H1 H2 H3 H4 H5 (input & Hr & Hin & Hsz) H6 H7].
  set (count := N.min (input_bytes_ d) (compressed_size_ d - fetched_input_ d)) in *.
  apply seq_ok in H as (data & s1 & (w2 & Hread & ->)%call_ok & H).
  assert (serving source content w2) as S2.
  { rewrite H1 in Hread. eapply serving_after; [apply still_read_into| |exact Hread]. done. }
  rewrite H1 in Hread. apply (read_into_serving _ content) in Hread as [-> Hsize]; [|done].
  unfold set_this, modify in H. injection H as _ <-.
  eexists _, w2. split; [reflexivity|]. split; [|by split].
  assert (uint count = count) as Hu by (unfold uint; apply N.mod_small; unfold count; lia).
  split; cbn; [done..| |done|].
  - exists input. split; [done|]. split; [|done]. rewrite Hu, str_take_ge by (unfold size in Hsize; lia).
    rewrite <- slice_app, <- Hin, H2. rewrite append_assoc. f_equal.
    destruct (input_ d); [done|]. rewrite size_cons in Hi. lia.
  - unfold count. rewrite H3 in *. lia.
Qed.

(** One call of the decoder. *)
Lemma run_inflate_run output d w avail_out st same out s' : decoding output false d →
  run_inflate inflate avail_out (d, w) = (Ok (st, same, out), s') →
  ∃ d', s' = (d', w) ∧ same_place d d' ∧ size out <= avail_out ∧
    (st = Z_OK → decoding (output +:+ out) false d') ∧ (st = Z_STREAM_END → decoding (output +:+ out) true d').
Proof.
  intros [H1 H2 H3 H4 H5 (input & Hr & Hin & Hsz) H6 H7] H. unfold run_inflate in H.
  apply seq_ok in H as (d0 & s1 & E & H). rewrite this_run in E. injection E as <- <-. cbv zeta in H.
  unfold set_this, modify, mbind, M_bind, ret in H. injection H as Hst _ Hout <-.
  eexists. split; [reflexivity|]. split; [done|]. split; [rewrite <- Hout; apply inflate_fits|].
  set (r := inflate (stream_ d) (input_ d) avail_out) in *.
  assert (∀ over, (status r = Z_OK ∨ status r = Z_STREAM_END) →
    over = (match status r with Z_STREAM_END => true | _ => false end) →
    decoding (output +:+ out) over (mk_deflate (source_ d) (data_offset_ d) (compressed_size_ d) (uncompressed_size_ d)
      (fetched_input_ d) (output_offset_ d) (consumed_input_ d + (size (input_ d) - size (str_drop (N.to_nat (consumed r)) (input_ d))))
      (produced_output_ d + size (produced r)) (input_bytes_ d) (str_drop (N.to_nat (consumed r)) (input_ d))
      (deadline_ d) (after r) (finished_ d))) as Hgo.
  { intros over Hs ->. split; cbn; [done..| | |done].
    - exists (input +:+ str_take (N.to_nat (consumed r)) (input_ d)). split.
      + rewrite <- Hout. by apply inflates_call.
      + split; [by rewrite append_assoc, str_take_drop|]. rewrite size_append, Hsz. f_equal.
        unfold size. rewrite length_str_take, length_str_drop.
        pose proof (inflate_consumes (stream_ d) (input_ d) avail_out) as Hle. fold r in Hle. unfold size in Hle. lia.
    - by rewrite H6, <- Hout, size_append. }
  split; intros ->; apply Hgo; rewrite Hst; auto.
Qed.

Lemma set_finished_run d w u s' : set_finished (d, w) = (Ok u, s') → ∃ d', s' = (d', w) ∧
  finished_ d' = true ∧ output_offset_ d' = output_offset_ d ∧ (∀ output, decoding output true d → decoding output true d').
Proof.
  unfold set_finished, mbind, M_bind. rewrite this_run. unfold set_this, modify. intros [= _ <-].
  eexists. split; [reflexivity|]. split; [done|]. split; [done|]. by intros output [].
Qed.

(** Between calls the flag of the reader is that of the run. *)
Definition steady_at (output : string) (offset : N) (d : DeflatePayloadReader) : Prop :=
  decoding output (finished_ d) d ∧ output_offset_ d = offset.

(** The decoder runs on and the flag follows its status. *)
Lemma inflate_step_run t output offset d w avail_out st same out u (m : dio unit) s1 s2 s' :
  steady_at output offset d → finished_ d = false → serving source content w →
  fill_input t (d, w) = (Ok tt, s1) → run_inflate inflate avail_out s1 = (Ok (st, same, out), s2) →
  m = (match st with Z_STREAM_END => set_finished | Z_OK => ret tt | Z_ERROR _ => fail malformed end) →
  m s2 = (Ok u, s') →
  ∃ d' w', s' = (d', w') ∧ steady_at (output +:+ out) offset d' ∧ serving source content w' ∧ size out <= avail_out.
Proof.
  intros [Hd Ho] Hfin Hs H1 H2 -> H3. rewrite Hfin in Hd.
  apply (fill_input_run _ output false) in H1 as (d1 & w1 & -> & Hd1 & S1 & [P1 P2] & _); [|done..].
  apply (run_inflate_run output) in H2 as (d2 & -> & [P3 P4] & Hle & Hok & Hend); [|done].
  destruct st; [| |done].
  - injection H3 as _ <-. exists d2, w1. split; [done|]. split; [|done]. split; [|congruence].
    rewrite P4, P2, Hfin. by apply Hok.
  - apply set_finished_run in H3 as (d3 & -> & Hf & P5 & Hd3). exists d3, w1. split; [done|]. split; [|done].
    split; [|congruence]. rewrite Hf. by apply Hd3, Hend.
Qed.

Lemma inflate_loop_run t fuel : ∀ output offset d w avail_out written remaining written' s',
  steady_at output offset d → serving source content w →
  inflate_loop inflate t fuel avail_out written (d, w) = (Ok (remaining, written'), s') →
  ∃ d' w' out, s' = (d', w') ∧ steady_at (output +:+ out) offset d' ∧ serving source content w' ∧
    written' = written +:+ out ∧ size out + remaining = avail_out ∧ (remaining = 0 ∨ finished_ d' = true).
Proof.
  induction fuel as [|fuel IH]; intros output offset d w avail_out written remaining written' s' Hd Hs; cbn [inflate_loop];
    intros (d0 & s1 & E & H)%seq_ok; rewrite this_run in E; injection E as <- <-;
    (destruct (negb (avail_out =? 0) && negb (finished_ d)) eqn:Hc;
      [|injection H as -> -> <-; exists d, w, EmptyString; rewrite !append_nil_r; do 4 (split; [done|]); split; [done|];
        apply andb_false_iff in Hc as [?%negb_false_iff%N.eqb_eq|?%negb_false_iff]; auto]); [done|].
  apply andb_true_iff in Hc as [_ Hfin%negb_true_iff].
  apply seq_ok in H as ([] & s1 & H1 & H). apply seq_ok in H as ([[st same] out] & s2 & H2 & H).
  apply seq_ok in H as ([] & s3 & H3 & H).
  destruct (inflate_step_run _ _ _ _ _ _ _ _ _ _ _ _ _ _ Hd Hfin Hs H1 H2 eq_refl H3) as (d3 & w3 & -> & Hd3 & S3 & Hle).
  apply seq_ok in H as (d0 & s4 & E & H). rewrite this_run in E. injection E as <- <-. cbv zeta in H.
  destruct (same && _ && _); [done|].
  apply (IH (output +:+ out) offset) in H as (d' & w' & out' & -> & Hd' & S' & -> & Hsz & Hrem); [|done..].
  exists d', w', (out +:+ out'). rewrite append_assoc in Hd'. rewrite append_assoc, size_append.
  do 4 (split; [done|]). split; [lia|done].
Qed.

(** The probe of [finish_exactly] finds the end and no more output. *)
Lemma finish_loop_run t fuel : ∀ output offset d w u s', steady_at output offset d → serving source content w →
  finish_loop inflate t fuel (d, w) = (Ok u, s') →
  ∃ d' w', s' = (d', w') ∧ steady_at output offset d' ∧ serving source content w' ∧ finished_ d' = true.
Proof.
  induction fuel as [|fuel IH]; intros output offset d w u s' Hd Hs; cbn [finish_loop];
    intros (d0 & s1 & E & H)%seq_ok; rewrite this_run in E; injection E as <- <-;
    (destruct (finished_ d) eqn:Hfin; cbn [negb] in H; [injection H as _ <-; by exists d, w|]); [done|].
  apply seq_ok in H as ([] & s1 & (w1 & -> & S1)%check_run & H); [|done].
  apply seq_ok in H as ([] & s2 & H1 & H). apply seq_ok in H as ([[st same] out] & s3 & H2 & H).
  destruct (N.eqb_spec (1 - size out) 0) as [|Hout]; [done|].
  apply seq_ok in H as ([] & s4 & H3 & H).
  assert ((match st with Z_STREAM_END => set_finished | Z_OK => ret tt | Z_ERROR _ => fail malformed end) s3 = (Ok tt, s4)) as H3'.
  { destruct st; [|done|done]. destruct same; [done|exact H3]. }
  destruct (inflate_step_run _ _ _ _ _ _ _ _ _ _ _ _ _ _ Hd Hfin S1 H1 H2 eq_refl H3') as (d4 & w4 & -> & Hd4 & S4 & _).
  replace out with EmptyString in Hd4 by (destruct out; [done|rewrite size_cons in Hout; lia]).
  rewrite append_nil_r in Hd4. by apply (IH output offset) in H.
Qed.

(** [finish_exactly] returns only at the reviewed boundaries. *)
Lemma finish_exactly_run t output offset d w u s' : steady_at output offset d → serving source content w →
  finish_exactly inflate t (d, w) = (Ok u, s') →
  ∃ d' w', s' = (d', w') ∧ steady_at output offset d' ∧ serving source content w' ∧
    offset = uncompressed_size ∧ size output = uncompressed_size ∧
    inflation (slice content data_offset compressed_size) output.
Proof.
  intros Hd Hs H. unfold finish_exactly in H. apply seq_ok in H as (d0 & s1 & E & H). rewrite this_run in E.
  injection E as <- <-. apply seq_ok in H as ([] & s1 & H1 & H).
  apply (finish_loop_run _ _ output offset) in H1 as (d1 & w1 & -> & Hd1 & S1 & Hfin); [|done..].
  apply seq_ok in H as (d0 & s2 & E & H). rewrite this_run in E. injection E as <- <-.
  destruct (_ || _) eqn:Hc; [done|]. injection H as _ <-. exists d1, w1. do 3 (split; [done|]).
  repeat (apply orb_false_iff in Hc as [Hc ?%negb_false_iff%N.eqb_eq]). apply negb_false_iff, N.eqb_eq in Hc.
  destruct Hd1 as [[_ _ H3 H4 _ (input & Hr & Hin & Hsz) H6 _] Ho].
  split; [congruence|]. split; [congruence|]. exists (stream_ d1).
  rewrite Hfin in Hr. replace (slice content data_offset compressed_size) with input; [done|].
  rewrite <- H3. match goal with H : fetched_input_ d1 = _ |- _ => rewrite <- H end. rewrite <- Hin.
  destruct (input_ d1); [by rewrite append_nil_r|]. rewrite size_cons in *. lia.
Qed.

(** One call of the reader. *)
Lemma deflate_read_run t output relative has_output capacity d w count written s' :
  steady_at output (size output) d → serving source content w → capacity < 2 ^ 32 →
  deflate_read inflate t relative has_output capacity (d, w) = (Ok (count, written), s') →
  ∃ d' w', s' = (d', w') ∧ serving source content w' ∧ relative = size output ∧ size written = count ∧ count <= capacity ∧
    steady_at (output +:+ written) (size (output +:+ written)) d' ∧
    (relative = uncompressed_size → written = EmptyString ∧ inflation (slice content data_offset compressed_size) output).
Proof.
  intros Hd Hs Hcap H. unfold deflate_read in H. apply seq_ok in H as (d0 & s1 & E & H). rewrite this_run in E.
  injection E as <- <-. pose proof Hd as [Hdec Ho]. rewrite (decoding_uncompressed _ _ _ Hdec), Ho in H.
  destruct (N.eqb_spec relative (size output)) as [->|]; [|done]. cbn [negb] in H.
  destruct (N.ltb_spec uncompressed_size (size output)) as [|Hle]; [done|].
  apply seq_ok in H as ([] & s1 & (w1 & -> & S1)%check_run & H); [|done].
  destruct (N.eqb_spec (size output) uncompressed_size) as [He|He].
  - apply seq_ok in H as ([] & s1 & H1 & H).
    apply (finish_exactly_run _ output (size output)) in H1 as (d1 & w2 & -> & Hd1 & S2 & _ & _ & Hi); [|done..].
    apply seq_ok in H as ([] & s1 & (w3 & -> & S3)%check_run & H); [|done].
    apply seq_ok in H as (d0 & s1 & E & H). rewrite this_run in E. injection E as <- <-.
    apply seq_ok in H as ([] & s1 & (w4 & H4 & ->)%call_ok & H). injection H as <- <- <-.
    exists d1, w4. rewrite append_nil_r. split; [done|].
    split; [by eapply serving_after; [apply still_verify| |exact H4]|]. split; [done|]. split; [done|]. split; [lia|]. done.
  - destruct (negb has_output || (capacity =? 0)); [done|]. cbv zeta in H.
    set (allowed := N.min capacity (uncompressed_size - size output)) in *.
    assert (uint allowed = allowed) as Hu by (unfold uint; apply N.mod_small; unfold allowed; lia). rewrite Hu in H.
    apply seq_ok in H as ([remaining wr] & s1 & H1 & H).
    apply (inflate_loop_run _ _ output (size output)) in H1 as (d1 & w2 & out & -> & [Hd1 Ho1] & S2 & -> & Hsz & _); [|done..].
    cbn [append] in H.
    apply seq_ok in H as ([] & s1 & H2 & H). unfold advance_output, mbind, M_bind in H2. rewrite this_run in H2.
    unfold set_this, modify in H2. injection H2 as <-. cbn [snd] in H.
    apply seq_ok in H as (d2 & s1 & E & H). rewrite this_run in E. injection E as Ed <-. rewrite Ed in H.
    assert (steady_at (output +:+ out) (size (output +:+ out)) d2) as Hd2.
    { rewrite <- Ed. destruct Hd1 as [? ? ? ? ? ? ? ?]. split; [by split|]. cbn. rewrite Ho1, size_append. lia. }
    clear Ed. destruct (_ <? output_offset_ d2); [done|]. destruct (finished_ d2 && _); [done|].
    destruct (_ && negb (output_offset_ d2 =? _)); [done|].
    apply seq_ok in H as ([] & s1 & H3 & H). injection H as <- <- <-.
    assert (∃ d3 w3, s1 = (d3, w3) ∧ serving source content w3 ∧ steady_at (output +:+ out) (size (output +:+ out)) d3)
      as (d3 & w3 & -> & S3 & Hd3).
    { destruct (output_offset_ d2 =? _).
      - apply seq_ok in H3 as ([] & s2 & H3 & H4).
        apply (finish_exactly_run _ (output +:+ out) (size (output +:+ out))) in H3 as (d3 & w3 & -> & Hd3 & S3 & _); [|done..].
        apply check_run in H4 as (w4 & -> & S4); [|done]. by exists d3, w4.
      - injection H3 as <-. by exists d2, w2. }
    exists d3, w3. split; [done|]. split; [done|]. split; [done|]. split; [lia|].
    split; [unfold allowed in *; lia|]. split; [done|]. intros. lia.
Qed.


End Decoding.
End ArchiveInflate.
