(* ===== verification/ArchiveStreamFacts.v ===== *)
(** What an inspected payload is: every file of the reviewed archive, with the digest
    and the CRC of the very bytes its reader delivers. *)

From Stdlib Require Import Ascii String NArith ZArith Lia.
From stdpp Require Import base list strings gmap sets.
From S2P Require Import Prelude Effects Sha256 StdMap Json Path PathFacts World RecordIo RecordFacts CalmFacts.
From S2P Require Import Archive ArchivePaths ArchiveFacts ArchivePayload ArchiveStream ArchiveReads.

Module ArchiveStreamFacts.
Import Path PathFacts Effects World RecordIo RecordFacts CalmFacts Archive ArchivePaths ArchiveFacts ArchivePayload ArchiveStream.
Import ArchiveCrc ArchiveReads ArchiveInflate.

(** ** The files below a prefix *)

(** [path] is what follows the prefix and a separator in [name]; without a prefix
    it is the whole name. *)
Definition below (prefix path name : string) : Prop :=
  (prefix = EmptyString ∧ name = path) ∨ (prefix ≠ EmptyString ∧ name = prefix +:+ "/" +:+ path).

(** The files of an archive below a prefix, each with its path: all the entries
    that are no directories, in their order.  Every one of them is below the prefix,
    and every directory is below it or is the prefix itself. *)
Inductive selected (prefix : string) : list Entry → list (string * Entry) → Prop :=
  | selected_none : selected prefix [] []
  | selected_directory e l fs : directory e = true →
      normalized_path e = prefix ∨ (∃ path, below prefix path (normalized_path e)) →
      selected prefix l fs → selected prefix (e :: l) fs
  | selected_file e path l fs : directory e = false → path ≠ EmptyString → below prefix path (normalized_path e) →
      selected prefix l fs → selected prefix (e :: l) ((path, e) :: fs).

(** The prefix a caller asks for, in its normal form. *)
Definition reviewed_prefix (strip_prefix : string) (b : Budgets) (prefix : string) : Prop :=
  (strip_prefix = EmptyString ∧ prefix = EmptyString) ∨
  (strip_prefix ≠ EmptyString ∧ normalize_path strip_prefix (max_depth b) = Ok (prefix, false)).

Lemma selected_app prefix l fs l' fs' : selected prefix l fs → selected prefix l' fs' → selected prefix (l ++ l') (fs ++ fs').
Proof. induction 1; cbn [app]; eauto using selected. Qed.

Lemma reviewed_exact strip_prefix b prefix :
  normalize_prefix strip_prefix b = Ok prefix ↔ reviewed_prefix strip_prefix b prefix.
Proof.
  unfold normalize_prefix, reviewed_prefix. destruct strip_prefix as [|c r]; cbn [is_empty].
  - split; [intros <-%ok_inj; by left|]. by intros [[_ ->]|[? _]].
  - split.
    + intros ([p []] & E & H)%bind_ok; [done|]. apply ok_inj in H as <-. by right.
    + intros [[? _]|[_ E]]; [done|]. by rewrite E.
Qed.

Lemma strip_exact name prefix dir path : strip_entry_path name prefix dir = Ok path ↔
  below prefix path name ∨ (dir = true ∧ prefix ≠ EmptyString ∧ name = prefix ∧ path = EmptyString).
Proof.
  unfold strip_entry_path, below. destruct prefix as [|c r]; cbn [is_empty].
  { split; [intros <-%ok_inj; by left; left|]. by intros [[[_ ->]|[? _]]|(_ & ? & _)]. }
  set (prefix := String c r). assert (prefix ≠ EmptyString) as Hp by done. clearbody prefix.
  destruct (String.eqb_spec name prefix) as [->|Hn].
  { split; [destruct dir; [intros <-%ok_inj; by right|done]|].
    intros [[[? _]|[_ E]]|(-> & _ & _ & ->)]; [done| |done]. exfalso.
    apply (f_equal String.length) in E. rewrite !length_append in E. simpl in E. lia. }
  pose proof (prefix_append (prefix +:+ "/") name) as Hpre.
  cbv zeta. destruct (String.prefix (prefix +:+ "/") name).
  - destruct (proj1 Hpre eq_refl) as [t ->]. rewrite str_drop_all.
    split; [intros <-%ok_inj; left; right; by rewrite append_assoc|].
    intros [[[? _]|[_ E]]|(_ & _ & ? & _)]; [done| |done].
    rewrite append_assoc in E. by do 2 apply append_inv_head in E; subst.
  - split; [done|]. intros [[[? _]|[_ E]]|(_ & _ & ? & _)]; [done| |done].
    assert (false = true); [|done]. apply Hpre. exists path. by rewrite append_assoc.
Qed.

(** The name of an inspected entry does not end with a separator. *)
Definition ordinary_name (e : Entry) : Prop :=
  normalized_path e ≠ EmptyString ∧ ends_with slash (normalized_path e) = false.

Lemma entry_ordinary b e : entry_ok b e → ordinary_name e.
Proof.
  intros [(l & (_ & Hne & _ & Hg & _) & E)%normalize_iff _ _ _ _ _]. unfold ordinary_name. rewrite E.
  by destruct (join_not_slash l (good_plain l Hg) Hne).
Qed.

Lemma strip_selected prefix e path : ordinary_name e → strip_entry_path (normalized_path e) prefix (directory e) = Ok path →
  selected prefix [e] (if directory e || is_empty path then [] else [(path, e)]).
Proof.
  intros [Hne Hs] H%strip_exact. destruct (directory e) eqn:Hd; cbn [orb].
  - constructor; [done| |constructor]. destruct H as [H|(_ & _ & -> & _)]; [right; by exists path|by left].
  - destruct H as [H|[? _]]; [|done]. destruct path as [|c path]; cbn [is_empty].
    + exfalso. destruct H as [[-> E]|[_ E]]; [done|]. rewrite E in Hs. by rewrite (ends_appended prefix : ends_with slash (prefix +:+ "/" +:+ EmptyString) = true) in Hs.
    + constructor; [done|done|done|constructor].
Qed.

Section Streaming.
Context {zstream : Type} (zfresh : zstream) (inflate : zstream → string → N → inflated zstream) `{!Decoder inflate}.
Abbreviation invoke := (invoke zfresh inflate).
Abbreviation reader_t := (PayloadReader (zstream := zstream)).

(** ** What a reader promises to the inspection

    [good output r]: the reader has delivered [output] so far; it says of the whole
    [whole]. *)
Class Delivers (source : StableFile.StableFile) (content : string) (total : N)
    (good : string → reader_t → Prop) (whole : string → Prop) : Prop := {
  delivers_piece t output capacity r w count written r' w' :
    good output r → serving source content w → size output < total → capacity < 2 ^ 32 →
    invoke t (size output) true capacity (r, w) = (Ok (count, written), (r', w')) →
    size written = count ∧ count <= capacity ∧ good (output +:+ written) r' ∧ serving source content w';
  delivers_end t output r w count written r' w' :
    good output r → serving source content w → size output = total →
    invoke t total true 1 (r, w) = (Ok (count, written), (r', w')) →
    whole output ∧ serving source content w' }.

(** ** The stored reader *)

Definition stored_good (source : StableFile.StableFile) (content : string) (offset total deadline : N) (output : string)
    (r : reader_t) : Prop :=
  r = stored_payload_reader source offset total deadline ∧ output = slice content offset (size output).

#[global] Instance stored_delivers source content offset total deadline :
  Delivers source content total (stored_good source content offset total deadline)
    (fun output => output = slice content offset total).
Proof.
  split.
  - intros t output capacity r w count written r' w' [-> Ho] Hs Hlt Hcap H. unfold ArchiveStream.invoke, on_snd in H.
    cbn [fst snd] in H. destruct (stored_read _ _ _ _ _ _ _ _ w) as [res w1] eqn:E. injection H as -> <- <-.
    unfold stored_read in E. destruct (total <? size output); [done|].
    apply seq_ok in E as ([] & w2 & H2 & E). apply seq_ok in E as ([] & w3 & H3 & E).
    destruct (N.eqb_spec (size output) total) as [|_]; [lia|]. destruct (_ || _); [done|]. cbv zeta in E.
    apply seq_ok in E as (data & w4 & H4 & E). injection E as <- <- <-.
    assert (serving source content w2) as S2 by (by eapply serving_after; [apply still_cancelled| |exact H2]).
    assert (serving source content w3) as S3 by (by eapply serving_after; [apply still_deadline| |exact H3]).
    assert (serving source content w4) as S4 by (by eapply serving_after; [apply still_read_into| |exact H4]).
    apply (read_into_serving _ content) in H4 as [-> Hz]; [|done]. split; [done|]. split; [lia|]. split; [|done].
    split; [done|]. rewrite size_append, Hz, <- slice_app. by rewrite <- Ho.
  - intros t output r w count written r' w' [-> Ho] Hs He H. rewrite He in Ho. split; [done|].
    unfold ArchiveStream.invoke, on_snd in H. cbn [fst snd] in H.
    destruct (stored_read _ _ _ _ _ _ _ _ w) as [res w1] eqn:E. injection H as -> <- <-.
    unfold stored_read in E. destruct (total <? total); [done|].
    apply seq_ok in E as ([] & w2 & H2 & E). apply seq_ok in E as ([] & w3 & H3 & E). rewrite N.eqb_refl in E.
    apply seq_ok in E as ([] & w4 & H4 & E). injection E as _ _ <-.
    eapply serving_after; [apply still_verify| |exact H4]. eapply serving_after; [apply still_deadline| |exact H3].
    by eapply serving_after; [apply still_cancelled| |exact H2].
Qed.

(** ** The Deflate reader *)

Definition deflate_good (source : StableFile.StableFile) (content : string) (offset compressed total buffer deadline : N)
    (output : string) (r : reader_t) : Prop :=
  ∃ state, r = deflate_payload_reader source offset compressed total buffer deadline state ∧
    match state with
    | None => output = EmptyString
    | Some d => steady_at zfresh inflate source content offset compressed total buffer output (size output) d
    end.

Lemma deflate_invoke source content offset compressed total buffer deadline t output capacity r w count written r' w' :
  buffer < 2 ^ 32 → capacity < 2 ^ 32 → deflate_good source content offset compressed total buffer deadline output r →
  serving source content w → invoke t (size output) true capacity (r, w) = (Ok (count, written), (r', w')) →
  size written = count ∧ count <= capacity ∧ serving source content w' ∧
  (size output ≠ total → deflate_good source content offset compressed total buffer deadline (output +:+ written) r') ∧
  (size output = total → inflation zfresh inflate (slice content offset compressed) output).
Proof.
  intros Hb Hcap (state & -> & Hst) Hs H. unfold ArchiveStream.invoke in H.
  match type of H with context [match ?init w with _ => _ end] => destruct (init w) as [[d|e] w1] eqn:E end; [|done].
  assert (steady_at zfresh inflate source content offset compressed total buffer output (size output) d ∧
    serving source content w1) as [Hd S1].
  { destruct state as [d0|]; [by injection E as -> ->|]. subst output.
    change (size EmptyString =? 0) with true in E. cbn [negb] in E. unfold new_deflate in E.
    apply seq_ok in E as (failed & w2 & H2 & E). destruct failed; [done|]. injection E as <- <-.
    split; [|by eapply serving_after; [apply keeps_still_step| |exact H2]].
    split; [|done]. split; cbn; try done; [|lia]. exists EmptyString. split; [constructor|]. by rewrite slice_0. }
  destruct (deflate_read _ _ _ _ _ (d, w1)) as [[[n data]|e] [d2 w2]] eqn:E2; [|done]. injection H as -> -> <- ->.
  apply (deflate_read_run zfresh inflate source content offset compressed total buffer Hb t output) in E2
    as (d3 & w3 & [= <- <-] & S3 & _ & Hz & Hc & Hd3 & Hend); [|done..].
  split; [done|]. split; [done|]. split; [done|]. split.
  - intros Hne. eexists. split; [reflexivity|]. destruct (N.eqb_spec (size output) total); [done|]. exact Hd3.
  - intros He. by apply Hend.
Qed.

#[global] Instance deflate_delivers source content offset compressed total buffer deadline (Hb : buffer < 2 ^ 32) :
  Delivers source content total (deflate_good source content offset compressed total buffer deadline)
    (inflation zfresh inflate (slice content offset compressed)).
Proof.
  split.
  - intros t output capacity r w count written r' w' Hg Hs Hlt Hcap H.
    destruct (deflate_invoke _ _ _ _ _ _ _ _ _ _ _ _ _ _ _ _ Hb Hcap Hg Hs H) as (? & ? & ? & Hgood & _). split; [done|]. split; [done|].
    split; [apply Hgood; lia|done].
  - intros t output r w count written r' w' Hg Hs He H. rewrite <- He in H.
    destruct (deflate_invoke _ _ _ _ _ _ _ _ _ 1 _ _ _ _ _ _ Hb ltac:(done) Hg Hs H) as (_ & _ & ? & _ & Hend). split; [by apply Hend|done].
Qed.

(** ** The content of one file *)

Section Content.
Context (source : StableFile.StableFile) (content : string) (total : N)
  (good : string → reader_t → Prop) (whole : string → Prop) `{!Delivers source content total good whole}.

Lemma on_snd_ok {T A} (m : io A) (r : T) w a s' : on_snd m (r, w) = (Ok a, s') → ∃ w', m w = (Ok a, w') ∧ s' = (r, w').
Proof. unfold on_snd. cbn [fst snd]. destruct (m w) as [x w']. intros [= -> <-]. by exists w'. Qed.

Lemma overwrite_take written buffer count : size written = count → str_take (N.to_nat count) (overwrite written buffer) = written.
Proof. intros <-. unfold overwrite, size. rewrite Nat2N.id. apply str_take_all. Qed.

Lemma overwrite_size written buffer : size written <= size buffer → size (overwrite written buffer) = size buffer.
Proof. intros H. unfold overwrite, size in *. rewrite length_append, length_str_drop. lia. Qed.

(** Piece by piece the integrity follows what the reader delivered. *)
Lemma inspect_pieces_run t deadline fuel : ∀ buffer integrity output r w integrity' buffer' offset' s',
  size buffer < 2 ^ 32 → absorbed integrity output → good output r → serving source content w → size output <= total →
  inspect_pieces zfresh inflate t deadline total fuel buffer integrity (size output) (r, w) =
    (Ok (integrity', buffer', offset'), s') →
  ∃ data r' w', s' = (r', w') ∧ absorbed integrity' data ∧ good data r' ∧ serving source content w' ∧
    size data = total ∧ offset' = total ∧ size buffer' = size buffer.
Proof.
  induction fuel as [|fuel IH]; intros buffer integrity output r w integrity' buffer' offset' s' Hb Ha Hg Hs Hle;
    cbn [inspect_pieces];
    (destruct (N.ltb_spec (size output) total) as [Hlt|Hge];
      [|intros [= <- <- <- <-]; exists output, r, w; repeat (split; [done|]); split; [lia|]; split; [lia|done]]); [done|].
  intros (u & s1 & (w1 & H1 & ->)%on_snd_ok & H)%seq_ok. cbv zeta in H.
  assert (serving source content w1) as S1 by (by eapply serving_after; [apply still_deadline| |exact H1]).
  apply seq_ok in H as ([count written] & [r2 w2] & H2 & H).
  set (capacity := N.min (size buffer) (total - size output)) in *.
  destruct (delivers_piece t output capacity _ _ _ _ _ _ Hg S1 Hlt ltac:(unfold capacity; lia) H2) as (Hz & Hc & Hg2 & S2).
  destruct (_ || _); [done|]. rewrite overwrite_take in H by done.
  apply seq_ok in H as (i2 & s3 & [E ->]%lift_ok & H).
  destruct (absorbed_update integrity output written Ha) as (i3 & E3 & Ha3). rewrite E in E3. injection E3 as <-.
  rewrite <- Hz, <- size_append in H.
  assert (size (overwrite written buffer) = size buffer) as Hbuf by (apply overwrite_size; unfold capacity in *; lia).
  destruct (IH _ _ _ _ _ _ _ _ _ ltac:(by rewrite Hbuf) Ha3 Hg2 S2
    ltac:(rewrite size_append; unfold capacity in *; lia) H) as (data & r' & w' & -> & ? & ? & ? & ? & ? & Hb').
  exists data, r', w'. rewrite Hb'. done.
Qed.

Lemma inspect_content_run t deadline buffer r w integrity buffer' w' : size buffer < 2 ^ 32 → good EmptyString r →
  serving source content w →
  with_reader r (inspect_content zfresh inflate t deadline total buffer) w = (Ok (integrity, buffer'), w') →
  ∃ data, absorbed integrity data ∧ whole data ∧ size data = total ∧ serving source content w' ∧ size buffer' = size buffer.
Proof.
  intros Hb Hg Hs H. unfold with_reader in H. destruct (inspect_content _ _ _ _ _ _ (r, w)) as [res [r1 w1]] eqn:E.
  injection H as -> <-. unfold inspect_content in E. apply seq_ok in E as ([[i b] offset] & s2 & H1 & E).
  change 0 with (size EmptyString) in H1.
  destruct (inspect_pieces_run _ _ _ _ _ EmptyString _ _ _ _ _ _ Hb absorbed_new Hg Hs ltac:(rewrite size_nil; lia) H1)
    as (data & r2 & w2 & -> & Ha & Hg2 & S2 & Hz & -> & Hb').
  apply seq_ok in E as ([count written] & [r3 w3] & H2 & E). destruct (negb (count =? 0)); [done|].
  injection E as <- <- _ <-.
  destruct (delivers_end t data _ _ _ _ _ _ Hg2 S2 Hz H2) as [Hw S3]. exists data. done.
Qed.

End Content.

(** ** The files *)

(** The bytes of an entry in the content of its archive. *)
Definition entry_data (content : string) (e : Entry) (data : string) : Prop :=
  compression_method e = 0 ∧ data = slice content (data_offset e) (uncompressed_size e) ∨
  compression_method e = 8 ∧ inflation zfresh inflate (slice content (data_offset e) (compressed_size e)) data.

Record delivered (content : string) (new_reader : Entry → reader_t) (entry : string * Entry)
    (f : StreamingPayloadFile) : Prop := {
  delivered_path : stream_path f = fst entry;
  delivered_size : stream_size_bytes f = uncompressed_size (snd entry);
  delivered_crc : stream_crc32 f = crc32 (snd entry);
  delivered_reader : reader f = new_reader (snd entry);
  delivered_data : ∃ data, entry_data content (snd entry) data ∧ size data = stream_size_bytes f ∧
    payload_crc32 data = stream_crc32 f ∧ stream_sha256 f = Sha256.sha256 data }.

(** What the loop over the entries has established. *)
Record streaming (content : string) (new_reader : Entry → reader_t) (prefix : string) (l : list Entry) (s : Streamed)
    : Prop := {
  streaming_files : ∃ fs, selected prefix l fs ∧ Forall2 (delivered content new_reader) fs (streamed s);
  streaming_sorted : sorted_set (stream_seen s);
  streaming_seen : stream_seen s ≡ₚ map (fun f => lowercase (stream_path f)) (streamed s);
  streaming_bytes : streamed_bytes s = fold_right (fun f n => stream_size_bytes f + n) 0 (streamed s);
  streaming_buffer : size (stream_buffer s) = streaming_payload_buffer_bytes }.

Lemma entry_content_run source content e deadline t buffer w integrity buffer' w' :
  compression_method e = 0 ∨ compression_method e = 8 → size buffer = streaming_payload_buffer_bytes →
  serving source content w →
  with_reader (entry_reader source e streaming_payload_buffer_bytes deadline)
    (inspect_content zfresh inflate t deadline (uncompressed_size e) buffer) w = (Ok (integrity, buffer'), w') →
  ∃ data, absorbed integrity data ∧ entry_data content e data ∧ size data = uncompressed_size e ∧
    serving source content w' ∧ size buffer' = size buffer.
Proof.
  intros Hm Hb Hs H. unfold entry_reader in H. unfold entry_data.
  assert (size buffer < 2 ^ 32) as Hlt by (by rewrite Hb).
  destruct Hm as [Hm|Hm]; rewrite Hm in H |- *.
  - apply (inspect_content_run source content (uncompressed_size e) _ _
      (Delivers0 := stored_delivers source content (data_offset e) (uncompressed_size e) deadline)) in H
      as (data & ? & ? & ? & ? & ?); [|done| |done]; [by exists data; auto 10|].
    split; [done|]. by rewrite size_nil, slice_0.
  - apply (inspect_content_run source content (uncompressed_size e) _ _
      (Delivers0 := deflate_delivers source content (data_offset e) (compressed_size e) (uncompressed_size e)
        streaming_payload_buffer_bytes deadline eq_refl)) in H
      as (data & ? & ? & ? & ? & ?); [|done| |done]; [by exists data; auto 10|]. by exists None.
Qed.

(** One round of the loop. *)
Lemma stream_entry_run t allow source content prefix deadline l s e w s' w' :
  let new_reader := fun e => entry_reader source e streaming_payload_buffer_bytes deadline in
  serving source content w → ordinary_name e → streaming content new_reader prefix l s →
  stream_entry zfresh inflate t allow source prefix streaming_payload_buffer_bytes deadline s e w = (Ok s', w') →
  serving source content w' ∧ streaming content new_reader prefix (l ++ [e]) s'.
Proof.
  intros new_reader Hs Hord Hst H. unfold stream_entry in H.
  apply seq_ok in H as ([] & w1 & H1 & H). apply seq_ok in H as ([] & w2 & H2 & H).
  assert (serving source content w1) as S1 by (by eapply serving_after; [apply still_cancelled| |exact H1]).
  assert (serving source content w2) as S2 by (by eapply serving_after; [apply still_deadline| |exact H2]).
  apply seq_ok in H as (path & w3 & [Hp ->]%lift_ok & H).
  destruct Hst as [(fs & Hsel & F1) F2 F3 F4 F5]. apply strip_selected in Hp; [|done].
  destruct (directory e || is_empty path) eqn:Hdir.
  { injection H as <- <-. split; [done|]. split; [|done..]. exists fs.
    split; [|done]. rewrite <- (app_nil_r fs). by apply selected_app. }
  destruct (_ && _); [done|]. destruct (_ && _); [done|].
  destruct (negb (compression_method e =? 0) && negb (compression_method e =? 8)) eqn:Hm; [done|].
  assert (compression_method e = 0 ∨ compression_method e = 8) as Hmethod.
  { destruct (N.eqb_spec (compression_method e) 0); [by left|]. destruct (N.eqb_spec (compression_method e) 8); [by right|done]. }
  destruct (StdMap.set_insert (lowercase path) (stream_seen s)) as [paths inserted] eqn:Hins.
  destruct inserted; [|done]. cbn [negb] in H. apply set_insert_new in Hins as (Hp1 & Hp2 & Hp3); [|done].
  apply seq_ok in H as ([integrity buffer] & w4 & H4 & H).
  apply (entry_content_run source content) in H4 as (data & Ha & Hdata & Hz & S4 & Hb); [|done..].
  apply seq_ok in H as ([] & w5 & H5 & H). apply seq_ok in H as ([] & w6 & H6 & H).
  destruct (absorbed_finish _ _ Ha) as [Hsha Hcrc]. rewrite Hsha, Hcrc in H.
  apply seq_ok in H as (sha & w7 & [E ->]%lift_ok & H). apply ok_inj in E as <-.
  destruct (N.eqb_spec (payload_crc32 data) (crc32 e)) as [Hc|]; [|done]. cbn [negb] in H.
  apply seq_ok in H as ([] & w8 & H8 & H).
  assert (serving source content w8) as S8.
  { eapply serving_after; [apply still_verify| |exact H8]. eapply serving_after; [apply still_deadline| |exact H6].
    by eapply serving_after; [apply still_cancelled| |exact H5]. }
  injection H as <- <-. split; [done|].
  split; cbn [streamed stream_seen streamed_bytes stream_buffer].
  - exists (fs ++ [(path, e)]). split; [by apply selected_app|].
    apply Forall2_app; [done|]. constructor; [|done]. split; cbn; try done. exists data. done.
  - done.
  - rewrite map_app, Hp3, F3. cbn [map stream_path]. by rewrite Permutation_cons_append.
  - rewrite F4, fold_right_app. cbn [fold_right stream_size_bytes]. rewrite N.add_0_r.
    clear. induction (streamed s) as [|f fs IH]; cbn [fold_right]; lia.
  - by rewrite Hb.
Qed.

Lemma stream_entries_run t allow source content prefix deadline : ∀ rest l s w s' w',
  let new_reader := fun e => entry_reader source e streaming_payload_buffer_bytes deadline in
  serving source content w → Forall ordinary_name rest → streaming content new_reader prefix l s →
  fold_eff (stream_entry zfresh inflate t allow source prefix streaming_payload_buffer_bytes deadline) s rest w = (Ok s', w') →
  serving source content w' ∧ streaming content new_reader prefix (l ++ rest) s'.
Proof.
  induction rest as [|e rest IH]; intros l s w s' w' new_reader Hs Hord Hst; cbn [fold_eff].
  - intros [= <- <-]. by rewrite app_nil_r.
  - apply Forall_cons in Hord as [Hord Hords]. intros (s1 & w1 & H1 & H)%seq_ok. apply (stream_entry_run _ _ _ content _ _ l) in H1 as [S1 Hst1]; [|done..].
    apply (IH (l ++ [e])) in H as [S2 H2]; [|done..]. rewrite <- app_assoc in H2. done.
Qed.

Lemma streaming_start content new_reader prefix :
  streaming content new_reader prefix [] (mk_streamed [] [] false 0 (zero_buffer streaming_payload_buffer_bytes)).
Proof.
  split; cbn [streamed stream_seen streamed_bytes stream_buffer]; [by exists []; repeat constructor|constructor|reflexivity|reflexivity|].
  unfold zero_buffer, size. rewrite Sha256.length_zeros. apply N2Nat.id.
Qed.

(** C21 A payload inspected in pieces, with any cancellation and any clock, on a host
    where nothing else acts: the archive is a file of the host with the digest that is
    reported; every entry of a sound inspection lies below the requested prefix or is
    the directory it names, and the files are all the file entries, in their order and
    under what follows the prefix in their names, distinct up to case; each carries the size, the
    CRC and the SHA-256 of its data: the stored bytes, or what the decoder makes of
    exactly the compressed bytes.  The two buffers are all the memory it uses. *)
Theorem streaming_payload_exact t allow_deflate request strip_prefix buffer_bytes w p observed w' :
  calm w →
  inspect_streaming_payload_impl zfresh inflate t request strip_prefix buffer_bytes allow_deflate w = (Ok (p, observed), w') →
  ∃ i w1 prefix content, inspect_zip t request w = (Ok i, w1) ∧ sound_inspection i ∧
    reviewed_prefix strip_prefix (budgets i) prefix ∧
    file_at (disk w) (StableFile.path_ (stream_source p)) content ∧ stream_source_sha256 p = Sha256.sha256 content ∧
    stream_entry_set_digest p = Sha256.sha256 (set_text (Archive.entries i)) ∧
    (∃ fs, selected prefix (Archive.entries i) fs ∧
      Forall2 (delivered content (fun e => entry_reader (stream_source p) e buffer_bytes (stream_deadline p)))
        fs (stream_files p)) ∧
    stream_files p ≠ [] ∧ NoDup (map (fun f => lowercase (stream_path f)) (stream_files p)) ∧
    stream_uncompressed_bytes p = fold_right (fun f n => stream_size_bytes f + n) 0 (stream_files p) ∧
    peak_total_stream_buffer_bytes observed <= 2 * 65536.
Proof.
  intros Hc H. unfold inspect_streaming_payload_impl in H.
  destruct (N.eqb_spec buffer_bytes streaming_payload_buffer_bytes) as [->|]; [|done]. cbn [negb] in H.
  apply seq_ok in H as (i & w1 & H1 & H). apply seq_ok in H as (prefix & w2 & [Hp%reviewed_exact ->]%lift_ok & H).
  pose proof (inspect_zip_sound _ _ _ _ _ H1) as Hsound.
  pose proof (Forall_impl _ _ _ (sound_each _ Hsound) (entry_ordinary _)) as Hord.
  destruct (still_inspect_zip t request w) as [(Hi & _) D1]. rewrite H1 in Hi, D1. cbn [snd] in Hi, D1. specialize (D1 Hc).
  assert (calm w1) as C1 by (unfold calm; by rewrite Hi).
  apply seq_ok in H as ([source deadline] & w3 & (content & S3 & Hsha & Hat)%reopen_serves & H); [|done].
  apply seq_ok in H as (idd & w4 & [_ ->]%lift_ok & H). apply seq_ok in H as (s & w5 & H5 & H).
  apply (stream_entries_run _ _ _ content _ _ (Archive.entries i) []) in H5 as [S5 [F1 F2 F3 F4 F5]]; [|done|done|apply streaming_start].
  cbn [app] in F1. destruct (bool_decide _) eqn:Hne; [done|]. apply bool_decide_eq_false in Hne.
  apply seq_ok in H as ([] & w6 & _ & H). apply seq_ok in H as ([] & w7 & _ & H). apply seq_ok in H as ([] & w8 & _ & H).
  injection H as <- <- _. exists i, w1, prefix, content.
  cbn [stream_source stream_deadline stream_source_sha256 stream_entry_set_digest stream_files stream_uncompressed_bytes
    peak_total_stream_buffer_bytes].
  rewrite D1 in Hat. do 5 (split; [done|]). split; [apply Hsound|]. split; [done|].
  split; [intros E; by rewrite E in Hne|]. split; [|split; [done|]].
  - rewrite <- F3. pose proof (StdMap.sorted_nodup _ F2) as Hn. by rewrite keys_of_set in Hn.
  - unfold streaming_payload_buffer_bytes. destruct (has_deflate s); lia.
Qed.


End Streaming.
End ArchiveStreamFacts.

(** The payload read at once: the stored bytes of every file, within the budget of
    memory whatever capacity the vectors take. *)

Module ArchivePayloadFacts.
Import Path Effects World RecordIo RecordFacts CalmFacts Archive ArchiveFacts ArchivePayload ArchiveReads ArchiveStreamFacts.

(** A file of the payload, from its entry and the content of the archive. *)
Record materialized (content : string) (entry : string * Entry) (f : PayloadFile) : Prop := {
  materialized_path : relative_path f = fst entry;
  materialized_stored : compression_method (snd entry) = 0;
  materialized_bytes : bytes f = slice content (data_offset (snd entry)) (uncompressed_size (snd entry));
  materialized_size : size (bytes f) = uncompressed_size (snd entry);
  materialized_crc : payload_crc32 (bytes f) = crc32 (snd entry);
  materialized_sha256 : file_sha256 f = Sha256.sha256 (bytes f) }.

Section Materializing.
Context (capacity : N → N).

Definition capacities (l : list PayloadFile) : N := fold_right (fun f n => capacity (size (bytes f)) + n) 0 l.
Definition sizes (l : list PayloadFile) : N := fold_right (fun f n => size (bytes f) + n) 0 l.

(** What the loop over the entries has established. *)
Record materializing (content prefix : string) (l : list Entry) (m : Materialized) : Prop := {
  materializing_files : ∃ fs, selected prefix l fs ∧ Forall2 (materialized content) fs (kept m);
  materializing_sorted : sorted_set (seen m);
  materializing_seen : seen m ≡ₚ map (fun f => lowercase (relative_path f)) (kept m);
  materializing_bytes : kept_bytes m = sizes (kept m);
  materializing_retained : retained_capacity m = capacities (kept m);
  materializing_peak : retained_capacity m <= peak_capacity m <= max_materialized_payload_bytes }.

Lemma sum_last {A} (g : A → N) l x : fold_right (fun f n => g f + n) 0 (l ++ [x]) = fold_right (fun f n => g f + n) 0 l + g x.
Proof. rewrite fold_right_app. cbn [fold_right]. rewrite N.add_0_r. induction l as [|f l IH]; cbn [fold_right]; lia. Qed.

Lemma over_budget_false retained amount : over_budget retained amount = false →
  retained + amount <= max_materialized_payload_bytes.
Proof. unfold over_budget. intros [H1%N.ltb_ge H2%N.ltb_ge]%orb_false_iff. lia. Qed.

Lemma materialize_run source content prefix l m e w m' w' : serving source content w → ordinary_name e →
  materializing content prefix l m → materialize capacity source prefix m e w = (Ok m', w') →
  serving source content w' ∧ materializing content prefix (l ++ [e]) m'.
Proof.
  intros Hs Hord [(fs & Hsel & F1) F2 F3 F4 F5 F6] H. unfold materialize in H.
  apply seq_ok in H as (path & w1 & [Hp ->]%lift_ok & H). apply strip_selected in Hp; [|done].
  destruct (directory e || is_empty path) eqn:Hdir.
  { injection H as <- <-. split; [done|]. split; [|done..]. exists fs.
    split; [|done]. rewrite <- (app_nil_r fs). by apply selected_app. }
  destruct (N.eqb_spec (compression_method e) 0) as [Hm|]; [|done]. cbn [negb orb] in H.
  destruct (N.eqb_spec (compressed_size e) (uncompressed_size e)) as [Hz|]; [|done]. cbn [negb] in H.
  destruct (StdMap.set_insert (lowercase path) (seen m)) as [paths inserted] eqn:Hins.
  destruct inserted; [|done]. cbn [negb] in H. apply set_insert_new in Hins as (Hp1 & Hp2 & Hp3); [|done].
  destruct (size_max <? compressed_size e); [done|]. apply seq_ok in H as (data & w2 & H2 & H).
  assert (serving source content w2) as S2 by (by eapply serving_after; [apply still_read| |exact H2]).
  apply (read_serving _ content) in H2 as [-> Hsize]; [|done]. rewrite Hz in *. cbv zeta in H.
  set (data := slice content (data_offset e) (uncompressed_size e)) in *.
  destruct (over_budget (retained_capacity m) (capacity (size data))) eqn:Hb; [done|].
  destruct (N.eqb_spec (payload_crc32 data) (crc32 e)) as [Hc|]; [|done]. cbn [negb] in H.
  rewrite Sha256.hash_text_sha256 in H. apply seq_ok in H as (digest & w3 & [E ->]%lift_ok & H). apply ok_inj in E as <-.
  injection H as <- <-. apply over_budget_false in Hb. split; [done|].
  split; cbn [kept seen kept_bytes retained_capacity peak_capacity].
  - exists (fs ++ [(path, e)]). split; [by apply selected_app|]. apply Forall2_app; [done|]. by repeat constructor.
  - done.
  - rewrite map_app, Hp3, F3. cbn [map relative_path]. by rewrite Permutation_cons_append.
  - unfold sizes. rewrite sum_last. fold (sizes (kept m)). cbn [bytes]. rewrite Hsize. lia.
  - unfold capacities. rewrite sum_last. fold (capacities (kept m)). cbn [bytes]. lia.
  - lia.
Qed.

Lemma materialize_all_run source content prefix : ∀ rest l m w m' w', serving source content w →
  Forall ordinary_name rest → materializing content prefix l m → fold_eff (materialize capacity source prefix) m rest w = (Ok m', w') →
  serving source content w' ∧ materializing content prefix (l ++ rest) m'.
Proof.
  induction rest as [|e rest IH]; intros l m w m' w' Hs Hord Hm; cbn [fold_eff].
  - intros [= <- <-]. by rewrite app_nil_r.
  - apply Forall_cons in Hord as [Hord Hords]. intros (m1 & w1 & H1 & H)%seq_ok. apply (materialize_run _ content _ l) in H1 as [S1 Hm1]; [|done..].
    apply (IH (l ++ [e])) in H as [S2 H2]; [|done..]. rewrite <- app_assoc in H2. done.
Qed.

(** C22 A payload read at once, on a host where nothing else acts: the archive is a
    file of the host with the digest that is reported; every entry of a sound inspection
    lies below the requested prefix or is the directory it names; the files are all the
    file entries, in their order and under what follows the prefix in their names, each
    with exactly its stored bytes, which have the reviewed CRC and the SHA-256 beside them; and whatever capacity the vectors took,
    what was held at any time stayed within the budget of 512 MiB. *)
Theorem stored_payload_exact t request strip_prefix w p observed w' : calm w →
  inspect_stored_payload capacity t request strip_prefix w = (Ok (p, observed), w') →
  ∃ i w1 prefix content source_path, inspect_zip (no_cancellation t) request w = (Ok i, w1) ∧ sound_inspection i ∧
    reviewed_prefix strip_prefix (budgets i) prefix ∧
    file_at (disk w) source_path content ∧ payload_source_sha256 p = Sha256.sha256 content ∧
    (∃ fs, selected prefix (Archive.entries i) fs ∧ Forall2 (materialized content) fs (files p)) ∧
    files p ≠ [] ∧ NoDup (map (fun f => lowercase (relative_path f)) (files p)) ∧
    payload_bytes p = sizes (files p) ∧ final_payload_capacity_bytes observed = capacities (files p) ∧
    final_payload_capacity_bytes observed <= peak_payload_capacity_bytes observed <= 512 * 1024 * 1024.
Proof.
  intros Hc H. unfold inspect_stored_payload in H. apply seq_ok in H as (i & w1 & H1 & H).
  destruct (_ <? uncompressed_bytes i); [done|]. apply seq_ok in H as (prefix & w2 & [Hp%reviewed_exact ->]%lift_ok & H).
  pose proof (inspect_zip_sound _ _ _ _ _ H1) as Hsound.
  pose proof (Forall_impl _ _ _ (sound_each _ Hsound) (entry_ordinary _)) as Hord.
  destruct (still_inspect_zip (no_cancellation t) request w) as [(Hi & _) D1]. rewrite H1 in Hi, D1. cbn [snd] in Hi, D1.
  specialize (D1 Hc). assert (calm w1) as C1 by (unfold calm; by rewrite Hi).
  apply seq_ok in H as ([source deadline] & w3 & (content & S3 & Hsha & Hat)%reopen_serves & H); [|done].
  apply seq_ok in H as (idd & w4 & [_ ->]%lift_ok & H). apply seq_ok in H as (m & w5 & H5 & H).
  apply (materialize_all_run _ content _ (Archive.entries i) []) in H5 as [_ [F1 F2 F3 F4 F5 F6]]; [|done|done|].
  2: { split; cbn [kept seen kept_bytes retained_capacity peak_capacity];
         [by exists []; repeat constructor|constructor|reflexivity|reflexivity|reflexivity|by vm_compute]. }
  destruct (bool_decide _) eqn:Hne; [done|]. apply bool_decide_eq_false in Hne.
  apply seq_ok in H as ([] & w6 & _ & H). injection H as <- <- _.
  exists i, w1, prefix, content, (StableFile.path_ source).
  cbn [payload_source_sha256 files payload_bytes final_payload_capacity_bytes peak_payload_capacity_bytes].
  rewrite D1 in Hat. repeat (split; [done|]). split; [|split; [done|]; split; [done|exact F6]].
  rewrite <- F3. pose proof (StdMap.sorted_nodup _ F2) as Hn. by rewrite keys_of_set in Hn.
Qed.


End Materializing.
End ArchivePayloadFacts.
