(* ===== verification/ArchiveEnds.v ===== *)
(** Archive inspection ends: on every host, whatever the bytes of the archive and
    whatever the decoder does within its contract, each loop runs out of work before
    its bound. *)

From Stdlib Require Import Ascii String NArith ZArith Lia.
From stdpp Require Import base list strings gmap sets.
From S2P Require Import Prelude Effects Sha256 StdMap Json JsonProps Path PathFacts World RecordIo TextFacts.
From S2P Require Import Archive ArchiveFacts ArchivePayload ArchiveStream ArchiveReads.

Module ArchiveEnds.
Import Json JsonProps Path Effects World RecordIo SortFacts Archive ArchiveFacts ArchivePayload ArchiveStream ArchiveCrc ArchiveReads ArchiveInflate.

(** ** Pure parts *)

Definition settles {A} (r : result A) : Prop := r ≠ Throw out_of_fuel.

Lemma settles_ok {A} (a : A) : settles (Ok a).
Proof. done. Qed.

Lemma settles_throw {A} w : settles (throw (A := A) w).
Proof. done. Qed.

Lemma settles_if c w : settles (throw_if c w).
Proof. by destruct c. Qed.

Lemma settles_bind {A B} (r : result A) (f : A → result B) : settles r → (∀ a, settles (f a)) → settles (r ≫= f).
Proof. unfold settles. destruct r as [a|e]; cbn [mbind result_bind]; [auto|congruence]. Qed.

Lemma settles_parse text L : settles (parse text L).
Proof. apply parse_fuelled. Qed.

Create HintDb settles.
#[export] Hint Resolve settles_ok settles_throw settles_if settles_parse : settles.

Ltac settles_step :=
  match goal with
  | |- settles (_ ≫= _) => apply settles_bind; [|intros ?]
  | |- settles (if ?c then _ else _) => destruct c
  | |- settles (match ?x with _ => _ end) => destruct x
  | |- settles (let '_ := ?x in _) => destruct x
  end.
Ltac settles_auto := repeat (solve [eauto with settles] || settles_step).

Lemma settles_little16 d o : settles (little16 d o).
Proof. unfold little16. settles_auto. Qed.

Lemma settles_little32 d o : settles (little32 d o).
Proof. unfold little32. settles_auto. Qed.
#[export] Hint Resolve settles_little16 settles_little32 : settles.

Lemma settles_little64 d o : settles (little64 d o).
Proof. unfold little64. settles_auto. Qed.
#[export] Hint Resolve settles_little64 : settles.

Lemma settles_at v k : settles (at_ v k).
Proof. unfold at_, as_object. settles_auto. Qed.

Lemma settles_local_path v f : settles (require_normalized_absolute_local_path_utf8 v f).
Proof. unfold require_normalized_absolute_local_path_utf8, path_to_utf8. cbv zeta. settles_auto. Qed.
#[export] Hint Resolve settles_at settles_local_path : settles.

Lemma settles_bounded v key maximum : settles (require_bounded_unsigned v key maximum).
Proof. unfold require_bounded_unsigned. settles_auto. Qed.

Lemma settles_require_string v key : settles (require_string v key).
Proof. unfold require_string. settles_auto. Qed.

Lemma settles_exact v names what : settles (require_exact_members v names what).
Proof. unfold require_exact_members. settles_auto. Qed.
#[export] Hint Resolve settles_bounded settles_require_string settles_exact : settles.

Lemma settles_request text : settles (parse_archive_request text).
Proof. unfold parse_archive_request, parse_budgets. settles_auto. Qed.

Lemma settles_split raw : ∀ trailing segments segment, settles (split_segments raw trailing segments segment).
Proof.
  induction raw as [|c raw IH]; intros trailing segments segment; cbn [split_segments]; unfold check_segment; settles_auto.
Qed.
#[export] Hint Resolve settles_request settles_split : settles.

Lemma settles_normalize raw depth : settles (normalize_path raw depth).
Proof. unfold normalize_path. cbv zeta. settles_auto. Qed.
#[export] Hint Resolve settles_normalize : settles.

Lemma settles_zip64 data o e needs : settles (parse_zip64 data o e needs).
Proof. unfold parse_zip64, take_value. settles_auto. Qed.
#[export] Hint Resolve settles_zip64 : settles.

(** Every round of the extra fields takes four bytes. *)
Lemma settles_extra fuel : ∀ data offset end_ needs ids zip64, end_ <= offset + N.of_nat fuel →
  settles (extra_loop fuel data offset end_ needs ids zip64).
Proof.
  induction fuel as [|fuel IH]; intros data offset end_ needs ids zip64 Hf; cbn [extra_loop];
    (destruct (N.ltb_spec offset end_) as [Hlt|]; [|apply settles_ok]); [lia|].
  apply settles_bind; [apply settles_if|intros _]. apply settles_bind; [apply settles_little16|intros identifier].
  apply settles_bind; [apply settles_little16|intros field_size]. cbv zeta.
  apply settles_bind; [apply settles_if|intros _].
  destruct (identifier =? 1); [apply settles_bind; [apply settles_zip64|intros]; apply IH; lia|].
  destruct (_ || _); [apply settles_throw|apply IH; lia].
Qed.

Lemma settles_extra_fields data offset count needs : settles (parse_extra_fields data offset count needs).
Proof.
  unfold parse_extra_fields. apply settles_bind; [apply settles_if|intros _].
  apply settles_bind; [apply settles_extra; lia|intros]. settles_auto.
Qed.
#[export] Hint Resolve settles_extra_fields : settles.

Lemma settles_central b central p : settles (central_step b central p).
Proof.
  unfold central_step, central_record, classify_entry, account, add_checked, validate_path_collision. cbv zeta. settles_auto.
Qed.

Lemma settles_find_eocd tail n : settles (find_eocd tail n).
Proof. induction n as [|n IH]; cbn [find_eocd]; cbv zeta; settles_auto. Qed.

Lemma settles_local_header r header : settles (check_local_header r header).
Proof. unfold check_local_header, or_else. settles_auto. Qed.

Lemma settles_local_variables r c u x v : settles (check_local_variables r c u x v).
Proof. unfold check_local_variables. cbv zeta. settles_auto. Qed.

Lemma settles_contiguous l : ∀ e c, settles (contiguous e l c).
Proof. induction l as [|x l IH]; intros e c; cbn [contiguous]; settles_auto. Qed.
#[export] Hint Resolve settles_central settles_find_eocd settles_local_header settles_local_variables settles_contiguous : settles.

Lemma settles_set_digest l : settles (entry_set_digest l).
Proof. by rewrite entry_set_digest_eq. Qed.

Lemma settles_ranges l c : settles (check_ranges l c).
Proof. unfold check_ranges. settles_auto. Qed.
#[export] Hint Resolve settles_set_digest settles_ranges : settles.

(** ** The inspection *)

Lemma ends_settles {S A} (r : result A) : settles r → ends (S := S) (lift r).
Proof. apply ends_lift. Qed.

(** The same with a property of the value returned. *)
Lemma ends_bind_val {S A B} (V : A → Prop) (m : M S A) (f : A → M S B) :
  ends m → (∀ s a s', m s = (Ok a, s') → V a) → (∀ a, V a → ends (f a)) → ends (m ≫= f).
Proof.
  intros Hm HV Hf s. unfold mbind, M_bind. specialize (Hm s). specialize (HV s).
  destruct (m s) as [[a|e] s'] eqn:E; cbn [fst] in *; [|congruence]. apply Hf. by eapply HV.
Qed.

Lemma ends_observing {A} (f : fs → option A) : ends (observe f).
Proof. apply ends_observe. Qed.

#[local] Hint Resolve ends_observing : eff.
#[local] Hint Extern 3 (ends (lift _)) => (apply ends_settles; settles_auto) : eff.

Lemma ends_check_cancelled t : ends (check_cancelled t).
Proof. unfold check_cancelled. ends_auto. Qed.

Lemma ends_steady_now t : ends (steady_now t).
Proof. unfold steady_now. ends_auto. Qed.
#[local] Hint Resolve ends_check_cancelled ends_steady_now : eff.

Lemma ends_check_deadline t d what : ends (check_deadline t d what).
Proof. unfold check_deadline. ends_auto. Qed.

Lemma settles_identity i x n : settles (StableFile.identity_from_stat i x n).
Proof. unfold StableFile.identity_from_stat. settles_auto. Qed.
#[local] Hint Resolve settles_identity : settles.

Lemma ends_open p : ends (StableFile.open_stable p).
Proof.
  unfold StableFile.open_stable, StableFile.require_absolute_path, StableFile.absolute, lstat_links, open_existing, fstat.
  cbv zeta. ends_auto.
Qed.

Lemma ends_verify f : ends (StableFile.verify_unchanged f).
Proof. unfold StableFile.verify_unchanged, fstat, lstat_links. ends_auto. Qed.

Lemma ends_read_exact f o n : ends (StableFile.read_exact f o n).
Proof. unfold StableFile.read_exact, read_content. cbv zeta. ends_auto. Qed.
#[local] Hint Resolve ends_check_deadline ends_open ends_verify ends_read_exact : eff.

Lemma ends_read f o n : ends (StableFile.read f o n).
Proof. unfold StableFile.read. ends_auto. Qed.

Lemma ends_read_into f o h n : ends (read_into f o h n).
Proof. unfold read_into. ends_auto. Qed.
#[local] Hint Resolve ends_read ends_read_into : eff.

(** Hashing moves on by a piece each round, and the hash stays one that can finish. *)
Definition fed_some (h : Sha256.Sha256) : Prop := ∃ m, Sha256.fed h m.

Lemma fed_some_initial : fed_some Sha256.initial.
Proof. eexists. apply Sha256.fed_initial. Qed.

Lemma fed_some_update h data h' : fed_some h → Sha256.update h data = Ok h' → fed_some h'.
Proof. intros [m Hm] E. destruct (Sha256.fed_update h m data Hm) as (h1 & E1 & F1). rewrite E in E1. injection E1 as <-. by eexists. Qed.

Lemma settles_update h data : settles (Sha256.update h data).
Proof. unfold Sha256.update. destruct (Sha256.finished_ h); [done|]. by destruct (Sha256.update_loop _ _ _ _). Qed.
#[local] Hint Resolve settles_update : settles.

Lemma settles_finish h : fed_some h → settles (Sha256.finish h).
Proof. intros [m Hm]. destruct (Sha256.finish_fed h m Hm) as (h' & E & _). by rewrite E. Qed.

Lemma ends_hash_until t deadline source fuel : ∀ o h,
  StableFile.size_bytes (StableFile.identity_ source) <= o + 65536 * N.of_nat fuel →
  ends (hash_until_loop t deadline source fuel o h).
Proof.
  induction fuel as [|fuel IH]; intros o h Hf; cbn [hash_until_loop]; cbv zeta;
    (destruct (N.ltb_spec o (StableFile.size_bytes (StableFile.identity_ source))) as [Hlt|]; [|apply ends_ret]); [lia|].
  change (64 * 1024) with 65536. do 4 (apply ends_bind; [ends_auto|intros ?]). apply IH. lia.
Qed.

Lemma hash_until_fed t deadline source fuel : ∀ o h s h' s', fed_some h →
  hash_until_loop t deadline source fuel o h s = (Ok h', s') → fed_some h'.
Proof.
  induction fuel as [|fuel IH]; intros o h s h' s' Hh; cbn [hash_until_loop]; cbv zeta;
    (destruct (o <? StableFile.size_bytes (StableFile.identity_ source)); [|by intros [= <- _]]); [done|].
  intros (u1 & w1 & _ & H)%seq_ok. apply seq_ok in H as (u2 & w2 & _ & H). apply seq_ok in H as (data & w3 & _ & H).
  apply seq_ok in H as (h1 & w4 & [E ->]%lift_ok & H). apply (fed_some_update h data) in E; [|done]. by eapply IH.
Qed.

Lemma ends_hash_source t source deadline : ends (hash_source_until t source deadline).
Proof.
  unfold hash_source_until. cbv zeta. eapply (ends_bind_val fed_some).
  - apply ends_hash_until. set (n := StableFile.size_bytes _). change (64 * 1024) with 65536.
    pose proof (N.div_mod n 65536 ltac:(lia)). pose proof (N.mod_lt n 65536 ltac:(lia)). lia.
  - intros s h s'. apply hash_until_fed, fed_some_initial.
  - intros h Hh. do 2 (apply ends_bind; [ends_auto|intros ?]). apply ends_bind; [by apply ends_settles, settles_finish|].
    intros [hex ?]. apply ends_ret.
Qed.
#[local] Hint Resolve ends_hash_source : eff.

Lemma ends_read_end source : ends (read_end source).
Proof.
  unfold read_end, classic_end, locate_zip64, zip64_end. cbv zeta. ends_auto.
Qed.

Lemma ends_inspect_entries t deadline b source central c count : ∀ p,
  ends (inspect_entries t deadline b source central c count p).
Proof.
  induction count as [|count IH]; intros p; cbn [inspect_entries]; [apply ends_ret|].
  apply ends_bind; [|intros; apply IH]. unfold inspect_entry, read_local. cbv zeta. ends_auto.
Qed.
#[local] Hint Resolve ends_read_end ends_inspect_entries : eff.

Lemma ends_inspect_zip t request : ends (inspect_zip t request).
Proof. unfold inspect_zip, iso8601_now, now. cbv zeta. ends_auto. Qed.
#[local] Hint Resolve ends_inspect_zip : eff.

(** ** Ending from a state, with a result *)

Definition finishes {S A} (P : S → Prop) (m : M S A) (Q : A → S → Prop) : Prop :=
  ∀ s, P s → match m s with (Ok a, s') => Q a s' | (Throw e, _) => e ≠ out_of_fuel end.

Lemma finishes_bind {S A B} (P : S → Prop) (m : M S A) (f : A → M S B) Q R :
  finishes P m Q → (∀ a, finishes (Q a) (f a) R) → finishes P (m ≫= f) R.
Proof.
  intros Hm Hf s Hs. specialize (Hm s Hs). unfold mbind, M_bind. destruct (m s) as [[a|e] s']; [by apply Hf|done].
Qed.

Lemma finishes_ret {S A} (a : A) (P : S → Prop) (Q : A → S → Prop) : (∀ s, P s → Q a s) → finishes P (ret a) Q.
Proof. intros H s Hs. by apply H. Qed.

Lemma finishes_fail {S A} w (P : S → Prop) (Q : A → S → Prop) : finishes P (fail w) Q.
Proof. done. Qed.

Lemma finishes_fail_bind {S A B} w (f : A → M S B) (P : S → Prop) Q : finishes P (fail w ≫= f) Q.
Proof. done. Qed.

Lemma finishes_ret_bind {S A B} (a : A) (f : A → M S B) (P : S → Prop) Q :
  finishes P (f a) Q → finishes P (ret a ≫= f) Q.
Proof. done. Qed.

Lemma finishes_pure {S A} (φ : Prop) (P : S → Prop) (m : M S A) Q : (φ → finishes P m Q) → finishes (fun s => φ ∧ P s) m Q.
Proof. intros H s [? Hs]. by apply H. Qed.

Lemma finishes_conseq {S A} (P P' : S → Prop) (m : M S A) (Q Q' : A → S → Prop) :
  finishes P' m Q' → (∀ s, P s → P' s) → (∀ a s, Q' a s → Q a s) → finishes P m Q.
Proof. intros Hm HP HQ s Hs. specialize (Hm s (HP s Hs)). destruct (m s) as [[a|e] s']; [by apply HQ|done]. Qed.

Lemma finishes_on_snd {T A} (m : io A) (P : T → Prop) :
  ends m → finishes (fun s => P (fst s)) (on_snd m) (fun _ s => P (fst s)).
Proof.
  intros Hm [x w] Hp. unfold on_snd. cbn [fst snd] in *. specialize (Hm w). destruct (m w) as [[a|e] w']; [done|].
  cbn [fst] in Hm. congruence.
Qed.

Lemma ends_finishes {S A} (m : M S A) Q : finishes (fun _ => True) m Q → ends m.
Proof. intros H s. specialize (H s I). destruct (m s) as [[a|e] s']; cbn [fst]; congruence. Qed.

(** ** The Deflate reader *)

Section Inflate.
Context {zstream : Type} (zfresh : zstream) (inflate : zstream → string → N → inflated zstream) `{!Decoder inflate}.
Abbreviation deflate_t := (DeflatePayloadReader (zstream := zstream)).

(** The input not consumed yet. *)
Definition room (d : deflate_t) : N := size (input_ d) + (compressed_size_ d - fetched_input_ d).

Definition within (c n : N) (d : deflate_t) : Prop :=
  size (input_ d) <= fetched_input_ d <= compressed_size_ d ∧ compressed_size_ d = c ∧ room d <= n.

Lemma within_all c n d : within c n d → within c c d.
Proof. intros (H1 & H2 & H3). unfold within, room in *. lia. Qed.

Lemma finishes_this (P : deflate_t → Prop) Q :
  (∀ d, P d → Q d d) → finishes (fun s => P (fst s)) this (fun d s => Q d (fst s)).
Proof. intros H [d w] Hd. by apply H. Qed.

Lemma finishes_check t (P : deflate_t → Prop) :
  finishes (fun s => P (fst s)) (deflate_check_deadline t) (fun _ s => P (fst s)).
Proof.
  unfold deflate_check_deadline. eapply finishes_bind; [by apply (finishes_this P (fun _ => P))|intros d].
  eapply finishes_bind; [apply finishes_on_snd; ends_auto|intros ?; cbv beta]. apply finishes_on_snd. ends_auto.
Qed.

Lemma fill_input_finishes t c n b :
  finishes (fun s => within c n (fst s) ∧ finished_ (fst s) = b) (fill_input t)
    (fun _ s => within c n (fst s) ∧ finished_ (fst s) = b).
Proof.
  unfold fill_input. eapply finishes_bind.
  { apply (finishes_check t (fun d => within c n d ∧ finished_ d = b)). }
  intros ? [d w] [(H1 & H2 & H3) H4]. cbn [fst] in *. unfold mbind, M_bind. rewrite this_run.
  destruct (N.eqb_spec (size (input_ d)) 0) as [Hi|]; cbn [negb orb]; [|done]. destruct (_ =? _); [done|]. cbv zeta.
  set (count := N.min _ _). destruct (call _ (d, w)) as [[data|e] [d1 w1]] eqn:E.
  - apply call_ok in E as (w2 & E & [= <- <-]). unfold set_this, modify. cbn. unfold within, room. cbn.
    assert (size (str_take (N.to_nat (uint count)) data) <= count) as Hs.
    { unfold size. rewrite length_str_take. unfold uint. pose proof (N.Div0.mod_le count (2 ^ 32)). lia. }
    split; [|done]. unfold count, room in *. lia.
  - pose proof (ends_read_into (source_ d) (data_offset_ d + fetched_input_ d) true count w) as He.
    unfold call, on_snd in E. cbn [fst snd] in E. destruct (read_into _ _ _ _ w) as [x w2]. injection E as -> _ _.
    cbn [fst] in He. congruence.
Qed.

(** A call of the decoder that leaves the input alone leaves the room alone. *)
Lemma run_inflate_finishes c n avail_out :
  finishes (fun s => within c n (fst s) ∧ finished_ (fst s) = false) (run_inflate inflate avail_out)
    (fun r s => within c n (fst s) ∧ finished_ (fst s) = false ∧ size (snd r) <= avail_out ∧
      (snd (fst r) = false → room (fst s) + 1 <= n)).
Proof.
  intros [d w] [(H1 & H2 & H3) H4]. cbn [fst] in *. unfold run_inflate, mbind, M_bind. rewrite this_run. cbv zeta.
  unfold set_this, modify, ret. cbn [fst snd]. unfold within, room. cbn.
  set (r := inflate (stream_ d) (input_ d) avail_out).
  assert (size (str_drop (N.to_nat (consumed r)) (input_ d)) <= size (input_ d)) as Hle.
  { unfold size. rewrite length_str_drop. lia. }
  split; [unfold room in *; lia|]. split; [done|]. split; [apply inflate_fits|].
  intros Hne%N.eqb_neq. unfold room in *. lia.
Qed.

Lemma set_finished_finishes c n :
  finishes (fun s => within c n (fst s)) set_finished (fun _ s => within c n (fst s) ∧ finished_ (fst s) = true).
Proof. intros [d w] H. by unfold set_finished, mbind, M_bind. Qed.

Lemma inflate_loop_finishes t fuel : ∀ c n avail_out written,
  finishes (fun s => within c n (fst s) ∧ (finished_ (fst s) = true ∨ n + avail_out < N.of_nat fuel))
    (inflate_loop inflate t fuel avail_out written) (fun _ s => within c c (fst s)).
Proof.
  induction fuel as [|fuel IH]; intros c n avail_out written [d w] [Hw Hf]; cbn [fst] in *; cbn [inflate_loop];
    unfold mbind at 1, M_bind at 1; rewrite this_run;
    (destruct (negb (avail_out =? 0) && negb (finished_ d)) eqn:Hc;
      [apply andb_true_iff in Hc as [_ Hc%negb_true_iff]; destruct Hf as [Hf|Hf]; [congruence|]|by eapply within_all]); [lia|].
  revert d w Hw Hc. cut (finishes (fun s => within c n (fst s) ∧ finished_ (fst s) = false)
    (fill_input t ≫= fun _ => run_inflate inflate avail_out ≫= fun '(status, same_input, output) =>
      (match status with Z_OK => ret tt | Z_STREAM_END => set_finished | Z_ERROR _ => fail malformed end) ≫= fun _ =>
      this ≫= fun d => let remaining := avail_out - size output in
        if same_input && (avail_out =? remaining) && negb (finished_ d) then fail "ZIP Deflate stream made no progress"
        else inflate_loop inflate t fuel remaining (written +:+ output)) (fun _ s => within c c (fst s))).
  { intros H d w Hw Hc. exact (H (d, w) (conj Hw Hc)). }
  eapply finishes_bind; [apply fill_input_finishes|intros ?; cbv beta].
  eapply finishes_bind; [apply run_inflate_finishes|intros [[st same] output]]. cbn [fst snd]. cbv zeta.
  intros [d w] (Hw & Hc & Hle & Hroom). cbn [fst snd] in *.
  assert (∀ m, m (d, w) = (Ok tt, (d, w)) ∨ (∃ d', m (d, w) = (Ok tt, (d', w)) ∧ within c n d' ∧ finished_ d' = true) ∨
    (∃ e s, m (d, w) = (Throw e, s) ∧ e ≠ out_of_fuel) →
    match (m ≫= fun _ => this ≫= fun d0 =>
      if same && (avail_out =? avail_out - size output) && negb (finished_ d0) then fail "ZIP Deflate stream made no progress"
      else inflate_loop inflate t fuel (avail_out - size output) (written +:+ output)) (d, w) with
    | (Ok _, s') => within c c (fst s') | (Throw e, _) => e ≠ out_of_fuel end) as Hgo.
  { intros m [E|[(d' & E & Hw' & Hf')|(e & s & E & Hne)]]; unfold mbind at 1, M_bind at 1; rewrite E; [| |done].
    - unfold mbind, M_bind. rewrite this_run, Hc. cbn [negb]. rewrite andb_true_r.
      destruct (same && (avail_out =? avail_out - size output)) eqn:Hsame; [done|].
      apply (IH c (if same then n else n - 1)). cbn [fst]. destruct same; cbn [andb] in Hsame.
      + apply N.eqb_neq in Hsame. split; [done|]. right. lia.
      + specialize (Hroom eq_refl). split; [|right; lia]. destruct Hw as (? & ? & ?). unfold within. split; [done|]. split; [done|lia].
    - unfold mbind, M_bind. rewrite this_run, Hf'. cbn [negb]. rewrite andb_false_r.
      apply (IH c n). cbn [fst]. split; [done|by left]. }
  apply Hgo. destruct st as [| |code]; [by left| |].
  - right. left. eexists. split; [reflexivity|]. done.
  - right. right. by eexists _, _.
Qed.

(** A probe that goes on consumes input. *)
Lemma finish_loop_finishes t fuel : ∀ c n,
  finishes (fun s => within c n (fst s) ∧ (finished_ (fst s) = true ∨ n < N.of_nat fuel))
    (finish_loop inflate t fuel) (fun _ s => within c c (fst s)).
Proof.
  induction fuel as [|fuel IH]; intros c n [d w] [Hw Hf]; cbn [fst] in *; cbn [finish_loop];
    unfold mbind at 1, M_bind at 1; rewrite this_run;
    (destruct (finished_ d) eqn:Hc; cbn [negb]; [by eapply within_all|destruct Hf as [|Hf]; [done|]]); [lia|].
  revert d w Hw Hc. cut (finishes (fun s => within c n (fst s) ∧ finished_ (fst s) = false)
    (deflate_check_deadline t ≫= fun _ => fill_input t ≫= fun _ => run_inflate inflate 1 ≫= fun '(status, same_input, output) =>
      if 1 - size output =? 0 then fail "ZIP Deflate output exceeds the reviewed size"
      else (match status with Z_OK => if same_input : bool then fail malformed else ret tt | Z_STREAM_END => set_finished
        | Z_ERROR _ => fail malformed end) ≫= fun _ => finish_loop inflate t fuel) (fun _ s => within c c (fst s))).
  { intros H d w Hw Hc. exact (H (d, w) (conj Hw Hc)). }
  eapply finishes_bind; [apply (finishes_check t (fun d => within c n d ∧ finished_ d = false))|intros ?; cbv beta].
  eapply finishes_bind; [apply fill_input_finishes|intros ?; cbv beta].
  eapply finishes_bind; [apply run_inflate_finishes|intros [[st same] output]]. cbn [fst snd].
  destruct (_ =? 0); [apply finishes_fail|].
  destruct st as [| |code];
    [|eapply (finishes_bind _ _ _ (fun _ s => within c n (fst s) ∧ (finished_ (fst s) = true ∨ n < N.of_nat fuel)));
      [|intros ?; apply (IH c n)]|apply finishes_fail_bind].
  - destruct same; [apply finishes_fail_bind|]. apply finishes_ret_bind.
    eapply finishes_conseq; [apply (IH c (n - 1))| |done]. intros s ((? & ? & ?) & Hc & _ & Hroom).
    specialize (Hroom eq_refl). unfold within. split; [split; [done|]; split; [done|lia]|right; lia].
  - eapply finishes_conseq; [apply (set_finished_finishes c n)|by intros s (? & _)|]. intros ? s [? ?]. auto.
Qed.

(** [this] and what follows. *)
Lemma finishes_with_this {A} (P : deflate_t → Prop) (f : deflate_t → dio A) Q :
  (∀ d, P d → finishes (fun s => fst s = d) (f d) Q) → finishes (fun s => P (fst s)) (this ≫= f) Q.
Proof. intros H [d w] Hd. unfold mbind, M_bind. rewrite this_run. by apply (H d Hd). Qed.

Lemma finish_exactly_finishes t c :
  finishes (fun s => within c c (fst s)) (finish_exactly inflate t) (fun _ s => within c c (fst s)).
Proof.
  unfold finish_exactly. apply finishes_with_this. intros d Hd. eapply finishes_bind.
  - eapply finishes_conseq; [apply (finish_loop_finishes t _ c c)| |intros ? s Hs; exact Hs].
    intros s <-. split; [done|]. right. destruct Hd as (_ & -> & _). lia.
  - intros ?. cbv beta. apply finishes_with_this. intros d' Hd'. destruct (_ || _); [apply finishes_fail|].
    apply finishes_ret. by intros s <-.
Qed.

Lemma deflate_read_finishes t relative has_output capacity c :
  finishes (fun s => within c c (fst s)) (deflate_read inflate t relative has_output capacity) (fun _ s => within c c (fst s)).
Proof.
  unfold deflate_read. apply finishes_with_this. intros d Hd. destruct (negb _); [apply finishes_fail|].
  destruct (_ <? relative); [apply finishes_fail|].
  eapply finishes_bind; [apply (finishes_check t (fun d' => d' = d))|intros ?; cbv beta].
  destruct (relative =? _).
  - eapply finishes_bind; [eapply finishes_conseq; [apply (finish_exactly_finishes t c)|by intros s <-|by intros ? s Hs; exact Hs]|].
    intros ?. cbv beta. eapply finishes_bind; [apply (finishes_check t (within c c))|intros ?; cbv beta].
    apply finishes_with_this. intros d' Hd'.
    eapply finishes_bind; [apply (finishes_on_snd _ (fun x => x = d')); ends_auto|intros ?; cbv beta].
    apply finishes_ret. by intros s <-.
  - destruct (_ || _); [apply finishes_fail|]. cbv zeta. set (allowed := N.min _ _).
    eapply finishes_bind.
    { eapply finishes_conseq; [apply (inflate_loop_finishes t _ c c)| |by intros ? s Hs; exact Hs].
      intros s <-. split; [done|]. right. destruct Hd as (_ & -> & _). lia. }
    intros [remaining written]. cbv beta iota.
    eapply (finishes_bind _ _ _ (fun _ s => within c c (fst s))); [by intros [d' w] Hd'|intros ?; cbv beta].
    apply finishes_with_this. intros d' Hd'. destruct (_ <? output_offset_ d'); [apply finishes_fail|].
    destruct (_ && _); [apply finishes_fail|]. destruct (_ && _); [apply finishes_fail|].
    eapply (finishes_bind _ _ _ (fun _ s => within c c (fst s))); [|intros ?; cbv beta; by apply finishes_ret].
    destruct (_ =? _); [|apply finishes_ret; by intros s <-].
    eapply finishes_bind; [eapply finishes_conseq; [apply (finish_exactly_finishes t c)|by intros s <-|by intros ? s Hs; exact Hs]|].
    intros ?. apply (finishes_check t (within c c)).
Qed.

(** ** Readers *)

Definition reader_within (r : PayloadReader (zstream := zstream)) : Prop :=
  match r with
  | deflate_payload_reader _ _ _ _ _ _ (Some d) => within (compressed_size_ d) (compressed_size_ d) d
  | _ => True
  end.

Lemma ends_stored_read t source o n deadline relative has_output capacity :
  ends (stored_read t source o n deadline relative has_output capacity).
Proof. unfold stored_read. cbv zeta. ends_auto. Qed.

Lemma invoke_finishes t relative has_output capacity :
  finishes (fun s => reader_within (fst s)) (invoke zfresh inflate t relative has_output capacity)
    (fun _ s => reader_within (fst s)).
Proof.
  intros [r w] Hr. cbn [fst] in Hr. unfold invoke. destruct r as [source o n deadline|source o cs us ib deadline state].
  - apply (finishes_on_snd (T := PayloadReader (zstream := zstream)) _ reader_within); [apply ends_stored_read|done].
  - match goal with |- context [match ?init w with _ => _ end] => destruct (init w) as [[d|e] w1] eqn:E end.
    + assert (within (compressed_size_ d) (compressed_size_ d) d) as Hd.
      { destruct state as [d0|]; [by injection E as <- _|]. destruct (negb _); [done|]. unfold new_deflate in E.
        apply seq_ok in E as (failed & w2 & _ & E). destruct failed; [done|]. injection E as <- _.
        unfold within, room. cbn [input_ compressed_size_ fetched_input_]. rewrite size_nil. lia. }
      pose proof (deflate_read_finishes t relative has_output capacity (compressed_size_ d) (d, w1) Hd) as H.
      destruct (deflate_read _ _ _ _ _ _) as [[[n data]|e] [d2 w2]]; [|done]. cbn [fst] in *.
      destruct (_ && _); [done|]. cbn [reader_within]. pose proof H as (_ & E2 & _). by rewrite E2.
    + destruct state as [d0|]; [done|]. destruct (negb _); [by injection E as <- _|]. unfold new_deflate in E.
      pose proof (ends_step_call w) as Hstep. unfold mbind, M_bind in E. destruct (step w) as [[failed|e0] w2].
      * destruct failed; [by injection E as <- _|done].
      * cbn [fst] in Hstep. injection E as <- _. congruence.
Qed.

(** Every piece moves the offset on; the integrity stays one that can finish. *)
Definition can_finish (i : PayloadIntegrity) : Prop := ∃ data, absorbed i data.

Lemma inspect_pieces_finishes t deadline total fuel : ∀ buffer integrity offset,
  can_finish integrity → total <= offset + N.of_nat fuel →
  finishes (fun s => reader_within (fst s)) (inspect_pieces zfresh inflate t deadline total fuel buffer integrity offset)
    (fun r s => can_finish (fst (fst r)) ∧ reader_within (fst s)).
Proof.
  induction fuel as [|fuel IH]; intros buffer integrity offset Hi Hf; cbn [inspect_pieces];
    (destruct (N.ltb_spec offset total) as [Hlt|]; [|apply finishes_ret; by intros s ?]); [lia|].
  eapply finishes_bind; [apply (finishes_on_snd _ reader_within); ends_auto|intros ?; cbv beta zeta].
  eapply finishes_bind; [apply invoke_finishes|intros [count written]; cbv beta iota zeta].
  destruct (N.eqb_spec count 0) as [|Hc]; cbn [orb]; [apply finishes_fail|]. destruct (_ <? count); [apply finishes_fail|].
  destruct Hi as [data Ha].
  destruct (absorbed_update integrity data (str_take (N.to_nat count) (overwrite written buffer)) Ha) as (i' & E & Ha').
  rewrite E. apply (finishes_ret_bind i'). apply IH; [by eexists|lia].
Qed.

Lemma ends_inspect_content t deadline total buffer r : reader_within r →
  finishes (fun _ => True) (with_reader r (inspect_content zfresh inflate t deadline total buffer))
    (fun x _ => can_finish (fst x)).
Proof.
  intros Hr w _. unfold with_reader.
  cut (finishes (fun s => reader_within (fst s)) (inspect_content zfresh inflate t deadline total buffer)
    (fun x _ => can_finish (fst x))).
  { intros H. specialize (H (r, w) Hr). by destruct (inspect_content _ _ _ _ _ _ _) as [[x|e] [r' w']]. }
  unfold inspect_content. eapply finishes_bind.
  - apply inspect_pieces_finishes; [eexists; apply absorbed_new|lia].
  - intros [[integrity buffer'] offset]. cbn [fst snd]. apply finishes_pure. intros Hi.
    eapply finishes_bind; [apply invoke_finishes|intros [count ?]; cbv beta iota].
    destruct (negb _); [apply finishes_fail|]. by apply finishes_ret.
Qed.

Lemma ends_stream_entry t allow source prefix buffer_bytes deadline s e :
  ends (stream_entry zfresh inflate t allow source prefix buffer_bytes deadline s e).
Proof.
  unfold stream_entry. apply ends_bind; [ends_auto|intros ?]. apply ends_bind; [ends_auto|intros ?].
  apply ends_bind; [apply ends_settles; unfold strip_entry_path; cbv zeta; settles_auto|intros path].
  destruct (_ || _); [ends_auto|]. destruct (_ && _); [ends_auto|]. destruct (_ && _); [ends_auto|].
  destruct (_ && _); [ends_auto|]. destruct (StdMap.set_insert _ _) as [paths inserted]. destruct (negb inserted); [ends_auto|].
  assert (reader_within (entry_reader source e buffer_bytes deadline)) as Hr by (unfold entry_reader; by destruct (_ =? 8)).
  pose proof (ends_inspect_content t deadline (uncompressed_size e) (stream_buffer s) _ Hr) as Hc.
  apply (ends_bind_val (fun x => can_finish (fst x))); [by eapply ends_finishes| |].
  - intros w x w' E. specialize (Hc w I). by rewrite E in Hc.
  - intros [integrity buffer] [data Ha]. cbn [fst] in Ha. destruct (absorbed_finish _ _ Ha) as [Hsha _]. rewrite Hsha.
    ends_auto.
Qed.

Lemma ends_fold {A B} (f : B → A → io B) l : (∀ b x, ends (f b x)) → ∀ b, ends (fold_eff f b l).
Proof. intros H. induction l as [|x l IH]; intros b; cbn [fold_eff]; [apply ends_ret|]. by apply ends_bind. Qed.

Lemma ends_reopen t i : ends (reopen t i).
Proof. unfold reopen. cbv zeta. ends_auto. Qed.

Lemma settles_prefix p b : settles (normalize_prefix p b).
Proof. unfold normalize_prefix. settles_auto. Qed.
#[local] Hint Resolve settles_prefix : settles.

Lemma settles_source_identity i : settles (source_identity_digest i).
Proof. unfold source_identity_digest. by rewrite Sha256.hash_text_sha256. Qed.
#[local] Hint Resolve settles_source_identity : settles.
#[local] Hint Resolve ends_reopen ends_stream_entry ends_fold : eff.

(** C23 On every host, with any clock and any cancellation, whatever the archive holds
    and whatever zlib answers within its contract, the inspection of an archive and
    the inspection of its payload in pieces end with a value or an exception: the
    chunks, the extra fields, the central directory, the decoder and the probe for
    its end are all bounded by sizes that were checked before. *)
Theorem archive_inspection_ends t request strip_prefix buffer_bytes allow_deflate w :
  fst (inspect_zip t request w) ≠ Throw out_of_fuel ∧
  fst (inspect_streaming_payload_impl zfresh inflate t request strip_prefix buffer_bytes allow_deflate w)
    ≠ Throw out_of_fuel.
Proof.
  split; [apply ends_inspect_zip|]. revert w. change (ends (inspect_streaming_payload_impl zfresh inflate t request
    strip_prefix buffer_bytes allow_deflate)).
  unfold inspect_streaming_payload_impl. cbv zeta. ends_auto.
Qed.

End Inflate.
End ArchiveEnds.
