(* ===== verification/ArchiveSample.v ===== *)
(** A small archive with a stored and a deflated file, a decoder for Deflate streams of
    one stored block, and the runs that show the archive theorems apply. *)

From Stdlib Require Import Ascii String NArith ZArith Lia.
From stdpp Require Import base list strings gmap sets.
From S2P Require Import Prelude Effects Sha256 StdMap Json Path World RecordIo RecordFacts Archive ArchivePaths.
From S2P Require Import ArchiveFacts ArchivePayload ArchiveStream ArchiveReads ArchiveStreamFacts ArchiveEnds.

Module ArchiveSample.
Import Path Effects World RecordIo RecordFacts Archive ArchivePaths ArchiveFacts ArchivePayload ArchiveStream ArchiveReads.
Import ArchiveInflate ArchiveStreamFacts ArchivePayloadFacts ArchiveEnds.

(** ** A decoder *)

(** The state: how many of the five header bytes were read, the low byte of the length,
    and the bytes of the block that are left. *)
Record block := mk_block { header_bytes : N; block_left : N }.

(** One byte at a time, as long as there is input and room for output. *)
Fixpoint decode (z : block) (input : string) (avail_out : nat) : N * string * block :=
  match input with
  | EmptyString => (0, EmptyString, z)
  | String c rest =>
    if header_bytes z <? 5 then
      let left :=
        if header_bytes z =? 1 then code c
        else if header_bytes z =? 2 then block_left z + 256 * code c else block_left z in
      let '(n, out, z) := decode (mk_block (header_bytes z + 1) left) rest avail_out in (1 + n, out, z)
    else if block_left z =? 0 then (0, EmptyString, z)
    else match avail_out with
         | O => (0, EmptyString, z)
         | S avail_out =>
           let '(n, out, z) := decode (mk_block 5 (block_left z - 1)) rest avail_out in (1 + n, String c out, z)
         end
  end.

Definition block_inflate (z : block) (input : string) (avail_out : N) : inflated block :=
  let '(n, out, z) := decode z input (N.to_nat avail_out) in
  mk_inflated (if (header_bytes z =? 5) && (block_left z =? 0) then Z_STREAM_END else Z_OK) n out z.

Lemma decode_bounds input : ∀ z avail_out, let '(n, out, _) := decode z input avail_out in
  n <= size input ∧ (String.length out <= avail_out)%nat.
Proof.
  induction input as [|c input IH]; intros z avail_out; cbn [decode]; [by split; [|apply Nat.le_0_l]|].
  rewrite size_cons. destruct (header_bytes z <? 5).
  - match goal with |- context [decode ?z input avail_out] => specialize (IH z avail_out); destruct (decode z input avail_out)
      as [[n out] z'] end. destruct IH. split; [lia|done].
  - destruct (block_left z =? 0); [split; [lia|cbn; lia]|]. destruct avail_out as [|avail_out]; [split; [lia|cbn; lia]|].
    match goal with |- context [decode ?z input avail_out] => specialize (IH z avail_out); destruct (decode z input avail_out)
      as [[n out] z'] end. destruct IH. split; [lia|cbn; lia].
Qed.

#[global] Instance block_decoder : Decoder block_inflate.
Proof.
  split; intros z input avail_out; unfold block_inflate; pose proof (decode_bounds input z (N.to_nat avail_out)) as H;
    destruct (decode z input (N.to_nat avail_out)) as [[n out] z']; destruct H; cbn [consumed produced]; [done|unfold size; lia].
Qed.

(** ** An archive *)

Definition byte (n : N) : string := String (ascii_of_N n) EmptyString.
Definition le16 (n : N) : string := byte (n mod 256) +:+ byte (n / 256 mod 256).
Definition le32 (n : N) : string := le16 (n mod 65536) +:+ le16 (n / 65536).

(** Name, method, compressed bytes and data. *)
Record item := mk_item { item_name : string; item_method : N; item_bytes : string; item_data : string }.

(** The fields that a local header and a central record share. *)
Definition item_fields (x : item) : string :=
  le16 0 +:+ le16 (item_method x) +:+ le32 0 +:+ le32 (payload_crc32 (item_data x)) +:+
  le32 (size (item_bytes x)) +:+ le32 (size (item_data x)) +:+ le16 (size (item_name x)) +:+ le16 0.

Definition local_part (x : item) : string :=
  le32 0x04034b50 +:+ le16 20 +:+ item_fields x +:+ item_name x +:+ item_bytes x.

Definition central_part (x : item) (offset : N) : string :=
  le32 0x02014b50 +:+ le16 20 +:+ le16 20 +:+ item_fields x +:+ le16 0 +:+ le16 0 +:+ le16 0 +:+ le32 0 +:+
  le32 offset +:+ item_name x.

Definition end_part (count csize offset : N) : string :=
  le32 0x06054b50 +:+ le16 0 +:+ le16 0 +:+ le16 count +:+ le16 count +:+ le32 csize +:+ le32 offset +:+ le16 0.

Definition stored_item : item := mk_item "p/a" 0 "hi" "hi".
Definition deflated_item : item := mk_item "p/b" 8 (byte 1 +:+ le16 2 +:+ le16 65533 +:+ "ok") "ok".

Fixpoint central_parts (l : list item) (offset : N) : string :=
  match l with
  | [] => EmptyString
  | x :: l => central_part x offset +:+ central_parts l (offset + size (local_part x))
  end.

Definition zip_of (l : list item) : string :=
  let locals := Sha256.concat_chunks (map local_part l) in
  let central := central_parts l 0 in
  locals +:+ central +:+ end_part (N.of_nat (length l)) (size central) (size locals).

Definition mixed_archive : string := Eval vm_compute in zip_of [stored_item; deflated_item].
Definition plain_archive : string := Eval vm_compute in zip_of [stored_item].

Definition q (s : string) : string := String dquote s +:+ String dquote EmptyString.

Definition sample_request : string := Eval vm_compute in
  "{" +:+ q "schema" +:+ ":" +:+ q "usk.archive_inspect_request.v1" +:+ "," +:+
  q "archive_path" +:+ ":" +:+ q "/z" +:+ "," +:+ q "archive_format" +:+ ":" +:+ q "zip" +:+ "," +:+
  q "budgets" +:+ ":{" +:+ q "max_entries" +:+ ":4," +:+ q "max_uncompressed_bytes" +:+ ":64," +:+
  q "max_entry_bytes" +:+ ":16," +:+ q "max_depth" +:+ ":4," +:+ q "max_ratio" +:+ ":10," +:+
  q "max_elapsed_ms" +:+ ":1000}}".

Definition archive_fs (content : string) : fs :=
  mk_fs {[ [] := 1; ["z"] := 2 ]} {[ 1 := mk_inode 1 World.directory 0; 2 := mk_inode 1 (regular content) 0 ]}.

Definition mixed_world : world := quiet_world (archive_fs mixed_archive).
Definition plain_world : world := quiet_world (archive_fs plain_archive).

Definition stopped_clock : Timer := mk_timer (fun _ => 0) None.

Definition block_fresh : block := mk_block 0 0.

(** ** Runs *)

Lemma mixed_inspected : is_ok (fst (inspect_zip stopped_clock sample_request mixed_world)) = true.
Proof. vm_cast_no_check (eq_refl true). Qed.

Lemma mixed_streamed : is_ok (fst (inspect_streaming_payload_impl block_fresh block_inflate stopped_clock
  sample_request "p" 65536 true mixed_world)) = true.
Proof. vm_cast_no_check (eq_refl true). Qed.

Lemma plain_materialized : is_ok (fst (inspect_stored_payload (fun n => n) stopped_clock
  sample_request "p" plain_world)) = true.
Proof. vm_cast_no_check (eq_refl true). Qed.

(** Only one size of buffer is accepted. *)
Example buffer_refused : fst (inspect_streaming_stored_payload block_fresh block_inflate stopped_clock
  sample_request "p" 1024 mixed_world) = throw "ZIP streaming buffer budget is invalid".
Proof. reflexivity. Qed.

(** The decoder reads a stored block in any cut. *)
Example block_read : let z := after (block_inflate block_fresh (byte 1 +:+ le16 3 +:+ le16 65532 +:+ "o") 4) in
  (status (block_inflate z "kay" 4), produced (block_inflate z "kay" 4), consumed (block_inflate z "kay" 4)) =
  (Z_STREAM_END, "ka", 2).
Proof. vm_compute. reflexivity. Qed.

(** The check value of CRC-32. *)
Example crc_check : payload_crc32 "123456789" = 0xcbf43926.
Proof. vm_compute. reflexivity. Qed.

(** ** Witnesses *)

Lemma archive_inspection_sound_witness : ∃ i w',
  inspect_zip stopped_clock sample_request mixed_world = (Ok i, w') ∧ sound_inspection i.
Proof.
  pose proof mixed_inspected as H.
  destruct (inspect_zip stopped_clock sample_request mixed_world) as [[i|e] w'] eqn:E; [|discriminate].
  exists i, w'. split; [reflexivity|].
  exact (archive_inspection_sound stopped_clock sample_request mixed_world i w' E).
Defined.

Lemma archive_inspection_ends_witness :
  fst (inspect_zip stopped_clock sample_request mixed_world) ≠ Throw out_of_fuel ∧
  fst (inspect_streaming_payload_impl block_fresh block_inflate stopped_clock sample_request "p" 65536 true mixed_world)
    ≠ Throw out_of_fuel.
Proof.
  exact (archive_inspection_ends block_fresh block_inflate stopped_clock sample_request "p" 65536 true mixed_world).
Defined.

Lemma streaming_payload_exact_witness : ∃ p observed w',
  inspect_streaming_payload_impl block_fresh block_inflate stopped_clock sample_request "p" 65536 true mixed_world =
    (Ok (p, observed), w') ∧
  ∃ content, file_at (disk mixed_world) (StableFile.path_ (stream_source p)) content ∧
    stream_source_sha256 p = Sha256.sha256 content.
Proof.
  pose proof mixed_streamed as H.
  destruct (inspect_streaming_payload_impl block_fresh block_inflate stopped_clock sample_request "p" 65536 true mixed_world)
    as [[[p observed]|e] w'] eqn:E; [|discriminate].
  exists p, observed, w'. split; [reflexivity|].
  destruct (streaming_payload_exact block_fresh block_inflate stopped_clock true sample_request "p" 65536 mixed_world
    p observed w' (fun _ _ => eq_refl) E) as (i & w1 & prefix & content & _ & _ & _ & H1 & H2 & _).
  exists content. split; assumption.
Defined.

Lemma stored_payload_exact_witness : ∃ p observed w',
  inspect_stored_payload (fun n => n) stopped_clock sample_request "p" plain_world = (Ok (p, observed), w') ∧
  files p ≠ [] ∧ payload_bytes p = sizes (files p).
Proof.
  pose proof plain_materialized as H.
  destruct (inspect_stored_payload (fun n => n) stopped_clock sample_request "p" plain_world)
    as [[[p observed]|e] w'] eqn:E; [|discriminate].
  exists p, observed, w'. split; [reflexivity|].
  destruct (stored_payload_exact (fun n => n) stopped_clock sample_request "p" plain_world p observed w'
    (fun _ _ => eq_refl) E) as (i & w1 & prefix & content & path & _ & _ & _ & _ & _ & _ & H1 & _ & H2 & _).
  split; assumption.
Defined.

End ArchiveSample.
