(* ===== verification/LiveEvidence.v ===== *)
(** Live evidence: [runtime/setup/evidence/usk_live_evidence.{h,cpp}], the snapshot of a
    target, the sealed packets of evidence, the operator's verdict on a packet, and the
    repository that keeps them. *)

From Stdlib Require Import Ascii String NArith ZArith Lia.
From stdpp Require Import base list strings gmap sets.
From S2P Require Import Prelude Effects Sha256 StdMap Json Path World RecordIo TextFacts SessionHost Session.

Module LiveEvidence.
Import Json Path Effects World RecordIo SortFacts.

(** ** Data *)

Record RepositoryRevision := mk_revision { repository_id : string; revision : string }.
Record ContractVersion := mk_contract { contract_id : string; schema_version : string }.
Record AutomatedFinding := mk_finding {
  finding_code : string;
  severity : string;
  classification : string;
  details_digest : string }.

Record LiveEvidenceInput := mk_input {
  packet_id : string;
  captured_at : string;
  source_revisions : list RepositoryRevision;
  setup_abi_major : N;
  setup_abi_minor : N;
  provider_revision : string;
  contract_versions : list ContractVersion;
  source_id : string;
  archive_digest : string;
  archive_size_bytes : N;
  source_filesystem_identity_digest : string;
  source_path_identity_digest : string;
  recipe_id : string;
  recipe_digest : string;
  product_id : string;
  product_version : string;
  target_class : string;
  target_identity_digest : string;
  target_path_identity_digest : string;
  persistent_effects : list string;
  filesystem_identity_digest : string;
  filesystem_kind : string;
  filesystem_local : bool;
  stable_ancestors : bool;
  no_mount_redirection : bool;
  no_replace_commit : bool;
  plan_id : string;
  plan_digest : string;
  operation : string;
  expected_file_count : N;
  expected_byte_count : N;
  closure_status : string;
  committed_file_count : N;
  committed_byte_count : N;
  committed_closure_digest : string;
  installed_state_digest : string;
  ownership_digest : string;
  audit_chain_id : string;
  audit_head_digest : string;
  pre_target_snapshot_digest : string;
  post_target_snapshot_digest : string;
  recovery_status : string;
  journal_digest : string;
  automated_findings : list AutomatedFinding }.

Record EvidencePacket := mk_packet {
  evidence_id : string;
  packet_digest : string;
  canonical_json : string }.

Record TargetSnapshot := mk_snapshot {
  snapshot_state : string;
  file_count : N;
  directory_count : N;
  byte_count : N;
  snapshot_digest : string }.

(** ** Validation *)

Definition lower_hex (value : string) (n : N) : bool :=
  (size value =? n) && forall_bytes (fun ch => is_digit ch || is_lower_hex_alpha ch) value.

Definition sha256 (value : string) : bool := lower_hex value 64.

Definition require_id (value field : string) : result unit :=
  throw_if (negb (valid_identifier value)) ("live evidence identifier is invalid: " +:+ field).

Definition require_sha (value field : string) (nullable : bool) : result unit :=
  throw_if ((negb nullable || negb (is_empty value)) && negb (sha256 value))
    ("live evidence digest is invalid: " +:+ field).

Definition nullable_string (value : string) : Json.value :=
  if is_empty value then null_value else string_value value.

(** Two neighbours with the same key. *)
Fixpoint neighbours {A} (key : A → string) (l : list A) : bool :=
  match l with
  | x :: (y :: _) as rest => String.eqb (key x) (key y) || neighbours key rest
  | _ => false
  end.

Definition sort_unique {A} (key : A → string) (field : string) (l : list A) : result (list A) :=
  let sorted := sort_by (fun left right => string_ltb (key left) (key right)) l in
  throw_if (neighbours key sorted) ("live evidence contains a duplicate: " +:+ field);;
  Ok sorted.

Definition in_set (x : string) (l : list string) : bool := existsb (String.eqb x) l.

Fixpoint each {A} (f : A → result unit) (l : list A) : result unit :=
  match l with [] => Ok tt | x :: l => f x;; each f l end.

Definition capacity_invalid (i : LiveEvidenceInput) : bool :=
  is_empty (captured_at i) || is_empty (product_version i) || (128 <? size (product_version i)) ||
  (setup_abi_major i =? 0) || (N.of_nat (length (source_revisions i)) =? 0) ||
  (32 <? N.of_nat (length (source_revisions i))) || (N.of_nat (length (contract_versions i)) =? 0) ||
  (64 <? N.of_nat (length (contract_versions i))) || (N.of_nat (length (persistent_effects i)) =? 0) ||
  (128 <? N.of_nat (length (persistent_effects i))) || (1024 <? N.of_nat (length (automated_findings i))).

Definition check_revision (r : RepositoryRevision) : result unit :=
  require_id (repository_id r) "repository_id";;
  throw_if (negb (lower_hex (revision r) 40)) "source revision is not an exact Git identity".

Definition check_contract (c : ContractVersion) : result unit :=
  require_id (contract_id c) "contract_id";;
  require_id (schema_version c) "schema_version".

Definition check_effect (effect : string) : result unit :=
  throw_if (is_empty effect || (4096 <? size effect)) "persistent effect is invalid".

Definition severities : list string := ["info"; "warning"; "error"].
Definition classifications : list string := ["observed"; "passed_check"; "failed_check"; "inconclusive_check"].

Definition check_finding (f : AutomatedFinding) : result unit :=
  require_id (finding_code f) "finding.code";;
  require_sha (details_digest f) "finding.details_digest" false;;
  throw_if (negb (in_set (severity f) severities)) "automated finding severity is invalid";;
  throw_if (negb (in_set (classification f) classifications)) "automated finding classification is invalid".

Definition operations : list string := ["install_local"; "verify"; "repair"; "move"; "uninstall"; "recovery"].
Definition closure_states : list string :=
  ["not_applicable"; "not_committed"; "committed"; "retired"; "removed"; "recovery_required"].
Definition recovery_states : list string := ["not_required"; "recovery_required"; "recovered"; "unproven"].

(** The digests that must be there, with their names. *)
Definition digests (i : LiveEvidenceInput) : list (string * string) :=
  [(archive_digest i, "archive_digest");
   (source_filesystem_identity_digest i, "source_filesystem_identity_digest");
   (source_path_identity_digest i, "source_path_identity_digest");
   (recipe_digest i, "recipe_digest");
   (target_identity_digest i, "target_identity_digest");
   (target_path_identity_digest i, "target_path_identity_digest");
   (filesystem_identity_digest i, "filesystem_identity_digest");
   (plan_digest i, "plan_digest");
   (committed_closure_digest i, "committed_closure_digest");
   (pre_target_snapshot_digest i, "pre_target_snapshot_digest");
   (post_target_snapshot_digest i, "post_target_snapshot_digest")].

(** The input with its vectors as the validation leaves them. *)
Definition with_lists (revisions : list RepositoryRevision) (contracts : list ContractVersion) (effects : list string)
    (findings : list AutomatedFinding) (i : LiveEvidenceInput) : LiveEvidenceInput :=
  mk_input (packet_id i) (captured_at i) revisions (setup_abi_major i) (setup_abi_minor i) (provider_revision i)
    contracts (source_id i) (archive_digest i) (archive_size_bytes i) (source_filesystem_identity_digest i)
    (source_path_identity_digest i) (recipe_id i) (recipe_digest i) (product_id i) (product_version i)
    (target_class i) (target_identity_digest i) (target_path_identity_digest i) effects (filesystem_identity_digest i)
    (filesystem_kind i) (filesystem_local i) (stable_ancestors i) (no_mount_redirection i) (no_replace_commit i)
    (plan_id i) (plan_digest i) (operation i) (expected_file_count i) (expected_byte_count i) (closure_status i)
    (committed_file_count i) (committed_byte_count i) (committed_closure_digest i) (installed_state_digest i)
    (ownership_digest i) (audit_chain_id i) (audit_head_digest i) (pre_target_snapshot_digest i)
    (post_target_snapshot_digest i) (recovery_status i) (journal_digest i) findings.

Definition require_ids (i : LiveEvidenceInput) : result unit :=
  require_id (packet_id i) "packet_id";;
  require_id (provider_revision i) "provider_revision";;
  require_id (source_id i) "source_id";;
  require_id (recipe_id i) "recipe_id";;
  require_id (product_id i) "product_id";;
  require_id (plan_id i) "plan_id".

Definition require_identities (i : LiveEvidenceInput) : result unit :=
  each (fun d => require_sha (fst d) (snd d) false) (digests i);;
  require_sha (installed_state_digest i) "installed_state_digest" true;;
  require_sha (ownership_digest i) "ownership_digest" true;;
  require_sha (audit_head_digest i) "audit_head_digest" true;;
  require_sha (journal_digest i) "journal_digest" true;;
  throw_if ((negb (is_empty (audit_chain_id i)) && negb (valid_identifier (audit_chain_id i))) ||
      (negb (String.eqb (target_class i) "operator_acceptance") && negb (String.eqb (target_class i) "managed_portable")) ||
      is_empty (filesystem_kind i) || (128 <? size (filesystem_kind i)))
    "live evidence target or filesystem identity is invalid";;
  throw_if (negb (in_set (operation i) operations) || negb (in_set (closure_status i) closure_states) ||
      negb (in_set (recovery_status i) recovery_states)) "live evidence operation state is invalid".

Definition validate_input (i : LiveEvidenceInput) : result LiveEvidenceInput :=
  require_ids i;;
  throw_if (capacity_invalid i) "live evidence required identity or capacity is invalid";;
  each check_revision (source_revisions i);;
  revisions ← sort_unique repository_id "repository_id" (source_revisions i);
  each check_contract (contract_versions i);;
  contracts ← sort_unique contract_id "contract_id" (contract_versions i);
  let effects := sort_by string_ltb (persistent_effects i) in
  throw_if (neighbours id effects) "persistent effects are duplicated";;
  each check_effect effects;;
  each check_finding (automated_findings i);;
  findings ← sort_unique finding_code "finding.code" (automated_findings i);
  require_identities i;;
  Ok (with_lists revisions contracts effects findings i).

(** ** The packet *)

Definition text (s : string) : Json.value := string_value s.

Definition revision_value (r : RepositoryRevision) : Json.value :=
  make_object [("repository_id", text (repository_id r)); ("revision", text (revision r))].

Definition contract_value (c : ContractVersion) : Json.value :=
  make_object [("contract_id", text (contract_id c)); ("schema_version", text (schema_version c))].

Definition finding_value (f : AutomatedFinding) : Json.value :=
  make_object [("classification", text (classification f)); ("code", text (finding_code f));
    ("details_digest", text (details_digest f)); ("severity", text (severity f))].

Definition packet_schema : string := "usk.live_target_evidence_packet.v1".

Definition pending_members (i : LiveEvidenceInput) : list (string * Json.value) :=
  [("archive", make_object [
     ("filesystem_identity_digest", text (source_filesystem_identity_digest i));
     ("path_identity_digest", text (source_path_identity_digest i)); ("sha256", text (archive_digest i));
     ("size_bytes", unsigned_integer (archive_size_bytes i)); ("source_id", text (source_id i))]);
   ("automated_findings", array (map finding_value (automated_findings i)));
   ("captured_at", text (captured_at i));
   ("committed_closure", make_object [("byte_count", unsigned_integer (committed_byte_count i));
     ("closure_digest", text (committed_closure_digest i)); ("file_count", unsigned_integer (committed_file_count i));
     ("status", text (closure_status i))]);
   ("contract_versions", array (map contract_value (contract_versions i)));
   ("filesystem", make_object [
     ("capabilities", make_object [("local", boolean (filesystem_local i));
        ("no_mount_redirection", boolean (no_mount_redirection i)); ("no_replace_commit", boolean (no_replace_commit i));
        ("stable_ancestors", boolean (stable_ancestors i))]);
     ("identity_digest", text (filesystem_identity_digest i)); ("kind", text (filesystem_kind i))]);
   ("operator_verdict", make_object [("recorded_at", null_value); ("recorded_by", null_value);
     ("statement_digest", null_value); ("status", text "pending"); ("verdict", null_value)]);
   ("packet_id", text (packet_id i));
   ("plan", make_object [("expected_byte_count", unsigned_integer (expected_byte_count i));
     ("expected_file_count", unsigned_integer (expected_file_count i)); ("operation", text (operation i));
     ("plan_digest", text (plan_digest i)); ("plan_id", text (plan_id i))]);
   ("recipe", make_object [("product_id", text (product_id i)); ("product_version", text (product_version i));
     ("recipe_digest", text (recipe_digest i)); ("recipe_id", text (recipe_id i))]);
   ("recovery", make_object [("journal_digest", nullable_string (journal_digest i)); ("status", text (recovery_status i))]);
   ("schema", text packet_schema);
   ("setup_abi", make_object [("major", unsigned_integer (setup_abi_major i));
     ("minor", unsigned_integer (setup_abi_minor i)); ("provider_revision", text (provider_revision i))]);
   ("snapshots", make_object [("post_target_digest", text (post_target_snapshot_digest i));
     ("pre_target_digest", text (pre_target_snapshot_digest i))]);
   ("source_revisions", array (map revision_value (source_revisions i)));
   ("state", make_object [("audit_chain_id", nullable_string (audit_chain_id i));
     ("audit_head_digest", nullable_string (audit_head_digest i));
     ("installed_state_digest", nullable_string (installed_state_digest i));
     ("ownership_digest", nullable_string (ownership_digest i))]);
   ("supersedes_packet_digest", null_value);
   ("target", make_object [("path_identity_digest", text (target_path_identity_digest i));
     ("persistent_effects", array (map text (persistent_effects i))); ("target_class", text (target_class i));
     ("target_identity_digest", text (target_identity_digest i))])].

Definition pending_payload (i : LiveEvidenceInput) : Json.value := make_object (pending_members i).

(** [as_object().erase(key)] and [as_object()[key] = v]. *)
Definition without (key : string) (v : Json.value) : result Json.value :=
  members ← as_object v; Ok (object (StdMap.erase key members)).

Definition set_member (key : string) (x : Json.value) (v : Json.value) : result Json.value :=
  members ← as_object v; Ok (object (fst (StdMap.emplace key x (StdMap.erase key members)))).

Definition finalize (payload : Json.value) : result EvidencePacket :=
  digest_payload ← without "packet_digest" payload;
  digest ← sha256_canonical digest_payload;
  payload ← set_member "packet_digest" (text digest) payload;
  id ← at_string payload "packet_id";
  Ok (mk_packet id digest (canonical payload)).

Definition validate_packet_identity (packet : EvidencePacket) : result unit :=
  require_id (evidence_id packet) "packet_id";;
  require_sha (packet_digest packet) "packet_digest" false;;
  document ← parse (canonical_json packet) default_limits;
  bad ← differs document "schema" packet_schema ||| differs document "packet_id" (evidence_id packet) |||
    differs document "packet_digest" (packet_digest packet) |||
    Ok (negb (String.eqb (canonical document) (canonical_json packet)));
  throw_if bad "live evidence packet identity or canonical form is invalid";;
  payload ← without "packet_digest" document;
  digest ← sha256_canonical payload;
  throw_if (negb (String.eqb digest (packet_digest packet)))
    "live evidence packet digest does not match its canonical payload".

Definition build_pending_packet (input : LiveEvidenceInput) : result EvidencePacket :=
  input ← validate_input input;
  finalize (pending_payload input).

(** ** The verdict *)

Definition verdicts : list string := ["Pass"; "Fail"; "Inconclusive"].

Definition verdict_value (recorded_at verdict recorded_by statement_digest : string) : Json.value :=
  make_object [("recorded_at", text recorded_at); ("recorded_by", text recorded_by);
    ("statement_digest", text statement_digest); ("status", text "recorded"); ("verdict", text verdict)].

Definition pending_verdict (current : Json.value) : result bool :=
  differs current "status" "pending" ||| (v ← at_ current "verdict"; Ok (negb (is_null v))).

Definition record_operator_verdict (pending : EvidencePacket) (new_packet_id recorded_at verdict recorded_by
    statement_digest : string) : result EvidencePacket :=
  validate_packet_identity pending;;
  require_id new_packet_id "new_packet_id";;
  require_id recorded_by "recorded_by";;
  require_sha statement_digest "statement_digest" false;;
  throw_if (is_empty recorded_at || negb (in_set verdict verdicts))
    "operator verdict must be explicitly recorded as Pass, Fail, or Inconclusive";;
  document ← parse (canonical_json pending) default_limits;
  current ← at_ document "operator_verdict";
  decided ← pending_verdict current;
  throw_if decided "operator verdict can only derive from a pending evidence packet";;
  document ← without "packet_digest" document;
  document ← set_member "packet_id" (text new_packet_id) document;
  document ← set_member "captured_at" (text recorded_at) document;
  document ← set_member "supersedes_packet_digest" (text (packet_digest pending)) document;
  document ← set_member "operator_verdict" (verdict_value recorded_at verdict recorded_by statement_digest) document;
  finalize document.

(** ** The snapshot of a target *)

(** An ancestor that is not a directory: the name cannot be looked up.  What lies below
    a link that leads somewhere is not part of the model and is counted here. *)
Definition blocked (d : fs) (n : name) : bool :=
  existsb (fun k => match lookup_inode d (take k n) with
    | Some (_, x) => match node x with directory | symlink to_nothing => false | _ => true end
    | None => false end) (seq 1 (length n - 1)).

(** [fs::symlink_status(p, error)]: nothing when the call fails for another reason than
    that there is nothing. *)
Definition symlink_status (p : path) : io (option (option kind)) :=
  observe (fun d => if blocked d (names p) then None
    else Some (option_map (fun x => node (snd x)) (lookup_inode d (names p)))).

(** [fs::relative(p, base, error)] resolves both paths on the host; across a link the
    result is left open by the model of links, and is taken as an error. *)
Definition relative (p base : path) : io (option path) :=
  observe (fun d => if StableFile.through_link d (names p) || StableFile.through_link d (names base) then None
    else Some (lexically_relative p base)).

Definition directory_entry_value (relative : string) : Json.value :=
  make_object [("relative_path", text relative); ("type", text "directory")].

Definition file_entry_value (relative digest : string) (bytes : N) : Json.value :=
  make_object [("relative_path", text relative); ("sha256", text digest);
    ("size_bytes", unsigned_integer bytes); ("type", text "file")].

(** The counts and the entries so far. *)
Record Progress := mk_progress { files : N; directories : N; bytes : N; collected : list Json.value }.

Definition snapshot_entry (root : path) (max_entries max_bytes : N) (p : Progress) (entry : path * kind) : io Progress :=
  if max_entries <=? files p + directories p then fail "target snapshot entry budget exceeded"
  else
    st ← symlink_status (fst entry);
    match st with
    | None | Some None | Some (Some (symlink _)) => fail "target snapshot encountered a redirected entry"
    | Some (Some k) =>
      r ← relative (fst entry) root;
      let name := generic_string (default EmptyString r) in
      if negb (bool_decide (is_Some r)) || is_empty name || String.eqb name "." || String.prefix ".." name
      then fail "target snapshot relative path is invalid"
      else
        match k with
        | directory => ret (mk_progress (files p) (directories p + 1) (bytes p) (collected p ++ [directory_entry_value name]))
        | regular _ =>
          file ← StableFile.open_stable (fst entry);
          let count := StableFile.size_bytes (StableFile.identity_ file) in
          if max_bytes - bytes p <? count then fail "target snapshot byte budget exceeded"
          else
            digest ← StableFile.sha256_hex file;
            StableFile.verify_unchanged file;;
            ret (mk_progress (files p + 1) (directories p) (bytes p + count)
              (collected p ++ [file_entry_value name digest count]))
        | _ => fail "target snapshot encountered an unsupported entry type"
        end
    end.

Definition entry_key (v : Json.value) : string :=
  match at_string v "relative_path" with Ok s => s | Throw _ => EmptyString end.

Definition entry_less (left right : Json.value) : bool := string_ltb (entry_key left) (entry_key right).

Definition snapshot_value (state : string) (entries : list Json.value) : Json.value :=
  make_object [("entries", array entries); ("state", text state)].

(** The iterator lists the tree lazily; here the tree is listed in one step, before its
    entries are inspected. *)
Definition snapshot_target (target_root : path) (max_entries max_bytes : N) : io TargetSnapshot :=
  if is_empty target_root || (max_entries =? 0) || (max_bytes =? 0)
  then fail "target snapshot requires an explicit path and positive budgets"
  else
    p ← StableFile.absolute target_root;
    let absolute := lexically_normal p in
    st ← symlink_status absolute;
    match st with
    | None => fail "target snapshot cannot inspect the selected root"
    | Some None =>
      digest ← lift (sha256_canonical (snapshot_value "nonexistent" []));
      ret (mk_snapshot "nonexistent" 0 0 0 digest)
    | Some (Some directory) =>
      require_safe_directory absolute;;
      listing ← Session.list_tree absolute;
      p ← fold_eff (snapshot_entry absolute max_entries max_bytes) (mk_progress 0 0 0 []) listing;
      digest ← lift (sha256_canonical (snapshot_value "directory" (sort_by entry_less (collected p))));
      ret (mk_snapshot "directory" (files p) (directories p) (bytes p) digest)
    | Some (Some _) => fail "target snapshot root is redirected or not a directory"
    end.

(** ** The repository *)

Definition evidence_repository (evidence_root : path) : io path :=
  p ← StableFile.absolute evidence_root;
  let root := lexically_normal p in
  when (is_empty root) (fail "filesystem error: cannot make absolute path");;
  require_safe_directory root;;
  require_safe_directory (root /+ "packets");;
  ret root.

Definition initialize_layout (evidence_root : path) : io unit :=
  require_safe_directory evidence_root;;
  create_directory_exclusive evidence_root "packets".

Definition newline : string := String (ascii_of_N 10) EmptyString.
Definition crlf : string := String (ascii_of_N 13) (String (ascii_of_N 10) EmptyString).

Definition packet_path (root : path) (id : string) : path := root /+ "packets" /+ (id +:+ ".json").

Definition write_new (root : path) (packet : EvidencePacket) : io unit :=
  lift (validate_packet_identity packet);;
  write_new_durable_text (packet_path root (evidence_id packet)) (canonical_json packet +:+ newline).

(** What a reader makes of the text of a record. *)
Definition decode_packet (id content : string) : result EvidencePacket :=
  document ← parse content default_limits;
  throw_if (negb (String.eqb (canonical document +:+ newline) content) &&
      negb (String.eqb (canonical document +:+ crlf) content)) "stored live evidence packet is not canonical";;
  digest ← at_string document "packet_digest";
  let packet := mk_packet id digest (canonical document) in
  validate_packet_identity packet;;
  Ok packet.

Definition read_and_validate (root : path) (id : string) : io EvidencePacket :=
  lift (require_id id "packet_id");;
  content ← read_stable_text (packet_path root id) (4 * 1024 * 1024);
  lift (decode_packet id content).

End LiveEvidence.
