(* ===== verification/LiveEvidenceFacts.v ===== *)
(** The packets of live evidence: which ones are accepted, what a verdict does, what a
    digest determines, and the repository. *)

From Stdlib Require Import Ascii String NArith ZArith Lia Sorted.
From stdpp Require Import base list strings gmap sets.
From S2P Require Import Prelude Effects Sha256 StdMap Json JsonFacts JsonParse JsonProps Path PathFacts World.
From S2P Require Import RecordIo RecordFacts TextFacts AuditFacts LiveEvidence.

Module LiveEvidenceFacts.
Import Json JsonFacts JsonParse JsonProps Path PathFacts Effects World RecordIo RecordFacts SortFacts LiveEvidence.

(** ** Sealed documents *)

(** What the parser admits of a value. *)
Definition admitted (v : value) : bool :=
  (size (canonical v) <=? max_bytes default_limits) && fits default_limits 0 v && (count v <=? max_values default_limits).

Definition payload_digest (m : list (string * value)) : string := Sha256.sha256 (canonical (object m)).

(** The members with their digest, and the packet that carries them. *)
Definition sealed (m : list (string * value)) : value :=
  object (fst (StdMap.emplace "packet_digest" (text (payload_digest m)) m)).

Definition packet_for (id : string) (m : list (string * value)) : EvidencePacket :=
  mk_packet id (payload_digest m) (canonical (sealed m)).

(** The members of a packet: everything but the digest. *)
Record evidence (id : string) (m : list (string * value)) : Prop := {
  evidence_wf : wf (object m);
  evidence_unsealed : StdMap.find "packet_digest" m = None;
  evidence_schema : StdMap.find "schema" m = Some (string_value "usk.live_target_evidence_packet.v1");
  evidence_named : StdMap.find "packet_id" m = Some (string_value id) }.

Lemma evidence_sorted id m : evidence id m → StdMap.sorted m.
Proof. intros [H _ _ _]. by apply wf_object in H as [? _]. Qed.

Lemma wf_emplace k v m : wf (object m) → wf v → wf (object (fst (StdMap.emplace k v m))).
Proof.
  rewrite !wf_object. intros [Hs Hf] Hv. split; [by apply StdMap.emplace_sorted|].
  clear Hs. induction m as [|[k' v'] m IH]; cbn [StdMap.emplace]; [by repeat constructor|].
  inversion Hf as [|? ? Hv' Hf']; subst. destruct (String.compare k k'); cbn [fst]; [by constructor|by repeat constructor|].
  specialize (IH Hf'). destruct (StdMap.emplace k v m) as [m' b]. by constructor.
Qed.

Lemma wf_erase k m : wf (object m) → wf (object (StdMap.erase k m)).
Proof.
  rewrite !wf_object. intros [Hs Hf]. split; [by apply StdMap.erase_sorted|].
  unfold StdMap.erase. induction Hf as [|p m Hp Hf IH]; cbn [List.filter]; [constructor|].
  destruct (negb _); [constructor; [done|]|]; apply IH; by apply Sorted.StronglySorted_inv in Hs as [? _].
Qed.

Lemma erase_absent {A} k (m : list (string * A)) : StdMap.find k m = None → StdMap.erase k m = m.
Proof.
  unfold StdMap.erase. induction m as [|[k' v] m IH]; cbn [StdMap.find List.filter fst]; [done|].
  destruct (String.eqb k k'); [done|]. intros H. cbn [negb]. by rewrite IH.
Qed.

(** Adding a member that was not there, and taking it away again. *)
Lemma erase_emplace {A} k (v : A) m : StdMap.sorted m → StdMap.find k m = None →
  StdMap.erase k (fst (StdMap.emplace k v m)) = m.
Proof.
  intros Hs Hn. apply StdMap.sorted_ext; [by apply StdMap.erase_sorted, StdMap.emplace_sorted|done|].
  intros k'. destruct (decide (k = k')) as [<-|Hne]; [by rewrite StdMap.find_erase_same|].
  rewrite StdMap.find_erase_other by done. by rewrite StdMap.find_emplace_other.
Qed.

(** The other way round. *)
Lemma emplace_erase {A} k (v : A) m : StdMap.sorted m → StdMap.find k m = Some v →
  fst (StdMap.emplace k v (StdMap.erase k m)) = m.
Proof.
  intros Hs Hv. assert (StdMap.sorted (StdMap.erase k m)) as He by by apply StdMap.erase_sorted.
  apply StdMap.sorted_ext; [by apply StdMap.emplace_sorted|done|].
  intros k'. destruct (decide (k = k')) as [<-|Hne].
  - rewrite StdMap.find_emplace_same; [done|done|apply StdMap.find_erase_same].
  - rewrite StdMap.find_emplace_other by done. by rewrite StdMap.find_erase_other.
Qed.

Lemma find_sealed id m k : evidence id m → k ≠ "packet_digest" →
  StdMap.find k (fst (StdMap.emplace "packet_digest" (text (payload_digest m)) m)) = StdMap.find k m.
Proof. intros He Hk. apply StdMap.find_emplace_other; [by eapply evidence_sorted|done]. Qed.

Lemma digest_is_sha s : sha256 (Sha256.sha256 s) = true.
Proof. apply Sha256.sha256_shape. Qed.

(** [finalize] seals what it is given. *)
Lemma finalize_evidence id m : evidence id m → finalize (object m) = Ok (packet_for id m).
Proof.
  intros He. pose proof (evidence_sorted _ _ He) as Hs. pose proof (evidence_unsealed _ _ He) as Hn.
  unfold finalize, without, set_member. cbn [as_object mbind result_bind].
  rewrite (erase_absent _ _ Hn), sha256_canonical_eq. cbn [mbind result_bind]. fold (payload_digest m).
  unfold at_string, at_. cbn [as_object mbind result_bind].
  rewrite (find_sealed id) by done. rewrite (evidence_named _ _ He). reflexivity.
Qed.

Lemma differs_member m k x expected : StdMap.find k m = Some (string_value x) →
  differs (object m) k expected = Ok (negb (String.eqb x expected)).
Proof. intros H. unfold differs, at_string, at_. cbn [as_object mbind result_bind]. by rewrite H. Qed.

Lemma agrees_member v k expected : differs v k expected = Ok false →
  ∃ m, v = object m ∧ StdMap.find k m = Some (string_value expected).
Proof.
  unfold differs, at_string, at_. destruct v as [| | | | |m]; try discriminate. cbn [as_object mbind result_bind].
  destruct (StdMap.find k m) as [x|] eqn:E; [|discriminate]. destruct x as [| | |s| |]; try discriminate.
  cbn [as_string mbind result_bind]. intros H%ok_inj%negb_false_iff%String.eqb_eq. subst. eauto.
Qed.

Lemma parse_sealed v : wf v → admitted v = true → parse (canonical v) default_limits = Ok v.
Proof.
  intros Hw Ha. pose proof (parse_canonical_outcome default_limits v Hw) as H. unfold admitted in Ha.
  rewrite <- andb_assoc in Ha. by rewrite Ha in H.
Qed.

Lemma require_id_ok s f : require_id s f = Ok tt ↔ valid_identifier s = true.
Proof. unfold require_id. rewrite throw_if_ok. by destruct (valid_identifier s). Qed.

Lemma require_sha_ok s f : require_sha s f false = Ok tt ↔ sha256 s = true.
Proof. unfold require_sha. rewrite throw_if_ok. cbn [negb orb andb]. by destruct (sha256 s). Qed.

Lemma wf_sealed id m : evidence id m → wf (sealed m).
Proof. intros [Hw _ _ _]. by apply wf_emplace. Qed.

(** The packets that are accepted. *)
Lemma packet_accepted p : validate_packet_identity p = Ok tt ↔
  valid_identifier (evidence_id p) = true ∧
  ∃ m, evidence (evidence_id p) m ∧ p = packet_for (evidence_id p) m ∧ admitted (sealed m) = true.
Proof.
  unfold validate_packet_identity. split.
  - intros H. apply bind_unit in H as [Hid%require_id_ok H]. apply bind_unit in H as [_ H].
    apply bind_ok in H as (v & Hv & H). apply bind_ok in H as (bad & Hb & H).
    apply bind_unit in H as [->%throw_if_ok H]. rewrite !or_else_false in Hb. destruct Hb as [[[H1 H2] H3] H4].
    apply agrees_member in H1 as (m & -> & H1). apply agrees_member in H2 as (? & [= <-] & H2).
    apply agrees_member in H3 as (? & [= <-] & H3). apply ok_inj, negb_false_iff, String.eqb_eq in H4.
    apply parse_accepted in Hv as (Hw & Hf & Hc & Hsize & Hmax).
    pose proof Hw as [Hs _]%wf_object.
    unfold without in H. cbn [as_object mbind result_bind] in H. rewrite sha256_canonical_eq in H.
    cbn [mbind result_bind] in H. apply throw_if_ok, negb_false_iff, String.eqb_eq in H.
    split; [done|]. set (m' := StdMap.erase "packet_digest" m) in *.
    assert (sealed m' = object m) as Hm.
    { unfold sealed, payload_digest. rewrite H. f_equal. by apply emplace_erase. }
    exists m'. split; [|split].
    + unfold m'. split; [by apply wf_erase|apply StdMap.find_erase_same|by rewrite StdMap.find_erase_other..].
    + unfold packet_for. rewrite Hm, H4. unfold payload_digest. rewrite H. by destruct p.
    + rewrite Hm. unfold admitted. rewrite Hf, (proj2 (N.leb_le _ _) Hc), (proj2 (N.leb_le _ _)); [done|lia].
  - intros (Hid & m & He & Hp & Ha). rewrite (proj2 (require_id_ok _ _) Hid). cbn [mbind result_bind].
    rewrite Hp. cbn [packet_for packet_digest evidence_id canonical_json].
    rewrite (proj2 (require_sha_ok _ _)) by apply digest_is_sha. cbn [mbind result_bind].
    rewrite parse_sealed by (done || by eapply wf_sealed). cbn [mbind result_bind]. unfold sealed.
    rewrite (differs_member _ _ packet_schema), (differs_member _ _ (evidence_id p)), (differs_member _ _ (payload_digest m)).
    + rewrite !String.eqb_refl. cbn [negb or_else mbind result_bind].
      unfold without. cbn [as_object mbind result_bind].
      rewrite erase_emplace by (by eapply evidence_sorted || apply He). rewrite sha256_canonical_eq. cbn [mbind result_bind].
      fold (payload_digest m). by rewrite String.eqb_refl.
    + apply StdMap.find_emplace_same; [by eapply evidence_sorted|apply He].
    + rewrite (find_sealed (evidence_id p)) by done. apply He.
    + rewrite (find_sealed (evidence_id p)) by done. apply He.
Qed.

(** A packet determines its members. *)
Lemma sealed_injective id id' m m' : evidence id m → evidence id' m' → canonical (sealed m) = canonical (sealed m') → m = m'.
Proof.
  intros He He' H%canonical_injective. injection H as H.
  rewrite <- (erase_emplace "packet_digest" (text (payload_digest m)) m), H;
    [|by eapply evidence_sorted|apply He]. apply erase_emplace; [by eapply evidence_sorted|apply He'].
Qed.

(** A digest binds its packet: two accepted packets with the same digest are the
    same packet, identifier and text included, unless two texts have the same SHA-256. *)
Theorem evidence_binding p q : validate_packet_identity p = Ok tt → validate_packet_identity q = Ok tt →
  packet_digest p = packet_digest q → p = q ∨ AuditFacts.sha256_collision.
Proof.
  intros (_ & m & Hm & Hp & _)%packet_accepted (_ & m' & Hm' & Hq & _)%packet_accepted H.
  rewrite Hp, Hq in H. cbn [packet_for packet_digest] in H. unfold payload_digest in H.
  destruct (decide (canonical (object m) = canonical (object m'))) as [E|E].
  - left. apply canonical_injective in E. injection E as <-.
    rewrite Hp, Hq. f_equal. pose proof (evidence_named _ _ Hm) as E1. rewrite (evidence_named _ _ Hm') in E1. by injection E1.
  - right. exists (canonical (object m)), (canonical (object m')). done.
Qed.

(** ** The verdict *)

Definition replaced (k : string) (v : value) (m : list (string * value)) : list (string * value) :=
  fst (StdMap.emplace k v (StdMap.erase k m)).

Lemma replaced_wf k v m : wf (object m) → wf v → wf (object (replaced k v m)).
Proof. intros. by apply wf_emplace; [apply wf_erase|]. Qed.

Lemma find_replaced_same k v m : wf (object m) → StdMap.find k (replaced k v m) = Some v.
Proof.
  intros [Hs _]%wf_object. apply StdMap.find_emplace_same; [by apply StdMap.erase_sorted|apply StdMap.find_erase_same].
Qed.

Lemma find_replaced_other k k' v m : wf (object m) → k ≠ k' → StdMap.find k' (replaced k v m) = StdMap.find k' m.
Proof.
  intros [Hs _]%wf_object Hk. unfold replaced. rewrite StdMap.find_emplace_other by (done || by apply StdMap.erase_sorted).
  by apply StdMap.find_erase_other.
Qed.

(** Text of [n] lowercase hexadecimal digits. *)
Definition hex_text (n : N) (s : string) : Prop := size s = n ∧ forall_bytes Sha256.is_lower_hex s = true.

Lemma lower_hex_ok s n : lower_hex s n = true ↔ hex_text n s.
Proof. unfold lower_hex. by rewrite andb_true_iff, N.eqb_eq. Qed.

Lemma sha256_ok s : sha256 s = true ↔ hex_text 64 s.
Proof. apply lower_hex_ok. Qed.

(** The verdict as a packet records it: when, by whom, on which statement, and what. *)
Definition recorded_verdict (recorded_at verdict recorded_by statement : string) : value :=
  object [("recorded_at", string_value recorded_at); ("recorded_by", string_value recorded_by);
    ("statement_digest", string_value statement); ("status", string_value "recorded"); ("verdict", string_value verdict)].

(** The members of the packet that records a verdict on [m]. *)
Definition judged (digest id recorded_at verdict recorded_by statement : string) (m : list (string * value))
    : list (string * value) :=
  replaced "operator_verdict" (recorded_verdict recorded_at verdict recorded_by statement)
    (replaced "supersedes_packet_digest" (string_value digest)
      (replaced "captured_at" (string_value recorded_at) (replaced "packet_id" (string_value id) m))).

(** No verdict was recorded yet. *)
Definition undecided (m : list (string * value)) : Prop :=
  ∃ o, StdMap.find "operator_verdict" m = Some (object o) ∧
    StdMap.find "status" o = Some (string_value "pending") ∧ StdMap.find "verdict" o = Some null_value.

(** What an operator may answer. *)
Definition answer_valid (id recorded_at verdict recorded_by statement : string) : Prop :=
  valid_identifier id = true ∧ valid_identifier recorded_by = true ∧ hex_text 64 statement ∧
  recorded_at ≠ EmptyString ∧ (verdict = "Pass" ∨ verdict = "Fail" ∨ verdict = "Inconclusive").

Lemma judged_find digest id moment verdict by_ statement m k : wf (object m) →
  StdMap.find k (judged digest id moment verdict by_ statement m) =
  if String.eqb k "operator_verdict" then Some (recorded_verdict moment verdict by_ statement)
  else if String.eqb k "supersedes_packet_digest" then Some (text digest)
  else if String.eqb k "captured_at" then Some (text moment)
  else if String.eqb k "packet_id" then Some (text id)
  else StdMap.find k m.
Proof.
  intros Hw. unfold judged.
  assert (wf (object (replaced "packet_id" (text id) m))) as W1 by by apply replaced_wf.
  assert (wf (object (replaced "captured_at" (text moment) (replaced "packet_id" (text id) m)))) as W2 by by apply replaced_wf.
  assert (wf (object (replaced "supersedes_packet_digest" (text digest)
    (replaced "captured_at" (text moment) (replaced "packet_id" (text id) m))))) as W3 by by apply replaced_wf.
  repeat (match goal with |- context [String.eqb k ?x] => destruct (String.eqb_spec k x) as [->|?] end;
    [by rewrite ?find_replaced_other, find_replaced_same by done|]).
  by rewrite !find_replaced_other by done.
Qed.

Lemma verdict_wf moment verdict by_ statement : wf (recorded_verdict moment verdict by_ statement).
Proof. split; [by_sorted|done]. Qed.

Lemma judged_evidence digest id moment verdict by_ statement id0 m : evidence id0 m →
  evidence id (judged digest id moment verdict by_ statement m).
Proof.
  intros [H1 H2 H3 H4]. split; [|by rewrite judged_find..].
  unfold judged. repeat (apply replaced_wf; [|done || apply verdict_wf]). done.
Qed.

Lemma pending_verdict_false v : pending_verdict v = Ok false ↔
  ∃ o, v = object o ∧ StdMap.find "status" o = Some (text "pending") ∧ StdMap.find "verdict" o = Some null_value.
Proof.
  unfold pending_verdict. rewrite or_else_false. split.
  - intros [(o & -> & H1)%agrees_member H2]. exists o. split; [done|]. split; [done|].
    unfold at_ in H2. cbn [as_object mbind result_bind] in H2. destruct (StdMap.find "verdict" o) as [x|]; [|done].
    apply ok_inj, negb_false_iff in H2. by destruct x.
  - intros (o & -> & H1 & H2). split.
    + rewrite (differs_member _ _ _ _ H1). by rewrite String.eqb_refl.
    + unfold at_. cbn [as_object mbind result_bind]. by rewrite H2.
Qed.

Lemma verdicts_ok recorded_at verdict : is_empty recorded_at || negb (in_set verdict verdicts) = false ↔
  recorded_at ≠ EmptyString ∧ (verdict = "Pass" ∨ verdict = "Fail" ∨ verdict = "Inconclusive").
Proof.
  rewrite orb_false_iff, negb_false_iff. unfold in_set, verdicts. cbn [existsb].
  rewrite !orb_true_iff, !String.eqb_eq. destruct recorded_at; naive_solver.
Qed.

Lemma at_sealed id m k v : evidence id m → k ≠ "packet_digest" → at_ (sealed m) k = Ok v ↔ StdMap.find k m = Some v.
Proof.
  intros He Hk. unfold at_, sealed. cbn [as_object mbind result_bind]. rewrite (find_sealed id) by done.
  destruct (StdMap.find k m) as [x|]; split; intros H; try discriminate; [by apply ok_inj in H as ->|by injection H as ->].
Qed.

Lemma unseal id m : evidence id m → without "packet_digest" (sealed m) = Ok (object m).
Proof.
  intros He. unfold without, sealed. cbn [as_object mbind result_bind].
  by rewrite erase_emplace by (by eapply evidence_sorted || apply He).
Qed.

Lemma set_member_replaced k x m : set_member k x (object m) = Ok (object (replaced k x m)).
Proof. reflexivity. Qed.

(** What recording a verdict makes of a sealed packet. *)
Lemma verdict_recorded pending id moment verdict by_ statement p :
  record_operator_verdict pending id moment verdict by_ statement = Ok p ↔
  answer_valid id moment verdict by_ statement ∧ valid_identifier (evidence_id pending) = true ∧
  ∃ m, evidence (evidence_id pending) m ∧ pending = packet_for (evidence_id pending) m ∧ admitted (sealed m) = true ∧
    undecided m ∧ p = packet_for id (judged (packet_digest pending) id moment verdict by_ statement m).
Proof.
  unfold record_operator_verdict. split.
  - intros H. apply bind_unit in H as [(Hv & m & He & Hp & Ha)%packet_accepted H].
    apply bind_unit in H as [H1%require_id_ok H]. apply bind_unit in H as [H2%require_id_ok H].
    apply bind_unit in H as [H3%require_sha_ok%sha256_ok H]. apply bind_unit in H as [H4%throw_if_ok%verdicts_ok H].
    split; [unfold answer_valid; naive_solver|]. split; [done|]. exists m. do 3 (split; [done|]).
    rewrite Hp in H at 1. cbn [packet_for canonical_json] in H.
    rewrite parse_sealed in H by (done || by eapply wf_sealed). cbn [mbind result_bind] in H.
    apply bind_ok in H as (v & Hv'%(at_sealed (evidence_id pending)) & H); [|done..].
    apply bind_ok in H as (decided & Hd & H). apply bind_unit in H as [->%throw_if_ok H].
    apply pending_verdict_false in Hd as (o & -> & Ho1 & Ho2). split; [by exists o|].
    rewrite (unseal (evidence_id pending)) in H by done. cbn [mbind result_bind] in H.
    do 4 (rewrite set_member_replaced in H; cbn [mbind result_bind] in H).
    change (finalize (object (judged (packet_digest pending) id moment verdict by_ statement m)) = Ok p) in H.
    rewrite (finalize_evidence id) in H by (by eapply judged_evidence). by apply ok_inj in H.
  - intros ((H1 & H2 & H3 & H4) & Hv & m & He & Hp & Ha & (o & Ho & Ho1 & Ho2) & ->).
    assert (validate_packet_identity pending = Ok tt) as -> by (apply packet_accepted; eauto 6).
    cbn [mbind result_bind]. rewrite (proj2 (require_id_ok _ _) H1), (proj2 (require_id_ok _ _) H2), (proj2 (require_sha_ok _ _) (proj2 (sha256_ok _) H3)).
    cbn [mbind result_bind]. rewrite (proj2 (throw_if_ok _ _ tt)) by by apply verdicts_ok. cbn [mbind result_bind].
    rewrite Hp at 1. cbn [packet_for canonical_json].
    rewrite parse_sealed by (done || by eapply wf_sealed). cbn [mbind result_bind].
    assert (at_ (sealed m) "operator_verdict" = Ok (object o)) as -> by by apply (at_sealed (evidence_id pending)).
    cbn [mbind result_bind].
    rewrite (proj2 (pending_verdict_false _)) by eauto. cbn [mbind result_bind throw_if].
    rewrite (unseal (evidence_id pending)) by done. cbn [mbind result_bind].
    do 4 (rewrite set_member_replaced; cbn [mbind result_bind]).
    apply (finalize_evidence id (judged (packet_digest pending) id moment verdict by_ statement m)). by eapply judged_evidence.
Qed.

Lemma judged_decided digest id moment verdict by_ statement m : wf (object m) →
  ¬ undecided (judged digest id moment verdict by_ statement m).
Proof.
  intros Hw (o & Ho & Hs & _). rewrite judged_find in Ho by done. cbn [String.eqb Ascii.eqb Bool.eqb] in Ho.
  injection Ho as <-. vm_compute in Hs. discriminate.
Qed.

Lemma verdict_once pending id moment verdict by_ statement p id' moment' verdict' by' statement' q :
  record_operator_verdict pending id moment verdict by_ statement = Ok p →
  record_operator_verdict p id' moment' verdict' by' statement' ≠ Ok q.
Proof.
  intros (_ & _ & m & He & _ & _ & _ & Hp)%verdict_recorded (_ & _ & m' & He' & Hp' & _ & Hu & _)%verdict_recorded.
  rewrite Hp in Hp'. cbn [packet_for evidence_id] in Hp'. apply (f_equal canonical_json) in Hp'.
  cbn [packet_for canonical_json] in Hp'. rewrite Hp in He'. cbn [packet_for evidence_id] in He'.
  apply (sealed_injective id id) in Hp'; [|by eapply judged_evidence|done]. subst m'.
  eapply judged_decided; [|exact Hu]. apply He.
Qed.

(** C27 A verdict is recorded on exactly the accepted packets that have none, for exactly
    the answers Pass, Fail and Inconclusive of a named operator on a statement with a
    SHA-256; the packet it yields is the old one with a new identifier and time, the
    digest of the packet it supersedes, and that time, operator, statement and verdict as
    its verdict, and it takes no second one. *)
Theorem operator_verdict_exact pending id moment verdict by_ statement :
  (∀ p, record_operator_verdict pending id moment verdict by_ statement = Ok p ↔
    answer_valid id moment verdict by_ statement ∧ validate_packet_identity pending = Ok tt ∧
    ∃ m, evidence (evidence_id pending) m ∧ canonical_json pending = canonical (sealed m) ∧ undecided m ∧
      p = packet_for id (judged (packet_digest pending) id moment verdict by_ statement m)) ∧
  (∀ p id' moment' verdict' by' statement' q,
    record_operator_verdict pending id moment verdict by_ statement = Ok p →
    record_operator_verdict p id' moment' verdict' by' statement' ≠ Ok q).
Proof.
  split; [|apply verdict_once]. intros p. rewrite verdict_recorded, packet_accepted. split.
  - intros (Ha & Hv & m & He & Hp & Hs & Hu & ->). split; [done|]. split; [eauto 6|].
    exists m. split_and!; [done| |done..]. by rewrite Hp.
  - intros (Ha & (Hv & m & He & Hp & Hs) & m' & He' & Hc & Hu & ->). split_and!; [done..|].
    assert (m' = m) as ->; [|eauto 8]. eapply sealed_injective; [done..|]. rewrite <- Hc. by rewrite Hp.
Qed.

End LiveEvidenceFacts.
