(* ===== verification/LiveEvidencePacket.v ===== *)
(** The packets of live evidence that are built: which inputs are taken, which packet
    they make, and that the order of the lists of an input does not matter. *)

From Stdlib Require Import Ascii String NArith ZArith Lia Sorted.
From stdpp Require Import base list strings gmap sets.
From S2P Require Import Prelude Effects Sha256 StdMap Json JsonFacts JsonParse JsonProps Path PathFacts World.
From S2P Require Import RecordIo RecordFacts TextFacts StateHost LiveEvidence LiveEvidenceFacts.

Module LiveEvidencePacket.
Import Json JsonFacts JsonParse JsonProps Path PathFacts Effects World RecordIo RecordFacts SortFacts LiveEvidence LiveEvidenceFacts.

(** ** Lists *)

Lemma each_ok {A} (f : A → result unit) l : each f l = Ok tt ↔ Forall (fun x => f x = Ok tt) l.
Proof.
  induction l as [|x l IH]; cbn [each]; [by split|]. rewrite bind_unit, IH. by rewrite Forall_cons.
Qed.

Lemma in_set_elem x l : in_set x l = true ↔ x ∈ l.
Proof.
  unfold in_set. rewrite existsb_exists. split.
  - intros (y & Hy%list_elem_of_In & ->%String.eqb_eq). done.
  - intros H. exists x. split; [by apply list_elem_of_In|apply String.eqb_refl].
Qed.

(** In a sorted list equal keys are neighbours. *)
Lemma neighbours_false {A} (key : A → string) l : StronglySorted (not_after (key_less key)) l →
  neighbours key l = false ↔ NoDup (key <$> l).
Proof.
  induction 1 as [|x l Hl IH Hx]; [by split; [constructor|]|].
  destruct l as [|y l]; [split; [intros _; apply NoDup_singleton|done]|].
  change (neighbours key (x :: y :: l)) with (String.eqb (key x) (key y) || neighbours key (y :: l)).
  rewrite orb_false_iff, IH. change (key <$> x :: y :: l) with (key x :: (key <$> y :: l)). rewrite NoDup_cons.
  split; [|intros [H1 H2]; split; [|done]].
  - intros [H1%String.eqb_neq H2]. split; [|done]. intros (z & Hz & Hin)%list_elem_of_fmap.
    apply H1. apply elem_of_cons in Hin as [->|Hin]; [done|].
    assert (not_after (key_less key) y z) as Hyz.
    { apply StronglySorted_inv in Hl as [_ Hl]. rewrite Forall_forall in Hl. by apply Hl. }
    apply Forall_cons in Hx as [Hxy _]. unfold not_after, key_less in *. rewrite <- Hz in Hyz.
    by apply string_ltb_total.
  - apply String.eqb_neq. intros E. apply H1. rewrite E. left.
Qed.

Lemma sorted_by_key {A} (key : A → string) l : StronglySorted (not_after (key_less key)) (sort_by (key_less key) l).
Proof. apply sort_by_sorted; [intros ? ?; apply ltb_asym|intros ? ? ?; apply ltb_trans_le]. Qed.

Lemma sorted_unique {A} (key : A → string) l : neighbours key (sort_by (key_less key) l) = false ↔ NoDup (key <$> l).
Proof. rewrite neighbours_false by apply sorted_by_key. by rewrite (fmap_Permutation key _ l (sort_by_perm _ l)). Qed.

Lemma sort_unique_ok {A} (key : A → string) field l l' : sort_unique key field l = Ok l' ↔
  NoDup (key <$> l) ∧ l' = sort_by (key_less key) l.
Proof.
  unfold sort_unique. fold (key_less key). rewrite bind_unit, throw_if_ok, sorted_unique. split.
  - intros [H1 H2%ok_inj]. done.
  - intros [H1 ->]. done.
Qed.

(** ** The inputs that are taken *)

Definition revision_ok (r : RepositoryRevision) : Prop :=
  valid_identifier (repository_id r) = true ∧ hex_text 40 (revision r).

Definition contract_ok (c : ContractVersion) : Prop :=
  valid_identifier (contract_id c) = true ∧ valid_identifier (schema_version c) = true.

Definition effect_ok (e : string) : Prop := 0 < size e <= 4096.

Definition finding_ok (f : AutomatedFinding) : Prop :=
  valid_identifier (finding_code f) = true ∧ hex_text 64 (details_digest f) ∧
  severity f ∈ ["info"; "warning"; "error"] ∧
  classification f ∈ ["observed"; "passed_check"; "failed_check"; "inconclusive_check"].

(** A digest that may be missing. *)
Definition sha_or_empty (s : string) : Prop := s = EmptyString ∨ hex_text 64 s.

Record input_ok (i : LiveEvidenceInput) : Prop := {
  ok_ids : Forall (fun s => valid_identifier s = true)
    [packet_id i; provider_revision i; source_id i; recipe_id i; product_id i; plan_id i];
  ok_captured : captured_at i ≠ EmptyString;
  ok_version : 0 < size (product_version i) <= 128;
  ok_abi : setup_abi_major i ≠ 0;
  ok_lengths : (0 < length (source_revisions i) <= 32 ∧ 0 < length (contract_versions i) <= 64 ∧
    0 < length (persistent_effects i) <= 128 ∧ length (automated_findings i) <= 1024)%nat;
  ok_revisions : Forall revision_ok (source_revisions i) ∧ NoDup (repository_id <$> source_revisions i);
  ok_contracts : Forall contract_ok (contract_versions i) ∧ NoDup (contract_id <$> contract_versions i);
  ok_effects : Forall effect_ok (persistent_effects i) ∧ NoDup (persistent_effects i);
  ok_findings : Forall finding_ok (automated_findings i) ∧ NoDup (finding_code <$> automated_findings i);
  ok_digests : Forall (hex_text 64) [archive_digest i; source_filesystem_identity_digest i; source_path_identity_digest i;
    recipe_digest i; target_identity_digest i; target_path_identity_digest i; filesystem_identity_digest i; plan_digest i;
    committed_closure_digest i; pre_target_snapshot_digest i; post_target_snapshot_digest i];
  ok_nullable : Forall sha_or_empty [installed_state_digest i; ownership_digest i; audit_head_digest i; journal_digest i];
  ok_chain : audit_chain_id i = EmptyString ∨ valid_identifier (audit_chain_id i) = true;
  ok_class : target_class i ∈ ["operator_acceptance"; "managed_portable"];
  ok_kind : 0 < size (filesystem_kind i) <= 128;
  ok_operation : operation i ∈ ["install_local"; "verify"; "repair"; "move"; "uninstall"; "recovery"];
  ok_closure : closure_status i ∈
    ["not_applicable"; "not_committed"; "committed"; "retired"; "removed"; "recovery_required"];
  ok_recovery : recovery_status i ∈ ["not_required"; "recovery_required"; "recovered"; "unproven"] }.

(** The input with its lists in the order of their keys. *)
Definition ordered (i : LiveEvidenceInput) : LiveEvidenceInput :=
  with_lists (sort_by (key_less repository_id) (source_revisions i)) (sort_by (key_less contract_id) (contract_versions i))
    (sort_by string_ltb (persistent_effects i)) (sort_by (key_less finding_code) (automated_findings i)) i.

Lemma empty_size s : is_empty s = false ↔ 0 < size s.
Proof. destruct s; cbn; [split; (done || lia)|]. split; [intros _; unfold size; cbn; lia|done]. Qed.

Lemma empty_false s : is_empty s = false ↔ s ≠ EmptyString.
Proof. by destruct s. Qed.

Lemma check_revision_ok r : check_revision r = Ok tt ↔ revision_ok r.
Proof.
  unfold check_revision, revision_ok. rewrite bind_unit, require_id_ok, throw_if_ok.
  by rewrite negb_false_iff, lower_hex_ok.
Qed.

Lemma check_contract_ok c : check_contract c = Ok tt ↔ contract_ok c.
Proof. unfold check_contract, contract_ok. by rewrite bind_unit, !require_id_ok. Qed.

Lemma check_effect_ok e : check_effect e = Ok tt ↔ effect_ok e.
Proof. unfold check_effect, effect_ok. rewrite throw_if_ok, orb_false_iff, empty_size, N.ltb_ge. done. Qed.

Lemma check_finding_ok f : check_finding f = Ok tt ↔ finding_ok f.
Proof.
  unfold check_finding, finding_ok. rewrite !bind_unit, require_id_ok, require_sha_ok, sha256_ok, !throw_if_ok.
  rewrite !negb_false_iff, !in_set_elem. naive_solver.
Qed.

Lemma each_check {A} (f : A → result unit) (P : A → Prop) l : (∀ x, f x = Ok tt ↔ P x) → each f l = Ok tt ↔ Forall P l.
Proof. intros H. rewrite each_ok. split; intros Hl; (eapply Forall_impl; [exact Hl|]); intros x; apply H. Qed.

Lemma capacity_ok i : capacity_invalid i = false ↔
  captured_at i ≠ EmptyString ∧ 0 < size (product_version i) <= 128 ∧ setup_abi_major i ≠ 0 ∧
  (0 < length (source_revisions i) <= 32 ∧ 0 < length (contract_versions i) <= 64 ∧
    0 < length (persistent_effects i) <= 128 ∧ length (automated_findings i) <= 1024)%nat.
Proof.
  unfold capacity_invalid. rewrite !orb_false_iff, !empty_size, !N.ltb_ge, !N.eqb_neq, <- empty_false, empty_size.
  split; intros H; (split_and!; try lia); naive_solver lia.
Qed.

Lemma require_sha_nullable s f : require_sha s f true = Ok tt ↔ sha_or_empty s.
Proof.
  unfold require_sha, sha_or_empty. rewrite throw_if_ok. cbn [negb orb].
  rewrite andb_false_iff, !negb_false_iff, sha256_ok. destruct s; cbn [is_empty]; naive_solver.
Qed.

Lemma identities_ok i : require_identities i = Ok tt ↔
  Forall (hex_text 64) (map fst (digests i)) ∧
  Forall sha_or_empty [installed_state_digest i; ownership_digest i; audit_head_digest i; journal_digest i] ∧
  (audit_chain_id i = EmptyString ∨ valid_identifier (audit_chain_id i) = true) ∧
  target_class i ∈ ["operator_acceptance"; "managed_portable"] ∧ 0 < size (filesystem_kind i) <= 128 ∧
  operation i ∈ operations ∧ closure_status i ∈ closure_states ∧ recovery_status i ∈ recovery_states.
Proof.
  unfold require_identities. rewrite !bind_unit, !require_sha_nullable, !throw_if_ok, !orb_false_iff, !negb_false_iff, !in_set_elem.
  rewrite N.ltb_ge, empty_size, !andb_false_iff, !negb_false_iff, !String.eqb_eq.
  rewrite (each_check _ (fun d => hex_text 64 (fst d))) by (intros d; rewrite require_sha_ok; apply sha256_ok).
  rewrite Forall_map. rewrite !Forall_cons, Forall_nil, !elem_of_cons.
  assert (∀ s, is_empty s = true ↔ s = EmptyString) as He by (by destruct s). rewrite He.
  pose proof (not_elem_of_nil (target_class i)). naive_solver.
Qed.

Lemma validated i j : validate_input i = Ok j ↔ input_ok i ∧ j = ordered i.
Proof.
  unfold validate_input. rewrite bind_unit. unfold require_ids. rewrite !bind_unit, !require_id_ok, throw_if_ok, capacity_ok.
  rewrite (each_check _ _ _ check_revision_ok). unfold ordered.
  split.
  - intros (Hids & Hcap & Hr & H). apply bind_ok in H as (r & [Hr' ->]%sort_unique_ok & H).
    apply bind_unit in H as [Hc%(each_check _ _ _ check_contract_ok) H].
    apply bind_ok in H as (c & [Hc' ->]%sort_unique_ok & H). apply bind_unit in H as [He'%throw_if_ok H].
    apply bind_unit in H as [He%(each_check _ _ _ check_effect_ok) H].
    apply bind_unit in H as [Hf%(each_check _ _ _ check_finding_ok) H].
    apply bind_ok in H as (f & [Hf' ->]%sort_unique_ok & H). apply bind_unit in H as [Hi%identities_ok H].
    apply ok_inj in H. split; [|done].
    apply (sorted_unique (A:=string) id) in He'. rewrite list_fmap_id in He'. rewrite sort_by_perm in He.
    destruct Hids as (?&?&?&?&?&?). destruct Hcap as (?&?&?&?). destruct Hi as (?&?&?&?&?&?&?&?).
    by split; [repeat (apply Forall_cons; split; [done|])|..].
  - intros [[] ->]. rewrite !Forall_cons in ok_ids0. destruct ok_ids0 as (?&?&?&?&?&?&_).
    destruct ok_revisions0, ok_contracts0, ok_effects0, ok_findings0. do 3 (split; [done|]).
    rewrite (proj2 (sort_unique_ok repository_id _ _ _)) by naive_solver. cbn [mbind result_bind].
    rewrite (proj2 (each_check _ _ _ check_contract_ok)) by naive_solver. cbn [mbind result_bind].
    rewrite (proj2 (sort_unique_ok contract_id _ _ _)) by naive_solver. cbn [mbind result_bind].
    rewrite (proj2 (throw_if_ok _ _ tt)). 2:{ apply (sorted_unique (A:=string) id). rewrite list_fmap_id. naive_solver. }
    cbn [mbind result_bind]. rewrite (proj2 (each_check _ _ _ check_effect_ok)) by (rewrite sort_by_perm; naive_solver).
    cbn [mbind result_bind]. rewrite (proj2 (each_check _ _ _ check_finding_ok)) by naive_solver. cbn [mbind result_bind].
    rewrite (proj2 (sort_unique_ok finding_code _ _ _)) by naive_solver. cbn [mbind result_bind].
    rewrite (proj2 (identities_ok i)) by (do 4 (split; [assumption || exact ok_digests0|]); tauto). done.
Qed.

(** ** The packet of an input *)

(** A document as a table: the path and the value of every member that is no object. *)
Fixpoint leaves (v : value) : list (list string * value) :=
  match v with
  | object m =>
    (fix go (m : list (string * value)) := match m with
     | [] => []
     | (k, x) :: m => map (fun p => (k :: fst p, snd p)) (leaves x) ++ go m
     end) m
  | _ => [([], v)]
  end.

(** A text that may be missing. *)
Definition or_null (s : string) : value := match s with EmptyString => null_value | _ => string_value s end.

(** What the packet of an input carries, member by member, the lists in the order of
    their keys. *)
Definition carried (i : LiveEvidenceInput) : list (list string * value) :=
  [(["archive"; "filesystem_identity_digest"], string_value (source_filesystem_identity_digest i));
   (["archive"; "path_identity_digest"], string_value (source_path_identity_digest i));
   (["archive"; "sha256"], string_value (archive_digest i));
   (["archive"; "size_bytes"], unsigned_integer (archive_size_bytes i));
   (["archive"; "source_id"], string_value (source_id i));
   (["automated_findings"], array (map (fun f => object [("classification", string_value (classification f));
      ("code", string_value (finding_code f)); ("details_digest", string_value (details_digest f));
      ("severity", string_value (severity f))]) (sort_by (key_less finding_code) (automated_findings i))));
   (["captured_at"], string_value (captured_at i));
   (["committed_closure"; "byte_count"], unsigned_integer (committed_byte_count i));
   (["committed_closure"; "closure_digest"], string_value (committed_closure_digest i));
   (["committed_closure"; "file_count"], unsigned_integer (committed_file_count i));
   (["committed_closure"; "status"], string_value (closure_status i));
   (["contract_versions"], array (map (fun c => object [("contract_id", string_value (contract_id c));
      ("schema_version", string_value (schema_version c))]) (sort_by (key_less contract_id) (contract_versions i))));
   (["filesystem"; "capabilities"; "local"], boolean (filesystem_local i));
   (["filesystem"; "capabilities"; "no_mount_redirection"], boolean (no_mount_redirection i));
   (["filesystem"; "capabilities"; "no_replace_commit"], boolean (no_replace_commit i));
   (["filesystem"; "capabilities"; "stable_ancestors"], boolean (stable_ancestors i));
   (["filesystem"; "identity_digest"], string_value (filesystem_identity_digest i));
   (["filesystem"; "kind"], string_value (filesystem_kind i));
   (["operator_verdict"; "recorded_at"], null_value);
   (["operator_verdict"; "recorded_by"], null_value);
   (["operator_verdict"; "statement_digest"], null_value);
   (["operator_verdict"; "status"], string_value "pending");
   (["operator_verdict"; "verdict"], null_value);
   (["packet_id"], string_value (packet_id i));
   (["plan"; "expected_byte_count"], unsigned_integer (expected_byte_count i));
   (["plan"; "expected_file_count"], unsigned_integer (expected_file_count i));
   (["plan"; "operation"], string_value (operation i));
   (["plan"; "plan_digest"], string_value (plan_digest i));
   (["plan"; "plan_id"], string_value (plan_id i));
   (["recipe"; "product_id"], string_value (product_id i));
   (["recipe"; "product_version"], string_value (product_version i));
   (["recipe"; "recipe_digest"], string_value (recipe_digest i));
   (["recipe"; "recipe_id"], string_value (recipe_id i));
   (["recovery"; "journal_digest"], or_null (journal_digest i));
   (["recovery"; "status"], string_value (recovery_status i));
   (["schema"], string_value "usk.live_target_evidence_packet.v1");
   (["setup_abi"; "major"], unsigned_integer (setup_abi_major i));
   (["setup_abi"; "minor"], unsigned_integer (setup_abi_minor i));
   (["setup_abi"; "provider_revision"], string_value (provider_revision i));
   (["snapshots"; "post_target_digest"], string_value (post_target_snapshot_digest i));
   (["snapshots"; "pre_target_digest"], string_value (pre_target_snapshot_digest i));
   (["source_revisions"], array (map (fun r => object [("repository_id", string_value (repository_id r));
      ("revision", string_value (revision r))]) (sort_by (key_less repository_id) (source_revisions i))));
   (["state"; "audit_chain_id"], or_null (audit_chain_id i));
   (["state"; "audit_head_digest"], or_null (audit_head_digest i));
   (["state"; "installed_state_digest"], or_null (installed_state_digest i));
   (["state"; "ownership_digest"], or_null (ownership_digest i));
   (["supersedes_packet_digest"], null_value);
   (["target"; "path_identity_digest"], string_value (target_path_identity_digest i));
   (["target"; "persistent_effects"], array (map string_value (sort_by string_ltb (persistent_effects i))));
   (["target"; "target_class"], string_value (target_class i));
   (["target"; "target_identity_digest"], string_value (target_identity_digest i))].

Lemma pending_carried i : leaves (object (pending_members (ordered i))) = carried i.
Proof.
  destruct i. unfold carried, ordered, with_lists. cbn [journal_digest audit_chain_id audit_head_digest
    installed_state_digest ownership_digest].
  destruct journal_digest0, audit_chain_id0, audit_head_digest0, installed_state_digest0, ownership_digest0; reflexivity.
Qed.

(** The numbers are 64-bit. *)
Definition words (i : LiveEvidenceInput) : Prop :=
  Forall (fun n => n <= uint64_max) [setup_abi_major i; setup_abi_minor i; archive_size_bytes i; expected_file_count i;
    expected_byte_count i; committed_file_count i; committed_byte_count i].

Lemma wf_map {A} (f : A → value) l : (∀ x, wf (f x)) → wf (array (map f l)).
Proof. intros H. induction l; by split. Qed.

Lemma pending_shape i : pending_payload i = object (pending_members i).
Proof. reflexivity. Qed.

Lemma pending_wf i : words i → wf (object (pending_members i)).
Proof.
  unfold words. rewrite !Forall_cons. intros (?&?&?&?&?&?&?&_). split; [by_sorted|].
  split_and!; try done; try (apply wf_map; intros; split; [by_sorted|done]); try (split; [by_sorted|]; split_and!; try done).
  - split; [by_sorted|done].
  - by destruct (journal_digest i).
  - by destruct (audit_chain_id i).
  - by destruct (audit_head_digest i).
  - by destruct (installed_state_digest i).
  - by destruct (ownership_digest i).
  - by apply wf_map.
Qed.

Lemma pending_evidence i : words i → evidence (packet_id i) (pending_members i).
Proof. intros Hw. split; [by apply pending_wf|reflexivity..]. Qed.

Lemma pending_undecided i : undecided (pending_members i).
Proof. eexists. split_and!; reflexivity. Qed.

Lemma built i p : words i → build_pending_packet i = Ok p ↔
  input_ok i ∧ p = packet_for (packet_id i) (pending_members (ordered i)).
Proof.
  intros Hw. unfold build_pending_packet. split.
  - intros (j & [Hi ->]%validated & H)%bind_ok. split; [done|].
    rewrite pending_shape, (finalize_evidence (packet_id i)) in H by by apply (pending_evidence (ordered i)).
    by apply ok_inj in H.
  - intros [Hi ->]. rewrite (proj2 (validated i (ordered i))) by done. cbn [mbind result_bind].
    rewrite pending_shape. apply finalize_evidence. by apply (pending_evidence (ordered i)).
Qed.

(** The same input but for the order of its lists. *)
Definition reordered (i i' : LiveEvidenceInput) : Prop :=
  ∃ r c e f, i' = with_lists r c e f i ∧ r ≡ₚ source_revisions i ∧ c ≡ₚ contract_versions i ∧
    e ≡ₚ persistent_effects i ∧ f ≡ₚ automated_findings i.

Lemma reordered_ok i i' : reordered i i' → input_ok i → input_ok i' ∧ ordered i' = ordered i.
Proof.
  intros (r & c & e & f & -> & Hr & Hc & He & Hf) []. split.
  - split; cbn [with_lists packet_id captured_at source_revisions contract_versions persistent_effects automated_findings];
      [done..| |idtac| | | |done|done|done|done|done|done|done|done].
    + by rewrite Hr, Hc, He, Hf.
    + by rewrite Hr.
    + by rewrite Hc.
    + by rewrite He.
    + by rewrite Hf.
  - unfold ordered. change string_ltb with (key_less (A:=string) id).
    cbn [with_lists source_revisions contract_versions persistent_effects automated_findings].
    rewrite (sort_by_key_unique repository_id r _ Hr), (sort_by_key_unique contract_id c _ Hc),
      (sort_by_key_unique finding_code f _ Hf), (sort_by_key_unique (A:=string) id e _ He);
      rewrite ?list_fmap_id, ?Hr, ?Hc, ?He, ?Hf; naive_solver.
Qed.

(** C26 Exactly the inputs with valid identifiers, digests, states and capacities, and
    without duplicates, make a packet of evidence.  The members of the packet are exactly
    those of the table [carried], each with its value of the input, the lists in the
    order of their keys and no verdict yet, sealed by the SHA-256 of their canonical
    text; the packet does not depend on the order in which the lists were given; and it
    is accepted if and only if the parser admits its text. *)
Theorem pending_packet_exact i : words i →
  (is_ok (build_pending_packet i) = true ↔ input_ok i) ∧
  ∀ p, build_pending_packet i = Ok p →
    (∃ m, evidence (packet_id i) m ∧ undecided m ∧ leaves (object m) = carried i ∧ p = packet_for (packet_id i) m ∧
      (validate_packet_identity p = Ok tt ↔ admitted (sealed m) = true)) ∧
    ∀ i', reordered i i' → build_pending_packet i' = Ok p.
Proof.
  intros Hw. split.
  { split; [|intros Hi; by rewrite (proj2 (built i _ Hw) (conj Hi eq_refl))].
    destruct (build_pending_packet i) as [p|] eqn:E; [|done]. by apply built in E as [? _]. }
  intros p [Hi ->]%built; [|done]. split; [exists (pending_members (ordered i))|].
  - assert (evidence (packet_id i) (pending_members (ordered i))) as He by by apply (pending_evidence (ordered i)).
    split_and!; [done|apply pending_undecided|apply pending_carried|done|].
    rewrite packet_accepted. cbn [packet_for evidence_id]. split.
    + intros (_ & m & Hm & Hp & Ha). apply (f_equal canonical_json) in Hp. cbn [packet_for canonical_json] in Hp.
      by rewrite (sealed_injective _ _ _ _ He Hm Hp).
    + intros Ha. split; [|eauto]. by destruct Hi as [[? _]%Forall_cons].
  - intros i' Hr. destruct (reordered_ok _ _ Hr Hi) as [Hi' He].
    assert (words i') as Hw' by by destruct Hr as (? & ? & ? & ? & -> & _).
    apply built; [done|]. rewrite He. split; [done|]. by destruct Hr as (? & ? & ? & ? & -> & _).
Qed.

End LiveEvidencePacket.

(** The repository of live evidence: what its readers accept, and writing a packet and
    reading it again. *)

Module LiveEvidenceStore.
Import Json JsonFacts JsonParse JsonProps Path PathFacts Effects World RecordIo RecordFacts.
Import LiveEvidence LiveEvidenceFacts.

(** ** The text of a record *)

Lemma sealed_digest id m : evidence id m → at_string (sealed m) "packet_digest" = Ok (payload_digest m).
Proof.
  intros He. unfold at_string, at_, sealed. cbn [as_object mbind result_bind].
  rewrite StdMap.find_emplace_same; [done|by eapply evidence_sorted|apply He].
Qed.

Lemma parse_line m ws : wf (sealed m) → admitted (sealed m) = true → forall_bytes is_space ws = true →
  size (canonical (sealed m) +:+ ws) <= max_bytes default_limits →
  parse (canonical (sealed m) +:+ ws) default_limits = Ok (sealed m).
Proof.
  intros Hw Ha Hs Hz. pose proof (parse_canonical_space default_limits (sealed m) ws Hw Hs) as H.
  unfold admitted in Ha. apply andb_prop in Ha as [[_ Hf]%andb_prop Hc].
  by rewrite (proj2 (N.leb_le _ _) Hz), Hf, Hc in H.
Qed.

(** What a reader accepts: the text of an accepted packet of the identifier on one line. *)
Lemma decode_exact id content p : decode_packet id content = Ok p ↔
  evidence_id p = id ∧ validate_packet_identity p = Ok tt ∧ size content <= max_bytes default_limits ∧
  ∃ ws, content = canonical_json p +:+ ws ∧ (ws = newline ∨ ws = crlf).
Proof.
  unfold decode_packet. split.
  - intros (v & Hv & H)%bind_ok. apply bind_unit in H as [Hc%throw_if_ok H].
    apply bind_ok in H as (digest & Hd & H). cbv zeta in H. apply bind_unit in H as [Ha H]. apply ok_inj in H as <-.
    cbn [evidence_id canonical_json]. apply parse_accepted in Hv as (_ & _ & _ & _ & Hs). split_and!; [done..|].
    apply andb_false_iff in Hc as [Hc%negb_false_iff%String.eqb_eq|Hc%negb_false_iff%String.eqb_eq]; eauto.
  - intros (<- & (Hid & m & He & Hp & Ha)%packet_accepted & Hs & ws & -> & Hws).
    assert (validate_packet_identity p = Ok tt) as Hv by (apply packet_accepted; eauto).
    rewrite Hp in Hs |- * at 1. cbn [packet_for canonical_json] in Hs |- *.
    rewrite parse_line; [|by eapply wf_sealed|done|by destruct Hws as [-> | ->]|done]. cbn [mbind result_bind].
    rewrite Hp at 1 2. cbn [packet_for canonical_json].
    assert (∀ c s, negb (String.eqb (c +:+ newline) s) && negb (String.eqb (c +:+ crlf) s) = false ↔ s = c +:+ newline ∨ s = c +:+ crlf) as E.
    { intros c s. rewrite andb_false_iff, !negb_false_iff, !String.eqb_eq. naive_solver. }
    rewrite (proj2 (E _ _)) by (destruct Hws as [-> | ->]; auto). cbn [throw_if mbind result_bind].
    rewrite (sealed_digest (evidence_id p)) by done. cbn [mbind result_bind].
    fold (packet_for (evidence_id p) m). rewrite <- Hp. rewrite Hv. done.
Qed.

(** ** The repository on an undisturbed host *)

Definition maximum : N := 4 * 1024 * 1024.

Section Repository.
Context (l : list string).
Hypothesis Hl : Forall safe_name l.

Definition packets_dir : list string := l ++ ["packets"].
Definition packet_file (id : string) : list string := packets_dir ++ [id +:+ ".json"].

Lemma packets_safe : Forall safe_name packets_dir.
Proof. apply Forall_app. split; [done|]. by repeat constructor. Qed.

Lemma packet_safe id : valid_identifier id = true → Forall safe_name (packet_file id).
Proof. intros H. apply StateHost.record_safe; [apply packets_safe|by apply StateHost.identifier_json]. Qed.

Lemma packet_path_text id : valid_identifier id = true → packet_path (abs_text l) id = abs_text (packet_file id).
Proof.
  intros H. unfold packet_path. rewrite (StateHost.child_text l "packets") by (done || by repeat split).
  apply StateHost.child_text; [apply packets_safe|]. by apply StateHost.json_name_safe, StateHost.identifier_json.
Qed.

Lemma packet_path_normal id : valid_identifier id = true → normal_absolute_path (abs_text (packet_file id)).
Proof. intros H. apply StateHost.record_normal; [apply packets_safe|by apply StateHost.identifier_json]. Qed.

(** A record longer than the budget is not read. *)
Lemma read_too_long w p i content limit : quiet w → normal_absolute_path p → holds_file (disk w) p i content →
  limit < size content → throws (fst (read_stable_text p limit w)).
Proof.
  intros Hq Hp (v & t & Hi & Hc) Hs. unfold read_stable_text.
  destruct (runs_open_stable w p i v t content Hq Hp Hi Hc) as (w1 & R & _).
  unfold mbind, M_bind. rewrite R. cbn [stable_of StableFile.identity_ StableFile.size_bytes].
  rewrite (proj2 (N.ltb_lt _ _) Hs). by eexists.
Qed.

Lemma read_outcome w p i : quiet w → validate_packet_identity p = Ok tt →
  holds_file (disk w) (abs_text (packet_file (evidence_id p))) i (canonical_json p +:+ newline) →
  outcome (size (canonical_json p) <? maximum) p (fst (read_and_validate (abs_text l) (evidence_id p) w)).
Proof.
  intros Hq Hv Hf. pose proof Hv as (Hid & _)%packet_accepted. unfold read_and_validate.
  rewrite packet_path_text by done. rewrite (proj2 (require_id_ok _ _) Hid).
  assert (∀ (f : unit → io EvidencePacket), (lift (Ok tt) ≫= f) w = f tt w) as -> by done.
  destruct (N.ltb_spec (size (canonical_json p)) maximum) as [Hz|Hz].
  - assert (size (canonical_json p +:+ newline) <= maximum) as Hz' by (rewrite size_append; change (size newline) with 1; lia).
    destruct (runs_read_stable_text w _ i _ maximum Hq (packet_path_normal _ Hid) Hf Hz') as (w1 & R & _).
    unfold mbind, M_bind. unfold maximum in R. rewrite R. unfold lift. cbn [outcome fst].
    apply decode_exact. split_and!; [done..|]. eauto.
  - unfold outcome, mbind, M_bind.
    destruct (read_too_long w _ i _ maximum Hq (packet_path_normal _ Hid) Hf) as [e He].
    { rewrite size_append. change (size newline) with 1. lia. }
    unfold maximum in He. destruct (read_stable_text _ _ w) as [r w1]. cbn [fst] in He. rewrite He. by exists e.
Qed.

Lemma runs_repository w : quiet w → safe_dir (disk w) packets_dir → safe_dir (disk w) l →
  runs w (evidence_repository (abs_text l)) (abs_text l) (disk w).
Proof.
  intros Hq Hd Hd'. unfold evidence_repository.
  assert (runs w (StableFile.absolute (abs_text l)) (abs_text l) (disk w)) as Ha by (by exists w).
  eapply runs_bind; [exact Ha|]. intros w1 Q1 D1 _. cbv beta zeta. rewrite normal_abs_text by done.
  change (is_empty (abs_text l)) with false. rewrite <- D1 in *.
  eapply runs_bind; [by apply runs_ret|]. intros w2 Q2 D2 _. cbv beta. rewrite <- D2 in *.
  eapply runs_bind; [by apply runs_require_safe_directory|]. intros w3 Q3 D3 _. cbv beta. rewrite <- D3 in *.
  rewrite (StateHost.child_text l "packets") by (done || by repeat split).
  eapply runs_bind; [by apply runs_require_safe_directory; [|apply packets_safe|]|].
  intros w4 Q4 D4 _. cbv beta. rewrite <- D4. by apply runs_ret.
Qed.

Lemma parent_safe d : safe_dir d packets_dir → safe_dir d l.
Proof.
  intros H k. specialize (H (min k (length l))). unfold packets_dir in H.
  rewrite take_app_le in H by lia. by rewrite <- take_take, firstn_all in H.
Qed.

(** C28 The repository of evidence: whatever the host does, a packet that is read is an
    accepted packet with the identifier asked for.  On an undisturbed host an accepted
    packet under a new identifier is stored as one new file, and is read back exactly
    when its text is shorter than 4 MiB; with 4 MiB it is stored and cannot be read. *)
Theorem evidence_repository_exact :
  (∀ root id w p w', read_and_validate root id w = (Ok p, w') →
    evidence_id p = id ∧ validate_packet_identity p = Ok tt) ∧
  (∀ w p, quiet w → fs_ok (disk w) → safe_dir (disk w) packets_dir → validate_packet_identity p = Ok tt →
    entries (disk w) !! packet_file (evidence_id p) = None →
    ensures w (root ← evidence_repository (abs_text l); write_new root p) (fun _ d' =>
      adds_file (disk w) d' (abs_text (packet_file (evidence_id p))) (fresh_inode (disk w)) (canonical_json p +:+ newline) ∧
      ∀ w', quiet w' → disk w' = d' →
        outcome (size (canonical_json p) <? maximum) p (fst (read_and_validate (abs_text l) (evidence_id p) w')))).
Proof.
  split.
  - intros root id w p w' H. unfold read_and_validate in H. apply seq_ok in H as (u & w1 & _ & H).
    apply seq_ok in H as (content & w2 & _ & H). by apply lift_ok in H as [(? & ? & _)%decode_exact _].
  - intros w p Hq Hok Hd Hv Hn. pose proof Hv as (Hid & _)%packet_accepted.
    eapply ensures_then; [by apply runs_repository; [| |apply parent_safe]|]. intros w1 Q1 D1 _. rewrite <- D1 in *. cbv beta.
    unfold write_new. eapply ensures_then; [by apply runs_lift|]. intros w2 Q2 D2 _. rewrite <- D2 in *. cbv beta.
    rewrite packet_path_text by done.
    destruct (write_new_ensures w2 packets_dir (evidence_id p +:+ ".json") (canonical_json p +:+ newline) Q2
      (packet_safe _ Hid) Hd Hn) as (u & d' & R & A).
    exists u, d'. split; [exact R|]. split; [exact A|]. intros w' Hq' <-. eapply read_outcome; [done..|].
    by eapply adds_file_holds.
Qed.

End Repository.
End LiveEvidenceStore.
