(* ===== verification/LiveEvidenceSnapshot.v ===== *)
(** The snapshot of a target on an undisturbed host: its counts, what its digest is of,
    and that the digest determines the tree. *)

From Stdlib Require Import Ascii String NArith ZArith Lia.
From stdpp Require Import base list strings gmap sets.
From S2P Require Import Prelude Effects Sha256 StdMap Json JsonFacts JsonParse JsonProps Path PathFacts World.
From S2P Require Import RecordIo RecordFacts DirectoryFacts TextFacts AuditFacts Session TreeFacts.
From S2P Require Import ReplacementSnapshot ReplacementConfined LiveEvidence LiveEvidenceFacts.
From S2P Require Import LiveEvidencePacket.

Module LiveEvidenceSnapshot.
Import Json JsonFacts JsonProps Path PathFacts Effects World RecordIo RecordFacts DirectoryFacts TreeFacts SortFacts.
Import ReplacementSnapshot LiveEvidence.

(** ** Names without links *)

Lemma existsb_none {A} (f : A → bool) l : (∀ x, In x l → f x = false) → existsb f l = false.
Proof.
  intros H. apply not_true_is_false. intros (x & Hx & E)%existsb_exists. by rewrite H in E.
Qed.

(** On the way to an entry there are directories. *)
Lemma tree_above d n k : tree_ok d → is_Some (entries d !! n) → (k < length n)%nat →
  ∃ i x, lookup_inode d (take k n) = Some (i, x) ∧ node x = directory.
Proof.
  intros Hok Hn Hk. apply is_dir_at_inv, (tree_prefix d _ (drop k n)); [done|by rewrite take_drop|].
  intros E%(f_equal length). rewrite length_drop in E. simpl in E. lia.
Qed.

Lemma tree_clear d n : tree_ok d → is_Some (entries d !! n) → blocked d n = false.
Proof.
  intros Hok Hn. unfold blocked. apply existsb_none. intros k Hk%in_seq.
  destruct (tree_above d n k Hok Hn) as (i & x & -> & ->); [lia|done].
Qed.

Lemma tree_unlinked d n i x : tree_ok d → lookup_inode d n = Some (i, x) → StableFile.is_symlink x = false →
  StableFile.through_link d n = false.
Proof.
  intros Hok Hn Hx. unfold StableFile.through_link. apply existsb_none. intros k Hk%in_seq.
  destruct (decide (k = length n)) as [->|]; [by rewrite firstn_all, Hn|].
  pose proof (lookup_inode_inv _ _ _ _ Hn) as [He _].
  destruct (tree_above d n k Hok) as (j & y & -> & Hy); [by eexists|lia|]. unfold StableFile.is_symlink. by rewrite Hy.
Qed.

(** ** One entry *)

Definition is_file (d : fs) (n rel : name) : bool :=
  match lookup_inode d (n ++ rel) with Some (_, mk_inode _ (regular _) _) => true | _ => false end.

(** The counts and the entries after these names. *)
Definition after (d : fs) (n : name) (p : Progress) (rels : list name) : Progress :=
  mk_progress (files p + N.of_nat (length (List.filter (is_file d n) rels)))
    (directories p + N.of_nat (length (List.filter (fun rel => negb (is_file d n rel)) rels)))
    (bytes p + total (map (bytes_of d n) rels)) (collected p ++ omap (entry_of d n) rels).

(** A name that the snapshot takes for a way out of the root. *)
Definition dotted (rel : name) : bool := String.prefix ".." (join_names rel).

Section Entry.
Context (n : name) (max_entries max_bytes : N).

Lemma relative_nonempty rel : Forall plain_name rel → rel ≠ [] → is_empty (join_names rel) = false.
Proof. intros H Hr. destruct (join_not_slash rel H Hr) as [_ H2]. by destruct (join_names rel). Qed.

Lemma join_not_dot rel : Forall safe_name rel → rel ≠ [] → String.eqb (join_names rel) "." = false.
Proof.
  intros H Hr. apply String.eqb_neq. intros E. assert (rel = ["."]) as ->.
  { apply join_inj; [by apply safe_plain|by repeat constructor|]. by rewrite E. }
  apply Forall_cons in H as [(_ & H & _) _]. done.
Qed.

Lemma runs_symlink_status w m i x : quiet w → tree_ok (disk w) → Forall safe_name m →
  lookup_inode (disk w) m = Some (i, x) → runs w (symlink_status (abs_text m)) (Some (Some (node x))) (disk w).
Proof.
  intros Hq Hok Hm E. pose proof (lookup_inode_inv _ _ _ _ E) as [He _].
  unfold symlink_status. rewrite names_abs_text by by apply safe_plain.
  pose proof (runs_observe w (fun d => if blocked d m then None
    else Some (option_map (fun x => node (snd x)) (lookup_inode d m))) Hq) as R.
  cbv beta in R. rewrite E, tree_clear in R by (done || by eexists). exact R.
Qed.

Lemma runs_relative w rel i x : quiet w → tree_ok (disk w) → Forall safe_name (n ++ rel) → rel ≠ [] →
  is_dir_at (disk w) n = true →
  lookup_inode (disk w) (n ++ rel) = Some (i, x) → StableFile.is_symlink x = false →
  ∃ r, runs w (relative (abs_text (n ++ rel)) (abs_text n)) (Some r) (disk w) ∧ generic_string r = join_names rel.
Proof.
  intros Hq Hok Hs Hr (j & y & Ej & Hy)%is_dir_at_inv E Hx. exists (lexically_relative (abs_text (n ++ rel)) (abs_text n)).
  split; [|by apply relative_text; [apply safe_plain|]].
  pose proof Hs as [Hn _]%Forall_app. unfold relative. rewrite !names_abs_text by by apply safe_plain.
  pose proof (runs_observe w (fun d => if StableFile.through_link d (n ++ rel) || StableFile.through_link d n
    then None else Some (lexically_relative (abs_text (n ++ rel)) (abs_text n))) Hq) as R. cbv beta in R.
  rewrite (tree_unlinked _ _ _ _ Hok E Hx), (tree_unlinked _ _ _ _ Hok Ej) in R; [exact R|].
  unfold StableFile.is_symlink. by rewrite Hy.
Qed.

Lemma after_one d p rel v : entry_of d n rel = Some v →
  after d n p [rel] = mk_progress (files p + (if is_file d n rel then 1 else 0))
    (directories p + (if is_file d n rel then 0 else 1)) (bytes p + bytes_of d n rel) (collected p ++ [v]).
Proof.
  intros Hv. unfold after. cbn [List.filter map total fold_right]. rewrite N.add_0_r.
  assert (omap (entry_of d n) [rel] = [v]) as -> by (cbn [omap list_omap]; by rewrite Hv).
  by destruct (is_file d n rel).
Qed.

Lemma runs_target_entry w rel p : quiet w → tree_ok (disk w) → is_dir_at (disk w) n = true →
  Forall safe_name (n ++ rel) → rel ≠ [] → dotted rel = false → plain_entry (disk w) n rel →
  files p + directories p < max_entries → bytes p + bytes_of (disk w) n rel <= max_bytes →
  ∀ k, runs w (snapshot_entry (abs_text n) max_entries max_bytes p (abs_text (n ++ rel), k))
    (after (disk w) n p [rel]) (disk w).
Proof.
  intros Hq Hok Hd Hs Hr Hdot (i & u & k' & t & E & Hk) Hl Hb k.
  assert (StableFile.is_symlink (mk_inode u k' t) = false) as Hx by by destruct Hk as [->|(c & -> & _)].
  pose proof Hs as [_ Hrel]%Forall_app. unfold snapshot_entry. cbn [fst].
  rewrite (proj2 (N.leb_gt _ _)) by done.
  eapply runs_bind; [by eapply runs_symlink_status|]. intros w1 Q1 D1 _. cbv beta. rewrite <- D1 in *. cbn [node].
  destruct (runs_relative w1 rel i _ Q1 Hok Hs Hr Hd E Hx) as (r & R & Hg).
  assert (is_empty (join_names rel) || String.eqb (join_names rel) "." || String.prefix ".." (join_names rel) = false) as Hname.
  { rewrite relative_nonempty, join_not_dot by (done || by apply safe_plain). exact Hdot. }
  assert (bytes_of (disk w1) n rel = match k' with regular c => size c | _ => 0 end) as Eb by (unfold bytes_of; by rewrite E).
  assert (is_file (disk w1) n rel = match k' with regular c => true | _ => false end) as Ef by (unfold is_file; by rewrite E).
  destruct Hk as [->|(c & -> & Hc)].
  - eapply runs_bind; [exact R|]. intros w2 Q2 D2 _. cbv beta zeta. cbn [default]. unfold id. rewrite Hg, bool_decide_true by (by eexists). cbn [negb orb]. rewrite Hname. rewrite <- D2 in *.
    erewrite after_one by (unfold entry_of; by rewrite E). rewrite Eb, Ef, !N.add_0_r. by apply runs_ret.
  - eapply runs_bind; [exact R|]. intros w2 Q2 D2 _. cbv beta zeta. cbn [default]. unfold id. rewrite Hg, bool_decide_true by (by eexists). cbn [negb orb]. rewrite Hname. rewrite <- D2 in *.
    assert (normal_absolute_path (abs_text (n ++ rel))) as Hp by (split; [done|by apply normal_abs_text]).
    assert (names (abs_text (n ++ rel)) = n ++ rel) as En by (by apply names_abs_text, safe_plain).
    eapply runs_bind; [eapply runs_open_stable; [done|done|by rewrite En|done]|].
    intros w3 Q3 D3 _. cbv beta. rewrite <- D3 in *. cbn [StableFile.identity_ stable_of StableFile.size_bytes].
    rewrite (proj2 (N.ltb_ge _ _)) by lia. pose proof (lookup_inode_inv _ _ _ _ E) as [_ Ei].
    eapply runs_bind; [eapply runs_sha256_hex; [done|exact Ei]|]. intros w4 Q4 D4 _. cbv beta. rewrite <- D4 in *.
    eapply runs_bind; [eapply runs_verify_unchanged; [done|by rewrite En|done]|].
    intros w5 Q5 D5 _. cbv beta. rewrite <- D5 in *.
    erewrite after_one by (unfold entry_of; by rewrite E). rewrite Eb, Ef, !N.add_0_r. by apply runs_ret.
Qed.

Lemma after_cons d p rel rels v : entry_of d n rel = Some v → after d n p (rel :: rels) = after d n (after d n p [rel]) rels.
Proof.
  intros Hv. rewrite (after_one d p rel v Hv). unfold after.
  cbn [List.filter map total fold_right files directories bytes collected].
  assert (omap (entry_of d n) (rel :: rels) = v :: omap (entry_of d n) rels) as -> by (cbn [omap list_omap]; by rewrite Hv).
  rewrite <- app_assoc. fold (total (map (bytes_of d n) rels)).
  destruct (is_file d n rel); cbn [negb length]; f_equal; lia.
Qed.

Lemma plain_entry_of d rel : plain_entry d n rel → ∃ v, entry_of d n rel = Some v.
Proof. intros (i & v & k & t & E & Hk). unfold entry_of. rewrite E. destruct Hk as [->|(c & -> & _)]; by eexists. Qed.

Lemma runs_target_fold rels : ∀ w p, quiet w → tree_ok (disk w) → is_dir_at (disk w) n = true →
  Forall (fun rel => Forall safe_name (n ++ rel) ∧ rel ≠ [] ∧ dotted rel = false ∧ plain_entry (disk w) n rel) rels →
  files p + directories p + N.of_nat (length rels) <= max_entries →
  bytes p + total (map (bytes_of (disk w) n) rels) <= max_bytes →
  runs w (fold_eff (snapshot_entry (abs_text n) max_entries max_bytes) p (listed_tree (disk w) n rels))
    (after (disk w) n p rels) (disk w).
Proof.
  induction rels as [|rel rels IH]; intros w p Hq Hok Hd Hn Hl Hb.
  { destruct p. unfold after. cbn. rewrite app_nil_r, !N.add_0_r. by apply runs_ret. }
  apply Forall_cons in Hn as [(Hs & Hr & Hdot & Hrel) Hn]. pose proof Hrel as (i & v & k & t & E & Hk).
  cbn [length] in Hl. cbn [map total fold_right] in Hb. fold (total (map (bytes_of (disk w) n) rels)) in Hb.
  destruct (plain_entry_of _ _ Hrel) as [ev Ev].
  assert (listed_tree (disk w) n (rel :: rels) = (abs_text (n ++ rel), k) :: listed_tree (disk w) n rels) as ->.
  { unfold listed_tree. cbn [omap list_omap]. by rewrite E. }
  rewrite (after_cons _ _ _ _ _ Ev). cbn [fold_eff].
  eapply runs_bind; [by apply runs_target_entry; try done; lia|].
  intros w1 Q1 D1 _. cbv beta. rewrite <- D1 in *.
  apply IH; try done; rewrite (after_one _ _ _ _ Ev); cbn [files directories bytes]; [destruct (is_file _ _ _)|]; lia.
Qed.

(** What an entry must be to be taken. *)
Lemma target_entry_inv w rel k p p' w' : quiet w → tree_ok (disk w) → is_dir_at (disk w) n = true →
  rel ∈ relatives (disk w) n → bytes p <= max_bytes →
  snapshot_entry (abs_text n) max_entries max_bytes p (abs_text (n ++ rel), k) w = (Ok p', w') →
  (dotted rel = false ∧ plain_entry (disk w) n rel) ∧ files p + directories p < max_entries ∧
  bytes p + bytes_of (disk w) n rel <= max_bytes.
Proof.
  intros Hq Hok Hd [Hr Hin]%relatives_in Hb H. pose proof (tree_names _ Hok _ Hin) as Hs.
  apply (lookup_entry _ _ (tree_inodes _ Hok)) in Hin as [[i [u k' t]] E].
  unfold snapshot_entry in H. cbn [fst] in H. destruct (N.leb_spec max_entries (files p + directories p)) as [|Hl]; [done|].
  destruct (runs_symlink_status w _ i _ Hq Hok Hs E) as (w1 & R1 & D1 & Q1 & _).
  apply seq_ok in H as (st & w1' & R1' & H). rewrite R1 in R1'. injection R1' as <- <-. cbn [node] in H.
  rewrite <- D1 in *. assert (bytes_of (disk w1) n rel = match k' with regular c => size c | _ => 0 end) as Eb
    by (unfold bytes_of; by rewrite E).
  assert (StableFile.is_symlink (mk_inode u k' t) = false) as Hx by by destruct k'.
  destruct (runs_relative w1 rel i _ Q1 Hok Hs Hr Hd E Hx) as (r & (w2 & R2 & D2 & Q2 & _) & Hg).
  assert (∀ (f : option path → io Progress), (relative (abs_text (n ++ rel)) (abs_text n) ≫= f) w1 = f (Some r) w2) as Hf
    by (intros f; unfold mbind, M_bind; by rewrite R2).
  destruct k' as [c| | |]; try done; rewrite Hf in H; cbv zeta in H; cbn [default] in H; unfold id in H; rewrite Hg in H;
    fold (dotted rel) in H; (destruct (dotted rel); [by rewrite orb_true_r in H|]); (destruct (_ || _) in H; [done|]).
  - apply seq_ok in H as (file & w3 & Ho & H). rewrite <- D2 in *.
    assert (normal_absolute_path (abs_text (n ++ rel))) as Hp by (split; [done|by apply normal_abs_text]).
    assert (names (abs_text (n ++ rel)) = n ++ rel) as En by (by apply names_abs_text, safe_plain).
    destruct (open_stable_inv _ _ _ _ Q2 Hp Ho) as (j & v & t' & c' & El & Hc). rewrite En, E in El. injection El as <- <- <- <-.
    destruct (runs_open_stable w2 _ i u t c Q2 Hp) as (w4 & R4 & _); [by rewrite En|done|].
    rewrite R4 in Ho. injection Ho as <- <-. cbn [StableFile.identity_ stable_of StableFile.size_bytes] in H.
    destruct (N.ltb_spec (max_bytes - bytes p) (size c)); [done|]. rewrite Eb. split; [|lia].
    split; [done|]. exists i, u, (regular c), t. split; [done|]. right. by exists c.
  - rewrite Eb, N.add_0_r. split_and!; [done| |done..]. exists i, u, directory, t. split; [done|]. by left.
  - done.
Qed.

Lemma target_fold_inv rels : ∀ w p p' w', quiet w → tree_ok (disk w) → is_dir_at (disk w) n = true →
  Forall (fun rel => rel ∈ relatives (disk w) n) rels → bytes p <= max_bytes → files p + directories p <= max_entries →
  fold_eff (snapshot_entry (abs_text n) max_entries max_bytes) p (listed_tree (disk w) n rels) w = (Ok p', w') →
  Forall (fun rel => dotted rel = false ∧ plain_entry (disk w) n rel) rels ∧
  files p + directories p + N.of_nat (length rels) <= max_entries ∧
  bytes p + total (map (bytes_of (disk w) n) rels) <= max_bytes.
Proof.
  induction rels as [|rel rels IH]; intros w p p' w' Hq Hok Hd Hn Hb Hl H.
  { split; [done|]. cbn. lia. }
  apply Forall_cons in Hn as [Hin Hn]. pose proof Hin as [Hr Hs]%relatives_in.
  pose proof Hs as [[i x] E]%(lookup_entry _ _ (tree_inodes _ Hok)).
  assert (listed_tree (disk w) n (rel :: rels) = (abs_text (n ++ rel), node x) :: listed_tree (disk w) n rels) as Ht.
  { unfold listed_tree. cbn [omap list_omap]. by rewrite E. }
  rewrite Ht in H. cbn [fold_eff] in H. apply seq_ok in H as (p1 & w1 & R & H).
  destruct (target_entry_inv w rel (node x) p p1 w1) as ([Hdot Hp] & Hle & Hbe); [done..|].
  destruct (runs_target_entry w rel p Hq Hok Hd (tree_names _ Hok _ Hs) Hr Hdot Hp Hle Hbe (node x)) as (w1' & R' & D & Q & _).
  rewrite R' in R. injection R as <- <-. rewrite <- D in *. destruct (plain_entry_of _ _ Hp) as [ev Ev].
  assert (bytes (after (disk w1') n p [rel]) <= max_bytes ∧
    files (after (disk w1') n p [rel]) + directories (after (disk w1') n p [rel]) <= max_entries) as [Hb1 Hl1].
  { rewrite (after_one _ _ _ _ Ev). cbn [files directories bytes]. destruct (is_file _ _ _); lia. }
  apply IH in H as (H1 & H2 & H3); [|done..].
  rewrite (after_one _ _ _ _ Ev) in H2, H3. cbn [files directories bytes] in H2, H3.
  split; [by constructor|]. cbn [length map total fold_right]. fold (total (map (bytes_of (disk w1') n) rels)).
  destruct (is_file _ _ _); lia.
Qed.

(** ** The whole snapshot *)

(** The objects below the root are plain and fit the budgets. *)
Definition target_fits (d : fs) : Prop :=
  Forall (fun rel => dotted rel = false ∧ plain_entry d n rel) (relatives d n) ∧
  N.of_nat (length (relatives d n)) <= max_entries ∧ total (map (bytes_of d n) (relatives d n)) <= max_bytes.

Definition target_digest (d : fs) : string :=
  Sha256.sha256 (canonical (snapshot_value "directory" (sort_by entry_less (omap (entry_of d n) (relatives d n))))).

Definition target_state (d : fs) : TargetSnapshot :=
  mk_snapshot "directory" (N.of_nat (length (List.filter (is_file d n) (relatives d n))))
    (N.of_nat (length (List.filter (fun rel => negb (is_file d n rel)) (relatives d n))))
    (total (map (bytes_of d n) (relatives d n))) (target_digest d).

Hypothesis Hentries : 0 < max_entries.
Hypothesis Hbytes : 0 < max_bytes.

Lemma runs_target w : quiet w → tree_ok (disk w) → is_dir_at (disk w) n = true → target_fits (disk w) →
  runs w (snapshot_target (abs_text n) max_entries max_bytes) (target_state (disk w)) (disk w).
Proof.
  intros Hq Hok Hd (Hp & Hl & Hb). assert (Forall safe_name n) as Hs by (by apply (tree_names _ Hok), is_dir_entry).
  unfold snapshot_target. rewrite (proj2 (N.eqb_neq max_entries 0)), (proj2 (N.eqb_neq max_bytes 0)) by lia.
  change (is_empty (abs_text n)) with false. cbn [orb].
  assert (runs w (StableFile.absolute (abs_text n)) (abs_text n) (disk w)) as Ha by (by exists w).
  eapply runs_bind; [exact Ha|]. intros w1 Q1 D1 _. cbv beta zeta. rewrite normal_abs_text by done. rewrite <- D1 in *.
  pose proof Hd as (i & x & E & Hx)%is_dir_at_inv.
  eapply runs_bind; [by eapply runs_symlink_status|]. intros w2 Q2 D2 _. cbv beta. rewrite Hx. rewrite <- D2 in *.
  eapply runs_bind; [by apply runs_require_safe_directory; [| |apply safe_dir_tree]|].
  intros w3 Q3 D3 _. cbv beta. rewrite <- D3 in *.
  eapply runs_bind; [by apply runs_list_tree|]. intros w4 Q4 D4 _. cbv beta. rewrite <- D4 in *.
  eapply runs_bind; [apply runs_target_fold; try done|].
  { apply Forall_forall. intros rel H. rewrite Forall_forall in Hp. destruct (Hp rel H).
    apply relatives_in in H as [Hr H]. split_and!; try done. by apply (tree_names _ Hok). }
  intros w5 Q5 D5 _. cbv beta. rewrite <- D5 in *.
  eapply runs_bind; [by apply runs_lift; [|apply sha256_canonical_eq]|]. intros w6 Q6 D6 _. cbv beta. rewrite <- D6 in *.
  unfold after. cbn [files directories bytes collected app]. by apply runs_ret.
Qed.

(** Nothing else is taken. *)
Lemma target_inv w s w' : quiet w → tree_ok (disk w) → is_dir_at (disk w) n = true →
  snapshot_target (abs_text n) max_entries max_bytes w = (Ok s, w') → target_fits (disk w).
Proof.
  intros Hq Hok Hd H. assert (Forall safe_name n) as Hs by (by apply (tree_names _ Hok), is_dir_entry).
  unfold snapshot_target in H. rewrite (proj2 (N.eqb_neq max_entries 0)), (proj2 (N.eqb_neq max_bytes 0)) in H by lia.
  change (is_empty (abs_text n)) with false in H. cbn [orb] in H.
  apply seq_ok in H as (q & w1 & R & H). injection R as <- <-. cbv zeta in H. rewrite normal_abs_text in H by done.
  pose proof Hd as (i & x & E & Hx)%is_dir_at_inv.
  destruct (runs_symlink_status w n i x Hq Hok Hs E) as (w1 & R1 & D1 & Q1 & _).
  apply seq_ok in H as (st & w1' & R1' & H). rewrite R1 in R1'. injection R1' as <- <-. rewrite Hx in H. rewrite <- D1 in *.
  apply seq_ok in H as (u & w2' & R2' & H).
  destruct (runs_require_safe_directory w1 n Q1 Hs (safe_dir_tree _ _ Hok Hd)) as (w2 & R2 & D2 & Q2 & _).
  rewrite R2 in R2'. injection R2' as <- <-. rewrite <- D2 in *. apply seq_ok in H as (listing & w3' & R3' & H).
  destruct (runs_list_tree w2 n Q2 Hok Hd) as (w3 & R3 & D3 & Q3 & _). rewrite R3 in R3'. injection R3' as <- <-.
  rewrite <- D3 in *. apply seq_ok in H as (p & w4 & R4 & _).
  apply target_fold_inv in R4; [exact R4|done..|by apply Forall_forall|cbn; lia|cbn; lia].
Qed.

Lemma runs_target_absent w : quiet w → Forall safe_name n → entries (disk w) !! n = None → blocked (disk w) n = false →
  runs w (snapshot_target (abs_text n) max_entries max_bytes)
    (mk_snapshot "nonexistent" 0 0 0 (Sha256.sha256 (canonical (snapshot_value "nonexistent" [])))) (disk w).
Proof.
  intros Hq Hs Hn Hb. unfold snapshot_target. rewrite (proj2 (N.eqb_neq max_entries 0)), (proj2 (N.eqb_neq max_bytes 0)) by lia.
  change (is_empty (abs_text n)) with false. cbn [orb].
  assert (runs w (StableFile.absolute (abs_text n)) (abs_text n) (disk w)) as Ha by (by exists w).
  eapply runs_bind; [exact Ha|]. intros w1 Q1 D1 _. cbv beta zeta. rewrite normal_abs_text by done. rewrite <- D1 in *.
  pose proof (runs_observe w1 (fun d => if blocked d n then None
    else Some (option_map (fun x => node (snd x)) (lookup_inode d n))) Q1) as R. cbv beta in R. rewrite Hb in R.
  assert (lookup_inode (disk w1) n = None) as El by (unfold lookup_inode; by rewrite Hn). rewrite El in R.
  unfold symlink_status. rewrite names_abs_text by by apply safe_plain.
  eapply runs_bind; [exact R|]. intros w2 Q2 D2 _. cbv beta. cbn [option_map]. rewrite <- D2 in *.
  eapply runs_bind; [by apply runs_lift; [|apply sha256_canonical_eq]|]. intros w3 Q3 D3 _. cbv beta. rewrite <- D3 in *.
  by apply runs_ret.
Qed.
End Entry.

(** ** The digest determines the tree *)

#[global] Instance link_target_eq_dec : EqDecision link_target.
Proof. solve_decision. Defined.
#[global] Instance kind_eq_dec : EqDecision kind.
Proof. solve_decision. Defined.

(** What is at a name below a root: a file with its content, or a directory. *)
Definition object_at (d : fs) (n rel : name) : option kind :=
  option_map (fun x => node (snd x)) (lookup_inode d (n ++ rel)).

Definition plain_tree (d : fs) (n : name) : Prop := tree_ok d ∧ Forall (plain_entry d n) (relatives d n).

Lemma plain_relatives d n : plain_tree d n → Forall (fun rel => Forall plain_name rel) (relatives d n).
Proof.
  intros [Hok _]. apply Forall_forall. intros rel [_ H]%relatives_in. apply (tree_names d Hok) in H.
  apply safe_plain. by apply Forall_app in H as [_ ?].
Qed.

Lemma entry_in d n rel v : entry_of d n rel = Some v → rel ≠ [] → v ∈ omap (entry_of d n) (relatives d n).
Proof.
  intros Hv Hr. apply list_elem_of_omap. exists rel. split; [|done]. apply relatives_in. split; [done|].
  unfold entry_of in Hv. apply bind_Some in Hv as ([i x] & [E _]%lookup_inode_inv & _). by eexists.
Qed.

(** The same entries, under the same names. *)
Lemma entries_agree d n d' n' rel v : plain_tree d n → plain_tree d' n' →
  omap (entry_of d n) (relatives d n) ≡ₚ omap (entry_of d' n') (relatives d' n') →
  rel ∈ relatives d n → entry_of d n rel = Some v → entry_of d' n' rel = Some v.
Proof.
  intros Hp Hp' Hq Hin Hv. pose proof Hin as [Hr _]%relatives_in. pose proof (entry_in _ _ _ _ Hv Hr) as H.
  rewrite Hq in H. apply list_elem_of_omap in H as (rel' & Hin' & Hv').
  pose proof (entry_key_of _ _ _ _ Hv) as K. rewrite (entry_key_of _ _ _ _ Hv') in K.
  apply join_inj in K; [by subst|..].
  - pose proof (plain_relatives _ _ Hp') as F. rewrite Forall_forall in F. by apply F.
  - pose proof (plain_relatives _ _ Hp) as F. rewrite Forall_forall in F. by apply F.
Qed.

Lemma plain_object d n rel : plain_tree d n → rel ∈ relatives d n →
  ∃ v, entry_of d n rel = Some v ∧
    ((object_at d n rel = Some directory ∧ v = directory_entry_value (join_names rel)) ∨
     ∃ c, object_at d n rel = Some (regular c) ∧ v = file_entry_value (join_names rel) (Sha256.sha256 c) (size c)).
Proof.
  intros [_ Hp] Hin. rewrite Forall_forall in Hp. destruct (Hp rel Hin) as (i & v & k & t & E & Hk).
  unfold entry_of, object_at. rewrite E. destruct Hk as [->|(c & -> & _)]; eexists; (split; [reflexivity|]).
  - by left.
  - right. by exists c.
Qed.

Lemma file_entry_inj r s n r' s' n' : file_entry_value r s n = file_entry_value r' s' n' → s = s'.
Proof. intros H. injection H as _ H _. exact H. Qed.

Lemma object_agree d n d' n' rel : plain_tree d n → plain_tree d' n' →
  omap (entry_of d n) (relatives d n) ≡ₚ omap (entry_of d' n') (relatives d' n') →
  rel ∈ relatives d n → object_at d n rel = object_at d' n' rel ∨ AuditFacts.sha256_collision.
Proof.
  intros Hp Hp' Hq Hin. destruct (plain_object _ _ _ Hp Hin) as (v & Hv & Ho).
  pose proof (entries_agree _ _ _ _ _ _ Hp Hp' Hq Hin Hv) as Hv'.
  assert (rel ∈ relatives d' n') as Hin'.
  { pose proof Hin as [Hr _]%relatives_in. apply relatives_in. split; [done|].
    unfold entry_of in Hv'. apply bind_Some in Hv' as ([i x] & [E _]%lookup_inode_inv & _). by eexists. }
  destruct (plain_object _ _ _ Hp' Hin') as (v' & Hv'' & Ho'). rewrite Hv' in Hv''. injection Hv'' as <-.
  destruct Ho as [[-> Ev]|(c & -> & Ev)], Ho' as [[-> Ev']|(c' & -> & Ev')]; rewrite Ev in Ev'; try discriminate; [by left|].
  apply file_entry_inj in Ev'. destruct (decide (c = c')) as [->|Hne]; [by left|right]. by exists c, c'.
Qed.

Lemma digest_entries d n d' n' : target_digest n d = target_digest n' d' →
  omap (entry_of d n) (relatives d n) ≡ₚ omap (entry_of d' n') (relatives d' n') ∨ AuditFacts.sha256_collision.
Proof.
  unfold target_digest. intros H.
  set (v := snapshot_value "directory" _) in H at 1. set (v' := snapshot_value "directory" _) in H.
  destruct (decide (canonical v = canonical v')) as [E|E]; [|right; by exists (canonical v), (canonical v')].
  left. apply canonical_injective in E. unfold v, v' in E. injection E as E.
  rewrite <- (sort_by_perm entry_less (omap (entry_of d n) _)), E. apply sort_by_perm.
Qed.

(** The same objects below two roots. *)
Definition same_objects (d : fs) (n : name) (d' : fs) (n' : name) : Prop :=
  ∀ rel, rel ≠ [] → object_at d n rel = object_at d' n' rel.

Lemma tree_bound d n d' n' : plain_tree d n → plain_tree d' n' → target_digest n d = target_digest n' d' →
  same_objects d n d' n' ∨ AuditFacts.sha256_collision.
Proof.
  intros Hp Hp' [Hq|]%digest_entries; [|by right].
  destruct (decide (Exists (fun rel => object_at d n rel ≠ object_at d' n' rel) (relatives d n ++ relatives d' n'))) as [He|Hn].
  - right. apply Exists_exists in He as (rel & [Hin|Hin]%elem_of_app & Hne).
    + by destruct (object_agree d n d' n' rel).
    + destruct (object_agree d' n' d n rel Hp' Hp (Permutation_sym Hq) Hin) as [E|]; [|done]. by rewrite E in Hne.
  - left. intros rel Hr. destruct (decide (object_at d n rel = object_at d' n' rel)) as [|Hne]; [done|].
    exfalso. apply Hn, Exists_exists. exists rel. split; [|done]. rewrite elem_of_app, !relatives_in.
    rewrite <- !lookup_entry by apply tree_inodes, Hp || apply tree_inodes, Hp'. unfold object_at in Hne.
    destruct (lookup_inode d (n ++ rel)), (lookup_inode d' (n' ++ rel)); naive_solver.
Qed.

(** C29 On an undisturbed host a directory has a snapshot exactly when what is below it is
    plain, fits the budgets and has no name directly in the root that begins with two
    dots; it counts the files, directories and bytes and carries the SHA-256 of the sorted list of their
    names, kinds, sizes and digests.  The snapshot of a free name says so.  The digest determines the
    tree: two plain trees with the same digest hold the same names with the same
    contents, unless two texts have the same SHA-256. *)
Theorem target_snapshot_exact n max_entries max_bytes : 0 < max_entries → 0 < max_bytes →
  (∀ w, quiet w → tree_ok (disk w) → is_dir_at (disk w) n = true →
    (target_fits n max_entries max_bytes (disk w) →
      runs w (snapshot_target (abs_text n) max_entries max_bytes) (target_state n (disk w)) (disk w)) ∧
    ∀ s w', snapshot_target (abs_text n) max_entries max_bytes w = (Ok s, w') →
      target_fits n max_entries max_bytes (disk w)) ∧
  (∀ w, quiet w → Forall safe_name n → entries (disk w) !! n = None → blocked (disk w) n = false →
    runs w (snapshot_target (abs_text n) max_entries max_bytes)
      (mk_snapshot "nonexistent" 0 0 0 (Sha256.sha256 (canonical (snapshot_value "nonexistent" [])))) (disk w)) ∧
  (∀ d d' n', plain_tree d n → plain_tree d' n' → target_digest n d = target_digest n' d' →
    same_objects d n d' n' ∨ AuditFacts.sha256_collision).
Proof.
  intros He Hb. split_and!; intros; [split; [by apply runs_target|intros; by eapply target_inv]|by apply runs_target_absent|by apply tree_bound].
Qed.

End LiveEvidenceSnapshot.

(** A concrete packet, input, repository and target for the theorems on live evidence. *)

Module LiveEvidenceSample.
Import Json JsonFacts JsonParse Path PathFacts Effects World RecordIo RecordFacts SortFacts.
Import LiveEvidence LiveEvidenceFacts LiveEvidencePacket ReplacementSnapshot.

(** ** A packet *)

Definition sample_members : list (string * value) :=
  [("operator_verdict", object [("status", text "pending"); ("verdict", null_value)]); ("packet_id", text "p");
   ("schema", text packet_schema)].

Lemma sample_evidence : evidence "p" sample_members.
Proof. split; [|reflexivity..]. split; [by_sorted|]. split_and!; try done. split; [by_sorted|done]. Qed.

Lemma sample_admitted : admitted (sealed sample_members) = true.
Proof. vm_cast_no_check (eq_refl true). Qed.

Lemma sample_packet_accepted : validate_packet_identity (packet_for "p" sample_members) = Ok tt.
Proof.
  apply packet_accepted. split; [reflexivity|]. exists sample_members. split_and!; [apply sample_evidence|done|].
  apply sample_admitted.
Qed.

Lemma evidence_binding_witness :
  validate_packet_identity (packet_for "p" sample_members) = Ok tt ∧
  (packet_for "p" sample_members = packet_for "p" sample_members ∨ AuditFacts.sha256_collision).
Proof.
  split; [apply sample_packet_accepted|].
  apply (evidence_binding (packet_for "p" sample_members) (packet_for "p" sample_members));
    [apply sample_packet_accepted|apply sample_packet_accepted|reflexivity].
Defined.

Definition sample_sha : string := "aaaaaaaaaaaaaaaaaaaaaaaaaaaaaaaaaaaaaaaaaaaaaaaaaaaaaaaaaaaaaaaa".

Lemma operator_verdict_exact_witness :
  record_operator_verdict (packet_for "p" sample_members) "q" "2026-01-01T00:00:00Z" "Pass" "op" sample_sha =
  Ok (packet_for "q" (judged (payload_digest sample_members) "q" "2026-01-01T00:00:00Z" "Pass" "op" sample_sha sample_members)).
Proof.
  apply (operator_verdict_exact (packet_for "p" sample_members) "q" "2026-01-01T00:00:00Z" "Pass" "op" sample_sha).
  split; [|split; [apply sample_packet_accepted|]].
  - split; [reflexivity|]. split; [reflexivity|]. split; [split; vm_compute; reflexivity|]. split; [discriminate|by left].
  - exists sample_members. split_and!; [apply sample_evidence|reflexivity| |reflexivity].
    eexists. split_and!; reflexivity.
Defined.

(** ** An input *)

Definition sample_revision : string := "0123456789abcdef0123456789abcdef01234567".

Definition sample_input_with (effects : list string) : LiveEvidenceInput :=
  mk_input "p" "2026-01-01T00:00:00Z" [mk_revision "usk" sample_revision; mk_revision "app" sample_revision] 1 0 "r1"
    [mk_contract "evidence" "v1"] "src" sample_sha 10 sample_sha sample_sha "recipe" sample_sha "product" "1.0"
    "managed_portable" sample_sha sample_sha effects sample_sha "ext4" true true true true "plan" sample_sha "install_local"
    1 2 "committed" 1 2 sample_sha EmptyString EmptyString EmptyString EmptyString sample_sha sample_sha "not_required"
    EmptyString [mk_finding "c1" "info" "observed" sample_sha].

Definition sample_input : LiveEvidenceInput := sample_input_with ["target"; "state"].

Lemma sample_words effects : words (sample_input_with effects).
Proof. by repeat constructor. Qed.

Lemma sample_input_ok : input_ok sample_input.
Proof. apply (validated sample_input (ordered sample_input)). vm_compute. reflexivity. Qed.

Lemma pending_packet_exact_witness : ∃ p,
  build_pending_packet sample_input = Ok p ∧ build_pending_packet (sample_input_with ["state"; "target"]) = Ok p.
Proof.
  destruct (pending_packet_exact sample_input (sample_words _)) as [H1 H2].
  pose proof (proj2 H1 sample_input_ok) as H.
  destruct (build_pending_packet sample_input) as [p|e] eqn:E; [|discriminate H].
  exists p. split; [reflexivity|]. apply (H2 p eq_refl).
  exists (source_revisions sample_input), (contract_versions sample_input), ["state"; "target"], (automated_findings sample_input).
  split_and!; [reflexivity|done|done|apply Permutation_swap|done].
Defined.

(** ** A repository *)

Definition evidence_fs : fs :=
  mk_fs {[ [] := 1; ["r"] := 2; ["r"; "packets"] := 3 ]}
    {[ 1 := mk_inode 1 directory 0; 2 := mk_inode 1 directory 0; 3 := mk_inode 1 directory 0 ]}.

Lemma evidence_fs_ok : fs_ok evidence_fs.
Proof.
  intros n i H. simpl in *. repeat (apply lookup_insert_Some in H as [[<- <-]|[_ H]]; [by eexists|]).
  apply lookup_singleton_Some in H as [<- <-]. by eexists.
Qed.

Lemma evidence_fs_dir : safe_dir evidence_fs ["r"; "packets"].
Proof. by intros [|[|[|k]]]. Qed.

Lemma evidence_repository_exact_witness :
  ensures (quiet_world evidence_fs)
    (root ← evidence_repository "/r"; write_new root (packet_for "p" sample_members)) (fun _ d' =>
      adds_file evidence_fs d' "/r/packets/p.json" (fresh_inode evidence_fs) (canonical (sealed sample_members) +:+ newline) ∧
      ∀ w', quiet w' → disk w' = d' →
        outcome (size (canonical (sealed sample_members)) <? LiveEvidenceStore.maximum) (packet_for "p" sample_members)
          (fst (read_and_validate "/r" "p" w'))).
Proof.
  apply (LiveEvidenceStore.evidence_repository_exact ["r"]); [by repeat constructor|done|apply evidence_fs_ok|
    apply evidence_fs_dir|apply sample_packet_accepted|vm_compute; reflexivity].
Defined.

(** ** A target *)

Lemma target_snapshot_exact_witness :
  runs (quiet_world ReplacementSample.sample_disk) (snapshot_target "/p/live" 10 100)
    (LiveEvidenceSnapshot.target_state ["p"; "live"] ReplacementSample.sample_disk) ReplacementSample.sample_disk.
Proof.
  destruct (LiveEvidenceSnapshot.target_snapshot_exact ["p"; "live"] 10 100 eq_refl eq_refl) as [H _].
  destruct (H (quiet_world ReplacementSample.sample_disk) (quiet_world_quiet _) ReplacementSample.sample_tree) as [H' _];
    [vm_compute; reflexivity|]. apply H'. clear H H'. unfold LiveEvidenceSnapshot.target_fits.
  assert (relatives ReplacementSample.sample_disk ["p"; "live"] = [["app"]]) as E by (vm_compute; reflexivity).
  cbn [disk quiet_world]. rewrite E. split; [|split; vm_compute; discriminate].
  constructor; [|done]. split; [reflexivity|]. exists 4, 1, (regular "one"), 0. split; [vm_compute; reflexivity|]. right.
  exists "one". split; [done|vm_compute; reflexivity].
Defined.

End LiveEvidenceSample.
