(* ===== verification/PackageVerify.v ===== *)
(** Package verification: [runtime/setup/verify/usk_package_verify.cpp], the scanners of
    its metadata, the traversal of a package, the checks and the report. *)

From Stdlib Require Import Ascii String NArith ZArith Lia.
From stdpp Require Import base list strings gmap sets.
From S2P Require Import Prelude Effects Sha256 StdMap Path PathFacts World RecordIo TextFacts SessionHost.
From S2P Require Import Session Archive.

Module PackageVerify.
Import Path Effects World RecordIo.

(** ** Data *)

Definition max_manifest_bytes : N := 64 * 1024.
Definition max_metadata_bytes : N := 4 * 1024 * 1024.
Definition max_file_bytes : N := 2 * 1024 * 1024 * 1024.
Definition max_total_bytes : N := 16 * 1024 * 1024 * 1024.
Definition max_files : N := 10000.

Record Component := mk_component { sha256 : string; role : string; component_size : N }.

Record Report := mk_report {
  command : string;
  package_root : string;
  profile_id : string;
  target_os : string;
  target_arch : string;
  linkage_model : string;
  integrity : string;
  authenticity : string;
  compatibility : string;
  completeness : string;
  target_match : string;
  files_verified : N;
  problems : list string }.

(** ** Text *)

(** [std::isspace] in the "C" locale. *)
Definition is_space (c : ascii) : bool := in_range 9 13 c || (code c =? 32).

Fixpoint trim_left (s : string) : string :=
  match s with String c rest => if is_space c then trim_left rest else s | EmptyString => EmptyString end.

Fixpoint trim_right (s : string) : string :=
  match s with
  | EmptyString => EmptyString
  | String c rest =>
    let rest := trim_right rest in
    if is_space c && is_empty rest then EmptyString else String c rest
  end.

Definition trim (value : string) : string := trim_right (trim_left value).

(** [json_escape] and [quote] are those of the archive inspection. *)
Definition quote (value : string) : string := Archive.quote value.

(** [text.find(needle)]: what is before the first occurrence, and the text from it on. *)
Fixpoint split_at (needle text : string) : option (string * string) :=
  if String.prefix needle text then Some (EmptyString, text)
  else
    match text with
    | EmptyString => None
    | String c rest => '(before, found) ← split_at needle rest; Some (String c before, found)
    end.

(** The text after the first occurrence. *)
Definition after (needle text : string) : option string :=
  '(_, found) ← split_at needle text; Some (str_drop (String.length needle) found).

Definition marker (key : string) : string := String dquote (key +:+ String dquote EmptyString).

Definition unescape (c : ascii) : option ascii :=
  if Ascii.eqb c dquote then Some dquote
  else if Ascii.eqb c backslash then Some backslash
  else if Ascii.eqb c slash then Some slash
  else if code c =? 110 then Some (ascii_of_N 10)
  else if code c =? 114 then Some (ascii_of_N 13)
  else if code c =? 116 then Some (ascii_of_N 9)
  else None.

(** The loop after the opening quote; nothing when the string does not end well. *)
Fixpoint scan_string (text : string) : option string :=
  match text with
  | EmptyString => None
  | String c rest =>
    if Ascii.eqb c dquote then Some EmptyString
    else if negb (Ascii.eqb c backslash) then value ← scan_string rest; Some (String c value)
    else
      match rest with
      | EmptyString => None
      | String e rest => x ← unescape e; value ← scan_string rest; Some (String x value)
      end
  end.

Definition json_string (text key : string) : string :=
  default EmptyString (
    rest ← after (marker key) text;
    rest ← after ":" rest;
    rest ← after (String dquote EmptyString) rest;
    scan_string rest).

(** The digits at the front of a text: whether there is one, and their value, which
    wraps around at 64 bits. *)
Fixpoint scan_digits (text : string) (found : bool) (value : N) : bool * N :=
  match text with
  | String c rest =>
    if is_digit c then scan_digits rest true ((value * 10 + (code c - 48)) mod 2 ^ 64) else (found, value)
  | EmptyString => (found, value)
  end.

Definition json_integer (text key : string) : bool * N :=
  match rest ← after (marker key) text; after ":" rest with
  | None => (false, 0)
  | Some rest => scan_digits (trim_left rest) false 0
  end.

(** [std::getline] until it fails. *)
Fixpoint lines (text : string) : list string :=
  match text with
  | EmptyString => []
  | String c rest =>
    if code c =? 10 then EmptyString :: lines rest
    else match lines rest with [] => [String c EmptyString] | line :: more => String c line :: more end
  end.

Definition front_is (c : ascii) (s : string) : bool :=
  match s with String d _ => Ascii.eqb c d | EmptyString => false end.

Definition lower_hex (value : string) (n : N) : bool :=
  (size value =? n) && forall_bytes (fun ch => is_digit ch || is_lower_hex_alpha ch) value.

Definition valid_sha256 (value : string) : bool := lower_hex value 64.
Definition valid_revision (value : string) : bool := lower_hex value 40.

(** ** Metadata *)

Definition contained_relative (relative : path) : bool :=
  if is_empty relative || is_absolute relative then false
  else forallb (fun c => negb (String.eqb c ".." || String.eqb c "." || is_empty c)) (components relative).

Abbreviation table := (list (string * string)).

(** [substr(1, size() - 2)] of a quoted value. *)
Definition unquoted (value : string) : string :=
  if (2 <=? size value) && front_is dquote value && ends_with dquote value
  then str_take (String.length value - 2) (str_drop 1 value) else value.

Definition toml_scalar (values : table) (raw : string) : result table :=
  let line := trim raw in
  if is_empty line || front_is (ascii_of_N 35) line || front_is (ascii_of_N 91) line then Ok values
  else
    match split_at "=" line with
    | None => throw "malformed TOML scalar"
    | Some (before, from) =>
      let key := trim before in
      let value := unquoted (trim (str_drop 1 from)) in
      let '(values, inserted) := StdMap.emplace key value values in
      throw_if (is_empty key || is_empty value || negb inserted) ("duplicate or empty TOML scalar: " +:+ key);;
      Ok values
    end.

Definition parse_toml_scalars (text : string) : result table := fold_result toml_scalar [] (lines text).

Definition section_mark : string := String (ascii_of_N 10) "[".

Definition parse_toml_header (text : string) : result table :=
  parse_toml_scalars (match split_at section_mark text with None => text | Some (before, _) => before end).

Definition id_mark : string := lit "id = '".
Definition pin_mark : string := lit "pin = '".

(** One line: the pins so far and the identifier that waits for its pin. *)
Definition pin_line (st : table * string) (raw : string) : table * string :=
  let '(pins, id) := st in
  let line := trim raw in
  if String.prefix id_mark line && ends_with dquote line
  then (pins, str_take (String.length line - 7) (str_drop 6 line))
  else if String.prefix pin_mark line && ends_with dquote line && negb (is_empty id)
  then (fst (StdMap.emplace id (str_take (String.length line - 8) (str_drop 7 line)) (StdMap.erase id pins)), EmptyString)
  else (pins, id).

Definition parse_workspace_pins (text : string) : table := fst (fold_left pin_line (lines text) ([], EmptyString)).

Definition without_return (line : string) : string :=
  if ends_with (ascii_of_N 13) line then str_take (String.length line - 1) line else line.

Definition two_spaces (line : string) : bool := String.prefix "  " (str_drop 64 line).

Definition hash_line (hashes : table) (raw : string) : result table :=
  let line := without_return raw in
  throw_if ((size line <? 67) || negb (two_spaces line)) "malformed hashes.sha256 line";;
  let hash := str_take 64 line in
  let path := str_drop 66 line in
  let '(added, inserted) := StdMap.emplace path hash hashes in
  throw_if (negb (valid_sha256 hash) || negb (contained_relative path) || negb inserted)
    ("invalid or duplicate hashes.sha256 entry: " +:+ path);;
  throw_if (max_files <? N.of_nat (length added)) "hash entry count exceeds budget";;
  Ok added.

Definition parse_hashes (text : string) : result table :=
  hashes ← fold_result hash_line [] (lines text);
  throw_if (match hashes with [] => true | _ => false end) "hash manifest is empty";;
  Ok hashes.

(** The text from the last opening brace on. *)
Fixpoint from_last_brace (text : string) : option string :=
  match text with
  | EmptyString => None
  | String c rest =>
    match from_last_brace rest with
    | Some found => Some found
    | None => if code c =? 123 then Some text else None
    end
  end.

Definition component_roles : list string := ["runtime_required"; "compatibility_reference"].

Definition add_component (object : string) (components : list (string * Component)) : result (list (string * Component)) :=
  let destination := json_string object "destination" in
  let '(size_found, bytes) := json_integer object "size" in
  let component := mk_component (json_string object "sha256") (json_string object "runtime_role") bytes in
  let '(added, inserted) := StdMap.emplace destination component components in
  throw_if (negb (contained_relative destination) || negb (valid_sha256 (sha256 component)) || negb size_found ||
      negb (existsb (String.eqb (role component)) component_roles) || negb inserted)
    ("runtime_role is invalid or component metadata is malformed: " +:+ destination);;
  throw_if (max_files <? N.of_nat (length added)) "component count exceeds budget";;
  Ok added.

(** [before] is the text up to the position of the search, [rest] the text from it on. *)
Fixpoint components_loop (fuel : nat) (before rest : string) (components : list (string * Component))
    : result (list (string * Component)) :=
  match split_at (marker "destination") rest with
  | None => Ok components
  | Some (skipped, found) =>
    match fuel with
    | O => Throw out_of_fuel
    | S fuel =>
      match from_last_brace (before +:+ skipped), split_at "}" found with
      | Some head, Some (inside, tail) =>
        components ← add_component (head +:+ inside +:+ "}") components;
        components_loop fuel (before +:+ skipped +:+ inside +:+ "}") (str_drop 1 tail) components
      | _, _ => throw "malformed component object"
      end
    end
  end.

Definition parse_components (text : string) : result (list (string * Component)) :=
  throw_if (negb (String.eqb (json_string text "schema") "facman.package_components.v1")) "unsupported components schema";;
  components ← components_loop (String.length text) EmptyString text [];
  throw_if (match components with [] => true | _ => false end) "component manifest is empty";;
  Ok components.

(** ** The host *)

Section Host.
(** The name that a name through symbolic links stands for, as far as it exists
    ([fs::weakly_canonical]), and the steady clock in nanoseconds. *)
Context (resolve : fs → name → option name) (steady : nat → N).

Definition where_ (d : fs) (n : name) : option name := if StableFile.through_link d n then resolve d n else Some n.

(** [stat]: an error, nothing, or an object. *)
Definition stat (d : fs) (n : name) : option (option (N * inode)) :=
  m ← where_ d n;
  Some ('(i, x) ← lookup_inode d m; if StableFile.is_symlink x then None else Some (i, x)).

(** [lstat]: links before the last component are followed. *)
Definition lstat_entry (d : fs) (n : name) : option (N * inode) :=
  match rev n with
  | [] => lookup_inode d []
  | last :: _ => m ← where_ d (parent_name n); lookup_inode d (m ++ [last])
  end.

Definition is_regular_kind (k : kind) : bool := match k with regular _ => true | _ => false end.

(** [fs::is_directory(p)] and [fs::is_regular_file(p)] throw when the status is not known. *)
Definition status_test (test : kind → bool) (p : path) : io bool :=
  r ← observe (fun d => stat d (names p));
  match r with
  | None => fail "filesystem error: status"
  | Some found => ret (match found with Some (_, x) => test (node x) | None => false end)
  end.

Definition is_directory (p : path) : io bool := status_test is_directory_kind p.
Definition is_regular_file (p : path) : io bool := status_test is_regular_kind p.

(** [fs::exists(p, error)]: nothing for an error. *)
Definition exists_error (p : path) : io (option bool) :=
  observe (fun d => found ← stat d (names p); Some (bool_decide (is_Some found))).

(** [fs::file_size(p, error)]: nothing for an error. *)
Definition file_size (p : path) : io (option N) :=
  observe (fun d => found ← stat d (names p);
    match found with Some (_, mk_inode _ (regular content) _) => Some (size content) | _ => None end).

(** [std::ifstream input(p)]: the file and its size at that moment. *)
Definition open_input (p : path) : io (option (N * N)) :=
  observe (fun d => found ← stat d (names p);
    match found with Some (i, mk_inode _ (regular content) _) => Some (i, size content) | _ => None end).

Definition read_bounded (p : path) (limit : N) : io string :=
  bytes ← file_size p;
  if match bytes with None => true | Some n => limit <? n end
  then fail ("metadata is missing, unreadable, or over budget: " +:+ p)
  else
    input ← open_input p;
    match input with
    | None => fail ("metadata cannot be opened: " +:+ p)
    | Some (i, _) =>
      content ← read_content i;
      match content with Some text => ret text | None => fail "basic_filebuf::underflow error reading the file" end
    end.

(** [usk::base::sha256_hex_file]: pieces of 64 KiB until one is short. *)
Definition piece_bytes : N := 64 * 1024.

Fixpoint hash_loop (chunk : N) (fuel : nat) (p : path) (i : N) (offset : N) (hash : Sha256.Sha256) : io Sha256.Sha256 :=
  match fuel with
  | O => raise out_of_fuel
  | S fuel =>
    content ← read_content i;
    match content with
    | None => fail ("failed while hashing: " +:+ p)
    | Some text =>
      let piece := str_take (N.to_nat chunk) (str_drop (N.to_nat offset) text) in
      hash ← (if is_empty piece then ret hash else lift (Sha256.update hash piece));
      if size piece <? chunk then ret hash else hash_loop chunk fuel p i (offset + chunk) hash
    end
  end.

Definition sha256_hex_file (p : path) : io string :=
  input ← open_input p;
  match input with
  | None => fail ("cannot open file for SHA-256: " +:+ p)
  | Some (i, bytes) =>
    hash ← hash_loop piece_bytes (S (N.to_nat (bytes / piece_bytes))) p i 0 Sha256.initial;
    '(hex, _) ← lift (Sha256.finish hash);
    ret hex
  end.

Definition has_reparse_or_symlink (p : path) : io bool :=
  r ← observe (fun d => lstat_entry d (names p));
  ret (match r with Some (_, x) => StableFile.is_symlink x | None => false end).

Fixpoint crosses_loop (current : path) (rest : list string) : io bool :=
  match rest with
  | [] => ret false
  | component :: rest =>
    let current := current /+ component in
    there ← exists_error current;
    link ← (if default false there then has_reparse_or_symlink current else ret false);
    if link || match there with None => true | Some _ => false end then ret true else crosses_loop current rest
  end.

Definition crosses_link_or_reparse (p : path) : io bool := crosses_loop (root_text p) (relative_components p).

Fixpoint safe_loop (current relative : path) (rest : list string) : io (option string) :=
  match rest with
  | [] => ret None
  | component :: rest =>
    let current := current /+ component in
    link ← has_reparse_or_symlink current;
    if link : bool then ret (Some ("path crosses a link or reparse point: " +:+ generic_string relative))
    else safe_loop current relative rest
  end.

(** The problem of an unsafe path. *)
Definition safe_path (root relative : path) : io (option string) :=
  if negb (contained_relative relative)
  then ret (Some ("path is absolute or escapes package root: " +:+ generic_string relative))
  else safe_loop root relative (components relative).

(** [fs::relative(p, base, error)]: nothing for an error. *)
Definition relative_error (p base : path) : io (option path) :=
  observe (fun d => m ← where_ d (names p); b ← where_ d (names base);
    Some (lexically_relative (PathFacts.abs_text m) (PathFacts.abs_text b))).

(** ** The traversal *)

(** [iterator->is_regular_file(error)]: the kind the listing gave, unless it is a link. *)
Definition entry_is_regular (p : path) (k : kind) : io bool :=
  match k with
  | symlink _ =>
    r ← observe (fun d => stat d (names p));
    ret (match r with Some (Some (_, x)) => is_regular_kind (node x) | _ => false end)
  | _ => ret (is_regular_kind k)
  end.

Definition over_budget (bytes : option N) (total : N) : bool :=
  match bytes with None => true | Some n => (max_file_bytes <? n) || (max_total_bytes - n <? total) end.

Definition hashes_name : string := "manifest/hashes.sha256".

(** The message of the system that follows is left out. *)
Definition traversal_failed : string := "package traversal failed: ".

(** The files in order, and the problems. *)
Fixpoint package_entries (root : path) (listing : list (path * kind)) (files : list string) (total : N) (found : list string)
    : io (list string * list string) :=
  match listing with
  | [] => ret (files, found)
  | (p, k) :: listing =>
    relative ← relative_error p root;
    match relative with
    | None => ret (files, found ++ [traversal_failed])
    | Some relative =>
      let name := generic_string relative in
      link ← has_reparse_or_symlink p;
      if link : bool
      then package_entries root listing files total (found ++ ["package contains a link or reparse point: " +:+ name])
      else
        regular ← entry_is_regular p k;
        if negb regular then package_entries root listing files total found
        else
          bytes ← file_size p;
          let over := over_budget bytes total in
          let found := if over then found ++ ["file or total package size exceeds budget: " +:+ name] else found in
          let total := if over then total else total + default 0 bytes in
          let files := if String.eqb name hashes_name then files else fst (StdMap.set_insert name files) in
          if max_files <? N.of_nat (length files)
          then ret (files, found ++ ["package file count exceeds budget"] ++
            (match bytes with None => [traversal_failed] | Some _ => [] end))
          else package_entries root listing files total found
    end
  end.

(** The tree is listed in one step, so that the iterator fails at the start or not at
    all: a traversal that fails later keeps the files found so far in the code, and is
    a problem as well. *)
Definition package_files (root : path) : io (list string * list string) :=
  listing ← list_recursive root;
  match listing with
  | None => ret ([], [traversal_failed])
  | Some listing => package_entries root (map (fun e => (SessionHost.entry_path root (fst e), snd e)) listing) [] 0 []
  end.

(** ** The checks *)

(** A verdict with its problems. *)
Definition check : Type := bool * list string.
Definition passed : check := (true, []).
Definition refuse (problem : string) (c : check) : check := (false, snd c ++ [problem]).
Definition refuse_if (bad : bool) (problem : string) (c : check) : check := if bad then refuse problem c else c.

Definition verdict (c : check) : string := if fst c then "pass" else "fail".

Definition allowed_manifest_keys : list string :=
  ["schema"; "profile_id"; "lane"; "target_os"; "target_arch"; "package_type"; "entrypoint"; "linkage_model";
   "release_profile"; "package_manifest"; "workspace_lock"; "source_revision"; "proof_baseline_revision";
   "universal_launcher_revision"; "universal_setup_revision"; "artifact_level"; "signed"; "published"; "source_dirty";
   "python_runtime"; "bundles_factorio_binaries"].

Definition require_manifest_keys (manifest : table) : result unit :=
  match List.find (fun m => negb (existsb (String.eqb (fst m)) allowed_manifest_keys)) manifest with
  | Some m => throw ("unsupported package manifest field: " +:+ fst m)
  | None => Ok tt
  end.

Definition required (manifest : table) (key : string) : result string :=
  match StdMap.find key manifest with Some v => Ok v | None => throw ("package manifest is missing " +:+ key) end.

Definition is_at (t : table) (key value : string) : bool :=
  match StdMap.find key t with Some v => String.eqb v value | None => false end.

(** The identity that the manifest declares. *)
Record Declared := mk_declared {
  profile : string; os : string; arch : string; linkage : string; entrypoint : string; workspace_lock : string;
  release_profile : string; package_definition : string; signed : string }.

Definition read_declared (manifest : table) : result Declared :=
  schema ← required manifest "schema";
  throw_if (negb (String.eqb schema "facman.built_package.v1")) "unsupported package manifest schema";;
  profile ← required manifest "profile_id";
  os ← required manifest "target_os";
  arch ← required manifest "target_arch";
  linkage ← required manifest "linkage_model";
  entrypoint ← required manifest "entrypoint";
  lock ← required manifest "workspace_lock";
  release ← required manifest "release_profile";
  definition ← required manifest "package_manifest";
  signed ← required manifest "signed";
  Ok (mk_declared profile os arch linkage entrypoint lock release definition signed).

(** [!safe_path(root, relative, problem) || !fs::is_regular_file(root / relative)]: nothing when
    the file is there, else the problem, empty when the file is missing. *)
Definition unavailable (root relative p : path) : io (option string) :=
  problem ← safe_path root relative;
  match problem with
  | Some problem => ret (Some problem)
  | None => there ← is_regular_file p; ret (if there : bool then None else Some EmptyString)
  end.

Definition or_default (problem fallback : string) : string := if is_empty problem then fallback else problem.

Definition require_metadata (root p : path) : io unit :=
  relative ← relative_error p root;
  match relative with
  | None => fail "filesystem error: cannot get relative path"
  | Some relative =>
    bad ← unavailable root relative p;
    match bad with
    | Some problem => fail (or_default problem "required package metadata is missing")
    | None => ret tt
    end
  end.

Definition profile_matches (t : table) (d : Declared) : bool :=
  is_at t "id" (profile d) && is_at t "target_os" (os d) && is_at t "target_arch" (arch d).

Definition definition_matches (t : table) (d : Declared) : bool :=
  is_at t "platform" (os d) && (is_at t "architecture" (arch d) || is_at t "architecture" "configured_by_track") &&
  is_at t "linkage_model" (linkage d) && is_at t "entrypoint" (entrypoint d).

Definition declared_metadata (root : path) (c : check) (metadata : path) : io check :=
  bad ← unavailable root metadata (root /+ metadata);
  ret (match bad with
    | Some problem =>
      refuse (or_default problem ("declared compatibility metadata is missing: " +:+ generic_string metadata)) c
    | None => c
    end).

Definition check_profiles (root : path) (d : Declared) (c : check) : io check :=
  c ← fold_eff (declared_metadata root) c [release_profile d; package_definition d];
  if fst (c : check) then
    text ← read_bounded (root /+ release_profile d) max_manifest_bytes;
    profile ← lift (parse_toml_header text);
    text ← read_bounded (root /+ package_definition d) max_manifest_bytes;
    definition ← lift (parse_toml_header text);
    ret (refuse_if (negb (profile_matches profile d) || negb (definition_matches definition d))
      "unknown built package profile or profile metadata mismatch" c)
  else ret c.

Definition check_component (hashes : table) (c : check) (entry : string * Component) : check :=
  refuse_if (negb (is_at hashes (fst entry) (sha256 (snd entry))))
    ("component metadata disagrees with hashes: " +:+ fst entry) c.

Definition check_pin (pins : table) (c : check) (expected : string * string) : check :=
  refuse_if (negb (is_at pins (fst expected) (snd expected)) || negb (valid_revision (snd expected)))
    ("source revisions disagree with workspace lock: " +:+ fst expected) c.

Definition check_lock (root : path) (manifest : table) (d : Declared) (c : check) : io check :=
  bad ← unavailable root (workspace_lock d) (root /+ workspace_lock d);
  match bad with
  | Some problem => ret (refuse (or_default problem "workspace lock is missing") c)
  | None =>
    text ← read_bounded (root /+ workspace_lock d) max_manifest_bytes;
    let pins := parse_workspace_pins text in
    binding ← lift (required manifest "proof_baseline_revision");
    launcher ← lift (required manifest "universal_launcher_revision");
    setup ← lift (required manifest "universal_setup_revision");
    ret (fold_left (check_pin pins)
      [("factorio_binding", binding); ("universal_launcher", launcher); ("universal_setup", setup)] c)
  end.

Definition check_compatibility (root : path) (manifest : table) (d : Declared) (components : list (string * Component))
    (hashes : table) : io check :=
  c ← check_profiles root d passed;
  check_lock root manifest d (fold_left (check_component hashes) components c).

Definition check_completeness (files : list string) (hashes : table) (entrypoint : string) (traversal_ok : bool) : check :=
  let c := refuse_if (negb ((N.of_nat (length files) =? N.of_nat (length hashes)) && traversal_ok))
    "package file closure differs from hashes.sha256" passed in
  let c := refuse_if (negb (StdMap.contains_key entrypoint hashes)) "entrypoint is not covered by hashes.sha256" c in
  fold_left (fun c file => refuse_if (negb (StdMap.contains_key file hashes)) ("unhashed package file: " +:+ file) c) files c.

Definition steady_now : io N := step;; w ← get; ret (steady (steps w)).

Definition size_differs (components : list (string * Component)) (relative : string) (bytes : option N) : bool :=
  match StdMap.find relative components, bytes with
  | Some component, Some n => negb (component_size component =? n)
  | _, _ => false
  end.

(** One hashed file: the verdict and the number of files verified so far. *)
Definition verify_file (root : path) (components : list (string * Component)) (st : check * N) (entry : string * string)
    : io (check * N) :=
  let '(c, verified) := st in
  let '(relative, expected) := entry in
  bad ← unavailable root relative (root /+ relative);
  match bad with
  | Some problem => ret (refuse (or_default problem ("missing or unsafe hashed file: " +:+ relative)) c, verified)
  | None =>
    bytes ← file_size (root /+ relative);
    let c := refuse_if (size_differs components relative bytes) ("component size mismatch: " +:+ relative) c in
    digest ← sha256_hex_file (root /+ relative);
    ret (if String.eqb digest expected then (c, verified + 1) else (refuse ("SHA-256 mismatch: " +:+ relative) c, verified))
  end.

Fixpoint verify_files (root : path) (components : list (string * Component)) (deadline : N) (hashes : table) (st : check * N)
    : io (check * N) :=
  match hashes with
  | [] => ret st
  | entry :: hashes =>
    now ← steady_now;
    if deadline <? now then ret (refuse "package verification exceeded the 30 second time budget" (fst st), snd st)
    else st ← verify_file root components st entry; verify_files root components deadline hashes st
  end.

Definition check_integrity (root : path) (components : list (string * Component)) (hashes : table) : io (check * N) :=
  now ← steady_now;
  verify_files root components (now + 30 * 1000000000) hashes (passed, 0).

(** ** The report *)

(** Whether the request names a target, and whether the package is for it. *)
Definition match_target (expected_os expected_arch expected_linkage : string) (d : Declared) : string * list string :=
  if negb (is_empty expected_os) || negb (is_empty expected_arch) || negb (is_empty expected_linkage) then
    if (is_empty expected_os || String.eqb expected_os (os d)) &&
       (is_empty expected_arch || String.eqb expected_arch (arch d)) &&
       (is_empty expected_linkage || String.eqb expected_linkage (linkage d))
    then ("pass", [])
    else ("fail", ["target, linkage, or entrypoint identity does not match the request"])
  else ("not_requested", []).

Definition signature_problems (d : Declared) : list string :=
  if String.eqb (signed d) "false" then [] else ["package declares signing but no trusted signature proof is available"].

Definition locate_root (package_root : string) : io path :=
  p ← StableFile.absolute package_root;
  let root := lexically_normal p in
  there ← is_directory root;
  bad ← (if negb there then ret true else crosses_link_or_reparse root);
  if bad : bool then fail "package root is missing, unreadable, or linked" else ret root.

(** [verify_package] up to the rendering of its report. *)
Definition examine_package (request : string) (audit : bool) : io Report :=
  lift (throw_if (negb (String.eqb (json_string request "schema") "usk.package_verify_request.v1"))
    "unsupported or missing package verification request schema");;
  let expected_os := json_string request "expected_target_os" in
  let expected_arch := json_string request "expected_target_arch" in
  let expected_linkage := json_string request "expected_linkage_model" in
  lift (throw_if (is_empty (json_string request "package_root")) "package_root is required");;
  root ← locate_root (json_string request "package_root");
  let manifest_path := root /+ "manifest" /+ "package.v1.toml" in
  let component_path := root /+ "manifest" /+ "components.v1.json" in
  let hashes_path := root /+ "manifest" /+ "hashes.sha256" in
  for_each [manifest_path; component_path; hashes_path] (require_metadata root);;
  text ← read_bounded manifest_path max_manifest_bytes;
  manifest ← lift (parse_toml_scalars text);
  lift (require_manifest_keys manifest);;
  declared ← lift (read_declared manifest);
  text ← read_bounded component_path max_metadata_bytes;
  components ← lift (parse_components text);
  text ← read_bounded hashes_path max_metadata_bytes;
  hashes ← lift (parse_hashes text);
  '(files, traversal) ← package_files root;
  compatible ← check_compatibility root manifest declared components hashes;
  let complete := check_completeness files hashes (entrypoint declared) (match traversal with [] => true | _ => false end) in
  '(intact, verified) ← check_integrity root components hashes;
  let '(matched, mismatch) := match_target expected_os expected_arch expected_linkage declared in
  ret (mk_report (if audit then "package.audit" else "package.verify") root (profile declared) (os declared) (arch declared)
    (linkage declared) (verdict intact)
    (if String.eqb (signed declared) "false" then "not_proven_unsigned" else "not_proven_declared_signed")
    (verdict compatible) (verdict complete) matched verified
    (traversal ++ snd compatible ++ snd complete ++ snd intact ++ mismatch ++ signature_problems declared)).

Definition required_pass (r : Report) : bool :=
  String.eqb (integrity r) "pass" && String.eqb (compatibility r) "pass" && String.eqb (completeness r) "pass" &&
  (String.eqb (target_match r) "pass" || String.eqb (target_match r) "not_requested").

Definition report_status (r : Report) : string :=
  if negb (required_pass r) then "fail" else if String.eqb (authenticity r) "verified" then "pass" else "warn".

Definition text_member (key value : string) : string := Archive.member key (quote value).

Definition report_json (r : Report) : string := Archive.braces
  [text_member "schema" "usk.command_response.v1"; text_member "status" "ok";
   Archive.member "payload" (Archive.braces
     [text_member "schema" "usk.package_verify_report.v1"; text_member "command" (command r);
      text_member "status" (report_status r); text_member "package_root" (package_root r);
      text_member "profile_id" (profile_id r); text_member "target_os" (target_os r);
      text_member "target_arch" (target_arch r); text_member "linkage_model" (linkage_model r);
      text_member "integrity" (integrity r); text_member "authenticity" (authenticity r);
      text_member "compatibility" (compatibility r); text_member "completeness" (completeness r);
      text_member "target_match" (target_match r); Archive.member "files_verified" (to_string (files_verified r));
      Archive.member "problems" ("[" +:+ Archive.commas (map quote (problems r)) +:+ "]")]);
   Archive.member "error" "null"].

Definition refused_json (command problem : string) : string := Archive.braces
  [text_member "schema" "usk.command_response.v1"; text_member "status" "refused";
   Archive.member "payload" (Archive.braces
     [text_member "schema" "usk.package_verify_report.v1"; text_member "command" command;
      text_member "status" "refused"; text_member "package_root" EmptyString;
      text_member "profile_id" EmptyString; text_member "target_os" EmptyString;
      text_member "target_arch" EmptyString; text_member "linkage_model" EmptyString;
      text_member "integrity" "not_checked"; text_member "authenticity" "not_checked";
      text_member "compatibility" "not_checked"; text_member "completeness" "not_checked";
      text_member "target_match" "not_requested"; Archive.member "files_verified" "0";
      Archive.member "problems" ("[" +:+ quote problem +:+ "]")]);
   Archive.member "error" (Archive.braces
     [text_member "code" "package_verification_refused"; text_member "message" problem])].

Definition verify_package (request : string) (audit : bool) : io string :=
  report ← examine_package request audit; ret (report_json report).

(** The body of the handler; no request stands for a null pointer. *)
Definition verify_request (request : option string) (audit : bool) : io string :=
  match request with
  | Some request =>
    if (size request =? 0) || (max_metadata_bytes <? size request)
    then fail "bounded package verification request is required" else verify_package request audit
  | None => fail "bounded package verification request is required"
  end.

(** The response and whether the status is [USK_STATUS_OK]. *)
Definition usk_package_verify_command_json (request : option string) (audit : bool) : io (string * bool) := fun w =>
  match verify_request request audit w with
  | (Ok response, w) => (Ok (response, true), w)
  | (Throw e, w) =>
    if catchable e
    then (Ok (refused_json (if audit then "package.audit" else "package.verify") (Archive.what e), false), w)
    else (Throw e, w)
  end.
End Host.
End PackageVerify.
