(* ===== verification/PackageHost.v ===== *)
(** Package verification on an undisturbed host: what each observation of a package
    finds, and that the verification always answers and changes nothing. *)

From Stdlib Require Import Ascii String NArith ZArith Lia.
From stdpp Require Import base list strings gmap sets.
From S2P Require Import Prelude Sha256 StdMap Path PathFacts Effects World RecordIo RecordFacts DirectoryFacts TreeFacts.
From S2P Require Import SessionHost ReplacementSnapshot StreamFacts Archive PackageVerify.

Module PackageHost.
Import Path PathFacts Effects World RecordFacts DirectoryFacts TreeFacts ReplacementSnapshot PackageVerify.

(** ** Observing a file system that does not change *)

(** Run on an undisturbed host with this working directory and file system, [m] leaves
    them as they are, returns a result in [Q] or throws an exception that a handler sees. *)
Definition finds {A} (cur : path) (d : fs) (m : io A) (Q : A → Prop) : Prop := ∀ w, quiet w → disk w = d → cwd w = cur →
  (quiet (snd (m w)) ∧ disk (snd (m w)) = d ∧ cwd (snd (m w)) = cur ∧ trace (snd (m w)) = trace w) ∧
  match fst (m w) with Ok a => Q a | Throw e => catchable e = true end.

Section Finds.
Context (cur : path) (d : fs).

Lemma finds_ret {A} (a : A) (Q : A → Prop) : Q a → finds cur d (ret a) Q.
Proof. by intros H w Hq Hd Hc. Qed.

Lemma finds_fail {A} what (Q : A → Prop) : finds cur d (fail what) Q.
Proof. by intros w Hq Hd Hc. Qed.

Lemma finds_lift {A} (r : result A) (Q : A → Prop) :
  (∀ a, r = Ok a → Q a) → (∀ e, r = Throw e → catchable e = true) → finds cur d (lift r) Q.
Proof. intros H1 H2 w Hq Hd Hc. split; [done|]. cbn. destruct r; auto. Qed.

Lemma finds_throw_if c what (Q : unit → Prop) : (c = false → Q tt) → finds cur d (lift (throw_if c what)) Q.
Proof. intros H. by destruct c; [apply finds_fail|apply finds_ret, H]. Qed.

Lemma finds_observe {A} (f : fs → option A) (Q : option A → Prop) : Q (f d) → finds cur d (observe f) Q.
Proof. intros H w Hq Hd Hc. rewrite observe_quiet, Hd by done. destruct Hq as (Hi & Hr). split; [|done]. cbn. by rewrite Hi. Qed.

Lemma finds_bind {A B} (m : io A) (f : A → io B) P Q :
  finds cur d m P → (∀ a, P a → finds cur d (f a) Q) → finds cur d (m ≫= f) Q.
Proof.
  intros Hm Hf w Hq Hd Hc. specialize (Hm w Hq Hd Hc). unfold mbind, M_bind.
  destruct (m w) as [[a|e] w1]; cbn [fst snd] in Hm; destruct Hm as [(Q1 & D1 & C1 & T1) H1]; [|done].
  specialize (Hf a H1 w1 Q1 D1 C1). destruct (f a w1) as [r w2]. cbn [fst snd] in *. by rewrite <- T1.
Qed.

Lemma finds_impl {A} (m : io A) (P Q : A → Prop) : finds cur d m P → (∀ a, P a → Q a) → finds cur d m Q.
Proof.
  intros Hm H w Hq Hd Hc. destruct (Hm w Hq Hd Hc) as [H1 H2]. split; [done|]. destruct (fst (m w)); auto.
Qed.

Lemma finds_step (Q : bool → Prop) : Q false → finds cur d step Q.
Proof.
  intros H w Hq <- <-. destruct (quiet_tick w Hq) as (Q1 & D1 & _). destruct Hq as (_ & Hd & Hf).
  unfold step. by rewrite Hd, Hf.
Qed.

Lemma finds_get (Q : world → Prop) : (∀ w, cwd w = cur → Q w) → finds cur d get Q.
Proof. intros H w Hq Hd Hc. split; [done|by apply H]. Qed.

Lemma finds_otherwise {A} (m h : io A) Q : finds cur d m Q → finds cur d h Q → finds cur d (otherwise m h) Q.
Proof.
  intros Hm Hh w Hq Hd Hc. specialize (Hm w Hq Hd Hc). unfold otherwise.
  destruct (m w) as [[a|e] w1]; cbn [fst snd] in Hm; destruct Hm as [(Q1 & D1 & C1 & T1) H1]; [done|].
  rewrite H1, <- T1. by apply Hh.
Qed.

Lemma finds_fold {A B} (f : B → A → io B) (I : B → Prop) l : ∀ b, I b →
  (∀ b x, I b → x ∈ l → finds cur d (f b x) I) → finds cur d (fold_eff f b l) I.
Proof.
  induction l as [|x l IH]; intros b Hb Hf; cbn [fold_eff]; [by apply finds_ret|].
  eapply finds_bind; [apply Hf; [done|left]|]. intros b' Hb'. apply IH; [done|]. intros. apply Hf; [done|by right].
Qed.

Lemma finds_for_each {A} (l : list A) (body : A → io unit) :
  (∀ x, x ∈ l → finds cur d (body x) (fun _ => True)) → finds cur d (for_each l body) (fun _ => True).
Proof.
  induction l as [|x l IH]; intros H; cbn [for_each]; [by apply finds_ret|].
  eapply finds_bind; [apply H; left|]. intros _ _. apply IH. intros. apply H. by right.
Qed.
End Finds.

(** ** Names and links *)

Definition link_at (d : fs) (n : name) : bool :=
  match lookup_inode d n with Some (_, x) => StableFile.is_symlink x | None => false end.

Lemma through_snoc d n x : StableFile.through_link d (n ++ [x]) = StableFile.through_link d n || link_at d (n ++ [x]).
Proof.
  unfold StableFile.through_link. rewrite length_app, Nat.add_1_r, seq_S, existsb_app. cbn [existsb].
  rewrite orb_false_r. f_equal.
  - assert (∀ l, (∀ k, In k l → (k <= length n)%nat) →
      existsb (fun k => match lookup_inode d (take k (n ++ [x])) with Some (_, y) => StableFile.is_symlink y | None => false end) l =
      existsb (fun k => match lookup_inode d (take k n) with Some (_, y) => StableFile.is_symlink y | None => false end) l) as H.
    { induction l as [|k l IH]; intros Hl; [done|]. cbn [existsb]. rewrite IH by (intros; apply Hl; by right).
      rewrite take_app_le by (apply Hl; by left). done. }
    apply H. intros k Hk%in_seq. lia.
  - rewrite take_ge by (rewrite length_app; simpl; lia). done.
Qed.

Lemma through_app d n rel : StableFile.through_link d n = false →
  (∀ a b, rel = a ++ b → a ≠ [] → link_at d (n ++ a) = false) → StableFile.through_link d (n ++ rel) = false.
Proof.
  intros Hn. induction rel as [|x rel IH] using rev_ind; intros H; [by rewrite app_nil_r|].
  rewrite app_assoc, through_snoc, IH.
  - rewrite <- app_assoc. by apply (H (rel ++ [x]) []); [rewrite app_nil_r|destruct rel].
  - intros a b -> Ha. apply (H a (b ++ [x])); [by rewrite app_assoc|done].
Qed.

(** What [fs::weakly_canonical] and the kernel guarantee: in a well-formed file system an
    object can be reached only if everything before it can. *)
Class LinkResolution (resolve : fs → name → option name) : Prop :=
  resolve_prefix d n k x : tree_ok d → stat resolve d n = Some (Some x) → ∃ y, stat resolve d (take k n) = Some (Some y).

Section Links.
Context (resolve : fs → name → option name) (cur : path) (d : fs).

Lemma where_clear n : StableFile.through_link d n = false → where_ resolve d n = Some n.
Proof. intros H. unfold where_. by rewrite H. Qed.

Lemma stat_clear n : StableFile.through_link d n = false →
  stat resolve d n = Some ('(i, x) ← lookup_inode d n; if StableFile.is_symlink x then None else Some (i, x)).
Proof. intros H. unfold stat. by rewrite where_clear. Qed.

Lemma stat_found n i x : StableFile.through_link d n = false → stat resolve d n = Some (Some (i, x)) → lookup_inode d n = Some (i, x).
Proof.
  intros H E. rewrite stat_clear in E by done. injection E as E. destruct (lookup_inode d n) as [[j y]|]; [|done].
  cbn in E. destruct (StableFile.is_symlink y); [done|]. by injection E as -> ->.
Qed.

Lemma stat_not_link n i x : stat resolve d n = Some (Some (i, x)) → StableFile.is_symlink x = false.
Proof.
  unfold stat. intros (m & _ & E)%bind_Some. injection E as E. apply bind_Some in E as ([j y] & _ & E).
  destruct (StableFile.is_symlink y) eqn:Ey; [done|]. by injection E as _ <-.
Qed.

Lemma lstat_clear n x : StableFile.through_link d n = false → lstat_entry resolve d (n ++ [x]) = lookup_inode d (n ++ [x]).
Proof.
  intros H. unfold lstat_entry. rewrite rev_app_distr. cbn [rev app]. unfold parent_name.
  rewrite removelast_last, where_clear by done. done.
Qed.

Lemma finds_link p n x : StableFile.through_link d n = false → names p = n ++ [x] →
  finds cur d (has_reparse_or_symlink resolve p) (fun b => b = link_at d (n ++ [x])).
Proof.
  intros H E. eapply finds_bind; [apply (finds_observe cur d _ (fun r => r = lookup_inode d (n ++ [x])))|].
  - by rewrite E, lstat_clear.
  - intros r ->. by apply finds_ret.
Qed.

Lemma finds_link_any p : finds cur d (has_reparse_or_symlink resolve p) (fun _ => True).
Proof. eapply finds_bind; [by apply (finds_observe cur d _ (fun _ => True))|]. intros. by apply finds_ret. Qed.

(** A component of a path: a name, or the empty one at its end. *)
Definition part (c : string) : Prop := c = EmptyString ∨ plain_name c.

Lemma part_names c : part c → is_absolute c = false ∧ (names c = [] ∨ names c = [c]).
Proof. intros [->|H]; [by split; [|left]|]. split; [by apply plain_not_absolute|right; by apply names_of_plain]. Qed.

Lemma finds_crosses rest : ∀ current, StableFile.through_link d (names current) = false → Forall part rest →
  (∀ k, ∃ y, stat resolve d (take k (names current ++ concat (map names rest))) = Some (Some y)) →
  finds cur d (crosses_loop resolve current rest) (fun b => b = false →
    StableFile.through_link d (names current ++ concat (map names rest)) = false).
Proof.
  induction rest as [|c rest IH]; intros current Hc Hr Hk; cbn [crosses_loop map concat].
  { apply finds_ret. by rewrite app_nil_r. }
  apply Forall_cons in Hr as [Hp Hr]. destruct (part_names c Hp) as [Ha Hn].
  assert (names (current /+ c) = names current ++ names c) as En by by apply names_append.
  eapply finds_bind; [apply (finds_observe cur d _ (fun r => r = Some true))|].
  { destruct (Hk (length (names (current /+ c)))) as [y Hy]. cbn [map concat] in Hy.
    rewrite app_assoc, <- En, take_app_length in Hy. by rewrite Hy. }
  intros there ->. cbn [default]. unfold id.
  eapply (finds_bind cur d _ _ (fun b => b = false → StableFile.through_link d (names (current /+ c)) = false)).
  { destruct Hn as [Hn|Hn].
    - eapply finds_impl; [apply finds_link_any|]. intros b _ _. by rewrite En, Hn, app_nil_r.
    - eapply finds_impl; [apply (finds_link _ (names current) c); [done|by rewrite En, Hn]|].
      intros b -> Hl. by rewrite En, Hn, through_snoc, Hc, Hl. }
  intros link Hlink. rewrite orb_false_r. destruct link; [by apply finds_ret|]. specialize (Hlink eq_refl).
  rewrite app_assoc, <- En. apply IH; [done|done|]. intros k. rewrite En, <- app_assoc. apply Hk.
Qed.

Lemma finds_safe_loop relative rest : ∀ current, StableFile.through_link d (names current) = false →
  Forall plain_name rest → finds cur d (safe_loop resolve current relative rest) (fun r => r = None →
    StableFile.through_link d (names current ++ rest) = false).
Proof.
  induction rest as [|c rest IH]; intros current Hc Hr; cbn [safe_loop].
  { apply finds_ret. by rewrite app_nil_r. }
  apply Forall_cons in Hr as [Hp Hr].
  assert (names (current /+ c) = names current ++ [c]) as En.
  { rewrite (names_append current c) by (by apply plain_not_absolute). by rewrite (names_of_plain c Hp). }
  eapply finds_bind; [by apply (finds_link _ (names current) c)|]. intros b ->. cbv beta.
  destruct (link_at d (names current ++ [c])) eqn:El; [by apply finds_ret|].
  eapply finds_impl; [apply IH; [by rewrite En, through_snoc, Hc, El|done]|].
  intros r H Hn. specialize (H Hn). rewrite En, <- app_assoc in H. exact H.
Qed.
End Links.

(** ** Reading *)

Section Reading.
Context (resolve : fs → name → option name) (cur : path) (d : fs).

(** The file that a path leads to. *)
Definition leads (p : path) (content : string) : Prop :=
  ∃ i v t, stat resolve d (names p) = Some (Some (i, mk_inode v (regular content) t)) ∧
    inodes d !! i = Some (mk_inode v (regular content) t).

Lemma stat_inode n i x : stat resolve d n = Some (Some (i, x)) → inodes d !! i = Some x.
Proof.
  unfold stat. intros (m & _ & E)%bind_Some. injection E as E. apply bind_Some in E as ([j y] & [_ H]%lookup_inode_inv & E).
  destruct (StableFile.is_symlink y); [done|]. by injection E as -> ->.
Qed.

Lemma leads_clear p content : StableFile.through_link d (names p) = false → leads p content →
  ∃ i v t, lookup_inode d (names p) = Some (i, mk_inode v (regular content) t).
Proof. intros H (i & v & t & E & _). exists i, v, t. by apply (stat_found resolve). Qed.

Lemma finds_status test p : finds cur d (status_test resolve test p) (fun b =>
  ∃ r, stat resolve d (names p) = Some r ∧ b = match r with Some (_, x) => test (node x) | None => false end).
Proof.
  eapply finds_bind; [by apply (finds_observe cur d _ (fun r => r = stat resolve d (names p)))|].
  intros r ->. destruct (stat resolve d (names p)) as [r|]; [|apply finds_fail]. apply finds_ret. eauto.
Qed.

Lemma finds_size p : finds cur d (file_size resolve p) (fun r => ∀ content, leads p content → r = Some (size content)).
Proof. apply finds_observe. intros content (i & v & t & E & _). by rewrite E. Qed.

Lemma finds_open p : finds cur d (open_input resolve p) (fun r =>
  ∀ i n, r = Some (i, n) → ∃ v t content, inodes d !! i = Some (mk_inode v (regular content) t) ∧ n = size content ∧ leads p content).
Proof.
  apply finds_observe. intros i n H. apply bind_Some in H as (r & Hr & H).
  destruct r as [[j [v [c| | |] t]]|]; try done. injection H as -> <-. pose proof (stat_inode _ _ _ Hr) as Hi.
  exists v, t, c. split_and!; [done..|]. by exists i, v, t.
Qed.

Lemma finds_content i v t content : inodes d !! i = Some (mk_inode v (regular content) t) →
  finds cur d (read_content i) (fun r => r = Some content).
Proof. intros H. apply finds_observe. by rewrite H. Qed.

Lemma finds_read p limit : finds cur d (read_bounded resolve p limit) (fun text => leads p text).
Proof.
  eapply finds_bind; [apply finds_size|]. intros r Hr. destruct (match r with None => true | Some n => limit <? n end); [apply finds_fail|].
  eapply finds_bind; [apply finds_open|]. intros [[i n]|] H; [|apply finds_fail].
  destruct (H i n eq_refl) as (v & t & content & Hi & _ & Hl).
  eapply finds_bind; [by eapply finds_content|]. intros r' ->. by apply finds_ret.
Qed.

Lemma finds_hash chunk p i v t content fuel : 0 < chunk → inodes d !! i = Some (mk_inode v (regular content) t) →
  ∀ offset h, offset <= size content → size content - offset < chunk * N.of_nat fuel →
  Sha256.fed h (str_take (N.to_nat offset) content) →
  finds cur d (hash_loop chunk fuel p i offset h) (fun h' => Sha256.fed h' content).
Proof.
  intros Hc Hi. induction fuel as [|fuel IH]; intros offset h Ho Hs Hf; [lia|]. cbn [hash_loop].
  eapply finds_bind; [by eapply finds_content|]. intros r ->. cbv beta iota zeta.
  set (piece := str_take (N.to_nat chunk) (str_drop (N.to_nat offset) content)).
  assert (Sha256.fed h (str_take (N.to_nat offset) content) → ∃ h1, (if is_empty piece then Ok h else Sha256.update h piece) = Ok h1 ∧
    Sha256.fed h1 (str_take (N.to_nat (offset + chunk)) content)) as Hu.
  { intros _. rewrite N2Nat.inj_add, str_take_split. fold piece. destruct piece as [|c piece'] eqn:Ep.
    - exists h. by rewrite append_nil_r.
    - cbn [is_empty]. rewrite <- Ep in *. by destruct (Sha256.fed_update h _ piece Hf) as (h1 & E1 & F1); exists h1. }
  destruct (Hu Hf) as (h1 & E1 & F1).
  eapply (finds_bind cur d _ _ (fun h' => h' = h1)).
  { destruct (is_empty piece); [by apply ok_inj in E1 as ->; apply finds_ret|]. rewrite E1.
    apply finds_lift; [by intros a [= ->]|done]. }
  intros h' ->. assert (size piece = N.min chunk (size content - offset)) as Hz.
  { unfold piece, size. rewrite length_str_take, length_str_drop. lia. }
  destruct (N.ltb_spec (size piece) chunk) as [Hlt|Hge].
  - apply finds_ret. rewrite str_take_ge in F1; [done|]. unfold size in *. lia.
  - apply IH; [lia|lia|done].
Qed.

Lemma finds_sha256 p : finds cur d (sha256_hex_file resolve p) (fun hex => ∃ content, leads p content ∧ hex = Sha256.sha256 content).
Proof.
  eapply finds_bind; [apply finds_open|]. intros [[i n]|] H; [|apply finds_fail].
  destruct (H i n eq_refl) as (v & t & content & Hi & -> & Hl).
  eapply finds_bind.
  { eapply finds_hash; [|exact Hi|lia| |].
    - reflexivity.
    - pose proof (N.mod_lt (size content) piece_bytes) as Hm. pose proof (N.div_mod (size content) piece_bytes) as Hd.
      rewrite N.sub_0_r, Nat2N.inj_succ, N2Nat.id. assert (piece_bytes ≠ 0) as Hz by discriminate.
      specialize (Hm Hz). specialize (Hd Hz). lia.
    - change (N.to_nat 0) with 0%nat. destruct content; apply Sha256.fed_initial. }
  intros h Hf. destruct (Sha256.finish_fed h content Hf) as (h' & E & _). rewrite E. cbv beta.
  eapply (finds_bind cur d _ _ (fun r => r = (Sha256.sha256 content, h'))).
  { apply finds_lift; [by intros a [= <-]|done]. }
  intros r ->. apply finds_ret. by exists content.
Qed.

Lemma finds_safe_any root relative : finds cur d (safe_path resolve root relative) (fun _ => True).
Proof.
  unfold safe_path. destruct (negb (contained_relative relative)); [by apply finds_ret|].
  generalize (components relative). intros l. revert root. induction l as [|c l IH]; intros root; cbn [safe_loop]; [by apply finds_ret|].
  eapply finds_bind; [apply finds_link_any|]. intros [] _; [by apply finds_ret|apply IH].
Qed.

Lemma finds_unavailable_any root relative p : finds cur d (unavailable resolve root relative p) (fun _ => True).
Proof.
  eapply finds_bind; [apply finds_safe_any|]. intros [problem|] _; [by apply finds_ret|].
  eapply finds_bind; [apply finds_status|]. intros. by apply finds_ret.
Qed.

Lemma finds_metadata root p : finds cur d (require_metadata resolve root p) (fun _ => True).
Proof.
  eapply finds_bind; [by apply (finds_observe cur d _ (fun _ => True))|]. intros [relative|] _; [|apply finds_fail].
  eapply finds_bind; [apply finds_unavailable_any|]. intros [problem|] _; [apply finds_fail|by apply finds_ret].
Qed.

Lemma finds_safe root relative : StableFile.through_link d (names root) = false →
  finds cur d (safe_path resolve root relative) (fun r => r = None →
    contained_relative relative = true ∧ StableFile.through_link d (names root ++ names relative) = false).
Proof.
  intros Hr. unfold safe_path. destruct (contained_relative relative) eqn:Hc; cbn [negb]; [|by apply finds_ret].
  unfold contained_relative in Hc. destruct (is_empty relative || is_absolute relative) eqn:He; [done|].
  apply orb_false_elim in He as [_ Ha].
  assert (components relative = names relative) as En.
  { unfold components in *. rewrite Ha in *. cbn [app] in *. rewrite forallb_app in Hc.
    apply andb_prop in Hc as [_ Hc]. destruct (ends_with slash relative && _); [done|]. by rewrite app_nil_r. }
  rewrite En. eapply finds_impl; [apply finds_safe_loop; [done|apply names_plain]|]. intros r H E. split; [done|by apply H].
Qed.

Lemma finds_unavailable root relative p : StableFile.through_link d (names root) = false →
  names p = names root ++ names relative →
  finds cur d (unavailable resolve root relative p) (fun r => r = None →
    StableFile.through_link d (names p) = false ∧ ∃ content, leads p content).
Proof.
  intros Hr Hn. eapply finds_bind; [by apply finds_safe|]. intros [problem|] H; [by apply finds_ret|].
  destruct (H eq_refl) as [_ Hc]. rewrite <- Hn in Hc. eapply finds_bind; [apply finds_status|].
  intros b (r & Hs & ->). apply finds_ret. destruct r as [[i [v [c| | |] t]]|]; try done. intros _. split; [done|].
  exists c, i, v, t. split; [done|]. by apply (stat_inode _ _ _ Hs).
Qed.
End Reading.

(** ** The root *)

Section Root.
Context (resolve : fs → name → option name) `{!LinkResolution resolve} (cur : path) (d : fs).
Hypothesis Hok : tree_ok d.

Lemma relative_parts p : Forall part (relative_components p) ∧ concat (map names (relative_components p)) = names p.
Proof.
  assert (∀ l (b : bool), Forall plain_name l → Forall part (l ++ (if b then [EmptyString] else [])) ∧
    concat (map names (l ++ (if b then [EmptyString] else []))) = l) as H.
  { intros l b Hl. split.
    - apply Forall_app. split; [|by destruct b; repeat constructor]. eapply Forall_impl; [exact Hl|]. by right.
    - rewrite map_app, concat_app. destruct b; cbn [map concat]; change (names EmptyString) with (@nil string);
        rewrite ?app_nil_r; induction Hl as [|x l Hx Hl IH]; try done; cbn [map concat]; by rewrite names_of_plain, IH. }
  unfold relative_components, components. destruct (is_absolute p); cbn [app]; [apply H, names_plain|].
  assert (∀ l : list string, match l with c :: rest => c :: rest | [] => [] end = l) as E by by intros [].
  rewrite E. apply H, names_plain.
Qed.

Lemma finds_root request : finds cur d (locate_root resolve request) (fun root =>
  StableFile.through_link d (names root) = false ∧ is_dir_at d (names root) = true).
Proof.
  unfold locate_root, StableFile.absolute.
  eapply (finds_bind cur d _ _ (fun _ => True)).
  { eapply finds_bind; [by apply (finds_get cur d (fun _ => True))|]. intros. by apply finds_ret. }
  intros p _. cbv zeta. eapply finds_bind; [apply finds_status|]. intros b (r & Hs & ->).
  destruct r as [[i x]|]; cbn [negb].
  2:{ eapply finds_bind; [by apply (finds_ret cur d true (fun b => b = true))|]. intros b ->. apply finds_fail. }
  destruct (is_directory_kind (node x)) eqn:Hx; cbn [negb].
  2:{ eapply finds_bind; [by apply (finds_ret cur d true (fun b => b = true))|]. intros b ->. apply finds_fail. }
  set (root := lexically_normal p) in *. destruct (relative_parts root) as [Hp Hc].
  assert (names (root_text root) = []) as Hn by (unfold root_text; by destruct (is_absolute root)).
  eapply finds_bind.
  { apply finds_crosses; [by rewrite Hn|done|]. intros k. rewrite Hn, Hc. by eapply resolve_prefix. }
  intros b H. rewrite Hn, Hc in H. destruct b; [apply finds_fail|]. specialize (H eq_refl).
  apply finds_ret. split; [done|]. pose proof (stat_not_link _ _ _ _ _ Hs) as Hl.
  apply (stat_found resolve) in Hs; [|done]. unfold is_dir_at. rewrite Hs. unfold StableFile.is_symlink in Hl.
  by destruct (node x).
Qed.
End Root.

(** ** The traversal *)

Lemma names_entry root rel : Forall plain_name rel → names (SessionHost.entry_path root (names root ++ rel)) = names root ++ rel.
Proof.
  intros H. unfold SessionHost.entry_path. rewrite drop_app_length. revert root.
  induction H as [|x rel Hx Hr IH]; intros root; cbn [fold_left]; [by rewrite app_nil_r|].
  rewrite IH, names_append by (by apply plain_not_absolute). by rewrite (names_of_plain x Hx), <- app_assoc.
Qed.

Section Traversal.
Context (resolve : fs → name → option name) (cur : path) (d : fs) (root : path).
Hypothesis Hok : tree_ok d.
Hypothesis Hroot : StableFile.through_link d (names root) = false.

Let n : name := names root.

Definition is_file_at (rel : name) : bool :=
  match lookup_inode d (n ++ rel) with Some (_, x) => is_regular_kind (node x) | None => false end.

(** The texts of the files that must be hashed. *)
Definition counted (rels : list name) : list string :=
  map join_names (List.filter (fun rel => is_file_at rel && negb (String.eqb (join_names rel) hashes_name)) rels).

Definition listed (rels : list name) : list (path * kind) :=
  omap (fun rel => '(_, x) ← lookup_inode d (n ++ rel); Some (SessionHost.entry_path root (n ++ rel), node x)) rels.

(** An entry below the root. *)
Definition below_root (rel : name) : Prop := rel ≠ [] ∧ is_Some (entries d !! (n ++ rel)).

Lemma entry_plain rel : below_root rel → Forall plain_name rel.
Proof. intros [_ H]. apply (tree_names _ Hok) in H. apply safe_plain. by apply Forall_app in H as [_ ?]. Qed.

Lemma clear_above rel a b : below_root rel → rel = a ++ b → b ≠ [] → link_at d (n ++ a) = false.
Proof.
  intros [_ H] -> Hb. rewrite app_assoc in H. apply (tree_prefix d _ _ Hok) in H; [|done].
  apply is_dir_at_inv in H as (i & x & E & Hx). unfold link_at, StableFile.is_symlink. by rewrite E, Hx.
Qed.

Lemma clear_entry rel : below_root rel → link_at d (n ++ rel) = false → StableFile.through_link d (n ++ rel) = false.
Proof.
  intros Hb Hl. apply through_app; [done|]. intros a b E Ha. destruct b as [|y b]; [by rewrite app_nil_r in E; subst|].
  by apply (clear_above rel a (y :: b)).
Qed.

Lemma finds_entry_link rel : below_root rel →
  finds cur d (has_reparse_or_symlink resolve (SessionHost.entry_path root (n ++ rel))) (fun b => b = link_at d (n ++ rel)).
Proof.
  intros Hb. pose proof (names_entry root rel (entry_plain rel Hb)) as En. destruct rel as [|x rel _] using rev_ind; [by destruct Hb|].
  rewrite app_assoc in En |- *. apply finds_link; [|exact En]. apply through_app; [done|]. intros a b -> Ha.
  apply (clear_above ((a ++ b) ++ [x]) a (b ++ [x])); [done|by rewrite app_assoc|by destruct b].
Qed.

Lemma finds_entry_relative rel : below_root rel → link_at d (n ++ rel) = false →
  finds cur d (relative_error resolve (SessionHost.entry_path root (n ++ rel)) root) (fun r =>
    ∃ p, r = Some p ∧ generic_string p = join_names rel).
Proof.
  intros Hb Hl. apply finds_observe. pose proof (names_entry root rel (entry_plain rel Hb)) as En. fold n in En. rewrite En.
  rewrite (where_clear resolve d (n ++ rel)) by by apply clear_entry. cbn [mbind option_bind].
  rewrite (where_clear resolve d (names root)) by done. eexists. split; [done|].
  apply relative_text; [|by destruct Hb]. apply Forall_app. split; [apply names_plain|by apply entry_plain].
Qed.

Lemma finds_entries rels : ∀ files total found, Forall below_root rels → NoDup (files ++ counted rels) →
  finds cur d (package_entries resolve root (listed rels) files total found) (fun r => snd r = [] →
    found = [] ∧ Forall (fun rel => link_at d (n ++ rel) = false) rels ∧ fst r ≡ₚ files ++ counted rels).
Proof.
  induction rels as [|rel rels IH]; intros files total found Hb Hn; cbn [listed omap list_omap package_entries].
  { apply finds_ret. intros H. unfold counted. cbn. by rewrite app_nil_r. }
  apply Forall_cons in Hb as [Hrel Hb]. pose proof Hrel as [_ H]. apply (lookup_entry _ _ (tree_inodes _ Hok)) in H as [[i x] E].
  rewrite E. cbn [mbind option_bind]. fold (listed rels). cbn [package_entries].
  destruct (link_at d (n ++ rel)) eqn:El.
  { eapply (finds_bind cur d _ _ (fun _ => True)); [by apply finds_observe|]. intros [p|] _.
    2:{ apply finds_ret. cbn [snd]. by intros [_ [=]]%app_eq_nil. }
    cbv zeta. eapply finds_bind; [by apply finds_entry_link|]. intros b ->. rewrite El.
    eapply finds_impl; [apply IH; [done|]|].
    - unfold counted in *. cbn [List.filter] in Hn. assert (is_file_at rel = false) as Ef; [|by rewrite Ef in Hn].
      unfold is_file_at, link_at, StableFile.is_symlink in *. rewrite E in *. by destruct (node x).
    - intros r Hr H%Hr. by destruct H as [[_ [=]]%app_eq_nil _]. }
  eapply finds_bind; [by apply finds_entry_relative|]. intros r (p & -> & Hg). cbv zeta. rewrite Hg.
  eapply finds_bind; [by apply finds_entry_link|]. intros b ->. rewrite El.
  eapply (finds_bind cur d _ _ (fun b => b = is_file_at rel)).
  { unfold is_file_at, link_at, StableFile.is_symlink, entry_is_regular in *. rewrite E in *. destruct (node x); try discriminate El; by apply finds_ret. }
  intros b ->. unfold counted in Hn |- *. cbn [List.filter] in Hn |- *. destruct (is_file_at rel); cbn [negb andb] in *.
  2:{ eapply finds_impl; [by apply IH|]. intros r Hr ?%Hr. naive_solver. }
  eapply (finds_bind cur d _ _ (fun _ => True)); [eapply finds_impl; [apply finds_size|done]|]. intros bytes _.
  set (found' := if over_budget bytes total then _ else found).
  assert (found' = [] → found = []) as Hf by (unfold found'; destruct (over_budget bytes total); [by intros [_ [=]]%app_eq_nil|done]).
  set (total' := if over_budget bytes total then _ else _). set (files' := if String.eqb _ _ then files else _).
  fold (counted rels) in Hn |- *.
  assert (files' ++ counted rels ≡ₚ files ++ map join_names (if negb (String.eqb (join_names rel) hashes_name)
    then [rel] else []) ++ counted rels) as Hp.
  { unfold files'. destruct (String.eqb (join_names rel) hashes_name); cbn [negb map app] in *; [done|].
    destruct (StreamFacts.set_insert_fresh (join_names rel) files) as (s' & -> & Hs').
    - intros Hin. apply NoDup_app in Hn as (_ & Hd & _). apply (Hd _ Hin). left.
    - cbn [fst]. rewrite Hs'. cbn [app]. apply Permutation_middle. }
  destruct (max_files <? _); [apply finds_ret; cbn [snd]; by intros [_ [=]]%app_eq_nil|].
  eapply finds_impl; [apply IH; [done|]|].
  - rewrite Hp. destruct (String.eqb (join_names rel) hashes_name); done.
  - intros r Hr (H1 & H2 & H3)%Hr. split; [by apply Hf|]. split; [by constructor|]. rewrite H3, Hp.
    destruct (String.eqb (join_names rel) hashes_name); done.
Qed.

Lemma below_relatives rel : rel ∈ relatives d n ↔ below_root rel.
Proof. apply relatives_in. Qed.

Lemma counted_nodup : NoDup (counted (relatives d n)).
Proof.
  unfold counted. assert (Forall (fun rel => Forall plain_name rel)
    (List.filter (fun rel => is_file_at rel && negb (String.eqb (join_names rel) hashes_name)) (relatives d n))) as Hp.
  { apply Forall_forall. intros rel [Hin%list_elem_of_In _]%list_elem_of_In%filter_In.
    by apply entry_plain, below_relatives. }
  pose proof (relatives_nodup d n) as Hn. apply NoDup_ListNoDup, (List.NoDup_filter
    (fun rel => is_file_at rel && negb (String.eqb (join_names rel) hashes_name))), NoDup_ListNoDup in Hn.
  induction Hp as [|rel rels Hrel Hr IH]; [constructor|]. apply NoDup_cons in Hn as [Hx Hn]. cbn [map]. constructor; [|by apply IH].
  intros (rel' & E & Hin)%list_elem_of_In%in_map_iff. apply Hx. apply list_elem_of_In in Hin.
  rewrite Forall_forall in Hr. rewrite (join_inj rel rel'); [done|done|by apply Hr|done].
Qed.

Lemma finds_files : finds cur d (package_files resolve root) (fun r => snd r = [] →
  (∀ rel, below_root rel → link_at d (n ++ rel) = false) ∧ fst r ≡ₚ counted (relatives d n)).
Proof.
  unfold package_files. eapply finds_bind.
  { apply (finds_observe cur d _ (fun r => ∀ l, r = Some l →
      map (fun e => (SessionHost.entry_path root (fst e), snd e)) l = listed (relatives d n))).
    intros l. fold n. destruct (is_dir_at d n); [|done]. intros [= <-]. rewrite descendants_relative. unfold listed.
    rewrite map_omap_map. apply omap_agree. intros rel _. destruct (lookup_inode d (n ++ rel)) as [[i x]|]; done. }
  intros [l|] Hl; [|by apply finds_ret]. rewrite (Hl l eq_refl).
  eapply finds_impl; [apply finds_entries; [|exact counted_nodup]|].
  - apply Forall_forall. intros rel. apply below_relatives.
  - intros r Hr (_ & H1 & H2)%Hr. split; [|done]. intros rel Hb%below_relatives. rewrite Forall_forall in H1. by apply H1.
Qed.
End Traversal.

(** ** The hashed files *)

Lemma contained_names p : contained_relative p = true → Forall safe_name (names p) ∧ join_names (names p) = generic_string p ∧
  is_absolute p = false.
Proof.
  unfold contained_relative. destruct (is_empty p || is_absolute p) eqn:He; [done|]. apply orb_false_elim in He as [He Ha].
  unfold components, generic_string, root_text, relative_components, components. rewrite Ha. cbn [app].
  rewrite forallb_app. intros [H1 H2]%andb_prop. split_and!; [|..|done].
  - apply Forall_forall. intros x Hx. pose proof (names_plain p) as Hp. rewrite Forall_forall in Hp. split; [by apply Hp|].
    rewrite forallb_forall in H1. apply list_elem_of_In, H1, negb_true_iff in Hx. bool_hyps.
    done.
  - destruct (ends_with slash p && _); [done|]. rewrite app_nil_r. by destruct (names p).
Qed.

Section Files.
Context (resolve : fs → name → option name) (steady : nat → N) (cur : path) (d : fs) (root : path).
Hypothesis Hroot : StableFile.through_link d (names root) = false.

(** The file of a table is there and has its digest. *)
Definition intact_at (entry : string * string) : Prop := ∃ i v t content,
  lookup_inode d (names root ++ names (fst entry)) = Some (i, mk_inode v (regular content) t) ∧
  Sha256.sha256 content = snd entry.

Lemma finds_verify components st entry : is_absolute (fst entry) = false →
  finds cur d (verify_file resolve root components st entry) (fun st' =>
    fst (fst st') = true → fst (fst st) = true ∧ snd st' = snd st + 1 ∧ intact_at entry).
Proof.
  intros Ha. destruct st as [c verified], entry as [relative expected]. cbn [fst] in Ha.
  assert (names (root /+ relative) = names root ++ names relative) as En by by apply names_append.
  unfold verify_file. eapply finds_bind; [by apply finds_unavailable|].
  intros [problem|] H; [by apply finds_ret|]. destruct (H eq_refl) as [Hc _].
  eapply finds_bind; [apply finds_size|]. intros bytes _. cbv zeta.
  eapply finds_bind; [apply finds_sha256|]. intros digest (content & Hl & ->). apply finds_ret.
  destruct (String.eqb_spec (Sha256.sha256 content) expected) as [<-|]; [|done]. cbn [fst snd].
  unfold refuse_if. destruct (size_differs components relative bytes); [done|]. intros Hf. split_and!; [done..|].
  destruct (leads_clear _ _ _ _ Hc Hl) as (i & v & t & E). rewrite En in E. by exists i, v, t, content.
Qed.

Lemma finds_now : finds cur d (steady_now steady) (fun _ => True).
Proof.
  eapply finds_bind; [by apply (finds_step cur d (fun _ => True))|]. intros _ _.
  eapply finds_bind; [by apply (finds_get cur d (fun _ => True))|]. intros. by apply finds_ret.
Qed.

Lemma finds_verify_all components deadline hashes : Forall (fun e => is_absolute (fst e) = false) hashes → ∀ st,
  finds cur d (verify_files resolve steady root components deadline hashes st) (fun st' =>
    fst (fst st') = true → fst (fst st) = true ∧ snd st' = snd st + N.of_nat (length hashes) ∧ Forall intact_at hashes).
Proof.
  induction 1 as [|entry hashes Ha Hh IH]; intros st; cbn [verify_files].
  { apply finds_ret. cbn [length]. rewrite N.add_0_r. done. }
  eapply finds_bind; [apply finds_now|]. intros now _. destruct (deadline <? now); [by apply finds_ret|].
  eapply finds_bind; [by apply finds_verify|]. intros st1 H1. eapply finds_impl; [apply IH|].
  intros st2 H2 (E1 & E2 & E3)%H2. destruct (H1 E1) as (F1 & F2 & F3). split_and!; [done| |by constructor].
  rewrite E2, F2. cbn [length]. lia.
Qed.

Lemma finds_integrity components hashes : Forall (fun e => is_absolute (fst e) = false) hashes →
  finds cur d (check_integrity resolve steady root components hashes) (fun r =>
    fst (fst r) = true → snd r = N.of_nat (length hashes) ∧ Forall intact_at hashes).
Proof.
  intros H. eapply finds_bind; [apply finds_now|]. intros now _. eapply finds_impl; [by apply finds_verify_all|].
  intros r Hr (_ & H1 & H2)%Hr. cbn [snd] in H1. by rewrite N.add_0_l in H1.
Qed.
End Files.

End PackageHost.
