(* ===== verification/PackageFacts.v ===== *)
(** What package verification shows: the table of hashes, the closure of a package, and
    that every request is answered. *)

From Stdlib Require Import Ascii String NArith ZArith Lia.
From stdpp Require Import base list strings gmap sets.
From S2P Require Import Prelude Sha256 StdMap JsonText Path PathFacts Effects World RecordIo RecordFacts DirectoryFacts TreeFacts.
From S2P Require Import SessionHost ReplacementSnapshot Archive PackageVerify PackageHost.

Module PackageFacts.
Import Path PathFacts Effects World RecordFacts DirectoryFacts TreeFacts ReplacementSnapshot PackageVerify PackageHost.

(** ** Results that end *)

(** A failure is one that a handler sees. *)
Definition clean {A} (r : result A) : Prop := ∀ e, r = Throw e → catchable e = true.

Lemma clean_ok {A} (a : A) : clean (Ok a).
Proof. by intros e. Qed.

Lemma clean_throw {A} what : clean (throw (A := A) what).
Proof. by intros e [= <-]. Qed.

Lemma clean_throw_if c what : clean (throw_if c what).
Proof. destruct c; [apply clean_throw|apply clean_ok]. Qed.

Lemma clean_bind {A B} (r : result A) (f : A → result B) : clean r → (∀ a, r = Ok a → clean (f a)) → clean (r ≫= f).
Proof. intros Hr Hf. destruct r as [a|e]; [by apply Hf|]. intros e' [= <-]. by apply Hr. Qed.

Lemma clean_fold {A B} (f : B → A → result B) l : (∀ b x, clean (f b x)) → ∀ b, clean (fold_result f b l).
Proof. intros H. induction l as [|x l IH]; intros b; cbn [fold_result]; [apply clean_ok|]. apply clean_bind; auto. Qed.

Lemma finds_clean {A} cur d (r : result A) : clean r → finds cur d (lift r) (fun a => r = Ok a).
Proof. intros H. apply finds_lift; auto. Qed.

Lemma clean_scalar values raw : clean (toml_scalar values raw).
Proof.
  unfold toml_scalar. destruct (_ || _ || _); [apply clean_ok|]. destruct (split_at "=" (trim raw)) as [[before from]|]; [|apply clean_throw].
  cbv zeta. destruct (StdMap.emplace _ _ values) as [added inserted]. apply clean_bind; [apply clean_throw_if|]. intros. apply clean_ok.
Qed.

Lemma clean_toml text : clean (parse_toml_scalars text).
Proof. apply clean_fold, clean_scalar. Qed.

Lemma clean_hash_line hashes raw : clean (hash_line hashes raw).
Proof.
  unfold hash_line. cbv zeta. apply clean_bind; [apply clean_throw_if|]. intros _ _.
  destruct (StdMap.emplace _ _ hashes) as [added inserted]. apply clean_bind; [apply clean_throw_if|]. intros _ _.
  apply clean_bind; [apply clean_throw_if|]. intros. apply clean_ok.
Qed.

Lemma clean_hashes text : clean (parse_hashes text).
Proof.
  apply clean_bind; [apply clean_fold, clean_hash_line|]. intros h _. apply clean_bind; [apply clean_throw_if|]. intros. apply clean_ok.
Qed.

Lemma clean_required manifest key : clean (required manifest key).
Proof. unfold required. destruct (StdMap.find key manifest); [apply clean_ok|apply clean_throw]. Qed.

Lemma clean_declared manifest : clean (read_declared manifest).
Proof.
  unfold read_declared. apply clean_bind; [apply clean_required|]. intros schema _. apply clean_bind; [apply clean_throw_if|].
  intros _ _. do 9 (apply clean_bind; [apply clean_required|]; intros ? _). apply clean_ok.
Qed.

Lemma clean_keys manifest : clean (require_manifest_keys manifest).
Proof. unfold require_manifest_keys. destruct (List.find _ manifest); [apply clean_throw|apply clean_ok]. Qed.

Lemma clean_component object components : clean (add_component object components).
Proof.
  unfold add_component. cbv zeta. destruct (json_integer object "size") as [found bytes].
  destruct (StdMap.emplace _ _ components) as [added inserted]. apply clean_bind; [apply clean_throw_if|]. intros _ _.
  apply clean_bind; [apply clean_throw_if|]. intros. apply clean_ok.
Qed.

Lemma split_at_text needle text before from : split_at needle text = Some (before, from) →
  text = before +:+ from ∧ String.prefix needle from = true.
Proof.
  revert before. induction text as [|c text IH]; intros before; cbn [split_at].
  - destruct (String.prefix needle EmptyString) eqn:E; [|done]. by intros [= <- <-].
  - destruct (String.prefix needle (String c text)) eqn:E; [by intros [= <- <-]|].
    intros ([b f] & H & [= <- <-])%bind_Some. destruct (IH _ H) as [-> ?]. done.
Qed.

(** The search for components moves on with every component. *)
Lemma clean_components fuel : ∀ before rest components, (String.length rest <= fuel)%nat →
  clean (components_loop fuel before rest components).
Proof.
  induction fuel as [|fuel IH]; intros before rest components Hf; cbn [components_loop];
    (destruct (split_at (marker "destination") rest) as [[skipped found]|] eqn:E; [|apply clean_ok]);
    apply split_at_text in E as [-> Hp]; rewrite length_append in Hf.
  - apply prefix_append in Hp as [t ->]. rewrite length_append in Hf. cbn in Hf. lia.
  - destruct (from_last_brace (before +:+ skipped)) as [head|]; [|apply clean_throw].
    destruct (split_at "}" found) as [[inside tail]|] eqn:Et; [|apply clean_throw].
    apply split_at_text in Et as [-> Ht]. apply clean_bind; [apply clean_component|]. intros components' _. apply IH.
    rewrite length_append in Hf. rewrite length_str_drop. destruct tail; [done|]. cbn [String.length] in Hf |- *. lia.
Qed.

Lemma clean_parse_components text : clean (parse_components text).
Proof.
  apply clean_bind; [apply clean_throw_if|]. intros _ _. apply clean_bind; [by apply clean_components|]. intros c _.
  apply clean_bind; [apply clean_throw_if|]. intros. apply clean_ok.
Qed.

(** ** The table of hashes *)

(** The line of a file: its digest, two spaces and its path, and possibly a carriage return. *)
Definition line_of (raw : string) (entry : string * string) : Prop :=
  without_return raw = snd entry +:+ "  " +:+ fst entry ∧ valid_sha256 (snd entry) = true ∧
  contained_relative (fst entry) = true.

Lemma line_parts raw entry : line_of raw entry →
  (size (without_return raw) <? 67) || negb (two_spaces (without_return raw)) = false ∧
  str_take 64 (without_return raw) = snd entry ∧ str_drop 66 (without_return raw) = fst entry.
Proof.
  destruct entry as [p h]. intros (E & Hh & Hp). cbn [fst snd] in *. rewrite E.
  unfold valid_sha256, lower_hex in Hh. apply andb_prop in Hh as [Hs%N.eqb_eq _].
  assert (String.length h = 64%nat) as Hl by (unfold size in Hs; lia).
  assert (p ≠ EmptyString) as Hne by by intros ->. split_and!.
  - apply orb_false_iff. split.
    + apply N.ltb_ge. rewrite !size_append, Hs. change (size "  ") with 2. destruct p; [done|]. unfold size. cbn. lia.
    + unfold two_spaces. rewrite <- Hl, str_drop_all. by rewrite (proj2 (prefix_append _ _)) by eauto.
  - by rewrite <- Hl, str_take_all.
  - change 66%nat with (64 + 2)%nat. by rewrite <- str_drop_drop, <- Hl, str_drop_all.
Qed.

Lemma line_inv raw : (size (without_return raw) <? 67) || negb (two_spaces (without_return raw)) = false →
  without_return raw = str_take 64 (without_return raw) +:+ "  " +:+ str_drop 66 (without_return raw).
Proof.
  set (line := without_return raw). intros [_ H%negb_false_iff]%orb_false_elim. unfold two_spaces in H.
  apply prefix_append in H as [t E]. rewrite <- (str_take_drop 64 line) at 1. f_equal. rewrite E.
  f_equal. change 66%nat with (64 + 2)%nat. by rewrite <- str_drop_drop, E.
Qed.

Lemma emplace_length k v hashes : StdMap.sorted hashes → StdMap.find k hashes = None →
  length (fst (StdMap.emplace (A:=string) k v hashes)) = S (length hashes).
Proof.
  intros Hs H. rewrite (StdMap.emplace_perm k v hashes); [done|].
  rewrite StdMap.emplace_snd by done. unfold StdMap.contains_key. by rewrite H.
Qed.

Lemma hash_line_ok hashes raw added : StdMap.sorted hashes → hash_line hashes raw = Ok added ↔
  ∃ entry, line_of raw entry ∧ StdMap.find (fst entry) hashes = None ∧ N.of_nat (length hashes) < max_files ∧
    added = fst (StdMap.emplace (fst entry) (snd entry) hashes).
Proof.
  intros Hs. assert (∀ k v, snd (StdMap.emplace k v hashes) = true ↔ StdMap.find k hashes = None) as Hins.
  { intros k v. rewrite StdMap.emplace_snd by done. unfold StdMap.contains_key. by destruct (StdMap.find k hashes). }
  pose proof (fun k v => emplace_length k v hashes Hs) as Hlen.
  unfold hash_line. cbv zeta. split.
  - intros [H1%throw_if_ok H]%bind_unit. pose proof (line_inv raw H1) as E.
    set (hash := str_take 64 _) in *. set (path := str_drop 66 _) in *.
    specialize (Hins path hash). specialize (Hlen path hash).
    destruct (StdMap.emplace path hash hashes) as [m b] eqn:Em. cbn [fst snd] in *.
    apply bind_unit in H as [H2%throw_if_ok H]. apply bind_unit in H as [H3%throw_if_ok H]. apply ok_inj in H as <-.
    bool_hyps. subst b. assert (StdMap.find path hashes = None) as Hf by by apply Hins.
    exists (path, hash). cbn [fst snd]. rewrite Em. split_and!; [by split_and!|done| |done]. rewrite Hlen in H3 by done. lia.
  - intros (entry & Hl & Hf & Hm & ->). destruct (line_parts raw entry Hl) as (-> & -> & ->). destruct Hl as (_ & Hh & Hp).
    cbn [throw_if mbind result_bind]. specialize (Hins (fst entry) (snd entry)). specialize (Hlen (fst entry) (snd entry) Hf).
    apply Hins in Hf as Hb. destruct (StdMap.emplace _ _ hashes) as [m b] eqn:Em. cbn [fst snd] in *. subst b.
    rewrite Hh, Hp. cbn [negb orb throw_if mbind result_bind].
    rewrite (proj2 (N.ltb_ge _ _)) by (rewrite Hlen; lia). done.
Qed.

(** Adding entries to a table. *)
Definition add_all (hashes es : table) : table :=
  fold_left (fun m p => fst (StdMap.emplace (fst p) (snd p) m)) es hashes.

Lemma hash_lines_ok raws : ∀ hashes result, StdMap.sorted hashes →
  fold_result hash_line hashes raws = Ok result ↔
  ∃ es, Forall2 line_of raws es ∧ NoDup (fst <$> es) ∧ Forall (fun e => StdMap.find (fst e) hashes = None) es ∧
    (raws = [] ∨ N.of_nat (length hashes + length raws) <= max_files) ∧ result = add_all hashes es.
Proof.
  induction raws as [|raw raws IH]; intros hashes result Hs; cbn [fold_result].
  { split.
    - intros [= <-]. exists []. split_and!; try constructor; done.
    - intros (es & He & _ & _ & _ & ->). by inversion He. }
  rewrite bind_ok. split.
  - intros (added & (entry & Hl & Hf & Hm & ->)%hash_line_ok & H); [|done].
    set (m := fst (StdMap.emplace (fst entry) (snd entry) hashes)) in *.
    assert (StdMap.sorted m) as Hm' by by apply StdMap.emplace_sorted.
    assert (length m = S (length hashes)) as Hlen by by apply emplace_length.
    apply IH in H as (es & He & Hn & Hd & Hc & ->); [|done]. exists (entry :: es). split_and!.
    + by constructor.
    + cbn [fmap list_fmap]. constructor; [|done]. intros (e & Ee & Hin)%list_elem_of_fmap.
      rewrite Forall_forall in Hd. specialize (Hd e Hin). rewrite <- Ee in Hd. unfold m in Hd. by rewrite StdMap.find_emplace_same in Hd.
    + constructor; [done|]. eapply Forall_impl; [exact Hd|]. intros e Hx. cbv beta in Hx.
      destruct (decide (fst entry = fst e)) as [Ee|Ee]; [by rewrite <- Ee|]. unfold m in Hx. by rewrite StdMap.find_emplace_other in Hx.
    + right. cbn [length]. destruct Hc as [->|Hc]; [cbn [length]; lia|]. rewrite Hlen in Hc. lia.
    + done.
  - intros (es & He & Hn & Hd & Hc & ->). inversion He as [|? entry ? es' Hl He']; subst.
    cbn [fmap list_fmap] in Hn. apply NoDup_cons in Hn as [Hx Hn]. apply Forall_cons in Hd as [Hf Hd].
    destruct Hc as [|Hc]; [done|]. cbn [length] in Hc. set (m := fst (StdMap.emplace (fst entry) (snd entry) hashes)).
    assert (StdMap.sorted m) as Hm' by by apply StdMap.emplace_sorted.
    assert (length m = S (length hashes)) as Hlen by by apply emplace_length.
    exists m. split; [apply hash_line_ok; [done|]; exists entry; split_and!; [done..|lia|done]|].
    apply IH; [done|]. exists es'. split_and!; [done..| | |done].
    + apply Forall_forall. intros e Hin. rewrite Forall_forall in Hd. unfold m. rewrite StdMap.find_emplace_other; [by apply Hd|done|].
      intros Ee. apply Hx. rewrite Ee. by apply list_elem_of_fmap_2.
    + right. rewrite Hlen. lia.
Qed.

Lemma parsed_hashes text hashes : parse_hashes text = Ok hashes ↔
  ∃ es, Forall2 line_of (lines text) es ∧ NoDup (fst <$> es) ∧ es ≠ [] ∧ N.of_nat (length es) <= max_files ∧
    hashes = StdMap.of_list es.
Proof.
  unfold parse_hashes. rewrite bind_ok. split.
  - intros (h & (es & He & Hn & _ & Hc & ->)%hash_lines_ok & H); [|constructor].
    apply bind_unit in H as [Hz%throw_if_ok H]. apply ok_inj in H as <-. exists es.
    assert (es ≠ []) as Hes by by intros ->. split_and!; [done..| |done]. apply Forall2_length in He. cbn [length] in Hc.
    destruct Hc as [E|Hc]; [rewrite E in He; by destruct es|]. by rewrite <- He.
  - intros (es & He & Hn & Hes & Hc & ->). exists (StdMap.of_list es). split.
    + apply hash_lines_ok; [constructor|]. exists es. split_and!; [done..| | |done].
      * by apply Forall_forall.
      * right. cbn [length]. apply Forall2_length in He. rewrite He. done.
    + assert (length (StdMap.of_list es) = length es) as Hl by (apply Permutation_length, JsonText.of_list_perm; done).
      destruct (StdMap.of_list es); [by destruct es|]. done.
Qed.

(** ** The verdicts *)

Lemma refuse_if_ok bad problem c : fst (refuse_if bad problem c) = true ↔ bad = false ∧ fst c = true.
Proof. destruct bad; cbn; naive_solver. Qed.

Lemma fold_refuse {A} (bad : A → bool) (problem : A → string) l : ∀ c,
  fst (fold_left (fun c x => refuse_if (bad x) (problem x) c) l c) = true ↔ fst c = true ∧ Forall (fun x => bad x = false) l.
Proof.
  induction l as [|x l IH]; intros c; cbn [fold_left]; [by split; [|intros [? _]]|].
  rewrite IH, refuse_if_ok, Forall_cons. naive_solver.
Qed.

Lemma complete_ok files hashes entrypoint ok : fst (check_completeness files hashes entrypoint ok) = true ↔
  length files = length hashes ∧ ok = true ∧ is_Some (StdMap.find entrypoint hashes) ∧
  Forall (fun file => is_Some (StdMap.find file hashes)) files.
Proof.
  unfold check_completeness. cbv zeta. rewrite fold_refuse, !refuse_if_ok, !negb_false_iff, andb_true_iff, N.eqb_eq.
  assert (∀ k, negb (StdMap.contains_key k hashes) = false ↔ is_Some (StdMap.find k hashes)) as Hk.
  { intros k. unfold StdMap.contains_key. destruct (StdMap.find k hashes); split; intros H; try done; by eexists || by destruct H. }
  rewrite <- (negb_false_iff (StdMap.contains_key _ _)), Hk.
  assert (Forall (fun x => negb (StdMap.contains_key x hashes) = false) files ↔
    Forall (fun file => is_Some (StdMap.find file hashes)) files) as ->.
  { split; intros H; (eapply Forall_impl; [exact H|]); intros x; apply Hk. }
  assert (N.of_nat (length files) = N.of_nat (length hashes) ↔ length files = length hashes) as -> by lia.
  cbn [fst passed]. naive_solver.
Qed.

Section Report.
Context (resolve : fs → name → option name) (steady : nat → N) (cur : path) (d : fs).

Lemma finds_profiles root declared c : finds cur d (check_profiles resolve root declared c) (fun c' => fst c' = true → fst c = true).
Proof.
  unfold check_profiles. eapply finds_bind.
  { apply (finds_fold cur d _ (fun c' => fst c' = true → fst c = true)); [done|]. intros b x Hb _.
    unfold declared_metadata. eapply (finds_bind cur d _ _ (fun _ => True)); [apply finds_unavailable_any|].
    intros [problem|] _; by apply finds_ret. }
  intros c1 H1. destruct (fst c1) eqn:E1; [|apply finds_ret; congruence].
  do 2 (eapply finds_bind; [apply finds_read|]; intros ? _;
    eapply (finds_bind cur d _ _ (fun _ => True)); [eapply finds_impl; [apply finds_clean, clean_toml|done]|]; intros ? _).
  apply finds_ret. intros [_ ?]%refuse_if_ok. auto.
Qed.

Lemma finds_lock root manifest declared c : finds cur d (check_lock resolve root manifest declared c) (fun c' => fst c' = true → fst c = true).
Proof.
  unfold check_lock. eapply (finds_bind cur d _ _ (fun _ => True)); [apply finds_unavailable_any|].
  intros [problem|] _; [by apply finds_ret|]. eapply finds_bind; [apply finds_read|]. intros text _. cbv zeta.
  do 3 (eapply (finds_bind cur d _ _ (fun _ => True)); [eapply finds_impl; [apply finds_clean, clean_required|done]|]; intros ? _).
  apply finds_ret. unfold check_pin. by intros [? _]%fold_refuse.
Qed.

(** Every component is in the table with its digest. *)
Definition components_agree (components : list (string * Component)) (hashes : table) : Prop :=
  Forall (fun e => StdMap.find (fst e) hashes = Some (sha256 (snd e))) components.

Lemma finds_compatible root manifest declared components hashes :
  finds cur d (check_compatibility resolve root manifest declared components hashes) (fun c =>
    fst c = true → components_agree components hashes).
Proof.
  eapply finds_bind; [apply finds_profiles|]. intros c _. eapply finds_impl; [apply finds_lock|].
  intros c' H H'%H. unfold check_component in H'. apply fold_refuse in H' as [_ H']. eapply Forall_impl; [exact H'|].
  intros e Hx%negb_false_iff. unfold is_at in Hx. destruct (StdMap.find (fst e) hashes); [|done]. by apply String.eqb_eq in Hx as ->.
Qed.
End Report.

(** ** The closure of a package *)

Definition hashes_file : name := ["manifest"; "hashes.sha256"].
Definition components_file : name := ["manifest"; "components.v1.json"].

Definition file_at (d : fs) (n : name) (content : string) : Prop :=
  ∃ i v t, lookup_inode d n = Some (i, mk_inode v (regular content) t).

(** The files below [n] are exactly those of the table it holds, with their digests, and
    nothing below it is a link. *)
Record verified_tree (d : fs) (n : name) (hashes : table) : Prop := {
  tree_table : ∃ text, file_at d (n ++ hashes_file) text ∧ parse_hashes text = Ok hashes;
  tree_unlinked : ∀ rel, rel ≠ [] → link_at d (n ++ rel) = false;
  tree_hashed : ∀ rel content, rel ≠ [] → rel ≠ hashes_file → file_at d (n ++ rel) content →
    StdMap.find (join_names rel) hashes = Some (Sha256.sha256 content);
  tree_present : ∀ p digest, StdMap.find p hashes = Some digest →
    ∃ content, file_at d (n ++ names p) content ∧ Sha256.sha256 content = digest ∧ p = join_names (names p) }.

Lemma find_keys k (m : table) : is_Some (StdMap.find k m) ↔ k ∈ m.*1.
Proof.
  induction m as [|[k' v] m IH]; cbn [StdMap.find fmap list_fmap fst].
  - split; [by intros []|by intros ?%elem_of_nil].
  - destruct (String.eqb_spec k k') as [->|Hne]; [split; [intros _; left|by eexists]|].
    rewrite IH, elem_of_cons. naive_solver.
Qed.

Lemma find_entry k v (m : table) : StdMap.find k m = Some v → (k, v) ∈ m.
Proof.
  induction m as [|[k' v'] m IH]; cbn [StdMap.find]; [done|].
  destruct (String.eqb_spec k k') as [->|]; [intros [= ->]; left|intros; right; auto].
Qed.

Lemma same_names files (hashes : table) : NoDup files → length files = length hashes →
  Forall (fun file => is_Some (StdMap.find file hashes)) files → files ≡ₚ hashes.*1.
Proof.
  intros Hn Hl Hf. apply submseteq_length_Permutation; [|by rewrite length_fmap, Hl].
  apply NoDup_submseteq; [done|]. intros x Hx. rewrite Forall_forall in Hf. by apply find_keys, Hf.
Qed.

Lemma hashed_contained text hashes : parse_hashes text = Ok hashes →
  Forall (fun e => contained_relative (fst e) = true) hashes.
Proof.
  intros (es & He & Hn & _ & _ & ->)%parsed_hashes. rewrite (JsonText.of_list_perm es Hn).
  apply Forall_forall. intros e [k Hk]%list_elem_of_lookup. destruct (Forall2_lookup_r _ _ _ _ _ He Hk) as (raw & _ & (_ & _ & ?)).
  done.
Qed.

Section Closure.
Context (resolve : fs → name → option name) (d : fs) (root : path) (text : string) (hashes : table) (files : list string).
Hypothesis Hok : tree_ok d.
Hypothesis Hroot : StableFile.through_link d (names root) = false.
Hypothesis Htable : leads resolve d (root /+ "manifest" /+ "hashes.sha256") text.
Hypothesis Hparse : parse_hashes text = Ok hashes.
Hypothesis Hlinks : ∀ rel, below_root d root rel → link_at d (names root ++ rel) = false.
Hypothesis Hfiles : files ≡ₚ counted d root (relatives d (names root)).
Hypothesis Hlength : length files = length hashes.
Hypothesis Hcovered : Forall (fun file => is_Some (StdMap.find file hashes)) files.
Hypothesis Hintact : Forall (intact_at d root) hashes.

Lemma no_links rel : rel ≠ [] → link_at d (names root ++ rel) = false.
Proof.
  intros Hr. destruct (entries d !! (names root ++ rel)) as [i|] eqn:E; [by apply Hlinks; split; [|rewrite E]|].
  unfold link_at, lookup_inode. by rewrite E.
Qed.

Lemma files_counted rel content : rel ≠ [] → rel ≠ hashes_file → file_at d (names root ++ rel) content → join_names rel ∈ files.
Proof.
  intros Hr Hh (i & v & t & E). pose proof (lookup_inode_inv _ _ _ _ E) as [Ee _].
  assert (below_root d root rel) as Hb by (split; [done|by rewrite Ee]).
  rewrite Hfiles. unfold counted. apply list_elem_of_In, in_map_iff. exists rel. split; [done|]. apply filter_In.
  split; [by apply list_elem_of_In, relatives_in|]. unfold is_file_at. rewrite E. cbn [node is_regular_kind andb].
  apply negb_true_iff, String.eqb_neq. intros Ej. apply Hh. apply join_inj; [by eapply entry_plain|by repeat constructor|done].
Qed.

Lemma counted_file p : p ∈ files → ∃ rel, Forall plain_name rel ∧ p = join_names rel.
Proof.
  rewrite Hfiles. unfold counted. intros (rel & <- & [Hin _]%filter_In)%list_elem_of_In%in_map_iff. exists rel.
  split; [|done]. apply (entry_plain d root Hok). by apply relatives_in, list_elem_of_In.
Qed.

Lemma names_hashed : files ≡ₚ hashes.*1.
Proof. apply same_names; [|done..]. rewrite Hfiles. by apply counted_nodup. Qed.

Lemma closure_verified : verified_tree d (names root) hashes.
Proof.
  split.
  - exists text. split; [|done]. destruct (leads_clear resolve d (root /+ "manifest" /+ "hashes.sha256") text) as (i & v & t & E); [|done|].
    + rewrite !names_append by done. rewrite <- app_assoc. apply through_app; [done|]. intros a b _ Ha. by apply no_links.
    + exists i, v, t. rewrite !names_append, <- app_assoc in E by done. exact E.
  - apply no_links.
  - intros rel content Hr Hh Hf. pose proof (files_counted rel content Hr Hh Hf) as Hin.
    rewrite Forall_forall in Hcovered. destruct (Hcovered _ Hin) as [digest Hd]. rewrite Hd. f_equal.
    rewrite Forall_forall in Hintact. destruct (Hintact _ (find_entry _ _ _ Hd)) as (i & v & t & c & E & Hs). cbn [fst snd] in E, Hs. subst digest.
    destruct Hf as (j & v' & t' & E'). pose proof (lookup_inode_inv _ _ _ _ E') as [Ee _].
    rewrite names_join in E by (eapply entry_plain; [done|split; [done|by rewrite Ee]]). rewrite E in E'. by injection E' as _ _ -> _.
  - intros p digest Hd. rewrite Forall_forall in Hintact. destruct (Hintact _ (find_entry _ _ _ Hd)) as (i & v & t & c & E & Hc).
    cbn [fst snd] in *. exists c. split; [by exists i, v, t|]. split; [done|].
    destruct (counted_file p) as (rel & Hp & ->); [|by rewrite names_join].
    rewrite names_hashed. apply find_keys. by rewrite Hd.
Qed.
End Closure.

Lemma verdict_pass c : verdict c = "pass" ↔ fst c = true.
Proof. unfold verdict. by destruct (fst c). Qed.

(** What a report says of the package below [n]. *)
Definition report_sound (resolve : fs → name → option name) (d : fs) (r : Report) : Prop :=
  let n := names (package_root r) in
  is_dir_at d n = true ∧
  (integrity r = "pass" → completeness r = "pass" → ∃ hashes, verified_tree d n hashes ∧
    files_verified r = N.of_nat (length hashes) ∧
    (compatibility r = "pass" → ∃ text components, file_at d (n ++ components_file) text ∧
      parse_components text = Ok components ∧ components_agree components hashes)) ∧
  (report_status r = "fail" ∨ report_status r = "warn").

Lemma status_never_pass r : authenticity r ≠ "verified" → report_status r = "fail" ∨ report_status r = "warn".
Proof.
  intros H. unfold report_status. destruct (required_pass r); [right|by left]. cbn [negb].
  by rewrite (proj2 (String.eqb_neq _ _) H).
Qed.

Section Examine.
Context (resolve : fs → name → option name) `{!LinkResolution resolve} (steady : nat → N) (d : fs).
Hypothesis Hok : tree_ok d.

Lemma finds_examine cur request audit : finds cur d (examine_package resolve steady request audit) (report_sound resolve d).
Proof.
  unfold examine_package. cbv zeta.
  eapply finds_bind; [by apply (finds_throw_if cur d _ _ (fun _ => True))|]. intros _ _.
  eapply finds_bind; [by apply (finds_throw_if cur d _ _ (fun _ => True))|]. intros _ _.
  eapply finds_bind; [by apply finds_root|]. intros root [Hroot Hdir].
  eapply finds_bind; [apply finds_for_each; intros; apply finds_metadata|]. intros _ _.
  eapply finds_bind; [apply finds_read|]. intros manifest_text _.
  eapply finds_bind; [apply finds_clean, clean_toml|]. intros manifest _.
  eapply finds_bind; [apply finds_clean, clean_keys|]. intros _ _.
  eapply finds_bind; [apply finds_clean, clean_declared|]. intros declared _.
  eapply finds_bind; [apply finds_read|]. intros components_text Hct.
  eapply finds_bind; [apply finds_clean, clean_parse_components|]. intros components Hcomp.
  eapply finds_bind; [apply finds_read|]. intros text Ht.
  eapply finds_bind; [apply finds_clean, clean_hashes|]. intros hashes Hh.
  eapply finds_bind; [by apply finds_files|]. intros [files traversal] Hfiles. cbn [fst snd] in Hfiles.
  eapply finds_bind; [apply finds_compatible|]. intros compatible Hcompat.
  eapply finds_bind.
  { apply finds_integrity; [done|]. eapply Forall_impl; [apply (hashed_contained _ _ Hh)|].
    intros e (_ & _ & ?)%contained_names. done. }
  intros [intact verified] Hint. cbn [fst snd] in Hint.
  destruct (match_target _ _ _ declared) as [matched mismatch]. apply finds_ret.
  unfold report_sound. cbn [package_root integrity completeness files_verified compatibility]. rewrite !verdict_pass, complete_ok.
  split; [done|]. split; [|apply status_never_pass; cbn [authenticity]; by destruct (String.eqb (signed declared) "false")].
  intros Hi (Hl & Htr & _ & Hcov). destruct traversal; [|done]. destruct (Hfiles eq_refl) as [Hlinks Hp].
  destruct (Hint Hi) as [Hv Hin]. assert (verified_tree d (names root) hashes) as Hvt by by eapply closure_verified.
  exists hashes. split; [done|]. split; [done|]. intros Hc%verdict_pass%Hcompat. exists components_text, components. split; [|done].
  destruct (leads_clear resolve d (root /+ "manifest" /+ "components.v1.json") components_text) as (i & v & t & E); [|done|].
  - rewrite !names_append by done. rewrite <- app_assoc. apply through_app; [done|]. intros a b _ Ha. by apply Hvt.
  - exists i, v, t. rewrite !names_append, <- app_assoc in E by done. exact E.
Qed.

(** C30 On an undisturbed host every request for a verification is answered, nothing is
    changed, and the report can be relied on: when it says that integrity and
    completeness pass, the files below the root are exactly those of the hash table it
    holds, each with the digest of the table, and nothing there is a link; when
    compatibility passes too, every component is in the table with its digest.  A
    report never says more than that the package has no proof of authenticity. *)
Theorem package_verification_sound request audit w : quiet w → disk w = d →
  (∃ response ok w', usk_package_verify_command_json resolve steady request audit w = (Ok (response, ok), w') ∧
    disk w' = d ∧ trace w' = trace w) ∧
  ∀ text r w', examine_package resolve steady text audit w = (Ok r, w') → report_sound resolve d r.
Proof.
  intros Hq Hd. split.
  - assert (∀ text, finds (cwd w) d (verify_package resolve steady text audit) (fun _ => True)) as Hv.
    { intros text. eapply finds_bind; [apply finds_examine|]. intros. by apply finds_ret. }
    assert (finds (cwd w) d (verify_request resolve steady request audit) (fun _ => True)) as Hb.
    { unfold verify_request. destruct request as [text|]; [|apply finds_fail]. destruct (_ || _); [apply finds_fail|apply Hv]. }
    destruct (Hb w Hq Hd eq_refl) as [(Q & D & _ & T) H]. unfold usk_package_verify_command_json.
    destruct (verify_request resolve steady request audit w) as [[response|e] w1]; cbn [fst snd] in *;
      [by exists response, true, w1|]. rewrite H. by eexists _, false, w1.
  - intros text r w' H. destruct (finds_examine (cwd w) text audit w Hq Hd eq_refl) as [_ Hr]. rewrite H in Hr. exact Hr.
Qed.
End Examine.

(** The table of hashes is read exactly: a text is accepted if and only if each of
    its lines is a lower-case SHA-256, two spaces and a relative path without dot
    components, possibly with a carriage return, no path comes twice, and there are
    between one and ten thousand lines; the table holds exactly these entries. *)
Theorem hash_table_exact text hashes : parse_hashes text = Ok hashes ↔
  ∃ es, Forall2 line_of (lines text) es ∧ NoDup (fst <$> es) ∧ es ≠ [] ∧ N.of_nat (length es) <= max_files ∧
    hashes = StdMap.of_list es.
Proof. apply parsed_hashes. Qed.

(** ** The strings of a request *)

(** The bytes that the scanner reads back from what [quote] writes. *)
Definition readable_byte (c : ascii) : bool := (32 <=? code c) || (code c =? 9) || (code c =? 10) || (code c =? 13).

Lemma after_prefix needle rest : after needle (needle +:+ rest) = Some rest.
Proof.
  unfold after. assert (split_at needle (needle +:+ rest) = Some (EmptyString, needle +:+ rest)) as ->.
  { assert (String.prefix needle (needle +:+ rest) = true) as H by (apply prefix_append; eauto).
    destruct (needle +:+ rest); cbn [split_at]; by rewrite H. }
  cbn [mbind option_bind]. by rewrite str_drop_all.
Qed.

Lemma scan_byte c rest : scan_string (Archive.escape_byte c +:+ rest) =
  if readable_byte c then value ← scan_string rest; Some (String c value) else None.
Proof. destruct c as [[] [] [] [] [] [] [] []]; reflexivity. Qed.

Lemma scan_escaped v rest : scan_string (Archive.json_escape v +:+ String dquote rest) =
  if forall_bytes readable_byte v then Some v else None.
Proof.
  induction v as [|c v IH]; cbn [Archive.json_escape forall_bytes]; [done|].
  rewrite append_assoc, scan_byte, IH. destruct (readable_byte c); [|done]. by destruct (forall_bytes readable_byte v).
Qed.

(** A string is read back from a member as it was quoted, unless it holds a control
    character other than tab, newline and carriage return: such a string is read as the
    empty one, because the scanner knows no escape of the form [\u]. *)
Theorem quoted_member_exact key v rest :
  json_string (marker key +:+ ":" +:+ quote v +:+ rest) key = if forall_bytes readable_byte v then v else EmptyString.
Proof.
  unfold json_string. rewrite after_prefix. cbn [mbind option_bind]. rewrite after_prefix. cbn [mbind option_bind].
  unfold quote, Archive.quote.
  assert ((String dquote (Archive.json_escape v) +:+ String dquote EmptyString) +:+ rest =
    String dquote EmptyString +:+ (Archive.json_escape v +:+ String dquote rest)) as ->
    by (rewrite append_assoc; reflexivity).
  rewrite after_prefix. cbn [mbind option_bind]. rewrite scan_escaped. by destruct (forall_bytes readable_byte v).
Qed.

(** ** A package *)

(** A host that resolves no links. *)
Definition no_links_followed (_ : fs) (_ : name) : option name := None.

#[global] Instance plain_resolution : LinkResolution no_links_followed.
Proof.
  intros d n k [i x] Hok H. destruct (StableFile.through_link d n) eqn:Hl; [unfold stat, where_ in H; by rewrite Hl in H|].
  pose proof (stat_found _ _ _ _ _ Hl H) as E. destruct (decide (length n <= k)%nat) as [Hk|Hk]; [rewrite take_ge by done; eauto|].
  assert (is_dir_at d (take k n) = true) as (j & y & Ej & Hy)%is_dir_at_inv.
  { pose proof (lookup_inode_inv _ _ _ _ E) as [Ee _]. apply (tree_prefix d _ (drop k n) Hok); [by rewrite take_drop, Ee|].
    intros Hd%(f_equal length). rewrite length_drop in Hd. simpl in Hd. lia. }
  exists (j, y). rewrite stat_clear; [rewrite Ej; cbn; unfold StableFile.is_symlink; by rewrite Hy|].
  rewrite <- (take_drop k n) in Hl. apply not_true_is_false. intros Ht. revert Hl. apply not_false_iff_true.
  unfold StableFile.through_link in *. apply existsb_exists in Ht as (l & Hin & Ht). apply existsb_exists. exists l.
  apply in_seq in Hin. rewrite length_take in Hin. split; [apply in_seq; rewrite take_drop; lia|].
  rewrite take_take in Ht. rewrite take_drop. replace (l `min` k)%nat with l in Ht by lia. done.
Qed.

Fixpoint unlines (l : list string) : string :=
  match l with [] => EmptyString | x :: l => x +:+ String (ascii_of_N 10) (unlines l) end.

Definition sample_manifest : string := unlines
  ["schema = facman.built_package.v1"; "profile_id = p"; "target_os = o"; "target_arch = a"; "linkage_model = l";
   "entrypoint = manifest/package.v1.toml"; "workspace_lock = w"; "release_profile = r"; "package_manifest = m"; "signed = false"].

Definition sample_manifest_digest : string := "8c6790622e7240831339cb175b79ad990d1406bc256421c29c3b5b2536c392df".

Definition sample_components : string :=
  lit "{'schema':'facman.package_components.v1','c':[{'destination':'manifest/package.v1.toml','sha256':'" +:+
  sample_manifest_digest +:+ lit "','runtime_role':'runtime_required','size':209}]}".

Definition sample_components_digest : string := "5c2ca9a238f79eddbc885e65ebb9a24e452d282d3f6bca2b72a4122f9ae4dd77".

Definition sample_hashes : string := unlines
  [sample_components_digest +:+ "  manifest/components.v1.json"; sample_manifest_digest +:+ "  manifest/package.v1.toml"].

Definition package_entries_listed : list (name * N) :=
  [([], 1); (["k"], 2); (["k"; "manifest"], 3); (["k"; "manifest"; "package.v1.toml"], 4);
   (["k"; "manifest"; "components.v1.json"], 5); (["k"; "manifest"; "hashes.sha256"], 6)].

Definition sample_package : fs :=
  listed_fs package_entries_listed
    [(1, mk_inode 1 directory 0); (2, mk_inode 1 directory 0); (3, mk_inode 1 directory 0);
     (4, mk_inode 1 (regular sample_manifest) 0); (5, mk_inode 1 (regular sample_components) 0);
     (6, mk_inode 1 (regular sample_hashes) 0)].

Definition verify_sample_request : string :=
  lit "{'schema':'usk.package_verify_request.v1','package_root':'/k'}".

Definition passes (r : result Report * world) : bool :=
  match fst r with
  | Ok r => String.eqb (integrity r) "pass" && String.eqb (completeness r) "pass"
  | Throw _ => false
  end.

Lemma sample_package_tree : tree_ok sample_package.
Proof.
  apply listed_tree_ok. repeat constructor; vm_compute; try discriminate; by eexists || by left || by right.
Qed.

Lemma sample_passes :
  passes (examine_package no_links_followed (fun n => N.of_nat n) verify_sample_request false (quiet_world sample_package)) = true.
Proof. vm_cast_no_check (eq_refl true). Qed.

Lemma package_verification_sound_witness :
  ∃ r w' hashes, examine_package no_links_followed (fun n => N.of_nat n) verify_sample_request false
      (quiet_world sample_package) = (Ok r, w') ∧
    verified_tree sample_package (names (package_root r)) hashes ∧ files_verified r = N.of_nat (length hashes).
Proof.
  pose proof sample_passes as H. unfold passes in H.
  destruct (package_verification_sound no_links_followed (fun n => N.of_nat n) sample_package sample_package_tree
    None false (quiet_world sample_package) (quiet_world_quiet _) eq_refl) as [_ Hs].
  destruct (examine_package _ _ verify_sample_request false (quiet_world sample_package)) as [[r|e] w'] eqn:E; [|discriminate].
  cbn [fst] in H. apply andb_prop in H as [H1%String.eqb_eq H2%String.eqb_eq].
  destruct (Hs _ _ _ E) as (_ & Hr & _). destruct (Hr H1 H2) as (hashes & Hv & Hn & _). eauto 6.
Defined.

End PackageFacts.
