(* ===== verification/TargetInspect.v ===== *)
(** Target inspection: [runtime/setup/policy/usk_target_inspect.cpp] on Linux, the
    evidence about a live target that is collected from the host and judged by the
    policy. *)

From Stdlib Require Import Ascii String NArith ZArith Lia.
From stdpp Require Import base list strings gmap sets.
From S2P Require Import Prelude Sha256 Path Effects World RecordIo TargetPolicy PackageVerify.

Module TargetInspect.
Import Path Effects World TargetPolicy.

Record TargetInspectionRequest := mk_request {
  requested_class : TargetClass;
  requested_root : path;
  requested_acceptance_root : path;
  source_archive : path;
  requested_bytes : N;
  requested_effects : list string }.

Record InspectedTarget := mk_inspected { evidence : TargetEvidence; decision : TargetPolicyDecision }.

Definition newline : string := String (ascii_of_N 10) EmptyString.

(** ** Paths *)

(** [fs::absolute(p)] of a path that is not empty; [current] is the working directory. *)
Definition absolute (current p : path) : path := if is_absolute p then p else current /+ p.

Definition normalized_path (current value : path) : string := generic_string (lexically_normal (absolute current value)).

Definition same_or_below (current root candidate : path) : bool :=
  if is_empty root || is_empty candidate then false
  else
    let absolute_root := lexically_normal (absolute current root) in
    let absolute_candidate := lexically_normal (absolute current candidate) in
    if path_eqb absolute_root absolute_candidate then true
    else
      let relative := lexically_relative absolute_candidate absolute_root in
      if is_empty relative || is_absolute relative then false
      else forallb (fun part => negb (String.eqb part "..")) (components relative).

(** ** Mounts *)

(** The words that [operator>>] reads from a text. *)
Fixpoint words (text : string) : list string :=
  match text with
  | EmptyString => []
  | String c rest =>
    if PackageVerify.is_space c then words rest
    else
      match rest with
      | EmptyString => [String c EmptyString]
      | String d _ =>
        if PackageVerify.is_space d then String c EmptyString :: words rest
        else match words rest with [] => [String c EmptyString] | w :: ws => String c w :: ws end
      end
  end.

(** The mount point and the type of a line of [/proc/self/mountinfo]. *)
Definition mount_entry (line : string) : option (string * string) :=
  '(fields, from) ← PackageVerify.split_at " - " line;
  mount ← words fields !! 4%nat;
  Some (mount, default EmptyString (head (words (str_drop 3 from)))).

Definition covers (candidate mount : string) : bool :=
  String.eqb candidate mount ||
  ((size mount <? size candidate) && String.prefix (if String.eqb mount "/" then mount else mount +:+ "/") candidate).

(** One line: the mount selected so far and its type. *)
Definition select_mount (candidate : string) (selected : string * string) (line : string) : string * string :=
  match mount_entry line with
  | None => selected
  | Some (mount, type) =>
    if covers candidate mount && (size (fst selected) <=? size mount) then (mount, type) else selected
  end.

Definition remote : list string := ["9p"; "afs"; "ceph"; "cifs"; "fuse.sshfs"; "nfs"; "nfs4"; "smb3"].

Definition classify (type : string) : bool * string :=
  if is_empty type then (false, "unproven")
  else (negb (existsb (String.eqb type) remote), "linux_" +:+ type).

Definition classify_mounts (mounts candidate : string) : bool * string :=
  classify (snd (fold_left (select_mount candidate) (PackageVerify.lines mounts) (EmptyString, EmptyString))).

(** ** The host *)

Definition fixed_roots : list path :=
  ["/bin"; "/boot"; "/dev"; "/etc"; "/lib"; "/proc"; "/root"; "/run"; "/sbin"; "/sys"; "/usr"; "/var"].

Section Host.
(** The name that a name through symbolic links or dot components stands for, the
    environment, the text of [/proc/self/mountinfo], and the bytes that [statvfs] says are
    available. *)
Context (resolve : fs → name → option name) (getenv : string → option string).
Context (mountinfo : fs → option string) (available : fs → name → option N).

(** The Steam directories below a directory of the environment. *)
Definition steam_roots (variable : string) : list path :=
  match getenv variable with
  | Some value => if is_empty value then [] else [value /+ ".steam"; value /+ ".local/share/Steam"]
  | None => []
  end.

Definition protected_roots : list path := fixed_roots ++ concat (map steam_roots ["HOME"; "XDG_DATA_HOME"]).

(** The body of the loop: this root does not forbid the target. *)
Definition root_permits (current target authorized_root root : path) : bool :=
  negb (same_or_below current root target || same_or_below current target root) ||
  negb (is_empty authorized_root) && same_or_below current authorized_root target &&
  negb (same_or_below current root authorized_root).

Definition protected_root_absent (current target authorized_root : path) : bool :=
  forallb (root_permits current target authorized_root) protected_roots.

(** [S_ISDIR]. *)
Definition is_dir (x : inode) : bool := match node x with directory => true | _ => false end.

Definition dotted (n : name) : bool := existsb (fun c => String.eqb c "." || String.eqb c "..") n.

(** [stat] of a path: an error, nothing, or an object; a final separator asks for a directory. *)
Definition stat (d : fs) (p : path) : option (option (N * inode)) :=
  m ← (if dotted (names p) then resolve d (names p) else Some (names p));
  found ← PackageVerify.stat resolve d m;
  Some ('(i, x) ← found; if ends_with slash p && negb (is_dir x) then None else Some (i, x)).

(** [lstat] of a path without dot components: a final separator follows a link. *)
Definition lstat (d : fs) (p : path) : option (N * inode) :=
  if ends_with slash p then default None (stat d p) else PackageVerify.lstat_entry resolve d (names p).

(** [fs::exists(p, error)]: nothing for an error. *)
Definition exists_error (p : path) : io (option bool) :=
  observe (fun d => found ← stat d p; Some (bool_decide (is_Some found))).

(** [fs::is_directory(p, error) && !error]. *)
Definition is_directory (p : path) : io bool :=
  r ← observe (fun d => stat d p);
  ret (match r with Some (Some (_, x)) => is_dir x | _ => false end).

(** Whether a directory has no entries, or a file no bytes. *)
Definition empty_at (d : fs) (p : path) : option bool :=
  m ← (if dotted (names p) then resolve d (names p) else Some (names p));
  m ← PackageVerify.where_ resolve d m;
  '(_, x) ← lookup_inode d m;
  match node x with
  | directory => Some (match children d m with [] => true | _ => false end)
  | regular content => Some (size content =? 0)
  | _ => None
  end.

(** [fs::is_empty(p, error) && !error]. *)
Definition is_empty_path (p : path) : io bool := r ← observe (fun d => empty_at d p); ret (default false r).

(** [fs::equivalent(p, q, error) && !error]. *)
Definition equivalent (p q : path) : io bool :=
  r ← observe (fun d => fp ← stat d p; fq ← stat d q; Some (fp, fq));
  ret (match r with
    | Some (Some (i, x), Some (j, y)) =>
      match node x, node y with special, _ | _, special => false | _, _ => i =? j end
    | _ => false
    end).

Definition safe_directory_identity (p : path) : io string :=
  r ← observe (fun d => lstat d p);
  match r with
  | Some (i, x) =>
    if is_dir x then ret (StableFile.hex_id (dev x) +:+ ":" +:+ StableFile.hex_id i)
    else fail "cannot inspect safe target ancestor identity"
  | None => fail "cannot inspect safe target ancestor identity"
  end.

(** The loop up to the first path that exists; the root is its own parent. *)
Fixpoint ancestor_loop (fuel : nat) (p : path) : io path :=
  if is_empty p then ret p
  else
    there ← exists_error p;
    match there with
    | Some true => ret p
    | None => fail "target ancestor inspection failed"
    | Some false =>
      let parent := parent_path p in
      if path_eqb parent p then ret p
      else match fuel with O => raise out_of_fuel | S fuel => ancestor_loop fuel parent end
    end.

Definition existing_ancestor (current p : path) : io path :=
  let p := lexically_normal (absolute current p) in
  p ← ancestor_loop (String.length p) p;
  ok ← (if is_empty p then ret false else is_directory p);
  if ok : bool then ret p else fail "target has no stable existing directory ancestor".

Fixpoint components_loop (current : path) (parts : list string) (found : list path) : io (list path) :=
  match parts with
  | [] => ret found
  | part :: parts =>
    let current := current /+ part in
    there ← exists_error current;
    match there with
    | Some true => components_loop current parts (found ++ [current])
    | Some false => ret found
    | None => fail "target component inspection failed"
    end
  end.

Definition existing_components (current target : path) : io (list path) :=
  let p := lexically_normal (absolute current target) in
  there ← (if is_empty (root_text p) then ret None else exists_error (root_text p));
  components_loop (root_text p) (relative_components p) (if default false there then [root_text p] else []).

Fixpoint components_stable (found : list path) : io bool :=
  match found with
  | [] => ret true
  | p :: found =>
    r ← observe (fun d => lstat d p);
    match r with
    | Some (_, x) => if StableFile.is_symlink x then ret false else components_stable found
    | None => ret false
    end
  end.

Definition filesystem_kind (current ancestor : path) : io (bool * string) :=
  mounts ← observe mountinfo;
  ret (match mounts with
    | None => (false, "unproven")
    | Some text => classify_mounts text (normalized_path current ancestor)
    end).

Definition filesystem_identity (ancestor : path) (kind : string) : io string :=
  r ← observe (fun d => stat d ancestor);
  match r with
  | Some (Some (_, x)) => lift (Sha256.hash_text (kind +:+ newline +:+ to_string (dev x)))
  | _ => ret EmptyString
  end.

Definition source_target_distinct (current source target : path) : io bool :=
  if is_empty source || is_empty target then ret false
  else
    let absolute_source := lexically_normal (absolute current source) in
    let absolute_target := lexically_normal (absolute current target) in
    if same_or_below current absolute_target absolute_source then ret false
    else
      there ← exists_error absolute_target;
      same ← (if default false there then equivalent absolute_source absolute_target else ret false);
      ret (negb same).

Definition find_target_state (target : path) : io TargetState :=
  there ← exists_error target;
  match there with
  | None => fail "target state inspection failed"
  | Some false => ret nonexistent
  | Some true =>
    vacant ← and_m (is_directory target) (is_empty_path target);
    ret (if vacant : bool then empty else nonempty)
  end.

(** ** The evidence *)

Definition identity_text (target state ancestor directory digest : string) (source : StableFile.StableFileIdentity) : string :=
  target +:+ newline +:+ state +:+ newline +:+ ancestor +:+ newline +:+ directory +:+ newline +:+ digest +:+ newline +:+
  StableFile.volume_id source +:+ newline +:+ StableFile.file_id source +:+ newline +:+
  to_string (StableFile.size_bytes source) +:+ newline +:+ to_string (StableFile.modified_time_ns source).

(** The block that may throw: the digest that binds the target to the source. *)
Definition target_identity (current : path) (request : TargetInspectionRequest) (state : TargetState) (ancestor : path)
    (digest : string) : io string :=
  source ← StableFile.open_stable (source_archive request);
  directory ← safe_directory_identity ancestor;
  bound ← lift (Sha256.hash_text (identity_text (normalized_path current (requested_root request))
    (target_state_name state) (normalized_path current ancestor) directory digest (StableFile.identity_ source)));
  StableFile.verify_unchanged source;;
  ret bound.

Definition no_effects (request : TargetInspectionRequest) : bool :=
  match requested_effects request with [] => true | _ => false end.

Definition inspect_live_target (request : TargetInspectionRequest) : io TargetEvidence :=
  let target := requested_root request in
  let fill := mk_evidence (requested_class request) target (requested_acceptance_root request) in
  if is_empty target || negb (is_absolute target) then
    ret (fill unproven EmptyString EmptyString EmptyString (requested_effects request) (requested_bytes request) 0
      (negb (is_empty target)) false false false false false (negb (no_effects request)))
  else
    w ← get;
    let current := cwd w in
    ancestor ← existing_ancestor current target;
    found ← existing_components current target;
    stable ← components_stable found;
    let excluded := protected_root_absent current target (requested_acceptance_root request) in
    state ← find_target_state target;
    '(local, kind) ← filesystem_kind current ancestor;
    digest ← filesystem_identity ancestor kind;
    capacity ← observe (fun d => available d (names ancestor));
    match capacity with
    | None => fail "target capacity inspection failed"
    | Some bytes =>
      distinct ← source_target_distinct current (source_archive request) target;
      '(distinct, identity) ← otherwise
        (identity ← target_identity current request state ancestor digest; ret (distinct, identity))
        (ret (false, EmptyString));
      ret (fill state identity digest kind (requested_effects request) (requested_bytes request) bytes
        true local stable stable excluded distinct (negb (no_effects request)))
    end.

Definition inspect_and_evaluate_live_target (activation : Activation) (request : TargetInspectionRequest) : io InspectedTarget :=
  evidence ← inspect_live_target request;
  ret (mk_inspected evidence (evaluate_live_target activation evidence)).
End Host.
End TargetInspect.
