(* ===== verification/TargetFacts.v ===== *)
(** What target inspection shows: containment of paths, the mount that is selected, and
    what an accepted target is on an undisturbed host. *)

From Stdlib Require Import Ascii String NArith ZArith Lia.
From stdpp Require Import base list strings gmap sets.
From S2P Require Import Prelude Sha256 Path PathFacts Effects World RecordIo RecordFacts DirectoryFacts TreeFacts.
From S2P Require Import TargetPolicy PackageVerify PackageHost PackageFacts TargetInspect.

Module TargetFacts.
Import Path PathFacts Effects World RecordFacts DirectoryFacts TreeFacts TargetPolicy PackageHost TargetInspect.

(** ** Containment *)

(** A component of a normal path below its root: a safe name, or the empty one at the end. *)
Definition normal_part (s : string) : Prop := s = EmptyString ∨ safe_name s.

Lemma mismatch_common c a b : mismatch (c ++ a) (c ++ b) = mismatch a b.
Proof. induction c as [|x c IH]; [done|]. cbn [app mismatch]. by rewrite String.eqb_refl. Qed.

Lemma up_count_parts l : Forall normal_part l →
  up_count l = Z.of_nat (length (List.filter (fun s => negb (is_empty s)) l)).
Proof.
  unfold up_count. intros H. enough (∀ n, fold_left (fun n c => if String.eqb c ".." then (n - 1)%Z
    else if is_empty c || String.eqb c "." then n else (n + 1)%Z) l n =
    (n + Z.of_nat (length (List.filter (fun s => negb (is_empty s)) l)))%Z) as E by (rewrite E; lia).
  induction H as [|s l Hs _ IH]; intros n; cbn [fold_left List.filter length]; [lia|]. rewrite IH.
  destruct Hs as [->|([_ He] & Hd & Hdd)]; [done|].
  rewrite He, (proj2 (String.eqb_neq _ _) Hd), (proj2 (String.eqb_neq _ _) Hdd). cbn [negb orb length]. lia.
Qed.

(** Joining parts of a relative path keeps the names. *)
Lemma join_parts l acc : Forall (fun s => s = EmptyString ∨ plain_name s) l → is_absolute acc = false → is_empty acc = false →
  names (fold_left append_path l acc) = names acc ++ List.filter (fun s => negb (is_empty s)) l ∧
  is_absolute (fold_left append_path l acc) = false.
Proof.
  intros H. revert acc. induction H as [|s l Hs _ IH]; intros acc Ha He; cbn [fold_left List.filter]; [by rewrite app_nil_r|].
  assert (is_absolute s = false) as Hs' by (destruct Hs as [->|Hs]; [done|by apply plain_not_absolute]).
  assert (is_absolute (acc /+ s) = false ∧ is_empty (acc /+ s) = false) as [Ha' He'].
  { unfold append_path. rewrite Hs', He. cbn [orb]. by destruct acc, (ends_with slash _). }
  destruct (IH _ Ha' He') as [E1 E2]. split; [|done]. rewrite E1, names_append by done.
  destruct Hs as [->|Hs]; [by cbn; rewrite app_nil_r|]. destruct (Hs) as [_ Hn]. rewrite Hn, (names_of_plain s Hs). cbn [negb].
  by rewrite <- app_assoc.
Qed.

Lemma no_dotdot r : forallb (fun part => negb (String.eqb part "..")) (components r) = true ↔ ".." ∉ names r.
Proof.
  rewrite forallb_forall. split.
  - intros H Hin%names_in_components%list_elem_of_In. by specialize (H _ Hin).
  - intros H x Hx%list_elem_of_In. apply negb_true_iff, String.eqb_neq. intros ->. unfold components in Hx.
    rewrite !elem_of_app in Hx. destruct Hx as [Hx|[Hx|Hx]]; [| done |].
    + destruct (is_absolute r); [|by apply elem_of_nil in Hx]. by apply list_elem_of_singleton in Hx.
    + destruct (_ && _); [|by apply elem_of_nil in Hx]. by apply list_elem_of_singleton in Hx.
Qed.

(** The parts of a path below its root. *)
Lemma absolute_parts p : is_absolute p = true → Forall safe_name (names p) →
  ∃ t, components p = "/" :: names p ++ t ∧ (t = [] ∨ t = [EmptyString]) ∧ Forall normal_part (names p ++ t).
Proof.
  intros Ha Hs. unfold components. rewrite Ha. eexists. split; [done|].
  assert (Forall normal_part (names p)) as Hn by (eapply Forall_impl; [exact Hs|by right]).
  destruct (_ && _); (split; [auto|]); apply Forall_app; (split; [done|]); repeat constructor.
Qed.

Lemma names_prefix (R C tr tc c a b : list string) : Forall (fun s => s ≠ EmptyString) R → (tc = [] ∨ tc = [EmptyString]) →
  R ++ tr = c ++ b → C ++ tc = c ++ a → b = [] ∨ b = [EmptyString] → (tr = [] ∨ tr = [EmptyString]) →
  ∃ rest, C = R ++ rest.
Proof.
  intros HR Htc ER EC Hb Htr.
  assert (∃ l, C ++ tc = R ++ l) as [l El].
  { destruct Hb as [->| ->].
    - rewrite app_nil_r in ER. exists (tr ++ a). by rewrite EC, <- ER, <- app_assoc.
    - exists a. rewrite EC. f_equal. destruct Htr as [->| ->].
      + rewrite app_nil_r in ER. exfalso. rewrite ER, Forall_app in HR. destruct HR as [_ HR]. by inversion HR.
      + by apply app_inj_tail in ER as [-> _]. }
  destruct Htc as [->| ->]; [rewrite app_nil_r in El; eauto|].
  destruct l as [|x l _] using rev_ind.
  - rewrite app_nil_r in El. exfalso. rewrite <- El, Forall_app in HR. destruct HR as [_ HR]. by inversion HR.
  - rewrite app_assoc in El. apply app_inj_tail in El as [-> _]. eauto.
Qed.

Lemma filter_parts_nil l : List.filter (fun s => negb (is_empty s)) l = [] → Forall (fun s => s = EmptyString) l.
Proof. induction l as [|s l IH]; [constructor|]. cbn. destruct s; [|done]. intros H. constructor; auto. Qed.

Lemma parts_end (c b R tr : list string) : Forall (fun s => s ≠ EmptyString) R → (tr = [] ∨ tr = [EmptyString]) →
  R ++ tr = c ++ b → Forall (fun s => s = EmptyString) b → b = [] ∨ b = [EmptyString].
Proof.
  intros HR Htr E Hb. destruct b as [|x b _] using rev_ind; [by left|right].
  apply Forall_app in Hb as [Hb Hx]. inversion Hx as [|? ? -> _]; subst.
  assert (∃ c', R = c' ++ b) as [c' Ec].
  { destruct Htr as [->| ->].
    - exfalso. rewrite app_nil_r in E. rewrite E, !Forall_app in HR. destruct HR as (_ & _ & HR). by inversion HR.
    - rewrite app_assoc in E. apply app_inj_tail in E as [-> _]. eauto. }
  destruct b as [|y b]; [done|]. rewrite Ec, Forall_app in HR. destruct HR as [_ HR].
  inversion HR; subst. by inversion Hb; subst.
Qed.

(** What is left of the base decides whether the relative path climbs. *)
Lemma relative_climbs a b : Forall normal_part a → Forall normal_part b →
  let r := match a, b with
    | [], [] => "."
    | a, b =>
      let n := up_count b in
      if (n <? 0)%Z then EmptyString
      else if (n =? 0)%Z && (match a with [] => true | x :: _ => is_empty x end) then "."
      else fold_left append_path (repeat ".." (Z.to_nat n) ++ a) EmptyString
    end in
  is_empty r = false ∧ is_absolute r = false ∧ ".." ∉ names r ↔ List.filter (fun s => negb (is_empty s)) b = [].
Proof.
  intros Fa Fb. assert (is_empty "." = false ∧ is_absolute "." = false ∧ ".." ∉ names ".") as Hdot.
  { split; [done|]. split; [done|]. change (names ".") with ["."]. by intros H%list_elem_of_singleton. }
  assert (∀ l, Forall normal_part l → Forall (fun s => s = EmptyString ∨ plain_name s) l) as Hparts.
  { intros l Hl. eapply Forall_impl; [exact Hl|]. intros s [->|[H _]]; auto. }
  cbv zeta. rewrite (up_count_parts b Fb). destruct (List.filter _ b) as [|y ys] eqn:Eb.
  - split; [done|]. intros _. change (Z.of_nat (length (@nil string))) with 0%Z. cbn [Z.ltb Z.eqb Z.compare andb Z.to_nat repeat app].
    destruct a as [|x a]; [by destruct b|]. destruct (is_empty x) eqn:Ex; [done|].
    apply Forall_cons in Fa as [Hx Fa]. destruct Hx as [->|Hx]; [done|]. destruct (Hx) as (Hpl & _ & Hdd).
    change (Z.to_nat 0) with 0%nat. cbn [repeat app fold_left]. assert (EmptyString /+ x = x) as -> by (unfold append_path; by rewrite (plain_not_absolute x Hpl)).
    destruct (join_parts a x (Hparts a Fa) (plain_not_absolute x Hpl) Ex) as [En Ea]. split; [|split; [done|]].
    + destruct (fold_left append_path a x); [|done]. by rewrite (names_of_plain x Hpl) in En.
    + rewrite En, (names_of_plain x Hpl). cbn [app]. intros [E|Hin]%elem_of_cons; [by subst x|].
      apply list_elem_of_In, filter_In in Hin as [Hin Hne]. rewrite Forall_forall in Fa.
      destruct (Fa _ (proj2 (list_elem_of_In _ _) Hin)) as [?|(_ & _ & ?)]; done.
  - split; [|done]. intros (_ & _ & Hd). exfalso. apply Hd. clear Hd.
    replace (Z.of_nat (length (y :: ys)) <? 0)%Z with false by (symmetry; apply Z.ltb_ge; lia).
    replace (Z.of_nat (length (y :: ys)) =? 0)%Z with false by (symmetry; apply Z.eqb_neq; cbn [length]; lia).
    assert (b ≠ []) as Hb by (by intros ->). rewrite Nat2Z.id. cbn [length repeat app fold_left].
    change (EmptyString /+ "..") with "..".
    destruct (join_parts (repeat ".." (length ys) ++ a) "..") as [En _]; [|done|done|].
    + apply Forall_app. split; [|by apply Hparts]. apply Forall_forall. intros s Hs%list_elem_of_In%repeat_spec. subst. by right.
    + assert (".." ∈ names (fold_left append_path (repeat ".." (length ys) ++ a) "..")) as Hin by (rewrite En; left).
      by destruct a, b.
Qed.

Lemma relative_exact p base : is_absolute p = true → is_absolute base = true →
  Forall safe_name (names p) → Forall safe_name (names base) →
  let r := lexically_relative p base in
  is_empty r = false ∧ is_absolute r = false ∧ ".." ∉ names r ↔ ∃ rest, names p = names base ++ rest.
Proof.
  intros Hp Hb Sp Sb. unfold lexically_relative. rewrite Hp, Hb. cbn [Bool.eqb negb].
  destruct (absolute_parts p Hp Sp) as (tc & -> & Htc & Fp). destruct (absolute_parts base Hb Sb) as (tr & -> & Htr & Fb).
  cbn [mismatch]. change (String.eqb "/" "/") with true. cbv iota.
  destruct (mismatch (names p ++ tc) (names base ++ tr)) as [a b] eqn:Em.
  destruct (mismatch_spec _ _ _ _ Em) as (c & Ea & Eb & _).
  rewrite Ea, Forall_app in Fp. destruct Fp as [_ Fa]. rewrite Eb, Forall_app in Fb. destruct Fb as [_ Fb].
  etransitivity; [apply (relative_climbs a b Fa Fb)|].
  assert (Forall (fun s => s ≠ EmptyString) (names base)) as Hne.
  { eapply Forall_impl; [exact Sb|]. intros s [[_ He] _] ->. done. }
  split.
  - intros Hf%filter_parts_nil. apply (names_prefix (names base) (names p) tr tc c a b); try done.
    by apply (parts_end c b (names base) tr).
  - intros [rest E]. rewrite E, <- app_assoc, mismatch_common in Em.
    destruct Htr as [->| ->].
    + assert (b = []) as -> by (by destruct (rest ++ tc); injection Em as _ <-). done.
    + destruct (rest ++ tc) as [|x l]; cbn [mismatch] in Em; [by injection Em as _ <-|].
      destruct (String.eqb x EmptyString); [|by injection Em as _ <-].
      by destruct l; cbn [mismatch] in Em; injection Em as _ <-.
Qed.

(** The names of a path once it is absolute and normal. *)
Definition place (current p : path) : name := names (lexically_normal (absolute current p)).

(** One path is another one or lies below it. *)
Definition contains (current root candidate : path) : Prop :=
  root ≠ EmptyString ∧ candidate ≠ EmptyString ∧ ∃ rest, place current candidate = place current root ++ rest.

Lemma absolute_absolute current p : is_absolute current = true → is_absolute (absolute current p) = true.
Proof.
  intros Hc. unfold absolute. destruct (is_absolute p) eqn:Hp; [done|]. unfold append_path. rewrite Hp.
  destruct current as [|c current]; [done|]. cbn [is_empty orb]. by destruct (ends_with slash _).
Qed.

Lemma same_or_below_exact current root candidate : is_absolute current = true →
  same_or_below current root candidate = true ↔ contains current root candidate.
Proof.
  intros Hc. unfold same_or_below, contains, place.
  destruct root as [|r root]; cbn [is_empty orb]; [by split; [|intros [? _]]|].
  destruct candidate as [|c candidate]; cbn [is_empty orb]; [by split; [|intros (_ & ? & _)]|].
  set (R := lexically_normal (absolute current (String r root))). set (C := lexically_normal (absolute current (String c candidate))).
  destruct (normal_absolute _ (absolute_absolute current (String r root) Hc)) as [Ar Sr]. fold R in Ar, Sr.
  destruct (normal_absolute _ (absolute_absolute current (String c candidate) Hc)) as [Ac Sc]. fold C in Ac, Sc.
  unfold path_eqb. destruct (bool_decide_reflect (components R = components C)) as [E|_].
  - split; [|done]. intros _. split; [done|]. split; [done|]. exists []. rewrite app_nil_r.
    destruct (absolute_parts R Ar Sr) as (tr & Er & Htr & _). destruct (absolute_parts C Ac Sc) as (tc & Ec & Htc & _).
    rewrite Er, Ec in E. injection E as E.
    assert (∀ l t, Forall safe_name l → (t = [] ∨ t = [EmptyString]) → List.filter (fun s => negb (is_empty s)) (l ++ t) = l) as Hf.
    { intros l t Hl Ht. rewrite List.filter_app. replace (List.filter _ t) with (@nil string) by (by destruct Ht as [->| ->]).
      rewrite app_nil_r. induction Hl as [|x l [[_ Hx] _] _ IH]; [done|]. cbn [List.filter]. by rewrite Hx, IH. }
    by rewrite <- (Hf _ tc Sc Htc), <- E, (Hf _ tr Sr Htr).
  - rewrite <- (relative_exact C R Ac Ar Sc Sr). destruct (is_empty (lexically_relative C R)); cbn [orb];
      [by split; [|intros (_ & _ & ? & _)]|].
    destruct (is_absolute (lexically_relative C R)); [by split; [|intros (_ & _ & _ & ? & _)]|].
    rewrite no_dotdot. split; [done|]. by intros (_ & _ & _ & _ & ?).
Qed.

(** ** Protected roots *)

(** No protected root overlaps the target, unless an authorized root above the target is
    itself outside that protected root. *)
Definition unprotected (getenv : string → option string) (current target authorized : path) : Prop :=
  ∀ root, root ∈ protected_roots getenv →
    ¬ contains current root target ∧ ¬ contains current target root ∨
    contains current authorized target ∧ ¬ contains current root authorized.

Lemma protected_exact getenv current target authorized : is_absolute current = true →
  protected_root_absent getenv current target authorized = true ↔ unprotected getenv current target authorized.
Proof.
  intros Hc. unfold protected_root_absent, unprotected, root_permits. rewrite forallb_forall.
  apply forall_proper. intros root. rewrite list_elem_of_In.
  rewrite <- !(same_or_below_exact current) by done.
  assert (same_or_below current authorized target = true → is_empty authorized = false) as Ha.
  { unfold same_or_below. by destruct authorized. }
  rewrite orb_true_iff, !andb_true_iff, !negb_true_iff, orb_false_iff, <- !not_true_iff_false in *.
  split; intros H Hin; destruct (H Hin) as [Hl|Hr]; [by left|right|by left|right]; destruct_and?; auto.
Qed.

(** ** Mounts *)

Definition mount_table (mounts : string) : list (string * string) := omap mount_entry (PackageVerify.lines mounts).

(** The last of the longest mount points that hold the candidate. *)
Definition chosen (candidate : string) (table : list (string * string)) (mount type : string) : Prop :=
  ∃ before later, table = before ++ (mount, type) :: later ∧ covers candidate mount = true ∧
    (∀ e, e ∈ before → covers candidate (fst e) = true → size (fst e) <= size mount) ∧
    (∀ e, e ∈ later → covers candidate (fst e) = true → size (fst e) < size mount).

Lemma selected candidate lines :
  let selected := fold_left (select_mount candidate) lines (EmptyString, EmptyString) in
  let table := omap mount_entry lines in
  chosen candidate table (fst selected) (snd selected) ∨
  (∀ e, e ∈ table → covers candidate (fst e) = false) ∧ selected = (EmptyString, EmptyString).
Proof.
  cbv zeta. induction lines as [|line lines IH] using rev_ind; [right; split; [by intros e ?%elem_of_nil|done]|].
  rewrite fold_left_app, omap_app. cbn [fold_left omap list_omap]. set (s := fold_left _ _ _) in *. unfold select_mount.
  destruct (mount_entry line) as [[mount type]|]; [|by rewrite app_nil_r]. cbn [fst].
  destruct (covers candidate mount) eqn:Ec; cbn [andb].
  - destruct (N.leb_spec (size (fst s)) (size mount)) as [Hle|Hgt].
    + left. exists (omap mount_entry lines), []. split; [done|]. split; [done|]. split; [|by intros e ?%elem_of_nil].
      intros e He Hcov. destruct IH as [(before & later & E & _ & Hb & Hl)|[Hno _]]; [|by rewrite (Hno e He) in Hcov].
      cbn [fst]. rewrite E in He. apply elem_of_app in He as [He|[->|He]%elem_of_cons].
      * specialize (Hb _ He Hcov). lia.
      * exact Hle.
      * specialize (Hl _ He Hcov). lia.
    + left. destruct IH as [(before & later & E & Hcov & Hb & Hl)|[_ E]]; [|rewrite E in Hgt; by apply N.nlt_0_r in Hgt].
      exists before, (later ++ [(mount, type)]). rewrite E, <- app_assoc. split; [done|]. split; [done|]. split; [done|].
      intros e [He| ->%list_elem_of_singleton]%elem_of_app Hce; [by apply Hl|exact Hgt].
  - destruct IH as [(before & later & E & Hcov & Hb & Hl)|[Hno E]].
    + left. exists before, (later ++ [(mount, type)]). rewrite E, <- app_assoc. split; [done|]. split; [done|]. split; [done|].
      intros e [He| ->%list_elem_of_singleton]%elem_of_app Hce; [by apply Hl|]. cbn in Hce. congruence.
    + right. split; [|done]. intros e [He| ->%list_elem_of_singleton]%elem_of_app; [by apply Hno|done].
Qed.

(** The type of the mount that holds a path is known and local. *)
Definition on_local_mount (mounts candidate kind : string) : Prop :=
  ∃ mount type, chosen candidate (mount_table mounts) mount type ∧ type ≠ EmptyString ∧ ¬ type ∈ remote ∧
    kind = "linux_" +:+ type.

Lemma classified_local mounts candidate kind :
  classify_mounts mounts candidate = (true, kind) → on_local_mount mounts candidate kind.
Proof.
  unfold classify_mounts. destruct (selected candidate (PackageVerify.lines mounts)) as [Hc|[_ E]]; [|by rewrite E].
  intros H. eexists _, _. split; [exact Hc|]. clear Hc. revert H. generalize (fold_left (select_mount candidate)
    (PackageVerify.lines mounts) (EmptyString, EmptyString)).2 as type. intros type. unfold classify.
  destruct (is_empty type) eqn:Ee; [done|]. intros [Hr <-]%pair_equal_spec. apply negb_true_iff in Hr.
  split; [by destruct type|]. split; [|done]. intros Hin. apply not_true_iff_false in Hr.
  apply Hr, existsb_exists. exists type. split; [by apply list_elem_of_In|apply String.eqb_refl].
Qed.

(** ** Normal paths *)

Lemma undotted_safe n : Forall plain_name n → dotted n = false ↔ Forall safe_name n.
Proof.
  unfold dotted. intros Hp. split.
  - intros H. apply Forall_forall. intros x Hx. rewrite Forall_forall in Hp. split; [by apply Hp|].
    assert (String.eqb x "." || String.eqb x ".." = false) as [E1%String.eqb_neq E2%String.eqb_neq]%orb_false_elim; [|done].
    apply not_true_is_false. intros Ht. apply not_true_iff_false in H. apply H, existsb_exists. exists x.
    by split; [apply list_elem_of_In|].
  - intros H. apply not_true_is_false. intros (x & Hx%list_elem_of_In & Ht)%existsb_exists. rewrite Forall_forall in H.
    destruct (H x Hx) as (_ & H1 & H2). by rewrite (proj2 (String.eqb_neq _ _) H1), (proj2 (String.eqb_neq _ _) H2) in Ht.
Qed.

Lemma parent_trailing p : is_absolute p = true → ends_with slash p = true →
  names (parent_path p) = names p ∧ is_absolute (parent_path p) = true ∧
  (ends_with slash (parent_path p) = false ∨ names p = []) ∧
  (names p ≠ [] → (String.length (parent_path p) < String.length p)%nat).
Proof.
  intros Ha [a ->]%names_trailing. unfold parent_path. rewrite (before_last_slash_snoc a EmptyString eq_refl).
  set (s := a +:+ String slash EmptyString) in *. pose proof (drop_trailing_names (String.length s) s) as En.
  pose proof (drop_trailing_ends (String.length s) s (le_n _)) as Ee.
  pose proof (drop_trailing_length (String.length s) s) as Ld. rewrite Ha.
  destruct (is_empty (drop_trailing_slashes (String.length s) s)) eqn:Em.
  - assert (names s = []) as -> by (rewrite <- En; by destruct (drop_trailing_slashes (String.length s) s)). split_and!; [done|done|by right|done].
  - split; [done|]. split.
    { destruct (drop_trailing_absolute (String.length s) s Ha) as [?|E]; [done|]. by rewrite E in Em. }
    split; [by left|]. intros _. apply Nat.le_neq. split; [done|]. intros E. revert Ee. apply not_false_iff_true.
    assert (ends_with slash s = true) as Hs by (unfold s, ends_with; by rewrite last_byte_app, Ascii.eqb_refl).
    assert (drop_trailing_slashes (String.length s) s = s) as ->; [|done].
    destruct (String.length s) as [|n] eqn:El; [by destruct s|]. exfalso. cbn [drop_trailing_slashes] in E. rewrite Hs in E.
    pose proof (drop_trailing_length n (str_take (String.length s - 1) s)) as H. rewrite length_str_take in H. lia.
Qed.

(** The parent of an absolute path: its names, and that it is shorter unless it is the root. *)
Lemma parent_names p : is_absolute p = true →
  is_absolute (parent_path p) = true ∧
  names (parent_path p) = (if ends_with slash p then names p else removelast (names p)) ∧
  (ends_with slash (parent_path p) = false ∨ names (parent_path p) = []) ∧
  (path_eqb (parent_path p) p = false → (String.length (parent_path p) < String.length p)%nat).
Proof.
  intros Ha. destruct (ends_with slash p) eqn:He.
  - destruct (parent_trailing p Ha He) as (En & Ea & Ht & Hl). rewrite En. split_and!; [done..|].
    intros Hp. apply Hl. intros E. revert Hp. apply not_false_iff_true.
    rewrite path_eqb_names; [|done|done|by right; rewrite En|by right]. by apply bool_decide_eq_true.
  - destruct (parent_absolute p Ha He) as (En & Ea & Ht & Hl). by auto.
Qed.

(** Below its root, a path without dot components is normal up to separators. *)
Lemma normal_names p : is_absolute p = true → Forall safe_name (names p) → names (lexically_normal p) = names p.
Proof.
  intros Ha Hs. destruct (absolute_parts p Ha Hs) as (t & Ec & Ht & _).
  assert (relative_components p = names p ++ t) as Er by (unfold relative_components; by rewrite Ec, Ha).
  unfold lexically_normal, root_text. rewrite Er, Ha, fold_left_app, (normal_fold_safe _ _ _ Hs), app_nil_r.
  assert (is_empty p = false) as -> by (by destruct p).
  assert (∃ b, fold_left (normal_step true) t (rev (names p), match names p with [] => false | _ => false end) = (rev (names p), b)) as [b ->].
  { destruct Ht as [->| ->]; eexists; reflexivity. }
  destruct (rev (names p)) as [|top stack] eqn:E.
  - assert (names p = []) as -> by (rewrite <- (rev_involutive (names p)), E; done). done.
  - rewrite <- E, rev_involutive. set (tail := if b && negb (String.eqb top "..") then "/" else EmptyString).
    change ("/" +:+ join_names (names p) +:+ tail) with (String slash (join_names (names p) +:+ tail)).
    pose proof (names_slash EmptyString (join_names (names p) +:+ tail)) as Hn. cbn [String.append] in Hn. rewrite Hn.
    unfold tail. destruct (b && _).
    + change "/" with (String slash EmptyString). rewrite names_slash, names_join by apply names_plain. by rewrite app_nil_r.
    + rewrite append_nil_r. by rewrite names_join by apply names_plain.
Qed.

Lemma place_normal current p : is_absolute current = true →
  place current (lexically_normal (absolute current p)) = place current p.
Proof.
  intros Hc. unfold place. destruct (normal_absolute _ (absolute_absolute current p Hc)) as [Ha Hs].
  unfold absolute at 1. rewrite Ha. by apply normal_names.
Qed.

(** ** The observations *)

Section Host.
Context (resolve : fs → name → option name) `{!LinkResolution resolve} (cur : path) (d : fs).
Hypothesis Hok : tree_ok d.

Lemma stat_undotted p : dotted (names p) = false → stat resolve d p =
  found ← PackageVerify.stat resolve d (names p);
  Some ('(i, x) ← found; if ends_with slash p && negb (is_dir x) then None else Some (i, x)).
Proof. intros H. unfold stat. by rewrite H. Qed.

Lemma stat_absent p : dotted (names p) = false → ends_with slash p = false →
  stat resolve d p = Some None → PackageVerify.stat resolve d (names p) = Some None.
Proof.
  intros Hn He. rewrite stat_undotted, He by done. cbn [andb]. intros (found & E & H)%bind_Some. rewrite E.
  injection H as H. by destruct found as [[i x]|].
Qed.

Lemma stat_directory p i x : dotted (names p) = false → is_dir x = true →
  stat resolve d p = Some (Some (i, x)) ↔ PackageVerify.stat resolve d (names p) = Some (Some (i, x)).
Proof.
  intros Hn Hx. rewrite stat_undotted by done. destruct (PackageVerify.stat resolve d (names p)) as [found|]; [|done].
  cbn [mbind option_bind]. destruct found as [[j y]|]; [|done]. cbn [mbind option_bind]. destruct (ends_with slash p && negb (is_dir y)) eqn:E; [|reflexivity].
  split; [done|]. intros [= -> ->]. by rewrite Hx, andb_false_r in E.
Qed.

Lemma safe_undotted n : Forall safe_name n → dotted n = false.
Proof. intros H. apply undotted_safe; [|done]. by apply safe_plain. Qed.

(** Where the names of a path stop to lead anywhere. *)
Definition stops (n rest : name) : Prop :=
  rest = [] ∨ ∃ x more, rest = x :: more ∧ PackageVerify.stat resolve d (n ++ [x]) = Some None.

Lemma finds_ancestor_loop fuel : ∀ p, is_absolute p = true → Forall safe_name (names p) → (String.length p <= fuel)%nat →
  finds cur d (ancestor_loop resolve fuel p) (fun q => is_absolute q = true ∧
    ∃ rest, names p = names q ++ rest ∧ stops (names q) rest).
Proof.
  induction fuel as [|fuel IH]; intros p Ha Hs Hl; [destruct p; [done|cbn in Hl; lia]|]. cbn [ancestor_loop].
  assert (is_empty p = false) as -> by (by destruct p).
  eapply finds_bind; [by apply (finds_observe cur d _ (fun r => r = (found ← stat resolve d p; Some (bool_decide (is_Some found)))))|].
  intros r ->. destruct (stat resolve d p) as [found|] eqn:Es; [|apply finds_fail]. cbn [mbind option_bind].
  assert (is_absolute p = true ∧ ∃ rest, names p = names p ++ rest ∧ stops (names p) rest) as Hp.
  { split; [done|]. exists []. rewrite app_nil_r. by split; [|left]. }
  destruct found as [o|]; [by apply finds_ret|]. cbn [bool_decide].
  rewrite bool_decide_eq_false_2 by (by intros [? ?]).
  destruct (parent_names p Ha) as (Pa & Pn & _ & Pl). destruct (path_eqb (parent_path p) p); [by apply finds_ret|]. specialize (Pl eq_refl).
  assert (Forall safe_name (names (parent_path p))) as Ps.
  { rewrite Pn. destruct (ends_with slash p); [done|]. destruct (names p) as [|x l _] using rev_ind; [done|].
    rewrite removelast_last. by apply Forall_app in Hs as [? _]. }
  eapply finds_impl; [apply IH; [done|done|lia]|]. intros q (Qa & rest & Er & Hst). split; [done|].
  rewrite Pn in Er. destruct (ends_with slash p) eqn:He; [eauto|].
  pose proof (stat_absent p (safe_undotted _ Hs) He Es) as Hx.
  destruct (names p) as [|x l _] using rev_ind; [by exists rest|]. rewrite removelast_last in Er.
  exists (rest ++ [x]). split; [by rewrite Er, app_assoc|]. right. destruct Hst as [->|(y & more & -> & Hy)].
  - exists x, []. rewrite app_nil_r in Er. by subst l.
  - by exists y, (more ++ [x]).
Qed.

(** The ancestor is a directory, and the next name leads nowhere. *)
Lemma finds_ancestor p : is_absolute cur = true →
  finds cur d (existing_ancestor resolve cur p) (fun q => is_absolute q = true ∧
    ∃ i x rest, place cur p = names q ++ rest ∧ stops (names q) rest ∧
      PackageVerify.stat resolve d (names q) = Some (Some (i, x)) ∧ is_dir x = true).
Proof.
  intros Hc. unfold existing_ancestor. destruct (normal_absolute _ (absolute_absolute cur p Hc)) as [Ha Hs].
  eapply finds_bind; [by apply finds_ancestor_loop|]. intros q (Qa & rest & E & Hst).
  assert (is_empty q = false) as -> by (by destruct q).
  eapply finds_bind; [eapply finds_bind; [by apply (finds_observe cur d _ (fun r => r = stat resolve d q))|]|].
  - intros r ->. apply (finds_ret cur d _ (fun b => b = true → ∃ i x, stat resolve d q = Some (Some (i, x)) ∧ is_dir x = true)).
    destruct (stat resolve d q) as [[[i x]|]|]; [|done|done]. eauto.
  - intros [] H; [|apply finds_fail]. destruct (H eq_refl) as (i & x & Hx & Hd). apply finds_ret. split; [done|].
    exists i, x, rest. split_and!; [done..| |done]. apply stat_directory in Hx; [done| |done].
    rewrite E, Forall_app in Hs. apply safe_undotted, Hs.
Qed.

Lemma finds_components_grow parts : ∀ c found, finds cur d (components_loop resolve c parts found) (fun r => found ⊆ r).
Proof.
  induction parts as [|x parts IH]; intros c found; cbn [components_loop]; [by apply finds_ret|].
  eapply finds_bind; [by apply (finds_observe cur d _ (fun _ => True))|]. intros [[]|] _; [|by apply finds_ret|apply finds_fail].
  eapply finds_impl; [apply IH|]. intros r H. set_solver.
Qed.

Lemma finds_components l : ∀ pre found more, Forall safe_name (pre ++ l) →
  (∀ a b, l = a ++ b → ∃ y, PackageVerify.stat resolve d (pre ++ a) = Some (Some y)) →
  finds cur d (components_loop resolve (abs_text pre) (l ++ more) found) (fun r => found ⊆ r ∧
    ∀ a b, l = a ++ b → a ≠ [] → abs_text (pre ++ a) ∈ r).
Proof.
  induction l as [|x l IH]; intros pre found more Hs Hk.
  { eapply finds_impl; [apply finds_components_grow|]. intros r Hr. split; [done|]. intros a b E Ha.
    symmetry in E. by apply app_eq_nil in E as [-> _]. }
  assert (Forall safe_name pre ∧ safe_name x) as [Hp Hx] by (apply Forall_app in Hs as [? [? _]%Forall_cons]; done).
  assert (Forall safe_name (pre ++ [x])) as Hpx by (apply Forall_app; split; [done|by constructor]).
  pose proof (safe_plain _ Hpx) as Hpl.
  cbn [app components_loop]. rewrite (abs_text_append pre x) by (by apply safe_plain || apply Hx).
  eapply finds_bind; [apply (finds_observe cur d _ (fun r => r = Some true))|].
  { rewrite stat_undotted by (rewrite names_abs_text by done; by apply safe_undotted).
    rewrite names_abs_text by done. destruct (Hk [x] l eq_refl) as [[i y] Hy]. rewrite Hy.
    rewrite abs_text_not_slash by (done || by destruct pre). done. }
  intros r ->. eapply finds_impl; [apply IH|].
  - by rewrite <- app_assoc.
  - intros a b ->. rewrite <- app_assoc. by apply (Hk (x :: a) b).
  - intros r [Hr Ha]. split; [set_solver|]. intros [|y a] b E Hne; [done|]. injection E as <- E.
    destruct a as [|z a]; [set_solver|]. specialize (Ha (z :: a) b E ltac:(done)). by rewrite <- app_assoc in Ha.
Qed.

Lemma finds_existing_components target l rest : is_absolute cur = true → place cur target = l ++ rest →
  (∀ a b, l = a ++ b → ∃ y, PackageVerify.stat resolve d a = Some (Some y)) →
  finds cur d (existing_components resolve cur target) (fun r => ∀ a b, l = a ++ b → a ≠ [] → abs_text a ∈ r).
Proof.
  intros Hc E Hk. unfold existing_components. destruct (normal_absolute _ (absolute_absolute cur target Hc)) as [Ha Hs].
  destruct (absolute_parts _ Ha Hs) as (t & Ec & _ & _). unfold relative_components, root_text. rewrite Ec, Ha.
  unfold place in E. rewrite E in *. cbn [is_empty].
  eapply finds_bind; [by apply (finds_observe cur d _ (fun _ => True))|]. intros there _.
  rewrite <- app_assoc. eapply finds_impl; [apply (finds_components l [])|].
  - by apply Forall_app in Hs as [? _].
  - exact Hk.
  - intros r [_ H]. exact H.
Qed.

Lemma finds_stable found : finds cur d (components_stable resolve found) (fun b => b = true →
  ∀ p, p ∈ found → ∃ i x, lstat resolve d p = Some (i, x) ∧ StableFile.is_symlink x = false).
Proof.
  induction found as [|p found IH]; cbn [components_stable]; [by apply finds_ret; intros _ q ?%elem_of_nil|].
  eapply finds_bind; [by apply (finds_observe cur d _ (fun r => r = lstat resolve d p))|].
  intros r ->. destruct (lstat resolve d p) as [[i x]|] eqn:E; [|by apply finds_ret].
  destruct (StableFile.is_symlink x) eqn:Ex; [by apply finds_ret|]. eapply finds_impl; [apply IH|].
  intros b H Hb q [->|Hq]%elem_of_cons; [by exists i, x|by apply H].
Qed.

Lemma clear_of_links l : Forall safe_name l →
  (∀ a b, l = a ++ b → a ≠ [] → ∃ i x, lstat resolve d (abs_text a) = Some (i, x) ∧ StableFile.is_symlink x = false) →
  StableFile.through_link d l = false.
Proof.
  induction l as [|x l IH] using rev_ind; intros Hs H; [done|]. pose proof (safe_plain _ Hs) as Hpl.
  assert (StableFile.through_link d l = false) as Hl.
  { apply IH; [by apply Forall_app in Hs as [? _]|]. intros a b -> Ha. apply (H a (b ++ [x])); [by rewrite app_assoc|done]. }
  rewrite through_snoc, Hl. cbn [orb]. destruct (H (l ++ [x]) []) as (i & y & E & Hy); [by rewrite app_nil_r|by destruct l|].
  unfold lstat in E. rewrite abs_text_not_slash, names_abs_text, lstat_clear in E by (done || by destruct l).
  unfold link_at. by rewrite E.
Qed.

Lemma finds_status_at p : finds cur d (is_directory resolve p) (fun b => b = true →
  ∃ i x, stat resolve d p = Some (Some (i, x)) ∧ is_dir x = true).
Proof.
  eapply finds_bind; [by apply (finds_observe cur d _ (fun r => r = stat resolve d p))|]. intros r ->. apply finds_ret.
  destruct (stat resolve d p) as [[[i x]|]|]; [|done|done]. eauto.
Qed.

(** What the state of the target says. *)
Definition state_found (target : path) (state : TargetState) : Prop :=
  match state with
  | nonexistent => stat resolve d target = Some None
  | empty => (∃ i x, stat resolve d target = Some (Some (i, x)) ∧ is_dir x = true) ∧
      (dotted (names target) = false → StableFile.through_link d (names target) = false → children d (names target) = [])
  | nonempty => True
  | unproven => False
  end.

Lemma finds_state target : finds cur d (find_target_state resolve target) (state_found target).
Proof.
  unfold find_target_state.
  eapply finds_bind; [by apply (finds_observe cur d _ (fun r => r = (found ← stat resolve d target; Some (bool_decide (is_Some found)))))|].
  intros r ->. destruct (stat resolve d target) as [[o|]|] eqn:E; [|by apply finds_ret|apply finds_fail]. cbn [mbind option_bind].
  rewrite bool_decide_eq_true_2 by eauto.
  eapply (finds_bind cur d _ _ (fun b => b = true → state_found target empty)).
  - unfold and_m. eapply finds_bind; [apply finds_status_at|]. intros [] H; [|by apply finds_ret]. specialize (H eq_refl).
    eapply finds_bind; [by apply (finds_observe cur d _ (fun r => r = empty_at resolve d target))|]. intros r Hr. apply finds_ret. intros Hd. split; [exact H|].
    intros Hn Hl. unfold empty_at in Hr. rewrite Hn in Hr. cbn [mbind option_bind] in Hr. rewrite where_clear in Hr by done. cbn [mbind option_bind] in Hr.
    destruct H as (i & x & Hs & Hx). apply stat_directory in Hs; [|done|done]. rewrite (stat_found _ _ _ _ _ Hl Hs) in Hr.
    cbn [mbind option_bind] in Hr. unfold is_dir in Hx. destruct (node x); try done. subst r. cbn in Hd. by destruct (children d (names target)).
  - intros [] H; apply finds_ret; [by apply H|done].
Qed.

Lemma finds_kind mountinfo ancestor : finds cur d (filesystem_kind mountinfo cur ancestor) (fun r => fst r = true →
  ∃ text, mountinfo d = Some text ∧ on_local_mount text (normalized_path cur ancestor) (snd r)).
Proof.
  eapply finds_bind; [by apply (finds_observe cur d _ (fun r => r = mountinfo d))|]. intros r ->. apply finds_ret.
  destruct (mountinfo d) as [text|]; [|done]. intros H. exists text. split; [done|]. apply classified_local.
  by destruct (classify_mounts _ _); cbn in *; subst.
Qed.

Lemma finds_identity ancestor kind : finds cur d (filesystem_identity resolve ancestor kind) (fun _ => True).
Proof.
  eapply finds_bind; [by apply (finds_observe cur d _ (fun _ => True))|]. intros [[[i x]|]|] _; [|by apply finds_ret..].
  rewrite Sha256.hash_text_sha256. by apply finds_ret.
Qed.

Lemma finds_distinct source target : is_absolute cur = true → target ≠ EmptyString →
  finds cur d (source_target_distinct resolve cur source target) (fun b => b = true →
    source ≠ EmptyString ∧ ¬ contains cur target source).
Proof.
  intros Hc Ht. unfold source_target_distinct. destruct (is_empty source || is_empty target) eqn:E; [by apply finds_ret|].
  apply orb_false_elim in E as [Es _].
  destruct (same_or_below cur _ _) eqn:Eb; [by apply finds_ret|].
  eapply finds_bind; [by apply (finds_observe cur d _ (fun _ => True))|]. intros there _.
  eapply (finds_bind cur d _ _ (fun _ => True)).
  { destruct (default false there); [|by apply finds_ret]. eapply finds_bind; [by apply (finds_observe cur d _ (fun _ => True))|].
    intros. by apply finds_ret. }
  intros same _. apply finds_ret. intros _. split; [by destruct source|]. intros (_ & Hne & rest & E).
  apply not_true_iff_false in Eb. apply Eb, same_or_below_exact; [done|]. unfold contains. rewrite !place_normal by done.
  destruct (normal_absolute _ (absolute_absolute cur target Hc)) as [Ha _].
  destruct (normal_absolute _ (absolute_absolute cur source Hc)) as [Hb _].
  split; [by intros E'; rewrite E' in Ha|]. split; [by intros E'; rewrite E' in Hb|]. eauto.
Qed.

(** A source that can be opened: a regular file with one name. *)
Definition plain_source (source : path) : Prop :=
  ∃ i v c t, lookup_inode d (place cur source) = Some (i, mk_inode v (regular c) t) ∧ link_count d i = 1.

Lemma identity_catchable i x n e : StableFile.identity_from_stat i x n = Throw e → catchable e = true.
Proof.
  unfold StableFile.identity_from_stat. destruct (node x); try (by intros [= <-]). by destruct (negb _); [intros [= <-]|].
Qed.

Lemma finds_open_stable source : finds cur d (StableFile.open_stable source) (fun _ => plain_source source).
Proof.
  unfold StableFile.open_stable, StableFile.require_absolute_path, StableFile.absolute.
  eapply (finds_bind cur d _ _ (fun p => names p = place cur source)).
  { eapply (finds_bind cur d _ _ (fun p => p = if is_empty source then EmptyString else absolute cur source)).
    { eapply finds_bind; [by apply (finds_get cur d (fun w => cwd w = cur))|]. intros w ->. by apply finds_ret. }
    intros p ->. destruct source as [|c source]; [apply finds_fail|]. cbn [is_empty]. cbv zeta.
    destruct (is_empty (lexically_normal _)); [apply finds_fail|]. by apply finds_ret. }
  intros p Hp. eapply finds_bind; [by apply (finds_observe cur d _ (fun r => r = '(i, x) ← lookup_inode d (names p); Some (i, x, link_count d i)))|].
  intros r ->. rewrite Hp. destruct (lookup_inode d (place cur source)) as [[i x]|] eqn:El; cbn [mbind option_bind]; [|apply finds_fail].
  destruct (StableFile.is_symlink x) eqn:Ex; [apply finds_fail|].
  eapply (finds_bind cur d _ _ (fun _ => plain_source source)).
  { apply finds_lift; [|apply identity_catchable]. intros id Hid. unfold StableFile.identity_from_stat in Hid.
    destruct x as [v [c| | |] t]; try done. cbn [node] in Hid. destruct (N.eqb_spec (link_count d i) 1); [|done]. by exists i, v, c, t. }
  intros id Hs. eapply finds_bind; [by apply (finds_observe cur d _ (fun _ => True))|]. intros [h|] _; [|apply finds_fail].
  eapply finds_bind; [by apply (finds_observe cur d _ (fun _ => True))|]. intros [[y n]|] _; [|apply finds_fail].
  eapply (finds_bind cur d _ _ (fun _ => True)); [by apply finds_lift; [|apply identity_catchable]|]. intros id' _.
  destruct (StableFile.same_identity id id'); [by apply finds_ret|apply finds_fail].
Qed.

Lemma finds_unchanged f : finds cur d (StableFile.verify_unchanged f) (fun _ => True).
Proof.
  unfold StableFile.verify_unchanged.
  eapply finds_bind; [by apply (finds_observe cur d _ (fun _ => True))|]. intros [[x n]|] _; [|apply finds_fail].
  eapply (finds_bind cur d _ _ (fun _ => True)); [by apply finds_lift; [|apply identity_catchable]|]. intros id _.
  destruct (negb _); [apply finds_fail|].
  eapply finds_bind; [by apply (finds_observe cur d _ (fun _ => True))|]. intros [[[i y] m]|] _; [|apply finds_fail].
  destruct (StableFile.is_symlink y); [apply finds_fail|].
  eapply (finds_bind cur d _ _ (fun _ => True)); [by apply finds_lift; [|apply identity_catchable]|]. intros id' _.
  destruct (StableFile.same_identity _ _); [by apply finds_ret|apply finds_fail].
Qed.

Lemma finds_target_identity request state ancestor digest :
  finds cur d (target_identity resolve cur request state ancestor digest) (fun _ => plain_source (source_archive request)).
Proof.
  eapply finds_bind; [apply finds_open_stable|]. intros f Hf.
  eapply (finds_bind cur d _ _ (fun _ => True)).
  { eapply finds_bind; [by apply (finds_observe cur d _ (fun _ => True))|]. intros [[i x]|] _; [|apply finds_fail].
    destruct (is_dir x); [by apply finds_ret|apply finds_fail]. }
  intros directory _. rewrite Sha256.hash_text_sha256.
  eapply (finds_bind cur d _ _ (fun _ => True)); [by apply finds_ret|]. intros bound _.
  eapply finds_bind; [apply finds_unchanged|]. intros _ _. by apply finds_ret.
Qed.
End Host.

(** ** Accepted targets *)

Section Accepted.
Context (resolve : fs → name → option name) `{!LinkResolution resolve} (getenv : string → option string).
Context (mountinfo : fs → option string) (available : fs → name → option N) (d : fs).
Hypothesis Hok : tree_ok d.

(** A link that leads nowhere: what it stands for is missing, or another such link. *)
Definition dangling (n : name) : Prop :=
  link_at d n = true ∧ ∃ m, resolve d n = Some m ∧ (lookup_inode d m = None ∨ link_at d m = true).

(** Below a directory that is reached without links, nothing: the directory is empty, or
    the next name is free or a link that leads nowhere. *)
Definition vacant (n rest : name) : Prop :=
  is_dir_at d n = true ∧ StableFile.through_link d n = false ∧
  (rest = [] ∧ children d n = [] ∨
   ∃ x more, rest = x :: more ∧ (lookup_inode d (n ++ [x]) = None ∨ dangling (n ++ [x]))).

(** What an accepted target is. *)
Record admitted (cur : path) (activation : Activation) (request : TargetInspectionRequest) : Prop := mk_admitted {
  admitted_class :
    requested_class request = operator_acceptance ∧ activation ≠ unavailable ∧
      strictly_below (requested_acceptance_root request) (requested_root request) = true ∨
    requested_class request = managed_portable ∧ activation = accepted_live_portable;
  admitted_effects : requested_effects request ≠ [];
  admitted_unprotected : unprotected getenv cur (requested_root request) (requested_acceptance_root request);
  admitted_source : plain_source cur d (source_archive request) ∧
    ¬ contains cur (requested_root request) (source_archive request);
  admitted_place : ∃ ancestor rest, place cur (requested_root request) = names ancestor ++ rest ∧
    vacant (names ancestor) rest ∧
    (∃ mounts kind, mountinfo d = Some mounts ∧ on_local_mount mounts (normalized_path cur ancestor) kind) ∧
    ∃ bytes, available d (names ancestor) = Some bytes ∧ 0 < requested_bytes request <= bytes }.

(** A directory before which every component was seen not to be a link. *)
Lemma clear_ancestor n i x : StableFile.through_link d n = false →
  PackageVerify.stat resolve d n = Some (Some (i, x)) → is_dir x = true → is_dir_at d n = true.
Proof.
  intros Hl Hs Hx. unfold is_dir_at. rewrite (stat_found _ _ _ _ _ Hl Hs). unfold is_dir in Hx. by destruct (node x).
Qed.

Lemma vacant_found target n rest i x state : is_absolute target = true → dotted (names target) = false →
  names target = n ++ rest → stops resolve d n rest → PackageVerify.stat resolve d n = Some (Some (i, x)) → is_dir x = true →
  StableFile.through_link d n = false → state_found resolve d target state → state = nonexistent ∨ state = empty →
  vacant n rest.
Proof.
  intros Ha Hd En Hst Hs Hx Hl Hf Hstate. split; [by eapply clear_ancestor|]. split; [done|].
  destruct Hst as [->|(y & more & -> & Hy)].
  - left. split; [done|]. rewrite app_nil_r in En. subst n. destruct Hstate as [-> | ->]; cbn in Hf.
    + rewrite (proj2 (stat_directory resolve d target i x Hd Hx) Hs) in Hf. done.
    + by apply Hf.
  - right. exists y, more. split; [done|]. destruct (link_at d (n ++ [y])) eqn:E; [right|left].
    { split; [done|]. unfold PackageVerify.stat, PackageVerify.where_ in Hy. rewrite through_snoc, Hl, E in Hy.
      destruct (resolve d (n ++ [y])) as [m|]; [|done]. exists m. split; [done|]. injection Hy as Hy. unfold link_at.
      destruct (lookup_inode d m) as [[j z]|]; [right|by left]. cbn in Hy. by destruct (StableFile.is_symlink z). }
    rewrite stat_clear in Hy by (by rewrite through_snoc, Hl, E). injection Hy as Hy. unfold link_at in E.
    destruct (lookup_inode d (n ++ [y])) as [[j z]|]; [|done]. cbn in Hy. by rewrite E in Hy.
Qed.

Lemma finds_inspect cur activation request : is_absolute cur = true → dotted (names (requested_root request)) = false →
  finds cur d (inspect_live_target resolve getenv mountinfo available request) (fun e =>
    accepted (evaluate_live_target activation e) = true → admitted cur activation request).
Proof.
  intros Hc Hdot. unfold inspect_live_target.
  destruct (is_empty (requested_root request) || negb (is_absolute (requested_root request))) eqn:Et.
  { apply finds_ret. intros H%accepted_exactly. by destruct H as (_ & _ & _ & [?|?] & _). }
  apply orb_false_elim in Et as [Ee Ha%negb_false_iff].
  assert (place cur (requested_root request) = names (requested_root request)) as Ep.
  { unfold place, absolute. rewrite Ha. apply normal_names; [done|]. by apply undotted_safe; [apply names_plain|]. }
  eapply finds_bind; [by apply (finds_get cur d (fun w => cwd w = cur))|]. intros w ->. cbv zeta.
  eapply finds_bind; [by apply finds_ancestor|]. intros ancestor (Qa & i & x & rest & Er & Hst & Hs & Hx).
  assert (∀ a b, names ancestor = a ++ b → ∃ y, PackageVerify.stat resolve d a = Some (Some y)) as Hpre.
  { intros a b E. destruct (resolve_prefix d (names ancestor) (length a) _ Hok Hs) as [y Hy]. exists y.
    by rewrite E, take_app_length in Hy. }
  eapply finds_bind; [by eapply finds_existing_components|]. intros found Hfound.
  eapply finds_bind; [apply finds_stable|]. intros stable Hstable.
  eapply finds_bind; [apply finds_state|]. intros state Hstate.
  eapply finds_bind; [apply finds_kind|]. intros [local kind] Hkind.
  eapply finds_bind; [apply finds_identity|]. intros digest _.
  eapply finds_bind; [by apply (finds_observe cur d _ (fun r => r = available d (names ancestor)))|]. intros bytes Hbytes.
  destruct bytes as [bytes|]; [|apply finds_fail]. symmetry in Hbytes.
  eapply finds_bind; [apply finds_distinct; [done|by destruct (requested_root request)]|]. intros distinct Hdistinct.
  eapply (finds_bind cur d _ _ (fun r => fst r = true → distinct = true ∧ plain_source cur d (source_archive request))).
  { apply finds_otherwise; [|by apply finds_ret]. eapply finds_bind; [apply finds_target_identity|].
    intros identity Hsrc. apply finds_ret. by intros E. }
  intros [distinct' identity] Hsource. apply finds_ret. intros H%accepted_exactly.
  destruct H as (Hclass & _ & _ & Hst' & Hlocal & _ & _ & Hstab & _ & Hexcl & Hcap & Hdist & _ & Heff & _).
  cbn [target_class target_root authorized_acceptance_root target_state local_filesystem path_components_stable
    excluded_roots_absent required_bytes available_bytes TargetPolicy.source_target_distinct persistent_effects] in *.
  destruct (Hsource Hdist) as [Hd Hsrc]. destruct (Hdistinct Hd) as [_ Hnc].
  assert (StableFile.through_link d (names ancestor) = false) as Hclear.
  { eapply clear_of_links; [|intros a b E Hne; by eapply (Hstable Hstab), Hfound].
    rewrite Ep in Er. apply (undotted_safe _ (names_plain _)) in Hdot. rewrite Er in Hdot. by apply Forall_app in Hdot as [? _]. }
  split; [done|done|by apply protected_exact|done|].
  exists ancestor, rest. split; [done|]. split; [rewrite Ep in Er; by apply (vacant_found (requested_root request) _ _ i x state)|]. split; [|eauto].
  destruct (Hkind Hlocal) as (mounts & Em & Hm). eauto.
Qed.

(** C31 On an undisturbed host the inspection of a live target ends, with an answer or an
    exception, and changes nothing.  A target without dot components that it accepts is
    one the policy allows: of an admitted class, strictly below the authorized root when
    an operator accepts it; free of every protected root; at an empty directory, or
    below a directory with room enough on a local mount, reached through no link, where
    the next name is free or a link that leads nowhere; and with a source that is a
    regular file of one name outside the target. *)
Theorem live_target_sound activation request w : quiet w → disk w = d → is_absolute (cwd w) = true →
  dotted (names (requested_root request)) = false →
  ∃ r w', inspect_and_evaluate_live_target resolve getenv mountinfo available activation request w = (r, w') ∧
    disk w' = d ∧ trace w' = trace w ∧
    match r with
    | Ok t => accepted (decision t) = true → admitted (cwd w) activation request
    | Throw e => catchable e = true
    end.
Proof.
  intros Hq Hd Hc Hdot.
  assert (finds (cwd w) d (inspect_and_evaluate_live_target resolve getenv mountinfo available activation request)
    (fun t => accepted (decision t) = true → admitted (cwd w) activation request)) as H.
  { eapply finds_bind; [by apply (finds_inspect (cwd w) activation)|]. intros e He. by apply finds_ret. }
  destruct (H w Hq Hd eq_refl) as [(_ & D & _ & T) R].
  destruct (inspect_and_evaluate_live_target _ _ _ _ activation request w) as [r w']. by exists r, w'.
Qed.
End Accepted.

(** ** Concrete targets *)

Definition sample_mounts : string := "36 35 98:0 / / rw,relatime - ext4 /dev/root rw" +:+ newline.

Definition sample_request (target : path) : TargetInspectionRequest :=
  mk_request operator_acceptance target "/h/op" "/h/a.zip" 10 ["create_directory"].

Definition inspect_sample (resolve : fs → name → option name) (target : path) : io InspectedTarget :=
  inspect_and_evaluate_live_target resolve (fun _ => None) (fun _ => Some sample_mounts) (fun _ _ => Some 100)
    operator_acceptance_candidate (sample_request target).

Definition accepts_target (resolve : fs → name → option name) (d : fs) (target : path) : bool :=
  match fst (inspect_sample resolve target (quiet_world d)) with Ok t => accepted (decision t) | Throw _ => false end.

(** A directory [/h/op] beside an archive, with more entries in it. *)
Definition sample_host (names : list (name * N)) (objects : list (N * inode)) : fs :=
  listed_fs ([([], 1); (["h"], 2); (["h"; "op"], 3); (["h"; "a.zip"], 4)] ++ names)
    ([(1, mk_inode 1 directory 0); (2, mk_inode 1 directory 0); (3, mk_inode 1 directory 0);
      (4, mk_inode 1 (regular "archive") 0)] ++ objects).

Lemma sample_host_tree : tree_ok (sample_host [] []).
Proof. apply listed_tree_ok. repeat constructor; vm_compute; try discriminate; by eexists || by left || by right. Qed.

Lemma sample_target_accepted : accepts_target PackageFacts.no_links_followed (sample_host [] []) "/h/op/run" = true.
Proof. vm_cast_no_check (eq_refl true). Qed.

Lemma live_target_sound_witness :
  admitted PackageFacts.no_links_followed (fun _ => None) (fun _ => Some sample_mounts) (fun _ _ => Some 100) (sample_host [] []) "/"
    operator_acceptance_candidate (sample_request "/h/op/run").
Proof.
  pose proof sample_target_accepted as H. unfold accepts_target, inspect_sample in H.
  destruct (live_target_sound PackageFacts.no_links_followed (fun _ => None) (fun _ => Some sample_mounts) (fun _ _ => Some 100)
    (sample_host [] []) sample_host_tree operator_acceptance_candidate (sample_request "/h/op/run")
    (quiet_world (sample_host [] [])) (quiet_world_quiet _) eq_refl eq_refl eq_refl) as (r & w' & E & _ & _ & Hr).
  rewrite E in H. cbn [fst] in H. destruct r as [t|e]; [exact (Hr H)|discriminate H].
Defined.

(** The target is a link that leads nowhere. *)
Definition dangling_host : fs :=
  sample_host [(["h"; "op"; "run"], 5)] [(5, mk_inode 1 (symlink to_nothing) 0)].

(** The target is a directory with a file in it, and beside it is a link to another place. *)
Definition crooked_host : fs :=
  sample_host [(["h"; "op"; "run"], 5); (["h"; "op"; "run"; "keep"], 6); (["h"; "op"; "ln"], 7)]
    [(5, mk_inode 1 directory 0); (6, mk_inode 1 (regular "data") 0); (7, mk_inode 1 (symlink to_directory) 0)].

(** A network mount whose mount point holds a space. *)
Definition spaced_mounts : string :=
  sample_mounts +:+ "40 36 0:50 / /mnt/my\040share rw - nfs4 server:/export rw" +:+ newline.

(** What the inspection lets through: a target that is itself a link leading nowhere,
    which counts as nonexistent and is not among the components that are checked for
    links; and a directory that is not empty, spelled through a link and a dot component,
    because its state is taken from the path as it is spelled and everything else from
    its normal form.  A mount point that holds a space is not found, because the table of
    mounts writes the space as an octal escape: a network mount there is taken for the
    local one above it. *)
Example unsafe_targets :
  accepts_target (fun _ _ => Some ["gone"]) dangling_host "/h/op/run" = true ∧
  accepts_target (fun _ _ => Some ["elsewhere"; "run"]) crooked_host "/h/op/ln/../run" = true ∧
  lexically_normal "/h/op/ln/../run" = "/h/op/run" ∧ children crooked_host ["h"; "op"; "run"] = [["h"; "op"; "run"; "keep"]] ∧
  classify_mounts spaced_mounts "/mnt/my share/run" = (true, "linux_ext4").
Proof. vm_compute. split_and!; reflexivity. Qed.

End TargetFacts.
