(* ===== verification/RetirementHistory.v ===== *)
(** The lease history of an owned retirement:
    [runtime/setup/lifecycle/usk_owned_retirement_lease_history_internal.cpp], which replays
    the lease protocol over a whole history and collects the completed operations, and the
    histories it accepts. *)

From Stdlib Require Import Ascii String NArith ZArith Lia.
From stdpp Require Import base list strings sets.
From S2P Require Import Prelude Utf8 Sha256 StdMap Json JsonFacts JsonProps InstallLease InstallLeaseFacts LeaseHistory.

Module RetirementHistory.
Import Json InstallLease.

Definition inconsistent : string := "owned retirement lease history is incomplete or inconsistent".

Definition require (value : bool) : result unit := throw_if (negb value) inconsistent.

Record OwnedRetirementLeaseCompletion := mk_completion {
  original_active : value;
  completed_record : value;
  repeated_completion : bool }.

(** The variables of the loop. *)
Record Replay := mk_replay {
  previous : option value;
  original : option value;
  completed_operations : list (string * nat);
  found : list OwnedRetirementLeaseCompletion;
  repeated : bool }.

Definition admitted_operations : list string := ["install_local"; "repair"; "uninstall"].

Definition text_is (v : value) (key text : string) : result bool := x ← at_string v key; Ok (String.eqb x text).

Definition same (left : value) (left_key : string) (right : value) (right_key : string) : result bool :=
  x ← at_ left left_key; y ← at_ right right_key; Ok (equal_values x y).

(** An acquisition that begins a span of records. *)
Definition open_span (r : Replay) (record : value) (operation id : string) : result Replay :=
  (match previous r with None => require (String.eqb operation "install_local") | Some _ => Ok tt end);;
  let opened := mk_replay (previous r) (Some record) (completed_operations r) (found r) in
  match StdMap.find id (completed_operations r) with
  | None => Ok (opened false)
  | Some index =>
    match found r !! index with
    | None => Throw (logic_error "vector::_M_range_check")
    | Some first =>
      match previous r with
      | None => throw inconsistent
      | Some last =>
        ok ← text_is last "status" "completed" &&& text_is (original_active first) "operation" operation &&&
          same (original_active first) "operation_context_sha256" record "operation_context_sha256" &&&
          (x ← at_string record "expected_state_revision"; text_is last "result_state_revision" x);
        require ok;;
        Ok (opened true)
      end
    end
  end.

(** An acquisition that continues the open span. *)
Definition continue_span (r : Replay) (first record : value) (operation id : string) : result Replay :=
  ok ← text_is first "operation" operation &&& text_is first "operation_id" id &&&
    same first "operation_context_sha256" record "operation_context_sha256";
  require ok;;
  (if repeated r
   then ok ← same first "expected_state_revision" record "expected_state_revision"; require ok else Ok tt);;
  Ok r.

(** The revision with which a repeated operation ends is the one it began with. *)
Definition require_unchanged (r : Replay) (first record : value) : result unit :=
  if repeated r then ok ← same first "expected_state_revision" record "result_state_revision"; require ok else Ok tt.

Definition close_span (r : Replay) (record : value) (id : string) : result Replay :=
  match original r with
  | None => throw inconsistent
  | Some first =>
    completed ← (if repeated r then require_unchanged r first record;; Ok (completed_operations r)
      else let '(completed, inserted) := StdMap.emplace id (length (found r)) (completed_operations r) in
        require inserted;; Ok completed);
    Ok (mk_replay (previous r) None completed (found r ++ [mk_completion first record (repeated r)]) (repeated r))
  end.

(** The two kinds of records: the record that the protocol produces here, and the loop after it. *)
Definition replay_acquisition (install_id : string) (root : value) (r : Replay) (record : value) (operation id status : string)
    : result (value * Replay) :=
  expected ← expected_record (previous r) install_id root record status;
  r ← match original r with
      | None => open_span r record operation id
      | Some first => continue_span r first record operation id
      end;
  Ok (expected, r).

Definition replay_finish (install_id : string) (root : value) (r : Replay) (record : value) (status : string)
    : result (value * Replay) :=
  match previous r, original r with
  | Some _, Some first =>
    expected ← expected_record (previous r) install_id root record status;
    require_unchanged r first record;;
    Ok (expected, r)
  | _, _ => throw inconsistent
  end.

(** The body of the loop. *)
Definition replay_record (install_id : string) (root : value) (r : Replay) (record : value) : result Replay :=
  require_install_lease_record record;;
  ok ← text_is record "install_id" install_id &&&
    (x ← at_ record "state_root_identity"; Ok (equal_values x root));
  require ok;;
  operation ← at_string record "operation";
  id ← at_string record "operation_id";
  require (existsb (String.eqb operation) admitted_operations);;
  status ← at_string record "status";
  next ← (if String.eqb status "active" then replay_acquisition install_id root r record operation id status
    else replay_finish install_id root r record status);
  let '(expected, r) := next in
  require (equal_values record expected);;
  r ← (if String.eqb status "completed" then close_span r record id else Ok r);
  Ok (mk_replay (Some record) (original r) (completed_operations r) (found r) (repeated r)).

Definition decode_owned_retirement_lease_history (history : list value) (install_id : string) (root : value)
    (current_revision : string) : result (list OwnedRetirementLeaseCompletion) :=
  require (negb (bool_decide (history = [])) && (N.of_nat (length history) <=? 4096));;
  require (hex current_revision 64);;
  r ← fold_result (replay_record install_id root) (mk_replay None None [] [] false) history;
  ok ← match original r, previous r with
       | None, Some last => text_is last "status" "completed" &&& text_is last "result_state_revision" current_revision
       | _, _ => Ok false
       end;
  require ok;;
  Ok (found r).
End RetirementHistory.

Module RetirementFacts.
Import Json JsonFacts JsonProps InstallLease InstallLeaseFacts LeaseProtocol LeaseHistory RetirementHistory.

(** ** Spans *)

(** The records of one operation from its acquisition to its completion. *)
Record Span := mk_span { opening : Lease; middle : list Lease; closing : Lease }.

Definition span_records (s : Span) : list Lease := opening s :: middle s ++ [closing s].

(** The first span of an operation, among the earlier ones. *)
Definition repeats (earlier : list Span) (id : string) : option (nat * Span) :=
  list_find (fun e => lease_operation_id (opening e) = id) earlier.

Definition is_repeat (earlier : list Span) (o : Lease) : bool := bool_decide (is_Some (repeats earlier (lease_operation_id o))).

Fixpoint reports (earlier spans : list Span) : list OwnedRetirementLeaseCompletion :=
  match spans with
  | [] => []
  | s :: spans => mk_completion (encode (opening s)) (encode (closing s)) (is_repeat earlier (opening s)) ::
      reports (earlier ++ [s]) spans
  end.

Lemma reports_snoc spans s : ∀ earlier, reports earlier (spans ++ [s]) =
  reports earlier spans ++ [mk_completion (encode (opening s)) (encode (closing s)) (is_repeat (earlier ++ spans) (opening s))].
Proof.
  induction spans as [|x spans IH]; intros earlier; cbn [app reports]; [by rewrite app_nil_r|].
  rewrite IH. by rewrite <- (app_assoc earlier [x] spans).
Qed.

Lemma reports_lookup spans : ∀ earlier k s, spans !! k = Some s →
  ∃ c, reports earlier spans !! k = Some c ∧ original_active c = encode (opening s).
Proof.
  induction spans as [|x spans IH]; intros earlier [|k] s E; cbn in *; [done|done|injection E as ->; by eexists|by apply IH].
Qed.

Lemma reports_length spans : ∀ earlier, length (reports earlier spans) = length spans.
Proof. induction spans as [|x spans IH]; intros earlier; cbn; [done|by rewrite IH]. Qed.

(** ** One record *)

(** An operation that is repeated leaves the revision as it is. *)
Definition unchanged (earlier : list Span) (o : Lease) (revision : string) : Prop :=
  is_repeat earlier o = true → revision = lease_revision o.

(** What an acquisition must satisfy to begin a span. *)
Definition opens (po : option Lease) (earlier : list Span) (l : Lease) : Prop :=
  (po = None → lease_operation l = "install_local") ∧
  ∀ k e, repeats earlier (lease_operation_id l) = Some (k, e) →
    lease_operation (opening e) = lease_operation l ∧ lease_context (opening e) = lease_context l ∧
    ∃ p, po = Some p ∧ lease_phase p = completed (lease_revision l).

(** The spans so far and the records of the open one. *)
Abbreviation progress := (list Span * option (Lease * list Lease))%type.

Inductive moves (po : option Lease) : progress → Lease → progress → Prop :=
| moves_open spans l : lease_phase l = active → opens po spans l → moves po (spans, None) l (spans, Some (l, []))
| moves_continue spans o mid l : lease_phase l = active → same_lease_operation o l → unchanged spans o (lease_revision l) →
    moves po (spans, Some (o, mid)) l (spans, Some (o, mid ++ [l]))
| moves_handoff spans o mid l r : lease_phase l = handoff r → unchanged spans o r →
    moves po (spans, Some (o, mid)) l (spans, Some (o, mid ++ [l]))
| moves_complete spans o mid l r : lease_phase l = completed r → unchanged spans o r →
    moves po (spans, Some (o, mid)) l (spans ++ [mk_span o mid l], None).

(** The variables of the loop stand for a progress. *)
Record stands_for (po : option Lease) (g : progress) (r : Replay) : Prop := mk_stands {
  stands_previous : previous r = encode <$> po;
  stands_original : original r = encode <$> (fst <$> snd g);
  stands_found : found r = reports [] (fst g);
  stands_sorted : StdMap.sorted (completed_operations r);
  stands_table : ∀ id, StdMap.find id (completed_operations r) = fst <$> repeats (fst g) id;
  stands_repeated : ∀ o, fst <$> snd g = Some o → repeated r = is_repeat (fst g) o }.

Lemma require_ok b u : require b = Ok u ↔ b = true.
Proof. unfold require, throw_if. destruct b; cbn; [by destruct u|done]. Qed.

Lemma same_texts a ka b kb x y : at_ a ka = Ok (string_value x) → at_ b kb = Ok (string_value y) → same a ka b kb = Ok (String.eqb x y).
Proof. unfold same. by intros -> ->. Qed.

Lemma text_is_ok v key x text : at_string v key = Ok x → text_is v key text = Ok (String.eqb x text).
Proof. unfold text_is. by intros ->. Qed.

Lemma and_ok a b : Ok a &&& Ok b = Ok (a && b).
Proof. by destruct a. Qed.

Lemma false_also b : Ok false &&& b = Ok false.
Proof. done. Qed.

Lemma repeat_check p e l : ∃ b,
  text_is (encode p) "status" "completed" &&& text_is (encode e) "operation" (lease_operation l) &&&
    same (encode e) "operation_context_sha256" (encode l) "operation_context_sha256" &&&
    (x ← at_string (encode l) "expected_state_revision"; text_is (encode p) "result_state_revision" x) = Ok b ∧
  (b = true ↔ lease_operation e = lease_operation l ∧ lease_context e = lease_context l ∧ lease_phase p = completed (lease_revision l)).
Proof.
  rewrite (bind_step _ _ (lease_revision l)) by reflexivity.
  rewrite (text_is_ok _ "status" (status_text (lease_phase p))) by reflexivity.
  rewrite (text_is_ok _ "operation" (lease_operation e)) by reflexivity.
  rewrite (same_texts _ _ _ _ (lease_context e) (lease_context l)) by reflexivity.
  rewrite !and_ok. destruct (lease_phase p) as [|res|res] eqn:Ep; cbn [status_text];
    [change (String.eqb "active" "completed") with false| |change (String.eqb "handoff" "completed") with false];
    try (rewrite !andb_false_l, false_also; exists false; split; [done|]; naive_solver).
  change (String.eqb "completed" "completed") with true. rewrite andb_true_l.
  assert (at_string (encode p) "result_state_revision" = Ok res) as E.
  { transitivity (as_string (result_value (lease_phase p))); [reflexivity|by rewrite Ep]. }
  rewrite (text_is_ok _ _ res) by exact E. rewrite and_ok. eexists. split; [reflexivity|].
  rewrite !andb_true_iff, !String.eqb_eq. naive_solver.
Qed.

Lemma repeats_lookup spans id k e : repeats spans id = Some (k, e) → spans !! k = Some e ∧ lease_operation_id (opening e) = id.
Proof. intros (H & Hid & _)%list_find_Some. done. Qed.

Lemma open_exact po spans l r : stands_for po (spans, None) r → (is_Some po ∨ spans = []) →
  match open_span r (encode l) (lease_operation l) (lease_operation_id l) with
  | Ok r' => opens po spans l ∧ stands_for po (spans, Some (l, [])) r'
  | Throw _ => ¬ opens po spans l
  end.
Proof.
  intros [Hp Ho Hf Hs Ht Hr] Hpo. unfold open_span. rewrite Hp. unfold opens. cbn [fst snd] in *.
  assert (∀ b, is_repeat spans l = b → stands_for po (spans, Some (l, []))
    (mk_replay (encode <$> po) (Some (encode l)) (completed_operations r) (found r) b)) as Hst.
  { intros b Hb. split; try done. by intros o [= <-]. }
  unfold is_repeat in Hst. destruct po as [p|]; cbn [fmap option_fmap option_map] in *.
  - cbn [mbind result_bind]. rewrite Ht. destruct (repeats spans (lease_operation_id l)) as [[k e]|] eqn:Er; cbn [fmap option_fmap option_map fst].
    + destruct (repeats_lookup _ _ _ _ Er) as [Hk _]. destruct (reports_lookup spans [] k e Hk) as (c & Hc & Eo). rewrite Hf in Hst |- *. rewrite Hc, Eo.
      destruct (repeat_check p (opening e) l) as (b & -> & Hb). cbn [mbind result_bind]. destruct b; cbn.
      * split; [|by apply Hst, bool_decide_eq_true_2]. split; [done|]. intros k' e' [= <- <-].
        destruct (proj1 Hb eq_refl) as (? & ? & ?). eauto.
      * intros [_ H]. destruct (H k e eq_refl) as (H1 & H2 & p' & [= <-] & H3). by assert (false = true) by by apply Hb.
    + split; [split; [done|]; by intros ? ? [=]|]. by apply Hst, bool_decide_eq_false_2; intros [? ?].
  - destruct Hpo as [[? ?]| ->]; [done|]. unfold require. destruct (String.eqb_spec (lease_operation l) "install_local") as [E|E]; cbn [negb throw_if mbind result_bind].
    + rewrite Ht. cbn. split; [split; [done|]; by intros ? ? [=]|]. by apply Hst, bool_decide_eq_false_2; intros [? ?].
    + intros [H _]. by apply E, H.
Qed.

Lemma continue_exact po spans o mid l r : stands_for po (spans, Some (o, mid)) r →
  match continue_span r (encode o) (encode l) (lease_operation l) (lease_operation_id l) with
  | Ok r' => (same_lease_operation o l ∧ unchanged spans o (lease_revision l)) ∧ r' = r
  | Throw _ => ¬ (same_lease_operation o l ∧ unchanged spans o (lease_revision l))
  end.
Proof.
  intros [_ _ _ _ _ Hr]. specialize (Hr o eq_refl). unfold continue_span, unchanged, same_lease_operation.
  rewrite (text_is_ok _ "operation" (lease_operation o)) by reflexivity.
  rewrite (text_is_ok _ "operation_id" (lease_operation_id o)) by reflexivity.
  rewrite (same_texts _ "operation_context_sha256" _ _ (lease_context o) (lease_context l)) by reflexivity.
  rewrite (same_texts _ "expected_state_revision" _ _ (lease_revision o) (lease_revision l)) by reflexivity.
  rewrite !and_ok, Hr. cbn [fst]. cbn [mbind result_bind]. unfold require.
  destruct (String.eqb_spec (lease_operation o) (lease_operation l)); cbn; [|naive_solver].
  destruct (String.eqb_spec (lease_operation_id o) (lease_operation_id l)); cbn; [|naive_solver].
  destruct (String.eqb_spec (lease_context o) (lease_context l)); cbn; [|naive_solver].
  destruct (is_repeat spans o); cbn; [|naive_solver].
  destruct (String.eqb_spec (lease_revision o) (lease_revision l)); cbn; naive_solver.
Qed.

Lemma unchanged_exact po spans o mid l res r : stands_for po (spans, Some (o, mid)) r →
  result_value (lease_phase l) = string_value res →
  match require_unchanged r (encode o) (encode l) with
  | Ok _ => unchanged spans o res
  | Throw _ => ¬ unchanged spans o res
  end.
Proof.
  intros [_ _ _ _ _ Hr] Hres. specialize (Hr o eq_refl). unfold require_unchanged, unchanged. cbn [fst] in Hr. rewrite Hr.
  destruct (is_repeat spans o); [|done].
  rewrite (same_texts _ _ _ _ (lease_revision o) res); [|reflexivity|].
  - cbn [mbind result_bind]. unfold require. destruct (String.eqb_spec (lease_revision o) res); cbn; naive_solver.
  - transitivity (Ok (result_value (lease_phase l))); [reflexivity|by rewrite Hres].
Qed.

(** The open span belongs to the operation of the last record. *)
Definition tied (po : option Lease) (g : progress) : Prop :=
  ∀ o mid, snd g = Some (o, mid) → ∃ p, po = Some p ∧ same_lease_operation o p.

Lemma step_same po l : step po l → lease_phase l ≠ active →
  ∃ p, po = Some p ∧ lease_phase p = active ∧ same_lease_operation p l ∧ lease_revision l = lease_revision p.
Proof. inversion 1 as [|p b rev Ha]; subst; [done|]. intros _. by exists p. Qed.

Lemma repeats_snoc spans s id : repeats (spans ++ [s]) id =
  match repeats spans id with
  | Some x => Some x
  | None => if decide (lease_operation_id (opening s) = id) then Some (length spans, s) else None
  end.
Proof.
  unfold repeats. induction spans as [|x spans IH]; cbn [app list_find length].
  - by destruct (decide _).
  - destruct (decide (lease_operation_id (opening x) = id)); [done|]. rewrite IH.
    destruct (list_find _ spans) as [[k e]|]; [done|]. by destruct (decide _).
Qed.

Lemma close_exact po spans o mid l res r : stands_for po (spans, Some (o, mid)) r → lease_operation_id l = lease_operation_id o →
  result_value (lease_phase l) = string_value res → unchanged spans o res →
  ∃ r', close_span r (encode l) (lease_operation_id l) = Ok r' ∧
    stands_for (Some l) (spans ++ [mk_span o mid l], None)
      (mk_replay (Some (encode l)) (original r') (completed_operations r') (found r') (repeated r')).
Proof.
  intros Hst Hid Hres Hun. pose proof (unchanged_exact _ _ _ _ _ _ _ Hst Hres) as Hu. destruct Hst as [Hp Ho Hf Hs Ht Hr].
  cbn [fst snd fmap option_fmap option_map] in *. specialize (Hr o eq_refl). unfold close_span. rewrite Ho.
  assert (∀ t, StdMap.sorted t → (∀ id, StdMap.find id t = fst <$> repeats (spans ++ [mk_span o mid l]) id) →
    stands_for (Some l) (spans ++ [mk_span o mid l], None)
      (mk_replay (Some (encode l)) None t (found r ++ [mk_completion (encode o) (encode l) (repeated r)]) (repeated r))) as Hdone.
  { intros t Hst Htt. split; try done. cbn [found fst]. by rewrite reports_snoc, Hf, Hr. }
  rewrite Hr in Hdone |- *. unfold is_repeat in *. destruct (repeats spans (lease_operation_id o)) as [[k e]|] eqn:Er.
  - rewrite bool_decide_eq_true_2 in Hdone |- * by done.
    destruct (require_unchanged r (encode o) (encode l)) as [[]|?]; [|done]. cbn [mbind result_bind]. eexists. split; [done|].
    apply Hdone; [done|]. intros id. rewrite Ht, repeats_snoc. destruct (repeats spans id) eqn:E; [done|].
    rewrite decide_False; [done|]. cbn. intros <-. congruence.
  - rewrite bool_decide_eq_false_2 in Hdone |- * by (by intros [? ?]).
    pose proof (StdMap.emplace_snd (lease_operation_id l) (length (found r)) _ Hs) as Hem.
    pose proof (StdMap.emplace_sorted (lease_operation_id l) (length (found r)) _ Hs) as Hso.
    assert (StdMap.find (lease_operation_id l) (completed_operations r) = None) as Hno by (by rewrite Ht, Hid, Er).
    unfold StdMap.contains_key in Hem. rewrite Hno in Hem.
    destruct (StdMap.emplace (lease_operation_id l) (length (found r)) (completed_operations r)) as [t inserted] eqn:Et.
    cbn [fst snd] in Hem, Hso. subst inserted. cbn [require throw_if negb mbind result_bind]. eexists. split; [done|].
    apply Hdone; [done|]. intros id. rewrite repeats_snoc. cbn [opening]. rewrite <- Hid.
    destruct (decide (lease_operation_id l = id)) as [<-|Hne].
    + rewrite Hid, Er. cbn [fmap option_fmap option_map fst]. rewrite <- Hid, <- (reports_length spans []), <- Hf.
      pose proof (StdMap.find_emplace_same (lease_operation_id l) (length (found r)) _ Hs Hno) as E. by rewrite Et in E.
    + pose proof (StdMap.find_emplace_other (lease_operation_id l) id (length (found r)) _ Hs Hne) as E. rewrite Et in E.
      cbn [fst] in E. cbn [completed_operations]. rewrite E, Ht. by destruct (repeats spans id).
Qed.

(** A record that the protocol and the retirement allow here. *)
Definition allowed (install : string) (root : value) (po : option Lease) (l : Lease) : Prop :=
  lease_install l = install ∧ lease_root l = root ∧ lease_operation l ∈ admitted_operations ∧ step po l.

Lemma admitted_operation_iff op : existsb (String.eqb op) admitted_operations = true ↔ op ∈ admitted_operations.
Proof.
  rewrite existsb_exists. split; [by intros (x & Hx%list_elem_of_In & ->%String.eqb_eq)|].
  intros H. exists op. split; [by apply list_elem_of_In|apply String.eqb_refl].
Qed.

Lemma expected_cases po l : (∀ p, po = Some p → lease_ok p) → lease_ok l →
  match expected_record (encode <$> po) (lease_install l) (lease_root l) (encode l) (status_text (lease_phase l)) with
  | Ok x => equal_values (encode l) x = true ↔ step po l
  | Throw _ => ¬ step po l
  end.
Proof.
  intros Hpo Hl. pose proof (expected_record_exact po l Hpo Hl) as H. destruct (expected_record _ _ _ _ _) as [x|e].
  - rewrite equal_values_eq, <- H. split; [by intros <-|by intros [= ->]].
  - intros Hs%H. done.
Qed.

Lemma acquisition_exact po g l r : stands_for po g r → (is_Some po ∨ fst g = []) →
  (∀ p, po = Some p → lease_ok p) → lease_ok l → lease_phase l = active →
  match replay_acquisition (lease_install l) (lease_root l) r (encode l) (lease_operation l) (lease_operation_id l) "active" with
  | Ok (x, r') => (equal_values (encode l) x = true ↔ step po l) ∧ ∃ g', moves po g l g' ∧ stands_for po g' r'
  | Throw _ => ¬ (step po l ∧ ∃ g', moves po g l g')
  end.
Proof.
  intros Hst Hpo Hok Hl Eph. unfold replay_acquisition. pose proof Hst as [Hp Horig _ _ _ _]. rewrite Hp, Horig.
  pose proof (expected_cases po l Hok Hl) as Hx. rewrite Eph in Hx. cbn [status_text] in Hx.
  destruct (expected_record _ _ _ _ _) as [x|e]; cbn [mbind result_bind]; [|naive_solver].
  destruct g as [spans [[o mid]|]]; cbn [snd fmap option_fmap option_map fst] in *.
  - pose proof (continue_exact po spans o mid l r Hst) as Hc. destruct (continue_span _ _ _ _ _) as [r0|e]; cbn [mbind result_bind].
    + destruct Hc as [[Hs Hu] ->]. split; [done|]. exists (spans, Some (o, mid ++ [l])). split; [by constructor|by destruct Hst; split].
    + intros [_ [g' Hm]]. apply Hc. inversion Hm; subst; [done|congruence..].
  - pose proof (open_exact po spans l r Hst Hpo) as Hc. destruct (open_span _ _ _ _) as [r0|e]; cbn [mbind result_bind].
    + destruct Hc as [Hop Hst']. split; [done|]. exists (spans, Some (l, [])). split; [by constructor|done].
    + intros [_ [g' Hm]]. apply Hc. by inversion Hm; subst.
Qed.

Lemma finish_record_exact po g l res r : stands_for po g r → (∀ p, po = Some p → lease_ok p) → lease_ok l →
  lease_phase l = completed res ∨ lease_phase l = handoff res →
  match replay_finish (lease_install l) (lease_root l) r (encode l) (status_text (lease_phase l)) with
  | Ok (x, r') => (equal_values (encode l) x = true ↔ step po l) ∧ r' = r ∧
      ∃ spans o mid, g = (spans, Some (o, mid)) ∧ unchanged spans o res
  | Throw _ => ¬ (step po l ∧ ∃ g', moves po g l g')
  end.
Proof.
  intros Hst Hok Hl Eph. unfold replay_finish. pose proof Hst as [Hp Horig _ _ _ _]. rewrite Hp, Horig.
  pose proof (expected_cases po l Hok Hl) as Hx.
  assert (result_value (lease_phase l) = string_value res ∧ lease_phase l ≠ active) as [Hres Hna] by (by destruct Eph as [-> | ->]).
  destruct po as [p|]; cbn [fmap option_fmap option_map] in *; [|intros [Hs _]; by inversion Hs; subst].
  destruct g as [spans [[o mid]|]]; cbn [snd fmap option_fmap option_map fst] in *; [|intros [_ [g' Hm]]; by inversion Hm; subst].
  destruct (expected_record _ _ _ _ _) as [x|e]; cbn [mbind result_bind]; [|naive_solver].
  pose proof (unchanged_exact _ _ _ _ l res r Hst Hres) as Hu.
  destruct (require_unchanged _ _ _) as [[]|e]; cbn [mbind result_bind]; [by eauto 8|].
  intros [_ [g' Hm]]. apply Hu. inversion Hm as [|? ? ? ? Ha|? ? ? ? r0 E|? ? ? ? r0 E]; subst; [done|..];
    by assert (r0 = res) as <- by (destruct Eph; congruence).
Qed.

Lemma replay_exact install root po g l r : stands_for po g r → tied po g → (is_Some po ∨ fst g = []) →
  (∀ p, po = Some p → lease_ok p) → lease_ok l →
  match replay_record install root r (encode l) with
  | Ok r' => allowed install root po l ∧ ∃ g', moves po g l g' ∧ stands_for (Some l) g' r'
  | Throw _ => ¬ (allowed install root po l ∧ ∃ g', moves po g l g')
  end.
Proof.
  intros Hst Htied Hpo Hok Hl. unfold replay_record, allowed. rewrite record_encode by done. cbn [mbind result_bind].
  rewrite (text_is_ok _ _ (lease_install l)) by reflexivity.
  rewrite (bind_step (at_ (encode l) "state_root_identity") _ (lease_root l)) by reflexivity. rewrite and_ok. cbn [mbind result_bind].
  destruct (String.eqb_spec (lease_install l) install) as [<-|Hi]; cbn [andb require negb throw_if mbind result_bind]; [|naive_solver].
  destruct (equal_values (lease_root l) root) eqn:Er; cbn [require negb throw_if mbind result_bind].
  2:{ intros ((_ & <- & _) & _). by rewrite (proj2 (equal_values_eq _ _) eq_refl) in Er. }
  apply equal_values_eq in Er as <-.
  rewrite (bind_step _ _ (lease_operation l)), (bind_step _ _ (lease_operation_id l)) by reflexivity.
  destruct (existsb (String.eqb (lease_operation l)) admitted_operations) eqn:Eo; cbn [require negb throw_if mbind result_bind].
  2:{ intros ((_ & _ & H%admitted_operation_iff & _) & _). by rewrite Eo in H. }
  apply admitted_operation_iff in Eo. rewrite (bind_step _ _ (status_text (lease_phase l))) by reflexivity.
  assert (∀ r0 g', stands_for po g' r0 → stands_for (Some l) g' (mk_replay (Some (encode l)) (original r0)
    (completed_operations r0) (found r0) (repeated r0))) as Hnext by (by intros r0 g' []; split).
  destruct (lease_phase l) as [|res|res] eqn:Eph.
  - cbn [status_text]. change (String.eqb "active" "active") with true. change (String.eqb "active" "completed") with false. cbv iota.
    pose proof (acquisition_exact po g l r Hst Hpo Hok Hl Eph) as H. destruct (replay_acquisition _ _ _ _ _ _ _) as [[x r0]|e];
      cbn [mbind result_bind]; [|naive_solver]. destruct H as [Hx (g' & Hm & Hst')].
    destruct (equal_values (encode l) x); cbn [require negb throw_if mbind result_bind]; [|naive_solver]. split; [naive_solver|eauto].
  - pose proof (finish_record_exact po g l res r Hst Hok Hl ltac:(by left)) as H. rewrite Eph in H. cbn [status_text] in H |- *.
    change (String.eqb "completed" "active") with false. change (String.eqb "completed" "completed") with true. cbv iota.
    destruct (replay_finish _ _ _ _ _) as [[x r0]|e]; cbn [mbind result_bind]; [|naive_solver].
    destruct H as (Hx & -> & spans & o & mid & -> & Hu).
    destruct (equal_values (encode l) x); cbn [require negb throw_if mbind result_bind]; [|naive_solver].
    assert (step po l) as Hs by by apply Hx.
    destruct (step_same _ _ Hs ltac:(by rewrite Eph)) as (p & -> & _ & (_ & Hid & _) & _).
    destruct (Htied o mid eq_refl) as (p' & [= <-] & (_ & Hid' & _)).
    destruct (close_exact _ _ _ _ l res r Hst ltac:(congruence) ltac:(by rewrite Eph) Hu) as (r' & -> & Hst'). cbn [mbind result_bind].
    split; [done|]. exists (spans ++ [mk_span o mid l], None). split; [by eapply moves_complete|done].
  - pose proof (finish_record_exact po g l res r Hst Hok Hl ltac:(by right)) as H. rewrite Eph in H. cbn [status_text] in H |- *.
    change (String.eqb "handoff" "active") with false. change (String.eqb "handoff" "completed") with false. cbv iota.
    destruct (replay_finish _ _ _ _ _) as [[x r0]|e]; cbn [mbind result_bind]; [|naive_solver].
    destruct H as (Hx & -> & spans & o & mid & -> & Hu).
    destruct (equal_values (encode l) x); cbn [require negb throw_if mbind result_bind]; [|naive_solver].
    split; [naive_solver|]. exists (spans, Some (o, mid ++ [l])). split; [by eapply moves_handoff|]. by destruct Hst; split.
Qed.

(** ** A whole history *)

(** The last record after [ls]. *)
Definition latest (po : option Lease) (ls : list Lease) : option Lease := fold_left (fun _ l => Some l) ls po.

Inductive runs_to : option Lease → progress → list Lease → progress → Prop :=
| runs_nil po g : runs_to po g [] g
| runs_cons po g l g1 ls g2 : moves po g l g1 → runs_to (Some l) g1 ls g2 → runs_to po g (l :: ls) g2.

Lemma runs_app po g ls g1 ls' g2 : runs_to po g ls g1 → runs_to (latest po ls) g1 ls' g2 → runs_to po g (ls ++ ls') g2.
Proof. induction 1 as [|po g l g1' ls g1 Hm H IH]; [done|]. intros H'. econstructor; [exact Hm|]. by apply IH. Qed.

Lemma moves_functional po g l g1 g2 : moves po g l g1 → moves po g l g2 → g1 = g2.
Proof. inversion 1; inversion 1; subst; congruence. Qed.

Lemma runs_functional po g ls g1 g2 : runs_to po g ls g1 → runs_to po g ls g2 → g1 = g2.
Proof.
  induction 1 as [|po g l g1' ls g1 Hm _ IH]; inversion 1 as [|? ? ? g2' ? ? Hm' H']; subst; [done|].
  apply IH. by rewrite (moves_functional _ _ _ _ _ Hm Hm').
Qed.

Lemma moves_tied po g l g' : step po l → tied po g → moves po g l g' → tied (Some l) g'.
Proof.
  intros Hs Ht Hm o mid E. exists l. split; [done|].
  inversion Hm as [? ? _ _|? o' ? ? _ Hsame _|spans o' mid' ? r Eph _|]; subst; cbn in E; try done.
  - by injection E as <- _.
  - by injection E as <- _.
  - injection E as <- _. destruct (step_same _ _ Hs ltac:(by rewrite Eph)) as (p & -> & _ & (H1 & H2 & H3) & _).
    destruct (Ht _ _ eq_refl) as (p' & [= <-] & (H4 & H5 & H6)). repeat split; congruence.
Qed.

Definition scoped (install : string) (root : value) (l : Lease) : Prop :=
  lease_install l = install ∧ lease_root l = root ∧ lease_operation l ∈ admitted_operations.

(** What a history must be to be replayed from here. *)
Definition replayable (install : string) (root : value) (po : option Lease) (g : progress) (history : list value)
    (ls : list Lease) (g' : progress) : Prop :=
  history = encode <$> ls ∧ Forall (scoped install root) ls ∧ chain po ls ∧ runs_to po g ls g'.

Lemma replay_all install root history : Forall wf history → ∀ po g r, stands_for po g r → tied po g →
  (is_Some po ∨ fst g = []) → (∀ p, po = Some p → lease_ok p) →
  match fold_result (replay_record install root) r history with
  | Ok r' => ∃ ls g', replayable install root po g history ls g' ∧ stands_for (latest po ls) g' r'
  | Throw _ => ∀ ls g', ¬ replayable install root po g history ls g'
  end.
Proof.
  induction 1 as [|v history Hv _ IH]; intros po g r Hst Ht Hpo Hok; cbn [fold_result].
  { exists [], g. split; [|done]. split; [done|]. split; [constructor|]. split; constructor. }
  destruct (replay_record install root r v) as [r1|e] eqn:E; cbn [mbind result_bind].
  - assert (∃ l, lease_ok l ∧ v = encode l) as (l & Hl & Ev).
    { apply record_inv; [done|]. unfold replay_record in E. destruct (require_install_lease_record v) as [[]|]; done. }
    pose proof (replay_exact install root po g l r Hst Ht Hpo Hok Hl) as H. rewrite <- Ev, E in H.
    destruct H as ((Hi & Hr & Ho & Hs) & g1 & Hm & Hst1).
    specialize (IH (Some l) g1 r1 Hst1 (moves_tied _ _ _ _ Hs Ht Hm) ltac:(left; eauto) ltac:(by intros p [= <-])).
    destruct (fold_result _ r1 history) as [r2|e].
    + destruct IH as (ls & g' & (-> & Hsc & Hc & Hrun) & Hst'). exists (l :: ls), g'. split; [|done].
      split; [by rewrite Ev|]. split; [by constructor|]. split; by econstructor.
    + intros [|l' ls] g' (Eh & Hsc & Hc & Hrun); [done|]. cbn in Eh. injection Eh as El ->. rewrite Ev in El. apply encode_inj in El as <-.
      inversion Hrun as [|? ? ? g1' ? ? Hm' Hrun']; subst. rewrite (moves_functional _ _ _ _ _ Hm Hm') in IH.
      inversion Hc; subst. apply Forall_cons in Hsc as [_ Hsc]. by apply (IH ls g').
  - intros [|l ls] g' (Eh & Hsc & Hc & Hrun); [done|]. cbn in Eh. injection Eh as -> ->.
    inversion Hc as [|? ? ? Hl Hs _]; subst. inversion Hrun as [|? ? ? g1 ? ? Hm _]; subst. apply Forall_cons in Hsc as [(? & ? & ?) _].
    pose proof (replay_exact install root po g l r Hst Ht Hpo Hok Hl) as H'. rewrite E in H'. apply H'. split; [by split_and!|eauto].
Qed.

(** ** Histories as sequences of spans *)

(** A record of an operation that is repeated: it neither expects nor leaves another revision. *)
Definition steady (o l : Lease) : Prop :=
  lease_revision l = lease_revision o ∧
  match lease_phase l with active => True | completed r | handoff r => r = lease_revision o end.

(** A span that is open after the earlier ones. *)
Record opened (earlier : list Span) (o : Lease) (mid : list Lease) : Prop := mk_opened {
  opened_active : lease_phase o = active;
  opened_first : earlier = [] → lease_operation o = "install_local";
  opened_middle : Forall (outstanding o) mid;
  opened_repeat : ∀ k e, repeats earlier (lease_operation_id o) = Some (k, e) →
    same_lease_operation (opening e) o ∧ Forall (steady o) mid ∧
    ∃ s, last earlier = Some s ∧ lease_phase (closing s) = completed (lease_revision o) }.

Definition span_ok (earlier : list Span) (s : Span) : Prop :=
  opened earlier (opening s) (middle s) ∧ same_lease_operation (opening s) (closing s) ∧
  is_completed (lease_phase (closing s)) = true ∧
  (is_repeat earlier (opening s) = true → steady (opening s) (closing s)).

(** Every span is good after the ones before it. *)
Definition spans_ok (spans : list Span) : Prop := ∀ k s, spans !! k = Some s → span_ok (take k spans) s.

Definition all_records (spans : list Span) : list Lease := concat (map span_records spans).

Lemma spans_snoc spans s : spans_ok (spans ++ [s]) ↔ spans_ok spans ∧ span_ok spans s.
Proof.
  unfold spans_ok. split.
  - intros H. split.
    + intros k x E. pose proof (lookup_lt_Some _ _ _ E) as Hk. specialize (H k x).
      rewrite lookup_app_l, take_app_le in H by lia. by apply H.
    + specialize (H (length spans) s). rewrite list_lookup_middle, take_app_length in H by done. by apply H.
  - intros [H1 H2] k x E. destruct (decide (k < length spans)%nat) as [Hk|Hk].
    + rewrite lookup_app_l in E by done. rewrite take_app_le by lia. by apply H1.
    + rewrite lookup_app_r in E by lia. apply list_lookup_singleton_Some in E as [Hz <-].
      assert (k = length spans) as -> by lia. by rewrite take_app_length.
Qed.

Lemma all_snoc spans s : all_records (spans ++ [s]) = all_records spans ++ span_records s.
Proof. unfold all_records. rewrite map_app, concat_app. cbn. by rewrite app_nil_r. Qed.

Lemma last_all spans : last (all_records spans) = closing <$> last spans.
Proof.
  destruct spans as [|s spans _] using rev_ind; [done|]. rewrite all_snoc, last_snoc. unfold span_records.
  rewrite app_comm_cons, app_assoc, last_snoc. done.
Qed.

(** The records that have been read, as spans. *)
Record read_as (read : list Lease) (g : progress) : Prop := mk_read {
  read_records : read = all_records (fst g) ++ match snd g with None => [] | Some (o, mid) => o :: mid end;
  read_spans : spans_ok (fst g);
  read_open : ∀ o mid, snd g = Some (o, mid) → opened (fst g) o mid }.

(** The last record of an open span belongs to its operation. *)
Lemma opened_last spans o mid p : opened spans o mid → last (all_records spans ++ o :: mid) = Some p →
  same_lease_operation o p ∧ (is_repeat spans o = true → lease_revision p = lease_revision o).
Proof.
  intros [Ha _ Hm Hr]. destruct mid as [|x mid _] using rev_ind.
  - rewrite last_snoc. by intros [= <-].
  - rewrite app_comm_cons, app_assoc, last_snoc. intros [= <-]. apply Forall_app in Hm as [_ Hx]. inversion Hx as [|? ? [? _] _]; subst.
    split; [done|]. intros [[k e] E]%bool_decide_eq_true. destruct (Hr k e E) as (_ & Hs & _).
    apply Forall_app in Hs as [_ Hs]. inversion Hs as [|? ? [? _] _]; by subst.
Qed.

Lemma same_trans a b c : same_lease_operation a b → same_lease_operation b c → same_lease_operation a c.
Proof. intros (? & ? & ?) (? & ? & ?). repeat split; congruence. Qed.

Lemma opened_snoc spans o mid l : opened spans o mid → outstanding o l → (is_repeat spans o = true → steady o l) →
  opened spans o (mid ++ [l]).
Proof.
  intros [H1 H2 H3 H4] Ho Hs. split; [done..| |].
  - apply Forall_app. split; [done|]. by apply Forall_singleton.
  - intros k e E. destruct (H4 k e E) as (H5 & H6 & H7). split; [done|]. split; [|done]. apply Forall_app. split; [done|].
    apply Forall_singleton, Hs. unfold is_repeat. rewrite E. by apply bool_decide_eq_true_2.
Qed.

(** A record that ends a lease of the open span. *)
Lemma opened_finish spans o mid l r : opened spans o mid → step (last (all_records spans ++ o :: mid)) l →
  lease_phase l = completed r ∨ lease_phase l = handoff r → unchanged spans o r →
  same_lease_operation o l ∧ (is_repeat spans o = true → steady o l).
Proof.
  intros Hop Hst Eph Hun. destruct (step_same _ _ Hst) as (p & Hp & _ & Hsame & Hrev); [by destruct Eph as [-> | ->]|].
  destruct (opened_last _ _ _ _ Hop Hp) as [Hsp Hrp]. split; [by eapply same_trans|]. intros Hrep. split.
  - by rewrite Hrev, Hrp.
  - destruct Eph as [-> | ->]; by apply Hun.
Qed.

Lemma read_step read g l g' : read_as read g → step (last read) l → moves (last read) g l g' → read_as (read ++ [l]) g'.
Proof.
  intros [Er Hs Ho] Hst Hm. destruct Hm as [spans l Ha Hop|spans o mid l Ha Hsame Hun|spans o mid l r Eph Hun|spans o mid l r Eph Hun];
    cbn [fst snd] in *.
  - split; cbn [fst snd]; [by rewrite Er, app_nil_r|done|]. intros o mid [= <- <-]. rewrite app_nil_r in Er.
    rewrite Er, last_all in Hop. destruct Hop as [H1 H2]. split; [done| |constructor|].
    + intros ->. by apply H1.
    + intros k e E. destruct (H2 k e E) as (Hop & Hcx & p & Hp & Hph). destruct (repeats_lookup _ _ _ _ E) as [_ Hid].
      split; [by repeat split|]. split; [constructor|]. destruct (last spans) as [s|]; [|done]. injection Hp as <-. eauto.
  - split; cbn [fst snd]; [by rewrite Er, <- app_assoc|done|]. intros o' mid' [= <- <-].
    apply opened_snoc; [by apply Ho|by split; [|rewrite Ha]|]. intros Hrep. split; [by apply Hun|by rewrite Ha].
  - rewrite Er in Hst. destruct (opened_finish _ _ _ _ r (Ho o mid eq_refl) Hst ltac:(by right) Hun) as [Hsame Hsteady].
    split; cbn [fst snd]; [by rewrite Er, <- app_assoc|done|]. intros o' mid' [= <- <-].
    apply opened_snoc; [by apply Ho|by split; [|rewrite Eph]|done].
  - rewrite Er in Hst. destruct (opened_finish _ _ _ _ r (Ho o mid eq_refl) Hst ltac:(by left) Hun) as [Hsame Hsteady].
    split; cbn [fst snd]; [|apply spans_snoc; split; [done|]|done].
    + rewrite Er, all_snoc, app_nil_r, <- app_assoc. done.
    + split; [by apply Ho|]. split; [done|]. split; [by cbn [closing]; rewrite Eph|done].
Qed.

Lemma latest_last read ls : latest (last read) ls = last (read ++ ls).
Proof.
  unfold latest. rewrite fold_last. destruct ls as [|l ls _] using rev_ind; [by rewrite app_nil_r|].
  by rewrite app_assoc, !last_snoc.
Qed.

Lemma read_run ls : ∀ read g g', read_as read g → chain (last read) ls → runs_to (last read) g ls g' → read_as (read ++ ls) g'.
Proof.
  induction ls as [|l ls IH]; intros read g g' Hr Hc Hrun; inversion Hrun as [|? ? ? g1 ? ? Hm Hrun']; subst; [by rewrite app_nil_r|].
  inversion Hc as [|? ? ? _ Hs Hc']; subst. pose proof (read_step _ _ _ _ Hr Hs Hm) as Hr1.
  rewrite (cons_middle l read ls), app_assoc. apply (IH _ g1); [done|by rewrite last_snoc..].
Qed.

(** *** The converse *)

Lemma run_middle spans o mid' : ∀ po mid, Forall (outstanding o) mid' → (is_repeat spans o = true → Forall (steady o) mid') →
  runs_to po (spans, Some (o, mid)) mid' (spans, Some (o, mid ++ mid')).
Proof.
  induction mid' as [|l mid' IH]; intros po mid Hm Hs; [rewrite app_nil_r; constructor|].
  apply Forall_cons in Hm as [[Hsame Hc] Hm]. assert (unchanged spans o (lease_revision l) ∧ (is_repeat spans o = true → steady o l)) as [Hu Hl].
  { split; [|intros H; by apply Hs, Forall_cons in H as [? _]]. intros H. apply Hs, Forall_cons in H as [[? _] _]. done. }
  rewrite (cons_middle l mid mid'), app_assoc.
  econstructor; [|apply IH; [done|]; intros H; by apply Hs, Forall_cons in H as [_ ?]].
  destruct (lease_phase l) as [|r|r] eqn:Eph; [by constructor|done|]. eapply moves_handoff; [exact Eph|]. intros H. apply Hl in H as [_ H].
  by rewrite Eph in H.
Qed.

Lemma run_spans spans : spans_ok spans → runs_to None ([], None) (all_records spans) (spans, None).
Proof.
  induction spans as [|s spans IH] using rev_ind; intros H; [constructor|]. apply spans_snoc in H as [H (Hop & Hsame & Hc & Hst)].
  rewrite all_snoc. eapply runs_app; [by apply IH|]. rewrite (latest_last []), app_nil_l, last_all. unfold span_records.
  destruct s as [o mid f]; cbn [opening middle closing] in *. destruct Hop as [Ha Hf Hm Hr]. econstructor.
  - apply moves_open; [done|]. split.
    + intros E. apply Hf. by destruct spans as [|x spans _] using rev_ind; [|rewrite last_snoc in E].
    + intros k e E. destruct (Hr k e E) as ((H1 & _ & H2) & _ & s & El & Eph). rewrite El. split; [done|]. split; [done|]. eauto.
  - eapply runs_app; [apply (run_middle spans o mid _ []); [done|]|].
    + intros [[k e] E]%bool_decide_eq_true. by destruct (Hr k e E) as (_ & ? & _).
    + econstructor; [|constructor]. destruct (lease_phase f) as [|r|r] eqn:Eph; [done| |done].
      eapply moves_complete; [exact Eph|]. intros Hrep. apply Hst in Hrep as [_ Hrep]. by rewrite Eph in Hrep.
Qed.

Lemma runs_spans ls spans : chain None ls → runs_to None ([], None) ls (spans, None) ↔ spans_ok spans ∧ ls = all_records spans.
Proof.
  intros Hc. split; [|by intros [H ->]; apply run_spans]. intros Hr.
  assert (read_as [] ([], None)) as H0 by (split; [done|by intros k s E|done]).
  destruct (read_run ls [] _ _ H0 Hc Hr) as [E Hs _]. cbn in E, Hs. by rewrite app_nil_r in E.
Qed.

Lemma latest_none ls : latest None ls = last ls.
Proof. exact (latest_last [] ls). Qed.

Lemma final_check l current : ∃ b,
  text_is (encode l) "status" "completed" &&& text_is (encode l) "result_state_revision" current = Ok b ∧
  (b = true ↔ lease_phase l = completed current).
Proof.
  rewrite (text_is_ok _ "status" (status_text (lease_phase l))) by reflexivity.
  destruct (lease_phase l) as [|res|res] eqn:Eph; [by exists false| |by exists false].
  change (String.eqb (status_text (completed res)) "completed") with true.
  rewrite (text_is_ok _ "result_state_revision" res)
    by (transitivity (as_string (result_value (lease_phase l))); [reflexivity|by rewrite Eph]).
  rewrite and_ok. eexists. split; [reflexivity|]. rewrite andb_true_l, String.eqb_eq. naive_solver.
Qed.

Lemma initial_stands : stands_for None ([], None) (mk_replay None None [] [] false).
Proof. split; try done. constructor. Qed.

(** C33 A retirement accepts exactly the lease histories of at most 4096 records that the
    protocol can produce and that divide into spans, each of one install, repair or
    uninstall from its acquisition to its completion: an installation comes first, and an
    operation that comes again must be the same one, begin at the revision reached and
    leave it unchanged throughout.  The last span ends at the current revision, and the
    result lists the first and last record of every span and whether it is a repetition. *)
Theorem retirement_history_exact history install root current result : Forall wf history →
  decode_owned_retirement_lease_history history install root current = Ok result ↔
  ∃ spans s, history = encode <$> all_records spans ∧ N.of_nat (length history) <= 4096 ∧
    Forall (scoped install root) (all_records spans) ∧ chain None (all_records spans) ∧ spans_ok spans ∧
    last spans = Some s ∧ lease_phase (closing s) = completed current ∧ result = reports [] spans.
Proof.
  intros Hwf. unfold decode_owned_retirement_lease_history.
  pose proof (replay_all install root history Hwf None ([], None) _ initial_stands ltac:(done) ltac:(by right) ltac:(done)) as Hall.
  split.
  - intros H. apply bind_ok in H as ([] & [_ Hn%N.leb_le]%require_ok%andb_prop & H).
    apply bind_ok in H as ([] & _ & H). destruct (fold_result _ _ history) as [r|]; [|done]. cbn [mbind result_bind] in H.
    destruct Hall as (ls & [spans cur] & (-> & Hsc & Hc & Hrun) & [Hp Ho Hf _ _ _]). cbn [fst snd] in *. rewrite Ho, Hp in H.
    destruct cur as [[o mid]|]; [done|]. cbn [fmap option_fmap option_map] in H.
    apply (runs_spans ls spans Hc) in Hrun as [Hok ->]. rewrite latest_none, last_all in H.
    destruct (last spans) as [s|] eqn:El; cbn [fmap option_fmap option_map] in H; [|done].
    destruct (final_check (closing s) current) as (b & Eb & Hb). rewrite Eb in H. cbn [mbind result_bind] in H.
    apply bind_ok in H as ([] & ->%require_ok & <-%ok_inj). exists spans, s. split_and!; try done. by apply Hb.
  - intros (spans & s & -> & Hn & Hsc & Hc & Hok & El & Eph & ->).
    assert (all_records spans ≠ []) as Hne by (intros E; pose proof (last_all spans) as H; rewrite E, El in H; done).
    assert (hex current 64 = true) as Hhex.
    { assert (lease_ok (closing s)) as [_ _ _ _ _ H]; [|by rewrite Eph in H].
      assert (Forall lease_ok (all_records spans)) as HF.
      { clear -Hc. remember None as po. clear Heqpo. induction Hc; by constructor. }
      rewrite Forall_forall in HF. apply HF. destruct spans as [|x spans _] using rev_ind; [done|]. rewrite last_snoc in El.
      injection El as ->. rewrite all_snoc. unfold span_records. set_solver. }
    rewrite bool_decide_eq_false_2, (proj2 (N.leb_le _ _) Hn), Hhex by (by intros E%fmap_nil_inv). cbn [negb andb require throw_if mbind result_bind].
    destruct (fold_result _ _ _) as [r|e].
    2:{ exfalso. apply (Hall (all_records spans) (spans, None)). split; [done|]. split; [done|]. split; [done|]. by apply run_spans. }
    destruct Hall as (ls & g' & (E & _ & Hc' & Hrun) & [Hp Ho Hf _ _ _]). apply (inj (fmap encode)) in E as <-.
    rewrite (runs_functional _ _ _ _ _ Hrun (run_spans spans Hok)) in Ho, Hf. cbn [fst snd fmap option_fmap option_map] in Ho, Hf.
    cbn [mbind result_bind]. rewrite Ho, Hp, Hf, latest_none, last_all, El. cbn [fmap option_fmap option_map].
    destruct (final_check (closing s) current) as (b & -> & Hb). rewrite (proj2 Hb Eph). done.
Qed.

(** ** A history with a repeated installation *)

Definition sample_install (attempt : string) : InstallLeaseRequest :=
  mk_request "install.1" "install_local" "op.1" attempt lease_sample_revision true (Sha256.sha256 "context").

Definition sample_span (po : option Lease) (attempt : string) : Span :=
  let o := acquired po (sample_install attempt) lease_sample_root lease_sample_holder in
  mk_span o [] (with_phase (completed lease_sample_revision) o).

Definition first_span : Span := sample_span None "attempt.1".
Definition second_span : Span := sample_span (Some (closing first_span)) "attempt.2".
Definition sample_spans : list Span := [first_span; second_span].

Lemma sample_install_ok attempt : attempt = "attempt.1" ∨ attempt = "attempt.2" →
  request_ok (sample_install attempt) lease_sample_root lease_sample_holder.
Proof. by intros [-> | ->]; vm_compute. Qed.

Lemma sample_finish_ok l : lease_ok l → lease_ok (with_phase (completed lease_sample_revision) l).
Proof. intros [H1 H2 H3 H4 H5 _]. by split; [..|apply hex_sha256]. Qed.

Lemma sample_span_ok po attempt : attempt = "attempt.1" ∨ attempt = "attempt.2" →
  (∀ p, po = Some p → lease_ok p ∧ generation p ≠ uint64_max) →
  lease_ok (opening (sample_span po attempt)) ∧ lease_ok (closing (sample_span po attempt)).
Proof.
  intros Ha Hp. assert (lease_ok (opening (sample_span po attempt))) as H by (apply acquired_ok; [by apply sample_install_ok|done]).
  split; [done|by apply sample_finish_ok].
Qed.

Lemma sample_leases_ok : Forall lease_ok (all_records sample_spans).
Proof.
  destruct (sample_span_ok None "attempt.1") as [H1 H2]; [by left|done|].
  destruct (sample_span_ok (Some (closing first_span)) "attempt.2") as [H3 H4]; [by right|intros p [= <-]; by split|].
  apply Forall_cons; split; [exact H1|]. apply Forall_cons; split; [exact H2|].
  apply Forall_cons; split; [exact H3|]. apply Forall_cons; split; [exact H4|constructor].
Qed.

Lemma sample_spans_chain : chain None (all_records sample_spans).
Proof.
  pose proof sample_leases_ok as H.
  change (all_records sample_spans) with [opening first_span; closing first_span; opening second_span; closing second_span] in H |- *.
  rewrite !Forall_cons in H. destruct H as (H1 & H2 & H3 & H4 & _).
  constructor; [exact H1|by constructor|]. constructor; [exact H2|by apply (step_finish _ false)|].
  constructor; [exact H3| |constructor; [exact H4|by apply (step_finish _ false)|constructor]].
  constructor; [done|]. intros p [= <-]. by split_and!.
Qed.

Lemma sample_spans_ok : spans_ok sample_spans.
Proof.
  apply (spans_snoc [first_span] second_span). split; [apply (spans_snoc [] first_span); split; [by intros k s E|]|].
  - split; [by split|]. by split.
  - split; [split; [done|done|constructor|]|].
    + intros k e E. injection E as _ <-. split; [done|]. split; [constructor|]. by exists first_span.
    + by split_and!.
Qed.

Lemma sample_records_wf : Forall wf (encode <$> all_records sample_spans).
Proof.
  assert (wf lease_sample_root) as Hr by (split; [by_sorted|done]).
  assert (wf lease_sample_holder) as Hh by (split; [by_sorted|done]).
  assert (∀ po attempt q, (match po with None => True | Some p => generation p = 1 end) →
    wf (encode (with_phase q (acquired po (sample_install attempt) lease_sample_root lease_sample_holder)))) as H.
  { intros po attempt q Hp. apply wf_encode; [exact Hr|exact Hh|]. destruct po as [p|]; cbn; [rewrite Hp|]; done. }
  change (all_records sample_spans) with [with_phase active (opening first_span); closing first_span;
    with_phase active (opening second_span); closing second_span].
  repeat (apply Forall_cons; split; [by apply H|]). constructor.
Qed.

Lemma retirement_history_exact_witness :
  decode_owned_retirement_lease_history (encode <$> all_records sample_spans) "install.1" lease_sample_root lease_sample_revision =
  Ok [mk_completion (encode (opening first_span)) (encode (closing first_span)) false;
      mk_completion (encode (opening second_span)) (encode (closing second_span)) true].
Proof.
  apply (retirement_history_exact (encode <$> all_records sample_spans) "install.1" lease_sample_root lease_sample_revision);
    [exact sample_records_wf|].
  exists sample_spans, second_span. split; [reflexivity|]. split; [rewrite length_fmap; discriminate|].
  split; [repeat (apply Forall_cons; split; [by repeat split; left|]); constructor|].
  split; [exact sample_spans_chain|]. split; [exact sample_spans_ok|]. split; [reflexivity|]. split; reflexivity.
Defined.
End RetirementFacts.
