(* ===== verification/Publisher.v ===== *)
(** The client of the publisher service: the decoding of a public recovery request
    ([runtime/command/usk_publisher_recovery_request_internal.cpp]), the correlation of a
    response with its request ([usk_publisher_response_internal.cpp]) and the context that
    submits a request and accounts for its outcome
    ([usk_publisher_client_context_internal.cpp]). *)

From Stdlib Require Import Ascii String NArith ZArith Lia.
From stdpp Require Import base list strings.
From S2P Require Import Prelude Utf8 Sha256 StdMap Json Path Effects World RecordIo.

Module Publisher.
Import Json Path.

(** ** [publisher_public_recovery_inspection] *)

Definition require (okay : bool) (reason : string) : result unit := throw_if (negb okay) reason.

Definition hex (text : string) (n : N) : bool :=
  (size text =? n) && forall_bytes (fun c => is_digit c || is_lower_hex_alpha c) text.

(** [fields] is a set literal: its elements are distinct. *)
Definition closed_request (v : value) (fields : list string) : result unit :=
  members ← as_object v;
  require (length members =? length fields)%nat "public recovery request is not closed";;
  fold_result (fun _ item =>
    require (StdMap.set_mem (fst item) fields) "public recovery request field is unknown") tt members.

Definition text (v : value) (field : string) (limit : N) : result string :=
  result ← at_string v field;
  require (negb (is_empty result) && (size result <=? limit) && negb (contains_nul result))
    "public recovery request string exceeds its bound";;
  Ok result.

Definition identifier (v : value) (field : string) : result unit :=
  t ← text v field 128;
  require (RecordIo.valid_identifier t) "public recovery request identifier is invalid".

Definition inspect_schema : string := "usk.recovery_inspect_request.v1".
Definition plan_schema : string := "usk.recovery_plan_request.v1".
Definition apply_schema : string := "usk.recovery_apply_request.v1".

(** The checks of an application of a plan, which give the plan. *)
Definition decode_apply (request : value) : result value :=
  closed_request request ["schema"; "plan_request"; "reviewed_plan_id"; "reviewed_plan_digest";
    "selected_action"; "applied_at"; "confirmation"];;
  identifier request "reviewed_plan_id";;
  digest ← text request "reviewed_plan_digest" 64;
  require (hex digest 64) "public recovery reviewed digest differs";;
  action ← text request "selected_action" 16;
  ok ← Ok (String.eqb action "finalize" || String.eqb action "rollback") &&&
    (c ← text request "confirmation" 5; Ok (String.eqb c "APPLY"));
  require ok "public recovery action or confirmation differs";;
  text request "applied_at" 64;;
  at_ request "plan_request".

(** The checks of a plan, which give the inspection. *)
Definition decode_plan (request plan : value) (schema : string) : result value :=
  closed_request plan ["schema"; "inspection"; "recovery_plan_id"; "created_at"];;
  nested ← at_string plan "schema";
  require (String.eqb nested plan_schema) "public recovery nested plan family differs";;
  identifier plan "recovery_plan_id";;
  text plan "created_at" 64;;
  (if String.eqb schema apply_schema then
     reviewed ← at_string request "reviewed_plan_id";
     planned ← at_string plan "recovery_plan_id";
     require (String.eqb reviewed planned)
       "public recovery reviewed plan ID differs from its complete plan request"
   else Ok tt);;
  at_ plan "inspection".

Definition inspection_fields : list string :=
  ["schema"; "request_id"; "install_id"; "transaction_id"; "plan_id"; "plan_digest"; "operation"; "target_root"].

Definition recovery_operations : list string := ["install_local"; "repair"; "move"; "uninstall"].

Definition decode_inspection (inspection : value) : result unit :=
  schema ← at_string inspection "schema";
  throw_if (negb (String.eqb schema inspect_schema)) "public recovery inspection family differs";;
  operation ← text inspection "operation" 16;
  require (StdMap.set_mem operation recovery_operations) "public recovery operation differs";;
  fields ← (if contains inspection "install_plan_request" then
      require (String.eqb operation "install_local") "public maintenance recovery supplied an install plan";;
      plan ← at_ inspection "install_plan_request";
      as_object plan;;
      Ok ("install_plan_request" :: inspection_fields)
    else Ok inspection_fields);
  closed_request inspection fields;;
  fold_result (fun _ field => identifier inspection field) tt ["request_id"; "install_id"; "transaction_id"; "plan_id"];;
  digest ← text inspection "plan_digest" 64;
  require (hex digest 64) "public recovery original plan digest differs";;
  target ← text inspection "target_root" 32767;
  require (is_absolute target && path_eqb (lexically_normal target) target)
    "public recovery target must be absolute and normalized".

(** The result points into the request. *)
Definition publisher_public_recovery_inspection (request : value) : result (option value) :=
  schema ← at_string request "schema";
  let nested plan := inspection ← decode_plan request plan schema; Ok (Some inspection) in
  found ← (if String.eqb schema inspect_schema then Ok (Some request)
    else if String.eqb schema plan_schema then nested request
    else if String.eqb schema apply_schema then plan ← decode_apply request; nested plan
    else Ok None);
  match found with
  | None => Ok None
  | Some inspection => decode_inspection inspection;; Ok (Some inspection)
  end.

(** ** [usk_publisher_response_internal.cpp]

    [std::invalid_argument] is the one [std::logic_error] that these functions throw. *)

Definition invalid_argument {A} (what : string) : result A := Throw (logic_error what).

Definition safe_id (v : string) : bool :=
  negb (is_empty v) && (size v <=? 128) &&
  forall_bytes (fun ch => in_range 65 90 ch || in_range 97 122 ch || in_range 48 57 ch ||
    (code ch =? 46) || (code ch =? 95) || (code ch =? 45)) v.

Definition lower_hex (v : string) (length : N) : bool :=
  (size v =? length) && forall_bytes (fun c => contains_byte c "0123456789abcdef") v.

(** Tests of members, in the order in which the sources evaluate them. *)
Definition member_is (v : value) (key expected : string) : result bool :=
  s ← at_string v key; Ok (String.eqb s expected).

Definition member_differs (left : value) (left_key : string) (right : value) (right_key : string) : result bool :=
  x ← at_string left left_key; y ← at_string right right_key; Ok (negb (String.eqb x y)).

Definition member_empty (v : value) (key : string) : result bool :=
  s ← at_string v key; Ok (is_empty s).

Definition flag (v : value) (key : string) : result bool := b ← at_ v key; as_boolean b.
Definition number_of (v : value) (key : string) : result N := n ← at_ v key; as_unsigned n.
Definition not_hex (v : value) (key : string) : result bool :=
  s ← at_string v key; Ok (negb (lower_hex s 64)).
Definition negation (b : result bool) : result bool := x ← b; Ok (negb x).
Definition refuse_if (b : result bool) (what : string) : result unit := x ← b; throw_if x what.

Definition operation_error_codes : list string :=
  ["operation_conflict"; "operation_cancelled"; "lease_stale"; "state_revision_stale"; "stale_plan"].

Definition publisher_operation_error_code (observed : value) : result (option string) :=
  if negb (contains observed "error_code") then Ok None
  else code ← at_string observed "error_code";
    Ok (if StdMap.set_mem code operation_error_codes then Some code else None).

Definition inspection_prefix : string := "usk.operation-inspection.v1:".

Definition publisher_operation_diagnostic (observed : value) (code : option string) : result value :=
  match code with
  | None => Ok null_value
  | Some code =>
    if negb (contains observed "operation_inspection_ref") then Ok null_value
    else
      reference ← at_string observed "operation_inspection_ref";
      let n := String.length inspection_prefix in
      throw_if (negb (String.eqb (str_take n reference) inspection_prefix) || negb (lower_hex (str_drop n reference) 64))
        "publisher operation inspection reference differs";;
      Ok (make_object [("schema", string_value "usk.publisher_operation_diagnostic.v1");
        ("error_code", string_value code); ("inspection_reference", string_value reference)])
  end.

(** The three predicates of a binding. *)
Definition binding_compatible (binding : value) : result bool :=
  pending ← at_string binding "pending_kind";
  if is_empty pending
  then negation (member_empty binding "next_kind") ||| flag binding "effects_complete"
  else member_is binding "reconciliation" "compatible_before_effect" |||
    member_is binding "reconciliation" "compatible_after_effect".

Definition published_repair (inspection binding : value) : result bool :=
  member_is inspection "operation" "repair" &&& negation (flag binding "commit_confirmed") &&&
  member_is binding "observed_state" "committing" &&& member_is binding "pending_kind" "publish_target" &&&
  member_is binding "next_kind" "publish_target" &&& member_is binding "reconciliation" "compatible_after_effect" &&&
  negation (flag binding "effects_complete") &&& negation (flag binding "sealed").

Definition finalizable (inspection binding : value) : result bool :=
  compatible ← binding_compatible binding;
  published ← published_repair inspection binding;
  Ok compatible &&& flag binding "commit_started" &&&
  (Ok published ||| (flag binding "commit_confirmed" &&&
     (member_is binding "observed_state" "committing" ||| member_is binding "observed_state" "committed" |||
      member_is binding "observed_state" "recovery_required"))).

Definition emplace_member (v : value) (key : string) (member : value) : result value :=
  members ← as_object v; Ok (object (fst (StdMap.emplace key member members))).

Definition public_native_recovery_document (inspection binding : value) (plan_request : option value) : result value :=
  final ← finalizable inspection binding;
  operation ← at_ inspection "operation";
  let actions := if final : bool then [string_value "finalize"] else [] in
  let effects := if final then [make_object [("kind", string_value "resume_original_maintenance");
    ("operation", operation)]] else [] in
  let planned := match plan_request with Some _ => true | None => false end in
  install ← at_ inspection "install_id";
  transaction ← at_ inspection "transaction_id";
  plan_id ← at_ inspection "plan_id";
  plan_digest ← at_ inspection "plan_digest";
  request_id ← at_ inspection "request_id";
  target ← at_ inspection "target_root";
  let result := make_object
    [("schema", string_value (if planned then "usk.recovery_plan.v2" else "usk.recovery_report.v2"));
     ("status", string_value (if planned then "planned" else "inspection_only"));
     ("operation", operation); ("install_id", install); ("transaction_id", transaction);
     ("original_plan_id", plan_id); ("original_plan_digest", plan_digest); ("inspection_request_id", request_id);
     ("target_root", target); ("native_binding", binding);
     ("available_actions", array actions); ("effects", array effects)] in
  match plan_request with
  | Some plan =>
    created ← at_ plan "created_at"; result ← emplace_member result "created_at" created;
    id ← at_ plan "recovery_plan_id"; result ← emplace_member result "plan_id" id;
    digest ← sha256_canonical result; emplace_member result "plan_digest" (string_value digest)
  | None =>
    recorded ← at_ binding "recorded_at"; result ← emplace_member result "recorded_at" recorded;
    id ← as_string request_id;
    result ← emplace_member result "report_id" (string_value ("recovery.inspect." +:+ id));
    digest ← sha256_canonical result; emplace_member result "report_digest" (string_value digest)
  end.

(** [fields] is a set literal: its elements are distinct. *)
Definition closed_response (v : value) (fields : list string) : result unit :=
  members ← as_object v;
  throw_if (negb (length members =? length fields)%nat) "native recovery response is not closed";;
  fold_result (fun _ item =>
    throw_if (negb (StdMap.set_mem (fst item) fields)) "native recovery response member is unknown") tt members.

Definition observation_schema : string := "usk.publisher_lab_service_observation.v1".
Definition command_schema : string := "usk.command_response.v1".
Definition admission_schema : string := "usk.publisher_registered_admission_observation.v1".

Definition observation_fields : list string :=
  ["schema"; "status"; "request_sha256"; "operation"; "install_id"; "transaction_id"; "service_name"; "service_sid";
   "process_id"; "recovery_response"; "operation_admission"; "registered_admission"].

Definition is_object (v : value) : bool := match v with object _ => true | _ => false end.

Definition require_endpoint (observed : value) : result unit :=
  process_id ← number_of observed "process_id";
  admission ← at_ observed "registered_admission";
  refuse_if (member_empty observed "service_name" ||| member_empty observed "service_sid" |||
      Ok (process_id =? 0) ||| Ok (0xffffffff <? process_id) |||
      differs admission "schema" admission_schema |||
      member_differs admission "service_name" observed "service_name" |||
      member_differs admission "service_sid" observed "service_sid" |||
      (n ← number_of admission "process_id"; Ok (negb (n =? process_id))) |||
      (o ← at_ observed "operation_admission"; Ok (negb (is_object o))))
    "native recovery endpoint identity is incomplete".

Definition document_fields : list string :=
  ["schema"; "status"; "operation"; "install_id"; "transaction_id"; "original_plan_id"; "original_plan_digest";
   "inspection_request_id"; "target_root"; "native_binding"; "available_actions"; "effects"].

Definition plan_fields : list string := ["created_at"; "plan_id"; "plan_digest"].
Definition report_fields : list string := ["recorded_at"; "report_id"; "report_digest"].
Definition completion_fields : list string :=
  ["reviewed_plan_id"; "reviewed_plan_digest"; "selected_action"; "completed_journal_snapshot_sha256";
   "completed_effect_history_sha256"].

Definition payload_fields (plan apply : bool) : list string :=
  document_fields ++ (if plan then plan_fields else report_fields) ++ (if apply then completion_fields else []).

Definition require_framing (submitted observed response payload : value) (plan apply : bool) : result unit :=
  refuse_if (differs observed "schema" observation_schema ||| differs observed "status" "pass" |||
      (d ← sha256_canonical submitted; differs observed "request_sha256" d) |||
      differs response "schema" command_schema ||| differs response "status" "ok" |||
      differs payload "schema" (if plan then "usk.recovery_plan.v2" else "usk.recovery_report.v2") |||
      differs payload "status" (if apply then "completed" else if plan then "planned" else "inspection_only"))
    "native recovery response framing differs".

Definition require_operation (inspection observed payload : value) : result unit :=
  fold_result (fun _ field =>
    refuse_if (member_differs observed field inspection field ||| member_differs payload field inspection field)
      "native recovery response operation differs") tt ["operation"; "install_id"; "transaction_id"];;
  refuse_if (member_differs payload "original_plan_id" inspection "plan_id" |||
      member_differs payload "original_plan_digest" inspection "plan_digest" |||
      member_differs payload "inspection_request_id" inspection "request_id" |||
      member_differs payload "target_root" inspection "target_root")
    "native recovery original request binding differs".

Definition binding_fields : list string :=
  ["schema"; "original_intent_sha256"; "original_custody_sha256"; "original_plan_digest"; "current_installed_revision";
   "lease_committed_records_sha256"; "lease_committed_record_count"; "lease_pending_names_sha256"; "namespace_sha256";
   "object_count"; "absent_original_files_sha256"; "absent_original_directories_sha256"; "journal_snapshot_sha256";
   "effect_history_sha256"; "journal_digest"; "recorded_at"; "source_digest"; "commit_started"; "commit_confirmed";
   "observed_state"; "pending_kind"; "reconciliation"; "next_kind"; "effects_complete"; "sealed"].

Definition binding_schema : string := "usk.native_maintenance_inspection_binding.v1".

Definition binding_digests : list string :=
  ["original_intent_sha256"; "original_custody_sha256"; "original_plan_digest"; "current_installed_revision";
   "lease_committed_records_sha256"; "lease_pending_names_sha256"; "namespace_sha256"; "absent_original_files_sha256";
   "absent_original_directories_sha256"; "journal_snapshot_sha256"; "effect_history_sha256"; "journal_digest"; "source_digest"].

Definition require_binding (inspection binding : value) : result unit :=
  closed_response binding binding_fields;;
  refuse_if (differs binding "schema" binding_schema |||
      member_differs binding "original_plan_digest" inspection "plan_digest" |||
      (n ← number_of binding "lease_committed_record_count"; Ok (n =? 0)) |||
      (n ← number_of binding "lease_committed_record_count"; Ok (4096 <? n)) |||
      (n ← number_of binding "object_count"; Ok (n =? 0)))
    "native recovery observation binding differs";;
  fold_result (fun _ field => refuse_if (not_hex binding field) "native recovery digest is absent") tt binding_digests;;
  fold_result (fun _ field => flag binding field;; Ok tt) tt ["commit_started"; "commit_confirmed"; "effects_complete"; "sealed"];;
  fold_result (fun _ field => at_string binding field;; Ok tt) tt
    ["recorded_at"; "observed_state"; "pending_kind"; "reconciliation"; "next_kind"].

Definition require_actions (inspection payload : value) : result unit :=
  actions ← (a ← at_ payload "available_actions"; as_array a);
  effects ← (e ← at_ payload "effects"; as_array e);
  refuse_if (Ok (1 <? length actions)%nat ||| Ok (negb (length effects =? length actions)%nat) |||
      match actions with [] => Ok false | action :: _ => a ← as_string action; Ok (negb (String.eqb a "finalize")) end)
    "native recovery advertised an unsupported action";;
  match effects with
  | [] => Ok tt
  | effect :: _ =>
    closed_response effect ["kind"; "operation"];;
    refuse_if (differs effect "kind" "resume_original_maintenance" ||| member_differs effect "operation" inspection "operation")
      "native recovery effect projection differs"
  end.

Definition values_differ (left right : value) (key : string) : result bool :=
  x ← at_ left key; y ← at_ right key; Ok (negb (equal_values x y)).

(** The comparison with the document that an honest service derives. *)
Definition require_projection (payload expected : value) (apply : bool) : result unit :=
  refuse_if (values_differ payload expected "available_actions" ||| values_differ payload expected "effects")
    "native recovery action does not follow its observed predicates";;
  if apply then
    refuse_if (member_differs payload "reviewed_plan_id" expected "plan_id" |||
        member_differs payload "reviewed_plan_digest" expected "plan_digest")
      "native recovery completion changed its reviewed pre-effect plan"
  else throw_if (negb (equal_values payload expected)) "native recovery document differs from its exact observed projection".

Definition require_seal (payload : value) (digest_field : string) : result unit :=
  members ← as_object payload;
  refuse_if (x ← at_string payload digest_field;
      digest ← sha256_canonical (object (StdMap.erase digest_field members)); Ok (negb (String.eqb x digest)))
    "native recovery document seal differs".

Definition require_identity (submitted inspection payload binding : value) (plan apply : bool) : result unit :=
  (if plan then
     refuse_if (member_differs payload "plan_id" submitted "recovery_plan_id" |||
         member_differs payload "created_at" submitted "created_at") "native recovery plan identity differs"
   else
     refuse_if ((r ← at_string inspection "request_id"; differs payload "report_id" ("recovery.inspect." +:+ r)) |||
         (if apply then member_differs payload "recorded_at" submitted "applied_at"
          else member_differs payload "recorded_at" binding "recorded_at"))
       "native recovery report identity differs");;
  refuse_if (Ok apply &&& (member_differs payload "reviewed_plan_id" submitted "reviewed_plan_id" |||
      member_differs payload "reviewed_plan_digest" submitted "reviewed_plan_digest" |||
      member_differs payload "selected_action" submitted "selected_action" |||
      differs payload "selected_action" "finalize" |||
      not_hex payload "completed_journal_snapshot_sha256" |||
      not_hex payload "completed_effect_history_sha256"))
    "native recovery completion differs from reviewed invocation".

Definition require_public_native_recovery_response (submitted observed : value) : result unit :=
  found ← publisher_public_recovery_inspection submitted;
  inspection ← match found with
    | None => throw "native public maintenance recovery family differs"
    | Some inspection =>
      refuse_if (member_is inspection "operation" "install_local") "native public maintenance recovery family differs";;
      Ok inspection
    end;
  closed_response observed observation_fields;;
  require_endpoint observed;;
  schema ← at_string submitted "schema";
  let plan := String.eqb schema plan_schema in
  let apply := String.eqb schema apply_schema in
  response ← at_ observed "recovery_response";
  closed_response response ["schema"; "status"; "payload"];;
  payload ← at_ response "payload";
  closed_response payload (payload_fields plan apply);;
  require_framing submitted observed response payload plan apply;;
  require_operation inspection observed payload;;
  binding ← at_ payload "native_binding";
  require_binding inspection binding;;
  require_actions inspection payload;;
  plan_request ← (if plan then Ok (Some submitted)
    else if apply then p ← at_ submitted "plan_request"; Ok (Some p) else Ok None);
  expected ← public_native_recovery_document inspection binding plan_request;
  require_projection payload expected apply;;
  require_seal payload (if plan then "plan_digest" else "report_digest");;
  require_identity submitted inspection payload binding plan apply.

(** *** Requests and responses of a plan of an installation *)

Definition contains_all (v : value) (fields : list string) : bool := forallb (contains v) fields.

Definition closed_plan_request (v : value) (fields : list string) : result unit :=
  match v with
  | object members =>
    if negb (length members =? length fields)%nat then invalid_argument "registered plan request field count differs"
    else if negb (contains_all v fields) then invalid_argument "registered plan request field is absent"
    else Ok tt
  | _ => invalid_argument "registered plan request field count differs"
  end.

Definition plan_string (v : value) (empty : bool) : result string :=
  match v with
  | string_value s =>
    if negb empty && is_empty s then invalid_argument "registered plan request string differs" else Ok s
  | _ => invalid_argument "registered plan request string differs"
  end.

Definition string_at (v : value) (field : string) : result string := x ← at_ v field; plan_string x false.
Definition strings_at (v : value) (fields : list string) : result unit :=
  fold_result (fun _ field => string_at v field;; Ok tt) tt fields.

Definition plan_archive (archive : value) : result unit :=
  closed_plan_request archive ["path"; "format"; "expected_sha256"; "strip_prefix"; "budgets"];;
  string_at archive "path";;
  string_at archive "expected_sha256";;
  (x ← at_ archive "strip_prefix"; plan_string x true);;
  format ← string_at archive "format";
  (if negb (String.eqb format "zip") then invalid_argument "registered plan archive format differs" else Ok tt);;
  budgets ← at_ archive "budgets";
  closed_plan_request budgets
    ["max_entries"; "max_uncompressed_bytes"; "max_entry_bytes"; "max_depth"; "max_ratio"; "max_elapsed_ms"];;
  items ← as_object budgets;
  fold_result (fun _ item =>
    match snd item with
    | unsigned_integer _ => Ok tt
    | _ => invalid_argument "registered plan archive budget is not an unsigned integer"
    end) tt items.

Definition plan_recipe (recipe : value) : result unit :=
  closed_plan_request recipe
    ["product_id"; "product_version"; "recipe_digest"; "provider_revision"; "components"; "entrypoints"];;
  strings_at recipe ["product_id"; "product_version"; "recipe_digest"; "provider_revision"];;
  components ← at_ recipe "components";
  entrypoints ← at_ recipe "entrypoints";
  match components, entrypoints with
  | array components, array entrypoints =>
    fold_result (fun _ component => plan_string component true;; Ok tt) tt components;;
    fold_result (fun _ entry =>
      closed_plan_request entry ["entrypoint_id"; "relative_path"; "kind"];;
      strings_at entry ["entrypoint_id"; "relative_path"; "kind"]) tt entrypoints
  | _, _ => invalid_argument "registered plan recipe collection is not an array"
  end.

Definition install_plan_schema : string := "usk.install_local_plan_request.v1".
Definition bound_authority : string := "staged_child_bound_v1".

Definition require_public_install_plan_request (submitted : value) : result unit :=
  closed_plan_request submitted
    ["schema"; "request_id"; "created_at"; "install_id"; "archive"; "target"; "recipe"; "required_commit_authority"];;
  family ← (s ← string_at submitted "schema"; Ok (negb (String.eqb s install_plan_schema))) |||
    (s ← string_at submitted "required_commit_authority"; Ok (negb (String.eqb s bound_authority)));
  (if family : bool then invalid_argument "registered plan request family differs" else Ok tt);;
  strings_at submitted ["request_id"; "created_at"; "install_id"];;
  archive ← at_ submitted "archive"; plan_archive archive;;
  target ← at_ submitted "target";
  closed_plan_request target ["root"; "class"];;
  strings_at target ["root"; "class"];;
  recipe ← at_ submitted "recipe"; plan_recipe recipe.

Definition closed_plan (v : value) (fields : list string) : result unit :=
  members ← as_object v;
  throw_if (negb (length members =? length fields)%nat) "registered plan field count differs";;
  throw_if (negb (contains_all v fields)) "registered plan field is absent".

Definition paths_differ (left : value) (left_key : string) (right : value) (right_key : string) : result bool :=
  x ← at_string left left_key; y ← at_string right right_key;
  Ok (negb (path_eqb (lexically_normal x) (lexically_normal y))).

Definition require_plan_endpoint (submitted observed : value) : result unit :=
  endpoint ← at_ observed "registered_admission";
  pid ← number_of observed "process_id";
  refuse_if (differs observed "schema" observation_schema ||| differs observed "status" "pass" |||
      Ok (pid =? 0) ||| Ok (0xffffffff <? pid) |||
      (d ← sha256_canonical submitted; differs observed "request_sha256" d) |||
      differs endpoint "schema" admission_schema |||
      (n ← number_of endpoint "process_id"; Ok (negb (n =? pid))) |||
      member_differs endpoint "service_name" observed "service_name" |||
      member_differs endpoint "service_sid" observed "service_sid" |||
      member_empty observed "service_name" ||| member_empty observed "service_sid")
    "registered plan response request or endpoint differs".

Definition nested_differs (left : value) (left_outer left_key : string) (right : value) (right_outer right_key : string)
    : result bool :=
  x ← at_ left left_outer; y ← at_ right right_outer; member_differs x left_key y right_key.

Definition require_public_install_plan_response (submitted observed : value) : result unit :=
  closed_plan observed ["schema"; "status"; "service_name"; "service_sid"; "process_id"; "registered_admission";
    "request_sha256"; "plan_response"];;
  require_plan_endpoint submitted observed;;
  response ← at_ observed "plan_response";
  closed_plan response ["schema"; "status"; "payload"; "error"];;
  plan ← at_ response "payload";
  identity ← at_ plan "input_identity";
  refuse_if (differs response "schema" command_schema ||| differs response "status" "ok" |||
      (e ← at_ response "error"; Ok (negb (is_null e))) |||
      differs submitted "schema" install_plan_schema ||| differs plan "schema" "usk.install_plan.v1" |||
      differs plan "operation" "install_local" ||| differs plan "status" "planned" |||
      member_differs plan "plan_id" submitted "request_id" |||
      member_differs plan "created_at" submitted "created_at" ||| not_hex plan "plan_digest" |||
      differs plan "required_commit_authority" bound_authority ||| flag plan "commit_authority_available" |||
      nested_differs plan "source" "sha256" submitted "archive" "expected_sha256" |||
      (x ← at_ plan "source"; y ← at_ submitted "archive"; paths_differ x "path" y "path") |||
      (x ← at_ plan "target"; y ← at_ submitted "target"; paths_differ x "root" y "root") |||
      (y ← at_ submitted "recipe"; member_differs identity "recipe_digest" y "recipe_digest") |||
      (y ← at_ submitted "recipe"; member_differs identity "provider_revision" y "provider_revision") |||
      (y ← at_ submitted "archive"; member_differs identity "source_digest" y "expected_sha256") |||
      (x ← at_ plan "component_selection"; y ← at_ submitted "recipe"; z ← at_ y "components"; Ok (negb (equal_values x z))))
    "registered plan response differs from the native request".

(** *** [validate_publisher_response] *)

Inductive PublisherResponseDisposition := completed | refused | recovery_required.

Record ValidatedPublisherResponse := mk_validated {
  disposition : PublisherResponseDisposition;
  result_value : value;
  error_code : option string }.

Definition publisher_response_max_bytes : N := 16 * 1024 * 1024.

Definition response_limits : ParseLimits :=
  mk_limits publisher_response_max_bytes (max_depth default_limits) (max_values default_limits) (publisher_response_max_bytes / 2).

Definition public_recovery (command : string) : bool :=
  StdMap.set_mem command ["recovery.inspect"; "recovery.plan"; "recovery.apply"].

Definition maintenance_apply (command : string) : bool :=
  StdMap.set_mem command ["repair.apply"; "move.apply"; "uninstall.apply"].

Definition maintenance_recover (command : string) : bool :=
  StdMap.set_mem command ["repair.recover"; "move.recover"; "uninstall.recover"].

Definition response_field (command : string) : result string :=
  if public_recovery command then Ok "recovery_response"
  else if String.eqb command "install_local.plan" then Ok "plan_response"
  else if String.eqb command "install_local.apply" then Ok "apply_response"
  else if String.eqb command "installed.verify" then Ok "verify_response"
  else if String.eqb command "install_local.recover" then Ok "recovery_installed_response"
  else if maintenance_apply command then Ok "apply_response"
  else if maintenance_recover command then Ok "recovery_response"
  else invalid_argument "publisher response command is unavailable".

(** [command.substr(0, command.find('.'))]. *)
Fixpoint before_dot (s : string) : string :=
  match s with
  | EmptyString => EmptyString
  | String c s => if code c =? 46 then EmptyString else String c (before_dot s)
  end.

Definition verification_schema : string := "usk.verification_report.v1".

Definition report_binding_differs (report submitted : value) : result bool :=
  member_differs report "install_id" submitted "install_id" ||| member_differs report "report_id" submitted "report_id" |||
  member_differs report "verified_at" submitted "verified_at".

Definition require_verification (submitted observed payload : value) : result unit :=
  refuse_if (differs payload "schema" verification_schema ||| differs payload "status" "pass" |||
      report_binding_differs payload submitted ||| member_differs payload "report_digest" observed "bound_report_digest")
    "publisher verification binding differs".

Definition maintenance_completed (recovery : bool) (operation status : string) : bool :=
  if recovery then String.eqb status "completed"
  else if String.eqb operation "move" then String.eqb status "new_committed_old_retained"
  else String.eqb status "completed" || (String.eqb operation "uninstall" && String.eqb status "retained_foreign_content").

Definition require_maintenance (submitted observed payload : value) (operation : string) (recovery : bool) : result unit :=
  install_id ← (if recovery then at_string submitted "install_id"
    else p ← at_ submitted "plan_request"; at_string p "install_id");
  body ← as_object payload;
  let digest_body := object (StdMap.erase "report_digest" body) in
  status ← at_string payload "status";
  refuse_if ((m ← as_object observed; Ok (negb (length m =? 12)%nat)) |||
      Ok (negb (maintenance_completed recovery operation status)) |||
      (d ← sha256_canonical submitted; differs observed "request_sha256" d) |||
      differs observed "operation" operation ||| differs observed "install_id" install_id |||
      member_differs observed "transaction_id" submitted "transaction_id" |||
      differs payload "schema" (if recovery then "usk.maintenance_recovery_report.v1" else "usk." +:+ operation +:+ "_report.v1") |||
      differs payload "install_id" install_id |||
      member_differs payload "transaction_id" submitted "transaction_id" |||
      (Ok (negb recovery) &&& (p ← at_ submitted "plan_request"; member_differs payload "plan_id" p "plan_id")) |||
      (t ← at_string submitted "transaction_id";
       differs payload "report_id" ((if recovery then "recovery." else "") +:+ operation +:+ "." +:+ t)) |||
      (d ← sha256_canonical digest_body; differs payload "report_digest" d) |||
      (Ok (negb recovery) &&& member_differs payload "completed_at" submitted "applied_at"))
    "publisher maintenance binding differs";;
  refuse_if (Ok recovery &&& (Ok (negb (length body =? 13)%nat) ||| differs payload "operation" operation |||
      (s ← at_string payload "plan_id"; Ok (negb (safe_id s))) ||| member_empty payload "recorded_at" |||
      not_hex payload "plan_digest" ||| not_hex payload "transaction_snapshot_sha256" |||
      not_hex payload "effect_history_sha256" ||| not_hex payload "source_digest"))
    "publisher maintenance recovery original result differs".

Definition require_installation (command : string) (submitted payload : value) : result unit :=
  let applied := String.eqb command "install_local.apply" in
  install_id ← (if applied then p ← at_ submitted "plan_request"; at_string p "install_id" else at_string submitted "install_id");
  refuse_if (differs payload "schema" "usk.installed_state.v1" ||| differs payload "lifecycle_status" "installed" |||
      differs payload "install_id" install_id ||| member_differs payload "transaction_id" submitted "transaction_id" |||
      (Ok applied &&& member_differs payload "created_at" submitted "applied_at"))
    "publisher installation binding differs".

(** The response of an application is the direct one or that of a replay. *)
Definition select_response (command : string) (observed public_response : value) : result value :=
  if String.eqb command "install_local.apply" then
    replay ← at_ observed "recovery_installed_response";
    let direct_present := negb (is_null public_response) in
    let replay_present := negb (is_null replay) in
    throw_if (Bool.eqb direct_present replay_present) "candidate apply completion is ambiguous";;
    Ok (if replay_present then replay else public_response)
  else Ok public_response.

Definition require_binding_of (command field : string) (submitted observed payload : value) : result unit :=
  if String.eqb command "installed.verify" then require_verification submitted observed payload
  else if maintenance_apply command || String.eqb field "recovery_response"
  then require_maintenance submitted observed payload (before_dot command) (String.eqb field "recovery_response")
  else require_installation command submitted payload.

Definition validate_pass (command field : string) (submitted observed : value) (retain : bool) : result ValidatedPublisherResponse :=
  let finish response := mk_validated completed (if retain then observed else response) None in
  if String.eqb command "install_local.plan" then
    require_public_install_plan_response submitted observed;;
    (if retain then Ok (finish null_value) else x ← at_ observed "plan_response"; Ok (finish x))
  else if public_recovery command then
    require_public_native_recovery_response submitted observed;;
    (if retain then Ok (finish null_value) else x ← at_ observed "recovery_response"; Ok (finish x))
  else
    direct ← at_ observed field;
    public_response ← select_response command observed direct;
    refuse_if (differs public_response "schema" command_schema ||| differs public_response "status" "ok")
      "candidate public response differs";;
    (if retain then Ok tt
     else payload ← at_ public_response "payload"; require_binding_of command field submitted observed payload);;
    Ok (finish public_response).

(** A verification that failed is a completed diagnosis. *)
Definition validate_drift (submitted observed : value) (retain : bool) : result ValidatedPublisherResponse :=
  public_response ← at_ observed "verify_response";
  refuse_if (differs public_response "schema" command_schema ||| differs public_response "status" "ok" |||
      (p ← at_ public_response "payload"; differs p "schema" verification_schema))
    "candidate verification response differs";;
  payload ← at_ public_response "payload";
  status ← at_string payload "status";
  refuse_if (Ok (negb (StdMap.set_mem status ["fail"; "warn"; "unknown"])) |||
      member_differs payload "report_digest" observed "bound_report_digest")
    "candidate verification report differs";;
  (if retain then Ok tt
   else refuse_if (report_binding_differs payload submitted) "publisher drift report binding differs");;
  Ok (mk_validated completed (if retain then observed else public_response) None).

Definition validate_refusal (d : PublisherResponseDisposition) (default : string) (observed : value) (retain : bool)
    : result ValidatedPublisherResponse :=
  code ← publisher_operation_error_code observed;
  diagnostic ← publisher_operation_diagnostic observed code;
  Ok (mk_validated d (if retain then observed else diagnostic) (Some (match code with Some c => c | None => default end))).

Definition validate_publisher_response (candidate_command : string) (submitted : value) (response : string)
    (retain_observation : bool) : result ValidatedPublisherResponse :=
  field ← response_field candidate_command;
  observed ← parse response response_limits;
  refuse_if (differs observed "schema" observation_schema) "candidate response schema differs";;
  status ← at_string observed "status";
  if String.eqb status "pass" then validate_pass candidate_command field submitted observed retain_observation
  else if String.eqb status "failed" && String.eqb candidate_command "installed.verify" && contains observed "verify_response"
  then validate_drift submitted observed retain_observation
  else if String.eqb status "failed" then validate_refusal refused "publisher_failed" observed retain_observation
  else if String.eqb status "recovery_required" then validate_refusal recovery_required "recovery_required" observed retain_observation
  else throw "publisher response status differs".

(** ** [PublisherClientContext]

    [EffectRequestNotDispatched] and the other exceptions that the handlers of [execute]
    tell apart.  [unfinished] is no exception: a callback that never returns. *)

Inductive Reason := admission_refused | operation_conflict | operation_cancelled.

Inductive thrown :=
| bad_alloc
| EffectRequestNotDispatched (reason : Reason) (inspection_reference : string)
| argument_error (what : string)
| another_error (what : string)
| unfinished.

Inductive attempt (A : Type) := Done (a : A) | Raise (e : thrown).
Arguments Done {A} _.
Arguments Raise {A} _.

(** A statement of the model as one of [execute]. *)
Definition raised {A} (r : result A) : attempt A :=
  match r with
  | Ok a => Done a
  | Throw (runtime_error what) => Raise (another_error what)
  | Throw (logic_error what) => Raise (argument_error what)
  | Throw _ => Raise unfinished
  end.

Definition request_limit : N := 1024 * 1024.

Definition request_limits : ParseLimits :=
  mk_limits request_limit (max_depth default_limits) (max_values default_limits) (request_limit / 2).

Definition preparation_failed : string := lit
  "{'schema':'usk.command_response.v1','status':'error','payload':null,'error':{'code':'publisher_request_not_dispatched','message':'Publisher request preparation failed before dispatch'}}".

Definition invalid_request : string := lit
  "{'schema':'usk.command_response.v1','status':'invalid_argument','payload':null,'error':{'code':'invalid_argument','message':'Public publisher request is invalid'}}".

Definition recovery_command (command : string) : bool := public_recovery command.

Definition shape_fields (verify : bool) : list string :=
  if verify then ["schema"; "request_id"; "install_id"; "report_id"; "verified_at"]
  else ["schema"; "plan_request"; "reviewed_plan_id"; "reviewed_plan_digest"; "transaction_id"; "applied_at"; "confirmation"].

Definition require_field (members : list (string * value)) (field : string) : result unit :=
  match StdMap.find field members with
  | None => invalid_argument "publisher input lacks a required member"
  | Some found =>
    if String.eqb field "plan_request" then
      if negb (is_object found) then invalid_argument "publisher plan request is not an object" else Ok tt
    else match found with
         | string_value s =>
           if is_empty s then invalid_argument "publisher member is not a nonempty string" else Ok tt
         | _ => invalid_argument "publisher member is not a nonempty string"
         end
  end.

Definition require_shape (command : string) (submitted : value) : result unit :=
  match submitted with
  | object members =>
    if String.eqb command "install_local.plan" then require_public_install_plan_request submitted
    else if recovery_command command then
      match StdMap.find "schema" members with
      | Some (string_value _) => Ok tt
      | _ => invalid_argument "public recovery schema is absent or not a string"
      end
    else
      let verify := String.eqb command "installed.verify" in
      let fields := shape_fields verify in
      fold_result (fun _ field => require_field members field) tt fields;;
      fold_result (fun _ item =>
        if existsb (String.eqb (fst item)) fields then Ok tt
        else if negb (String.eqb command "install_local.apply") || negb (String.eqb (fst item) "restart_from")
        then invalid_argument "publisher input contains an extra member" else Ok tt) tt members;;
      if verify then Ok tt
      else confirmation ← at_string submitted "confirmation";
        if negb (String.eqb confirmation "APPLY")
        then invalid_argument "publisher effect requires explicit confirmation" else Ok tt
  | _ => invalid_argument "publisher input must be an object"
  end.

Definition identity_field (source : value) (result : value) (field : string) : Prelude.result value :=
  v ← at_string source field;
  (if is_empty v || (1024 <? size v) then invalid_argument "publisher identity exceeds its bound" else Ok tt);;
  emplace_member result field (string_value v).

Definition identity_fields (source : value) (fields : list string) (result : value) : Prelude.result value :=
  fold_result (identity_field source) result fields.

Definition recovery_identity (command : string) (submitted result : value) : Prelude.result value :=
  inspection ← (if String.eqb command "recovery.inspect" then Ok submitted
    else if String.eqb command "recovery.plan" then at_ submitted "inspection"
    else p ← at_ submitted "plan_request"; at_ p "inspection");
  result ← identity_fields inspection
    ["request_id"; "install_id"; "transaction_id"; "operation"; "plan_id"; "plan_digest"] result;
  result ← (if String.eqb command "recovery.plan" then identity_field submitted result "recovery_plan_id" else Ok result);
  if String.eqb command "recovery.apply"
  then identity_fields submitted ["reviewed_plan_id"; "reviewed_plan_digest"; "selected_action"] result else Ok result.

Definition outcome_schema : string := "usk.publisher_client_outcome.v1".

Definition invocation_identity (command : string) (submitted : value) : Prelude.result value :=
  digest ← sha256_canonical submitted;
  let result := make_object [("schema", string_value outcome_schema); ("command", string_value command);
    ("request_sha256", string_value digest)] in
  if String.eqb command "install_local.plan" then identity_fields submitted ["request_id"; "install_id"] result
  else if String.eqb command "installed.verify" then identity_fields submitted ["request_id"; "install_id"; "report_id"] result
  else if recovery_command command then recovery_identity command submitted result
  else
    result ← identity_fields submitted ["reviewed_plan_id"; "reviewed_plan_digest"; "transaction_id"] result;
    plan ← at_ submitted "plan_request";
    identity_fields plan ["request_id"; "install_id"] result.

Definition publisher_client_invocation_identity (command : string) (submitted : value) : Prelude.result value :=
  invocation_identity command submitted.

Definition outcome (status code : string) (invocation : value) : value :=
  make_object [("schema", string_value command_schema); ("status", string_value status); ("payload", invocation);
    ("error", make_object [("code", string_value code)])].

Definition request_schema (command : string) : Prelude.result string :=
  if String.eqb command "install_local.plan" then Ok install_plan_schema
  else if String.eqb command "install_local.apply" then Ok "usk.install_local_apply_request.v1"
  else if String.eqb command "installed.verify" then Ok "usk.installed_verify_request.v1"
  else if String.eqb command "repair.apply" then Ok "usk.repair_apply_request.v1"
  else if String.eqb command "move.apply" then Ok "usk.move_apply_request.v1"
  else if String.eqb command "uninstall.apply" then Ok "usk.uninstall_apply_request.v1"
  else if String.eqb command "recovery.inspect" then Ok inspect_schema
  else if String.eqb command "recovery.plan" then Ok plan_schema
  else if String.eqb command "recovery.apply" then Ok apply_schema
  else invalid_argument "registered public command is unavailable".

Record PublisherClientContext := mk_context { endpoint : string; output : string; unknown : string }.

Definition construct (endpoint : string) : Prelude.result PublisherClientContext :=
  if negb (size endpoint =? 40) || negb (String.eqb (str_take 8 endpoint) "USK_PUB_") ||
     negb (forall_bytes (fun c => contains_byte c "0123456789abcdef") (str_drop 8 endpoint))
  then invalid_argument "publisher endpoint identity differs"
  else Ok (mk_context endpoint EmptyString EmptyString).

Definition clear (c : PublisherClientContext) : PublisherClientContext := mk_context (endpoint c) EmptyString EmptyString.

Inductive status_code := USK_STATUS_OK | USK_STATUS_ERROR | USK_STATUS_INVALID_ARGUMENT.

(** The text of a result is a buffer of the context or a constant. *)
Inductive answer_text := of_output | of_unknown | constant (text : string).

Record PublisherClientResult := mk_client_result { status : status_code; json : answer_text }.

Definition text_of (c : PublisherClientContext) (r : PublisherClientResult) : string :=
  match json r with of_output => output c | of_unknown => unknown c | constant t => t end.

Abbreviation transport_type := (string → attempt string).
Abbreviation prepare_type := (string → value → attempt value).

(** *** [execute]

    The variables of the function, with the bytes that the transport has been given.  A
    computation keeps the variables it has reached when it throws. *)
Record Execution := mk_execution {
  context : PublisherClientContext;
  possible_dispatch : bool;
  invocation : value;
  sent : list string }.

Definition step (A : Type) : Type := Execution → attempt A * Execution.

#[global] Instance step_bind : MBind step := fun A B f m x =>
  match m x with
  | (Done a, x) => f a x
  | (Raise e, x) => (Raise e, x)
  end.

Definition done {A} (a : A) : step A := fun x => (Done a, x).
Definition attempted {A} (r : attempt A) : step A := fun x => (r, x).
Definition stop_if (c : bool) (e : thrown) : step unit := attempted (if c then Raise e else Done tt).

Definition set_invocation (v : value) : step unit := fun x => (Done tt, mk_execution (context x) (possible_dispatch x) v (sent x)).
Definition set_unknown (s : string) : step unit := fun x =>
  (Done tt, mk_execution (mk_context (endpoint (context x)) (output (context x)) s) (possible_dispatch x) (invocation x) (sent x)).
Definition set_output (s : string) : step unit := fun x =>
  (Done tt, mk_execution (mk_context (endpoint (context x)) s (unknown (context x))) (possible_dispatch x) (invocation x) (sent x)).
Definition set_possible_dispatch (b : bool) : step unit := fun x =>
  (Done tt, mk_execution (context x) b (invocation x) (sent x)).
Definition send (transport : transport_type) (bytes : string) : step string := fun x =>
  (transport bytes, mk_execution (context x) (possible_dispatch x) (invocation x) (sent x ++ [bytes])).

(** The statements of [execute] itself that allocate memory; a callback throws on its own.
    [exhausted] says which of them fail. *)
Inductive statement :=
| copies_command | parses_request | checks_shape | checks_recovery | makes_identity | makes_fallback
| makes_wire | validates_response | writes_result | adds_diagnostic | writes_refusal.

Section Execute.
Context (exhausted : statement → bool).

(** One statement: it may fail to allocate, and otherwise has the given result. *)
Definition allocating {A} (s : statement) (r : attempt A) : step A :=
  if exhausted s then attempted (Raise bad_alloc) else attempted r.

(** The inner handler of a recovery request: [std::runtime_error] only. *)
Definition malformed (r : attempt (option value)) : attempt unit :=
  match r with
  | Done (Some _) => Done tt
  | Done None => Raise (argument_error "registered recovery family differs")
  | Raise (another_error _) => Raise (argument_error "registered recovery request is malformed")
  | Raise e => Raise e
  end.

Definition read_request (command_name request : option string) : step (string * value) :=
  match command_name, request with
  | Some command, Some request =>
    stop_if (is_empty request || (request_limit <? size request)) (argument_error "bounded registered request is required") ≫= fun _ =>
    allocating copies_command (Done command) ≫= fun command =>
    attempted (raised (request_schema command)) ≫= fun expected_schema =>
    allocating parses_request (raised (parse request request_limits)) ≫= fun submitted =>
    allocating checks_shape (raised (require_shape command submitted)) ≫= fun _ =>
    attempted (raised (differs submitted "schema" expected_schema)) ≫= fun differs =>
    stop_if differs (argument_error "registered command schema differs") ≫= fun _ =>
    (if recovery_command command
     then allocating checks_recovery (malformed (raised (publisher_public_recovery_inspection submitted))) else done tt) ≫= fun _ =>
    done (command, submitted)
  | _, _ => attempted (Raise (argument_error "bounded registered request is required"))
  end.

(** The answer of an uncertain outcome is owned before anything is sent. *)
Definition bind_invocation (command : string) (submitted : value) : step unit :=
  allocating makes_identity (raised (invocation_identity command submitted)) ≫= fun identity =>
  set_invocation identity ≫= fun _ =>
  allocating makes_fallback (Done (canonical (outcome "unknown" "publisher_outcome_unknown" identity))) ≫= fun fallback =>
  stop_if (64 * 1024 <? size fallback) (argument_error "publisher uncertainty response exceeds bound") ≫= fun _ =>
  set_unknown fallback.

Definition prepare_wire (prepare : prepare_type) (command : string) (submitted : value) : step (value * string) :=
  attempted (prepare command submitted) ≫= fun wire =>
  stop_if ((String.eqb command "install_local.plan" || recovery_command command) && negb (equal_values wire submitted))
    (another_error "public query/recovery preparation changed its complete request") ≫= fun _ =>
  allocating makes_wire (Done (canonical wire)) ≫= fun bytes =>
  stop_if (is_empty bytes || (request_limit <? size bytes)) (argument_error "registered wire request exceeds bound") ≫= fun _ =>
  done (wire, bytes).

Definition current_invocation : step value := fun x => (Done (invocation x), x).

Definition report (r : ValidatedPublisherResponse) : step PublisherClientResult :=
  match disposition r with
  | completed =>
    allocating writes_result (Done (canonical (result_value r))) ≫= fun text =>
    set_output text ≫= fun _ =>
    done (mk_client_result USK_STATUS_OK of_output)
  | d =>
    (if is_null (result_value r) then done tt
     else current_invocation ≫= fun v =>
       allocating adds_diagnostic (raised (emplace_member v "diagnostic" (result_value r))) ≫= set_invocation) ≫= fun _ =>
    current_invocation ≫= fun v =>
    allocating writes_result (Done (canonical (outcome
      (match d with refused => "refused" | _ => "recovery_required" end)
      (match error_code r with Some c => c | None => "publisher_failed" end) v))) ≫= fun text =>
    set_output text ≫= fun _ =>
    done (mk_client_result USK_STATUS_ERROR of_output)
  end.

Definition guarded (command_name request : option string) (transport : option transport_type) (prepare : option prepare_type)
    : step PublisherClientResult :=
  read_request command_name request ≫= fun '(command, submitted) =>
  bind_invocation command submitted ≫= fun _ =>
  match prepare, transport with
  | Some prepare, Some transport =>
    prepare_wire prepare command submitted ≫= fun '(wire, bytes) =>
    set_possible_dispatch true ≫= fun _ =>
    send transport bytes ≫= fun received =>
    allocating validates_response (raised (validate_publisher_response command wire received false)) ≫= report
  | _, _ => attempted (Raise (argument_error "registered client route unavailable"))
  end.

Definition reason_code (reason : Reason) : string :=
  match reason with
  | operation_cancelled => "operation_cancelled"
  | operation_conflict => "operation_conflict"
  | admission_refused => "publisher_admission_refused"
  end.

(** The handler of a request that was not sent. *)
Definition report_refusal (reason : Reason) (reference : string) : step PublisherClientResult :=
  set_possible_dispatch false ≫= fun _ =>
  let code := reason_code reason in
  (if is_empty reference then done tt
   else
     let observed := make_object [("operation_inspection_ref", string_value reference)] in
     current_invocation ≫= fun v =>
     allocating adds_diagnostic (raised (d ← publisher_operation_diagnostic observed (Some code);
       emplace_member v "diagnostic" d)) ≫= set_invocation) ≫= fun _ =>
  current_invocation ≫= fun v =>
  allocating writes_refusal (Done (canonical (outcome "refused" code v))) ≫= fun text =>
  set_output text ≫= fun _ =>
  done (mk_client_result USK_STATUS_ERROR of_output).

Definition uncertain (x : Execution) (otherwise : PublisherClientResult) : PublisherClientResult :=
  if possible_dispatch x && negb (is_empty (unknown (context x)))
  then mk_client_result USK_STATUS_ERROR of_unknown else otherwise.

(** No result: a callback has not returned. *)
Definition execute (c : PublisherClientContext) (command_name request : option string)
    (transport : option transport_type) (prepare : option prepare_type) : option PublisherClientResult * Execution :=
  let failed := mk_client_result USK_STATUS_ERROR (constant preparation_failed) in
  match guarded command_name request transport prepare (mk_execution (clear c) false null_value []) with
  | (Done r, x) => (Some r, x)
  | (Raise (EffectRequestNotDispatched reason reference), x) =>
    match report_refusal reason reference x with
    | (Done r, x) => (Some r, x)
    | (Raise _, x) => (Some failed, x)
    end
  | (Raise (argument_error _), x) =>
    (Some (uncertain x (mk_client_result USK_STATUS_INVALID_ARGUMENT (constant invalid_request))), x)
  | (Raise unfinished, x) => (None, x)
  | (Raise _, x) => (Some (uncertain x failed), x)
  end.
End Execute.

(** The C functions. *)
Definition usk_publisher_client_create_internal (name : option string) (n : N) : option PublisherClientContext :=
  match name with
  | None => None
  | Some name =>
    if negb (n =? 40) then None
    else match construct (str_take 40 name) with Ok c => Some c | Throw _ => None end
  end.

Definition usk_publisher_client_clear_internal (client : option PublisherClientContext) : option PublisherClientContext :=
  clear <$> client.

(** Off Windows there is no transport: the status, and no text. *)
Definition usk_publisher_client_execute_internal (client : option PublisherClientContext) (command request : option string)
    (status : option status_code) : option status_code * option string :=
  match status with
  | None => (None, None)
  | Some _ => (Some USK_STATUS_ERROR, None)
  end.
End Publisher.
