(* ===== verification/PublisherFacts.v ===== *)
(** The client of the publisher service: what an execution has sent and what it answers. *)

From Stdlib Require Import Ascii String NArith ZArith Lia.
From stdpp Require Import base list strings sets.
From S2P Require Import Prelude Effects Utf8 Sha256 StdMap Json JsonFacts JsonParse JsonProps Path World.
From S2P Require Import RecordIo DirectoryFacts TextFacts Publisher.

Module PublisherFacts.
Import Json JsonFacts ParseErrors Publisher.

(** ** Exceptions of the parts *)

Lemma catchable_argument {A} what : throws_catchable (@invalid_argument A what).
Proof. by intros e [= <-]. Qed.

Lemma catchable_and_also a b : throws_catchable a → throws_catchable b → throws_catchable (a &&& b).
Proof. intros Ha Hb. destruct a as [[]|e]; cbn; [done|apply catchable_ok|]. intros e' [= <-]. by apply Ha. Qed.

Lemma catchable_fold {A B} (f : B → A → result B) l : (∀ b x, throws_catchable (f b x)) →
  ∀ b, throws_catchable (fold_result f b l).
Proof. intros Hf. induction l as [|x l IH]; intros b; cbn [fold_result]; [apply catchable_ok|]. by apply catchable_bind. Qed.

Lemma catchable_as_boolean v : throws_catchable (as_boolean v).
Proof. destruct v; (apply catchable_ok || apply catchable_throw). Qed.

Lemma catchable_as_array v : throws_catchable (as_array v).
Proof. destruct v; (apply catchable_ok || apply catchable_throw). Qed.

#[local] Hint Resolve catchable_argument catchable_as_boolean catchable_as_array : catch.

Ltac no_let := progress (cbv zeta).
Ltac catches := intros; repeat (progress catch_auto || apply catchable_and_also || (apply catchable_fold; intros) || no_let).

Lemma catchable_require b what : throws_catchable (require b what).
Proof. apply catchable_throw_if. Qed.

Lemma catchable_refuse b what : throws_catchable b → throws_catchable (refuse_if b what).
Proof. unfold refuse_if. catches. Qed.

Lemma catchable_closed_request v fields : throws_catchable (closed_request v fields).
Proof. unfold closed_request, require. catches. Qed.

Lemma catchable_text v field n : throws_catchable (text v field n).
Proof. unfold text, require. catches. Qed.

#[local] Hint Resolve catchable_require catchable_closed_request catchable_text : catch.

Lemma catchable_identifier v field : throws_catchable (identifier v field).
Proof. unfold identifier. catches. Qed.
#[local] Hint Resolve catchable_identifier : catch.

Lemma catchable_inspection v : throws_catchable (publisher_public_recovery_inspection v).
Proof. unfold publisher_public_recovery_inspection, decode_apply, decode_plan, decode_inspection. catches. Qed.

Lemma catchable_shape command v : throws_catchable (require_shape command v).
Proof.
  unfold require_shape, require_public_install_plan_request, plan_archive, plan_recipe, strings_at, string_at, plan_string,
    closed_plan_request, require_field. catches.
Qed.

Lemma catchable_emplace v key m : throws_catchable (emplace_member v key m).
Proof. unfold emplace_member. catches. Qed.
#[local] Hint Resolve catchable_inspection catchable_emplace : catch.

Lemma catchable_identity command v : throws_catchable (invocation_identity command v).
Proof. unfold invocation_identity, recovery_identity, identity_fields, identity_field. catches. Qed.

Lemma catchable_schema command : throws_catchable (request_schema command).
Proof. unfold request_schema. catches. Qed.

Lemma catchable_diagnostic v code : throws_catchable (publisher_operation_diagnostic v code).
Proof. unfold publisher_operation_diagnostic. catches. Qed.
#[local] Hint Resolve catchable_diagnostic : catch.

Lemma catchable_closed_response v fields : throws_catchable (closed_response v fields).
Proof. unfold closed_response. catches. Qed.

Lemma catchable_member_differs a k b l : throws_catchable (member_differs a k b l).
Proof. unfold member_differs. catches. Qed.

Lemma catchable_member_is a k t : throws_catchable (member_is a k t).
Proof. unfold member_is. catches. Qed.

Lemma catchable_member_empty a k : throws_catchable (member_empty a k).
Proof. unfold member_empty. catches. Qed.

Lemma catchable_flag a k : throws_catchable (flag a k).
Proof. unfold flag. catches. Qed.

Lemma catchable_number a k : throws_catchable (number_of a k).
Proof. unfold number_of. catches. Qed.

Lemma catchable_not_hex a k : throws_catchable (not_hex a k).
Proof. unfold not_hex. catches. Qed.

#[local] Hint Resolve catchable_closed_response catchable_member_differs catchable_member_is catchable_member_empty
  catchable_flag catchable_number catchable_not_hex : catch.
Ltac catches_all := intros; repeat (progress catches || apply catchable_refuse).

Lemma catchable_document inspection binding plan : throws_catchable (public_native_recovery_document inspection binding plan).
Proof. unfold public_native_recovery_document, finalizable, binding_compatible, published_repair, negation. catches_all. Qed.
#[local] Hint Resolve catchable_document : catch.

Lemma catchable_native submitted observed : throws_catchable (require_public_native_recovery_response submitted observed).
Proof.
  unfold require_public_native_recovery_response, require_endpoint, require_framing, require_operation, require_binding,
    require_actions, require_projection, values_differ, require_seal, require_identity. catches_all.
Qed.

Lemma catchable_plan submitted observed : throws_catchable (require_public_install_plan_response submitted observed).
Proof.
  unfold require_public_install_plan_response, require_plan_endpoint, closed_plan, nested_differs, paths_differ. catches_all.
Qed.
#[local] Hint Resolve catchable_native catchable_plan : catch.

Lemma catchable_validate command submitted response retain :
  throws_catchable (validate_publisher_response command submitted response retain).
Proof.
  unfold validate_publisher_response, response_field, validate_pass, select_response, require_binding_of, require_verification,
    report_binding_differs, require_maintenance, require_installation, validate_drift, validate_refusal,
    publisher_operation_error_code. catches_all.
Qed.

(** ** Executions

    The exceptions that the statements of [execute] throw themselves. *)
Definition ordinary (e : thrown) : Prop :=
  match e with bad_alloc | argument_error _ | another_error _ => True | _ => False end.

Lemma raised_ordinary {A} (r : result A) e : throws_catchable r → raised r = Raise e → ordinary e.
Proof. intros Hc. destruct r as [a|[w|w| |]]; cbn; intros [= <-]; try done; by specialize (Hc _ eq_refl). Qed.

(** A computation that keeps the variables and throws ordinary exceptions only. *)
Definition plain {A} (m : step A) (Q : A → Prop) : Prop :=
  ∀ x, ∃ r, m x = (r, x) ∧ match r with Done a => Q a | Raise e => ordinary e end.

Lemma plain_bind {A B} (m : step A) (f : A → step B) Q R : plain m Q → (∀ a, Q a → plain (f a) R) → plain (m ≫= f) R.
Proof.
  intros Hm Hf x. destruct (Hm x) as ([a|e] & E & H).
  - destruct (Hf a H x) as (r & Er & Hr). exists r. split; [|done]. unfold mbind, step_bind. by rewrite E.
  - exists (Raise e). split; [|done]. unfold mbind, step_bind. by rewrite E.
Qed.

Lemma plain_done {A} (a : A) (Q : A → Prop) : Q a → plain (done a) Q.
Proof. intros H x. by exists (Done a). Qed.

Lemma plain_stop c e : ordinary e → plain (stop_if c e) (fun _ => c = false).
Proof. intros H x. destruct c; [by exists (Raise e)|by exists (Done tt)]. Qed.

Lemma plain_raised {A} (r : result A) : throws_catchable r → plain (attempted (raised r)) (fun a => r = Ok a).
Proof.
  intros H x. exists (raised r). split; [done|]. destruct (raised r) as [a|e] eqn:E; [|by eapply raised_ordinary].
  by destruct r as [b|[]]; inversion E.
Qed.

Lemma plain_allocating {A} exhausted s (r : attempt A) Q : plain (attempted r) Q → plain (allocating exhausted s r) Q.
Proof. intros H x. unfold allocating. destruct (exhausted s); [by exists (Raise bad_alloc)|apply H]. Qed.

(** What is known of a request that has been admitted. *)
Record admitted (command_name request : option string) (command : string) (submitted : value) : Prop := mk_admitted {
  admitted_command : command_name = Some command;
  admitted_request : ∃ text, request = Some text ∧ size text <= 1024 * 1024 ∧ parse text request_limits = Ok submitted;
  admitted_shape : require_shape command submitted = Ok tt;
  admitted_schema : ∃ schema, request_schema command = Ok schema ∧ at_string submitted "schema" = Ok schema;
  admitted_recovery : recovery_command command = true →
    ∃ inspection, publisher_public_recovery_inspection submitted = Ok (Some inspection) }.

Lemma plain_malformed v :
  plain (attempted (malformed (raised (publisher_public_recovery_inspection v))))
    (fun _ => ∃ inspection, publisher_public_recovery_inspection v = Ok (Some inspection)).
Proof.
  intros x. eexists. split; [reflexivity|]. pose proof (catchable_inspection v) as H.
  destruct (publisher_public_recovery_inspection v) as [[i|]|[w|w| |]]; cbn; eauto; by specialize (H _ eq_refl).
Qed.

Lemma read_request_plain exhausted command_name request :
  plain (read_request exhausted command_name request) (fun '(command, submitted) => admitted command_name request command submitted).
Proof.
  destruct command_name as [command|], request as [text|]; try (intros x; by exists (Raise (argument_error "bounded registered request is required"))).
  unfold read_request. eapply plain_bind; [by apply plain_stop|]. intros [] Hsize. apply orb_false_iff in Hsize as [_ Hsize%N.ltb_ge].
  eapply (plain_bind _ _ (fun c => c = command)); [by apply plain_allocating, (plain_done command)|]. intros ? ->.
  eapply plain_bind; [apply plain_raised, catchable_schema|]. intros schema Hschema.
  eapply plain_bind; [apply plain_allocating, plain_raised, catchable_parse|]. intros submitted Hparse.
  eapply plain_bind; [apply plain_allocating, plain_raised, catchable_shape|]. intros [] Hshape.
  eapply plain_bind; [apply plain_raised, catchable_differs|]. intros d Hd.
  eapply plain_bind; [by apply plain_stop|]. intros [] ->.
  assert (at_string submitted "schema" = Ok schema) as Hs.
  { unfold differs in Hd. apply bind_ok in Hd as (s & -> & Hd). injection Hd as Hd. apply negb_false_iff, String.eqb_eq in Hd. by rewrite Hd. }
  destruct (recovery_command command) eqn:Hrec.
  - eapply plain_bind; [apply plain_allocating, plain_malformed|]. intros [] Hi. apply plain_done. split; [done|by exists text|done|by exists schema|done].
  - eapply (plain_bind _ _ (fun _ => True)); [by apply plain_done|]. intros [] _. apply plain_done. split; [done|by exists text|done|by exists schema|congruence].
Qed.

(** An identity names the command and the digest of the request. *)
Definition names_request (command : string) (submitted v : value) : Prop :=
  ∃ m, v = object m ∧ StdMap.sorted m ∧ StdMap.find "command" m = Some (string_value command) ∧
    StdMap.find "request_sha256" m = Some (string_value (Sha256.sha256 (canonical submitted))).

Lemma emplace_keeps {A} k (v : A) k' v' m : StdMap.sorted m → StdMap.find k' m = Some v' →
  StdMap.find k' (fst (StdMap.emplace k v m)) = Some v'.
Proof.
  intros Hm Hf. destruct (decide (k = k')) as [<-|Hne]; [|by rewrite StdMap.find_emplace_other].
  induction Hm as [|[k1 v1] m _ IH Hlt]; [done|]. cbn [StdMap.find StdMap.emplace] in *.
  pose proof (StdMap.compare_ltb k k1) as C. destruct (String.eqb_spec k k1) as [->|Hne].
  - destruct (String.compare k1 k1) eqn:E; cbn [fst StdMap.find]; [by rewrite String.eqb_refl|by rewrite string_ltb_irrefl in C..].
  - destruct (String.compare k k1); cbn [fst StdMap.find]; [done| |].
    + rewrite (StdMap.sorted_find_None k m) in Hf; [done|]. eapply Forall_impl; [exact Hlt|]. intros p Hp. by eapply string_ltb_trans.
    + destruct (StdMap.emplace k v m) as [m' b]. cbn [fst StdMap.find]. destruct (String.eqb_spec k k1); [done|]. by apply IH.
Qed.

Lemma names_emplace command submitted v key x w : names_request command submitted v → emplace_member v key x = Ok w →
  names_request command submitted w.
Proof.
  intros (m & -> & Hs & H1 & H2) H. unfold emplace_member in H. cbn in H. injection H as <-.
  eexists. split; [reflexivity|]. split; [by apply StdMap.emplace_sorted|]. split; by apply emplace_keeps.
Qed.

Lemma names_field command submitted source v field w : names_request command submitted v → identity_field source v field = Ok w →
  names_request command submitted w.
Proof. unfold identity_field. intros Hv H. inv_result. by eapply names_emplace. Qed.

Lemma names_fields command submitted source fields : ∀ v w, names_request command submitted v →
  identity_fields source fields v = Ok w → names_request command submitted w.
Proof.
  unfold identity_fields. induction fields as [|f fields IH]; intros v w Hv H; cbn [fold_result] in H; [by injection H as <-|].
  apply bind_ok in H as (u & Hu & H). eapply IH, H. by eapply names_field.
Qed.

Lemma identity_names command submitted v : invocation_identity command submitted = Ok v → names_request command submitted v.
Proof.
  unfold invocation_identity. rewrite sha256_canonical_eq. cbn [mbind result_bind]. set (base := make_object _).
  assert (names_request command submitted base) as Hb.
  { eexists. split; [reflexivity|]. split; [apply StdMap.of_list_sorted|by split]. }
  clearbody base. intros H. repeat case_match; [by apply (names_fields _ _ _ _ _ _ Hb H)..| |].
  - unfold recovery_identity in H. apply bind_ok in H as (i & _ & H). apply bind_ok in H as (u & Hu & H).
    eapply names_fields in Hu; [|exact Hb]. apply bind_ok in H as (u' & Hu' & H).
    assert (names_request command submitted u') as Hn.
    { destruct (String.eqb command "recovery.plan"); [by apply (names_field _ _ _ _ _ _ Hu Hu')|by injection Hu' as <-]. }
    case_match; [by apply (names_fields _ _ _ _ _ _ Hn H)|by injection H as <-].
  - apply bind_ok in H as (u & Hu & H). apply bind_ok in H as (p & _ & H). eapply names_fields; [|exact H]. by apply (names_fields _ _ _ _ _ _ Hb Hu).
Qed.

Definition with_diagnostic (identity d : value) : value :=
  match identity with object m => object (fst (StdMap.emplace "diagnostic" d m)) | v => v end.

Lemma emplace_diagnostic command submitted identity d : names_request command submitted identity →
  emplace_member identity "diagnostic" d = Ok (with_diagnostic identity d).
Proof. by intros (m & -> & _). Qed.

(** ** The answers *)

Definition answer (o : option PublisherClientResult * Execution) : option (status_code * string) :=
  (fun r => (status r, text_of (context (snd o)) r)) <$> fst o.

(** The document of an outcome that is no result. *)
Definition answer_document (word code : string) (identity : value) : string :=
  canonical (object [("error", object [("code", string_value code)]); ("payload", identity);
    ("schema", string_value "usk.command_response.v1"); ("status", string_value word)]).

Lemma outcome_document word code identity : canonical (outcome word code identity) = answer_document word code identity.
Proof. reflexivity. Qed.

Definition uncertain_answer (identity : value) : status_code * string :=
  (USK_STATUS_ERROR, answer_document "unknown" "publisher_outcome_unknown" identity).

(** The two answers of a request that was not sent. *)
Definition not_prepared : status_code * string := (USK_STATUS_ERROR, lit
  "{'schema':'usk.command_response.v1','status':'error','payload':null,'error':{'code':'publisher_request_not_dispatched','message':'Publisher request preparation failed before dispatch'}}").
Definition not_valid : status_code * string := (USK_STATUS_INVALID_ARGUMENT, lit
  "{'schema':'usk.command_response.v1','status':'invalid_argument','payload':null,'error':{'code':'invalid_argument','message':'Public publisher request is invalid'}}").

Definition refusal_code (reason : Reason) : string :=
  match reason with
  | admission_refused => "publisher_admission_refused"
  | operation_conflict => "operation_conflict"
  | operation_cancelled => "operation_cancelled"
  end.

Definition validated_answer (identity : value) (v : ValidatedPublisherResponse) : status_code * string :=
  let refusal word := (USK_STATUS_ERROR, answer_document word (default "publisher_failed" (error_code v))
    (if is_null (result_value v) then identity else with_diagnostic identity (result_value v))) in
  match disposition v with
  | completed => (USK_STATUS_OK, canonical (result_value v))
  | refused => refusal "refused"
  | recovery_required => refusal "recovery_required"
  end.

Definition refusal_answer (identity : value) (reason : Reason) (reference : string) : status_code * string :=
  (USK_STATUS_ERROR, answer_document "refused" (refusal_code reason)
    (if is_empty reference then identity else with_diagnostic identity
      (object [("error_code", string_value (refusal_code reason)); ("inspection_reference", string_value reference);
        ("schema", string_value "usk.publisher_operation_diagnostic.v1")]))).

(** The state of an execution once the invocation is bound. *)
Definition bound (c : PublisherClientContext) (identity : value) (dispatch : bool) (bytes : list string) : Execution :=
  mk_execution (mk_context (endpoint c) EmptyString (canonical (outcome "unknown" "publisher_outcome_unknown" identity)))
    dispatch identity bytes.

Lemma bind_invocation_cases exhausted c command submitted :
  let x := mk_execution (clear c) false null_value [] in
  (∃ identity, invocation_identity command submitted = Ok identity ∧
    bind_invocation exhausted command submitted x = (Done tt, bound c identity false [])) ∨
  ∃ e v, ordinary e ∧ bind_invocation exhausted command submitted x = (Raise e, mk_execution (clear c) false v []).
Proof.
  intros x. unfold bind_invocation, allocating, mbind, step_bind, attempted.
  destruct (exhausted makes_identity); [right; by exists bad_alloc, null_value|].
  pose proof (raised_ordinary (invocation_identity command submitted)) as Hr.
  destruct (invocation_identity command submitted) as [identity|e] eqn:E.
  - cbn [raised set_invocation]. destruct (exhausted makes_fallback); [right; by exists bad_alloc, identity|].
    unfold stop_if, attempted. destruct (_ <? _) eqn:Es; [right; eexists _, identity; by split; [|reflexivity]|].
    left. by exists identity.
  - right. destruct (raised (Throw e)) as [a|e'] eqn:E'; [by destruct e|].
    exists e', null_value. split; [|done]. apply Hr; [|done]. rewrite <- E. apply catchable_identity.
Qed.
(** A request is prepared, refused, or the preparation itself has thrown. *)
Definition preserves (command : string) : bool :=
  existsb (String.eqb command) ["install_local.plan"; "recovery.inspect"; "recovery.plan"; "recovery.apply"].

Lemma prepare_wire_cases exhausted p command submitted x :
  (∃ wire, p command submitted = Done wire ∧ size (canonical wire) <= 1024 * 1024 ∧
    (preserves command = true → equal_values wire submitted = true) ∧
    prepare_wire exhausted p command submitted x = (Done (wire, canonical wire), x)) ∨
  ∃ e, (ordinary e ∨ p command submitted = Raise e) ∧ prepare_wire exhausted p command submitted x = (Raise e, x).
Proof.
  unfold prepare_wire, allocating, stop_if, mbind, step_bind, attempted. destruct (p command submitted) as [wire|e]; [|right; eauto].
  change (String.eqb command "install_local.plan" || recovery_command command) with (preserves command).
  destruct (preserves command && negb (equal_values wire submitted)) eqn:Ep; [right; eexists; split; [|reflexivity]; by left|].
  destruct (exhausted makes_wire); [right; exists bad_alloc; by split; [left|]|].
  destruct (is_empty _ || _) eqn:Es; [right; eexists; split; [|reflexivity]; by left|]. left. exists wire.
  apply orb_false_iff in Es as [_ Es%N.ltb_ge]. split; [done|]. split; [done|]. split; [|done].
  intros H. rewrite H in Ep. by destruct (equal_values wire submitted).
Qed.

Lemma report_cases exhausted command submitted c identity bytes v : names_request command submitted identity →
  (∃ r x, report exhausted v (bound c identity true bytes) = (Done r, x) ∧ sent x = bytes ∧ endpoint (context x) = endpoint c ∧
    answer (Some r, x) = Some (validated_answer identity v)) ∨
  ∃ e x s, ordinary e ∧ exhausted s = true ∧ report exhausted v (bound c identity true bytes) = (Raise e, x) ∧
    sent x = bytes ∧ context x = context (bound c identity true bytes) ∧ possible_dispatch x = true.
Proof.
  intros Hi. unfold report, validated_answer, allocating, mbind, step_bind, attempted, current_invocation.
  pose proof (emplace_diagnostic _ _ identity (result_value v) Hi) as Ed.
  destruct (exhausted writes_result) eqn:Ew, (exhausted adds_diagnostic) eqn:Ea, (disposition v), (is_null (result_value v));
    cbn [done bound invocation]; rewrite ?Ed; cbn [raised set_invocation];
    solve [left; eexists _, _; by split_and! | right; eexists bad_alloc, _, writes_result; by split_and! |
      right; eexists bad_alloc, _, adds_diagnostic; by split_and!].
Qed.
Lemma refusal_cases exhausted command submitted c identity d bytes reason reference : names_request command submitted identity →
  ∃ o x, report_refusal exhausted reason reference (bound c identity d bytes) = (o, x) ∧ sent x = bytes ∧
    endpoint (context x) = endpoint c ∧
    match o with
    | Done r => answer (Some r, x) = Some (refusal_answer identity reason reference)
    | Raise _ => True
    end.
Proof.
  intros Hi. unfold report_refusal, refusal_answer, allocating, mbind, step_bind, attempted, current_invocation.
  destruct (is_empty reference) eqn:Er; cbn [done bound invocation set_possible_dispatch].
  - destruct (exhausted writes_refusal); eexists _, _; by split_and!.
  - destruct (exhausted adds_diagnostic); [eexists _, _; by split_and!|].
    unfold publisher_operation_diagnostic. rewrite (bind_step (at_string _ _) _ reference) by reflexivity.
    change (negb (contains _ _)) with false. cbv iota.
    destruct (throw_if _ _) as [[]|e] eqn:Et; cbn [mbind result_bind].
    + rewrite (emplace_diagnostic _ _ _ _ Hi). cbn [raised set_invocation].
      destruct (exhausted writes_refusal); eexists _, _; by split_and!.
    + destruct (raised (Throw e)) as [w|e'] eqn:Ee; [by destruct e|]. eexists _, _. by split_and!.
Qed.

Lemma unknown_nonempty v : is_empty (canonical (outcome "unknown" "publisher_outcome_unknown" v)) = false.
Proof. by rewrite canonical_render. Qed.

(** What [execute] makes of an exception. *)
Definition handled exhausted (r : attempt PublisherClientResult * Execution) : option PublisherClientResult * Execution :=
  let failed := mk_client_result USK_STATUS_ERROR (constant preparation_failed) in
  match r with
  | (Done r, x) => (Some r, x)
  | (Raise (EffectRequestNotDispatched reason reference), x) =>
    match report_refusal exhausted reason reference x with
    | (Done r, x) => (Some r, x)
    | (Raise _, x) => (Some failed, x)
    end
  | (Raise (argument_error _), x) =>
    (Some (uncertain x (mk_client_result USK_STATUS_INVALID_ARGUMENT (constant invalid_request))), x)
  | (Raise unfinished, x) => (None, x)
  | (Raise _, x) => (Some (uncertain x failed), x)
  end.

Lemma handled_ordinary exhausted e x : ordinary e → ∃ r, handled exhausted (Raise e, x) = (Some r, x) ∧
  r = uncertain x (mk_client_result USK_STATUS_INVALID_ARGUMENT (constant invalid_request)) ∨
  handled exhausted (Raise e, x) = (Some r, x) ∧ r = uncertain x (mk_client_result USK_STATUS_ERROR (constant preparation_failed)).
Proof. destruct e; try done; intros _; eexists; first [by left|by right]. Qed.

Lemma handled_before exhausted e x : ordinary e → possible_dispatch x = false →
  snd (handled exhausted (Raise e, x)) = x ∧
  (answer (handled exhausted (Raise e, x)) = Some not_valid ∨ answer (handled exhausted (Raise e, x)) = Some not_prepared).
Proof.
  intros He Hd. destruct (handled_ordinary exhausted e x He) as (r & [[-> ->]|[-> ->]]); (split; [done|]);
    unfold uncertain; rewrite Hd; first [by left|by right].
Qed.

Lemma handled_after exhausted e x c identity bytes : ordinary e → possible_dispatch x = true →
  context x = context (bound c identity true bytes) →
  snd (handled exhausted (Raise e, x)) = x ∧ answer (handled exhausted (Raise e, x)) = Some (uncertain_answer identity).
Proof.
  intros He Hd Hc. destruct (handled_ordinary exhausted e x He) as (r & [[-> ->]|[-> ->]]); (split; [done|]);
    unfold uncertain, answer; rewrite Hd, Hc; cbn [bound context unknown]; rewrite unknown_nonempty; cbn; by rewrite Hc.
Qed.

Lemma handled_refusal exhausted command submitted c identity d bytes reason reference : names_request command submitted identity →
  let o := handled exhausted (Raise (EffectRequestNotDispatched reason reference), bound c identity d bytes) in
  sent (snd o) = bytes ∧ endpoint (context (snd o)) = endpoint c ∧
  (answer o = Some (refusal_answer identity reason reference) ∨ answer o = Some not_prepared).
Proof.
  intros Hi o. subst o. destruct (refusal_cases exhausted command submitted c identity d bytes reason reference Hi) as (o & x & E & Hs & He & Ha).
  unfold handled. rewrite E. destruct o as [r|e]; (split; [done|]); (split; [done|]); [by left|by right].
Qed.

(** The part of an execution that follows the transport. *)
Lemma received_cases exhausted command submitted c identity bytes wire received : names_request command submitted identity →
  let m := allocating exhausted validates_response (raised (validate_publisher_response command wire received false)) ≫= report exhausted in
  let o := handled exhausted (m (bound c identity true bytes)) in
  sent (snd o) = bytes ∧ endpoint (context (snd o)) = endpoint c ∧
  match validate_publisher_response command wire received false with
  | Ok v => answer o = Some (validated_answer identity v) ∨ answer o = Some (uncertain_answer identity) ∧ ∃ s, exhausted s = true
  | Throw _ => answer o = Some (uncertain_answer identity)
  end.
Proof.
  intros Hi m o. set (x0 := bound c identity true bytes) in *.
  assert (∀ e x, ordinary e → sent x = bytes → context x = context x0 → possible_dispatch x = true →
    sent (snd (handled exhausted (Raise e, x))) = bytes ∧ endpoint (context (snd (handled exhausted (Raise e, x)))) = endpoint c ∧
    answer (handled exhausted (Raise e, x)) = Some (uncertain_answer identity)) as Hu.
  { intros e x He Hs Hx Hd. destruct (handled_after exhausted e x c identity bytes He Hd Hx) as [-> ->].
    split; [done|]. split; [|done]. by rewrite Hx. }
  subst o m. unfold allocating, attempted, mbind, step_bind. destruct (exhausted validates_response) eqn:Ee.
  { destruct (Hu bad_alloc x0) as (H1 & H2 & H3); [done..|]. split; [done|]. split; [done|]. case_match; [right|done]. eauto. }
  pose proof (catchable_validate command wire received false) as Hc.
  destruct (validate_publisher_response command wire received false) as [v|e] eqn:Ev; cbn [raised].
  - destruct (report_cases exhausted command submitted c identity bytes v Hi) as [(r & x & E & Hs & He & Ha)|(e & x & s & He & Hs & E & Hb & Hx & Hd)];
      fold x0 in E; rewrite E.
    + split; [done|]. split; [done|]. by left.
    + destruct (Hu e x He Hb Hx Hd) as (H1 & H2 & H3). split; [done|]. split; [done|]. right. eauto.
  - destruct e as [w|w| |]; [by apply Hu..| |]; by specialize (Hc _ eq_refl).
Qed.

(** The answer once the transport has been given the message. *)
Definition settled (exhausted : statement → bool) (command : string) (wire identity : value) (delivered : attempt string)
    (a : option (status_code * string)) : Prop :=
  match delivered with
  | Done received =>
    match validate_publisher_response command wire received false with
    | Ok v => a = Some (validated_answer identity v) ∨ a = Some (uncertain_answer identity) ∧ ∃ s, exhausted s = true
    | Throw _ => a = Some (uncertain_answer identity)
    end
  | Raise (EffectRequestNotDispatched reason reference) => a = Some (refusal_answer identity reason reference) ∨ a = Some not_prepared
  | Raise unfinished => a = None
  | Raise _ => a = Some (uncertain_answer identity)
  end.

Lemma sent_settled exhausted command submitted c identity wire t : names_request command submitted identity →
  let m := send t (canonical wire) ≫= (fun received => allocating exhausted validates_response
      (raised (validate_publisher_response command wire received false)) ≫= report exhausted) in
  let o := handled exhausted (m (bound c identity true [])) in
  sent (snd o) = [canonical wire] ∧ endpoint (context (snd o)) = endpoint c ∧
  settled exhausted command wire identity (t (canonical wire)) (answer o).
Proof.
  intros Hi m o. assert (m (bound c identity true []) = match t (canonical wire) with
    | Done received => (allocating exhausted validates_response
        (raised (validate_publisher_response command wire received false)) ≫= report exhausted) (bound c identity true [canonical wire])
    | Raise e => (Raise e, bound c identity true [canonical wire])
    end) as E by reflexivity. subst o. rewrite E. clear E m. unfold settled.
  destruct (t (canonical wire)) as [received|e]; [exact (received_cases exhausted command submitted c identity [canonical wire] wire received Hi)|].
  set (o := handled exhausted _).
  assert (ordinary e → sent (snd o) = [canonical wire] ∧ endpoint (context (snd o)) = endpoint c ∧ answer o = Some (uncertain_answer identity)) as Ho.
  { intros He. subst o. destruct (handled_after exhausted e (bound c identity true [canonical wire]) c identity [canonical wire]) as [-> ->]; done. }
  destruct e as [|reason reference|w|w|]; [by apply Ho| |by apply Ho|by apply Ho|done].
  exact (handled_refusal exhausted command submitted c identity true [canonical wire] reason reference Hi).
Qed.

End PublisherFacts.

(** The public recovery requests that the client of the publisher accepts. *)

Module PublisherRecovery.
Import Json JsonFacts JsonParse JsonProps Path DirectoryFacts Publisher.

(** ** Requests *)

Record Inspection := mk_inspection {
  request_id : string; install_id : string; transaction_id : string; plan_id : string; plan_digest : string;
  operation : string; target_root : string; install_plan : option (list (string * value)) }.

Record Plan := mk_plan { planned : Inspection; recovery_plan_id : string; created_at : string }.

Record Apply := mk_apply { applied : Plan; reviewed_digest : string; selected_action : string; applied_at : string }.

Inductive Request := inspecting (i : Inspection) | planning (p : Plan) | applying (a : Apply).

Definition inspection_of (r : Request) : Inspection :=
  match r with inspecting i => i | planning p => planned p | applying a => planned (applied a) end.

Definition encode_inspection (i : Inspection) : value :=
  object ([("install_id", string_value (install_id i))] ++
    match install_plan i with Some m => [("install_plan_request", object m)] | None => [] end ++
    [("operation", string_value (operation i)); ("plan_digest", string_value (plan_digest i));
     ("plan_id", string_value (plan_id i)); ("request_id", string_value (request_id i));
     ("schema", string_value "usk.recovery_inspect_request.v1"); ("target_root", string_value (target_root i));
     ("transaction_id", string_value (transaction_id i))]).

Definition encode_plan (p : Plan) : value :=
  object [("created_at", string_value (created_at p)); ("inspection", encode_inspection (planned p));
    ("recovery_plan_id", string_value (recovery_plan_id p)); ("schema", string_value "usk.recovery_plan_request.v1")].

Definition encode_apply (a : Apply) : value :=
  object [("applied_at", string_value (applied_at a)); ("confirmation", string_value "APPLY");
    ("plan_request", encode_plan (applied a)); ("reviewed_plan_digest", string_value (reviewed_digest a));
    ("reviewed_plan_id", string_value (recovery_plan_id (applied a))); ("schema", string_value "usk.recovery_apply_request.v1");
    ("selected_action", string_value (selected_action a))].

Definition encode_request (r : Request) : value :=
  match r with inspecting i => encode_inspection i | planning p => encode_plan p | applying a => encode_apply a end.

(** The text of a SHA-256. *)
Definition digest_text (s : string) : Prop := size s = 64 ∧ forall_bytes Sha256.is_lower_hex s = true.

Definition bounded (limit : N) (s : string) : Prop := s ≠ EmptyString ∧ size s <= limit ∧ contains_nul s = false.

Record inspection_ok (i : Inspection) : Prop := mk_inspection_ok {
  ok_identifiers : Forall (fun s => RecordIo.valid_identifier s = true) [request_id i; install_id i; transaction_id i; plan_id i];
  ok_digest : digest_text (plan_digest i);
  ok_operation : operation i ∈ ["install_local"; "repair"; "move"; "uninstall"];
  ok_target : bounded 32767 (target_root i) ∧ is_absolute (target_root i) = true ∧
    components (lexically_normal (target_root i)) = components (target_root i);
  ok_install_plan : is_Some (install_plan i) → operation i = "install_local" }.

Record plan_ok (p : Plan) : Prop := mk_plan_ok {
  ok_planned : inspection_ok (planned p);
  ok_plan_id : RecordIo.valid_identifier (recovery_plan_id p) = true;
  ok_created : bounded 64 (created_at p) }.

Record apply_ok (a : Apply) : Prop := mk_apply_ok {
  ok_applied : plan_ok (applied a);
  ok_reviewed : digest_text (reviewed_digest a);
  ok_action : selected_action a = "finalize" ∨ selected_action a = "rollback";
  ok_applied_at : bounded 64 (applied_at a) }.

Definition request_ok (r : Request) : Prop :=
  match r with inspecting i => inspection_ok i | planning p => plan_ok p | applying a => apply_ok a end.

(** *** Texts *)

Lemma text_iff v field n s : text v field n = Ok s ↔ at_string v field = Ok s ∧ bounded n s.
Proof.
  unfold text, bounded. rewrite bind_ok. setoid_rewrite bind_ok. unfold require. setoid_rewrite throw_if_ok. split.
  - intros (t & Ht & [] & [[He%negb_true_iff Hn%N.leb_le]%andb_prop Hz%negb_true_iff]%negb_false_iff%andb_prop & [= ->]).
    split; [done|]. split; [by intros ->|done].
  - intros (Ht & He & Hn%N.leb_le & Hz). exists s. split; [done|]. exists tt. split; [|done].
    rewrite Hn, Hz. by destruct s.
Qed.

Lemma hex_iff s : hex s 64 = true ↔ digest_text s.
Proof. unfold hex. by rewrite andb_true_iff, N.eqb_eq. Qed.

Lemma hex_bounded s : digest_text s → bounded 64 s.
Proof.
  intros [H Hb]. split; [by intros ->|]. split; [lia|].
  unfold contains_nul, contains_byte. apply negb_false_iff. clear H. induction s as [|c s IH]; [done|].
  cbn [forall_bytes] in Hb |- *. apply andb_prop in Hb as [Hc Hb]. rewrite (IH Hb), andb_true_r. by_bytes c.
Qed.

Lemma identifier_bounded s : RecordIo.valid_identifier s = true → bounded 128 s.
Proof.
  unfold RecordIo.valid_identifier. intros [[He Hn%N.leb_le]%andb_prop Hb]%andb_prop. split; [by intros ->|]. split; [done|].
  unfold contains_nul, contains_byte. apply negb_false_iff. clear He Hn. induction s as [|c s IH]; [done|].
  cbn [forall_bytes] in Hb |- *. apply andb_prop in Hb as [Hc Hb]. rewrite (IH Hb), andb_true_r. by_bytes c.
Qed.

Lemma identifier_iff v field u : identifier v field = Ok u ↔ ∃ s, at_string v field = Ok s ∧ RecordIo.valid_identifier s = true.
Proof.
  unfold identifier. rewrite bind_ok. unfold require. setoid_rewrite throw_if_ok. setoid_rewrite negb_false_iff.
  setoid_rewrite text_iff. split; [naive_solver|]. intros (s & H1 & H2). exists s. split; [|done]. split; [done|by apply identifier_bounded].
Qed.

(** *** Closed objects *)

Lemma In_set_mem k l : k ∈ l → StdMap.set_mem k l = true.
Proof. intros H%list_elem_of_In. apply existsb_exists. exists k. split; [done|apply String.eqb_refl]. Qed.

Lemma closed_request_iff v fields : wf v → NoDup fields → closed_request v fields = Ok tt ↔
  ∃ m, v = object m ∧ fst <$> m = sort_names fields.
Proof.
  intros Hwf Hn. unfold closed_request, require. split.
  - intros H. apply bind_ok in H as (m & Hm & H). destruct v as [| | | | |m']; try discriminate Hm. apply ok_inj in Hm as ->.
    apply bind_ok in H as ([] & Hl%throw_if_ok%negb_false_iff%Nat.eqb_eq & H). exists m. split; [done|].
    destruct Hwf as [Hs _]. apply keys_exact; [done..|]. rewrite fold_unit_ok in H.
    eapply Forall_impl; [exact H|]. by intros p Hp%throw_if_ok%negb_false_iff.
  - intros (m & -> & Hk). cbn [as_object mbind result_bind].
    assert (length m = length fields) as -> by (rewrite <- (length_fmap fst m), Hk; apply Permutation_length, sort_names_perm).
    rewrite Nat.eqb_refl. cbn [negb throw_if mbind result_bind]. apply fold_unit_ok. apply Forall_forall. intros p Hp.
    apply throw_if_ok, negb_false_iff, In_set_mem. rewrite <- (sort_names_perm fields), <- Hk. apply list_elem_of_fmap. eauto.
Qed.
(** The members of an object whose keys are known. *)
Ltac open_object Hk :=
  match type of Hk with
  | fst <$> ?m = ?names =>
    let l := eval vm_compute in names in change (fst <$> m = l) in Hk;
    repeat (destruct m as [|[? ?] m]; [discriminate Hk|]; cbn [fmap list_fmap fst] in Hk; injection Hk as -> Hk);
    destruct m; [clear Hk|discriminate Hk]
  end.

Ltac known_member E := cbv [at_ as_object mbind result_bind StdMap.find String.eqb Ascii.eqb Bool.eqb] in E; apply ok_inj in E; subst.

Ltac known_members :=
  repeat match goal with
  | E : at_string (object _) _ = Ok _ |- _ =>
    unfold at_string in E; let x := fresh "x" in let F := fresh "F" in apply bind_ok in E as (x & F & E%as_string_ok); subst x; known_member F
  | E : at_ (object _) _ = Ok _ |- _ => known_member E
  end.

Lemma decode_inspection_inv v : wf v → decode_inspection v = Ok tt → ∃ i, inspection_ok i ∧ v = encode_inspection i.
Proof.
  intros Hwf H. unfold decode_inspection in H. apply bind_ok in H as (schema & Hschema & H).
  apply bind_ok in H as ([] & Hs%throw_if_ok%negb_false_iff%String.eqb_eq & H). subst schema.
  apply bind_ok in H as (op & [Hop _]%text_iff & H).
  apply bind_ok in H as ([] & Ho%throw_if_ok%negb_false_iff%set_mem_In & H).
  apply bind_ok in H as (fields & Hf & H). apply bind_ok in H as ([] & Hc & H).
  apply bind_ok in H as ([] & Hi & H). rewrite fold_unit_ok, !Forall_cons in Hi. destruct Hi as (Hi1 & Hi2 & Hi3 & Hi4 & _).
  apply identifier_iff in Hi1 as (id & Hi1 & Hid), Hi2 as (install & Hi2 & Hinstall), Hi3 as (tx & Hi3 & Htx), Hi4 as (plan & Hi4 & Hplan).
  apply bind_ok in H as (digest & [Hd _]%text_iff & H). apply bind_ok in H as ([] & Hhex%throw_if_ok%negb_false_iff%hex_iff & H).
  apply bind_ok in H as (target & [Ht Hbound]%text_iff & H%throw_if_ok%negb_false_iff). apply andb_prop in H as [Habs Hnorm%bool_decide_eq_true].
  destruct (contains v "install_plan_request") eqn:Econt.
  - apply bind_ok in Hf as ([] & Hop'%throw_if_ok%negb_false_iff%String.eqb_eq & Hf). apply bind_ok in Hf as (ip & Hip & Hf).
    apply bind_ok in Hf as (m' & Hm' & [= <-]). destruct ip as [| | | | |mp]; try discriminate Hm'.
    apply (closed_request_iff _ _ Hwf) in Hc as (m & -> & Hk); [|apply (bool_decide_unpack (NoDup _)); by vm_compute].
    open_object Hk. known_members. exists (mk_inspection id install tx plan digest "install_local" target (Some mp)).
    split; [|reflexivity]. split; [by repeat constructor|done..].
  - injection Hf as <-.
    apply (closed_request_iff _ _ Hwf) in Hc as (m & -> & Hk); [|apply (bool_decide_unpack (NoDup _)); by vm_compute].
    open_object Hk. known_members. exists (mk_inspection id install tx plan digest op target None).
    split; [|reflexivity]. split; [by repeat constructor|done..|]. by intros [].
Qed.
Lemma require_true b what : b = true → require b what = Ok tt.
Proof. by intros ->. Qed.

Lemma text_ok v field n s : at_string v field = Ok s → bounded n s → text v field n = Ok s.
Proof. intros. by apply text_iff. Qed.

Lemma identifier_ok v field s : at_string v field = Ok s → RecordIo.valid_identifier s = true → identifier v field = Ok tt.
Proof. intros. apply identifier_iff. eauto. Qed.

(** The keys of a closed object are the expected ones. *)
Lemma closed_keys m fields : (length m =? length fields)%nat = true → forallb (fun p => StdMap.set_mem (fst p) fields) m = true →
  closed_request (object m) fields = Ok tt.
Proof.
  intros Hl Hk. unfold closed_request, require. cbn [as_object mbind result_bind]. rewrite Hl. cbn [negb throw_if mbind result_bind].
  apply fold_unit_ok, Forall_forall. intros p Hp%list_elem_of_In. apply throw_if_ok, negb_false_iff.
  rewrite forallb_forall in Hk. by apply Hk.
Qed.

Lemma operation_bounded s : s ∈ recovery_operations → bounded 16 s.
Proof. unfold recovery_operations. rewrite !elem_of_cons. intros [->|[->|[->|[->|H]]]]; [by vm_compute..|set_solver]. Qed.

Lemma inspection_members i :
  at_string (encode_inspection i) "schema" = Ok inspect_schema ∧ at_string (encode_inspection i) "operation" = Ok (operation i) ∧
  at_string (encode_inspection i) "request_id" = Ok (request_id i) ∧ at_string (encode_inspection i) "install_id" = Ok (install_id i) ∧
  at_string (encode_inspection i) "transaction_id" = Ok (transaction_id i) ∧ at_string (encode_inspection i) "plan_id" = Ok (plan_id i) ∧
  at_string (encode_inspection i) "plan_digest" = Ok (plan_digest i) ∧ at_string (encode_inspection i) "target_root" = Ok (target_root i).
Proof. destruct i as [id install tx plan digest op target [mp|]]; by split_and!. Qed.

Lemma decode_encoded_inspection i : inspection_ok i → decode_inspection (encode_inspection i) = Ok tt.
Proof.
  intros [Hid Hd Hop (Hb & Ha & Hn) Hp]. rewrite !Forall_cons in Hid. destruct Hid as (H1 & H2 & H3 & H4 & _).
  destruct (inspection_members i) as (E1 & E2 & E3 & E4 & E5 & E6 & E7 & E8).
  unfold decode_inspection. rewrite (bind_step _ _ _ E1). next tt.
  rewrite (bind_step _ _ (operation i)) by (apply text_ok; [done|by apply operation_bounded]).
  rewrite (bind_step _ _ tt) by (by apply require_true, In_set_mem).
  rewrite (bind_step _ _ (match install_plan i with Some _ => "install_plan_request" :: inspection_fields | None => inspection_fields end)).
  2:{ destruct i as [id install tx plan digest op target [mp|]]; [|reflexivity]. cbn [install_plan operation] in *. by rewrite (Hp ltac:(eauto)). }
  rewrite (bind_step _ _ tt) by (destruct i as [id install tx plan digest op target [mp|]]; by apply closed_keys).
  rewrite (bind_step _ _ tt).
  2:{ apply fold_unit_ok. repeat (apply Forall_cons; split; [by eapply identifier_ok|]). constructor. }
  rewrite (bind_step _ _ (plan_digest i)) by (apply text_ok; [done|by apply hex_bounded]).
  rewrite (proj2 (hex_iff _) Hd). next tt. rewrite (bind_step _ _ (target_root i)) by (by apply text_ok).
  apply require_true. rewrite Ha. by apply bool_decide_eq_true_2.
Qed.

(** *** Plans and their applications *)

Lemma decode_plan_inv request v schema i : wf v → decode_plan request v schema = Ok i → 
  ∃ created id, v = object [("created_at", string_value created); ("inspection", i); ("recovery_plan_id", string_value id);
    ("schema", string_value plan_schema)] ∧ RecordIo.valid_identifier id = true ∧ bounded 64 created ∧
    (schema = apply_schema → at_string request "reviewed_plan_id" = Ok id).
Proof.
  intros Hwf H. unfold decode_plan in H. apply bind_ok in H as ([] & Hc & H).
  apply (closed_request_iff _ _ Hwf) in Hc as (m & -> & Hk); [|apply (bool_decide_unpack (NoDup _)); by vm_compute].
  apply bind_ok in H as (nested & Hs & H). apply bind_ok in H as ([] & Hn%throw_if_ok%negb_false_iff%String.eqb_eq & H).
  apply bind_ok in H as ([] & (id & Hi & Hid)%identifier_iff & H). apply bind_ok in H as (created & [Hcr Hb]%text_iff & H).
  apply bind_ok in H as ([] & Hr & H). open_object Hk. known_members. exists created, id. split; [done|]. split; [done|]. split; [done|].
  intros ->. rewrite String.eqb_refl in Hr. apply bind_ok in Hr as (r & Hr & H). apply bind_ok in H as (p & Hp & H%throw_if_ok%negb_false_iff%String.eqb_eq).
  known_members. simplify_eq. done.
Qed.

Lemma decode_apply_inv v p : wf v → at_string v "schema" = Ok apply_schema → decode_apply v = Ok p → 
  ∃ at_time digest id action, v = object [("applied_at", string_value at_time); ("confirmation", string_value "APPLY"); ("plan_request", p);
    ("reviewed_plan_digest", string_value digest); ("reviewed_plan_id", string_value id); ("schema", string_value apply_schema);
    ("selected_action", string_value action)] ∧ bounded 64 at_time ∧ digest_text digest ∧ (action = "finalize" ∨ action = "rollback").
Proof.
  intros Hwf Hs H. unfold decode_apply in H. apply bind_ok in H as ([] & Hc & H).
  apply (closed_request_iff _ _ Hwf) in Hc as (m & -> & Hk); [|apply (bool_decide_unpack (NoDup _)); by vm_compute].
  apply bind_ok in H as ([] & (id & Hi & Hid)%identifier_iff & H). apply bind_ok in H as (digest & [Hd _]%text_iff & H).
  apply bind_ok in H as ([] & Hhex%throw_if_ok%negb_false_iff%hex_iff & H). apply bind_ok in H as (action & [Hac _]%text_iff & H).
  apply bind_ok in H as (ok & Hok & H). apply bind_ok in H as ([] & ->%throw_if_ok%negb_false_iff & H).
  apply bind_ok in H as (at_time & [Ht Hb]%text_iff & H).
  assert ((action = "finalize" ∨ action = "rollback") ∧ at_string (object m) "confirmation" = Ok "APPLY") as [Ha Hconf].
  { destruct (_ || _) eqn:Eo; [|discriminate Hok]. split; [by apply orb_prop in Eo as [?%String.eqb_eq|?%String.eqb_eq]; [left|right]|].
    cbn [and_also mbind result_bind] in Hok. apply bind_ok in Hok as (c & [Hconf _]%text_iff & Hc%ok_inj). apply String.eqb_eq in Hc as ->. done. }
  open_object Hk. known_members. by exists at_time, digest, id, action.
Qed.
Lemma encoded_plan_ok request p schema : plan_ok p → (schema = apply_schema → at_string request "reviewed_plan_id" = Ok (recovery_plan_id p)) →
  decode_plan request (encode_plan p) schema = Ok (encode_inspection (planned p)).
Proof.
  intros [_ Hid Hc] Hr. unfold decode_plan. rewrite (bind_step _ _ tt) by (by apply closed_keys).
  next plan_schema. next tt. rewrite (bind_step _ _ tt) by (by eapply identifier_ok).
  rewrite (bind_step _ _ (created_at p)) by (by apply text_ok). rewrite (bind_step _ _ tt); [reflexivity|].
  destruct (String.eqb_spec schema apply_schema) as [->|]; [|done]. rewrite (Hr eq_refl). next (recovery_plan_id p).
  next (recovery_plan_id p). by apply require_true, String.eqb_refl.
Qed.

Lemma encoded_apply_ok a : apply_ok a → decode_apply (encode_apply a) = Ok (encode_plan (applied a)).
Proof.
  intros [[_ Hid _] Hd Ha Ht]. unfold decode_apply. rewrite (bind_step _ _ tt) by (by apply closed_keys).
  rewrite (bind_step _ _ tt) by (by eapply identifier_ok).
  rewrite (bind_step _ _ (reviewed_digest a)) by (apply text_ok; [reflexivity|by apply hex_bounded]). rewrite (proj2 (hex_iff _) Hd). next tt.
  rewrite (bind_step _ _ (selected_action a)) by (apply text_ok; [reflexivity|by destruct Ha as [-> | ->]; vm_compute]).
  rewrite (bind_step _ _ true).
  2:{ destruct Ha as [-> | ->]; cbn [and_also mbind result_bind]; by rewrite (bind_step _ _ "APPLY") by (apply text_ok; [reflexivity|by vm_compute]). }
  next tt. rewrite (bind_step _ _ (applied_at a)) by (by apply text_ok). reflexivity.
Qed.

Lemma wf_member m k v : wf (object m) → StdMap.find k m = Some v → wf v.
Proof. intros [_ H]%wf_object Hf%StdMap.find_In. rewrite Forall_forall in H. by apply (H _ Hf). Qed.

Lemma request_inspection r : request_ok r →
  publisher_public_recovery_inspection (encode_request r) = Ok (Some (encode_inspection (inspection_of r))).
Proof.
  intros Hr. unfold publisher_public_recovery_inspection. destruct r as [i|p|a]; cbn [encode_request inspection_of request_ok] in *.
  - destruct (inspection_members i) as (-> & _). cbn [mbind result_bind]. rewrite String.eqb_refl. cbv iota zeta.
    cbn [mbind result_bind]. by rewrite decode_encoded_inspection.
  - next plan_schema. change (String.eqb plan_schema inspect_schema) with false. rewrite String.eqb_refl. cbv iota zeta.
    rewrite encoded_plan_ok by done. cbn [mbind result_bind]. rewrite decode_encoded_inspection by apply Hr. done.
  - next apply_schema. change (String.eqb apply_schema inspect_schema) with false. change (String.eqb apply_schema plan_schema) with false.
    rewrite String.eqb_refl. cbv iota zeta. rewrite encoded_apply_ok by done. cbn [mbind result_bind].
    rewrite encoded_plan_ok by (done || apply Hr). cbn [mbind result_bind]. rewrite decode_encoded_inspection by apply Hr. done.
Qed.

(** C40 A recovery request is accepted exactly when it is the encoding of an inspection, of a plan
    of one or of the application of such a plan, closed, with valid identifiers and digests, an
    absolute normalized target, an installation plan only for an installation, a confirmation,
    an action of finalize or rollback, and a reviewed plan that is the one enclosed; and the
    inspection returned is the one enclosed. *)
Theorem recovery_request_exact v w : wf v →
  publisher_public_recovery_inspection v = Ok (Some w) ↔
  ∃ r, request_ok r ∧ v = encode_request r ∧ w = encode_inspection (inspection_of r).
Proof.
  intros Hwf. unfold publisher_public_recovery_inspection. split.
  - intros H. apply bind_ok in H as (schema & Hs & H). cbv zeta in H. apply bind_ok in H as (found & Hf & H).
    destruct found as [i|]; [|discriminate H]. apply bind_ok in H as ([] & Hi & [= <-]).
    destruct (String.eqb_spec schema inspect_schema) as [->|_].
    { injection Hf as ->. apply decode_inspection_inv in Hi as (j & Hj & ->); [|done]. by exists (inspecting j). }
    destruct (String.eqb_spec schema plan_schema) as [->|_].
    { apply bind_ok in Hf as (i' & Hp & [= ->]). apply decode_plan_inv in Hp as (created & id & -> & Hid & Hb & _); [|done].
      apply decode_inspection_inv in Hi as (j & Hj & ->); [|by eapply (wf_member _ "inspection")]. by exists (planning (mk_plan j id created)). }
    destruct (String.eqb_spec schema apply_schema) as [->|_]; [|discriminate Hf].
    apply bind_ok in Hf as (p & Ha & Hf). apply bind_ok in Hf as (i' & Hp & [= ->]).
    apply decode_apply_inv in Ha as (at_time & digest & id & action & -> & Hb & Hhex & Hact); [|done..].
    assert (wf p) as Hwp by (by eapply (wf_member _ "plan_request")).
    apply decode_plan_inv in Hp as (created & id' & -> & Hid & Hb' & Hr); [|done].
    specialize (Hr eq_refl). injection Hr as <-.
    apply decode_inspection_inv in Hi as (j & Hj & ->); [|by eapply (wf_member _ "inspection")].
    by exists (applying (mk_apply (mk_plan j id created) digest action at_time)).
  - intros (r & Hr & -> & ->). by apply request_inspection.
Qed.

(** ** A request *)

Definition sample_digest : string := "0123456789abcdef0123456789abcdef0123456789abcdef0123456789abcdef".

Definition sample_inspection : Inspection :=
  mk_inspection "r1" "app" "tx1" "p1" sample_digest "repair" "/opt/app" None.

Definition sample_application : Request :=
  applying (mk_apply (mk_plan sample_inspection "rp1" "2026-01-01T00:00:00Z") sample_digest "finalize" "2026-01-02T00:00:00Z").

Lemma sample_application_ok : request_ok sample_application.
Proof.
  split; cbn [applied reviewed_digest selected_action applied_at]; [|by vm_compute|by left|split; [done|by vm_compute]].
  split; cbn [planned recovery_plan_id created_at]; [|done|split; [done|by vm_compute]].
  split; cbn [request_id install_id transaction_id plan_id plan_digest operation target_root install_plan sample_inspection].
  - repeat constructor.
  - by vm_compute.
  - right. left.
  - split; [split; [done|by vm_compute]|]. by vm_compute.
  - by intros [].
Qed.

Lemma sample_wf : wf (encode_request sample_application).
Proof. split; [by_sorted|]. split_and!; try done. split; [by_sorted|]. split_and!; try done. split; [by_sorted|done]. Qed.

Lemma recovery_request_exact_witness :
  wf (encode_request sample_application) ∧
  publisher_public_recovery_inspection (encode_request sample_application) = Ok (Some (encode_inspection sample_inspection)).
Proof.
  assert (wf (encode_request sample_application)) as Hwf by apply sample_wf.
  split; [exact Hwf|].
  apply (recovery_request_exact (encode_request sample_application) (encode_inspection sample_inspection) Hwf).
  exists sample_application. split; [exact sample_application_ok|]. split; reflexivity.
Defined.

End PublisherRecovery.
